(* ===== verification/_CoqProject ===== *)
-Q . S2P
Prelude.v
Errors.v
Format.v
Header.v
PageRef.v
Eytzinger.v
Node.v
Encoding.v
Budget.v
Catalog.v
Page.v
TreePage.v
Btree.v
Query.v
Cursor.v
Index.v
IndexFacts.v
Trees.v
Table.v
Source.v
Cache.v
CacheFacts.v
CacheSync.v
Directory.v
Store.v
StoreFacts.v
StoreAccounts.v
OpenStore.v
Blob.v
Database.v
DatabaseFacts.v
Effects.v
Sink.v
SinkPages.v
Heap.v
Merger.v
Spool.v
SpoolFacts.v
SpoolSort.v
PageWriter.v
TreeWriter.v
EndToEnd.v
Built.v
BuiltTree.v
Builder.v
BuilderFacts.v
Spending.v
Feeding.v
BuiltTables.v
BuiltDatabase.v
BuiltFile.v
BuiltIndex.v
Verify.v
VerifyFacts.v
VerifySound.v
VerifyFile.v
