(* ===== verification/Prelude.v ===== *)
(** * drydb: a verified model of an embedded, read-only B+Tree database

    drydb ([crates/drydb/src]) builds immutable database files and reads them
    back inside a fixed memory budget.  This library models both halves and
    proves what a user relies on: a search or a scan returns exactly the entries
    the file holds, a written page reads back, the budget is never exceeded and
    never leaks, concurrent misses share one load, and no input, damaged or not,
    drives the modelled code out of bounds or into an endless walk (with one
    exception, recorded as [Btree.find_cached_diverges]).

    ** The program and the files here

    The file format.  [Format] ([format/mod.rs]): constants, ordinals, checked
    little-endian reads.  [Header], [PageRef], [Catalog] and [Node] are
    [format/header.rs], [pageref.rs], [catalog.rs] and [node.rs].  [Eytzinger]
    is the implicit tree order that pages store digests in.  [Errors] is
    [error.rs], with the text of one message only.

    Memory.  [Budget] ([budget.rs]) has the accounting twice: as the sequential
    operations the other files call, and as a step relation in which any number
    of threads interleave between the load, the compare-exchange and the peak
    update of [take]; [try_reserve_refines] connects the two.  [Page] is
    [page.rs]: pins, value guards, the marker that says who checked a page.

    Reading.  [Source] ([io.rs]) reads a file whose system calls may be short,
    interrupted or fail, by a schedule of events.  [Cache] ([cache.rs]) is the
    sharded CLOCK cache with its critical sections; [CacheFacts] its invariant
    and its accounting; [CacheSync] any number of threads on one shard.
    [Directory] ([directory.rs]) maps ordinals to offsets.  [Store] ([store.rs])
    puts these together; [StoreFacts] proves that it returns the pages of the
    file and [StoreAccounts] that it accounts for every byte.

    Searching.  [Encoding] ([encoding.rs]) has the key encodings, with the class
    [LawfulEncoding] for what a tree needs of one.  [TreePage] is the part of
    [btree.rs] that works on one page, [Btree] the walks between pages, against
    the class [TreeStore] with its laws [StoreLaws].  [Query] and [Cursor] are
    [query.rs], against [CursorStore].  [Index] and [IndexFacts] ([index.rs])
    are secondary indexes, whose cursor resolves page references.  [OpenStore]
    makes the store of [Store] an instance of these classes, so that every
    theorem on trees and cursors holds of the real store.

    Opening.  [Trees], [Table], [Blob], [Database] and [DatabaseFacts] are
    [db.rs] and [blob.rs]: the incremental read of the catalog, the checks of a
    file, the handles of tables and indexes, values and streams of values.

    Verifying.  [Verify] is [verify.rs]; [VerifyFacts] and [VerifySound] show
    what a tree without a reported problem is, [VerifyFile] says it of a whole
    file and its tables and indexes.

    Building.  [Effects] is the monad of the build path, where each file
    operation may fail by a schedule, with a weakest-precondition logic.
    [Sink] ([builder/sink.rs]) is the output file with its back patches;
    [SinkPages] says which pages it has stored.  [Heap], [Merger] and [Spool]
    ([builder/spool.rs]) are the external sort: the buffer, the runs in one
    file, the merges by tier; [SpoolFacts] and [SpoolSort] prove it sorts.
    [PageWriter] and [TreeWriter] ([builder/tree.rs]) are the pages and the
    cascade between levels; [Built] and [BuiltTree] follow the pages of a tree
    to the end and hand them to the reader.  [EndToEnd] runs writer and reader
    on one file.  [Builder] ([builder/mod.rs], [builder/temp.rs]) is the
    assembly of a database from its tables, and the temporary file that is
    renamed into place; [BuilderFacts] has what holds before and after a build.

    A build from end to end.  [Spending] is the room for rows that is used up as
    they are pushed; [Feeding] the loops that carry sorted records into a tree;
    [BuiltTables] the trees of a table and of its indexes; [BuiltDatabase] the
    whole file.  [BuiltFile] and [BuiltIndex] then open that file with the reader
    of [DatabaseFacts] and ask it for the rows.

    ** How state is modelled

    Integers are [Z]; every place where the source wraps, saturates or checks
    does so here ([wrap], [saturating_add], [checked_add]).  Bytes are
    [list byte].  Fallible code returns [result]; stateful code is [SM S E A].
    A shared buffer is a key of a heap ([Cache.Mem]) with a reference count;
    [HashMap] is [gmap] plus the capacity the allocator gave it, because the
    charges depend on it.  How the standard library grows tables is a parameter
    ([StdAlloc]), as are the capacity of a fresh vector and the compressor
    behind a page filter ([PageFilter]); the laws a theorem needs of them are
    its hypotheses, and the witnesses use concrete instances.

    The sequential store runs one call at a time.  Between two calls, other
    parts of the process take and drop pages and give back reservations: a
    schedule of [EnvEvent]s, arbitrary in every theorem.  What a query has
    reserved and gives back when its result is dropped comes back by such an
    event.  True interleaving is
    modelled where the code has it: the atomics of the budget and the lock,
    condition variable and in-flight markers of a cache shard.

    ** What the theorems show

    Reading, from the outside in: [OpenStore.open_store_search] and
    [open_store_scan] (searches and scans through the whole stack are those of
    the sorted sequence of entries); [Btree.search_correct],
    [Cursor.scan_correct], [Cursor.advance_correct], [Query.count_range_correct]
    (the same against the interface, for all well-formed trees and both
    directions; scans ask that no leaf is empty unless it is the only one, since
    an empty leaf at the edge hides entries from a descending scan, and that the
    pages of values kept off the leaves are there);
    [TreePage.checked_leaf_search] and [checked_child_index] (a page whose
    digests passed the check can be searched by digest);
    [OpenStore.store_page_correct] (the store returns the page the file defines
    or fails for a reason outside it).

    Writing: [PageWriter.written_page_is_searchable] and
    [written_page_round_trip]; [TreeWriter.tree_writer_safe] (whatever the
    entries and the I/O errors, the writer's internal checks never fire; the one
    on 64 levels, which has an error of its own here, is out of reach of keys
    that [check_key_fits] admits, because what the levels weigh never exceeds
    the number of entries) and [flush_page_writes];
    [Sink.sink_refines_contract] (buffering, patches and spills are invisible);
    [SpoolSort.spool_sorts] (what comes out of the external sort is what went
    in, sorted and stable) and [failed_write_is_final];
    [BuiltTree.built_tree_holds_the_rows] (a finished tree is a well-formed tree
    of exactly the rows that were pushed) and [built_table_answers] (looked up
    by the reader, it answers them); [BuilderFacts.appends_collected],
    [keep_inside_ends] and [build_to_file_atomic] (rows are collected, memory is
    kept inside the buffer, a failed build leaves the destination alone);
    [BuiltDatabase.build_into_correct] (a build never panics and leaves a file of
    the format with exactly the rows in its trees).

    Both ends: [BuiltFile.built_file_answers] (rows appended, built, opened and
    looked up by key) and [BuiltIndex.built_index_answers] (the same by ranges of
    an index).  They assume of the program around the library that names are UTF-8
    and encodings are those of [Buildable]; that the options know the filter and
    the encodings the file was built with, and the filter gives back what it has
    encoded ([filter_inverts]); that no value is longer than the largest page has
    room for, a bound of the class [PageLimit] that a store may set below
    [i32::MAX]; that the limits of the options admit pages of that size and trees
    of 64 levels, the most a build makes; of an index function that its keys are
    shorter than 4 GiB; and, for the range queries of an index that is not unique,
    that its encoding compares only identical keys as equal.

    Whole files: [DatabaseFacts.open_source_correct] and [opened_table_lookup],
    [VerifyFile.verified_database_is_sound] (in a file the verifier passes every
    index entry refers to a record of its own table, on a leaf or on a page the
    walk over the records has seen) and [verified_file_answers] (such a file
    answers lookups from its entries),
    [IndexFacts.index_range_correct], [Table.table_get_correct],
    [Blob.blob_reader_correct].

    Memory: [Budget.budget_accounting], [refusal_is_justified],
    [OpenStore.page_load_is_neutral], [Cursor.cursor_buffer_is_paid],
    [CacheFacts.evict_bytes_correct].

    Concurrency: [CacheSync.single_flight] and [waiters_are_woken].

    The format: round trips of headers, references, catalogs and keys; a parsed
    catalog is well formed; a validated page is safe to read.

    ** Loops and fuel

    A loop that is not structural has fuel, with a lemma that it suffices:
    descents and sibling walks take the source's own step counts, so running out
    is the source's error; [Source.read_exact_fuel] (a round reads a byte or
    uses up an event); [Cache.evict_rounds] and the rounds of [evict_down] (a
    round drops a page or passes a shard); twelve rounds of [get_or_load] (the
    source retries eight times); [Store.reclaim_rounds] for a directory chunk
    (a round drops a chunk, a page or the roots); 64 or 65 for the loops that
    double or halve a machine word ([complete_size], [grow_ring], the rank
    searches, [fill], [TreeWriter.ROTATE_FUEL] levels).  [skip_loop] of a cursor
    has the page steps of its position.  [find_cached] alone has no bound:
    [find_cached_diverges] is the damaged file on which the source spins.
    The read of a catalog has 65 rounds (a round doubles the part it has read);
    the copy of a blob and the scan of an index one round per byte and per
    entry; the merge passes of the external sort one per run; the loops of a
    build one round more than there are records, the loop that keeps sorters
    inside the buffer one per sorter (a round empties one), and a temporary file
    64 attempts, which is the source's own bound.

    ** Not modelled

    The counters of [metrics.rs], on which no decision depends; the text of
    errors, but for the one of [Errors.Error_too_high], and of the verifier's
    problems; [format_key] and [parse_key], which
    serve the command line; the system calls behind [FileSource] and behind the
    making of a temporary file's name; the compressor behind the page filter of
    [filter.rs], which is third-party code and a parameter here.  The command
    line, the async wrapper, the interoperability oracle and the value crates
    for rkyv and MessagePack are left out: they print, forward to a blocking
    executor, or are built around third-party serializers. *)

From Stdlib Require Import ZArith Lia.
From stdpp Require Import base list option sorting.
From coqutil Require Import Byte Word.LittleEndianList.

#[local] Open Scope Z_scope.

(** * Results and the error monad

    [Result<T>] of the source is [result Error T]; the error type itself is
    in [Errors.v].  [let? x := e in k] is Rust's [let x = e?; k] and
    [fail? c with e in k] is [if c { return Err(e) } k]. *)

Inductive result (E A : Type) : Type :=
| Ok (a : A)
| Err (e : E).
Arguments Ok {E A} a.
Arguments Err {E A} e.

Definition rbind {E A B} (m : result E A) (f : A -> result E B) : result E B :=
  match m with
  | Ok a => f a
  | Err e => Err e
  end.

Definition rmap {E A B} (f : A -> B) (m : result E A) : result E B :=
  match m with
  | Ok a => Ok (f a)
  | Err e => Err e
  end.

Definition map_err {E F A} (f : E -> F) (m : result E A) : result F A :=
  match m with
  | Ok a => Ok a
  | Err e => Err (f e)
  end.

Definition ok_or {E A} (o : option A) (e : E) : result E A :=
  match o with
  | Some a => Ok a
  | None => Err e
  end.

Definition is_ok {E A} (m : result E A) : bool :=
  match m with
  | Ok _ => true
  | Err _ => false
  end.

Declare Scope drydb_scope.
Delimit Scope drydb_scope with drydb.

Notation "'let?' x ':=' m 'in' k" := (rbind m (fun x => k))
  (at level 10, x binder, m at level 100, k at level 200)
  : drydb_scope.
Notation "'fail?' b 'with' e 'in' k" := (if b then Err e else k)
  (at level 10, b at level 100, e at level 100, k at level 200)
  : drydb_scope.

#[local] Open Scope drydb_scope.

Lemma rbind_Ok_inv {E A B} (m : result E A) (f : A -> result E B) b :
  rbind m f = Ok b -> exists a, m = Ok a /\ f a = Ok b.
Proof. destruct m; simpl; intros H; [eauto | discriminate]. Qed.

Lemma check_Ok_inv {E A} (b : bool) (e : E) (k : result E A) a :
  (if b then k else Err e) = Ok a -> b = true /\ k = Ok a.
Proof. destruct b; intros H; [auto | discriminate]. Qed.

Lemma guard_Ok_inv {E A} (b : bool) (e : E) (k : result E A) a :
  (if b then Err e else k) = Ok a -> b = false /\ k = Ok a.
Proof. destruct b; intros H; [discriminate | auto]. Qed.

Lemma map_err_Ok_inv {E F A} (f : E -> F) (m : result E A) a :
  map_err f m = Ok a -> m = Ok a.
Proof. destruct m; simpl; congruence. Qed.

Lemma ok_or_Ok_inv {E A} (o : option A) (e : E) a :
  ok_or o e = Ok a -> o = Some a.
Proof. destruct o; simpl; congruence. Qed.

(** [inv_ok] peels every successful step off a hypothesis [... = Ok _]. *)
Ltac inv_ok_step :=
  match goal with
  | H : Ok _ = Ok _ |- _ => injection H; clear H; intros; subst
  | H : Err _ = Ok _ |- _ => discriminate H
  | H : Ok _ = Err _ |- _ => discriminate H
  | H : rbind _ _ = Ok _ |- _ =>
      let x := fresh "v" in let E := fresh "E" in
      apply rbind_Ok_inv in H as (x & E & H)
  | H : map_err _ _ = Ok _ |- _ => apply map_err_Ok_inv in H
  | H : ok_or _ _ = Ok _ |- _ => apply ok_or_Ok_inv in H
  | H : (if _ then Err _ else _) = Ok _ |- _ =>
      let G := fresh "G" in apply guard_Ok_inv in H as [G H]
  | H : (if _ then _ else Err _) = Ok _ |- _ =>
      let G := fresh "G" in apply check_Ok_inv in H as [G H]
  end.
Ltac inv_ok := repeat inv_ok_step.

(** Case analysis on a boolean that leaves the context as it is. *)
Lemma bool_split (b : bool) : b = true \/ b = false.
Proof. destruct b; auto. Qed.

(** [bool_lia] turns boolean comparisons on [Z] into propositions for [lia]. *)
Ltac bool_hyps :=
  repeat match goal with
  | H : _ && _ = true |- _ => apply andb_prop in H as [? ?]
  | H : _ || _ = false |- _ => apply orb_false_elim in H as [? ?]
  | H : negb _ = true |- _ => apply negb_true_iff in H
  | H : negb _ = false |- _ => apply negb_false_iff in H
  end.
Ltac bool_lia := bool_hyps; lia.

(** [cmp_cases] settles every integer comparison of the goal, dropping the
    branches [lia] refutes. *)
Ltac cmp_case :=
  match goal with
  | |- context [?a <? ?b] => destruct (Z.ltb_spec a b)
  | |- context [?a <=? ?b] => destruct (Z.leb_spec a b)
  | |- context [?a =? ?b] => destruct (Z.eqb_spec a b)
  end; try (exfalso; lia).
Ltac cmp_cases := repeat (cmp_case; cbn [negb andb orb rbind ok_or map_err]).

(** * State and errors

    Code that mutates a receiver and can fail part way is an [SM]: it returns
    its [Result] together with the state it left behind, so an early return
    keeps what was done before it. *)

Definition SM (S E A : Type) : Type := S -> result E A * S.

Definition sret {S E A} (a : A) : SM S E A := fun s => (Ok a, s).
Definition sfail {S E A} (e : E) : SM S E A := fun s => (Err e, s).
Definition lift {S E A} (m : result E A) : SM S E A := fun s => (m, s).

Definition sget {S E} : SM S E S := fun s => (Ok s, s).
Definition smodify {S E} (f : S -> S) : SM S E unit := fun s => (Ok tt, f s).

Definition sbind {S E A B} (m : SM S E A) (f : A -> SM S E B) : SM S E B :=
  fun s =>
    match m s with
    | (Ok a, s') => f a s'
    | (Err e, s') => (Err e, s')
    end.

Notation "'let!' x ':=' m 'in' k" := (sbind m (fun x => k))
  (at level 10, x binder, m at level 100, k at level 200)
  : drydb_scope.
Notation "'fail!' b 'with' e 'in' k" := (if b then sfail e else k)
  (at level 10, b at level 100, e at level 100, k at level 200)
  : drydb_scope.

Lemma sbind_Ok_inv {S E A B} (m : SM S E A) (f : A -> SM S E B) s b s' :
  sbind m f s = (Ok b, s') -> exists a s1, m s = (Ok a, s1) /\ f a s1 = (Ok b, s').
Proof. unfold sbind. destruct (m s) as [[a|e] s1]; intros H; [eauto | congruence]. Qed.

Lemma sbind_Ok {S E A B} (m : SM S E A) (f : A -> SM S E B) s a s1 :
  m s = (Ok a, s1) -> sbind m f s = f a s1.
Proof. unfold sbind. now intros ->. Qed.

(** A relation between the states before and after that every step of a
    computation respects is respected by the whole. *)
Definition keeps {S E A} (R : S -> S -> Prop) (m : SM S E A) : Prop :=
  forall s, R s (snd (m s)).

Section Keeps.
Context {S E : Type} (R : S -> S -> Prop) `{!PreOrder R}.

Lemma keeps_sret {A} (a : A) : keeps R (sret a : SM S E A).
Proof. intros s; simpl; reflexivity. Qed.

Lemma keeps_sfail {A} e : keeps R (sfail e : SM S E A).
Proof. intros s; simpl; reflexivity. Qed.

Lemma keeps_lift {A} (m : result E A) : keeps R (lift m).
Proof. intros s; simpl; reflexivity. Qed.

Lemma keeps_sbind {A B} (m : SM S E A) (f : A -> SM S E B) :
  keeps R m -> (forall a, keeps R (f a)) -> keeps R (sbind m f).
Proof.
  intros Hm Hf s. unfold sbind. specialize (Hm s).
  destruct (m s) as [[a|e] s1]; simpl in *; [|exact Hm].
  etransitivity; [exact Hm | apply Hf].
Qed.
End Keeps.

#[export] Instance byte_eq_dec : EqDecision byte := Byte.byte_eq_dec.

(** * Lengths and slices

    A [usize] index is a non-negative [Z]; [zlen] is [len()]. *)

Definition zlen {A} (l : list A) : Z := Z.of_nat (length l).

Definition slice {A} (l : list A) (off len : Z) : list A :=
  take (Z.to_nat len) (drop (Z.to_nat off) l).

(** [l.get(off..end)]: [None] when the range is reversed or leaves the slice. *)
Definition get_range {A} (l : list A) (off stop : Z) : option (list A) :=
  if (0 <=? off) && (off <=? stop) && (stop <=? zlen l)
  then Some (slice l off (stop - off)) else None.

Definition get_at {A} (l : list A) (i : Z) : option A :=
  if 0 <=? i then l !! Z.to_nat i else None.

(** [buf[off..off + new.len()].copy_from_slice(new)]. *)
Definition splice {A} (l : list A) (off : Z) (new : list A) : list A :=
  take (Z.to_nat off) l ++ new ++ drop (Z.to_nat off + length new) l.

Lemma zlen_nonneg {A} (l : list A) : 0 <= zlen l.
Proof. unfold zlen; lia. Qed.

Lemma zlen_app {A} (l k : list A) : zlen (l ++ k) = zlen l + zlen k.
Proof. unfold zlen; rewrite length_app; lia. Qed.

Lemma zlen_nil {A} : zlen (@nil A) = 0.
Proof. reflexivity. Qed.

Lemma zlen_cons {A} (x : A) l : zlen (x :: l) = 1 + zlen l.
Proof. unfold zlen; simpl; lia. Qed.

Lemma zlen_take {A} (l : list A) n : 0 <= n <= zlen l -> zlen (take (Z.to_nat n) l) = n.
Proof. unfold zlen; intros; rewrite length_take; lia. Qed.

Lemma zlen_drop {A} (l : list A) n : 0 <= n <= zlen l -> zlen (drop (Z.to_nat n) l) = zlen l - n.
Proof. unfold zlen; intros; rewrite length_drop; lia. Qed.

Lemma zlen_le_split n z : zlen (le_split n z) = Z.of_nat n.
Proof. unfold zlen; rewrite length_le_split; reflexivity. Qed.

Lemma zlen_slice {A} (l : list A) off len :
  0 <= off -> 0 <= len -> off + len <= zlen l -> zlen (slice l off len) = len.
Proof. unfold zlen, slice; intros; rewrite length_take, length_drop; lia. Qed.

Lemma slice_app_l {A} (l k : list A) off len :
  0 <= off -> 0 <= len -> off + len <= zlen l -> slice (l ++ k) off len = slice l off len.
Proof.
  unfold slice, zlen; intros. rewrite drop_app_le by lia.
  rewrite take_app_le; [reflexivity | rewrite length_drop; lia].
Qed.

Lemma slice_app_r {A} (l k : list A) off len :
  zlen l <= off -> slice (l ++ k) off len = slice k (off - zlen l) len.
Proof.
  unfold slice, zlen; intros. rewrite drop_app_ge by lia. do 2 f_equal; lia.
Qed.

Lemma slice_all {A} (l : list A) len : len = zlen l -> slice l 0 len = l.
Proof. unfold slice, zlen; intros ->. rewrite drop_0, Nat2Z.id. apply firstn_all. Qed.

Lemma drop_zlen_app {A} (l k : list A) n : n = zlen l -> drop (Z.to_nat n) (l ++ k) = k.
Proof. intros ->. unfold zlen. rewrite Nat2Z.id. apply drop_app_length. Qed.

Lemma slice_exact {A} (l m k : list A) off len :
  off = zlen l -> len = zlen m -> slice (l ++ m ++ k) off len = m.
Proof.
  intros -> ->. rewrite slice_app_r by lia. rewrite Z.sub_diag.
  rewrite slice_app_l by (pose proof (zlen_nonneg m); lia). now apply slice_all.
Qed.

(** A slice of the middle part of a concatenation. *)
Lemma slice_mid {A} (l m k : list A) off len :
  0 <= off -> 0 <= len -> off + len <= zlen m -> slice (l ++ m ++ k) (zlen l + off) len = slice m off len.
Proof.
  intros. rewrite slice_app_r by lia. rewrite slice_app_l by lia. f_equal. lia.
Qed.

(** Elements of a fixed width, concatenated. *)
Lemma zlen_concat_fixed {A B} (f : A -> list B) w xs :
  (forall x, zlen (f x) = w) -> zlen (concat (f <$> xs)) = w * zlen xs.
Proof.
  intros Hf. induction xs as [|x xs IH]; [unfold zlen; simpl; lia|].
  rewrite fmap_cons. simpl concat. rewrite zlen_app, zlen_cons, IH, Hf. lia.
Qed.

Lemma slice_concat_fixed {A B} (f : A -> list B) w xs i x :
  (forall x, zlen (f x) = w) -> xs !! i = Some x ->
  slice (concat (f <$> xs)) (Z.of_nat i * w) w = f x.
Proof.
  intros Hf Hx. rewrite <- (take_drop_middle _ _ _ Hx). rewrite fmap_app, fmap_cons, concat_app. simpl.
  apply slice_exact; [|now rewrite Hf].
  rewrite (zlen_concat_fixed f w) by exact Hf. unfold zlen. rewrite length_take.
  apply lookup_lt_Some in Hx. lia.
Qed.

Lemma slice_slice {A} (l : list A) o1 n1 o2 n2 :
  0 <= o1 -> 0 <= o2 -> 0 <= n2 -> o2 + n2 <= n1 ->
  slice (slice l o1 n1) o2 n2 = slice l (o1 + o2) n2.
Proof.
  unfold slice; intros. rewrite skipn_firstn_comm, take_take, drop_drop.
  f_equal; [lia | f_equal; lia].
Qed.

Lemma slice_split {A} (l : list A) o n m :
  0 <= o -> 0 <= n -> 0 <= m -> slice l o (n + m) = slice l o n ++ slice l (o + n) m.
Proof.
  unfold slice; intros. rewrite !Z2Nat.inj_add by lia.
  rewrite <- drop_drop. symmetry. apply take_take_drop.
Qed.

Lemma slice_0_len {A} (l : list A) n : slice l 0 n = take (Z.to_nat n) l.
Proof. reflexivity. Qed.

Lemma slice_1 {A} (l : list A) o b : 0 <= o -> l !! Z.to_nat o = Some b -> slice l o 1 = [b].
Proof.
  intros ? Hb. unfold slice. rewrite (drop_S _ _ _ Hb). reflexivity.
Qed.

Lemma splice_mid {A} (a old new b : list A) off :
  zlen a = off -> length old = length new -> splice (a ++ old ++ b) off new = a ++ new ++ b.
Proof.
  unfold splice, zlen. intros <- Hl. rewrite Nat2Z.id, take_app_length. f_equal. f_equal.
  rewrite <- Hl, <- length_app, app_assoc, drop_app_length. reflexivity.
Qed.

Lemma zlen_splice {A} (l new : list A) off :
  0 <= off -> off + zlen new <= zlen l -> zlen (splice l off new) = zlen l.
Proof.
  unfold splice, zlen; intros. rewrite !length_app, length_take, length_drop. lia.
Qed.

Lemma elem_of_concat {A} (x : A) ls : x ∈ concat ls <-> exists i l, ls !! i = Some l /\ x ∈ l.
Proof.
  split.
  - induction ls as [|l ls IH]; simpl; [intros H; inversion H|].
    intros [H|H]%elem_of_app; [exists 0%nat, l; auto|].
    destruct (IH H) as (i & l' & Hi & Hx). exists (S i), l'. auto.
  - intros (i & l & Hi & Hx). revert i Hi; induction ls as [|l' ls IH]; intros [|i] Hi; simpl in *; simplify_eq.
    + apply elem_of_app; auto.
    + apply elem_of_app; right. eauto.
Qed.

Lemma get_range_Some {A} (l : list A) off stop s :
  get_range l off stop = Some s ->
  0 <= off <= stop /\ stop <= zlen l /\ s = slice l off (stop - off).
Proof.
  unfold get_range. case_match; intros; simplify_eq. bool_hyps.
  repeat split; lia || reflexivity.
Qed.

Lemma get_range_ok {A} (l : list A) off stop :
  0 <= off <= stop -> stop <= zlen l -> get_range l off stop = Some (slice l off (stop - off)).
Proof.
  unfold get_range; intros.
  destruct (Z.leb_spec 0 off), (Z.leb_spec off stop), (Z.leb_spec stop (zlen l)); simpl; lia || reflexivity.
Qed.

(** * Machine integers *)

Definition usize_max : Z := 2 ^ 64 - 1.
Definition u64_max : Z := 2 ^ 64 - 1.
Definition u16_max : Z := 2 ^ 16 - 1.
Definition i32_max : Z := 2 ^ 31 - 1.

Definition wrap (w z : Z) : Z := z mod 2 ^ w.
Definition swrap (w z : Z) : Z := (z + 2 ^ (w - 1)) mod 2 ^ w - 2 ^ (w - 1).

Definition checked_add (a b : Z) : option Z :=
  if a + b <=? usize_max then Some (a + b) else None.
Definition checked_mul (a b : Z) : option Z :=
  if a * b <=? usize_max then Some (a * b) else None.
Definition saturating_add (a b : Z) : Z := Z.min (a + b) usize_max.
Definition saturating_mul (a b : Z) : Z := Z.min (a * b) usize_max.
Definition saturating_sub (a b : Z) : Z := Z.max (a - b) 0.

Lemma checked_add_Some a b c : checked_add a b = Some c -> c = a + b /\ a + b <= usize_max.
Proof. unfold checked_add. case_match; intros; simplify_eq. lia. Qed.

Lemma checked_add_ok a b : a + b <= usize_max -> checked_add a b = Some (a + b).
Proof. unfold checked_add. intros; case_match; [reflexivity | lia]. Qed.

Lemma checked_mul_Some a b c : checked_mul a b = Some c -> c = a * b /\ a * b <= usize_max.
Proof. unfold checked_mul. case_match; intros; simplify_eq. lia. Qed.

Lemma checked_mul_ok a b : a * b <= usize_max -> checked_mul a b = Some (a * b).
Proof. unfold checked_mul. intros; case_match; [reflexivity | lia]. Qed.

Lemma swrap_range w z : 0 < w -> - 2 ^ (w - 1) <= swrap w z < 2 ^ (w - 1).
Proof.
  intros; unfold swrap. assert (2 ^ w = 2 * 2 ^ (w - 1)) as ->.
  { rewrite <- Z.pow_succ_r by lia. f_equal; lia. }
  pose proof (Z.mod_pos_bound (z + 2 ^ (w - 1)) (2 * 2 ^ (w - 1))).
  assert (0 < 2 ^ (w - 1)) by (apply Z.pow_pos_nonneg; lia). lia.
Qed.

Lemma swrap_small w z : 0 < w -> - 2 ^ (w - 1) <= z < 2 ^ (w - 1) -> swrap w z = z.
Proof.
  intros; unfold swrap. assert (2 ^ w = 2 * 2 ^ (w - 1)) as ->.
  { rewrite <- Z.pow_succ_r by lia. f_equal; lia. }
  rewrite Z.mod_small; lia.
Qed.

(** A value just past the signed range comes out negative. *)
Lemma swrap_negative w z : 0 < w -> 2 ^ (w - 1) <= z < 2 ^ w -> swrap w z = z - 2 ^ w.
Proof.
  intros; unfold swrap. assert (2 ^ w = 2 * 2 ^ (w - 1)) as Hp.
  { rewrite <- Z.pow_succ_r by lia. f_equal; lia. }
  rewrite Hp in *. rewrite <- (Z.mod_unique (z + 2 ^ (w - 1)) (2 * 2 ^ (w - 1)) 1 (z - 2 ^ (w - 1))) by lia. lia.
Qed.

Lemma swrap_wrap w z : 0 < w -> swrap w (z mod 2 ^ w) = swrap w z.
Proof. intros; unfold swrap. rewrite Zplus_mod_idemp_l. reflexivity. Qed.

Lemma wrap_swrap w z : 0 < w -> wrap w (swrap w z) = wrap w z.
Proof.
  intros; unfold swrap, wrap. rewrite Zminus_mod_idemp_l. f_equal; lia.
Qed.

(** * Disjoint bits *)

Lemma land_high_low a n x : 0 <= n -> 0 <= x < 2 ^ n -> Z.land (a * 2 ^ n) x = 0.
Proof.
  intros Hn Hx. apply Z.bits_inj'. intros m Hm. rewrite Z.land_spec, Z.bits_0.
  destruct (Z.ltb_spec m n).
  - rewrite Z.mul_pow2_bits_low by lia. reflexivity.
  - rewrite <- (Z.mod_small x (2 ^ n)) by lia. rewrite Z.mod_pow2_bits_high by lia.
    apply andb_false_r.
Qed.

Lemma lor_high_low a n x : 0 <= n -> 0 <= x < 2 ^ n -> Z.lor (a * 2 ^ n) x = a * 2 ^ n + x.
Proof.
  intros. pose proof (Z.add_lor_land (a * 2 ^ n) x). rewrite land_high_low in * by lia. lia.
Qed.

Lemma lxor_high_low a n x : 0 <= n -> 0 <= x < 2 ^ n -> Z.lxor (a * 2 ^ n) x = a * 2 ^ n + x.
Proof. intros. rewrite <- Z.add_nocarry_lxor; [reflexivity | now apply land_high_low]. Qed.

(** * Sorted lists of lists *)

Lemma sorted_concat_le {A} (R : A -> A -> Prop) (ls : list (list A)) i j x y li lj :
  StronglySorted R (concat ls) -> ls !! i = Some li -> ls !! j = Some lj -> (i < j)%nat -> x ∈ li -> y ∈ lj -> R x y.
Proof.
  revert i j. induction ls as [|l ls IH]; intros i j Hs Hi Hj Hij Hx Hy; [discriminate|]. cbn [concat] in Hs.
  destruct i as [|i], j as [|j]; try lia.
  - injection Hi as ->. cbn in Hj. apply list_elem_of_split in Hx as (l1 & l2 & ->). rewrite <- app_assoc in Hs.
    apply StronglySorted_app_1_r in Hs. cbn in Hs. apply StronglySorted_inv in Hs as [_ Hs]. rewrite Forall_forall in Hs. apply Hs.
    apply elem_of_app. right. apply elem_of_concat. eauto.
  - apply (IH i j); auto; [now apply StronglySorted_app_1_r in Hs | lia].
Qed.

Lemma sorted_concat_part {A} (R : A -> A -> Prop) (ls : list (list A)) i l :
  StronglySorted R (concat ls) -> ls !! i = Some l -> StronglySorted R l.
Proof.
  revert i. induction ls as [|l' ls IH]; intros [|i] Hs Hi; try discriminate; cbn [concat] in Hs.
  - injection Hi as ->. now apply StronglySorted_app_1_l in Hs.
  - apply (IH i); auto. now apply StronglySorted_app_1_r in Hs.
Qed.
