(* ===== verification/Errors.v ===== *)
(** The error type of [crates/drydb/src/error.rs].

    An [Error] keeps what a caller can observe programmatically: the kind, the
    location and the budget details.  The OS error source is dropped, and of the
    message texts only one is kept: [Error_too_high], the error of a tree that
    would pass 64 levels, so that the theorems can tell it from every other
    [CorruptData].  [err_message] is [None] where the text is not modelled. *)

From Stdlib Require Import ZArith String.
From stdpp Require Import base decidable.
From S2P Require Import Prelude.

#[local] Open Scope Z_scope.

Inductive ErrorKind : Set :=
| Io
| UnsupportedFormat
| UnknownEncoding
| UnknownFilter
| CorruptData
| BudgetExceeded
| ValueTooLarge
| SchemaMismatch
| ArchiveValidation
| InvalidArgument
| Unsupported.

#[export] Instance ErrorKind_eq_dec : EqDecision ErrorKind.
Proof. solve_decision. Defined.

Record Location : Set := mkLocation {
  loc_page : option Z;
  loc_offset : option Z;
}.

Record BudgetInfo : Set := mkBudgetInfo {
  bi_requested : Z;
  bi_in_use : Z;
  bi_limit : Z;
  bi_retryable : bool;
}.

Record Error : Set := mkError {
  err_kind : ErrorKind;
  err_location : Location;
  err_budget : option BudgetInfo;
  err_message : option string;
}.

#[export] Instance Error_eq_dec : EqDecision Error.
Proof. unfold EqDecision, Decision; repeat decide equality. Defined.

Abbreviation Result A := (result Error A).

Definition Error_new (kind : ErrorKind) : Error :=
  {| err_kind := kind; err_location := mkLocation None None; err_budget := None; err_message := None |}.

Definition Error_corrupt : Error := Error_new CorruptData.
(** The error of [rotate] at [MAX_LEVELS], with its text. *)
Definition Error_too_high : Error :=
  {| err_kind := CorruptData; err_location := mkLocation None None; err_budget := None;
     err_message := Some "internal error: the tree reached 64 levels without the entry count falling"%string |}.

Definition Error_invalid : Error := Error_new InvalidArgument.

Definition Error_io : Error :=
  {| err_kind := Io; err_location := mkLocation None None; err_budget := None; err_message := None |}.

Definition Error_of_budget (info : BudgetInfo) : Error :=
  {| err_kind := BudgetExceeded; err_location := mkLocation None None; err_budget := Some info; err_message := None |}.

Definition at_page (e : Error) (page : Z) : Error :=
  {| err_kind := err_kind e;
     err_location := mkLocation (Some page) (loc_offset (err_location e));
     err_budget := err_budget e; err_message := err_message e |}.

Definition at_offset (e : Error) (offset : Z) : Error :=
  {| err_kind := err_kind e;
     err_location := mkLocation (loc_page (err_location e)) (Some offset);
     err_budget := err_budget e; err_message := err_message e |}.

Definition is_retryable (e : Error) : bool :=
  match err_budget e with
  | Some b => bi_retryable b
  | None => false
  end.

(** Annotating an error never changes its category or its budget details. *)
Lemma at_page_kind e p : err_kind (at_page e p) = err_kind e.
Proof. reflexivity. Qed.

Lemma at_offset_kind e o : err_kind (at_offset e o) = err_kind e.
Proof. reflexivity. Qed.
