(* ===== verification/Format.v ===== *)
(** Little-endian reads and the page pointer types of
    [crates/drydb/src/format/mod.rs]. *)

From Stdlib Require Import ZArith Lia.
From stdpp Require Import base list.
From coqutil Require Import Byte Word.LittleEndianList.
From S2P Require Import Prelude Errors.

#[local] Open Scope Z_scope.
#[local] Open Scope drydb_scope.

(** * Layout constants *)

Definition MAGIC : list byte := [Byte.x44; Byte.x52; Byte.x59; Byte.x00].
Definition MAJOR_VERSION : Z := 1.
Definition MINOR_VERSION : Z := 4.
Definition HEADER_LEN : Z := 26.
Definition PAGE_COUNT_FIELD_OFFSET : Z := 14.
Definition PAGE_LENGTH_LEN : Z := 4.
Definition NODE_HEADER_LEN : Z := 24.
Definition PAGE_PREFIX_LEN : Z := PAGE_LENGTH_LEN + NODE_HEADER_LEN.
Definition RIGHT_SIBLING_OFFSET : Z := PAGE_PREFIX_LEN - 8.
Definition LEFT_SIBLING_OFFSET : Z := PAGE_PREFIX_LEN - 16.
Definition ENTRY_COUNT_OFFSET : Z := 8.
Definition KIND_OFFSET : Z := 4.
Definition DIGEST_BASE : Z := PAGE_PREFIX_LEN.
Definition DIRECTORY_SLOT_LEN : Z := 8.
Definition MAX_COMPACT_PAGE_SIZE : Z := 0x7FFF.
Definition OVERFLOW_SENTINEL : Z := u16_max.
Definition COMPACT_OVERFLOW_BIT : Z := 0x8000.
Definition COMPACT_OFFSET_MASK : Z := 0x7FFF.

(** * Page pointers

    [PageOrdinal], [FileOffset] and [PageLocalOffset] wrap an unsigned integer;
    the model keeps the integer. *)

Definition PageOrdinal : Set := Z.
Definition FileOffset : Set := Z.
Definition PageLocalOffset : Set := Z.

Definition PageOrdinal_from_i64 (value : Z) : Result (option PageOrdinal) :=
  if value =? -1 then Ok None
  else if 0 <=? value then Ok (Some value)
  else Err Error_corrupt.

(** [p.0 as i64]: ordinals past [i64::MAX] wrap. *)
Definition PageOrdinal_to_i64 (this : option PageOrdinal) : Z :=
  match this with
  | None => -1
  | Some p => swrap 64 p
  end.

Definition FileOffset_from_i64 (value : Z) : Result FileOffset :=
  if value <? 0 then Err Error_corrupt else Ok value.

(** * Length-checked reads *)

Definition read_u8 (buf : list byte) (offset : Z) : Result Z :=
  rmap byte.unsigned (ok_or (get_at buf offset) (at_offset Error_corrupt offset)).

Definition read_slice (buf : list byte) (offset len : Z) : Result (list byte) :=
  let? stop := ok_or (checked_add offset len) (at_offset Error_corrupt offset) in
  ok_or (get_range buf offset stop) (at_offset Error_corrupt offset).

(** The [read_le!] macro: a checked range followed by [from_le_bytes]. *)
Definition read_le (from_le_bytes : list byte -> Z) (len : Z) (buf : list byte) (offset : Z)
    : Result Z :=
  let? stop := ok_or (checked_add offset len) (at_offset Error_corrupt offset) in
  let? bytes := ok_or (get_range buf offset stop) (at_offset Error_corrupt offset) in
  Ok (from_le_bytes bytes).

Definition read_u16 : list byte -> Z -> Result Z := read_le le_combine 2.
Definition read_i32 : list byte -> Z -> Result Z := read_le (fun bs => swrap 32 (le_combine bs)) 4.
Definition read_i64 : list byte -> Z -> Result Z := read_le (fun bs => swrap 64 (le_combine bs)) 8.
Definition read_u64 : list byte -> Z -> Result Z := read_le le_combine 8.

(** [x.to_le_bytes()] for each width; the two's complement form of a negative
    number falls out of taking bytes modulo 256. *)
Definition u16_le (z : Z) : list byte := le_split 2 z.
Definition i32_le (z : Z) : list byte := le_split 4 z.
Definition i64_le (z : Z) : list byte := le_split 8 z.
Definition u64_le (z : Z) : list byte := le_split 8 z.

Definition checked_len (value : Z) : Result Z :=
  if value <? 0 then Err Error_corrupt else Ok value.

(** * What a read returns *)

Lemma read_le_ok f n buf off :
  0 <= off -> 0 <= n -> off + n <= zlen buf -> zlen buf <= usize_max ->
  read_le f n buf off = Ok (f (slice buf off n)).
Proof.
  intros; unfold read_le. rewrite checked_add_ok by lia; simpl.
  rewrite get_range_ok by lia; simpl. do 2 f_equal. f_equal; lia.
Qed.

Lemma read_le_inv f n buf off v :
  read_le f n buf off = Ok v ->
  0 <= off /\ off + n <= zlen buf /\ v = f (slice buf off n).
Proof.
  unfold read_le; intros; inv_ok.
  match goal with H : checked_add _ _ = _ |- _ => apply checked_add_Some in H as [-> ?] end.
  match goal with H : get_range _ _ _ = _ |- _ => apply get_range_Some in H as (? & ? & ->) end.
  repeat split; try lia. f_equal. f_equal; lia.
Qed.

Lemma read_slice_ok buf off len :
  0 <= off -> 0 <= len -> off + len <= zlen buf -> zlen buf <= usize_max ->
  read_slice buf off len = Ok (slice buf off len).
Proof.
  intros; unfold read_slice. rewrite checked_add_ok by lia; simpl.
  rewrite get_range_ok by lia; simpl. f_equal. f_equal; lia.
Qed.

Lemma read_slice_inv buf off len s :
  read_slice buf off len = Ok s ->
  0 <= off /\ 0 <= len /\ off + len <= zlen buf /\ s = slice buf off len.
Proof.
  unfold read_slice; intros; inv_ok.
  match goal with H : checked_add _ _ = _ |- _ => apply checked_add_Some in H as [-> ?] end.
  match goal with H : get_range _ _ _ = _ |- _ => apply get_range_Some in H as (? & ? & ->) end.
  repeat split; try lia. f_equal; lia.
Qed.

(** Every failing read reports corruption at the offset it was asked for. *)
Lemma read_le_err f n buf off e :
  read_le f n buf off = Err e -> e = at_offset Error_corrupt off.
Proof.
  unfold read_le, rbind, ok_or. repeat case_match; congruence.
Qed.

Lemma read_slice_err buf off len e :
  read_slice buf off len = Err e -> e = at_offset Error_corrupt off.
Proof.
  unfold read_slice, rbind, ok_or. repeat case_match; congruence.
Qed.

Lemma le_combine_u16 z : 0 <= z <= u16_max -> le_combine (u16_le z) = z.
Proof.
  unfold u16_max, u16_le; intros. rewrite le_combine_split. apply Z.mod_small. simpl; lia.
Qed.

Lemma le_combine_u64 z : 0 <= z <= u64_max -> le_combine (u64_le z) = z.
Proof.
  unfold u64_max, u64_le; intros. rewrite le_combine_split. apply Z.mod_small. simpl; lia.
Qed.

Lemma swrap_i32_le z : - 2 ^ 31 <= z < 2 ^ 31 -> swrap 32 (le_combine (i32_le z)) = z.
Proof.
  intros; unfold i32_le. rewrite le_combine_split. simpl Z.of_nat.
  rewrite swrap_wrap by lia. apply swrap_small; simpl; lia.
Qed.

Lemma swrap_i64_le z : - 2 ^ 63 <= z < 2 ^ 63 -> swrap 64 (le_combine (i64_le z)) = z.
Proof.
  intros; unfold i64_le. rewrite le_combine_split. simpl Z.of_nat.
  rewrite swrap_wrap by lia. apply swrap_small; simpl; lia.
Qed.

Lemma le_combine_slice_bound (buf : list byte) off n :
  0 <= n -> 0 <= le_combine (slice buf off n) < 2 ^ (8 * n).
Proof.
  intros. pose proof (le_combine_bound (slice buf off n)) as [Hl Hu].
  split; [assumption |]. eapply Z.lt_le_trans; [exact Hu |].
  apply Z.pow_le_mono_r; [lia |]. unfold slice. rewrite length_take. lia.
Qed.

Lemma zlen_u16_le z : zlen (u16_le z) = 2. Proof. apply zlen_le_split. Qed.
Lemma zlen_i32_le z : zlen (i32_le z) = 4. Proof. apply zlen_le_split. Qed.
Lemma zlen_i64_le z : zlen (i64_le z) = 8. Proof. apply zlen_le_split. Qed.
Lemma zlen_u64_le z : zlen (u64_le z) = 8. Proof. apply zlen_le_split. Qed.

Create Rewrite HintDb zlen.
#[export] Hint Rewrite @zlen_app @zlen_nil @zlen_cons zlen_u16_le zlen_i32_le zlen_i64_le
  zlen_u64_le : zlen.

Ltac unfold_consts :=
  unfold HEADER_LEN, RIGHT_SIBLING_OFFSET, LEFT_SIBLING_OFFSET, DIGEST_BASE, ENTRY_COUNT_OFFSET,
    KIND_OFFSET, PAGE_PREFIX_LEN, PAGE_LENGTH_LEN, NODE_HEADER_LEN, DIRECTORY_SLOT_LEN,
    MAX_COMPACT_PAGE_SIZE, OVERFLOW_SENTINEL, COMPACT_OVERFLOW_BIT, COMPACT_OFFSET_MASK,
    PAGE_COUNT_FIELD_OFFSET, MAJOR_VERSION, MINOR_VERSION,
    usize_max, u64_max, u16_max, i32_max in *.

(** [fmt_lia] is [lia] up to the layout constants, [zlen_lia] also computes the
    lengths of a concatenation of encoded fields. *)
Ltac fmt_lia := unfold_consts; first [lia | simpl in *; lia].
Ltac zlen_lia := autorewrite with zlen; unfold_consts; lia.

(** [slice_field] resolves [slice] at a literal offset of a concatenation of
    encoded fields down to the field it falls on. *)
Ltac slice_field :=
  repeat first
    [ rewrite slice_all by zlen_lia
    | rewrite slice_app_l by zlen_lia
    | rewrite slice_app_r by zlen_lia; autorewrite with zlen; simpl (_ - _) ].

Lemma le_split_swrap n w z : w = Z.of_nat n * 8 -> 0 < w -> le_split n (swrap w z) = le_split n z.
Proof.
  intros -> ?. rewrite le_split_mod, (le_split_mod z). f_equal.
  apply (wrap_swrap (Z.of_nat n * 8)); assumption.
Qed.

Lemma u16_le_combine bs : zlen bs = 2 -> u16_le (le_combine bs) = bs.
Proof. unfold zlen; intros. apply split_le_combine'. lia. Qed.

Lemma u64_le_combine bs : zlen bs = 8 -> u64_le (le_combine bs) = bs.
Proof. unfold zlen; intros. apply split_le_combine'. lia. Qed.

Lemma i32_le_swrap bs : zlen bs = 4 -> i32_le (swrap 32 (le_combine bs)) = bs.
Proof.
  unfold zlen, i32_le; intros. rewrite le_split_swrap by lia. apply split_le_combine'. lia.
Qed.

Lemma i64_le_swrap bs : zlen bs = 8 -> i64_le (swrap 64 (le_combine bs)) = bs.
Proof.
  unfold zlen, i64_le; intros. rewrite le_split_swrap by lia. apply split_le_combine'. lia.
Qed.

Lemma read_u8_ok buf off b :
  0 <= off -> buf !! Z.to_nat off = Some b -> read_u8 buf off = Ok (byte.unsigned b).
Proof.
  intros ? Hb. unfold read_u8, get_at. destruct (Z.leb_spec 0 off); [|lia]. now rewrite Hb.
Qed.

Lemma read_u8_inv buf off v :
  read_u8 buf off = Ok v -> 0 <= off /\ exists b, buf !! Z.to_nat off = Some b /\ v = byte.unsigned b.
Proof.
  unfold read_u8, get_at. destruct (Z.leb_spec 0 off); [|simpl; congruence].
  destruct (buf !! Z.to_nat off) as [b|]; simpl; intros; inv_ok; eauto.
Qed.

#[global] Opaque le_combine le_split.

Lemma read_u16_inv buf off v :
  read_u16 buf off = Ok v ->
  0 <= off /\ off + 2 <= zlen buf /\ v = le_combine (slice buf off 2) /\ 0 <= v <= u16_max.
Proof.
  intros (? & ? & ->)%read_le_inv. pose proof (le_combine_slice_bound buf off 2). fmt_lia.
Qed.

Lemma read_u64_inv buf off v :
  read_u64 buf off = Ok v ->
  0 <= off /\ off + 8 <= zlen buf /\ v = le_combine (slice buf off 8) /\ 0 <= v <= u64_max.
Proof.
  intros (? & ? & ->)%read_le_inv. pose proof (le_combine_slice_bound buf off 8). fmt_lia.
Qed.

Lemma read_i32_inv buf off v :
  read_i32 buf off = Ok v ->
  0 <= off /\ off + 4 <= zlen buf /\ v = swrap 32 (le_combine (slice buf off 4)) /\
  - 2 ^ 31 <= v <= i32_max.
Proof.
  intros (? & ? & ->)%read_le_inv.
  pose proof (swrap_range 32 (le_combine (slice buf off 4))). fmt_lia.
Qed.

Lemma read_i64_inv buf off v :
  read_i64 buf off = Ok v ->
  0 <= off /\ off + 8 <= zlen buf /\ v = swrap 64 (le_combine (slice buf off 8)) /\
  - 2 ^ 63 <= v < 2 ^ 63.
Proof.
  intros (? & ? & ->)%read_le_inv.
  pose proof (swrap_range 64 (le_combine (slice buf off 8))). fmt_lia.
Qed.

Lemma PageOrdinal_round_trip p :
  (forall v, p = Some v -> 0 <= v < 2 ^ 63) ->
  PageOrdinal_from_i64 (PageOrdinal_to_i64 p) = Ok p.
Proof.
  destruct p as [v|]; intros H; [|reflexivity]. specialize (H v eq_refl).
  unfold PageOrdinal_to_i64, PageOrdinal_from_i64. rewrite swrap_small by (simpl; lia).
  destruct (Z.eqb_spec v (-1)), (Z.leb_spec 0 v); lia || reflexivity.
Qed.

Lemma PageOrdinal_to_i64_range p : - 2 ^ 63 <= PageOrdinal_to_i64 p < 2 ^ 63.
Proof. destruct p as [v|]; [|simpl; lia]. exact (swrap_range 64 v ltac:(lia)). Qed.

Lemma PageOrdinal_from_i64_Some v p :
  PageOrdinal_from_i64 v = Ok (Some p) -> p = v /\ 0 <= v.
Proof. unfold PageOrdinal_from_i64. repeat case_match; intros; simplify_eq. lia. Qed.

Lemma checked_len_Ok v n : checked_len v = Ok n -> n = v /\ 0 <= v.
Proof. unfold checked_len; intros; inv_ok. lia. Qed.

(** [inv_reads] turns every successful read in the context into what it read
    and the bounds it checked. *)
Ltac inv_reads :=
  repeat match goal with
  | H : read_slice _ _ _ = Ok _ |- _ => apply read_slice_inv in H as (? & ? & ? & ?)
  | H : read_u8 _ _ = Ok _ |- _ => apply read_u8_inv in H as (? & ? & ? & ?)
  | H : read_u16 _ _ = Ok _ |- _ => apply read_u16_inv in H as (? & ? & ? & ?)
  | H : read_u64 _ _ = Ok _ |- _ => apply read_u64_inv in H as (? & ? & ? & ?)
  | H : read_i32 _ _ = Ok _ |- _ => apply read_i32_inv in H as (? & ? & ? & ?)
  | H : read_i64 _ _ = Ok _ |- _ => apply read_i64_inv in H as (? & ? & ? & ?)
  | H : checked_len _ = Ok _ |- _ => apply checked_len_Ok in H as [? ?]
  | H : PageOrdinal_from_i64 _ = Ok (Some _) |- _ => apply PageOrdinal_from_i64_Some in H as [? ?]
  | H : checked_add _ _ = Some _ |- _ => apply checked_add_Some in H as [? ?]
  | H : checked_mul _ _ = Some _ |- _ => apply checked_mul_Some in H as [? ?]
  end.

(** * Which errors an operation can report

    [fails_in P m]: whenever [m] fails, the error's kind satisfies [P]. *)

Definition fails_in (P : ErrorKind -> Prop) {A} (m : Result A) : Prop :=
  forall e, m = Err e -> P (err_kind e).

Abbreviation only_corrupt := (fails_in (eq CorruptData)).

Section FailsIn.
Context (P : ErrorKind -> Prop).

Lemma fails_in_Ok {A} (a : A) : fails_in P (Ok a).
Proof. intros e; discriminate. Qed.

Lemma fails_in_Err {A} e : P (err_kind e) -> fails_in P (Err e : Result A).
Proof. intros He e' [= <-]; exact He. Qed.

Lemma fails_in_bind {A B} (m : Result A) (f : A -> Result B) :
  fails_in P m -> (forall a, fails_in P (f a)) -> fails_in P (rbind m f).
Proof. intros Hm Hf e. destruct m; simpl; [apply Hf | intros [= <-]; now apply Hm]. Qed.

Lemma fails_in_map_err {A} (m : Result A) f :
  (forall e, P (err_kind (f e))) -> fails_in P (map_err f m).
Proof. intros Hf e. destruct m; simpl; intros [=]; subst; apply Hf. Qed.

Lemma fails_in_ok_or {A} (o : option A) e : P (err_kind e) -> fails_in P (ok_or o e).
Proof. destruct o; [intros; apply fails_in_Ok | apply fails_in_Err]. Qed.

Lemma fails_in_if {A} (b : bool) (m k : Result A) :
  fails_in P m -> fails_in P k -> fails_in P (if b then m else k).
Proof. destruct b; auto. Qed.

Context (HP : P CorruptData).

Lemma fails_in_read_le f n buf off : fails_in P (read_le f n buf off).
Proof. intros e ->%read_le_err. exact HP. Qed.

Lemma fails_in_read_slice buf off n : fails_in P (read_slice buf off n).
Proof. intros e ->%read_slice_err. exact HP. Qed.

Lemma fails_in_read_u8 buf off : fails_in P (read_u8 buf off).
Proof. intros e. unfold read_u8. destruct (get_at buf off); simpl; intros [=]; subst; exact HP. Qed.

Lemma fails_in_checked_len v : fails_in P (checked_len v).
Proof. unfold checked_len. case_match; [now apply fails_in_Err | apply fails_in_Ok]. Qed.

Lemma fails_in_FileOffset v : fails_in P (FileOffset_from_i64 v).
Proof. unfold FileOffset_from_i64. case_match; [now apply fails_in_Err | apply fails_in_Ok]. Qed.

Lemma fails_in_from_i64 v : fails_in P (PageOrdinal_from_i64 v).
Proof.
  unfold PageOrdinal_from_i64.
  repeat case_match; first [apply fails_in_Ok | now apply fails_in_Err].
Qed.
End FailsIn.

(** [fails] walks an operation's steps and checks the kind of each error it
    can return; what it cannot decide is left to the caller. *)
Ltac fails_step :=
  match goal with
  | |- fails_in _ (Ok _) => apply fails_in_Ok
  | |- fails_in _ (Err _) => apply fails_in_Err; simpl; auto
  | |- fails_in _ (rbind _ _) => apply fails_in_bind; [|intros ?]
  | |- fails_in _ (ok_or _ _) => apply fails_in_ok_or; simpl; auto
  | |- fails_in _ (map_err _ _) => apply fails_in_map_err; intros ?; simpl; auto
  | |- fails_in _ (read_slice _ _ _) => apply fails_in_read_slice; auto
  | |- fails_in _ (read_u8 _ _) => apply fails_in_read_u8; auto
  | |- fails_in _ (read_u16 _ _) => apply fails_in_read_le; auto
  | |- fails_in _ (read_u64 _ _) => apply fails_in_read_le; auto
  | |- fails_in _ (read_i32 _ _) => apply fails_in_read_le; auto
  | |- fails_in _ (read_i64 _ _) => apply fails_in_read_le; auto
  | |- fails_in _ (checked_len _) => apply fails_in_checked_len; auto
  | |- fails_in _ (FileOffset_from_i64 _) => apply fails_in_FileOffset; auto
  | |- fails_in _ (PageOrdinal_from_i64 _) => apply fails_in_from_i64; auto
  | |- fails_in _ (if _ then _ else _) => apply fails_in_if
  | |- fails_in _ (match ?x with _ => _ end) => destruct x
  end.
Ltac fails := repeat fails_step.
