(* ===== verification/Header.v ===== *)
(** The 26-byte file header, [crates/drydb/src/format/header.rs]. *)

From Stdlib Require Import ZArith Lia.
From stdpp Require Import base list.
From coqutil Require Import Byte Word.LittleEndianList.
From S2P Require Import Prelude Errors Format.

#[local] Open Scope Z_scope.
#[local] Open Scope drydb_scope.

Record Header : Set := mkHeader {
  major_version : Z;
  minor_version : Z;
  page_filter_count : Z;
  page_size : Z;
  table_count : Z;
  page_count : Z;
  page_directory_position : FileOffset;
}.

Definition Header_parse (buf : list byte) : Result Header :=
  let? magic := map_err (fun _ => Error_new UnsupportedFormat) (read_slice buf 0 4) in
  fail? bool_decide (magic <> MAGIC) with Error_new UnsupportedFormat in
  fail? zlen buf <? HEADER_LEN with Error_new UnsupportedFormat in
  let? major := read_u8 buf 4 in
  let? minor := read_u8 buf 5 in
  fail? negb (major =? MAJOR_VERSION) || negb (minor =? MINOR_VERSION)
    with Error_new UnsupportedFormat in
  let? filter_count := read_u16 buf 6 in
  let? raw_page_size := read_i32 buf 8 in
  let? size := checked_len raw_page_size in
  fail? size <? PAGE_PREFIX_LEN with Error_corrupt in
  let? tables := read_u16 buf 12 in
  let? raw_page_count := read_i32 buf 14 in
  let? pages := checked_len raw_page_count in
  let? position := read_i64 buf 18 in
  fail? position <=? 0 with Error_corrupt in
  let? directory := FileOffset_from_i64 position in
  Ok {| major_version := major; minor_version := minor;
        page_filter_count := filter_count; page_size := size;
        table_count := tables; page_count := pages;
        page_directory_position := directory |}.

Definition Header_encode (h : Header) : list byte :=
  MAGIC ++ [byte.of_Z (major_version h)] ++ [byte.of_Z (minor_version h)]
  ++ u16_le (page_filter_count h) ++ i32_le (page_size h) ++ u16_le (table_count h)
  ++ i32_le (page_count h) ++ i64_le (page_directory_position h).

Definition Header_directory_span (h : Header) : Result (Z * Z) :=
  let start := page_directory_position h in
  let? len := ok_or (checked_mul (page_count h) DIRECTORY_SLOT_LEN) Error_corrupt in
  let? stop := ok_or (checked_add start len) Error_corrupt in
  Ok (start, stop).

(** What a header this build reads looks like. *)
Record Header_wf (h : Header) : Prop := {
  wf_major : major_version h = 1;
  wf_minor : minor_version h = 4;
  wf_filters : 0 <= page_filter_count h <= u16_max;
  wf_page_size : PAGE_PREFIX_LEN <= page_size h <= i32_max;
  wf_tables : 0 <= table_count h <= u16_max;
  wf_pages : 0 <= page_count h <= i32_max;
  wf_directory : 0 < page_directory_position h < 2 ^ 63;
}.

Lemma zlen_Header_encode h : zlen (Header_encode h) = HEADER_LEN.
Proof. unfold Header_encode, MAGIC; zlen_lia. Qed.

Lemma Header_encode_fields h rest :
  let buf := Header_encode h ++ rest in
  slice buf 0 4 = MAGIC /\
  buf !! Z.to_nat 4 = Some (byte.of_Z (major_version h)) /\
  buf !! Z.to_nat 5 = Some (byte.of_Z (minor_version h)) /\
  slice buf 6 2 = u16_le (page_filter_count h) /\
  slice buf 8 4 = i32_le (page_size h) /\
  slice buf 12 2 = u16_le (table_count h) /\
  slice buf 14 4 = i32_le (page_count h) /\
  slice buf 18 8 = i64_le (page_directory_position h).
Proof.
  pose proof (zlen_Header_encode h) as Hlen. unfold HEADER_LEN in Hlen.
  cbv zeta. rewrite !slice_app_l by lia. unfold Header_encode, MAGIC.
  repeat apply conj; try reflexivity; slice_field; reflexivity.
Qed.

Lemma Header_parse_encode h rest :
  Header_wf h -> zlen rest + HEADER_LEN <= usize_max ->
  Header_parse (Header_encode h ++ rest) = Ok h.
Proof.
  intros [Hma Hmi Hf Hp Ht Hc Hd] Hr.
  destruct (Header_encode_fields h rest) as (E0 & E4 & E5 & E6 & E8 & E12 & E14 & E18).
  set (buf := Header_encode h ++ rest) in *.
  assert (HEADER_LEN <= zlen buf <= usize_max) as Hlen.
  { unfold buf. rewrite zlen_app, zlen_Header_encode. pose proof (zlen_nonneg rest). lia. }
  clearbody buf. unfold Header_parse. unfold_consts. simpl in Hp, Hf, Ht, Hc.
  rewrite read_slice_ok by fmt_lia. rewrite E0. cbn [map_err rbind].
  rewrite bool_decide_eq_false_2 by congruence.
  rewrite (read_u8_ok _ 4 _ ltac:(lia) E4), (read_u8_ok _ 5 _ ltac:(lia) E5).
  rewrite Hma, Hmi, !byte.unsigned_of_Z.
  change (byte.wrap 1) with 1. change (byte.wrap 4) with 4.
  unfold read_u16, read_i32, read_i64. rewrite !read_le_ok by fmt_lia.
  rewrite E6, E8, E12, E14, E18. cbn [rbind].
  rewrite !le_combine_u16, !swrap_i32_le, swrap_i64_le by fmt_lia.
  unfold checked_len, FileOffset_from_i64. cmp_cases.
  destruct h; simpl in *; subst; reflexivity.
Qed.

Lemma Header_parse_inv buf h :
  Header_parse buf = Ok h -> Header_wf h /\ slice buf 0 HEADER_LEN = Header_encode h.
Proof.
  unfold Header_parse; intros H; inv_ok.
  inv_reads. bool_hyps. apply bool_decide_eq_false_1, dec_stable in G. subst.
  unfold FileOffset_from_i64 in *. inv_ok. unfold_consts. split.
  - constructor; simpl; fmt_lia.
  - change 26 with (4 + (1 + (1 + (2 + (4 + (2 + (4 + 8))))))).
    rewrite !slice_split by lia. simpl (_ + _).
    unfold Header_encode; simpl.
    rewrite !byte.of_Z_unsigned, !u16_le_combine, !i32_le_swrap, i64_le_swrap
      by (apply zlen_slice; lia).
    rewrite G. erewrite !slice_1 by (eassumption || lia). reflexivity.
Qed.

(** C32: parsing succeeds on exactly the buffers that start with the encoding of
    a version 1.4 header whose fields are in range, and returns that header. *)
Theorem Header_parse_correct buf h :
  zlen buf <= usize_max ->
  Header_parse buf = Ok h <-> Header_wf h /\ exists rest, buf = Header_encode h ++ rest.
Proof.
  intros Hlen. split.
  - intros [Hwf Henc]%Header_parse_inv. split; [exact Hwf|].
    exists (drop (Z.to_nat HEADER_LEN) buf). rewrite <- Henc, slice_0_len. now rewrite take_drop.
  - intros [Hwf [rest ->]]. apply Header_parse_encode; [exact Hwf|].
    rewrite zlen_app, zlen_Header_encode in Hlen. lia.
Qed.

Definition sample_header : Header :=
  {| major_version := 1; minor_version := 4; page_filter_count := 0; page_size := 4096;
     table_count := 1; page_count := 3; page_directory_position := 1024 |}.

Lemma Header_parse_correct_witness :
  Header_parse (Header_encode sample_header) = Ok sample_header.
Proof.
  apply (Header_parse_correct (Header_encode sample_header) sample_header).
  - vm_compute; discriminate.
  - split; [constructor; vm_compute; intuition discriminate | exists []; reflexivity].
Defined.

(** A header that does not parse is reported as an unsupported format or
    as corruption, and a parsed one always has a directory span that fits. *)
Theorem Header_parse_safe buf :
  fails_in (fun k => k = UnsupportedFormat \/ k = CorruptData) (Header_parse buf) /\
  forall h, Header_parse buf = Ok h ->
    Header_directory_span h =
      Ok (page_directory_position h, page_directory_position h + 8 * page_count h).
Proof.
  split.
  - unfold Header_parse. fails.
  - intros h [[] _]%Header_parse_inv. unfold Header_directory_span.
    rewrite checked_mul_ok by fmt_lia; simpl.
    rewrite checked_add_ok by fmt_lia; simpl. do 2 f_equal. fmt_lia.
Qed.
