(* ===== verification/PageRef.v ===== *)
(** The 16-byte pointer a secondary index stores in place of the value,
    [crates/drydb/src/format/pageref.rs]. *)

From Stdlib Require Import ZArith Lia.
From stdpp Require Import base list.
From coqutil Require Import Byte Word.LittleEndianList.
From S2P Require Import Prelude Errors Format.

#[local] Open Scope Z_scope.
#[local] Open Scope drydb_scope.

Definition PAGE_REF_LEN : Z := 16.

Record PageRef : Set := mkPageRef {
  pr_page : PageOrdinal;
  pr_start : PageLocalOffset;
  pr_length : Z;
}.

Definition PageRef_parse (buf : list byte) : Result PageRef :=
  fail? zlen buf <? PAGE_REF_LEN with Error_corrupt in
  let? raw := read_i64 buf 0 in
  let? opt := PageOrdinal_from_i64 raw in
  let? ordinal := ok_or opt Error_corrupt in
  let? start := read_i32 buf 8 in
  let? length := read_i32 buf 12 in
  fail? (start <? 0) || (length <? 0) with Error_corrupt in
  Ok {| pr_page := ordinal; pr_start := start; pr_length := length |}.

Definition PageRef_encode (r : PageRef) : list byte :=
  i64_le (pr_page r) ++ i32_le (pr_start r) ++ i32_le (pr_length r).

(** The byte range the reference designates, as [(start, end)]. *)
Definition PageRef_range (r : PageRef) (page_len : Z) : Result (Z * Z) :=
  let start := pr_start r in
  let? stop := ok_or (checked_add start (pr_length r)) Error_corrupt in
  fail? page_len <? stop with at_page Error_corrupt (pr_page r) in
  fail? start <? PAGE_PREFIX_LEN with at_page Error_corrupt (pr_page r) in
  Ok (start, stop).

Record PageRef_wf (r : PageRef) : Prop := {
  prwf_page : 0 <= pr_page r < 2 ^ 63;
  prwf_start : 0 <= pr_start r <= i32_max;
  prwf_length : 0 <= pr_length r <= i32_max;
}.

Lemma zlen_PageRef_encode r : zlen (PageRef_encode r) = PAGE_REF_LEN.
Proof. unfold PageRef_encode, PAGE_REF_LEN; zlen_lia. Qed.

Lemma PageRef_parse_encode r rest :
  PageRef_wf r -> zlen rest + PAGE_REF_LEN <= usize_max ->
  PageRef_parse (PageRef_encode r ++ rest) = Ok r.
Proof.
  intros [Hp Hs Hl] Hr. unfold PageRef_parse.
  pose proof (zlen_nonneg rest). pose proof (zlen_PageRef_encode r) as He.
  unfold PAGE_REF_LEN in *. unfold read_i64, read_i32.
  rewrite !read_le_ok by (rewrite ?zlen_app, ?He; fmt_lia).
  rewrite !slice_app_l by lia. unfold PageRef_encode. slice_field.
  rewrite !swrap_i32_le, swrap_i64_le by fmt_lia.
  autorewrite with zlen. unfold PageOrdinal_from_i64. cmp_cases.
  destruct r; reflexivity.
Qed.

Lemma PageRef_parse_inv buf r :
  PageRef_parse buf = Ok r -> PageRef_wf r /\ slice buf 0 PAGE_REF_LEN = PageRef_encode r.
Proof.
  unfold PageRef_parse; intros H; inv_ok. subst. inv_reads. subst. bool_hyps. split.
  - constructor; simpl; fmt_lia.
  - unfold PAGE_REF_LEN. change 16 with (8 + (4 + 4)). rewrite !slice_split by lia.
    unfold PageRef_encode; simpl.
    rewrite !i32_le_swrap, i64_le_swrap by (apply zlen_slice; lia). reflexivity.
Qed.

(** [PageRef::parse] and [PageRef::encode] are inverse: a reference is read
    back as written, and what parses is exactly an encoded in-range reference
    followed by ignored bytes. *)
Theorem PageRef_round_trip buf r :
  zlen buf <= usize_max ->
  PageRef_parse buf = Ok r <-> PageRef_wf r /\ exists rest, buf = PageRef_encode r ++ rest.
Proof.
  intros Hlen. split.
  - intros [Hwf Henc]%PageRef_parse_inv. split; [exact Hwf|].
    exists (drop (Z.to_nat PAGE_REF_LEN) buf). rewrite <- Henc, slice_0_len. now rewrite take_drop.
  - intros [Hwf [rest ->]]. apply PageRef_parse_encode; [exact Hwf|].
    rewrite zlen_app, zlen_PageRef_encode in Hlen. lia.
Qed.

Definition sample_ref : PageRef := {| pr_page := 7; pr_start := 28; pr_length := 12 |}.

Lemma PageRef_round_trip_witness : PageRef_parse (PageRef_encode sample_ref) = Ok sample_ref.
Proof.
  apply (PageRef_round_trip (PageRef_encode sample_ref) sample_ref).
  - vm_compute; discriminate.
  - split; [constructor; vm_compute; intuition discriminate | exists []; reflexivity].
Defined.

(** A resolved range lies inside the page and past its prefix, and it is
    resolved whenever it does; every other reference is reported as corruption. *)
Theorem PageRef_range_correct r page_len a b :
  PageRef_wf r ->
  (PageRef_range r page_len = Ok (a, b) <->
   a = pr_start r /\ b = pr_start r + pr_length r /\ PAGE_PREFIX_LEN <= a /\ b <= page_len) /\
  only_corrupt (PageRef_range r page_len).
Proof.
  intros [Hp Hs Hl]. split; [split|].
  - unfold PageRef_range; intros; inv_ok; inv_reads; subst. fmt_lia.
  - unfold PageRef_range; intros (-> & -> & ? & ?).
    rewrite checked_add_ok by fmt_lia. cbn [ok_or rbind]. cmp_cases. reflexivity.
  - unfold PageRef_range. fails.
Qed.

Lemma PageRef_range_correct_witness : PageRef_range sample_ref 40 = Ok (28, 40).
Proof.
  apply PageRef_range_correct; [constructor; vm_compute; intuition discriminate|].
  vm_compute; intuition discriminate.
Defined.
