(* ===== verification/Eytzinger.v ===== *)
(** Complete binary trees in BFS (Eytzinger) order.

    Node [i] (1-based) has children [2 i] and [2 i + 1]; a tree of height [h]
    has [2^h - 1] nodes.  The in-order traversal lists the nodes in sorted
    order.  This file is shared by the page reader (the descent of
    [lower_bound_rank]), the digest check and the page writer. *)

From Stdlib Require Import ZArith Lia.
From stdpp Require Import base list sorting.
From S2P Require Import Prelude.

#[local] Open Scope Z_scope.

(** Node indices of the subtree of height [h] rooted at [i], in order. *)
Fixpoint inorder_nodes (h : nat) (i : Z) : list Z :=
  match h with
  | O => []
  | S h => inorder_nodes h (2 * i) ++ i :: inorder_nodes h (2 * i + 1)
  end.

(** How many of the values in [l] are strictly below [key]. *)
Definition count_lt (key : Z) (l : list Z) : Z := zlen (filter (fun x => x < key) l).

Lemma zlen_inorder_nodes h i : zlen (inorder_nodes h i) = 2 ^ Z.of_nat h - 1.
Proof.
  revert i; induction h as [|h IH]; intros i; [reflexivity|].
  simpl inorder_nodes. rewrite zlen_app, zlen_cons, !IH.
  rewrite Nat2Z.inj_succ, Z.pow_succ_r by lia. lia.
Qed.

(** The nodes below [i] at depth [h] are [i * 2^h .. (i + 1) * 2^h - 1]. *)
Lemma inorder_nodes_bounds h i n :
  1 <= i -> n ∈ inorder_nodes h i -> i <= n < (i + 1) * 2 ^ Z.of_nat h.
Proof.
  revert i; induction h as [|h IH]; intros i Hi; simpl inorder_nodes.
  { rewrite elem_of_nil; tauto. }
  rewrite Nat2Z.inj_succ, Z.pow_succ_r by lia.
  assert (0 < 2 ^ Z.of_nat h) by (apply Z.pow_pos_nonneg; lia).
  rewrite elem_of_app, elem_of_cons. intros [Hn|[->|Hn]].
  - apply IH in Hn; nia.
  - nia.
  - apply IH in Hn; nia.
Qed.

Lemma count_lt_nil key : count_lt key [] = 0.
Proof. reflexivity. Qed.

Lemma count_lt_app key l k : count_lt key (l ++ k) = count_lt key l + count_lt key k.
Proof. unfold count_lt. rewrite filter_app. apply zlen_app. Qed.

Lemma count_lt_cons key x l :
  count_lt key (x :: l) = (if x <? key then 1 else 0) + count_lt key l.
Proof.
  unfold count_lt. rewrite filter_cons.
  destruct (Z.ltb_spec x key); case_decide; try lia; rewrite ?zlen_cons; lia.
Qed.

Lemma count_lt_nonneg key l : 0 <= count_lt key l.
Proof. apply zlen_nonneg. Qed.

Lemma count_lt_le_len key l : count_lt key l <= zlen l.
Proof. unfold count_lt, zlen. pose proof (length_filter (fun x => x < key) l). lia. Qed.

Lemma count_lt_all key l : Forall (fun x => x < key) l -> count_lt key l = zlen l.
Proof.
  intros H; unfold count_lt. f_equal. induction H as [|x l Hx _ IH]; [reflexivity|].
  rewrite filter_cons, decide_True by assumption. now f_equal.
Qed.

Lemma count_lt_none key l : Forall (fun x => key <= x) l -> count_lt key l = 0.
Proof.
  intros H; unfold count_lt. induction H as [|x l Hx _ IH]; [reflexivity|].
  rewrite filter_cons, decide_False by lia. exact IH.
Qed.

Lemma StronglySorted_lookup_lt {A} (R : A -> A -> Prop) l i j a b :
  StronglySorted R l -> l !! i = Some a -> l !! j = Some b -> (i < j)%nat -> R a b.
Proof.
  intros Hs Hi Hj Hlt. rewrite <- (take_drop_middle _ _ _ Hi) in Hs.
  apply StronglySorted_app in Hs as (_ & _ & [_ Hs]%StronglySorted_inv).
  rewrite Forall_forall in Hs. apply Hs. apply list_elem_of_lookup. exists (j - S i)%nat.
  rewrite lookup_drop. rewrite <- Hj. f_equal. lia.
Qed.

Lemma StronglySorted_app_cons_le (l r : list Z) x :
  StronglySorted Z.le (l ++ x :: r) ->
  Forall (fun y => y <= x) l /\ Forall (fun y => x <= y) r /\
  StronglySorted Z.le l /\ StronglySorted Z.le r.
Proof.
  rewrite StronglySorted_app. intros (Hlr & Hl & [Hr Hx]%StronglySorted_inv).
  repeat split; try assumption.
  apply Forall_forall; intros y Hy. apply Hlr; [exact Hy | left].
Qed.

(** One step of a descent over sorted values: compare with the middle value and
    drop the half that cannot hold the boundary. *)
Lemma count_lt_middle key (l r : list Z) x :
  StronglySorted Z.le (l ++ x :: r) ->
  count_lt key (l ++ x :: r) =
    if x <? key then zlen l + 1 + count_lt key r else count_lt key l.
Proof.
  intros (Hl & Hr & _ & _)%StronglySorted_app_cons_le.
  rewrite count_lt_app, count_lt_cons. destruct (Z.ltb_spec x key).
  - rewrite (count_lt_all key l); [lia|]. eapply Forall_impl; [exact Hl|]. simpl; lia.
  - rewrite (count_lt_none key r); [lia|]. eapply Forall_impl; [exact Hr|]. simpl; lia.
Qed.

(** Where the values below [key] end: everything before the rank is below,
    everything from it on is not. *)
Lemma count_lt_lookup key (l : list Z) i x :
  StronglySorted Z.le l -> l !! i = Some x -> x < key <-> Z.of_nat i < count_lt key l.
Proof.
  intros Hs Hi. rewrite <- (take_drop_middle _ _ _ Hi) in Hs |- *.
  rewrite count_lt_middle by assumption.
  assert (zlen (take i l) = Z.of_nat i) as Ht.
  { unfold zlen. rewrite length_take. apply lookup_lt_Some in Hi. lia. }
  pose proof (count_lt_nonneg key (drop (S i) l)).
  pose proof (count_lt_le_len key (take i l)).
  destruct (Z.ltb_spec x key); lia.
Qed.

(** A node of the subtree of height [h] lies at one of its depths. *)
Lemma inorder_nodes_depth h i n :
  n ∈ inorder_nodes h i ->
  exists d : nat, (d < h)%nat /\ i * 2 ^ Z.of_nat d <= n < (i + 1) * 2 ^ Z.of_nat d.
Proof.
  revert i; induction h as [|h IH]; intros i; simpl inorder_nodes.
  { rewrite elem_of_nil; tauto. }
  rewrite elem_of_app, elem_of_cons. intros [Hn|[->|Hn]].
  - apply IH in Hn as (d & Hd & Hn). exists (S d). split; [lia|].
    rewrite Nat2Z.inj_succ, Z.pow_succ_r by lia. lia.
  - exists 0%nat. simpl. lia.
  - apply IH in Hn as (d & Hd & Hn). exists (S d). split; [lia|].
    rewrite Nat2Z.inj_succ, Z.pow_succ_r by lia. lia.
Qed.

(** The two subtrees of a node have no node in common. *)
Lemma inorder_nodes_disjoint h i n :
  1 <= i -> n ∈ inorder_nodes h (2 * i) -> n ∉ inorder_nodes h (2 * i + 1).
Proof.
  intros Hi (d & _ & Hl & Hu)%inorder_nodes_depth (e & _ & Hl' & Hu')%inorder_nodes_depth.
  assert (0 < 2 ^ Z.of_nat d) by (apply Z.pow_pos_nonneg; lia).
  assert (0 < 2 ^ Z.of_nat e) by (apply Z.pow_pos_nonneg; lia).
  destruct (Z.lt_ge_cases (Z.of_nat e) (Z.of_nat d)) as [Hlt|Hge].
  - assert (2 ^ Z.of_nat d >= 2 * 2 ^ Z.of_nat e).
    { rewrite <- Z.pow_succ_r by lia. apply Z.le_ge, Z.pow_le_mono_r; lia. }
    nia.
  - assert (2 ^ Z.of_nat d <= 2 ^ Z.of_nat e) by (apply Z.pow_le_mono_r; lia). nia.
Qed.

(** A node is above everything in its subtrees. *)
Lemma inorder_nodes_root h i n : 1 <= i -> n ∈ inorder_nodes h (2 * i) ++ inorder_nodes h (2 * i + 1) -> i < n.
Proof.
  intros Hi. rewrite elem_of_app. intros [H|H]; apply inorder_nodes_bounds in H; lia.
Qed.
