(* ===== verification/Node.v ===== *)
(** B+Tree page decoding, [crates/drydb/src/format/node.rs].

    A page is the length field, the node header, the digest array, the entry
    metadata and the entry payloads.  [PageView_parse] checks the header and
    the area bounds, [PageView_validate] walks every entry, and each accessor
    re-checks its own bounds. *)

From Stdlib Require Import ZArith Lia.
From stdpp Require Import base list sorting.
From coqutil Require Import Byte Word.LittleEndianList.
From S2P Require Import Prelude Errors Format Eytzinger.

#[local] Open Scope Z_scope.
#[local] Open Scope drydb_scope.

Inductive NodeKind : Set := Leaf | Internal.

#[export] Instance NodeKind_eq_dec : EqDecision NodeKind.
Proof. solve_decision. Defined.

Definition KIND_MASK : Z := 0xFF.
Definition FLAG_LEGACY_KEY_DIGESTS : Z := Z.shiftl 1 8.
Definition FLAG_EYTZINGER : Z := Z.shiftl 1 9.
Definition FLAG_COMPACT_META : Z := Z.shiftl 1 10.
Definition FLAG_OMITTED_KEYS : Z := Z.shiftl 1 11.
Definition KNOWN_FLAGS : Z := Z.lor (Z.lor FLAG_EYTZINGER FLAG_COMPACT_META) FLAG_OMITTED_KEYS.

Record NodeLayout : Set := mkNodeLayout {
  eytzinger : bool;
  compact_meta : bool;
  omitted_keys : bool;
}.

Definition flag_bits (l : NodeLayout) : Z :=
  Z.lor (Z.lor (if eytzinger l then FLAG_EYTZINGER else 0)
               (if compact_meta l then FLAG_COMPACT_META else 0))
        (if omitted_keys l then FLAG_OMITTED_KEYS else 0).

(** [while m < count.saturating_add(1)]: [m] doubles, so on a 64-bit [usize] it
    wraps to zero and leaves the loop after at most 64 rounds. *)
Fixpoint complete_size_loop (fuel : nat) (m count : Z) : Z :=
  match fuel with
  | O => usize_max
  | S fuel =>
      if m <? saturating_add count 1 then
        let next := wrap 64 (Z.shiftl m 1) in
        if next =? 0 then usize_max else complete_size_loop fuel next count
      else m - 1
  end.

Definition complete_size (count : Z) : Z := complete_size_loop 65 1 count.

Definition digest_slots (l : NodeLayout) (entry_count : Z) : Z :=
  if eytzinger l then complete_size entry_count else entry_count.

Definition leaf_meta_size (l : NodeLayout) (entry_count : Z) : option Z :=
  if compact_meta l then
    a ← checked_add entry_count 1;
    slots ← checked_add a (if omitted_keys l then 0 else entry_count);
    checked_mul slots 2
  else checked_mul entry_count 8.

Definition internal_meta_size (l : NodeLayout) (entry_count : Z) : option Z :=
  if compact_meta l then
    if omitted_keys l then Some 0
    else a ← checked_add entry_count 1; checked_mul a 2
  else checked_mul entry_count 6.

Definition digest_area_size (l : NodeLayout) (entry_count : Z) : option Z :=
  checked_mul (digest_slots l entry_count) 8.

Record NodeHeader : Set := mkNodeHeader {
  nh_kind : NodeKind;
  nh_layout : NodeLayout;
  nh_entry_count : Z;
  nh_left_sibling : option PageOrdinal;
  nh_right_sibling : option PageOrdinal;
}.

Record PageView : Type := mkPageView {
  pv_bytes : list byte;
  pv_header : NodeHeader;
  pv_meta_base : Z;
  pv_payload_base : Z;
}.

Inductive LeafValue : Set :=
| Inline (offset len : Z)
| Overflow (page : PageOrdinal).

Record LeafEntry : Set := mkLeafEntry {
  le_key_offset : Z;
  le_key_len : Z;
  le_value : LeafValue;
}.

Record InternalEntry : Set := mkInternalEntry {
  ie_key_offset : Z;
  ie_key_len : Z;
  ie_child : PageOrdinal;
}.

(** * Parsing a page *)

Definition parse_kind (kind_word : Z) : Result NodeKind :=
  let k := Z.land kind_word KIND_MASK in
  if k =? 0 then Ok Leaf else if k =? 1 then Ok Internal else Err Error_corrupt.

Definition parse_layout (kind_word : Z) : NodeLayout :=
  {| eytzinger := negb (Z.land kind_word FLAG_EYTZINGER =? 0);
     compact_meta := negb (Z.land kind_word FLAG_COMPACT_META =? 0);
     omitted_keys := negb (Z.land kind_word FLAG_OMITTED_KEYS =? 0) |}.

Definition PageView_parse (bytes : list byte) : Result PageView :=
  fail? zlen bytes <? PAGE_PREFIX_LEN with Error_corrupt in
  let? raw_len := read_i32 bytes 0 in
  let? stored_len := checked_len raw_len in
  fail? negb (stored_len =? zlen bytes) with Error_corrupt in
  let? kind_word := read_i32 bytes KIND_OFFSET in
  let? kind := parse_kind kind_word in
  fail? negb (Z.land kind_word FLAG_LEGACY_KEY_DIGESTS =? 0) with Error_corrupt in
  let unknown := Z.land kind_word (Z.lnot (Z.lor KIND_MASK KNOWN_FLAGS)) in
  fail? negb (unknown =? 0) with Error_corrupt in
  let layout := parse_layout kind_word in
  fail? omitted_keys layout && negb (compact_meta layout) with Error_corrupt in
  fail? omitted_keys layout && eytzinger layout with Error_corrupt in
  fail? compact_meta layout && (MAX_COMPACT_PAGE_SIZE <? stored_len) with Error_corrupt in
  let? raw_count := read_i32 bytes ENTRY_COUNT_OFFSET in
  let? entry_count := checked_len raw_count in
  let? raw_left := read_i64 bytes LEFT_SIBLING_OFFSET in
  let? left_sibling := PageOrdinal_from_i64 raw_left in
  let? raw_right := read_i64 bytes RIGHT_SIBLING_OFFSET in
  let? right_sibling := PageOrdinal_from_i64 raw_right in
  let? digest_area := ok_or (digest_area_size layout entry_count) Error_corrupt in
  let? meta_base := ok_or (checked_add DIGEST_BASE digest_area) Error_corrupt in
  fail? zlen bytes <? meta_base with Error_corrupt in
  let? meta_area := ok_or match kind with
                          | Leaf => leaf_meta_size layout entry_count
                          | Internal => internal_meta_size layout entry_count
                          end Error_corrupt in
  let? payload_base := ok_or (checked_add meta_base meta_area) Error_corrupt in
  fail? zlen bytes <? payload_base with Error_corrupt in
  Ok {| pv_bytes := bytes;
        pv_header := {| nh_kind := kind; nh_layout := layout; nh_entry_count := entry_count;
                        nh_left_sibling := left_sibling; nh_right_sibling := right_sibling |};
        pv_meta_base := meta_base;
        pv_payload_base := payload_base |}.

(** * Accessors *)

Section View.
Context (v : PageView).

Definition view_kind : NodeKind := nh_kind (pv_header v).
Definition view_layout : NodeLayout := nh_layout (pv_header v).
Definition entry_count : Z := nh_entry_count (pv_header v).
Definition left_sibling : option PageOrdinal := nh_left_sibling (pv_header v).
Definition right_sibling : option PageOrdinal := nh_right_sibling (pv_header v).

Definition blob_payload : list byte := drop (Z.to_nat PAGE_PREFIX_LEN) (pv_bytes v).

Definition digest_slot_count : Z := (pv_meta_base v - DIGEST_BASE) / 8.

Definition digest_at (index : Z) : Result Z :=
  fail? eytzinger view_layout with Error_corrupt in
  fail? entry_count <=? index with Error_corrupt in
  read_u64 (pv_bytes v) (DIGEST_BASE + index * 8).

Definition digest_slot (slot : Z) : Result Z :=
  fail? digest_slot_count <=? slot with Error_corrupt in
  read_u64 (pv_bytes v) (DIGEST_BASE + slot * 8).

(** The branch-free Eytzinger descent.  Each round doubles [i], so 64 rounds
    leave any 64-bit tree. *)
Fixpoint eytzinger_descend (fuel : nat) (complete key_digest i : Z) : Result Z :=
  match fuel with
  | O => Err Error_corrupt
  | S fuel =>
      if i <=? complete then
        let? digest := digest_slot (i - 1) in
        eytzinger_descend fuel complete key_digest
          (2 * i + (if digest <? key_digest then 1 else 0))
      else Ok i
  end.

(** The binary search over the sorted digests; each round halves [hi - lo]. *)
Fixpoint binary_descend (fuel : nat) (key_digest lo hi : Z) : Result Z :=
  match fuel with
  | O => Err Error_corrupt
  | S fuel =>
      if lo <? hi then
        let mid := lo + (hi - lo) / 2 in
        let? digest := digest_slot mid in
        if digest <? key_digest then binary_descend fuel key_digest (mid + 1) hi
        else binary_descend fuel key_digest lo mid
      else Ok lo
  end.

Definition lower_bound_rank (key_digest : Z) : Result Z :=
  if eytzinger view_layout then
    let complete := digest_slot_count in
    let? i := eytzinger_descend 66 complete key_digest 1 in
    Ok (i - complete - 1)
  else binary_descend 66 key_digest 0 entry_count.

Definition check_index (index : Z) : Result unit :=
  if entry_count <=? index then Err Error_corrupt else Ok tt.

Definition payload_range (offset len : Z) : Result unit :=
  fail? offset <? pv_payload_base v with Error_corrupt in
  let? stop := ok_or (checked_add offset len) Error_corrupt in
  fail? zlen (pv_bytes v) <? stop with Error_corrupt in
  Ok tt.

(** [(offset, key_len, value_len)] of a leaf entry under either metadata layout. *)
Definition leaf_meta (index : Z) : Result (Z * Z * Z) :=
  if compact_meta view_layout then
    let? raw := read_u16 (pv_bytes v) (pv_meta_base v + index * 2) in
    let? next := read_u16 (pv_bytes v) (pv_meta_base v + (index + 1) * 2) in
    let offset := Z.land raw COMPACT_OFFSET_MASK in
    let next_offset := Z.land next COMPACT_OFFSET_MASK in
    let? key_len := if omitted_keys view_layout then Ok 0
                    else read_u16 (pv_bytes v)
                           (pv_meta_base v + (entry_count + 1) * 2 + index * 2) in
    fail? next_offset <? offset with Error_corrupt in
    let span := next_offset - offset in
    fail? span <? key_len with Error_corrupt in
    let value_len := if negb (Z.land raw COMPACT_OVERFLOW_BIT =? 0)
                     then OVERFLOW_SENTINEL else span - key_len in
    Ok (offset, key_len, value_len)
  else
    let base := pv_meta_base v + index * 8 in
    let? raw_offset := read_i32 (pv_bytes v) base in
    let? offset := checked_len raw_offset in
    let? key_len := read_u16 (pv_bytes v) (base + 4) in
    let? value_len := read_u16 (pv_bytes v) (base + 6) in
    Ok (offset, key_len, value_len).

Definition leaf_entry (index : Z) : Result LeafEntry :=
  fail? bool_decide (view_kind <> Leaf) with Error_corrupt in
  let? _ := check_index index in
  let? '(offset, key_len, value_len) := leaf_meta index in
  fail? omitted_keys view_layout && negb (key_len =? 0) with Error_corrupt in
  if value_len =? OVERFLOW_SENTINEL then
    let? _ := payload_range offset (key_len + 8) in
    let? raw := read_i64 (pv_bytes v) (offset + key_len) in
    let? opt := PageOrdinal_from_i64 raw in
    let? ordinal := ok_or opt Error_corrupt in
    Ok {| le_key_offset := offset; le_key_len := key_len; le_value := Overflow ordinal |}
  else
    let? _ := payload_range offset (key_len + value_len) in
    Ok {| le_key_offset := offset; le_key_len := key_len;
          le_value := Inline (offset + key_len) value_len |}.

(** [(offset, key_len)] of an internal entry. *)
Definition internal_meta (index : Z) : Result (Z * Z) :=
  if compact_meta view_layout then
    if omitted_keys view_layout then Ok (pv_meta_base v + index * 8, 0)
    else
      let? raw := read_u16 (pv_bytes v) (pv_meta_base v + index * 2) in
      let? next := read_u16 (pv_bytes v) (pv_meta_base v + (index + 1) * 2) in
      fail? next <? raw + 8 with Error_corrupt in
      Ok (raw, next - raw - 8)
  else
    let base := pv_meta_base v + index * 6 in
    let? raw_offset := read_i32 (pv_bytes v) base in
    let? offset := checked_len raw_offset in
    let? key_len := read_u16 (pv_bytes v) (base + 4) in
    Ok (offset, key_len).

Definition internal_entry (index : Z) : Result InternalEntry :=
  fail? bool_decide (view_kind <> Internal) with Error_corrupt in
  let? _ := check_index index in
  let? '(offset, key_len) := internal_meta index in
  fail? omitted_keys view_layout && negb (key_len =? 0) with Error_corrupt in
  let? _ := payload_range offset (key_len + 8) in
  let? raw := read_i64 (pv_bytes v) (offset + key_len) in
  let? opt := PageOrdinal_from_i64 raw in
  let? child := ok_or opt Error_corrupt in
  Ok {| ie_key_offset := offset; ie_key_len := key_len; ie_child := child |}.

Definition leaf_key (entry : LeafEntry) : Result (list byte) :=
  read_slice (pv_bytes v) (le_key_offset entry) (le_key_len entry).

Definition internal_key (entry : InternalEntry) : Result (list byte) :=
  read_slice (pv_bytes v) (ie_key_offset entry) (ie_key_len entry).

Definition inline_value (offset len : Z) : Result (list byte) :=
  read_slice (pv_bytes v) offset len.

(** [for i in 0..entry_count { f(i)?; }], [n] being what is left of the range. *)
Fixpoint for_entries {A} (f : Z -> Result A) (n : nat) (i : Z) : Result unit :=
  match n with
  | O => Ok tt
  | S n => let? _ := f i in for_entries f n (i + 1)
  end.

Definition PageView_validate : Result unit :=
  let? _ := match view_kind with
            | Leaf => for_entries leaf_entry (Z.to_nat entry_count) 0
            | Internal => for_entries internal_entry (Z.to_nat entry_count) 0
            end in
  if eytzinger view_layout then
    let slots := complete_size entry_count in
    let? size := ok_or (checked_mul slots 8) Error_corrupt in
    let? stop := ok_or (checked_add DIGEST_BASE size) Error_corrupt in
    fail? zlen (pv_bytes v) <? stop with Error_corrupt in
    Ok tt
  else Ok tt.
End View.

(** * The padded size of an Eytzinger tree *)

Lemma complete_size_loop_spec fuel j c :
  0 <= c < 2 ^ 63 -> 0 <= j <= Z.log2_up (c + 1) -> Z.log2_up (c + 1) - j < Z.of_nat fuel ->
  complete_size_loop fuel (2 ^ j) c = 2 ^ Z.log2_up (c + 1) - 1.
Proof.
  intros Hc. assert (Z.log2_up (c + 1) <= 63) by (apply Z.log2_up_le_pow2; lia).
  revert j; induction fuel as [|fuel IH]; intros j Hj Hf; [lia|].
  simpl complete_size_loop. unfold saturating_add. rewrite Z.min_l by fmt_lia.
  destruct (Z.ltb_spec (2 ^ j) (c + 1)) as [Hlt|Hge].
  - apply Z.log2_up_lt_pow2 in Hlt; [|lia].
    unfold wrap. rewrite Z.shiftl_mul_pow2 by lia.
    replace (2 ^ j * 2 ^ 1) with (2 ^ (j + 1)) by (rewrite Z.pow_add_r; lia).
    assert (0 < 2 ^ (j + 1) < 2 ^ 64).
    { split; [apply Z.pow_pos_nonneg; lia | apply Z.pow_lt_mono_r; lia]. }
    rewrite Z.mod_small by lia. destruct (Z.eqb_spec (2 ^ (j + 1)) 0); [lia|].
    apply IH; lia.
  - apply Z.log2_up_le_pow2 in Hge; [|lia]. now replace j with (Z.log2_up (c + 1)) by lia.
Qed.

Lemma complete_size_spec c :
  0 <= c < 2 ^ 63 -> complete_size c = 2 ^ Z.log2_up (c + 1) - 1.
Proof.
  intros. unfold complete_size. change 1 with (2 ^ 0) at 1.
  assert (Z.log2_up (c + 1) <= 63) by (apply Z.log2_up_le_pow2; lia).
  pose proof (Z.log2_up_nonneg (c + 1)). apply complete_size_loop_spec; lia.
Qed.

Lemma complete_size_ge c : 0 <= c < 2 ^ 63 -> c <= complete_size c.
Proof.
  intros. rewrite complete_size_spec by lia.
  assert (c + 1 <= 2 ^ Z.log2_up (c + 1)); [|lia].
  apply Z.log2_up_le_pow2; lia.
Qed.

Lemma complete_size_nonneg c : 0 <= complete_size c.
Proof.
  unfold complete_size. assert (forall fuel m, 1 <= m -> 0 <= complete_size_loop fuel m c) as H;
    [|apply H; lia].
  induction fuel as [|fuel IH]; intros m Hm; simpl; [fmt_lia|].
  destruct (m <? saturating_add c 1); [|lia].
  destruct (Z.eqb_spec (wrap 64 (Z.shiftl m 1)) 0) as [|Hne]; [fmt_lia|].
  apply IH. pose proof (Z.mod_pos_bound (Z.shiftl m 1) (2 ^ 64)). unfold wrap in *. lia.
Qed.

Lemma complete_size_height c :
  0 <= c < 2 ^ 63 ->
  exists h : nat, (h <= 63)%nat /\ complete_size c = 2 ^ Z.of_nat h - 1.
Proof.
  intros. exists (Z.to_nat (Z.log2_up (c + 1))).
  assert (Z.log2_up (c + 1) <= 63) by (apply Z.log2_up_le_pow2; lia).
  pose proof (Z.log2_up_nonneg (c + 1)).
  rewrite Z2Nat.id by lia. split; [lia | now apply complete_size_spec].
Qed.

(** [complete_size] terminates with the smallest [2^k - 1] that holds
    [count] digests, for every count below [2^63]. *)
Theorem complete_size_least c k :
  0 <= c < 2 ^ 63 -> 0 <= k ->
  c <= complete_size c /\ (c <= 2 ^ k - 1 -> complete_size c <= 2 ^ k - 1).
Proof.
  intros Hc Hk. split; [now apply complete_size_ge|]. intros Hle.
  rewrite complete_size_spec by lia.
  assert (2 ^ Z.log2_up (c + 1) <= 2 ^ k); [|lia].
  apply Z.pow_le_mono_r; [lia|]. apply Z.log2_up_le_pow2; lia.
Qed.

Lemma complete_size_least_witness : 5 <= complete_size 5 /\ complete_size 5 <= 2 ^ 3 - 1.
Proof.
  destruct (complete_size_least 5 3) as [Hge Hle]; [lia | lia |].
  split; [exact Hge | apply Hle; lia].
Defined.

(** * What a parsed page guarantees *)

Definition meta_area_size (k : NodeKind) (l : NodeLayout) (n : Z) : option Z :=
  match k with Leaf => leaf_meta_size l n | Internal => internal_meta_size l n end.

Record PageView_wf (v : PageView) : Prop := {
  vwf_len : PAGE_PREFIX_LEN <= zlen (pv_bytes v) <= i32_max;
  vwf_count : 0 <= entry_count v <= i32_max;
  vwf_meta : pv_meta_base v = DIGEST_BASE + 8 * digest_slots (view_layout v) (entry_count v);
  vwf_payload : meta_area_size (view_kind v) (view_layout v) (entry_count v)
                = Some (pv_payload_base v - pv_meta_base v);
  vwf_areas : pv_meta_base v <= zlen (pv_bytes v) /\ pv_payload_base v <= zlen (pv_bytes v);
  vwf_omitted : omitted_keys (view_layout v) = true ->
                compact_meta (view_layout v) = true /\ eytzinger (view_layout v) = false;
  vwf_compact : compact_meta (view_layout v) = true -> zlen (pv_bytes v) <= MAX_COMPACT_PAGE_SIZE;
}.

Lemma digest_slots_ge l n : 0 <= n <= i32_max -> n <= digest_slots l n.
Proof.
  intros. unfold digest_slots. destruct (eytzinger l); [|lia]. apply complete_size_ge. fmt_lia.
Qed.

Lemma meta_area_size_nonneg k l n m : 0 <= n -> meta_area_size k l n = Some m -> 0 <= m.
Proof.
  intros Hn. unfold meta_area_size, leaf_meta_size, internal_meta_size.
  repeat case_match; simpl; intros; simplify_option_eq; inv_reads; subst; lia.
Qed.

Lemma PageView_parse_wf bytes v :
  PageView_parse bytes = Ok v -> PageView_wf v /\ pv_bytes v = bytes.
Proof.
  unfold PageView_parse; intros H; inv_ok. inv_reads. subst. bool_hyps.
  split; [|reflexivity]. unfold digest_area_size in *. inv_reads. subst.
  set (l := parse_layout _) in *. clearbody l.
  constructor; cbn [view_kind view_layout entry_count pv_bytes pv_header pv_meta_base
    pv_payload_base nh_kind nh_layout nh_entry_count]; try fmt_lia.
  - unfold meta_area_size. etrans; [eassumption|]. f_equal; lia.
  - destruct (omitted_keys l), (compact_meta l), (eytzinger l); simpl in *; intuition discriminate.
  - intros Hc. rewrite Hc in *. fmt_lia.
Qed.

Lemma wf_digest_slot_count v :
  PageView_wf v -> digest_slot_count v = digest_slots (view_layout v) (entry_count v).
Proof.
  intros H. unfold digest_slot_count. rewrite (vwf_meta v H).
  rewrite Z.add_simpl_l, Z.mul_comm. apply Z.div_mul. lia.
Qed.

Lemma wf_slots_in_page v :
  PageView_wf v ->
  entry_count v <= digest_slot_count v /\
  DIGEST_BASE + 8 * digest_slot_count v = pv_meta_base v /\
  pv_meta_base v <= pv_payload_base v.
Proof.
  intros H. rewrite (wf_digest_slot_count v H). pose proof (vwf_count v H).
  pose proof (digest_slots_ge (view_layout v) (entry_count v) ltac:(lia)).
  pose proof (meta_area_size_nonneg _ _ (entry_count v) _ ltac:(lia) (vwf_payload v H)).
  pose proof (vwf_meta v H). lia.
Qed.

(** The value in digest slot [i]. *)
Definition slot_digest (v : PageView) (i : Z) : Z :=
  le_combine (slice (pv_bytes v) (DIGEST_BASE + i * 8) 8).

Lemma digest_slot_ok v i :
  PageView_wf v -> 0 <= i < digest_slot_count v -> digest_slot v i = Ok (slot_digest v i).
Proof.
  intros H Hi. pose proof (wf_slots_in_page v H). pose proof (vwf_areas v H). pose proof (vwf_len v H).
  unfold digest_slot. destruct (Z.leb_spec (digest_slot_count v) i); [lia|].
  unfold read_u64. rewrite read_le_ok by fmt_lia. reflexivity.
Qed.

Lemma slot_digest_bound v i : 0 <= slot_digest v i <= u64_max.
Proof. pose proof (le_combine_slice_bound (pv_bytes v) (DIGEST_BASE + i * 8) 8). unfold slot_digest. fmt_lia. Qed.

(** * The two rank searches *)

Section Rank.
Context (v : PageView) (Hwf : PageView_wf v) (key : Z).

(** The digests in sorted order: the slots themselves, or the in-order
    traversal of the padded tree. *)
Definition sorted_digests : list Z :=
  if eytzinger (view_layout v)
  then (fun n => slot_digest v (n - 1))
         <$> inorder_nodes (Z.to_nat (Z.log2_up (entry_count v + 1))) 1
  else slot_digest v <$> seqZ 0 (entry_count v).

Lemma eytzinger_descend_spec k h i fuel :
  digest_slot_count v = 2 ^ k - 1 -> (h < fuel)%nat -> Z.of_nat h <= k ->
  2 ^ (k - Z.of_nat h) <= i < 2 * 2 ^ (k - Z.of_nat h) ->
  StronglySorted Z.le ((fun n => slot_digest v (n - 1)) <$> inorder_nodes h i) ->
  eytzinger_descend v fuel (digest_slot_count v) key i =
    Ok (i * 2 ^ Z.of_nat h
        + count_lt key ((fun n => slot_digest v (n - 1)) <$> inorder_nodes h i)).
Proof.
  intros Hk. revert i fuel; induction h as [|h IH]; intros i [|fuel] Hf Hh Hp Hs; try lia.
  { rewrite Z.sub_0_r in Hp. cbn [eytzinger_descend inorder_nodes fmap list_fmap].
    destruct (Z.leb_spec i (digest_slot_count v)); [lia|]. f_equal.
    rewrite count_lt_nil. simpl Z.of_nat. lia. }
  assert (2 ^ (k - Z.of_nat h) = 2 * 2 ^ (k - Z.of_nat (S h))) as Hd.
  { rewrite <- Z.pow_succ_r by lia. f_equal; lia. }
  assert (0 < 2 ^ (k - Z.of_nat (S h))) by (apply Z.pow_pos_nonneg; lia).
  assert (2 * 2 ^ (k - Z.of_nat (S h)) <= 2 ^ k) by (rewrite <- Hd; apply Z.pow_le_mono_r; lia).
  cbn [inorder_nodes] in *. rewrite fmap_app, fmap_cons in *.
  apply StronglySorted_app_cons_le in Hs as Hs'. destruct Hs' as (_ & _ & Hsl & Hsr).
  cbn [eytzinger_descend]. destruct (Z.leb_spec i (digest_slot_count v)); [|lia].
  rewrite digest_slot_ok by (exact Hwf || lia). cbn [rbind].
  rewrite count_lt_middle by exact Hs.
  assert (2 ^ Z.of_nat (S h) = 2 * 2 ^ Z.of_nat h) as ->.
  { rewrite Nat2Z.inj_succ. apply Z.pow_succ_r. lia. }
  destruct (Z.ltb_spec (slot_digest v (i - 1)) key).
  - rewrite IH by (lia || exact Hsr). f_equal.
    unfold zlen at 1; rewrite length_fmap; fold (zlen (inorder_nodes h (2 * i))).
    rewrite zlen_inorder_nodes. lia.
  - rewrite Z.add_0_r. rewrite IH by (lia || exact Hsl). f_equal; lia.
Qed.

(** The slots [lo, hi) around [mid]. *)
Lemma slot_digests_split lo mid hi :
  0 <= lo <= mid -> mid < hi ->
  slot_digest v <$> seqZ lo (hi - lo) =
  (slot_digest v <$> seqZ lo (mid - lo)) ++
  slot_digest v mid :: (slot_digest v <$> seqZ (mid + 1) (hi - (mid + 1))).
Proof.
  intros. rewrite <- fmap_cons, <- fmap_app. f_equal.
  replace (hi - lo) with ((mid - lo) + (hi - mid)) by lia. rewrite seqZ_app by lia. f_equal.
  rewrite seqZ_cons by lia. f_equal; [lia | f_equal; lia].
Qed.

Lemma binary_descend_spec fuel lo hi :
  0 <= lo <= hi -> hi <= digest_slot_count v -> hi - lo < 2 ^ (Z.of_nat fuel - 1) ->
  StronglySorted Z.le (slot_digest v <$> seqZ lo (hi - lo)) ->
  binary_descend v fuel key lo hi =
    Ok (lo + count_lt key (slot_digest v <$> seqZ lo (hi - lo))).
Proof.
  revert lo hi; induction fuel as [|fuel IH]; intros lo hi Hlo Hhi Hf Hs.
  { change (Z.of_nat 0 - 1) with (-1) in Hf. change (2 ^ (-1)) with 0 in Hf. lia. }
  cbn [binary_descend]. destruct (Z.ltb_spec lo hi).
  2:{ replace hi with lo by lia. rewrite Z.sub_diag. f_equal.
      change (seqZ lo 0) with (@nil Z). rewrite fmap_nil, count_lt_nil. lia. }
  set (mid := lo + (hi - lo) / 2).
  assert (lo <= mid < hi) by (pose proof (Z.div_lt (hi - lo) 2);
    pose proof (Z.div_pos (hi - lo) 2); unfold mid; lia).
  assert (hi - lo < 2 * 2 ^ (Z.of_nat fuel - 1)) as Hf'.
  { destruct fuel as [|fuel]; [simpl in Hf; lia|].
    rewrite <- Z.pow_succ_r by lia. now replace (Z.succ (Z.of_nat (S fuel) - 1)) with
      (Z.of_nat (S (S fuel)) - 1) by lia. }
  assert ((hi - lo) / 2 < 2 ^ (Z.of_nat fuel - 1)) by (apply Z.div_lt_upper_bound; lia).
  assert (hi - lo - 1 <= 2 * ((hi - lo) / 2)) by (pose proof (Z.div_mod (hi - lo) 2);
    pose proof (Z.mod_pos_bound (hi - lo) 2); lia).
  rewrite digest_slot_ok by (exact Hwf || lia). cbn [rbind].
  rewrite (slot_digests_split lo mid hi) in * by lia.
  apply StronglySorted_app_cons_le in Hs as Hs'. destruct Hs' as (_ & _ & Hsl & Hsr).
  rewrite count_lt_middle by exact Hs. destruct (Z.ltb_spec (slot_digest v mid) key).
  - rewrite IH by (unfold mid in *; lia || exact Hsr). f_equal.
    unfold zlen; rewrite length_fmap, length_seqZ. lia.
  - apply IH; unfold mid in *; lia || exact Hsl.
Qed.

Lemma lower_bound_rank_ok :
  StronglySorted Z.le sorted_digests ->
  lower_bound_rank v key = Ok (count_lt key sorted_digests).
Proof.
  pose proof (vwf_count v Hwf) as Hc. pose proof (wf_digest_slot_count v Hwf) as Hd.
  unfold sorted_digests, lower_bound_rank, digest_slots in *.
  destruct (eytzinger (view_layout v)) eqn:Ey; intros Hs.
  - rewrite complete_size_spec in Hd by fmt_lia.
    set (k := Z.log2_up (entry_count v + 1)) in *.
    assert (0 <= k <= 63).
    { split; [apply Z.log2_up_nonneg | apply Z.log2_up_le_pow2; fmt_lia]. }
    rewrite (eytzinger_descend_spec k (Z.to_nat k) 1);
      [|exact Hd|lia|lia|rewrite Z2Nat.id, Z.sub_diag by lia; simpl; lia|exact Hs].
    cbn [rbind]. f_equal. rewrite Z2Nat.id by lia. lia.
  - rewrite binary_descend_spec; rewrite ?Z.sub_0_r; try lia; try exact Hs.
    + reflexivity.
    + eapply Z.le_lt_trans; [apply Hc|]. fmt_lia.
Qed.
End Rank.

Lemma count_lt_rank v key i x :
  StronglySorted Z.le (sorted_digests v) -> sorted_digests v !! i = Some x ->
  x < key <-> Z.of_nat i < count_lt key (sorted_digests v).
Proof. apply count_lt_lookup. Qed.

(** * Entries stay inside the page *)

Definition value_in_page (v : PageView) (key_end : Z) (value : LeafValue) : Prop :=
  match value with
  | Inline o n => o = key_end /\ 0 <= n /\ o + n <= zlen (pv_bytes v)
  | Overflow p => 0 <= p < 2 ^ 63 /\ key_end + 8 <= zlen (pv_bytes v)
  end.

Lemma payload_range_inv v offset len :
  payload_range v offset len = Ok tt ->
  pv_payload_base v <= offset /\ offset + len <= zlen (pv_bytes v).
Proof. unfold payload_range; intros; inv_ok; inv_reads; subst. lia. Qed.

Lemma payload_range_ok v offset len :
  pv_payload_base v <= offset -> offset + len <= zlen (pv_bytes v) ->
  zlen (pv_bytes v) <= usize_max -> payload_range v offset len = Ok tt.
Proof.
  intros; unfold payload_range. rewrite checked_add_ok by lia. cbn [ok_or rbind]. now cmp_cases.
Qed.

Lemma land_mask_bound a : 0 <= Z.land a COMPACT_OFFSET_MASK <= 0x7FFF.
Proof.
  change COMPACT_OFFSET_MASK with (Z.ones 15). rewrite Z.land_ones by lia.
  pose proof (Z.mod_pos_bound a (2 ^ 15)). lia.
Qed.

Lemma leaf_meta_inv v i off kl vl :
  leaf_meta v i = Ok (off, kl, vl) -> 0 <= kl <= u16_max /\ 0 <= vl <= u16_max.
Proof.
  unfold leaf_meta. destruct (compact_meta _); intros H; inv_ok; inv_reads; simplify_eq; [|lia].
  assert (0 <= kl <= u16_max) as Hkl.
  { destruct (omitted_keys _); inv_ok; inv_reads; subst; fmt_lia. }
  split; [exact Hkl|].
  match goal with G : (Z.land ?b _ <? Z.land ?a _) = false |- _ =>
    pose proof (land_mask_bound a); pose proof (land_mask_bound b) end.
  destruct (negb _); fmt_lia.
Qed.

Lemma leaf_entry_inv v i e :
  PageView_wf v -> leaf_entry v i = Ok e ->
  view_kind v = Leaf /\ i < entry_count v /\
  pv_payload_base v <= le_key_offset e /\ 0 <= le_key_len e <= u16_max /\
  le_key_offset e + le_key_len e <= zlen (pv_bytes v) /\
  value_in_page v (le_key_offset e + le_key_len e) (le_value e).
Proof.
  intros Hwf H. unfold leaf_entry in H. inv_ok.
  apply bool_decide_eq_false_1, dec_stable in G.
  unfold check_index in *. inv_ok.
  match goal with H : leaf_meta _ _ = Ok ?m |- _ => destruct m as [[off kl] vl]; rename H into E0 end.
  pose proof (leaf_meta_inv _ _ _ _ _ E0). inv_ok.
  destruct (vl =? OVERFLOW_SENTINEL); inv_ok.
  - match goal with H : payload_range _ _ _ = Ok ?u |- _ => destruct u; apply payload_range_inv in H end. inv_reads. subst. simpl. inv_reads. subst.
    repeat split; assumption || lia.
  - match goal with H : payload_range _ _ _ = Ok ?u |- _ => destruct u; apply payload_range_inv in H end. simpl. repeat split; assumption || lia.
Qed.

Lemma internal_meta_inv v i off kl :
  internal_meta v i = Ok (off, kl) -> 0 <= kl <= u16_max.
Proof.
  unfold internal_meta.
  destruct (compact_meta _); [destruct (omitted_keys _)|]; intros H; inv_ok; inv_reads; simplify_eq; fmt_lia.
Qed.

Lemma internal_entry_inv v i e :
  PageView_wf v -> internal_entry v i = Ok e ->
  view_kind v = Internal /\ i < entry_count v /\
  pv_payload_base v <= ie_key_offset e /\ 0 <= ie_key_len e <= u16_max /\
  ie_key_offset e + ie_key_len e + 8 <= zlen (pv_bytes v) /\ 0 <= ie_child e < 2 ^ 63.
Proof.
  intros Hwf H. unfold internal_entry in H. inv_ok.
  apply bool_decide_eq_false_1, dec_stable in G.
  unfold check_index in *. inv_ok.
  match goal with H : internal_meta _ _ = Ok ?m |- _ => destruct m as [off kl]; rename H into E0 end.
  pose proof (internal_meta_inv _ _ _ _ E0). inv_ok.
  match goal with H : payload_range _ _ _ = Ok ?u |- _ => destruct u; apply payload_range_inv in H end. inv_reads. subst. simpl. inv_reads. subst.
  repeat split; assumption || lia.
Qed.

Lemma for_entries_Ok {A} (f : Z -> Result A) n i :
  for_entries f n i = Ok tt <-> forall j, i <= j < i + Z.of_nat n -> exists a, f j = Ok a.
Proof.
  revert i; induction n as [|n IH]; intros i; simpl for_entries.
  { split; [intros _ j Hj; lia | reflexivity]. }
  split.
  - intros (a & Ha & Hr)%rbind_Ok_inv j Hj. rewrite IH in Hr.
    destruct (decide (j = i)) as [->|]; [eauto|]. apply Hr; lia.
  - intros H. destruct (H i ltac:(lia)) as [a ->]. simpl. apply IH. intros j Hj. apply H. lia.
Qed.

Lemma validate_entries v :
  PageView_wf v -> PageView_validate v = Ok tt ->
  forall i, 0 <= i < entry_count v ->
  match view_kind v with
  | Leaf => exists e, leaf_entry v i = Ok e
  | Internal => exists e, internal_entry v i = Ok e
  end.
Proof.
  intros Hwf Hv i Hi. unfold PageView_validate in Hv.
  apply rbind_Ok_inv in Hv as ([] & Hv & _). pose proof (vwf_count v Hwf).
  destruct (view_kind v); rewrite for_entries_Ok in Hv; apply Hv; lia.
Qed.

Lemma validate_ok v :
  PageView_wf v ->
  (forall i, 0 <= i < entry_count v ->
   match view_kind v with
   | Leaf => exists e, leaf_entry v i = Ok e
   | Internal => exists e, internal_entry v i = Ok e
   end) -> PageView_validate v = Ok tt.
Proof.
  intros Hwf He. unfold PageView_validate. pose proof (vwf_count v Hwf) as Hc.
  assert (match view_kind v with
          | Leaf => for_entries (leaf_entry v) (Z.to_nat (entry_count v)) 0
          | Internal => for_entries (internal_entry v) (Z.to_nat (entry_count v)) 0
          end = Ok tt) as ->.
  { destruct (view_kind v); apply for_entries_Ok; intros j Hj; apply He; lia. }
  cbn [rbind]. destruct (eytzinger (view_layout v)) eqn:Ey; [|reflexivity].
  pose proof (vwf_meta v Hwf) as Hm. unfold digest_slots in Hm. rewrite Ey in Hm.
  pose proof (vwf_areas v Hwf). pose proof (vwf_len v Hwf).
  rewrite checked_mul_ok by fmt_lia. cbn [ok_or rbind].
  rewrite checked_add_ok by fmt_lia. cbn [ok_or rbind].
  unfold_consts. cmp_cases. reflexivity.
Qed.

(** C29: once a page has parsed and validated, every entry decodes, its key is
    readable, and its key and value lie in the payload area of the page: no
    accessor can be led outside the page by its contents. *)
Theorem validated_page_is_safe bytes v :
  PageView_parse bytes = Ok v -> PageView_validate v = Ok tt ->
  PAGE_PREFIX_LEN <= pv_meta_base v <= pv_payload_base v /\
  pv_payload_base v <= zlen bytes /\
  forall i, 0 <= i < entry_count v ->
  match view_kind v with
  | Leaf => exists e k, leaf_entry v i = Ok e /\ leaf_key v e = Ok k /\
      zlen k = le_key_len e /\ pv_payload_base v <= le_key_offset e /\
      value_in_page v (le_key_offset e + le_key_len e) (le_value e)
  | Internal => exists e k, internal_entry v i = Ok e /\ internal_key v e = Ok k /\
      zlen k = ie_key_len e /\ pv_payload_base v <= ie_key_offset e /\
      0 <= ie_child e < 2 ^ 63
  end.
Proof.
  intros [Hwf <-]%PageView_parse_wf Hv.
  pose proof (wf_slots_in_page v Hwf). pose proof (vwf_areas v Hwf).
  pose proof (vwf_count v Hwf). pose proof (vwf_len v Hwf).
  split; [fmt_lia|]. split; [lia|]. intros i Hi.
  pose proof (validate_entries v Hwf Hv i Hi) as He.
  destruct (view_kind v); destruct He as [e He]; exists e.
  - apply leaf_entry_inv in He as Hi'; [|exact Hwf]. destruct Hi' as (_ & _ & ? & ? & ? & ?).
    eexists. split; [exact He|]. unfold leaf_key. rewrite read_slice_ok by fmt_lia.
    split; [reflexivity|]. rewrite zlen_slice by fmt_lia. auto.
  - apply internal_entry_inv in He as Hi'; [|exact Hwf]. destruct Hi' as (_ & _ & ? & ? & ? & ?).
    eexists. split; [exact He|]. unfold internal_key. rewrite read_slice_ok by fmt_lia.
    split; [reflexivity|]. rewrite zlen_slice by fmt_lia. auto.
Qed.

(** Whatever the bytes, decoding a page reports nothing but corruption. *)
Theorem page_decoding_only_corrupt bytes v i key_digest :
  only_corrupt (PageView_parse bytes) /\
  only_corrupt (leaf_entry v i) /\ only_corrupt (internal_entry v i) /\
  only_corrupt (PageView_validate v) /\ only_corrupt (lower_bound_rank v key_digest).
Proof.
  assert (forall j, only_corrupt (leaf_entry v j)) as Hl.
  { intros j. unfold leaf_entry, check_index, leaf_meta, payload_range. fails. }
  assert (forall j, only_corrupt (internal_entry v j)) as Hi.
  { intros j. unfold internal_entry, check_index, internal_meta, payload_range. fails. }
  assert (forall {A} (f : Z -> Result A) n j,
    (forall k, only_corrupt (f k)) -> only_corrupt (for_entries f n j)) as Hf.
  { intros A f n; induction n as [|n IH]; intros j Hf; simpl; fails; auto. }
  split; [|split; [apply Hl|split; [apply Hi|split]]].
  - unfold PageView_parse, parse_kind. fails.
  - unfold PageView_validate. fails; auto.
  - unfold lower_bound_rank. destruct (eytzinger _).
    + apply fails_in_bind; [|intros; apply fails_in_Ok].
      generalize 66%nat, 1. intros n; induction n; intros k; simpl; unfold digest_slot; fails; auto.
    + generalize 66%nat, 0, (entry_count v).
      intros n; induction n; intros lo hi; simpl; unfold digest_slot; fails; auto.
Qed.

(** On a parsed page whose digests are sorted, the rank search terminates
    and returns the boundary between the digests below the key's and the rest,
    for the sorted array and for the Eytzinger tree alike. *)
Theorem lower_bound_rank_correct bytes v key :
  PageView_parse bytes = Ok v -> StronglySorted Z.le (sorted_digests v) ->
  exists r, lower_bound_rank v key = Ok r /\ 0 <= r <= zlen (sorted_digests v) /\
    forall i x, sorted_digests v !! i = Some x -> (x < key <-> Z.of_nat i < r).
Proof.
  intros [Hwf _]%PageView_parse_wf Hs.
  exists (count_lt key (sorted_digests v)). split; [now apply lower_bound_rank_ok|].
  split; [split; [apply count_lt_nonneg | apply count_lt_le_len]|].
  intros i x. now apply count_lt_rank.
Qed.

(** A compact Eytzinger leaf holding the entries ["a" -> "1"] and ["b" -> "22"]. *)
Definition sample_page : list byte :=
  i32_le 67 ++ i32_le (Z.lor FLAG_EYTZINGER FLAG_COMPACT_META) ++ i32_le 2
  ++ i64_le (-1) ++ i64_le (-1)
  ++ u64_le 0x6200000000000000 ++ u64_le 0x6100000000000000 ++ u64_le u64_max
  ++ u16_le 62 ++ u16_le 64 ++ u16_le 67 ++ u16_le 1 ++ u16_le 1
  ++ [Byte.x61; Byte.x31; Byte.x62; Byte.x32; Byte.x32].

Definition sample_view : PageView :=
  mkPageView sample_page
    (mkNodeHeader Leaf (mkNodeLayout true true false) 2 None None) 52 62.

Lemma sample_page_parses : PageView_parse sample_page = Ok sample_view.
Proof. vm_compute. reflexivity. Qed.

Lemma validated_page_is_safe_witness :
  exists e, leaf_entry sample_view 1 = Ok e /\ leaf_key sample_view e = Ok [Byte.x62].
Proof.
  destruct (validated_page_is_safe sample_page sample_view) as (_ & _ & He).
  - exact sample_page_parses.
  - vm_compute. reflexivity.
  - destruct (He 1) as (e & k & H1 & H2 & _); [vm_compute; intuition discriminate|].
    exists e. split; [exact H1|]. vm_compute in H1. injection H1 as <-. vm_compute. reflexivity.
Defined.

Lemma lower_bound_rank_correct_witness :
  exists r, lower_bound_rank sample_view 0x6100000000000001 = Ok r /\ r = 1.
Proof.
  destruct (lower_bound_rank_correct sample_page sample_view 0x6100000000000001)
    as (r & Hr & _).
  - exact sample_page_parses.
  - vm_compute. repeat constructor; discriminate.
  - exists r. split; [exact Hr|]. vm_compute in Hr. congruence.
Defined.
