(* ===== verification/Encoding.v ===== *)
(** Key encodings, [crates/drydb/src/encoding.rs].

    An encoding fixes the byte form of a key, its order and an order-preserving
    64-bit digest.  The [KeyEncoding] trait is the record of that name; the
    class [LawfulEncoding] states what an implementation promises to the tree
    code, and each encoding of the crate is an instance of it.

    [format_key] and [parse_key] serve the command line, take no part in a
    lookup and are not modelled. *)

From Stdlib Require Import ZArith Lia.
From stdpp Require Import base list gmap strings.
From coqutil Require Import Byte Word.LittleEndianList.
From S2P Require Import Prelude Errors Format.

#[local] Open Scope Z_scope.
#[local] Open Scope drydb_scope.

(** * Comparisons *)

(** [Ordering::then]. *)
Definition cmp_then (c d : comparison) : comparison :=
  match c with Eq => d | _ => c end.

(** [a.cmp(b)] on byte slices: lexicographic, bytes unsigned, a prefix first. *)
Fixpoint bytes_cmp (a b : list byte) : comparison :=
  match a, b with
  | [], [] => Eq
  | [], _ :: _ => Lt
  | _ :: _, [] => Gt
  | x :: a, y :: b => cmp_then (byte.compare x y) (bytes_cmp a b)
  end.

(** A comparison function that is a total order. *)
Record CmpOrder {A : Type} (ok : A -> Prop) (cmp : A -> A -> comparison) : Prop := {
  cmp_eq : forall a b, ok a -> ok b -> cmp a b = Eq <-> a = b;
  cmp_opp : forall a b, ok a -> ok b -> cmp b a = CompOpp (cmp a b);
  cmp_trans : forall a b c, ok a -> ok b -> ok c ->
    cmp a b = Lt -> cmp b c = Lt -> cmp a c = Lt;
}.

Lemma Z_CmpOrder : CmpOrder (fun _ => True) Z.compare.
Proof.
  constructor; intros.
  - apply Z.compare_eq_iff.
  - apply Z.compare_antisym.
  - rewrite Z.compare_lt_iff in *; lia.
Qed.

Lemma byte_CmpOrder : CmpOrder (fun _ => True) byte.compare.
Proof.
  unfold byte.compare. constructor; intros.
  - rewrite Z.compare_eq_iff. split; [apply byte.unsigned_inj | congruence].
  - apply Z.compare_antisym.
  - rewrite Z.compare_lt_iff in *; lia.
Qed.

(** Lexicographic composition of two orders through projections. *)
Lemma then_CmpOrder {A B C} (ok : C -> Prop) (f : C -> A) (g : C -> B) okA okB ca cb :
  CmpOrder okA ca -> CmpOrder okB cb ->
  (forall c, ok c -> okA (f c)) -> (forall c, ok c -> okB (g c)) ->
  (forall c d, ok c -> ok d -> f c = f d -> g c = g d -> c = d) ->
  CmpOrder ok (fun c d => cmp_then (ca (f c) (f d)) (cb (g c) (g d))).
Proof.
  intros HA HB Hf Hg Hinj. constructor.
  - intros c d Hc Hd. pose proof (cmp_eq _ _ HA _ _ (Hf c Hc) (Hf d Hd)) as HE.
    pose proof (cmp_eq _ _ HB _ _ (Hg c Hc) (Hg d Hd)) as HE'.
    destruct (ca (f c) (f d)); simpl; split; intros; subst; try discriminate.
    + apply Hinj; [assumption..|now apply HE|now apply HE'].
    + now apply HE'.
    + exfalso. assert (Lt = Eq) by now apply HE. discriminate.
    + exfalso. assert (Gt = Eq) by now apply HE. discriminate.
  - intros c d Hc Hd. rewrite (cmp_opp _ _ HA) by auto.
    destruct (ca (f c) (f d)); simpl; auto. now rewrite (cmp_opp _ _ HB) by auto.
  - intros c d e Hc Hd He.
    destruct (ca (f c) (f d)) eqn:E1, (ca (f d) (f e)) eqn:E2; simpl; try discriminate.
    + apply (cmp_eq _ _ HA) in E1, E2; auto. rewrite E1, E2.
      assert (ca (f e) (f e) = Eq) as -> by (apply (cmp_eq _ _ HA); auto). simpl.
      apply (cmp_trans _ _ HB); auto.
    + apply (cmp_eq _ _ HA) in E1; auto. rewrite E1, E2. reflexivity.
    + apply (cmp_eq _ _ HA) in E2; auto. rewrite <- E2, E1. reflexivity.
    + intros _ _. rewrite (cmp_trans _ _ HA _ (f d)); auto.
Qed.

Lemma bytes_CmpOrder : CmpOrder (fun _ => True) bytes_cmp.
Proof.
  pose proof byte_CmpOrder as HB. constructor.
  - intros a; induction a as [|x a IH]; intros [|y b] _ _; simpl; try (split; congruence).
    pose proof (cmp_eq _ _ HB x y I I) as HE. specialize (IH b I I).
    destruct (byte.compare x y); simpl; [rewrite IH; split|split|split]; intros; try congruence.
    + f_equal; [now apply HE | assumption].
    + assert (Lt = Eq) by (apply HE; congruence). discriminate.
    + assert (Gt = Eq) by (apply HE; congruence). discriminate.
  - intros a; induction a as [|x a IH]; intros [|y b] _ _; simpl; try reflexivity.
    rewrite (cmp_opp _ _ HB x y I I), (IH b I I). now destruct (byte.compare x y).
  - intros a; induction a as [|x a IH]; intros [|y b] [|z c] _ _ _; simpl; try discriminate; auto.
    destruct (byte.compare x y) eqn:E1, (byte.compare y z) eqn:E2; simpl; try discriminate.
    + apply (cmp_eq _ _ HB) in E1, E2; auto. subst.
      assert (byte.compare z z = Eq) as -> by (apply (cmp_eq _ _ HB); auto). simpl. now apply IH.
    + apply (cmp_eq _ _ HB) in E1; auto. subst. now rewrite E2.
    + apply (cmp_eq _ _ HB) in E2; auto. subst. now rewrite E1.
    + intros _ _. rewrite (cmp_trans _ _ HB _ y); auto.
Qed.

(** * The trait *)

Record KeyEncoding : Type := mkKeyEncoding {
  ke_id : string;
  ke_compare : list byte -> list byte -> Result comparison;
  ke_digest : list byte -> Result Z;
  ke_is_digest_exact : bool;
  ke_accepts_digest : list byte -> Z -> Result bool;
  (** [decode_key_from_digest digest out] is the new content of [out]. *)
  ke_decode_key_from_digest : Z -> list byte -> Result (list byte);
  ke_fixed_key_len : option Z;
  ke_max_rebuilt_key_len : option Z;
  ke_is_byte_lexicographic : bool;
}.

(** The trait's default methods. *)
Definition default_accepts_digest (digest : list byte -> Result Z) (key : list byte) (stored : Z)
    : Result bool :=
  let? d := digest key in Ok (d =? stored).

Definition default_decode_key_from_digest (digest : Z) (out : list byte) : Result (list byte) :=
  Err (Error_new Unsupported).

(** [validate_key] is never overridden by an encoding of the crate. *)
Definition validate_key (E : KeyEncoding) (key : list byte) : Result unit :=
  match ke_fixed_key_len E with
  | Some len => if negb (zlen key =? len) then Err Error_invalid else Ok tt
  | None => Ok tt
  end.

Definition need_len (key : list byte) (len : Z) : Result unit :=
  if negb (zlen key =? len) then Err Error_corrupt else Ok tt.

(** ** [i64]: little-endian signed integers *)

Definition SIGN_BIT : Z := 0x8000000000000000.

Definition Int64_encode (value : Z) : list byte := i64_le value.

Definition Int64_decode (key : list byte) : Result Z :=
  let? _ := need_len key 8 in
  Ok (swrap 64 (le_combine key)).

Definition Int64_compare (a b : list byte) : Result comparison :=
  let? x := Int64_decode a in
  let? y := Int64_decode b in
  Ok (x ?= y).

Definition Int64_digest (key : list byte) : Result Z :=
  let? x := Int64_decode key in
  Ok (Z.lxor (wrap 64 x) SIGN_BIT).

Definition Int64_decode_key_from_digest (digest : Z) (out : list byte) : Result (list byte) :=
  Ok (i64_le (swrap 64 (Z.lxor digest SIGN_BIT))).

Definition Int64Encoding : KeyEncoding :=
  {| ke_id := "i64";
     ke_compare := Int64_compare;
     ke_digest := Int64_digest;
     ke_is_digest_exact := true;
     ke_accepts_digest := default_accepts_digest Int64_digest;
     ke_decode_key_from_digest := Int64_decode_key_from_digest;
     ke_fixed_key_len := Some 8;
     ke_max_rebuilt_key_len := Some 8;
     ke_is_byte_lexicographic := false |}.

(** ** [ascii]: byte strings *)

(** [for (i, b) in key.iter().take(8).enumerate() { digest |= b << (56 - i * 8) }] *)
Fixpoint ascii_digest_loop (i : Z) (key : list byte) (digest : Z) : Z :=
  match key with
  | [] => digest
  | b :: key =>
      ascii_digest_loop (i + 1) key (Z.lor digest (Z.shiftl (byte.unsigned b) (56 - i * 8)))
  end.

Definition ascii_digest (key : list byte) : Z := ascii_digest_loop 0 (take 8 key) 0.

Definition AsciiEncoding : KeyEncoding :=
  {| ke_id := "ascii";
     ke_compare := fun a b => Ok (bytes_cmp a b);
     ke_digest := fun key => Ok (ascii_digest key);
     ke_is_digest_exact := false;
     ke_accepts_digest := default_accepts_digest (fun key => Ok (ascii_digest key));
     ke_decode_key_from_digest := default_decode_key_from_digest;
     ke_fixed_key_len := None;
     ke_max_rebuilt_key_len := None;
     ke_is_byte_lexicographic := true |}.

(** ** [uuidv7]: .NET [Guid] layout *)

Definition Uuidv7_from_rfc4122 (bytes : list byte) : list byte :=
  reverse (slice bytes 0 4) ++ reverse (slice bytes 4 2) ++ reverse (slice bytes 6 2)
  ++ slice bytes 8 8.

Definition Uuidv7_to_rfc4122 (bytes : list byte) : list byte := Uuidv7_from_rfc4122 bytes.

Definition Uuidv7_fields (key : list byte) : Result (Z * Z * Z) :=
  let? _ := need_len key 16 in
  Ok (le_combine (slice key 0 4), le_combine (slice key 4 2), le_combine (slice key 6 2)).

Definition Uuidv7_compare (a b : list byte) : Result comparison :=
  let? '(aa, ab, ac) := Uuidv7_fields a in
  let? '(ba, bb, bc) := Uuidv7_fields b in
  Ok (cmp_then (cmp_then (cmp_then (aa ?= ba) (ab ?= bb)) (ac ?= bc))
        (bytes_cmp (drop 8 a) (drop 8 b))).

Definition Uuidv7_digest (key : list byte) : Result Z :=
  let? '(a, b, c) := Uuidv7_fields key in
  Ok (Z.lor (Z.lor (Z.shiftl a 32) (Z.shiftl b 16)) c).

Definition Uuidv7Encoding : KeyEncoding :=
  {| ke_id := "uuidv7";
     ke_compare := Uuidv7_compare;
     ke_digest := Uuidv7_digest;
     ke_is_digest_exact := false;
     ke_accepts_digest := default_accepts_digest Uuidv7_digest;
     ke_decode_key_from_digest := default_decode_key_from_digest;
     ke_fixed_key_len := Some 16;
     ke_max_rebuilt_key_len := None;
     ke_is_byte_lexicographic := false |}.

(** ** [ulid]: sixteen bytes in byte order *)

Definition UlidEncoding : KeyEncoding :=
  {| ke_id := "ulid";
     ke_compare := fun a b => Ok (bytes_cmp a b);
     ke_digest := fun key => Ok (ascii_digest key);
     ke_is_digest_exact := false;
     ke_accepts_digest := default_accepts_digest (fun key => Ok (ascii_digest key));
     ke_decode_key_from_digest := default_decode_key_from_digest;
     ke_fixed_key_len := Some 16;
     ke_max_rebuilt_key_len := None;
     ke_is_byte_lexicographic := true |}.

(** ** Composite [(source key, rid)] keys of non-unique indexes *)

Definition RID_LEN : Z := 4.

Definition DuplicateKey_encode (source_key : list byte) (rid : Z) : list byte :=
  source_key ++ i32_le rid.

Definition DuplicateKey_split (key : list byte) : Result (list byte * Z) :=
  fail? zlen key <? RID_LEN with Error_corrupt in
  let split := zlen key - RID_LEN in
  let rid := swrap 32 (le_combine (drop (Z.to_nat split) key)) in
  fail? rid <? 0 with Error_corrupt in
  Ok (take (Z.to_nat split) key, rid).

Section Duplicate.
Context (source : KeyEncoding).

Definition DuplicateKey_compare (a b : list byte) : Result comparison :=
  let? '(a_key, a_rid) := DuplicateKey_split a in
  let? '(b_key, b_rid) := DuplicateKey_split b in
  let? c := ke_compare source a_key b_key in
  Ok (cmp_then c (a_rid ?= b_rid)).

Definition DuplicateKey_digest (key : list byte) : Result Z :=
  let? '(source_key, _) := DuplicateKey_split key in
  ke_digest source source_key.

Definition DuplicateKey_accepts_digest (key : list byte) (stored : Z) : Result bool :=
  let? d := DuplicateKey_digest key in
  if d =? stored then Ok true
  else
    let? d' := ke_digest source key in
    Ok (d' =? stored).

Definition DuplicateKey_decode_key_from_digest (digest : Z) (out : list byte)
    : Result (list byte) :=
  let? out := ke_decode_key_from_digest source digest out in
  Ok (out ++ i32_le 0).

Definition DuplicateKeyEncoding : KeyEncoding :=
  {| ke_id := ke_id source;
     ke_compare := DuplicateKey_compare;
     ke_digest := DuplicateKey_digest;
     ke_is_digest_exact := false;
     ke_accepts_digest := DuplicateKey_accepts_digest;
     ke_decode_key_from_digest := DuplicateKey_decode_key_from_digest;
     ke_fixed_key_len := (fun n => n + RID_LEN) <$> ke_fixed_key_len source;
     ke_max_rebuilt_key_len := (fun n => n + RID_LEN) <$> ke_max_rebuilt_key_len source;
     ke_is_byte_lexicographic := false |}.
End Duplicate.

(** * The registry *)

Definition builtin (id : string) : option KeyEncoding :=
  if String.eqb id "i64" then Some Int64Encoding
  else if String.eqb id "ascii" then Some AsciiEncoding
  else if String.eqb id "uuidv7" then Some Uuidv7Encoding
  else if String.eqb id "ulid" then Some UlidEncoding
  else None.

Record EncodingRegistry : Type := mkEncodingRegistry {
  er_custom : gmap string KeyEncoding;
}.

Definition EncodingRegistry_new : EncodingRegistry := mkEncodingRegistry ∅.

Definition EncodingRegistry_register (r : EncodingRegistry) (e : KeyEncoding)
    : Result EncodingRegistry :=
  match builtin (ke_id e) with
  | Some _ => Err Error_invalid
  | None => Ok (mkEncodingRegistry (<[ke_id e := e]> (er_custom r)))
  end.

Definition EncodingRegistry_resolve (r : EncodingRegistry) (id : string) : Result KeyEncoding :=
  match builtin id with
  | Some e => Ok e
  | None => ok_or (er_custom r !! id) (Error_new UnknownEncoding)
  end.

(** * What an encoding promises *)

Class LawfulEncoding (E : KeyEncoding) : Type := {
  key_ok : list byte -> Prop;
  ord : list byte -> list byte -> comparison;
  dig : list byte -> Z;
  compare_ok : forall a b, key_ok a -> key_ok b -> ke_compare E a b = Ok (ord a b);
  ord_order : CmpOrder key_ok ord;
  digest_ok : forall a, key_ok a -> ke_digest E a = Ok (dig a);
  dig_range : forall a, key_ok a -> 0 <= dig a <= u64_max;
  dig_mono : forall a b, key_ok a -> key_ok b -> ord a b = Lt -> dig a <= dig b;
  dig_exact : forall a b, ke_is_digest_exact E = true ->
    key_ok a -> key_ok b -> dig a = dig b -> a = b;
  rebuild_exact : forall a out, ke_is_digest_exact E = true -> key_ok a ->
    ke_decode_key_from_digest E (dig a) out = Ok a /\
    exists n, ke_max_rebuilt_key_len E = Some n /\ zlen a <= n;
}.

(** Big-endian reading of the first [n] bytes, zero padded. *)
Fixpoint be_prefix (n : nat) (key : list byte) : Z :=
  match n, key with
  | S n, b :: key => byte.unsigned b * 256 ^ Z.of_nat n + be_prefix n key
  | _, _ => 0
  end.

Lemma pow256_pos n : 0 < 256 ^ Z.of_nat n.
Proof. apply Z.pow_pos_nonneg; lia. Qed.

Lemma pow256_S n : 256 ^ Z.of_nat (S n) = 256 * 256 ^ Z.of_nat n.
Proof. rewrite Nat2Z.inj_succ. apply Z.pow_succ_r. lia. Qed.

Lemma be_prefix_bound n key : 0 <= be_prefix n key < 256 ^ Z.of_nat n.
Proof.
  revert key; induction n as [|n IH]; intros [|b key]; cbn [be_prefix]; try (simpl; lia).
  rewrite pow256_S. pose proof (IH key). pose proof (byte.unsigned_range b). nia.
Qed.

Lemma ascii_digest_loop_spec n i key acc :
  (i + n = 8)%nat -> (length key <= n)%nat ->
  ascii_digest_loop (Z.of_nat i) key (acc * 256 ^ Z.of_nat n) =
  acc * 256 ^ Z.of_nat n + be_prefix n key.
Proof.
  revert i key acc; induction n as [|n IH]; intros i [|b key] acc Hi Hk; simpl in Hk;
    cbn [ascii_digest_loop be_prefix]; try lia.
  rewrite pow256_S. rewrite Z.shiftl_mul_pow2 by lia.
  assert (2 ^ (56 - Z.of_nat i * 8) = 256 ^ Z.of_nat n) as ->.
  { change 256 with (2 ^ 8). rewrite <- Z.pow_mul_r by lia. f_equal; lia. }
  assert (Z.lor (acc * (256 * 256 ^ Z.of_nat n)) (byte.unsigned b * 256 ^ Z.of_nat n)
          = (acc * 256 + byte.unsigned b) * 256 ^ Z.of_nat n) as ->.
  { pose proof (byte.unsigned_range b). rewrite Z.mul_assoc.
    change (acc * 256) with (acc * 2 ^ 8). rewrite <- (lor_high_low acc 8) by lia.
    change 256 with (2 ^ 8). rewrite <- Z.pow_mul_r by lia.
    rewrite <- (Z.shiftl_mul_pow2 (Z.lor _ _)) by lia. rewrite Z.shiftl_lor.
    now rewrite !Z.shiftl_mul_pow2 by lia. }
  replace (Z.of_nat i + 1) with (Z.of_nat (S i)) by lia. rewrite IH by lia. lia.
Qed.

Lemma be_prefix_take n key : be_prefix n (take n key) = be_prefix n key.
Proof. revert key; induction n as [|n IH]; intros [|b key]; simpl; rewrite ?IH; reflexivity. Qed.

Lemma ascii_digest_be key : ascii_digest key = be_prefix 8 key.
Proof.
  unfold ascii_digest. change 0 with (Z.of_nat 0) at 1. change 0 with (0 * 256 ^ Z.of_nat 8) at 1.
  rewrite ascii_digest_loop_spec; [|lia|rewrite length_take; lia].
  now rewrite be_prefix_take.
Qed.

Lemma be_prefix_mono n a b : bytes_cmp a b = Lt -> be_prefix n a <= be_prefix n b.
Proof.
  revert a b; induction n as [|n IH]; intros [|x a] [|y b]; cbn [bytes_cmp be_prefix];
    try discriminate; try lia.
  - intros _. pose proof (be_prefix_bound n b). pose proof (byte.unsigned_range y).
    pose proof (pow256_pos n). nia.
  - unfold byte.compare.
    destruct (Z.compare_spec (byte.unsigned x) (byte.unsigned y)) as [->|Hlt|]; simpl;
      intros Hc; try discriminate.
    + apply IH in Hc; lia.
    + pose proof (be_prefix_bound n a). pose proof (be_prefix_bound n b).
      pose proof (pow256_pos n). nia.
Qed.

Lemma ascii_digest_range key : 0 <= ascii_digest key <= u64_max.
Proof.
  rewrite ascii_digest_be. pose proof (be_prefix_bound 8 key). unfold u64_max.
  change (256 ^ Z.of_nat 8) with (2 ^ 64) in *. lia.
Qed.

#[export, program] Instance Ascii_lawful : LawfulEncoding AsciiEncoding := {|
  key_ok := fun _ => True;
  ord := bytes_cmp;
  dig := ascii_digest;
|}.
Solve Obligations with simpl; try discriminate; auto using bytes_CmpOrder, ascii_digest_range.
Next Obligation. simpl; intros. rewrite !ascii_digest_be. now apply be_prefix_mono. Qed.

#[export, program] Instance Ulid_lawful : LawfulEncoding UlidEncoding := {|
  key_ok := fun _ => True;
  ord := bytes_cmp;
  dig := ascii_digest;
|}.
Solve Obligations with simpl; try discriminate; auto using bytes_CmpOrder, ascii_digest_range.
Next Obligation. simpl; intros. rewrite !ascii_digest_be. now apply be_prefix_mono. Qed.

Lemma proj_CmpOrder {A B} (ok : A -> Prop) (f : A -> B) okB cmp :
  CmpOrder okB cmp -> (forall a, ok a -> okB (f a)) ->
  (forall a b, ok a -> ok b -> f a = f b -> a = b) ->
  CmpOrder ok (fun a b => cmp (f a) (f b)).
Proof.
  intros H Hok Hinj. constructor.
  - intros a b ? ?. rewrite (cmp_eq _ _ H) by auto. split; [auto | congruence].
  - intros a b ? ?. apply (cmp_opp _ _ H); auto.
  - intros a b c ? ? ?. apply (cmp_trans _ _ H _ (f b)); auto.
Qed.

Definition i64_of (key : list byte) : Z := swrap 64 (le_combine key).

Lemma i64_of_range key : - 2 ^ 63 <= i64_of key < 2 ^ 63.
Proof. pose proof (swrap_range 64 (le_combine key)). unfold i64_of. lia. Qed.

Lemma Int64_decode_ok key : zlen key = 8 -> Int64_decode key = Ok (i64_of key).
Proof. intros H; unfold Int64_decode, need_len. now rewrite H. Qed.

Lemma i64_of_inj a b : zlen a = 8 -> zlen b = 8 -> i64_of a = i64_of b -> a = b.
Proof.
  intros Ha Hb H. rewrite <- (i64_le_swrap a Ha), <- (i64_le_swrap b Hb).
  now apply (f_equal i64_le).
Qed.

(** Flipping the sign bit maps the signed order onto the unsigned one. *)
Lemma flip_sign x : - 2 ^ 63 <= x < 2 ^ 63 -> Z.lxor (wrap 64 x) SIGN_BIT = x + 2 ^ 63.
Proof.
  intros Hx. unfold wrap, SIGN_BIT. change 0x8000000000000000 with (1 * 2 ^ 63).
  destruct (Z.ltb_spec x 0).
  - replace (x mod 2 ^ 64) with (1 * 2 ^ 63 + (x + 2 ^ 63)).
    2:{ apply Z.mod_unique with (-1); lia. }
    rewrite <- lxor_high_low by lia. rewrite Z.lxor_comm, <- Z.lxor_assoc, Z.lxor_nilpotent.
    apply Z.lxor_0_l.
  - rewrite Z.mod_small by lia. rewrite Z.lxor_comm, lxor_high_low by lia. lia.
Qed.

Lemma unflip_sign x :
  - 2 ^ 63 <= x < 2 ^ 63 -> swrap 64 (Z.lxor (x + 2 ^ 63) SIGN_BIT) = x.
Proof.
  intros Hx. rewrite <- flip_sign by exact Hx.
  rewrite Z.lxor_assoc, Z.lxor_nilpotent, Z.lxor_0_r. unfold wrap.
  rewrite swrap_wrap by lia. apply swrap_small; lia.
Qed.

#[export, program] Instance Int64_lawful : LawfulEncoding Int64Encoding := {|
  key_ok := fun key => zlen key = 8;
  ord := fun a b => (i64_of a ?= i64_of b);
  dig := fun key => i64_of key + 2 ^ 63;
|}.
Next Obligation. simpl; intros a b Ha Hb. unfold Int64_compare. now rewrite !Int64_decode_ok. Qed.
Next Obligation. apply (proj_CmpOrder _ i64_of (fun _ => True)); auto using Z_CmpOrder, i64_of_inj. Qed.
Next Obligation.
  simpl; intros a Ha. unfold Int64_digest. rewrite Int64_decode_ok by exact Ha. simpl.
  f_equal. apply flip_sign, i64_of_range.
Qed.
Next Obligation. intros a _. pose proof (i64_of_range a). unfold u64_max. lia. Qed.
Next Obligation. intros a b _ _. rewrite Z.compare_lt_iff. lia. Qed.
Next Obligation. intros a b _ Ha Hb Hd; cbv beta in *. apply i64_of_inj; auto. lia. Qed.
Next Obligation.
  simpl; intros a out _ Ha. split; [|exists 8; split; [reflexivity | lia]].
  unfold Int64_decode_key_from_digest. f_equal. rewrite unflip_sign by apply i64_of_range.
  now apply i64_le_swrap.
Qed.

(** The fields a [uuidv7] key is compared by. *)
Definition uuid_fields (key : list byte) : Z * (Z * Z) :=
  (le_combine (slice key 0 4), (le_combine (slice key 4 2), le_combine (slice key 6 2))).

Definition fields_cmp (x y : Z * (Z * Z)) : comparison :=
  cmp_then (fst x ?= fst y)
    (cmp_then (fst (snd x) ?= fst (snd y)) (snd (snd x) ?= snd (snd y))).

Lemma fields_CmpOrder : CmpOrder (fun _ => True) fields_cmp.
Proof.
  unfold fields_cmp.
  apply (then_CmpOrder _ fst snd (fun _ => True) (fun _ => True) Z.compare
    (fun p q => cmp_then (fst p ?= fst q) (snd p ?= snd q))); auto using Z_CmpOrder.
  - apply (then_CmpOrder _ fst snd (fun _ => True) (fun _ => True)); auto using Z_CmpOrder.
    intros [] []; simpl; congruence.
  - intros [] []; simpl; congruence.
Qed.

Lemma cmp_then_assoc a b c : cmp_then (cmp_then a b) c = cmp_then a (cmp_then b c).
Proof. now destruct a. Qed.

Lemma uuid_fields_inj a b :
  zlen a = 16 -> zlen b = 16 -> uuid_fields a = uuid_fields b -> drop 8 a = drop 8 b -> a = b.
Proof.
  intros Ha Hb [= H1 H2 H3] H4.
  rewrite <- (take_drop 8 a), <- (take_drop 8 b), H4. f_equal.
  change (take 8) with (@take byte (Z.to_nat 8)). rewrite <- !slice_0_len.
  change 8 with (4 + (2 + 2)). rewrite !slice_split by lia.
  assert (forall o n, 0 <= o -> 0 <= n -> o + n <= 16 ->
    le_combine (slice a o n) = le_combine (slice b o n) -> slice a o n = slice b o n) as Hs.
  { intros o n ? ? ? He. apply le_combine_inj; [|exact He].
    pose proof (zlen_slice a o n). pose proof (zlen_slice b o n). unfold zlen in *. lia. }
  rewrite (Hs 0 4), (Hs (0 + 4) 2), (Hs (0 + 4 + 2) 2) by (lia || assumption). reflexivity.
Qed.

Definition uuid_digest (key : list byte) : Z :=
  let '(a, (b, c)) := uuid_fields key in a * 2 ^ 32 + b * 2 ^ 16 + c.

Lemma uuid_fields_bounds key :
  let '(a, (b, c)) := uuid_fields key in 0 <= a < 2 ^ 32 /\ 0 <= b < 2 ^ 16 /\ 0 <= c < 2 ^ 16.
Proof.
  simpl. pose proof (le_combine_slice_bound key 0 4). pose proof (le_combine_slice_bound key 4 2).
  pose proof (le_combine_slice_bound key 6 2). lia.
Qed.

Lemma Uuidv7_fields_ok key :
  zlen key = 16 ->
  Uuidv7_fields key = Ok (fst (uuid_fields key), fst (snd (uuid_fields key)),
                          snd (snd (uuid_fields key))).
Proof. intros H; unfold Uuidv7_fields, need_len. now rewrite H. Qed.

#[export, program] Instance Uuidv7_lawful : LawfulEncoding Uuidv7Encoding := {|
  key_ok := fun key => zlen key = 16;
  ord := fun a b => cmp_then (fields_cmp (uuid_fields a) (uuid_fields b))
                     (bytes_cmp (drop 8 a) (drop 8 b));
  dig := uuid_digest;
|}.
Next Obligation.
  simpl; intros a b Ha Hb. unfold Uuidv7_compare. rewrite !Uuidv7_fields_ok by assumption.
  cbn [rbind]. unfold fields_cmp. now rewrite !cmp_then_assoc.
Qed.
Next Obligation.
  apply (then_CmpOrder _ uuid_fields (drop 8) (fun _ => True) (fun _ => True));
    auto using fields_CmpOrder, bytes_CmpOrder, uuid_fields_inj.
Qed.
Next Obligation.
  simpl; intros key Hk. unfold Uuidv7_digest. rewrite Uuidv7_fields_ok by assumption.
  unfold uuid_digest. pose proof (uuid_fields_bounds key).
  destruct (uuid_fields key) as [a [b c]]. cbn [rbind fst snd]. f_equal.
  rewrite !Z.shiftl_mul_pow2 by lia. rewrite lor_high_low by lia.
  replace (a * 2 ^ 32 + b * 2 ^ 16) with ((a * 2 ^ 16 + b) * 2 ^ 16) by lia.
  now rewrite lor_high_low by lia.
Qed.
Next Obligation.
  intros key _. unfold uuid_digest, u64_max. pose proof (uuid_fields_bounds key).
  destruct (uuid_fields key) as [a [b c]]. lia.
Qed.
Next Obligation.
  intros a b _ _. unfold uuid_digest, fields_cmp.
  pose proof (uuid_fields_bounds a). pose proof (uuid_fields_bounds b).
  destruct (uuid_fields a) as [a1 [a2 a3]], (uuid_fields b) as [b1 [b2 b3]]. simpl fst; simpl snd.
  destruct (Z.compare_spec a1 b1), (Z.compare_spec a2 b2), (Z.compare_spec a3 b3); simpl;
    intros; try discriminate; lia.
Qed.
Next Obligation. simpl; discriminate. Qed.
Next Obligation. simpl; discriminate. Qed.

(** * Composite keys *)

Definition dup_source (key : list byte) : list byte := take (Z.to_nat (zlen key - RID_LEN)) key.
Definition dup_rid (key : list byte) : Z :=
  swrap 32 (le_combine (drop (Z.to_nat (zlen key - RID_LEN)) key)).

Lemma dup_source_encode s r : dup_source (DuplicateKey_encode s r) = s.
Proof.
  unfold dup_source, DuplicateKey_encode, RID_LEN. autorewrite with zlen.
  rewrite Z.add_simpl_r. unfold zlen. rewrite Nat2Z.id. apply take_app_length.
Qed.

Lemma dup_rid_encode s r : 0 <= r <= i32_max -> dup_rid (DuplicateKey_encode s r) = r.
Proof.
  intros. unfold dup_rid, DuplicateKey_encode, RID_LEN. autorewrite with zlen.
  rewrite Z.add_simpl_r. unfold zlen. rewrite Nat2Z.id, drop_app_length.
  apply swrap_i32_le. fmt_lia.
Qed.

Lemma DuplicateKey_split_encode s r :
  0 <= r <= i32_max -> DuplicateKey_split (DuplicateKey_encode s r) = Ok (s, r).
Proof.
  intros Hr. unfold DuplicateKey_split. fold (dup_rid (DuplicateKey_encode s r)).
  fold (dup_source (DuplicateKey_encode s r)).
  rewrite dup_rid_encode, dup_source_encode by exact Hr.
  unfold DuplicateKey_encode. autorewrite with zlen. pose proof (zlen_nonneg s).
  unfold RID_LEN. now cmp_cases.
Qed.

Definition dup_ok (ok : list byte -> Prop) (key : list byte) : Prop :=
  exists s r, key = DuplicateKey_encode s r /\ ok s /\ 0 <= r <= i32_max.

Section DuplicateLaws.
Context (source : KeyEncoding) `{!LawfulEncoding source}.

#[export, program] Instance Duplicate_lawful : LawfulEncoding (DuplicateKeyEncoding source) := {|
  key_ok := dup_ok key_ok;
  ord := fun a b => cmp_then (ord (dup_source a) (dup_source b)) (dup_rid a ?= dup_rid b);
  dig := fun key => dig (dup_source key);
|}.
Next Obligation.
  simpl; intros _ _ (s & r & -> & Hs & Hr) (t & q & -> & Ht & Hq). unfold DuplicateKey_compare.
  rewrite !DuplicateKey_split_encode by assumption. cbn [rbind].
  rewrite (compare_ok s t) by assumption. cbn [rbind].
  now rewrite !dup_source_encode, !dup_rid_encode by assumption.
Qed.
Next Obligation.
  apply (then_CmpOrder _ dup_source dup_rid key_ok (fun _ => True));
    auto using ord_order, Z_CmpOrder.
  - intros _ (s & r & -> & Hs & _). now rewrite dup_source_encode.
  - intros _ _ (s & r & -> & _ & Hr) (t & q & -> & _ & Hq).
    rewrite !dup_source_encode, !dup_rid_encode by assumption. congruence.
Qed.
Next Obligation.
  simpl; intros _ (s & r & -> & Hs & Hr). unfold DuplicateKey_digest.
  rewrite DuplicateKey_split_encode by assumption. cbn [rbind].
  rewrite dup_source_encode. now apply digest_ok.
Qed.
Next Obligation.
  intros _ (s & r & -> & Hs & _). cbv beta. rewrite dup_source_encode. now apply dig_range.
Qed.
Next Obligation.
  intros _ _ (s & r & -> & Hs & _) (t & q & -> & Ht & _). cbv beta.
  rewrite !dup_source_encode. destruct (ord s t) eqn:Ho; simpl; try discriminate.
  - apply (cmp_eq _ _ ord_order) in Ho; auto. subst. lia.
  - intros _. now apply dig_mono.
Qed.
Next Obligation. simpl; discriminate. Qed.
Next Obligation. simpl; discriminate. Qed.
End DuplicateLaws.

Lemma builtin_lawful id E :
  builtin id = Some E ->
  { H : LawfulEncoding E | forall key, validate_key E key = Ok tt -> @key_ok E H key }.
Proof.
  unfold builtin. intros HE.
  destruct (String.eqb id "i64"); [|destruct (String.eqb id "ascii");
    [|destruct (String.eqb id "uuidv7"); [|destruct (String.eqb id "ulid"); [|discriminate]]]];
    injection HE as <-.
  - exists Int64_lawful. unfold validate_key; simpl; intros key Hk; inv_ok. bool_lia.
  - exists Ascii_lawful. now simpl.
  - exists Uuidv7_lawful. unfold validate_key; simpl; intros key Hk; inv_ok. bool_lia.
  - exists Ulid_lawful. now simpl.
Qed.

(** What [digest] and [compare] say about a pair of well-formed keys. *)
Definition digest_order (E : KeyEncoding) (a b : list byte) : Prop :=
  exists c da db,
    ke_compare E a b = Ok c /\ ke_compare E b a = Ok (CompOpp c) /\
    ke_digest E a = Ok da /\ ke_digest E b = Ok db /\
    0 <= da <= u64_max /\ 0 <= db <= u64_max /\
    (c = Eq <-> a = b) /\ (da < db -> c = Lt) /\ (c = Lt -> da <= db).

Lemma lawful_digest_order (E : KeyEncoding) `{!LawfulEncoding E} a b :
  key_ok a -> key_ok b -> digest_order E a b.
Proof.
  intros Ha Hb. exists (ord a b), (dig a), (dig b).
  rewrite !compare_ok, !digest_ok by assumption.
  pose proof (dig_range a Ha). pose proof (dig_range b Hb).
  pose proof (cmp_eq _ _ ord_order a b Ha Hb) as Heq.
  pose proof (cmp_opp _ _ ord_order a b Ha Hb) as Hopp.
  repeat split; try tauto; try lia.
  - now rewrite Hopp.
  - intros Hlt. destruct (ord a b) eqn:Ho; [|reflexivity|].
    + assert (a = b) by tauto. subst. lia.
    + pose proof (dig_mono b a Hb Ha Hopp). lia.
  - intros Hlt. now apply dig_mono.
Qed.

(** C31: every built-in encoding orders well-formed keys totally, and its digest
    preserves that order: a smaller digest means a smaller key, and a smaller
    key never has a larger digest. *)
Theorem builtin_digest_order id E a b :
  builtin id = Some E -> validate_key E a = Ok tt -> validate_key E b = Ok tt ->
  digest_order E a b.
Proof.
  intros HE Ha Hb. destruct (builtin_lawful id E HE) as [HL Hok].
  apply (@lawful_digest_order E HL); auto.
Qed.

Lemma builtin_digest_order_witness :
  digest_order Int64Encoding (Int64_encode (-2)) (Int64_encode 1).
Proof. apply (builtin_digest_order "i64"); reflexivity. Defined.

(** The composite key of a non-unique index splits back into its source key
    and record id, is ordered by source key and then record id, keeps the digest
    order, and accepts the digest of either writer convention. *)
Theorem duplicate_key_order id E s t r q :
  builtin id = Some E -> validate_key E s = Ok tt -> validate_key E t = Ok tt ->
  0 <= r <= i32_max -> 0 <= q <= i32_max ->
  let a := DuplicateKey_encode s r in
  let b := DuplicateKey_encode t q in
  DuplicateKey_split a = Ok (s, r) /\
  ke_compare (DuplicateKeyEncoding E) a b =
    (let? c := ke_compare E s t in Ok (cmp_then c (r ?= q))) /\
  digest_order (DuplicateKeyEncoding E) a b /\
  (forall d, ke_digest E s = Ok d -> ke_accepts_digest (DuplicateKeyEncoding E) a d = Ok true) /\
  (forall d, ke_digest E a = Ok d -> ke_accepts_digest (DuplicateKeyEncoding E) a d = Ok true).
Proof.
  intros HE Hs Ht Hr Hq a b. destruct (builtin_lawful id E HE) as [HL Hok].
  assert (DuplicateKey_split a = Ok (s, r)) as Ha by now apply DuplicateKey_split_encode.
  split; [exact Ha|]. split; [|split; [|split]].
  - simpl. unfold DuplicateKey_compare. rewrite Ha. unfold b.
    rewrite DuplicateKey_split_encode by assumption. reflexivity.
  - apply (@lawful_digest_order _ (Duplicate_lawful E)); eexists _, _; eauto.
  - intros d Hd. simpl. unfold DuplicateKey_accepts_digest, DuplicateKey_digest.
    rewrite Ha. cbn [rbind]. rewrite Hd. cbn [rbind]. now rewrite Z.eqb_refl.
  - intros d Hd. simpl. unfold DuplicateKey_accepts_digest, DuplicateKey_digest.
    rewrite Ha. cbn [rbind]. rewrite (digest_ok s) by auto. cbn [rbind].
    rewrite Hd. cbn [rbind]. rewrite Z.eqb_refl. now destruct (_ =? _).
Qed.

Lemma duplicate_key_order_witness :
  ke_compare (DuplicateKeyEncoding AsciiEncoding)
    (DuplicateKey_encode [Byte.x6b] 0) (DuplicateKey_encode [Byte.x6b] 1) = Ok Lt.
Proof.
  destruct (duplicate_key_order "ascii" AsciiEncoding [Byte.x6b] [Byte.x6b] 0 1)
    as (_ & Hc & _); [reflexivity | reflexivity | reflexivity
      | vm_compute; intuition discriminate | vm_compute; intuition discriminate |].
  exact Hc.
Defined.

(** An encoding that declares its digest exact loses nothing: the key is
    rebuilt from the digest, inside the length it announced, so dropping the key
    bytes from a page is sound; two keys with one digest are equal. *)
Theorem exact_digest_round_trip id E key other out :
  builtin id = Some E -> ke_is_digest_exact E = true ->
  validate_key E key = Ok tt -> validate_key E other = Ok tt ->
  exists d n, ke_digest E key = Ok d /\
    ke_decode_key_from_digest E d out = Ok key /\
    ke_max_rebuilt_key_len E = Some n /\ zlen key <= n /\
    (ke_digest E other = Ok d -> other = key).
Proof.
  intros HE Hex Hk Ho. destruct (builtin_lawful id E HE) as [HL Hok].
  destruct (rebuild_exact key out Hex (Hok _ Hk)) as [Hr [n [Hn Hl]]].
  exists (dig key), n. rewrite !digest_ok by auto.
  repeat split; auto. intros [= Hd]. apply (dig_exact other key); auto.
Qed.

Lemma exact_digest_round_trip_witness :
  exists d, ke_digest Int64Encoding (Int64_encode (-7)) = Ok d /\
    ke_decode_key_from_digest Int64Encoding d [] = Ok (Int64_encode (-7)).
Proof.
  destruct (exact_digest_round_trip "i64" Int64Encoding (Int64_encode (-7)) (Int64_encode 0) [])
    as (d & _ & H1 & H2 & _); [reflexivity | reflexivity | reflexivity | reflexivity |].
  exact (ex_intro _ d (conj H1 H2)).
Defined.

(** A built-in id always resolves to the built-in encoding, whatever was
    registered; registering under any other id makes exactly that id resolve to
    the new encoding; an unregistered id is reported as unknown. *)
Theorem registry_resolution r e r' id :
  EncodingRegistry_register r e = Ok r' ->
  EncodingRegistry_resolve r' (ke_id e) = Ok e /\
  (id <> ke_id e -> EncodingRegistry_resolve r' id = EncodingRegistry_resolve r id) /\
  (forall b, builtin id = Some b ->
     EncodingRegistry_resolve r' id = Ok b /\ EncodingRegistry_register r b = Err Error_invalid) /\
  (builtin id = None -> er_custom r !! id = None -> id <> ke_id e ->
     EncodingRegistry_resolve r' id = Err (Error_new UnknownEncoding)).
Proof.
  unfold EncodingRegistry_register at 1. destruct (builtin (ke_id e)) as [|] eqn:Hb; [discriminate|].
  intros [= <-]. unfold EncodingRegistry_resolve. simpl.
  rewrite Hb, lookup_insert_eq. split; [reflexivity|]. split; [|split].
  - intros Hne. now rewrite lookup_insert_ne by congruence.
  - intros b Hid. rewrite Hid. split; [reflexivity|]. unfold EncodingRegistry_register.
    assert (ke_id b = id) as ->; [|now rewrite Hid].
    unfold builtin in Hid.
    repeat match type of Hid with
    | (if String.eqb id ?s then _ else _) = _ =>
        destruct (String.eqb_spec id s); [injection Hid as <-; now subst|]
    end. discriminate.
  - intros -> Hn Hne. now rewrite lookup_insert_ne, Hn by congruence.
Qed.

Lemma registry_resolution_witness :
  let custom := mkKeyEncoding "custom" (fun _ _ => Ok Eq) (fun _ => Ok 0) false
    (fun _ _ => Ok true) (fun _ _ => Ok []) None None false in
  let r' := mkEncodingRegistry (<["custom" := custom]> ∅) in
  EncodingRegistry_register EncodingRegistry_new custom = Ok r' /\
  EncodingRegistry_resolve r' "custom" = Ok custom.
Proof.
  intros custom r'. split; [reflexivity|].
  exact (proj1 (registry_resolution EncodingRegistry_new custom r' "x" eq_refl)).
Defined.
