(* ===== verification/Budget.v ===== *)
(** The managed memory budget, [crates/drydb/src/budget.rs].

    [Budget], [Charge] and [Bookkeeping] are modelled twice.  The sequential
    operations are state transformers; they are what the other components
    call.  The concurrent model below splits [take] at its atomic accesses, so
    that any number of threads interleave between the load, the
    compare-exchange and the update of the peak. *)

From Stdlib Require Import ZArith Lia.
From stdpp Require Import base list option.
From S2P Require Import Prelude Errors.

#[local] Open Scope Z_scope.
#[local] Open Scope drydb_scope.

Definition BUFFER_OVERHEAD : Z := 192.
Definition HASH_GROUP : Z := 16.

(** * Sequential operations *)

Record Budget : Set := mkBudget {
  b_limit : Z;
  b_used : Z;
  b_peak : Z;
}.

Definition Budget_new (limit : Z) : Budget := mkBudget limit 0 0.
Definition in_use (b : Budget) : Z := b_used b.
Definition peak (b : Budget) : Z := b_peak b.

Definition budget_info (b : Budget) (bytes : Z) : BudgetInfo :=
  mkBudgetInfo bytes (b_used b) (b_limit b) (bytes <=? b_limit b).

(** [take] when no other thread interferes. *)
Definition Budget_take (bytes : Z) : SM Budget Error unit := fun b =>
  match checked_add (b_used b) bytes with
  | Some n =>
      if n <=? b_limit b then (Ok tt, mkBudget (b_limit b) n (Z.max (b_peak b) n))
      else (Err (Error_of_budget (budget_info b bytes)), b)
  | None => (Err (Error_of_budget (budget_info b bytes)), b)
  end.

(** [fetch_sub] wraps; the [debug_assert] of the source is [bytes <= used]. *)
Definition Budget_release (b : Budget) (bytes : Z) : Budget :=
  mkBudget (b_limit b) (wrap 64 (b_used b - bytes)) (b_peak b).

Record Charge : Set := mkCharge { ch_bytes : Z }.

Definition Budget_try_reserve (bytes : Z) : SM Budget Error Charge :=
  let! _ := Budget_take bytes in
  sret (mkCharge bytes).

(** [impl Reserve for Arc<Budget>]: nothing to reclaim from. *)
Definition Budget_reserve (bytes : Z) : SM Budget Error Charge := Budget_try_reserve bytes.

(** [take_bytes] leaves a charge of zero bytes behind to be dropped. *)
Definition Charge_take_bytes (c : Charge) : Z * Charge := (ch_bytes c, mkCharge 0).

Definition Charge_drop (c : Charge) (b : Budget) : Budget := Budget_release b (ch_bytes c).

Definition Charge_absorb (other : Charge) (s : Budget * Charge) : Budget * Charge :=
  let '(bytes, rest) := Charge_take_bytes other in
  (Charge_drop rest (fst s), mkCharge (wrap 64 (ch_bytes (snd s) + bytes))).

Definition Charge_grow (bytes : Z) : SM (Budget * Charge) Error unit := fun s =>
  match Budget_take bytes (fst s) with
  | (Ok _, b) => (Ok tt, (b, mkCharge (wrap 64 (ch_bytes (snd s) + bytes))))
  | (Err e, b) => (Err e, (b, snd s))
  end.

Definition Charge_shrink (bytes : Z) (s : Budget * Charge) : Budget * Charge :=
  let bytes := Z.min bytes (ch_bytes (snd s)) in
  (Budget_release (fst s) bytes, mkCharge (ch_bytes (snd s) - bytes)).

(** [Charged]: a value and the reservation that pays for it. *)
Record Charged (T : Type) : Type := mkCharged { cd_value : T; cd_charge : Charge }.
Arguments mkCharged {T}.
Arguments cd_value {T}.
Arguments cd_charge {T}.

Definition Charged_into_inner {T} (c : Charged T) : T * Charge := (cd_value c, cd_charge c).
Definition charged_bytes {T} (c : Charged T) : Z := ch_bytes (cd_charge c).

(** * Bookkeeping: one charge kept in step with a structure *)

Definition Bookkeeping : Set := option Charge.

Definition Bookkeeping_bytes (k : Bookkeeping) : Z := from_option ch_bytes 0 k.

Definition Bookkeeping_absorb (charge : Charge) (s : Budget * Bookkeeping) : Budget * Bookkeeping :=
  match snd s with
  | Some held => let '(b, c) := Charge_absorb charge (fst s, held) in (b, Some c)
  | None => (fst s, Some charge)
  end.

Definition Bookkeeping_settle (want : Z) : SM (Budget * Bookkeeping) Error unit := fun s =>
  let have := Bookkeeping_bytes (snd s) in
  match want ?= have with
  | Gt =>
      match snd s with
      | Some charge =>
          match Charge_grow (want - have) (fst s, charge) with
          | (r, (b, c)) => (r, (b, Some c))
          end
      | None =>
          match Budget_try_reserve want (fst s) with
          | (Ok c, b) => (Ok tt, (b, Some c))
          | (Err e, b) => (Err e, (b, None))
          end
      end
  | Lt =>
      if want =? 0 then (Ok tt, (from_option (fun c => Charge_drop c (fst s)) (fst s) (snd s), None))
      else
        match snd s with
        | Some charge => let '(b, c) := Charge_shrink (have - want) (fst s, charge) in (Ok tt, (b, Some c))
        | None => (Ok tt, s)
        end
  | Eq => (Ok tt, s)
  end.

(** * What a hash table costs *)

Definition div_ceil (a b : Z) : Z := (a + b - 1) / b.
Definition next_power_of_two (n : Z) : Z := 2 ^ Z.log2_up n.
Definition next_multiple_of (a b : Z) : Z := if a mod b =? 0 then a else a + (b - a mod b).

Definition hash_buckets (entries : Z) : Z :=
  next_power_of_two (Z.max (div_ceil (saturating_mul entries 8) 7) 4).

Definition hash_table_bytes (entries entry : Z) : Z :=
  if entries =? 0 then 0
  else next_multiple_of (wrap 64 (hash_buckets entries * (entry + 1) + HASH_GROUP)) HASH_GROUP.

Definition hash_table_peak_bytes (slots capacity len entry : Z) : Z :=
  let now := hash_table_bytes slots entry in
  if len <? capacity then now
  else
    let next :=
      if slots =? 0 then hash_table_bytes 1 entry
      else hash_table_bytes (saturating_mul slots 2) entry in
    saturating_add now next.

(** * The concurrent model

    A thread that is inside [take] is between two atomic accesses.  [op] says
    whose call it is: [try_reserve], or [grow] on a charge of [held] bytes,
    which the thread borrows mutably until the call returns. *)

Inductive Op : Set :=
| Reserve
| Grow (held : Z).

Inductive PC : Set :=
| Idle
| TakeLoad (op : Op) (bytes : Z)
| TakeCas (op : Op) (bytes used : Z)
| TakePeak (op : Op) (bytes next : Z).

Record World : Set := mkWorld {
  w_budget : Budget;
  w_charges : list Z;
  w_threads : list PC;
}.

Inductive Event : Set :=
| Silent
| Granted (i : nat) (bytes : Z)
| Failed (i : nat) (info : BudgetInfo).

Definition op_charge_back (op : Op) (charges : list Z) : list Z :=
  match op with
  | Reserve => charges
  | Grow held => held :: charges
  end.

Definition op_granted (op : Op) (bytes : Z) : Z :=
  match op with
  | Reserve => bytes
  | Grow held => wrap 64 (held + bytes)
  end.

Definition set_thread (i : nat) (pc : PC) (w : World) : World :=
  mkWorld (w_budget w) (w_charges w) (<[i := pc]> (w_threads w)).

(** The body of the loop from a fresh value of [used] to the next atomic
    access, which is either the compare-exchange or the error return. *)
Definition after_read (i : nat) (op : Op) (bytes : Z) (w : World) : Event * World :=
  let b := w_budget w in
  let failed :=
    (Failed i (budget_info b bytes),
     mkWorld b (op_charge_back op (w_charges w)) (<[i := Idle]> (w_threads w))) in
  match checked_add (b_used b) bytes with
  | Some n => if n <=? b_limit b then (Silent, set_thread i (TakeCas op bytes (b_used b)) w) else failed
  | None => failed
  end.

Inductive step (w : World) : Event -> World -> Prop :=
| step_try_reserve i n :
    w_threads w !! i = Some Idle -> 0 <= n <= u64_max ->
    step w Silent (set_thread i (TakeLoad Reserve n) w)
| step_grow i k c n :
    w_threads w !! i = Some Idle -> 0 <= n <= u64_max -> w_charges w !! k = Some c ->
    step w Silent
      (mkWorld (w_budget w) (delete k (w_charges w)) (<[i := TakeLoad (Grow c) n]> (w_threads w)))
| step_load i op n ev w' :
    w_threads w !! i = Some (TakeLoad op n) ->
    after_read i op n w = (ev, w') ->
    step w ev w'
| step_cas_ok i op n u :
    w_threads w !! i = Some (TakeCas op n u) -> b_used (w_budget w) = u ->
    step w Silent
      (mkWorld (mkBudget (b_limit (w_budget w)) (u + n) (b_peak (w_budget w)))
               (w_charges w) (<[i := TakePeak op n (u + n)]> (w_threads w)))
| step_cas_err i op n u ev w' :
    (* the exchange is weak: it may fail even when the value matches *)
    w_threads w !! i = Some (TakeCas op n u) ->
    after_read i op n w = (ev, w') ->
    step w ev w'
| step_peak i op n next :
    w_threads w !! i = Some (TakePeak op n next) ->
    step w (Granted i n)
      (mkWorld (mkBudget (b_limit (w_budget w)) (b_used (w_budget w)) (Z.max (b_peak (w_budget w)) next))
               (op_granted op n :: w_charges w) (<[i := Idle]> (w_threads w)))
| step_shrink k c n :
    w_charges w !! k = Some c -> 0 <= n <= u64_max ->
    step w Silent
      (let '(b, c') := Charge_shrink n (w_budget w, mkCharge c) in
       mkWorld b (<[k := ch_bytes c']> (w_charges w)) (w_threads w))
| step_absorb k j c d :
    w_charges w !! k = Some c -> w_charges w !! j = Some d -> k <> j ->
    step w Silent
      (let '(b, c') := Charge_absorb (mkCharge d) (w_budget w, mkCharge c) in
       mkWorld b (delete j (<[k := ch_bytes c']> (w_charges w))) (w_threads w))
| step_drop k c :
    w_charges w !! k = Some c ->
    step w Silent
      (mkWorld (Charge_drop (mkCharge c) (w_budget w)) (delete k (w_charges w)) (w_threads w)).

(** [reach limit w high]: [w] is reachable from a fresh budget shared by idle
    threads, and [high] is the largest value [used] had on the way. *)
Inductive reach (limit : Z) : World -> Z -> Prop :=
| reach_new n : reach limit (mkWorld (Budget_new limit) [] (replicate n Idle)) 0
| reach_step w high ev w' :
    reach limit w high -> step w ev w' ->
    reach limit w' (Z.max high (b_used (w_budget w'))).

(** * The accounting invariant *)

Definition zsum (l : list Z) : Z := foldr Z.add 0 l.
Definition zmax (l : list Z) : Z := foldr Z.max 0 l.

Lemma zsum_insert l i x y : l !! i = Some x -> zsum (<[i := y]> l) = zsum l - x + y.
Proof.
  revert i; induction l as [|a l IH]; intros [|i]; simpl; intros H; simplify_eq; [lia|].
  rewrite (IH _ H). lia.
Qed.

Lemma zsum_delete l i x : l !! i = Some x -> zsum (delete i l) = zsum l - x.
Proof.
  revert i; induction l as [|a l IH]; intros [|i]; simpl; intros H; simplify_eq; [lia|].
  rewrite (IH _ H). lia.
Qed.

Lemma zsum_nonneg l : Forall (Z.le 0) l -> 0 <= zsum l.
Proof. induction 1; simpl; lia. Qed.

Lemma zsum_ge l i x : Forall (Z.le 0) l -> l !! i = Some x -> x <= zsum l.
Proof.
  intros H; revert i; induction H as [|a l Ha Hl IH]; intros [|i]; simpl; intros Hi; simplify_eq.
  - pose proof (zsum_nonneg l Hl). lia.
  - specialize (IH _ Hi). lia.
Qed.

Lemma zmax_nonneg l : 0 <= zmax l.
Proof. induction l; simpl; lia. Qed.

Lemma zmax_0 l : Forall (eq 0) l -> zmax l = 0.
Proof. unfold zmax. induction 1 as [|x l <- _ IH]; cbn [foldr]; lia. Qed.

Lemma zmax_insert l i x y :
  l !! i = Some x -> Z.max y (zmax l) = Z.max x (zmax (<[i := y]> l)).
Proof.
  revert i; induction l as [|a l IH]; intros [|i]; simpl; intros H; simplify_eq; [lia|].
  specialize (IH _ H). lia.
Qed.

Lemma Forall_delete {A} (P : A -> Prop) l i : Forall P l -> Forall P (delete i l).
Proof.
  intros H; revert i; induction H; intros [|i]; simpl; try constructor; auto.
Qed.

Definition op_held (op : Op) : Z :=
  match op with
  | Reserve => 0
  | Grow held => held
  end.

(** What a thread inside a call accounts for: the charge it has borrowed and,
    once its exchange went through, the bytes it has added. *)
Definition pc_held (pc : PC) : Z :=
  match pc with
  | Idle => 0
  | TakeLoad op _ | TakeCas op _ _ => op_held op
  | TakePeak op n _ => op_held op + n
  end.

(** The value of [used] a thread still has to fold into the peak. *)
Definition pc_next (pc : PC) : Z :=
  match pc with
  | TakePeak _ _ next => next
  | _ => 0
  end.

Definition pc_ok (limit : Z) (pc : PC) : Prop :=
  match pc with
  | Idle => True
  | TakeLoad op n => 0 <= op_held op /\ 0 <= n
  | TakeCas op n u => 0 <= op_held op /\ 0 <= n /\ u + n <= limit
  | TakePeak op n next => 0 <= op_held op /\ 0 <= n /\ 0 <= next <= limit
  end.

Record accounted (limit : Z) (w : World) (high : Z) : Prop := {
  ac_limit : b_limit (w_budget w) = limit;
  ac_sum : b_used (w_budget w) = zsum (w_charges w) + zsum (pc_held <$> w_threads w);
  ac_charges : Forall (Z.le 0) (w_charges w);
  ac_threads : Forall (pc_ok limit) (w_threads w);
  ac_bound : b_used (w_budget w) <= limit;
  ac_high : high = Z.max (b_peak (w_budget w)) (zmax (pc_next <$> w_threads w));
  ac_high_bound : b_used (w_budget w) <= high <= limit;
  ac_peak : 0 <= b_peak (w_budget w);
}.

Lemma pc_held_nonneg limit pc : pc_ok limit pc -> 0 <= pc_held pc.
Proof. destruct pc as [|[]|[]|[]]; simpl; lia. Qed.

Lemma held_nonneg limit ts : Forall (pc_ok limit) ts -> Forall (Z.le 0) (pc_held <$> ts).
Proof. intros H. apply Forall_fmap. revert H. apply Forall_impl. apply pc_held_nonneg. Qed.

(** [thread_sums] computes both sums of the invariant after a thread moved. *)
Lemma held_move ts i pc pc' :
  ts !! i = Some pc ->
  zsum (pc_held <$> <[i := pc']> ts) = zsum (pc_held <$> ts) - pc_held pc + pc_held pc'.
Proof.
  intros H. rewrite list_fmap_insert. apply zsum_insert. now rewrite list_lookup_fmap, H.
Qed.

Lemma next_move ts i pc pc' :
  ts !! i = Some pc ->
  Z.max (pc_next pc') (zmax (pc_next <$> ts)) =
  Z.max (pc_next pc) (zmax (pc_next <$> <[i := pc']> ts)).
Proof.
  intros H. rewrite list_fmap_insert. apply zmax_insert. now rewrite list_lookup_fmap, H.
Qed.

(** A charge is never larger than what the budget counts as used. *)
Lemma charge_le_used limit w high k c :
  accounted limit w high -> w_charges w !! k = Some c -> 0 <= c <= b_used (w_budget w).
Proof.
  intros [Hl Hs Hc Ht _ _ _ _] Hk. rewrite Hs.
  pose proof (zsum_ge _ _ _ Hc Hk). pose proof (zsum_nonneg _ (held_nonneg _ _ Ht)).
  rewrite Forall_lookup in Hc. specialize (Hc _ _ Hk). lia.
Qed.

(** Taking bytes back out of a charge: the only way [used] goes down. *)
Lemma accounted_release limit w high k c cs' n :
  0 <= limit <= u64_max ->
  accounted limit w high -> w_charges w !! k = Some c -> 0 <= n <= c ->
  zsum cs' = zsum (w_charges w) - n -> Forall (Z.le 0) cs' ->
  let b := Budget_release (w_budget w) n in
  let w' := mkWorld b cs' (w_threads w) in
  accounted limit w' (Z.max high (b_used (w_budget w'))).
Proof.
  intros Hlim Ha Hk Hn Hs Hf. pose proof (charge_le_used _ _ _ _ _ Ha Hk).
  destruct Ha as [Hl Hu Hc Ht Hb Hh Hhb Hp]; unfold u64_max in *.
  assert (wrap 64 (b_used (w_budget w) - n) = b_used (w_budget w) - n) as Hw
    by (apply Z.mod_small; lia).
  simpl. rewrite Hw. split; simpl; rewrite ?Hw; try assumption; try lia.
Qed.

(** A thread's move that leaves the budget alone. *)
Lemma accounted_move limit w high i pc pc' cs' :
  accounted limit w high -> w_threads w !! i = Some pc ->
  pc_next pc = 0 -> pc_next pc' = 0 -> pc_ok limit pc' ->
  zsum cs' + pc_held pc' = zsum (w_charges w) + pc_held pc -> Forall (Z.le 0) cs' ->
  let w' := mkWorld (w_budget w) cs' (<[i := pc']> (w_threads w)) in
  accounted limit w' (Z.max high (b_used (w_budget w'))).
Proof.
  intros [Hl Hu Hc Ht Hb Hh Hhb Hp] Hi Hn Hn' Hok Hsum Hf.
  pose proof (next_move _ i pc pc' Hi) as Hm.
  pose proof (zmax_nonneg (pc_next <$> w_threads w)).
  pose proof (zmax_nonneg (pc_next <$> <[i := pc']> (w_threads w))).
  split; simpl; try assumption; try lia.
  - rewrite (held_move _ _ pc) by assumption. lia.
  - now apply Forall_insert.
Qed.

Lemma accounted_after_read limit w high i op n pc ev w' :
  accounted limit w high -> w_threads w !! i = Some pc ->
  pc_held pc = op_held op -> pc_next pc = 0 -> 0 <= op_held op -> 0 <= n ->
  after_read i op n w = (ev, w') ->
  accounted limit w' (Z.max high (b_used (w_budget w'))).
Proof.
  intros Ha Hi Hheld Hnext Hop Hn Hr. unfold after_read in Hr.
  destruct (checked_add _ _) as [m|] eqn:Hadd; [destruct (Z.leb_spec m (b_limit (w_budget w)))|];
    injection Hr as <- <-.
  - apply checked_add_Some in Hadd as [-> _]. rewrite (ac_limit _ _ _ Ha) in *.
    eapply accounted_move; eauto using ac_charges; simpl; lia.
  - eapply accounted_move; eauto; simpl; [exact I | destruct op; simpl in *; lia |].
    destruct op; simpl; [|constructor; [assumption|]]; eapply ac_charges; eauto.
  - eapply accounted_move; eauto; simpl; [exact I | destruct op; simpl in *; lia |].
    destruct op; simpl; [|constructor; [assumption|]]; eapply ac_charges; eauto.
Qed.

Lemma accounted_pc limit w high i pc :
  accounted limit w high -> w_threads w !! i = Some pc -> pc_ok limit pc.
Proof. intros Ha Hi. eapply Forall_lookup_1; [apply (ac_threads _ _ _ Ha) | exact Hi]. Qed.

Lemma accounted_cas limit w high i op n u :
  accounted limit w high -> w_threads w !! i = Some (TakeCas op n u) ->
  b_used (w_budget w) = u ->
  let w' := mkWorld (mkBudget (b_limit (w_budget w)) (u + n) (b_peak (w_budget w)))
              (w_charges w) (<[i := TakePeak op n (u + n)]> (w_threads w)) in
  accounted limit w' (Z.max high (b_used (w_budget w'))).
Proof.
  intros Ha Hi Hu. destruct (accounted_pc _ _ _ _ _ Ha Hi) as (? & ? & ?).
  pose proof (next_move _ i _ (TakePeak op n (u + n)) Hi) as Hm.
  destruct Ha as [Hl Hs Hc Ht Hb Hh Hhb Hp]. subst u. simpl in *.
  pose proof (zsum_nonneg _ Hc). pose proof (zsum_nonneg _ (held_nonneg _ _ Ht)).
  pose proof (zmax_nonneg (pc_next <$> <[i := TakePeak op n (b_used (w_budget w) + n)]> (w_threads w))).
  split; simpl; try assumption; try lia.
  - rewrite (held_move _ _ _ _ Hi). simpl. lia.
  - apply Forall_insert; [assumption|]. simpl. lia.
Qed.

Lemma accounted_peak limit w high i op n next :
  0 <= limit <= u64_max ->
  accounted limit w high -> w_threads w !! i = Some (TakePeak op n next) ->
  let b := w_budget w in
  let w' := mkWorld (mkBudget (b_limit b) (b_used b) (Z.max (b_peak b) next))
              (op_granted op n :: w_charges w) (<[i := Idle]> (w_threads w)) in
  accounted limit w' (Z.max high (b_used (w_budget w'))).
Proof.
  intros Hlim Ha Hi. destruct (accounted_pc _ _ _ _ _ Ha Hi) as (? & ? & ?).
  pose proof (next_move _ i _ Idle Hi) as Hm.
  destruct Ha as [Hl Hs Hc Ht Hb Hh Hhb Hp]. simpl in *.
  pose proof (zsum_nonneg _ Hc). pose proof (held_nonneg _ _ Ht) as Hhn.
  assert (op_held op + n <= zsum (pc_held <$> w_threads w)) as Hge
    by (eapply (zsum_ge _ i); [exact Hhn | now rewrite list_lookup_fmap, Hi]).
  pose proof (zmax_nonneg (pc_next <$> w_threads w)).
  pose proof (zmax_nonneg (pc_next <$> <[i := Idle]> (w_threads w))).
  assert (op_granted op n = op_held op + n) as Hg.
  { unfold u64_max in *. destruct op; simpl in *; [lia|]. apply Z.mod_small. lia. }
  split; simpl; try assumption; try lia.
  - rewrite (held_move _ _ _ _ Hi), Hg. simpl. lia.
  - rewrite Hg. constructor; [lia | assumption].
  - now apply Forall_insert.
Qed.

Lemma accounted_absorb limit w high k j c d :
  0 <= limit <= u64_max ->
  accounted limit w high -> w_charges w !! k = Some c -> w_charges w !! j = Some d -> k <> j ->
  let w' := mkWorld (Budget_release (w_budget w) 0)
              (delete j (<[k := wrap 64 (c + d)]> (w_charges w))) (w_threads w) in
  accounted limit w' (Z.max high (b_used (w_budget w'))).
Proof.
  intros Hlim Ha Hk Hj Hne. pose proof (ac_charges _ _ _ Ha) as Hcs.
  pose proof (charge_le_used _ _ _ _ _ Ha Hk). pose proof (charge_le_used _ _ _ _ _ Ha Hj).
  assert (c + d <= b_used (w_budget w)) as Hcd.
  { destruct Ha as [_ Hs _ Ht _ _ _ _]. rewrite Hs.
    pose proof (zsum_nonneg _ (held_nonneg _ _ Ht)).
    assert (d <= zsum (<[k := 0]> (w_charges w))) as Hd.
    { eapply (zsum_ge _ j); [apply Forall_insert; [assumption | lia] |].
      now rewrite list_lookup_insert_ne. }
    rewrite (zsum_insert _ _ _ _ Hk) in Hd. lia. }
  assert (wrap 64 (c + d) = c + d) as ->.
  { apply Z.mod_small. pose proof (ac_bound _ _ _ Ha). unfold u64_max in *. lia. }
  eapply (accounted_release limit w high k c _ 0); eauto; try lia.
  - rewrite (zsum_delete _ j d) by (now rewrite list_lookup_insert_ne).
    rewrite (zsum_insert _ _ _ _ Hk). lia.
  - apply Forall_delete, Forall_insert; [assumption | lia].
Qed.

Lemma accounted_step limit w high ev w' :
  0 <= limit <= u64_max -> accounted limit w high -> step w ev w' ->
  accounted limit w' (Z.max high (b_used (w_budget w'))).
Proof.
  intros Hlim Ha Hstep. pose proof (ac_charges _ _ _ Ha) as Hcs.
  destruct Hstep as [i n Hi Hn | i k c n Hi Hn Hk | i op n ev w' Hi Hr | i op n u Hi Hu
                    | i op n u ev w' Hi Hr | i op n next Hi | k c n Hk Hn | k j c d Hk Hj Hne
                    | k c Hk].
  - eapply accounted_move; eauto; simpl; lia.
  - pose proof (charge_le_used _ _ _ _ _ Ha Hk).
    eapply accounted_move; eauto using Forall_delete; simpl; [lia|].
    rewrite (zsum_delete _ _ _ Hk). lia.
  - destruct (accounted_pc _ _ _ _ _ Ha Hi). eapply accounted_after_read; eauto.
  - now apply accounted_cas.
  - destruct (accounted_pc _ _ _ _ _ Ha Hi) as (? & ? & ?). eapply accounted_after_read; eauto.
  - now apply accounted_peak.
  - pose proof (charge_le_used _ _ _ _ _ Ha Hk). unfold Charge_shrink; simpl.
    eapply (accounted_release limit w high k c); eauto; try lia.
    + rewrite (zsum_insert _ _ _ _ Hk). lia.
    + apply Forall_insert; [assumption | lia].
  - now apply accounted_absorb.
  - pose proof (charge_le_used _ _ _ _ _ Ha Hk). unfold Charge_drop; simpl.
    eapply (accounted_release limit w high k c); eauto using Forall_delete; try lia.
    now rewrite (zsum_delete _ _ _ Hk).
Qed.

Lemma accounted_reach limit w high :
  0 <= limit <= u64_max -> reach limit w high -> accounted limit w high.
Proof.
  intros Hlim. induction 1 as [n | w high ev w' _ IH Hs]; [|eapply accounted_step; eauto].
  assert (zsum (pc_held <$> replicate n Idle) = 0) as Hh by (rewrite fmap_replicate; induction n; simpl in *; lia).
  assert (zmax (pc_next <$> replicate n Idle) = 0) as Hm
    by (apply zmax_0, Forall_fmap; now apply Forall_replicate).
  split; simpl; rewrite ?Hh, ?Hm; try lia; [constructor|].
  now apply Forall_replicate.
Qed.

(** C21: the accounting is exact and never over the limit, under every
    interleaving of reservations, growths, shrinks, merges and drops: [used] is
    the sum of the live charges and of what the calls in flight have added, no
    release underflows, and once no call is in flight the peak is the largest
    value [used] ever had. *)
Theorem budget_accounting limit w high :
  0 <= limit <= u64_max -> reach limit w high ->
  b_used (w_budget w) = zsum (w_charges w) + zsum (pc_held <$> w_threads w) /\
  0 <= b_used (w_budget w) <= limit /\
  high <= limit /\
  (forall k c, w_charges w !! k = Some c -> 0 <= c <= b_used (w_budget w)) /\
  (Forall (eq Idle) (w_threads w) ->
     b_used (w_budget w) = zsum (w_charges w) /\ peak (w_budget w) = high).
Proof.
  intros Hlim Hr. pose proof (accounted_reach _ _ _ Hlim Hr) as Ha.
  pose proof (zsum_nonneg _ (ac_charges _ _ _ Ha)).
  pose proof (zsum_nonneg _ (held_nonneg _ _ (ac_threads _ _ _ Ha))).
  pose proof (fun k c => charge_le_used _ _ _ k c Ha) as Hle.
  destruct Ha as [_ Hs _ _ Hb Hh Hhb Hp].
  repeat split; try lia; try (now eapply Hle; eauto);
    match goal with Hid : Forall (eq Idle) _ |- _ => rename Hid into Hi end.
  - rewrite Hs. assert (zsum (pc_held <$> w_threads w) = 0); [|lia].
    clear - Hi. induction Hi as [|pc l <- _ IH]; [reflexivity|]. exact IH.
  - unfold peak. rewrite Hh. rewrite zmax_0; [lia|].
    apply Forall_fmap. revert Hi. apply Forall_impl. now intros ? <-.
Qed.

Lemma budget_accounting_witness :
  exists w high, reach 100 w high /\ w_charges w = [60] /\ b_used (w_budget w) <= 100 /\
    peak (w_budget w) = high.
Proof.
  set (w0 := mkWorld (Budget_new 100) [] (replicate 1 Idle)).
  set (w1 := mkWorld (Budget_new 100) [] [TakeLoad Reserve 60]).
  set (w2 := mkWorld (Budget_new 100) [] [TakeCas Reserve 60 0]).
  set (w3 := mkWorld (mkBudget 100 60 0) [] [TakePeak Reserve 60 60]).
  set (w4 := mkWorld (mkBudget 100 60 60) [60] [Idle]).
  assert (reach 100 w4 60) as Hr.
  { apply (reach_step _ w3 60 (Granted 0 60)); [|apply (step_peak w3 0 Reserve 60 60 eq_refl)].
    apply (reach_step _ w2 0 Silent); [|apply (step_cas_ok w2 0 Reserve 60 0); reflexivity].
    apply (reach_step _ w1 0 Silent); [|apply (step_load w1 0 Reserve 60); reflexivity].
    apply (reach_step _ w0 0 Silent);
      [apply (reach_new 100 1) | apply (step_try_reserve w0 0 60); [reflexivity | vm_compute; intuition discriminate]]. }
  exists w4, 60. split; [exact Hr|].
  destruct (budget_accounting 100 w4 60) as (_ & Hb & _ & _ & Hq);
    [vm_compute; intuition discriminate | exact Hr |].
  split; [reflexivity|]. split; [exact (proj2 Hb)|]. apply Hq. repeat constructor.
Defined.

Lemma after_read_failed i op n w info w' j :
  after_read i op n w = (Failed j info, w') ->
  b_limit (w_budget w) <= u64_max ->
  j = i /\ info = budget_info (w_budget w) n /\ b_limit (w_budget w) < b_used (w_budget w) + n /\
  w' = mkWorld (w_budget w) (op_charge_back op (w_charges w)) (<[i := Idle]> (w_threads w)).
Proof.
  unfold after_read, checked_add, usize_max, u64_max. intros Hr Hlim.
  destruct (Z.leb_spec (b_used (w_budget w) + n) (2 ^ 64 - 1));
    [destruct (Z.leb_spec (b_used (w_budget w) + n) (b_limit (w_budget w)))|];
    injection Hr; intros; subst; try discriminate; repeat split; lia.
Qed.

(** A reservation is refused only when it does not fit: at the atomic read
    that decides it, the bytes in use plus the request exceed the limit.  The
    error reports exactly that state, is retryable when the request could ever
    fit, and the refused call changes no accounting and gives the borrowed charge
    back as it was. *)
Theorem refusal_is_justified limit w high i info w' :
  0 <= limit <= u64_max -> reach limit w high -> step w (Failed i info) w' ->
  limit < b_used (w_budget w) + bi_requested info /\
  bi_in_use info = b_used (w_budget w) /\ bi_limit info = limit /\
  (bi_retryable info = true <-> bi_requested info <= limit) /\
  w_budget w' = w_budget w /\
  exists op,
    (w_threads w !! i = Some (TakeLoad op (bi_requested info)) \/
     exists u, w_threads w !! i = Some (TakeCas op (bi_requested info) u)) /\
    w_charges w' = op_charge_back op (w_charges w) /\ w_threads w' = <[i := Idle]> (w_threads w).
Proof.
  intros Hlim Hr Hs. pose proof (ac_limit _ _ _ (accounted_reach _ _ _ Hlim Hr)) as Hl.
  inversion Hs as [ | | j op n ev w1 Hi Hread | | j op n u ev w1 Hi Hread | | | | ]; subst;
    apply after_read_failed in Hread as (<- & -> & Hgt & ->); try lia;
    simpl; repeat split; try lia; try (apply Z.leb_le); eauto 7.
Qed.

Lemma refusal_is_justified_witness :
  exists w w' info, step w (Failed 0 info) w' /\ 100 < b_used (w_budget w) + bi_requested info.
Proof.
  set (w0 := mkWorld (Budget_new 100) [] (replicate 1 Idle)).
  set (w1 := mkWorld (Budget_new 100) [] [TakeLoad Reserve 101]).
  assert (step w1 (Failed 0 (budget_info (Budget_new 100) 101)) w0) as Hs
    by (apply (step_load w1 0 Reserve 101); reflexivity).
  exists w1, w0, (budget_info (Budget_new 100) 101). split; [exact Hs|].
  destruct (refusal_is_justified 100 w1 0 0 (budget_info (Budget_new 100) 101) w0) as [H _];
    [vm_compute; intuition discriminate | | exact Hs | exact H].
  apply (reach_step _ w0 0 Silent);
    [apply (reach_new 100 1) | apply (step_try_reserve w0 0 101); [reflexivity | vm_compute; intuition discriminate]].
Defined.

Inductive steps (w : World) : list Event -> World -> Prop :=
| steps_nil : steps w [] w
| steps_cons ev w1 evs w2 : step w ev w1 -> steps w1 evs w2 -> steps w (ev :: evs) w2.

(** [try_reserve] as the other components use it is what a thread that is
    not interfered with does: its steps end with the same accounting, the same
    charge on success and the same error on failure. *)
Theorem try_reserve_refines w i n :
  w_threads w !! i = Some Idle -> 0 <= n <= u64_max ->
  exists evs w', steps w evs w' /\ w_threads w' = w_threads w /\
    w_budget w' = snd (Budget_try_reserve n (w_budget w)) /\
    match fst (Budget_try_reserve n (w_budget w)) with
    | Ok c => w_charges w' = ch_bytes c :: w_charges w /\ (exists pre, evs = pre ++ [Granted i n])
    | Err e => w_charges w' = w_charges w /\
        exists pre info, evs = pre ++ [Failed i info] /\ e = Error_of_budget info
    end.
Proof.
  intros Hi Hn. pose proof (step_try_reserve w i n Hi Hn) as H1.
  pose proof (lookup_lt_Some _ _ _ Hi) as Hlt.
  assert (forall pc, <[i := pc]> (w_threads w) !! i = Some pc) as Hlk
    by (intros; now apply list_lookup_insert_eq).
  assert (forall pc, <[i := Idle]> (<[i := pc]> (w_threads w)) = w_threads w) as Hback
    by (intros; rewrite list_insert_insert_eq; now apply list_insert_id).
  set (w1 := set_thread i (TakeLoad Reserve n) w) in *.
  destruct (after_read i Reserve n w1) as [ev w2] eqn:Hr.
  pose proof (step_load w1 i Reserve n ev w2 (Hlk _) Hr) as H2.
  unfold Budget_try_reserve, sbind, Budget_take. unfold after_read in Hr. simpl in Hr.
  destruct (checked_add _ _) as [m|] eqn:Hadd; [destruct (m <=? _)|];
    injection Hr as <- <-; simpl in *.
  - apply checked_add_Some in Hadd as [-> _].
    eexists [Silent; Silent; Silent; Granted i n], _. split.
    { econstructor; [exact H1|]. econstructor; [exact H2|].
      econstructor; [eapply step_cas_ok; simpl; [apply list_lookup_insert_eq; now rewrite ?length_insert | reflexivity]|].
      econstructor; [eapply step_peak; simpl; apply list_lookup_insert_eq; now rewrite ?length_insert|].
      constructor. }
    simpl. rewrite !list_insert_insert_eq, list_insert_id by assumption.
    repeat split. now exists [Silent; Silent; Silent].
  - eexists [Silent; _], _. split; [econstructor; [exact H1|]; econstructor; [exact H2|constructor]|].
    simpl. rewrite Hback. repeat split. eexists [Silent], _. split; reflexivity.
  - eexists [Silent; _], _. split; [econstructor; [exact H1|]; econstructor; [exact H2|constructor]|].
    simpl. rewrite Hback. repeat split. eexists [Silent], _. split; reflexivity.
Qed.

Lemma try_reserve_refines_witness :
  exists evs w', steps (mkWorld (Budget_new 64) [] [Idle]) evs w' /\ (exists pre, evs = pre ++ [Granted 0 16]).
Proof.
  destruct (try_reserve_refines (mkWorld (Budget_new 64) [] [Idle]) 0 16)
    as (evs & w' & Hs & _ & _ & _ & Hl); [reflexivity | vm_compute; intuition discriminate |].
  exists evs, w'. exact (conj Hs Hl).
Defined.

(** * Sequential accounting *)

(** The part of the invariant one component relies on: its own charge is part
    of what the budget counts. *)
Definition covers (s : Budget * Charge) : Prop :=
  0 <= ch_bytes (snd s) <= b_used (fst s) /\ b_used (fst s) <= b_limit (fst s) <= u64_max.

Lemma Budget_take_spec n b :
  0 <= n -> 0 <= b_used b -> b_limit b <= u64_max ->
  (b_used b + n <= b_limit b /\
   Budget_take n b = (Ok tt, mkBudget (b_limit b) (b_used b + n) (Z.max (b_peak b) (b_used b + n)))) \/
  (b_limit b < b_used b + n /\
   Budget_take n b = (Err (Error_of_budget (budget_info b n)), b)).
Proof.
  unfold Budget_take, checked_add, usize_max, u64_max. intros.
  destruct (Z.leb_spec (b_used b + n) (2 ^ 64 - 1)); [cmp_cases; auto|].
  right. split; [lia | reflexivity].
Qed.

Lemma Charge_grow_spec n s :
  0 <= n -> covers s ->
  (exists s', Charge_grow n s = (Ok tt, s') /\ covers s' /\
     ch_bytes (snd s') = ch_bytes (snd s) + n /\ b_used (fst s') = b_used (fst s) + n /\
     b_limit (fst s') = b_limit (fst s)) \/
  (Charge_grow n s = (Err (Error_of_budget (budget_info (fst s) n)), s) /\
   b_limit (fst s) < b_used (fst s) + n).
Proof.
  destruct s as [b [c]]. unfold covers; simpl. intros Hn [Hc Hl]. unfold Charge_grow; simpl.
  destruct (Budget_take_spec n b) as [[Hle ->] | [Hgt ->]]; [lia..| |].
  - left. eexists. split; [reflexivity|]. unfold wrap, u64_max in *; simpl.
    rewrite Z.mod_small by lia. repeat split; lia.
  - right. split; [reflexivity | assumption].
Qed.

(** What settling does to the budget and to the charge. *)
Lemma Bookkeeping_settle_spec want b k :
  0 <= want -> 0 <= Bookkeeping_bytes k <= b_used b -> b_used b <= b_limit b <= u64_max ->
  match Bookkeeping_settle want (b, k) with
  | (Ok _, (b', k')) =>
      Bookkeeping_bytes k' = want /\
      b_used b' = b_used b - Bookkeeping_bytes k + want /\ b_used b' <= b_limit b /\ b_limit b' = b_limit b
  | (Err e, (b', k')) =>
      b' = b /\ k' = k /\ Bookkeeping_bytes k < want /\
      b_limit b < b_used b - Bookkeeping_bytes k + want /\
      err_kind e = BudgetExceeded /\
      (is_retryable e = true <-> want - Bookkeeping_bytes k <= b_limit b)
  end.
Proof.
  intros Hw Hk Hb. unfold Bookkeeping_settle; simpl.
  assert (forall x, 0 <= x <= b_used b -> wrap 64 (b_used b - x) = b_used b - x) as Hsub
    by (intros; apply Z.mod_small; unfold u64_max in *; lia).
  destruct (Z.compare_spec want (Bookkeeping_bytes k)) as [->|Hlt|Hgt]; [lia| |].
  - destruct (Z.eqb_spec want 0) as [->|]; destruct k as [[c]|]; simpl in *; rewrite ?Hsub; lia.
  - destruct k as [[c]|]; simpl in *.
    + destruct (Charge_grow_spec (want - c) (b, mkCharge c))
        as [([b' c'] & -> & [_ Hcov] & Hc' & Hu & Hl) | [-> Hgt']]; [lia | split; simpl; lia | |];
        simpl in *; unfold is_retryable; simpl; rewrite ?Z.leb_le; repeat split; lia.
    + unfold Budget_try_reserve, sbind.
      destruct (Budget_take_spec want b) as [[Hle ->] | [Hgt' ->]]; [lia..| |];
        unfold is_retryable; simpl; rewrite ?Z.leb_le; repeat split; lia.
Qed.


(** Settling brings the charge to exactly the size wanted or changes
    nothing: it fails only when growing and only when the growth does not fit,
    and a structure that shrinks gets its bytes back. *)
Theorem settle_correct want b k :
  0 <= want <= u64_max -> 0 <= Bookkeeping_bytes k <= b_used b -> b_used b <= b_limit b <= u64_max ->
  match Bookkeeping_settle want (b, k) with
  | (Ok _, (b', k')) =>
      Bookkeeping_bytes k' = want /\
      b_used b' = b_used b - Bookkeeping_bytes k + want /\ b_used b' <= b_limit b
  | (Err e, (b', k')) =>
      b' = b /\ k' = k /\ Bookkeeping_bytes k < want /\
      b_limit b < b_used b - Bookkeeping_bytes k + want /\
      err_kind e = BudgetExceeded /\
      (is_retryable e = true <-> want - Bookkeeping_bytes k <= b_limit b)
  end.
Proof.
  intros Hw Hk Hb. pose proof (Bookkeeping_settle_spec want b k (proj1 Hw) Hk Hb) as H.
  destruct (Bookkeeping_settle want (b, k)) as [[u|e] [b' k']]; intuition congruence.
Qed.

Lemma settle_correct_witness :
  exists b', Bookkeeping_settle 30 (mkBudget 100 50 50, Some (mkCharge 10)) = (Ok tt, (b', Some (mkCharge 30))) /\
    b_used b' = 70.
Proof.
  eexists. split; [reflexivity|].
  exact (proj1 (proj2 (settle_correct 30 (mkBudget 100 50 50) (Some (mkCharge 10))
    ltac:(vm_compute; intuition discriminate) ltac:(vm_compute; intuition discriminate)
    ltac:(vm_compute; intuition discriminate)))).
Defined.

(** * Hash table sizes *)

Lemma next_power_of_two_least n k :
  1 < n -> n <= next_power_of_two n /\ (0 <= k -> n <= 2 ^ k -> next_power_of_two n <= 2 ^ k).
Proof.
  intros Hn. unfold next_power_of_two. split; [apply Z.log2_up_spec; lia|].
  intros Hk Hle. apply Z.pow_le_mono_r; [lia|].
  rewrite <- (Z.log2_up_pow2 k) by lia. now apply Z.log2_up_le_mono.
Qed.

Lemma div_ceil_le a b x : 0 < b -> div_ceil a b <= x <-> a <= b * x.
Proof.
  intros. unfold div_ceil. split; intros H1.
  - pose proof (Z.mul_succ_div_gt (a + b - 1) b). nia.
  - apply Z.lt_succ_r, Z.div_lt_upper_bound; nia.
Qed.

Lemma next_multiple_of_spec a b :
  0 < b -> (b | next_multiple_of a b) /\ a <= next_multiple_of a b < a + b.
Proof.
  intros Hb. unfold next_multiple_of. pose proof (Z.mod_pos_bound a b Hb).
  destruct (Z.eqb_spec (a mod b) 0) as [H0|]; [|]; (split; [|lia]).
  - now apply Z.mod_divide; [lia|].
  - exists (a / b + 1). pose proof (Z.div_mod a b). lia.
Qed.

(** The size charged for a hash table is that of the smallest power-of-two
    bucket count, at least four, that leaves an eighth of the buckets free: one
    entry and one control byte per bucket plus the spare group, rounded up to a
    whole group.  The size needed to take one more entry covers the old table
    beside one of twice as many entries whenever the table may rehash. *)
Theorem hash_table_bytes_correct entries entry :
  0 < entries -> 8 * entries <= usize_max -> 0 <= entry ->
  hash_buckets entries * (entry + 1) + HASH_GROUP <= u64_max ->
  let buckets := hash_buckets entries in
  let payload := buckets * (entry + 1) + HASH_GROUP in
  (exists k, 0 <= k /\ buckets = 2 ^ k) /\ 4 <= buckets /\ 8 * entries <= 7 * buckets /\
  (forall k, 0 <= k -> 4 <= 2 ^ k -> 8 * entries <= 7 * 2 ^ k -> buckets <= 2 ^ k) /\
  (HASH_GROUP | hash_table_bytes entries entry) /\
  payload <= hash_table_bytes entries entry < payload + HASH_GROUP /\
  (forall capacity len, hash_table_peak_bytes entries capacity len entry =
     if len <? capacity then hash_table_bytes entries entry
     else saturating_add (hash_table_bytes entries entry)
                         (hash_table_bytes (saturating_mul entries 2) entry)).
Proof.
  intros Hpos Hsat Hent Hfit buckets payload.
  assert (saturating_mul entries 8 = 8 * entries) as Hs by (unfold saturating_mul; lia).
  assert (0 <= payload) by (unfold payload, buckets, hash_buckets, next_power_of_two, HASH_GROUP;
    pose proof (Z.pow_nonneg 2 (Z.log2_up (Z.max (div_ceil (saturating_mul entries 8) 7) 4))); nia).
  assert (hash_table_bytes entries entry = next_multiple_of payload HASH_GROUP) as Hht.
  { unfold hash_table_bytes. destruct (Z.eqb_spec entries 0); [lia|].
    fold buckets payload. unfold wrap, u64_max in *. now rewrite Z.mod_small by lia. }
  pose proof (next_power_of_two_least (Z.max (div_ceil (8 * entries) 7) 4)) as Hnp.
  destruct (next_multiple_of_spec payload HASH_GROUP) as [Hdiv Hrange]; [unfold HASH_GROUP; lia|].
  assert (buckets = next_power_of_two (Z.max (div_ceil (8 * entries) 7) 4)) as Hbk
    by (unfold buckets, hash_buckets; now rewrite Hs).
  rewrite <- Hbk in Hnp. pose proof (div_ceil_le (8 * entries) 7) as Hdc.
  rewrite Hht. split; [|split; [|split; [|split; [|split; [|split]]]]]; try assumption.
  - eexists. split; [|exact Hbk]. apply Z.log2_up_nonneg.
  - destruct (Hnp 2); lia.
  - apply Hdc; [lia|]. destruct (Hnp 2); lia.
  - intros k Hk H4 H8. apply (Hnp k); [lia | assumption |].
    apply Hdc in H8; lia.
  - intros. unfold hash_table_peak_bytes. rewrite Hht. destruct (len <? capacity); [reflexivity|].
    destruct (Z.eqb_spec entries 0); [lia | reflexivity].
Qed.

Lemma hash_table_bytes_correct_witness :
  hash_buckets 14 = 16 /\ 16 * 33 + 16 <= hash_table_bytes 14 32.
Proof.
  split; [reflexivity|].
  destruct (hash_table_bytes_correct 14 32) as (_ & _ & _ & _ & _ & [H _] & _);
    [vm_compute; intuition discriminate .. | exact H].
Defined.
