(* ===== verification/Catalog.v ===== *)
(** Filter ids, table descriptors and index descriptors,
    [crates/drydb/src/format/catalog.rs].

    The parse runs over a prefix of the file: it reports how many bytes it is
    missing instead of failing when the prefix is too short, and it charges
    every string and vector slot to the memory budget before building it.  Its
    state is the reader's cursor, the reader's record of what it could not
    read, and the budget with the caller's charge. *)

From Stdlib Require Import ZArith Lia.
From coqutil Require Import Byte Word.LittleEndianList.
From stdpp Require Import base list option.
From S2P Require Import Prelude Errors Format Budget.

#[local] Open Scope Z_scope.
#[local] Open Scope drydb_scope.

(** * Descriptors *)

Inductive ValueKind : Set :=
| RawData
| PrimaryKey
| VPageRef.

#[export] Instance ValueKind_eq_dec : EqDecision ValueKind.
Proof. solve_decision. Defined.

Definition ValueKind_from_u8 (v : Z) : Result ValueKind :=
  if v =? 0 then Ok RawData
  else if v =? 1 then Ok PrimaryKey
  else if v =? 2 then Ok VPageRef
  else Err (Error_new UnsupportedFormat).

Definition ValueKind_to_u8 (k : ValueKind) : Z :=
  match k with
  | RawData => 0
  | PrimaryKey => 1
  | VPageRef => 2
  end.

(** A [String] is the list of its UTF-8 bytes. *)
Definition Str : Type := list byte.

Record IndexDescriptor : Type := mkIndexDescriptor {
  id_name : Str;
  id_is_unique : bool;
  id_key_encoding_id : Str;
  id_value_kind : ValueKind;
  id_root : option PageOrdinal;
  id_root_field_offset : Z;
}.

Record TableDescriptor : Type := mkTableDescriptor {
  td_name : Str;
  td_primary : IndexDescriptor;
  td_secondaries : list IndexDescriptor;
}.

Definition str_eqb (a b : Str) : bool := bool_decide (a = b).

Definition secondary (t : TableDescriptor) (name : Str) : option IndexDescriptor :=
  List.find (fun i => str_eqb (id_name i) name) (td_secondaries t).

Record Catalog : Type := mkCatalog {
  cat_page_size : Z;
  cat_page_count : Z;
  cat_directory_position : FileOffset;
  cat_filters : list Str;
  cat_tables : list TableDescriptor;
  cat_descriptor_end : Z;
}.

Definition Catalog_table (c : Catalog) (name : Str) : option TableDescriptor :=
  List.find (fun t => str_eqb (td_name t) name) (cat_tables c).

Inductive CatalogParse : Type :=
| Complete (c : Catalog)
| NeedMore (n : Z).

(** * UTF-8

    [std::str::from_utf8] accepts exactly the well-formed sequences: no
    overlong forms, no surrogates, nothing past U+10FFFF. *)

Definition in_range (lo hi : Z) (b : byte) : bool :=
  (lo <=? byte.unsigned b) && (byte.unsigned b <=? hi).
Definition is_cont : byte -> bool := in_range 0x80 0xBF.

Fixpoint from_utf8 (bs : list byte) : bool :=
  match bs with
  | [] => true
  | b0 :: r0 =>
      if in_range 0 0x7F b0 then from_utf8 r0
      else match r0 with
      | [] => false
      | b1 :: r1 =>
          if in_range 0xC2 0xDF b0 then is_cont b1 && from_utf8 r1
          else match r1 with
          | [] => false
          | b2 :: r2 =>
              if in_range 0xE0 0xE0 b0 then in_range 0xA0 0xBF b1 && is_cont b2 && from_utf8 r2
              else if in_range 0xE1 0xEC b0 || in_range 0xEE 0xEF b0
              then is_cont b1 && is_cont b2 && from_utf8 r2
              else if in_range 0xED 0xED b0 then in_range 0x80 0x9F b1 && is_cont b2 && from_utf8 r2
              else match r2 with
              | [] => false
              | b3 :: r3 =>
                  if in_range 0xF0 0xF0 b0
                  then in_range 0x90 0xBF b1 && is_cont b2 && is_cont b3 && from_utf8 r3
                  else if in_range 0xF1 0xF3 b0
                  then is_cont b1 && is_cont b2 && is_cont b3 && from_utf8 r3
                  else if in_range 0xF4 0xF4 b0
                  then in_range 0x80 0x8F b1 && is_cont b2 && is_cont b3 && from_utf8 r3
                  else false
              end
          end
      end
  end.

Definition utf8 (bytes : list byte) : Result Str :=
  if from_utf8 bytes then Ok bytes else Err Error_corrupt.

(** * The reader *)

Record Reader : Set := mkReader {
  r_pos : Z;
  r_need : option Z;
}.

Definition St : Type := Reader * (Budget * Charge).

(** A step of the parse over the prefix [buf].  [Ok None] is the early return
    of the [need!] macro: the prefix ran out. *)
Definition Rd (A : Type) : Type := list byte -> SM St Error (option A).

Definition rd_ret {A} (a : A) : Rd A := fun _ => sret (Some a).

Definition rd_bind {A B} (m : Rd A) (f : A -> Rd B) : Rd B := fun buf =>
  let! o := m buf in
  match o with
  | Some a => f a buf
  | None => sret None
  end.

Notation "'need!' x ':=' m 'in' k" := (rd_bind m (fun x => k))
  (at level 10, x binder, m at level 100, k at level 200)
  : drydb_scope.

Definition rd_try {A} (m : Result A) : Rd A := fun _ => lift (rmap Some m).

Definition rd_pos : Rd Z := fun _ s => (Ok (Some (r_pos (fst s))), s).

Definition Reader_take (len : Z) : Rd (list byte) := fun buf s =>
  let '(r, b) := s in
  match checked_add (r_pos r) len with
  | None => (Ok None, s)
  | Some stop =>
      match get_range buf (r_pos r) stop with
      | Some bytes => (Ok (Some bytes), (mkReader stop (r_need r), b))
      | None => (Ok None, (mkReader (r_pos r) (Some (Z.max (default 0 (r_need r)) stop)), b))
      end
  end.

Definition charge_grow (bytes : Z) : Rd unit := fun _ s =>
  let '(r, b) := s in
  match Charge_grow bytes b with
  | (Ok _, b') => (Ok (Some tt), (r, b'))
  | (Err e, b') => (Err e, (r, b'))
  end.

Definition charge_string (len : Z) : Rd unit := charge_grow (len + BUFFER_OVERHEAD).

(** [std::mem::size_of] of the types the catalog is built from: layouts the
    compiler chooses. *)
Record Sizes : Set := mkSizes {
  size_of_String : Z;
  size_of_TableDescriptor : Z;
  size_of_IndexDescriptor : Z;
  size_of_Catalog : Z;
}.

Definition slot_cost (size : Z) : Z := 3 * size + BUFFER_OVERHEAD.

Definition read_index_descriptor : Rd IndexDescriptor :=
  need! head := Reader_take 4 in
  need! name_len := rd_try (read_u16 head 0) in
  need! encoding_len := rd_try (read_u16 head 2) in
  need! name_bytes := Reader_take name_len in
  need! _ := charge_string (zlen name_bytes) in
  need! name := rd_try (utf8 name_bytes) in
  need! encoding_bytes := Reader_take encoding_len in
  need! _ := charge_string (zlen encoding_bytes) in
  need! key_encoding_id := rd_try (utf8 encoding_bytes) in
  need! tail := Reader_take 10 in
  need! is_unique_byte := rd_try (read_u8 tail 0) in
  need! is_unique := rd_try (if is_unique_byte =? 0 then Ok false
                             else if is_unique_byte =? 1 then Ok true
                             else Err Error_corrupt) in
  need! value_kind := rd_try (let? v := read_u8 tail 1 in ValueKind_from_u8 v) in
  need! root := rd_try (let? v := read_i64 tail 2 in PageOrdinal_from_i64 v) in
  need! pos := rd_pos in
  rd_ret (mkIndexDescriptor name is_unique key_encoding_id value_kind root (pos - 8)).

(** [xs.iter().enumerate().any(|(a, b)| xs[..a].contains(b))] on names. *)
Fixpoint repeats (seen : list Str) (names : list Str) : bool :=
  match names with
  | [] => false
  | n :: rest => existsb (str_eqb n) seen || repeats (seen ++ [n]) rest
  end.

Section Parse.
Context (sz : Sizes).

Fixpoint read_filters (count : nat) : Rd (list Str) :=
  match count with
  | O => rd_ret []
  | S count =>
      need! len_byte := Reader_take 1 in
      need! len := rd_try (read_u8 len_byte 0) in
      need! name := Reader_take len in
      need! _ := charge_string (zlen name) in
      need! _ := charge_grow (slot_cost (size_of_String sz)) in
      need! f := rd_try (utf8 name) in
      need! rest := read_filters count in
      rd_ret (f :: rest)
  end.

Fixpoint read_secondaries (count : nat) : Rd (list IndexDescriptor) :=
  match count with
  | O => rd_ret []
  | S count =>
      need! _ := charge_grow (slot_cost (size_of_IndexDescriptor sz)) in
      need! d := read_index_descriptor in
      need! rest := read_secondaries count in
      rd_ret (d :: rest)
  end.

Definition read_table : Rd TableDescriptor :=
  need! name_len_bytes := Reader_take 4 in
  need! name_len := rd_try (let? v := read_i32 name_len_bytes 0 in checked_len v) in
  need! name_bytes := Reader_take name_len in
  need! _ := charge_string (zlen name_bytes) in
  need! _ := charge_grow (slot_cost (size_of_TableDescriptor sz)) in
  need! name := rd_try (utf8 name_bytes) in
  need! primary := read_index_descriptor in
  need! count_bytes := Reader_take 2 in
  need! index_count := rd_try (read_u16 count_bytes 0) in
  need! secondaries := read_secondaries (Z.to_nat index_count) in
  need! _ := rd_try (if repeats [] (map id_name secondaries) then Err Error_corrupt else Ok tt) in
  rd_ret (mkTableDescriptor name primary secondaries).

Fixpoint read_tables (count : nat) : Rd (list TableDescriptor) :=
  match count with
  | O => rd_ret []
  | S count =>
      need! t := read_table in
      need! rest := read_tables count in
      rd_ret (t :: rest)
  end.

Definition read_catalog (page_filter_count table_count page_size page_count : Z)
    (directory_position : FileOffset) : Rd Catalog :=
  need! filters := read_filters (Z.to_nat page_filter_count) in
  need! tables := read_tables (Z.to_nat table_count) in
  need! _ := rd_try (if repeats [] (map td_name tables) then Err Error_corrupt else Ok tt) in
  need! _ := charge_grow (size_of_Catalog sz + BUFFER_OVERHEAD) in
  need! pos := rd_pos in
  rd_ret (mkCatalog page_size page_count directory_position filters tables pos).

Definition parse (buf : list byte) (page_filter_count table_count page_size page_count : Z)
    (directory_position : FileOffset) : SM (Budget * Charge) Error CatalogParse := fun b =>
  let run := read_catalog page_filter_count table_count page_size page_count directory_position in
  match run buf (mkReader HEADER_LEN None, b) with
  | (Ok (Some c), (_, b')) => (Ok (Complete c), b')
  | (Ok None, (r, b')) => (Ok (NeedMore (default (zlen buf + 1) (r_need r))), b')
  | (Err e, (_, b')) => (Err e, b')
  end.
End Parse.

(** * Encoding *)

Definition encode_index_descriptor (name key_encoding_id : Str) (is_unique : bool)
    (value_kind : ValueKind) (root_placeholder : Z) : Result (list byte) :=
  fail? u16_max <? zlen name with Error_invalid in
  fail? u16_max <? zlen key_encoding_id with Error_invalid in
  Ok (u16_le (zlen name) ++ u16_le (zlen key_encoding_id) ++ name ++ key_encoding_id ++
      [byte.of_Z (if is_unique then 1 else 0); byte.of_Z (ValueKind_to_u8 value_kind)] ++
      i64_le root_placeholder).

(** * Bounded names in error messages *)

Definition DESCRIBE_NAME_BYTES : Z := 48.

Definition is_char_boundary (name : Str) (i : nat) : bool :=
  match i with
  | O => true
  | S _ =>
      match name !! i with
      | Some b => negb (is_cont b)
      | None => (i =? length name)%nat
      end
  end.

(** [while !name.is_char_boundary(cut) { cut -= 1 }]. *)
Fixpoint describe_cut (name : Str) (cut : nat) : nat :=
  if is_char_boundary name cut then cut
  else match cut with
       | O => O
       | S cut => describe_cut name cut
       end.

(** The prefix of the name the message shows, and whether it is all of it. *)
Definition describe_name (name : Str) : Str * bool :=
  let cut := describe_cut name (Z.to_nat (Z.min DESCRIBE_NAME_BYTES (zlen name))) in
  (take cut name, (cut =? length name)%nat).

(** * Prefixes

    [prefix_stable P m]: what [m] decides on a prefix it decides the same way
    on every longer file, and when the prefix ran out, [m] asks for more than
    it was given and never for more than it needs: on every extension still
    shorter than that, it asks for the same again. *)

Definition ready (s : St) : Prop := r_need (fst s) = None /\ 0 <= r_pos (fst s) < 2 ^ 63.

Definition prefix_stable {A} (P : A -> Prop) (m : Rd A) : Prop :=
  forall buf ext s, zlen (buf ++ ext) < 2 ^ 63 -> ready s ->
    match m buf s with
    | (Ok None, s') =>
        exists n, r_need (fst s') = Some n /\ zlen buf < n /\
          (zlen (buf ++ ext) < n -> m (buf ++ ext) s = (Ok None, s'))
    | (Ok (Some a), s') => P a /\ ready s' /\ m (buf ++ ext) s = (Ok (Some a), s')
    | (Err e, s') => m (buf ++ ext) s = (Err e, s')
    end.

Lemma stable_ret {A} (P : A -> Prop) a : P a -> prefix_stable P (rd_ret a).
Proof. intros Ha buf ext s Hl Hs. simpl. auto. Qed.

Lemma stable_bind {A B} (P : A -> Prop) (Q : B -> Prop) (m : Rd A) (f : A -> Rd B) :
  prefix_stable P m -> (forall a, P a -> prefix_stable Q (f a)) -> prefix_stable Q (rd_bind m f).
Proof.
  intros Hm Hf buf ext s Hl Hs. unfold rd_bind, sbind. specialize (Hm buf ext s Hl Hs).
  destruct (m buf s) as [[[a|]|e] s'].
  - destruct Hm as (Ha & Hs' & ->). specialize (Hf a Ha buf ext s' Hl Hs').
    destruct (f a buf s') as [[[b|]|e] s'']; exact Hf.
  - simpl. destruct Hm as (n & Hn & Hlt & Hext). exists n. repeat split; try assumption.
    intros Hle. now rewrite Hext.
  - now rewrite Hm.
Qed.

Lemma stable_try {A} (P : A -> Prop) (r : Result A) :
  (forall a, r = Ok a -> P a) -> prefix_stable P (rd_try r).
Proof.
  intros HP buf ext s Hl Hs. unfold rd_try, lift. destruct r; simpl; auto.
Qed.

Lemma stable_pos (P : Z -> Prop) : (forall z, P z) -> prefix_stable P rd_pos.
Proof. intros HP buf ext s Hl Hs. unfold rd_pos. auto. Qed.

Lemma stable_grow (P : unit -> Prop) n : P tt -> prefix_stable P (charge_grow n).
Proof.
  intros HP buf ext [r b] Hl Hs. unfold charge_grow. destruct (Charge_grow n b) as [[[]|e] b']; auto.
Qed.

Lemma get_range_app {A} (l k : list A) a b s :
  get_range l a b = Some s -> get_range (l ++ k) a b = Some s.
Proof.
  intros (? & ? & ->)%get_range_Some.
  rewrite get_range_ok by (rewrite ?zlen_app; pose proof (zlen_nonneg k); lia).
  f_equal. apply slice_app_l; lia.
Qed.

Lemma get_range_None {A} (l : list A) a b :
  get_range l a b = None -> 0 <= a <= b -> zlen l < b.
Proof.
  unfold get_range. intros H ?. destruct ((0 <=? a) && (a <=? b) && (b <=? zlen l)) eqn:G;
    [discriminate|]. lia.
Qed.

Lemma stable_take len :
  0 <= len <= i32_max -> prefix_stable (fun bs => zlen bs = len) (Reader_take len).
Proof.
  intros Hlen buf ext [[pos need] b] Hl [Hn Hp]. unfold Reader_take; simpl in *. subst need.
  unfold i32_max in *. rewrite checked_add_ok by (unfold usize_max; lia).
  destruct (get_range buf pos (pos + len)) as [bs|] eqn:Hg; simpl.
  - rewrite (get_range_app _ ext _ _ _ Hg). apply get_range_Some in Hg as (? & ? & ->).
    rewrite zlen_app in Hl. pose proof (zlen_nonneg ext).
    rewrite zlen_slice by lia. repeat split; simpl; lia.
  - exists (Z.max 0 (pos + len)). apply get_range_None in Hg; [|lia].
    repeat split; [lia|]. intros Hlt.
    destruct (get_range (buf ++ ext) _ _) as [bs|] eqn:Hg'; [|reflexivity].
    apply get_range_Some in Hg'. lia.
Qed.

(** [stable] proves prefix stability along the steps of a parser. *)
Create HintDb stable.
Ltac stable_step :=
  match goal with
  | |- prefix_stable _ (rd_bind (Reader_take _) _) =>
      eapply stable_bind; [apply stable_take | intros ? ?]
  | |- prefix_stable _ (rd_bind (rd_try (read_u16 ?b ?o)) _) =>
      apply (stable_bind (fun v => 0 <= v <= u16_max));
        [apply stable_try; intros; inv_ok; inv_reads; lia | intros ? ?]
  | |- prefix_stable _ (rd_bind (rd_try (read_u8 _ _)) _) =>
      apply (stable_bind (fun v => 0 <= v <= 255));
        [apply stable_try; intros; inv_ok; inv_reads; subst;
         match goal with |- 0 <= byte.unsigned ?b <= 255 => pose proof (byte.unsigned_range b); lia end
        | intros ? ?]
  | |- prefix_stable _ (rd_bind (rd_try (rbind (read_i32 _ _) _)) _) =>
      apply (stable_bind (fun v => 0 <= v <= i32_max));
        [apply stable_try; intros; inv_ok; inv_reads; lia | intros ? ?]
  | |- prefix_stable _ (rd_bind (rd_try _) _) =>
      apply (stable_bind (fun _ => True)); [now apply stable_try | intros ? _]
  | |- prefix_stable _ (rd_bind rd_pos _) =>
      apply (stable_bind (fun _ => True)); [now apply stable_pos | intros ? _]
  | |- prefix_stable _ (rd_bind (charge_grow _) _) =>
      apply (stable_bind (fun _ => True)); [now apply stable_grow | intros ? _]
  | |- prefix_stable _ (rd_bind (charge_string _) _) =>
      apply (stable_bind (fun _ => True)); [now apply stable_grow | intros ? _]
  | |- prefix_stable _ (rd_bind _ _) =>
      apply (stable_bind (fun _ => True)); [solve [eauto with stable] | intros ? _]
  | |- prefix_stable _ (rd_ret _) => now apply stable_ret
  | |- _ <= _ <= _ => unfold i32_max, u16_max in *; lia
  end.
Ltac stable := repeat stable_step.

Lemma stable_index_descriptor : prefix_stable (fun _ => True) read_index_descriptor.
Proof. unfold read_index_descriptor. stable. Qed.
#[export] Hint Resolve stable_index_descriptor : stable.

Lemma stable_filters sz n : prefix_stable (fun _ => True) (read_filters sz n).
Proof. induction n; simpl; stable. Qed.
#[export] Hint Resolve stable_filters : stable.

Lemma stable_secondaries sz n : prefix_stable (fun _ => True) (read_secondaries sz n).
Proof. induction n; simpl; stable. Qed.
#[export] Hint Resolve stable_secondaries : stable.

Lemma stable_table sz : prefix_stable (fun _ => True) (read_table sz).
Proof. unfold read_table. stable. Qed.
#[export] Hint Resolve stable_table : stable.

Lemma stable_tables sz n : prefix_stable (fun _ => True) (read_tables sz n).
Proof. induction n; simpl; stable. Qed.
#[export] Hint Resolve stable_tables : stable.

Lemma stable_catalog sz fc tc ps pc dp :
  prefix_stable (fun _ => True) (read_catalog sz fc tc ps pc dp).
Proof. unfold read_catalog. stable. Qed.

(** The incremental parse is sound: a prefix that parses completely, or that
    fails, does so identically however the file goes on; a prefix that is too
    short asks for strictly more bytes than it has, and every longer prefix that
    is still short of that gets the same answer, so the reader never asks for
    bytes the catalog does not need. *)
Theorem parse_prefix sz buf ext fc tc ps pc dp b :
  zlen (buf ++ ext) < 2 ^ 63 ->
  match parse sz buf fc tc ps pc dp b with
  | (Ok (NeedMore n), b') =>
      zlen buf < n /\
      (zlen (buf ++ ext) < n -> parse sz (buf ++ ext) fc tc ps pc dp b = (Ok (NeedMore n), b'))
  | r => parse sz (buf ++ ext) fc tc ps pc dp b = r
  end.
Proof.
  intros Hl. unfold parse.
  pose proof (stable_catalog sz fc tc ps pc dp buf ext (mkReader HEADER_LEN None, b) Hl) as Hs.
  destruct (read_catalog _ _ _ _ _ _ buf _) as [[[c|]|e] [r b']].
  - destruct Hs as (_ & _ & ->); [split; [reflexivity | vm_compute; intuition discriminate] | reflexivity].
  - destruct Hs as (n & Hn & Hlt & Hext); [split; [reflexivity | vm_compute; intuition discriminate]|].
    simpl in Hn. rewrite Hn. simpl. split; [assumption|]. intros Hle.
    rewrite Hext by assumption. now rewrite Hn.
  - rewrite Hs; [reflexivity|]. split; [reflexivity | vm_compute; intuition discriminate].
Qed.

(** * What a written catalog parses back to

    [decodes p m bytes a c]: on any file with [bytes] at offset [p], a reader
    standing at [p] either returns [a], standing past [bytes] and having
    charged [c], or is refused by the budget, and then [c] does not fit. *)

Definition decodes {A} (p : Z) (m : Rd A) (bytes : list byte) (a : A) (c : Z) : Prop :=
  0 <= c /\
  forall pre rest r b,
    zlen pre = p -> r_pos r = p -> zlen (pre ++ bytes ++ rest) < 2 ^ 63 -> covers b ->
    (exists b', m (pre ++ bytes ++ rest) (r, b) =
        (Ok (Some a), (mkReader (p + zlen bytes) (r_need r), b')) /\
        covers b' /\ b_limit (fst b') = b_limit (fst b) /\ b_used (fst b') = b_used (fst b) + c) \/
    (exists e s', m (pre ++ bytes ++ rest) (r, b) = (Err e, s') /\ err_kind e = BudgetExceeded /\
        b_limit (fst b) < b_used (fst b) + c).

Lemma decodes_eq {A} p (m : Rd A) bs bs' a a' c c' :
  decodes p m bs a c -> bs = bs' -> a = a' -> c = c' -> decodes p m bs' a' c'.
Proof. now intros H -> -> ->. Qed.

Lemma decodes_ret {A} p (a : A) : decodes p (rd_ret a) [] a 0.
Proof.
  split; [lia|].
  intros pre rest [pos need] b Hp Hpos Hl Hc. left. exists b. simpl in *. subst.
  rewrite zlen_nil, Z.add_0_r. repeat split; try apply Hc; lia.
Qed.

Lemma decodes_bind {A B} p (m : Rd A) (f : A -> Rd B) b1 b2 a x c1 c2 :
  decodes p m b1 a c1 -> decodes (p + zlen b1) (f a) b2 x c2 ->
  decodes p (rd_bind m f) (b1 ++ b2) x (c1 + c2).
Proof.
  intros [Hc1 Hm] [Hc2 Hf]. split; [lia|]. intros pre rest r b Hp Hpos Hl Hc.
  destruct (Hm pre (b2 ++ rest) r b Hp Hpos) as [(b' & Heq & Hc' & Hlim & Hu) | (e & s' & Heq & He & Hgt)];
    [now rewrite <- app_assoc in Hl | assumption | |]; rewrite <- app_assoc;
    unfold rd_bind, sbind; rewrite Heq.
  - destruct (Hf (pre ++ b1) rest (mkReader (p + zlen b1) (r_need r)) b')
      as [(b'' & Heq' & Hc'' & Hlim' & Hu') | (e & s' & Heq' & He & Hgt)];
      rewrite <- ?app_assoc in *; try assumption; [rewrite zlen_app; lia | reflexivity | |].
    + left. exists b''. rewrite Heq'. simpl. rewrite zlen_app.
      replace (p + zlen b1 + zlen b2) with (p + (zlen b1 + zlen b2)) by lia.
      repeat split; try apply Hc''; lia.
    + right. exists e, s'. rewrite Heq'. repeat split; [assumption | lia].
  - right. exists e, s'. repeat split; [assumption | lia].
Qed.

(** A step that reads nothing from the file. *)
Lemma decodes_bind_nil {A B} p (m : Rd A) (f : A -> Rd B) bs a x c1 c2 :
  decodes p m [] a c1 -> decodes p (f a) bs x c2 -> decodes p (rd_bind m f) bs x (c1 + c2).
Proof.
  intros Hm Hf. apply (decodes_bind p m f [] bs a); try assumption.
  now rewrite zlen_nil, Z.add_0_r.
Qed.

Lemma decodes_try {A} p (r : Result A) a : r = Ok a -> decodes p (rd_try r) [] a 0.
Proof. intros ->. apply decodes_ret. Qed.

Lemma decodes_pos p : decodes p rd_pos [] p 0.
Proof.
  split; [lia|]. intros pre rest [pos need] b Hp Hpos Hl Hc. left. exists b. unfold rd_pos.
  simpl in *. subst. rewrite zlen_nil, Z.add_0_r. repeat split; try apply Hc; lia.
Qed.

Lemma decodes_grow p n : 0 <= n -> decodes p (charge_grow n) [] tt n.
Proof.
  intros Hn. split; [assumption|].
  intros pre rest [pos need] b Hp Hpos Hl Hc. unfold charge_grow. simpl in *. subst.
  destruct (Charge_grow_spec n b Hn Hc) as [(b' & -> & Hc' & _ & Hu & Hlim) | [-> Hgt]].
  - left. exists b'. rewrite zlen_nil, Z.add_0_r. repeat split; try apply Hc'; assumption.
  - right. do 2 eexists. repeat split. assumption.
Qed.

Lemma decodes_take p bs n : 0 <= p -> zlen bs = n -> decodes p (Reader_take n) bs bs 0.
Proof.
  intros Hp0 <-. split; [lia|].
  intros pre rest [pos need] b Hp Hpos Hl Hc. left. exists b. unfold Reader_take. simpl in *. subst.
  rewrite !zlen_app in Hl. pose proof (zlen_nonneg pre). pose proof (zlen_nonneg bs).
  pose proof (zlen_nonneg rest).
  rewrite checked_add_ok by (unfold usize_max; lia).
  rewrite get_range_ok by (rewrite ?zlen_app; lia).
  rewrite slice_exact by lia. repeat split; try apply Hc; lia.
Qed.

Record index_ok (d : IndexDescriptor) : Prop := {
  io_name_len : zlen (id_name d) <= u16_max;
  io_name_utf8 : from_utf8 (id_name d) = true;
  io_enc_len : zlen (id_key_encoding_id d) <= u16_max;
  io_enc_utf8 : from_utf8 (id_key_encoding_id d) = true;
  io_root : forall v, id_root d = Some v -> 0 <= v < 2 ^ 63;
}.

(** [d] as the parse returns it when its descriptor starts at [p]. *)
Definition index_bytes (d : IndexDescriptor) : list byte :=
  u16_le (zlen (id_name d)) ++ u16_le (zlen (id_key_encoding_id d)) ++
  id_name d ++ id_key_encoding_id d ++
  [byte.of_Z (if id_is_unique d then 1 else 0); byte.of_Z (ValueKind_to_u8 (id_value_kind d))] ++
  i64_le (PageOrdinal_to_i64 (id_root d)).

Definition place_index (p : Z) (d : IndexDescriptor) : IndexDescriptor :=
  mkIndexDescriptor (id_name d) (id_is_unique d) (id_key_encoding_id d) (id_value_kind d)
    (id_root d) (p + zlen (index_bytes d) - 8).

Definition string_cost (s : Str) : Z := zlen s + BUFFER_OVERHEAD.
Definition index_cost (d : IndexDescriptor) : Z :=
  string_cost (id_name d) + string_cost (id_key_encoding_id d).

Lemma encode_index_descriptor_bytes d :
  index_ok d ->
  encode_index_descriptor (id_name d) (id_key_encoding_id d) (id_is_unique d) (id_value_kind d)
    (PageOrdinal_to_i64 (id_root d)) = Ok (index_bytes d).
Proof.
  intros [Hn _ He _ _]. unfold encode_index_descriptor. now cmp_cases.
Qed.

Lemma utf8_ok s : from_utf8 s = true -> utf8 s = Ok s.
Proof. unfold utf8. now intros ->. Qed.

(** Strings that are put together. *)
Lemma from_utf8_app a b : from_utf8 a = true -> from_utf8 b = true -> from_utf8 (a ++ b) = true.
Proof.
  intros Ha Hb. remember (length a) as n eqn:Hn. assert (length a <= n)%nat as Hle by lia. clear Hn. revert a Ha Hle.
  induction n as [|n IH]; intros a Ha Hle; [destruct a; [exact Hb | cbn in Hle; lia]|].
  assert (forall r, (length r <= n)%nat -> from_utf8 r = true -> from_utf8 (r ++ b) = true) as IH' by auto. clear IH.
  destruct a as [|b0 r0]; [exact Hb|]. cbn [length app from_utf8] in *. destruct (in_range 0 127 b0); [apply IH'; [lia | exact Ha]|].
  destruct r0 as [|b1 r1]; [discriminate|]. cbn [length app from_utf8] in *.
  destruct (in_range 194 223 b0); [apply andb_true_iff in Ha as [-> Ha]; apply IH'; [lia | exact Ha]|].
  destruct r1 as [|b2 r2]; [discriminate|]. cbn [length app] in *.
  destruct (in_range 224 224 b0); [apply andb_true_iff in Ha as [-> Ha]; apply IH'; [lia | exact Ha]|].
  destruct (in_range 225 236 b0 || in_range 238 239 b0); [apply andb_true_iff in Ha as [-> Ha]; apply IH'; [lia | exact Ha]|].
  destruct (in_range 237 237 b0); [apply andb_true_iff in Ha as [-> Ha]; apply IH'; [lia | exact Ha]|].
  destruct r2 as [|b3 r3]; [discriminate|]. cbn [length app] in *.
  destruct (in_range 240 240 b0); [apply andb_true_iff in Ha as [-> Ha]; apply IH'; [lia | exact Ha]|].
  destruct (in_range 241 243 b0); [apply andb_true_iff in Ha as [-> Ha]; apply IH'; [lia | exact Ha]|].
  destruct (in_range 244 244 b0); [apply andb_true_iff in Ha as [-> Ha]; apply IH'; [lia | exact Ha] | discriminate].
Qed.

Lemma string_cost_nonneg s : 0 <= string_cost s.
Proof. unfold string_cost, BUFFER_OVERHEAD. pose proof (zlen_nonneg s). lia. Qed.

Lemma read_u16_field (bs rest : list byte) z :
  bs = u16_le z ++ rest -> zlen bs <= usize_max -> 0 <= z <= u16_max -> read_u16 bs 0 = Ok z.
Proof.
  intros -> Hl Hz. unfold read_u16. rewrite zlen_app, zlen_u16_le in Hl.
  pose proof (zlen_nonneg rest).
  rewrite read_le_ok by (rewrite ?zlen_app, ?zlen_u16_le; lia).
  rewrite slice_app_l by (rewrite ?zlen_u16_le; lia).
  rewrite slice_all by (now rewrite zlen_u16_le). now rewrite le_combine_u16.
Qed.

Lemma read_i32_field z : 0 <= z <= i32_max -> read_i32 (i32_le z) 0 = Ok z.
Proof.
  intros Hz. unfold read_i32, i32_max in *. rewrite read_le_ok by (rewrite ?zlen_i32_le; unfold usize_max; lia).
  rewrite slice_all by (now rewrite zlen_i32_le). now rewrite swrap_i32_le by lia.
Qed.

(** [decode] runs a parser over the fields it was written from; the reads of
    single fields are left to the caller. *)
Ltac decode_step :=
  match goal with
  | |- decodes _ (rd_bind (Reader_take _) _) _ _ _ => eapply decodes_bind; [apply decodes_take|]
  | |- decodes _ (rd_bind (rd_try _) _) _ _ _ =>
      eapply decodes_bind_nil; [apply decodes_try | cbv beta]
  | |- decodes _ (rd_bind rd_pos _) _ _ _ => eapply decodes_bind_nil; [apply decodes_pos|]
  | |- decodes _ (rd_bind (charge_grow _) _) _ _ _ =>
      eapply decodes_bind_nil; [apply decodes_grow|]
  | |- decodes _ (rd_bind (charge_string _) _) _ _ _ =>
      eapply decodes_bind_nil; [apply decodes_grow|]
  | |- decodes _ (rd_ret _) _ _ _ => apply decodes_ret
  end.

Lemma read_tail u k root :
  (forall v, root = Some v -> 0 <= v < 2 ^ 63) -> 0 <= u <= 255 -> 0 <= k <= 255 ->
  let tail := [byte.of_Z u; byte.of_Z k] ++ i64_le (PageOrdinal_to_i64 root) in
  read_u8 tail 0 = Ok u /\ read_u8 tail 1 = Ok k /\
  (let? v := read_i64 tail 2 in PageOrdinal_from_i64 v) = Ok root.
Proof.
  intros Hroot Hu Hk tail.
  assert (forall z, 0 <= z <= 255 -> byte.unsigned (byte.of_Z z) = z) as Hb
    by (intros; rewrite byte.unsigned_of_Z; apply Z.mod_small; lia).
  split; [|split].
  - erewrite read_u8_ok; [|lia|reflexivity]. now rewrite Hb.
  - erewrite read_u8_ok; [|lia|reflexivity]. now rewrite Hb.
  - unfold read_i64, tail. rewrite read_le_ok by zlen_lia. cbn [rbind].
    rewrite slice_app_r by zlen_lia. rewrite slice_all by zlen_lia.
    rewrite swrap_i64_le; [now apply PageOrdinal_round_trip|].
    destruct root as [v|]; simpl; [|lia]. specialize (Hroot v eq_refl).
    rewrite swrap_small by (simpl; lia). lia.
Qed.

Lemma decodes_index p d :
  0 <= p -> index_ok d ->
  decodes p read_index_descriptor (index_bytes d) (place_index p d) (index_cost d).
Proof.
  intros Hp [Hn Hnu He Heu Hr].
  pose proof (zlen_nonneg (id_name d)). pose proof (zlen_nonneg (id_key_encoding_id d)).
  destruct (read_tail (if id_is_unique d then 1 else 0) (ValueKind_to_u8 (id_value_kind d)) (id_root d))
    as (Hu & Hk & Hroot); [assumption | destruct (id_is_unique d); lia | destruct (id_value_kind d); simpl; lia |].
  set (head := u16_le (zlen (id_name d)) ++ u16_le (zlen (id_key_encoding_id d))).
  set (tail := [byte.of_Z _; byte.of_Z _] ++ i64_le _) in Hu, Hk, Hroot.
  eapply decodes_eq.
  { unfold read_index_descriptor. unfold charge_string.
    eapply decodes_bind; [apply (decodes_take p head); [lia | unfold head; zlen_lia]|].
    eapply decodes_bind_nil; [apply decodes_try, (read_u16_field head (u16_le (zlen (id_key_encoding_id d)))); [reflexivity | unfold head; zlen_lia | lia]|].
    eapply decodes_bind_nil; [apply decodes_try|].
    { unfold read_u16, head. rewrite read_le_ok by zlen_lia. rewrite slice_app_r by zlen_lia.
      rewrite slice_all by zlen_lia. rewrite le_combine_u16 by lia. reflexivity. }
    eapply decodes_bind; [apply (decodes_take _ (id_name d)); [unfold head; zlen_lia | reflexivity]|].
    decode_step; [unfold BUFFER_OVERHEAD; lia|]. decode_step; [now apply utf8_ok|].
    eapply decodes_bind; [apply (decodes_take _ (id_key_encoding_id d)); [unfold head; zlen_lia | reflexivity]|].
    decode_step; [unfold BUFFER_OVERHEAD; lia|]. decode_step; [now apply utf8_ok|].
    eapply decodes_bind; [apply (decodes_take _ tail); [unfold head; zlen_lia | unfold tail; zlen_lia]|].
    decode_step; [exact Hu|].
    decode_step; [instantiate (1 := id_is_unique d); now destruct (id_is_unique d)|].
    decode_step; [rewrite Hk; instantiate (1 := id_value_kind d); now destruct (id_value_kind d)|].
    decode_step; [exact Hroot|]. decode_step. apply decodes_ret. }
  - rewrite app_nil_r. unfold index_bytes, head. now rewrite <- !app_assoc.
  - unfold place_index. f_equal. unfold index_bytes. fold tail. rewrite !zlen_app.
    unfold head. zlen_lia.
  - unfold index_cost, string_cost. lia.
Qed.

(** ** Whole catalogs *)

Fixpoint place_indexes (p : Z) (ds : list IndexDescriptor) : list IndexDescriptor :=
  match ds with
  | [] => []
  | d :: ds => place_index p d :: place_indexes (p + zlen (index_bytes d)) ds
  end.

Definition table_head (t : TableDescriptor) : list byte := i32_le (zlen (td_name t)) ++ td_name t.

Definition table_bytes (t : TableDescriptor) : list byte :=
  table_head t ++ index_bytes (td_primary t) ++ u16_le (zlen (td_secondaries t)) ++
  concat (map index_bytes (td_secondaries t)).

Definition place_table (p : Z) (t : TableDescriptor) : TableDescriptor :=
  let primary_at := p + zlen (table_head t) in
  mkTableDescriptor (td_name t) (place_index primary_at (td_primary t))
    (place_indexes (primary_at + zlen (index_bytes (td_primary t)) + 2) (td_secondaries t)).

Fixpoint place_tables (p : Z) (ts : list TableDescriptor) : list TableDescriptor :=
  match ts with
  | [] => []
  | t :: ts => place_table p t :: place_tables (p + zlen (table_bytes t)) ts
  end.

Definition filter_bytes (f : Str) : list byte := [byte.of_Z (zlen f)] ++ f.

(** The descriptor section of a file: its filters, then its tables. *)
Definition catalog_bytes (filters : list Str) (tables : list TableDescriptor) : list byte :=
  concat (map filter_bytes filters) ++ concat (map table_bytes tables).

Record table_ok (t : TableDescriptor) : Prop := {
  to_name_len : zlen (td_name t) <= i32_max;
  to_name_utf8 : from_utf8 (td_name t) = true;
  to_primary : index_ok (td_primary t);
  to_secondaries : Forall index_ok (td_secondaries t);
  to_count : zlen (td_secondaries t) <= u16_max;
  to_distinct : repeats [] (map id_name (td_secondaries t)) = false;
}.

Definition filter_ok (f : Str) : Prop := zlen f <= 255 /\ from_utf8 f = true.

Section Costs.
Context (sz : Sizes).

Definition filters_cost (fs : list Str) : Z :=
  foldr (fun f c => string_cost f + slot_cost (size_of_String sz) + c) 0 fs.
Definition indexes_cost (ds : list IndexDescriptor) : Z :=
  foldr (fun d c => slot_cost (size_of_IndexDescriptor sz) + index_cost d + c) 0 ds.
Definition table_cost (t : TableDescriptor) : Z :=
  string_cost (td_name t) + slot_cost (size_of_TableDescriptor sz) + index_cost (td_primary t) +
  indexes_cost (td_secondaries t).
Definition tables_cost (ts : list TableDescriptor) : Z :=
  foldr (fun t c => table_cost t + c) 0 ts.

(** What holding a parsed catalog costs. *)
Definition catalog_cost (filters : list Str) (tables : list TableDescriptor) : Z :=
  filters_cost filters + tables_cost tables + (size_of_Catalog sz + BUFFER_OVERHEAD).

Definition sizes_ok : Prop :=
  0 <= size_of_String sz /\ 0 <= size_of_TableDescriptor sz /\
  0 <= size_of_IndexDescriptor sz /\ 0 <= size_of_Catalog sz.
Context (Hsz : sizes_ok).

Ltac cost_lia :=
  unfold sizes_ok, slot_cost, string_cost, BUFFER_OVERHEAD in *;
  repeat match goal with |- context [zlen ?l] =>
    lazymatch goal with H : 0 <= zlen l |- _ => fail | _ => pose proof (zlen_nonneg l) end
  end; lia.

Lemma decodes_filters p fs :
  0 <= p -> Forall filter_ok fs ->
  decodes p (read_filters sz (length fs)) (concat (map filter_bytes fs)) fs (filters_cost fs).
Proof.
  intros Hp H; revert p Hp; induction H as [|f fs [Hl Hu] Hfs IH]; intros p Hp; simpl.
  - apply decodes_ret.
  - pose proof (zlen_nonneg f). eapply decodes_eq.
    { eapply decodes_bind; [apply (decodes_take p [byte.of_Z (zlen f)]); [lia | reflexivity]|].
      eapply decodes_bind_nil; [apply decodes_try|].
      { erewrite read_u8_ok; [|lia|reflexivity]. rewrite byte.unsigned_of_Z.
        unfold byte.wrap. rewrite Z.mod_small by lia. reflexivity. }
      eapply decodes_bind; [apply (decodes_take _ f); [zlen_lia | reflexivity]|].
      unfold charge_string. do 2 (decode_step; [cost_lia|]). decode_step; [now apply utf8_ok|].
      eapply decodes_bind; [apply IH; zlen_lia | apply decodes_ret]. }
    + now rewrite app_nil_r.
    + reflexivity.
    + unfold filters_cost. simpl. cost_lia.
Qed.

Lemma decodes_secondaries p ds :
  0 <= p -> Forall index_ok ds ->
  decodes p (read_secondaries sz (length ds)) (concat (map index_bytes ds))
    (place_indexes p ds) (indexes_cost ds).
Proof.
  intros Hp H; revert p Hp; induction H as [|d ds Hd Hds IH]; intros p Hp; simpl.
  - apply decodes_ret.
  - eapply decodes_eq.
    { decode_step; [cost_lia|]. eapply decodes_bind; [apply (decodes_index p d); assumption|].
      eapply decodes_bind; [apply IH; pose proof (zlen_nonneg (index_bytes d)); lia | apply decodes_ret]. }
    + now rewrite app_nil_r.
    + reflexivity.
    + unfold indexes_cost. simpl. lia.
Qed.

Lemma place_indexes_names p ds : map id_name (place_indexes p ds) = map id_name ds.
Proof. revert p; induction ds; intros; simpl; congruence. Qed.

Lemma place_tables_names p ts : map td_name (place_tables p ts) = map td_name ts.
Proof. revert p; induction ts; intros; simpl; congruence. Qed.

Lemma decodes_table p t :
  0 <= p -> table_ok t ->
  decodes p (read_table sz) (table_bytes t) (place_table p t) (table_cost t).
Proof.
  intros Hp [Hl Hu Hpr Hse Hc Hd]. pose proof (zlen_nonneg (td_name t)).
  pose proof (zlen_nonneg (td_secondaries t)). pose proof (zlen_nonneg (index_bytes (td_primary t))).
  assert (Z.to_nat (zlen (td_secondaries t)) = length (td_secondaries t)) as Hlen by (unfold zlen; lia).
  eapply decodes_eq.
  { unfold read_table, charge_string.
    eapply decodes_bind; [apply (decodes_take p (i32_le (zlen (td_name t)))); [lia | apply zlen_i32_le]|].
    eapply decodes_bind_nil; [apply decodes_try|].
    { rewrite read_i32_field by lia. cbn [rbind]. unfold checked_len.
      destruct (Z.ltb_spec (zlen (td_name t)) 0); [lia | reflexivity]. }
    eapply decodes_bind; [apply (decodes_take _ (td_name t)); [zlen_lia | reflexivity]|].
    do 2 (decode_step; [cost_lia|]). decode_step; [now apply utf8_ok|].
    eapply decodes_bind; [apply (decodes_index _ (td_primary t)); [zlen_lia | assumption]|].
    eapply decodes_bind; [apply (decodes_take _ (u16_le (zlen (td_secondaries t)))); [zlen_lia | apply zlen_u16_le]|].
    eapply decodes_bind_nil; [apply decodes_try, (read_u16_field _ []); [now rewrite app_nil_r | rewrite zlen_u16_le; now vm_compute | lia]|].
    rewrite Hlen. eapply decodes_bind; [apply decodes_secondaries; [zlen_lia | assumption]|].
    decode_step; [rewrite place_indexes_names, Hd; reflexivity | apply decodes_ret]. }
  - unfold table_bytes, table_head. now rewrite app_nil_r, <- !app_assoc.
  - unfold place_table, table_head. rewrite zlen_app, zlen_u16_le. now rewrite !Z.add_assoc.
  - unfold table_cost, string_cost. lia.
Qed.

Lemma decodes_tables p ts :
  0 <= p -> Forall table_ok ts ->
  decodes p (read_tables sz (length ts)) (concat (map table_bytes ts)) (place_tables p ts)
    (tables_cost ts).
Proof.
  intros Hp H; revert p Hp; induction H as [|t ts Ht Hts IH]; intros p Hp; simpl.
  - apply decodes_ret.
  - eapply decodes_eq.
    { eapply decodes_bind; [apply (decodes_table _ t); assumption|].
      eapply decodes_bind; [apply IH; pose proof (zlen_nonneg (table_bytes t)); lia | apply decodes_ret]. }
    + now rewrite app_nil_r.
    + reflexivity.
    + unfold tables_cost. simpl. lia.
Qed.

Lemma decodes_catalog p filters tables ps pc dp :
  0 <= p -> Forall filter_ok filters -> Forall table_ok tables ->
  repeats [] (map td_name tables) = false ->
  decodes p (read_catalog sz (zlen filters) (zlen tables) ps pc dp) (catalog_bytes filters tables)
    (mkCatalog ps pc dp filters (place_tables (p + zlen (concat (map filter_bytes filters))) tables)
       (p + zlen (catalog_bytes filters tables)))
    (catalog_cost filters tables).
Proof.
  intros Hp Hf Ht Hd. unfold read_catalog, zlen at 1 2. rewrite !Nat2Z.id.
  pose proof (zlen_nonneg (concat (map filter_bytes filters))). eapply decodes_eq.
  { eapply decodes_bind; [apply (decodes_filters _ filters); assumption|].
    eapply decodes_bind; [apply decodes_tables; [lia | assumption]|].
    decode_step; [rewrite place_tables_names, Hd; reflexivity|].
    decode_step; [cost_lia|]. decode_step. apply decodes_ret. }
  - now rewrite app_nil_r.
  - unfold catalog_bytes. now rewrite zlen_app, Z.add_assoc.
  - unfold catalog_cost. lia.
Qed.
End Costs.

(** C27: the descriptor section the builder lays out parses back to exactly the
    filters and tables it was written from, every root field located where its
    eight bytes are, whatever follows in the file; the parse charges exactly the
    cost of the catalog, and fails with [BudgetExceeded] exactly when that cost
    does not fit in what is left of the budget. *)
Theorem catalog_round_trip sz header filters tables rest ps pc dp b :
  sizes_ok sz -> zlen header = HEADER_LEN ->
  Forall filter_ok filters -> Forall table_ok tables ->
  repeats [] (map td_name tables) = false ->
  zlen (header ++ catalog_bytes filters tables ++ rest) < 2 ^ 63 -> covers b ->
  let cost := catalog_cost sz filters tables in
  let run := parse sz (header ++ catalog_bytes filters tables ++ rest)
               (zlen filters) (zlen tables) ps pc dp b in
  let tables_at := HEADER_LEN + zlen (concat (map filter_bytes filters)) in
  (b_used (fst b) + cost <= b_limit (fst b) ->
     fst run = Ok (Complete (mkCatalog ps pc dp filters (place_tables tables_at tables)
                     (HEADER_LEN + zlen (catalog_bytes filters tables)))) /\
     b_used (fst (snd run)) = b_used (fst b) + cost) /\
  (b_limit (fst b) < b_used (fst b) + cost ->
     exists e, fst run = Err e /\ err_kind e = BudgetExceeded).
Proof.
  intros Hsz Hh Hf Ht Hd Hl Hc cost run tables_at.
  destruct (decodes_catalog sz Hsz HEADER_LEN filters tables ps pc dp) as [_ Hdec]; try assumption;
    [vm_compute; discriminate|].
  destruct (Hdec header rest (mkReader HEADER_LEN None) b) as
    [(b' & Heq & [_ Hc'] & Hlim & Hu) | (e & s' & Heq & He & Hgt)]; try assumption; [reflexivity| |];
    unfold run, parse; rewrite Heq; fold cost in Hu || fold cost in Hgt.
  - split; [auto|]. simpl in *. lia.
  - split; [lia|]. intros _. destruct s'. simpl. eauto.
Qed.

(** ** A sample catalog *)

Definition sample_sizes : Sizes := mkSizes 24 128 80 80.
Definition sample_index : IndexDescriptor :=
  mkIndexDescriptor [Byte.x70; Byte.x6b] true [Byte.x69; Byte.x36; Byte.x34] RawData (Some 7) 0.
Definition sample_table : TableDescriptor :=
  mkTableDescriptor [Byte.x74; Byte.xc3; Byte.xa9] sample_index
    [mkIndexDescriptor [Byte.x69] false [] VPageRef None 0].
Definition sample_budget : Budget * Charge := (Budget_new 4096, mkCharge 0).

Lemma sample_index_ok : index_ok sample_index.
Proof.
  split; [now vm_compute | reflexivity | now vm_compute | reflexivity |]. intros v [= <-]. lia.
Qed.

Lemma sample_table_ok : table_ok sample_table.
Proof.
  split; [now vm_compute | reflexivity | apply sample_index_ok | | now vm_compute | reflexivity].
  constructor; [|constructor].
  split; [now vm_compute | reflexivity | now vm_compute | reflexivity | discriminate].
Qed.

Lemma parse_prefix_witness :
  let buf := repeat Byte.x00 26 in
  parse sample_sizes buf 1 0 0 0 0 sample_budget = (Ok (NeedMore 27), sample_budget) /\
  zlen buf < 27.
Proof.
  assert (parse sample_sizes (repeat Byte.x00 26) 1 0 0 0 0 sample_budget =
    (Ok (NeedMore 27), sample_budget)) as Hrun by (vm_compute; reflexivity).
  pose proof (parse_prefix sample_sizes (repeat Byte.x00 26) [Byte.x00] 1 0 0 0 0 sample_budget
    ltac:(vm_compute; reflexivity)) as H.
  rewrite Hrun in H. exact (conj Hrun (proj1 H)).
Defined.

Lemma catalog_round_trip_witness :
  let header := repeat Byte.x00 (Z.to_nat HEADER_LEN) in
  exists tables e,
  fst (parse sample_sizes (header ++ catalog_bytes [[Byte.x7a]] [sample_table] ++ [])
    (zlen [[Byte.x7a]]) (zlen [sample_table]) 4096 3 512 sample_budget) =
  Ok (Complete (mkCatalog 4096 3 512 [[Byte.x7a]] tables e)).
Proof.
  do 2 eexists.
  refine (proj1 (proj1 (catalog_round_trip sample_sizes (repeat Byte.x00 (Z.to_nat HEADER_LEN))
    [[Byte.x7a]] [sample_table] [] 4096 3 512 sample_budget _ _ _ _ _ _ _) _)).
  - vm_compute; intuition discriminate.
  - reflexivity.
  - constructor; [split; [now vm_compute | reflexivity] | constructor].
  - constructor; [apply sample_table_ok | constructor].
  - reflexivity.
  - now vm_compute.
  - split; [split; now vm_compute | split; now vm_compute].
  - now vm_compute.
Defined.

(** * What any parsed catalog satisfies

    [yields R m]: however hostile the file, a step that succeeds returns a
    value related by [R] to the bytes it charged, and no step ever leaves the
    accounting inconsistent. *)

Definition yields {A} (R : A -> Z -> Prop) (m : Rd A) : Prop :=
  forall buf r b, covers b ->
    let '(res, (_, b')) := m buf (r, b) in
    covers b' /\ b_limit (fst b') = b_limit (fst b) /\
    b_used (fst b) - ch_bytes (snd b) = b_used (fst b') - ch_bytes (snd b') /\
    b_used (fst b) <= b_used (fst b') /\
    match res with
    | Ok (Some a) => R a (b_used (fst b') - b_used (fst b))
    | _ => True
    end.

Lemma yields_ret {A} (R : A -> Z -> Prop) a : R a 0 -> yields R (rd_ret a).
Proof. intros Ha buf r b Hc. simpl. rewrite Z.sub_diag. repeat split; try apply Hc; auto; lia. Qed.

Lemma yields_bind {A B} (R : A -> Z -> Prop) (Q : B -> Z -> Prop) (m : Rd A) (f : A -> Rd B) :
  yields R m -> (forall a d, R a d -> yields (fun x d' => Q x (d + d')) (f a)) ->
  yields Q (rd_bind m f).
Proof.
  intros Hm Hf buf r b Hc. unfold rd_bind, sbind. specialize (Hm buf r b Hc).
  destruct (m buf (r, b)) as [[[a|]|e] [r1 b1]]; destruct Hm as (Hc1 & Hl1 & Hd1 & Hu1 & Ha);
    try (repeat split; try apply Hc1; auto; lia).
  specialize (Hf a _ Ha buf r1 b1 Hc1).
  destruct (f a buf (r1, b1)) as [res [r2 b2]]. destruct Hf as (Hc2 & Hl2 & Hd2 & Hu2 & Hq).
  repeat split; try apply Hc2; try lia. destruct res as [[x|]|]; auto.
  replace (b_used (fst b2) - b_used (fst b)) with
    ((b_used (fst b1) - b_used (fst b)) + (b_used (fst b2) - b_used (fst b1))) by lia. exact Hq.
Qed.

Lemma yields_try {A} (R : A -> Z -> Prop) (r : Result A) :
  (forall a, r = Ok a -> R a 0) -> yields R (rd_try r).
Proof.
  intros H buf s b Hc. unfold rd_try, lift. destruct r as [a|e]; simpl;
    repeat split; try apply Hc; auto; try lia. rewrite Z.sub_diag. auto.
Qed.

Lemma yields_grow n : 0 <= n -> yields (fun _ d => d = n) (charge_grow n).
Proof.
  intros Hn buf r b Hc. unfold charge_grow.
  destruct (Charge_grow_spec n b Hn Hc) as [(b' & -> & Hc' & Hb & Hu & Hlim) | [-> Hgt]];
    repeat split; try apply Hc'; try apply Hc; lia.
Qed.

Lemma yields_take len : yields (fun _ d => d = 0) (Reader_take len).
Proof.
  intros buf r b Hc. unfold Reader_take. repeat case_match; simplify_eq;
    repeat split; try apply Hc; lia.
Qed.

Lemma yields_pos : yields (fun _ d => d = 0) rd_pos.
Proof. intros buf r b Hc. simpl. repeat split; try apply Hc; lia. Qed.

Definition index_wf (d : IndexDescriptor) : Prop :=
  from_utf8 (id_name d) = true /\ from_utf8 (id_key_encoding_id d) = true /\
  (forall v, id_root d = Some v -> 0 <= v).

Definition table_wf (t : TableDescriptor) : Prop :=
  from_utf8 (td_name t) = true /\ index_wf (td_primary t) /\ Forall index_wf (td_secondaries t) /\
  NoDup (map id_name (td_secondaries t)).

Lemma repeats_NoDup seen l :
  NoDup seen -> repeats seen l = false -> NoDup (seen ++ l).
Proof.
  revert seen; induction l as [|n l IH]; intros seen Hs Hr; simpl in *; [now rewrite app_nil_r|].
  apply orb_false_elim in Hr as [Hn Hr].
  replace (seen ++ n :: l) with ((seen ++ [n]) ++ l) by now rewrite <- app_assoc.
  apply IH; [|assumption]. apply list.NoDup_app. repeat split; [assumption | | apply NoDup_singleton].
  intros x Hx ->%list_elem_of_singleton. apply not_true_iff_false in Hn. apply Hn.
  apply existsb_exists. exists n. split; [now apply list_elem_of_In | now apply bool_decide_eq_true].
Qed.

Lemma repeats_false seen l : NoDup (seen ++ l) -> repeats seen l = false.
Proof.
  revert seen. induction l as [|n l IH]; intros seen Hn; [reflexivity|]. cbn [repeats]. apply orb_false_intro.
  - apply not_true_iff_false. intros (m & Hm & He)%existsb_exists. unfold str_eqb in He. apply bool_decide_eq_true in He as ->.
    apply list.NoDup_app in Hn as (_ & Hd & _). apply (Hd m); [now apply list_elem_of_In | left].
  - apply IH. now rewrite <- app_assoc.
Qed.

Lemma find_by_name {A} (name : A -> Str) (l : list A) x :
  NoDup (map name l) -> In x l -> List.find (fun y => str_eqb (name y) (name x)) l = Some x.
Proof.
  induction l as [|y l IH]; simpl; intros Hn Hin; [contradiction|].
  apply list.NoDup_cons in Hn as [Hy Hn]. unfold str_eqb.
  destruct (bool_decide (name y = name x)) eqn:E.
  - apply bool_decide_eq_true in E. destruct Hin as [->|Hin]; [reflexivity|].
    exfalso. apply Hy. rewrite E. apply list_elem_of_In. now apply in_map.
  - destruct Hin as [->|Hin]; [|now apply IH]. apply bool_decide_eq_false in E. congruence.
Qed.

Lemma utf8_Ok s t : utf8 s = Ok t -> t = s /\ from_utf8 s = true.
Proof. unfold utf8. destruct (from_utf8 s) eqn:E; intros; simplify_eq; auto. Qed.

Lemma yields_weaken {A} (R Q : A -> Z -> Prop) (m : Rd A) :
  yields R m -> (forall a d, R a d -> Q a d) -> yields Q m.
Proof.
  intros Hm Himp buf r b Hc. specialize (Hm buf r b Hc).
  destruct (m buf (r, b)) as [[[a|]|e] [r' b']]; intuition auto.
Qed.

(** [yield] walks a parser and collects what each step returned and charged. *)
Ltac yield_with lem :=
  eapply yields_bind; [apply lem | let H := fresh in intros ? ? H; cbv beta in H |- *].
Ltac yield_step :=
  match goal with
  | |- yields _ (rd_bind (Reader_take _) _) => yield_with yields_take
  | |- yields _ (rd_bind rd_pos _) => yield_with yields_pos
  | |- yields _ (rd_bind (rd_try (utf8 ?s)) _) =>
      apply (yields_bind (fun t d => d = 0 /\ t = s /\ from_utf8 s = true));
        [apply yields_try; intros ? [-> ?]%utf8_Ok; auto | intros ? ? (? & ? & ?); subst; cbv beta]
  | |- yields _ (rd_bind (rd_try (if repeats ?l ?n then _ else _)) _) =>
      apply (yields_bind (fun _ d => d = 0 /\ repeats l n = false));
        [apply yields_try; destruct (repeats l n); [discriminate | auto]
        | intros ? ? [? ?]; subst; cbv beta]
  | |- yields _ (rd_bind (rd_try (rbind (read_i64 _ _) _)) _) =>
      apply (yields_bind (fun (r : option PageOrdinal) d => d = 0 /\ forall v, r = Some v -> 0 <= v));
        [apply yields_try; intros; inv_ok; split; [reflexivity | intros; subst; inv_reads; lia]
        | intros ? ? [? ?]; subst; cbv beta]
  | |- yields _ (rd_bind (rd_try _) _) =>
      apply (yields_bind (fun _ d => d = 0)); [now apply yields_try | intros ? ? ?; subst; cbv beta]
  | |- yields _ (rd_bind (charge_grow _) _) => yield_with yields_grow
  | |- yields _ (rd_bind (charge_string _) _) => yield_with yields_grow
  | |- yields _ (rd_ret _) => apply yields_ret
  end.

Section Yields.
Context (sz : Sizes) (Hsz : sizes_ok sz).

Ltac cost_lia :=
  unfold sizes_ok, slot_cost, string_cost, index_cost, BUFFER_OVERHEAD in *;
  repeat match goal with |- context [zlen ?l] =>
    lazymatch goal with H : 0 <= zlen l |- _ => fail | _ => pose proof (zlen_nonneg l) end
  end; lia.

Lemma yields_index :
  yields (fun d c => index_wf d /\ c = index_cost d) read_index_descriptor.
Proof.
  unfold read_index_descriptor. repeat (yield_step; try cost_lia).
  unfold index_wf, index_cost; simpl. repeat split; auto. cost_lia.
Qed.

Lemma yields_filters n :
  yields (fun fs c => Forall (fun f => from_utf8 f = true) fs /\ c = filters_cost sz fs)
    (read_filters sz n).
Proof.
  induction n; simpl; repeat (yield_step; try cost_lia).
  - split; [constructor | reflexivity].
  - eapply yields_bind; [exact IHn | intros fs d [Hfs Hd]; apply yields_ret].
    split; [now constructor|]. unfold filters_cost in *; simpl. cost_lia.
Qed.

Lemma yields_secondaries n :
  yields (fun ds c => Forall index_wf ds /\ c = indexes_cost sz ds) (read_secondaries sz n).
Proof.
  induction n; simpl; repeat (yield_step; try cost_lia).
  - split; [constructor | reflexivity].
  - eapply yields_bind; [exact yields_index | intros i d1 [Hi Hd1]].
    eapply yields_bind; [exact IHn | intros ds d2 [Hds Hd2]; apply yields_ret].
    split; [now constructor|]. unfold indexes_cost in *; simpl. cost_lia.
Qed.

Lemma yields_table : yields (fun t c => table_wf t /\ c = table_cost sz t) (read_table sz).
Proof.
  unfold read_table. repeat (yield_step; try cost_lia).
  eapply yields_bind; [exact yields_index | intros i d1 [Hi Hd1]].
  do 2 yield_step.
  eapply yields_bind; [apply yields_secondaries | intros ds d2 [Hds Hd2]].
  do 2 yield_step. split.
  - repeat split; try assumption; try apply Hi.
    apply (repeats_NoDup []); [constructor | assumption].
  - unfold table_cost; simpl. cost_lia.
Qed.

Lemma yields_tables n :
  yields (fun ts c => Forall table_wf ts /\ c = tables_cost sz ts) (read_tables sz n).
Proof.
  induction n; simpl; repeat (yield_step; try cost_lia).
  - split; [constructor | reflexivity].
  - eapply yields_bind; [exact yields_table | intros t d1 [Ht Hd1]].
    eapply yields_bind; [exact IHn | intros ts d2 [Hts Hd2]; apply yields_ret].
    split; [now constructor|]. unfold tables_cost in *; simpl. lia.
Qed.

Lemma yields_catalog fc tc ps pc dp :
  yields (fun c d => Forall (fun f => from_utf8 f = true) (cat_filters c) /\
      Forall table_wf (cat_tables c) /\ NoDup (map td_name (cat_tables c)) /\
      d = catalog_cost sz (cat_filters c) (cat_tables c))
    (read_catalog sz fc tc ps pc dp).
Proof.
  unfold read_catalog.
  eapply yields_bind; [apply yields_filters | intros fs d1 [Hfs Hd1]].
  eapply yields_bind; [apply yields_tables | intros ts d2 [Hts Hd2]].
  repeat (yield_step; try cost_lia). simpl. repeat split; try assumption.
  - apply (repeats_NoDup []); [constructor | assumption].
  - unfold catalog_cost. lia.
Qed.
End Yields.

(** Whatever the file holds, a catalog that parses is well formed: every
    name is UTF-8, no two tables and no two indexes of a table share a name, roots
    are valid ordinals; looking a table up by its name finds that table; and the
    caller's charge has grown by exactly what the catalog costs.  Whatever the
    outcome, the charge never leaves the budget. *)
Theorem parsed_catalog_wf sz buf fc tc ps pc dp b :
  sizes_ok sz -> covers b ->
  let '(res, b') := parse sz buf fc tc ps pc dp b in
  covers b' /\ b_used (fst b') <= b_limit (fst b) /\
  b_used (fst b) - ch_bytes (snd b) = b_used (fst b') - ch_bytes (snd b') /\
  forall c, res = Ok (Complete c) ->
    Forall table_wf (cat_tables c) /\ NoDup (map td_name (cat_tables c)) /\
    (forall t, In t (cat_tables c) -> Catalog_table c (td_name t) = Some t) /\
    (forall t i, In t (cat_tables c) -> In i (td_secondaries t) -> secondary t (id_name i) = Some i) /\
    b_used (fst b') = b_used (fst b) + catalog_cost sz (cat_filters c) (cat_tables c).
Proof.
  intros Hsz Hc. unfold parse.
  pose proof (yields_catalog sz Hsz fc tc ps pc dp buf (mkReader HEADER_LEN None) b Hc) as Hy.
  destruct (read_catalog _ _ _ _ _ _ buf _) as [[[c|]|e] [r b']];
    destruct Hy as ([Hc' Hcl] & Hl & Hd & Hu & Hr); (split; [now split|]);
    (split; [lia|]); (split; [assumption|]); try discriminate.
  intros c' [= <-]. destruct Hr as (_ & Ht & Hn & Hcost).
  split; [assumption|]. split; [assumption|]. split; [|split; [|lia]].
  - intros t Hin. now apply (find_by_name td_name).
  - intros t i Hin Hi. apply (find_by_name id_name); [|assumption].
    rewrite List.Forall_forall in Ht. now apply Ht.
Qed.

Lemma parsed_catalog_wf_witness :
  covers (snd (parse sample_sizes (repeat Byte.x00 41) 1 0 0 0 0 sample_budget)).
Proof.
  pose proof (parsed_catalog_wf sample_sizes (repeat Byte.x00 41) 1 0 0 0 0 sample_budget
    ltac:(vm_compute; intuition discriminate)
    ltac:(split; split; now vm_compute)) as H.
  destruct (parse _ _ _ _ _ _ _ _) as [res b']. exact (proj1 H).
Defined.
