(* ===== verification/Page.v ===== *)
(** Page buffers and value guards, [crates/drydb/src/page.rs].

    A [PageBuffer] is immutable apart from the marker that says which tree has
    checked its digests; a [PagePin] is a counted reference to one.  The model
    keeps the identity of the buffer in the pin, because the marker lives with
    the buffer: two pins of one buffer see the same marker, and a page that is
    evicted and read again gets a fresh buffer whose marker is zero. *)

From Stdlib Require Import ZArith Lia.
From stdpp Require Import base list gmap.
From coqutil Require Import Byte.
From S2P Require Import Prelude Errors Format Node.

#[local] Open Scope Z_scope.
#[local] Open Scope drydb_scope.

Record PagePin : Type := mkPagePin {
  pin_buffer : positive;
  pin_ordinal : PageOrdinal;
  pin_data : list byte;
}.

Definition pin_len (pin : PagePin) : Z := zlen (pin_data pin).

(** [PagePin::view]: the page was validated when it was read, so parsing it
    again only rebuilds the offsets. *)
Definition pin_view (pin : PagePin) : Result PageView :=
  map_err (fun e => at_page e (pin_ordinal pin)) (PageView_parse (pin_data pin)).

(** The [validated_for] fields, by buffer; an absent buffer has zero. *)
Abbreviation Markers := (gmap positive Z).

Definition digests_checked_by (m : Markers) (pin : PagePin) (tree : Z) : bool :=
  default 0 (m !! pin_buffer pin) =? tree.

Definition mark_digests_checked (m : Markers) (pin : PagePin) (tree : Z) : Markers :=
  <[pin_buffer pin := tree]> m.

Record ValueGuard : Type := mkValueGuard {
  vg_pin : PagePin;
  vg_start : Z;
  vg_end : Z;
}.

Definition into_guard (pin : PagePin) (start stop : Z) : Result ValueGuard :=
  fail? (stop <? start) || (pin_len pin <? stop) with at_page Error_corrupt (pin_ordinal pin) in
  Ok (mkValueGuard pin start stop).

Definition guard_bytes (g : ValueGuard) : list byte :=
  slice (pin_data (vg_pin g)) (vg_start g) (vg_end g - vg_start g).

Definition guard_len (g : ValueGuard) : Z := vg_end g - vg_start g.

(** A guard's range is inside its page, so [as_bytes] never slices out of
    bounds and is as long as [len] says. *)
Lemma into_guard_in_bounds pin start stop g :
  0 <= start -> into_guard pin start stop = Ok g ->
  0 <= vg_start g <= vg_end g /\ vg_end g <= zlen (pin_data (vg_pin g)) /\
  zlen (guard_bytes g) = guard_len g.
Proof.
  unfold into_guard, guard_bytes, guard_len, pin_len. intros Hs H. inv_ok. bool_hyps. simpl.
  rewrite zlen_slice by lia. lia.
Qed.

Lemma pin_view_Ok pin v : pin_view pin = Ok v <-> PageView_parse (pin_data pin) = Ok v.
Proof. unfold pin_view. destruct (PageView_parse _); simpl; intuition congruence. Qed.

Lemma digests_checked_mark m pin tree tree' pin' :
  digests_checked_by (mark_digests_checked m pin tree) pin' tree' =
  if decide (pin_buffer pin' = pin_buffer pin) then tree =? tree' else digests_checked_by m pin' tree'.
Proof.
  unfold digests_checked_by, mark_digests_checked. case_decide as H.
  - now rewrite H, lookup_insert_eq.
  - now rewrite lookup_insert_ne by congruence.
Qed.
