(* ===== verification/TreePage.v ===== *)
(** Searching and checking one B+Tree page, the page-level half of
    [crates/drydb/src/btree.rs].

    A search finds the rank of the first digest that can match and then
    compares keys; [check_digests] is what makes that sound.  [sorted_page]
    states what a search relies on, the checks establish it, and the search
    functions are proved against it. *)

From Stdlib Require Import ZArith Lia.
From stdpp Require Import base list sorting strings.
From coqutil Require Import Byte.
From S2P Require Import Prelude Errors Format Eytzinger Node Encoding.

#[local] Open Scope Z_scope.
#[local] Open Scope drydb_scope.

Inductive SearchOp : Set :=
| Equal
| LowerBound
| UpperBound.

#[export] Instance SearchOp_eq_dec : EqDecision SearchOp.
Proof. solve_decision. Defined.

Definition cmp_eqb (c d : comparison) : bool :=
  match c, d with
  | Eq, Eq | Lt, Lt | Gt, Gt => true
  | _, _ => false
  end.

Section Tree.
Context (E : KeyEncoding) (v : PageView).

(** * Comparing an entry with a key *)

Definition entry_key (index : Z) : Result (list byte) :=
  match view_kind v with
  | Leaf => let? entry := leaf_entry v index in leaf_key v entry
  | Internal => let? entry := internal_entry v index in internal_key v entry
  end.

Definition compare_internal (index : Z) (key : list byte) (key_digest : Z) : Result comparison :=
  if omitted_keys (view_layout v) then
    let? d := digest_at v index in Ok (d ?= key_digest)
  else
    let? entry := internal_entry v index in
    let? entry_key := internal_key v entry in
    ke_compare E entry_key key.

Definition compare_leaf (index : Z) (key : list byte) (key_digest : Z) : Result comparison :=
  if omitted_keys (view_layout v) then
    let? d := digest_at v index in Ok (d ?= key_digest)
  else
    let? entry := leaf_entry v index in
    let? entry_key := leaf_key v entry in
    ke_compare E entry_key key.

(** * Searching a leaf

    The scans run from [i] over the [n] entries that are left. *)

Fixpoint scan_equal (key : list byte) (key_digest : Z) (n : nat) (i : Z) : Result (option Z) :=
  match n with
  | O => Ok None
  | S n =>
      let? c := compare_leaf i key key_digest in
      match c with
      | Eq => Ok (Some i)
      | Gt => Ok None
      | Lt => scan_equal key key_digest n (i + 1)
      end
  end.

(** [while i < count && keep(compare(i)?) { i += 1 }]. *)
Fixpoint scan_while (compare : Z -> Result comparison) (keep : comparison -> bool)
    (n : nat) (i : Z) : Result Z :=
  match n with
  | O => Ok i
  | S n =>
      let? c := compare i in
      if keep c then scan_while compare keep n (i + 1) else Ok i
  end.

Definition leaf_search (key : list byte) (key_digest : Z) (op : SearchOp) : Result (option Z) :=
  let count := entry_count v in
  let? rank := lower_bound_rank v key_digest in
  let start := Z.min rank count in
  let left := Z.to_nat (count - start) in
  let compare i := compare_leaf i key key_digest in
  match op with
  | Equal => scan_equal key key_digest left start
  | LowerBound =>
      let? i := scan_while compare (cmp_eqb Lt) left start in
      Ok (if i <? count then Some i else None)
  | UpperBound =>
      let? i := scan_while compare (fun c => negb (cmp_eqb Gt c)) left start in
      Ok (if i <? count then Some i else None)
  end.

(** Whether every entry of the leaf is below the key. *)
Definition ends_below (key : list byte) (key_digest : Z) : Result bool :=
  let count := entry_count v in
  if count =? 0 then Ok true
  else
    let? c := compare_leaf (count - 1) key key_digest in
    Ok (cmp_eqb c Lt).

(** * Choosing a child *)

Definition separators_are_inexact : bool :=
  omitted_keys (view_layout v) && negb (ke_is_digest_exact E).

Definition internal_child_index (key : list byte) (key_digest : Z) : Result (Z * bool) :=
  let count := entry_count v in
  let? rank := lower_bound_rank v key_digest in
  let start := Z.min rank count in
  let compare i := compare_internal i key key_digest in
  let? i := scan_while compare (cmp_eqb Lt) (Z.to_nat (count - start)) start in
  if separators_are_inexact then
    let? inexact := if i <? count then let? c := compare i in Ok (cmp_eqb c Eq) else Ok false in
    Ok (saturating_sub i 1, inexact)
  else
    let? equal := if i <? count then let? c := compare i in Ok (cmp_eqb c Eq) else Ok false in
    if equal then Ok (i, false) else Ok (saturating_sub i 1, false).

(** * Checking a page against the encoding *)

(** The error of a digest that does not match, which itself digests the key. *)
Definition digest_mismatch {A} (key : list byte) : Result A :=
  let? _ := ke_digest E key in Err Error_corrupt.

Definition check_stored_key (key : list byte) : Result unit :=
  map_err (fun _ => Error_corrupt) (validate_key E key).

Definition check_ascending (previous key : list byte) : Result unit :=
  let? c := ke_compare E previous key in
  if negb (cmp_eqb c Lt) then Err Error_corrupt else Ok tt.

Definition rebuilt_key_capacity : Result Z := ok_or (ke_max_rebuilt_key_len E) Error_corrupt.

Fixpoint check_omitted (strict : bool) (n : nat) (index : Z) (previous : option Z) : Result unit :=
  match n with
  | O => Ok tt
  | S n =>
      let? stored := digest_at v index in
      fail? match previous with
            | Some previous => (stored <? previous) || (strict && (stored =? previous))
            | None => false
            end with Error_corrupt in
      check_omitted strict n (index + 1) (Some stored)
  end.

(** The checks on one entry whose key is on the page. *)
Definition check_entry (index stored : Z) (previous_key : option (list byte))
    : Result (list byte) :=
  let? key := entry_key index in
  let? _ := check_stored_key key in
  let? accepted := ke_accepts_digest E key stored in
  if negb accepted then digest_mismatch key
  else
    let? _ := match previous_key with
              | Some previous => check_ascending previous key
              | None => Ok tt
              end in
    Ok key.

Fixpoint check_keys (n : nat) (index : Z) (previous_key : option (list byte)) : Result unit :=
  match n with
  | O => Ok tt
  | S n =>
      let? stored := digest_at v index in
      let? key := check_entry index stored previous_key in
      check_keys n (index + 1) (Some key)
  end.

(** [while node * 2 <= complete { node *= 2 }]: at most 64 doublings. *)
Fixpoint leftmost (fuel : nat) (complete node : Z) : Z :=
  match fuel with
  | O => node
  | S fuel => if node * 2 <=? complete then leftmost fuel complete (node * 2) else node
  end.

(** [while node > 1 && node % 2 == 1 { node /= 2 }]: at most 64 halvings. *)
Fixpoint climb (fuel : nat) (node : Z) : Z :=
  match fuel with
  | O => node
  | S fuel => if (1 <? node) && Z.odd node then climb fuel (node / 2) else node
  end.

(** The in-order successor, or [None] where the loop breaks. *)
Definition inorder_next (complete node : Z) : option Z :=
  let right := node * 2 + 1 in
  if right <=? complete then Some (leftmost 64 complete right)
  else
    let node := climb 64 node in
    if node =? 1 then None else Some (node / 2).

Definition eytzinger_visit (node rank : Z) (previous_key : option (list byte))
    : Result (option (list byte)) :=
  let? stored := digest_slot v (node - 1) in
  if rank <? entry_count v then
    let? key := check_entry rank stored previous_key in
    Ok (Some key)
  else
    fail? negb (stored =? u64_max) with Error_corrupt in
    Ok previous_key.

(** The walk; it returns how many slots it visited.  One unit of fuel per slot
    of the tree is enough. *)
Fixpoint eytzinger_walk (fuel : nat) (complete node rank : Z) (previous_key : option (list byte))
    : Result Z :=
  match fuel with
  | O => Err Error_corrupt
  | S fuel =>
      let? previous_key := eytzinger_visit node rank previous_key in
      match inorder_next complete node with
      | Some node => eytzinger_walk fuel complete node (rank + 1) previous_key
      | None => Ok (rank + 1)
      end
  end.

Definition check_eytzinger_digests : Result unit :=
  let complete := digest_slot_count v in
  if complete =? 0 then Ok tt
  else
    let? rank := eytzinger_walk (Z.to_nat complete) complete (leftmost 64 complete 1) 0 None in
    fail? negb (rank =? complete) with Error_corrupt in
    Ok tt.

Definition check_digests : Result unit :=
  if eytzinger (view_layout v) then check_eytzinger_digests
  else if omitted_keys (view_layout v) then
    let? _ := rebuilt_key_capacity in
    check_omitted (ke_is_digest_exact E) (Z.to_nat (entry_count v)) 0 None
  else check_keys (Z.to_nat (entry_count v)) 0 None.

(** [rebuild_key]: [None] when the caller should read the key off the page. *)
Definition rebuild_key (index : Z) (buf : list byte) : Result (option (list byte)) :=
  if negb (omitted_keys (view_layout v)) then Ok None
  else
    let? digest := digest_at v index in
    let? key := map_err (fun _ => Error_corrupt) (ke_decode_key_from_digest E digest buf) in
    Ok (Some key).
End Tree.

(** * What a search relies on *)

Section Spec.
Context (E : KeyEncoding) `{!LawfulEncoding E}.

Definition compare_at (v : PageView) : Z -> list byte -> Z -> Result comparison :=
  match view_kind v with
  | Leaf => compare_leaf E v
  | Internal => compare_internal E v
  end.

Definition key_lt (a b : list byte) : Prop := ord a b = Lt.

(** The page holds [keys]: comparisons against its entries are comparisons
    against these keys, the keys ascend strictly, and the digests are theirs,
    padded at the end with the sentinel. *)
Record sorted_page (v : PageView) (keys : list (list byte)) : Prop := {
  sp_wf : PageView_wf v;
  sp_count : zlen keys = entry_count v;
  sp_ok : Forall key_ok keys;
  sp_compare : forall i k q, keys !! i = Some k -> key_ok q ->
    compare_at v (Z.of_nat i) q (dig q) = Ok (ord k q);
  sp_ascending : StronglySorted key_lt keys;
  sp_digests : exists pad, sorted_digests v = (dig <$> keys) ++ replicate pad u64_max;
}.

Lemma ord_refl a : key_ok a -> ord a a = Eq.
Proof. intros Ha. now apply (cmp_eq _ _ ord_order). Qed.

(** The keys of each child lie between its separator and the next one, when a
    separator is the first key below it. *)
Definition heads (sep : list byte) (ks : list (list byte)) : Prop := head ks = Some sep /\ key_ok sep.

Lemma separators_bound seps kss :
  StronglySorted key_lt (concat kss) -> Forall2 heads seps kss ->
  forall i ks k, kss !! i = Some ks -> k ∈ ks ->
  (forall sep, seps !! i = Some sep -> ord sep k <> Gt) /\
  (forall sep, seps !! (i + 1)%nat = Some sep -> ord k sep = Lt).
Proof.
  intros Hs Hf i ks k Hi Hk. split; intros sep Hsep.
  - destruct (Forall2_lookup_lr _ _ _ _ _ _ Hf Hsep Hi) as [Hh Hok]. pose proof (sorted_concat_part _ _ i _ Hs Hi) as Hsi.
    destruct ks as [|k0 ks]; [discriminate|]. injection Hh as ->. apply StronglySorted_inv in Hsi as [_ Hsi].
    apply elem_of_cons in Hk as [->|Hk]; [rewrite (ord_refl sep Hok); discriminate|].
    rewrite Forall_forall in Hsi. rewrite (Hsi k Hk). discriminate.
  - destruct (Forall2_lookup_l _ _ _ _ _ Hf Hsep) as (ks' & Hks' & Hh & _).
    apply (sorted_concat_le key_lt kss i (i + 1) k sep ks ks' Hs Hi Hks'); [lia | exact Hk |].
    destruct ks' as [|k0 ks']; [discriminate|]. injection Hh as ->. left.
Qed.

Lemma separators_sorted seps kss :
  StronglySorted key_lt (concat kss) -> Forall2 heads seps kss -> StronglySorted key_lt seps.
Proof.
  intros Hs Hf. induction Hf as [|sep ks seps kss [Hh _] Hf IH]; [constructor|]. cbn [concat] in Hs.
  apply StronglySorted_app in Hs as (Hlt & _ & Hs). constructor; [auto|]. apply Forall_lookup. intros j sep' Hj.
  destruct (Forall2_lookup_l _ _ _ _ _ Hf Hj) as (ks' & Hks' & Hh' & _).
  apply Hlt; [destruct ks; [discriminate|]; injection Hh as ->; left|]. apply elem_of_concat. exists j, ks'. split; [exact Hks'|].
  destruct ks' as [|k0 ks']; [discriminate|]. injection Hh' as ->. left.
Qed.

Lemma ord_lt_gt a b : key_ok a -> key_ok b -> ord a b = Lt <-> ord b a = Gt.
Proof.
  intros Ha Hb. rewrite (cmp_opp _ _ ord_order a b Ha Hb). destruct (ord a b); simpl; split; congruence.
Qed.

Lemma ord_trans a b c :
  key_ok a -> key_ok b -> key_ok c -> ord a b = Lt -> ord b c <> Gt -> ord a c = Lt.
Proof.
  intros Ha Hb Hc Hab Hbc. destruct (ord b c) eqn:Hc'; [| |congruence].
  - apply (cmp_eq _ _ ord_order) in Hc'; auto. now subst.
  - now apply (cmp_trans _ _ ord_order a b c).
Qed.

Lemma dig_lt_ord a b : key_ok a -> key_ok b -> dig a < dig b -> ord a b = Lt.
Proof.
  intros Ha Hb Hd. destruct (ord a b) eqn:Ho; [|reflexivity|].
  - apply (cmp_eq _ _ ord_order) in Ho; auto. subst. lia.
  - apply ord_lt_gt in Ho; auto. pose proof (dig_mono b a Hb Ha Ho). lia.
Qed.

Lemma digests_sorted keys pad :
  Forall key_ok keys -> StronglySorted key_lt keys ->
  StronglySorted Z.le ((dig <$> keys) ++ replicate pad u64_max).
Proof.
  intros Hok Hs. apply StronglySorted_app. split; [|split].
  - intros x y (k & -> & Hk)%list_elem_of_fmap [-> _]%elem_of_replicate.
    rewrite Forall_forall in Hok. apply dig_range. now apply Hok.
  - induction Hs as [|k keys Hs IH Hk]; [constructor|]. inversion Hok; subst.
    simpl. constructor; [now apply IH|]. apply Forall_fmap.
    match goal with Hks : Forall key_ok keys |- _ => rename Hks into Hoks end.
    rewrite Forall_forall in *. intros x Hx. simpl. apply dig_mono; [assumption | auto | now apply Hk].
  - induction pad; simpl; constructor; auto. apply Forall_replicate. lia.
Qed.

(** The rank of the digest search, and what lies before it. *)
Lemma sorted_page_rank v keys q :
  sorted_page v keys -> key_ok q ->
  exists r, lower_bound_rank v (dig q) = Ok r /\ 0 <= r <= zlen keys /\
    forall i k, keys !! i = Some k -> Z.of_nat i < r -> ord k q = Lt.
Proof.
  intros [Hwf Hc Hok _ Hs [pad Hd]] Hq.
  pose proof (digests_sorted keys pad Hok Hs) as Hss. rewrite <- Hd in Hss.
  exists (count_lt (dig q) (sorted_digests v)). split; [now apply lower_bound_rank_ok|].
  assert (count_lt (dig q) (replicate pad u64_max) = 0) as Hp.
  { apply count_lt_none, Forall_replicate. now apply dig_range. }
  rewrite Hd, count_lt_app, Hp, Z.add_0_r in *. split.
  - split; [apply count_lt_nonneg|]. unfold zlen.
    pose proof (count_lt_le_len (dig q) (dig <$> keys)). unfold zlen in *.
    now rewrite length_fmap in *.
  - intros i k Hi Hlt. rewrite Forall_lookup in Hok. apply dig_lt_ord; eauto.
    apply (count_lt_lookup (dig q) (dig <$> keys) i).
    + pose proof (digests_sorted keys 0 ltac:(now apply Forall_lookup) Hs) as H0.
      now rewrite app_nil_r in H0.
    + now rewrite list_lookup_fmap, Hi.
    + exact Hlt.
Qed.

(** * Reference search *)

(** The position of the first key that satisfies [P], counting from [i]. *)
Fixpoint first_index (P : list byte -> bool) (keys : list (list byte)) (i : Z) : option Z :=
  match keys with
  | [] => None
  | k :: keys => if P k then Some i else first_index P keys (i + 1)
  end.

Definition op_holds (op : SearchOp) (c : comparison) : bool :=
  match op with
  | Equal => cmp_eqb c Eq
  | LowerBound => negb (cmp_eqb c Lt)
  | UpperBound => cmp_eqb c Gt
  end.

Definition leaf_ref (op : SearchOp) (q : list byte) (keys : list (list byte)) : option Z :=
  first_index (fun k => op_holds op (ord k q)) keys 0.

Lemma first_index_app P pre suf i :
  (forall k, k ∈ pre -> P k = false) ->
  first_index P (pre ++ suf) i = first_index P suf (i + zlen pre).
Proof.
  revert i; induction pre as [|k pre IH]; intros i Hp; simpl.
  - f_equal. rewrite zlen_nil. lia.
  - rewrite Hp by left. rewrite IH by (intros; apply Hp; now right). f_equal. rewrite zlen_cons. lia.
Qed.

Lemma first_index_Some P keys i j :
  first_index P keys i = Some j ->
  i <= j /\ exists k, keys !! Z.to_nat (j - i) = Some k /\ P k = true /\
    forall m k', keys !! m = Some k' -> Z.of_nat m < j - i -> P k' = false.
Proof.
  revert i; induction keys as [|k keys IH]; intros i; simpl; [discriminate|].
  destruct (P k) eqn:Hk; intros H.
  - injection H as <-. split; [lia|]. exists k. rewrite Z.sub_diag. repeat split; auto. lia.
  - apply IH in H as (Hij & k' & Hl & HP & Hb). split; [lia|]. exists k'.
    replace (Z.to_nat (j - i)) with (S (Z.to_nat (j - (i + 1)))) by lia. repeat split; auto.
    intros [|m] x Hm Hlt; simpl in Hm; [congruence|]. apply (Hb m); [assumption | lia].
Qed.

Lemma first_index_None P keys i :
  first_index P keys i = None <-> forall k, k ∈ keys -> P k = false.
Proof.
  revert i; induction keys as [|k keys IH]; intros i; simpl.
  - split; [intros _ x Hx; inversion Hx | reflexivity].
  - destruct (P k) eqn:Hk.
    + split; [discriminate|]. intros H. rewrite H in Hk by left. discriminate.
    + rewrite IH. split; [intros H x [->|Hx]%elem_of_cons; auto | intros H x Hx; apply H; now right].
Qed.

(** * The scans against the reference *)

Lemma scan_while_ref (compare : Z -> Result comparison) keep q suf i :
  (forall j k, suf !! j = Some k -> compare (i + Z.of_nat j) = Ok (ord k q)) ->
  scan_while compare keep (length suf) i =
  Ok (default (i + zlen suf) (first_index (fun k => negb (keep (ord k q))) suf i)).
Proof.
  revert i; induction suf as [|k suf IH]; intros i Hc; simpl.
  - rewrite zlen_nil. f_equal. lia.
  - pose proof (Hc 0%nat k eq_refl) as H0. rewrite Z.add_0_r in H0. rewrite H0. cbn [rbind].
    destruct (keep (ord k q)); simpl; [|reflexivity].
    rewrite IH; [rewrite zlen_cons; do 2 f_equal; lia|].
    intros j x Hj. rewrite <- (Hc (S j) x Hj). f_equal. lia.
Qed.

Lemma scan_equal_ref v q suf i :
  (forall j k, suf !! j = Some k -> compare_leaf E v (i + Z.of_nat j) q (dig q) = Ok (ord k q)) ->
  Forall key_ok suf -> key_ok q -> StronglySorted key_lt suf ->
  scan_equal E v q (dig q) (length suf) i =
  Ok (first_index (fun k => cmp_eqb (ord k q) Eq) suf i).
Proof.
  revert i; induction suf as [|k suf IH]; intros i Hc Hok Hq Hs; simpl; [reflexivity|].
  pose proof (Hc 0%nat k eq_refl) as H0. rewrite Z.add_0_r in H0. rewrite H0. cbn [rbind].
  inversion Hok as [|? ? Hk Hoks]; inversion Hs as [|? ? Hss Hlt]; subst.
  destruct (ord k q) eqn:Ho; simpl.
  - reflexivity.
  - apply IH; auto. intros j x Hj. rewrite <- (Hc (S j) x Hj). f_equal. lia.
  - symmetry. f_equal. apply first_index_None. intros x Hx.
    rewrite List.Forall_forall in Hlt, Hoks. apply list_elem_of_In in Hx.
    assert (ord q x = Lt) as Hqx.
    { apply (cmp_trans _ _ ord_order q k x); auto; [now apply ord_lt_gt | now apply Hlt]. }
    apply ord_lt_gt in Hqx; auto. now rewrite Hqx.
Qed.

(** The entries from the rank on are all a search has to look at. *)
Lemma sorted_page_split keys q r :
  0 <= r <= zlen keys ->
  (forall i k, keys !! i = Some k -> Z.of_nat i < r -> ord k q = Lt) ->
  keys = take (Z.to_nat r) keys ++ drop (Z.to_nat r) keys /\
  zlen (take (Z.to_nat r) keys) = r /\
  length (drop (Z.to_nat r) keys) = Z.to_nat (zlen keys - r) /\
  (forall k, k ∈ take (Z.to_nat r) keys -> ord k q = Lt).
Proof.
  intros Hr Hb. split; [now rewrite take_drop|]. split; [now apply zlen_take|]. split.
  - rewrite length_drop. unfold zlen. lia.
  - intros k [i Hi]%list_elem_of_lookup. rewrite lookup_take_Some in Hi. destruct Hi as [Hi Hlt].
    apply (Hb i); [assumption | lia].
Qed.

Lemma first_index_bound P keys i j : first_index P keys i = Some j -> i <= j < i + zlen keys.
Proof.
  intros H. apply first_index_Some in H as (Hij & k & Hk & _). apply lookup_lt_Some in Hk.
  unfold zlen. lia.
Qed.

Lemma first_index_ext P Q keys i :
  (forall k, k ∈ keys -> P k = Q k) -> first_index P keys i = first_index Q keys i.
Proof.
  revert i; induction keys as [|k keys IH]; intros i H; simpl; [reflexivity|].
  rewrite (H k) by left. rewrite IH; [reflexivity|]. intros; apply H; now right.
Qed.

(** A scan from the rank, closed off the way the bound searches close it. *)
Lemma scan_from_rank v keys q r keep :
  sorted_page v keys -> key_ok q -> keep Lt = true ->
  0 <= r <= zlen keys ->
  (forall i k, keys !! i = Some k -> Z.of_nat i < r -> ord k q = Lt) ->
  scan_while (fun i => compare_at v i q (dig q)) keep (Z.to_nat (entry_count v - r)) r =
  Ok (default (zlen keys) (first_index (fun k => negb (keep (ord k q))) keys 0)).
Proof.
  intros Hp Hq Hkeep Hr Hb. pose proof (sp_count _ _ Hp) as Hc. rewrite <- Hc.
  destruct (sorted_page_split keys q r Hr Hb) as (Hsplit & Hlen & Hdl & Hpre).
  rewrite <- Hdl, (scan_while_ref _ keep q).
  - assert (first_index (fun k => negb (keep (ord k q))) keys 0 =
            first_index (fun k => negb (keep (ord k q))) (drop (Z.to_nat r) keys) r) as ->.
    { rewrite Hsplit at 1. rewrite first_index_app; [f_equal; lia|].
      intros k Hk. now rewrite (Hpre k Hk), Hkeep. }
    do 2 f_equal. unfold zlen in *. rewrite length_drop. lia.
  - intros j k Hj. rewrite lookup_drop in Hj.
    replace (r + Z.of_nat j) with (Z.of_nat (Z.to_nat r + j)) by lia.
    now apply (sp_compare _ _ Hp).
Qed.

Lemma leaf_search_ref v keys q op :
  sorted_page v keys -> view_kind v = Leaf -> key_ok q ->
  leaf_search E v q (dig q) op = Ok (leaf_ref op q keys).
Proof.
  intros Hp Hk Hq. destruct (sorted_page_rank v keys q Hp Hq) as (r & Hr & Hrange & Hb).
  pose proof (sp_count _ _ Hp) as Hc. unfold leaf_search. rewrite Hr. cbn [rbind].
  rewrite Z.min_l by lia.
  assert (forall i, compare_at v i q (dig q) = compare_leaf E v i q (dig q)) as Hat
    by (intros; unfold compare_at; now rewrite Hk).
  assert (forall keep, keep Lt = true ->
    scan_while (fun i => compare_leaf E v i q (dig q)) keep (Z.to_nat (entry_count v - r)) r =
    Ok (default (zlen keys) (first_index (fun k => negb (keep (ord k q))) keys 0))) as Hscan.
  { intros keep Hkeep. pose proof (scan_from_rank v keys q r keep Hp Hq Hkeep Hrange Hb) as Hs.
    unfold compare_at in Hs. now rewrite Hk in Hs. }
  assert (forall P Q, (forall c, P c = Q c) ->
    (let? i := Ok (default (zlen keys) (first_index (fun k => P (ord k q)) keys 0)) in
     Ok (if i <? entry_count v then Some i else None)) =
    (Ok (first_index (fun k => Q (ord k q)) keys 0) : Result (option Z))) as Hclose.
  { intros P Q HPQ. cbn [rbind]. rewrite (first_index_ext _ (fun k => Q (ord k q))) by auto.
    destruct (first_index _ keys 0) as [i|] eqn:Hf; simpl; cmp_cases; try reflexivity.
    apply first_index_bound in Hf. lia. }
  destruct op.
  - destruct (sorted_page_split keys q r Hrange Hb) as (Hsplit & Hlen & Hdl & Hpre).
    rewrite <- Hc, <- Hdl. rewrite scan_equal_ref; auto.
    + f_equal. unfold leaf_ref. rewrite Hsplit at 2. rewrite first_index_app; [f_equal; lia|].
      intros k Hk'. simpl. now rewrite (Hpre k Hk').
    + intros j k Hj. rewrite lookup_drop in Hj. rewrite <- Hat.
      replace (r + Z.of_nat j) with (Z.of_nat (Z.to_nat r + j)) by lia. now apply (sp_compare _ _ Hp).
    + apply Forall_drop, (sp_ok _ _ Hp).
    + pose proof (sp_ascending _ _ Hp) as Hs. rewrite Hsplit in Hs. now apply StronglySorted_app in Hs.
  - rewrite Hscan by reflexivity. apply (Hclose (fun c => negb (cmp_eqb Lt c)) (op_holds LowerBound)). now intros [].
  - rewrite Hscan by reflexivity. apply (Hclose (fun c => negb (negb (cmp_eqb Gt c))) (op_holds UpperBound)). now intros [].
Qed.

(** * The child of an internal page *)

(** How many separators are not above the key. *)
Definition not_above (q : list byte) (keys : list (list byte)) : Z :=
  zlen (filter (fun k => ord k q <> Gt) keys).

(** The last child that starts at or below the key, or the first child. *)
Definition child_ref (q : list byte) (keys : list (list byte)) : Z :=
  Z.max 0 (not_above q keys - 1).

Lemma not_above_cons q k keys :
  not_above q (k :: keys) = (if cmp_eqb (ord k q) Gt then 0 else 1) + not_above q keys.
Proof.
  unfold not_above. rewrite filter_cons. destruct (ord k q); simpl; rewrite ?zlen_cons; lia.
Qed.

Lemma not_above_none q keys : (forall k, k ∈ keys -> ord k q = Gt) -> not_above q keys = 0.
Proof.
  induction keys as [|k keys IH]; intros H; [reflexivity|].
  rewrite not_above_cons, (H k) by left. simpl. apply IH. intros; apply H; now right.
Qed.

(** Past a separator that is not below the key, every separator is above it. *)
Lemma ascending_above q k keys :
  Forall key_ok (k :: keys) -> key_ok q -> StronglySorted key_lt (k :: keys) ->
  ord k q <> Lt -> forall x, x ∈ keys -> ord x q = Gt.
Proof.
  intros [Hk Hok]%Forall_cons Hq [_ Hs]%StronglySorted_inv Hle x Hx.
  rewrite Forall_forall in Hok, Hs. apply ord_lt_gt; auto.
  destruct (ord k q) eqn:Ho; [|congruence|].
  - apply (cmp_eq _ _ ord_order) in Ho; auto. subst. now apply Hs.
  - apply ord_lt_gt in Ho; auto. apply (ord_trans q k x); auto. rewrite (Hs x Hx : ord k x = Lt). congruence.
Qed.

Lemma not_above_first q keys i :
  Forall key_ok keys -> key_ok q -> StronglySorted key_lt keys ->
  match first_index (fun k => negb (cmp_eqb Lt (ord k q))) keys i with
  | Some j => exists k, keys !! Z.to_nat (j - i) = Some k /\
      not_above q keys = j - i + (if cmp_eqb (ord k q) Eq then 1 else 0)
  | None => not_above q keys = zlen keys
  end.
Proof.
  revert i; induction keys as [|k keys IH]; intros i Hok Hq Hs; simpl; [reflexivity|].
  pose proof (ascending_above q k keys Hok Hq Hs) as Habove.
  apply Forall_cons in Hok as Hok'. destruct Hok' as [Hk Hoks].
  apply StronglySorted_inv in Hs as Hs'. destruct Hs' as [Hss _].
  rewrite not_above_cons. destruct (ord k q) eqn:Ho; simpl.
  - exists k. rewrite Z.sub_diag, Ho. split; [reflexivity|].
    rewrite not_above_none by (apply Habove; congruence). simpl. lia.
  - specialize (IH (i + 1) Hoks Hq Hss).
    destruct (first_index _ keys (i + 1)) as [j|] eqn:Hf; [|rewrite zlen_cons; lia].
    apply first_index_bound in Hf. destruct IH as (x & Hx & Hn). exists x.
    replace (Z.to_nat (j - i)) with (S (Z.to_nat (j - (i + 1)))) by lia. split; [exact Hx | lia].
  - exists k. rewrite Z.sub_diag, Ho. split; [reflexivity|].
    rewrite not_above_none by (apply Habove; congruence). simpl. lia.
Qed.

Lemma internal_child_index_ref v keys q :
  sorted_page v keys -> view_kind v = Internal -> separators_are_inexact E v = false -> key_ok q ->
  internal_child_index E v q (dig q) = Ok (child_ref q keys, false).
Proof.
  intros Hp Hk Hex Hq. destruct (sorted_page_rank v keys q Hp Hq) as (r & Hr & Hrange & Hb).
  pose proof (sp_count _ _ Hp) as Hc. unfold internal_child_index. rewrite Hr. cbn [rbind].
  rewrite Z.min_l by lia. rewrite Hex.
  pose proof (scan_from_rank v keys q r (cmp_eqb Lt) Hp Hq eq_refl Hrange Hb) as Hs.
  unfold compare_at in Hs. rewrite Hk in Hs. rewrite Hs. cbn [rbind].
  pose proof (not_above_first q keys 0 (sp_ok _ _ Hp) Hq (sp_ascending _ _ Hp)) as Hn.
  unfold child_ref. destruct (first_index _ keys 0) as [j|] eqn:Hf; simpl default.
  - apply first_index_bound in Hf. destruct Hn as (k & Hj & Hn).
    destruct (Z.ltb_spec j (entry_count v)); [|lia].
    pose proof (sp_compare _ _ Hp _ k q Hj Hq) as Hcmp. unfold compare_at in Hcmp.
    rewrite Hk, Z.sub_0_r, Z2Nat.id in Hcmp by lia. rewrite Hcmp. cbn [rbind].
    unfold saturating_sub. destruct (cmp_eqb (ord k q) Eq); do 2 f_equal; lia.
  - destruct (Z.ltb_spec (zlen keys) (entry_count v)); [lia|]. cbn [rbind].
    unfold saturating_sub. do 2 f_equal. lia.
Qed.

Lemma ends_below_ref v keys q :
  sorted_page v keys -> view_kind v = Leaf -> key_ok q ->
  ends_below E v q (dig q) = Ok (forallb (fun k => cmp_eqb (ord k q) Lt) keys).
Proof.
  intros Hp Hk Hq. pose proof (sp_count _ _ Hp) as Hc. unfold ends_below.
  destruct keys as [|k keys _] using rev_ind.
  { rewrite zlen_nil in Hc. now rewrite <- Hc. }
  rewrite zlen_app, zlen_cons, zlen_nil in Hc. pose proof (zlen_nonneg keys).
  destruct (Z.eqb_spec (entry_count v) 0); [lia|].
  assert ((keys ++ [k]) !! length keys = Some k) as Hlast
    by (now rewrite lookup_app_r, Nat.sub_diag).
  pose proof (sp_compare _ _ Hp _ k q Hlast Hq) as Hcmp. unfold compare_at in Hcmp. rewrite Hk in Hcmp.
  replace (entry_count v - 1) with (Z.of_nat (length keys)) by (unfold zlen in *; lia).
  rewrite Hcmp. cbn [rbind]. f_equal. rewrite forallb_app. simpl. rewrite andb_true_r.
  destruct (ord k q) eqn:Ho; simpl; rewrite ?andb_false_r; try reflexivity.
  symmetry. rewrite andb_true_r. apply forallb_forall. intros x Hx%list_elem_of_In.
  pose proof (sp_ascending _ _ Hp) as Hs. apply StronglySorted_app in Hs as (Hlt & _ & _).
  pose proof (sp_ok _ _ Hp) as Hok. apply Forall_app in Hok as [Hoks [Hok _]%Forall_cons].
  rewrite Forall_forall in Hoks. rewrite (ord_trans x k q); auto; [|congruence].
  apply Hlt; [assumption | now left].
Qed.
End Spec.

(** * The check establishes what a search relies on *)

(** What the check needs of an encoding beyond its laws: a key that passes
    [validate_key] is well formed, an accepted digest is the digest, and an
    encoding that rebuilds keys can rebuild one from any digest. *)
Class CheckableEncoding (E : KeyEncoding) `{!LawfulEncoding E} : Prop := {
  validated_ok : forall key, validate_key E key = Ok tt -> key_ok key;
  accepted_exact : forall key stored,
    key_ok key -> ke_accepts_digest E key stored = Ok true -> stored = dig key;
  rebuilds_all : forall n, ke_max_rebuilt_key_len E = Some n ->
    ke_is_digest_exact E = true /\
    forall d, 0 <= d <= u64_max -> exists key, key_ok key /\ dig key = d;
}.

(** The in-order walk over a complete tree. *)
Section Walk.
Context (E : KeyEncoding) (v : PageView).

Fixpoint visits (nodes : list Z) (rank : Z) (prev : option (list byte))
    : Result (Z * option (list byte)) :=
  match nodes with
  | [] => Ok (rank, prev)
  | n :: ns => let? prev := eytzinger_visit E v n rank prev in visits ns (rank + 1) prev
  end.

Lemma visits_app l k rank prev :
  visits (l ++ k) rank prev = let? '(rank, prev) := visits l rank prev in visits k rank prev.
Proof.
  revert rank prev; induction l as [|n l IH]; intros rank prev; simpl; [reflexivity|].
  destruct (eytzinger_visit E v n rank prev); simpl; [apply IH | reflexivity].
Qed.

Lemma leftmost_spec fuel H k i :
  (k <= fuel)%nat -> (k < H)%nat -> 1 <= i ->
  2 ^ Z.of_nat (H - S k) <= i < 2 * 2 ^ Z.of_nat (H - S k) ->
  leftmost fuel (2 ^ Z.of_nat H - 1) i = i * 2 ^ Z.of_nat k.
Proof.
  revert fuel i; induction k as [|k IH]; intros fuel i Hf Hk Hi Hr.
  - assert (2 * i > 2 ^ Z.of_nat H - 1).
    { replace H with (S (H - 1)) at 1 by lia. rewrite Nat2Z.inj_succ, Z.pow_succ_r by lia. lia. }
    destruct fuel; simpl; [|destruct (Z.leb_spec (i * 2) (2 ^ Z.of_nat H - 1))]; lia.
  - destruct fuel as [|fuel]; [lia|]. simpl leftmost.
    assert (2 * 2 ^ Z.of_nat (H - S (S k)) = 2 ^ Z.of_nat (H - S k)) as Hp.
    { rewrite <- Z.pow_succ_r by lia. f_equal. lia. }
    assert (2 ^ Z.of_nat H = 2 ^ Z.of_nat k * (2 * 2 ^ Z.of_nat (H - S k))) as Hh.
    { rewrite <- Z.pow_succ_r, <- Z.pow_add_r by lia. f_equal. lia. }
    assert (0 < 2 ^ Z.of_nat k) by (apply Z.pow_pos_nonneg; lia).
    destruct (Z.leb_spec (i * 2) (2 ^ Z.of_nat H - 1)); [|nia].
    rewrite IH by lia. rewrite Nat2Z.inj_succ, Z.pow_succ_r by lia. lia.
Qed.

Lemma climb_S fuel i :
  climb (S fuel) i = if (1 <? i) && Z.odd i then climb fuel (i / 2) else i.
Proof. reflexivity. Qed.

Lemma climb_even fuel i : 1 <= i -> climb fuel (2 * i) = 2 * i.
Proof.
  intros. destruct fuel; simpl; [reflexivity|].
  rewrite Z.odd_mul. simpl. now rewrite andb_false_r.
Qed.

Lemma climb_stable fuel i : 1 <= i < 2 ^ Z.of_nat fuel -> climb (S fuel) i = climb fuel i.
Proof.
  revert i; induction fuel as [|fuel IH]; intros i Hi; [simpl in Hi; lia|].
  rewrite (climb_S (S fuel) i), (climb_S fuel i).
  destruct ((1 <? i) && Z.odd i) eqn:Hc; [|reflexivity].
  apply andb_prop in Hc as [H1%Z.ltb_lt _]. apply IH.
  rewrite Nat2Z.inj_succ, Z.pow_succ_r in Hi by lia.
  split; [apply Z.div_le_lower_bound; lia | apply Z.div_lt_upper_bound; lia].
Qed.

Lemma climb_odd i : 1 <= i < 2 ^ 63 -> climb 64 (2 * i + 1) = climb 64 i.
Proof.
  intros Hi. rewrite (climb_stable 63 i) by (simpl Z.of_nat; lia).
  rewrite climb_S. replace (1 <? 2 * i + 1) with true by (symmetry; apply Z.ltb_lt; lia).
  rewrite Z.odd_add, Z.odd_mul. cbn [andb xorb Z.odd].
  replace ((2 * i + 1) / 2) with i; [reflexivity|].
  apply Z.div_unique with 1; lia.
Qed.

(** Where the walk goes once the subtree of [i] is done. *)
Definition resume (fuel : nat) (complete i rank : Z) (prev : option (list byte)) : Result Z :=
  let node := climb 64 i in
  if node =? 1 then Ok rank else eytzinger_walk E v fuel complete (node / 2) rank prev.

Lemma walk_subtree H k i fuel rank prev :
  (H <= 63)%nat -> (k < H)%nat -> 1 <= i ->
  2 ^ Z.of_nat (H - S k) <= i < 2 * 2 ^ Z.of_nat (H - S k) ->
  let complete := 2 ^ Z.of_nat H - 1 in
  eytzinger_walk E v (length (inorder_nodes (S k) i) + fuel) complete (leftmost 64 complete i) rank prev =
  let? '(rank, prev) := visits (inorder_nodes (S k) i) rank prev in
  resume fuel complete i rank prev.
Proof.
  intros HH. revert i fuel rank prev; induction k as [|k IH]; intros i fuel rank prev Hk Hi Hr complete;
    subst complete.
  - rewrite (leftmost_spec 64 H 0) by lia. simpl (2 ^ Z.of_nat 0). rewrite Z.mul_1_r. simpl.
    destruct (eytzinger_visit E v i rank prev) as [p|e]; [cbn [rbind]|reflexivity].
    assert (2 * i > (2 ^ Z.of_nat H - 1)).
    { replace H with (S (H - 1)) at 1 by lia.
      rewrite Nat2Z.inj_succ, Z.pow_succ_r by lia. lia. }
    unfold inorder_next. destruct (Z.leb_spec (i * 2 + 1) (2 ^ Z.of_nat H - 1)); [lia|].
    unfold resume. now destruct (climb 64 i =? 1).
  - assert (2 ^ Z.of_nat (H - S k) = 2 * 2 ^ Z.of_nat (H - S (S k))) as Hp.
    { rewrite <- Z.pow_succ_r by lia. f_equal. lia. }
    assert (2 ^ Z.of_nat (H - S k) <= 2 ^ Z.of_nat H / 2) as Hhalf.
    { apply Z.div_le_lower_bound; [lia|]. rewrite <- Z.pow_succ_r by lia. apply Z.pow_le_mono_r; lia. }
    assert (leftmost 64 (2 ^ Z.of_nat H - 1) i = leftmost 64 (2 ^ Z.of_nat H - 1) (2 * i)) as ->.
    { rewrite (leftmost_spec 64 H (S k) i), (leftmost_spec 64 H k (2 * i)) by lia.
      rewrite Nat2Z.inj_succ, Z.pow_succ_r by lia. lia. }
    change (inorder_nodes (S (S k)) i) with
      (inorder_nodes (S k) (2 * i) ++ i :: inorder_nodes (S k) (2 * i + 1)).
    rewrite visits_app, length_app, <- Nat.add_assoc. rewrite IH by lia.
    destruct (visits (inorder_nodes (S k) (2 * i)) rank prev) as [[r1 p1]|e]; [|reflexivity].
    cbn [rbind]. unfold resume at 1. rewrite climb_even by lia.
    destruct (Z.eqb_spec (2 * i) 1); [lia|].
    replace (2 * i / 2) with i by (rewrite Z.mul_comm, Z.div_mul; lia).
    cbn [length Nat.add eytzinger_walk visits].
    destruct (eytzinger_visit E v i r1 p1) as [p2|e]; [cbn [rbind]|reflexivity].
    unfold inorder_next. replace (i * 2 + 1) with (2 * i + 1) by lia.
    destruct (Z.leb_spec (2 * i + 1) (2 ^ Z.of_nat H - 1)) as [Hle|Hgt].
    2:{ exfalso. pose proof (Z.mul_div_le (2 ^ Z.of_nat H) 2). lia. }
    rewrite IH by lia. destruct (visits _ _ p2) as [[r3 p3]|e]; [cbn [rbind]|reflexivity].
    unfold resume. rewrite climb_odd; [reflexivity|].
    split; [lia|]. assert (2 ^ Z.of_nat H <= 2 ^ 63) by (apply Z.pow_le_mono_r; lia). lia.
Qed.

Lemma walk_complete H :
  (1 <= H <= 63)%nat ->
  let complete := 2 ^ Z.of_nat H - 1 in
  eytzinger_walk E v (Z.to_nat complete) complete (leftmost 64 complete 1) 0 None =
  let? '(rank, _) := visits (inorder_nodes H 1) 0 None in Ok rank.
Proof.
  intros HH complete. destruct H as [|k]; [lia|].
  replace (Z.to_nat complete) with (length (inorder_nodes (S k) 1) + 0)%nat.
  2:{ pose proof (zlen_inorder_nodes (S k) 1) as Hz. unfold zlen in Hz. unfold complete. lia. }
  unfold complete. rewrite walk_subtree by (rewrite ?Nat.sub_diag; simpl; lia).
  destruct (visits _ _ _) as [[r p]|e]; reflexivity.
Qed.
End Walk.

Section CheckSound.
Context (E : KeyEncoding) `{HL : !LawfulEncoding E} `{!CheckableEncoding E}.
Context (v : PageView) (Hwf : PageView_wf v).

Definition follows (prev : option (list byte)) (keys : list (list byte)) : Prop :=
  StronglySorted (key_lt E) (option_list prev ++ keys).

Definition prev_ok (prev : option (list byte)) : Prop := forall p, prev = Some p -> key_ok p.

Lemma check_entry_inv index stored prev key :
  prev_ok prev -> check_entry E v index stored prev = Ok key ->
  entry_key v index = Ok key /\ key_ok key /\ stored = dig key /\
  forall p, prev = Some p -> ord p key = Lt.
Proof.
  intros Hprev H. unfold check_entry in H. inv_ok.
  match goal with H : check_stored_key E ?k = Ok ?u |- _ =>
    unfold check_stored_key in H; destruct u; inv_ok;
    pose proof (validated_ok k H) as Hok end.
  match goal with H : (if negb ?b then _ else _) = _ |- _ => destruct b; simpl in H end;
    [|unfold digest_mismatch in *; inv_ok].
  inv_ok. repeat split; auto using accepted_exact.
  intros p ->. specialize (Hprev p eq_refl).
  match goal with H : check_ascending E _ _ = _ |- _ => unfold check_ascending in H end. inv_ok.
  match goal with H : ke_compare E _ _ = Ok _ |- _ => rewrite compare_ok in H by assumption end. inv_ok.
  match goal with H : negb (cmp_eqb ?c Lt) = false |- _ => destruct c; simpl in H; congruence end.
Qed.

(** Putting a key in front of an ascending run. *)
Lemma follows_cons prev key keys :
  (forall p, prev = Some p -> ord p key = Lt) -> prev_ok prev -> key_ok key -> Forall key_ok keys ->
  follows (Some key) keys -> follows prev (key :: keys).
Proof.
  intros Hp Hpok Hk Hks Hf. destruct prev as [p|]; [|exact Hf]. unfold follows in *; simpl in *.
  specialize (Hp p eq_refl). specialize (Hpok p eq_refl).
  constructor; [exact Hf|]. apply StronglySorted_inv in Hf as [_ Hf].
  constructor; [exact Hp|]. rewrite Forall_forall in *. intros x Hx.
  apply (ord_trans E p key x); auto. rewrite (Hf x Hx : ord key x = Lt). congruence.
Qed.

(** The keys of [n] entries from [index] on, all checked. *)
Record checked_run (index : Z) (prev : option (list byte)) (keys : list (list byte)) : Prop := {
  cr_entry : forall j k, keys !! j = Some k -> entry_key v (index + Z.of_nat j) = Ok k;
  cr_ok : Forall key_ok keys;
  cr_follows : follows prev keys;
}.

Lemma checked_run_nil index prev : checked_run index prev [].
Proof.
  split; [discriminate | constructor |]. unfold follows. rewrite app_nil_r.
  destruct prev; repeat constructor.
Qed.

Lemma checked_run_cons index stored prev key keys :
  prev_ok prev -> check_entry E v index stored prev = Ok key ->
  checked_run (index + 1) (Some key) keys -> checked_run index prev (key :: keys).
Proof.
  intros Hp Hc [He Hok Hf]. apply check_entry_inv in Hc as (Hk & Hkey & _ & Hlt); [|assumption].
  split.
  - intros [|j] k Hj; simpl in Hj; [simplify_eq; now rewrite Z.add_0_r|].
    rewrite <- (He j k Hj). f_equal. lia.
  - now constructor.
  - now apply follows_cons.
Qed.

Lemma prev_ok_Some key : key_ok key -> prev_ok (Some key).
Proof. intros H p [= <-]. exact H. Qed.

Lemma check_keys_inv n index prev :
  prev_ok prev -> check_keys E v n index prev = Ok tt ->
  exists keys, length keys = n /\ checked_run index prev keys /\
    forall j k, keys !! j = Some k -> digest_at v (index + Z.of_nat j) = Ok (dig k).
Proof.
  revert index prev; induction n as [|n IH]; intros index prev Hp H; simpl in H; inv_ok.
  { exists []. split; [reflexivity|]. split; [apply checked_run_nil | discriminate]. }
  match goal with H : digest_at v index = Ok ?s, H' : check_entry _ _ _ _ _ = Ok ?k |- _ =>
    rename H into Hd; rename H' into Hc; rename s into stored; rename k into key end.
  pose proof (check_entry_inv _ _ _ _ Hp Hc) as (_ & Hk & Hdig & _). subst stored.
  match goal with H : check_keys _ _ _ _ _ = _ |- _ =>
    apply IH in H as (keys & Hl & Hr & Hds); [|now apply prev_ok_Some] end.
  exists (key :: keys). split; [simpl; congruence|]. split; [eapply checked_run_cons; eauto|].
  intros [|j] k Hj; simpl in Hj; [simplify_eq; now rewrite Z.add_0_r|].
  rewrite <- (Hds j k Hj). f_equal. lia.
Qed.

Lemma checked_run_page keys :
  omitted_keys (view_layout v) = false ->
  zlen keys = entry_count v -> checked_run 0 None keys ->
  (exists pad, sorted_digests v = (dig <$> keys) ++ replicate pad u64_max) ->
  sorted_page E v keys.
Proof.
  intros Hom Hc [He Hok Hf] Hd. split; auto.
  intros i k q Hi Hq. specialize (He i k Hi). rewrite Z.add_0_l in He.
  assert (key_ok k) by (eapply Forall_lookup_1; eauto).
  rewrite <- (compare_ok k q) by assumption. unfold compare_at, entry_key in *.
  destruct (view_kind v); [unfold compare_leaf | unfold compare_internal]; rewrite Hom;
    apply rbind_Ok_inv in He as (e & -> & Hk'); cbn [rbind]; now rewrite Hk'.
Qed.

Lemma digest_at_inv i d :
  0 <= i -> digest_at v i = Ok d -> eytzinger (view_layout v) = false /\ d = slot_digest v i.
Proof.
  intros Hi H. unfold digest_at in H. inv_ok. inv_reads. split; [assumption | now subst].
Qed.

Lemma sorted_digests_plain keys :
  eytzinger (view_layout v) = false -> zlen keys = entry_count v ->
  (forall j k, keys !! j = Some k -> digest_at v (0 + Z.of_nat j) = Ok (dig k)) ->
  exists pad, sorted_digests v = (dig <$> keys) ++ replicate pad u64_max.
Proof.
  intros Hey Hc Hd. exists 0%nat. simpl. rewrite app_nil_r. unfold sorted_digests. rewrite Hey.
  apply list_eq. intros j. rewrite !list_lookup_fmap.
  destruct (keys !! j) as [k|] eqn:Hj; simpl.
  - pose proof (lookup_lt_Some _ _ _ Hj). rewrite lookup_seqZ_lt by (unfold zlen in Hc; lia). simpl.
    specialize (Hd j k Hj). apply digest_at_inv in Hd as [_ ->]; [reflexivity | lia].
  - apply lookup_ge_None in Hj. rewrite lookup_seqZ_ge by (unfold zlen in Hc; lia). reflexivity.
Qed.

Lemma visits_inv nodes rank prev r p :
  prev_ok prev -> 0 <= rank ->
  Forall (fun n => 1 <= n <= digest_slot_count v) nodes ->
  visits E v nodes rank prev = Ok (r, p) ->
  r = rank + zlen nodes /\
  exists keys pad,
    (fun n => slot_digest v (n - 1)) <$> nodes = (dig <$> keys) ++ replicate pad u64_max /\
    zlen keys = Z.max 0 (Z.min (entry_count v - rank) (zlen nodes)) /\
    checked_run rank prev keys.
Proof.
  revert rank prev; induction nodes as [|n nodes IH]; intros rank prev Hp Hr Hn H; simpl in H; inv_ok.
  { split; [rewrite zlen_nil; lia|]. exists [], 0%nat.
    split; [reflexivity|]. split; [unfold zlen; simpl; lia | apply checked_run_nil]. }
  apply Forall_cons in Hn as [Hn Hns].
  match goal with H : eytzinger_visit _ _ _ _ _ = Ok _ |- _ => unfold eytzinger_visit in H;
    rewrite digest_slot_ok in H by (auto || lia); cbn [rbind] in H; rename H into Hv end.
  match goal with H : visits _ _ _ _ _ = _ |- _ => rename H into Hrest end.
  destruct (Z.ltb_spec rank (entry_count v)) as [Hlt|Hge]; inv_ok.
  - match goal with H : check_entry _ _ _ _ _ = Ok ?k |- _ => rename H into Hc; rename k into key end.
    pose proof (check_entry_inv _ _ _ _ Hp Hc) as (_ & Hk & Hdig & _).
    apply IH in Hrest as (-> & keys & pad & Hs & Hl & Hrun); [|now apply prev_ok_Some | lia | assumption].
    split; [rewrite zlen_cons; lia|]. exists (key :: keys), pad. rewrite !zlen_cons in *.
    pose proof (zlen_nonneg nodes).
    split; [rewrite !fmap_cons, Hs; cbv beta; now rewrite Hdig|]. split; [lia | eapply checked_run_cons; eauto].
  - bool_hyps.
    match goal with H : (slot_digest _ _ =? _) = true |- _ => apply Z.eqb_eq in H; rename H into Hmax end.
    apply IH in Hrest as (-> & keys & pad & Hs & Hl & Hrun); [|assumption | lia | assumption].
    split; [rewrite zlen_cons; lia|]. pose proof (zlen_nonneg nodes).
    assert (keys = []) as -> by (destruct keys; [reflexivity | rewrite zlen_cons in Hl; pose proof (zlen_nonneg keys); lia]).
    exists [], (S pad). rewrite zlen_nil, zlen_cons in *.
    split; [rewrite fmap_cons, Hs; cbv beta; now rewrite Hmax|]. split; [lia | apply checked_run_nil].
Qed.

Lemma inorder_nodes_lt h i n : 1 <= i -> n ∈ inorder_nodes (S h) i -> i <= n < (i + 1) * 2 ^ Z.of_nat h.
Proof.
  revert i; induction h as [|h IH]; intros i Hi Hn.
  - cbn [inorder_nodes app] in Hn. apply list_elem_of_singleton in Hn. simpl. lia.
  - change (inorder_nodes (S (S h)) i) with
      (inorder_nodes (S h) (2 * i) ++ i :: inorder_nodes (S h) (2 * i + 1)) in Hn.
    rewrite Nat2Z.inj_succ, Z.pow_succ_r by lia.
    assert (0 < 2 ^ Z.of_nat h) by (apply Z.pow_pos_nonneg; lia).
    rewrite elem_of_app, elem_of_cons in Hn. destruct Hn as [Hn|[->|Hn]];
      [apply IH in Hn; nia | nia | apply IH in Hn; nia].
Qed.

Lemma eytzinger_sound :
  eytzinger (view_layout v) = true -> check_eytzinger_digests E v = Ok tt ->
  exists keys, sorted_page E v keys /\
    forall j k, keys !! j = Some k -> entry_key v (Z.of_nat j) = Ok k.
Proof.
  intros Hey H. pose proof (vwf_count v Hwf) as Hcnt. pose proof (wf_digest_slot_count v Hwf) as Hd.
  assert (omitted_keys (view_layout v) = false) as Hom.
  { destruct (omitted_keys (view_layout v)) eqn:Ho; [|reflexivity].
    destruct (vwf_omitted v Hwf Ho). congruence. }
  unfold digest_slots in Hd. rewrite Hey in Hd. rewrite complete_size_spec in Hd by fmt_lia.
  set (H0 := Z.to_nat (Z.log2_up (entry_count v + 1))) in *.
  pose proof (Z.log2_up_nonneg (entry_count v + 1)) as Hnn.
  assert (Z.log2_up (entry_count v + 1) = Z.of_nat H0) as HH by (unfold H0; lia).
  rewrite HH in Hd.
  assert (H0 <= 63)%nat by (assert (Z.log2_up (entry_count v + 1) <= 63)
    by (apply Z.log2_up_le_pow2; fmt_lia); lia).
  assert (forall keys, checked_run 0 None keys -> forall j k, keys !! j = Some k ->
    entry_key v (Z.of_nat j) = Ok k) as Hkeys
    by (intros keys Hr j k Hj; rewrite <- (cr_entry _ _ _ Hr j k Hj); f_equal; lia).
  assert (sorted_digests v = (fun n => slot_digest v (n - 1)) <$> inorder_nodes H0 1) as Hsd
    by (unfold sorted_digests; now rewrite Hey).
  unfold check_eytzinger_digests in H. destruct (Z.eqb_spec (digest_slot_count v) 0) as [Hz|Hz].
  - exists []. assert (H0 = 0%nat) as Hz0.
    { destruct H0 as [|h]; [reflexivity|]. rewrite Nat2Z.inj_succ, Z.pow_succ_r in Hd by lia.
      assert (0 < 2 ^ Z.of_nat h) by (apply Z.pow_pos_nonneg; lia). lia. }
    assert (entry_count v = 0).
    { pose proof (wf_slots_in_page v Hwf). lia. }
    split; [|discriminate]. apply checked_run_page; auto using checked_run_nil.
    exists 0%nat. now rewrite Hsd, Hz0.
  - assert (1 <= H0)%nat by (destruct H0; [simpl in Hd; lia | lia]).
    rewrite Hd, walk_complete in H by lia. inv_ok.
    match goal with H : visits _ _ _ _ _ = Ok ?x |- _ => destruct x as [r p]; rename H into Hv end. inv_ok.
    apply visits_inv in Hv as (Hr & keys & pad & Hs & Hl & Hrun); [| |lia|].
    + exists keys. split; [|now apply Hkeys]. apply checked_run_page; auto.
      * rewrite Hl, zlen_inorder_nodes. pose proof (wf_slots_in_page v Hwf). lia.
      * exists pad. now rewrite Hsd.
    + discriminate.
    + apply Forall_forall. intros n Hn. rewrite Hd. destruct H0 as [|h]; [lia|].
      apply inorder_nodes_lt in Hn; [|lia]. rewrite Nat2Z.inj_succ, Z.pow_succ_r by lia. lia.
Qed.

(** On a page without key bytes the digests stand for the keys. *)
Lemma dig_compare a b :
  ke_is_digest_exact E = true -> key_ok a -> key_ok b -> (dig a ?= dig b) = ord a b.
Proof.
  intros Hex Ha Hb. destruct (Z.compare_spec (dig a) (dig b)) as [He|Hlt|Hgt]; symmetry.
  - rewrite (dig_exact a b Hex Ha Hb He). now apply (ord_refl E).
  - now apply (dig_lt_ord E).
  - apply (ord_lt_gt E b a); auto. now apply (dig_lt_ord E).
Qed.

Lemma check_omitted_inv n index prev :
  ke_is_digest_exact E = true -> (forall d, 0 <= d <= u64_max -> exists key, key_ok key /\ dig key = d) ->
  prev_ok prev -> 0 <= index ->
  check_omitted v true n index (dig <$> prev) = Ok tt ->
  exists keys, length keys = n /\ Forall key_ok keys /\ follows prev keys /\
    forall j k, keys !! j = Some k -> digest_at v (index + Z.of_nat j) = Ok (dig k).
Proof.
  intros Hex Hall. revert index prev; induction n as [|n IH]; intros index prev Hp Hi H; simpl in H; inv_ok.
  { exists []. repeat split; [constructor | | discriminate]. unfold follows. rewrite app_nil_r.
    destruct prev; repeat constructor. }
  match goal with H : digest_at v index = Ok ?s |- _ => rename H into Hd; rename s into stored end.
  pose proof (digest_at_inv _ _ Hi Hd) as [_ Hslot].
  destruct (Hall stored) as (key & Hk & Hkd); [rewrite Hslot; apply slot_digest_bound|].
  subst stored. rewrite <- Hkd in *.
  match goal with H : check_omitted _ _ _ _ _ = _ |- _ =>
    apply (IH _ (Some key)) in H as (keys & Hl & Hok & Hf & Hds); [|now apply prev_ok_Some | lia] end.
  exists (key :: keys). split; [simpl; congruence|]. split; [now constructor|]. split.
  - apply follows_cons; auto. intros p ->. simpl in G. bool_hyps. apply (dig_lt_ord E); auto; lia.
  - intros [|j] k Hj; simpl in Hj; [simplify_eq; now rewrite Z.add_0_r|].
    rewrite <- (Hds j k Hj). f_equal. lia.
Qed.

Lemma omitted_sound :
  eytzinger (view_layout v) = false -> omitted_keys (view_layout v) = true ->
  check_digests E v = Ok tt -> exists keys, sorted_page E v keys.
Proof.
  intros Hey Hom H. unfold check_digests in H. rewrite Hey, Hom in H. inv_ok.
  match goal with H : rebuilt_key_capacity E = Ok _ |- _ => unfold rebuilt_key_capacity in H; inv_ok;
    apply rebuilds_all in H as [Hex Hall] end.
  rewrite Hex in H. pose proof (vwf_count v Hwf).
  apply (check_omitted_inv _ _ None) in H as (keys & Hl & Hok & Hf & Hds); auto; [|discriminate|lia].
  assert (zlen keys = entry_count v) as Hc by (unfold zlen; lia).
  exists keys. split; auto.
  - intros i k q Hi Hq. specialize (Hds i k Hi). rewrite Z.add_0_l in Hds.
    assert (key_ok k) by (eapply Forall_lookup_1; eauto).
    unfold compare_at. destruct (view_kind v); [unfold compare_leaf | unfold compare_internal];
      rewrite Hom, Hds; cbn [rbind]; f_equal; now apply dig_compare.
  - now apply sorted_digests_plain.
Qed.

Lemma check_digests_sorted :
  check_digests E v = Ok tt ->
  exists keys, sorted_page E v keys /\
    (omitted_keys (view_layout v) = false ->
     forall j k, keys !! j = Some k -> entry_key v (Z.of_nat j) = Ok k).
Proof.
  intros H. destruct (eytzinger (view_layout v)) eqn:Hey; [|destruct (omitted_keys (view_layout v)) eqn:Hom].
  - unfold check_digests in H. rewrite Hey in H. apply eytzinger_sound in H as (keys & Hp & He); [|assumption].
    exists keys. split; [exact Hp | intros _; exact He].
  - destruct (omitted_sound Hey Hom H) as [keys Hk]. exists keys. split; [exact Hk | congruence].
  - unfold check_digests in H. rewrite Hey, Hom in H. pose proof (vwf_count v Hwf).
    apply check_keys_inv in H as (keys & Hl & Hrun & Hds); [|discriminate].
    assert (zlen keys = entry_count v) as Hc by (unfold zlen; lia).
    exists keys. split.
    + apply checked_run_page; auto. now apply sorted_digests_plain.
    + intros _ j k Hj. rewrite <- (cr_entry _ _ _ Hrun j k Hj). reflexivity.
Qed.
End CheckSound.

(** * The check accepts every sorted page *)

(** What a writer relies on: the check takes the digests the encoding itself
    produced, and can size a rebuilt key. *)
Class WritableEncoding (E : KeyEncoding) `{!LawfulEncoding E} : Prop := {
  own_digest_accepted : forall key, key_ok key -> ke_accepts_digest E key (dig key) = Ok true;
  exact_rebuilds : ke_is_digest_exact E = true -> exists n, ke_max_rebuilt_key_len E = Some n;
}.

Section CheckComplete.
Context (E : KeyEncoding) `{HL : !LawfulEncoding E} `{!WritableEncoding E}.
Context (v : PageView) (keys : list (list byte)) (Hp : sorted_page E v keys).
Context (Hvalid : Forall (fun k => validate_key E k = Ok tt) keys).
Context (Hentry : omitted_keys (view_layout v) = false ->
  forall j k, keys !! j = Some k -> entry_key v (Z.of_nat j) = Ok k).

(** The key before position [j], if it is still to be compared with. *)
Definition before (prev : option (list byte)) (j : nat) : Prop :=
  forall p k, prev = Some p -> keys !! j = Some k -> key_ok p /\ ord p k = Lt.

Lemma before_next j k : keys !! j = Some k -> before (Some k) (S j).
Proof.
  intros Hj p k' [= <-] Hk'. pose proof (sp_ok _ _ _ Hp) as Hok. rewrite Forall_lookup in Hok.
  split; [eauto|]. apply (StronglySorted_lookup_lt (key_lt E) keys j (S j)); auto. apply (sp_ascending _ _ _ Hp).
Qed.

Lemma check_entry_ok j k prev :
  omitted_keys (view_layout v) = false -> keys !! j = Some k -> before prev j ->
  check_entry E v (Z.of_nat j) (dig k) prev = Ok k.
Proof.
  intros Hom Hj Hb. pose proof (sp_ok _ _ _ Hp) as Hok. rewrite Forall_lookup in Hok.
  unfold check_entry, check_stored_key. rewrite (Hentry Hom j k Hj). cbn [rbind].
  rewrite (Forall_lookup_1 _ _ _ _ Hvalid Hj). cbn [map_err rbind].
  rewrite own_digest_accepted by eauto. cbn [rbind negb].
  destruct prev as [p|]; [|reflexivity]. destruct (Hb p k eq_refl Hj) as [Hpk Hlt].
  unfold check_ascending. rewrite compare_ok by eauto. cbn [rbind]. now rewrite Hlt.
Qed.

Lemma sorted_digest_lookup j k : keys !! j = Some k -> sorted_digests v !! j = Some (dig k).
Proof.
  intros Hj. destruct (sp_digests _ _ _ Hp) as [pad Hd]. rewrite Hd, lookup_app_l.
  - now rewrite list_lookup_fmap, Hj.
  - rewrite length_fmap. now apply lookup_lt_Some in Hj.
Qed.

Lemma plain_digest_at j k :
  eytzinger (view_layout v) = false -> keys !! j = Some k -> digest_at v (Z.of_nat j) = Ok (dig k).
Proof.
  intros Hey Hj. pose proof (sp_wf _ _ _ Hp) as Hwf. pose proof (sp_count _ _ _ Hp) as Hc.
  pose proof (lookup_lt_Some _ _ _ Hj) as Hlt. pose proof (wf_slots_in_page v Hwf) as (Hs & _).
  pose proof (digest_slot_ok v (Z.of_nat j) Hwf ltac:(unfold zlen in *; lia)) as Hd.
  unfold digest_slot in Hd. rewrite (proj2 (Z.leb_gt _ _)) in Hd by (unfold zlen in *; lia).
  unfold digest_at. rewrite Hey, (proj2 (Z.leb_gt _ _)), Hd by (unfold zlen in *; lia). f_equal.
  pose proof (sorted_digest_lookup j k Hj) as Hsd. unfold sorted_digests in Hsd. rewrite Hey in Hsd.
  rewrite list_lookup_fmap, lookup_seqZ_lt in Hsd by (unfold zlen in *; lia). simpl in Hsd.
  now injection Hsd as <-.
Qed.

Lemma check_keys_ok n j prev :
  eytzinger (view_layout v) = false -> omitted_keys (view_layout v) = false ->
  (n + j = length keys)%nat -> before prev j -> check_keys E v n (Z.of_nat j) prev = Ok tt.
Proof.
  intros Hey Hom. revert j prev; induction n as [|n IH]; intros j prev Hn Hb; [reflexivity|].
  cbn [check_keys]. destruct (lookup_lt_is_Some_2 keys j) as [k Hj]; [lia|].
  rewrite (plain_digest_at j k Hey Hj). cbn [rbind]. rewrite (check_entry_ok j k prev Hom Hj Hb).
  cbn [rbind]. replace (Z.of_nat j + 1) with (Z.of_nat (S j)) by lia.
  apply IH; [lia | now apply before_next].
Qed.

Lemma check_omitted_ok n j prev :
  eytzinger (view_layout v) = false -> ke_is_digest_exact E = true ->
  (n + j = length keys)%nat -> before prev j ->
  check_omitted v true n (Z.of_nat j) (dig <$> prev) = Ok tt.
Proof.
  intros Hey Hex. pose proof (sp_ok _ _ _ Hp) as Hok. rewrite Forall_lookup in Hok.
  revert j prev; induction n as [|n IH]; intros j prev Hn Hb; [reflexivity|].
  cbn [check_omitted]. destruct (lookup_lt_is_Some_2 keys j) as [k Hj]; [lia|].
  rewrite (plain_digest_at j k Hey Hj). cbn [rbind].
  assert (match dig <$> prev with
          | Some previous => (dig k <? previous) || (true && (dig k =? previous))
          | None => false
          end = false) as ->.
  { destruct prev as [p|]; [|reflexivity]. simpl. destruct (Hb p k eq_refl Hj) as [Hpk Hlt].
    pose proof (dig_compare E p k Hex Hpk (Hok _ _ Hj)) as Hcmp. rewrite Hlt in Hcmp.
    rewrite Z.compare_lt_iff in Hcmp. apply orb_false_iff. split; [apply Z.ltb_ge | apply Z.eqb_neq]; lia. }
  replace (Z.of_nat j + 1) with (Z.of_nat (S j)) by lia.
  apply (IH (S j) (Some k)); [lia | now apply before_next].
Qed.

Lemma visits_ok nodes j prev :
  omitted_keys (view_layout v) = false ->
  Forall (fun n => 1 <= n <= digest_slot_count v) nodes ->
  (forall i n, nodes !! i = Some n ->
     slot_digest v (n - 1) = match keys !! (j + i)%nat with Some k => dig k | None => u64_max end) ->
  before prev j ->
  exists p, visits E v nodes (Z.of_nat j) prev = Ok (Z.of_nat (j + length nodes), p).
Proof.
  intros Hom. revert j prev; induction nodes as [|n nodes IH]; intros j prev Hn Hd Hb.
  { exists prev. simpl. do 3 f_equal. lia. }
  apply Forall_cons in Hn as [Hn Hns]. pose proof (sp_count _ _ _ Hp) as Hc.
  pose proof (Hd 0%nat n eq_refl) as Hd0. rewrite Nat.add_0_r in Hd0.
  assert (forall i n', nodes !! i = Some n' -> slot_digest v (n' - 1) =
    match keys !! (S j + i)%nat with Some k => dig k | None => u64_max end) as Hd'.
  { intros i n' Hi. replace (S j + i)%nat with (j + S i)%nat by lia. now apply Hd. }
  cbn [visits]. unfold eytzinger_visit. rewrite digest_slot_ok by (apply (sp_wf _ _ _ Hp) || lia).
  cbn [rbind]. replace (Z.of_nat (j + length (n :: nodes))) with (Z.of_nat (S j + length nodes)) by (simpl; lia).
  replace (Z.of_nat j + 1) with (Z.of_nat (S j)) by lia.
  destruct (keys !! j) as [k|] eqn:Hj.
  - pose proof (lookup_lt_Some _ _ _ Hj). rewrite (proj2 (Z.ltb_lt _ _)) by (unfold zlen in *; lia).
    rewrite Hd0, (check_entry_ok j k prev Hom Hj Hb). cbn [rbind].
    apply IH; [assumption | exact Hd' | now apply before_next].
  - apply lookup_ge_None in Hj. rewrite (proj2 (Z.ltb_ge _ _)) by (unfold zlen in *; lia).
    rewrite Hd0. cbn [rbind]. rewrite Z.eqb_refl. cbn [negb rbind].
    apply IH; [assumption | exact Hd' |]. intros p k _ Hk. apply lookup_lt_Some in Hk. lia.
Qed.

Lemma check_eytzinger_ok :
  eytzinger (view_layout v) = true -> omitted_keys (view_layout v) = false ->
  check_eytzinger_digests E v = Ok tt.
Proof.
  intros Hey Hom. pose proof (sp_wf _ _ _ Hp) as Hwf. pose proof (sp_count _ _ _ Hp) as Hc.
  pose proof (vwf_count v Hwf) as Hcount. pose proof (wf_slots_in_page v Hwf) as (Hle & _).
  pose proof (wf_digest_slot_count v Hwf) as Hs. unfold digest_slots in Hs. rewrite Hey in Hs.
  assert (entry_count v < 2 ^ 63) by fmt_lia. rewrite complete_size_spec in Hs by lia.
  set (h := Z.to_nat (Z.log2_up (entry_count v + 1))).
  assert (Z.log2_up (entry_count v + 1) <= 63) by (apply Z.log2_up_le_pow2; lia).
  pose proof (Z.log2_up_nonneg (entry_count v + 1)).
  replace (Z.log2_up (entry_count v + 1)) with (Z.of_nat h) in Hs by (unfold h; lia).
  unfold check_eytzinger_digests. destruct (Z.eqb_spec (digest_slot_count v) 0) as [|Hne]; [reflexivity|].
  assert (1 <= h <= 63)%nat as Hh.
  { split; [|unfold h; lia]. destruct h; [simpl in Hs; lia | lia]. }
  rewrite Hs. rewrite (walk_complete E v h Hh).
  destruct (visits_ok (inorder_nodes h 1) 0 None Hom) as [p Hv].
  - apply Forall_forall. intros n Hn. rewrite Hs. apply inorder_nodes_depth in Hn as (d & Hd & Hlo & Hhi).
    assert (0 < 2 ^ Z.of_nat d) by (apply Z.pow_pos_nonneg; lia).
    assert (2 * 2 ^ Z.of_nat d <= 2 ^ Z.of_nat h).
    { rewrite <- Z.pow_succ_r by lia. apply Z.pow_le_mono_r; lia. }
    lia.
  - intros i n Hi. rewrite Nat.add_0_l.
    assert (sorted_digests v !! i = Some (slot_digest v (n - 1))) as Hsd.
    { unfold sorted_digests. rewrite Hey. fold h. now rewrite list_lookup_fmap, Hi. }
    destruct (keys !! i) as [k|] eqn:Hk.
    + rewrite (sorted_digest_lookup i k Hk) in Hsd. now injection Hsd as <-.
    + destruct (sp_digests _ _ _ Hp) as [pad Hd]. rewrite Hd, lookup_app_r in Hsd
        by (rewrite length_fmap; now apply lookup_ge_None in Hk).
      apply lookup_replicate in Hsd. apply Hsd.
  - intros p k [=].
  - change (Z.of_nat 0) with 0 in Hv. rewrite Hv. cbn [rbind]. pose proof (zlen_inorder_nodes h 1) as Hz. unfold zlen in Hz.
    rewrite Nat.add_0_l, Hz, Z.eqb_refl. reflexivity.
Qed.

Lemma check_digests_ok :
  (omitted_keys (view_layout v) = true -> ke_is_digest_exact E = true) -> check_digests E v = Ok tt.
Proof.
  intros Hex. pose proof (sp_wf _ _ _ Hp) as Hwf. pose proof (sp_count _ _ _ Hp) as Hc.
  assert (Z.to_nat (entry_count v) + 0 = length keys)%nat as Hn by (unfold zlen in Hc; lia).
  unfold check_digests. destruct (bool_split (omitted_keys (view_layout v))) as [Hom|Hom]; rewrite Hom.
  - destruct (vwf_omitted v Hwf Hom) as [_ Hey]. rewrite Hey. specialize (Hex Hom).
    unfold rebuilt_key_capacity. destruct (exact_rebuilds Hex) as [n ->]. cbn [ok_or rbind].
    rewrite Hex. apply (check_omitted_ok _ 0 None Hey Hex Hn). intros p k [=].
  - destruct (eytzinger (view_layout v)) eqn:Hey; [now apply check_eytzinger_ok|].
    apply (check_keys_ok _ 0 None Hey Hom Hn). intros p k [=].
Qed.
End CheckComplete.

(** * The built-in encodings can be checked *)

Lemma default_accepts_exact (E : KeyEncoding) `{!LawfulEncoding E} key stored :
  ke_accepts_digest E = default_accepts_digest (ke_digest E) ->
  key_ok key -> ke_accepts_digest E key stored = Ok true -> stored = dig key.
Proof.
  intros -> Hk. unfold default_accepts_digest. rewrite digest_ok by assumption. cbn [rbind].
  intros [= H]. lia.
Qed.

#[export] Instance Ascii_checkable : CheckableEncoding AsciiEncoding.
Proof.
  split; [exact (fun _ _ => I) | | discriminate]. intros. now apply default_accepts_exact.
Qed.

#[export] Instance Ulid_checkable : CheckableEncoding UlidEncoding.
Proof.
  split; [exact (fun _ _ => I) | | discriminate]. intros. now apply default_accepts_exact.
Qed.

#[export] Instance Uuidv7_checkable : CheckableEncoding Uuidv7Encoding.
Proof.
  split; [|intros; now apply default_accepts_exact | discriminate].
  unfold validate_key; simpl; intros key H; inv_ok. bool_lia.
Qed.

#[export] Instance Int64_checkable : CheckableEncoding Int64Encoding.
Proof.
  split; [|intros; now apply default_accepts_exact |].
  - unfold validate_key; simpl; intros key H; inv_ok. bool_lia.
  - intros n _. split; [reflexivity|]. intros d Hd. exists (Int64_encode (d - 2 ^ 63)).
    unfold u64_max in Hd. split; [apply zlen_i64_le|]. simpl. unfold i64_of, Int64_encode.
    rewrite swrap_i64_le by lia. lia.
Qed.

Lemma default_accepts_own (E : KeyEncoding) `{!LawfulEncoding E} key :
  ke_accepts_digest E = default_accepts_digest (ke_digest E) ->
  key_ok key -> ke_accepts_digest E key (dig key) = Ok true.
Proof.
  intros -> Hk. unfold default_accepts_digest. rewrite digest_ok by assumption. cbn [rbind].
  now rewrite Z.eqb_refl.
Qed.

#[export] Instance Ascii_writable : WritableEncoding AsciiEncoding.
Proof. split; [intros; now apply default_accepts_own | discriminate]. Qed.

#[export] Instance Ulid_writable : WritableEncoding UlidEncoding.
Proof. split; [intros; now apply default_accepts_own | discriminate]. Qed.

#[export] Instance Uuidv7_writable : WritableEncoding Uuidv7Encoding.
Proof. split; [intros; now apply default_accepts_own | discriminate]. Qed.

#[export] Instance Int64_writable : WritableEncoding Int64Encoding.
Proof. split; [intros; now apply default_accepts_own | intros _; eexists; reflexivity]. Qed.

Lemma builtin_writable id E :
  builtin id = Some E ->
  exists HL : LawfulEncoding E, @WritableEncoding E HL /\
    forall key, validate_key E key = Ok tt -> @key_ok E HL key.
Proof.
  unfold builtin. intros HE.
  destruct (String.eqb id "i64"); [|destruct (String.eqb id "ascii");
    [|destruct (String.eqb id "uuidv7"); [|destruct (String.eqb id "ulid"); [|discriminate]]]];
    injection HE as <-.
  - exists Int64_lawful. split; [apply Int64_writable | apply validated_ok].
  - exists Ascii_lawful. split; [apply Ascii_writable | apply validated_ok].
  - exists Uuidv7_lawful. split; [apply Uuidv7_writable | apply validated_ok].
  - exists Ulid_lawful. split; [apply Ulid_writable | apply validated_ok].
Qed.

Lemma builtin_checkable id E :
  builtin id = Some E ->
  exists HL : LawfulEncoding E, @CheckableEncoding E HL /\
    forall key, validate_key E key = Ok tt -> @key_ok E HL key.
Proof.
  unfold builtin. intros HE.
  destruct (String.eqb id "i64"); [|destruct (String.eqb id "ascii");
    [|destruct (String.eqb id "uuidv7"); [|destruct (String.eqb id "ulid"); [|discriminate]]]];
    injection HE as <-.
  - exists Int64_lawful. split; [apply Int64_checkable | apply validated_ok].
  - exists Ascii_lawful. split; [apply Ascii_checkable | apply validated_ok].
  - exists Uuidv7_lawful. split; [apply Uuidv7_checkable | apply validated_ok].
  - exists Ulid_lawful. split; [apply Ulid_checkable | apply validated_ok].
Qed.

Section Claims.
Context (E : KeyEncoding) `{HL : !LawfulEncoding E}.

Lemma omitted_rebuild v keys j k buf :
  sorted_page E v keys -> ke_is_digest_exact E = true -> omitted_keys (view_layout v) = true ->
  keys !! j = Some k -> rebuild_key E v (Z.of_nat j) buf = Ok (Some k).
Proof.
  intros Hp Hex Hom Hj. pose proof (sp_wf _ _ _ Hp) as Hwf. pose proof (sp_count _ _ _ Hp) as Hc.
  pose proof (sp_ok _ _ _ Hp) as Hok. rewrite Forall_lookup in Hok. specialize (Hok j k Hj).
  destruct (vwf_omitted v Hwf Hom) as [_ Hey]. destruct (sp_digests _ _ _ Hp) as [pad Hd].
  pose proof (lookup_lt_Some _ _ _ Hj) as Hlt.
  assert (slot_digest v (Z.of_nat j) = dig k) as Hs.
  { assert (sorted_digests v !! j = Some (dig k)) as Hl
      by (rewrite Hd, lookup_app_l, list_lookup_fmap, Hj; [reflexivity | now rewrite length_fmap]).
    unfold sorted_digests in Hl. rewrite Hey, list_lookup_fmap in Hl.
    rewrite lookup_seqZ_lt, Z.add_0_l in Hl by (unfold zlen in Hc; lia).
    injection Hl as Hl. exact Hl. }
  unfold rebuild_key. rewrite Hom. simpl negb. cbv iota. unfold digest_at. rewrite Hey.
  destruct (Z.leb_spec (entry_count v) (Z.of_nat j)); [unfold zlen in Hc; lia|].
  pose proof (wf_slots_in_page v Hwf). pose proof (vwf_areas v Hwf). pose proof (vwf_len v Hwf).
  unfold read_u64. rewrite read_le_ok by (unfold zlen in *; fmt_lia). fold (slot_digest v (Z.of_nat j)).
  cbn [rbind]. rewrite Hs. destruct (rebuild_exact k buf Hex Hok) as [-> _]. reflexivity.
Qed.

(** [leaf_ref] in terms of the encoding's own comparison. *)
Lemma leaf_ref_spec op q keys :
  Forall key_ok keys -> key_ok q ->
  match leaf_ref E op q keys with
  | Some i => 0 <= i /\ exists k c, keys !! Z.to_nat i = Some k /\
      ke_compare E k q = Ok c /\ op_holds op c = true /\
      forall j k', keys !! j = Some k' -> Z.of_nat j < i ->
        exists c', ke_compare E k' q = Ok c' /\ op_holds op c' = false
  | None => forall k, k ∈ keys -> exists c, ke_compare E k q = Ok c /\ op_holds op c = false
  end.
Proof.
  intros Hok Hq. unfold leaf_ref. rewrite Forall_lookup in Hok.
  destruct (first_index _ keys 0) as [i|] eqn:Hf.
  - apply first_index_Some in Hf as (Hi & k & Hk & HP & Hb). rewrite Z.sub_0_r in *.
    split; [lia|]. exists k, (ord k q). rewrite compare_ok by eauto. repeat split; auto.
    intros j k' Hj Hlt. exists (ord k' q). rewrite compare_ok by eauto. eauto.
  - rewrite first_index_None in Hf. intros k Hk. exists (ord k q).
    apply list_elem_of_lookup in Hk as Hk'. destruct Hk' as [j Hj].
    rewrite compare_ok by eauto. auto.
Qed.

Lemma ascending_spec v keys :
  sorted_page E v keys ->
  forall i j a b, keys !! i = Some a -> keys !! j = Some b -> (i < j)%nat -> ke_compare E a b = Ok Lt.
Proof.
  intros Hp i j a b Hi Hj Hlt. pose proof (sp_ok _ _ _ Hp) as Hok. rewrite Forall_lookup in Hok.
  rewrite compare_ok by eauto. f_equal.
  exact (StronglySorted_lookup_lt _ _ _ _ _ _ (sp_ascending _ _ _ Hp) Hi Hj Hlt).
Qed.

Lemma child_ref_spec q keys :
  Forall key_ok keys -> key_ok q -> StronglySorted (key_lt E) keys -> keys <> [] ->
  let i := child_ref E q keys in
  0 <= i < zlen keys /\
  (forall j k, keys !! j = Some k -> 0 < Z.of_nat j <= i -> ord k q <> Gt) /\
  (forall j k, keys !! j = Some k -> i < Z.of_nat j -> ord k q = Gt).
Proof.
  intros Hok Hq Hs Hne i. unfold i, child_ref.
  assert (0 < zlen keys) by (destruct keys; [congruence | rewrite zlen_cons; pose proof (zlen_nonneg keys); lia]).
  assert (forall j k, keys !! j = Some k -> Z.of_nat j < not_above E q keys <-> ord k q <> Gt) as Hna.
  { clear - Hok Hq Hs HL. induction keys as [|x keys IH]; intros j k Hj; [discriminate|].
    apply Forall_cons in Hok as Hok'. destruct Hok' as [Hx Hoks].
    apply StronglySorted_inv in Hs as Hs'. destruct Hs' as [Hss Hlt].
    rewrite not_above_cons. destruct (ord x q) eqn:Ho; simpl cmp_eqb; cbv iota.
    - destruct j as [|j]; simpl in Hj.
      + simplify_eq. rewrite Ho. unfold not_above. pose proof (zlen_nonneg (filter (fun k => ord k q <> Gt) keys)).
        split; [congruence | lia].
      + rewrite <- (IH Hoks Hss j k Hj). lia.
    - destruct j as [|j]; simpl in Hj.
      + simplify_eq. rewrite Ho. unfold not_above. pose proof (zlen_nonneg (filter (fun k => ord k q <> Gt) keys)).
        split; [congruence | lia].
      + rewrite <- (IH Hoks Hss j k Hj). lia.
    - pose proof (ascending_above E q x keys Hok Hq Hs ltac:(congruence)) as Hab.
      rewrite (not_above_none E q keys Hab). split; [lia|]. intros Hng. exfalso. apply Hng.
      destruct j as [|j]; simpl in Hj; [now simplify_eq|].
      apply Hab, list_elem_of_lookup. eauto. }
  assert (0 <= not_above E q keys <= zlen keys).
  { unfold not_above. split; [apply zlen_nonneg|]. unfold zlen.
    pose proof (length_filter (fun k => ord k q <> Gt) keys). lia. }
  split; [lia|]. split; intros j k Hj Hlt.
  - apply Hna in Hj. apply Hj. lia.
  - destruct (ord k q) eqn:Ho; [| |reflexivity]; exfalso;
      assert (Z.of_nat j < not_above E q keys) by (apply (Hna j k Hj); congruence); lia.
Qed.
End Claims.

Lemma checked_omitted_exact (E : KeyEncoding) `{HL : !LawfulEncoding E} `{!CheckableEncoding E} v :
  PageView_wf v -> check_digests E v = Ok tt -> omitted_keys (view_layout v) = true ->
  ke_is_digest_exact E = true.
Proof.
  intros Hwf H Hom. unfold check_digests in H. destruct (vwf_omitted v Hwf Hom) as [_ Hey].
  rewrite Hey, Hom in H. inv_ok.
  match goal with H : rebuilt_key_capacity E = Ok _ |- _ =>
    unfold rebuilt_key_capacity in H; inv_ok; now apply rebuilds_all in H end.
Qed.

(** On a leaf that passed the digest check, searches are exact under every
    built-in encoding.  The page holds a strictly ascending list of keys, readable
    from the page or rebuilt from its digests; [leaf_search] returns the first
    entry that equals, is not below, or is above the key, and [None] only when no
    entry does.  It never fails. *)
Theorem checked_leaf_search id E bytes v q d op :
  builtin id = Some E -> PageView_parse bytes = Ok v -> view_kind v = Leaf ->
  check_digests E v = Ok tt -> validate_key E q = Ok tt -> ke_digest E q = Ok d ->
  exists keys, zlen keys = entry_count v /\
    (forall j k, keys !! j = Some k ->
       if omitted_keys (view_layout v)
       then forall buf, rebuild_key E v (Z.of_nat j) buf = Ok (Some k)
       else entry_key v (Z.of_nat j) = Ok k) /\
    (forall i j a b, keys !! i = Some a -> keys !! j = Some b -> (i < j)%nat ->
       ke_compare E a b = Ok Lt) /\
    match leaf_search E v q d op with
    | Ok (Some i) => 0 <= i /\ exists k c, keys !! Z.to_nat i = Some k /\
        ke_compare E k q = Ok c /\ op_holds op c = true /\
        forall j k', keys !! j = Some k' -> Z.of_nat j < i ->
          exists c', ke_compare E k' q = Ok c' /\ op_holds op c' = false
    | Ok None => forall k, k ∈ keys -> exists c, ke_compare E k q = Ok c /\ op_holds op c = false
    | Err _ => False
    end.
Proof.
  intros HE Hparse Hkind Hcheck Hq Hd. destruct (builtin_checkable id E HE) as (HL & HC & Hok).
  apply PageView_parse_wf in Hparse as [Hwf _].
  destruct (@check_digests_sorted E HL HC v Hwf Hcheck) as (keys & Hp & Hk).
  specialize (Hok q Hq). rewrite digest_ok in Hd by assumption. injection Hd as <-.
  exists keys. split; [apply (sp_count _ _ _ Hp)|]. split; [|split].
  - intros j k Hj. destruct (omitted_keys (view_layout v)) eqn:Hom; [|now apply Hk].
    intros buf. eapply omitted_rebuild; eauto. eapply checked_omitted_exact; eauto.
  - eapply ascending_spec; eauto.
  - rewrite (leaf_search_ref E v keys q op Hp Hkind Hok).
    apply leaf_ref_spec; [apply (sp_ok _ _ _ Hp) | assumption].
Qed.

(** On an internal page that passed the digest check, the descent takes the
    last child whose separator is not above the key, or the first child when every
    separator is above it, and is never conservative. *)
Theorem checked_child_index id E bytes v q d :
  builtin id = Some E -> PageView_parse bytes = Ok v -> view_kind v = Internal ->
  check_digests E v = Ok tt -> validate_key E q = Ok tt -> ke_digest E q = Ok d ->
  0 < entry_count v ->
  exists keys i, zlen keys = entry_count v /\
    internal_child_index E v q d = Ok (i, false) /\ 0 <= i < entry_count v /\
    (forall j k, keys !! j = Some k -> 0 < Z.of_nat j <= i -> ke_compare E k q <> Ok Gt) /\
    (forall j k, keys !! j = Some k -> i < Z.of_nat j -> ke_compare E k q = Ok Gt) /\
    (omitted_keys (view_layout v) = false ->
     forall j k, keys !! j = Some k -> entry_key v (Z.of_nat j) = Ok k).
Proof.
  intros HE Hparse Hkind Hcheck Hq Hd Hpos. destruct (builtin_checkable id E HE) as (HL & HC & Hok).
  apply PageView_parse_wf in Hparse as [Hwf _].
  destruct (@check_digests_sorted E HL HC v Hwf Hcheck) as (keys & Hp & Hk).
  specialize (Hok q Hq). rewrite digest_ok in Hd by assumption. injection Hd as <-.
  pose proof (sp_count _ _ _ Hp) as Hc. pose proof (sp_ok _ _ _ Hp) as Hks.
  destruct (child_ref_spec E q keys Hks Hok (sp_ascending _ _ _ Hp)) as (Hi & Hle & Hgt).
  { intros ->. rewrite zlen_nil in Hc. lia. }
  rewrite Forall_lookup in Hks. exists keys, (child_ref E q keys).
  split; [assumption|]. split; [|split; [lia|split; [|split]]].
  - apply internal_child_index_ref; auto. unfold separators_are_inexact.
    destruct (omitted_keys (view_layout v)) eqn:Hom; [|reflexivity].
    now rewrite (checked_omitted_exact E v Hwf Hcheck Hom).
  - intros j k Hj Hlt. rewrite compare_ok by eauto. intros [= Hg]. now apply (Hle j k Hj Hlt).
  - intros j k Hj Hlt. rewrite compare_ok by eauto. f_equal. now apply (Hgt j k).
  - exact Hk.
Qed.

Lemma checked_leaf_search_witness :
  leaf_search AsciiEncoding sample_view [Byte.x62] (ascii_digest [Byte.x62]) Equal = Ok (Some 1) /\
  exists keys, zlen keys = 2 /\ keys !! 1%nat = Some [Byte.x62].
Proof.
  assert (leaf_search AsciiEncoding sample_view [Byte.x62] (ascii_digest [Byte.x62]) Equal
    = Ok (Some 1)) as Hrun by (vm_compute; reflexivity).
  split; [exact Hrun|].
  destruct (checked_leaf_search "ascii" AsciiEncoding sample_page sample_view [Byte.x62]
    (ascii_digest [Byte.x62]) Equal) as (keys & Hc & _ & _ & Hs);
    [reflexivity | exact sample_page_parses | reflexivity | vm_compute; reflexivity
    | reflexivity | reflexivity |].
  rewrite Hrun in Hs. destruct Hs as (_ & k & c & Hk & Hcmp & Hop & _).
  exists keys. split; [exact Hc|]. change (Z.to_nat 1) with 1%nat in Hk. rewrite Hk. f_equal.
  destruct c; [|discriminate..]. apply (cmp_eq _ _ bytes_CmpOrder k [Byte.x62] I I).
  simpl in Hcmp. congruence.
Defined.

(** An internal page with the separators ["b"] and ["d"], children 3 and 4. *)
Definition sample_internal : list byte :=
  i32_le 74 ++ i32_le 1 ++ i32_le 2 ++ i64_le (-1) ++ i64_le (-1)
  ++ u64_le 0x6200000000000000 ++ u64_le 0x6400000000000000
  ++ i32_le 56 ++ u16_le 1 ++ i32_le 65 ++ u16_le 1
  ++ [Byte.x62] ++ i64_le 3 ++ [Byte.x64] ++ i64_le 4.

Definition sample_internal_view : PageView :=
  mkPageView sample_internal
    (mkNodeHeader Internal (mkNodeLayout false false false) 2 None None) 44 56.

Lemma checked_child_index_witness :
  internal_child_index AsciiEncoding sample_internal_view [Byte.x63] (ascii_digest [Byte.x63])
    = Ok (0, false).
Proof.
  destruct (checked_child_index "ascii" AsciiEncoding sample_internal sample_internal_view [Byte.x63]
    (ascii_digest [Byte.x63])) as (keys & i & _ & Hi & _);
    [reflexivity | vm_compute; reflexivity | reflexivity | vm_compute; reflexivity
    | reflexivity | reflexivity | reflexivity |].
  rewrite Hi. vm_compute in Hi. congruence.
Defined.
