(* ===== verification/Btree.v ===== *)
(** B+Tree search, [crates/drydb/src/btree.rs].

    A [Tree] reads pages through the page store.  The class [TreeStore] is the
    part of the store's interface it uses, and [StoreLaws] what it relies on:
    the store hands out the pages of one fixed file, whatever it caches, evicts
    or keeps pinned in between.  Every operation threads the store's state. *)

From Stdlib Require Import ZArith Lia.
From stdpp Require Import base list sorting gmap.
From coqutil Require Import Byte.
From S2P Require Import Prelude Errors Format Node Encoding Page TreePage.

#[local] Open Scope Z_scope.
#[local] Open Scope drydb_scope.

(** * The store as a tree sees it *)

Class TreeStore (Store : Type) : Type := {
  ts_page : PageOrdinal -> SM Store Error PagePin;
  ts_page_cached : PageOrdinal -> Store -> option PagePin * Store;
  ts_retained_root : Z -> Store -> option PagePin;
  ts_retain_root : Z -> PagePin -> Store -> Store;
  ts_release_root : Z -> Store -> Store;
  ts_has_headroom_for : Z -> Store -> bool;
  ts_markers : Store -> Markers;
  ts_set_markers : Markers -> Store -> Store;
  ts_page_count : Store -> Z;
  ts_max_tree_depth : Store -> Z;
}.

Record Tree : Type := mkTree {
  tree_root : option PageOrdinal;
  tree_encoding : KeyEncoding;
  tree_id : Z;
  tree_validate_digests : bool;
}.

(** [Tree::new]: ids are handed out from a global counter, from one. *)
Definition Tree_new (next_tree_id : Z) (root : option PageOrdinal) (encoding : KeyEncoding)
    (validate_digests : bool) : Tree * Z :=
  (mkTree root encoding next_tree_id validate_digests, next_tree_id + 1).

Section Ops.
Context {Store : Type} `{!TreeStore Store} (t : Tree).

Abbreviation M A := (SM Store Error A).
Abbreviation E := (tree_encoding t).

(** [impl Drop for Tree]. *)
Definition Tree_drop (s : Store) : Store := ts_release_root (tree_id t) s.

(** * Loading checked pages *)

Definition check_page (pin : PagePin) : M unit :=
  let! s := sget in
  if negb (tree_validate_digests t) || digests_checked_by (ts_markers s) pin (tree_id t) then sret tt
  else
    let! view := lift (pin_view pin) in
    let! _ := lift (map_err (fun e => at_page e (pin_ordinal pin)) (check_digests E view)) in
    smodify (fun s => ts_set_markers (mark_digests_checked (ts_markers s) pin (tree_id t)) s).

Definition tree_page (ordinal : PageOrdinal) : M PagePin :=
  let! pin := ts_page ordinal in
  let! _ := check_page pin in
  sret pin.

Definition root_page : M (option PagePin) :=
  match tree_root t with
  | None => sret None
  | Some root =>
      let! s := sget in
      match ts_retained_root (tree_id t) s with
      | Some pin => sret (Some pin)
      | None =>
          let! pin := tree_page root in
          let! s := sget in
          let! _ := if ts_has_headroom_for (pin_len pin) s
                    then smodify (ts_retain_root (tree_id t) pin) else sret tt in
          sret (Some pin)
      end
  end.

Definition page_cached (ordinal : PageOrdinal) : M (option PagePin) := fun s =>
  let '(pin, s) := ts_page_cached ordinal s in (Ok pin, s).

Definition root_page_cached : M (option PagePin) :=
  let! s := sget in
  match ts_retained_root (tree_id t) s with
  | Some pin => sret (Some pin)
  | None =>
      match tree_root t with
      | None => sret None
      | Some root =>
          let! cached := page_cached root in
          match cached with
          | None => sret None
          | Some pin =>
              let! _ := check_page pin in
              sret (Some pin)
          end
      end
  end.

Definition max_tree_depth : M nat :=
  let! s := sget in sret (Z.to_nat (ts_max_tree_depth s)).

(** [match current.take() { Some(pin) => pin, None => self.tree_page(ordinal)? }] *)
Definition take_or_load (current : option PagePin) (ordinal : PageOrdinal) : M PagePin :=
  match current with
  | Some pin => sret pin
  | None => tree_page ordinal
  end.

(** The child an internal page sends a descent to. *)
Definition child_of (view : PageView) (ordinal index : Z) : Result PageOrdinal :=
  let? entry := internal_entry view index in
  fail? ie_child entry =? ordinal with at_page Error_corrupt ordinal in
  Ok (ie_child entry).

(** * Descent *)

Fixpoint descend_loop (depth : nat) (key : list byte) (key_digest : Z) (ordinal : PageOrdinal)
    (current : option PagePin) (conservative : bool) : M (PagePin * bool) :=
  match depth with
  | O => sfail Error_corrupt
  | S depth =>
      let! pin := take_or_load current ordinal in
      let! view := lift (pin_view pin) in
      match view_kind view with
      | Leaf => sret (pin, conservative)
      | Internal =>
          fail! entry_count view =? 0 with at_page Error_corrupt ordinal in
          let! ci := lift (internal_child_index E view key key_digest) in
          let! child := lift (child_of view ordinal (fst ci)) in
          descend_loop depth key key_digest child None (conservative || snd ci)
      end
  end.

Definition descend (key : list byte) (key_digest : Z) : M (option (PagePin * bool)) :=
  let! root := root_page in
  match root with
  | None => sret None
  | Some root_pin =>
      let! depth := max_tree_depth in
      let! found := descend_loop depth key key_digest (pin_ordinal root_pin) (Some root_pin) false in
      sret (Some found)
  end.

Fixpoint edge_loop (depth : nat) (leftmost : bool) (ordinal : PageOrdinal)
    (current : option PagePin) : M (option (PagePin * Z)) :=
  match depth with
  | O => sfail Error_corrupt
  | S depth =>
      let! pin := take_or_load current ordinal in
      let! view := lift (pin_view pin) in
      let count := entry_count view in
      match view_kind view with
      | Leaf =>
          if count =? 0 then sret None
          else sret (Some (pin, if leftmost then 0 else count - 1))
      | Internal =>
          fail! count =? 0 with at_page Error_corrupt ordinal in
          let! child := lift (child_of view ordinal (if leftmost then 0 else count - 1)) in
          edge_loop depth leftmost child None
      end
  end.

Definition edge_leaf (leftmost : bool) : M (option (PagePin * Z)) :=
  let! root := root_page in
  match root with
  | None => sret None
  | Some root_pin =>
      let! depth := max_tree_depth in
      edge_loop depth leftmost (pin_ordinal root_pin) (Some root_pin)
  end.

Definition min_leaf : M (option (PagePin * Z)) := edge_leaf true.
Definition max_leaf : M (option (PagePin * Z)) := edge_leaf false.

Definition ends_at (ordinal : PageOrdinal) (ascending : bool) : M bool :=
  let! edge := if ascending then max_leaf else min_leaf in
  sret match edge with
       | Some (pin, _) => pin_ordinal pin =? ordinal
       | None => true
       end.

(** * The leaf chain *)

Definition leaf_page (ordinal : PageOrdinal) : M PagePin :=
  let! pin := tree_page ordinal in
  let! view := lift (pin_view pin) in
  fail! bool_decide (view_kind view <> Leaf) with at_page Error_corrupt ordinal in
  sret pin.

Definition step_sibling (from to : PageOrdinal) (ascending : bool) : M PagePin :=
  let! pin := leaf_page to in
  let! view := lift (pin_view pin) in
  let back := if ascending then left_sibling view else right_sibling view in
  fail! bool_decide (back <> Some from) with at_page Error_corrupt to in
  sret pin.

(** * Search *)

Fixpoint search_loop (steps_left : nat) (key : list byte) (key_digest : Z) (op : SearchOp)
    (conservative : bool) (pin : PagePin) : M (option (PagePin * Z)) :=
  let! view := lift (pin_view pin) in
  let! found := lift (leaf_search E view key key_digest op) in
  match found with
  | Some index => sret (Some (pin, index))
  | None =>
      let! stop := if bool_decide (op = Equal)
                   then lift (if conservative
                              then rmap negb (ends_below E view key key_digest) else Ok true)
                   else sret false in
      if stop then sret None
      else
        match right_sibling view with
        | None =>
            let! at_end := ends_at (pin_ordinal pin) true in
            if negb at_end then sfail (at_page Error_corrupt (pin_ordinal pin)) else sret None
        | Some right_ordinal =>
            match steps_left with
            | O => sfail Error_corrupt
            | S steps_left =>
                let! pin := step_sibling (pin_ordinal pin) right_ordinal true in
                search_loop steps_left key key_digest op conservative pin
            end
        end
  end.

Definition search (key : list byte) (op : SearchOp) : M (option (PagePin * Z)) :=
  let! key_digest := lift (ke_digest E key) in
  let! found := descend key key_digest in
  match found with
  | None => sret None
  | Some (pin, conservative) =>
      let! s := sget in
      search_loop (Z.to_nat (saturating_add (ts_page_count s) 1)) key key_digest op conservative pin
  end.

Definition find (key : list byte) : M (option (PagePin * Z)) := search key Equal.

(** ** Lookup in cached pages only

    [None] is a page that is not cached; [Some None] a key that is not there.
    The source's loop has no bound of its own: the depth is counted while
    [descending], the steps to the right on every leaf, and nothing once the
    walk has left a leaf and met an internal page. *)

Inductive Cached : Type :=
| Done (r : option (option (PagePin * Z)))
| OutOfFuel.

Fixpoint find_cached_loop (fuel : nat) (key : list byte) (key_digest : Z) (ordinal : PageOrdinal)
    (current : option PagePin) (conservative : bool) (steps_left depth_left : Z)
    (descending : bool) : M Cached :=
  match fuel with
  | O => sret OutOfFuel
  | S fuel =>
      fail! descending && (depth_left =? 0) with Error_corrupt in
      let depth_left := if descending then depth_left - 1 else depth_left in
      let! loaded := match current with
                     | Some pin => sret (Some pin)
                     | None =>
                         let! cached := page_cached ordinal in
                         match cached with
                         | Some pin => let! _ := check_page pin in sret (Some pin)
                         | None => sret None
                         end
                     end in
      match loaded with
      | None => sret (Done None)
      | Some pin =>
          let! view := lift (pin_view pin) in
          match view_kind view with
          | Leaf =>
              let! found := lift (leaf_search E view key key_digest Equal) in
              match found with
              | Some index => sret (Done (Some (Some (pin, index))))
              | None =>
                  let! below := lift (if conservative then ends_below E view key key_digest
                                      else Ok false) in
                  if negb below then sret (Done (Some None))
                  else
                    match right_sibling view with
                    | None => sret (Done (Some None))
                    | Some right_ordinal =>
                        fail! steps_left =? 0 with Error_corrupt in
                        find_cached_loop fuel key key_digest right_ordinal None conservative
                          (steps_left - 1) depth_left false
                    end
              end
          | Internal =>
              fail! entry_count view =? 0 with at_page Error_corrupt ordinal in
              let! ci := lift (internal_child_index E view key key_digest) in
              let! child := lift (child_of view ordinal (fst ci)) in
              find_cached_loop fuel key key_digest child None (conservative || snd ci)
                steps_left depth_left descending
          end
      end
  end.

Definition find_cached (fuel : nat) (key : list byte) : M Cached :=
  match tree_root t with
  | None => sret (Done (Some None))
  | Some _ =>
      let! key_digest := lift (ke_digest E key) in
      let! root := root_page_cached in
      match root with
      | None => sret (Done None)
      | Some root_pin =>
          let! s := sget in
          find_cached_loop fuel key key_digest (pin_ordinal root_pin) (Some root_pin) false
            (saturating_add (ts_page_count s) 1) (ts_max_tree_depth s) true
      end
  end.
End Ops.

(** * What the tree relies on *)

(** The store hands out the pages of one file: [file o] is the content of page
    [o].  A buffer keeps its bytes for as long as anything can name it, reading
    a page may drop markers and retained roots but never invents them. *)
Definition evolves {Store} `{!TreeStore Store} (s s' : Store) : Prop :=
  (forall b, default 0 (ts_markers s' !! b) = default 0 (ts_markers s !! b) \/
             default 0 (ts_markers s' !! b) = 0) /\
  (forall id pin, ts_retained_root id s' = Some pin -> ts_retained_root id s = Some pin).

Class StoreLaws (Store : Type) `{!TreeStore Store} (file : PageOrdinal -> option (list byte))
    (page_count max_depth : Z) : Type := {
  store_ok : Store -> Prop;
  bufdata : positive -> list byte;
  is_page (o : PageOrdinal) (pin : PagePin) : Prop :=
    pin_ordinal pin = o /\ file o = Some (pin_data pin) /\ pin_data pin = bufdata (pin_buffer pin);
  sl_page : forall o s, store_ok s ->
    store_ok (snd (ts_page o s)) /\ evolves s (snd (ts_page o s)) /\
    forall pin, fst (ts_page o s) = Ok pin -> is_page o pin;
  sl_cached : forall o s, store_ok s ->
    store_ok (snd (ts_page_cached o s)) /\ evolves s (snd (ts_page_cached o s)) /\
    forall pin, fst (ts_page_cached o s) = Some pin -> is_page o pin;
  sl_retain : forall id o pin s, store_ok s -> is_page o pin ->
    let s' := ts_retain_root id pin s in
    store_ok s' /\ ts_markers s' = ts_markers s /\
    forall id' p, ts_retained_root id' s' = Some p ->
      (id' = id /\ p = pin) \/ ts_retained_root id' s = Some p;
  sl_set_markers : forall m s, store_ok s ->
    let s' := ts_set_markers m s in
    store_ok s' /\ ts_markers s' = m /\ forall id, ts_retained_root id s' = ts_retained_root id s;
  sl_count : forall s, store_ok s -> ts_page_count s = page_count;
  sl_depth : forall s, store_ok s -> ts_max_tree_depth s = max_depth;
}.

Section Search.
Context {Store : Type} {TS : TreeStore Store} {file : PageOrdinal -> option (list byte)}.
Context {page_count max_depth : Z} {SL : StoreLaws Store file page_count max_depth}.
Context (t : Tree) (Hid : 1 <= tree_id t).
Abbreviation E := (tree_encoding t).
Abbreviation M A := (SM Store Error A).

(** The view of page [o]. *)
Definition page_at (o : PageOrdinal) (v : PageView) : Prop :=
  exists bytes, file o = Some bytes /\ PageView_parse bytes = Ok v.

Definition passes (v : PageView) : Prop :=
  tree_validate_digests t = true -> check_digests E v = Ok tt.

(** What holds between any two operations of this tree: a buffer marked with
    its id has passed its check, and a root kept for it is its root. *)
Record tree_inv (s : Store) : Prop := {
  ti_store : store_ok s;
  ti_marks : forall b v, default 0 (ts_markers s !! b) = tree_id t ->
    PageView_parse (bufdata b) = Ok v -> passes v;
  ti_root : forall pin, ts_retained_root (tree_id t) s = Some pin ->
    exists root, tree_root t = Some root /\ is_page root pin /\
      forall v, pin_view pin = Ok v -> passes v;
}.

(** An error the store itself reported while reading a page of the file. *)
Definition load_error (e : Error) : Prop :=
  exists o s bytes, store_ok s /\ file o = Some bytes /\ fst (ts_page o s) = Err e.

(** [triple m Q]: run from a good state, [m] leaves a good state and returns a
    value satisfying [Q] or an error satisfying [R]. *)
Definition triple {A} (R : Error -> Prop) (m : M A) (Q : A -> Prop) : Prop :=
  forall s, tree_inv s ->
    tree_inv (snd (m s)) /\
    match fst (m s) with
    | Ok a => Q a
    | Err e => R e
    end.

Lemma tree_inv_evolves s s' : tree_inv s -> store_ok s' -> evolves s s' -> tree_inv s'.
Proof.
  intros [Hs Hm Hr] Hok [Hmark Hret]. split; [assumption | |].
  - intros b v Hb. destruct (Hmark b) as [He|He]; rewrite He in Hb; [now apply Hm | lia].
  - intros pin Hp. apply Hr. now apply Hret.
Qed.

Section Triple.
Context (R : Error -> Prop).

Lemma triple_ret {A} (a : A) (Q : A -> Prop) : Q a -> triple R (sret a) Q.
Proof. intros HQ s Hs. simpl. auto. Qed.

Lemma triple_bind {A B} (m : M A) (f : A -> M B) (P : A -> Prop) (Q : B -> Prop) :
  triple R m P -> (forall a, P a -> triple R (f a) Q) -> triple R (sbind m f) Q.
Proof.
  intros Hm Hf s Hs. unfold sbind. destruct (Hm s Hs) as [Hs' Ha].
  destruct (m s) as [[a|e] s']; simpl in *; [now apply Hf | auto].
Qed.

Lemma triple_get {B} (f : Store -> M B) (Q : B -> Prop) :
  (forall s, tree_inv s -> triple R (f s) Q) -> triple R (sbind sget f) Q.
Proof. intros Hf s Hs. unfold sbind, sget. now apply Hf. Qed.

Lemma triple_lift {A} (r : Result A) (Q : A -> Prop) :
  (forall a, r = Ok a -> Q a) -> (forall e, r = Err e -> R e) -> triple R (lift r) Q.
Proof. intros HQ HR s Hs. simpl. split; [assumption|]. destruct r; auto. Qed.

Lemma triple_fail {A} e (Q : A -> Prop) : R e -> triple R (sfail e) Q.
Proof. intros HR s Hs. simpl. auto. Qed.

Lemma triple_weaken {A} (m : M A) (P Q : A -> Prop) :
  triple R m P -> (forall a, P a -> Q a) -> triple R m Q.
Proof.
  intros Hm HPQ s Hs. destruct (Hm s Hs) as [Hs' H]. split; [assumption|].
  destruct (fst (m s)); auto.
Qed.

Lemma triple_page o :
  (forall s e, store_ok s -> fst (ts_page o s) = Err e -> R e) -> triple R (ts_page o) (is_page o).
Proof.
  intros HR s Hs. pose proof (ti_store _ Hs) as Hok.
  destruct (sl_page o s Hok) as (Hok' & Hev & Hp). split; [eapply tree_inv_evolves; eauto|].
  destruct (fst (ts_page o s)) as [pin|e] eqn:Hf; [now apply Hp|].
  now apply (HR s).
Qed.


(** Whatever the file holds, a page that went through the check has passed it,
    now or when it was marked. *)
Lemma triple_check_page o pin :
  is_page o pin ->
  (forall e, pin_view pin = Err e -> R e) ->
  (forall v e, pin_view pin = Ok v -> tree_validate_digests t = true ->
     check_digests E v = Err e -> R (at_page e o)) ->
  triple R (check_page t pin) (fun _ => forall v, pin_view pin = Ok v -> passes v).
Proof.
  intros (Ho & Hfile & Hbuf) HRv HRc. apply triple_get. intros s0 Hs0.
  destruct (negb (tree_validate_digests t) || digests_checked_by _ _ _) eqn:Hskip.
  - apply triple_ret. intros v Hv Hval. rewrite Hval in Hskip. simpl in Hskip.
    unfold digests_checked_by in Hskip. apply Z.eqb_eq in Hskip.
    apply pin_view_Ok in Hv. rewrite Hbuf in Hv. now apply (ti_marks _ Hs0 (pin_buffer pin) v).
  - apply orb_false_elim in Hskip as [Hval%negb_false_iff _].
    apply (triple_bind _ _ (fun v => pin_view pin = Ok v)); [now apply triple_lift|].
    intros v Hv. apply (triple_bind _ _ (fun _ => check_digests E v = Ok tt)).
    { apply triple_lift; destruct (check_digests E v) as [[]|e] eqn:Hc; simpl; try congruence.
      intros e' [= <-]. rewrite Ho. eauto. }
    intros _ Hc s Hs. simpl. split; [|intros v' Hv' _; congruence].
    destruct (sl_set_markers (mark_digests_checked (ts_markers s) pin (tree_id t)) s (ti_store _ Hs))
      as (Hok & Hm & Hret).
    split; [exact Hok | |].
    + rewrite Hm. unfold mark_digests_checked. intros b w Hb Hw.
      destruct (decide (b = pin_buffer pin)) as [->|Hne].
      * apply pin_view_Ok in Hv. rewrite Hbuf in Hv. intros _. congruence.
      * rewrite lookup_insert_ne in Hb by congruence. exact (ti_marks _ Hs b w Hb Hw).
    + intros p. rewrite Hret. apply (ti_root _ Hs).
Qed.

Lemma triple_tree_page o :
  (forall s e, store_ok s -> fst (ts_page o s) = Err e -> R e) ->
  (forall pin e, is_page o pin -> pin_view pin = Err e -> R e) ->
  (forall pin v e, is_page o pin -> pin_view pin = Ok v -> tree_validate_digests t = true ->
     check_digests E v = Err e -> R (at_page e o)) ->
  triple R (tree_page t o) (fun pin => is_page o pin /\ forall v, pin_view pin = Ok v -> passes v).
Proof.
  intros HRl HRv HRc. apply (triple_bind _ _ (is_page o)); [now apply triple_page|].
  intros pin Hp. eapply triple_bind; [eapply triple_check_page; eauto|].
  intros ? Hpass. apply triple_ret. auto.
Qed.
End Triple.

(** A tree never uses a page that has not passed its own digest check.
    Whatever the file holds, and whatever the cache, the markers and the
    retained roots went through before, a page a validating tree loads as one of
    its pages is the page of that ordinal and passed [check_digests] under the
    tree's encoding. *)
Theorem tree_page_is_checked o s pin v :
  tree_inv s -> fst (tree_page t o s) = Ok pin -> pin_view pin = Ok v ->
  tree_inv (snd (tree_page t o s)) /\
  file o = Some (pin_data pin) /\
  (tree_validate_digests t = true -> check_digests E v = Ok tt).
Proof.
  intros Hs Hf Hv.
  destruct (triple_tree_page (fun _ => True) o (fun _ _ _ _ => I) (fun _ _ _ _ => I)
    (fun _ _ _ _ _ _ _ => I) s Hs) as [Hinv H].
  rewrite Hf in H. destruct H as [(_ & Hfile & _) Hpass].
  split; [assumption|]. split; [assumption|]. exact (Hpass v Hv).
Qed.

(** * Well-formed trees *)

Context {HL : LawfulEncoding E}.

Record LeafInfo : Type := mkLeafInfo {
  lp_ordinal : PageOrdinal;
  lp_view : PageView;
  lp_keys : list (list byte);
}.

(** A page of a well-formed tree: it holds these keys and passes the check. *)
Definition tree_node (o : PageOrdinal) (v : PageView) (keys : list (list byte)) : Prop :=
  page_at o v /\ check_digests E v = Ok tt /\ sorted_page E v keys.

(** [subtree h o leaves]: page [o] is the root of a tree of height [h] with
    these leaves, in order.  A child holds the keys from its separator up to
    the next one; the first child also holds what is below its separator. *)
Fixpoint subtree (h : nat) (o : PageOrdinal) (leaves : list LeafInfo) : Prop :=
  match h with
  | O => exists v keys, tree_node o v keys /\ view_kind v = Leaf /\ leaves = [mkLeafInfo o v keys]
  | S h =>
      exists v seps children leavess,
        tree_node o v seps /\ view_kind v = Internal /\ separators_are_inexact E v = false /\
        seps <> [] /\ length children = length seps /\
        (forall i c, children !! i = Some c ->
           c <> o /\ exists e, internal_entry v (Z.of_nat i) = Ok e /\ ie_child e = c) /\
        Forall2 (subtree h) children leavess /\ leaves = concat leavess /\
        (forall i ls l k, leavess !! i = Some ls -> l ∈ ls -> k ∈ lp_keys l ->
           (forall sep, seps !! i = Some sep -> (0 < i)%nat -> ord sep k <> Gt) /\
           (forall sep, seps !! (i + 1)%nat = Some sep -> ord k sep = Lt))
  end.

(** The leaves are chained in both directions and end where the tree ends. *)
Fixpoint chained (before : option PageOrdinal) (leaves : list LeafInfo) : Prop :=
  match leaves with
  | [] => True
  | l :: rest =>
      left_sibling (lp_view l) = before /\
      right_sibling (lp_view l) = lp_ordinal <$> head rest /\
      chained (Some (lp_ordinal l)) rest
  end.

Record well_formed (h : nat) (root : PageOrdinal) (leaves : list LeafInfo) : Prop := {
  wf_root : tree_root t = Some root;
  wf_subtree : subtree h root leaves;
  wf_depth : Z.of_nat h < max_depth;
  wf_chain : chained None leaves;
  wf_sorted : StronglySorted (key_lt E) (concat (map lp_keys leaves));
  wf_count : zlen leaves <= page_count <= u64_max;
}.

Definition on_page (o : PageOrdinal) (v : PageView) (pin : PagePin) : Prop :=
  is_page o pin /\ pin_view pin = Ok v.

Definition leaf_ok (l : LeafInfo) : Prop :=
  tree_node (lp_ordinal l) (lp_view l) (lp_keys l) /\ view_kind (lp_view l) = Leaf.

Definition on_leaf (l : LeafInfo) (pin : PagePin) : Prop :=
  on_page (lp_ordinal l) (lp_view l) pin.

Lemma page_at_view o v pin : page_at o v -> is_page o pin -> pin_view pin = Ok v.
Proof.
  intros (bytes & Hf & Hp) (_ & Hfile & _). apply pin_view_Ok. rewrite Hf in Hfile.
  injection Hfile as <-. exact Hp.
Qed.

(** Loading a page of a well-formed tree fails only if the store does. *)
Lemma triple_node o v keys :
  tree_node o v keys -> triple load_error (tree_page t o) (on_page o v).
Proof.
  intros (Hat & Hc & _). eapply triple_weaken; [apply (triple_tree_page load_error o)|].
  - intros s e Hs He. destruct Hat as (bytes & Hf & _). now exists o, s, bytes.
  - intros pin e Hp Hv. rewrite (page_at_view o v pin Hat Hp) in Hv. discriminate.
  - intros pin w e Hp Hv _ He. rewrite (page_at_view o v pin Hat Hp) in Hv. congruence.
  - intros pin [Hp _]. split; [assumption|]. now apply (page_at_view o).
Qed.

Lemma triple_take_or_load o v keys current :
  tree_node o v keys -> (forall pin, current = Some pin -> on_page o v pin) ->
  triple load_error (take_or_load t current o) (on_page o v).
Proof.
  intros Hn Hcur. destruct current as [pin|]; simpl; [apply triple_ret; auto | eapply triple_node; eauto].
Qed.

Lemma triple_view o v pin (Q : PageView -> Prop) :
  on_page o v pin -> Q v -> triple load_error (lift (pin_view pin)) Q.
Proof. intros [_ Hv] HQ. apply triple_lift; rewrite Hv; congruence. Qed.

Lemma triple_lift_ok {A} R (r : Result A) a (Q : A -> Prop) :
  r = Ok a -> Q a -> triple R (lift r) Q.
Proof. intros -> HQ. apply triple_lift; congruence. Qed.

Lemma subtree_leaves h o leaves :
  subtree h o leaves -> leaves <> [] /\ Forall leaf_ok leaves.
Proof.
  revert o leaves; induction h as [|h IH]; intros o leaves Hs; simpl in Hs.
  - destruct Hs as (v & keys & Hn & Hk & ->). split; [discriminate|].
    constructor; [split; assumption | constructor].
  - destruct Hs as (v & seps & children & leavess & _ & _ & _ & Hne & Hlen & _ & Hsub & -> & _).
    assert (Forall (fun ls => ls <> [] /\ Forall leaf_ok ls) leavess) as Hall.
    { clear - IH Hsub. induction Hsub; constructor; auto. eapply IH; eauto. }
    split.
    + destruct leavess as [|ls leavess].
      { apply Forall2_length in Hsub. destruct seps; [congruence | simpl in *; lia]. }
      inversion Hall as [|? ? [Hl _] _]; subst. simpl. destruct ls; [congruence | discriminate].
    + clear - Hall. induction Hall as [|ls leavess [_ Hl] _ IH]; simpl; [constructor|].
      now apply Forall_app.
Qed.

(** What a descent for [q] has decided when it reaches a leaf. *)
Definition brackets (q : list byte) (leaves L1 : list LeafInfo) (l : LeafInfo) (L2 : list LeafInfo)
    : Prop :=
  leaves = L1 ++ l :: L2 /\
  (forall l' k, l' ∈ L1 -> k ∈ lp_keys l' -> ord k q = Lt) /\
  (forall l' k, l' ∈ L2 -> k ∈ lp_keys l' -> ord k q = Gt).

Lemma leaf_key_ok leaves l k : Forall leaf_ok leaves -> l ∈ leaves -> k ∈ lp_keys l -> key_ok k.
Proof.
  intros Hl Hin Hk. rewrite Forall_forall in Hl. destruct (Hl l Hin) as [(_ & _ & Hp) _].
  pose proof (sp_ok _ _ _ Hp) as Hok. rewrite Forall_forall in Hok. auto.
Qed.

(** Narrowing the bracket of a child to the whole node. *)
Lemma brackets_node h q seps children leavess i c ls L1 l L2 :
  key_ok q -> Forall key_ok seps ->
  Forall2 (subtree h) children leavess -> length children = length seps ->
  children !! i = Some c -> leavess !! i = Some ls ->
  (forall j sep, seps !! j = Some sep -> (0 < j <= i)%nat -> ord sep q <> Gt) ->
  (forall j sep, seps !! j = Some sep -> (i < j)%nat -> ord sep q = Gt) ->
  (forall j ls l k, leavess !! j = Some ls -> l ∈ ls -> k ∈ lp_keys l ->
     (forall sep, seps !! j = Some sep -> (0 < j)%nat -> ord sep k <> Gt) /\
     (forall sep, seps !! (j + 1)%nat = Some sep -> ord k sep = Lt)) ->
  brackets q ls L1 l L2 ->
  brackets q (concat leavess) (concat (take i leavess) ++ L1) l (L2 ++ concat (drop (S i) leavess)).
Proof.
  intros Hq Hseps Hsub Hlen Hc Hi Hle Hgt Hb (Hls & H1 & H2).
  assert (forall j ls l k, leavess !! j = Some ls -> l ∈ ls -> k ∈ lp_keys l -> key_ok k) as Hok.
  { intros j ls' l' k Hj Hl' Hk. destruct (Forall2_lookup_r _ _ _ _ _ Hsub Hj) as (c' & _ & Hst).
    apply subtree_leaves in Hst as [_ Hst]. eapply leaf_key_ok; eauto. }
  pose proof (Forall2_length _ _ _ Hsub) as Hll. rewrite Forall_lookup in Hseps.
  split; [|split].
  - rewrite <- (take_drop_middle _ _ _ Hi) at 1. rewrite concat_app, concat_cons, Hls.
    now rewrite <- !app_assoc.
  - intros l' k [Hl'|Hl']%elem_of_app Hk; [|now apply (H1 l')].
    apply elem_of_concat in Hl' as (j & ls' & Hj & Hl').
    apply lookup_take_Some in Hj as [Hj Hji]. destruct (Hb j ls' l' k Hj Hl' Hk) as [_ Hup].
    destruct (lookup_lt_is_Some_2 seps (j + 1)) as [sep Hsep].
    { apply lookup_lt_Some in Hi. lia. }
    apply (ord_trans E k sep q); eauto. eapply (Hle (j + 1)%nat); eauto. lia.
  - intros l' k [Hl'|Hl']%elem_of_app Hk; [now apply (H2 l')|].
    apply elem_of_concat in Hl' as (j & ls' & Hj & Hl'). rewrite lookup_drop in Hj.
    destruct (Hb _ ls' l' k Hj Hl' Hk) as [Hlow _].
    destruct (lookup_lt_is_Some_2 seps (S i + j)) as [sep Hsep].
    { apply lookup_lt_Some in Hj. lia. }
    apply (ord_lt_gt E q k); eauto. apply (ord_trans E q sep k); eauto.
    + apply (ord_lt_gt E q sep); eauto. eapply Hgt; eauto. lia.
    + apply (Hlow sep Hsep). lia.
Qed.

Lemma descend_loop_spec h depth o leaves current q :
  subtree h o leaves -> (h < depth)%nat -> key_ok q ->
  (forall pin v, current = Some pin -> page_at o v -> on_page o v pin) ->
  triple load_error (descend_loop t depth q (dig q) o current false)
    (fun r => snd r = false /\ exists L1 l L2, brackets q leaves L1 l L2 /\ on_leaf l (fst r)).
Proof.
  revert depth o leaves current; induction h as [|h IH]; intros [|depth] o leaves current Hs Hd Hq Hcur;
    try lia; simpl in Hs.
  - destruct Hs as (v & keys & Hn & Hk & ->). cbn [descend_loop].
    eapply triple_bind; [eapply triple_take_or_load; [exact Hn | intros; apply Hcur; [assumption | apply Hn]]|].
    intros pin Hpin. eapply triple_bind; [eapply (triple_view _ _ _ (eq v)); [exact Hpin | reflexivity]|].
    intros ? <-. rewrite Hk. apply triple_ret. split; [reflexivity|].
    exists [], (mkLeafInfo o v keys), []. split; [|exact Hpin].
    split; [reflexivity|]. split; intros l' k Hl'; inversion Hl'.
  - destruct Hs as (v & seps & children & leavess & Hn & Hk & Hex & Hne & Hlen & Hch & Hsub & -> & Hb).
    pose proof Hn as (_ & _ & Hp). pose proof (sp_count _ _ _ Hp) as Hcount.
    pose proof (sp_ok _ _ _ Hp) as Hok.
    destruct (child_ref_spec E q seps Hok Hq (sp_ascending _ _ _ Hp) Hne) as (Hi & Hle & Hgt).
    set (i := child_ref E q seps) in *. cbn [descend_loop].
    eapply triple_bind; [eapply triple_take_or_load; [exact Hn | intros; apply Hcur; [assumption | apply Hn]]|].
    intros pin Hpin. eapply triple_bind; [eapply (triple_view _ _ _ (eq v)); [exact Hpin | reflexivity]|].
    intros ? <-. rewrite Hk. destruct (Z.eqb_spec (entry_count v) 0); [lia|].
    eapply triple_bind; [eapply (triple_lift_ok _ _ _ (eq (i, false)));
      [apply (internal_child_index_ref E v seps q); assumption | reflexivity]|].
    intros ? <-. simpl fst. simpl snd.
    destruct (lookup_lt_is_Some_2 children (Z.to_nat i)) as [c Hc]; [unfold zlen in Hi; lia|].
    destruct (Hch _ c Hc) as (Hco & e & He & Hec). rewrite Z2Nat.id in He by lia.
    eapply triple_bind; [eapply (triple_lift_ok _ _ _ (eq c)); [|reflexivity]|].
    { unfold child_of. rewrite He. cbn [rbind]. rewrite Hec.
      destruct (Z.eqb_spec c o); [congruence | reflexivity]. }
    intros ? <-. destruct (Forall2_lookup_l _ _ _ _ _ Hsub Hc) as (ls & Hls & Hst).
    eapply triple_weaken; [apply (IH depth c ls None); auto; [lia | discriminate]|].
    intros [pin' cons] [Hcons (L1 & l & L2 & Hbr & Hl)]. split; [exact Hcons|].
    exists (concat (take (Z.to_nat i) leavess) ++ L1), l, (L2 ++ concat (drop (S (Z.to_nat i)) leavess)).
    split; [|exact Hl]. eapply brackets_node; eauto.
    + intros j sep Hj Hij. eapply Hle; eauto. lia.
    + intros j sep Hj Hij. eapply Hgt; eauto. lia.
Qed.

(** The leaf an edge walk ends on. *)
Definition edge_of (leftmost : bool) (leaves : list LeafInfo) : option LeafInfo :=
  if leftmost then head leaves else head (reverse leaves).

Lemma edge_of_concat (leftmost : bool) leavess ls l :
  Forall (fun ls : list LeafInfo => ls <> []) leavess ->
  (if leftmost then head leavess else head (reverse leavess)) = Some ls ->
  edge_of leftmost ls = Some l -> edge_of leftmost (concat leavess) = Some l.
Proof.
  intros Hne Hls Hl. destruct leftmost; simpl in *.
  - destruct leavess as [|x leavess]; simpl in *; [discriminate|]. injection Hls as ->.
    destruct ls; simpl in *; congruence.
  - destruct leavess as [|x leavess _] using rev_ind; [discriminate|].
    rewrite reverse_app in Hls. simpl in Hls. injection Hls as ->.
    rewrite concat_app. simpl. rewrite app_nil_r, reverse_app.
    destruct (reverse ls); simpl in *; [discriminate | congruence].
Qed.

Lemma lookup_edge {A} (l : list A) (leftmost : bool) :
  l <> [] -> (if leftmost then head l else head (reverse l)) = l !! (if leftmost then 0 else length l - 1)%nat.
Proof.
  intros Hne. destruct leftmost; [now destruct l|].
  destruct l as [|x l _] using rev_ind; [congruence|]. rewrite reverse_app. simpl.
  rewrite length_app. simpl. rewrite lookup_app_r by lia.
  now replace (length l + 1 - 1 - length l)%nat with 0%nat by lia.
Qed.

Lemma edge_loop_spec h depth o leaves current (leftmost : bool) :
  subtree h o leaves -> (h < depth)%nat ->
  (forall pin v, current = Some pin -> page_at o v -> on_page o v pin) ->
  triple load_error (edge_loop t depth leftmost o current)
    (fun r => exists l, edge_of leftmost leaves = Some l /\
       match r with
       | None => lp_keys l = []
       | Some (pin, i) => lp_keys l <> [] /\ on_leaf l pin /\
           i = if leftmost then 0 else zlen (lp_keys l) - 1
       end).
Proof.
  revert depth o leaves current; induction h as [|h IH]; intros [|depth] o leaves current Hs Hd Hcur;
    try lia; simpl in Hs.
  - destruct Hs as (v & keys & Hn & Hk & ->). cbn [edge_loop].
    pose proof (sp_count _ _ _ (proj2 (proj2 Hn))) as Hcount.
    eapply triple_bind; [eapply triple_take_or_load; [exact Hn | intros; apply Hcur; [assumption | apply Hn]]|].
    intros pin Hpin. eapply triple_bind; [eapply (triple_view _ _ _ (eq v)); [exact Hpin | reflexivity]|].
    intros ? <-. rewrite Hk.
    destruct (Z.eqb_spec (entry_count v) 0); apply triple_ret;
      (exists (mkLeafInfo o v keys); split; [now destruct leftmost|]); simpl.
    + destruct keys; [reflexivity|]. rewrite zlen_cons in Hcount. pose proof (zlen_nonneg keys). lia.
    + split; [intros ->; rewrite zlen_nil in Hcount; lia|]. split; [exact Hpin|].
      destruct leftmost; lia.
  - destruct Hs as (v & seps & children & leavess & Hn & Hk & Hex & Hne & Hlen & Hch & Hsub & -> & Hb).
    pose proof (sp_count _ _ _ (proj2 (proj2 Hn))) as Hcount.
    assert (0 < length seps)%nat by (destruct seps; [congruence | simpl; lia]).
    pose proof (Forall2_length _ _ _ Hsub) as Hll.
    set (i := (if leftmost then 0 else length seps - 1)%nat).
    assert ((if leftmost then 0 else entry_count v - 1) = Z.of_nat i) as Hi
      by (unfold i, zlen in *; destruct leftmost; lia).
    cbn [edge_loop].
    eapply triple_bind; [eapply triple_take_or_load; [exact Hn | intros; apply Hcur; [assumption | apply Hn]]|].
    intros pin Hpin. eapply triple_bind; [eapply (triple_view _ _ _ (eq v)); [exact Hpin | reflexivity]|].
    intros ? <-. rewrite Hk. destruct (Z.eqb_spec (entry_count v) 0); [unfold zlen in *; lia|].
    destruct (lookup_lt_is_Some_2 children i) as [c Hc]; [unfold i; destruct leftmost; lia|].
    destruct (Hch _ c Hc) as (Hco & e & He & Hec).
    eapply triple_bind; [eapply (triple_lift_ok _ _ _ (eq c)); [|reflexivity]|].
    { unfold child_of. rewrite Hi, He. cbn [rbind]. rewrite Hec.
      destruct (Z.eqb_spec c o); [congruence | reflexivity]. }
    intros ? <-. destruct (Forall2_lookup_l _ _ _ _ _ Hsub Hc) as (ls & Hls & Hst).
    eapply triple_weaken; [apply (IH depth c ls None); auto; [lia | discriminate]|].
    intros r (l & Hl & Hr). exists l. split; [|exact Hr].
    eapply edge_of_concat; [| |exact Hl].
    + apply Forall_lookup. intros j ls' Hj.
      destruct (Forall2_lookup_r _ _ _ _ _ Hsub Hj) as (c' & _ & Hst'). now apply subtree_leaves in Hst'.
    + rewrite lookup_edge by (intros ->; simpl in *; lia). rewrite <- Hls. f_equal.
      unfold i. destruct leftmost; lia.
Qed.

Lemma root_page_spec h root leaves :
  well_formed h root leaves ->
  triple load_error (root_page t)
    (fun r => exists pin, r = Some pin /\ pin_ordinal pin = root /\
       forall v, page_at root v -> on_page root v pin).
Proof.
  intros Hwf. unfold root_page. rewrite (wf_root _ _ _ Hwf).
  assert (exists v keys, tree_node root v keys) as (v & keys & Hn).
  { pose proof (wf_subtree _ _ _ Hwf) as Hs. destruct h; simpl in Hs.
    - destruct Hs as (v & keys & Hn & _). eauto.
    - destruct Hs as (v & seps & children & leavess & Hn & _). eauto. }
  apply triple_get. intros s Hs.
  destruct (ts_retained_root (tree_id t) s) as [pin|] eqn:Hret.
  - apply triple_ret. destruct (ti_root _ Hs pin Hret) as (root' & Hr & Hp & _).
    rewrite (wf_root _ _ _ Hwf) in Hr. injection Hr as <-. exists pin. split; [reflexivity|].
    split; [apply Hp|]. intros w Hw. split; [exact Hp | eapply page_at_view; eauto].
  - eapply triple_bind; [eapply triple_node; exact Hn|]. intros pin [Hp Hv].
    apply triple_get. intros s1 Hs1. apply (triple_bind _ _ _ (fun _ => True)).
    + destruct (ts_has_headroom_for _ _); [|now apply triple_ret].
      intros s2 Hs2. simpl. split; [|exact I].
      destruct (sl_retain (tree_id t) root pin s2 (ti_store _ Hs2) Hp) as (Hok & Hm & Hr).
      split; [exact Hok | rewrite Hm; apply (ti_marks _ Hs2) |].
      intros p Hp'. destruct (Hr _ _ Hp') as [[_ ->]|Hold]; [|now apply (ti_root _ Hs2)].
      exists root. split; [apply (wf_root _ _ _ Hwf)|]. split; [exact Hp|].
      intros w Hw _. assert (w = v) as -> by congruence. apply Hn.
    + intros _ _. apply triple_ret. exists pin. split; [reflexivity|]. split; [apply Hp|].
      intros w Hw. split; [exact Hp | eapply page_at_view; eauto].
Qed.

Lemma triple_depth : triple load_error max_tree_depth (eq (Z.to_nat max_depth)).
Proof.
  apply triple_get. intros s Hs. apply triple_ret. now rewrite (sl_depth s (ti_store _ Hs)).
Qed.

Lemma edge_leaf_spec h root leaves leftmost :
  well_formed h root leaves ->
  triple load_error (edge_leaf t leftmost)
    (fun r => exists l, edge_of leftmost leaves = Some l /\
       match r with
       | None => lp_keys l = []
       | Some (pin, i) => lp_keys l <> [] /\ on_leaf l pin /\
           i = if leftmost then 0 else zlen (lp_keys l) - 1
       end).
Proof.
  intros Hwf. unfold edge_leaf. pose proof (wf_depth _ _ _ Hwf) as Hd.
  eapply triple_bind; [eapply root_page_spec; exact Hwf|]. intros ? (pin & -> & Ho & Hpin).
  eapply triple_bind; [apply triple_depth|]. intros ? <-. rewrite Ho.
  eapply edge_loop_spec; [apply (wf_subtree _ _ _ Hwf) | lia |].
  intros p v [= <-]. apply Hpin.
Qed.

(** The chain ends where the tree ends, in both directions. *)
Lemma ends_at_edge h root leaves (ascending : bool) l :
  well_formed h root leaves -> edge_of (negb ascending) leaves = Some l ->
  triple load_error (ends_at t (lp_ordinal l) ascending) (eq true).
Proof.
  intros Hwf Hl. unfold ends_at, max_leaf, min_leaf.
  replace (if ascending then edge_leaf t false else edge_leaf t true)
    with (edge_leaf t (negb ascending)) by now destruct ascending.
  eapply triple_bind; [eapply edge_leaf_spec; exact Hwf|].
  intros r (l' & Hl' & Hr). apply triple_ret. assert (l' = l) as -> by congruence.
  destruct r as [[pin i]|]; [|reflexivity].
  destruct Hr as (_ & [(Ho & _) _] & _). rewrite Ho. symmetry. apply Z.eqb_refl.
Qed.

Lemma ends_at_last h root leaves L l :
  well_formed h root leaves -> leaves = L ++ [l] ->
  triple load_error (ends_at t (lp_ordinal l) true) (eq true).
Proof.
  intros Hwf ->. eapply ends_at_edge; [exact Hwf|]. unfold edge_of. simpl. now rewrite reverse_app.
Qed.

(** * Reference search over the leaves *)

Fixpoint first_in (op : SearchOp) (q : list byte) (leaves : list LeafInfo) : option (LeafInfo * Z) :=
  match leaves with
  | [] => None
  | l :: rest =>
      match leaf_ref E op q (lp_keys l) with
      | Some i => Some (l, i)
      | None => first_in op q rest
      end
  end.

Lemma leaf_ref_none op q keys :
  (forall k, k ∈ keys -> op_holds op (ord k q) = false) -> leaf_ref E op q keys = None.
Proof. intros H. unfold leaf_ref. now apply first_index_None. Qed.

Lemma first_in_app op q L1 L2 :
  (forall l k, l ∈ L1 -> k ∈ lp_keys l -> op_holds op (ord k q) = false) ->
  first_in op q (L1 ++ L2) = first_in op q L2.
Proof.
  induction L1 as [|l L1 IH]; intros H; simpl; [reflexivity|].
  rewrite leaf_ref_none by (intros k Hk; apply (H l k); [left | assumption]).
  apply IH. intros l' k Hl'. apply H. now right.
Qed.

Lemma below_fails op q (L : list LeafInfo) :
  (forall l k, l ∈ L -> k ∈ lp_keys l -> ord k q = Lt) ->
  forall l k, l ∈ L -> k ∈ lp_keys l -> op_holds op (ord k q) = false.
Proof. intros H l k Hl Hk. rewrite (H l k Hl Hk). now destruct op. Qed.

Definition result_is (r : option (PagePin * Z)) (x : option (LeafInfo * Z)) : Prop :=
  match r, x with
  | None, None => True
  | Some (pin, i), Some (l, j) => i = j /\ on_leaf l pin
  | _, _ => False
  end.

Lemma chained_app before L1 l L2 :
  chained before (L1 ++ l :: L2) ->
  right_sibling (lp_view l) = lp_ordinal <$> head L2 /\
  (forall l' L, L2 = l' :: L -> left_sibling (lp_view l') = Some (lp_ordinal l)).
Proof.
  revert before; induction L1 as [|x L1 IH]; intros before Hc; simpl in Hc.
  - destruct Hc as (_ & Hr & Hc). split; [exact Hr|]. intros l' L ->. apply Hc.
  - destruct Hc as (_ & _ & Hc). eapply IH; eauto.
Qed.

Lemma step_sibling_spec (ascending : bool) l l' :
  leaf_ok l' ->
  (if ascending then left_sibling (lp_view l') else right_sibling (lp_view l')) = Some (lp_ordinal l) ->
  triple load_error (step_sibling t (lp_ordinal l) (lp_ordinal l') ascending) (on_leaf l').
Proof.
  intros [Hn Hk] Hback. unfold step_sibling, leaf_page.
  apply (triple_bind _ _ _ (on_leaf l')).
  - eapply triple_bind; [eapply triple_node; exact Hn|]. intros pin Hpin.
    eapply triple_bind; [eapply (triple_view _ _ _ (eq (lp_view l'))); [exact Hpin | reflexivity]|].
    intros ? <-. rewrite bool_decide_eq_false_2 by (rewrite Hk; tauto). now apply triple_ret.
  - intros pin Hpin.
    eapply triple_bind; [eapply (triple_view _ _ _ (eq (lp_view l'))); [exact Hpin | reflexivity]|].
    intros ? <-. cbv zeta iota. rewrite Hback. rewrite bool_decide_eq_false_2 by tauto.
    now apply triple_ret.
Qed.

(** A leaf, and every leaf before it, without a match. *)
Definition no_match (op : SearchOp) (q : list byte) (L : list LeafInfo) : Prop :=
  forall l k, l ∈ L -> k ∈ lp_keys l -> op_holds op (ord k q) = false.

Lemma search_loop_eq steps q d op cons pin :
  search_loop t steps q d op cons pin =
  let! view := lift (pin_view pin) in
  let! found := lift (leaf_search E view q d op) in
  match found with
  | Some index => sret (Some (pin, index))
  | None =>
      let! stop := if bool_decide (op = Equal)
                   then lift (if cons then rmap negb (ends_below E view q d) else Ok true)
                   else sret false in
      if stop then sret None
      else
        match right_sibling view with
        | None =>
            let! at_end := ends_at t (pin_ordinal pin) true in
            if negb at_end then sfail (at_page Error_corrupt (pin_ordinal pin)) else sret None
        | Some next =>
            match steps with
            | O => sfail Error_corrupt
            | S steps =>
                let! pin := step_sibling t (pin_ordinal pin) next true in
                search_loop t steps q d op cons pin
            end
        end
  end.
Proof. now destruct steps. Qed.

Lemma search_loop_spec h root leaves q op L1 l L2 steps pin :
  well_formed h root leaves -> key_ok q -> leaves = L1 ++ l :: L2 ->
  (length L2 <= steps)%nat -> on_leaf l pin ->
  no_match op q L1 -> (op = Equal -> no_match op q L2) ->
  triple load_error (search_loop t steps q (dig q) op false pin)
    (fun r => result_is r (first_in op q leaves)).
Proof.
  intros Hwf Hq. revert L1 l steps pin.
  induction L2 as [|l' L2 IH]; intros L1 l steps pin Hsplit Hsteps Hpin Hpre Hpost;
    pose proof (proj2 (subtree_leaves _ _ _ (wf_subtree _ _ _ Hwf))) as Hall;
    rewrite Hsplit in Hall; apply Forall_app in Hall as [_ [Hl HL2]%Forall_cons];
    pose proof Hl as [(_ & _ & Hp) Hk];
    pose proof (wf_chain _ _ _ Hwf) as Hchain; rewrite Hsplit in Hchain;
    apply chained_app in Hchain as [Hright Hleft];
    rewrite search_loop_eq;
    (eapply triple_bind; [eapply (triple_view _ _ _ (eq (lp_view l))); [exact Hpin | reflexivity]|]);
    intros ? <-;
    (eapply triple_bind; [eapply (triple_lift_ok _ _ _ (eq (leaf_ref E op q (lp_keys l))));
       [apply (leaf_search_ref E _ (lp_keys l)); assumption | reflexivity]|]); intros ? <-;
    (destruct (leaf_ref E op q (lp_keys l)) as [i|] eqn:Href;
       [apply triple_ret; rewrite Hsplit, first_in_app by exact Hpre; cbn [first_in]; rewrite Href;
        split; [reflexivity | exact Hpin]|]);
    (assert (no_match op q (L1 ++ [l])) as Hpre'
       by (intros x k [Hx|Hx]%elem_of_app Hkx; [now apply (Hpre x)|];
           apply list_elem_of_singleton in Hx as ->;
           unfold leaf_ref in Href; rewrite first_index_None in Href; auto));
    (apply (triple_bind _ _ _ (eq (bool_decide (op = Equal)))); [|intros stop <-]).
  - destruct (bool_decide (op = Equal)); [now apply triple_lift_ok with (a := true) | now apply triple_ret].
  - assert (first_in op q leaves = None) as Hnone.
    { rewrite Hsplit, <- (app_nil_r (L1 ++ [l])). now apply first_in_app. }
    case_bool_decide; simpl; [apply triple_ret; now rewrite Hnone|].
    rewrite Hright. simpl. rewrite (proj1 (proj1 Hpin)).
    eapply triple_bind; [eapply (ends_at_last h root leaves); eauto|]. intros ? <-.
    apply triple_ret. now rewrite Hnone.
  - destruct (bool_decide (op = Equal)); [now apply triple_lift_ok with (a := true) | now apply triple_ret].
  - case_bool_decide as Hop; simpl.
    + apply triple_ret. specialize (Hpost Hop).
      replace leaves with ((L1 ++ [l]) ++ ((l' :: L2) ++ [])) by (rewrite app_nil_r, Hsplit, <- app_assoc; reflexivity).
      rewrite !first_in_app by assumption. exact I.
    + rewrite Hright. simpl. rewrite (proj1 (proj1 Hpin)).
      destruct steps as [|steps]; simpl in Hsteps; [lia|].
      eapply triple_bind; [apply (step_sibling_spec true l l'); [now apply Forall_cons in HL2 | now eapply Hleft]|].
      intros pin' Hpin'. apply (IH (L1 ++ [l]) l'); auto; [now rewrite <- app_assoc | lia |].
      congruence.
Qed.

Lemma search_spec h root leaves q op :
  well_formed h root leaves -> key_ok q ->
  triple load_error (search t q op) (fun r => result_is r (first_in op q leaves)).
Proof.
  intros Hwf Hq. pose proof (wf_depth _ _ _ Hwf). pose proof (wf_count _ _ _ Hwf) as Hcount.
  unfold search, descend. eapply triple_bind;
    [eapply (triple_lift_ok _ _ _ (eq (dig q))); [now apply digest_ok | reflexivity]|].
  intros ? <-.
  apply (triple_bind _ _ _ (fun r => exists pin L1 l L2, r = Some (pin, false) /\
    brackets q leaves L1 l L2 /\ on_leaf l pin)).
  - eapply triple_bind; [eapply root_page_spec; exact Hwf|]. intros ? (pin & -> & Ho & Hpin).
    eapply triple_bind; [apply triple_depth|]. intros ? <-. rewrite Ho.
    eapply triple_bind.
    + apply (descend_loop_spec h _ root leaves); [apply (wf_subtree _ _ _ Hwf) | lia | assumption |].
      intros p v [= <-]. apply Hpin.
    + intros [pin' cons] [Hc (L1 & l & L2 & Hb & Hl)]. simpl in *. subst cons.
      apply triple_ret. eauto 8.
  - intros ? (pin & L1 & l & L2 & -> & (Hsplit & Hlt & Hgt) & Hpin).
    apply triple_get. intros s Hs. rewrite (sl_count s (ti_store _ Hs)).
    eapply search_loop_spec; eauto.
    + rewrite Hsplit in Hcount. rewrite zlen_app, zlen_cons in Hcount.
      unfold saturating_add, usize_max, zlen, u64_max in *. lia.
    + exact (below_fails op q L1 Hlt).
    + intros -> l' k Hl' Hk'. now rewrite (Hgt l' k Hl' Hk').
Qed.

(** C6: searching a well-formed tree is exact.  Over a tree whose pages pass the
    check, whose separators split the keys and whose leaves are chained, [search]
    returns the first entry in key order that equals, is not below, or is above
    the key, and nothing when there is none, whatever the store has cached,
    marked or kept.  It fails only when reading a page of the file fails, and not
    at all over a store that reads every page. *)
Theorem search_correct h root leaves q op s :
  well_formed h root leaves -> key_ok q -> tree_inv s ->
  let run := search t q op s in
  tree_inv (snd run) /\
  match fst run with
  | Ok r => result_is r (first_in op q leaves)
  | Err e => load_error e
  end /\
  ((forall o s bytes, store_ok s -> file o = Some bytes -> is_ok (fst (ts_page o s)) = true) ->
   exists r, fst run = Ok r).
Proof.
  intros Hwf Hq Hs run. destruct (search_spec h root leaves q op Hwf Hq s Hs) as [Hinv Hr].
  fold run in Hinv, Hr. split; [assumption|]. split; [exact Hr|]. intros Hread.
  destruct (fst run) as [r|e]; [eauto|]. destruct Hr as (o & s0 & bytes & Hok & Hf & He).
  specialize (Hread o s0 bytes Hok Hf). rewrite He in Hread. discriminate.
Qed.

(** The edges of a well-formed tree: [min_leaf] and [max_leaf] return the
    first and the last entry of the whole tree, and nothing for an empty one. *)
Theorem edge_leaf_correct h root leaves leftmost s :
  well_formed h root leaves -> tree_inv s ->
  match fst (edge_leaf t leftmost s) with
  | Ok r => exists l, edge_of leftmost leaves = Some l /\
      match r with
      | None => lp_keys l = []
      | Some (pin, i) => lp_keys l <> [] /\ on_leaf l pin /\
          i = if leftmost then 0 else zlen (lp_keys l) - 1
      end
  | Err e => load_error e
  end.
Proof.
  intros Hwf Hs. now destruct (edge_leaf_spec h root leaves leftmost Hwf s Hs).
Qed.

(** * Cached lookups *)

Abbreviation never := (fun _ : Error => False).

Lemma triple_cached o :
  triple never (page_cached o) (fun r => forall pin, r = Some pin -> is_page o pin).
Proof.
  intros s Hs. destruct (sl_cached o s (ti_store _ Hs)) as (Hok & Hev & Hp). unfold page_cached.
  destruct (ts_page_cached o s) as [pin s']; simpl in *.
  split; [eapply tree_inv_evolves; eauto | assumption].
Qed.

Lemma triple_check_node o v keys pin :
  tree_node o v keys -> is_page o pin -> triple never (check_page t pin) (fun _ => True).
Proof.
  intros (Hat & Hc & _) Hp. pose proof (page_at_view o v pin Hat Hp) as Hv.
  eapply triple_weaken; [apply (triple_check_page never o pin Hp)|]; auto.
  - intros e He. congruence.
  - intros w e Hw _ He. congruence.
Qed.

(** What a cached lookup may answer: a page is missing, or the exact result. *)
Definition cached_answer (q : list byte) (leaves : list LeafInfo) (r : Cached) : Prop :=
  match r with
  | OutOfFuel => False
  | Done None => True
  | Done (Some x) => result_is x (first_in Equal q leaves)
  end.

Lemma load_cached o v keys current :
  tree_node o v keys -> (forall pin, current = Some pin -> on_page o v pin) ->
  triple never
    (match current with
     | Some pin => sret (Some pin)
     | None => let! cached := page_cached o in
               match cached with
               | Some pin => let! _ := check_page t pin in sret (Some pin)
               | None => sret None
               end
     end) (fun r => forall pin, r = Some pin -> on_page o v pin).
Proof.
  intros Hn Hcur. destruct current as [pin|]; [apply triple_ret; now intros ? [= <-]; apply Hcur|].
  eapply triple_bind; [apply triple_cached|]. intros [pin|] Hp; [|now apply triple_ret].
  specialize (Hp pin eq_refl). eapply triple_bind; [eapply triple_check_node; eauto|].
  intros _ _. apply triple_ret. intros ? [= <-]. split; [assumption|].
  eapply page_at_view; [apply Hn | assumption].
Qed.

Lemma cached_leaf_answer q leaves L1 l L2 pin :
  brackets q leaves L1 l L2 -> on_leaf l pin -> key_ok q ->
  result_is (match leaf_ref E Equal q (lp_keys l) with Some i => Some (pin, i) | None => None end)
            (first_in Equal q leaves).
Proof.
  intros (-> & Hlt & Hgt) Hpin Hq. rewrite first_in_app by now apply below_fails. cbn [first_in].
  destruct (leaf_ref E Equal q (lp_keys l)) as [i|]; [split; [reflexivity | exact Hpin]|].
  rewrite <- (app_nil_r L2), first_in_app; [exact I|].
  intros l' k Hl' Hk'. now rewrite (Hgt l' k Hl' Hk').
Qed.

Lemma find_cached_loop_spec h fuel o sub current q steps depth leaves P1 P2 :
  subtree h o sub -> (h < fuel)%nat -> Z.of_nat h < depth -> key_ok q ->
  (forall pin v, current = Some pin -> page_at o v -> on_page o v pin) ->
  (forall L1 l L2, brackets q sub L1 l L2 -> brackets q leaves (P1 ++ L1) l (L2 ++ P2)) ->
  triple never (find_cached_loop t fuel q (dig q) o current false steps depth true)
    (cached_answer q leaves).
Proof.
  revert fuel o sub current depth P1 P2.
  induction h as [|h IH]; intros [|fuel] o sub current depth P1 P2 Hs Hf Hd Hq Hcur Hbr;
    try lia; simpl in Hs.
  - destruct Hs as (v & keys & Hn & Hk & ->). cbn [find_cached_loop andb].
    destruct (Z.eqb_spec depth 0); [lia|]. cbv iota.
    eapply triple_bind; [eapply load_cached; [exact Hn | intros; apply Hcur; [assumption | apply Hn]]|].
    intros [pin|] Hpin; [|now apply triple_ret]. specialize (Hpin pin eq_refl).
    eapply triple_bind; [eapply (triple_lift_ok _ _ _ (eq v)); [apply Hpin | reflexivity]|].
    intros ? <-. rewrite Hk.
    eapply triple_bind; [eapply (triple_lift_ok _ _ _ (eq (leaf_ref E Equal q keys)));
      [apply (leaf_search_ref E v keys); [apply Hn | assumption | assumption] | reflexivity]|].
    intros ? <-.
    assert (brackets q [mkLeafInfo o v keys] [] (mkLeafInfo o v keys) []) as Hb0.
    { split; [reflexivity|]. split; intros l' k Hl'; inversion Hl'. }
    pose proof (cached_leaf_answer q leaves _ _ _ pin (Hbr _ _ _ Hb0) Hpin Hq) as Ha.
    cbn [lp_keys] in Ha. destruct (leaf_ref E Equal q keys) as [i|]; [now apply triple_ret|].
    eapply triple_bind; [eapply (triple_lift_ok _ _ _ (eq false)); reflexivity|].
    intros ? <-. now apply triple_ret.
  - destruct Hs as (v & seps & children & leavess & Hn & Hk & Hex & Hne & Hlen & Hch & Hsub & -> & Hb).
    pose proof Hn as (_ & _ & Hp). pose proof (sp_count _ _ _ Hp) as Hcount.
    pose proof (sp_ok _ _ _ Hp) as Hok.
    destruct (child_ref_spec E q seps Hok Hq (sp_ascending _ _ _ Hp) Hne) as (Hi & Hle & Hgt).
    set (i := child_ref E q seps) in *. cbn [find_cached_loop andb].
    destruct (Z.eqb_spec depth 0); [lia|]. cbv iota.
    eapply triple_bind; [eapply load_cached; [exact Hn | intros; apply Hcur; [assumption | apply Hn]]|].
    intros [pin|] Hpin; [|now apply triple_ret]. specialize (Hpin pin eq_refl).
    eapply triple_bind; [eapply (triple_lift_ok _ _ _ (eq v)); [apply Hpin | reflexivity]|].
    intros ? <-. rewrite Hk. destruct (Z.eqb_spec (entry_count v) 0); [lia|].
    eapply triple_bind; [eapply (triple_lift_ok _ _ _ (eq (i, false)));
      [apply (internal_child_index_ref E v seps q); assumption | reflexivity]|].
    intros ? <-. simpl fst. simpl snd.
    destruct (lookup_lt_is_Some_2 children (Z.to_nat i)) as [c Hc]; [unfold zlen in Hi; lia|].
    destruct (Hch _ c Hc) as (Hco & e & He & Hec). rewrite Z2Nat.id in He by lia.
    eapply triple_bind; [eapply (triple_lift_ok _ _ _ (eq c)); [|reflexivity]|].
    { unfold child_of. rewrite He. cbn [rbind]. rewrite Hec.
      destruct (Z.eqb_spec c o); [congruence | reflexivity]. }
    intros ? <-. destruct (Forall2_lookup_l _ _ _ _ _ Hsub Hc) as (ls & Hls & Hst).
    eapply (IH fuel c ls None (depth - 1) (P1 ++ concat (take (Z.to_nat i) leavess))
             (concat (drop (S (Z.to_nat i)) leavess) ++ P2)); auto; try lia; [discriminate|].
    intros L1 l L2 Hbl.
    replace ((P1 ++ concat (take (Z.to_nat i) leavess)) ++ L1)
      with (P1 ++ (concat (take (Z.to_nat i) leavess) ++ L1)) by apply app_assoc.
    rewrite (app_assoc L2). apply Hbr.
    eapply brackets_node; eauto.
    + intros j sep Hj Hij. eapply Hle; eauto. lia.
    + intros j sep Hj Hij. eapply Hgt; eauto. lia.
Qed.

Lemma root_page_cached_spec h root leaves :
  well_formed h root leaves ->
  triple never (root_page_cached t)
    (fun r => forall pin, r = Some pin -> pin_ordinal pin = root /\
       forall v, page_at root v -> on_page root v pin).
Proof.
  intros Hwf. unfold root_page_cached.
  assert (exists v keys, tree_node root v keys) as (v & keys & Hn).
  { pose proof (wf_subtree _ _ _ Hwf) as Hs. destruct h; simpl in Hs.
    - destruct Hs as (v & keys & Hn & _). eauto.
    - destruct Hs as (v & seps & children & leavess & Hn & _). eauto. }
  assert (forall pin, is_page root pin -> pin_ordinal pin = root /\
    forall v, page_at root v -> on_page root v pin) as Hgood.
  { intros pin Hp. split; [apply Hp|]. intros w Hw. split; [exact Hp | eapply page_at_view; eauto]. }
  apply triple_get. intros s Hs. destruct (ts_retained_root (tree_id t) s) as [pin|] eqn:Hret.
  - apply triple_ret. intros ? [= <-]. destruct (ti_root _ Hs pin Hret) as (root' & Hr & Hp & _).
    rewrite (wf_root _ _ _ Hwf) in Hr. injection Hr as <-. auto.
  - rewrite (wf_root _ _ _ Hwf). eapply triple_bind; [apply triple_cached|].
    intros [pin|] Hp; [|now apply triple_ret]. specialize (Hp pin eq_refl).
    eapply triple_bind; [eapply triple_check_node; eauto|]. intros _ _.
    apply triple_ret. intros ? [= <-]. auto.
Qed.

(** A lookup over cached pages only never fails on a well-formed tree and
    ends within one step per level: it either reports that a page is not cached
    or returns exactly what the full search returns. *)
Theorem find_cached_correct h root leaves q s fuel :
  well_formed h root leaves -> key_ok q -> tree_inv s -> (h < fuel)%nat ->
  tree_inv (snd (find_cached t fuel q s)) /\
  exists r, fst (find_cached t fuel q s) = Ok r /\ cached_answer q leaves r.
Proof.
  intros Hwf Hq Hs Hf.
  assert (triple never (find_cached t fuel q) (cached_answer q leaves)) as H1.
  { unfold find_cached. rewrite (wf_root _ _ _ Hwf). pose proof (wf_depth _ _ _ Hwf).
    eapply triple_bind; [eapply (triple_lift_ok _ _ _ (eq (dig q))); [now apply digest_ok | reflexivity]|].
    intros ? <-. eapply triple_bind; [eapply root_page_cached_spec; exact Hwf|].
    intros [pin|] Hpin; [|now apply triple_ret]. destruct (Hpin pin eq_refl) as [-> Hon].
    apply triple_get. intros s0 Hs0. rewrite (sl_depth s0 (ti_store _ Hs0)).
    eapply (find_cached_loop_spec h fuel root leaves _ q _ _ leaves [] []); auto.
    - apply (wf_subtree _ _ _ Hwf).
    - intros p v [= <-]. apply Hon.
    - intros L1 l L2. now rewrite app_nil_r. }
  destruct (H1 s Hs) as [Hinv Hr]. split; [assumption|].
  destruct (fst (find_cached t fuel q s)) as [r|e]; [eauto | contradiction].
Qed.
End Search.

(** * A store over an in-memory image

    Every page is at hand and nothing is retained; the only state is the
    markers.  It shows the laws can be met, and runs the examples. *)

Record Image (pages : list (list byte)) (depth : Z) : Type := mkImage { im_marks : Markers }.
Arguments mkImage {pages depth}.
Arguments im_marks {pages depth}.

Definition image_file (pages : list (list byte)) (o : PageOrdinal) : option (list byte) := get_at pages o.

Definition image_buf (o : PageOrdinal) : positive := Pos.of_succ_nat (Z.to_nat o).

Definition image_pin (pages : list (list byte)) (o : PageOrdinal) : option PagePin :=
  mkPagePin (image_buf o) o <$> image_file pages o.

#[export] Instance Image_store pages depth : TreeStore (Image pages depth) := {|
  ts_page := fun o s => (ok_or (image_pin pages o) (at_page Error_corrupt o), s);
  ts_page_cached := fun o s => (image_pin pages o, s);
  ts_retained_root := fun _ _ => None;
  ts_retain_root := fun _ _ s => s;
  ts_release_root := fun _ s => s;
  ts_has_headroom_for := fun _ _ => false;
  ts_markers := im_marks;
  ts_set_markers := fun m _ => mkImage m;
  ts_page_count := fun _ => zlen pages;
  ts_max_tree_depth := fun _ => depth;
|}.

Definition image_bufdata (pages : list (list byte)) (b : positive) : list byte :=
  default [] (pages !! (Pos.to_nat b - 1)%nat).

Lemma image_pin_page pages o pin :
  image_pin pages o = Some pin ->
  pin_ordinal pin = o /\ image_file pages o = Some (pin_data pin) /\
  pin_data pin = image_bufdata pages (pin_buffer pin).
Proof.
  unfold image_pin, image_bufdata. destruct (image_file pages o) as [bytes|] eqn:Hf; [|discriminate].
  intros [= <-]. simpl. repeat split. unfold image_file, get_at, image_buf in *.
  destruct (Z.leb_spec 0 o); [|discriminate]. rewrite SuccNat2Pos.id_succ. simpl.
  rewrite Nat.sub_0_r. now rewrite Hf.
Qed.

#[export, program] Instance Image_laws pages depth :
  StoreLaws (Image pages depth) (image_file pages) (zlen pages) depth := {|
  store_ok := fun _ => True;
  bufdata := image_bufdata pages;
|}.
Next Obligation.
  intros pages depth o s _. split; [exact I|]. split; [split; auto|].
  intros pin H. apply ok_or_Ok_inv in H. now apply image_pin_page.
Qed.
Next Obligation.
  intros pages depth o s _. split; [exact I|]. split; [split; auto|].
  intros pin H. now apply image_pin_page.
Qed.
Next Obligation. intros; simpl; repeat split; auto. Qed.
Next Obligation. intros; simpl; repeat split; auto. Qed.
Next Obligation. reflexivity. Qed.
Next Obligation. reflexivity. Qed.

(** A page that passes the check and whose keys can be read off is sorted. *)
Lemma checked_keys (E : KeyEncoding) `{HL : !LawfulEncoding E} `{!CheckableEncoding E} bytes v keys :
  PageView_parse bytes = Ok v -> check_digests E v = Ok tt -> omitted_keys (view_layout v) = false ->
  (fun j => entry_key v (Z.of_nat j)) <$> seq 0 (Z.to_nat (entry_count v)) = Ok <$> keys ->
  sorted_page E v keys.
Proof.
  intros [Hwf _]%PageView_parse_wf Hc Hom Hk.
  destruct (check_digests_sorted E v Hwf Hc) as (ks & Hp & Hks). specialize (Hks Hom).
  assert (ks = keys) as <-; [|exact Hp]. pose proof (sp_count _ _ _ Hp) as Hcount.
  assert (Ok <$> ks = (Ok <$> keys : list (Result (list byte)))) as Hmap.
  { rewrite <- Hk. apply list_eq. intros j. rewrite !list_lookup_fmap.
    destruct (ks !! j) as [k|] eqn:Hj; simpl.
    - pose proof (lookup_lt_Some _ _ _ Hj). rewrite lookup_seq_lt by (unfold zlen in Hcount; lia).
      simpl. f_equal. symmetry. now apply Hks.
    - apply lookup_ge_None in Hj. rewrite lookup_seq_ge by (unfold zlen in Hcount; lia). reflexivity. }
  assert (Inj eq eq (@Ok Error (list byte))) as Hinj by (intros x y [= ->]; reflexivity).
  exact (list_fmap_eq_inj Ok Hinj _ _ Hmap).
Qed.

(** ** A two-leaf tree *)

(** A plain leaf with one entry [key -> ""]. *)
Definition tiny_leaf (key : byte) (left right : Z) : list byte :=
  i32_le 45 ++ i32_le 0 ++ i32_le 1 ++ i64_le left ++ i64_le right
  ++ u64_le (ascii_digest [key]) ++ i32_le 44 ++ u16_le 1 ++ u16_le 0 ++ [key].

Definition tiny_view (key : byte) (left right : Z) : PageView :=
  mkPageView (tiny_leaf key left right)
    (mkNodeHeader Leaf (mkNodeLayout false false false) 1
       (if left =? -1 then None else Some left) (if right =? -1 then None else Some right)) 36 44.

Definition sample_pages : list (list byte) :=
  [sample_internal; []; []; tiny_leaf Byte.x62 (-1) 4; tiny_leaf Byte.x64 3 (-1)].
Definition sample_leaves : list LeafInfo :=
  [mkLeafInfo 3 (tiny_view Byte.x62 (-1) 4) [[Byte.x62]];
   mkLeafInfo 4 (tiny_view Byte.x64 3 (-1)) [[Byte.x64]]].
Definition sample_tree : Tree := mkTree (Some 0) AsciiEncoding 1 true.
Definition sample_state : Image sample_pages 64 := mkImage ∅.

Lemma sample_node o bytes v keys :
  image_file sample_pages o = Some bytes -> PageView_parse bytes = Ok v ->
  check_digests AsciiEncoding v = Ok tt -> omitted_keys (view_layout v) = false ->
  (fun j => entry_key v (Z.of_nat j)) <$> seq 0 (Z.to_nat (entry_count v)) = Ok <$> keys ->
  tree_node (file := image_file sample_pages) sample_tree o v keys.
Proof.
  intros Hf Hp Hc Hom Hk. split; [now exists bytes|]. split; [exact Hc|].
  eapply (checked_keys AsciiEncoding); eauto.
Qed.

Lemma sample_tree_subtree :
  subtree (file := image_file sample_pages) sample_tree 1 0 sample_leaves.
Proof.
  exists sample_internal_view, [[Byte.x62]; [Byte.x64]], [3; 4],
    [[mkLeafInfo 3 (tiny_view Byte.x62 (-1) 4) [[Byte.x62]]];
     [mkLeafInfo 4 (tiny_view Byte.x64 3 (-1)) [[Byte.x64]]]].
  split; [apply (sample_node 0 sample_internal); vm_compute; reflexivity|].
  split; [reflexivity|]. split; [reflexivity|]. split; [discriminate|]. split; [reflexivity|].
  split; [|split; [|split; [reflexivity|]]].
  - intros [|[|i]] c Hc; simpl in Hc; simplify_eq; (split; [discriminate|]);
      (eexists; split; [vm_compute; reflexivity | reflexivity]).
  - constructor; [|constructor; [|constructor]].
    + exists (tiny_view Byte.x62 (-1) 4), [[Byte.x62]]. split; [|split; reflexivity].
      apply (sample_node 3 (tiny_leaf Byte.x62 (-1) 4)); vm_compute; reflexivity.
    + exists (tiny_view Byte.x64 3 (-1)), [[Byte.x64]]. split; [|split; reflexivity].
      apply (sample_node 4 (tiny_leaf Byte.x64 3 (-1))); vm_compute; reflexivity.
  - intros i ls l k Hls Hl Hk. destruct i as [|[|i]]; simpl in Hls; simplify_eq;
      apply list_elem_of_singleton in Hl as ->; apply list_elem_of_singleton in Hk as ->.
    + split; [intros sep _ Hlt; lia | intros sep [= <-]; reflexivity].
    + split; [intros sep [= <-] _; vm_compute; discriminate | discriminate].
Qed.

Lemma sample_tree_wf :
  well_formed (file := image_file sample_pages) (page_count := 5) (max_depth := 64)
    sample_tree 1 0 sample_leaves.
Proof.
  split; [reflexivity | apply sample_tree_subtree | reflexivity | | |].
  - repeat split.
  - repeat constructor.
  - vm_compute; intuition discriminate.
Qed.

Lemma sample_state_inv : tree_inv sample_tree sample_state.
Proof. split; [exact I | discriminate | discriminate]. Qed.

Lemma search_correct_witness :
  exists pin, fst (search sample_tree [Byte.x64] Equal sample_state) = Ok (Some (pin, 0)) /\
    pin_ordinal pin = 4.
Proof.
  destruct (search_correct sample_tree ltac:(discriminate) 1 0 sample_leaves [Byte.x64] Equal sample_state
    sample_tree_wf I sample_state_inv) as (_ & H & Htotal).
  destruct Htotal as [r Hr].
  { intros o s bytes _ Hf. simpl. unfold image_pin. rewrite Hf. reflexivity. }
  rewrite Hr in H |- *.
  change (first_in sample_tree Equal [Byte.x64] sample_leaves)
    with (Some (mkLeafInfo 4 (tiny_view Byte.x64 3 (-1)) [[Byte.x64]], 0)) in H.
  destruct r as [[pin i]|]; [|contradiction]. destruct H as [-> [[H _] _]].
  exists pin. split; [reflexivity | exact H].
Defined.

Lemma edge_leaf_correct_witness :
  exists pin i, fst (edge_leaf sample_tree false sample_state) = Ok (Some (pin, i)) /\ pin_ordinal pin = 4.
Proof.
  pose proof (edge_leaf_correct sample_tree ltac:(discriminate) 1 0 sample_leaves false sample_state
    sample_tree_wf sample_state_inv) as H.
  destruct (fst (edge_leaf sample_tree false sample_state)) as [[[pin i]|]|e] eqn:Hrun.
  - exists pin, i. destruct H as (l & Hl & _ & [[H _] _] & _). injection Hl as <-.
    split; [reflexivity | exact H].
  - exfalso. destruct H as (l & Hl & Hk). injection Hl as <-. discriminate Hk.
  - vm_compute in Hrun. discriminate.
Defined.

Lemma find_cached_correct_witness :
  exists r, fst (find_cached sample_tree 64 [Byte.x64] sample_state) = Ok r /\
    cached_answer (SL := Image_laws sample_pages 64) sample_tree [Byte.x64] sample_leaves r.
Proof.
  exact (proj2 (find_cached_correct sample_tree ltac:(discriminate) 1 0 sample_leaves [Byte.x64] sample_state 64
    sample_tree_wf I sample_state_inv ltac:(lia))).
Defined.

Lemma tree_page_is_checked_witness :
  let pin := mkPagePin 4 3 (tiny_leaf Byte.x62 (-1) 4) in
  fst (tree_page sample_tree 3 sample_state) = Ok pin /\
  check_digests AsciiEncoding (tiny_view Byte.x62 (-1) 4) = Ok tt.
Proof.
  assert (fst (tree_page sample_tree 3 sample_state) = Ok (mkPagePin 4 3 (tiny_leaf Byte.x62 (-1) 4)))
    as Hrun by (vm_compute; reflexivity).
  assert (pin_view (mkPagePin 4 3 (tiny_leaf Byte.x62 (-1) 4)) = Ok (tiny_view Byte.x62 (-1) 4))
    as Hview by (vm_compute; reflexivity).
  split; [exact Hrun|].
  exact (proj2 (proj2 (tree_page_is_checked sample_tree ltac:(discriminate) 3 sample_state _ _
    sample_state_inv Hrun Hview)) eq_refl).
Defined.

(** ** A cached lookup without end

    A damaged file: the root sends the descent, conservatively, to an empty
    leaf whose right sibling is an internal page, which is on a cycle of two
    internal pages. *)

Definition omitted_internal (digest child : Z) : list byte :=
  i32_le 44 ++ i32_le (1 + FLAG_COMPACT_META + FLAG_OMITTED_KEYS) ++ i32_le 1
  ++ i64_le (-1) ++ i64_le (-1) ++ u64_le digest ++ i64_le child.

Definition omitted_empty_leaf (right : Z) : list byte :=
  i32_le 30 ++ i32_le (FLAG_COMPACT_META + FLAG_OMITTED_KEYS) ++ i32_le 0
  ++ i64_le (-1) ++ i64_le right ++ u16_le 30.

Definition cyclic_pages : list (list byte) :=
  [omitted_internal (ascii_digest [Byte.x61]) 1; omitted_empty_leaf 2;
   omitted_internal (ascii_digest [Byte.x61]) 3; omitted_internal (ascii_digest [Byte.x61]) 2].
Definition cyclic_tree : Tree := mkTree (Some 0) AsciiEncoding 1 false.


(** One round of the loop on an internal page. *)
Lemma find_cached_round {Store} `{!TreeStore Store} (t : Tree) fuel q d o current cons steps depth descending
    pin v i inexact child (s : Store) :
  (current = Some pin \/
   current = None /\ ts_page_cached o s = (Some pin, s) /\ check_page t pin s = (Ok tt, s)) ->
  pin_view pin = Ok v -> view_kind v = Internal -> (entry_count v =? 0) = false ->
  internal_child_index (tree_encoding t) v q d = Ok (i, inexact) -> child_of v o i = Ok child ->
  (descending = true -> (depth =? 0) = false) ->
  find_cached_loop t (S fuel) q d o current cons steps depth descending s =
  find_cached_loop t fuel q d child None (cons || inexact) steps
    (if descending then depth - 1 else depth) descending s.
Proof.
  intros Hload Hv Hk Hc Hi Hch Hd. cbn [find_cached_loop].
  assert (descending && (depth =? 0) = false) as -> by (destruct descending; simpl; auto).
  unfold sbind, lift, page_cached.
  destruct Hload as [-> | (-> & -> & Hchk)]; simpl; [|unfold sbind; rewrite Hchk; simpl];
    rewrite Hv, Hk, Hc, Hi; simpl; now rewrite Hch.
Qed.

(** One round on a leaf that does not hold the key and ends below it. *)
Lemma find_cached_leaf_round {Store} `{!TreeStore Store} (t : Tree) fuel q d o steps depth
    pin v next (s : Store) :
  ts_page_cached o s = (Some pin, s) -> check_page t pin s = (Ok tt, s) ->
  pin_view pin = Ok v -> view_kind v = Leaf ->
  leaf_search (tree_encoding t) v q d Equal = Ok None -> ends_below (tree_encoding t) v q d = Ok true ->
  right_sibling v = Some next -> (steps =? 0) = false -> (depth =? 0) = false ->
  find_cached_loop t (S fuel) q d o None true steps depth true s =
  find_cached_loop t fuel q d next None true (steps - 1) (depth - 1) false s.
Proof.
  intros Hp Hchk Hv Hk Hs He Hr Hst Hd. cbn [find_cached_loop andb]. rewrite Hd.
  unfold sbind, lift, page_cached. rewrite Hp. simpl. rewrite Hchk. simpl.
  rewrite Hv, Hk, Hs. simpl. rewrite He. simpl. now rewrite Hr, Hst.
Qed.

Lemma find_cached_start {Store} `{!TreeStore Store} (t : Tree) fuel q d root pin (s : Store) :
  tree_root t = Some root -> ke_digest (tree_encoding t) q = Ok d ->
  ts_retained_root (tree_id t) s = None ->
  ts_page_cached root s = (Some pin, s) -> check_page t pin s = (Ok tt, s) ->
  find_cached t fuel q s =
  find_cached_loop t fuel q d (pin_ordinal pin) (Some pin) false
    (saturating_add (ts_page_count s) 1) (ts_max_tree_depth s) true s.
Proof.
  intros Hr Hd Hret Hp Hchk. unfold find_cached, root_page_cached, page_cached.
  rewrite Hr. unfold sbind, lift. rewrite Hd. cbn [sget]. rewrite Hret, Hp. now rewrite Hchk.
Qed.

Definition cyclic_pin (o : PageOrdinal) : PagePin :=
  mkPagePin (image_buf o) o (default [] (image_file cyclic_pages o)).

Definition cyclic_view (child : PageOrdinal) : PageView :=
  mkPageView (omitted_internal (ascii_digest [Byte.x61]) child)
    (mkNodeHeader Internal (mkNodeLayout false true true) 1 None None) 36 36.

Definition cyclic_leaf_view : PageView :=
  mkPageView (omitted_empty_leaf 2)
    (mkNodeHeader Leaf (mkNodeLayout false true true) 0 None (Some 2)) 28 30.

Abbreviation cyclic_key := [Byte.x61].
Abbreviation cyclic_digest := (ascii_digest [Byte.x61]).

(** What the three internal pages answer, by page and child. *)
Lemma cyclic_facts o child :
  (o = 0 /\ child = 1) \/ (o = 2 /\ child = 3) \/ (o = 3 /\ child = 2) ->
  pin_view (cyclic_pin o) = Ok (cyclic_view child) /\
  internal_child_index AsciiEncoding (cyclic_view child) cyclic_key cyclic_digest = Ok (0, true) /\
  child_of (cyclic_view child) o 0 = Ok child /\
  image_pin cyclic_pages o = Some (cyclic_pin o).
Proof. intros [[-> ->]|[[-> ->]|[-> ->]]]; repeat split; vm_compute; reflexivity. Qed.

Lemma cyclic_leaf_facts :
  image_pin cyclic_pages 1 = Some (cyclic_pin 1) /\ pin_view (cyclic_pin 1) = Ok cyclic_leaf_view /\
  leaf_search AsciiEncoding cyclic_leaf_view cyclic_key cyclic_digest Equal = Ok None /\
  ends_below AsciiEncoding cyclic_leaf_view cyclic_key cyclic_digest = Ok true.
Proof. repeat split; vm_compute; reflexivity. Qed.

Lemma cyclic_loops fuel o child cons steps depth (s : Image cyclic_pages 64) :
  (o = 2 /\ child = 3) \/ (o = 3 /\ child = 2) ->
  find_cached_loop cyclic_tree fuel cyclic_key cyclic_digest o None cons steps depth false s =
  (Ok OutOfFuel, s).
Proof.
  revert o child cons; induction fuel as [|fuel IH]; intros o child cons Ho; [reflexivity|].
  destruct (cyclic_facts o child) as (Hv & Hi & Hch & Hp); [tauto|].
  rewrite (find_cached_round cyclic_tree fuel _ _ o None cons steps depth false
    (cyclic_pin o) (cyclic_view child) 0 true child s); try assumption; try reflexivity; try discriminate.
  - apply (IH child o). tauto.
  - right. split; [reflexivity|]. split; [simpl; now rewrite Hp | reflexivity].
Qed.

(** C40: on a damaged file the cached lookup can run forever.  When the chain of
    leaves leads to internal pages that form a cycle, neither the depth nor the
    step count is consumed any more, so every bound on the number of rounds is
    exceeded, while [search] reports the same file as corrupt. *)
Theorem find_cached_diverges fuel :
  let s := mkImage ∅ : Image cyclic_pages 64 in
  fst (find_cached cyclic_tree fuel cyclic_key s) = Ok OutOfFuel /\
  fst (search cyclic_tree cyclic_key Equal s) = Err (at_page Error_corrupt 2).
Proof.
  intros s. split; [|vm_compute; reflexivity].
  destruct (cyclic_facts 0 1) as (Hv & Hi & Hch & Hp); [tauto|].
  rewrite (find_cached_start cyclic_tree fuel _ cyclic_digest 0 (cyclic_pin 0) s);
    [|reflexivity | reflexivity | reflexivity | simpl; now rewrite Hp | reflexivity].
  destruct fuel as [|fuel]; [reflexivity|].
  rewrite (find_cached_round cyclic_tree fuel _ _ _ _ _ _ _ _ (cyclic_pin 0) (cyclic_view 1) 0 true 1 s);
    [|now left | exact Hv | reflexivity | reflexivity | exact Hi | exact Hch | reflexivity].
  destruct fuel as [|fuel]; [reflexivity|].
  destruct cyclic_leaf_facts as (Hlp & Hlv & Hls & Hle).
  rewrite (find_cached_leaf_round cyclic_tree fuel _ _ 1 _ _ (cyclic_pin 1) cyclic_leaf_view 2 s);
    [|simpl; now rewrite Hlp | reflexivity | exact Hlv | reflexivity | exact Hls | exact Hle
     | reflexivity | reflexivity | reflexivity].
  now rewrite (cyclic_loops fuel 2 3) by auto.
Qed.
