(* ===== verification/Query.v ===== *)
(** Key ranges and counting, [crates/drydb/src/query.rs].

    A [KeyRange] is a pair of explicit bounds; [in_range] says which keys it
    selects in the order of an encoding.  [prefix_range] turns a byte prefix
    into such a range and [count_range] counts a range by walking the leaf
    chain.  Cursors are in [Cursor.v]. *)

From Stdlib Require Import ZArith Lia.
From stdpp Require Import base list sorting gmap.
From coqutil Require Import Byte.
From S2P Require Import Prelude Errors Format Eytzinger Node Encoding Budget Page TreePage Btree.

#[local] Open Scope Z_scope.
#[local] Open Scope drydb_scope.

(** [std::ops::Bound]. *)
Inductive Bound : Type :=
| Unbounded
| Included (key : list byte)
| Excluded (key : list byte).

Inductive Order : Set :=
| Ascending
| Descending.

Record KeyRange : Type := mkKeyRange {
  kr_lower : Bound;
  kr_upper : Bound;
  kr_empty : bool;
}.

Definition KeyRange_all : KeyRange := mkKeyRange Unbounded Unbounded false.
Definition KeyRange_from_bounds (lower upper : Bound) : KeyRange := mkKeyRange lower upper false.
Definition KeyRange_empty : KeyRange := mkKeyRange (Excluded []) Unbounded true.
Definition KeyRange_point (key : list byte) : KeyRange := mkKeyRange (Included key) (Included key) false.

Definition bound_key (b : Bound) : option (list byte) :=
  match b with
  | Unbounded => None
  | Included k | Excluded k => Some k
  end.

Definition bound_cost (b : Bound) (extra : Z) : Z :=
  match b with
  | Unbounded => 0
  | Included k | Excluded k => saturating_add (saturating_add (zlen k) extra) BUFFER_OVERHEAD
  end.

(** What [reserve_bounds] asks the store to reserve. *)
Definition bounds_wanted (lower upper : Bound) (extra : Z) : Z :=
  saturating_add (bound_cost lower extra) (bound_cost upper extra).

(** * Prefixes *)

(** [while end_len > 0 && prefix[end_len - 1] == 0xFF { end_len -= 1 }] *)
Fixpoint strip_ff (prefix : list byte) (end_len : nat) : nat :=
  match end_len with
  | O => O
  | S n => if bool_decide (prefix !! n = Some Byte.xff) then strip_ff prefix n else end_len
  end.

Definition byte_succ (b : byte) : byte := byte.of_Z (byte.unsigned b + 1).

Definition prefix_range (prefix : list byte) : KeyRange :=
  match prefix with
  | [] => KeyRange_all
  | _ =>
      let end_len := strip_ff prefix (length prefix) in
      match end_len with
      | O => mkKeyRange (Included prefix) Unbounded false
      | S last =>
          let stop := alter byte_succ last (take end_len prefix) in
          mkKeyRange (Included prefix) (Excluded stop) false
      end
  end.

(** * Counting *)

Section Count.
Context {Store : Type} `{!TreeStore Store} (t : Tree).
Abbreviation M A := (SM Store Error A).
Abbreviation E := (tree_encoding t).

(** The checks a range goes through before it is used. *)
Definition validate_bound (b : Bound) : Result unit :=
  match bound_key b with
  | Some k => validate_key E k
  | None => Ok tt
  end.

Definition check_order (lower upper : Bound) : Result unit :=
  match bound_key lower, bound_key upper with
  | Some lo, Some hi =>
      let? c := ke_compare E lo hi in
      fail? bool_decide (c = Gt) with Error_invalid in Ok tt
  | _, _ => Ok tt
  end.

(** Where an ascending walk starts. *)
Definition range_start (lower : Bound) : M (option (PagePin * Z)) :=
  match lower with
  | Unbounded => min_leaf t
  | Included k => search t k LowerBound
  | Excluded k => search t k UpperBound
  end.

(** The search that finds the first entry past an upper bound. *)
Definition upper_end (upper : Bound) : option (SearchOp * list byte) :=
  match upper with
  | Unbounded => None
  | Included k => Some (UpperBound, k)
  | Excluded k => Some (LowerBound, k)
  end.

Definition upper_index (upper : Bound) (view : PageView) : Result (option Z) :=
  match upper_end upper with
  | None => Ok None
  | Some (op, key) =>
      let? digest := ke_digest E key in
      leaf_search E view key digest op
  end.

(** [a.saturating_sub(b)] *)


Fixpoint count_loop (steps_left : nat) (upper : Bound) (page : PagePin) (index count : Z) : M Z :=
  let! view := lift (pin_view page) in
  let! bound_index := lift (upper_index upper view) in
  match bound_index with
  | Some bound_index => sret (count + saturating_sub bound_index index)
  | None =>
      let count := count + saturating_sub (entry_count view) index in
      match right_sibling view with
      | None =>
          let! at_end := ends_at t (pin_ordinal page) true in
          fail! negb at_end with at_page Error_corrupt (pin_ordinal page) in
          sret count
      | Some next =>
          match steps_left with
          | O => sfail Error_corrupt
          | S steps_left =>
              let! page := step_sibling t (pin_ordinal page) next true in
              count_loop steps_left upper page 0 count
          end
      end
  end.

Definition count_range (lower upper : Bound) : M Z :=
  let! _ := lift (validate_bound lower) in
  let! _ := lift (validate_bound upper) in
  let! _ := lift (check_order lower upper) in
  let! start := range_start lower in
  match start with
  | None => sret 0
  | Some (page, index) =>
      let! s := sget in
      count_loop (Z.to_nat (saturating_add (ts_page_count s) 1)) upper page index 0
  end.
End Count.

(** * Which keys a range selects *)

Section Spec.
Context (cmp : list byte -> list byte -> comparison).

Definition lower_ok (r : KeyRange) (k : list byte) : bool :=
  match kr_lower r with
  | Unbounded => true
  | Included lo => negb (cmp_eqb (cmp k lo) Lt)
  | Excluded lo => cmp_eqb (cmp k lo) Gt
  end.

Definition upper_ok (r : KeyRange) (k : list byte) : bool :=
  match kr_upper r with
  | Unbounded => true
  | Included hi => negb (cmp_eqb (cmp k hi) Gt)
  | Excluded hi => cmp_eqb (cmp k hi) Lt
  end.

Definition in_range (r : KeyRange) (k : list byte) : bool :=
  negb (kr_empty r) && lower_ok r k && upper_ok r k.
End Spec.

(** ** Prefix ranges *)

Lemma bytes_cmp_app p a b : bytes_cmp (p ++ a) (p ++ b) = bytes_cmp a b.
Proof. induction p as [|x p IH]; simpl; [reflexivity|]. unfold byte.compare. now rewrite Z.compare_refl. Qed.

Lemma byte_cmp_refl (x : byte) : byte.compare x x = Eq.
Proof. apply Z.compare_refl. Qed.

Lemma byte_cmp_eq (x y : byte) : byte.compare x y = Eq -> x = y.
Proof. intros H. now apply byte.unsigned_inj, Z.compare_eq. Qed.

(** Nothing sorts between a run of the largest byte and what it prefixes. *)
Lemma max_run_prefix n k :
  bytes_cmp k (replicate n Byte.xff) <> Lt <-> replicate n Byte.xff `prefix_of` k.
Proof.
  revert k; induction n as [|n IH]; intros [|x k]; simpl.
  - split; [intros _; exists []; reflexivity | discriminate].
  - split; [intros _; exists (x :: k); reflexivity | discriminate].
  - split; [congruence | intros [k' H]; discriminate].
  - destruct (byte.compare x Byte.xff) eqn:Hx; simpl.
    + apply byte_cmp_eq in Hx as ->. rewrite IH. split; [apply prefix_cons | apply prefix_cons_inv_2].
    + split; [congruence|]. intros H. apply prefix_cons_inv_1 in H as <-. discriminate.
    + unfold byte.compare in Hx. apply Z.compare_gt_iff in Hx. pose proof (byte.unsigned_range x).
      change (byte.unsigned Byte.xff) with 255 in Hx. lia.
Qed.

Lemma byte_succ_unsigned b : b <> Byte.xff -> byte.unsigned (byte_succ b) = byte.unsigned b + 1.
Proof.
  intros Hb. unfold byte_succ. rewrite byte.unsigned_of_Z. pose proof (byte.unsigned_range b).
  assert (byte.unsigned b <> 255) by (intros H'; apply Hb; now apply byte.unsigned_inj).
  apply Z.mod_small. lia.
Qed.

(** [q ++ [b + 1]] is the least string above everything [q ++ [b] ++ 0xFF..]
    prefixes. *)
Lemma prefix_window q b n k :
  b <> Byte.xff ->
  bytes_cmp k (q ++ b :: replicate n Byte.xff) <> Lt /\ bytes_cmp k (q ++ [byte_succ b]) = Lt <->
  (q ++ b :: replicate n Byte.xff) `prefix_of` k.
Proof.
  intros Hb. pose proof (byte_succ_unsigned b Hb) as Hs.
  revert k; induction q as [|y q IH]; intros [|x k]; simpl;
    try (split; [intros [H _]; congruence | intros [k' H]; discriminate]).
  - unfold byte.compare. rewrite Hs.
    destruct (Z.compare_spec (byte.unsigned x) (byte.unsigned b)) as [Hx|Hx|Hx]; simpl.
    + apply byte.unsigned_inj in Hx as ->. rewrite (proj2 (Z.compare_lt_iff _ _)) by lia. simpl.
      rewrite max_run_prefix. split; [intros [H _]; now apply prefix_cons|].
      intros H%prefix_cons_inv_2. auto.
    + split; [intros [H _]; congruence|]. intros H%prefix_cons_inv_1. subst. lia.
    + split; [|intros H%prefix_cons_inv_1; subst; lia]. intros [_ H].
      destruct (Z.compare_spec (byte.unsigned x) (byte.unsigned b + 1)); simpl in H;
        [now destruct k | lia | discriminate].
  - destruct (byte.compare x y) eqn:Hx; simpl.
    + apply byte_cmp_eq in Hx as ->. rewrite IH. split; [apply prefix_cons | apply prefix_cons_inv_2].
    + split; [intros [H _]; congruence|]. intros H%prefix_cons_inv_1. subst.
      rewrite byte_cmp_refl in Hx. discriminate.
    + split; [intros [_ H]; discriminate|]. intros H%prefix_cons_inv_1. subst.
      rewrite byte_cmp_refl in Hx. discriminate.
Qed.

Lemma strip_ff_spec p m :
  (m <= length p)%nat ->
  take m p = take (strip_ff p m) p ++ replicate (m - strip_ff p m) Byte.xff /\
  (strip_ff p m <= m)%nat /\
  (forall j, strip_ff p m = S j -> p !! j <> Some Byte.xff).
Proof.
  induction m as [|m IH]; intros Hm; simpl.
  - split; [reflexivity|]. split; [lia | discriminate].
  - case_bool_decide as Hff.
    + destruct (IH ltac:(lia)) as (Ht & Hle & Hj). split; [|split; [lia | exact Hj]].
      rewrite (take_S_r _ _ _ Hff), Ht, <- app_assoc. f_equal.
      replace (S m - strip_ff p m)%nat with ((m - strip_ff p m) + 1)%nat by lia.
      now rewrite replicate_add.
    + rewrite Nat.sub_diag. simpl. rewrite app_nil_r. split; [reflexivity|].
      split; [lia|]. intros j [= <-]. exact Hff.
Qed.

(** A prefix query selects exactly the keys that start with the prefix.  In
    byte order the range built from a prefix holds a key if and only if the prefix
    is a prefix of it, for the empty prefix, for prefixes ending in 0xFF bytes and
    for those made of nothing else. *)
Theorem prefix_range_correct p k :
  in_range bytes_cmp (prefix_range p) k = true <-> p `prefix_of` k.
Proof.
  destruct (decide (p = [])) as [->|Hne].
  { simpl. split; [intros _; exists k; reflexivity | reflexivity]. }
  destruct (strip_ff_spec p (length p) ltac:(lia)) as (Ht & Hle & Hj).
  rewrite firstn_all in Ht. set (n := (length p - strip_ff p (length p))%nat) in *.
  assert (prefix_range p = match strip_ff p (length p) with
    | O => mkKeyRange (Included p) Unbounded false
    | S last => mkKeyRange (Included p)
        (Excluded (alter byte_succ last (take (strip_ff p (length p)) p))) false end) as ->
    by (destruct p; [congruence | reflexivity]).
  destruct (strip_ff p (length p)) as [|j]; unfold in_range, lower_ok, upper_ok; simpl.
  - rewrite andb_true_r. simpl in Ht. rewrite Ht, <- max_run_prefix.
    destruct (bytes_cmp k (replicate n Byte.xff)); simpl; split; congruence.
  - destruct (lookup_lt_is_Some_2 p j ltac:(lia)) as [b Hb].
    rewrite (take_S_r _ _ _ Hb) in *. rewrite <- app_assoc in Ht. simpl in Ht.
    assert (b <> Byte.xff) as Hff by (intros ->; now apply (Hj j)).
    pose proof (prefix_window (take j p) b n k Hff) as H. rewrite <- Ht in H. rewrite <- H.
    rewrite alter_app_r_alt by (rewrite length_take; lia).
    rewrite length_take, Nat.min_l, Nat.sub_diag by lia. simpl.
    destruct (bytes_cmp k p), (bytes_cmp k (take j p ++ [byte_succ b])); simpl; intuition congruence.
Qed.

(** * Entries in key order *)

(** An entry of the tree: the leaf it is on, its index there, and its key. *)
Record Entry : Type := mkEntry {
  en_leaf : LeafInfo;
  en_index : Z;
  en_key : list byte;
}.

Definition entries_of (l : LeafInfo) : list Entry :=
  imap (fun j k => mkEntry l (Z.of_nat j) k) (lp_keys l).

Definition entries (leaves : list LeafInfo) : list Entry := concat (entries_of <$> leaves).

(** Only the single leaf of an empty tree has no entries. *)
Definition settled (leaves : list LeafInfo) : Prop :=
  forall l, l ∈ leaves -> lp_keys l = [] -> leaves = [l].

Lemma entries_of_lookup l j e :
  entries_of l !! j = Some e <-> exists k, lp_keys l !! j = Some k /\ e = mkEntry l (Z.of_nat j) k.
Proof.
  unfold entries_of. rewrite list_lookup_imap. destruct (lp_keys l !! j) as [k|]; simpl.
  - split; [intros [= <-]; eauto | intros (k' & [= <-] & ->); reflexivity].
  - split; [discriminate | intros (k' & H & _); discriminate].
Qed.

Lemma zlen_entries_of l : zlen (entries_of l) = zlen (lp_keys l).
Proof. unfold zlen, entries_of. now rewrite length_imap. Qed.

Lemma entries_of_keys l : en_key <$> entries_of l = lp_keys l.
Proof.
  apply list_eq. intros j. rewrite list_lookup_fmap. unfold entries_of. rewrite list_lookup_imap.
  now destruct (lp_keys l !! j).
Qed.

Lemma entries_keys leaves : en_key <$> entries leaves = concat (map lp_keys leaves).
Proof.
  induction leaves as [|l leaves IH]; [reflexivity|]. unfold entries in *.
  rewrite fmap_cons. simpl. rewrite fmap_app, IH. now rewrite entries_of_keys.
Qed.

Lemma entries_app L1 L2 : entries (L1 ++ L2) = entries L1 ++ entries L2.
Proof. unfold entries. now rewrite fmap_app, concat_app. Qed.

Lemma entries_cons l L : entries (l :: L) = entries_of l ++ entries L.
Proof. reflexivity. Qed.

Lemma elem_of_entries e leaves : e ∈ entries leaves -> en_leaf e ∈ leaves /\ en_key e ∈ lp_keys (en_leaf e).
Proof.
  intros (i & es & Hi & He)%elem_of_concat. rewrite list_lookup_fmap in Hi.
  destruct (leaves !! i) as [l|] eqn:Hl; [|discriminate]. injection Hi as <-.
  apply list_elem_of_lookup in He as [j (k & Hk & ->)%entries_of_lookup]. simpl.
  split; eapply list_elem_of_lookup_2; eauto.
Qed.

Lemma settled_nonempty leaves l : settled leaves -> (1 < length leaves)%nat -> l ∈ leaves -> lp_keys l <> [].
Proof. intros Hs Hlen Hl Hk. rewrite (Hs l Hl Hk) in Hlen. simpl in Hlen. lia. Qed.

Lemma filter_all {A} (P : A -> bool) xs : (forall x, x ∈ xs -> P x = true) -> List.filter P xs = xs.
Proof.
  induction xs as [|x xs IH]; intros H; simpl; [reflexivity|].
  rewrite (H x) by left. f_equal. apply IH. intros; apply H; now right.
Qed.

Lemma filter_nothing {A} (P : A -> bool) xs : (forall x, x ∈ xs -> P x = false) -> List.filter P xs = [].
Proof.
  induction xs as [|x xs IH]; intros H; simpl; [reflexivity|].
  rewrite (H x) by left. apply IH. intros; apply H; now right.
Qed.

Lemma filter_cut {A} (P : A -> bool) xs n :
  (forall j x, xs !! j = Some x -> P x = (j <? n)%nat) -> List.filter P xs = take n xs.
Proof.
  revert n; induction xs as [|x xs IH]; intros n H; [now rewrite take_nil|].
  pose proof (H 0%nat x eq_refl) as H0. simpl. rewrite H0. destruct n as [|n]; simpl.
  - rewrite (filter_nothing P); [reflexivity|]. intros y [j Hj]%list_elem_of_lookup.
    apply (H (S j) y Hj).
  - f_equal. apply IH. intros j y Hj. rewrite (H (S j) y Hj). reflexivity.
Qed.

Lemma zlen_pos {A} (xs : list A) : xs <> [] -> 0 < zlen xs.
Proof. destruct xs; [congruence|]. rewrite zlen_cons. pose proof (zlen_nonneg xs). lia. Qed.

Lemma head_cons {A} (xs : list A) x : head xs = Some x -> exists ys, xs = x :: ys.
Proof. destruct xs; intros [= ->]. eauto. Qed.

(** * Ranges over a well-formed tree *)

Section Range.
Context {Store : Type} {TS : TreeStore Store} {file : PageOrdinal -> option (list byte)}.
Context {page_count max_depth : Z} {SL : StoreLaws Store file page_count max_depth}.
Context (t : Tree) (Hid : 1 <= tree_id t).
Abbreviation E := (tree_encoding t).
Context {HL : LawfulEncoding E}.
Context (h : nat) (root : PageOrdinal) (leaves : list LeafInfo).
Context (Hwf : well_formed (file := file) (page_count := page_count) (max_depth := max_depth) t h root leaves).
Context (r : KeyRange).

(** The bounds of the range are keys of the encoding. *)
Definition bound_ok (b : Bound) : Prop := forall k, bound_key b = Some k -> key_ok k.
Context (Hlo : bound_ok (kr_lower r)) (Hhi : bound_ok (kr_upper r)).

Abbreviation low e := (lower_ok ord r (en_key e)).
Abbreviation up e := (upper_ok ord r (en_key e)).

Definition lower_start (lower : Bound) : option (SearchOp * list byte) :=
  match lower with
  | Unbounded => None
  | Included k => Some (LowerBound, k)
  | Excluded k => Some (UpperBound, k)
  end.

Lemma upper_ok_end k :
  upper_ok ord r k = match upper_end (kr_upper r) with
                     | Some (op, hi) => negb (op_holds op (ord k hi))
                     | None => true
                     end.
Proof. clear Hlo Hhi. unfold upper_ok. destruct (kr_upper r); simpl; try reflexivity. now destruct (ord k key). Qed.

Lemma lower_ok_start k :
  lower_ok ord r k = match lower_start (kr_lower r) with
                     | Some (op, lo) => op_holds op (ord k lo)
                     | None => true
                     end.
Proof. clear Hlo Hhi. unfold lower_ok. now destruct (kr_lower r). Qed.

Lemma upper_end_ok op k : upper_end (kr_upper r) = Some (op, k) -> key_ok k /\ op <> Equal.
Proof.
  intros H. unfold bound_ok in Hhi. destruct (kr_upper r); simpl in *; simplify_eq; split; auto; discriminate.
Qed.

Lemma lower_start_ok op k : lower_start (kr_lower r) = Some (op, k) -> key_ok k /\ op <> Equal.
Proof.
  intros H. unfold bound_ok in Hlo. destruct (kr_lower r); simpl in *; simplify_eq; split; auto; discriminate.
Qed.

(** The searches a bound uses are monotone in the key. *)
Lemma op_holds_mono op a b q :
  op <> Equal -> key_ok a -> key_ok b -> key_ok q -> ord a b = Lt ->
  op_holds op (ord a q) = true -> op_holds op (ord b q) = true.
Proof.
  intros Hop Ha Hb Hq Hab H.
  assert (ord b q = Gt) as ->; [|now destruct op].
  apply (ord_lt_gt E q b); auto. destruct (ord a q) eqn:Haq.
  - apply (cmp_eq _ _ ord_order) in Haq; auto. now subst.
  - destruct op; simpl in H; congruence.
  - apply (cmp_trans _ _ ord_order q a b); auto. now apply (ord_lt_gt E q a).
Qed.

Lemma low_mono a b : key_ok a -> key_ok b -> ord a b = Lt ->
  lower_ok ord r a = true -> lower_ok ord r b = true.
Proof.
  rewrite !lower_ok_start. destruct (lower_start _) as [[op lo]|] eqn:Hl; [|auto].
  apply lower_start_ok in Hl as [Hk Hop]. intros. eapply op_holds_mono; [exact Hop|..|eassumption]; auto.
Qed.

Lemma up_mono a b : key_ok a -> key_ok b -> ord a b = Lt ->
  upper_ok ord r b = true -> upper_ok ord r a = true.
Proof.
  rewrite !upper_ok_end. destruct (upper_end _) as [[op hi]|] eqn:Hu; [|auto].
  apply upper_end_ok in Hu as [Hk Hop]. intros Ha Hb Hab H.
  destruct (op_holds op (ord a hi)) eqn:Hc; [|reflexivity].
  rewrite (op_holds_mono op a b hi) in H by auto. discriminate.
Qed.

Lemma tree_leaves_ok : Forall (leaf_ok (file := file) t) leaves.
Proof. exact (proj2 (subtree_leaves _ _ _ _ (wf_subtree _ _ _ _ Hwf))). Qed.

Lemma entry_key_ok e : e ∈ entries leaves -> key_ok (en_key e).
Proof. intros [Hl Hk]%elem_of_entries. exact (leaf_key_ok _ _ _ _ tree_leaves_ok Hl Hk). Qed.

Definition entry_lt (a b : Entry) : Prop := ord (en_key a) (en_key b) = Lt.

Lemma entries_sorted : StronglySorted entry_lt (entries leaves).
Proof.
  pose proof (wf_sorted _ _ _ _ Hwf) as Hs. rewrite <- entries_keys in Hs.
  induction (entries leaves) as [|e es IH]; [constructor|].
  rewrite fmap_cons in Hs. apply StronglySorted_inv in Hs as [Hs Hall]. constructor; [auto|].
  rewrite Forall_fmap in Hall. exact Hall.
Qed.

(** Entries of an earlier part of the tree sort below those of a later part. *)
Lemma entries_before X Y a b :
  entries leaves = X ++ Y -> a ∈ X -> b ∈ Y -> entry_lt a b.
Proof.
  intros Hsplit Ha Hb. pose proof entries_sorted as Hs. rewrite Hsplit in Hs.
  apply StronglySorted_app in Hs as (H & _ & _). now apply H.
Qed.

Lemma leaf_entries_lt L1 l L2 i j a b :
  leaves = L1 ++ l :: L2 -> entries_of l !! i = Some a -> entries_of l !! j = Some b -> (i < j)%nat ->
  entry_lt a b.
Proof.
  intros Hsplit Ha Hb Hij. pose proof entries_sorted as Hs.
  rewrite Hsplit, entries_app, entries_cons in Hs.
  apply StronglySorted_app in Hs as (_ & _ & Hs). apply StronglySorted_app in Hs as (_ & Hs & _).
  eapply StronglySorted_lookup_lt; eauto.
Qed.

Lemma split_elem L1 l L2 e :
  leaves = L1 ++ l :: L2 -> e ∈ entries L1 \/ e ∈ entries_of l \/ e ∈ entries L2 -> e ∈ entries leaves.
Proof.
  intros Hs H. rewrite Hs, entries_app, entries_cons, !elem_of_app. tauto.
Qed.

Lemma entries_of_elem l j e : entries_of l !! j = Some e -> e ∈ entries_of l.
Proof. apply list_elem_of_lookup_2. Qed.

(** [a] comes before [b] in the tree. *)
Definition precedes (a b : Entry) : Prop :=
  a ∈ entries leaves /\ b ∈ entries leaves /\ entry_lt a b.

Lemma precedes_leaf L1 l L2 i j a b :
  leaves = L1 ++ l :: L2 -> entries_of l !! i = Some a -> entries_of l !! j = Some b -> (i < j)%nat ->
  precedes a b.
Proof.
  intros Hsplit Ha Hb Hij.
  split; [|split]; [eapply split_elem; [exact Hsplit|]; eauto using entries_of_elem ..|].
  eapply leaf_entries_lt; eauto.
Qed.

Lemma precedes_left L1 l L2 a b :
  leaves = L1 ++ l :: L2 -> a ∈ entries L1 -> b ∈ entries_of l \/ b ∈ entries L2 -> precedes a b.
Proof.
  intros Hsplit Ha Hb. split; [|split]; [eapply split_elem; [exact Hsplit|]; tauto ..|].
  apply (entries_before (entries L1) (entries (l :: L2))); [now rewrite Hsplit, entries_app | exact Ha |].
  now rewrite entries_cons, elem_of_app.
Qed.

Lemma precedes_right L1 l L2 a b :
  leaves = L1 ++ l :: L2 -> a ∈ entries_of l -> b ∈ entries L2 -> precedes a b.
Proof.
  intros Hsplit Ha Hb. split; [|split]; [eapply split_elem; [exact Hsplit|]; tauto ..|].
  apply (entries_before (entries (L1 ++ [l])) (entries L2)); [|rewrite entries_app, elem_of_app; right|exact Hb].
  - rewrite Hsplit. change (l :: L2) with ([l] ++ L2). now rewrite app_assoc, entries_app.
  - now rewrite entries_cons, app_nil_r.
Qed.

Lemma low_precedes a b : precedes a b -> low b = false -> low a = false.
Proof.
  intros (Ha & Hb & Hlt) Hf. apply not_true_is_false. intros Ht.
  rewrite (low_mono (en_key a) (en_key b)) in Hf; auto using entry_key_ok; discriminate.
Qed.

Lemma low_follows a b : precedes a b -> low a = true -> low b = true.
Proof. intros Hp Ha. destruct (low b) eqn:Hb; [reflexivity|]. now rewrite (low_precedes a b Hp Hb) in Ha. Qed.

Lemma up_follows a b : precedes a b -> up a = false -> up b = false.
Proof.
  intros (Ha & Hb & Hlt) Hf. apply not_true_is_false. intros Ht.
  rewrite (up_mono (en_key a) (en_key b)) in Hf; auto using entry_key_ok; discriminate.
Qed.

(** Where the lower bound falls on a leaf. *)
Definition lower_ref (l : LeafInfo) : option Z :=
  match lower_start (kr_lower r) with
  | Some (op, k) => leaf_ref E op k (lp_keys l)
  | None => Some 0
  end.

Lemma lower_split L1 l L2 :
  leaves = L1 ++ l :: L2 ->
  match lower_ref l with
  | Some i => 0 <= i <= zlen (lp_keys l) /\
      (forall j e, entries_of l !! j = Some e -> low e = (i <=? Z.of_nat j)) /\
      (0 < i -> forall e, e ∈ entries L1 -> low e = false) /\
      (forall e, e ∈ entries L2 -> low e = true)
  | None => (forall e, e ∈ entries_of l -> low e = false) /\
      (lp_keys l <> [] -> forall e, e ∈ entries L1 -> low e = false)
  end.
Proof.
  intros Hsplit. unfold lower_ref. destruct (lower_start (kr_lower r)) as [[op lo]|] eqn:Hl.
  2:{ pose proof (zlen_nonneg (lp_keys l)). split; [lia|].
      split; [|split; [lia|]]; intros; rewrite lower_ok_start, Hl; [destruct (Z.leb_spec 0 (Z.of_nat j)); [reflexivity|lia] | reflexivity]. }
  assert (forall e, low e = op_holds op (ord (en_key e) lo)) as Hlow by (intros; now rewrite lower_ok_start, Hl).
  unfold leaf_ref. destruct (first_index _ (lp_keys l) 0) as [i|] eqn:Hf.
  - pose proof (first_index_bound _ _ _ _ Hf) as Hb. apply first_index_Some in Hf as (_ & k & Hk & HP & Hpre).
    rewrite Z.sub_0_r in *.
    assert (entries_of l !! Z.to_nat i = Some (mkEntry l i k)) as He.
    { apply entries_of_lookup. exists k. split; [exact Hk|]. now rewrite Z2Nat.id by lia. }
    assert (low (mkEntry l i k) = true) as Hi by (now rewrite Hlow).
    assert (forall j e, entries_of l !! j = Some e -> Z.of_nat j < i -> low e = false) as Hbelow.
    { intros j e (k' & Hk' & ->)%entries_of_lookup Hlt. rewrite Hlow. exact (Hpre j k' Hk' Hlt). }
    split; [lia|]. split; [|split].
    + intros j e Hj. destruct (Z.leb_spec i (Z.of_nat j)) as [Hge|Hlt]; [|now apply (Hbelow j)].
      destruct (decide (j = Z.to_nat i)) as [->|Hne]; [congruence|].
      apply (low_follows (mkEntry l i k) e); [|exact Hi].
      apply (precedes_leaf L1 l L2 (Z.to_nat i) j); auto. lia.
    + intros Hpos e He'. destruct (lookup_lt_is_Some_2 (entries_of l) 0) as [e0 He0].
      { apply lookup_lt_Some in He. lia. }
      apply (low_precedes e e0); [|now apply (Hbelow 0%nat)].
      apply (precedes_left L1 l L2); auto. left. eapply entries_of_elem; eauto.
    + intros e He'. apply (low_follows (mkEntry l i k) e); [|exact Hi].
      apply (precedes_right L1 l L2); auto. eapply entries_of_elem; eauto.
  - rewrite first_index_None in Hf.
    assert (forall e, e ∈ entries_of l -> low e = false) as Hall.
    { intros e [j (k & Hk & ->)%entries_of_lookup]%list_elem_of_lookup. rewrite Hlow. simpl.
      apply Hf. eapply list_elem_of_lookup_2; eauto. }
    split; [exact Hall|]. intros Hne e He'.
    destruct (lookup_lt_is_Some_2 (entries_of l) 0) as [e0 He0].
    { pose proof (zlen_entries_of l). unfold zlen in *. destruct (lp_keys l); [congruence | simpl in *; lia]. }
    apply (low_precedes e e0); [|eapply Hall, entries_of_elem; eauto].
    apply (precedes_left L1 l L2); auto. left. eapply entries_of_elem; eauto.
Qed.

(** Where the upper bound falls on a leaf. *)
Definition upper_ref (l : LeafInfo) : option Z :=
  match upper_end (kr_upper r) with
  | Some (op, k) => leaf_ref E op k (lp_keys l)
  | None => None
  end.

Lemma upper_split L1 l L2 :
  leaves = L1 ++ l :: L2 ->
  match upper_ref l with
  | Some i => 0 <= i < zlen (lp_keys l) /\
      (forall j e, entries_of l !! j = Some e -> up e = (Z.of_nat j <? i)) /\
      (forall e, e ∈ entries L2 -> up e = false)
  | None => forall e, e ∈ entries_of l -> up e = true
  end.
Proof.
  intros Hsplit. unfold upper_ref. destruct (upper_end (kr_upper r)) as [[op hi]|] eqn:Hu.
  2:{ intros e _. rewrite upper_ok_end, Hu. reflexivity. }
  assert (forall e, up e = negb (op_holds op (ord (en_key e) hi))) as Hup by (intros; now rewrite upper_ok_end, Hu).
  unfold leaf_ref. destruct (first_index _ (lp_keys l) 0) as [i|] eqn:Hf.
  - pose proof (first_index_bound _ _ _ _ Hf) as Hb. apply first_index_Some in Hf as (_ & k & Hk & HP & Hpre).
    rewrite Z.sub_0_r in *.
    assert (entries_of l !! Z.to_nat i = Some (mkEntry l i k)) as He.
    { apply entries_of_lookup. exists k. split; [exact Hk|]. now rewrite Z2Nat.id by lia. }
    assert (up (mkEntry l i k) = false) as Hi by (rewrite Hup; simpl; now rewrite HP).
    split; [lia|]. split.
    + intros j e Hj. destruct (Z.ltb_spec (Z.of_nat j) i) as [Hlt|Hge].
      * apply entries_of_lookup in Hj as (k' & Hk' & ->). rewrite Hup. simpl. now rewrite (Hpre j k' Hk' Hlt).
      * destruct (decide (j = Z.to_nat i)) as [->|Hne]; [congruence|].
        apply (up_follows (mkEntry l i k) e); [|exact Hi].
        apply (precedes_leaf L1 l L2 (Z.to_nat i) j); auto. lia.
    + intros e He'. apply (up_follows (mkEntry l i k) e); [|exact Hi].
      apply (precedes_right L1 l L2); auto. eapply entries_of_elem; eauto.
  - rewrite first_index_None in Hf. intros e [j (k & Hk & ->)%entries_of_lookup]%list_elem_of_lookup.
    rewrite Hup. simpl. rewrite Hf; [reflexivity|]. eapply list_elem_of_lookup_2; eauto.
Qed.

(** Where an ascending walk over the range starts: everything before that is
    below the lower bound, everything from there on is not. *)
Definition starts_at (x : option (PagePin * Z)) : Prop :=
  match x with
  | None => forall e, e ∈ entries leaves -> low e = false
  | Some (pin, i) => exists L1 l L2, leaves = L1 ++ l :: L2 /\ on_leaf l pin /\
      0 <= i < zlen (lp_keys l) /\
      (forall e, e ∈ entries L1 -> low e = false) /\
      (forall j e, entries_of l !! j = Some e -> low e = (i <=? Z.of_nat j)) /\
      (forall e, e ∈ entries L2 -> low e = true)
  end.

Lemma first_in_Some op q ls l i :
  first_in t op q ls = Some (l, i) ->
  exists L1 L2, ls = L1 ++ l :: L2 /\ leaf_ref E op q (lp_keys l) = Some i /\
    forall l', l' ∈ L1 -> leaf_ref E op q (lp_keys l') = None.
Proof.
  induction ls as [|l' ls IH]; simpl; [discriminate|].
  destruct (leaf_ref E op q (lp_keys l')) as [j|] eqn:Hj; intros H.
  - injection H as <- <-. exists [], ls. split; [reflexivity|]. split; [exact Hj|]. intros x Hx. inversion Hx.
  - destruct (IH H) as (L1 & L2 & -> & Hi & Hn). exists (l' :: L1), L2. split; [reflexivity|].
    split; [exact Hi|]. intros x [->|Hx]%elem_of_cons; auto.
Qed.

Lemma first_in_None op q ls l : first_in t op q ls = None -> l ∈ ls -> leaf_ref E op q (lp_keys l) = None.
Proof.
  induction ls as [|l' ls IH]; simpl; intros H Hl; [inversion Hl|].
  destruct (leaf_ref E op q (lp_keys l')) eqn:Hj; [discriminate|].
  apply elem_of_cons in Hl as [->|Hl]; auto.
Qed.

Lemma entries_of_leaf e L : e ∈ entries L -> exists l, l ∈ L /\ e ∈ entries_of l.
Proof.
  intros (i & es & Hi & He)%elem_of_concat. rewrite list_lookup_fmap in Hi.
  destruct (L !! i) as [l|] eqn:Hl; [|discriminate]. injection Hi as <-.
  exists l. split; [eapply list_elem_of_lookup_2; eauto | exact He].
Qed.

(** A search with a monotone operation splits the tree in two. *)
Lemma first_in_splits op q (P : Entry -> bool) x :
  key_ok q -> op <> Equal -> (forall e, P e = op_holds op (ord (en_key e) q)) ->
  result_is x (first_in t op q leaves) ->
  match x with
  | None => forall e, e ∈ entries leaves -> P e = false
  | Some (pin, i) => exists L1 l L2, leaves = L1 ++ l :: L2 /\ on_leaf l pin /\
      0 <= i < zlen (lp_keys l) /\
      (forall e, e ∈ entries L1 -> P e = false) /\
      (forall j e, entries_of l !! j = Some e -> P e = (i <=? Z.of_nat j)) /\
      (forall e, e ∈ entries L2 -> P e = true)
  end.
Proof.
  intros Hq Hop HP Hx.
  assert (forall l, leaf_ref E op q (lp_keys l) = None -> forall e, e ∈ entries_of l -> P e = false) as Hnone.
  { intros l Hn e [j (k & Hk & ->)%entries_of_lookup]%list_elem_of_lookup. rewrite HP. simpl.
    unfold leaf_ref in Hn. rewrite first_index_None in Hn. apply Hn. eapply list_elem_of_lookup_2; eauto. }
  assert (forall a b, precedes a b -> P a = true -> P b = true) as Hmono.
  { intros a b (Ha & Hb & Hlt). rewrite !HP. apply op_holds_mono; auto using entry_key_ok. }
  destruct (first_in t op q leaves) as [[l i]|] eqn:Hf; destruct x as [[pin j]|]; try contradiction.
  - destruct Hx as [-> Hpin]. apply first_in_Some in Hf as (L1 & L2 & Hsplit & Hi & Hn).
    exists L1, l, L2. split; [exact Hsplit|]. split; [exact Hpin|].
    unfold leaf_ref in Hi. pose proof (first_index_bound _ _ _ _ Hi) as Hb.
    apply first_index_Some in Hi as (_ & k & Hk & Hholds & Hpre). rewrite Z.sub_0_r in *.
    assert (entries_of l !! Z.to_nat i = Some (mkEntry l i k)) as He.
    { apply entries_of_lookup. exists k. split; [exact Hk|]. now rewrite Z2Nat.id by lia. }
    assert (P (mkEntry l i k) = true) as HPi by now rewrite HP.
    split; [lia|]. split; [|split].
    + intros e He'. apply entries_of_leaf in He' as (l' & Hl' & He'). eapply Hnone; eauto.
    + intros m e Hm. destruct (Z.leb_spec i (Z.of_nat m)) as [Hge|Hlt].
      * destruct (decide (m = Z.to_nat i)) as [->|Hne]; [congruence|].
        apply (Hmono (mkEntry l i k) e); [|exact HPi].
        apply (precedes_leaf L1 l L2 (Z.to_nat i) m); auto. lia.
      * apply entries_of_lookup in Hm as (k' & Hk' & ->). rewrite HP. exact (Hpre m k' Hk' Hlt).
    + intros e He'. apply (Hmono (mkEntry l i k) e); [|exact HPi].
      apply (precedes_right L1 l L2); auto. eapply entries_of_elem; eauto.
  - intros e He. apply entries_of_leaf in He as (l' & Hl' & He'). eapply Hnone; eauto. eapply first_in_None; eauto.
Qed.

Lemma range_start_spec :
  settled leaves -> triple t (load_error (file := file)) (range_start t (kr_lower r)) starts_at.
Proof.
  intros Hset. unfold range_start. destruct (lower_start (kr_lower r)) as [[op lo]|] eqn:Hl.
  - destruct (lower_start_ok op lo Hl) as [Hk Hop].
    replace (match kr_lower r with Unbounded => min_leaf t | Included k => search t k LowerBound
      | Excluded k => search t k UpperBound end) with (search t lo op)
      by (destruct (kr_lower r); simpl in Hl; now simplify_eq).
    eapply triple_weaken; [eapply search_spec; [exact Hid | exact Hwf | exact Hk]|].
    intros x Hx. pose proof (first_in_splits op lo (fun e => low e) x Hk Hop) as Hsp.
    unfold starts_at. apply Hsp; [|exact Hx]. intros e. now rewrite lower_ok_start, Hl.
  - assert (kr_lower r = Unbounded) as Hunb by (now destruct (kr_lower r)). rewrite Hunb.
    eapply triple_weaken; [eapply (edge_leaf_spec t Hid h root leaves true); exact Hwf|].
    assert (forall e, low e = true) as Hall by (intros; now rewrite lower_ok_start, Hl).
    intros x (l & Hedge & Hx). apply head_cons in Hedge as [L2 Hlv]. destruct x as [[pin i]|].
    + destruct Hx as (Hne & Hpin & ->). exists [], l, L2. split; [exact Hlv|]. split; [exact Hpin|].
      split; [pose proof (zlen_pos _ Hne); lia|].
      split; [intros e He; inversion He|]. split; [|auto].
      intros j e _. rewrite Hall. destruct (Z.leb_spec 0 (Z.of_nat j)); [reflexivity | lia].
    + simpl. intros e He. assert (leaves = [l]) as Heq by (apply Hset; [rewrite Hlv; left | exact Hx]).
      rewrite Heq in He. rewrite entries_cons in He. unfold entries_of in He. rewrite Hx in He. inversion He.
Qed.

(** ** Counting *)

Lemma upper_index_spec l :
  leaf_ok (file := file) t l -> upper_index t (kr_upper r) (lp_view l) = Ok (upper_ref l).
Proof.
  intros [(_ & _ & Hp) Hk]. unfold upper_index, upper_ref.
  destruct (upper_end (kr_upper r)) as [[op hi]|] eqn:Hu; [|reflexivity].
  apply upper_end_ok in Hu as [Hok _]. rewrite digest_ok by exact Hok. cbn [rbind].
  now apply leaf_search_ref.
Qed.

Lemma split_leaf_ok L1 l L2 : leaves = L1 ++ l :: L2 -> leaf_ok (file := file) t l.
Proof.
  intros Hsplit. pose proof tree_leaves_ok as Hall. rewrite Hsplit in Hall.
  now apply Forall_app in Hall as [_ [? _]%Forall_cons].
Qed.

Lemma split_chain L1 l L2 :
  leaves = L1 ++ l :: L2 ->
  right_sibling (lp_view l) = lp_ordinal <$> head L2 /\
  (forall l' L, L2 = l' :: L -> left_sibling (lp_view l') = Some (lp_ordinal l)).
Proof.
  intros Hsplit. pose proof (wf_chain _ _ _ _ Hwf) as Hc. rewrite Hsplit in Hc. eapply chained_app; eauto.
Qed.

Lemma leaf_count l : leaf_ok (file := file) t l -> entry_count (lp_view l) = zlen (lp_keys l).
Proof. intros [(_ & _ & Hp) _]. symmetry. apply (sp_count _ _ _ Hp). Qed.

(** What is left to count from entry [i] of a leaf. *)
Definition left_from (i : Z) (l : LeafInfo) (L2 : list LeafInfo) : list Entry :=
  List.filter (fun e => up e) (drop (Z.to_nat i) (entries_of l) ++ entries L2).

Lemma left_from_Some L1 l L2 i b :
  leaves = L1 ++ l :: L2 -> 0 <= i -> upper_ref l = Some b ->
  zlen (left_from i l L2) = saturating_sub b i.
Proof.
  intros Hsplit Hi Hb. pose proof (upper_split L1 l L2 Hsplit) as H. rewrite Hb in H.
  destruct H as (Hr & Hpos & HL2). unfold left_from. rewrite List.filter_app, (filter_nothing _ (entries L2)) by exact HL2.
  rewrite app_nil_r, (filter_cut _ _ (Z.to_nat (b - i))).
  - unfold zlen, saturating_sub in *. rewrite length_take, length_drop.
    pose proof (zlen_entries_of l). unfold zlen in *. lia.
  - intros j e Hj. rewrite lookup_drop in Hj. rewrite (Hpos _ _ Hj).
    destruct (Z.ltb_spec (Z.of_nat (Z.to_nat i + j)) b), (Nat.ltb_spec j (Z.to_nat (b - i))); lia || reflexivity.
Qed.

Lemma left_from_None L1 l L2 i :
  leaves = L1 ++ l :: L2 -> 0 <= i -> upper_ref l = None ->
  zlen (left_from i l L2) =
  saturating_sub (zlen (lp_keys l)) i + zlen (List.filter (fun e => up e) (entries L2)).
Proof.
  intros Hsplit Hi Hb. pose proof (upper_split L1 l L2 Hsplit) as H. rewrite Hb in H.
  unfold left_from. rewrite List.filter_app, zlen_app. f_equal.
  rewrite filter_all.
  - unfold zlen, saturating_sub in *. rewrite length_drop. pose proof (zlen_entries_of l). unfold zlen in *. lia.
  - intros e [j Hj]%list_elem_of_lookup. rewrite lookup_drop in Hj. apply H. eapply entries_of_elem; eauto.
Qed.

Lemma count_loop_eq steps upper page index count :
  count_loop t steps upper page index count =
  let! view := lift (pin_view page) in
  let! bound_index := lift (upper_index t upper view) in
  match bound_index with
  | Some bound_index => sret (count + saturating_sub bound_index index)
  | None =>
      let count := count + saturating_sub (entry_count view) index in
      match right_sibling view with
      | None =>
          let! at_end := ends_at t (pin_ordinal page) true in
          fail! negb at_end with at_page Error_corrupt (pin_ordinal page) in
          sret count
      | Some next =>
          match steps with
          | O => sfail Error_corrupt
          | S steps =>
              let! page := step_sibling t (pin_ordinal page) next true in
              count_loop t steps upper page 0 count
          end
      end
  end.
Proof. now destruct steps. Qed.

Lemma count_loop_spec L1 l L2 steps page i count :
  leaves = L1 ++ l :: L2 -> (length L2 <= steps)%nat -> on_leaf l page -> 0 <= i ->
  triple t (load_error (file := file)) (count_loop t steps (kr_upper r) page i count)
    (eq (count + zlen (left_from i l L2))).
Proof.
  revert L1 l steps page i count.
  induction L2 as [|l' L2 IH]; intros L1 l steps page i count Hsplit Hsteps Hpin Hi;
    pose proof (split_leaf_ok L1 l _ Hsplit) as Hl; destruct (split_chain L1 l _ Hsplit) as [Hright Hleft];
    rewrite count_loop_eq;
    (eapply triple_bind; [eapply (triple_view _ _ _ _ (eq (lp_view l))); [exact Hpin | reflexivity]|]);
    intros ? <-;
    (eapply triple_bind; [eapply (triple_lift_ok _ _ _ _ (eq (upper_ref l)));
       [now apply upper_index_spec | reflexivity]|]); intros ? <-;
    (destruct (upper_ref l) as [b|] eqn:Hb;
       [apply triple_ret; now rewrite (left_from_Some L1 l _ i b Hsplit Hi Hb)|]);
    rewrite (left_from_None L1 l _ i Hsplit Hi Hb), (leaf_count l Hl);
    cbv zeta; rewrite Hright; simpl; rewrite (proj1 (proj1 Hpin)).
  - eapply triple_bind; [eapply (ends_at_last t Hid h root leaves); eauto|]. intros ? <-.
    apply triple_ret. change (zlen (@nil Entry)) with 0. lia.
  - destruct steps as [|steps]; simpl in Hsteps; [lia|].
    eapply triple_bind; [apply (step_sibling_spec t Hid true l l')|].
    + apply (split_leaf_ok (L1 ++ [l]) l' L2). now rewrite <- app_assoc.
    + now eapply Hleft.
    + intros page' Hpin'.
      eapply triple_weaken; [apply (IH (L1 ++ [l]) l' steps page' 0); [now rewrite <- app_assoc | lia | exact Hpin' | lia]|].
      intros c <-. unfold left_from. rewrite entries_cons, drop_0. lia.
Qed.
End Range.

Section CountRange.
Context {Store : Type} {TS : TreeStore Store} {file : PageOrdinal -> option (list byte)}.
Context {page_count max_depth : Z} {SL : StoreLaws Store file page_count max_depth}.
Context (t : Tree) (Hid : 1 <= tree_id t).
Abbreviation E := (tree_encoding t).
Context {HL : LawfulEncoding E} {HC : CheckableEncoding E}.
Context (h : nat) (root : PageOrdinal) (leaves : list LeafInfo).
Context (Hwf : well_formed (file := file) (page_count := page_count) (max_depth := max_depth) t h root leaves).

(** Bounds a query refuses: one that is no key of the encoding, or a lower one
    that sorts above the upper one. *)
Definition bad_bounds (lower upper : Bound) : Prop :=
  (exists k, (bound_key lower = Some k \/ bound_key upper = Some k) /\ validate_key E k <> Ok tt) \/
  (exists lo hi, bound_key lower = Some lo /\ bound_key upper = Some hi /\ ord lo hi = Gt).

Lemma validate_bound_cases b :
  (validate_bound t b = Ok tt /\ bound_ok t b) \/
  (validate_bound t b = Err Error_invalid /\ exists k, bound_key b = Some k /\ validate_key E k <> Ok tt).
Proof.
  unfold validate_bound, bound_ok. destruct (bound_key b) as [k|].
  - destruct (validate_key E k) as [[]|e] eqn:Hv.
    + left. split; [reflexivity|]. intros ? [= <-]. now apply validated_ok.
    + right. split; [|exists k; split; [reflexivity | congruence]].
      unfold validate_key in Hv. repeat case_match; congruence.
  - left. split; [reflexivity | discriminate].
Qed.

Lemma check_order_cases lower upper :
  bound_ok t lower -> bound_ok t upper ->
  check_order t lower upper = Ok tt \/
  (check_order t lower upper = Err Error_invalid /\
   exists lo hi, bound_key lower = Some lo /\ bound_key upper = Some hi /\ ord lo hi = Gt).
Proof.
  unfold check_order, bound_ok. intros Hlo Hhi.
  destruct (bound_key lower) as [lo|], (bound_key upper) as [hi|]; auto.
  rewrite compare_ok by auto. cbn [rbind]. case_bool_decide; [right | left; reflexivity].
  split; [reflexivity|]. eauto.
Qed.

(** The entries of the range are those from the start up to the upper bound. *)
Lemma starts_at_filter r pin i :
  kr_empty r = false -> starts_at (SL := SL) t leaves r (Some (pin, i)) ->
  exists L1 l L2, leaves = L1 ++ l :: L2 /\ on_leaf l pin /\ 0 <= i < zlen (lp_keys l) /\
    List.filter (fun e => in_range ord r (en_key e)) (entries leaves) = left_from t r i l L2.
Proof.
  intros Hemp (L1 & l & L2 & Hsplit & Hpin & Hi & H1 & Hl & H2). exists L1, l, L2.
  split; [exact Hsplit|]. split; [exact Hpin|]. split; [exact Hi|].
  rewrite Hsplit, entries_app, entries_cons. rewrite List.filter_app, filter_nothing, app_nil_l.
  2:{ intros e He. unfold in_range. rewrite (H1 e He). now rewrite andb_false_r. }
  rewrite <- (take_drop (Z.to_nat i) (entries_of l)) at 1. rewrite <- app_assoc, List.filter_app, filter_nothing.
  2:{ intros e [j Hj]%list_elem_of_lookup. apply lookup_take_Some in Hj as [Hj Hlt].
      unfold in_range. rewrite (Hl j e Hj). destruct (Z.leb_spec i (Z.of_nat j)); [lia|]. now rewrite andb_false_r. }
  unfold left_from. simpl. apply List.filter_ext_in. intros e He. unfold in_range. rewrite Hemp. simpl.
  replace (lower_ok ord r (en_key e)) with true; [reflexivity|]. symmetry.
  apply list_elem_of_In, elem_of_app in He as [[j Hj]%list_elem_of_lookup|He]; [|now apply H2].
  rewrite lookup_drop in Hj. rewrite (Hl _ _ Hj). destruct (Z.leb_spec i (Z.of_nat (Z.to_nat i + j))); [reflexivity|lia].
Qed.

Lemma filter_keys (P : list byte -> bool) :
  zlen (List.filter P (concat (map lp_keys leaves))) = zlen (List.filter (fun e => P (en_key e)) (entries leaves)).
Proof.
  rewrite <- entries_keys. unfold zlen. induction (entries leaves) as [|e es IH]; [reflexivity|].
  rewrite fmap_cons. simpl. destruct (P (en_key e)); simpl; lia.
Qed.

Definition query_error (lower upper : Bound) (e : Error) : Prop :=
  load_error (file := file) e \/ (e = Error_invalid /\ bad_bounds lower upper).

Lemma triple_error {A} (R R' : Error -> Prop) (m : SM Store Error A) Q :
  triple t R m Q -> (forall e, R e -> R' e) -> triple t R' m Q.
Proof.
  intros Hm HR s Hs. destruct (Hm s Hs) as [Hs' H]. split; [exact Hs'|]. destruct (fst (m s)); auto.
Qed.

Lemma validate_bound_Err b e :
  validate_bound t b = Err e -> e = Error_invalid /\ exists k, bound_key b = Some k /\ validate_key E k <> Ok tt.
Proof.
  unfold validate_bound. destruct (bound_key b) as [k|]; [|discriminate]. intros He.
  split; [unfold validate_key in He; repeat case_match; congruence | exists k; split; congruence].
Qed.

(** Counting between bounds that are keys of the encoding. *)
Lemma count_known_spec lower upper :
  settled leaves -> bound_ok t lower -> bound_ok t upper ->
  triple t (query_error lower upper) (count_range t lower upper)
    (eq (zlen (List.filter (in_range ord (KeyRange_from_bounds lower upper)) (concat (map lp_keys leaves))))).
Proof.
  intros Hset Hlo Hhi. unfold count_range. set (r := KeyRange_from_bounds lower upper).
  do 2 (apply (triple_bind _ _ _ _ (fun _ => True));
    [apply triple_lift; auto; intros e (-> & k & Hk & Hv)%validate_bound_Err; right; (split; [reflexivity|]); left; exists k; auto|];
    intros _ _).
  apply (triple_bind _ _ _ _ (fun _ => True)).
  { destruct (check_order_cases lower upper Hlo Hhi) as [->|[-> H]]; apply triple_lift; try congruence; auto.
    intros e [= <-]. right. split; [reflexivity|]. right. exact H. }
  intros _ _. apply (triple_error (load_error (file := file))); [|now left].
  eapply triple_bind; [apply (range_start_spec t Hid h root leaves Hwf r Hlo Hset)|].
  intros [[pin i]|] Hst.
  - destruct (starts_at_filter r pin i eq_refl Hst) as (L1 & l & L2 & Hsplit & Hpin & Hi & Hf).
    apply triple_get. intros s Hs. rewrite (sl_count s (ti_store _ _ Hs)).
    eapply triple_weaken; [eapply (count_loop_spec t Hid h root leaves Hwf r Hhi L1 l L2); eauto; try lia|].
    + pose proof (wf_count _ _ _ _ Hwf) as Hc. rewrite Hsplit, zlen_app, zlen_cons in Hc.
      unfold saturating_add, usize_max, zlen, u64_max in *. lia.
    + intros n <-. rewrite filter_keys, Hf. lia.
  - apply triple_ret. rewrite filter_keys, filter_nothing; [reflexivity|].
    intros e He. unfold in_range. rewrite (Hst e He). now rewrite andb_false_r.
Qed.

Lemma count_range_spec lower upper :
  settled leaves ->
  triple t (query_error lower upper) (count_range t lower upper)
    (eq (zlen (List.filter (in_range ord (KeyRange_from_bounds lower upper)) (concat (map lp_keys leaves))))).
Proof.
  intros Hset. destruct (validate_bound_cases lower) as [[Hl Hlo]|[Hl (k & Hk & Hv)]];
    [destruct (validate_bound_cases upper) as [[Hu Hhi]|[Hu (k & Hk & Hv)]]|]; [now apply count_known_spec | |];
    intros s Hs; unfold count_range; rewrite Hl; cbn; rewrite ?Hu; cbn; (split; [exact Hs|]);
    right; (split; [reflexivity|]); left; exists k; auto.
Qed.

(** Counting a range of a well-formed tree returns exactly the number of its
    keys the range selects, for every combination of bounds, without reading a
    value.  It fails only when a page cannot be read, or with [InvalidArgument] on
    a bound that is no key or a pair of bounds in the wrong order; over a store
    that reads every page it succeeds on all other bounds. *)
Theorem count_range_correct lower upper s :
  settled leaves -> tree_inv t s ->
  let run := count_range t lower upper s in
  tree_inv t (snd run) /\
  match fst run with
  | Ok n => n = zlen (List.filter (in_range ord (KeyRange_from_bounds lower upper))
                        (concat (map lp_keys leaves)))
  | Err e => query_error lower upper e
  end /\
  ((forall o s bytes, store_ok s -> file o = Some bytes -> is_ok (fst (ts_page o s)) = true) ->
   ~ bad_bounds lower upper -> is_ok (fst run) = true).
Proof.
  intros Hset Hs run. destruct (count_range_spec lower upper Hset s Hs) as [Hinv Hr]. fold run in Hinv, Hr.
  split; [exact Hinv|]. destruct (fst run) as [n|e]; [split; [auto | reflexivity]|].
  split; [exact Hr|]. intros Hread Hgood. destruct Hr as [(o & s0 & bytes & Hok & Hf & He)|[_ Hbad]]; [|contradiction].
  specialize (Hread o s0 bytes Hok Hf). rewrite He in Hread. discriminate.
Qed.
End CountRange.

Lemma sample_settled : settled sample_leaves.
Proof.
  intros l Hl Hk. repeat (apply elem_of_cons in Hl as [->|Hl]; [discriminate Hk|]). inversion Hl.
Qed.

Lemma count_range_correct_witness :
  fst (count_range sample_tree (Excluded [Byte.x62]) Unbounded sample_state) = Ok 1.
Proof.
  pose proof (count_range_correct sample_tree ltac:(discriminate) 1 0 sample_leaves sample_tree_wf
    (Excluded [Byte.x62]) Unbounded sample_state sample_settled sample_state_inv) as (_ & H & Htotal).
  assert (is_ok (fst (count_range sample_tree (Excluded [Byte.x62]) Unbounded sample_state)) = true) as Hok.
  { apply Htotal.
    - intros o s bytes _ Hf. simpl. unfold image_pin. rewrite Hf. reflexivity.
    - intros [(k & [[= <-]|Hk] & Hv)|(lo & hi & _ & Hk & _)]; [now apply Hv | discriminate | discriminate]. }
  destruct (fst (count_range sample_tree (Excluded [Byte.x62]) Unbounded sample_state)); [|discriminate].
  rewrite H. reflexivity.
Defined.
