(* ===== verification/Cursor.v ===== *)
(** Cursors, [crates/drydb/src/query.rs].

    A cursor walks the leaves of one tree in either direction.  Its operations
    thread the cursor and the store; the class [CursorStore] adds to what a tree
    needs of the store the reservations a cursor makes for its buffers.  A
    [Charge] is the number of bytes it holds. *)

From Stdlib Require Import ZArith Lia.
From stdpp Require Import base list sorting gmap.
From coqutil Require Import Byte.
From S2P Require Import Prelude Errors Format Eytzinger Node Encoding Budget Page TreePage Btree Query.

#[local] Open Scope Z_scope.
#[local] Open Scope drydb_scope.

Class CursorStore (Store : Type) : Type := {
  (** [store.reserve(bytes)], evicting what it can, and [budget.try_reserve]. *)
  cs_reserve : Z -> SM Store Error Z;
  cs_try_reserve : Z -> SM Store Error Z;
  (** The capacity [Vec::reserve_exact(len)] allocates. *)
  cs_capacity : Z -> Z;
}.

Inductive KeySource : Type :=
| KeyOnPage (offset len : Z)
| Rebuilt.

Record Materialized : Type := mkMaterialized {
  mt_key : KeySource;
  mt_value_start : Z;
  mt_value_end : Z;
  mt_value_on_blob : bool;
}.

(** Where a cursor stands: the fields [position] saves and [restore] puts back. *)
Record Position : Type := mkPosition {
  ps_page : option PagePin;
  ps_index : Z;
  ps_leaf_limit : Z;
  ps_leaf_ends_scan : bool;
  ps_started : bool;
  ps_finished : bool;
  ps_page_steps_left : Z;
}.

Record Cursor : Type := mkCursor {
  cu_order : Order;
  cu_range : KeyRange;
  cu_pos : Position;
  cu_current : option Materialized;
  cu_key_buf : list byte;
  cu_key_capacity : Z;
  cu_key_charge : Z;
  cu_blob : option PagePin;
  cu_bounds_charge : Z;
}.

(** ** Field updates *)

Definition set_pos (p : Position) (c : Cursor) : Cursor :=
  mkCursor (cu_order c) (cu_range c) p (cu_current c) (cu_key_buf c) (cu_key_capacity c)
    (cu_key_charge c) (cu_blob c) (cu_bounds_charge c).
Definition set_current (m : option Materialized) (c : Cursor) : Cursor :=
  mkCursor (cu_order c) (cu_range c) (cu_pos c) m (cu_key_buf c) (cu_key_capacity c)
    (cu_key_charge c) (cu_blob c) (cu_bounds_charge c).
Definition set_blob (b : option PagePin) (c : Cursor) : Cursor :=
  mkCursor (cu_order c) (cu_range c) (cu_pos c) (cu_current c) (cu_key_buf c) (cu_key_capacity c)
    (cu_key_charge c) b (cu_bounds_charge c).
Definition set_buf (buf : list byte) (capacity : Z) (c : Cursor) : Cursor :=
  mkCursor (cu_order c) (cu_range c) (cu_pos c) (cu_current c) buf capacity
    (cu_key_charge c) (cu_blob c) (cu_bounds_charge c).
Definition set_charge (n : Z) (c : Cursor) : Cursor :=
  mkCursor (cu_order c) (cu_range c) (cu_pos c) (cu_current c) (cu_key_buf c) (cu_key_capacity c)
    n (cu_blob c) (cu_bounds_charge c).

Definition place (page : option PagePin) (index : Z) (p : Position) : Position :=
  mkPosition page index (ps_leaf_limit p) (ps_leaf_ends_scan p) (ps_started p) (ps_finished p)
    (ps_page_steps_left p).
Definition set_bounds (limit : Z) (ends_scan : bool) (p : Position) : Position :=
  mkPosition (ps_page p) (ps_index p) limit ends_scan (ps_started p) (ps_finished p)
    (ps_page_steps_left p).
Definition set_index (index : Z) (p : Position) : Position := place (ps_page p) index p.
Definition set_started (p : Position) : Position :=
  mkPosition (ps_page p) (ps_index p) (ps_leaf_limit p) (ps_leaf_ends_scan p) true (ps_finished p)
    (ps_page_steps_left p).
Definition set_steps (n : Z) (p : Position) : Position :=
  mkPosition (ps_page p) (ps_index p) (ps_leaf_limit p) (ps_leaf_ends_scan p) (ps_started p)
    (ps_finished p) n.

Definition position (c : Cursor) : Position := cu_pos c.

Definition restore (saved : Position) (c : Cursor) : Cursor :=
  set_blob None (set_current None (set_pos saved c)).

Definition cursor_finish (c : Cursor) : Cursor :=
  let p := cu_pos c in
  set_blob None (set_current None (set_pos
    (mkPosition None (ps_index p) (ps_leaf_limit p) (ps_leaf_ends_scan p) (ps_started p) true
       (ps_page_steps_left p)) c)).

Section Ops.
Context {Store : Type} `{!TreeStore Store} `{!CursorStore Store} (t : Tree).
Abbreviation M A := (SM Store Error A).
Abbreviation CM A := (SM (Cursor * Store) Error A).
Abbreviation E := (tree_encoding t).

Definition on_store {A} (m : M A) : CM A := fun cs =>
  let '(r, s) := m (snd cs) in (r, (fst cs, s)).
Definition cursor : CM Cursor := fun cs => (Ok (fst cs), cs).
Definition pos : CM Position := fun cs => (Ok (cu_pos (fst cs)), cs).
Definition set_cursor (f : Cursor -> Cursor) : CM unit := fun cs => (Ok tt, (f (fst cs), snd cs)).
Definition move (f : Position -> Position) : CM unit := set_cursor (fun c => set_pos (f (cu_pos c)) c).

(** * Building a cursor *)

Definition cursor_build (bounds_charge : Z) (range : KeyRange) (order : Order) (validate_bounds : bool)
    : M Cursor :=
  if kr_empty range then
    let! key_charge := cs_try_reserve 0 in
    sret (mkCursor order range (mkPosition None 0 0 false true true 0) None [] 0 key_charge None
            bounds_charge)
  else
    let! _ := if validate_bounds then
                let! _ := lift (validate_bound t (kr_lower range)) in
                lift (validate_bound t (kr_upper range))
              else sret tt in
    let! _ := lift (check_order t (kr_lower range) (kr_upper range)) in
    let! s := sget in
    let page_steps_left := saturating_add (ts_page_count s) 1 in
    let! tree_charge := cs_try_reserve 0 in
    sret (mkCursor order range (mkPosition None 0 0 false false false page_steps_left) None [] 0
            tree_charge None bounds_charge).

Definition Cursor_new (bounds_charge : Z) (range : KeyRange) (order : Order) : M Cursor :=
  cursor_build bounds_charge range order true.
Definition Cursor_for_prefix (bounds_charge : Z) (range : KeyRange) (order : Order) : M Cursor :=
  cursor_build bounds_charge range order false.

Definition reserve_bounds (lower upper : Bound) (extra : Z) : M Z :=
  cs_reserve (bounds_wanted lower upper extra).

(** * Buffers *)

Definition charge_at_least (bytes : Z) : CM unit :=
  let wanted := saturating_add bytes BUFFER_OVERHEAD in
  let! c := cursor in
  if wanted <=? cu_key_charge c then sret tt
  else
    let! more := on_store (cs_reserve (wanted - cu_key_charge c)) in
    set_cursor (fun c => set_charge (cu_key_charge c + more) c).

(** [if let Err(e) = m { *buf = Vec::new(); return Err(e) }] *)
Definition or_drop_buf (m : CM unit) : CM unit := fun cs =>
  match m cs with
  | (Ok a, cs) => (Ok a, cs)
  | (Err e, (c, s)) => (Err e, (set_buf [] 0 c, s))
  end.

Definition charge_written : CM unit :=
  let! c := cursor in or_drop_buf (charge_at_least (cu_key_capacity c)).

Definition charge_buffer (len : Z) : CM unit :=
  let! c := cursor in
  if len <=? cu_key_capacity c then sret tt
  else
    let! _ := charge_at_least len in
    let! _ := set_cursor (set_buf [] (cs_capacity len)) in
    charge_written.

(** * Blob pages, [crates/drydb/src/store.rs] *)

Definition blob_from_pin (pin : PagePin) : Result (PagePin * (Z * Z)) :=
  let? view := pin_view pin in
  fail? bool_decide (view_kind view <> Leaf) || negb (entry_count view =? 0)
    with at_page Error_corrupt (pin_ordinal pin) in
  Ok (pin, (PAGE_PREFIX_LEN, pin_len pin)).

Definition blob (ordinal : PageOrdinal) : M (PagePin * (Z * Z)) :=
  let! pin := ts_page ordinal in lift (blob_from_pin pin).

(** * Positioning *)

Definition cursor_leaf_search (view : PageView) (key : list byte) (op : SearchOp) : Result (option Z) :=
  let? digest := ke_digest E key in leaf_search E view key digest op.

Definition recompute_leaf_bounds : CM unit :=
  let! c := cursor in
  match ps_page (cu_pos c) with
  | None => sret tt
  | Some page =>
      let! view := lift (pin_view page) in
      let count := entry_count view in
      match cu_order c with
      | Ascending =>
          match upper_end (kr_upper (cu_range c)) with
          | None => move (set_bounds count false)
          | Some (op, key) =>
              let! found := lift (cursor_leaf_search view key op) in
              match found with
              | Some index => move (set_bounds index true)
              | None => move (set_bounds count false)
              end
          end
      | Descending =>
          match lower_start (kr_lower (cu_range c)) with
          | None => move (set_bounds 0 false)
          | Some (op, key) =>
              let! found := lift (cursor_leaf_search view key op) in
              match found with
              | Some index => move (set_bounds index (0 <? index))
              | None => move (set_bounds count true)
              end
          end
      end
  end.

(** Moves to the adjacent leaf, unless the far bound was found on this one. *)
Definition next_page : CM bool :=
  let! p := pos in
  if ps_leaf_ends_scan p then sret false
  else
    fail! ps_page_steps_left p =? 0 with Error_corrupt in
    let! _ := move (fun p => set_steps (ps_page_steps_left p - 1) p) in
    match ps_page p with
    | None => sret false
    | Some page =>
        let! c := cursor in
        let! view := lift (pin_view page) in
        let ascending := match cu_order c with Ascending => true | Descending => false end in
        match if ascending then right_sibling view else left_sibling view with
        | None =>
            let! at_end := on_store (ends_at t (pin_ordinal page) ascending) in
            fail! negb at_end with at_page Error_corrupt (pin_ordinal page) in
            sret false
        | Some sibling =>
            let! pin := on_store (step_sibling t (pin_ordinal page) sibling ascending) in
            let! view := lift (pin_view pin) in
            let! _ := move (place (Some pin)
                        (if ascending then 0 else saturating_sub (entry_count view) 1)) in
            let! _ := recompute_leaf_bounds in
            sret true
        end
    end.

Definition in_window (order : Order) (p : Position) (count : Z) : bool :=
  match order with
  | Ascending => ps_index p <? Z.min (ps_leaf_limit p) count
  | Descending => (0 <? count) && (ps_leaf_limit p <=? ps_index p) && (ps_index p <? count)
  end.

(** The loop of [skip_to_valid].  Every round but the last consumes one of the
    page steps, so with as much fuel as there are steps the answer [None] never
    comes ([skip_loop_total]). *)
Fixpoint skip_loop (fuel : nat) : CM (option bool) :=
  let! c := cursor in
  match ps_page (cu_pos c) with
  | None => sret (Some false)
  | Some page =>
      let! view := lift (pin_view page) in
      if in_window (cu_order c) (cu_pos c) (entry_count view) then sret (Some true)
      else
        let! more := next_page in
        if negb more then sret (Some false)
        else
          match fuel with
          | O => sret None
          | S fuel => skip_loop fuel
          end
  end.

Definition skip_to_valid : CM bool :=
  let! p := pos in
  let! r := skip_loop (Z.to_nat (ps_page_steps_left p)) in
  match r with
  | Some b => sret b
  | None => sfail Error_corrupt
  end.

Definition cursor_step : CM bool :=
  let! c := cursor in
  let! moved :=
    match cu_order c with
    | Ascending =>
        let! _ := move (fun p => set_index (ps_index p + 1) p) in
        let! p := pos in
        sret (ps_index p <? ps_leaf_limit p)
    | Descending =>
        if ps_leaf_limit (cu_pos c) <? ps_index (cu_pos c) then
          let! _ := move (fun p => set_index (ps_index p - 1) p) in sret true
        else sret false
    end in
  if moved then sret true
  else
    let! more := next_page in
    if negb more then sret false else skip_to_valid.

(** The walk to the left in [descending_start]. *)
Fixpoint nearest_left (steps_left : nat) (pin : PagePin) : M (option (PagePin * Z)) :=
  let! view := lift (pin_view pin) in
  match left_sibling view with
  | None =>
      let! at_end := ends_at t (pin_ordinal pin) false in
      fail! negb at_end with at_page Error_corrupt (pin_ordinal pin) in
      sret None
  | Some left_ordinal =>
      match steps_left with
      | O => sfail Error_corrupt
      | S steps_left =>
          let! pin := step_sibling t (pin_ordinal pin) left_ordinal false in
          let! view := lift (pin_view pin) in
          let count := entry_count view in
          if 0 <? count then sret (Some (pin, count - 1)) else nearest_left steps_left pin
      end
  end.

Definition descending_start (key : list byte) (op : SearchOp) : M (option (PagePin * Z)) :=
  let! found := search t key op in
  match found with
  | None => max_leaf t
  | Some (pin, index) =>
      if 0 <? index then sret (Some (pin, index - 1))
      else
        let! s := sget in
        nearest_left (Z.to_nat (saturating_add (ts_page_count s) 1)) pin
  end.

Definition scan_start (c : Cursor) : M (option (PagePin * Z)) :=
  match cu_order c with
  | Ascending => range_start t (kr_lower (cu_range c))
  | Descending =>
      match kr_upper (cu_range c) with
      | Unbounded => max_leaf t
      | Included k => descending_start k UpperBound
      | Excluded k => descending_start k LowerBound
      end
  end.

Definition seek_first : CM bool :=
  let! c := cursor in
  let! start := on_store (scan_start c) in
  match start with
  | None => sret false
  | Some (pin, index) =>
      let! _ := move (place (Some pin) index) in
      let! _ := recompute_leaf_bounds in
      skip_to_valid
  end.

(** * Reading the entry *)

Definition materialize : CM unit :=
  let! p := pos in
  let! page := lift (ok_or (ps_page p) Error_corrupt) in
  let! view := lift (pin_view page) in
  let index := ps_index p in
  let! entry := lift (leaf_entry view index) in
  let on_page := KeyOnPage (le_key_offset entry) (le_key_len entry) in
  let! key :=
    if omitted_keys (view_layout view) then
      let! capacity := lift (rebuilt_key_capacity E) in
      let! _ := charge_buffer capacity in
      let! c := cursor in
      let! rebuilt := lift (rebuild_key E view index (cu_key_buf c)) in
      match rebuilt with
      | Some key =>
          let! _ := set_cursor (set_buf key (if zlen key <=? cu_key_capacity c then cu_key_capacity c
                                             else cs_capacity (zlen key))) in
          let! _ := charge_written in
          sret Rebuilt
      | None => sret on_page
      end
    else sret on_page in
  let! '(start, stop, on_blob) :=
    match le_value entry with
    | Inline offset len => sret (offset, offset + len, false)
    | Overflow blob_page =>
        let! '(pin, (start, stop)) := on_store (blob blob_page) in
        let! _ := set_cursor (set_blob (Some pin)) in
        sret (start, stop, true)
    end in
  set_cursor (set_current (Some (mkMaterialized key start stop on_blob))).

Definition step_and_read : CM bool :=
  let! p := pos in
  let! more := if negb (ps_started p)
               then let! _ := move set_started in seek_first
               else cursor_step in
  if negb more then let! _ := set_cursor cursor_finish in sret false
  else let! _ := materialize in sret true.

Definition advance : CM bool :=
  let! _ := set_cursor (fun c => set_blob None (set_current None c)) in
  let! c := cursor in
  if ps_finished (cu_pos c) then sret false
  else
    let saved := position c in
    fun cs =>
      match step_and_read cs with
      | (Ok more, cs) => (Ok more, cs)
      | (Err e, (c, s)) => (Err e, (restore saved c, s))
      end.
End Ops.

(** [current], as the bytes it borrows. *)
Record EntryRef : Type := mkEntryRef {
  er_key : list byte;
  er_value_pin : PagePin;
  er_value_start : Z;
  er_value_end : Z;
  er_page : PageOrdinal;
  er_overflow : bool;
}.

Definition cursor_current (c : Cursor) : option EntryRef :=
  match cu_current c, ps_page (cu_pos c) with
  | Some current, Some page =>
      let key := match mt_key current with
                 | KeyOnPage offset len => slice (pin_data page) offset len
                 | Rebuilt => cu_key_buf c
                 end in
      match if mt_value_on_blob current then cu_blob c else Some page with
      | None => None
      | Some value_pin =>
          Some (mkEntryRef key value_pin (mt_value_start current) (mt_value_end current)
                  (pin_ordinal page) (mt_value_on_blob current))
      end
  | _, _ => None
  end.

Definition er_value (e : EntryRef) : list byte :=
  slice (pin_data (er_value_pin e)) (er_value_start e) (er_value_end e - er_value_start e).
Definition er_value_len (e : EntryRef) : Z := er_value_end e - er_value_start e.
Definition to_guard (e : EntryRef) : Result ValueGuard :=
  into_guard (er_value_pin e) (er_value_start e) (er_value_end e).

(** * What a cursor relies on *)

Class CursorLaws (Store : Type) `{!TreeStore Store} `{!CursorStore Store}
    {file page_count max_depth} (SL : StoreLaws Store file page_count max_depth) : Prop := {
  cl_reserve : forall n s, store_ok s ->
    store_ok (snd (cs_reserve n s)) /\ evolves s (snd (cs_reserve n s)) /\
    forall m, fst (cs_reserve n s) = Ok m -> m = n;
  cl_try_reserve : forall n s, store_ok s ->
    store_ok (snd (cs_try_reserve n s)) /\ evolves s (snd (cs_try_reserve n s)) /\
    forall m, fst (cs_try_reserve n s) = Ok m -> m = n;
}.

(** ** Keys off a page *)

Lemma sorted_page_unique (E : KeyEncoding) `{HL : !LawfulEncoding E} v ks ks' : sorted_page E v ks -> sorted_page E v ks' -> ks = ks'.
Proof.
  intros H H'. apply (list_eq_same_length _ _ (length ks)); [| reflexivity |].
  - pose proof (sp_count _ _ _ H). pose proof (sp_count _ _ _ H'). unfold zlen in *. lia.
  - intros i x y _ Hx Hy.
    pose proof (proj1 (Forall_lookup _ _) (sp_ok _ _ _ H) i x Hx) as Hkx.
    pose proof (proj1 (Forall_lookup _ _) (sp_ok _ _ _ H') i y Hy) as Hky.
    pose proof (sp_compare _ _ _ H i x y Hx Hky) as H1. pose proof (sp_compare _ _ _ H' i y y Hy Hky) as H2.
    rewrite H1 in H2. injection H2 as H2. rewrite (ord_refl E y Hky) in H2.
    now apply (cmp_eq _ _ ord_order) in H2.
Qed.

(** The keys a page holds can be read off it: from their bytes, or from their
    digests when the page has no key bytes. *)
Class KeysReadable (E : KeyEncoding) `{!LawfulEncoding E} : Prop := {
  key_read : forall v keys j k, sorted_page E v keys -> check_digests E v = Ok tt -> keys !! j = Some k ->
    omitted_keys (view_layout v) = false -> entry_key v (Z.of_nat j) = Ok k;
  key_rebuilt : forall v keys j k, sorted_page E v keys -> check_digests E v = Ok tt -> keys !! j = Some k ->
    omitted_keys (view_layout v) = true ->
    is_Some (ke_max_rebuilt_key_len E) /\ forall buf, rebuild_key E v (Z.of_nat j) buf = Ok (Some k);
}.

#[export] Instance checkable_readable (E : KeyEncoding) `{HL : !LawfulEncoding E} `{!CheckableEncoding E} : KeysReadable E.
Proof.
  split; intros v keys j k Hp Hc Hk Hom.
  - destruct (check_digests_sorted E v (sp_wf _ _ _ Hp) Hc) as (ks & Hp' & Hks).
    rewrite (sorted_page_unique E _ _ _ Hp Hp') in Hk. now apply Hks.
  - pose proof (checked_omitted_exact E v (sp_wf _ _ _ Hp) Hc Hom) as Hex.
    pose proof (proj1 (Forall_lookup _ _) (sp_ok _ _ _ Hp) j k Hk) as Hok.
    destruct (rebuild_exact k [] Hex Hok) as [_ (n & Hn & _)]. rewrite Hn. split; [eauto|].
    intros buf. now apply (omitted_rebuild E v keys).
Qed.

Section Scan.
Context {Store : Type} {TS : TreeStore Store} {CS : CursorStore Store}.
Context {file : PageOrdinal -> option (list byte)} {page_count max_depth : Z}.
Context {SL : StoreLaws Store file page_count max_depth} {CL : CursorLaws Store SL}.
Context (t : Tree) (Hid : 1 <= tree_id t).
Abbreviation E := (tree_encoding t).
Context {HL : LawfulEncoding E} {Hkeys : KeysReadable E}.
Abbreviation M A := (SM Store Error A).
Abbreviation CM A := (SM (Cursor * Store) Error A).

(** An error of the store: a page it could not read, or memory it could not
    reserve. *)
Definition reserve_error (e : Error) : Prop :=
  exists n s, store_ok s /\ (fst (cs_reserve n s) = Err e \/ fst (cs_try_reserve n s) = Err e).
Definition scan_error (e : Error) : Prop := load_error (file := file) e \/ reserve_error e.

(** What a cursor was made for never changes. *)
Definition frame (c c' : Cursor) : Prop :=
  cu_order c' = cu_order c /\ cu_range c' = cu_range c /\ cu_bounds_charge c' = cu_bounds_charge c.

Lemma frame_refl c : frame c c.
Proof. repeat split. Qed.

Lemma frame_trans c1 c2 c3 : frame c1 c2 -> frame c2 c3 -> frame c1 c3.
Proof. unfold frame. intuition congruence. Qed.

(** The [triple]s of [Btree.v] over a cursor and the store. *)
Definition ctriple {A} (c : Cursor) (m : CM A) (Q : A -> Cursor -> Prop) : Prop :=
  forall s, tree_inv t s ->
    tree_inv t (snd (snd (m (c, s)))) /\ frame c (fst (snd (m (c, s)))) /\
    match fst (m (c, s)) with
    | Ok a => Q a (fst (snd (m (c, s))))
    | Err e => scan_error e
    end.

Lemma ctriple_ret {A} c (a : A) (Q : A -> Cursor -> Prop) : Q a c -> ctriple c (sret a) Q.
Proof. intros HQ s Hs. split; [exact Hs|]. split; [apply frame_refl | exact HQ]. Qed.

Lemma ctriple_bind {A B} c (m : CM A) (f : A -> CM B) P Q :
  ctriple c m P -> (forall a c', frame c c' -> P a c' -> ctriple c' (f a) Q) -> ctriple c (sbind m f) Q.
Proof.
  intros Hm Hf s Hs. unfold sbind. destruct (Hm s Hs) as (Hs' & Hfr & Ha).
  destruct (m (c, s)) as [[a|e] [c' s']]; simpl in *; [|auto].
  destruct (Hf a c' Hfr Ha s' Hs') as (Hs2 & Hfr2 & HQ). split; [exact Hs2|].
  split; [eapply frame_trans; eauto | exact HQ].
Qed.

Lemma ctriple_weaken {A} c (m : CM A) (P Q : A -> Cursor -> Prop) :
  ctriple c m P -> (forall a c', frame c c' -> P a c' -> Q a c') -> ctriple c m Q.
Proof.
  intros Hm HPQ s Hs. destruct (Hm s Hs) as (Hs' & Hfr & H). split; [exact Hs'|]. split; [exact Hfr|].
  destruct (fst (m (c, s))); auto.
Qed.

Lemma ctriple_store {A B} c (m : M A) (f : A -> CM B) P Q :
  triple t scan_error m P -> (forall a, P a -> ctriple c (f a) Q) -> ctriple c (sbind (on_store m) f) Q.
Proof.
  intros Hm Hf. apply (ctriple_bind c (on_store m) f (fun a c' => c' = c /\ P a)).
  - intros s Hs. unfold on_store. simpl. destruct (Hm s Hs) as [Hs' Ha].
    destruct (m s) as [[a|e] s']; simpl in *; auto using frame_refl.
  - intros a c' _ [-> HP]. auto.
Qed.

Lemma ctriple_cursor {B} c (f : Cursor -> CM B) Q : ctriple c (f c) Q -> ctriple c (sbind cursor f) Q.
Proof. intros H s Hs. exact (H s Hs). Qed.

Lemma ctriple_pos {B} c (f : Position -> CM B) Q :
  ctriple c (f (cu_pos c)) Q -> ctriple c (sbind pos f) Q.
Proof. intros H s Hs. exact (H s Hs). Qed.

Lemma ctriple_set {B} c g (f : unit -> CM B) Q :
  frame c (g c) -> ctriple (g c) (f tt) Q -> ctriple c (sbind (set_cursor g) f) Q.
Proof.
  intros Hfr H s Hs. unfold sbind, set_cursor. simpl. destruct (H s Hs) as (H1 & H2 & H3).
  split; [exact H1|]. split; [eapply frame_trans; eauto | exact H3].
Qed.

Lemma ctriple_set_last c g (Q : unit -> Cursor -> Prop) :
  frame c (g c) -> Q tt (g c) -> ctriple c (set_cursor g) Q.
Proof. intros Hfr HQ s Hs. simpl. auto. Qed.

Lemma ctriple_lift {A B} c (r : Result A) a (f : A -> CM B) Q :
  r = Ok a -> ctriple c (f a) Q -> ctriple c (sbind (lift r) f) Q.
Proof. intros -> H s Hs. exact (H s Hs). Qed.

Lemma triple_scan {A} (m : M A) Q : triple t (load_error (file := file)) m Q -> triple t scan_error m Q.
Proof. intros H. eapply triple_error; [exact H|]. now left. Qed.

Lemma triple_reserve n : triple t scan_error (cs_reserve n) (eq n).
Proof.
  intros s Hs. destruct (cl_reserve n s (ti_store _ _ Hs)) as (Hok & Hev & Hm).
  split; [eapply tree_inv_evolves; eauto|].
  destruct (fst (cs_reserve n s)) as [m|e] eqn:He; [symmetry; now apply Hm|].
  right. exists n, s. split; [apply (ti_store _ _ Hs) | now left].
Qed.

Lemma triple_try_reserve n : triple t scan_error (cs_try_reserve n) (eq n).
Proof.
  intros s Hs. destruct (cl_try_reserve n s (ti_store _ _ Hs)) as (Hok & Hev & Hm).
  split; [eapply tree_inv_evolves; eauto|].
  destruct (fst (cs_try_reserve n s)) as [m|e] eqn:He; [symmetry; now apply Hm|].
  right. exists n, s. split; [apply (ti_store _ _ Hs) | now right].
Qed.

(** * The scan of a range *)

Context (h : nat) (root : PageOrdinal) (leaves : list LeafInfo).
Context (Hwf : well_formed (file := file) (page_count := page_count) (max_depth := max_depth) t h root leaves).
Context (Hset : settled leaves).
Context (o : Order) (r : KeyRange).
Context (Hlo : bound_ok t (kr_lower r)) (Hhi : bound_ok t (kr_upper r)).

Abbreviation low := (fun e => lower_ok ord r (en_key e)).
Abbreviation up := (fun e => upper_ok ord r (en_key e)).

(** The entries of the range, in the order of the scan. *)
Definition scan_order {A} (xs : list A) : list A :=
  match o with Ascending => xs | Descending => rev xs end.
Definition selected : list Entry :=
  scan_order (List.filter (fun e => in_range ord r (en_key e)) (entries leaves)).

(** What the leaf window is on leaf [l]. *)
Definition window_of (l : LeafInfo) : Z * bool :=
  match o with
  | Ascending => match upper_ref t r l with
                 | Some i => (i, true)
                 | None => (zlen (lp_keys l), false)
                 end
  | Descending => match lower_ref t r l with
                  | Some i => (i, 0 <? i)
                  | None => (zlen (lp_keys l), true)
                  end
  end.

(** What is left of the scan from entry [i] of leaf [l], and past it. *)
Definition rest_from (L1 : list LeafInfo) (l : LeafInfo) (L2 : list LeafInfo) (i : nat) : list Entry :=
  match o with
  | Ascending => List.filter up (drop i (entries_of l) ++ entries L2)
  | Descending => List.filter low (rev (take (S i) (entries_of l)) ++ rev (entries L1))
  end.
Definition rest_past (L1 : list LeafInfo) (l : LeafInfo) (L2 : list LeafInfo) (i : nat) : list Entry :=
  match o with
  | Ascending => List.filter up (drop (S i) (entries_of l) ++ entries L2)
  | Descending => List.filter low (rev (take i (entries_of l)) ++ rev (entries L1))
  end.

Definition ahead (L1 L2 : list LeafInfo) : list LeafInfo :=
  match o with Ascending => L2 | Descending => L1 end.

(** The cursor is on leaf [l], its window computed. *)
Record on_page_of (p : Position) (L1 : list LeafInfo) (l : LeafInfo) (L2 : list LeafInfo) : Prop := {
  op_split : leaves = L1 ++ l :: L2;
  op_page : exists pin, ps_page p = Some pin /\ on_leaf l pin;
  op_window : (ps_leaf_limit p, ps_leaf_ends_scan p) = window_of l;
  op_started : ps_started p = true;
  op_finished : ps_finished p = false;
  op_steps : Z.of_nat (length (ahead L1 L2)) < ps_page_steps_left p;
}.

Record placed (p : Position) (L1 : list LeafInfo) (l : LeafInfo) (L2 : list LeafInfo) (i : nat) : Prop := {
  pl_on : on_page_of p L1 l L2;
  pl_index : ps_index p = Z.of_nat i;
  pl_count : (i < length (entries_of l))%nat;
}.

Definition keep (e : Entry) : bool := match o with Ascending => up e | Descending => low e end.

(** The leaf a scan goes to from [l], and the entry it starts with there. *)
Definition next_leaf (L1 : list LeafInfo) (l : LeafInfo) (L2 : list LeafInfo)
    : option (list LeafInfo * LeafInfo * list LeafInfo) :=
  match o with
  | Ascending => match L2 with [] => None | l' :: L2' => Some (L1 ++ [l], l', L2') end
  | Descending => match rev L1 with [] => None | l' :: R => Some (rev R, l', l :: L2) end
  end.
Definition first_of (l : LeafInfo) : nat :=
  match o with Ascending => 0%nat | Descending => (length (entries_of l) - 1)%nat end.

Lemma rest_from_past L1 l L2 i e :
  entries_of l !! i = Some e ->
  rest_from L1 l L2 i = if keep e then e :: rest_past L1 l L2 i else rest_past L1 l L2 i.
Proof.
  intros He. unfold rest_from, rest_past, keep. destruct o.
  - now rewrite (drop_S _ _ _ He).
  - rewrite (take_S_r _ _ _ He), rev_app_distr. reflexivity.
Qed.

Lemma window_keep l L1 L2 i e p :
  leaves = L1 ++ l :: L2 -> entries_of l !! i = Some e ->
  (ps_leaf_limit p, ps_leaf_ends_scan p) = window_of l -> ps_index p = Z.of_nat i ->
  in_window o p (zlen (lp_keys l)) = keep e /\ (keep e = false -> ps_leaf_ends_scan p = true).
Proof.
  intros Hsplit He Hwin Hi. pose proof (lookup_lt_Some _ _ _ He) as Hlt.
  pose proof (zlen_entries_of l) as Hz. unfold zlen in Hz at 1.
  unfold in_window, window_of, keep in *. rewrite Hi. destruct o.
  - pose proof (upper_split t h root leaves Hwf r Hhi L1 l L2 Hsplit) as Hu.
    destruct (upper_ref t r l) as [b|]; injection Hwin as -> ->.
    + destruct Hu as (Hb & Hpos & _). rewrite (Hpos i e He). split; [|reflexivity].
      destruct (Z.ltb_spec (Z.of_nat i) (Z.min b (zlen (lp_keys l)))), (Z.ltb_spec (Z.of_nat i) b); lia || reflexivity.
    + rewrite (Hu e (entries_of_elem l i e He)). split; [|discriminate].
      destruct (Z.ltb_spec (Z.of_nat i) (Z.min (zlen (lp_keys l)) (zlen (lp_keys l)))); lia || reflexivity.
  - pose proof (lower_split t h root leaves Hwf r Hlo L1 l L2 Hsplit) as Hl.
    destruct (lower_ref t r l) as [b|]; injection Hwin as -> ->.
    + destruct Hl as (Hb & Hpos & _). rewrite (Hpos i e He).
      split; [|intros; destruct (Z.leb_spec b (Z.of_nat i)), (Z.ltb_spec 0 b); lia || congruence].
      destruct (Z.ltb_spec 0 (zlen (lp_keys l))), (Z.leb_spec b (Z.of_nat i)),
        (Z.ltb_spec (Z.of_nat i) (zlen (lp_keys l))); simpl; lia || reflexivity.
    + destruct Hl as [Hl _]. rewrite (Hl e (entries_of_elem l i e He)). split; [|reflexivity].
      destruct (Z.leb_spec (zlen (lp_keys l)) (Z.of_nat i)); [lia|]. now rewrite andb_false_r.
Qed.

(** Past an entry outside the range there is nothing left. *)
Lemma rest_past_nothing L1 l L2 i e :
  leaves = L1 ++ l :: L2 -> entries_of l !! i = Some e -> keep e = false -> rest_past L1 l L2 i = [].
Proof.
  intros Hsplit He Hk. unfold rest_past, keep in *. destruct o; apply filter_nothing; intros x Hx.
  - apply (up_follows t h root leaves Hwf r Hhi e x); [|exact Hk].
    apply elem_of_app in Hx as [[j Hj]%list_elem_of_lookup|Hx].
    + rewrite lookup_drop in Hj. eapply (precedes_leaf t h root leaves Hwf L1 l L2 i (S i + j)); eauto. lia.
    + eapply (precedes_right t h root leaves Hwf L1 l L2); eauto using entries_of_elem.
  - apply (low_precedes t h root leaves Hwf r Hlo x e); [|exact Hk].
    apply elem_of_app in Hx as [Hx|Hx]; apply list_elem_of_In, in_rev, list_elem_of_In in Hx.
    + apply list_elem_of_lookup in Hx as [j Hj]. apply lookup_take_Some in Hj as [Hj Hlt].
      eapply (precedes_leaf t h root leaves Hwf L1 l L2 j i); eauto.
    + eapply (precedes_left t h root leaves Hwf L1 l L2); eauto using entries_of_elem.
Qed.

Definition rest_leaves (L1 L2 : list LeafInfo) : list Entry :=
  match o with
  | Ascending => List.filter up (entries L2)
  | Descending => List.filter low (rev (entries L1))
  end.

Lemma rest_leaves_next L1 l L2 :
  rest_leaves L1 L2 =
  match next_leaf L1 l L2 with
  | None => []
  | Some (L1', l', L2') => rest_from L1' l' L2' (first_of l')
  end.
Proof.
  unfold rest_leaves, next_leaf, rest_from, first_of. destruct o.
  - destruct L2 as [|l' L2]; reflexivity.
  - destruct L1 as [|l' L1 _] using rev_ind; [reflexivity|]. rewrite rev_app_distr. simpl.
    rewrite rev_involutive, take_ge by lia. rewrite entries_app, rev_app_distr.
    rewrite entries_cons. now rewrite app_nil_r.
Qed.

(** The index a step goes to, and whether the window still holds it. *)
Definition next_index (i : nat) : nat := match o with Ascending => S i | Descending => (i - 1)%nat end.
Definition moves (limit : Z) (i : nat) : bool :=
  match o with Ascending => Z.of_nat i + 1 <? limit | Descending => limit <? Z.of_nat i end.

Lemma rest_past_next L1 l L2 i :
  (o = Descending -> (0 < i)%nat) -> rest_past L1 l L2 i = rest_from L1 l L2 (next_index i).
Proof.
  intros Hi. unfold rest_past, rest_from, next_index. destruct o; [reflexivity|].
  now replace (S (i - 1)) with i by (specialize (Hi eq_refl); lia).
Qed.

Lemma step_window p L1 l L2 i e :
  placed p L1 l L2 i -> entries_of l !! i = Some e -> keep e = true ->
  if moves (ps_leaf_limit p) i then
    exists e', entries_of l !! next_index i = Some e' /\ keep e' = true /\
      rest_past L1 l L2 i = e' :: rest_past L1 l L2 (next_index i)
  else
    rest_past L1 l L2 i = if ps_leaf_ends_scan p then [] else rest_leaves L1 L2.
Proof.
  intros [[Hsplit _ Hwin _ _ _] Hi Hlt] He Hk.
  assert (forall e' j, entries_of l !! j = Some e' -> j = next_index i -> keep e' = true ->
     (o = Descending -> (0 < i)%nat) ->
     exists e', entries_of l !! next_index i = Some e' /\ keep e' = true /\
      rest_past L1 l L2 i = e' :: rest_past L1 l L2 (next_index i)) as Hmove.
  { intros e' j Hj -> Hk' Hpos. exists e'. split; [exact Hj|]. split; [exact Hk'|].
    now rewrite rest_past_next, (rest_from_past _ _ _ _ _ Hj), Hk' by exact Hpos. }
  pose proof (zlen_entries_of l) as Hz. unfold zlen in Hz at 1.
  unfold moves, window_of, keep, next_index, rest_past, rest_leaves in *. destruct o.
  - pose proof (upper_split t h root leaves Hwf r Hhi L1 l L2 Hsplit) as Hu.
    destruct (upper_ref t r l) as [b|]; injection Hwin as -> ->.
    + destruct Hu as (Hb & Hpos & HL2). destruct (Z.ltb_spec (Z.of_nat i + 1) b) as [Hm|Hm].
      * destruct (lookup_lt_is_Some_2 (entries_of l) (S i) ltac:(lia)) as [e' He'].
        apply (Hmove e' (S i) He' eq_refl); [|discriminate]. rewrite (Hpos _ _ He'). apply Z.ltb_lt. lia.
      * apply filter_nothing. intros x [[j Hj]%list_elem_of_lookup|Hx]%elem_of_app; [|now apply HL2].
        rewrite lookup_drop in Hj. rewrite (Hpos _ _ Hj). apply Z.ltb_ge. lia.
    + destruct (Z.ltb_spec (Z.of_nat i + 1) (zlen (lp_keys l))) as [Hm|Hm].
      * destruct (lookup_lt_is_Some_2 (entries_of l) (S i) ltac:(lia)) as [e' He'].
        apply (Hmove e' (S i) He' eq_refl); [|discriminate]. eapply Hu, entries_of_elem; eauto.
      * rewrite drop_ge by lia. reflexivity.
  - pose proof (lower_split t h root leaves Hwf r Hlo L1 l L2 Hsplit) as Hl.
    destruct (lower_ref t r l) as [b|]; injection Hwin as -> ->.
    + destruct Hl as (Hb & Hpos & HL1 & _). rewrite (Hpos i e He) in Hk. apply Z.leb_le in Hk.
      destruct (Z.ltb_spec b (Z.of_nat i)) as [Hm|Hm].
      * destruct (lookup_lt_is_Some_2 (entries_of l) (i - 1) ltac:(lia)) as [e' He'].
        apply (Hmove e' (i - 1)%nat He' eq_refl); [|lia]. rewrite (Hpos _ _ He'). apply Z.leb_le. lia.
      * destruct (Z.ltb_spec 0 b).
        -- apply filter_nothing. intros x [Hx|Hx]%elem_of_app; apply list_elem_of_In, in_rev, list_elem_of_In in Hx;
             [|now apply HL1]. apply list_elem_of_lookup in Hx as [j Hj]. apply lookup_take_Some in Hj as [Hj Hji].
           rewrite (Hpos _ _ Hj). apply Z.leb_gt. lia.
        -- replace i with 0%nat by lia. reflexivity.
    + destruct Hl as [Hl _]. rewrite (Hl e (entries_of_elem l i e He)) in Hk. discriminate.
Qed.

(** ** The operations *)

Definition mine (c : Cursor) : Prop := cu_order c = o /\ cu_range c = r.

Lemma mine_frame c c' : mine c -> frame c c' -> mine c'.
Proof. unfold mine, frame. intuition congruence. Qed.

Lemma leaf_search_leaf l op q :
  leaf_ok (file := file) t l -> key_ok q ->
  cursor_leaf_search t (lp_view l) q op = Ok (leaf_ref E op q (lp_keys l)).
Proof.
  intros [(_ & _ & Hp) Hk] Hq. unfold cursor_leaf_search. rewrite digest_ok by exact Hq. cbn [rbind].
  now apply leaf_search_ref.
Qed.

Lemma recompute_spec c l pin :
  mine c -> leaf_ok (file := file) t l -> ps_page (cu_pos c) = Some pin -> on_leaf l pin ->
  ctriple c (recompute_leaf_bounds t)
    (fun _ c' => cu_pos c' = set_bounds (fst (window_of l)) (snd (window_of l)) (cu_pos c)).
Proof.
  intros [Ho Hr] Hl Hp [_ Hv]. unfold recompute_leaf_bounds. apply ctriple_cursor. rewrite Hp, Ho, Hr.
  eapply ctriple_lift; [exact Hv|]. cbv zeta. rewrite (leaf_count t l Hl). unfold window_of.
  assert (forall n b, ctriple c (move (set_bounds n b))
    (fun _ c' => cu_pos c' = set_bounds n b (cu_pos c))) as Hmv.
  { intros n b. apply ctriple_set_last; [repeat split | reflexivity]. }
  destruct o; unfold upper_ref, lower_ref.
  - destruct (upper_end (kr_upper r)) as [[op q]|] eqn:Hu; [|apply Hmv].
    apply (upper_end_ok t r Hhi) in Hu as [Hq _].
    eapply ctriple_lift; [now apply leaf_search_leaf|].
    destruct (leaf_ref E op q (lp_keys l)); apply Hmv.
  - destruct (lower_start (kr_lower r)) as [[op q]|] eqn:Hu; [|apply Hmv].
    apply (lower_start_ok t r Hlo) in Hu as [Hq _].
    eapply ctriple_lift; [now apply leaf_search_leaf|].
    destruct (leaf_ref E op q (lp_keys l)); apply Hmv.
Qed.

(** The chain, seen from leaf [l] in the direction of the scan. *)
Definition forward : bool := match o with Ascending => true | Descending => false end.

Lemma next_leaf_chain L1 l L2 :
  leaves = L1 ++ l :: L2 ->
  match next_leaf L1 l L2 with
  | None => (if forward then right_sibling (lp_view l) else left_sibling (lp_view l)) = None /\
      edge_of (negb forward) leaves = Some l /\ ahead L1 L2 = []
  | Some (L1', l', L2') =>
      (if forward then right_sibling (lp_view l) else left_sibling (lp_view l)) = Some (lp_ordinal l') /\
      (if forward then left_sibling (lp_view l') else right_sibling (lp_view l')) = Some (lp_ordinal l) /\
      leaves = L1' ++ l' :: L2' /\ length (ahead L1 L2) = S (length (ahead L1' L2'))
  end.
Proof.
  intros Hsplit. unfold next_leaf, forward, ahead. pose proof (wf_chain _ _ _ _ Hwf) as Hc. destruct o.
  - destruct (split_chain t h root leaves Hwf L1 l L2 Hsplit) as [Hright Hleft].
    destruct L2 as [|l' L2].
    + split; [exact Hright|]. split; [|reflexivity]. unfold edge_of. simpl. rewrite Hsplit, reverse_app. reflexivity.
    + split; [exact Hright|]. split; [now eapply Hleft|]. split; [now rewrite <- app_assoc | reflexivity].
  - destruct L1 as [|l' L1 _] using rev_ind.
    + simpl. rewrite Hsplit in Hc. destruct Hc as [Hl _]. split; [exact Hl|]. rewrite Hsplit. auto.
    + rewrite rev_app_distr. simpl. rewrite rev_involutive, <- app_assoc in *.
      destruct (split_chain t h root leaves Hwf L1 l' (l :: L2) Hsplit) as [Hright Hleft].
      split; [now eapply Hleft|]. split; [exact Hright|]. split; [exact Hsplit|]. rewrite length_app. simpl. lia.
Qed.

Lemma next_page_spec c L1 l L2 :
  mine c -> on_page_of (cu_pos c) L1 l L2 ->
  ctriple c (next_page t) (fun more c' =>
    if ps_leaf_ends_scan (cu_pos c) then more = false
    else match next_leaf L1 l L2 with
         | None => more = false
         | Some (L1', l', L2') => more = true /\
             on_page_of (cu_pos c') L1' l' L2' /\ ps_index (cu_pos c') = Z.of_nat (first_of l')
         end).
Proof.
  intros Hm [Hsplit (pin & Hp & Hpin) Hwin Hst Hfin Hsteps]. unfold next_page. apply ctriple_pos.
  destruct (ps_leaf_ends_scan (cu_pos c)); [now apply ctriple_ret|].
  destruct (Z.eqb_spec (ps_page_steps_left (cu_pos c)) 0); [lia|].
  unfold move at 1. apply ctriple_set; [repeat split|]. rewrite Hp. apply ctriple_cursor.
  eapply ctriple_lift; [apply Hpin|]. cbn [cu_order set_pos]. rewrite (proj1 Hm). fold forward. cbv zeta.
  pose proof (next_leaf_chain L1 l L2 Hsplit) as Hnext. rewrite (proj1 (proj1 Hpin)).
  destruct (next_leaf L1 l L2) as [[[L1' l'] L2']|].
  - destruct Hnext as (-> & Hback & Hsplit' & Hahead).
    pose proof (split_leaf_ok t h root leaves Hwf L1' l' L2' Hsplit') as Hl'.
    eapply ctriple_store; [apply triple_scan, (step_sibling_spec t Hid forward l l' Hl' Hback)|].
    intros pin' Hpin'. eapply ctriple_lift; [apply Hpin'|].
    unfold move at 1. apply ctriple_set; [repeat split|].
    eapply ctriple_bind; [apply (recompute_spec _ l' pin'); [exact Hm | exact Hl' | reflexivity | exact Hpin']|].
    intros ? c' _ Hc'. apply ctriple_ret. split; [reflexivity|]. rewrite Hc'. split.
    + split; simpl; [exact Hsplit' | eauto | now destruct (window_of l') | exact Hst | exact Hfin | lia].
    + simpl. rewrite (leaf_count t l' Hl'). unfold first_of, forward, saturating_sub.
      pose proof (zlen_entries_of l'). unfold zlen in *. destruct o; lia.
  - destruct Hnext as (-> & Hedge & _).
    eapply ctriple_store; [apply triple_scan, (ends_at_edge t Hid h root leaves forward l Hwf Hedge)|].
    intros ? <-. now apply ctriple_ret.
Qed.

(** The cursor is on entry [e] of the range and [rest] is still to come. *)
Definition stands (c : Cursor) (e : Entry) (rest : list Entry) : Prop :=
  exists L1 l L2 i, placed (cu_pos c) L1 l L2 i /\ entries_of l !! i = Some e /\ keep e = true /\
    rest = rest_past L1 l L2 i.

Definition outcome (more : bool) (c : Cursor) (rest : list Entry) : Prop :=
  match rest with
  | [] => more = false
  | e :: rest => more = true /\ stands c e rest
  end.

Lemma skip_spec c L1 l L2 i :
  mine c -> placed (cu_pos c) L1 l L2 i ->
  ctriple c (skip_to_valid t) (fun more c' => outcome more c' (rest_from L1 l L2 i)).
Proof.
  intros Hm Hpl. pose proof Hpl as [[Hsplit (pin & Hp & Hpin) Hwin Hst Hfin Hsteps] Hi Hlt].
  pose proof (split_leaf_ok t h root leaves Hwf L1 l L2 Hsplit) as Hl.
  destruct (lookup_lt_is_Some_2 (entries_of l) i Hlt) as [e He].
  destruct (window_keep l L1 L2 i e _ Hsplit He Hwin Hi) as [Hin Hends].
  unfold skip_to_valid. apply ctriple_pos.
  apply (ctriple_bind _ _ _ (fun x c' => exists more, x = Some more /\ outcome more c' (rest_from L1 l L2 i))).
  2:{ intros ? c' _ (more & -> & Hout). now apply ctriple_ret. }
  replace (skip_loop t (Z.to_nat (ps_page_steps_left (cu_pos c)))) with (skip_loop t (S (Z.to_nat (ps_page_steps_left (cu_pos c)) - 1)))
    by (f_equal; lia).
  cbn [skip_loop]. apply ctriple_cursor. rewrite Hp. eapply ctriple_lift; [apply Hpin|].
  rewrite (leaf_count t l Hl), (proj1 Hm), Hin, (rest_from_past _ _ _ _ _ He).
  destruct (keep e) eqn:Hk.
  - apply ctriple_ret. exists true. split; [reflexivity|]. split; [reflexivity|]. exists L1, l, L2, i. auto.
  - rewrite (rest_past_nothing L1 l L2 i e Hsplit He Hk).
    eapply ctriple_bind; [apply (next_page_spec c L1 l L2 Hm (pl_on _ _ _ _ _ Hpl))|].
    rewrite (Hends eq_refl). intros more c' _ ->. apply ctriple_ret. exists false. split; reflexivity.
Qed.

Lemma neighbour_nonempty L1 l L2 L1' l' L2' :
  leaves = L1 ++ l :: L2 -> next_leaf L1 l L2 = Some (L1', l', L2') -> (first_of l' < length (entries_of l'))%nat.
Proof.
  intros Hsplit Hnext. pose proof (next_leaf_chain L1 l L2 Hsplit) as H. rewrite Hnext in H.
  destruct H as (_ & _ & Hsplit' & Ha).
  assert (1 < length leaves)%nat as Hlen.
  { rewrite Hsplit, length_app. simpl. unfold ahead in Ha. destruct o; lia. }
  assert (lp_keys l' <> []) as Hne.
  { apply (settled_nonempty leaves l' Hset Hlen). rewrite Hsplit'. apply elem_of_app. right. left. }
  apply zlen_pos in Hne. rewrite <- zlen_entries_of in Hne. unfold zlen in Hne.
  unfold first_of. destruct o; lia.
Qed.

Lemma go_to_next c L1 l L2 :
  mine c -> on_page_of (cu_pos c) L1 l L2 ->
  ctriple c (let! more := next_page t in if negb more then sret false else skip_to_valid t)
    (fun more c' => outcome more c' (if ps_leaf_ends_scan (cu_pos c) then [] else rest_leaves L1 L2)).
Proof.
  intros Hm Hon. eapply ctriple_bind; [apply (next_page_spec c L1 l L2 Hm Hon)|].
  rewrite (rest_leaves_next L1 l L2). intros more c' Hfr.
  destruct (ps_leaf_ends_scan (cu_pos c)); [intros ->; now apply ctriple_ret|].
  destruct (next_leaf L1 l L2) as [[[L1' l'] L2']|] eqn:Hnext; [|intros ->; now apply ctriple_ret].
  intros (-> & Hon' & Hi). simpl. apply skip_spec; [now apply (mine_frame c)|].
  split; [exact Hon' | exact Hi|]. eapply neighbour_nonempty; [apply (op_split _ _ _ _ Hon) | exact Hnext].
Qed.

Lemma on_page_of_index p L1 l L2 i : on_page_of p L1 l L2 -> on_page_of (set_index i p) L1 l L2.
Proof. intros []. now split. Qed.

Lemma limit_nonneg p L1 l L2 : on_page_of p L1 l L2 -> 0 <= ps_leaf_limit p.
Proof.
  intros [Hsplit _ Hwin _ _ _]. unfold window_of in Hwin. pose proof (zlen_nonneg (lp_keys l)).
  pose proof (upper_split t h root leaves Hwf r Hhi L1 l L2 Hsplit) as Hu.
  pose proof (lower_split t h root leaves Hwf r Hlo L1 l L2 Hsplit) as Hl.
  destruct o; [destruct (upper_ref t r l) | destruct (lower_ref t r l)]; injection Hwin as -> _; lia.
Qed.

Lemma step_spec c e rest :
  mine c -> stands c e rest -> ctriple c (cursor_step t) (fun more c' => outcome more c' rest).
Proof.
  intros Hm (L1 & l & L2 & i & Hpl & He & Hk & ->).
  pose proof (step_window (cu_pos c) L1 l L2 i e Hpl He Hk) as Hw.
  pose proof Hpl as [Hon Hi Hlt]. pose proof (limit_nonneg _ _ _ _ Hon).
  unfold cursor_step. apply ctriple_cursor.
  apply (ctriple_bind _ _ _ (fun moved c' => moved = moves (ps_leaf_limit (cu_pos c)) i /\
    on_page_of (cu_pos c') L1 l L2 /\ ps_leaf_ends_scan (cu_pos c') = ps_leaf_ends_scan (cu_pos c) /\
    (moved = true -> ps_index (cu_pos c') = Z.of_nat (next_index i)))).
  - rewrite (proj1 Hm). unfold moves, next_index in *. destruct o.
    + apply ctriple_set; [repeat split|]. apply ctriple_pos. apply ctriple_ret. simpl. rewrite Hi.
      split; [reflexivity|]. split; [now apply on_page_of_index|]. split; [reflexivity|]. lia.
    + rewrite Hi. destruct (Z.ltb_spec (ps_leaf_limit (cu_pos c)) (Z.of_nat i)) as [Hmv|Hmv].
      * apply ctriple_set; [repeat split|]. apply ctriple_ret. simpl. rewrite Hi.
        split; [reflexivity|]. split; [now apply on_page_of_index|]. split; [reflexivity|]. intros _.
        lia.
      * apply ctriple_ret. split; [reflexivity|]. split; [exact Hon|]. split; [reflexivity | discriminate].
  - intros moved c' Hfr (-> & Hon' & Hends & Hidx).
    destruct (moves (ps_leaf_limit (cu_pos c)) i) eqn:Hmv.
    + destruct Hw as (e' & He' & Hk' & ->). apply ctriple_ret. split; [reflexivity|].
      exists L1, l, L2, (next_index i). split; [|auto]. split; [exact Hon' | now apply Hidx|].
      eapply lookup_lt_Some; eauto.
    + rewrite Hw, <- Hends. apply (go_to_next c' L1 l L2); [now apply (mine_frame c) | exact Hon'].
Qed.

(** ** Where a scan starts *)

Context (Hne : kr_empty r = false).

Definition begins (x : option (PagePin * Z)) : Prop :=
  match x with
  | None => selected = []
  | Some (pin, i) => exists L1 l L2 n, leaves = L1 ++ l :: L2 /\ on_leaf l pin /\ i = Z.of_nat n /\
      (n < length (entries_of l))%nat /\ selected = rest_from L1 l L2 n
  end.

(** The range of a descending scan, from the entries the upper bound keeps. *)
Lemma selected_descending L1 l L2 n :
  o = Descending -> leaves = L1 ++ l :: L2 ->
  (forall e, e ∈ entries L1 -> up e = true) ->
  (forall j e, entries_of l !! j = Some e -> up e = (Z.of_nat j <? Z.of_nat n)) ->
  (forall e, e ∈ entries L2 -> up e = false) ->
  selected = List.filter low (rev (take n (entries_of l)) ++ rev (entries L1)).
Proof.
  intros Ho Hsplit H1 Hl H2. unfold selected, scan_order. rewrite Ho.
  rewrite <- rev_app_distr, List.filter_rev. f_equal.
  rewrite Hsplit, entries_app, entries_cons, !List.filter_app. f_equal.
  - apply List.filter_ext_in. intros e He%list_elem_of_In. unfold in_range. rewrite Hne, (H1 e He).
    now rewrite andb_true_r.
  - rewrite (filter_nothing _ (entries L2)), app_nil_r.
    2:{ intros e He. unfold in_range. now rewrite (H2 e He), andb_false_r. }
    rewrite <- (take_drop n (entries_of l)) at 1. rewrite List.filter_app, (filter_nothing _ (drop n _)), app_nil_r.
    2:{ intros e [j Hj]%list_elem_of_lookup. rewrite lookup_drop in Hj. unfold in_range.
        rewrite (Hl _ _ Hj). destruct (Z.ltb_spec (Z.of_nat (n + j)) (Z.of_nat n)); [lia|]. apply andb_false_r. }
    apply List.filter_ext_in. intros e He%list_elem_of_In. apply list_elem_of_lookup in He as [j Hj].
    apply lookup_take_Some in Hj as [Hj Hlt]. unfold in_range. rewrite Hne, (Hl _ _ Hj).
    destruct (Z.ltb_spec (Z.of_nat j) (Z.of_nat n)); [|lia]. now rewrite andb_true_r.
Qed.

Lemma edge_begins :
  o = Descending -> (forall e, e ∈ entries leaves -> up e = true) ->
  triple t scan_error (max_leaf t) begins.
Proof.
  intros Ho Hup. apply triple_scan.
  eapply triple_weaken; [apply (edge_leaf_spec t Hid h root leaves false Hwf)|].
  intros x (l & Hedge & Hx). unfold edge_of in Hedge. apply head_cons in Hedge as [R HR].
  apply (f_equal reverse) in HR. rewrite reverse_involutive, reverse_cons in HR.
  set (L1 := reverse R) in *. destruct x as [[pin i]|].
  - destruct Hx as (Hnk & Hpin & ->). apply zlen_pos in Hnk. pose proof (zlen_entries_of l) as Hz.
    unfold zlen in Hz, Hnk |- *. exists L1, l, [], (length (entries_of l) - 1)%nat.
    split; [exact HR|]. split; [exact Hpin|]. split; [lia|]. split; [lia|].
    rewrite (selected_descending L1 l [] (length (entries_of l)) Ho HR).
    + unfold rest_from. rewrite Ho. now replace (S (length (entries_of l) - 1)) with (length (entries_of l)) by lia.
    + intros e He. apply Hup. rewrite HR, entries_app. apply elem_of_app. now left.
    + intros j e He. rewrite Hup by (eapply split_elem; [exact HR|]; right; left; eapply entries_of_elem; eauto).
      symmetry. apply Z.ltb_lt. apply lookup_lt_Some in He. lia.
    + intros e He. inversion He.
  - assert (leaves = [l]) as Heq.
    { apply Hset; [rewrite HR; apply elem_of_app; right; left | exact Hx]. }
    simpl. unfold selected. rewrite Heq, entries_cons, app_nil_r. unfold entries_of. rewrite Hx. simpl.
    unfold scan_order. now rewrite Ho.
Qed.

Lemma nearest_left_spec L1 l L2 steps pin :
  o = Descending -> leaves = L1 ++ l :: L2 -> on_leaf l pin -> (length L1 <= steps)%nat ->
  selected = rest_leaves L1 L2 ->
  triple t scan_error (nearest_left t steps pin) begins.
Proof.
  intros Ho Hsplit Hpin Hsteps Hsel. apply triple_scan.
  pose proof (next_leaf_chain L1 l L2 Hsplit) as Hnext. rewrite (rest_leaves_next L1 l L2) in Hsel.
  unfold forward in Hnext. rewrite Ho in Hnext.
  destruct steps as [|steps]; cbn [nearest_left];
    (eapply triple_bind; [eapply (triple_view _ _ _ _ (eq (lp_view l))); [exact Hpin | reflexivity]|]);
    intros ? <-; rewrite (proj1 (proj1 Hpin));
    destruct (next_leaf L1 l L2) as [[[L1' l'] L2']|] eqn:Hnl.
  2,4: destruct Hnext as (-> & Hedge & _);
    eapply triple_bind; [apply (ends_at_edge t Hid h root leaves false l Hwf Hedge)|];
    intros ? <-; now apply triple_ret.
  - destruct Hnext as (_ & _ & _ & Ha). unfold ahead in Ha. rewrite Ho in Ha. lia.
  - destruct Hnext as (-> & Hback & Hsplit' & _).
    pose proof (split_leaf_ok t h root leaves Hwf L1' l' L2' Hsplit') as Hl'.
    eapply triple_bind; [apply (step_sibling_spec t Hid false l l' Hl' Hback)|]. intros pin' Hpin'.
    eapply triple_bind; [eapply (triple_view _ _ _ _ (eq (lp_view l'))); [exact Hpin' | reflexivity]|].
    intros ? <-. cbv zeta. rewrite (leaf_count t l' Hl').
    pose proof (neighbour_nonempty L1 l L2 L1' l' L2' Hsplit Hnl) as Hlt.
    pose proof (zlen_entries_of l') as Hz. unfold zlen in *.
    destruct (Z.ltb_spec 0 (Z.of_nat (length (lp_keys l')))); [|lia]. apply triple_ret.
    exists L1', l', L2', (first_of l'). split; [exact Hsplit'|]. split; [exact Hpin'|].
    split; [unfold first_of; rewrite Ho; lia|]. split; [exact Hlt | exact Hsel].
Qed.

Lemma descending_start_spec op q :
  o = Descending -> upper_end (kr_upper r) = Some (op, q) ->
  triple t scan_error (descending_start t q op) begins.
Proof.
  intros Ho Hu. destruct (upper_end_ok t r Hhi op q Hu) as [Hq Hop].
  assert (forall e, up e = negb (op_holds op (ord (en_key e) q))) as Hup
    by (intros e; now rewrite upper_ok_end, Hu).
  unfold descending_start. eapply triple_bind; [apply triple_scan, (search_spec t Hid h root leaves q op Hwf Hq)|].
  intros x Hx. apply (first_in_splits t h root leaves Hwf op q (fun e => negb (up e)) x Hq Hop) in Hx.
  2:{ intros e. now rewrite Hup, negb_involutive. }
  destruct x as [[pin i]|].
  - destruct Hx as (L1 & l & L2 & Hsplit & Hpin & Hi & H1 & Hl & H2).
    assert (selected = List.filter low (rev (take (Z.to_nat i) (entries_of l)) ++ rev (entries L1))) as Hsel.
    { apply (selected_descending L1 l L2); auto.
      - intros e He. apply negb_false_iff. exact (H1 e He).
      - intros j e Hj. rewrite Z2Nat.id by lia. specialize (Hl j e Hj). simpl in Hl.
        destruct (upper_ok ord r (en_key e)), (Z.leb_spec i (Z.of_nat j)), (Z.ltb_spec (Z.of_nat j) i); simpl in *; congruence || lia || reflexivity.
      - intros e He. apply negb_true_iff. exact (H2 e He). }
    destruct (Z.ltb_spec 0 i) as [Hpos|Hz].
    + apply triple_ret. exists L1, l, L2, (Z.to_nat i - 1)%nat. split; [exact Hsplit|]. split; [exact Hpin|].
      split; [lia|]. pose proof (zlen_entries_of l) as Hze. unfold zlen in *. split; [lia|].
      rewrite Hsel. unfold rest_from. rewrite Ho. now replace (S (Z.to_nat i - 1)) with (Z.to_nat i) by lia.
    + apply triple_get. intros s Hs. rewrite (sl_count s (ti_store _ _ Hs)).
      apply (nearest_left_spec L1 l L2); auto.
      * pose proof (wf_count _ _ _ _ Hwf) as Hc. rewrite Hsplit, zlen_app, zlen_cons in Hc.
        unfold saturating_add, usize_max, zlen, u64_max in *. lia.
      * rewrite Hsel. replace (Z.to_nat i) with 0%nat by lia. unfold rest_leaves. now rewrite Ho.
  - apply edge_begins; [exact Ho|]. intros e He. apply negb_false_iff. exact (Hx e He).
Qed.

Lemma scan_start_spec c : mine c -> triple t scan_error (scan_start t c) begins.
Proof.
  intros [Ho Hr]. unfold scan_start. rewrite Ho, Hr.
  assert (o = Ascending \/ o = Descending) as [Hasc|Hdesc] by (destruct o; auto).
  - rewrite Hasc. apply triple_scan.
    eapply triple_weaken; [apply (range_start_spec t Hid h root leaves Hwf r Hlo Hset)|].
    intros [[pin i]|] Hst.
    + destruct (starts_at_filter t leaves r pin i Hne Hst) as (L1 & l & L2 & Hsplit & Hpin & Hi & Hf).
      exists L1, l, L2, (Z.to_nat i). split; [exact Hsplit|]. split; [exact Hpin|]. split; [lia|].
      pose proof (zlen_entries_of l) as Hz. unfold zlen in *. split; [lia|].
      unfold selected, scan_order, rest_from. rewrite Hasc. exact Hf.
    + simpl. unfold selected, scan_order. rewrite Hasc. apply filter_nothing. intros e He.
      unfold in_range. rewrite (Hst e He). now rewrite andb_false_r.
  - rewrite Hdesc. destruct (upper_end (kr_upper r)) as [[op q]|] eqn:Hu.
    + replace (match kr_upper r with Unbounded => max_leaf t | Included k => descending_start t k UpperBound
        | Excluded k => descending_start t k LowerBound end) with (descending_start t q op)
        by (destruct (kr_upper r); simpl in Hu; now simplify_eq).
      now apply descending_start_spec.
    + replace (match kr_upper r with Unbounded => max_leaf t | Included k => descending_start t k UpperBound
        | Excluded k => descending_start t k LowerBound end) with (max_leaf t)
        by (now destruct (kr_upper r)).
      apply edge_begins; [exact Hdesc|]. intros e _. now rewrite upper_ok_end, Hu.
Qed.

Lemma steps_enough L1 l L2 : leaves = L1 ++ l :: L2 ->
  Z.of_nat (length (ahead L1 L2)) < saturating_add page_count 1.
Proof.
  intros Hsplit. pose proof (wf_count _ _ _ _ Hwf) as Hc. rewrite Hsplit, zlen_app, zlen_cons in Hc.
  unfold ahead, saturating_add, usize_max, zlen, u64_max in *. destruct o; lia.
Qed.

Lemma seek_spec c :
  mine c -> ps_started (cu_pos c) = true -> ps_finished (cu_pos c) = false ->
  ps_page_steps_left (cu_pos c) = saturating_add page_count 1 ->
  ctriple c (seek_first t) (fun more c' => outcome more c' selected).
Proof.
  intros Hm Hst Hfin Hsteps. unfold seek_first. apply ctriple_cursor.
  eapply ctriple_store; [now apply scan_start_spec|].
  intros [[pin i]|] Hb; [|rewrite Hb; now apply ctriple_ret].
  destruct Hb as (L1 & l & L2 & n & Hsplit & Hpin & -> & Hlt & ->).
  pose proof (split_leaf_ok t h root leaves Hwf L1 l L2 Hsplit) as Hl.
  apply ctriple_set; [repeat split|].
  eapply ctriple_bind; [apply (recompute_spec _ l pin); [exact Hm | exact Hl | reflexivity | exact Hpin]|].
  intros ? c' Hfr Hc'. apply skip_spec; [eapply mine_frame; [|exact Hfr]; exact Hm|].
  rewrite Hc'. split; [|reflexivity | exact Hlt]. split; simpl; try assumption.
  - eauto.
  - now destruct (window_of l).
  - rewrite Hsteps. eapply steps_enough; eauto.
Qed.

(** ** Reading the entry *)

(** Every leaf went through the store's validation, and overflow references
    lead to blob pages. *)
Definition readable : Prop := forall l, l ∈ leaves ->
  PageView_validate (lp_view l) = Ok tt /\
  forall j e b, 0 <= j -> leaf_entry (lp_view l) j = Ok e -> le_value e = Overflow b ->
    exists bytes v, file b = Some bytes /\ PageView_parse bytes = Ok v /\ view_kind v = Leaf /\ entry_count v = 0.
Context (Hread : readable).

(** The value stored with an entry, on its leaf or on a page of its own. *)
Definition holds_value (e : Entry) (value : list byte) (overflow : bool) : Prop :=
  exists le, leaf_entry (lp_view (en_leaf e)) (en_index e) = Ok le /\
    match le_value le with
    | Inline offset len => overflow = false /\ value = slice (pv_bytes (lp_view (en_leaf e))) offset len
    | Overflow b => overflow = true /\
        exists bytes, file b = Some bytes /\ value = drop (Z.to_nat PAGE_PREFIX_LEN) bytes
    end.

Definition shows (c : Cursor) (e : Entry) : Prop :=
  exists er, cursor_current c = Some er /\ er_key er = en_key e /\
    er_page er = lp_ordinal (en_leaf e) /\ holds_value e (er_value er) (er_overflow er).

(** Only the key buffer and its charge differ. *)
Definition same_spot (c c' : Cursor) : Prop :=
  cu_pos c' = cu_pos c /\ cu_current c' = cu_current c /\ cu_blob c' = cu_blob c.

Lemma charge_at_least_spec c n :
  ctriple c (charge_at_least n) (fun _ c' => same_spot c c' /\ cu_key_buf c' = cu_key_buf c).
Proof.
  unfold charge_at_least. apply ctriple_cursor. destruct (_ <=? _); [apply ctriple_ret; repeat split|].
  eapply ctriple_store; [apply triple_reserve|]. intros ? <-.
  apply ctriple_set_last; repeat split.
Qed.

Lemma ctriple_or_drop c m Q : ctriple c m Q -> ctriple c (or_drop_buf m) Q.
Proof.
  intros Hm s Hs. destruct (Hm s Hs) as (H1 & H2 & H3). unfold or_drop_buf.
  destruct (m (c, s)) as [[[]|e] [c' s']]; simpl in *; auto.
Qed.

Lemma charge_written_spec c :
  ctriple c charge_written (fun _ c' => same_spot c c' /\ cu_key_buf c' = cu_key_buf c).
Proof. unfold charge_written. apply ctriple_cursor. apply ctriple_or_drop, charge_at_least_spec. Qed.

Lemma charge_buffer_spec c n : ctriple c (charge_buffer n) (fun _ c' => same_spot c c').
Proof.
  unfold charge_buffer. apply ctriple_cursor. destruct (_ <=? _); [apply ctriple_ret; repeat split|].
  eapply ctriple_bind; [apply charge_at_least_spec|]. intros ? c1 _ [Hs1 _].
  apply ctriple_set; [repeat split|].
  eapply ctriple_weaken; [apply charge_written_spec|]. intros ? c2 _ [Hs2 _].
  unfold same_spot in *. simpl in Hs2. intuition congruence.
Qed.

Lemma blob_spec b bytes v :
  file b = Some bytes -> PageView_parse bytes = Ok v -> view_kind v = Leaf -> entry_count v = 0 ->
  triple t scan_error (blob b)
    (fun x => pin_data (fst x) = bytes /\ snd x = (PAGE_PREFIX_LEN, zlen bytes)).
Proof.
  intros Hf Hp Hk Hc. apply triple_scan. unfold blob.
  eapply triple_bind; [apply (triple_page t Hid _ b)|].
  - intros s e Hs He. now exists b, s, bytes.
  - intros pin (Ho & Hfile & _). assert (pin_data pin = bytes) as Hd by congruence.
    eapply triple_lift_ok.
    + unfold blob_from_pin. rewrite (proj2 (pin_view_Ok pin v)) by congruence. cbn [rbind].
      rewrite bool_decide_eq_false_2 by (rewrite Hk; tauto). rewrite Hc. simpl. reflexivity.
    + simpl. unfold pin_len. rewrite Hd. auto.
Qed.

(** The key part of [materialize]. *)
Lemma read_key_spec c l pin j k le :
  leaf_ok (file := file) t l -> on_leaf l pin -> lp_keys l !! j = Some k ->
  leaf_entry (lp_view l) (Z.of_nat j) = Ok le ->
  ctriple c
    (if omitted_keys (view_layout (lp_view l)) then
       let! capacity := lift (rebuilt_key_capacity E) in
       let! _ := charge_buffer capacity in
       let! c := cursor in
       let! rebuilt := lift (rebuild_key E (lp_view l) (Z.of_nat j) (cu_key_buf c)) in
       match rebuilt with
       | Some key =>
           let! _ := set_cursor (set_buf key (if zlen key <=? cu_key_capacity c then cu_key_capacity c
                                              else cs_capacity (zlen key))) in
           let! _ := charge_written in
           sret Rebuilt
       | None => sret (KeyOnPage (le_key_offset le) (le_key_len le))
       end
     else sret (KeyOnPage (le_key_offset le) (le_key_len le)))
    (fun src c' => same_spot c c' /\
       match src with
       | KeyOnPage offset len => slice (pin_data pin) offset len = k
       | Rebuilt => cu_key_buf c' = k
       end).
Proof.
  intros Hl [_ Hv] Hk He. pose proof Hl as [(_ & Hchk & Hp) Hkind].
  destruct (omitted_keys (view_layout (lp_view l))) eqn:Hom.
  - destruct (key_rebuilt (lp_view l) (lp_keys l) j k Hp Hchk Hk Hom) as [[n Hn] Hreb].
    eapply ctriple_lift; [unfold rebuilt_key_capacity; rewrite Hn; reflexivity|].
    eapply ctriple_bind; [apply charge_buffer_spec|]. intros ? c1 _ Hs1.
    apply ctriple_cursor. eapply ctriple_lift; [apply Hreb|].
    cbv beta iota. apply ctriple_set; [repeat split|].
    eapply ctriple_bind; [apply charge_written_spec|]. intros ? c2 _ [Hs2 Hb2]. apply ctriple_ret.
    split; [unfold same_spot in *; simpl in Hs2; intuition congruence|]. exact Hb2.
  - apply ctriple_ret. split; [repeat split|].
    pose proof (key_read (lp_view l) (lp_keys l) j k Hp Hchk Hk Hom) as Hek. unfold entry_key in Hek. rewrite Hkind, He in Hek.
    cbn [rbind] in Hek. unfold leaf_key in Hek. apply read_slice_inv in Hek as (_ & _ & _ & ->).
    apply pin_view_Ok, PageView_parse_wf in Hv as [_ <-]. reflexivity.
Qed.

Lemma materialize_spec c e rest :
  stands c e rest -> ctriple c (materialize t) (fun _ c' => cu_pos c' = cu_pos c /\ shows c' e).
Proof.
  intros (L1 & l & L2 & i & [[Hsplit (pin & Hp & Hpin) _ _ _ _] Hi Hlt] & He & _).
  apply entries_of_lookup in He as (k & Hk & ->).
  pose proof (split_leaf_ok t h root leaves Hwf L1 l L2 Hsplit) as Hl. pose proof Hl as [(_ & _ & Hsp) Hkind].
  assert (l ∈ leaves) as Hin by (rewrite Hsplit; apply elem_of_app; right; left).
  destruct (Hread l Hin) as [Hval Hblob].
  pose proof (validate_entries (lp_view l) (sp_wf _ _ _ Hsp) Hval (Z.of_nat i)) as Hent.
  rewrite Hkind in Hent. destruct Hent as [le Hle].
  { rewrite (leaf_count t l Hl). apply lookup_lt_Some in Hk. unfold zlen. lia. }
  unfold materialize. apply ctriple_pos. eapply ctriple_lift; [rewrite Hp; reflexivity|].
  eapply ctriple_lift; [apply Hpin|]. cbv zeta. rewrite Hi. eapply ctriple_lift; [exact Hle|].
  eapply ctriple_bind; [apply (read_key_spec c l pin i k le Hl Hpin Hk Hle)|].
  intros src c1 _ [(Hp1 & _ & _) Hsrc].
  assert (pv_bytes (lp_view l) = pin_data pin) as Hbytes.
  { destruct Hpin as [_ Hv]. apply pin_view_Ok, PageView_parse_wf in Hv as [_ ?]. assumption. }
  apply (ctriple_bind _ _ _ (fun (x : Z * Z * bool) c2 => cu_pos c2 = cu_pos c1 /\ cu_key_buf c2 = cu_key_buf c1 /\
    let '(start, stop, on_blob) := x in
    exists vpin, (if on_blob then cu_blob c2 else Some pin) = Some vpin /\
      holds_value (mkEntry l (Z.of_nat i) k) (slice (pin_data vpin) start (stop - start)) on_blob)).
  - destruct (le_value le) as [offset len|b] eqn:Hlv.
    + apply ctriple_ret. split; [reflexivity|]. split; [reflexivity|]. exists pin. split; [reflexivity|].
      exists le. simpl. rewrite Hlv, Hbytes. split; [exact Hle|]. split; [reflexivity|]. f_equal. lia.
    + destruct (Hblob (Z.of_nat i) le b ltac:(lia) Hle Hlv) as (bytes & v & Hf & Hpv & Hkv & Hcv).
      eapply ctriple_store; [apply (blob_spec b bytes v Hf Hpv Hkv Hcv)|].
      intros [bpin [start stop]] [Hd [= -> ->]]. simpl in Hd. apply ctriple_set; [repeat split|]. apply ctriple_ret.
      split; [reflexivity|]. split; [reflexivity|]. exists bpin. split; [reflexivity|].
      exists le. simpl. rewrite Hlv. split; [exact Hle|]. split; [reflexivity|]. exists bytes. split; [exact Hf|].
      rewrite Hd. unfold slice. apply take_ge. rewrite length_drop. unfold zlen. lia.
  - intros [[start stop] on_blob] c2 _ (Hp2 & Hb2 & vpin & Hvpin & Hholds).
    apply ctriple_set_last; [repeat split|]. split; [simpl; congruence|].
    exists (mkEntryRef k vpin start stop (pin_ordinal pin) on_blob). split; [|split; [reflexivity|]].
    + unfold cursor_current. simpl. rewrite Hp2, Hp1, Hp, Hvpin. f_equal. f_equal.
      destruct src; [exact Hsrc | congruence].
    + split; [apply Hpin | exact Hholds].
Qed.

(** ** Between two calls of [advance] *)

(** The entries a cursor has still to hand out. *)
Definition before (c : Cursor) (rest : list Entry) : Prop :=
  mine c /\
  ((ps_finished (cu_pos c) = true /\ rest = []) \/
   (ps_finished (cu_pos c) = false /\ ps_started (cu_pos c) = false /\
    ps_page_steps_left (cu_pos c) = saturating_add page_count 1 /\ rest = selected) \/
   exists e, stands c e rest).

Lemma before_pos c c' rest : before c rest -> frame c c' -> cu_pos c' = cu_pos c -> before c' rest.
Proof.
  intros [Hm H] Hfr Hp. split; [eapply mine_frame; eauto|]. rewrite Hp.
  destruct H as [H|[H|(e & L1 & l & L2 & i & H)]]; auto.
  right; right. exists e, L1, l, L2, i. now rewrite Hp.
Qed.

Definition advanced (rest : list Entry) (more : bool) (c : Cursor) : Prop :=
  match rest with
  | [] => more = false /\ ps_finished (cu_pos c) = true /\ cursor_current c = None
  | e :: rest => more = true /\ shows c e /\ before c rest
  end.

Lemma step_and_read_spec c rest :
  before c rest -> ps_finished (cu_pos c) = false -> ctriple c (step_and_read t) (advanced rest).
Proof.
  intros [Hm Hb] Hfin. unfold step_and_read. apply ctriple_pos.
  apply (ctriple_bind _ _ _ (fun more c' => outcome more c' rest)).
  - destruct Hb as [[Hf _]|[(_ & Hst & Hsteps & ->)|(e & Hs)]]; [congruence| |].
    + rewrite Hst. simpl. apply ctriple_set; [repeat split|]. apply seek_spec; auto.
    + pose proof Hs as (L1 & l & L2 & i & Hpl & _). rewrite (op_started _ _ _ _ (pl_on _ _ _ _ _ Hpl)). simpl.
      eapply step_spec; eauto.
  - intros more c' Hfr Hout. destruct rest as [|e rest].
    + rewrite Hout. simpl. apply ctriple_set; [repeat split|]. apply ctriple_ret. repeat split.
    + destruct Hout as [-> Hs]. simpl.
      eapply ctriple_bind; [eapply materialize_spec; exact Hs|].
      intros ? c2 Hfr2 [Hp Hsh]. apply ctriple_ret. split; [reflexivity|]. split; [exact Hsh|].
      split; [eapply mine_frame; [|exact Hfr2]; now apply (mine_frame c)|].
      right; right. exists e. destruct Hs as (L1 & l & L2 & i & H). exists L1, l, L2, i. now rewrite Hp.
Qed.

Lemma advance_spec c rest s :
  before c rest -> tree_inv t s ->
  let run := advance t (c, s) in
  tree_inv t (snd (snd run)) /\ frame c (fst (snd run)) /\
  match fst run with
  | Ok more => advanced rest more (fst (snd run))
  | Err e => scan_error e /\ before (fst (snd run)) rest /\ cursor_current (fst (snd run)) = None
  end.
Proof.
  intros Hb Hs. cbv zeta. set (c0 := set_blob None (set_current None c)).
  assert (before c0 rest) as Hb0 by (apply (before_pos c); [exact Hb | repeat split | reflexivity]).
  replace (advance t (c, s)) with
    (if ps_finished (cu_pos c0) then (Ok false, (c0, s))
     else match step_and_read t (c0, s) with
          | (Ok more, cs) => (Ok more, cs)
          | (Err e, (c1, s1)) => (Err e, (restore (position c0) c1, s1))
          end)
    by (unfold advance, sbind, set_cursor, cursor; simpl; destruct (ps_finished (cu_pos c)); reflexivity).
  destruct (bool_split (ps_finished (cu_pos c0))) as [Hf|Hf]; rewrite Hf.
  - simpl. split; [exact Hs|]. split; [repeat split|].
    destruct Hb0 as [_ [[_ ->]|[[Hf' _]|(e & L1 & l & L2 & i & Hpl & _)]]].
    + repeat split. exact Hf.
    + congruence.
    + pose proof (op_finished _ _ _ _ (pl_on _ _ _ _ _ Hpl)). congruence.
  - destruct (step_and_read_spec c0 rest Hb0 Hf s Hs) as (Hs' & Hfr & H).
    destruct (step_and_read t (c0, s)) as [[more|e] [c1 s1]]; simpl in *.
    + split; [exact Hs'|]. split; [exact Hfr | exact H].
    + split; [exact Hs'|]. split; [exact Hfr|]. split; [exact H|]. split; [|reflexivity].
      apply (before_pos c0); [exact Hb0 | exact Hfr | reflexivity].
Qed.
End Scan.

(** [while cursor.advance()? { out.push(cursor.current()) }] *)
Fixpoint drain {Store} `{!TreeStore Store} `{!CursorStore Store} (fuel : nat) (t : Tree)
    : SM (Cursor * Store) Error (option (list EntryRef)) :=
  match fuel with
  | O => sret None
  | S fuel =>
      let! more := advance t in
      if negb more then sret (Some [])
      else
        let! c := cursor in
        let! rest := drain fuel t in
        sret (match cursor_current c, rest with
              | Some er, Some rest => Some (er :: rest)
              | _, _ => None
              end)
  end.

Section Queries.
Context {Store : Type} {TS : TreeStore Store} {CS : CursorStore Store}.
Context {file : PageOrdinal -> option (list byte)} {page_count max_depth : Z}.
Context {SL : StoreLaws Store file page_count max_depth} {CL : CursorLaws Store SL}.
Context (t : Tree) (Hid : 1 <= tree_id t).
Abbreviation E := (tree_encoding t).
Context {HL : LawfulEncoding E} {Hkeys : KeysReadable E}.
Context (h : nat) (root : PageOrdinal) (leaves : list LeafInfo).
Context (Hwf : well_formed (file := file) (page_count := page_count) (max_depth := max_depth) t h root leaves).
Context (Hset : settled leaves) (Hread : readable (file := file) leaves).

(** One step of a cursor over a well-formed tree, from any state a scan can
    be in.  While entries of the range remain, [advance] hands out exactly the next
    one in the direction of the scan: the key, the value and the page it reports
    are the stored ones.  When none remain it reports the end.  When a page cannot
    be read or memory is refused it fails, and the cursor then still has the same
    entries to hand out, so a retry loses and repeats nothing. *)
Theorem advance_correct o r c rest s :
  bound_ok t (kr_lower r) -> bound_ok t (kr_upper r) -> kr_empty r = false ->
  before (SL := SL) t leaves o r c rest -> tree_inv t s ->
  let run := advance t (c, s) in
  tree_inv t (snd (snd run)) /\
  match fst run, rest with
  | Ok true, e :: rest => shows (file := file) (fst (snd run)) e /\
      before (SL := SL) t leaves o r (fst (snd run)) rest
  | Ok false, [] => before (SL := SL) t leaves o r (fst (snd run)) [] /\
      cursor_current (fst (snd run)) = None
  | Err e, rest => scan_error (file := file) e /\ before (SL := SL) t leaves o r (fst (snd run)) rest /\
      cursor_current (fst (snd run)) = None
  | _, _ => False
  end.
Proof.
  intros Hlo Hhi Hne Hb Hs run.
  destruct (advance_spec t Hid h root leaves Hwf Hset o r Hlo Hhi Hne Hread c rest s Hb Hs) as (Hs' & Hfr & H).
  fold run in Hs', Hfr, H. split; [exact Hs'|].
  destruct (fst run) as [more|e]; [|exact H]. unfold advanced in H. destruct rest as [|e rest].
  - destruct H as (-> & Hf & Hcur). split; [|exact Hcur].
    split; [eapply mine_frame; [apply Hb | exact Hfr] | left; auto].
  - destruct H as (-> & H). exact H.
Qed.

(** What the caller of a full scan holds at the end. *)
Definition hands_out (er : EntryRef) (e : Entry) : Prop :=
  er_key er = en_key e /\ er_page er = lp_ordinal (en_leaf e) /\
  holds_value (file := file) e (er_value er) (er_overflow er).

Lemma drain_eq fuel cs :
  drain (S fuel) t cs =
  match advance t cs with
  | (Ok true, (c, s)) =>
      match drain fuel t (c, s) with
      | (Ok rest, cs) => (Ok (match cursor_current c, rest with
                              | Some er, Some rest => Some (er :: rest)
                              | _, _ => None
                              end), cs)
      | (Err e, cs) => (Err e, cs)
      end
  | (Ok false, cs) => (Ok (Some []), cs)
  | (Err e, cs) => (Err e, cs)
  end.
Proof.
  cbn [drain]. unfold sbind, cursor. destruct (advance t cs) as [[[]|e] [c s]]; try reflexivity.
Qed.

Lemma drain_spec o r c rest s fuel :
  bound_ok t (kr_lower r) -> bound_ok t (kr_upper r) -> kr_empty r = false ->
  before (SL := SL) t leaves o r c rest -> tree_inv t s -> (length rest < fuel)%nat ->
  let run := drain fuel t (c, s) in
  tree_inv t (snd (snd run)) /\
  match fst run with
  | Ok out => exists ers, out = Some ers /\ Forall2 hands_out ers rest
  | Err e => scan_error (file := file) e
  end.
Proof.
  intros Hlo Hhi Hne. revert c rest s; induction fuel as [|fuel IH]; intros c rest s Hb Hs Hf; [lia|].
  cbv zeta. rewrite drain_eq.
  destruct (advance_spec t Hid h root leaves Hwf Hset o r Hlo Hhi Hne Hread c rest s Hb Hs) as (Hs' & Hfr & H).
  destruct (advance t (c, s)) as [[more|e] [c' s']]; simpl in *; [|split; [exact Hs' | apply H]].
  destruct rest as [|e rest].
  - destruct H as (-> & _ & _). simpl. split; [exact Hs'|]. exists []. split; [reflexivity | constructor].
  - destruct H as (-> & (er & Hcur & Hk & Hpg & Hv) & Hb'). simpl in Hf. cbv iota.
    destruct (IH c' rest s' Hb' Hs' ltac:(lia)) as [Hs2 H2].
    destruct (drain fuel t (c', s')) as [[out|e'] [c2 s2]]; simpl in *; [|auto].
    split; [exact Hs2|]. destruct H2 as (ers & -> & HF). rewrite Hcur. exists (er :: ers).
    split; [reflexivity|]. constructor; [repeat split; assumption | exact HF].
Qed.

Lemma drain_finished fuel c s :
  ps_finished (cu_pos c) = true -> fst (drain (S fuel) t (c, s)) = Ok (Some []) /\
  snd (snd (drain (S fuel) t (c, s))) = s.
Proof.
  intros Hf. cbn [drain]. unfold advance, sbind, set_cursor, cursor. simpl. rewrite Hf. auto.
Qed.

(** A cursor whose bounds are keys of the encoding. *)
Lemma cursor_build_spec charge o r validate :
  bound_ok t (kr_lower r) -> bound_ok t (kr_upper r) ->
  triple t (fun e => scan_error (file := file) e \/ (e = Error_invalid /\ bad_bounds t (kr_lower r) (kr_upper r)))
    (cursor_build t charge r o validate)
    (fun c => if kr_empty r then ps_finished (cu_pos c) = true
              else before (SL := SL) t leaves o r c (selected t leaves o r)).
Proof.
  intros Hlo Hhi. unfold cursor_build. destruct (kr_empty r).
  - eapply triple_bind; [eapply triple_error; [apply (triple_try_reserve t Hid) | intros e He; left; exact He]|].
    intros ? _. now apply triple_ret.
  - apply (triple_bind _ _ _ _ (fun _ => True)).
    { destruct validate; [|now apply triple_ret].
      apply (triple_bind _ _ _ _ (fun _ => True)); [|intros _ _]; apply triple_lift; auto;
        intros e (-> & k & Hk & Hv)%validate_bound_Err; right; (split; [reflexivity|]); left; exists k; auto. }
    intros _ _. apply (triple_bind _ _ _ _ (fun _ => True)).
    { destruct (check_order_cases t _ _ Hlo Hhi) as [->|[-> H]]; apply triple_lift; try congruence; auto.
      intros e [= <-]. right. split; [reflexivity|]. right. exact H. }
    intros _ _. apply triple_get. intros s Hs. cbv zeta. rewrite (sl_count s (ti_store _ _ Hs)).
    eapply triple_bind; [eapply triple_error; [apply (triple_try_reserve t Hid) | intros e He; left; exact He]|].
    intros n _. apply triple_ret. split; [split; reflexivity|]. right. left. repeat split.
Qed.

Lemma selected_empty o r : kr_empty r = true -> selected t leaves o r = [].
Proof.
  intros H. unfold selected. rewrite filter_nothing; [now destruct o|]. intros e _. unfold in_range. now rewrite H.
Qed.
End Queries.

Section CheckedQueries.
Context {Store : Type} {TS : TreeStore Store} {CS : CursorStore Store}.
Context {file : PageOrdinal -> option (list byte)} {page_count max_depth : Z}.
Context {SL : StoreLaws Store file page_count max_depth} {CL : CursorLaws Store SL}.
Context (t : Tree) (Hid : 1 <= tree_id t).
Abbreviation E := (tree_encoding t).
Context {HL : LawfulEncoding E} {HC : CheckableEncoding E}.
Context (h : nat) (root : PageOrdinal) (leaves : list LeafInfo).
Context (Hwf : well_formed (file := file) (page_count := page_count) (max_depth := max_depth) t h root leaves).
Context (Hset : settled leaves) (Hread : readable (file := file) leaves).

Lemma build_spec charge o r :
  triple t (fun e => scan_error (file := file) e \/ (e = Error_invalid /\ bad_bounds t (kr_lower r) (kr_upper r)))
    (Cursor_new t charge r o)
    (fun c => if kr_empty r then ps_finished (cu_pos c) = true
              else bound_ok t (kr_lower r) /\ bound_ok t (kr_upper r) /\
                   before (SL := SL) t leaves o r c (selected t leaves o r)).
Proof.
  unfold Cursor_new, cursor_build. destruct (kr_empty r).
  - eapply triple_bind; [eapply triple_error; [apply (triple_try_reserve t Hid) | intros e He; left; exact He]|].
    intros ? _. now apply triple_ret.
  - apply (triple_bind _ _ _ _ (fun _ => bound_ok t (kr_lower r) /\ bound_ok t (kr_upper r))).
    { apply (triple_bind _ _ _ _ (fun _ => bound_ok t (kr_lower r))).
      - destruct (validate_bound_cases t (kr_lower r)) as [[-> Hok]|[-> (k & Hk & Hv)]]; apply triple_lift; try congruence; auto.
        intros e [= <-]. right. split; [reflexivity|]. left. eauto.
      - intros _ Hlo. destruct (validate_bound_cases t (kr_upper r)) as [[-> Hok]|[-> (k & Hk & Hv)]]; apply triple_lift; try congruence; auto.
        intros e [= <-]. right. split; [reflexivity|]. left. eauto. }
    intros _ [Hlo Hhi]. apply (triple_bind _ _ _ _ (fun _ => True)).
    { destruct (check_order_cases t _ _ Hlo Hhi) as [->|[-> H]]; apply triple_lift; try congruence; auto.
      intros e [= <-]. right. split; [reflexivity|]. right. exact H. }
    intros _ _. apply triple_get. intros s Hs. cbv zeta. rewrite (sl_count s (ti_store _ _ Hs)).
    eapply triple_bind; [eapply triple_error; [apply (triple_try_reserve t Hid) | intros e He; left; exact He]|].
    intros n _. apply triple_ret. split; [exact Hlo|]. split; [exact Hhi|].
    split; [split; reflexivity|]. right. left. repeat split.
Qed.

(** A query from its bounds to the last entry. *)
Definition scan (fuel : nat) (charge : Z) (r : KeyRange) (o : Order) : SM Store Error (option (list EntryRef)) :=
  let! c := Cursor_new t charge r o in
  fun s => let '(out, (_, s)) := drain fuel t (c, s) in (out, s).

Lemma scan_spec fuel charge r o :
  (length (selected t leaves o r) < fuel)%nat ->
  triple t (fun e => scan_error (file := file) e \/ (e = Error_invalid /\ bad_bounds t (kr_lower r) (kr_upper r)))
    (scan fuel charge r o)
    (fun out => exists ers, out = Some ers /\ Forall2 (hands_out (file := file)) ers (selected t leaves o r)).
Proof.
  intros Hfuel. eapply triple_bind; [apply build_spec|]. intros c Hc s Hs.
  destruct (kr_empty r) eqn:Hemp.
  - destruct fuel as [|fuel]; [lia|]. destruct (drain_finished t fuel c s Hc) as [H1 H2].
    destruct (drain (S fuel) t (c, s)) as [out [c' s']]; simpl in *; subst. split; [exact Hs|].
    exists []. rewrite (selected_empty t leaves o r Hemp). split; [reflexivity | constructor].
  - destruct Hc as (Hlo & Hhi & Hb).
    destruct (drain_spec t Hid h root leaves Hwf Hset Hread o r c _ s fuel Hlo Hhi Hemp Hb Hs Hfuel) as [Hs' H].
    destruct (drain fuel t (c, s)) as [[out|e] [c' s']]; simpl in *; auto.
Qed.

(** C8: scanning a range hands out exactly the entries it selects.  Take a well-formed
    tree of a lawful encoding with settled leaves, none of them empty unless it is the only one, and with
    values that can be read, each on its leaf or on a page that holds one value.  A scan
    hands out exactly the entries the range selects, each once, in key order or in
    reverse, with the stored keys, values and pages, for every combination of bounds,
    inline and overflow values and omitted keys.  It stops early only when a page cannot
    be read, memory is refused or the bounds are invalid; over a store that does neither,
    a scan with valid bounds always completes.  (Behind an empty leaf at the edge a
    descending scan misses entries: [empty_edge_leaf_hides_entries].) *)
Theorem scan_correct fuel charge r o s :
  (length (selected t leaves o r) < fuel)%nat -> tree_inv t s ->
  let run := scan fuel charge r o s in
  tree_inv t (snd run) /\
  match fst run with
  | Ok out => exists ers, out = Some ers /\ Forall2 (hands_out (file := file)) ers (selected t leaves o r)
  | Err e => scan_error (file := file) e \/ (e = Error_invalid /\ bad_bounds t (kr_lower r) (kr_upper r))
  end /\
  ((forall e, ~ scan_error (file := file) e) -> ~ bad_bounds t (kr_lower r) (kr_upper r) ->
   is_ok (fst run) = true).
Proof.
  intros Hfuel Hs run. destruct (scan_spec fuel charge r o Hfuel s Hs) as [Hinv H]. fold run in Hinv, H.
  split; [exact Hinv|]. split; [exact H|]. intros Hok Hgood.
  destruct (fst run) as [out|e]; [reflexivity|]. destruct H as [He|[_ Hb]]; [now apply Hok in He | contradiction].
Qed.
End CheckedQueries.

(** * Reservations of a cursor *)

Section Charges.
Context {Store : Type} `{!TreeStore Store} `{!CursorStore Store} (t : Tree).
Context (Hexact : forall n (s : Store) m, fst (cs_reserve n s) = Ok m -> m = n).
Abbreviation CM A := (SM (Cursor * Store) Error A).

(** The key buffer is paid for, allocation header included. *)
Definition paid (c : Cursor) : Prop :=
  cu_key_capacity c = 0 \/ saturating_add (cu_key_capacity c) BUFFER_OVERHEAD <= cu_key_charge c.

(** Whatever happens to the buffer, it stays paid for and the charge only grows. *)
Definition stays_paid (cs cs' : Cursor * Store) : Prop :=
  (paid (fst cs) -> paid (fst cs')) /\ cu_key_charge (fst cs) <= cu_key_charge (fst cs').

#[local] Instance stays_paid_preorder : PreOrder stays_paid.
Proof.
  split; [split; [auto | lia]|]. intros x y z [H1 H2] [H3 H4]. split; [auto | lia].
Qed.

Definition same_buffer (c c' : Cursor) : Prop :=
  cu_key_capacity c' = cu_key_capacity c /\ cu_key_charge c' = cu_key_charge c.

Lemma same_buffer_paid c c' s s' : same_buffer c c' -> stays_paid (c, s) (c', s').
Proof. intros [H1 H2]. unfold stays_paid, paid. simpl. rewrite H1, H2. split; [auto | lia]. Qed.

Lemma keeps_set f : (forall c, same_buffer c (f c)) -> keeps stays_paid (set_cursor f : CM unit).
Proof. intros H [c s]. simpl. now apply same_buffer_paid. Qed.

Lemma keeps_on_store {A} (m : SM Store Error A) : keeps stays_paid (on_store m).
Proof. intros [c s]. unfold on_store. simpl. destruct (m s). apply same_buffer_paid. split; reflexivity. Qed.

Lemma keeps_cursor : keeps stays_paid (cursor : CM Cursor).
Proof. intros cs. reflexivity. Qed.

Lemma keeps_pos : keeps stays_paid (pos : CM Position).
Proof. intros cs. reflexivity. Qed.

Lemma charge_at_least_pays n cs :
  stays_paid cs (snd (charge_at_least n cs)) /\
  cu_key_capacity (fst (snd (charge_at_least n cs))) = cu_key_capacity (fst cs) /\
  (fst (charge_at_least n cs) = Ok tt ->
   saturating_add n BUFFER_OVERHEAD <= cu_key_charge (fst (snd (charge_at_least n cs)))).
Proof.
  destruct cs as [c s]. simpl. unfold charge_at_least, sbind, cursor. simpl.
  destruct (Z.leb_spec (saturating_add n BUFFER_OVERHEAD) (cu_key_charge c)).
  - simpl. split; [reflexivity|]. auto.
  - unfold on_store. simpl. destruct (cs_reserve _ s) as [[m|e] s'] eqn:Hr; simpl.
    + pose proof (Hexact (saturating_add n BUFFER_OVERHEAD - cu_key_charge c) s m) as Hm.
      rewrite Hr in Hm. specialize (Hm eq_refl). subst m.
      split; [|split; [reflexivity | intros _; lia]].
      unfold stays_paid, paid. simpl. split; [intros [|]; [left | right]; lia | lia].
    + split; [apply same_buffer_paid; split; reflexivity|]. split; [reflexivity | discriminate].
Qed.

(** Reconciling pays for the buffer or gives it up. *)
Lemma charge_written_pays cs :
  paid (fst (snd (charge_written cs))) /\ cu_key_charge (fst cs) <= cu_key_charge (fst (snd (charge_written cs))).
Proof.
  destruct cs as [c s]. unfold charge_written, sbind, cursor, or_drop_buf. simpl.
  destruct (charge_at_least_pays (cu_key_capacity c) (c, s)) as (H1 & H2 & H3).
  destruct (charge_at_least (cu_key_capacity c) (c, s)) as [[[]|e] [c' s']]; simpl in *.
  - split; [right; rewrite H2; auto | apply H1].
  - split; [now left | apply H1].
Qed.

Lemma keeps_charge_buffer n : keeps stays_paid (charge_buffer n).
Proof.
  intros [c s]. unfold charge_buffer, sbind, cursor. simpl.
  destruct (n <=? cu_key_capacity c); [reflexivity|].
  destruct (charge_at_least_pays n (c, s)) as (H1 & _ & _).
  destruct (charge_at_least n (c, s)) as [[[]|e] [c1 s1]]; simpl in *; [|exact H1].
  destruct (charge_written_pays (set_buf [] (cs_capacity n) c1, s1)) as [H2 H3]. simpl in H3.
  split; [auto|]. destruct H1 as [_ H1]. simpl in *. lia.
Qed.

Lemma keeps_store_key key cap :
  keeps stays_paid (let! _ := set_cursor (set_buf key cap) in let! _ := charge_written in sret Rebuilt : CM KeySource).
Proof.
  intros [c s]. unfold sbind, set_cursor. simpl.
  destruct (charge_written_pays (set_buf key cap c, s)) as [H2 H3].
  destruct (charge_written (set_buf key cap c, s)) as [[[]|e] [c1 s1]]; simpl in *; (split; [auto | exact H3]).
Qed.

Ltac keep_paid tac :=
  repeat first
    [ tac | apply keeps_store_key | apply keeps_charge_buffer
    | apply (keeps_sret stays_paid) | apply (keeps_sfail stays_paid) | apply (keeps_lift stays_paid)
    | apply keeps_on_store | apply keeps_cursor | apply keeps_pos
    | apply keeps_set; intros; split; reflexivity
    | apply (keeps_sbind stays_paid); [|intros] | case_match ].

Lemma keeps_recompute : keeps stays_paid (recompute_leaf_bounds t).
Proof. unfold recompute_leaf_bounds, move. keep_paid fail. Qed.

Lemma keeps_next_page : keeps stays_paid (next_page t).
Proof. unfold next_page, move. keep_paid ltac:(apply keeps_recompute). Qed.

Lemma keeps_skip : keeps stays_paid (skip_to_valid t).
Proof.
  assert (forall fuel, keeps stays_paid (skip_loop t fuel)) as H.
  { induction fuel; cbn [skip_loop]; keep_paid ltac:(apply keeps_next_page || assumption). }
  unfold skip_to_valid. keep_paid ltac:(apply H).
Qed.

Lemma keeps_step_and_read : keeps stays_paid (step_and_read t).
Proof.
  unfold step_and_read, seek_first, cursor_step, materialize, move.
  keep_paid ltac:(apply keeps_next_page || apply keeps_skip || apply keeps_recompute).
Qed.

(** C30: a cursor's key buffer is always paid for.  Whatever the file holds and
    however a step ends, the reservation covers the capacity of the buffer and its
    allocation header, or there is no buffer; the reservation never shrinks. *)
Theorem cursor_buffer_is_paid cs :
  paid (fst cs) ->
  paid (fst (snd (advance t cs))) /\ cu_key_charge (fst cs) <= cu_key_charge (fst (snd (advance t cs))).
Proof.
  intros Hp. destruct cs as [c s]. unfold advance, sbind, set_cursor, cursor. simpl.
  set (c0 := set_blob None (set_current None c)).
  assert (stays_paid (c, s) (c0, s)) as H0 by (apply same_buffer_paid; split; reflexivity).
  destruct (ps_finished (cu_pos c)); [simpl; split; [now apply H0 | apply H0]|].
  pose proof (keeps_step_and_read (c0, s)) as H1.
  destruct (step_and_read t (c0, s)) as [[more|e] [c1 s1]]; simpl in *.
  - split; [now apply H1, H0 | apply H1].
  - assert (stays_paid (c1, s1) (restore (position c0) c1, s1)) as H2 by (apply same_buffer_paid; split; reflexivity).
    split; [now apply H2, H1, H0 | apply H1].
Qed.
End Charges.

(** * The scan loop ends on every file *)

Section Bounded.
Context {Store : Type} `{!TreeStore Store} `{!CursorStore Store} (t : Tree).

Lemma next_page_counts c s :
  match fst (next_page t (c, s)) with
  | Ok true => ps_page_steps_left (cu_pos (fst (snd (next_page t (c, s))))) = ps_page_steps_left (cu_pos c) - 1 /\
      ps_page_steps_left (cu_pos c) <> 0
  | _ => True
  end.
Proof.
  unfold next_page, sbind, pos. simpl. destruct (ps_leaf_ends_scan (cu_pos c)); [exact I|].
  destruct (Z.eqb_spec (ps_page_steps_left (cu_pos c)) 0); [exact I|].
  destruct (ps_page (cu_pos c)) as [page|]; [|exact I]. simpl.
  destruct (pin_view page) as [view|]; [|exact I]. cbv zeta.
  set (asc := match cu_order c with Ascending => true | Descending => false end).
  destruct (if asc then right_sibling view else left_sibling view) as [sib|].
  - unfold on_store. simpl. destruct (step_sibling _ _ _ _ s) as [[pin|] s1]; [|exact I].
    destruct (pin_view pin) as [v|]; [|exact I]. simpl.
    unfold recompute_leaf_bounds, sbind, cursor. simpl. destruct (pin_view pin) as [v'|]; [|exact I]. simpl.
    destruct (cu_order c).
    + destruct (upper_end _) as [[op q]|]; [|simpl; auto].
      unfold lift. destruct (cursor_leaf_search t v' q op) as [[i|]|]; simpl; auto.
    + destruct (lower_start _) as [[op q]|]; [|simpl; auto].
      unfold lift. destruct (cursor_leaf_search t v' q op) as [[i|]|]; simpl; auto.
  - unfold on_store. simpl. destruct (ends_at _ _ _ s) as [[b|] s1]; [|exact I]. destruct b; exact I.
Qed.

Definition skip_body (next : SM (Cursor * Store) Error (option bool)) : SM (Cursor * Store) Error (option bool) :=
  let! c := cursor in
  match ps_page (cu_pos c) with
  | None => sret (Some false)
  | Some page =>
      let! view := lift (pin_view page) in
      if in_window (cu_order c) (cu_pos c) (entry_count view) then sret (Some true)
      else
        let! more := next_page t in
        if negb more then sret (Some false) else next
  end.

Lemma skip_loop_eq fuel :
  skip_loop t fuel = skip_body (match fuel with O => sret None | S fuel => skip_loop t fuel end).
Proof. destruct fuel; reflexivity. Qed.

(** Either the round settles the answer, or it took one of the page steps. *)
Lemma skip_body_cases next c s :
  (exists r s', skip_body next (c, s) = (r, s') /\ r <> Ok None /\ forall next', skip_body next' (c, s) = (r, s')) \/
  (exists c' s', ps_page_steps_left (cu_pos c') = ps_page_steps_left (cu_pos c) - 1 /\
     ps_page_steps_left (cu_pos c) <> 0 /\ forall next', skip_body next' (c, s) = next' (c', s')).
Proof.
  unfold skip_body, sbind, cursor. simpl.
  destruct (ps_page (cu_pos c)) as [page|]; [|left; do 2 eexists; repeat split; discriminate].
  unfold lift. destruct (pin_view page) as [view|e]; [|left; do 2 eexists; repeat split; discriminate].
  destruct (in_window _ _ _); [left; do 2 eexists; repeat split; discriminate|].
  pose proof (next_page_counts c s) as Hn. destruct (next_page t (c, s)) as [[[]|e] [c' s']]; simpl in *.
  - right. exists c', s'. destruct Hn. auto.
  - left; do 2 eexists; repeat split; discriminate.
  - left; do 2 eexists; repeat split; discriminate.
Qed.

(** A scan never spins, whatever the file holds: the loop that looks for the
    next entry consumes one of the cursor's page steps per round, so it ends within
    as many rounds as there are steps left, and no allowance beyond that changes
    its result. *)
Theorem skip_loop_bounded c s fuel :
  0 <= ps_page_steps_left (cu_pos c) -> (Z.to_nat (ps_page_steps_left (cu_pos c)) <= fuel)%nat ->
  fst (skip_loop t fuel (c, s)) <> Ok None /\
  skip_loop t fuel (c, s) = skip_loop t (Z.to_nat (ps_page_steps_left (cu_pos c))) (c, s).
Proof.
  revert c s; induction fuel as [|fuel IH]; intros c s H0 Hf.
  - replace (Z.to_nat (ps_page_steps_left (cu_pos c))) with 0%nat by lia. split; [|reflexivity].
    rewrite skip_loop_eq. destruct (skip_body_cases (sret None) c s) as [(r & s' & -> & Hr & _)|(c' & s' & _ & Hnz & _)].
    + exact Hr.
    + lia.
  - rewrite (skip_loop_eq (S fuel)), (skip_loop_eq (Z.to_nat _)).
    destruct (skip_body_cases (skip_loop t fuel) c s) as [(r & s' & -> & Hr & Heq)|(c' & s' & Hst & Hnz & Heq)].
    + split; [exact Hr|]. symmetry. apply Heq.
    + rewrite !Heq. replace (Z.to_nat (ps_page_steps_left (cu_pos c)))
        with (S (Z.to_nat (ps_page_steps_left (cu_pos c')))) by lia.
      apply IH; lia.
Qed.
End Bounded.

(** * Examples over an in-memory image *)

#[export] Instance Image_cursor pages depth : CursorStore (Image pages depth) := {|
  cs_reserve := fun n s => (Ok n, s);
  cs_try_reserve := fun n s => (Ok n, s);
  cs_capacity := fun n => n;
|}.

#[export] Instance Image_cursor_laws pages depth : CursorLaws (Image pages depth) (Image_laws pages depth).
Proof. split; intros n s _; (split; [exact I|]); (split; [split; auto|]); now intros m [= <-]. Qed.

Lemma image_reads_all pages depth e : ~ scan_error (SL := Image_laws pages depth) e.
Proof.
  intros [(o & s & bytes & _ & Hf & He)|(n & s & _ & [He|He])]; try discriminate.
  simpl in He. unfold image_pin in He. rewrite Hf in He. discriminate.
Qed.

(** A page with a single inline entry. *)
Lemma single_entry_readable bytes v e0 :
  PageView_parse bytes = Ok v -> entry_count v = 1 -> leaf_entry v 0 = Ok e0 ->
  (forall b, le_value e0 <> Overflow b) ->
  forall j e b, 0 <= j -> leaf_entry v j = Ok e -> le_value e <> Overflow b.
Proof.
  intros [Hwf _]%PageView_parse_wf Hc He0 Hv j e b Hj He.
  destruct (leaf_entry_inv v j e Hwf He) as (_ & Hlt & _). replace j with 0 in He by lia.
  rewrite He0 in He. injection He as <-. apply Hv.
Qed.

Lemma sample_readable : readable (file := image_file sample_pages) sample_leaves.
Proof.
  intros l Hl. repeat (apply elem_of_cons in Hl as [->|Hl]; [split; [vm_compute; reflexivity|]|]); [| |inversion Hl];
    intros j e b Hj He Hv; exfalso; revert Hv; cbn [lp_view] in He.
  - eapply (single_entry_readable (tiny_leaf Byte.x62 (-1) 4)); eauto; try (vm_compute; reflexivity); discriminate.
  - eapply (single_entry_readable (tiny_leaf Byte.x64 3 (-1))); eauto; try (vm_compute; reflexivity); discriminate.
Qed.

Definition sample_range : KeyRange := KeyRange_from_bounds (Excluded [Byte.x61]) (Included [Byte.x64]).

(** The keys a scan hands out. *)
Definition scanned_keys (r : Result (option (list EntryRef))) : Result (option (list (list byte))) :=
  rmap (option_map (map er_key)) r.

Example scan_up : scanned_keys (fst (scan sample_tree 3 0 sample_range Ascending sample_state))
  = Ok (Some [[Byte.x62]; [Byte.x64]]).
Proof. vm_compute. reflexivity. Qed.

Example scan_down : scanned_keys (fst (scan sample_tree 3 0 sample_range Descending sample_state))
  = Ok (Some [[Byte.x64]; [Byte.x62]]).
Proof. vm_compute. reflexivity. Qed.

Lemma scan_correct_witness :
  exists ers, fst (scan sample_tree 3 0 sample_range Descending sample_state) = Ok (Some ers) /\
    Forall2 (hands_out (file := image_file sample_pages)) ers
      (selected (HL := _) sample_tree sample_leaves Descending sample_range) /\
    length (selected (HL := _) sample_tree sample_leaves Descending sample_range) = 2%nat.
Proof.
  destruct (scan_correct sample_tree ltac:(discriminate) 1 0 sample_leaves sample_tree_wf sample_settled
    sample_readable 3 0 sample_range Descending sample_state ltac:(vm_compute; lia) sample_state_inv) as (_ & H & Hok).
  assert (~ bad_bounds sample_tree (kr_lower sample_range) (kr_upper sample_range)) as Hgood.
  { intros [(k & [[= <-]|[= <-]] & Hv)|(lo & hi & [= <-] & [= <-] & Hc)];
      [now apply Hv | now apply Hv | vm_compute in Hc; discriminate]. }
  specialize (Hok (image_reads_all _ _) Hgood).
  destruct (fst (scan sample_tree 3 0 sample_range Descending sample_state)) as [out|e]; [|discriminate].
  destruct H as (ers & -> & HF). exists ers. split; [reflexivity|]. split; [exact HF | vm_compute; reflexivity].
Defined.

Definition fresh_cursor : Cursor :=
  mkCursor Ascending sample_range (mkPosition None 0 0 false false false 6) None [] 0 0 None 0.

Lemma advance_correct_witness :
  exists e, fst (advance sample_tree (fresh_cursor, sample_state)) = Ok true /\ en_key e = [Byte.x62] /\
    shows (file := image_file sample_pages) (fst (snd (advance sample_tree (fresh_cursor, sample_state)))) e.
Proof.
  set (rest := selected (HL := _) sample_tree sample_leaves Ascending sample_range).
  assert (before (SL := Image_laws sample_pages 64) sample_tree sample_leaves Ascending sample_range
    fresh_cursor rest) as Hb by (split; [split; reflexivity|]; right; left; repeat split).
  destruct (advance_correct sample_tree ltac:(discriminate) 1 0 sample_leaves sample_tree_wf sample_settled
    sample_readable Ascending sample_range fresh_cursor rest sample_state (fun _ _ => I) (fun _ _ => I)
    eq_refl Hb sample_state_inv) as [_ H].
  destruct (fst (advance sample_tree (fresh_cursor, sample_state))) as [[]|e] eqn:Hrun.
  - unfold rest in H. set (es := selected _ _ _ _) in H. assert (exists e es', es = e :: es' /\ en_key e = [Byte.x62])
      as (e & es' & He & Hk) by (vm_compute; eauto). rewrite He in H. exists e. split; [reflexivity|]. split; [exact Hk | apply H].
  - vm_compute in Hrun. discriminate.
  - exfalso. exact (image_reads_all _ _ e (proj1 H)).
Defined.

Lemma cursor_buffer_is_paid_witness :
  paid (fst (snd (advance sample_tree (fresh_cursor, sample_state)))).
Proof.
  refine (proj1 (cursor_buffer_is_paid sample_tree _ (fresh_cursor, sample_state) _));
    [intros n s m [= <-]; reflexivity | now left].
Defined.

Lemma skip_loop_bounded_witness :
  fst (skip_loop sample_tree 9 (fresh_cursor, sample_state)) <> Ok None.
Proof. exact (proj1 (skip_loop_bounded sample_tree fresh_cursor sample_state 9 ltac:(discriminate) ltac:(vm_compute; lia))). Defined.

(** ** An empty leaf at the edge

    A tree whose last leaf is empty: its pages pass every check and counting
    finds the one entry, but a scan from the top starts at the empty leaf, takes
    the tree for empty and ends. *)

Definition empty_leaf (left right : Z) : list byte :=
  i32_le 28 ++ i32_le 0 ++ i32_le 0 ++ i64_le left ++ i64_le right.

Definition edge_pages : list (list byte) :=
  [sample_internal; []; []; tiny_leaf Byte.x62 (-1) 4; empty_leaf 3 (-1)].
Definition edge_state : Image edge_pages 64 := mkImage ∅.
Definition edge_range : KeyRange := KeyRange_from_bounds (Included [Byte.x61]) Unbounded.

Example empty_edge_leaf_hides_entries :
  fst (count_range sample_tree (kr_lower edge_range) (kr_upper edge_range) edge_state) = Ok 1 /\
  scanned_keys (fst (scan sample_tree 3 0 edge_range Ascending edge_state)) = Ok (Some [[Byte.x62]]) /\
  scanned_keys (fst (scan sample_tree 3 0 edge_range Descending edge_state)) = Ok (Some []).
Proof. repeat split; vm_compute; reflexivity. Qed.
