(* ===== verification/Index.v ===== *)
(** Secondary indexes, [crates/drydb/src/index.rs].

    An index is a tree whose values are references to records.  A non-unique one
    stores composite keys, the source key and a record id, so every range a caller
    asks for is translated before it reaches the tree.  The cursor keeps a copy of
    the key and a guard over the record: its operations thread it and the store. *)

From Stdlib Require Import ZArith Lia String.
From stdpp Require Import base list sorting gmap.
From coqutil Require Import Byte.
From S2P Require Import Prelude Errors Format PageRef Node Encoding Budget Catalog Page TreePage Btree Query Cursor.

#[local] Open Scope Z_scope.
#[local] Open Scope drydb_scope.

Record IndexInner : Type := mkIndexInner {
  ix_descriptor : IndexDescriptor;
  ix_tree : Tree;
  ix_source_encoding : KeyEncoding;
}.

(** Encoding ids are strings in the registry and bytes in the catalog. *)
Definition encoding_id (id : Str) : string := String.string_of_list_byte id.

(** [IndexInner::build], with the counter of tree ids. *)
Definition IndexInner_build (next_tree_id : Z) (descriptor : IndexDescriptor) (encodings : EncodingRegistry)
    (validate_digests : bool) : Result (IndexInner * Z) :=
  match id_value_kind descriptor with
  | VPageRef =>
      let? source := EncodingRegistry_resolve encodings (encoding_id (id_key_encoding_id descriptor)) in
      let encoding := if id_is_unique descriptor then source else DuplicateKeyEncoding source in
      let '(tree, next_tree_id) := Tree_new next_tree_id (id_root descriptor) encoding validate_digests in
      Ok (mkIndexInner descriptor tree source, next_tree_id)
  | _ => Err (Error_new UnsupportedFormat)
  end.

Definition is_unique (ix : IndexInner) : bool := id_is_unique (ix_descriptor ix).

(** * Ranges *)

(** Whether these bounds select nothing before they are widened. *)
Definition is_empty_range (ix : IndexInner) (lower upper : Bound) : Result bool :=
  match bound_key lower, bound_key upper with
  | Some lo, Some hi =>
      let? c := ke_compare (ix_source_encoding ix) lo hi in
      Ok (bool_decide (c = Eq) &&
          (match lower with Excluded _ => true | _ => false end || match upper with Excluded _ => true | _ => false end))
  | _, _ => Ok false
  end.

Definition validate_source (ix : IndexInner) (b : Bound) : Result unit :=
  match bound_key b with
  | Some key => validate_key (ix_source_encoding ix) key
  | None => Ok tt
  end.

Definition composite_lower (lower : Bound) : Bound :=
  match lower with
  | Unbounded => Unbounded
  | Included k => Included (DuplicateKey_encode k 0)
  | Excluded k => Excluded (DuplicateKey_encode k i32_max)
  end.

Definition composite_upper (upper : Bound) : Bound :=
  match upper with
  | Unbounded => Unbounded
  | Included k => Included (DuplicateKey_encode k i32_max)
  | Excluded k => Excluded (DuplicateKey_encode k 0)
  end.

(** Caller bounds in the tree's key space. *)
Definition tree_range (ix : IndexInner) (lower upper : Bound) (validate : bool) : Result KeyRange :=
  let? _ := if validate then (let? _ := validate_source ix lower in validate_source ix upper) else Ok tt in
  if is_unique ix then Ok (KeyRange_from_bounds lower upper)
  else
    let? empty := is_empty_range ix lower upper in
    if empty then Ok KeyRange_empty
    else Ok (KeyRange_from_bounds (composite_lower lower) (composite_upper upper)).

(** * The cursor *)

Record IndexCursor : Type := mkIndexCursor {
  ic_cursor : Cursor;
  ic_unique : bool;
  ic_key : list byte;
  ic_key_capacity : Z;
  ic_key_charge : Z;
  ic_value : option ValueGuard;
}.

Definition with_cursor (cursor : Cursor) (c : IndexCursor) : IndexCursor :=
  mkIndexCursor cursor (ic_unique c) (ic_key c) (ic_key_capacity c) (ic_key_charge c) (ic_value c).
Definition with_key (key : list byte) (capacity : Z) (c : IndexCursor) : IndexCursor :=
  mkIndexCursor (ic_cursor c) (ic_unique c) key capacity (ic_key_charge c) (ic_value c).
Definition with_charge (charge : Z) (c : IndexCursor) : IndexCursor :=
  mkIndexCursor (ic_cursor c) (ic_unique c) (ic_key c) (ic_key_capacity c) charge (ic_value c).
Definition with_value (value : option ValueGuard) (c : IndexCursor) : IndexCursor :=
  mkIndexCursor (ic_cursor c) (ic_unique c) (ic_key c) (ic_key_capacity c) (ic_key_charge c) value.
(** [key.clear()] keeps the allocation. *)
Definition clear_key (c : IndexCursor) : IndexCursor := with_key [] (ic_key_capacity c) c.

Section Ops.
Context {Store : Type} `{!TreeStore Store} `{!CursorStore Store}.
Abbreviation M A := (SM Store Error A).
Abbreviation IM A := (SM (IndexCursor * Store) Error A).

Definition ix_reserve_bounds (ix : IndexInner) (lower upper : Bound) : M Z :=
  reserve_bounds lower upper (if is_unique ix then 0 else RID_LEN).

(** The cursor both constructors end with. *)
Definition index_cursor (ix : IndexInner) (cursor : Cursor) : M IndexCursor :=
  let! key_charge := cs_try_reserve 0 in
  sret (mkIndexCursor cursor (is_unique ix) [] 0 key_charge None).

Definition index_range (ix : IndexInner) (lower upper : Bound) (order : Order) : M IndexCursor :=
  let! charge := ix_reserve_bounds ix lower upper in
  let! range := lift (tree_range ix lower upper true) in
  let! cursor := Cursor_new (ix_tree ix) charge range order in
  index_cursor ix cursor.

Definition index_scan (ix : IndexInner) (order : Order) : M IndexCursor := index_range ix Unbounded Unbounded order.

Definition index_prefix (ix : IndexInner) (prefix : list byte) (order : Order) : M IndexCursor :=
  if negb (ke_is_byte_lexicographic (ix_source_encoding ix)) then sfail Error_invalid
  else
    let! _ := ix_reserve_bounds ix (Included prefix) (Included prefix) in
    let source := prefix_range prefix in
    let! charge := ix_reserve_bounds ix (kr_lower source) (kr_upper source) in
    let! range := lift (tree_range ix (kr_lower source) (kr_upper source) false) in
    let! cursor := Cursor_for_prefix (ix_tree ix) charge range order in
    index_cursor ix cursor.

Definition index_lookup (ix : IndexInner) (key : list byte) : M IndexCursor :=
  let! _ := lift (validate_key (ix_source_encoding ix) key) in
  index_range ix (Included key) (Included key) Ascending.

Definition index_count_range (ix : IndexInner) (lower upper : Bound) : M Z :=
  let! _ := ix_reserve_bounds ix lower upper in
  let! range := lift (tree_range ix lower upper true) in
  if kr_empty range then sret 0
  else count_range (ix_tree ix) (kr_lower range) (kr_upper range).

Definition index_count (ix : IndexInner) : M Z := count_range (ix_tree ix) Unbounded Unbounded.

(** ** One step *)

Definition get_cursor : IM IndexCursor := fun cs => (Ok (fst cs), cs).
Definition change (f : IndexCursor -> IndexCursor) : IM unit := fun cs => (Ok tt, (f (fst cs), snd cs)).
Definition with_store {A} (m : M A) : IM A := fun cs =>
  let '(r, s) := m (snd cs) in (r, (fst cs, s)).
(** A step of the cursor inside. *)
Definition inner {A} (m : SM (Cursor * Store) Error A) : IM A := fun cs =>
  let '(r, (c, s)) := m (ic_cursor (fst cs), snd cs) in (r, (with_cursor c (fst cs), s)).

Definition ic_charge_at_least (bytes : Z) : IM unit :=
  let wanted := saturating_add bytes BUFFER_OVERHEAD in
  let! c := get_cursor in
  if wanted <=? ic_key_charge c then sret tt
  else
    let! more := with_store (cs_reserve (wanted - ic_key_charge c)) in
    change (fun c => with_charge (ic_key_charge c + more) c).

Definition ic_charge_buffer (len : Z) : IM unit :=
  let! c := get_cursor in
  if len <=? ic_key_capacity c then sret tt
  else
    let! _ := ic_charge_at_least len in
    let! _ := change (with_key [] (cs_capacity len)) in
    fun cs =>
      match ic_charge_at_least (cs_capacity len) cs with
      | (Ok a, cs) => (Ok a, cs)
      | (Err e, (c, s)) => (Err e, (with_key [] 0 c, s))
      end.

(** The reference an entry holds and the key a caller sees of it. *)
Definition entry_reference (unique : bool) (entry : EntryRef) : Result (PageRef * list byte) :=
  let raw := er_value entry in
  fail? negb (zlen raw =? PAGE_REF_LEN) with Error_corrupt in
  let? reference := PageRef_parse raw in
  let? source_key := if unique then Ok (er_key entry) else rmap fst (DuplicateKey_split (er_key entry)) in
  Ok (reference, source_key).

Definition advance_inner (ix : IndexInner) : IM bool :=
  let! _ := change (with_value None) in
  let! more := inner (advance (ix_tree ix)) in
  if negb more then
    let! _ := change clear_key in
    sret false
  else
    let! c := get_cursor in
    let! entry := lift (ok_or (cursor_current (ic_cursor c)) Error_corrupt) in
    let! '(reference, source_key) := lift (entry_reference (ic_unique c) entry) in
    let! _ := ic_charge_buffer (zlen source_key) in
    let! _ := change (fun c => with_key source_key (ic_key_capacity c) c) in
    let! pin := with_store (ts_page (pr_page reference)) in
    let! '(start, stop) := lift (PageRef_range reference (pin_len pin)) in
    let! guard := lift (into_guard pin start stop) in
    let! _ := change (with_value (Some guard)) in
    sret true.

(** [IndexCursor::advance] *)
Definition index_advance (ix : IndexInner) : IM bool := fun cs =>
  let saved := position (ic_cursor (fst cs)) in
  match advance_inner ix cs with
  | (Ok more, cs) => (Ok more, cs)
  | (Err e, (c, s)) => (Err e, (with_value None (clear_key (with_cursor (restore saved (ic_cursor c)) c)), s))
  end.

Definition take_value : IM (option ValueGuard) :=
  let! c := get_cursor in
  let! _ := change (with_value None) in
  sret (ic_value c).

(** [Index::get] *)
Definition index_get (ix : IndexInner) (key : list byte) : M (option ValueGuard) :=
  let! cursor := index_lookup ix key in
  fun s =>
    let '(r, (_, s)) := (let! more := index_advance ix in if more then take_value else sret None) (cursor, s) in (r, s).
End Ops.
