(* ===== verification/IndexFacts.v ===== *)
(** Secondary indexes: the keys of a composite tree and the rows of a cursor.

    The first part makes the keys of a non-unique index readable, so that the
    cursors of [Cursor.v] apply to its tree.  The second relates the range a tree
    is searched with to the range the caller asked for.  The third follows one
    step of the cursor and a whole scan. *)

From Stdlib Require Import ZArith Lia String.
From stdpp Require Import base list sorting gmap.
From coqutil Require Import Byte Word.LittleEndianList.
From S2P Require Import Prelude Errors Format PageRef Node Encoding Budget Catalog Page TreePage Btree Query Cursor Index.

#[local] Open Scope Z_scope.
#[local] Open Scope drydb_scope.

(** * Composite keys off a page *)

(** An encoding that calls nothing equal to a key but the key. *)
Class CompareExact (E : KeyEncoding) `{!LawfulEncoding E} : Prop :=
  compare_exact : forall a b, key_ok b -> ke_compare E a b = Ok Eq -> a = b.

#[export] Instance Ascii_exact : CompareExact AsciiEncoding.
Proof. intros a b _ [= H]. now apply (cmp_eq _ _ bytes_CmpOrder) in H. Qed.
#[export] Instance Ulid_exact : CompareExact UlidEncoding.
Proof. intros a b _ [= H]. now apply (cmp_eq _ _ bytes_CmpOrder) in H. Qed.

Lemma compare_exact_ok (E : KeyEncoding) `{HL : !LawfulEncoding E} a b :
  key_ok a -> key_ok b -> ke_compare E a b = Ok Eq -> a = b.
Proof. intros Ha Hb H. rewrite compare_ok in H by assumption. injection H as H. now apply (cmp_eq _ _ ord_order) in H. Qed.

#[export] Instance Int64_exact : CompareExact Int64Encoding.
Proof.
  intros a b Hb H. apply (compare_exact_ok Int64Encoding); auto. simpl in H. unfold Int64_compare, Int64_decode, need_len in H.
  inv_ok. simpl. bool_lia.
Qed.
#[export] Instance Uuidv7_exact : CompareExact Uuidv7Encoding.
Proof.
  intros a b Hb H. apply (compare_exact_ok Uuidv7Encoding); auto. simpl in H. unfold Uuidv7_compare, Uuidv7_fields, need_len in H.
  inv_ok. simpl. bool_lia.
Qed.

Lemma DuplicateKey_split_inv key s r :
  DuplicateKey_split key = Ok (s, r) -> key = DuplicateKey_encode s r /\ 0 <= r <= i32_max.
Proof.
  unfold DuplicateKey_split, DuplicateKey_encode, RID_LEN. intros H. inv_ok. bool_hyps.
  set (n := Z.to_nat (zlen key - 4)) in *. assert (zlen (drop n key) = 4) as Hd.
  { unfold zlen in *. rewrite length_drop. lia. }
  rewrite (i32_le_swrap _ Hd), take_drop. split; [reflexivity|]. pose proof (swrap_range 32 (le_combine (drop n key))). fmt_lia.
Qed.

#[export] Instance Duplicate_exact (source : KeyEncoding) `{HS : !LawfulEncoding source} `{!CompareExact source} :
  CompareExact (DuplicateKeyEncoding source).
Proof.
  intros a b (s & r & -> & Hs & Hr) H. simpl in H. unfold DuplicateKey_compare in H.
  rewrite DuplicateKey_split_encode in H by assumption. destruct (DuplicateKey_split a) as [[s' r']|] eqn:Ha; [|discriminate].
  apply DuplicateKey_split_inv in Ha as [-> Hr']. cbn in H. destruct (ke_compare source s' s) as [c|] eqn:Hc; [|discriminate].
  cbn in H. destruct c; try discriminate. injection H as H. apply Z.compare_eq in H. apply compare_exact in Hc; auto. now subst.
Qed.

Lemma exact_key_read (E : KeyEncoding) `{HL : !LawfulEncoding E} `{!CompareExact E} v keys j k :
  sorted_page E v keys -> keys !! j = Some k -> omitted_keys (view_layout v) = false -> entry_key v (Z.of_nat j) = Ok k.
Proof.
  intros Hp Hk Hom. pose proof (proj1 (Forall_lookup _ _) (sp_ok _ _ _ Hp) j k Hk) as Hok.
  pose proof (sp_compare _ _ _ Hp j k k Hk Hok) as Hc. rewrite (ord_refl E k Hok) in Hc.
  unfold compare_at, compare_leaf, compare_internal in Hc. rewrite Hom in Hc. unfold entry_key.
  destruct (view_kind v); [destruct (leaf_entry v _) as [e|e] | destruct (internal_entry v _) as [e|e]]; try discriminate; cbn [rbind] in *;
    [destruct (leaf_key v e) as [key|] | destruct (internal_key v e) as [key|]]; try discriminate; cbn [rbind] in Hc;
    apply compare_exact in Hc; auto; now subst.
Qed.

Lemma duplicate_not_omitted (source : KeyEncoding) `{HS : !LawfulEncoding source} v keys j k :
  sorted_page (DuplicateKeyEncoding source) v keys -> keys !! j = Some k -> omitted_keys (view_layout v) = true -> False.
Proof.
  intros Hp Hk Hom. pose proof (proj1 (Forall_lookup _ _) (sp_ok _ _ _ Hp) j k Hk) as Hok.
  pose proof Hok as (s & r & -> & Hs & Hr). set (r' := if r =? 0 then 1 else 0). assert (0 <= r' <= i32_max /\ r' <> r) as [Hr' Hne].
  { unfold r'. destruct (Z.eqb_spec r 0); fmt_lia. }
  assert (@key_ok _ (Duplicate_lawful source) (DuplicateKey_encode s r')) as Hok' by (exists s, r'; auto).
  pose proof (sp_compare _ _ _ Hp j _ _ Hk Hok) as H1. pose proof (sp_compare _ _ _ Hp j _ _ Hk Hok') as H2.
  rewrite (ord_refl (DuplicateKeyEncoding source)) in H1 by assumption.
  assert (@dig (DuplicateKeyEncoding source) _ (DuplicateKey_encode s r) = @dig (DuplicateKeyEncoding source) _ (DuplicateKey_encode s r')) as Hd.
  { change (dig (dup_source (DuplicateKey_encode s r)) = dig (dup_source (DuplicateKey_encode s r'))). now rewrite !dup_source_encode. }
  unfold compare_at, compare_leaf, compare_internal in H1, H2. rewrite Hom, Hd in H1. rewrite Hom in H2.
  assert (@ord (DuplicateKeyEncoding source) _ (DuplicateKey_encode s r) (DuplicateKey_encode s r') = Eq) as He by (destruct (view_kind v); congruence).
  apply (cmp_eq _ _ ord_order) in He; auto. apply (f_equal dup_rid) in He. rewrite !dup_rid_encode in He by assumption. auto.
Qed.

#[export] Instance Duplicate_readable (source : KeyEncoding) `{HS : !LawfulEncoding source} `{!CompareExact source} :
  KeysReadable (DuplicateKeyEncoding source).
Proof.
  split; intros v keys j k Hp _ Hk Hom; [exact (exact_key_read _ v keys j k Hp Hk Hom)|].
  destruct (duplicate_not_omitted source v keys j k Hp Hk Hom).
Qed.

(** * Ranges *)

Section Composite.
Context (source : KeyEncoding) {HS : LawfulEncoding source}.
Abbreviation D := (DuplicateKeyEncoding source).

Definition source_bound_ok (b : Bound) : Prop := forall k, bound_key b = Some k -> @key_ok source _ k.

Lemma dup_key_ok s r : key_ok s -> 0 <= r <= i32_max -> @key_ok D _ (DuplicateKey_encode s r).
Proof. intros Hs Hr. exists s, r. auto. Qed.

Lemma dup_ord s r s' r' : 0 <= r <= i32_max -> 0 <= r' <= i32_max ->
  @ord D _ (DuplicateKey_encode s r) (DuplicateKey_encode s' r') = cmp_then (ord s s') (r ?= r').
Proof.
  intros Hr Hr'. change (cmp_then (ord (dup_source (DuplicateKey_encode s r)) (dup_source (DuplicateKey_encode s' r')))
    (dup_rid (DuplicateKey_encode s r) ?= dup_rid (DuplicateKey_encode s' r')) = cmp_then (ord s s') (r ?= r')).
  now rewrite !dup_source_encode, !dup_rid_encode by assumption.
Qed.

Lemma composite_lower_ok lower upper upper' s r : 0 <= r <= i32_max ->
  lower_ok (@ord D _) (KeyRange_from_bounds (composite_lower lower) upper') (DuplicateKey_encode s r) =
  lower_ok ord (KeyRange_from_bounds lower upper) s.
Proof.
  intros Hr. unfold lower_ok. destruct lower as [|lo|lo]; cbn [composite_lower kr_lower KeyRange_from_bounds]; [reflexivity | |];
    rewrite dup_ord by fmt_lia; destruct (ord s lo); cbn; try reflexivity.
  - destruct (Z.compare_spec r 0); cbn; try reflexivity; lia.
  - destruct (Z.compare_spec r i32_max); cbn; try reflexivity; lia.
Qed.

Lemma composite_upper_ok upper lower lower' s r : 0 <= r <= i32_max ->
  upper_ok (@ord D _) (KeyRange_from_bounds lower' (composite_upper upper)) (DuplicateKey_encode s r) =
  upper_ok ord (KeyRange_from_bounds lower upper) s.
Proof.
  intros Hr. unfold upper_ok. destruct upper as [|hi|hi]; cbn [composite_upper kr_upper KeyRange_from_bounds]; [reflexivity | |];
    rewrite dup_ord by fmt_lia; destruct (ord s hi); cbn; try reflexivity.
  - destruct (Z.compare_spec r i32_max); cbn; try reflexivity; lia.
  - destruct (Z.compare_spec r 0); cbn; try reflexivity; lia.
Qed.
End Composite.

Section Ranges.
Context (ix : IndexInner) {HS : LawfulEncoding (ix_source_encoding ix)}.
Abbreviation S := (ix_source_encoding ix).
Abbreviation D := (DuplicateKeyEncoding S).

(** Bounds that meet without overlapping select nothing. *)
Lemma is_empty_range_ok lower upper :
  source_bound_ok S lower -> source_bound_ok S upper ->
  exists b, is_empty_range ix lower upper = Ok b /\
    (b = true -> forall k, key_ok k -> in_range ord (KeyRange_from_bounds lower upper) k = false) /\
    (b = false -> forall lo hi, bound_key lower = Some lo -> bound_key upper = Some hi -> ord lo hi = Eq ->
       lower = Included lo /\ upper = Included hi).
Proof.
  intros Hlo Hhi. unfold is_empty_range. destruct (bound_key lower) as [lo|] eqn:Hl, (bound_key upper) as [hi|] eqn:Hu; try (exists false; split_and!; congruence).
  specialize (Hlo lo Hl). specialize (Hhi hi Hu). rewrite compare_ok by assumption. cbn [rbind]. eexists. split; [reflexivity|]. split.
  - intros [Ho%bool_decide_eq_true Hex]%andb_prop k Hk. apply (cmp_eq _ _ ord_order) in Ho; auto. subst hi.
    unfold in_range, lower_ok, upper_ok. destruct lower, upper; try discriminate; injection Hl as ->; injection Hu as ->; cbn in *; try discriminate;
      now destruct (ord k lo).
  - intros Hb ? ? [= <-] [= <-] Ho. rewrite Ho, bool_decide_eq_true_2 in Hb by reflexivity.
    destruct lower, upper; cbn in *; try discriminate; split; congruence.
Qed.

Lemma tree_range_cases lower upper validate :
  source_bound_ok S lower -> source_bound_ok S upper -> is_unique ix = false ->
  (exists e, tree_range ix lower upper validate = Err e /\ validate = true /\ e = Error_invalid /\
     exists k, (bound_key lower = Some k \/ bound_key upper = Some k) /\ validate_key S k <> Ok tt) \/
  exists b, is_empty_range ix lower upper = Ok b /\
    tree_range ix lower upper validate = Ok (if b then KeyRange_empty else KeyRange_from_bounds (composite_lower lower) (composite_upper upper)).
Proof.
  intros Hlo Hhi Hu. destruct (is_empty_range_ok lower upper Hlo Hhi) as (b & Hb & _). unfold tree_range. rewrite Hu, Hb.
  assert (forall bd, validate_source ix bd = Ok tt \/ (validate_source ix bd = Err Error_invalid /\ exists k, bound_key bd = Some k /\ validate_key S k <> Ok tt)) as Hv.
  { intros bd. unfold validate_source. destruct (bound_key bd) as [k|]; [|auto]. destruct (validate_key S k) as [[]|e] eqn:Hk; [auto|].
    right. split; [unfold validate_key in Hk; repeat case_match; congruence | exists k; split; congruence]. }
  destruct validate; [|right; exists b; split; [reflexivity | now destruct b]].
  destruct (Hv lower) as [->|[-> (k & Hk & Hbad)]]; [|left; eexists; split; [reflexivity|]; split_and!; eauto]. cbn [rbind].
  destruct (Hv upper) as [->|[-> (k & Hk & Hbad)]]; [|left; eexists; split; [reflexivity|]; split_and!; eauto]. cbn [rbind].
  right. exists b. split; [reflexivity | now destruct b].
Qed.

(** The translated range: its bounds are composite keys, and it selects the
    composite keys of the sources the caller's range selects. *)
Lemma composite_range lower upper validate r :
  source_bound_ok S lower -> source_bound_ok S upper -> is_unique ix = false -> tree_range ix lower upper validate = Ok r ->
  (kr_empty r = false -> (forall k, bound_key (kr_lower r) = Some k \/ bound_key (kr_upper r) = Some k -> @key_ok D _ k)) /\
  (forall s rid, key_ok s -> 0 <= rid <= i32_max ->
     in_range (@ord D _) r (DuplicateKey_encode s rid) = in_range ord (KeyRange_from_bounds lower upper) s).
Proof.
  intros Hlo Hhi Hu Hr. destruct (is_empty_range_ok lower upper Hlo Hhi) as (b & Hb & Hnone & _).
  destruct (tree_range_cases lower upper validate Hlo Hhi Hu) as [(e & He & _)|(b' & Hb' & Ht)]; [congruence|].
  rewrite Ht in Hr. replace b' with b in * by congruence. destruct b; injection Hr as <-.
  - split; [discriminate|]. intros s rid Hs _. now rewrite (Hnone eq_refl s Hs).
  - split.
    + intros _ k [Hk|Hk]; [destruct lower | destruct upper]; cbn in Hk; try discriminate; injection Hk as <-; apply dup_key_ok; try fmt_lia; auto.
    + intros s rid Hs Hrid. unfold in_range. cbn [kr_empty KeyRange_from_bounds negb andb].
      now rewrite (composite_lower_ok S lower upper), (composite_upper_ok S upper lower).
Qed.

Lemma composite_order lower upper validate r lo hi :
  source_bound_ok S lower -> source_bound_ok S upper -> is_unique ix = false -> tree_range ix lower upper validate = Ok r ->
  kr_empty r = false -> bound_key lower = Some lo -> bound_key upper = Some hi ->
  exists lo' hi', bound_key (kr_lower r) = Some lo' /\ bound_key (kr_upper r) = Some hi' /\ (@ord D _ lo' hi' = Gt <-> ord lo hi = Gt).
Proof.
  intros Hlo Hhi Hu Hr Hne Hl Hh. destruct (is_empty_range_ok lower upper Hlo Hhi) as (b & Hb & _ & Hmeet).
  destruct (tree_range_cases lower upper validate Hlo Hhi Hu) as [(e & He & _)|(b' & Hb' & Ht)]; [congruence|].
  rewrite Ht in Hr. replace b' with b in * by congruence. destruct b; injection Hr as <-; [discriminate|]. specialize (Hmeet eq_refl lo hi Hl Hh).
  destruct lower as [|l|l], upper as [|u|u]; try discriminate; injection Hl as ->; injection Hh as ->;
    cbn [composite_lower composite_upper kr_lower kr_upper KeyRange_from_bounds bound_key]; (eexists _, _; split_and!; [reflexivity..|]);
    rewrite dup_ord by fmt_lia; destruct (ord lo hi); cbn; try tauto; destruct (Hmeet eq_refl); discriminate || (split; discriminate).
Qed.

(** Bounds a caller should not have asked for. *)
Definition bad_source_bounds (lower upper : Bound) : Prop :=
  (exists k, (bound_key lower = Some k \/ bound_key upper = Some k) /\ validate_key S k <> Ok tt) \/
  (exists lo hi, bound_key lower = Some lo /\ bound_key upper = Some hi /\ @ord S _ lo hi = Gt).

Lemma tree_range_validated lower upper r :
  tree_range ix lower upper true = Ok r -> validate_source ix lower = Ok tt /\ validate_source ix upper = Ok tt.
Proof. unfold tree_range. destruct (validate_source ix lower) as [[]|], (validate_source ix upper) as [[]|]; intros H; try discriminate; auto. Qed.

Lemma validate_composite k rid : validate_key S k = Ok tt -> validate_key D (DuplicateKey_encode k rid) = Ok tt.
Proof.
  unfold validate_key, DuplicateKey_encode. cbn. destruct (ke_fixed_key_len S) as [n|]; cbn; [|reflexivity]. autorewrite with zlen.
  destruct (Z.eqb_spec (zlen k) n); [|discriminate]. intros _. unfold RID_LEN. now rewrite (proj2 (Z.eqb_eq _ _)) by lia.
Qed.

Lemma composite_bad lower upper r :
  source_bound_ok S lower -> source_bound_ok S upper -> is_unique ix = false -> tree_range ix lower upper true = Ok r -> kr_empty r = false ->
  (exists k, (bound_key (kr_lower r) = Some k \/ bound_key (kr_upper r) = Some k) /\ validate_key D k <> Ok tt) \/
  (exists lo hi, bound_key (kr_lower r) = Some lo /\ bound_key (kr_upper r) = Some hi /\ @ord D _ lo hi = Gt) ->
  bad_source_bounds lower upper.
Proof.
  intros Hlo Hhi Hu Hr Hne Hbad. destruct (tree_range_validated lower upper r Hr) as [Hvl Hvu].
  destruct (tree_range_cases lower upper true Hlo Hhi Hu) as [(e & He & _)|(b & Hb & Ht)]; [congruence|]. rewrite Ht in Hr.
  destruct b; injection Hr as <-; [discriminate|]. destruct Hbad as [(k & Hk & Hv)|(lo & hi & Hl & Hh & Hgt)].
  - exfalso. apply Hv. unfold validate_source in Hvl, Hvu.
    destruct Hk as [Hk|Hk]; [destruct lower | destruct upper]; cbn in *; try discriminate; injection Hk as <-; now apply validate_composite.
  - right. destruct (bound_key lower) as [lo0|] eqn:H1; [|destruct lower; discriminate]. destruct (bound_key upper) as [hi0|] eqn:H2; [|destruct upper; discriminate].
    destruct (composite_order lower upper true _ lo0 hi0 Hlo Hhi Hu Ht eq_refl H1 H2) as (lo' & hi' & Hl' & Hh' & Hiff).
    exists lo0, hi0. split_and!; auto. apply Hiff. congruence.
Qed.

(** A range over a non-unique index reaches the tree as the range it means.
    For bounds that are keys of the index, the translated range selects a
    composite key exactly when the caller's range selects its source key, whatever
    the record id: an exclusive bound leaves out the whole run of record ids, an
    inclusive one takes all of it.  The translation fails only on a bound that is
    no key.  Where the result is not the empty range, its bounds are in the wrong
    order exactly when the caller's are, so the tree refuses what it would refuse
    of the caller and nothing else; bounds that merely meet select nothing. *)
Theorem composite_range_correct lower upper validate :
  source_bound_ok S lower -> source_bound_ok S upper -> is_unique ix = false ->
  match tree_range ix lower upper validate with
  | Ok r =>
      (forall s rid, key_ok s -> 0 <= rid <= i32_max ->
         in_range (@ord D _) r (DuplicateKey_encode s rid) = in_range ord (KeyRange_from_bounds lower upper) s) /\
      (kr_empty r = false -> forall lo hi, bound_key lower = Some lo -> bound_key upper = Some hi ->
         exists lo' hi', bound_key (kr_lower r) = Some lo' /\ bound_key (kr_upper r) = Some hi' /\
           (@ord D _ lo' hi' = Gt <-> ord lo hi = Gt))
  | Err e => e = Error_invalid /\ validate = true /\
      exists k, (bound_key lower = Some k \/ bound_key upper = Some k) /\ validate_key S k <> Ok tt
  end.
Proof.
  intros Hlo Hhi Hu. destruct (tree_range_cases lower upper validate Hlo Hhi Hu) as [(e & He & Hv & -> & Hk)|(b & Hb & Ht)]; [rewrite He; auto|].
  pose proof (composite_range lower upper validate _ Hlo Hhi Hu Ht) as [_ Hsel]. rewrite Ht. split; [exact Hsel|].
  intros Hne lo hi Hl Hh. exact (composite_order lower upper validate _ lo hi Hlo Hhi Hu Ht Hne Hl Hh).
Qed.
End Ranges.

(** * What a cursor over an index relies on

    The two kinds of index promise the same: how the key of the tree shows to the
    caller, and what a translated range selects. *)

Class IndexKeys (ix : IndexInner) `{HS : !LawfulEncoding (ix_source_encoding ix)}
    `{HL : !LawfulEncoding (tree_encoding (ix_tree ix))} : Type := {
  source_key : list byte -> list byte;
  ik_source : forall k, @key_ok (tree_encoding (ix_tree ix)) _ k -> (if is_unique ix then Ok k else rmap fst (DuplicateKey_split k)) = Ok (source_key k);
  ik_range : forall lower upper validate r,
    source_bound_ok (ix_source_encoding ix) lower -> source_bound_ok (ix_source_encoding ix) upper ->
    tree_range ix lower upper validate = Ok r ->
    (kr_empty r = false -> bound_ok (ix_tree ix) (kr_lower r) /\ bound_ok (ix_tree ix) (kr_upper r)) /\
    forall k, @key_ok (tree_encoding (ix_tree ix)) _ k ->
      in_range (@ord (tree_encoding (ix_tree ix)) _) r k = in_range (@ord (ix_source_encoding ix) _) (KeyRange_from_bounds lower upper) (source_key k);
  ik_bad : forall lower upper r,
    source_bound_ok (ix_source_encoding ix) lower -> source_bound_ok (ix_source_encoding ix) upper ->
    tree_range ix lower upper true = Ok r -> kr_empty r = false ->
    bad_bounds (ix_tree ix) (kr_lower r) (kr_upper r) -> bad_source_bounds ix lower upper;
}.

Definition unique_index (d : IndexDescriptor) (E : KeyEncoding) (id : Z) (validate : bool) : IndexInner :=
  mkIndexInner d (mkTree (id_root d) E id validate) E.
Definition composite_index (d : IndexDescriptor) (E : KeyEncoding) (id : Z) (validate : bool) : IndexInner :=
  mkIndexInner d (mkTree (id_root d) (DuplicateKeyEncoding E) id validate) E.

#[refine] Instance unique_keys d E id validate `{HS : !LawfulEncoding E} (Hu : id_is_unique d = true) :
  IndexKeys (unique_index d E id validate) := {| source_key := fun k => k |}.
Proof.
  - intros k _. unfold is_unique. cbn. now rewrite Hu.
  - intros lower upper v r Hlo Hhi Hr. unfold tree_range, is_unique in Hr. cbn [ix_descriptor unique_index] in Hr. rewrite Hu in Hr.
    destruct (if v then _ else _); [|discriminate]. injection Hr as <-. split; [auto | reflexivity].
  - intros lower upper r _ _ Hr _ Hb. unfold tree_range, is_unique in Hr. cbn [ix_descriptor unique_index] in Hr. rewrite Hu in Hr.
    destruct (rbind (validate_source _ lower) _); [|discriminate]. injection Hr as <-. exact Hb.
Defined.

#[refine] Instance composite_keys d E id validate `{HS : !LawfulEncoding E} (Hu : id_is_unique d = false) :
  IndexKeys (composite_index d E id validate) := {| source_key := dup_source |}.
Proof.
  - intros k (s & rid & -> & Hs & Hr). unfold is_unique. cbn [ix_descriptor composite_index]. rewrite Hu, DuplicateKey_split_encode by assumption.
    cbn [rmap fst]. now rewrite dup_source_encode.
  - intros lower upper v r Hlo Hhi Hr.
    destruct (composite_range (composite_index d E id validate) lower upper v r Hlo Hhi Hu Hr) as [Hb Hsel]. split.
    + intros He. split; intros k Hk; apply (Hb He); auto.
    + intros k (s & rid & -> & Hs & Hrid). rewrite dup_source_encode. exact (Hsel s rid Hs Hrid).
  - intros lower upper r Hlo Hhi Hr Hne Hb. exact (composite_bad (composite_index d E id validate) lower upper r Hlo Hhi Hu Hr Hne Hb).
Defined.

(** * Rows *)

Section Rows.
Context {Store : Type} {TS : TreeStore Store} {CS : CursorStore Store}.
Context {file : PageOrdinal -> option (list byte)} {page_count max_depth : Z}.
Context {SL : StoreLaws Store file page_count max_depth} {CL : CursorLaws Store SL}.
Context (ix : IndexInner) {HS : LawfulEncoding (ix_source_encoding ix)}.
Abbreviation t := (ix_tree ix).
Context {HL : LawfulEncoding (tree_encoding t)} {Hkeys : KeysReadable (tree_encoding t)} {IK : IndexKeys ix} (Hid : 1 <= tree_id t).
Abbreviation M A := (SM Store Error A).
Abbreviation IM A := (SM (IndexCursor * Store) Error A).
Abbreviation scan_error := (scan_error (SL := SL)).
Abbreviation holds_value := (holds_value (file := file)).

(** What every step of the cursor keeps. *)
Definition kept (c c' : IndexCursor) : Prop := frame (ic_cursor c) (ic_cursor c') /\ ic_unique c' = ic_unique c.

Lemma kept_refl c : kept c c.
Proof. split; [apply frame_refl | reflexivity]. Qed.
Lemma kept_trans c1 c2 c3 : kept c1 c2 -> kept c2 c3 -> kept c1 c3.
Proof. intros [H1 H2] [H3 H4]. split; [eapply frame_trans; eauto | congruence]. Qed.

(** The triples of [Cursor.v] over an index cursor. *)
Definition itriple {A} (c : IndexCursor) (m : IM A) (Q : A -> IndexCursor -> Prop) : Prop :=
  forall s, tree_inv t s ->
    tree_inv t (snd (snd (m (c, s)))) /\ kept c (fst (snd (m (c, s)))) /\
    match fst (m (c, s)) with Ok a => Q a (fst (snd (m (c, s)))) | Err e => scan_error e end.

Lemma itriple_ret {A} c (a : A) (Q : A -> IndexCursor -> Prop) : Q a c -> itriple c (sret a) Q.
Proof. intros HQ s Hs. split; [exact Hs|]. split; [apply kept_refl | exact HQ]. Qed.

Lemma itriple_bind {A B} c (m : IM A) (f : A -> IM B) P Q :
  itriple c m P -> (forall a c', kept c c' -> P a c' -> itriple c' (f a) Q) -> itriple c (sbind m f) Q.
Proof.
  intros Hm Hf s Hs. unfold sbind. destruct (Hm s Hs) as (Hs' & Hk & Ha).
  destruct (m (c, s)) as [[a|e] [c' s']]; simpl in *; [|auto].
  destruct (Hf a c' Hk Ha s' Hs') as (Hs2 & Hk2 & HQ). split; [exact Hs2|].
  split; [eapply kept_trans; eauto | exact HQ].
Qed.

Lemma itriple_get {B} c (f : IndexCursor -> IM B) Q : itriple c (f c) Q -> itriple c (sbind get_cursor f) Q.
Proof. intros H s Hs. exact (H s Hs). Qed.

Lemma itriple_change {B} c g (f : unit -> IM B) Q :
  kept c (g c) -> itriple (g c) (f tt) Q -> itriple c (sbind (change g) f) Q.
Proof.
  intros Hk H s Hs. unfold sbind, change. simpl. destruct (H s Hs) as (H1 & H2 & H3).
  split; [exact H1|]. split; [eapply kept_trans; eauto | exact H3].
Qed.

Lemma itriple_lift {A B} c (r : Result A) a (f : A -> IM B) Q :
  r = Ok a -> itriple c (f a) Q -> itriple c (sbind (lift r) f) Q.
Proof. intros -> H s Hs. exact (H s Hs). Qed.

Lemma itriple_store {A B} c (m : M A) (f : A -> IM B) P Q :
  triple t scan_error m P -> (forall a, P a -> itriple c (f a) Q) -> itriple c (sbind (with_store m) f) Q.
Proof.
  intros Hm Hf. apply (itriple_bind c (with_store m) f (fun a c' => c' = c /\ P a)).
  - intros s Hs. unfold with_store. simpl. destruct (Hm s Hs) as [Hs' Ha].
    destruct (m s) as [[a|e] s']; simpl in *; auto using kept_refl.
  - intros a c' _ [-> HP]. auto.
Qed.

Lemma itriple_weaken {A} c (m : IM A) (P Q : A -> IndexCursor -> Prop) :
  itriple c m P -> (forall a c', kept c c' -> P a c' -> Q a c') -> itriple c m Q.
Proof.
  intros Hm HPQ s Hs. destruct (Hm s Hs) as (Hs' & Hfr & H). split; [exact Hs'|]. split; [exact Hfr|].
  destruct (fst (m (c, s))); auto.
Qed.

(** Only the key buffer and its charge differ. *)
Definition same_row (c c' : IndexCursor) : Prop := ic_cursor c' = ic_cursor c /\ ic_value c' = ic_value c.

Lemma ic_charge_at_least_spec c n : itriple c (ic_charge_at_least n) (fun _ c' => same_row c c').
Proof.
  unfold ic_charge_at_least. apply itriple_get. destruct (_ <=? _); [apply itriple_ret; split; reflexivity|].
  eapply itriple_store; [apply (triple_reserve t Hid)|]. intros ? <-.
  intros s Hs. split; [exact Hs|]. split; [split; [apply frame_refl | reflexivity] | split; reflexivity].
Qed.

Lemma ic_charge_buffer_spec c n : itriple c (ic_charge_buffer n) (fun _ c' => same_row c c').
Proof.
  unfold ic_charge_buffer. apply itriple_get. destruct (_ <=? _); [apply itriple_ret; split; reflexivity|].
  eapply itriple_bind; [apply ic_charge_at_least_spec|]. intros ? c1 _ Hs1.
  apply itriple_change; [split; [apply frame_refl | reflexivity]|].
  intros s Hs. destruct (ic_charge_at_least_spec (with_key [] (cs_capacity n) c1) (cs_capacity n) s Hs) as (H1 & H2 & H3).
  destruct (ic_charge_at_least _ _) as [[[]|e] [c2 s2]]; simpl in *.
  - split; [exact H1|]. split; [exact H2|]. destruct Hs1, H3. split; simpl in *; congruence.
  - auto.
Qed.

(** ** Over a well-formed index *)

Context (h : nat) (root : PageOrdinal) (leaves : list LeafInfo).
Context (Hwf : well_formed (file := file) (page_count := page_count) (max_depth := max_depth) t h root leaves).
Context (Hset : settled leaves) (Hread : readable (file := file) leaves).

(** The record an entry of the index refers to. *)
Definition record_of (e : Entry) (value : list byte) : Prop :=
  exists raw overflow r bytes start stop, holds_value e raw overflow /\ zlen raw = PAGE_REF_LEN /\ PageRef_parse raw = Ok r /\
    file (pr_page r) = Some bytes /\ PageRef_range r (zlen bytes) = Ok (start, stop) /\ value = slice bytes start (stop - start).

Context (Hrefs : forall e, e ∈ entries leaves -> exists value, record_of e value).
Context (o : Order) (r : KeyRange) (Hlo : bound_ok t (kr_lower r)) (Hhi : bound_ok t (kr_upper r)) (Hne : kr_empty r = false).

(** The entries an index cursor has still to hand out. *)
Definition index_before (c : IndexCursor) (rest : list Entry) : Prop :=
  before (SL := SL) t leaves o r (ic_cursor c) rest /\ ic_unique c = is_unique ix /\ Forall (fun e => e ∈ entries leaves) rest.

Definition shows_row (c : IndexCursor) (e : Entry) : Prop :=
  ic_key c = source_key (en_key e) /\ exists g, ic_value c = Some g /\ record_of e (guard_bytes g).

Definition stepped (rest : list Entry) (more : bool) (c : IndexCursor) : Prop :=
  match rest with
  | [] => more = false /\ ic_key c = [] /\ ic_value c = None /\ index_before c []
  | e :: rest => more = true /\ shows_row c e /\ index_before c rest
  end.

Lemma holds_value_fun e v1 o1 v2 o2 : holds_value e v1 o1 -> holds_value e v2 o2 -> v1 = v2.
Proof.
  intros (le & Hle & H1) (le' & Hle' & H2). replace le' with le in * by congruence.
  destruct (le_value le); [intuition congruence|]. destruct H1 as (_ & b1 & Hb1 & ->), H2 as (_ & b2 & Hb2 & ->). congruence.
Qed.

Lemma inner_advance_spec c rest :
  before (SL := SL) t leaves o r (ic_cursor c) rest ->
  itriple c (inner (advance t)) (fun more c' => ic_value c' = ic_value c /\ advanced (SL := SL) t leaves o r rest more (ic_cursor c')).
Proof.
  intros Hb s Hs. unfold inner. cbn [fst snd].
  destruct (advance_spec t Hid h root leaves Hwf Hset o r Hlo Hhi Hne Hread (ic_cursor c) rest s Hb Hs) as (Hs' & Hfr & H).
  destruct (advance t (ic_cursor c, s)) as [[more|e] [c' s']]; cbn in *; (split; [exact Hs'|]); (split; [split; auto|]); tauto.
Qed.

Lemma PageRef_parse_bounds raw ref : PageRef_parse raw = Ok ref -> 0 <= pr_start ref /\ 0 <= pr_length ref.
Proof. unfold PageRef_parse. intros H. inv_ok. bool_hyps. cbn. lia. Qed.

Lemma entry_reference_ok unique e er value :
  unique = is_unique ix -> e ∈ entries leaves -> er_key er = en_key e -> holds_value e (er_value er) (er_overflow er) -> record_of e value ->
  exists ref bytes start stop, entry_reference unique er = Ok (ref, source_key (en_key e)) /\ file (pr_page ref) = Some bytes /\
    PageRef_range ref (zlen bytes) = Ok (start, stop) /\ value = slice bytes start (stop - start) /\ 0 <= pr_length ref.
Proof.
  intros -> He Hk Hv (raw & ov & ref & bytes & start & stop & Hraw & Hlen & Hp & Hf & Hr & ->).
  rewrite (holds_value_fun e _ _ _ _ Hraw Hv) in Hlen, Hp. exists ref, bytes, start, stop. split; [|split_and!; auto; now apply PageRef_parse_bounds in Hp].
  unfold entry_reference. rewrite Hlen, Hp, Hk. cbn [rbind negb Z.eqb].
  pose proof (entry_key_ok t h root leaves Hwf e He) as Hok. rewrite (ik_source (en_key e) Hok). reflexivity.
Qed.

Lemma range_guard ref pin start stop :
  PageRef_range ref (pin_len pin) = Ok (start, stop) -> 0 <= pr_length ref -> into_guard pin start stop = Ok (mkValueGuard pin start stop).
Proof.
  unfold PageRef_range, into_guard. intros Hr Hl. inv_ok. inv_reads. bool_hyps. subst.
  replace (_ <? pr_start ref) with false by (symmetry; apply Z.ltb_ge; lia). rewrite (proj2 (Z.ltb_ge _ _)) by lia. reflexivity.
Qed.

Lemma advance_inner_spec c rest : index_before c rest -> itriple c (advance_inner ix) (stepped rest).
Proof.
  intros (Hb & Hu & Hin). unfold advance_inner. apply itriple_change; [split; [apply frame_refl | reflexivity]|].
  eapply itriple_bind; [apply (inner_advance_spec (with_value None c) rest Hb)|]. intros more c1 [Hfr Hu1] [Hv1 Hadv]. cbn in Hfr, Hu1, Hv1.
  destruct rest as [|e rest]; cbn [advanced] in Hadv.
  - destruct Hadv as (-> & Hf & Hcur). cbn [negb]. apply itriple_change; [split; [apply frame_refl | reflexivity]|].
    apply itriple_ret. split; [reflexivity|]. split; [reflexivity|]. split; [exact Hv1|].
    split; [|split; [cbn; congruence | constructor]]. split; [eapply mine_frame; [apply Hb | exact Hfr] | left; auto].
  - destruct Hadv as (-> & (er & Hcur & Hk & Hpg & Hv) & Hb1). cbn [negb]. apply itriple_get.
    apply Forall_cons in Hin as [He Hin]. destruct (Hrefs e He) as [value Hval].
    destruct (entry_reference_ok (ic_unique c1) e er value) as (ref & bytes & start & stop & Href & Hf & Hr & Hvalue & Hlen); auto; [congruence|].
    eapply itriple_lift; [rewrite Hcur; reflexivity|]. eapply itriple_lift; [exact Href|]. cbv beta iota.
    eapply itriple_bind; [apply ic_charge_buffer_spec|]. intros ? c2 [_ Hu2] [Hc2 Hv2].
    apply itriple_change; [split; [apply frame_refl | reflexivity]|].
    eapply itriple_store; [apply (triple_scan t), (triple_page t Hid _ (pr_page ref)); intros s e' Hs He'; exists (pr_page ref), s, bytes; auto|].
    intros pin (Ho & Hfile & _). assert (pin_data pin = bytes) as Hd by congruence.
    assert (pin_len pin = zlen bytes) as Hpl by (unfold pin_len; congruence). rewrite <- Hpl in Hr.
    eapply itriple_lift; [exact Hr|]. cbv beta iota. eapply itriple_lift; [exact (range_guard ref pin start stop Hr Hlen)|].
    apply itriple_change; [split; [apply frame_refl | reflexivity]|]. apply itriple_ret. split; [reflexivity|]. split.
    + split; [reflexivity|]. eexists. split; [reflexivity|]. unfold guard_bytes. cbn. rewrite Hd, <- Hvalue. exact Hval.
    + split; [cbn; rewrite Hc2; exact Hb1|]. split; [cbn; congruence | exact Hin].
Qed.

(** One step of the cursor; after a failure the same rows are still to come. *)
Lemma index_advance_spec c rest s :
  index_before c rest -> tree_inv t s ->
  let run := index_advance ix (c, s) in
  tree_inv t (snd (snd run)) /\
  match fst run with
  | Ok more => stepped rest more (fst (snd run))
  | Err e => scan_error e /\ index_before (fst (snd run)) rest /\ ic_key (fst (snd run)) = [] /\ ic_value (fst (snd run)) = None
  end.
Proof.
  intros Hb Hs. pose proof (advance_inner_spec c rest Hb s Hs) as (H1 & [Hfr Hu] & H3). unfold index_advance. cbv zeta. cbn [fst].
  destruct (advance_inner ix (c, s)) as [[more|e] [c' s']]; cbn in *; [auto|]. split; [exact H1|]. split; [exact H3|].
  split; [|auto]. destruct Hb as (Hb & Hu0 & Hin). split; [|split; [cbn; congruence | exact Hin]].
  apply (before_pos t leaves o r (ic_cursor c)); [exact Hb | exact Hfr | reflexivity].
Qed.
End Rows.

(** [while cursor.advance()? { out.push((cursor.key(), cursor.take_value())) }] *)
Fixpoint index_drain {Store} `{!TreeStore Store} `{!CursorStore Store} (fuel : nat) (ix : IndexInner)
    : SM (IndexCursor * Store) Error (option (list (list byte * ValueGuard))) :=
  match fuel with
  | O => sret None
  | S fuel =>
      let! more := index_advance ix in
      if negb more then sret (Some [])
      else
        let! c := get_cursor in
        let! rest := index_drain fuel ix in
        sret (match ic_value c, rest with
              | Some g, Some rest => Some ((ic_key c, g) :: rest)
              | _, _ => None
              end)
  end.

(** A query from its bounds to the last row. *)
Definition index_rows {Store} `{!TreeStore Store} `{!CursorStore Store} (fuel : nat) (ix : IndexInner)
    (lower upper : Bound) (order : Order) : SM Store Error (option (list (list byte * ValueGuard))) :=
  let! c := index_range ix lower upper order in
  fun s => let '(out, (_, s)) := index_drain fuel ix (c, s) in (out, s).

Section Scans.
Context {Store : Type} {TS : TreeStore Store} {CS : CursorStore Store}.
Context {file : PageOrdinal -> option (list byte)} {page_count max_depth : Z}.
Context {SL : StoreLaws Store file page_count max_depth} {CL : CursorLaws Store SL}.
Context (ix : IndexInner) {HS : LawfulEncoding (ix_source_encoding ix)} {HC : CheckableEncoding (ix_source_encoding ix)}.
Abbreviation t := (ix_tree ix).
Context {HL : LawfulEncoding (tree_encoding t)} {Hkeys : KeysReadable (tree_encoding t)} {IK : IndexKeys ix} (Hid : 1 <= tree_id t).
Context (h : nat) (root : PageOrdinal) (leaves : list LeafInfo).
Context (Hwf : well_formed (file := file) (page_count := page_count) (max_depth := max_depth) t h root leaves).
Context (Hset : settled leaves) (Hread : readable (file := file) leaves).
Context (Hrefs : forall e, e ∈ entries leaves -> exists value, record_of (file := file) e value).
Abbreviation scan_error := (scan_error (SL := SL)).

Definition row_of (row : list byte * ValueGuard) (e : Entry) : Prop :=
  fst row = source_key (en_key e) /\ record_of (file := file) e (guard_bytes (snd row)).

Lemma index_drain_eq fuel cs :
  index_drain (S fuel) ix cs =
  match index_advance ix cs with
  | (Ok true, (c, s)) =>
      match index_drain fuel ix (c, s) with
      | (Ok rest, cs) => (Ok (match ic_value c, rest with
                              | Some g, Some rest => Some ((ic_key c, g) :: rest)
                              | _, _ => None
                              end), cs)
      | (Err e, cs) => (Err e, cs)
      end
  | (Ok false, cs) => (Ok (Some []), cs)
  | (Err e, cs) => (Err e, cs)
  end.
Proof. cbn [index_drain]. unfold sbind, get_cursor. destruct (index_advance ix cs) as [[[]|e] [c s]]; reflexivity. Qed.

Lemma index_drain_spec o r c rest s fuel :
  bound_ok t (kr_lower r) -> bound_ok t (kr_upper r) -> kr_empty r = false ->
  index_before (SL := SL) ix leaves o r c rest -> tree_inv t s -> (length rest < fuel)%nat ->
  let run := index_drain fuel ix (c, s) in
  tree_inv t (snd (snd run)) /\
  match fst run with
  | Ok out => exists rows, out = Some rows /\ Forall2 row_of rows rest
  | Err e => scan_error e
  end.
Proof.
  intros Hlo Hhi Hne. revert c rest s; induction fuel as [|fuel IH]; intros c rest s Hb Hs Hf; [lia|].
  cbv zeta. rewrite index_drain_eq.
  destruct (index_advance_spec ix Hid h root leaves Hwf Hset Hread Hrefs o r Hlo Hhi Hne c rest s Hb Hs) as (Hs' & H).
  destruct (index_advance ix (c, s)) as [[more|e] [c' s']]; simpl in *; [|split; [exact Hs' | apply H]].
  destruct rest as [|e rest].
  - destruct H as (-> & _ & _). simpl. split; [exact Hs'|]. exists []. split; [reflexivity | constructor].
  - destruct H as (-> & (Hk & g & Hg & Hrec) & Hb'). simpl in Hf. cbv iota.
    destruct (IH c' rest s' Hb' Hs' ltac:(lia)) as [Hs2 H2].
    destruct (index_drain fuel ix (c', s')) as [[out|e'] [c2 s2]]; simpl in *; [|auto].
    split; [exact Hs2|]. destruct H2 as (rows & -> & HF). rewrite Hg. exists ((ic_key c', g) :: rows).
    split; [reflexivity|]. constructor; [split; assumption | exact HF].
Qed.

Lemma index_drain_finished fuel c s :
  ps_finished (cu_pos (ic_cursor c)) = true ->
  fst (index_drain (S fuel) ix (c, s)) = Ok (Some []) /\ snd (snd (index_drain (S fuel) ix (c, s))) = s.
Proof.
  intros Hf. rewrite index_drain_eq. unfold index_advance, advance_inner, inner, advance, sbind, change, set_cursor, cursor. cbn.
  rewrite Hf. auto.
Qed.

Lemma selected_in o r e : e ∈ selected t leaves o r -> e ∈ entries leaves.
Proof.
  unfold selected, scan_order. intros He%list_elem_of_In. apply list_elem_of_In.
  destruct o; [|apply List.in_rev in He]; now apply List.filter_In in He as [He _].
Qed.

(** The entries a range of source keys selects, in the order of the scan. *)
Definition rows_selected (o : Order) (lower upper : Bound) : list Entry :=
  scan_order o (List.filter (fun e => in_range (@ord (ix_source_encoding ix) _) (KeyRange_from_bounds lower upper) (source_key (en_key e))) (entries leaves)).

Lemma rows_selected_eq o lower upper r :
  source_bound_ok (ix_source_encoding ix) lower -> source_bound_ok (ix_source_encoding ix) upper -> tree_range ix lower upper true = Ok r ->
  selected t leaves o r = rows_selected o lower upper.
Proof.
  intros Hlo Hhi Hr. destruct (ik_range lower upper true r Hlo Hhi Hr) as [_ Hsel]. unfold selected, rows_selected. f_equal.
  apply List.filter_ext_in. intros e He%list_elem_of_In. apply Hsel. exact (entry_key_ok t h root leaves Hwf e He).
Qed.

Lemma validate_source_ok b : validate_source ix b = Ok tt -> source_bound_ok (ix_source_encoding ix) b.
Proof. unfold validate_source, source_bound_ok. intros H k Hk. rewrite Hk in H. now apply validated_ok. Qed.

Lemma tree_range_refused lower upper e : tree_range ix lower upper true = Err e -> e = Error_invalid /\ bad_source_bounds ix lower upper.
Proof.
  assert (forall b e, validate_source ix b = Err e -> e = Error_invalid /\ exists k, bound_key b = Some k /\ validate_key (ix_source_encoding ix) k <> Ok tt) as Hv.
  { intros b e'. unfold validate_source. destruct (bound_key b) as [k|]; [|discriminate]. intros H.
    split; [unfold validate_key in H; repeat case_match; congruence | exists k; split; congruence]. }
  unfold tree_range. destruct (validate_source ix lower) as [[]|] eqn:Hl, (validate_source ix upper) as [[]|] eqn:Hu; cbn; intros He;
    try (injection He as <-); try (apply Hv in Hl as (-> & k & Hk & Hb); split; [reflexivity|]; left; now exists k; auto);
    try (apply Hv in Hu as (-> & k & Hk & Hb); split; [reflexivity|]; left; now exists k; auto).
  destruct (is_unique ix); [discriminate|]. apply validate_source_ok in Hl, Hu.
  destruct (is_empty_range_ok ix lower upper Hl Hu) as (b & Hb & _). rewrite Hb in He. destruct b; discriminate.
Qed.

Abbreviation index_error lower upper := (fun e => scan_error e \/ (e = Error_invalid /\ bad_source_bounds ix lower upper)).

Lemma index_range_spec lower upper o :
  triple t (index_error lower upper) (index_range ix lower upper o) (fun c => exists r,
    source_bound_ok (ix_source_encoding ix) lower /\ source_bound_ok (ix_source_encoding ix) upper /\ tree_range ix lower upper true = Ok r /\
    if kr_empty r then ps_finished (cu_pos (ic_cursor c)) = true
    else bound_ok t (kr_lower r) /\ bound_ok t (kr_upper r) /\ index_before (SL := SL) ix leaves o r c (selected t leaves o r)).
Proof.
  unfold index_range, index_cursor.
  eapply triple_bind; [eapply triple_error; [apply (triple_reserve t Hid) | intros e He; left; exact He]|]. intros charge _.
  apply (triple_bind _ _ _ _ (fun r => tree_range ix lower upper true = Ok r)).
  { apply triple_lift; [auto|]. intros e He. right. exact (tree_range_refused lower upper e He). }
  intros r Hr. destruct (tree_range_validated ix lower upper r Hr) as [Hlo%validate_source_ok Hhi%validate_source_ok].
  destruct (ik_range lower upper true r Hlo Hhi Hr) as [Hb _]. destruct (kr_empty r) eqn:He.
  - apply (triple_bind _ _ _ _ (fun c => ps_finished (cu_pos c) = true)).
    + unfold Cursor_new, cursor_build. rewrite He. eapply triple_bind; [eapply triple_error; [apply (triple_try_reserve t Hid) | intros e H; left; exact H]|].
      intros ? _. now apply triple_ret.
    + intros c Hc. eapply triple_bind; [eapply triple_error; [apply (triple_try_reserve t Hid) | intros e H; left; exact H]|].
      intros ? _. apply triple_ret. exists r. now rewrite He.
  - destruct (Hb eq_refl) as [Hbl Hbu].
    eapply triple_bind; [eapply triple_error; [apply (cursor_build_spec t Hid leaves charge o r true Hbl Hbu)|]|].
    + intros e [H|[-> H]]; [now left|]. right. split; [reflexivity|]. exact (ik_bad lower upper r Hlo Hhi Hr He H).
    + intros c Hc. rewrite He in Hc. eapply triple_bind; [eapply triple_error; [apply (triple_try_reserve t Hid) | intros e H; left; exact H]|].
      intros ? _. apply triple_ret. exists r. rewrite He. split_and!; auto. split; [exact Hc|]. split; [reflexivity|].
      apply Forall_forall. intros e. apply selected_in.
Qed.

Lemma index_rows_spec fuel lower upper o :
  (length (rows_selected o lower upper) < fuel)%nat ->
  triple t (index_error lower upper) (index_rows fuel ix lower upper o)
    (fun out => exists rows, out = Some rows /\ Forall2 row_of rows (rows_selected o lower upper)).
Proof.
  intros Hfuel. eapply triple_bind; [apply index_range_spec|]. intros c (r & Hlo & Hhi & Hr & Hc) s Hs.
  rewrite <- (rows_selected_eq o lower upper r Hlo Hhi Hr) in *. destruct (kr_empty r) eqn:He.
  - destruct fuel as [|fuel]; [lia|]. destruct (index_drain_finished fuel c s Hc) as [H1 H2].
    destruct (index_drain (S fuel) ix (c, s)) as [out [c' s']]; simpl in *; subst. split; [exact Hs|].
    exists []. rewrite (selected_empty t leaves o r He). split; [reflexivity | constructor].
  - destruct Hc as (Hbl & Hbu & Hb). destruct (index_drain_spec o r c _ s fuel Hbl Hbu He Hb Hs Hfuel) as [Hs' H].
    destruct (index_drain fuel ix (c, s)) as [[out|e] [c' s']]; simpl in *; auto.
Qed.

(** C14: a range query over an index hands out the records it should.  Take a
    well-formed index tree of a lawful encoding, unique or not, with settled leaves, none of them empty unless
    it is the only one, whose values can be read and are references that resolve.  The
    cursor hands out one row for every entry whose key, as the caller sees it, lies
    between the caller's bounds, each once, in the order asked for: the key without its
    record id, and the bytes the reference designates on the page it names.  It stops
    early only when a page cannot be read or memory is refused, or with
    [InvalidArgument] on bounds that are no keys or in the wrong order; over a store that
    does neither it completes on all other bounds.  (As for [scan_correct], an empty leaf
    at the edge would hide entries from a descending query.) *)
Theorem index_range_correct fuel lower upper o s :
  (length (rows_selected o lower upper) < fuel)%nat -> tree_inv t s ->
  let run := index_rows fuel ix lower upper o s in
  tree_inv t (snd run) /\
  match fst run with
  | Ok out => exists rows, out = Some rows /\ Forall2 row_of rows (rows_selected o lower upper)
  | Err e => scan_error e \/ (e = Error_invalid /\ bad_source_bounds ix lower upper)
  end /\
  ((forall e, ~ scan_error e) -> ~ bad_source_bounds ix lower upper -> is_ok (fst run) = true).
Proof.
  intros Hfuel Hs run. destruct (index_rows_spec fuel lower upper o Hfuel s Hs) as [Hinv H]. fold run in Hinv, H.
  split; [exact Hinv|]. split; [exact H|]. intros Hok Hgood.
  destruct (fst run) as [out|e]; [reflexivity|]. destruct H as [He|[_ Hb]]; [now apply Hok in He | contradiction].
Qed.

(** Counting agrees with scanning. *)
Theorem index_count_correct lower upper s :
  tree_inv t s ->
  let run := index_count_range ix lower upper s in
  tree_inv t (snd run) /\
  match fst run with
  | Ok n => n = zlen (rows_selected Ascending lower upper)
  | Err e => scan_error e \/ (e = Error_invalid /\ bad_source_bounds ix lower upper)
  end.
Proof.
  intros Hs. cbv zeta. enough (triple t (index_error lower upper) (index_count_range ix lower upper) (eq (zlen (rows_selected Ascending lower upper)))) as H.
  { destruct (H s Hs) as [H1 H2]. split; [exact H1|]. destruct (fst _); [now symmetry | exact H2]. }
  unfold index_count_range. eapply triple_bind; [eapply triple_error; [apply (triple_reserve t Hid) | intros e He; left; exact He]|]. intros _ _.
  apply (triple_bind _ _ _ _ (fun r => tree_range ix lower upper true = Ok r)).
  { apply triple_lift; [auto|]. intros e He. right. exact (tree_range_refused lower upper e He). }
  intros r Hr. destruct (tree_range_validated ix lower upper r Hr) as [Hlo%validate_source_ok Hhi%validate_source_ok].
  rewrite <- (rows_selected_eq Ascending lower upper r Hlo Hhi Hr). destruct (ik_range lower upper true r Hlo Hhi Hr) as [Hb _].
  destruct (kr_empty r) eqn:He; [apply triple_ret; now rewrite (selected_empty t leaves _ r He)|]. destruct (Hb eq_refl) as [Hbl Hbu].
  eapply triple_weaken; [eapply triple_error; [apply (count_known_spec t Hid h root leaves Hwf _ _ Hset Hbl Hbu)|]|].
  - intros e [H|[-> H]]; [left; now left|]. right. split; [reflexivity|]. exact (ik_bad lower upper r Hlo Hhi Hr He H).
  - intros n <-. rewrite (filter_keys leaves). destruct r as [l u em]. cbn in He. now subst em.
Qed.

(** A lookup returns the first record under the key. *)
Theorem index_get_correct key s :
  tree_inv t s ->
  let run := index_get ix key s in
  tree_inv t (snd run) /\
  match fst run with
  | Ok value =>
      match rows_selected Ascending (Included key) (Included key) with
      | [] => value = None
      | e :: _ => exists g, value = Some g /\ record_of (file := file) e (guard_bytes g)
      end
  | Err e => scan_error e \/ (e = Error_invalid /\ validate_key (ix_source_encoding ix) key <> Ok tt)
  end.
Proof.
  intros Hs. cbv zeta. set (rows := rows_selected Ascending (Included key) (Included key)).
  enough (triple t (fun e => scan_error e \/ (e = Error_invalid /\ validate_key (ix_source_encoding ix) key <> Ok tt)) (index_get ix key)
    (fun value => match rows with [] => value = None | e :: _ => exists g, value = Some g /\ record_of (file := file) e (guard_bytes g) end)) as H by exact (H s Hs).
  clear s Hs. unfold index_get, index_lookup. eapply triple_bind; [eapply (triple_bind _ _ _ _ (fun _ => validate_key (ix_source_encoding ix) key = Ok tt))|].
  - apply triple_lift; [now intros [] |]. intros e He. right. split; [unfold validate_key in He; repeat case_match; congruence | congruence].
  - intros _ Hv. eapply triple_error; [apply index_range_spec|]. intros e [He|[-> Hb]]; [now left|]. exfalso.
    destruct Hb as [(k & [[= <-]|[= <-]] & Hk)|(lo & hi & [= <-] & [= <-] & Hgt)]; [contradiction..|].
    rewrite (ord_refl (ix_source_encoding ix) key (validated_ok key Hv)) in Hgt. discriminate.
  - intros c (r & Hlo & Hhi & Hr & Hc) s Hs. unfold rows. rewrite <- (rows_selected_eq Ascending _ _ r Hlo Hhi Hr).
    unfold sbind. destruct (kr_empty r) eqn:He.
    + rewrite (selected_empty t leaves _ r He). unfold index_advance, advance_inner, inner, advance, sbind, change, set_cursor, cursor. cbn. rewrite Hc. cbn. auto.
    + destruct Hc as (Hbl & Hbu & Hb). revert Hb. generalize (selected t leaves Ascending r). intros sel Hb.
      destruct (index_advance_spec ix Hid h root leaves Hwf Hset Hread Hrefs Ascending r Hbl Hbu He c _ s Hb Hs) as (Hs' & H).
      destruct (index_advance ix (c, s)) as [[more|e] [c' s']]; cbn in *; [|split; [exact Hs' | left; apply H]].
      destruct sel as [|e rest].
      * destruct H as (-> & _). cbn. auto.
      * destruct H as (-> & (_ & g & Hg & Hrec) & _). cbn. split; [exact Hs'|]. rewrite Hg. eauto.
Qed.
End Scans.

(** * A non-unique index of one entry *)

Definition demo_key : list byte := DuplicateKey_encode [Byte.x6b] 0.
(** The record page, and the leaf of the index: its entry refers to bytes 44 to
    45 of the record page, where the key of that page's entry is. *)
Definition demo_index_leaf : list byte :=
  i32_le 65 ++ i32_le 0 ++ i32_le 1 ++ i64_le (-1) ++ i64_le (-1)
  ++ u64_le (ascii_digest [Byte.x6b]) ++ i32_le 44 ++ u16_le 5 ++ u16_le 16 ++ demo_key ++ PageRef_encode (mkPageRef 0 44 1).
Definition demo_index_pages : list (list byte) := [tiny_leaf Byte.x62 (-1) (-1); demo_index_leaf].
Definition demo_index_view : PageView :=
  mkPageView demo_index_leaf (mkNodeHeader Leaf (mkNodeLayout false false false) 1 None None) 36 44.
Definition demo_index_leaves : list LeafInfo := [mkLeafInfo 1 demo_index_view [demo_key]].
Definition demo_descriptor : IndexDescriptor := mkIndexDescriptor [Byte.x69] false [] VPageRef (Some 1) 0.
Definition demo_index : IndexInner := composite_index demo_descriptor AsciiEncoding 2 true.
Definition demo_index_state : Image demo_index_pages 64 := mkImage ∅.

Lemma demo_index_parse : PageView_parse demo_index_leaf = Ok demo_index_view.
Proof. vm_compute. reflexivity. Qed.

Lemma demo_index_sorted : sorted_page (DuplicateKeyEncoding AsciiEncoding) demo_index_view [demo_key].
Proof.
  assert (@key_ok (DuplicateKeyEncoding AsciiEncoding) _ demo_key) as Hok by (apply dup_key_ok; [exact I | vm_compute; intuition discriminate]).
  split; [apply (PageView_parse_wf demo_index_leaf), demo_index_parse | reflexivity | now constructor | | repeat constructor |].
  - intros [|i] k q Hk Hq; [|discriminate]. injection Hk as <-. rewrite <- (compare_ok demo_key q Hok Hq). reflexivity.
  - exists 0%nat. vm_compute. reflexivity.
Qed.

Lemma demo_index_wf :
  well_formed (file := image_file demo_index_pages) (page_count := 2) (max_depth := 64) (ix_tree demo_index) 0 1 demo_index_leaves.
Proof.
  split; [reflexivity | | reflexivity | | |].
  - exists demo_index_view, [demo_key]. split; [|split; reflexivity]. split; [exists demo_index_leaf; split; [reflexivity | apply demo_index_parse]|].
    split; [vm_compute; reflexivity | exact demo_index_sorted].
  - repeat split.
  - repeat constructor.
  - vm_compute; intuition discriminate.
Qed.

Lemma demo_index_inv : tree_inv (ix_tree demo_index) demo_index_state.
Proof. split; [exact I | | discriminate]. intros b v Hb. cbn in Hb. rewrite lookup_empty in Hb. discriminate. Qed.

Lemma demo_index_readable : readable (file := image_file demo_index_pages) demo_index_leaves.
Proof.
  intros l [->|Hl]%elem_of_cons; [|inversion Hl]. split; [vm_compute; reflexivity|]. intros j e b Hj He Hv. exfalso.
  revert Hv. cbn [lp_view] in He. eapply (single_entry_readable demo_index_leaf); eauto; try (vm_compute; reflexivity); discriminate.
Qed.

Lemma demo_index_refs e : e ∈ entries demo_index_leaves -> exists value, record_of (file := image_file demo_index_pages) e value.
Proof.
  intros [->|H]%elem_of_cons; [|inversion H]. exists [Byte.x62], (PageRef_encode (mkPageRef 0 44 1)), false, (mkPageRef 0 44 1), (tiny_leaf Byte.x62 (-1) (-1)), 44, 45.
  split_and!; try (vm_compute; reflexivity). eexists. split; [vm_compute; reflexivity|]. vm_compute. auto.
Qed.

(** The range reads back the record, key without its record id. *)
Example demo_index_row :
  (rmap (option_map (map (fun row : list byte * ValueGuard => (fst row, guard_bytes (snd row)))))
     (fst (index_rows 2 demo_index (Included [Byte.x6b]) (Excluded [Byte.x6c]) Ascending demo_index_state)))
  = Ok (Some [([Byte.x6b], [Byte.x62])]).
Proof. vm_compute. reflexivity. Qed.

Definition demo_index_keys : IndexKeys demo_index := composite_keys demo_descriptor AsciiEncoding 2 true eq_refl.

Lemma index_range_correct_witness :
  exists rows, fst (index_rows 2 demo_index (Included [Byte.x6b]) (Excluded [Byte.x6c]) Ascending demo_index_state) = Ok (Some rows) /\
    fst <$> rows = [[Byte.x6b]].
Proof.
  destruct (index_range_correct (IK := demo_index_keys) demo_index ltac:(discriminate) 0 1 demo_index_leaves
    demo_index_wf ltac:(intros l [->|Hl]%elem_of_cons Hk; [discriminate Hk | inversion Hl]) demo_index_readable demo_index_refs
    2 (Included [Byte.x6b]) (Excluded [Byte.x6c]) Ascending demo_index_state ltac:(vm_compute; lia) demo_index_inv) as (_ & H & Hok).
  assert (~ bad_source_bounds demo_index (Included [Byte.x6b]) (Excluded [Byte.x6c])) as Hgood.
  { intros [(k & [[= <-]|[= <-]] & Hv)|(lo & hi & [= <-] & [= <-] & Hc)]; [now apply Hv | now apply Hv | vm_compute in Hc; discriminate]. }
  specialize (Hok (image_reads_all _ _) Hgood).
  destruct (fst (index_rows _ _ _ _ _ _)) as [out|e]; [|discriminate]. destruct H as (rows & -> & HF). exists rows. split; [reflexivity|].
  apply Forall2_cons_inv_r in HF as ([k g] & rest & [Hk _] & HF & ->). apply Forall2_nil_inv_r in HF as ->.
  cbn. cbn in Hk. now rewrite Hk.
Defined.

Lemma composite_range_correct_witness :
  exists r, tree_range demo_index (Excluded [Byte.x6b]) Unbounded true = Ok r /\
    in_range (@ord (DuplicateKeyEncoding AsciiEncoding) _) r (DuplicateKey_encode [Byte.x6b] 7) = false.
Proof.
  pose proof (composite_range_correct demo_index (Excluded [Byte.x6b]) Unbounded true (fun _ _ => I) (fun _ _ => I) eq_refl) as H.
  destruct (tree_range demo_index (Excluded [Byte.x6b]) Unbounded true) as [r|e]; [|destruct H as (_ & _ & k & [[= <-]|[=]] & Hv); now destruct Hv].
  exists r. split; [reflexivity|]. etransitivity; [exact (proj1 H [Byte.x6b] 7 I ltac:(vm_compute; intuition discriminate)) | reflexivity].
Defined.
