(* ===== verification/Trees.v ===== *)
(** Several trees on one store.

    A database has many trees over the same pages; each one's invariant speaks of
    the markers and the retained roots all of them share.  [keeps] says that a
    computation preserves a predicate of its state.  Every operation of a tree
    keeps the invariants of all trees with ids of their own ([trees_inv]),
    whatever the file holds: the proofs follow the syntax. *)

From Stdlib Require Import ZArith Lia.
From stdpp Require Import base list gmap.
From coqutil Require Import Byte.
From S2P Require Import Prelude Errors Format PageRef Node Encoding Budget Page TreePage Btree Query Cursor Index.

#[local] Open Scope Z_scope.
#[local] Open Scope drydb_scope.

Create HintDb keeps.

Definition keeps {S E A} (P : S -> Prop) (m : SM S E A) : Prop := forall s, P s -> P (snd (m s)).

Section Rules.
Context {S E : Type} (P : S -> Prop).

Lemma keeps_ret {A} (a : A) : keeps P (sret (E := E) a).
Proof. now intros s. Qed.
Lemma keeps_fail {A} e : keeps P (sfail (E := E) (A := A) e).
Proof. now intros s. Qed.
Lemma keeps_get : keeps P (sget (E := E)).
Proof. now intros s. Qed.
Lemma keeps_lifted {A} (r : result E A) : keeps P (lift r).
Proof. now intros s. Qed.
Lemma keeps_bind {A B} (m : SM S E A) (f : A -> SM S E B) : keeps P m -> (forall a, keeps P (f a)) -> keeps P (sbind m f).
Proof. intros Hm Hf s Hs. unfold sbind. specialize (Hm s Hs). destruct (m s) as [[a|e] s']; [now apply Hf | exact Hm]. Qed.
End Rules.

#[export] Hint Resolve keeps_ret keeps_fail keeps_get keeps_lifted : keeps.

Ltac keeps_run :=
  repeat first
    [ progress auto with keeps
    | apply keeps_bind; [|intros ?]
    | lazymatch goal with
      | |- keeps _ (match ?x with _ => _ end) => destruct x
      | |- keeps _ (let '_ := ?x in _) => destruct x
      end ].

Section Trees.
Context {Store : Type} {TS : TreeStore Store} {CS : CursorStore Store}.
Context {file : PageOrdinal -> option (list byte)} {page_count max_depth : Z}.
Context {SL : StoreLaws Store file page_count max_depth} {CL : CursorLaws Store SL}.

(** The trees of a database: with ids, and each with its own. *)
Context (trees : list Tree) (Hids : Forall (fun t => 1 <= tree_id t) trees) (Hdistinct : NoDup (map tree_id trees)).

Definition trees_inv (s : Store) : Prop := store_ok s /\ forall t, t ∈ trees -> tree_inv t s.

Lemma tree_has_id t : t ∈ trees -> 1 <= tree_id t.
Proof. intros Hin. exact (proj1 (Forall_forall _ _) Hids t Hin). Qed.

Lemma same_id t u : t ∈ trees -> u ∈ trees -> tree_id t = tree_id u -> t = u.
Proof.
  intros [i Hi]%list_elem_of_lookup [j Hj]%list_elem_of_lookup Heq. assert (i = j) as ->; [|congruence].
  apply (NoDup_lookup (map tree_id trees) i j (tree_id t) Hdistinct); rewrite list_lookup_fmap; [now rewrite Hi | now rewrite Hj, Heq].
Qed.

Lemma trees_inv_evolves s s' : trees_inv s -> store_ok s' -> evolves s s' -> trees_inv s'.
Proof.
  intros [Hs Ht] Hok Hev. split; [exact Hok|]. intros t Hin. exact (tree_inv_evolves t (tree_has_id t Hin) s s' (Ht t Hin) Hok Hev).
Qed.

Abbreviation skeeps := (keeps trees_inv).

Lemma keeps_page o : skeeps (ts_page o).
Proof. intros s Hs. destruct (sl_page o s (proj1 Hs)) as (Hok & Hev & _). exact (trees_inv_evolves _ _ Hs Hok Hev). Qed.
Lemma keeps_reserve n : skeeps (cs_reserve n).
Proof. intros s Hs. destruct (cl_reserve n s (proj1 Hs)) as (Hok & Hev & _). exact (trees_inv_evolves _ _ Hs Hok Hev). Qed.
Lemma keeps_try_reserve n : skeeps (cs_try_reserve n).
Proof. intros s Hs. destruct (cl_try_reserve n s (proj1 Hs)) as (Hok & Hev & _). exact (trees_inv_evolves _ _ Hs Hok Hev). Qed.

(** Marking a page for one tree says nothing to the others. *)
Lemma trees_inv_mark t pin s : t ∈ trees ->
  trees_inv s -> tree_inv t (ts_set_markers (mark_digests_checked (ts_markers s) pin (tree_id t)) s) ->
  trees_inv (ts_set_markers (mark_digests_checked (ts_markers s) pin (tree_id t)) s).
Proof.
  intros Hin [Hok Ht] Hmine.
  destruct (sl_set_markers (mark_digests_checked (ts_markers s) pin (tree_id t)) s Hok) as (Hok' & Hm & Hr).
  split; [exact Hok'|]. intros u Hu. destruct (decide (tree_id u = tree_id t)) as [He|Hne].
  { now rewrite (same_id u t Hu Hin He). }
  destruct (Ht u Hu) as [_ Hmarks Hroot]. split; [exact Hok' | | intros p; rewrite Hr; apply Hroot].
  rewrite Hm. unfold mark_digests_checked. intros b v Hb. destruct (decide (b = pin_buffer pin)) as [->|Hb'].
  - rewrite lookup_insert_eq in Hb. cbn in Hb. congruence.
  - rewrite lookup_insert_ne in Hb by congruence. now apply Hmarks.
Qed.

Lemma trees_inv_retain t o pin s : t ∈ trees -> is_page o pin ->
  trees_inv s -> tree_inv t (ts_retain_root (tree_id t) pin s) -> trees_inv (ts_retain_root (tree_id t) pin s).
Proof.
  intros Hin Hp [Hok Ht] Hmine. destruct (sl_retain (tree_id t) o pin s Hok Hp) as (Hok' & Hm & Hr).
  split; [exact Hok'|]. intros u Hu. destruct (decide (tree_id u = tree_id t)) as [He|Hne].
  { now rewrite (same_id u t Hu Hin He). }
  destruct (Ht u Hu) as [_ Hmarks Hroot]. split; [exact Hok' | now rewrite Hm|].
  intros p Hp'. destruct (Hr _ p Hp') as [[Hx _]|Hx]; [congruence | now apply Hroot].
Qed.

Section OneTree.
Context (t : Tree) (Hin : t ∈ trees).
Abbreviation E := (tree_encoding t).

Lemma keeps_check_page o pin : is_page o pin -> skeeps (check_page t pin).
Proof.
  intros Hp s Hs.
  destruct (triple_check_page t (fun _ => True) o pin Hp (fun _ _ => I) (fun _ _ _ _ _ => I) s (proj2 Hs t Hin)) as [Hinv _].
  revert Hinv. unfold check_page, sbind, sget, smodify, lift. destruct (_ || _); [now intros _|].
  destruct (pin_view pin) as [v|e]; [|now intros _]. destruct (map_err _ _) as [u|e]; [|now intros _]. now apply trees_inv_mark.
Qed.

Lemma keeps_tree_page o : skeeps (tree_page t o).
Proof.
  intros s Hs. unfold tree_page, sbind. pose proof (keeps_page o s Hs) as H1. destruct (sl_page o s (proj1 Hs)) as (_ & _ & Hp).
  destruct (ts_page o s) as [[pin|e] s1]; cbn [fst snd] in *; [|exact H1]. pose proof (keeps_check_page o pin (Hp pin eq_refl) s1 H1) as H2.
  destruct (check_page t pin s1) as [[u|e] s2]; exact H2.
Qed.
#[local] Hint Resolve keeps_page keeps_reserve keeps_try_reserve keeps_tree_page : keeps.

Lemma keeps_root_page : skeeps (root_page t).
Proof.
  intros s Hs. unfold root_page. destruct (tree_root t) as [root|] eqn:Hroot; [|exact Hs]. unfold sbind at 1, sget at 1.
  destruct (ts_retained_root (tree_id t) s) as [pin|]; [exact Hs|]. unfold sbind at 1. pose proof (keeps_tree_page root s Hs) as H1.
  destruct (triple_tree_page t (tree_has_id t Hin) (fun _ => True) root (fun _ _ _ _ => I) (fun _ _ _ _ => I) (fun _ _ _ _ _ _ _ => I)
    s (proj2 Hs t Hin)) as [Hinv Hp].
  destruct (tree_page t root s) as [[pin|e] s1]; cbn [fst snd] in *; [|exact H1]. unfold sbind, sget, smodify. cbn.
  destruct (ts_has_headroom_for (pin_len pin) s1); cbn; [|exact H1]. destruct Hp as [Hp Hpass].
  apply (trees_inv_retain t root); [exact Hin | exact Hp | exact H1|].
  destruct (sl_retain (tree_id t) root pin s1 (proj1 H1) Hp) as (Hok & Hm & Hr). destruct Hinv as [_ Hmarks Hroots].
  split; [exact Hok | now rewrite Hm|]. intros p Hp'. destruct (Hr _ p Hp') as [[_ ->]|Hx]; [eauto | now apply Hroots].
Qed.
#[local] Hint Resolve keeps_root_page : keeps.

(** ** Searches *)

Lemma keeps_take_or_load cur o : skeeps (take_or_load t cur o).
Proof. unfold take_or_load. keeps_run. Qed.
#[local] Hint Resolve keeps_take_or_load : keeps.
Lemma keeps_max_tree_depth : skeeps max_tree_depth.
Proof. unfold max_tree_depth. keeps_run. Qed.
#[local] Hint Resolve keeps_max_tree_depth : keeps.
Lemma keeps_descend_loop n : forall key d o cur cons, skeeps (descend_loop t n key d o cur cons).
Proof. induction n; intros key d o cur cons; cbn [descend_loop]; keeps_run. Qed.
#[local] Hint Resolve keeps_descend_loop : keeps.
Lemma keeps_descend key d : skeeps (descend t key d).
Proof. unfold descend. keeps_run. Qed.
Lemma keeps_edge_loop n : forall left o cur, skeeps (edge_loop t n left o cur).
Proof. induction n; intros left o cur; cbn [edge_loop]; keeps_run. Qed.
#[local] Hint Resolve keeps_descend keeps_edge_loop : keeps.
Lemma keeps_edge_leaf left : skeeps (edge_leaf t left).
Proof. unfold edge_leaf. keeps_run. Qed.
#[local] Hint Resolve keeps_edge_leaf : keeps.
Lemma keeps_ends_at o up : skeeps (ends_at t o up).
Proof. unfold ends_at, max_leaf, min_leaf. keeps_run. Qed.
Lemma keeps_step_sibling a b up : skeeps (step_sibling t a b up).
Proof. unfold step_sibling, leaf_page. keeps_run. Qed.
#[local] Hint Resolve keeps_ends_at keeps_step_sibling : keeps.
Lemma keeps_search_loop n : forall key d op cons pin, skeeps (search_loop t n key d op cons pin).
Proof. induction n; intros key d op cons pin; cbn [search_loop]; keeps_run. Qed.
#[local] Hint Resolve keeps_search_loop : keeps.
Lemma keeps_search key op : skeeps (search t key op).
Proof. unfold search. keeps_run. Qed.
#[local] Hint Resolve keeps_search : keeps.
Lemma keeps_range_start lo : skeeps (range_start t lo).
Proof. unfold range_start, min_leaf. keeps_run. Qed.
#[local] Hint Resolve keeps_range_start : keeps.
Lemma keeps_count_loop n : forall upper pin i c, skeeps (count_loop t n upper pin i c).
Proof. induction n; intros upper pin i c; cbn [count_loop]; keeps_run. Qed.
#[local] Hint Resolve keeps_count_loop : keeps.
Lemma keeps_count_range lo hi : skeeps (count_range t lo hi).
Proof. unfold count_range. keeps_run. Qed.

(** ** Cursors *)

(** The same of the store a cursor works on. *)
Abbreviation ckeeps := (keeps (fun cs : Cursor * Store => trees_inv (snd cs))).

Lemma ckeeps_on_store {A} (m : SM Store Error A) : skeeps m -> ckeeps (on_store m).
Proof. intros Hm [c s] Hs. unfold on_store. specialize (Hm s Hs). cbn [fst snd]. now destruct (m s) as [r s']. Qed.
Lemma ckeeps_cursor : ckeeps cursor.
Proof. now intros cs. Qed.
Lemma ckeeps_pos : ckeeps pos.
Proof. now intros cs. Qed.
Lemma ckeeps_set f : ckeeps (set_cursor f).
Proof. now intros cs. Qed.
Lemma ckeeps_move f : ckeeps (move f).
Proof. now intros cs. Qed.
#[local] Hint Resolve ckeeps_on_store ckeeps_cursor ckeeps_pos ckeeps_set ckeeps_move : keeps.
Lemma ckeeps_charge_at_least n : ckeeps (charge_at_least n).
Proof. unfold charge_at_least. keeps_run. Qed.
Lemma ckeeps_or_drop m : ckeeps m -> ckeeps (or_drop_buf m).
Proof. intros Hm cs Hs. unfold or_drop_buf. specialize (Hm cs Hs). now destruct (m cs) as [[a|e] [c s]]. Qed.
#[local] Hint Resolve ckeeps_charge_at_least ckeeps_or_drop : keeps.
Lemma ckeeps_charge_written : ckeeps charge_written.
Proof. unfold charge_written. keeps_run. Qed.
#[local] Hint Resolve ckeeps_charge_written : keeps.
Lemma ckeeps_charge_buffer n : ckeeps (charge_buffer n).
Proof. unfold charge_buffer. keeps_run. Qed.
Lemma ckeeps_recompute : ckeeps (recompute_leaf_bounds t).
Proof. unfold recompute_leaf_bounds. keeps_run. Qed.
#[local] Hint Resolve ckeeps_charge_buffer ckeeps_recompute : keeps.
Lemma ckeeps_next_page : ckeeps (next_page t).
Proof. unfold next_page. keeps_run. Qed.
#[local] Hint Resolve ckeeps_next_page : keeps.
Lemma ckeeps_skip_loop n : ckeeps (skip_loop t n).
Proof. induction n; cbn [skip_loop]; keeps_run. Qed.
#[local] Hint Resolve ckeeps_skip_loop : keeps.
Lemma ckeeps_skip_to_valid : ckeeps (skip_to_valid t).
Proof. unfold skip_to_valid. keeps_run. Qed.
#[local] Hint Resolve ckeeps_skip_to_valid : keeps.
Lemma ckeeps_cursor_step : ckeeps (cursor_step t).
Proof. unfold cursor_step. keeps_run. Qed.
Lemma keeps_nearest_left n : forall pin, skeeps (nearest_left t n pin).
Proof. induction n; intros pin; cbn [nearest_left]; keeps_run. Qed.
#[local] Hint Resolve ckeeps_cursor_step keeps_nearest_left : keeps.
Lemma keeps_descending_start key op : skeeps (descending_start t key op).
Proof. unfold descending_start, max_leaf. keeps_run. Qed.
#[local] Hint Resolve keeps_descending_start : keeps.
Lemma keeps_scan_start c : skeeps (scan_start t c).
Proof. unfold scan_start, max_leaf. keeps_run. Qed.
#[local] Hint Resolve keeps_scan_start : keeps.
Lemma ckeeps_seek_first : ckeeps (seek_first t).
Proof. unfold seek_first. keeps_run. Qed.
Lemma keeps_blob o : skeeps (blob o).
Proof. unfold blob. keeps_run. Qed.
#[local] Hint Resolve ckeeps_seek_first keeps_blob : keeps.
Lemma ckeeps_materialize : ckeeps (materialize t).
Proof. unfold materialize. keeps_run. Qed.
#[local] Hint Resolve ckeeps_materialize : keeps.
Lemma ckeeps_step_and_read : ckeeps (step_and_read t).
Proof. unfold step_and_read. keeps_run. Qed.
#[local] Hint Resolve ckeeps_step_and_read : keeps.
Lemma ckeeps_advance : ckeeps (advance t).
Proof.
  unfold advance. keeps_run. intros cs Hs. pose proof (ckeeps_step_and_read cs Hs) as H. now destruct (step_and_read t cs) as [[b|e] [c s]].
Qed.
Lemma keeps_cursor_build charge r o validate : skeeps (cursor_build t charge r o validate).
Proof. unfold cursor_build. keeps_run. Qed.
#[local] Hint Resolve ckeeps_advance keeps_cursor_build keeps_count_range : keeps.

(** ** Indexes *)

Context (ix : IndexInner) (Hix : ix_tree ix = t).

Abbreviation ikeeps := (keeps (fun cs : IndexCursor * Store => trees_inv (snd cs))).

Lemma ikeeps_with_store {A} (m : SM Store Error A) : skeeps m -> ikeeps (with_store m).
Proof. intros Hm [c s] Hs. unfold with_store. specialize (Hm s Hs). cbn [fst snd]. now destruct (m s) as [r s']. Qed.
Lemma ikeeps_inner {A} (m : SM (Cursor * Store) Error A) : ckeeps m -> ikeeps (inner m).
Proof.
  intros Hm [c s] Hs. unfold inner. specialize (Hm (ic_cursor c, s) Hs). cbn [fst snd]. now destruct (m (ic_cursor c, s)) as [r [c' s']].
Qed.
Lemma ikeeps_get_cursor : ikeeps get_cursor.
Proof. now intros cs. Qed.
Lemma ikeeps_change f : ikeeps (change f).
Proof. now intros cs. Qed.
#[local] Hint Resolve ikeeps_with_store ikeeps_inner ikeeps_get_cursor ikeeps_change : keeps.
Lemma ikeeps_charge_at_least n : ikeeps (ic_charge_at_least n).
Proof. unfold ic_charge_at_least. keeps_run. Qed.
#[local] Hint Resolve ikeeps_charge_at_least : keeps.
Lemma ikeeps_charge_buffer n : ikeeps (ic_charge_buffer n).
Proof.
  unfold ic_charge_buffer. keeps_run. intros cs Hs. pose proof (ikeeps_charge_at_least (cs_capacity n) cs Hs) as H.
  now destruct (ic_charge_at_least (cs_capacity n) cs) as [[b|e] [c s]].
Qed.
#[local] Hint Resolve ikeeps_charge_buffer : keeps.
Lemma ikeeps_advance_inner : ikeeps (advance_inner ix).
Proof. unfold advance_inner. rewrite Hix. keeps_run. Qed.
Lemma ikeeps_advance : ikeeps (index_advance ix).
Proof.
  intros cs Hs. unfold index_advance. pose proof (ikeeps_advance_inner cs Hs) as H. now destruct (advance_inner ix cs) as [[b|e] [c s]].
Qed.
Lemma keeps_index_range lo hi o : skeeps (index_range ix lo hi o).
Proof. unfold index_range, ix_reserve_bounds, reserve_bounds, Cursor_new, index_cursor. rewrite Hix. keeps_run. Qed.
Lemma keeps_index_count : skeeps (index_count ix).
Proof. unfold index_count. rewrite Hix. keeps_run. Qed.
End OneTree.
End Trees.
