(* ===== verification/Table.v ===== *)
(** Tables, [crates/drydb/src/db.rs].

    A table is one primary key tree and its secondary indexes by name.  Every
    query is a call on the tree: a lookup resolves the value of the entry it finds
    into a guard over the page that holds it. *)

From Stdlib Require Import ZArith Lia String.
From stdpp Require Import base list sorting gmap.
From coqutil Require Import Byte.
From S2P Require Import Prelude Errors Format PageRef Node Encoding Budget Catalog Page TreePage Btree Query Cursor Index.

#[local] Open Scope Z_scope.
#[local] Open Scope drydb_scope.

(** The indexes of a table, the last one put in first. *)
Record TableInner : Type := mkTableInner {
  ti_descriptor : TableDescriptor;
  ti_primary : Tree;
  ti_secondaries : list (Str * IndexInner);
}.

(** [HashMap::get] *)
Definition by_name {A} (name : Str) (m : list (Str * A)) : option A :=
  snd <$> List.find (fun p => str_eqb (fst p) name) m.

Fixpoint build_secondaries (next_tree_id : Z) (indexes : list IndexDescriptor) (encodings : EncodingRegistry)
    (validate_digests : bool) (built : list (Str * IndexInner)) : Result (list (Str * IndexInner) * Z) :=
  match indexes with
  | [] => Ok (built, next_tree_id)
  | index :: indexes =>
      let? '(inner, next_tree_id) := IndexInner_build next_tree_id index encodings validate_digests in
      build_secondaries next_tree_id indexes encodings validate_digests ((id_name index, inner) :: built)
  end.

(** [TableInner::build], with the counter of tree ids. *)
Definition TableInner_build (next_tree_id : Z) (descriptor : TableDescriptor) (encodings : EncodingRegistry)
    (validate_digests : bool) : Result (TableInner * Z) :=
  match id_value_kind (td_primary descriptor) with
  | RawData =>
      let? encoding := EncodingRegistry_resolve encodings (encoding_id (id_key_encoding_id (td_primary descriptor))) in
      let '(primary, next_tree_id) := Tree_new next_tree_id (id_root (td_primary descriptor)) encoding validate_digests in
      let? '(secondaries, next_tree_id) := build_secondaries next_tree_id (td_secondaries descriptor) encodings validate_digests [] in
      Ok (mkTableInner descriptor primary secondaries, next_tree_id)
  | _ => Err (Error_new UnsupportedFormat)
  end.

Inductive CachedLookup : Type :=
| Value (g : ValueGuard)
| Missing
| NotCached.

Definition cached_value (c : CachedLookup) : option ValueGuard := match c with Value g => Some g | _ => None end.
Definition is_resolved (c : CachedLookup) : bool := match c with NotCached => false | _ => true end.

Section Ops.
Context {Store : Type} `{!TreeStore Store} `{!CursorStore Store}.
Abbreviation M A := (SM Store Error A).

(** * Values, [crates/drydb/src/btree.rs] *)

Definition resolve_value (leaf : PagePin) (entry : LeafEntry) : M (PagePin * (Z * Z)) :=
  match le_value entry with
  | Inline offset len => sret (leaf, (offset, offset + len))
  | Overflow page => blob page
  end.

Definition resolve_value_cached (leaf : PagePin) (entry : LeafEntry) : M (option (PagePin * (Z * Z))) :=
  match le_value entry with
  | Inline offset len => sret (Some (leaf, (offset, offset + len)))
  | Overflow page =>
      let! pin := page_cached page in
      match pin with
      | None => sret None
      | Some pin => lift (rmap Some (blob_from_pin pin))
      end
  end.

(** * Queries *)

Definition table_get (tb : TableInner) (key : list byte) : M (option ValueGuard) :=
  let t := ti_primary tb in
  let! _ := lift (validate_key (tree_encoding t) key) in
  let! found := find t key in
  match found with
  | None => sret None
  | Some (pin, index) =>
      let! view := lift (pin_view pin) in
      let! entry := lift (leaf_entry view index) in
      let! '(value_pin, (start, stop)) := resolve_value pin entry in
      let! guard := lift (into_guard value_pin start stop) in
      sret (Some guard)
  end.

(** [None] is a walk that has not come to an end: see [find_cached]. *)
Definition table_get_cached (fuel : nat) (tb : TableInner) (key : list byte) : M (option CachedLookup) :=
  let t := ti_primary tb in
  let! _ := lift (validate_key (tree_encoding t) key) in
  let! found := find_cached t fuel key in
  match found with
  | OutOfFuel => sret None
  | Done None => sret (Some NotCached)
  | Done (Some None) => sret (Some Missing)
  | Done (Some (Some (pin, index))) =>
      let! view := lift (pin_view pin) in
      let! entry := lift (leaf_entry view index) in
      let! value := resolve_value_cached pin entry in
      match value with
      | None => sret (Some NotCached)
      | Some (value_pin, (start, stop)) =>
          let! guard := lift (into_guard value_pin start stop) in
          sret (Some (Value guard))
      end
  end.

Definition table_contains_key (tb : TableInner) (key : list byte) : M bool :=
  let t := ti_primary tb in
  let! _ := lift (validate_key (tree_encoding t) key) in
  let! found := find t key in
  sret (bool_decide (is_Some found)).

Definition table_range (tb : TableInner) (lower upper : Bound) (order : Order) : M Cursor :=
  let! charge := reserve_bounds lower upper 0 in
  Cursor_new (ti_primary tb) charge (KeyRange_from_bounds lower upper) order.

Definition table_scan (tb : TableInner) (order : Order) : M Cursor :=
  let! charge := reserve_bounds Unbounded Unbounded 0 in
  Cursor_new (ti_primary tb) charge KeyRange_all order.

Definition table_prefix (tb : TableInner) (prefix : list byte) (order : Order) : M Cursor :=
  if negb (ke_is_byte_lexicographic (tree_encoding (ti_primary tb))) then sfail Error_invalid
  else
    let! charge := reserve_bounds (Included prefix) (Included prefix) 0 in
    Cursor_for_prefix (ti_primary tb) charge (prefix_range prefix) order.

Definition table_count_range (tb : TableInner) (lower upper : Bound) : M Z := count_range (ti_primary tb) lower upper.

Definition table_count (tb : TableInner) : M Z := count_range (ti_primary tb) Unbounded Unbounded.

Definition table_index (tb : TableInner) (name : Str) : Result IndexInner := ok_or (by_name name (ti_secondaries tb)) Error_invalid.
End Ops.

(** * What the lookups promise *)

(** A store none of whose pages can be read, and otherwise the same. *)
Definition unreadable {Store : Type} (TS : TreeStore Store) : TreeStore Store := {|
  ts_page := fun _ s => (Err Error_io, s);
  ts_page_cached := ts_page_cached;
  ts_retained_root := ts_retained_root;
  ts_retain_root := ts_retain_root;
  ts_release_root := ts_release_root;
  ts_has_headroom_for := ts_has_headroom_for;
  ts_markers := ts_markers;
  ts_set_markers := ts_set_markers;
  ts_page_count := ts_page_count;
  ts_max_tree_depth := ts_max_tree_depth;
|}.

(** A cached lookup asks the store for no page. *)
Lemma cached_reads_nothing {Store : Type} {TS : TreeStore Store} fuel tb key s :
  table_get_cached (TreeStore0 := unreadable TS) fuel tb key s = table_get_cached fuel tb key s.
Proof. reflexivity. Qed.

Section Get.
Context {Store : Type} {TS : TreeStore Store} {CS : CursorStore Store}.
Context {file : PageOrdinal -> option (list byte)} {page_count max_depth : Z}.
Context {SL : StoreLaws Store file page_count max_depth} {CL : CursorLaws Store SL}.
Context (tb : TableInner).
Abbreviation t := (ti_primary tb).
Abbreviation E := (tree_encoding t).
Context (Hid : 1 <= tree_id t) {HL : LawfulEncoding E} {HC : CheckableEncoding E}.
Context (h : nat) (root : PageOrdinal) (leaves : list LeafInfo).
Context (Hwf : well_formed (file := file) (page_count := page_count) (max_depth := max_depth) t h root leaves).
Context (Hread : readable (file := file) leaves).
Abbreviation holds_value := (holds_value (file := file)).

(** The entry a lookup is about. *)
Definition entry_at (key : list byte) (e : Entry) : Prop := e ∈ entries leaves /\ en_key e = key.

Lemma found_entry key pin i :
  key_ok key -> result_is (Some (pin, i)) (first_in t Equal key leaves) ->
  exists l, entry_at key (mkEntry l i key) /\ l ∈ leaves /\ on_leaf l pin.
Proof.
  intros Hk Hr. destruct (first_in t Equal key leaves) as [[l j]|] eqn:Hf; [|contradiction]. destruct Hr as [-> Hpin].
  apply first_in_Some in Hf as (L1 & L2 & Hsplit & Hi & _). exists l.
  apply first_index_Some in Hi as (Hj & k & Hk' & Hop & _). rewrite Z.sub_0_r in Hk'.
  assert (l ∈ leaves) as Hin by (rewrite Hsplit; apply elem_of_app; right; left).
  assert (mkEntry l j k ∈ entries leaves) as He.
  { rewrite Hsplit, entries_app, entries_cons. apply elem_of_app. right. apply elem_of_app. left. apply (entries_of_elem l (Z.to_nat j)).
    apply entries_of_lookup. exists k. split; [exact Hk' | now rewrite Z2Nat.id]. }
  assert (k = key) as ->.
  { apply (cmp_eq _ _ ord_order); [exact (entry_key_ok t h root leaves Hwf _ He) | exact Hk |]. cbn in Hop. now destruct (ord k key). }
  split; [split; [exact He | reflexivity] | auto].
Qed.

Lemma missing_entry key : key_ok key -> first_in t Equal key leaves = None -> forall e, ~ entry_at key e.
Proof.
  intros Hk Hf e [He <-]. pose proof (elem_of_entries e leaves He) as [Hl Hin].
  pose proof (first_in_None t Equal _ leaves _ Hf Hl) as Hn. unfold leaf_ref in Hn. rewrite first_index_None in Hn.
  specialize (Hn _ Hin). now rewrite (ord_refl E _ Hk) in Hn.
Qed.

(** The entry on the page and the value it leads to. *)
Lemma entry_on_leaf key l i pin :
  entry_at key (mkEntry l i key) -> l ∈ leaves -> on_leaf l pin ->
  exists le, leaf_entry (lp_view l) i = Ok le /\
    match le_value le with
    | Inline offset len => exists g, into_guard pin offset (offset + len) = Ok g /\ holds_value (mkEntry l i key) (guard_bytes g) false
    | Overflow b => exists bytes v, file b = Some bytes /\ PageView_parse bytes = Ok v /\ view_kind v = Leaf /\ entry_count v = 0
    end.
Proof.
  intros [He _] Hl [_ Hv]. pose proof (proj1 (Forall_forall _ _) (tree_leaves_ok t h root leaves Hwf) l Hl) as Hlok.
  pose proof Hlok as [(_ & _ & Hsp) Hkind]. destruct (Hread l Hl) as [Hval Hblob].
  apply entries_of_leaf in He as (l' & Hl' & (j & Hj)%list_elem_of_lookup). apply entries_of_lookup in Hj as (k & Hk & [= <- -> <-]).
  pose proof (validate_entries (lp_view l) (sp_wf _ _ _ Hsp) Hval (Z.of_nat j)) as Hent. rewrite Hkind in Hent.
  destruct Hent as [le Hle]; [rewrite (leaf_count t l Hlok); apply lookup_lt_Some in Hk; unfold zlen; lia|].
  exists le. split; [exact Hle|]. destruct (le_value le) as [offset len|b] eqn:Hlv; [|now apply (Hblob (Z.of_nat j) le b ltac:(lia) Hle)].
  pose proof (leaf_entry_inv (lp_view l) _ le (sp_wf _ _ _ Hsp) Hle) as (_ & _ & _ & _ & _ & Hin). rewrite Hlv in Hin. cbn in Hin.
  apply pin_view_Ok, PageView_parse_wf in Hv as [_ Hb]. rewrite Hb in Hin.
  exists (mkValueGuard pin offset (offset + len)). split.
  - unfold into_guard, pin_len. rewrite (proj2 (Z.ltb_ge _ _)), (proj2 (Z.ltb_ge _ _)) by lia. reflexivity.
  - exists le. split; [exact Hle|]. rewrite Hlv. split; [reflexivity|]. unfold guard_bytes. cbn. rewrite Hb. f_equal. lia.
Qed.

Lemma result_none x : result_is None x -> x = None.
Proof. now destruct x as [[]|]. Qed.

(** What a caller may be told about a key. *)
Definition answer_of (key : list byte) (r : option ValueGuard) : Prop :=
  match r with
  | Some g => exists e overflow, entry_at key e /\ holds_value e (guard_bytes g) overflow
  | None => forall e, ~ entry_at key e
  end.

Definition get_error (key : list byte) (e : Error) : Prop :=
  scan_error (SL := SL) e \/ (e = Error_invalid /\ validate_key E key <> Ok tt).

Lemma validate_triple {A} key (f : unit -> SM Store Error A) Q R :
  (forall e, e = Error_invalid -> validate_key E key <> Ok tt -> R e) ->
  (key_ok key -> triple t R (f tt) Q) -> triple t R (sbind (lift (validate_key E key)) f) Q.
Proof.
  intros HR Hf. apply (triple_bind _ _ _ _ (fun _ => key_ok key)); [|intros []; exact Hf].
  apply triple_lift; [intros []; apply validated_ok|]. intros e He. apply HR; [|congruence].
  unfold validate_key in He. repeat case_match; congruence.
Qed.

Lemma blob_guard pin bytes : pin_data pin = bytes -> PAGE_PREFIX_LEN <= zlen bytes ->
  exists g, into_guard pin PAGE_PREFIX_LEN (zlen bytes) = Ok g /\ guard_bytes g = drop (Z.to_nat PAGE_PREFIX_LEN) bytes.
Proof.
  intros <- Hlen. exists (mkValueGuard pin PAGE_PREFIX_LEN (pin_len pin)). unfold into_guard, pin_len.
  rewrite (proj2 (Z.ltb_ge _ _)), (proj2 (Z.ltb_ge _ _)) by lia. split; [reflexivity|]. unfold guard_bytes. cbn.
  unfold slice, pin_len. apply take_ge. rewrite length_drop. unfold zlen. lia.
Qed.

Lemma page_has_prefix bytes v : PageView_parse bytes = Ok v -> PAGE_PREFIX_LEN <= zlen bytes.
Proof. intros [Hpv <-]%PageView_parse_wf. apply (vwf_len v Hpv). Qed.

Lemma table_get_spec key : triple t (get_error key) (table_get tb key) (answer_of key).
Proof.
  unfold table_get. apply validate_triple; [intros e He Hv; right; auto|]. intros Hk.
  eapply triple_bind; [eapply triple_error; [apply (search_spec t Hid h root leaves key Equal Hwf Hk) | intros e He; left; now left]|].
  intros [[pin i]|] Hr; [|apply triple_ret; exact (missing_entry key Hk (result_none _ Hr))].
  destruct (found_entry key pin i Hk Hr) as (l & He & Hl & Hpin). destruct (entry_on_leaf key l i pin He Hl Hpin) as (le & Hle & Hval).
  eapply triple_bind; [eapply (triple_lift_ok _ _ _ _ (eq (lp_view l))); [apply Hpin | reflexivity]|]. intros ? <-.
  eapply triple_bind; [eapply (triple_lift_ok _ _ _ _ (eq le)); [exact Hle | reflexivity]|]. intros ? <-. unfold resolve_value.
  destruct (le_value le) as [offset len|b] eqn:Hlv.
  - destruct Hval as (g & Hg & Hh). eapply (triple_bind _ _ _ _ (eq (pin, (offset, offset + len)))); [now apply triple_ret|]. intros ? <-.
    eapply triple_bind; [eapply (triple_lift_ok _ _ _ _ (eq g)); [exact Hg | reflexivity]|]. intros ? <-. apply triple_ret. exists (mkEntry l i key), false. auto.
  - destruct Hval as (bytes & v & Hf & Hp & Hkind & Hcount).
    eapply triple_bind; [eapply triple_error; [apply (blob_spec t Hid b bytes v Hf Hp Hkind Hcount) | intros e H; left; exact H]|].
    intros [bpin [start stop]] [Hd [= -> ->]]. cbn [fst snd] in *. destruct (blob_guard bpin bytes Hd (page_has_prefix bytes v Hp)) as (g & Hg & Hgb).
    eapply triple_bind; [eapply (triple_lift_ok _ _ _ _ (eq g)); [exact Hg | reflexivity]|]. intros ? <-. apply triple_ret.
    exists (mkEntry l i key), true. split; [exact He|]. exists le. split; [exact Hle|]. rewrite Hlv. split; [reflexivity|]. eauto.
Qed.

(** C15: a lookup in a table is the lookup in the map the table holds.  Over a
    well-formed tree whose values can be read, [get] answers with the bytes stored
    under exactly that key, on its leaf or on a page of its own, and with nothing
    only when no entry has the key; [contains_key] says which of the two it is.
    They fail only when a page cannot be read or memory is refused, or with
    [InvalidArgument] on bytes that are no key of the encoding. *)
Theorem table_get_correct key s :
  tree_inv t s ->
  let run := table_get tb key s in
  tree_inv t (snd run) /\
  match fst run with Ok r => answer_of key r | Err e => get_error key e end /\
  match fst (table_contains_key tb key s) with
  | Ok present => present = true <-> exists e, entry_at key e
  | Err e => get_error key e
  end.
Proof.
  intros Hs run. destruct (table_get_spec key s Hs) as [Hs' Hr]. fold run in Hs', Hr. split; [exact Hs'|]. split; [exact Hr|].
  enough (triple t (get_error key) (table_contains_key tb key) (fun b => b = true <-> exists e, entry_at key e)) as H by (now destruct (H s Hs)).
  unfold table_contains_key. apply validate_triple; [intros e He Hv; right; auto|]. intros Hk.
  eapply triple_bind; [eapply triple_error; [apply (search_spec t Hid h root leaves key Equal Hwf Hk) | intros e He; left; now left]|].
  intros found Hf. apply triple_ret. rewrite bool_decide_eq_true. destruct found as [[pin i]|].
  - destruct (found_entry key pin i Hk Hf) as (l & He & _). split; [eauto | eauto].
  - pose proof (missing_entry key Hk (result_none _ Hf)) as Hno. split; [intros [x Hx]; discriminate | intros [e He]; now apply Hno in He].
Qed.

(** C17: a cached lookup never guesses.  Over a well-formed tree of a lawful encoding
    whose values can be read (each is on its leaf or on a page that holds one value), for a key of the
    encoding, [get_cached] always answers: with the stored value, with [Missing]
    only when no entry has the key, or with [NotCached]; it never fails.  It reads
    no page: its answer and the state it leaves are the same over the same store
    with every page made unreadable. *)
Theorem table_get_cached_correct key s fuel :
  tree_inv t s -> validate_key E key = Ok tt -> (h < fuel)%nat ->
  tree_inv t (snd (table_get_cached fuel tb key s)) /\
  exists c, fst (table_get_cached fuel tb key s) = Ok (Some c) /\
    match c with
    | Value g => answer_of key (Some g)
    | Missing => answer_of key None
    | NotCached => True
    end /\
    table_get_cached (TreeStore0 := unreadable TS) fuel tb key s = table_get_cached fuel tb key s.
Proof.
  intros Hs Hv Hfuel. pose proof (validated_ok key Hv) as Hk.
  enough (triple t (fun _ => False) (table_get_cached fuel tb key) (fun r => exists c, r = Some c /\
    match c with Value g => answer_of key (Some g) | Missing => answer_of key None | NotCached => True end)) as H.
  { destruct (H s Hs) as [H1 H2]. split; [exact H1|]. destruct (fst _) as [r|e]; [|contradiction]. destruct H2 as (c & -> & Hc). exists c. split; [reflexivity|]. split; [exact Hc | apply cached_reads_nothing]. }
  unfold table_get_cached. rewrite Hv. apply (triple_bind _ _ _ _ (fun _ => True)); [apply triple_lift_ok with (a := tt); [reflexivity | exact I]|]. intros _ _.
  apply (triple_bind _ _ _ _ (cached_answer (SL := SL) t key leaves)).
  { intros s0 Hs0. destruct (find_cached_correct t Hid h root leaves key s0 fuel Hwf Hk Hs0 Hfuel) as (H1 & r & -> & H2). auto. }
  intros [[[[pin i]|]|]|] Hr; cbn [cached_answer] in Hr; [| | now apply triple_ret; eauto | contradiction].
  2: { apply triple_ret. eexists. split; [reflexivity|]. exact (missing_entry key Hk (result_none _ Hr)). }
  destruct (found_entry key pin i Hk Hr) as (l & He & Hl & Hpin). destruct (entry_on_leaf key l i pin He Hl Hpin) as (le & Hle & Hval).
  eapply triple_bind; [eapply (triple_lift_ok _ _ _ _ (eq (lp_view l))); [apply Hpin | reflexivity]|]. intros ? <-.
  eapply triple_bind; [eapply (triple_lift_ok _ _ _ _ (eq le)); [exact Hle | reflexivity]|]. intros ? <-. unfold resolve_value_cached.
  destruct (le_value le) as [offset len|b] eqn:Hlv.
  - destruct Hval as (g & Hg & Hh). eapply (triple_bind _ _ _ _ (eq (Some (pin, (offset, offset + len))))); [now apply triple_ret|]. intros ? <-.
    eapply triple_bind; [eapply (triple_lift_ok _ _ _ _ (eq g)); [exact Hg | reflexivity]|]. intros ? <-. apply triple_ret. eexists. split; [reflexivity|].
    exists (mkEntry l i key), false. auto.
  - destruct Hval as (bytes & v & Hf & Hp & Hkind & Hcount).
    apply (triple_bind _ _ _ _ (fun r => forall bpin x, r = Some (bpin, x) -> pin_data bpin = bytes /\ x = (PAGE_PREFIX_LEN, zlen bytes))).
    + apply (triple_bind _ _ _ _ (fun r => forall bpin, r = Some bpin -> is_page b bpin)); [apply (triple_cached t Hid)|].
      intros [bpin|] Hb; [|apply triple_ret; discriminate]. destruct (Hb bpin eq_refl) as (_ & Hbf & _). assert (pin_data bpin = bytes) as Hd by congruence.
      apply triple_lift_ok with (a := Some (bpin, (PAGE_PREFIX_LEN, pin_len bpin))).
      { unfold blob_from_pin. rewrite (proj2 (pin_view_Ok bpin v)) by congruence. cbn [rbind].
        rewrite (bool_decide_eq_false_2 (view_kind v <> Leaf)) by (rewrite Hkind; tauto). now rewrite Hcount. }
      intros ? ? [= <- <-]. unfold pin_len. rewrite Hd. auto.
    + intros [[bpin [start stop]]|] Hb; [|apply triple_ret; now exists NotCached]. destruct (Hb bpin _ eq_refl) as [Hd [= -> ->]].
      destruct (blob_guard bpin bytes Hd (page_has_prefix bytes v Hp)) as (g & Hg & Hgb).
      eapply triple_bind; [eapply (triple_lift_ok _ _ _ _ (eq g)); [exact Hg | reflexivity]|]. intros ? <-. apply triple_ret. eexists. split; [reflexivity|].
      exists (mkEntry l i key), true. split; [exact He|]. exists le. split; [exact Hle|]. rewrite Hlv. split; [reflexivity|]. eauto.
Qed.
End Get.

(** ** Examples *)

Definition sample_table : TableInner :=
  mkTableInner (mkTableDescriptor [Byte.x74] (mkIndexDescriptor [] true [] RawData (Some 0) 0) []) sample_tree [].

Lemma table_get_correct_witness :
  exists g, fst (table_get sample_table [Byte.x64] sample_state) = Ok (Some g) /\
    answer_of (file := image_file sample_pages) sample_leaves [Byte.x64] (Some g).
Proof.
  destruct (table_get_correct sample_table ltac:(discriminate) 1 0 sample_leaves sample_tree_wf sample_readable [Byte.x64] sample_state
    sample_state_inv) as (_ & H & _).
  assert (is_ok (fst (table_get sample_table [Byte.x64] sample_state)) = true) as Hok by (vm_compute; reflexivity).
  destruct (fst (table_get sample_table [Byte.x64] sample_state)) as [[g|]|e]; [eauto | | discriminate].
  exfalso. apply (H (mkEntry (mkLeafInfo 4 (tiny_view Byte.x64 3 (-1)) [[Byte.x64]]) 0 [Byte.x64])). split; [right; left | reflexivity].
Defined.

Lemma table_get_cached_correct_witness :
  exists c, fst (table_get_cached 64 sample_table [Byte.x61] sample_state) = Ok (Some c) /\ cached_value c = None.
Proof.
  destruct (table_get_cached_correct sample_table ltac:(discriminate) 1 0 sample_leaves sample_tree_wf sample_readable [Byte.x61] sample_state 64
    sample_state_inv eq_refl ltac:(lia)) as (_ & c & Hc & H & _). exists c. split; [exact Hc|]. destruct c as [g| |]; [|reflexivity..].
  destruct H as (e & ov & [He Hk] & _). exfalso. repeat (apply elem_of_cons in He as [->|He]; [discriminate Hk|]). inversion He.
Defined.
