(* ===== verification/Source.v ===== *)
(** Positional reads, [crates/drydb/src/io.rs].

    A [PageSource] is the bytes of the file and what the operating system does
    to the reads still to come: a read may be cut short, interrupted or fail.
    [read_exact_at] is what the rest of the crate uses. *)

From Stdlib Require Import ZArith Lia.
From stdpp Require Import base list.
From coqutil Require Import Byte.
From S2P Require Import Prelude Errors Format.

#[local] Open Scope Z_scope.
#[local] Open Scope drydb_scope.

(** What happens to one call of [read_at]. *)
Inductive ReadEvent : Set :=
| ReadFull
| ReadShort (n : nat)
| ReadInterrupted
| ReadFailed.

(** The reads still to come; beyond the list every read is a full one. *)
Abbreviation Reads := (list ReadEvent).

Inductive ReadOutcome : Type :=
| Got (bytes : list byte)
| Interrupted
| IoFailed.

Section Source.
Context (data : list byte).

(** [source.read_at(&mut buf[..want], at)]: at least one byte unless the file
    ends at or before [at], or nothing was asked for. *)
Definition read_at (want at_ : Z) (reads : Reads) : ReadOutcome * Reads :=
  let here := slice data at_ want in
  match reads with
  | [] => (Got here, [])
  | ReadFull :: reads => (Got here, reads)
  | ReadShort n :: reads => (Got (take (S n) here), reads)
  | ReadInterrupted :: reads => (Interrupted, reads)
  | ReadFailed :: reads => (IoFailed, reads)
  end.

(** [read_exact_at]: [fuel] bounds the rounds; every round reads a byte or uses
    up an event ([read_exact_at_spec]). *)
Inductive ReadStop : Type :=
| ReadError (e : Error)
| ReadOutOfFuel.

Fixpoint read_exact_loop (fuel : nat) (len offset : Z) (filled : list byte) : SM Reads ReadStop (list byte) :=
  match fuel with
  | O => sfail ReadOutOfFuel
  | S fuel =>
      if len <=? zlen filled then sret filled
      else
        let! at_ := lift (ok_or (checked_add offset (zlen filled)) (ReadError Error_corrupt)) in
        fun reads =>
          match read_at (len - zlen filled) at_ reads with
          | (Got [], reads) => (Err (ReadError (at_offset Error_io offset)), reads)
          | (Got bytes, reads) => read_exact_loop fuel len offset (filled ++ bytes) reads
          | (Interrupted, reads) => read_exact_loop fuel len offset filled reads
          | (IoFailed, reads) => (Err (ReadError (at_offset Error_io offset)), reads)
          end
  end.

Definition read_exact_fuel (len : Z) (reads : Reads) : nat := S (Z.to_nat len + length reads).

(** The caller's view: [Error]s only. *)
Definition read_exact_at (len offset : Z) : SM Reads Error (list byte) := fun reads =>
  match read_exact_loop (read_exact_fuel len reads) len offset [] reads with
  | (Ok bytes, reads) => (Ok bytes, reads)
  | (Err (ReadError e), reads) => (Err e, reads)
  | (Err ReadOutOfFuel, reads) => (Err Error_corrupt, reads)
  end.

Fixpoint read_up_to_loop (fuel : nat) (len offset : Z) (filled : list byte) : SM Reads ReadStop (list byte) :=
  match fuel with
  | O => sfail ReadOutOfFuel
  | S fuel =>
      if len <=? zlen filled then sret filled
      else
        let! at_ := lift (ok_or (checked_add offset (zlen filled)) (ReadError Error_corrupt)) in
        fun reads =>
          match read_at (len - zlen filled) at_ reads with
          | (Got [], reads) => (Ok filled, reads)
          | (Got bytes, reads) => read_up_to_loop fuel len offset (filled ++ bytes) reads
          | (Interrupted, reads) => read_up_to_loop fuel len offset filled reads
          | (IoFailed, reads) => (Err (ReadError (at_offset Error_io offset)), reads)
          end
  end.

Definition read_up_to_at (len offset : Z) : SM Reads Error (list byte) := fun reads =>
  match read_up_to_loop (read_exact_fuel len reads) len offset [] reads with
  | (Ok bytes, reads) => (Ok bytes, reads)
  | (Err (ReadError e), reads) => (Err e, reads)
  | (Err ReadOutOfFuel, reads) => (Err Error_corrupt, reads)
  end.

(** [MemorySource::read_at] *)
Definition MemorySource_read_at (want at_ : Z) : list byte :=
  if at_ <=? zlen data then
    let available := drop (Z.to_nat at_) data in
    take (Nat.min (length available) (Z.to_nat want)) available
  else [].

(** * Correctness *)

Lemma slice_step a n f :
  0 <= a -> 0 <= f <= n -> slice data a f ++ slice data (a + f) (n - f) = slice data a n.
Proof. intros. rewrite <- slice_split by lia. f_equal. lia. Qed.

(** A prefix of what is asked for, non-empty unless there is nothing left. *)
Lemma read_at_got want at_ reads bytes reads' :
  0 <= at_ -> 0 < want -> read_at want at_ reads = (Got bytes, reads') ->
  bytes = slice data at_ (zlen bytes) /\ zlen bytes <= want /\
  (bytes = [] -> zlen data <= at_) /\ (length reads' <= length reads)%nat.
Proof.
  intros Ha Hw H.
  assert (bytes = slice data at_ want \/ exists n, bytes = take (S n) (slice data at_ want)) as Hb
    by (unfold read_at in H; destruct reads as [|[] reads]; simplify_eq; eauto).
  assert (length reads' <= length reads)%nat
    by (unfold read_at in H; destruct reads as [|[] reads]; simplify_eq; simpl; lia).
  assert (slice data at_ want = [] -> zlen data <= at_) as Hend.
  { intros He. apply (f_equal length) in He. unfold slice in He. rewrite length_take, length_drop in He.
    unfold zlen. simpl in He. lia. }
  destruct Hb as [->|[n ->]].
  - split; [|split; [|split; [exact Hend | assumption]]].
    + unfold slice, zlen. rewrite length_take, Nat2Z.id.
      destruct (Nat.min_dec (Z.to_nat want) (length (drop (Z.to_nat at_) data))) as [e|e]; rewrite e; [reflexivity|].
      rewrite firstn_all. apply take_ge. lia.
    + unfold slice, zlen. rewrite length_take. lia.
  - split; [|split; [|split; [|assumption]]].
    + unfold slice. rewrite take_take. unfold zlen. rewrite length_take, Nat2Z.id.
      destruct (Nat.min_dec (Init.Nat.min (S n) (Z.to_nat want)) (length (drop (Z.to_nat at_) data))) as [e|e];
        rewrite e; [reflexivity|]. rewrite firstn_all. apply take_ge. lia.
    + unfold slice, zlen. rewrite !length_take. lia.
    + intros He. apply Hend. destruct (slice data at_ want); [reflexivity | discriminate].
Qed.

Lemma MemorySource_read_at_slice want at_ : 0 <= at_ -> MemorySource_read_at want at_ = slice data at_ want.
Proof.
  intros Ha. unfold MemorySource_read_at, slice. destruct (Z.leb_spec at_ (zlen data)).
  - destruct (Nat.min_dec (length (drop (Z.to_nat at_) data)) (Z.to_nat want)) as [e|e]; rewrite e; [|reflexivity].
    rewrite firstn_all. symmetry. apply take_ge. lia.
  - rewrite drop_ge by (unfold zlen in *; lia). now rewrite take_nil.
Qed.

(** What a loop has read so far, and enough fuel for the rest. *)
Definition read_inv (fuel : nat) (len offset : Z) (filled : list byte) (reads : Reads) : Prop :=
  filled = slice data offset (zlen filled) /\ zlen filled <= len /\
  (Z.to_nat (len - zlen filled) + length reads < fuel)%nat.

(** One more piece keeps the invariant. *)
Lemma read_inv_got fuel len offset filled reads bytes reads' :
  0 <= offset -> zlen filled < len -> read_inv (S fuel) len offset filled reads -> bytes <> [] ->
  read_at (len - zlen filled) (offset + zlen filled) reads = (Got bytes, reads') ->
  read_inv fuel len offset (filled ++ bytes) reads'.
Proof.
  intros Ho Hlt (Hf & Hle & Hfuel) Hne H. pose proof (zlen_nonneg filled).
  apply read_at_got in H as (Hb & Hwant & _ & Hr); [|lia|lia].
  assert (0 < zlen bytes) by (unfold zlen; destruct bytes; [congruence | simpl; lia]).
  split; [|split].
  - rewrite zlen_app. rewrite Hf at 1. rewrite Hb at 1.
    replace (zlen bytes) with (zlen filled + zlen bytes - zlen filled) at 1 by lia. apply slice_step; lia.
  - rewrite zlen_app. lia.
  - rewrite zlen_app. lia.
Qed.

Lemma read_inv_other fuel len offset filled want at_ reads reads' :
  read_inv (S fuel) len offset filled reads -> read_at want at_ reads = (Interrupted, reads') ->
  read_inv fuel len offset filled reads'.
Proof.
  intros (Hf & Hle & Hfuel) H. split; [exact Hf|]. split; [exact Hle|].
  unfold read_at in H. destruct reads as [|[] reads]; simplify_eq. simpl in Hfuel. lia.
Qed.

Lemma read_at_failed want at_ reads reads' :
  read_at want at_ reads = (IoFailed, reads') -> ReadFailed ∈ reads.
Proof. unfold read_at. destruct reads as [|[] reads]; intros; simplify_eq. left. Qed.

Lemma read_at_suffix want at_ reads out reads' e :
  read_at want at_ reads = (out, reads') -> e ∈ reads' -> e ∈ reads.
Proof. unfold read_at. destruct reads as [|[] reads]; intros; simplify_eq; auto; now right. Qed.

Definition read_result (len offset : Z) (reads : Reads) (r : result ReadStop (list byte)) : Prop :=
  match r with
  | Ok bytes => bytes = slice data offset len /\ zlen bytes = len
  | Err e => e = ReadError (at_offset Error_io offset) /\ (zlen data < offset + len \/ ReadFailed ∈ reads)
  end.

Lemma read_exact_loop_spec fuel len offset filled reads :
  0 <= offset -> offset + len <= u64_max -> read_inv fuel len offset filled reads ->
  read_result len offset reads (fst (read_exact_loop fuel len offset filled reads)).
Proof.
  intros Ho Hmax. revert filled reads; induction fuel as [|fuel IH]; intros filled reads Hinv.
  { destruct Hinv as (_ & _ & H). lia. }
  pose proof Hinv as (Hf & Hle & _). pose proof (zlen_nonneg filled). cbn [read_exact_loop].
  destruct (Z.leb_spec len (zlen filled)).
  - simpl. assert (zlen filled = len) as He by lia. rewrite He in Hf. auto.
  - unfold sbind, lift. rewrite checked_add_ok by (unfold usize_max, u64_max in *; lia). simpl.
    destruct (read_at (len - zlen filled) (offset + zlen filled) reads) as [[bytes| |] reads'] eqn:Hr.
    + destruct bytes as [|b bytes].
      * simpl. split; [reflexivity|]. left. apply read_at_got in Hr as (_ & _ & Hend & _); [|lia|lia].
        specialize (Hend eq_refl). lia.
      * eassert (read_inv fuel len offset (filled ++ b :: bytes) reads') as Hinv'
          by (eapply read_inv_got; eauto).
        specialize (IH _ _ Hinv'). unfold read_result in *.
        destruct (fst _); [exact IH|]. destruct IH as [-> [|Hin]]; auto. split; [reflexivity|]. right.
        eapply read_at_suffix; eauto.
    + pose proof (IH _ _ (read_inv_other _ _ _ _ _ _ _ _ Hinv Hr)) as IH'. unfold read_result in *.
      destruct (fst _); [exact IH'|]. destruct IH' as [-> [|Hin]]; auto. split; [reflexivity|]. right.
      eapply read_at_suffix; eauto.
    + simpl. split; [reflexivity|]. right. eapply read_at_failed; eauto.
Qed.

Lemma read_inv_start len offset reads : 0 <= len -> read_inv (read_exact_fuel len reads) len offset [] reads.
Proof. intros. unfold read_inv, read_exact_fuel. change (zlen (@nil byte)) with 0. rewrite Z.sub_0_r. split; [reflexivity|]. lia. Qed.

Lemma read_exact_at_spec len offset reads :
  0 <= offset -> 0 <= len -> offset + len <= u64_max ->
  match fst (read_exact_at len offset reads) with
  | Ok bytes => bytes = slice data offset len /\ zlen bytes = len
  | Err e => e = at_offset Error_io offset /\ (zlen data < offset + len \/ ReadFailed ∈ reads)
  end.
Proof.
  intros Ho Hl Hmax. unfold read_exact_at.
  pose proof (read_exact_loop_spec _ len offset [] reads Ho Hmax (read_inv_start len offset reads Hl)) as H.
  destruct (read_exact_loop (read_exact_fuel len reads) len offset [] reads) as [[bytes|[e|]] reads'];
    simpl in H |- *; [exact H | destruct H as [[= ->] H]; auto | destruct H; discriminate].
Qed.

(** A slice that reaches past the end stops there. *)
Lemma slice_to_end a n m : 0 <= a -> 0 <= n <= m -> zlen data <= a + n -> slice data a n = slice data a m.
Proof.
  intros Ha Hn Hend. unfold slice. rewrite !take_ge; [reflexivity | |]; rewrite length_drop; unfold zlen in *; lia.
Qed.

Lemma read_up_to_loop_spec fuel len offset filled reads :
  0 <= offset -> offset + len <= u64_max -> read_inv fuel len offset filled reads ->
  match fst (read_up_to_loop fuel len offset filled reads) with
  | Ok bytes => bytes = slice data offset len
  | Err e => e = ReadError (at_offset Error_io offset) /\ ReadFailed ∈ reads
  end.
Proof.
  intros Ho Hmax. revert filled reads; induction fuel as [|fuel IH]; intros filled reads Hinv.
  { destruct Hinv as (_ & _ & H). lia. }
  pose proof Hinv as (Hf & Hle & _). pose proof (zlen_nonneg filled). cbn [read_up_to_loop].
  destruct (Z.leb_spec len (zlen filled)).
  - simpl. assert (zlen filled = len) as He by lia. now rewrite He in Hf.
  - unfold sbind, lift. rewrite checked_add_ok by (unfold usize_max, u64_max in *; lia). simpl.
    destruct (read_at (len - zlen filled) (offset + zlen filled) reads) as [[bytes| |] reads'] eqn:Hr.
    + destruct bytes as [|b bytes].
      * simpl. apply read_at_got in Hr as (_ & _ & Hend & _); [|lia|lia]. specialize (Hend eq_refl).
        rewrite Hf. apply slice_to_end; lia.
      * assert (read_inv fuel len offset (filled ++ b :: bytes) reads') as Hinv' by (eapply read_inv_got; eauto; lia || discriminate).
        specialize (IH _ _ Hinv'). destruct (fst _); [exact IH|]. destruct IH as [-> Hin]. split; [reflexivity|].
        eapply read_at_suffix; eauto.
    + pose proof (IH _ _ (read_inv_other _ _ _ _ _ _ _ _ Hinv Hr)) as IH'. destruct (fst _); [exact IH'|].
      destruct IH' as [-> Hin]. split; [reflexivity|]. eapply read_at_suffix; eauto.
    + simpl. split; [reflexivity|]. eapply read_at_failed; eauto.
Qed.

(** A read up to the end of the file: every byte there is of what was asked for. *)
Lemma read_up_to_at_spec len offset reads :
  0 <= offset -> 0 <= len -> offset + len <= u64_max ->
  match fst (read_up_to_at len offset reads) with
  | Ok bytes => bytes = slice data offset len
  | Err e => e = at_offset Error_io offset /\ ReadFailed ∈ reads
  end.
Proof.
  intros Ho Hl Hmax. unfold read_up_to_at.
  pose proof (read_up_to_loop_spec _ len offset [] reads Ho Hmax (read_inv_start len offset reads Hl)) as H.
  destruct (read_up_to_loop (read_exact_fuel len reads) len offset [] reads) as [[bytes|[e|]] reads'];
    simpl in H |- *; [exact H | destruct H as [[= ->] H]; auto | destruct H; discriminate].
Qed.

(** C26: an exact read retries short and interrupted reads until it has every
    byte: whatever the pattern, it returns exactly the bytes asked for, or an I/O
    error at the offset asked for, and that only when the file ends before them or
    a read fails for another reason. *)
Theorem read_exact_at_correct len offset reads :
  0 <= offset -> 0 <= len -> offset + len <= u64_max ->
  match fst (read_exact_at len offset reads) with
  | Ok bytes => bytes = slice data offset len /\ zlen bytes = len
  | Err e => e = at_offset Error_io offset /\ (zlen data < offset + len \/ ReadFailed ∈ reads)
  end.
Proof. apply read_exact_at_spec. Qed.
End Source.

Lemma read_exact_at_correct_witness :
  fst (read_exact_at [Byte.x61; Byte.x62; Byte.x63] 2 1 [ReadInterrupted; ReadShort 0; ReadFull])
  = Ok [Byte.x62; Byte.x63].
Proof.
  pose proof (read_exact_at_correct [Byte.x61; Byte.x62; Byte.x63] 2 1 [ReadInterrupted; ReadShort 0; ReadFull]
    ltac:(lia) ltac:(lia) ltac:(discriminate)) as H.
  destruct (fst (read_exact_at _ _ _ _)) as [bytes|e]; [destruct H as [-> _]; reflexivity|].
  destruct H as [_ [H|H]]; [vm_compute in H; discriminate|].
  repeat (apply elem_of_cons in H as [H|H]; [discriminate|]). inversion H.
Defined.
