(* ===== verification/Cache.v ===== *)
(** The page cache, [crates/drydb/src/cache.rs].

    A shard is a table of slots with a CLOCK ring.  The state threaded here is
    the memory the store's parts share ([Mem]: the budget and the page buffers,
    with their reference counts) and the shards.  What [HashMap] and [VecDeque]
    allocate is a parameter ([StdAlloc]); only the charges depend on it.

    This is the cache as one thread at a time uses it: the lock of a shard is
    released around [reserve] and [load], which are arguments, and the state
    they leave is the state the cache goes on with. *)

From Stdlib Require Import ZArith Lia.
From stdpp Require Import base list gmap.
From coqutil Require Import Byte.
From S2P Require Import Prelude Errors Format Budget Page.

#[local] Open Scope Z_scope.
#[local] Open Scope drydb_scope.

(** * Sums over a table *)

Section Sums.
Context `{FinMap K M} {V : Type} (g : V -> Z).

Definition msum (m : M V) : Z := map_fold (fun _ v acc => g v + acc) 0 m.

Lemma msum_empty : msum ∅ = 0.
Proof. apply map_fold_empty. Qed.

Lemma msum_delete m i v : m !! i = Some v -> msum m = g v + msum (delete i m).
Proof. intros Hi. unfold msum. apply (map_fold_delete_L (fun _ v acc => g v + acc)); [intros; lia | exact Hi]. Qed.

Lemma msum_insert_new m i v : m !! i = None -> msum (<[i := v]> m) = g v + msum m.
Proof. intros Hi. unfold msum. apply (map_fold_insert_L (fun _ v acc => g v + acc)); [intros; lia | exact Hi]. Qed.

Lemma msum_remove m i : msum (delete i m) = msum m - from_option g 0 (m !! i).
Proof.
  destruct (m !! i) as [v|] eqn:Hi; simpl; [rewrite (msum_delete m i v Hi); lia|].
  rewrite delete_id by exact Hi. lia.
Qed.

Lemma msum_insert m i v : msum (<[i := v]> m) = msum m - from_option g 0 (m !! i) + g v.
Proof.
  rewrite <- insert_delete_eq, msum_insert_new by apply lookup_delete_eq. rewrite msum_remove. lia.
Qed.

Lemma msum_nonneg m : (forall i v, m !! i = Some v -> 0 <= g v) -> 0 <= msum m.
Proof.
  induction m as [|i v m Hi IH] using map_ind; intros Hg; [rewrite msum_empty; lia|].
  rewrite msum_insert_new by exact Hi. pose proof (Hg i v (lookup_insert_eq _ _ _)).
  enough (0 <= msum m) by lia. apply IH. intros j w Hj. apply (Hg j w).
  rewrite lookup_insert_ne; [exact Hj | congruence].
Qed.

Lemma msum_ge m i v :
  (forall i v, m !! i = Some v -> 0 <= g v) -> m !! i = Some v -> g v <= msum m.
Proof.
  intros Hg Hi. rewrite (msum_delete m i v Hi). enough (0 <= msum (delete i m)) by lia.
  apply msum_nonneg. intros j w [_ Hj]%lookup_delete_Some. exact (Hg j w Hj).
Qed.
End Sums.

Lemma msum_ext `{FinMap K M} {V} (g h : V -> Z) (m : M V) : (forall v, g v = h v) -> msum g m = msum h m.
Proof.
  intros Hgh. induction m as [|i v m Hi IH] using map_ind; [now rewrite !msum_empty|].
  rewrite !msum_insert_new by exact Hi. now rewrite Hgh, IH.
Qed.

Lemma msum_fmap `{FinMap K M} {V W} (g : W -> Z) (f : V -> W) (m : M V) : msum g (f <$> m) = msum (fun v => g (f v)) m.
Proof. unfold msum. apply map_fold_fmap. Qed.


(** * Shared memory *)

(** A page buffer while any pin refers to it; its charge goes with the last. *)
Record Buffer : Set := mkBuffer { bf_charge : Charge; bf_refs : Z }.

Record Mem : Type := mkMem {
  m_budget : Budget;
  m_buffers : gmap positive Buffer;
}.

Definition set_budget (b : Budget) (m : Mem) : Mem := mkMem b (m_buffers m).

(** [PagePin::new], [clone] and [drop] of the counted reference. *)
Definition pin_alloc (b : positive) (charge : Charge) (m : Mem) : Mem :=
  mkMem (m_budget m) (<[b := mkBuffer charge 1]> (m_buffers m)).

Definition ref_clone (b : positive) (m : Mem) : Mem :=
  mkMem (m_budget m) (alter (fun bf => mkBuffer (bf_charge bf) (bf_refs bf + 1)) b (m_buffers m)).

Definition ref_drop (b : positive) (m : Mem) : Mem :=
  match m_buffers m !! b with
  | None => m
  | Some bf =>
      if bf_refs bf <=? 1
      then mkMem (Charge_drop (bf_charge bf) (m_budget m)) (delete b (m_buffers m))
      else mkMem (m_budget m) (<[b := mkBuffer (bf_charge bf) (bf_refs bf - 1)]> (m_buffers m))
  end.

Definition pin_clone (pin : PagePin) : Mem -> Mem := ref_clone (pin_buffer pin).
Definition pin_drop (pin : PagePin) : Mem -> Mem := ref_drop (pin_buffer pin).

(** The new capacity of a table or ring, from the old one and the length
    wanted. *)
Class StdAlloc : Type := {
  hm_insert : Z -> Z -> Z;
  hm_remove : Z -> Z -> Z;
  hm_shrink_to_fit : Z -> Z -> Z;
  vd_push_back : Z -> Z -> Z;
  vd_shrink_to : Z -> Z -> Z;
}.

(** * Shards *)

Inductive Slot : Type :=
| Ready (pin : PagePin) (bytes : Z) (referenced : bool)
| Loading.

Record ShardInner : Type := mkShard {
  sh_map : gmap Z Slot;
  sh_map_capacity : Z;
  sh_clock : list Z;
  sh_clock_capacity : Z;
  sh_resident : Z;
  sh_map_slots : Z;
  sh_pending_pushes : Z;
  sh_book : Bookkeeping;
}.

Definition ShardInner_default : ShardInner := mkShard ∅ 0 [] 0 0 0 0 None.

Definition MAX_SHARDS : Z := 1024.
Definition LOADING_SLOT_BYTES : Z := 128.
(** [size_of::<(u64, Slot)>()] on a 64-bit target. *)
Definition SLOT_BYTES : Z := 32.
Definition RING_MIN_CAPACITY : Z := 4.
Definition RESERVE_ATTEMPTS : nat := 8.

Section Shards.
Context {SA : StdAlloc}.

Definition map_insert (o : Z) (slot : Slot) (sh : ShardInner) : ShardInner :=
  let m := <[o := slot]> (sh_map sh) in
  mkShard m (hm_insert (sh_map_capacity sh) (Z.of_nat (size m))) (sh_clock sh) (sh_clock_capacity sh)
    (sh_resident sh) (sh_map_slots sh) (sh_pending_pushes sh) (sh_book sh).
Definition map_remove (o : Z) (sh : ShardInner) : ShardInner :=
  let m := delete o (sh_map sh) in
  mkShard m (hm_remove (sh_map_capacity sh) (Z.of_nat (size m))) (sh_clock sh) (sh_clock_capacity sh)
    (sh_resident sh) (sh_map_slots sh) (sh_pending_pushes sh) (sh_book sh).
(** [get_mut] followed by a change of the slot: the table itself stays. *)
Definition map_set (o : Z) (slot : Slot) (sh : ShardInner) : ShardInner :=
  mkShard (<[o := slot]> (sh_map sh)) (sh_map_capacity sh) (sh_clock sh) (sh_clock_capacity sh)
    (sh_resident sh) (sh_map_slots sh) (sh_pending_pushes sh) (sh_book sh).
Definition map_shrink (sh : ShardInner) : ShardInner :=
  let cap := hm_shrink_to_fit (sh_map_capacity sh) (Z.of_nat (size (sh_map sh))) in
  mkShard (sh_map sh) cap (sh_clock sh) (sh_clock_capacity sh) (sh_resident sh)
    (if negb (cap =? sh_map_capacity sh) then cap else sh_map_slots sh) (sh_pending_pushes sh) (sh_book sh).
Definition push_back (o : Z) (sh : ShardInner) : ShardInner :=
  let c := sh_clock sh ++ [o] in
  mkShard (sh_map sh) (sh_map_capacity sh) c (vd_push_back (sh_clock_capacity sh) (zlen c))
    (sh_resident sh) (sh_map_slots sh) (sh_pending_pushes sh) (sh_book sh).
Definition set_clock (c : list Z) (sh : ShardInner) : ShardInner :=
  mkShard (sh_map sh) (sh_map_capacity sh) c (sh_clock_capacity sh) (sh_resident sh)
    (sh_map_slots sh) (sh_pending_pushes sh) (sh_book sh).
Definition clock_shrink_to (keep : Z) (sh : ShardInner) : ShardInner :=
  mkShard (sh_map sh) (sh_map_capacity sh) (sh_clock sh) (vd_shrink_to (sh_clock_capacity sh) keep)
    (sh_resident sh) (sh_map_slots sh) (sh_pending_pushes sh) (sh_book sh).
Definition set_resident (n : Z) (sh : ShardInner) : ShardInner :=
  mkShard (sh_map sh) (sh_map_capacity sh) (sh_clock sh) (sh_clock_capacity sh) n
    (sh_map_slots sh) (sh_pending_pushes sh) (sh_book sh).
Definition set_pending_pushes (n : Z) (sh : ShardInner) : ShardInner :=
  mkShard (sh_map sh) (sh_map_capacity sh) (sh_clock sh) (sh_clock_capacity sh) (sh_resident sh)
    (sh_map_slots sh) n (sh_book sh).
Definition set_book (k : Bookkeeping) (sh : ShardInner) : ShardInner :=
  mkShard (sh_map sh) (sh_map_capacity sh) (sh_clock sh) (sh_clock_capacity sh) (sh_resident sh)
    (sh_map_slots sh) (sh_pending_pushes sh) k.

Definition note_table (sh : ShardInner) : ShardInner :=
  mkShard (sh_map sh) (sh_map_capacity sh) (sh_clock sh) (sh_clock_capacity sh) (sh_resident sh)
    (Z.max (sh_map_slots sh) (sh_map_capacity sh)) (sh_pending_pushes sh) (sh_book sh).

(** ** What a shard costs *)

Definition ring_bytes (capacity : Z) : Z := capacity * 8.

(** [while grown < entries { grown = max(2 * grown, 4) }]: doubling, so as many
    rounds as a [usize] has bits. *)
Fixpoint grow_ring (fuel : nat) (grown entries : Z) : Z :=
  match fuel with
  | O => grown
  | S fuel =>
      if grown <? entries then grow_ring fuel (Z.max (saturating_mul grown 2) RING_MIN_CAPACITY) entries
      else grown
  end.

Definition ring_target_bytes (capacity entries : Z) : Z :=
  if entries <=? capacity then ring_bytes capacity
  else
    let grown := grow_ring 65 capacity entries in
    ring_bytes grown + ring_bytes (grown / 2).

Definition bookkeeping_footprint (sh : ShardInner) : Z :=
  hash_table_bytes (sh_map_slots sh) SLOT_BYTES
  + ring_target_bytes (sh_clock_capacity sh) (saturating_add (zlen (sh_clock sh)) (sh_pending_pushes sh)).

Definition growth_for_one_more (sh : ShardInner) : Z :=
  let map_want := hash_table_peak_bytes (sh_map_slots sh) (sh_map_capacity sh)
                    (Z.of_nat (size (sh_map sh))) SLOT_BYTES in
  let ring_want := ring_target_bytes (sh_clock_capacity sh)
                     (saturating_add (saturating_add (zlen (sh_clock sh)) (sh_pending_pushes sh)) 1) in
  Z.max 0 (saturating_add map_want ring_want - Bookkeeping_bytes (sh_book sh)).

(** [inner.book.settle(want, budget)] *)
Definition book_settle (want : Z) : SM (Mem * ShardInner) Error unit := fun s =>
  match Bookkeeping_settle want (m_budget (fst s), sh_book (snd s)) with
  | (r, (b, k)) => (r, (set_budget b (fst s), set_book k (snd s)))
  end.

Definition settle_bookkeeping : SM (Mem * ShardInner) Error unit := fun s =>
  book_settle (bookkeeping_footprint (snd s)) s.

Definition release_bookkeeping (s : Mem * ShardInner) : Mem * ShardInner :=
  let s :=
    let sh := snd s in
    if 2 * Z.of_nat (size (sh_map sh)) <? sh_map_slots sh then
      let during := bookkeeping_footprint sh + hash_table_bytes (Z.of_nat (size (sh_map sh))) SLOT_BYTES in
      match book_settle during s with
      | (Ok _, (m, sh)) => (m, map_shrink sh)
      | (Err _, s) => s
      end
    else s in
  let s :=
    let sh := snd s in
    let keep := saturating_add (zlen (sh_clock sh)) (sh_pending_pushes sh) in
    if 2 * keep <? sh_clock_capacity sh then
      let after := ring_bytes (next_power_of_two (Z.max keep 4)) in
      let during := bookkeeping_footprint sh + after in
      match book_settle during s with
      | (Ok _, (m, sh)) => (m, clock_shrink_to keep sh)
      | (Err _, s) => s
      end
    else s in
  snd (settle_bookkeeping s).

(** ** Eviction *)

Fixpoint evict_steps (steps : nat) (s : Mem * ShardInner) : option Z * (Mem * ShardInner) :=
  match steps with
  | O => (None, s)
  | S steps =>
      let '(m, sh) := s in
      match sh_clock sh with
      | [] => (None, s)
      | ordinal :: clock =>
          let sh := set_clock clock sh in
          match sh_map sh !! ordinal with
          | Some (Ready pin bytes referenced) =>
              if referenced then
                evict_steps steps (m, push_back ordinal (map_set ordinal (Ready pin bytes false) sh))
              else
                let sh := map_remove ordinal sh in
                let m := pin_drop pin m in
                let sh := set_resident (Z.max 0 (sh_resident sh - bytes)) sh in
                (Some bytes, release_bookkeeping (m, sh))
          | _ => evict_steps steps (m, sh)
          end
      end
  end.

Definition evict_one (s : Mem * ShardInner) : option Z * (Mem * ShardInner) :=
  evict_steps (Z.to_nat (saturating_add (saturating_mul (zlen (sh_clock (snd s))) 2) 1)) s.

(** [while inner.resident > capacity { if evict_one(..).is_none() { break } }]:
    every round but the last takes a page out of the map. *)
Fixpoint evict_down (fuel : nat) (capacity_per_shard : Z) (s : Mem * ShardInner) : Mem * ShardInner :=
  match fuel with
  | O => s
  | S fuel =>
      if capacity_per_shard <? sh_resident (snd s) then
        match evict_one s with
        | (Some _, s) => evict_down fuel capacity_per_shard s
        | (None, s) => s
        end
      else s
  end.

Definition evict_down_to_capacity (capacity_per_shard : Z) (s : Mem * ShardInner) : Mem * ShardInner :=
  evict_down (S (size (sh_map (snd s)))) capacity_per_shard s.

(** [while settle_bookkeeping(..).is_err() { if evict_one(..).is_none() { break } }] *)
Fixpoint settle_or_evict (fuel : nat) (s : Mem * ShardInner) : Mem * ShardInner :=
  match fuel with
  | O => s
  | S fuel =>
      match settle_bookkeeping s with
      | (Ok _, s) => s
      | (Err _, s) =>
          match evict_one s with
          | (Some _, s) => settle_or_evict fuel s
          | (None, s) => s
          end
      end
  end.

(** ** The critical sections of [get_or_load] *)

(** What one pass of the loop under the lock comes to. *)
Inductive Seen : Type :=
| Hit (pin : PagePin)
| InFlightElsewhere
| Reserve (want : Z) (attempts : nat)
| Marked
| Refused (e : Error).

Definition touch (o : Z) (s : Mem * ShardInner) : option PagePin * (Mem * ShardInner) :=
  match sh_map (snd s) !! o with
  | Some (Ready pin bytes _) => (Some pin, (pin_clone pin (fst s), map_set o (Ready pin bytes true) (snd s)))
  | _ => (None, s)
  end.

Definition book_absorb (charge : Charge) (s : Mem * ShardInner) : Mem * ShardInner :=
  match Bookkeeping_absorb charge (m_budget (fst s), sh_book (snd s)) with
  | (b, k) => (set_budget b (fst s), set_book k (snd s))
  end.

Definition charge_release (charge : Charge) (m : Mem) : Mem := set_budget (Charge_drop charge (m_budget m)) m.

Definition option_release (charge : option Charge) (m : Mem) : Mem :=
  match charge with Some c => charge_release c m | None => m end.

(** The [None] arms: without a charge the caller is told what to reserve; with
    one too small it is given back and asked for again. *)
Definition mark_loading (o : Z) (charge : option Charge) (attempts : nat) (s : Mem * ShardInner)
    : Seen * (Mem * ShardInner) :=
  let '(m, sh) := s in
  let needed := growth_for_one_more sh in
  match charge with
  | None => (Reserve (LOADING_SLOT_BYTES + needed) attempts, s)
  | Some c =>
      if ch_bytes c <? needed then
        let m := charge_release c m in
        let attempts := S attempts in
        if bool_decide (RESERVE_ATTEMPTS < attempts)%nat then
          (Refused (Error_of_budget (mkBudgetInfo needed (in_use (m_budget m)) (b_limit (m_budget m)) true)), (m, sh))
        else (Reserve (LOADING_SLOT_BYTES + needed) attempts, (m, sh))
      else
        let sh := note_table (map_insert o Loading sh) in
        let sh := set_pending_pushes (sh_pending_pushes sh + 1) sh in
        let s := book_absorb c (m, sh) in
        (Marked, snd (settle_bookkeeping s))
  end.

Definition cache_enter (o : Z) (charge : option Charge) (attempts : nat) (s : Mem * ShardInner)
    : Seen * (Mem * ShardInner) :=
  match sh_map (snd s) !! o with
  | Some (Ready _ _ _) =>
      match touch o s with
      | (Some pin, (m, sh)) => (Hit pin, (option_release charge m, sh))
      | (None, s) => (InFlightElsewhere, s)
      end
  | Some Loading => (InFlightElsewhere, s)
  | None => mark_loading o charge attempts s
  end.

(** The marker goes, with the ring push it had been promised; also what
    [InFlight] does when the load unwinds. *)
Definition unmark (o : Z) (s : Mem * ShardInner) : Mem * ShardInner :=
  let sh := map_remove o (snd s) in
  (fst s, set_pending_pushes (Z.max 0 (sh_pending_pushes sh - 1)) sh).

Definition InFlight_drop (o : Z) (s : Mem * ShardInner) : Mem * ShardInner := release_bookkeeping (unmark o s).

Definition insert_ready (o : Z) (pin : PagePin) (bytes : Z) (s : Mem * ShardInner) : Mem * ShardInner :=
  let '(m, sh) := s in
  let sh := set_resident (sh_resident sh + bytes) sh in
  let sh := map_insert o (Ready pin bytes true) sh in
  (pin_clone pin m, note_table (push_back o sh)).

Definition remove_ready (o : Z) (s : Mem * ShardInner) : Mem * ShardInner :=
  let '(m, sh) := s in
  match sh_map sh !! o with
  | Some (Ready pin bytes _) =>
      (pin_drop pin m, set_resident (Z.max 0 (sh_resident sh - bytes)) (map_remove o sh))
  | Some Loading => (m, map_remove o sh)
  | None => s
  end.

Definition publish (capacity_per_shard o : Z) (pin : PagePin) (bytes : Z) (s : Mem * ShardInner)
    : Mem * ShardInner :=
  let s := evict_down_to_capacity capacity_per_shard (insert_ready o pin bytes (unmark o s)) in
  let s := settle_or_evict (S (size (sh_map (snd s)))) s in
  match settle_bookkeeping s with
  | (Ok _, s) => s
  | (Err _, s) => release_bookkeeping (remove_ready o s)
  end.
End Shards.

(** * The cache *)

Record PageCache : Type := mkPageCache {
  pc_shards : list ShardInner;
  pc_capacity_per_shard : Z;
  pc_capacity : Z;
  pc_next_victim_shard : Z;
}.

Definition shard_count (requested : Z) : Z := next_power_of_two (Z.min (Z.max requested 1) MAX_SHARDS).

Definition PageCache_new (capacity shards : Z) : PageCache :=
  let shards := shard_count shards in
  mkPageCache (replicate (Z.to_nat shards) ShardInner_default) (Z.max (capacity / shards) 1) capacity 0.

Definition shard_index (shards ordinal : Z) : nat :=
  let mixed := Z.shiftr (wrap 64 (ordinal * 0x9E3779B97F4A7C15)) 32 in
  Z.to_nat (Z.land mixed (shards - 1)).

Definition set_shards (shards : list ShardInner) (c : PageCache) : PageCache :=
  mkPageCache shards (pc_capacity_per_shard c) (pc_capacity c) (pc_next_victim_shard c).

(** One critical section of shard [i]. *)
Definition with_shard {A} (i : nat) (f : Mem * ShardInner -> A * (Mem * ShardInner)) (s : Mem * PageCache)
    : A * (Mem * PageCache) :=
  let '(m, c) := s in
  let '(a, (m, sh)) := f (m, default ShardInner_default (pc_shards c !! i)) in
  (a, (m, set_shards (<[i := sh]> (pc_shards c)) c)).

Definition shard_of (c : PageCache) (o : Z) : nat := shard_index (zlen (pc_shards c)) o.

Arguments shard_index : simpl never.
Arguments shard_of : simpl never.

Definition slot_ready (slot : Slot) : bool := match slot with Ready _ _ _ => true | Loading => false end.

(** [values().filter(..).count()] *)
Definition ready_count (m : gmap Z Slot) : Z := msum (fun slot => if slot_ready slot then 1 else 0) m.
Definition shard_len (sh : ShardInner) : Z := ready_count (sh_map sh).

Definition resident_bytes (c : PageCache) : Z := zsum (sh_resident <$> pc_shards c).
Definition cache_len (c : PageCache) : Z := zsum (shard_len <$> pc_shards c).

Definition cache_get {SA : StdAlloc} (o : Z) (s : Mem * PageCache) : option PagePin * (Mem * PageCache) :=
  with_shard (shard_of (snd s) o) (touch o) s.

(** [while released < target && idle_shards < shard_count].  Every round takes
    a page out of a shard or adds one to [idle_shards]. *)
Fixpoint evict_bytes_loop {SA : StdAlloc} (fuel : nat) (target start : Z) (released idle_shards cursor : Z)
    (s : Mem * PageCache) : Z * (Mem * PageCache) :=
  match fuel with
  | O => (released, s)
  | S fuel =>
      let shard_count := zlen (pc_shards (snd s)) in
      if (released <? target) && (idle_shards <? shard_count) then
        match with_shard (Z.to_nat ((start + cursor) mod shard_count)) evict_one s with
        | (Some bytes, s) => evict_bytes_loop fuel target start (released + bytes) 0 (cursor + 1) s
        | (None, s) => evict_bytes_loop fuel target start released (idle_shards + 1) (cursor + 1) s
        end
      else (released, s)
  end.

Definition evict_rounds (c : PageCache) : nat :=
  (S (Z.to_nat (cache_len c)) * S (length (pc_shards c)))%nat.

Definition evict_bytes {SA : StdAlloc} (target : Z) (s : Mem * PageCache) : Z * (Mem * PageCache) :=
  let '(m, c) := s in
  let start := pc_next_victim_shard c in
  let c := mkPageCache (pc_shards c) (pc_capacity_per_shard c) (pc_capacity c) (wrap 64 (start + 1)) in
  evict_bytes_loop (evict_rounds c) target start 0 0 0 (m, c).

(** * Loading through the cache *)

(** Why an operation does not return: it failed, it would wait for another
    thread's load, or the model ran out of fuel. *)
Inductive Stop : Type :=
| Failed (e : Error)
| Blocked
| OutOfFuel.

Section Load.
Context {SA : StdAlloc} {T : Type} (get_cache : T -> Mem * PageCache) (put_cache : Mem * PageCache -> T -> T).

Definition on_cache {A} (f : Mem * PageCache -> A * (Mem * PageCache)) (t : T) : A * T :=
  let '(a, mc) := f (get_cache t) in (a, put_cache mc t).

Definition on_shard_of {A} (o : Z) (f : Mem * ShardInner -> A * (Mem * ShardInner)) : T -> A * T :=
  on_cache (fun mc => with_shard (shard_of (snd mc) o) f mc).

Definition state_only {S} (f : S -> S) (s : S) : unit * S := (tt, f s).

(** [get_or_load]: one pass under the lock per round.  A charge too small is
    asked for at most [RESERVE_ATTEMPTS] times, so twelve rounds are enough. *)
Fixpoint get_or_load_loop (fuel : nat) (o : Z) (reserve : Z -> SM T Stop Charge) (load : SM T Stop (PagePin * Z))
    (charge : option Charge) (attempts : nat) : SM T Stop PagePin := fun t =>
  match fuel with
  | O => (Err OutOfFuel, t)
  | S fuel =>
      match on_shard_of o (cache_enter o charge attempts) t with
      | (Hit pin, t) => (Ok pin, t)
      | (InFlightElsewhere, t) => (Err Blocked, t)
      | (Refused e, t) => (Err (Failed e), t)
      | (Reserve want attempts, t) =>
          match reserve want t with
          | (Ok c, t) => get_or_load_loop fuel o reserve load (Some c) attempts t
          | (Err stop, t) => (Err stop, t)
          end
      | (Marked, t) =>
          match load t with
          | (Ok (pin, bytes), t) =>
              let cap := pc_capacity_per_shard (snd (get_cache t)) in
              let '(_, t) := on_shard_of o (state_only (publish cap o pin bytes)) t in (Ok pin, t)
          | (Err stop, t) => let '(_, t) := on_shard_of o (state_only (InFlight_drop o)) t in (Err stop, t)
          end
      end
  end.

Lemma get_or_load_loop_S fuel o reserve load charge attempts t :
  get_or_load_loop (S fuel) o reserve load charge attempts t =
      match on_shard_of o (cache_enter o charge attempts) t with
      | (Hit pin, t) => (Ok pin, t)
      | (InFlightElsewhere, t) => (Err Blocked, t)
      | (Refused e, t) => (Err (Failed e), t)
      | (Reserve want attempts, t) =>
          match reserve want t with
          | (Ok c, t) => get_or_load_loop fuel o reserve load (Some c) attempts t
          | (Err stop, t) => (Err stop, t)
          end
      | (Marked, t) =>
          match load t with
          | (Ok (pin, bytes), t) =>
              let cap := pc_capacity_per_shard (snd (get_cache t)) in
              let '(_, t) := on_shard_of o (state_only (publish cap o pin bytes)) t in (Ok pin, t)
          | (Err stop, t) => let '(_, t) := on_shard_of o (state_only (InFlight_drop o)) t in (Err stop, t)
          end
      end.
Proof. reflexivity. Qed.

Definition get_or_load (o : Z) (reserve : Z -> SM T Stop Charge) (load : SM T Stop (PagePin * Z)) : SM T Stop PagePin :=
  get_or_load_loop 12 o reserve load None 0.
End Load.
