(* ===== verification/CacheFacts.v ===== *)
(** What the page cache keeps true.

    The shards of [Cache.v]: their invariant, what each critical section does
    to it, and that eviction always finds a page while there is one.  [pages]
    is what a shard holds, up to the second chances of CLOCK; every operation
    is stated on it.  The second half accounts for the memory: every byte the
    budget counts belongs to a live page buffer, to a shard's tables or to
    somebody else. *)

From Stdlib Require Import ZArith Lia.
From stdpp Require Import base list gmap.
From coqutil Require Import Byte.
From S2P Require Import Prelude Errors Format Budget Page Cache.

#[local] Open Scope Z_scope.
#[local] Open Scope drydb_scope.

(** * What a shard keeps true *)

Definition slot_bytes (slot : Slot) : Z := match slot with Ready _ bytes _ => bytes | Loading => 0 end.
Definition slot_loads (slot : Slot) : Z := match slot with Ready _ _ _ => 0 | Loading => 1 end.

(** The pages a shard holds, whatever their second chances. *)
Definition unref (slot : Slot) : Slot :=
  match slot with Ready pin bytes _ => Ready pin bytes false | Loading => Loading end.
Definition pages (sh : ShardInner) : gmap Z Slot := unref <$> sh_map sh.

(** Every page is on the ring, so the ring can reach it; [resident] is the
    bytes of the pages; one push is promised for each load in flight; a page
    costs something. *)
Record shard_inv (sh : ShardInner) : Prop := {
  si_ring : forall o pin bytes, pages sh !! o = Some (Ready pin bytes false) -> o ∈ sh_clock sh;
  si_resident : sh_resident sh = msum slot_bytes (pages sh);
  si_pending : sh_pending_pushes sh = msum slot_loads (pages sh);
  si_bytes : forall o pin bytes, pages sh !! o = Some (Ready pin bytes false) -> 0 < bytes;
}.

(** What the bookkeeping leaves alone. *)
Definition same_slots (sh sh' : ShardInner) : Prop :=
  sh_map sh' = sh_map sh /\ sh_clock sh' = sh_clock sh /\
  sh_resident sh' = sh_resident sh /\ sh_pending_pushes sh' = sh_pending_pushes sh.

Lemma shard_inv_same sh sh' : same_slots sh sh' -> shard_inv sh -> shard_inv sh'.
Proof.
  intros (Hm & Hc & Hr & Hp) [H1 H2 H3 H4]. unfold pages in *.
  split; unfold pages; rewrite ?Hm, ?Hc, ?Hr, ?Hp; assumption.
Qed.

Lemma same_slots_pages sh sh' : same_slots sh sh' -> pages sh' = pages sh.
Proof. intros (Hm & _). unfold pages. now rewrite Hm. Qed.

Lemma same_slots_refl sh : same_slots sh sh.
Proof. repeat split. Qed.

Lemma same_slots_trans a b c : same_slots a b -> same_slots b c -> same_slots a c.
Proof. unfold same_slots. intuition congruence. Qed.

#[local] Instance same_slots_preorder : PreOrder same_slots.
Proof. split; [exact same_slots_refl | exact same_slots_trans]. Qed.

Lemma pages_lookup sh o :
  pages sh !! o = unref <$> sh_map sh !! o.
Proof. unfold pages. apply lookup_fmap. Qed.

Lemma pages_ready sh o pin bytes r :
  sh_map sh !! o = Some (Ready pin bytes r) -> pages sh !! o = Some (Ready pin bytes false).
Proof. intros H. now rewrite pages_lookup, H. Qed.

Lemma pages_ready_inv sh o pin bytes r :
  pages sh !! o = Some (Ready pin bytes r) -> exists r', sh_map sh !! o = Some (Ready pin bytes r').
Proof.
  rewrite pages_lookup. destruct (sh_map sh !! o) as [[p b r'|]|]; simpl; try discriminate.
  intros [= -> -> _]. eauto.
Qed.

Lemma pages_loading sh o : pages sh !! o = Some Loading <-> sh_map sh !! o = Some Loading.
Proof. rewrite pages_lookup. destruct (sh_map sh !! o) as [[]|]; simpl; intuition congruence. Qed.

Lemma pages_absent sh o : pages sh !! o = None <-> sh_map sh !! o = None.
Proof. rewrite pages_lookup. destruct (sh_map sh !! o) as [[]|]; simpl; intuition congruence. Qed.

Lemma pages_false sh o pin bytes : pages sh !! o <> Some (Ready pin bytes true).
Proof. rewrite pages_lookup. destruct (sh_map sh !! o) as [[]|]; simpl; congruence. Qed.

Lemma slot_bytes_nonneg sh o slot : shard_inv sh -> pages sh !! o = Some slot -> 0 <= slot_bytes slot.
Proof.
  intros Hi Ho. destruct slot as [pin bytes []|]; simpl; [now apply pages_false in Ho| |lia].
  pose proof (si_bytes _ Hi _ _ _ Ho). lia.
Qed.

Lemma slot_loads_nonneg slot : 0 <= slot_loads slot.
Proof. destruct slot; simpl; lia. Qed.

Section ShardFacts.
Context {SA : StdAlloc}.

Lemma book_settle_same want s : same_slots (snd s) (snd (snd (book_settle want s))).
Proof. unfold book_settle. destruct (Bookkeeping_settle _ _) as [r [b k]]. repeat split. Qed.

Lemma settle_bookkeeping_same s : same_slots (snd s) (snd (snd (settle_bookkeeping s))).
Proof. apply book_settle_same. Qed.

Lemma note_table_same sh : same_slots sh (note_table sh).
Proof. repeat split. Qed.

Lemma release_bookkeeping_same s : same_slots (snd s) (snd (release_bookkeeping s)).
Proof.
  unfold release_bookkeeping. etransitivity; [|apply settle_bookkeeping_same].
  set (a := if _ <? sh_map_slots _ then _ else _). assert (same_slots (snd s) (snd a)) as Ha.
  { unfold a. destruct (_ <? _); [|reflexivity].
    match goal with |- context [book_settle ?w s] => pose proof (book_settle_same w s) as Hb;
      destruct (book_settle w s) as [[u|e] [m sh]] end; [|exact Hb].
    etransitivity; [exact Hb | repeat split]. }
  clearbody a. etransitivity; [exact Ha|]. clear Ha. destruct (_ <? _); [|reflexivity].
  match goal with |- context [book_settle ?w a] => pose proof (book_settle_same w a) as Hb;
    destruct (book_settle w a) as [[u|e] [m sh]] end; [|exact Hb].
  etransitivity; [exact Hb | repeat split].
Qed.

Lemma same_slots_lookup sh sh' o : pages sh' = pages sh -> sh_map sh' !! o = None <-> sh_map sh !! o = None.
Proof. intros H. rewrite <- !pages_absent. now rewrite H. Qed.

(** ** Eviction *)

Lemma shard_inv_pop sh o c :
  shard_inv sh -> sh_clock sh = o :: c -> (forall pin bytes, pages sh !! o <> Some (Ready pin bytes false)) ->
  shard_inv (set_clock c sh).
Proof.
  intros Hi Hc Hno. destruct Hi as [H1 H2 H3 H4]. split; try assumption. intros o' pin bytes Ho.
  pose proof (H1 _ _ _ Ho) as Hin. rewrite Hc in Hin. apply elem_of_cons in Hin as [->|Hin]; [|exact Hin].
  now destruct (Hno pin bytes).
Qed.

Lemma pages_set_ref sh o pin bytes r r' :
  sh_map sh !! o = Some (Ready pin bytes r) -> pages (map_set o (Ready pin bytes r') sh) = pages sh.
Proof.
  intros Ho. unfold pages, map_set; simpl. rewrite fmap_insert. simpl. apply insert_id.
  now rewrite lookup_fmap, Ho.
Qed.

Lemma shard_inv_rotate sh o c pin bytes :
  shard_inv sh -> sh_clock sh = o :: c -> sh_map sh !! o = Some (Ready pin bytes true) ->
  let sh' := push_back o (map_set o (Ready pin bytes false) (set_clock c sh)) in
  shard_inv sh' /\ pages sh' = pages sh.
Proof.
  intros Hi Hc Ho sh'. assert (pages sh' = pages sh) as Hp.
  { apply (pages_set_ref (set_clock c sh) o pin bytes true false Ho). }
  split; [|exact Hp]. destruct Hi as [H1 H2 H3 H4].
  split; rewrite ?Hp; [|exact H2 | exact H3 | exact H4].
  intros o' pin' bytes' Ho'. simpl. pose proof (H1 _ _ _ Ho') as Hin. rewrite Hc in Hin.
  rewrite elem_of_app, list_elem_of_singleton. apply elem_of_cons in Hin. tauto.
Qed.

Lemma pages_map_remove sh o : pages (map_remove o sh) = delete o (pages sh).
Proof. unfold pages, map_remove; simpl. apply fmap_delete. Qed.

Lemma shard_inv_drop_page sh o pin bytes c :
  shard_inv sh -> pages sh !! o = Some (Ready pin bytes false) ->
  (forall o', o' <> o -> o' ∈ sh_clock sh -> o' ∈ c) ->
  let sh' := set_resident (Z.max 0 (sh_resident sh - bytes)) (map_remove o (set_clock c sh)) in
  shard_inv sh' /\ pages sh' = delete o (pages sh).
Proof.
  intros Hi Ho Hc sh'. assert (pages sh' = delete o (pages sh)) as Hp by exact (pages_map_remove (set_clock c sh) o).
  split; [|exact Hp]. pose proof (msum_delete slot_bytes _ _ _ Ho) as Hsum. simpl in Hsum.
  assert (0 <= msum slot_bytes (delete o (pages sh))) as Hnn.
  { apply msum_nonneg. intros i v [_ Hv]%lookup_delete_Some. exact (slot_bytes_nonneg sh i v Hi Hv). }
  destruct Hi as [H1 H2 H3 H4]. split; rewrite ?Hp.
  - intros o' pin' bytes' [Hne Ho']%lookup_delete_Some. simpl. apply Hc; [congruence|]. exact (H1 _ _ _ Ho').
  - simpl. rewrite H2. lia.
  - simpl. rewrite H3, (msum_delete slot_loads _ _ _ Ho). reflexivity.
  - intros o' pin' bytes' [_ Ho']%lookup_delete_Some. exact (H4 _ _ _ Ho').
Qed.

Definition slot_referenced (slot : Slot) : Prop := match slot with Ready _ _ r => r = true | Loading => False end.
#[local] Instance slot_referenced_dec slot : Decision (slot_referenced slot).
Proof. destruct slot; simpl; apply _. Defined.

(** The pages that have a second chance left. *)
Definition chances (sh : ShardInner) : nat := size (filter (fun e => slot_referenced (snd e)) (sh_map sh)).

Lemma chances_le_clock sh : shard_inv sh -> (chances sh <= length (sh_clock sh))%nat.
Proof.
  intros Hi. unfold chances. rewrite <- (size_dom (D := gset Z)).
  apply submseteq_length, NoDup_submseteq; [apply NoDup_elements|].
  intros o [slot Ho]%elem_of_elements%elem_of_dom.
  apply map_lookup_filter_Some in Ho as [Ho Href].
  destruct slot as [pin bytes r|]; [|destruct Href].
  apply (si_ring _ Hi o pin bytes). now apply pages_ready in Ho.
Qed.

Lemma chances_used sh o pin bytes c :
  sh_map sh !! o = Some (Ready pin bytes true) ->
  chances sh = S (chances (push_back o (map_set o (Ready pin bytes false) (set_clock c sh)))).
Proof.
  intros Ho. unfold chances; simpl.
  rewrite map_filter_insert_False by (simpl; congruence). rewrite map_filter_delete.
  rewrite map_size_delete. rewrite (map_lookup_filter_Some_2 _ _ _ (Ready pin bytes true)) by (simpl; auto).
  enough (0 < size (filter (fun e => slot_referenced (snd e)) (sh_map sh)))%nat by lia.
  apply Nat.neq_0_lt_0. intros Hz%map_size_empty_inv.
  assert (filter (fun e => slot_referenced (snd e)) (sh_map sh) !! o = Some (Ready pin bytes true)) as Hl
    by now apply map_lookup_filter_Some_2.
  rewrite Hz in Hl. now rewrite lookup_empty in Hl.
Qed.

(** The page one eviction takes out. *)
Definition evicted (bytes : Z) (sh sh' : ShardInner) : Prop :=
  exists o pin, pages sh !! o = Some (Ready pin bytes false) /\ pages sh' = delete o (pages sh).

Lemma evict_steps_spec n m sh :
  shard_inv sh ->
  match evict_steps n (m, sh) with
  | (r, (_, sh')) =>
      shard_inv sh' /\ (length (sh_clock sh') <= length (sh_clock sh))%nat /\
      match r with
      | Some bytes => evicted bytes sh sh'
      | None => pages sh' = pages sh /\ ((length (sh_clock sh) + chances sh <= n)%nat -> sh_clock sh' = [])
      end
  end.
Proof.
  revert sh. induction n as [|n IH]; intros sh Hi; cbn [evict_steps].
  { split; [exact Hi|]. split; [reflexivity|]. split; [reflexivity|]. intros Hle. destruct (sh_clock sh); simpl in *; [reflexivity | lia]. }
  destruct (sh_clock sh) as [|o c] eqn:Hc; [rewrite Hc; auto|].
  assert (match evict_steps n (m, set_clock c sh) with
          | (r, (_, sh')) => (forall pin bytes, pages sh !! o <> Some (Ready pin bytes false)) ->
              shard_inv sh' /\ (length (sh_clock sh') <= length (o :: c))%nat /\
              match r with
              | Some bytes => evicted bytes sh sh'
              | None => pages sh' = pages sh /\ ((length (o :: c) + chances sh <= S n)%nat -> sh_clock sh' = [])
              end end) as Hstale.
  { specialize (IH (set_clock c sh)). destruct (evict_steps n _) as [r [m' sh']]. intros Hno.
    destruct (IH (shard_inv_pop _ _ _ Hi Hc Hno)) as (Hi' & Hlen & Hr). split; [exact Hi'|].
    simpl in *. split; [lia|].
    destruct r; [exact Hr|]. destruct Hr as [Hp Hl]. split; [exact Hp|]. intros Hle. apply Hl.
    unfold chances in *; simpl in *. lia. }
  cbn [set_clock sh_map] in *. destruct (sh_map sh !! o) as [[pin bytes r|]|] eqn:Ho.
  - destruct r.
    + destruct (shard_inv_rotate sh o c pin bytes Hi Hc Ho) as [Hi' Hp].
      pose proof (chances_used sh o pin bytes c Ho) as Hch. specialize (IH _ Hi').
      destruct (evict_steps n _) as [r [m' sh']]. destruct IH as (Hi'' & Hlen & Hr). split; [exact Hi''|].
      simpl in Hlen. rewrite length_app in Hlen. simpl in Hlen. split; [simpl; lia|].
      unfold evicted in *. rewrite Hp in Hr. destruct r; [exact Hr|]. destruct Hr as [Hp' Hl].
      split; [exact Hp'|]. intros Hle. apply Hl. simpl in *. rewrite length_app. simpl. lia.
    + pose proof (pages_ready _ _ _ _ _ Ho) as Hpo.
      destruct (shard_inv_drop_page sh o pin bytes c Hi Hpo) as [Hi' Hp].
      { intros o' Hne Hin. rewrite Hc in Hin. apply elem_of_cons in Hin. tauto. }
      cbv zeta in *. simpl in Hi', Hp |- *.
      match goal with |- context [release_bookkeeping ?a] => pose proof (release_bookkeeping_same a) as Hs;
        destruct (release_bookkeeping a) as [m' sh'] end.
      simpl in Hs. split; [exact (shard_inv_same _ _ Hs Hi')|].
      split; [destruct Hs as (_ & -> & _); simpl; lia|]. exists o, pin. split; [exact Hpo|].
      rewrite (same_slots_pages _ _ Hs). exact Hp.
  - destruct (evict_steps n _) as [r [m' sh']]. apply Hstale. intros pin bytes H.
    apply pages_ready_inv in H as [? H]. congruence.
  - destruct (evict_steps n _) as [r [m' sh']]. apply Hstale. intros pin bytes H.
    apply pages_ready_inv in H as [? H]. congruence.
Qed.

(** Short enough that doubling the length of the ring does not overflow. *)
Definition ring_small (sh : ShardInner) : Prop := zlen (sh_clock sh) < 2 ^ 62.

Lemma ready_count_pages sh : ready_count (pages sh) = shard_len sh.
Proof.
  unfold shard_len, ready_count, pages. rewrite msum_fmap. apply msum_ext. now intros [].
Qed.

Lemma no_ready_count m :
  (forall o pin bytes r, m !! o <> Some (Ready pin bytes r)) -> ready_count m = 0.
Proof.
  unfold ready_count. induction m as [|o slot m Ho IH] using map_ind; intros Hno; [apply msum_empty|].
  rewrite msum_insert_new by exact Ho. rewrite IH.
  - destruct slot as [pin bytes r|]; [|reflexivity].
    now destruct (Hno o pin bytes r); rewrite lookup_insert_eq.
  - intros o' pin bytes r Hm. apply (Hno o' pin bytes r). rewrite lookup_insert_ne; congruence.
Qed.

Lemma evict_one_spec m sh :
  shard_inv sh ->
  match evict_one (m, sh) with
  | (r, (_, sh')) =>
      shard_inv sh' /\ (length (sh_clock sh') <= length (sh_clock sh))%nat /\
      match r with
      | Some bytes => evicted bytes sh sh'
      | None => pages sh' = pages sh /\ (ring_small sh -> shard_len sh' = 0)
      end
  end.
Proof.
  intros Hi. unfold evict_one. simpl. set (n := Z.to_nat _).
  pose proof (evict_steps_spec n m sh Hi) as H. destruct (evict_steps n (m, sh)) as [r [m' sh']].
  destruct H as (Hi' & Hlen & Hr). split; [exact Hi'|]. split; [exact Hlen|]. destruct r; [exact Hr|].
  destruct Hr as [Hp Hn]. split; [exact Hp|]. intros Hs.
  assert (sh_clock sh' = []) as Hnil.
  { apply Hn. pose proof (chances_le_clock sh Hi). unfold n, ring_small, saturating_add, saturating_mul in *.
    unfold usize_max, u64_max, zlen in *. lia. }
  rewrite <- ready_count_pages. apply no_ready_count. intros o pin bytes [] Ho; [now apply pages_false in Ho|].
  apply (si_ring _ Hi') in Ho. rewrite Hnil in Ho. inversion Ho.
Qed.

(** The pages of [sh'] are pages of [sh]. *)
Definition keeps (sh sh' : ShardInner) : Prop := pages sh' ⊆ pages sh.

Lemma evicted_keeps bytes sh sh' : evicted bytes sh sh' -> keeps sh sh'.
Proof. intros (o & pin & _ & Hp). unfold keeps. rewrite Hp. apply delete_subseteq. Qed.

Lemma evicted_count bytes sh sh' : evicted bytes sh sh' -> shard_len sh = shard_len sh' + 1.
Proof.
  intros (o & pin & Ho & Hp). rewrite <- !ready_count_pages, Hp. unfold ready_count.
  rewrite (msum_delete _ _ _ _ Ho). simpl. lia.
Qed.

Lemma evicted_resident bytes sh sh' :
  shard_inv sh -> shard_inv sh' -> evicted bytes sh sh' -> sh_resident sh = sh_resident sh' + bytes /\ 0 < bytes.
Proof.
  intros Hi Hi' (o & pin & Ho & Hp). split; [|exact (si_bytes _ Hi _ _ _ Ho)].
  rewrite (si_resident _ Hi), (si_resident _ Hi'), Hp, (msum_delete _ _ _ _ Ho). simpl. lia.
Qed.

(** Loads in flight are nobody's to evict. *)
Lemma evicted_loading bytes sh sh' o : evicted bytes sh sh' -> pages sh' !! o = Some Loading <-> pages sh !! o = Some Loading.
Proof.
  intros (o' & pin & Ho & ->). rewrite lookup_delete_Some. split; [tauto|]. intros H. split; [congruence | exact H].
Qed.

Definition same_loading (sh sh' : ShardInner) : Prop :=
  forall o, pages sh' !! o = Some Loading <-> pages sh !! o = Some Loading.

(** What any number of evictions and settlements does to a shard. *)
Definition shrinks (sh sh' : ShardInner) : Prop := shard_inv sh' /\ keeps sh sh' /\ same_loading sh sh'.

Lemma shrinks_refl sh : shard_inv sh -> shrinks sh sh.
Proof. intros Hi. split; [exact Hi|]. unfold keeps, same_loading. split; [reflexivity | tauto]. Qed.

Lemma shrinks_trans a b c : shrinks a b -> shrinks b c -> shrinks a c.
Proof.
  intros (_ & Hk & Hl) (Hi & Hk' & Hl'). split; [exact Hi|]. unfold keeps in *. split; [exact (transitivity Hk' Hk)|].
  intros o. rewrite (Hl' o). apply Hl.
Qed.

Lemma shrinks_same sh sh' : shard_inv sh -> same_slots sh sh' -> shrinks sh sh'.
Proof.
  intros Hi Hs. split; [exact (shard_inv_same _ _ Hs Hi)|]. unfold keeps, same_loading.
  rewrite (same_slots_pages _ _ Hs). split; [reflexivity | tauto].
Qed.

Lemma evict_one_shrinks m sh : shard_inv sh -> shrinks sh (snd (snd (evict_one (m, sh)))).
Proof.
  intros Hi. pose proof (evict_one_spec m sh Hi) as H. destruct (evict_one (m, sh)) as [[bytes|] [m' sh']];
    destruct H as (Hi' & _ & H); split; try exact Hi'.
  - split; [exact (evicted_keeps _ _ _ H) | intros o; exact (evicted_loading _ _ _ o H)].
  - unfold keeps, same_loading. cbn [snd]. destruct H as [-> _]. split; [reflexivity | tauto].
Qed.

Lemma evict_down_shrinks fuel cap m sh :
  shard_inv sh -> shrinks sh (snd (evict_down fuel cap (m, sh))).
Proof.
  revert m sh. induction fuel as [|fuel IH]; intros m sh Hi; simpl; [now apply shrinks_refl|].
  destruct (_ <? _); [|now apply shrinks_refl]. pose proof (evict_one_shrinks m sh Hi) as H.
  destruct (evict_one (m, sh)) as [[bytes|] [m' sh']]; [|exact H]. simpl in H.
  eapply shrinks_trans; [exact H|]. apply IH, H.
Qed.

Lemma settle_or_evict_shrinks fuel s :
  shard_inv (snd s) -> shrinks (snd s) (snd (settle_or_evict fuel s)).
Proof.
  revert s. induction fuel as [|fuel IH]; intros s Hi; simpl; [now apply shrinks_refl|].
  pose proof (shrinks_same _ _ Hi (settle_bookkeeping_same s)) as Hs.
  destruct (settle_bookkeeping s) as [[u|e] [m sh]]; [exact Hs|]. simpl in Hs.
  pose proof (evict_one_shrinks m sh (proj1 Hs)) as H.
  destruct (evict_one (m, sh)) as [[bytes|] [m' sh']]; simpl in H.
  - eapply shrinks_trans; [exact Hs|]. eapply shrinks_trans; [exact H|]. apply (IH (m', sh')), H.
  - eapply shrinks_trans; eassumption.
Qed.

(** The loops above run until their condition is met: the fuel is the number
    of pages. *)
Lemma evict_down_done fuel cap m sh :
  shard_inv sh -> ring_small sh -> shard_len sh < Z.of_nat fuel ->
  let sh' := snd (evict_down fuel cap (m, sh)) in sh_resident sh' <= cap \/ shard_len sh' = 0.
Proof.
  revert m sh. induction fuel as [|fuel IH]; intros m sh Hi Hr Hf; cbn [evict_down].
  - exfalso. enough (0 <= shard_len sh) by lia. apply msum_nonneg. intros _ v _. destruct (slot_ready v); lia.
  - cbn [snd]. destruct (Z.ltb_spec cap (sh_resident sh)); [|left; simpl; lia].
    pose proof (evict_one_spec m sh Hi) as H'. destruct (evict_one (m, sh)) as [[bytes|] [m' sh']];
      destruct H' as (Hi' & Hlen & H'); [|right; now apply H'].
    apply IH; [exact Hi' | unfold ring_small, zlen in *; lia|]. apply evicted_count in H'. lia.
Qed.

(** ** The critical sections *)

Lemma touch_spec o m sh :
  shard_inv sh ->
  match touch o (m, sh) with
  | (Some pin, (m', sh')) =>
      (exists bytes, pages sh !! o = Some (Ready pin bytes false)) /\ pages sh' = pages sh /\ shard_inv sh' /\
      m' = pin_clone pin m
  | (None, s') => s' = (m, sh) /\ (forall pin bytes, pages sh !! o <> Some (Ready pin bytes false))
  end.
Proof.
  intros Hi. unfold touch. simpl. destruct (sh_map sh !! o) as [[pin bytes r|]|] eqn:Ho.
  - pose proof (pages_set_ref sh o pin bytes r true Ho) as Hp. pose proof (pages_ready _ _ _ _ _ Ho).
    split; [eauto|]. split; [exact Hp|]. split; [|reflexivity].
    destruct Hi as [H1 H2 H3 H4]. split; rewrite ?Hp; assumption.
  - split; [reflexivity|]. intros pin bytes [r Hr]%pages_ready_inv. congruence.
  - split; [reflexivity|]. intros pin bytes [r Hr]%pages_ready_inv. congruence.
Qed.

Lemma pages_map_insert o slot sh : pages (map_insert o slot sh) = <[o := unref slot]> (pages sh).
Proof. unfold pages, map_insert; simpl. apply fmap_insert. Qed.

Lemma shard_inv_marked o sh :
  shard_inv sh -> pages sh !! o = None ->
  let sh' := note_table (map_insert o Loading sh) in
  shard_inv (set_pending_pushes (sh_pending_pushes sh' + 1) sh').
Proof.
  intros [H1 H2 H3 H4] Ho sh'. set (sh'' := set_pending_pushes _ _).
  assert (pages sh'' = <[o := Loading]> (pages sh)) as Hp by apply pages_map_insert.
  split; rewrite ?Hp.
  - intros o' pin bytes [[_ ?]|[_ Ho']]%lookup_insert_Some; [discriminate|]. exact (H1 _ _ _ Ho').
  - simpl. rewrite H2, msum_insert_new by exact Ho. reflexivity.
  - simpl. rewrite H3, msum_insert_new by exact Ho. simpl. lia.
  - intros o' pin bytes [[_ ?]|[_ Ho']]%lookup_insert_Some; [discriminate|]. exact (H4 _ _ _ Ho').
Qed.

Lemma book_absorb_same c s : same_slots (snd s) (snd (book_absorb c s)).
Proof. unfold book_absorb. destruct (Bookkeeping_absorb _ _). repeat split. Qed.

Lemma cache_enter_spec o charge attempts m sh :
  shard_inv sh ->
  match cache_enter o charge attempts (m, sh) with
  | (seen, (m', sh')) =>
      shard_inv sh' /\
      match seen with
      | Hit pin => (exists bytes, pages sh !! o = Some (Ready pin bytes false)) /\ pages sh' = pages sh
      | InFlightElsewhere => pages sh !! o = Some Loading /\ sh' = sh /\ m' = m
      | Reserve _ _ | Refused _ => pages sh !! o = None /\ sh' = sh
      | Marked => pages sh !! o = None /\ pages sh' = <[o := Loading]> (pages sh)
      end
  end.
Proof.
  intros Hi. unfold cache_enter. cbn [snd]. destruct (sh_map sh !! o) as [[pin bytes r|]|] eqn:Ho.
  - pose proof (touch_spec o m sh Hi) as H. destruct (touch o (m, sh)) as [[p|] [m' sh']].
    + destruct H as (Hp & Hpp & Hi' & _). auto.
    + destruct H as [_ H]. now destruct (H pin bytes); rewrite pages_lookup, Ho.
  - split; [exact Hi|]. now rewrite pages_loading.
  - apply pages_absent in Ho. unfold mark_loading. destruct charge as [c|]; [|auto].
    destruct (_ <? _); [case_bool_decide; auto|].
    pose proof (shard_inv_marked o sh Hi Ho) as Hm. cbv zeta in Hm |- *.
    match goal with |- context [book_absorb c ?a] => pose proof (book_absorb_same c a) as Ha;
      set (s := book_absorb c a) in * end.
    pose proof (settle_bookkeeping_same s) as Hb. destruct (settle_bookkeeping s) as [u [m' sh']]. cbn [snd] in *.
    pose proof (same_slots_trans _ _ _ Ha Hb) as Hs.
    split; [exact (shard_inv_same _ _ Hs Hm)|]. split; [exact Ho|].
    rewrite (same_slots_pages _ _ Hs). exact (pages_map_insert o Loading sh).
Qed.

Lemma unmark_spec o s :
  shard_inv (snd s) -> pages (snd s) !! o = Some Loading ->
  shard_inv (snd (unmark o s)) /\ pages (snd (unmark o s)) = delete o (pages (snd s)).
Proof.
  destruct s as [m sh]. intros Hi Ho.
  assert (pages (snd (unmark o (m, sh))) = delete o (pages sh)) as Hp by exact (pages_map_remove sh o).
  split; [|exact Hp]. pose proof (msum_delete slot_loads _ _ _ Ho) as Hl. cbn [snd] in Hl.
  assert (0 <= msum slot_loads (delete o (pages sh))) by (apply msum_nonneg; intros; apply slot_loads_nonneg).
  destruct Hi as [H1 H2 H3 H4]. split; rewrite ?Hp.
  - intros o' pin bytes [_ Ho']%lookup_delete_Some. exact (H1 _ _ _ Ho').
  - simpl in *. rewrite H2, (msum_delete _ _ _ _ Ho). reflexivity.
  - simpl in *. rewrite H3. lia.
  - intros o' pin bytes [_ Ho']%lookup_delete_Some. exact (H4 _ _ _ Ho').
Qed.

Lemma InFlight_drop_spec o s :
  shard_inv (snd s) -> pages (snd s) !! o = Some Loading ->
  shard_inv (snd (InFlight_drop o s)) /\ pages (snd (InFlight_drop o s)) = delete o (pages (snd s)).
Proof.
  intros Hi Ho. destruct (unmark_spec o s Hi Ho) as [Hi' <-]. unfold InFlight_drop.
  pose proof (release_bookkeeping_same (unmark o s)) as Hs.
  split; [exact (shard_inv_same _ _ Hs Hi') | exact (same_slots_pages _ _ Hs)].
Qed.

Lemma insert_ready_spec o pin bytes s :
  shard_inv (snd s) -> pages (snd s) !! o = None -> 0 < bytes ->
  shard_inv (snd (insert_ready o pin bytes s)) /\
  pages (snd (insert_ready o pin bytes s)) = <[o := Ready pin bytes false]> (pages (snd s)).
Proof.
  destruct s as [m sh]. cbn [snd]. intros [H1 H2 H3 H4] Ho Hb.
  assert (pages (snd (insert_ready o pin bytes (m, sh))) = <[o := Ready pin bytes false]> (pages sh)) as Hp
    by exact (pages_map_insert o (Ready pin bytes true) _).
  split; [|exact Hp]. split; rewrite ?Hp.
  - intros o' pin' bytes' [[-> _]|[_ Ho']]%lookup_insert_Some; simpl; [set_solver|].
    apply elem_of_app. left. exact (H1 _ _ _ Ho').
  - simpl. rewrite H2, msum_insert_new by exact Ho. simpl. lia.
  - simpl. rewrite H3, msum_insert_new by exact Ho. reflexivity.
  - intros o' pin' bytes' [[_ [= _ <-]]|[_ Ho']]%lookup_insert_Some; [exact Hb | exact (H4 _ _ _ Ho')].
Qed.

Lemma remove_ready_shrinks o s :
  shard_inv (snd s) -> pages (snd s) !! o <> Some Loading -> shrinks (snd s) (snd (remove_ready o s)).
Proof.
  destruct s as [m sh]. cbn [snd]. intros Hi Hl. unfold remove_ready.
  destruct (sh_map sh !! o) as [[pin bytes r|]|] eqn:Ho.
  - pose proof (pages_ready _ _ _ _ _ Ho) as Hpo.
    destruct (shard_inv_drop_page sh o pin bytes (sh_clock sh) Hi Hpo) as [Hi' Hp]; [auto|].
    assert (set_clock (sh_clock sh) sh = sh) as Hid by now destruct sh. rewrite Hid in *.
    assert (evicted bytes sh (set_resident (Z.max 0 (sh_resident sh - bytes)) (map_remove o sh))) as He
      by (exists o, pin; auto).
    split; [exact Hi'|]. split; [exact (evicted_keeps _ _ _ He) | intros o'; exact (evicted_loading _ _ _ o' He)].
  - now rewrite pages_loading in Hl.
  - now apply shrinks_refl.
Qed.

Lemma publish_spec cap o pin bytes s :
  shard_inv (snd s) -> pages (snd s) !! o = Some Loading -> 0 < bytes ->
  let sh' := snd (publish cap o pin bytes s) in
  shard_inv sh' /\ pages sh' ⊆ <[o := Ready pin bytes false]> (pages (snd s)) /\
  forall o', pages sh' !! o' = Some Loading <-> o' <> o /\ pages (snd s) !! o' = Some Loading.
Proof.
  intros Hi Ho Hb. destruct (unmark_spec o s Hi Ho) as [Hi1 Hp1].
  destruct (insert_ready_spec o pin bytes (unmark o s) Hi1) as [Hi2 Hp2].
  { rewrite Hp1. apply lookup_delete_eq. }
  { exact Hb. }
  unfold publish. set (s2 := insert_ready o pin bytes (unmark o s)) in *.
  enough (forall s3, shrinks (snd s2) s3 -> shard_inv s3 /\ pages s3 ⊆ <[o := Ready pin bytes false]> (pages (snd s)) /\
    forall o', pages s3 !! o' = Some Loading <-> o' <> o /\ pages (snd s) !! o' = Some Loading) as Hgoal.
  { apply Hgoal. unfold evict_down_to_capacity. destruct s2 as [m2 sh2].
    cbn [snd]. pose proof (evict_down_shrinks (S (size (sh_map sh2))) cap m2 sh2 Hi2) as Hs3.
    set (s3 := evict_down _ cap (m2, sh2)) in *.
    pose proof (settle_or_evict_shrinks (S (size (sh_map (snd s3)))) s3 (proj1 Hs3)) as Hs4.
    set (s4 := settle_or_evict _ s3) in *. pose proof (shrinks_same _ _ (proj1 Hs4) (settle_bookkeeping_same s4)) as Hs5.
    assert (shrinks sh2 (snd (snd (settle_bookkeeping s4)))) as H25
      by (eapply shrinks_trans; [exact Hs3|]; eapply shrinks_trans; eassumption).
    destruct (settle_bookkeeping s4) as [[u|e] s5]; cbn [snd] in H25; [exact H25|].
    eapply shrinks_trans; [exact H25|].
    assert (shrinks (snd s5) (snd (remove_ready o s5))) as H56.
    { apply remove_ready_shrinks; [apply H25|]. intros Hl. apply H25 in Hl. cbn [snd] in Hp2.
      rewrite Hp2, lookup_insert_eq in Hl. discriminate. }
    eapply shrinks_trans; [exact H56|]. apply shrinks_same; [apply H56 | apply release_bookkeeping_same]. }
  intros s3 (Hi3 & Hk & Hl). split; [exact Hi3|]. unfold keeps in Hk. rewrite Hp2, Hp1, insert_delete_eq in Hk.
  split; [exact Hk|]. intros o'. rewrite (Hl o'), Hp2, Hp1, insert_delete_eq, lookup_insert_Some.
  intuition congruence.
Qed.
End ShardFacts.

(** * The cache as a whole *)

Definition shard_at (c : PageCache) (i : nat) : ShardInner := default ShardInner_default (pc_shards c !! i).

(** What the cache holds for an ordinal. *)
Definition cached (c : PageCache) (o : Z) : option Slot := pages (shard_at c (shard_of c o)) !! o.

Record cache_inv (c : PageCache) : Prop := {
  ci_some : (0 < length (pc_shards c))%nat;
  ci_shards : forall i sh, pc_shards c !! i = Some sh -> shard_inv sh;
  ci_home : forall i sh o slot, pc_shards c !! i = Some sh -> pages sh !! o = Some slot -> shard_of c o = i;
}.

Lemma shard_index_lt n o : 0 < n -> (shard_index n o < Z.to_nat n)%nat.
Proof.
  intros Hn. unfold shard_index. set (x := Z.shiftr _ 32).
  assert (0 <= x) as Hx by (apply Z.shiftr_nonneg, Z.mod_pos_bound; lia).
  assert (0 <= Z.land x (n - 1) <= n - 1); [|lia]. split; [apply Z.land_nonneg; lia|].
  apply Z.ldiff_le; [lia|]. rewrite Z.ldiff_land, <- Z.land_assoc, Z.land_lnot_diag. apply Z.land_0_r.
Qed.

Lemma shard_of_lt c o : cache_inv c -> (shard_of c o < length (pc_shards c))%nat.
Proof.
  intros Hi. pose proof (ci_some _ Hi). pose proof (shard_index_lt (zlen (pc_shards c)) o).
  unfold shard_of, zlen in *. lia.
Qed.

Lemma shard_at_lookup c i : (i < length (pc_shards c))%nat -> pc_shards c !! i = Some (shard_at c i).
Proof. intros [sh Hsh]%lookup_lt_is_Some. unfold shard_at. now rewrite Hsh. Qed.

Lemma shard_at_inv c i : cache_inv c -> (i < length (pc_shards c))%nat -> shard_inv (shard_at c i).
Proof. intros Hi Hlt. exact (ci_shards _ Hi i _ (shard_at_lookup c i Hlt)). Qed.

Lemma shard_inv_default : shard_inv ShardInner_default.
Proof.
  split; unfold pages; simpl; rewrite fmap_empty; try reflexivity; intros o pin bytes; now rewrite lookup_empty.
Qed.

Lemma next_power_of_two_pos n : 0 < next_power_of_two n.
Proof. unfold next_power_of_two. apply Z.pow_pos_nonneg; [lia | apply Z.log2_up_nonneg]. Qed.

Lemma PageCache_new_inv capacity shards :
  cache_inv (PageCache_new capacity shards) /\ forall o, cached (PageCache_new capacity shards) o = None.
Proof.
  pose proof (next_power_of_two_pos (Z.min (Z.max shards 1) MAX_SHARDS)) as Hp.
  assert (forall i sh, replicate (Z.to_nat (shard_count shards)) ShardInner_default !! i = Some sh -> sh = ShardInner_default)
    as Hall by (intros i sh [-> _]%lookup_replicate_1; reflexivity).
  assert (pages ShardInner_default = ∅) as He by apply fmap_empty.
  split; [split|].
  - cbn [PageCache_new pc_shards]. rewrite length_replicate. unfold shard_count. lia.
  - intros i sh Hi. rewrite (Hall i sh Hi). apply shard_inv_default.
  - intros i sh o slot Hi. rewrite (Hall i sh Hi), He. now rewrite lookup_empty.
  - intros o. unfold cached, shard_at. destruct (pc_shards _ !! _) as [sh|] eqn:Hi; simpl.
    + rewrite (Hall _ sh Hi), He. apply lookup_empty.
    + rewrite He. apply lookup_empty.
Qed.

Section CacheFacts.
Context {SA : StdAlloc}.

(** The shard [with_shard i f] leaves behind. *)
Lemma with_shard_spec {A} i (f : Mem * ShardInner -> A * (Mem * ShardInner)) m c :
  cache_inv c -> (i < length (pc_shards c))%nat ->
  let sh := shard_at c i in
  let sh' := snd (snd (f (m, sh))) in
  let c' := snd (snd (with_shard i f (m, c))) in
  shard_inv sh' ->
  (forall o slot, pages sh' !! o = Some slot -> shard_of c o = i) ->
  fst (with_shard i f (m, c)) = fst (f (m, sh)) /\
  cache_inv c' /\ length (pc_shards c') = length (pc_shards c) /\
  pc_shards c' = <[i := sh']> (pc_shards c) /\
  (forall o, shard_of c' o = shard_of c o) /\
  (forall o, cached c' o = if decide (shard_of c o = i) then pages sh' !! o else cached c o).
Proof.
  intros Hc Hi. cbv zeta. unfold with_shard. change (default ShardInner_default (pc_shards c !! i)) with (shard_at c i).
  destruct (f (m, shard_at c i)) as [a [m' sh']]. cbn [fst snd]. intros Hsh Hhome.
  assert (forall o, shard_of (set_shards (<[i := sh']> (pc_shards c)) c) o = shard_of c o) as Hof
    by (intros; unfold shard_of, zlen; simpl; now rewrite length_insert).
  split; [reflexivity|]. split; [split|split; [|split; [reflexivity|split; [exact Hof|]]]].
  - simpl. rewrite length_insert. apply (ci_some _ Hc).
  - intros j sh [(-> & <- & _)|[_ Hj]]%list_lookup_insert_Some; [exact Hsh | exact (ci_shards _ Hc j sh Hj)].
  - intros j sh o slot [(-> & <- & _)|[_ Hj]]%list_lookup_insert_Some Ho; rewrite Hof;
      [exact (Hhome o slot Ho) | exact (ci_home _ Hc j sh o slot Hj Ho)].
  - simpl. apply length_insert.
  - intros o. unfold cached at 1. rewrite Hof. unfold shard_at at 1. cbn [pc_shards set_shards]. case_decide as Hd.
    + rewrite Hd, list_lookup_insert_eq by lia. reflexivity.
    + now rewrite list_lookup_insert_ne by congruence.
Qed.

Lemma zsum_replace (g : ShardInner -> Z) l i sh sh' :
  l !! i = Some sh -> zsum (g <$> <[i := sh']> l) = zsum (g <$> l) - g sh + g sh'.
Proof.
  intros Hi. rewrite list_fmap_insert. apply zsum_insert. now rewrite list_lookup_fmap, Hi.
Qed.

(** What evicting does to the cache as a whole. *)
Definition cache_shrinks (c c' : PageCache) : Prop :=
  cache_inv c' /\ length (pc_shards c') = length (pc_shards c) /\ (forall o, shard_of c' o = shard_of c o) /\
  (forall o slot, cached c' o = Some slot -> cached c o = Some slot) /\
  (forall o, cached c' o = Some Loading <-> cached c o = Some Loading).

Lemma cache_shrinks_refl c : cache_inv c -> cache_shrinks c c.
Proof. intros Hc. unfold cache_shrinks. tauto. Qed.

Lemma cache_shrinks_trans a b c : cache_shrinks a b -> cache_shrinks b c -> cache_shrinks a c.
Proof.
  intros (_ & H1 & H2 & H3 & H4) (Hi & H1' & H2' & H3' & H4'). split; [exact Hi|].
  split; [congruence|]. split; [intros o; now rewrite H2'|]. split; [auto|]. intros o. now rewrite H4'.
Qed.

Lemma with_shard_shrinks {A} i (f : Mem * ShardInner -> A * (Mem * ShardInner)) m c :
  cache_inv c -> (i < length (pc_shards c))%nat ->
  shrinks (shard_at c i) (snd (snd (f (m, shard_at c i)))) ->
  cache_shrinks c (snd (snd (with_shard i f (m, c)))).
Proof.
  intros Hc Hi (Hsh & Hk & Hl). unfold keeps in Hk.
  destruct (with_shard_spec i f m c Hc Hi Hsh) as (_ & Hc' & Hlen & _ & Hof & Hcd).
  { intros o slot Ho. apply (ci_home _ Hc i (shard_at c i) o slot (shard_at_lookup c i Hi)).
    exact (lookup_weaken _ _ _ _ Ho Hk). }
  split; [exact Hc'|]. split; [exact Hlen|]. split; [exact Hof|]. split.
  - intros o slot. rewrite Hcd. case_decide as Hd; [|auto]. unfold cached. rewrite Hd.
    intros Ho. exact (lookup_weaken _ _ _ _ Ho Hk).
  - intros o. rewrite Hcd. case_decide as Hd; [|tauto]. unfold cached. rewrite Hd. apply Hl.
Qed.

Definition rings_small (c : PageCache) : Prop := forall i sh, pc_shards c !! i = Some sh -> ring_small sh.

(** One round of [evict_bytes]. *)
Lemma evict_round i m c :
  cache_inv c -> (i < length (pc_shards c))%nat ->
  match with_shard i evict_one (m, c) with
  | (r, (_, c')) =>
      cache_shrinks c c' /\ (rings_small c -> rings_small c') /\
      match r with
      | Some bytes => 0 < bytes /\ resident_bytes c = resident_bytes c' + bytes /\ cache_len c = cache_len c' + 1
      | None => resident_bytes c = resident_bytes c' /\ cache_len c = cache_len c' /\
          (forall j, j <> i -> shard_at c' j = shard_at c j) /\ (rings_small c -> shard_len (shard_at c' i) = 0)
      end
  end.
Proof.
  intros Hc Hi. pose proof (shard_at_lookup c i Hi) as Hlk. pose proof (shard_at_inv c i Hc Hi) as Hsi.
  pose proof (with_shard_shrinks i evict_one m c Hc Hi (evict_one_shrinks m _ Hsi)) as Hshr.
  pose proof (evict_one_spec m _ Hsi) as He. unfold with_shard in *.
  change (default ShardInner_default (pc_shards c !! i)) with (shard_at c i) in *.
  destruct (evict_one (m, shard_at c i)) as [r [m' sh']]. cbn [snd] in Hshr.
  destruct He as (Hi' & Hlen & Hr). set (c' := set_shards _ c) in *. split; [exact Hshr|].
  assert (rings_small c -> rings_small c') as Hrs.
  { intros Hs j sh [(-> & <- & _)|[_ Hj]]%list_lookup_insert_Some; [|exact (Hs j sh Hj)].
    specialize (Hs _ _ Hlk). unfold ring_small, zlen in *. lia. }
  split; [exact Hrs|]. unfold resident_bytes, cache_len, c'. simpl. rewrite !(zsum_replace _ _ _ _ _ Hlk).
  destruct r as [bytes|].
  - destruct (evicted_resident _ _ _ Hsi Hi' Hr) as [Hres Hb]. pose proof (evicted_count _ _ _ Hr). lia.
  - destruct Hr as [Hp Hz]. rewrite (si_resident _ Hsi), (si_resident _ Hi'), Hp.
    split; [lia|]. split; [rewrite <- !ready_count_pages, Hp; lia|]. unfold shard_at. simpl. split.
    + intros j Hj. now rewrite list_lookup_insert_ne by congruence.
    + intros Hs. rewrite list_lookup_insert_eq by lia. simpl. apply Hz. exact (Hs _ _ Hlk).
Qed.

(** The shards visited in the last [idle] rounds are empty. *)
Definition idle_empty (start idle cursor : Z) (c : PageCache) : Prop :=
  forall j, 0 <= j < idle -> shard_len (shard_at c (Z.to_nat ((start + cursor - 1 - j) mod zlen (pc_shards c)))) = 0.

Lemma idle_empty_step start idle cursor c c' :
  length (pc_shards c') = length (pc_shards c) -> 0 < zlen (pc_shards c) ->
  idle + 1 <= zlen (pc_shards c) ->
  let i := Z.to_nat ((start + cursor) mod zlen (pc_shards c)) in
  (forall j, j <> i -> shard_at c' j = shard_at c j) -> shard_len (shard_at c' i) = 0 ->
  idle_empty start idle cursor c -> idle_empty start (idle + 1) (cursor + 1) c'.
Proof.
  intros Hlen Hn Hle i Hother Hz He j Hj.
  assert (zlen (pc_shards c') = zlen (pc_shards c)) as -> by (unfold zlen; now rewrite Hlen).
  destruct (decide (j = 0)) as [->|Hj0].
  - replace (start + (cursor + 1) - 1 - 0) with (start + cursor) by lia. exact Hz.
  - replace (start + (cursor + 1) - 1 - j) with (start + cursor - 1 - (j - 1)) by lia.
    set (k := Z.to_nat _). destruct (decide (k = i)) as [->|Hk]; [exact Hz|]. rewrite (Hother k Hk).
    apply He. lia.
Qed.

Lemma idle_all_empty start cursor c :
  0 < zlen (pc_shards c) -> idle_empty start (zlen (pc_shards c)) cursor c -> cache_len c = 0.
Proof.
  intros Hn He. unfold cache_len. set (n := zlen (pc_shards c)) in *.
  assert (forall i sh, pc_shards c !! i = Some sh -> shard_len sh = 0) as Hall.
  { intros i sh Hi. pose proof (lookup_lt_Some _ _ _ Hi) as Hlt.
    specialize (He ((start + cursor - 1 - Z.of_nat i) mod n)). rewrite Zminus_mod_idemp_r in He.
    replace (start + cursor - 1 - (start + cursor - 1 - Z.of_nat i)) with (Z.of_nat i) in He by lia.
    rewrite (Z.mod_small (Z.of_nat i)) in He by (unfold n, zlen; lia). rewrite Nat2Z.id in He.
    unfold shard_at in He. rewrite Hi in He. apply He. apply Z.mod_pos_bound. exact Hn. }
  clear -Hall. induction (pc_shards c) as [|sh l IH]; [reflexivity|].
  change (shard_len sh + zsum (shard_len <$> l) = 0). rewrite (Hall 0%nat sh eq_refl). rewrite IH; [reflexivity|]. intros i sh' Hi. exact (Hall (S i) sh' Hi).
Qed.

Lemma cache_len_nonneg c : 0 <= cache_len c.
Proof.
  unfold cache_len. apply zsum_nonneg. apply Forall_fmap, Forall_forall. intros sh _.
  apply msum_nonneg. intros _ v _. destruct (slot_ready v); lia.
Qed.

Lemma evict_bytes_loop_spec fuel target start released idle cursor m c :
  cache_inv c -> 0 <= idle <= zlen (pc_shards c) -> 0 <= released ->
  match evict_bytes_loop fuel target start released idle cursor (m, c) with
  | (released', (_, c')) =>
      cache_shrinks c c' /\ released <= released' /\ resident_bytes c + released = resident_bytes c' + released' /\
      (released' = released \/ 1 <= cache_len c) /\ cache_len c' <= cache_len c /\
      (released < released' -> cache_len c' < cache_len c) /\
      (rings_small c -> rings_small c') /\
      (rings_small c -> idle_empty start idle cursor c ->
       cache_len c * zlen (pc_shards c) + (zlen (pc_shards c) - idle) < Z.of_nat fuel ->
       target <= released' \/ cache_len c' = 0)
  end.
Proof.
  revert released idle cursor m c. induction fuel as [|fuel IH]; intros released idle cursor m c Hc Hidle Hrel;
    cbn [evict_bytes_loop].
  { split; [now apply cache_shrinks_refl|]. pose proof (cache_len_nonneg c). repeat split; auto; try lia; nia. }
  pose proof (ci_some _ Hc) as Hn. set (n := zlen (pc_shards c)) in *. assert (0 < n) by (unfold n, zlen; lia).
  cbn [snd]. fold n. destruct (Z.ltb_spec released target) as [Hlt|Hge]; cbn [andb].
  2: { split; [now apply cache_shrinks_refl|]. repeat split; auto; lia. }
  destruct (Z.ltb_spec idle n) as [Hi|Hi].
  2: { split; [now apply cache_shrinks_refl|]. repeat split; auto; try lia. intros _ He _. right.
       apply (idle_all_empty start cursor); [exact H|]. fold n. replace n with idle by lia. exact He. }
  set (i := Z.to_nat ((start + cursor) mod n)). assert (i < length (pc_shards c))%nat as Hlt'.
  { pose proof (Z.mod_pos_bound (start + cursor) n). unfold i, n, zlen in *. lia. }
  pose proof (evict_round i m c Hc Hlt') as Hround. destruct (with_shard i evict_one (m, c)) as [[bytes|] [m' c']];
    destruct Hround as (Hshr & Hrs & Hround); pose proof Hshr as (Hc' & Hlen & Hof & _).
  all: assert (zlen (pc_shards c') = n) as Hn' by (unfold n, zlen; now rewrite Hlen).
  - destruct Hround as (Hb & Hres & Hcl). specialize (IH (released + bytes) 0 (cursor + 1) m' c' Hc').
    pose proof (cache_len_nonneg c').
    destruct (evict_bytes_loop fuel _ _ _ _ _ (m', c')) as [rel' [m'' c'']].
    destruct IH as (Hs & Hr & Hsum & Hone & Hle & Hlt2 & Hrs' & Hdone); [lia | lia |].
    split; [exact (cache_shrinks_trans _ _ _ Hshr Hs)|]. repeat split; auto; try lia.
    intros Hsm _ Hfuel. apply Hdone; [auto| intros j Hj; lia|]. rewrite Hn'. nia.
  - destruct Hround as (Hres & Hcl & Hoth & Hz). specialize (IH released (idle + 1) (cursor + 1) m' c' Hc').
    destruct (evict_bytes_loop fuel _ _ _ _ _ (m', c')) as [rel' [m'' c'']].
    destruct IH as (Hs & Hr & Hsum & Hone & Hle & Hlt2 & Hrs' & Hdone); [lia | lia |].
    split; [exact (cache_shrinks_trans _ _ _ Hshr Hs)|]. repeat split; auto; try lia.
    intros Hsm He Hfuel. apply Hdone; [auto| |rewrite Hn'; lia].
    apply (idle_empty_step start idle cursor c c' Hlen H); [fold n; lia | exact Hoth | exact (Hz Hsm) | exact He].
Qed.

Lemma evict_bytes_spec target m c :
  cache_inv c ->
  match evict_bytes target (m, c) with
  | (released, (_, c')) =>
      cache_shrinks c c' /\ 0 <= released /\ resident_bytes c = resident_bytes c' + released /\
      cache_len c' <= cache_len c /\ (0 < released -> cache_len c' < cache_len c) /\
      (rings_small c -> rings_small c' /\ (target <= released \/ cache_len c' = 0))
  end.
Proof.
  intros Hc. unfold evict_bytes. set (c1 := mkPageCache _ _ _ _).
  assert (cache_inv c1) as Hc1 by (destruct Hc; split; assumption).
  pose proof (evict_bytes_loop_spec (evict_rounds c1) target (pc_next_victim_shard c) 0 0 0 m c1 Hc1) as H.
  destruct (evict_bytes_loop _ _ _ _ _ _ (m, c1)) as [rel [m' c']].
  destruct H as (Hs & Hr & Hsum & _ & Hle & Hlt & Hrs & Hdone); [unfold zlen; lia | lia |].
  split; [exact Hs|]. split; [lia|].
  split; [change (resident_bytes c) with (resident_bytes c1); lia|].
  split; [exact Hle|]. split; [intros; apply Hlt; lia|]. intros Hsm. split; [apply Hrs, Hsm|].
  apply Hdone; [exact Hsm | intros j Hj; lia|]. pose proof (cache_len_nonneg c1). unfold evict_rounds, zlen. nia.
Qed.
End CacheFacts.

(** C25: reclaiming from the cache.  [evict_bytes] gives back as much as it was
    asked for unless the cache runs out of pages; what it reports is what the
    pages it dropped were worth; it takes nothing else, and in particular never a
    load in flight. *)
Theorem evict_bytes_correct {SA : StdAlloc} target m c :
  cache_inv c -> rings_small c ->
  match evict_bytes target (m, c) with
  | (released, (_, c')) =>
      cache_inv c' /\ resident_bytes c = resident_bytes c' + released /\
      (released < target -> cache_len c' = 0) /\
      (forall o slot, cached c' o = Some slot -> cached c o = Some slot) /\
      (forall o, cached c' o = Some Loading <-> cached c o = Some Loading)
  end.
Proof.
  intros Hc Hr. pose proof (evict_bytes_spec target m c Hc) as H.
  destruct (evict_bytes target (m, c)) as [released [m' c']]. destruct H as ((Hi & _ & _ & Hk & Hl) & _ & Hres & _ & _ & Hs).
  destruct (Hs Hr) as [_ Hdone]. split; [exact Hi|]. split; [exact Hres|]. split; [lia|]. split; [exact Hk | exact Hl].
Qed.

Definition exact_alloc : StdAlloc := {|
  hm_insert := fun _ len => len; hm_remove := fun capacity _ => capacity; hm_shrink_to_fit := fun _ len => len;
  vd_push_back := fun _ len => len; vd_shrink_to := fun _ keep => Z.max 0 keep;
|}.

(** One page with a second chance, one without, one load in flight. *)
Definition sample_shard : ShardInner :=
  mkShard (<[7 := Ready (mkPagePin 1 7 []) 40 true]> (<[9 := Loading]> (<[8 := Ready (mkPagePin 2 8 []) 50 false]> ∅)))
    3 [7; 3; 8] 4 90 3 1 None.
Definition sample_cache : PageCache := mkPageCache [sample_shard] 100 100 5.

Lemma sample_cache_inv : cache_inv sample_cache.
Proof.
  assert (pages sample_shard = <[7 := Ready (mkPagePin 1 7 []) 40 false]>
    (<[9 := Loading]> (<[8 := Ready (mkPagePin 2 8 []) 50 false]> ∅))) as Hp by (vm_compute; reflexivity).
  assert (shard_inv sample_shard) as Hs.
  { split; rewrite ?Hp; try (vm_compute; reflexivity).
    - intros o pin bytes Ho. repeat (apply lookup_insert_Some in Ho as [[<- ?]|[_ Ho]];
        [first [discriminate | simpl; set_solver]|]). now rewrite lookup_empty in Ho.
    - intros o pin bytes Ho. repeat (apply lookup_insert_Some in Ho as [[<- ?]|[_ Ho]];
        [first [discriminate | simplify_eq; lia]|]). now rewrite lookup_empty in Ho. }
  split; [simpl; lia | | ]; intros [|i] sh; try discriminate; intros; simplify_eq/=; [exact Hs|].
  unfold shard_of, shard_index. change (zlen [sample_shard] - 1) with 0. now rewrite Z.land_0_r.
Qed.

Lemma evict_bytes_correct_witness :
  match evict_bytes (SA := exact_alloc) 60 (mkMem (Budget_new 1000) ∅, sample_cache) with
  | (released, (_, c')) => released = 90 /\ cache_len c' = 0 /\ cached c' 9 = Some Loading
  end.
Proof.
  pose proof (evict_bytes_correct (SA := exact_alloc) 60 (mkMem (Budget_new 1000) ∅) sample_cache sample_cache_inv) as H.
  destruct (evict_bytes (SA := exact_alloc) 60 (mkMem (Budget_new 1000) ∅, sample_cache)) as [released [m' c']] eqn:He.
  destruct H as (_ & _ & _ & _ & Hl).
  { intros i sh Hi. apply list_lookup_singleton_Some in Hi as [_ <-]. reflexivity. }
  assert (released = 90 /\ cache_len c' = 0) as [-> Hz].
  { split; [change released with (fst (released, (m', c'))) | change c' with (snd (snd (released, (m', c'))))];
      rewrite <- He; vm_compute; reflexivity. }
  split; [reflexivity|]. split; [exact Hz|]. apply Hl. vm_compute. reflexivity.
Defined.

(** * Accounting

    Every byte the budget counts is somebody's: a live page buffer's, a
    shard's, or [rest], which is what everything else on the same budget
    holds. *)

Definition buffer_charge (bf : Buffer) : Z := ch_bytes (bf_charge bf).

Record balanced (fresh : positive -> Prop) (m : Mem) (rest : Z) : Prop := {
  bal_used : b_used (m_budget m) = msum buffer_charge (m_buffers m) + rest;
  bal_rest : 0 <= rest;
  bal_charges : forall b bf, m_buffers m !! b = Some bf -> 0 <= buffer_charge bf;
  bal_limit : b_used (m_budget m) <= b_limit (m_budget m) <= u64_max;
  bal_fresh : forall b, fresh b -> m_buffers m !! b = None;
}.

Section Balance.
Context {fresh : positive -> Prop}.
Abbreviation balanced := (balanced fresh).

Lemma balanced_buffers_nonneg m rest : balanced m rest -> 0 <= msum buffer_charge (m_buffers m).
Proof. intros H. apply msum_nonneg. apply H. Qed.

Lemma balanced_release c m rest :
  0 <= ch_bytes c -> balanced m (ch_bytes c + rest) -> 0 <= rest -> balanced (charge_release c m) rest.
Proof.
  intros Hc Hb Hr. pose proof (balanced_buffers_nonneg _ _ Hb). destruct Hb as [H1 H2 H3 H4].
  unfold charge_release, Charge_drop, Budget_release.
  assert (wrap 64 (b_used (m_budget m) - ch_bytes c) = b_used (m_budget m) - ch_bytes c) as Hw
    by (apply Z.mod_small; unfold u64_max in *; lia).
  split; simpl; rewrite ?Hw; auto; lia.
Qed.

Lemma balanced_ref_clone b m rest : balanced m rest -> balanced (ref_clone b m) rest.
Proof.
  intros [H1 H2 H3 H4 H5]. unfold ref_clone. split; simpl; auto.
  - rewrite H1. f_equal. destruct (m_buffers m !! b) as [bf|] eqn:Hb.
    + rewrite (msum_delete _ _ _ _ Hb). symmetry.
      rewrite (msum_delete _ _ b (mkBuffer (bf_charge bf) (bf_refs bf + 1))).
      * now rewrite delete_alter_eq.
      * now rewrite lookup_alter_eq, Hb.
    + now rewrite alter_id by (intros ? Hx; rewrite Hb in Hx; discriminate).
  - intros b' bf [(_ & y & Hy & ->)|[_ Hy]]%lookup_alter_Some; [exact (H3 _ _ Hy) | exact (H3 _ _ Hy)].
  - intros b' Hf. now rewrite lookup_alter_None, H5.
Qed.

Lemma balanced_ref_drop b m rest : balanced m rest -> balanced (ref_drop b m) rest.
Proof.
  intros H. pose proof (bal_rest _ _ _ H). unfold ref_drop.
  destruct (m_buffers m !! b) as [bf|] eqn:Hb; [|exact H].
  destruct H as [H1 H2 H3 H4 H5]. pose proof (H3 _ _ Hb) as Hc. pose proof (msum_delete buffer_charge _ _ _ Hb) as Hd.
  assert (0 <= msum buffer_charge (delete b (m_buffers m))) as Hn.
  { apply msum_nonneg. intros i v [_ Hv]%lookup_delete_Some. exact (H3 i v Hv). }
  destruct (_ <=? _).
  - unfold Charge_drop, Budget_release. unfold buffer_charge in Hc, Hd at 2.
    assert (wrap 64 (b_used (m_budget m) - ch_bytes (bf_charge bf)) = b_used (m_budget m) - ch_bytes (bf_charge bf)) as Hw
      by (apply Z.mod_small; unfold u64_max in *; lia).
    split; simpl; rewrite ?Hw; auto; try lia; [intros b' bf' [_ Hv]%lookup_delete_Some; exact (H3 _ _ Hv)|].
    intros b' Hf. rewrite lookup_delete_None. auto.
  - split; simpl; auto.
    + rewrite msum_insert, Hb, H1. unfold buffer_charge; simpl. lia.
    + intros b' bf' [[_ <-]|[_ Hv]]%lookup_insert_Some; [exact Hc | exact (H3 _ _ Hv)].
    + intros b' Hf. rewrite lookup_insert_None. split; [auto|]. intros <-. specialize (H5 b Hf). congruence.
Qed.

Lemma balanced_try_reserve n m rest :
  0 <= n -> balanced m rest ->
  match Budget_try_reserve n (m_budget m) with
  | (Ok c, b) => ch_bytes c = n /\ balanced (set_budget b m) (n + rest)
  | (Err e, b) => b = m_budget m /\ e = Error_of_budget (budget_info (m_budget m) n) /\
      b_limit (m_budget m) < b_used (m_budget m) + n
  end.
Proof.
  intros Hn H. pose proof (balanced_buffers_nonneg _ _ H). destruct H as [H1 H2 H3 H4].
  unfold Budget_try_reserve, sbind.
  destruct (Budget_take_spec n (m_budget m)) as [[Hle ->]|[Hgt ->]]; [lia..| |auto].
  split; [reflexivity|]. split; simpl; auto; lia.
Qed.

Section Accounting.
Context {SA : StdAlloc}.

(** Capacities are sizes. *)
Class StdAllocLaws : Prop := {
  vd_push_back_size : forall capacity len, 0 <= len -> 0 <= vd_push_back capacity len;
  vd_shrink_to_size : forall capacity keep, 0 <= vd_shrink_to capacity keep;
}.
Context {SL : StdAllocLaws}.

(** The shard's share of the budget is the charge of its book. *)
Record paid (rest : Z) (s : Mem * ShardInner) : Prop := {
  pd_balanced : balanced (fst s) (Bookkeeping_bytes (sh_book (snd s)) + rest);
  pd_book : 0 <= Bookkeeping_bytes (sh_book (snd s));
  pd_rest : 0 <= rest;
  pd_ring : 0 <= sh_clock_capacity (snd s);
}.

Lemma grow_ring_nonneg fuel grown entries : 0 <= grown -> 0 <= grow_ring fuel grown entries.
Proof.
  revert grown. induction fuel as [|fuel IH]; intros grown Hg; simpl; [exact Hg|].
  destruct (_ <? _); [apply IH; unfold RING_MIN_CAPACITY; lia | exact Hg].
Qed.

Lemma ring_target_bytes_nonneg capacity entries : 0 <= capacity -> 0 <= ring_target_bytes capacity entries.
Proof.
  intros Hc. unfold ring_target_bytes, ring_bytes. destruct (_ <=? _); [lia|].
  pose proof (grow_ring_nonneg 65 capacity entries Hc). set (g := grow_ring _ _ _) in *.
  pose proof (Z.div_pos g 2). lia.
Qed.

Lemma hash_table_bytes_nonneg entries entry : 0 <= hash_table_bytes entries entry.
Proof.
  unfold hash_table_bytes, next_multiple_of, HASH_GROUP. destruct (_ =? 0); [lia|].
  set (x := wrap 64 _). assert (0 <= x) by (apply Z.mod_pos_bound; lia).
  pose proof (Z.mod_pos_bound x 16). destruct (_ =? 0); lia.
Qed.

Lemma bookkeeping_footprint_nonneg sh : 0 <= sh_clock_capacity sh -> 0 <= bookkeeping_footprint sh.
Proof.
  intros H. unfold bookkeeping_footprint. pose proof (hash_table_bytes_nonneg (sh_map_slots sh) SLOT_BYTES).
  pose proof (ring_target_bytes_nonneg _ (saturating_add (zlen (sh_clock sh)) (sh_pending_pushes sh)) H). lia.
Qed.

Lemma book_settle_paid want rest s : 0 <= want -> paid rest s -> paid rest (snd (book_settle want s)).
Proof.
  destruct s as [m sh]. intros Hw [Hb Hk Hr Hc]. cbn [fst snd] in *. unfold book_settle. cbn [fst snd].
  pose proof (balanced_buffers_nonneg _ _ Hb). destruct Hb as [H1 H2 H3 H4].
  pose proof (Bookkeeping_settle_spec want (m_budget m) (sh_book sh) Hw) as Hs.
  destruct (Bookkeeping_settle want _) as [[u|e] [b k]].
  - destruct Hs as (Hk' & Hu & Hle & Hl); [lia..|]. split; simpl; rewrite ?Hk'; auto. split; simpl; auto; lia.
  - destruct Hs as (-> & -> & _); [lia..|]. split; simpl; auto. split; simpl; auto.
Qed.

Lemma settle_bookkeeping_paid rest s : paid rest s -> paid rest (snd (settle_bookkeeping s)).
Proof. intros H. apply book_settle_paid; [apply bookkeeping_footprint_nonneg, H | exact H]. Qed.

Lemma paid_slots rest m sh sh' :
  sh_book sh' = sh_book sh -> 0 <= sh_clock_capacity sh' -> paid rest (m, sh) -> paid rest (m, sh').
Proof. intros Hb Hc [H1 H2 H3 H4]. cbn [fst snd] in *. split; cbn [fst snd]; rewrite ?Hb; auto. Qed.

Lemma release_bookkeeping_paid rest s : paid rest s -> paid rest (release_bookkeeping s).
Proof.
  intros H. unfold release_bookkeeping. apply settle_bookkeeping_paid.
  set (a := if _ <? sh_map_slots _ then _ else _). assert (paid rest a) as Ha.
  { unfold a. destruct (_ <? _); [|exact H]. set (w := _ + hash_table_bytes _ _).
    assert (paid rest (snd (book_settle w s))) as Hb.
    { apply book_settle_paid; [|exact H]. pose proof (bookkeeping_footprint_nonneg _ (pd_ring _ _ H)).
      pose proof (hash_table_bytes_nonneg (Z.of_nat (size (sh_map (snd s)))) SLOT_BYTES). unfold w. lia. }
    destruct (book_settle w s) as [[u|e] [m sh]]; [|exact Hb]. apply (paid_slots rest m sh); [reflexivity | apply Hb | exact Hb]. }
  clearbody a. destruct (_ <? _); [|exact Ha]. set (w := _ + ring_bytes _).
  assert (paid rest (snd (book_settle w a))) as Hb.
  { apply book_settle_paid; [|exact Ha]. pose proof (bookkeeping_footprint_nonneg _ (pd_ring _ _ Ha)).
    assert (0 <= ring_bytes (next_power_of_two (Z.max (saturating_add (zlen (sh_clock (snd a))) (sh_pending_pushes (snd a))) 4)))
      by (unfold ring_bytes, next_power_of_two; apply Z.mul_nonneg_nonneg; [apply Z.pow_nonneg|]; lia).
    unfold w. lia. }
  destruct (book_settle w a) as [[u|e] [m sh]]; [|exact Hb].
  apply (paid_slots rest m sh); [reflexivity | apply vd_shrink_to_size | exact Hb].
Qed.

Lemma paid_mem rest m m' sh :
  (forall r, balanced m r -> balanced m' r) -> paid rest (m, sh) -> paid rest (m', sh).
Proof. intros Hm [H1 H2 H3 H4]. cbn [fst snd] in *. split; cbn [fst snd]; auto. Qed.

Lemma paid_drop rest pin m sh : paid rest (m, sh) -> paid rest (pin_drop pin m, sh).
Proof. apply paid_mem. intros r. apply balanced_ref_drop. Qed.

Lemma evict_steps_paid n rest s : paid rest s -> paid rest (snd (evict_steps n s)).
Proof.
  revert s. induction n as [|n IH]; intros [m sh] H; cbn [evict_steps]; [exact H|].
  destruct (sh_clock sh) as [|o c]; [exact H|].
  assert (paid rest (m, set_clock c sh)) as Hc by (apply (paid_slots rest m sh); [reflexivity | apply H | exact H]).
  destruct (sh_map (set_clock c sh) !! o) as [[pin bytes []|]|]; try exact (IH _ Hc).
  - apply IH. apply (paid_slots rest m sh); [reflexivity | apply vd_push_back_size; unfold zlen; lia | exact H].
  - cbn [snd]. apply release_bookkeeping_paid, paid_drop.
    apply (paid_slots rest m sh); [reflexivity | apply H | exact H].
Qed.

Lemma evict_one_paid rest s : paid rest s -> paid rest (snd (evict_one s)).
Proof. apply evict_steps_paid. Qed.

Lemma evict_down_paid fuel cap rest s : paid rest s -> paid rest (evict_down fuel cap s).
Proof.
  revert s. induction fuel as [|fuel IH]; intros s H; simpl; [exact H|]. destruct (_ <? _); [|exact H].
  pose proof (evict_one_paid rest s H) as He. destruct (evict_one s) as [[b|] s']; [apply IH|]; exact He.
Qed.

Lemma settle_or_evict_paid fuel rest s : paid rest s -> paid rest (settle_or_evict fuel s).
Proof.
  revert s. induction fuel as [|fuel IH]; intros s H; simpl; [exact H|].
  pose proof (settle_bookkeeping_paid rest s H) as Hs. destruct (settle_bookkeeping s) as [[u|e] s']; [exact Hs|].
  pose proof (evict_one_paid rest s' Hs) as He. destruct (evict_one s') as [[b|] s'']; [apply IH|]; exact He.
Qed.

Lemma book_absorb_paid c rest s :
  0 <= ch_bytes c -> paid (ch_bytes c + rest) s -> 0 <= rest -> paid rest (book_absorb c s).
Proof.
  destruct s as [m sh]. intros Hc [Hb Hk Hr Hring] Hrest. cbn [fst snd] in *. unfold book_absorb. cbn [fst snd].
  pose proof (balanced_buffers_nonneg _ _ Hb) as Hnn. destruct Hb as [H1 H2 H3 H4].
  unfold Bookkeeping_absorb. cbn [snd fst]. destruct (sh_book sh) as [held|] eqn:Hbk; simpl in *.
  - unfold Charge_absorb, Charge_drop, Budget_release. simpl.
    assert (wrap 64 (b_used (m_budget m) - 0) = b_used (m_budget m)) as Hu
      by (rewrite Z.sub_0_r; apply Z.mod_small; unfold u64_max in *; lia).
    assert (wrap 64 (ch_bytes held + ch_bytes c) = ch_bytes held + ch_bytes c) as Hh
      by (apply Z.mod_small; unfold u64_max in *; lia).
    split; simpl; rewrite ?Hh; auto; try lia. split; simpl; rewrite ?Hu; auto; lia.
  - split; simpl; auto. split; simpl; auto; lia.
Qed.

Lemma paid_clone rest pin m sh : paid rest (m, sh) -> paid rest (pin_clone pin m, sh).
Proof. apply paid_mem. intros r. apply balanced_ref_clone. Qed.

Lemma option_release_paid charge rest m sh :
  0 <= from_option ch_bytes 0 charge -> 0 <= rest -> paid (from_option ch_bytes 0 charge + rest) (m, sh) ->
  paid rest (option_release charge m, sh).
Proof.
  intros Hc Hr [H1 H2 H3 H4]. destruct charge as [c|]; simpl in *; [|split; auto].
  split; simpl; auto. apply balanced_release; auto; [|lia].
  replace (ch_bytes c + (Bookkeeping_bytes (sh_book sh) + rest)) with (Bookkeeping_bytes (sh_book sh) + (ch_bytes c + rest)) by lia.
  exact H1.
Qed.

(** A charge that comes in with the caller is dropped, taken into the book, or
    still the caller's when the lock is released. *)
Definition charge_out (charge : option Charge) (seen : Seen) : Z :=
  match seen with InFlightElsewhere => from_option ch_bytes 0 charge | _ => 0 end.

Lemma cache_enter_paid o charge attempts rest s :
  0 <= from_option ch_bytes 0 charge -> 0 <= rest -> paid (from_option ch_bytes 0 charge + rest) s ->
  match cache_enter o charge attempts s with
  | (seen, s') => paid (charge_out charge seen + rest) s'
  end.
Proof.
  destruct s as [m sh]. intros Hc Hr H. unfold cache_enter. cbn [snd].
  destruct (sh_map sh !! o) as [[pin bytes r|]|] eqn:Ho.
  - unfold touch. simpl. rewrite Ho. apply option_release_paid; auto. apply paid_clone.
    apply (paid_slots _ m sh); [reflexivity | apply H | exact H].
  - exact H.
  - unfold mark_loading. destruct charge as [c|]; [|exact H]. simpl in Hc, H.
    pose proof (option_release_paid (Some c) rest m sh Hc Hr H) as Hrel.
    destruct (_ <? _); [case_bool_decide; exact Hrel|]. apply settle_bookkeeping_paid.
    apply book_absorb_paid; auto. apply (paid_slots _ m sh); [reflexivity | apply H | exact H].
Qed.

Lemma unmark_paid o rest s : paid rest s -> paid rest (unmark o s).
Proof. destruct s as [m sh]. intros H. apply (paid_slots _ m sh); [reflexivity | apply H | exact H]. Qed.

Lemma InFlight_drop_paid o rest s : paid rest s -> paid rest (InFlight_drop o s).
Proof. intros H. apply release_bookkeeping_paid, unmark_paid, H. Qed.

Lemma insert_ready_paid o pin bytes rest s : paid rest s -> paid rest (insert_ready o pin bytes s).
Proof.
  destruct s as [m sh]. intros H. apply paid_clone.
  apply (paid_slots _ m sh); [reflexivity | apply vd_push_back_size; unfold zlen; lia | exact H].
Qed.

Lemma remove_ready_paid o rest s : paid rest s -> paid rest (remove_ready o s).
Proof.
  destruct s as [m sh]. intros H. unfold remove_ready. destruct (sh_map sh !! o) as [[pin bytes r|]|].
  - apply paid_drop. apply (paid_slots _ m sh); [reflexivity | apply H | exact H].
  - apply (paid_slots _ m sh); [reflexivity | apply H | exact H].
  - exact H.
Qed.

Lemma publish_paid cap o pin bytes rest s : paid rest s -> paid rest (publish cap o pin bytes s).
Proof.
  intros H. unfold publish, evict_down_to_capacity. set (a := settle_or_evict _ _).
  assert (paid rest a) as Ha by (apply settle_or_evict_paid, evict_down_paid, insert_ready_paid, unmark_paid, H).
  pose proof (settle_bookkeeping_paid rest a Ha) as Hs. destruct (settle_bookkeeping a) as [[u|e] s']; [exact Hs|].
  apply release_bookkeeping_paid, remove_ready_paid, Hs.
Qed.

(** ** The cache's share *)

Definition shard_book (sh : ShardInner) : Z := Bookkeeping_bytes (sh_book sh).

Record cache_paid (rest : Z) (s : Mem * PageCache) : Prop := {
  cp_balanced : balanced (fst s) (zsum (shard_book <$> pc_shards (snd s)) + rest);
  cp_shards : forall i sh, pc_shards (snd s) !! i = Some sh -> 0 <= shard_book sh /\ 0 <= sh_clock_capacity sh;
  cp_rest : 0 <= rest;
}.

Lemma with_shard_paid {A} i (f : Mem * ShardInner -> A * (Mem * ShardInner)) d d' rest m c :
  (i < length (pc_shards c))%nat -> 0 <= d -> 0 <= d' -> 0 <= rest -> cache_paid (d + rest) (m, c) ->
  (forall r, 0 <= r -> paid (d + r) (m, shard_at c i) -> paid (d' + r) (snd (f (m, shard_at c i)))) ->
  cache_paid (d' + rest) (snd (with_shard i f (m, c))).
Proof.
  intros Hi Hd Hd' Hr [H1 H2 H3] Hf. cbn [fst snd] in *. pose proof (shard_at_lookup c i Hi) as Hlk.
  pose proof (H2 i _ Hlk) as [Hb Hcap].
  set (others := zsum (shard_book <$> pc_shards c) - shard_book (shard_at c i)).
  assert (0 <= others) as Hoth.
  { unfold others. enough (shard_book (shard_at c i) <= zsum (shard_book <$> pc_shards c)) by lia.
    apply (zsum_ge _ i); [|now rewrite list_lookup_fmap, Hlk]. apply Forall_fmap, Forall_lookup.
    intros j sh Hj. exact (proj1 (H2 j sh Hj)). }
  assert (paid (d + (others + rest)) (m, shard_at c i)) as Hpaid.
  { split; cbn [fst snd]; auto; try lia. fold (shard_book (shard_at c i)).
    replace (shard_book (shard_at c i) + (d + (others + rest)))
      with (zsum (shard_book <$> pc_shards c) + (d + rest)) by (unfold others; lia). exact H1. }
  specialize (Hf _ (Z.add_nonneg_nonneg _ _ Hoth Hr) Hpaid). unfold with_shard.
  change (default ShardInner_default (pc_shards c !! i)) with (shard_at c i).
  destruct (f (m, shard_at c i)) as [a [m' sh']]. cbn [snd] in *. destruct Hf as [F1 F2 F3 F4]. cbn [fst snd] in *.
  split; cbn [fst snd]; [| |lia].
  - simpl. rewrite (zsum_replace _ _ _ _ _ Hlk). fold (shard_book sh') in F1.
    replace (zsum (shard_book <$> pc_shards c) - shard_book (shard_at c i) + shard_book sh' + (d' + rest))
      with (shard_book sh' + (d' + (others + rest))) by (unfold others; lia). exact F1.
  - simpl. intros j sh [(-> & <- & _)|[_ Hj]]%list_lookup_insert_Some; [auto | exact (H2 j sh Hj)].
Qed.

Lemma evict_bytes_loop_paid fuel target start released idle cursor rest s :
  (0 < length (pc_shards (snd s)))%nat -> cache_paid rest s ->
  cache_paid rest (snd (evict_bytes_loop fuel target start released idle cursor s)).
Proof.
  revert released idle cursor s. induction fuel as [|fuel IH]; intros released idle cursor [m c] Hn H;
    cbn [evict_bytes_loop]; [exact H|]. cbn [snd] in *. destruct (_ && _); [|exact H].
  set (i := Z.to_nat _). assert (i < length (pc_shards c))%nat as Hi.
  { pose proof (Z.mod_pos_bound (start + cursor) (zlen (pc_shards c))). unfold i, zlen in *. lia. }
  assert (cache_paid rest (snd (with_shard i evict_one (m, c)))) as Hw.
  { apply (with_shard_paid i evict_one 0 0 rest m c); auto; try lia; [apply H|]. intros r _. apply evict_one_paid. }
  assert (length (pc_shards (snd (snd (with_shard i evict_one (m, c))))) = length (pc_shards c)) as Hl.
  { unfold with_shard. destruct (evict_one _) as [a [m' sh']]. simpl. apply length_insert. }
  destruct (with_shard i evict_one (m, c)) as [[b|] [m' c']]; cbn [snd] in *; apply IH; auto; cbn [snd]; lia.
Qed.

Lemma evict_bytes_paid target rest s :
  (0 < length (pc_shards (snd s)))%nat -> cache_paid rest s -> cache_paid rest (snd (evict_bytes target s)).
Proof.
  destruct s as [m c]. intros Hn [H1 H2 H3]. apply evict_bytes_loop_paid; [exact Hn|]. split; auto.
Qed.

Lemma touch_paid o rest s : paid rest s -> paid rest (snd (touch o s)).
Proof.
  destruct s as [m sh]. intros H. unfold touch. simpl. destruct (sh_map sh !! o) as [[pin bytes r|]|]; try exact H.
  apply paid_clone. apply (paid_slots _ m sh); [reflexivity | apply H | exact H].
Qed.
End Accounting.
End Balance.

(** A new buffer takes its charge over, and its id is used up. *)
Lemma balanced_pin_alloc (fresh fresh' : positive -> Prop) b c m rest :
  fresh b -> (forall b', fresh' b' -> fresh b' /\ b' <> b) -> 0 <= ch_bytes c -> 0 <= rest ->
  balanced fresh m (ch_bytes c + rest) -> balanced fresh' (pin_alloc b c m) rest.
Proof.
  intros Hb Hf Hc Hr [H1 H2 H3 H4 H5]. split; simpl; auto.
  - rewrite msum_insert_new by auto. unfold buffer_charge at 1. simpl. lia.
  - intros b' bf [[_ <-]|[_ Hv]]%lookup_insert_Some; [exact Hc | exact (H3 _ _ Hv)].
  - intros b' Hb'. destruct (Hf b' Hb') as [Hfr Hne]. rewrite lookup_insert_None. split; [auto | congruence].
Qed.
