(* ===== verification/CacheSync.v ===== *)
(** Threads on one shard of the page cache, [crates/drydb/src/cache.rs].

    The critical sections of [Cache.v] are the atomic steps; between them a
    thread reserves, loads or waits on the shard's condition variable.  [sync]
    is the step relation of any number of threads in [get_or_load] on one
    shard, with other threads evicting from it at any time.  It is what makes
    concurrent misses share one load and what keeps waiters from being
    stranded. *)

From Stdlib Require Import ZArith Lia.
From stdpp Require Import base gmap list.
From S2P Require Import Prelude Errors Budget Page Cache CacheFacts.

#[local] Open Scope Z_scope.

(** What [load] comes to: a page, an error, or a panic that unwinds through
    [InFlight]. *)
Inductive Loaded : Type :=
| LoadedPage (pin : PagePin) (bytes : Z)
| LoadFailed
| LoadPanicked.

(** Where a thread is in [get_or_load]. *)
Inductive PC : Type :=
| Idle
| Entering (o : Z) (charge : option Charge) (attempts : nat)
| Waiting (o : Z) (charge : option Charge) (attempts : nat)
| Reserving (o want : Z) (attempts : nat)
| InLoad (o : Z)
| Ending (o : Z) (outcome : Loaded)
| Returned (o : Z) (pin : option PagePin).

Record World : Type := mkWorld {
  w_mem : Mem;
  w_shard : ShardInner;
  w_threads : list PC;
  (** Every page a load has produced; a ghost of the proofs. *)
  w_loaded : list (Z * PagePin);
}.

(** [ready.notify_all()] *)
Definition notify (pc : PC) : PC :=
  match pc with Waiting o charge attempts => Entering o charge attempts | _ => pc end.

Definition outcome_pin (outcome : Loaded) : option PagePin :=
  match outcome with LoadedPage pin _ => Some pin | _ => None end.

Section Sync.
Context {SA : StdAlloc} (capacity_per_shard : Z).

(** The state of a thread after its pass under the lock. *)
Definition after_enter (o : Z) (charge : option Charge) (attempts : nat) (seen : Seen) : PC :=
  match seen with
  | Hit pin => Returned o (Some pin)
  | InFlightElsewhere => Waiting o charge attempts
  | Reserve want attempts => Reserving o want attempts
  | Marked => InLoad o
  | Refused _ => Returned o None
  end.

(** The section that ends a load. *)
Definition end_load (o : Z) (outcome : Loaded) (s : Mem * ShardInner) : Mem * ShardInner :=
  match outcome with
  | LoadedPage pin bytes => publish capacity_per_shard o pin bytes s
  | LoadFailed | LoadPanicked => InFlight_drop o s
  end.

Definition move (i : nat) (pc : PC) (s : Mem * ShardInner) (w : World) : World :=
  mkWorld (fst s) (snd s) (<[i := pc]> (w_threads w)) (w_loaded w).

Definition entered (i : nat) (o : Z) (charge : option Charge) (attempts : nat) (w : World) : World :=
  let '(seen, s) := cache_enter o charge attempts (w_mem w, w_shard w) in
  move i (after_enter o charge attempts seen) s w.

Inductive sync (w : World) : World -> Prop :=
| sync_call i o :
    w_threads w !! i = Some Idle ->
    sync w (move i (Entering o None 0) (w_mem w, w_shard w) w)
| sync_enter i o charge attempts :
    w_threads w !! i = Some (Entering o charge attempts) ->
    sync w (entered i o charge attempts w)
| sync_wake i o charge attempts :
    (* a condition variable may wake a thread for no reason *)
    w_threads w !! i = Some (Waiting o charge attempts) ->
    sync w (move i (Entering o charge attempts) (w_mem w, w_shard w) w)
| sync_reserved i o want attempts charge m :
    w_threads w !! i = Some (Reserving o want attempts) ->
    sync w (move i (Entering o (Some charge) attempts) (m, w_shard w) w)
| sync_refused i o want attempts :
    w_threads w !! i = Some (Reserving o want attempts) ->
    sync w (move i (Returned o None) (w_mem w, w_shard w) w)
| sync_loaded i o pin bytes m :
    w_threads w !! i = Some (InLoad o) -> 0 < bytes ->
    sync w (mkWorld m (w_shard w) (<[i := Ending o (LoadedPage pin bytes)]> (w_threads w)) ((o, pin) :: w_loaded w))
| sync_not_loaded i o outcome m :
    w_threads w !! i = Some (InLoad o) -> outcome_pin outcome = None ->
    sync w (move i (Ending o outcome) (m, w_shard w) w)
| sync_end i o outcome m sh :
    w_threads w !! i = Some (Ending o outcome) ->
    end_load o outcome (w_mem w, w_shard w) = (m, sh) ->
    sync w (mkWorld m sh (notify <$> <[i := Returned o (outcome_pin outcome)]> (w_threads w)) (w_loaded w))
| sync_evict r m sh :
    (* somebody else reclaims *)
    evict_one (w_mem w, w_shard w) = (r, (m, sh)) ->
    sync w (mkWorld m sh (w_threads w) (w_loaded w)).

Inductive reachable (n : nat) (m : Mem) : World -> Prop :=
| reach_init : reachable n m (mkWorld m ShardInner_default (replicate n Idle) [])
| reach_step w w' : reachable n m w -> sync w w' -> reachable n m w'.

(** ** The invariant *)

(** A thread that has marked [o] and not yet unmarked it. *)
Definition in_flight (o : Z) (pc : PC) : bool :=
  match pc with InLoad o' | Ending o' _ => o' =? o | _ => false end.

Definition flights (o : Z) (ts : list PC) : Z := zsum ((fun pc => Z.b2z (in_flight o pc)) <$> ts).

Definition marks (o : Z) (sh : ShardInner) : Z :=
  match pages sh !! o with Some Loading => 1 | _ => 0 end.

Definition outcome_ok (loaded : list (Z * PagePin)) (pc : PC) : Prop :=
  match pc with
  | Ending o (LoadedPage pin bytes) => (o, pin) ∈ loaded /\ 0 < bytes
  | Returned o (Some pin) => (o, pin) ∈ loaded
  | _ => True
  end.

Record sync_inv (w : World) : Prop := {
  sn_shard : shard_inv (w_shard w);
  (** One thread is in flight for each marker, and none without one. *)
  sn_flights : forall o, flights o (w_threads w) = marks o (w_shard w);
  sn_waiting : forall i o charge attempts,
    w_threads w !! i = Some (Waiting o charge attempts) -> pages (w_shard w) !! o = Some Loading;
  sn_pages : forall o pin bytes, pages (w_shard w) !! o = Some (Ready pin bytes false) -> (o, pin) ∈ w_loaded w;
  sn_outcomes : Forall (outcome_ok (w_loaded w)) (w_threads w);
}.

Lemma flights_move o ts i pc pc' :
  ts !! i = Some pc ->
  flights o (<[i := pc']> ts) = flights o ts - Z.b2z (in_flight o pc) + Z.b2z (in_flight o pc').
Proof. intros Hi. unfold flights. rewrite list_fmap_insert. apply zsum_insert. now rewrite list_lookup_fmap, Hi. Qed.

Lemma flights_notify o ts : flights o (notify <$> ts) = flights o ts.
Proof.
  unfold flights. rewrite <- list_fmap_compose. f_equal. apply list_fmap_ext. intros i pc _. now destruct pc.
Qed.

Lemma flights_idle o n : flights o (replicate n Idle) = 0.
Proof. unfold flights. induction n as [|n IH]; simpl; [reflexivity | exact IH]. Qed.

Lemma flights_pos o ts i pc : ts !! i = Some pc -> in_flight o pc = true -> 1 <= flights o ts.
Proof.
  intros Hi Hf. unfold flights. apply (zsum_ge _ i).
  - apply Forall_fmap, Forall_forall. intros p _. simpl. destruct (in_flight o p); simpl; lia.
  - rewrite list_lookup_fmap, Hi. simpl. now rewrite Hf.
Qed.

Lemma marks_same o sh sh' : pages sh' = pages sh -> marks o sh' = marks o sh.
Proof. unfold marks. now intros ->. Qed.

Lemma marks_iff o sh sh' :
  (pages sh' !! o = Some Loading <-> pages sh !! o = Some Loading) -> marks o sh' = marks o sh.
Proof.
  unfold marks. intros H. destruct (pages sh' !! o) as [[]|], (pages sh !! o) as [[]|]; try reflexivity;
    exfalso; (assert (Some Loading = Some Loading) as Hr by reflexivity); apply H in Hr; discriminate.
Qed.

(** A thread that is not in flight before or after changes nothing but itself. *)
Lemma sync_inv_move w i pc pc' m :
  sync_inv w -> w_threads w !! i = Some pc ->
  (forall o, in_flight o pc' = in_flight o pc) ->
  (forall o charge attempts, pc' = Waiting o charge attempts -> pages (w_shard w) !! o = Some Loading) ->
  outcome_ok (w_loaded w) pc' ->
  sync_inv (move i pc' (m, w_shard w) w).
Proof.
  intros [H1 H2 H3 H4 H5] Hi Hf Hw Ho. split; simpl; auto.
  - intros o. rewrite (flights_move o _ i pc pc' Hi), Hf, H2. lia.
  - intros j o charge attempts [(-> & Hp & _)|[_ Hj]]%list_lookup_insert_Some; [eauto | exact (H3 j o _ _ Hj)].
  - apply Forall_insert; [exact H5 | exact Ho].
Qed.

Lemma sync_inv_step w w' : sync_inv w -> sync w w' -> sync_inv w'.
Proof.
  intros Hinv Hstep. pose proof Hinv as [H1 H2 H3 H4 H5]. destruct Hstep as
    [i o Hi | i o charge attempts Hi | i o charge attempts Hi | i o want attempts charge m Hi | i o want attempts Hi
    | i o pin bytes m Hi Hb | i o outcome m Hi Hno | i o outcome m sh Hi Hend | r m sh Hev].
  - now apply (sync_inv_move w i Idle).
  - pose proof (cache_enter_spec o charge attempts (w_mem w) (w_shard w) H1) as He.
    unfold entered. destruct (cache_enter o charge attempts (w_mem w, w_shard w)) as [seen [m sh]]. destruct He as [Hsh He].
    assert (pages sh = pages (w_shard w) -> (forall x, in_flight x (after_enter o charge attempts seen) = false) ->
      (forall x c a, after_enter o charge attempts seen = Waiting x c a -> pages (w_shard w) !! x = Some Loading) ->
      outcome_ok (w_loaded w) (after_enter o charge attempts seen) ->
      sync_inv (move i (after_enter o charge attempts seen) (m, sh) w)) as Hsame.
    { intros Hp Hf Hw Ho. pose proof (sync_inv_move w i _ _ m Hinv Hi (fun x => Hf x) Hw Ho) as [G1 G2 G3 G4 G5].
      split; simpl in *; [exact Hsh | | | |exact G5].
      - intros x. rewrite (marks_same x _ _ Hp). apply G2.
      - intros j x c a Hj. rewrite Hp. exact (G3 j x c a Hj).
      - intros x p b. rewrite Hp. apply G4. }
    destruct seen as [pin| |want att| |e]; simpl in Hsame |- *.
    + destruct He as [[bytes Hb] Hp]. apply Hsame; auto; [discriminate|]. exact (H4 o pin bytes Hb).
    + destruct He as (Hl & -> & _). apply Hsame; auto. now intros x c a [= <- _ _].
    + destruct He as [_ ->]. apply Hsame; auto. discriminate.
    + destruct He as [Hn Hp]. split; simpl; [exact Hsh | | | |].
      * intros x. rewrite (flights_move x _ i _ _ Hi), H2. unfold marks. rewrite Hp. simpl.
        destruct (Z.eqb_spec o x) as [<-|Hne]; [rewrite lookup_insert_eq, Hn | rewrite lookup_insert_ne by exact Hne]; simpl; lia.
      * intros j x c a [(-> & ? & _)|[_ Hj]]%list_lookup_insert_Some; [discriminate|]. pose proof (H3 j x c a Hj) as Hx.
        rewrite Hp. rewrite lookup_insert_ne; [exact Hx | congruence].
      * intros x p b. rewrite Hp. intros [[_ ?]|[_ Hx]]%lookup_insert_Some; [discriminate | exact (H4 x p b Hx)].
      * now apply Forall_insert.
    + destruct He as [_ ->]. apply Hsame; auto. discriminate.
  - now apply (sync_inv_move w i (Waiting o charge attempts)).
  - now apply (sync_inv_move w i (Reserving o want attempts)).
  - now apply (sync_inv_move w i (Reserving o want attempts)).
  - assert (sync_inv (mkWorld (w_mem w) (w_shard w) (w_threads w) ((o, pin) :: w_loaded w))) as Hmore.
    { split; simpl; auto; [intros x p b Hx; right; exact (H4 x p b Hx)|]. eapply Forall_impl; [exact H5|].
      intros [| | | | |x []|x []] Hok; simpl in *; auto; [destruct Hok; split; auto|]; now right. }
    refine (sync_inv_move _ i (InLoad o) (Ending o (LoadedPage pin bytes)) m Hmore Hi _ _ _); auto; [discriminate|].
    split; [left | exact Hb].
  - apply (sync_inv_move w i (InLoad o)); auto; [discriminate|]. now destruct outcome.
  - assert (1 <= flights o (w_threads w)) as Hpos by (apply (flights_pos o _ i _ Hi); simpl; apply Z.eqb_refl).
    assert (pages (w_shard w) !! o = Some Loading) as Hl.
    { rewrite H2 in Hpos. unfold marks in Hpos. destruct (_ !! o) as [[]|]; auto; lia. }
    pose proof (Forall_lookup_1 _ _ _ _ H5 Hi) as Hok.
    assert (let sh' := snd (end_load o outcome (w_mem w, w_shard w)) in shard_inv sh' /\
      (forall x p b, pages sh' !! x = Some (Ready p b false) -> (x, p) ∈ w_loaded w) /\
      forall x, pages sh' !! x = Some Loading <-> x <> o /\ pages (w_shard w) !! x = Some Loading) as (Hsh & Hpg & Hld).
    { destruct outcome as [pin bytes| |]; simpl in Hok |- *.
      - destruct Hok as [Hin Hb]. destruct (publish_spec capacity_per_shard o pin bytes (w_mem w, w_shard w) H1 Hl Hb) as (G1 & G2 & G3).
        split; [exact G1|]. split; [|exact G3]. intros x p b Hx. pose proof (lookup_weaken _ _ _ _ Hx G2) as Hx'.
        apply lookup_insert_Some in Hx' as [[<- [= <- _]]|[_ Hx']]; [exact Hin | exact (H4 x p b Hx')].
      - destruct (InFlight_drop_spec o (w_mem w, w_shard w) H1 Hl) as [G1 G2]. split; [exact G1|]. rewrite G2. split.
        + intros x p b [_ Hx]%lookup_delete_Some. exact (H4 x p b Hx).
        + intros x. rewrite lookup_delete_Some. intuition congruence.
      - destruct (InFlight_drop_spec o (w_mem w, w_shard w) H1 Hl) as [G1 G2]. split; [exact G1|]. rewrite G2. split.
        + intros x p b [_ Hx]%lookup_delete_Some. exact (H4 x p b Hx).
        + intros x. rewrite lookup_delete_Some. intuition congruence. }
    rewrite Hend in Hsh, Hpg, Hld. simpl in *. split; simpl; [exact Hsh | | | exact Hpg |].
    + intros x. rewrite flights_notify, (flights_move x _ i _ _ Hi), H2. simpl. destruct (Z.eqb_spec o x) as [<-|Hne]; simpl.
      * unfold marks. rewrite Hl. destruct (pages sh !! o) as [[]|] eqn:Hx; try lia. apply Hld in Hx. tauto.
      * rewrite (marks_iff x (w_shard w) sh); [lia|]. rewrite Hld. intuition congruence.
    + intros j x c a Hj. rewrite list_lookup_fmap in Hj. destruct (_ !! j) as [[]|]; discriminate.
    + apply Forall_fmap. apply Forall_insert.
      * eapply Forall_impl; [exact H5|]. now intros [].
      * simpl. destruct outcome; simpl in *; auto. apply Hok.
  - pose proof (evict_one_shrinks (w_mem w) (w_shard w) H1) as (Hsh & Hk & Hl).
    rewrite Hev in Hsh, Hk, Hl. simpl in *. split; simpl; auto.
    + intros o. rewrite H2. symmetry. apply marks_iff, Hl.
    + intros i o c a Hi. apply Hl. exact (H3 i o c a Hi).
    + intros o p b Ho. exact (H4 o p b (lookup_weaken _ _ _ _ Ho Hk)).
Qed.

Lemma sync_inv_reachable n m w : reachable n m w -> sync_inv w.
Proof.
  induction 1 as [|w w' _ IH Hs]; [|exact (sync_inv_step w w' IH Hs)]. split; simpl.
  - apply shard_inv_default.
  - intros o. rewrite flights_idle. unfold marks, pages. simpl. now rewrite fmap_empty, lookup_empty.
  - intros i o c a [? _]%lookup_replicate_1. discriminate.
  - intros o p b. unfold pages. simpl. now rewrite fmap_empty, lookup_empty.
  - apply Forall_replicate. exact I.
Qed.

Lemma flights_two o ts i j pi pj :
  i <> j -> ts !! i = Some pi -> ts !! j = Some pj -> in_flight o pi = true -> in_flight o pj = true -> 2 <= flights o ts.
Proof.
  intros Hne Hi Hj Hfi Hfj. pose proof (flights_move o ts i pi Idle Hi) as Hm. rewrite Hfi in Hm. simpl in Hm.
  pose proof (flights_pos o (<[i := Idle]> ts) j pj) as Hp. rewrite list_lookup_insert_ne in Hp by exact Hne.
  specialize (Hp Hj Hfj). lia.
Qed.

Lemma marks_bound o sh : 0 <= marks o sh <= 1.
Proof. unfold marks. destruct (_ !! o) as [[]|]; lia. Qed.

Lemma flights_some o ts : 1 <= flights o ts -> exists i pc, ts !! i = Some pc /\ in_flight o pc = true.
Proof.
  unfold flights. induction ts as [|pc ts IH]; intros H; [unfold zsum in H; simpl in H; lia|].
  change (1 <= Z.b2z (in_flight o pc) + zsum ((fun pc => Z.b2z (in_flight o pc)) <$> ts)) in H.
  destruct (in_flight o pc) eqn:Hf; [exists O, pc; auto|]. simpl in H. destruct (IH H) as (i & p & Hi & Hp).
  exists (S i), p. auto.
Qed.

(** C18: concurrent misses share one load.  Whatever any number of threads do on a
    shard, at most one of them is loading a given page, and only while the page is
    marked and not cached; every page a call hands out was produced by a load of
    that very page. *)
Theorem single_flight n m w o :
  reachable n m w ->
  (forall i j pi pj, w_threads w !! i = Some pi -> w_threads w !! j = Some pj ->
     in_flight o pi = true -> in_flight o pj = true -> i = j) /\
  (forall i pi, w_threads w !! i = Some pi -> in_flight o pi = true -> pages (w_shard w) !! o = Some Loading) /\
  (forall i pin, w_threads w !! i = Some (Returned o (Some pin)) -> (o, pin) ∈ w_loaded w).
Proof.
  intros [H1 H2 H3 H4 H5]%sync_inv_reachable. split; [|split].
  - intros i j pi pj Hi Hj Hfi Hfj. destruct (decide (i = j)) as [|Hne]; [assumption|]. exfalso.
    pose proof (flights_two o _ i j pi pj Hne Hi Hj Hfi Hfj). rewrite H2 in *. pose proof (marks_bound o (w_shard w)). lia.
  - intros i pi Hi Hf. pose proof (flights_pos o _ i pi Hi Hf) as Hp. rewrite H2 in Hp. unfold marks in Hp.
    destruct (_ !! o) as [[]|]; auto; lia.
  - intros i pin Hi. exact (Forall_lookup_1 _ _ _ _ H5 Hi).
Qed.

(** C24: no waiter is stranded.  A thread that waits waits for a page some other
    thread is loading, and when that load ends, with a page, an error or a panic,
    the waiter is awake again. *)
Theorem waiters_are_woken n m w i o charge attempts :
  reachable n m w -> w_threads w !! i = Some (Waiting o charge attempts) ->
  exists j pj, j <> i /\ w_threads w !! j = Some pj /\ in_flight o pj = true /\
    forall outcome, pj = Ending o outcome ->
      exists w', sync w w' /\ w_threads w' !! i = Some (Entering o charge attempts) /\
        w_threads w' !! j = Some (Returned o (outcome_pin outcome)) /\
        forall k x c a, w_threads w' !! k <> Some (Waiting x c a).
Proof.
  intros Hr Hi. pose proof (sync_inv_reachable _ _ _ Hr) as [H1 H2 H3 H4 H5].
  pose proof (H3 i o charge attempts Hi) as Hl. destruct (flights_some o (w_threads w)) as (j & pj & Hj & Hf).
  { rewrite H2. unfold marks. rewrite Hl. lia. }
  assert (j <> i) as Hne by (intros ->; rewrite Hj in Hi; injection Hi as ->; discriminate).
  exists j, pj. repeat split; auto. intros outcome ->.
  destruct (end_load o outcome (w_mem w, w_shard w)) as [m' sh'] eqn:He.
  eexists. split; [exact (sync_end w j o outcome m' sh' Hj He)|]. simpl. rewrite !list_lookup_fmap.
  rewrite list_lookup_insert_ne by congruence. rewrite Hi. split; [reflexivity|].
  rewrite list_lookup_insert_eq by (apply lookup_lt_is_Some; eauto). split; [reflexivity|].
  intros k x c a. rewrite list_lookup_fmap. destruct (_ !! k) as [[]|]; discriminate.
Qed.
End Sync.

(** ** Two threads and one page *)

Definition sync_mem : Mem := mkMem (mkBudget 1000 400 400) ∅.
Definition sync_start : World := mkWorld sync_mem ShardInner_default (replicate 2 Idle) [].
Definition called (i : nat) (w : World) : World := move i (Entering 5 None 0) (w_mem w, w_shard w) w.
Definition sync_calls : World := called 1 (called 0 sync_start).
Definition sync_asked : World := entered (SA := exact_alloc) 0 5 None 0 sync_calls.
Definition sync_charged : World := move 0 (Entering 5 (Some (mkCharge 400)) 0) (sync_mem, w_shard sync_asked) sync_asked.
Definition sync_marked : World := entered (SA := exact_alloc) 0 5 (Some (mkCharge 400)) 0 sync_charged.
(** The first thread is loading page 5, the second waits for it. *)
Definition two_threads : World := entered (SA := exact_alloc) 1 5 None 0 sync_marked.

Lemma two_threads_state : w_threads two_threads = [InLoad 5; Waiting 5 None 0].
Proof. vm_compute. reflexivity. Qed.

Lemma two_threads_reachable : reachable (SA := exact_alloc) 100 2 sync_mem two_threads.
Proof.
  assert (reachable (SA := exact_alloc) 100 2 sync_mem sync_calls) as H0.
  { refine (reach_step _ _ _ (called 0 sync_start) _ _ (sync_call _ (called 0 sync_start) 1 5 eq_refl)).
    exact (reach_step _ _ _ sync_start _ (reach_init _ _ _) (sync_call _ sync_start 0 5 eq_refl)). }
  assert (reachable (SA := exact_alloc) 100 2 sync_mem sync_asked) as H1
    by (refine (reach_step _ _ _ _ _ H0 (sync_enter _ _ 0 5 None 0 _)); reflexivity).
  assert (w_threads sync_asked !! 0%nat = Some (Reserving 5 (LOADING_SLOT_BYTES + growth_for_one_more ShardInner_default) 0))
    as Hr by (vm_compute; reflexivity).
  assert (reachable (SA := exact_alloc) 100 2 sync_mem sync_charged) as H2
    by exact (reach_step _ _ _ _ _ H1 (sync_reserved _ _ 0 5 _ 0 (mkCharge 400) sync_mem Hr)).
  assert (w_threads sync_charged !! 0%nat = Some (Entering 5 (Some (mkCharge 400)) 0)) as He by (vm_compute; reflexivity).
  assert (reachable (SA := exact_alloc) 100 2 sync_mem sync_marked) as H3
    by exact (reach_step _ _ _ _ _ H2 (sync_enter _ _ 0 5 _ 0 He)).
  assert (w_threads sync_marked !! 1%nat = Some (Entering 5 None 0)) as He1 by (vm_compute; reflexivity).
  exact (reach_step _ _ _ _ _ H3 (sync_enter _ _ 1 5 _ 0 He1)).
Qed.

Lemma single_flight_witness :
  pages (w_shard two_threads) !! 5 = Some Loading /\
  forall j pj, w_threads two_threads !! j = Some pj -> in_flight 5 pj = true -> j = 0%nat.
Proof.
  destruct (single_flight (SA := exact_alloc) 100 2 sync_mem two_threads 5 two_threads_reachable) as (H1 & H2 & _).
  assert (w_threads two_threads !! 0%nat = Some (InLoad 5)) as H0 by now rewrite two_threads_state.
  split; [exact (H2 0%nat _ H0 eq_refl)|]. intros j pj Hj Hf. exact (H1 j 0%nat pj _ Hj H0 Hf eq_refl).
Defined.

Lemma waiters_are_woken_witness :
  exists j pj, j <> 1%nat /\ w_threads two_threads !! j = Some pj /\ in_flight 5 pj = true.
Proof.
  destruct (waiters_are_woken (SA := exact_alloc) 100 2 sync_mem two_threads 1 5 None 0 two_threads_reachable
    ltac:(now rewrite two_threads_state)) as (j & pj & Hne & Hj & Hf & _).
  exists j, pj. auto.
Defined.
