(* ===== verification/Directory.v ===== *)
(** The page directory, [crates/drydb/src/directory.rs].

    The directory maps a page ordinal to a file offset.  It is read in chunks,
    of which a bounded number is kept; a chunk that does not fit the budget
    takes memory back from the other chunks and, through [reclaim], from the
    pages.  [page_offset] is what the file says; [offset_of] is proved to
    return it whatever is resident. *)

From Stdlib Require Import ZArith Lia.
From stdpp Require Import base list gmap.
From coqutil Require Import Byte.
From S2P Require Import Prelude Errors Format Budget Page Source Cache CacheFacts.

#[local] Open Scope Z_scope.
#[local] Open Scope drydb_scope.

Record CachedChunk : Type := mkCachedChunk {
  ck_index : Z;
  ck_data : list byte;
  ck_last_used : Z;
  ck_charge : Charge;
}.

(** The capacity of the vector of chunks is not charged and is left out. *)
Record PageDirectory : Type := mkPageDirectory {
  pd_base : Z;
  pd_count : Z;
  pd_entries_per_chunk : Z;
  pd_max_chunks : Z;
  pd_chunks : list CachedChunk;
  pd_tick : Z;
}.

Definition PageDirectory_new (base count entries_per_chunk max_chunks : Z) : PageDirectory :=
  mkPageDirectory base count (Z.max entries_per_chunk 1) (Z.max max_chunks 1) [] 0.

Definition set_chunks (chunks : list CachedChunk) (d : PageDirectory) : PageDirectory :=
  mkPageDirectory (pd_base d) (pd_count d) (pd_entries_per_chunk d) (pd_max_chunks d) chunks (pd_tick d).

(** [self.tick.fetch_add(1)] *)
Definition next_tick (d : PageDirectory) : Z * PageDirectory :=
  (pd_tick d, mkPageDirectory (pd_base d) (pd_count d) (pd_entries_per_chunk d) (pd_max_chunks d) (pd_chunks d)
                (wrap 64 (pd_tick d + 1))).

Definition chunks_held (d : PageDirectory) : Z := zlen (pd_chunks d).

(** The first chunk with the given index is used now. *)
Fixpoint use_chunk (tick index : Z) (chunks : list CachedChunk) : option CachedChunk * list CachedChunk :=
  match chunks with
  | [] => (None, [])
  | ck :: chunks =>
      if ck_index ck =? index then
        (Some ck, mkCachedChunk (ck_index ck) (ck_data ck) tick (ck_charge ck) :: chunks)
      else let '(found, chunks) := use_chunk tick index chunks in (found, ck :: chunks)
  end.

Definition dir_lookup (chunk_index slot : Z) (d : PageDirectory) : Result (option Z) * PageDirectory :=
  let '(tick, d) := next_tick d in
  let '(found, chunks) := use_chunk tick chunk_index (pd_chunks d) in
  (match found with
   | Some ck => rmap Some (read_i64 (ck_data ck) slot)
   | None => Ok None
   end, set_chunks chunks d).

Definition validate_offset (d : PageDirectory) (raw : Z) (o : PageOrdinal) : Result FileOffset :=
  let? offset := map_err (fun e => at_page e o) (FileOffset_from_i64 raw) in
  fail? (offset <? HEADER_LEN) || (pd_base d <=? offset) with at_page Error_corrupt o in
  Ok offset.

(** [min_by_key(last_used)]: the first of the least recently used. *)
Fixpoint oldest (chunks : list CachedChunk) : option nat :=
  match chunks with
  | [] => None
  | ck :: rest =>
      match oldest rest with
      | None => Some O
      | Some i =>
          match rest !! i with
          | Some best => if ck_last_used ck <=? ck_last_used best then Some O else Some (S i)
          | None => Some O
          end
      end
  end.

(** [Vec::swap_remove]: the last element takes the place of the one removed. *)
Definition swap_remove {A} (i : nat) (l : list A) : list A :=
  match last l with
  | None => l
  | Some x => take (length l - 1) (<[i := x]> l)
  end.

(** The chunk that goes gives its reservation back. *)
Definition drop_oldest (s : Mem * PageDirectory) : bool * (Mem * PageDirectory) :=
  let '(m, d) := s in
  match oldest (pd_chunks d) with
  | None => (false, s)
  | Some i =>
      let m := option_release (ck_charge <$> (pd_chunks d !! i)) m in
      (true, (m, set_chunks (swap_remove i (pd_chunks d)) d))
  end.

Definition dir_evict_one : Mem * PageDirectory -> bool * (Mem * PageDirectory) := drop_oldest.

Definition dir_insert (ck : CachedChunk) (s : Mem * PageDirectory) : Mem * PageDirectory :=
  let '(m, d) := s in
  if existsb (fun c => ck_index c =? ck_index ck) (pd_chunks d) then (charge_release (ck_charge ck) m, d)
  else
    let '(m, d) := if pd_max_chunks d <=? zlen (pd_chunks d) then snd (drop_oldest (m, d)) else (m, d) in
    (m, set_chunks (pd_chunks d ++ [ck]) d).

(** * Reading a chunk *)

(** The file range of a chunk. *)
Definition chunk_first (d : PageDirectory) (chunk_index : Z) : Result Z :=
  ok_or (checked_mul chunk_index (pd_entries_per_chunk d)) Error_corrupt.
Definition chunk_range (d : PageDirectory) (chunk_index : Z) : Result (Z * Z) :=
  let? first := chunk_first d chunk_index in
  let remaining := pd_count d - first in
  let entries := Z.min remaining (pd_entries_per_chunk d) in
  let? len := ok_or (checked_mul entries DIRECTORY_SLOT_LEN) Error_corrupt in
  let? offset := ok_or (checked_add (pd_base d) (first * DIRECTORY_SLOT_LEN)) Error_corrupt in
  Ok (len, offset).

Section Read.
Context {T : Type} (get_dir : T -> Mem * PageDirectory) (put_dir : Mem * PageDirectory -> T -> T).
Context (read_source : Z -> Z -> SM T Stop (list byte)) (reclaim : Z -> T -> Z * T).

Definition on_dir {A} (f : Mem * PageDirectory -> A * (Mem * PageDirectory)) (t : T) : A * T :=
  let '(a, md) := f (get_dir t) in (a, put_dir md t).

Definition dir_try_reserve (bytes : Z) (s : Mem * PageDirectory) : Result Charge * (Mem * PageDirectory) :=
  let '(r, b) := Budget_try_reserve bytes (m_budget (fst s)) in (r, (set_budget b (fst s), snd s)).

(** The loop of [read_chunk]: every round but the last drops a chunk or gets
    something back from [reclaim]. *)
Fixpoint reserve_chunk (fuel : nat) (wanted : Z) : SM T Stop Charge := fun t =>
  match fuel with
  | O => (Err OutOfFuel, t)
  | S fuel =>
      match on_dir (dir_try_reserve wanted) t with
      | (Ok charge, t) => (Ok charge, t)
      | (Err e, t) =>
          match on_dir dir_evict_one t with
          | (true, t) => reserve_chunk fuel wanted t
          | (false, t) =>
              let '(freed, t) := reclaim wanted t in
              if freed =? 0 then (Err (Failed e), t) else reserve_chunk fuel wanted t
          end
      end
  end.

(** What is reserved is given back when the rest fails. *)
Definition holding {A} (release : Charge -> T -> T) (charge : Charge) (k : SM T Stop A) : SM T Stop A := fun t =>
  match k t with
  | (Ok a, t) => (Ok a, t)
  | (Err stop, t) => (Err stop, release charge t)
  end.

Definition dir_release (charge : Charge) (t : T) : T :=
  snd (on_dir (fun s => (tt, (charge_release charge (fst s), snd s))) t).

Definition read_chunk (fuel : nat) (chunk_index : Z) : SM T Stop CachedChunk := fun t =>
  match chunk_range (snd (get_dir t)) chunk_index with
  | Err e => (Err (Failed e), t)
  | Ok (len, offset) =>
      (let! charge := reserve_chunk fuel (len + BUFFER_OVERHEAD) in
       holding dir_release charge
         (let! data := read_source len offset in
          let! tick := fun t =>
            let '(tick, t) := on_dir (fun s => let '(tick, d) := next_tick (snd s) in (tick, (fst s, d))) t in
            (Ok tick, t) in
          sret (mkCachedChunk chunk_index data tick charge))) t
  end.

Definition lift_failed {A} (r : Result A) : SM T Stop A := lift (map_err Failed r).

Definition dir_offset_of (fuel : nat) (o : PageOrdinal) : SM T Stop FileOffset := fun t =>
  let d := snd (get_dir t) in
  if pd_count d <=? o then (Err (Failed Error_corrupt), t)
  else
    let chunk_index := o / pd_entries_per_chunk d in
    let slot := (o mod pd_entries_per_chunk d) * DIRECTORY_SLOT_LEN in
    match on_dir (fun s => let '(r, d) := dir_lookup chunk_index slot (snd s) in (r, (fst s, d))) t with
    | (Err e, t) => (Err (Failed e), t)
    | (Ok (Some raw), t) => lift_failed (validate_offset d raw o) t
    | (Ok None, t) =>
        (let! ck := read_chunk fuel chunk_index in
         let! raw := holding dir_release (ck_charge ck) (lift_failed (read_i64 (ck_data ck) slot)) in
         let! _ := fun t => let '(_, t) := on_dir (fun s => (tt, dir_insert ck s)) t in (Ok tt, t) in
         lift_failed (validate_offset d raw o)) t
    end.
End Read.

(** * What the file says *)

Definition page_offset (data : list byte) (base count : Z) (o : PageOrdinal) : Result FileOffset :=
  fail? count <=? o with Error_corrupt in
  let? raw := read_i64 (slice data (base + o * DIRECTORY_SLOT_LEN) DIRECTORY_SLOT_LEN) 0 in
  validate_offset (PageDirectory_new base count 1 1) raw o.

(** A chunk holds the bytes of its range. *)
Record chunk_ok (data : list byte) (d : PageDirectory) (ck : CachedChunk) : Prop := {
  ck_first : 0 <= ck_index ck /\ ck_index ck * pd_entries_per_chunk d < pd_count d;
  ck_bytes : ck_data ck = slice data (pd_base d + ck_index ck * pd_entries_per_chunk d * DIRECTORY_SLOT_LEN)
               (Z.min (pd_count d - ck_index ck * pd_entries_per_chunk d) (pd_entries_per_chunk d) * DIRECTORY_SLOT_LEN);
}.

Record dir_ok (data : list byte) (base count : Z) (d : PageDirectory) : Prop := {
  do_base : pd_base d = base;
  do_count : pd_count d = count;
  do_entries : 1 <= pd_entries_per_chunk d;
  do_chunks : Forall (chunk_ok data d) (pd_chunks d);
}.

(** The directory section lies in the file. *)
Record dir_fits (data : list byte) (base count : Z) : Prop := {
  df_base : 0 <= base;
  df_count : 0 <= count;
  df_end : base + count * DIRECTORY_SLOT_LEN <= zlen data;
  df_len : zlen data < 2 ^ 63;
}.

Lemma dir_ok_chunks data base count d chunks :
  dir_ok data base count d -> (forall ck, ck ∈ chunks -> ck ∈ pd_chunks d) ->
  dir_ok data base count (set_chunks chunks d).
Proof.
  intros [H1 H2 H3 H4] Hsub. split; auto. simpl. apply Forall_forall. intros ck Hin.
  rewrite Forall_forall in H4. destruct (H4 ck (Hsub ck Hin)). now split.
Qed.

Lemma oldest_lookup chunks i : oldest chunks = Some i -> (i < length chunks)%nat.
Proof.
  revert i. induction chunks as [|ck chunks IH]; intros i; simpl; [discriminate|].
  destruct (oldest chunks) as [j|]; [|intros [= <-]; lia]. specialize (IH j eq_refl).
  destruct (chunks !! j) as [best|]; [destruct (_ <=? _)|]; intros [= <-]; lia.
Qed.

Lemma oldest_none chunks : oldest chunks = None <-> chunks = [].
Proof.
  destruct chunks as [|ck chunks]; simpl; [tauto|].
  destruct (oldest chunks) as [j|]; [destruct (chunks !! j); [destruct (_ <=? _)|]|]; split; discriminate.
Qed.

(** The chunk dropped is one of the least recently used. *)
Lemma oldest_least chunks i ck :
  oldest chunks = Some i -> chunks !! i = Some ck -> forall c, c ∈ chunks -> ck_last_used ck <= ck_last_used c.
Proof.
  revert i ck. induction chunks as [|c0 chunks IH]; intros i ck; simpl; [discriminate|].
  destruct (oldest chunks) as [j|] eqn:Ho.
  - pose proof (oldest_lookup _ _ Ho) as [best Hb]%lookup_lt_is_Some. rewrite Hb. specialize (IH j best eq_refl Hb).
    destruct (Z.leb_spec (ck_last_used c0) (ck_last_used best)); intros [= <-] Hi c Hc; simpl in Hi;
      apply elem_of_cons in Hc as [->|Hc]; simplify_eq; try lia; specialize (IH c Hc); lia.
  - apply oldest_none in Ho as ->. intros [= <-] Hi c Hc. simpl in Hi. apply list_elem_of_singleton in Hc as ->.
    simplify_eq. lia.
Qed.

Lemma swap_remove_elem {A} i (l : list A) x : x ∈ swap_remove i l -> x ∈ l.
Proof.
  unfold swap_remove. destruct (last l) as [y|] eqn:Hy; [|auto]. intros Hx.
  apply list_elem_of_lookup in Hx as [j Hj]. apply lookup_take_Some in Hj as [Hj _].
  apply list_lookup_insert_Some in Hj as [(_ & <- & _)|[_ Hj]].
  - apply last_Some in Hy as [k ->]. apply elem_of_app. right. now apply list_elem_of_singleton.
  - eapply list_elem_of_lookup_2, Hj.
Qed.

Lemma length_swap_remove {A} i (l : list A) : length (swap_remove i l) = (length l - 1)%nat.
Proof.
  unfold swap_remove. destruct (last l) as [y|] eqn:Hy.
  - rewrite length_take, length_insert. lia.
  - apply last_None in Hy as ->. reflexivity.
Qed.

Lemma drop_oldest_spec data base count m d :
  dir_ok data base count d ->
  match drop_oldest (m, d) with
  | (dropped, (_, d')) =>
      dir_ok data base count d' /\ pd_entries_per_chunk d' = pd_entries_per_chunk d /\
      (forall ck, ck ∈ pd_chunks d' -> ck ∈ pd_chunks d) /\
      (if dropped then length (pd_chunks d) = S (length (pd_chunks d')) else d' = d /\ pd_chunks d = [])
  end.
Proof.
  intros Hd. unfold drop_oldest. destruct (oldest (pd_chunks d)) as [i|] eqn:Ho.
  - apply oldest_lookup in Ho. split; [apply dir_ok_chunks; [exact Hd|]; apply swap_remove_elem|]. split; [reflexivity|].
    split; [apply swap_remove_elem|]. simpl. rewrite length_swap_remove. lia.
  - apply oldest_none in Ho. auto.
Qed.

Lemma use_chunk_spec tick index chunks :
  match use_chunk tick index chunks with
  | (found, chunks') =>
      length chunks' = length chunks /\
      (forall ck', ck' ∈ chunks' -> exists ck, ck ∈ chunks /\ ck_index ck' = ck_index ck /\ ck_data ck' = ck_data ck) /\
      zsum (ch_bytes <$> (ck_charge <$> chunks')) = zsum (ch_bytes <$> (ck_charge <$> chunks)) /\
      match found with Some ck => ck ∈ chunks /\ ck_index ck = index | None => True end
  end.
Proof.
  induction chunks as [|ck chunks IH]; cbn [use_chunk].
  { repeat split; auto. intros ck' Hin. inversion Hin. }
  destruct (Z.eqb_spec (ck_index ck) index) as [He|Hne].
  - repeat split; auto; [|left]. intros ck' [->|Hin]%elem_of_cons; [exists ck; repeat split; left|].
    exists ck'. repeat split. now right.
  - destruct (use_chunk tick index chunks) as [found chunks']. destruct IH as (Hl & He & Hs & Hf).
    split; [simpl; now rewrite Hl|]. split.
    { intros ck' [->|Hin]%elem_of_cons; [exists ck; repeat split; left|].
      destruct (He ck' Hin) as (c & Hc & H1 & H2). exists c. repeat split; auto. now right. }
    split; [rewrite !fmap_cons; unfold zsum in *; simpl; now rewrite Hs|]. destruct found; [|exact I]. destruct Hf. split; [now right | assumption].
Qed.

(** The slot of an ordinal in its chunk is its slot in the directory. *)
Lemma chunk_slot data base count d ck o :
  dir_fits data base count -> dir_ok data base count d -> chunk_ok data d ck -> 0 <= o < count ->
  ck_index ck = o / pd_entries_per_chunk d ->
  read_i64 (ck_data ck) ((o mod pd_entries_per_chunk d) * DIRECTORY_SLOT_LEN) =
  Ok (swrap 64 (LittleEndianList.le_combine (slice data (base + o * DIRECTORY_SLOT_LEN) DIRECTORY_SLOT_LEN))) /\
  read_i64 (slice data (base + o * DIRECTORY_SLOT_LEN) DIRECTORY_SLOT_LEN) 0 =
  Ok (swrap 64 (LittleEndianList.le_combine (slice data (base + o * DIRECTORY_SLOT_LEN) DIRECTORY_SLOT_LEN))).
Proof.
  intros [F1 F2 F3 F4] [D1 D2 D3 _] [[C1 C2] C3] Ho Hi. unfold DIRECTORY_SLOT_LEN in *.
  set (epc := pd_entries_per_chunk d) in *. rewrite D1, D2, Hi in *.
  pose proof (Z.div_mod o epc ltac:(lia)) as Hdm. pose proof (Z.mod_pos_bound o epc ltac:(lia)) as Hm.
  set (q := o / epc) in *. set (r := o mod epc) in *. assert (zlen data <= usize_max) by (unfold usize_max, u64_max; lia).
  set (n := Z.min (count - q * epc) epc) in *. assert (r + 1 <= n) by (unfold n; nia). assert (q * epc + n <= count) by lia.
  assert (zlen (slice data (base + q * epc * 8) (n * 8)) = n * 8) as Hz by (apply zlen_slice; lia).
  unfold read_i64. split; rewrite read_le_ok; rewrite ?C3, ?Hz; try lia.
  - do 3 f_equal. rewrite slice_slice by lia. f_equal. lia.
  - do 3 f_equal. rewrite slice_slice by lia. f_equal. lia.
  - rewrite zlen_slice; lia.
  - rewrite zlen_slice; lia.
Qed.

Lemma chunk_range_spec data base count d q :
  dir_fits data base count -> dir_ok data base count d -> 0 <= q -> q * pd_entries_per_chunk d < count ->
  chunk_range d q = Ok (Z.min (count - q * pd_entries_per_chunk d) (pd_entries_per_chunk d) * DIRECTORY_SLOT_LEN,
                        base + q * pd_entries_per_chunk d * DIRECTORY_SLOT_LEN).
Proof.
  intros [F1 F2 F3 F4] [D1 D2 D3 _] Hq Hlt. unfold chunk_range, chunk_first, DIRECTORY_SLOT_LEN in *.
  rewrite D1, D2. set (epc := pd_entries_per_chunk d) in *.
  unfold checked_mul, checked_add, usize_max, u64_max. repeat (rewrite (proj2 (Z.leb_le _ _)) by nia; simpl). reflexivity.
Qed.

(** ** Lookups *)

Definition slot_value (data : list byte) (base : Z) (o : PageOrdinal) : Z :=
  swrap 64 (LittleEndianList.le_combine (slice data (base + o * DIRECTORY_SLOT_LEN) DIRECTORY_SLOT_LEN)).

Lemma page_offset_eq data base count d o :
  dir_fits data base count -> dir_ok data base count d -> 0 <= o ->
  page_offset data base count o =
    if count <=? o then Err Error_corrupt else validate_offset d (slot_value data base o) o.
Proof.
  intros [F1 F2 F3 F4] [D1 _ _ _] Ho. unfold page_offset. destruct (Z.leb_spec count o) as [Hge|Hlt]; [reflexivity|].
  unfold DIRECTORY_SLOT_LEN in *. assert (zlen (slice data (base + o * 8) 8) = 8) as Hz by (apply zlen_slice; lia).
  unfold read_i64. rewrite read_le_ok by (rewrite ?Hz; unfold usize_max, u64_max; lia). simpl.
  unfold validate_offset. simpl. rewrite D1. do 2 f_equal. unfold slot_value, DIRECTORY_SLOT_LEN.
  do 3 f_equal. apply slice_all. now rewrite Hz.
Qed.

Lemma dir_lookup_spec data base count d o :
  dir_fits data base count -> dir_ok data base count d -> 0 <= o < count ->
  match dir_lookup (o / pd_entries_per_chunk d) ((o mod pd_entries_per_chunk d) * DIRECTORY_SLOT_LEN) d with
  | (r, d') =>
      dir_ok data base count d' /\ pd_entries_per_chunk d' = pd_entries_per_chunk d /\
      length (pd_chunks d') = length (pd_chunks d) /\
      match r with Ok (Some raw) => raw = slot_value data base o | Ok None => True | Err _ => False end
  end.
Proof.
  intros Hf Hd Ho. unfold dir_lookup, next_tick.
  set (d1 := mkPageDirectory _ _ _ _ _ _). change (pd_chunks d1) with (pd_chunks d).
  pose proof (use_chunk_spec (pd_tick d) (o / pd_entries_per_chunk d) (pd_chunks d)) as H.
  destruct (use_chunk _ _ (pd_chunks d)) as [found chunks]. destruct H as (Hl & He & _ & Hfound).
  pose proof Hd as [D1 D2 D3 D4]. rewrite Forall_forall in D4.
  split; [|split; [reflexivity|split; [exact Hl|]]].
  - split; try assumption. simpl. apply Forall_forall. intros ck' Hin. destruct (He ck' Hin) as (ck & Hck & Hi & Hdata).
    destruct (D4 ck Hck) as [C1 C2]. split; simpl; rewrite ?Hi, ?Hdata; assumption.
  - destruct found as [ck|]; [|exact I]. destruct Hfound as [Hin Hidx].
    destruct (chunk_slot data base count d ck o Hf Hd (D4 ck Hin) Ho Hidx) as [-> _]. reflexivity.
Qed.

Lemma dir_insert_spec data base count ck m d :
  dir_ok data base count d -> chunk_ok data d ck ->
  let d' := snd (dir_insert ck (m, d)) in
  dir_ok data base count d' /\ pd_entries_per_chunk d' = pd_entries_per_chunk d.
Proof.
  intros Hd Hck. unfold dir_insert. destruct (existsb _ _); [auto|].
  set (p := if pd_max_chunks d <=? zlen (pd_chunks d) then snd (drop_oldest (m, d)) else (m, d)).
  assert (dir_ok data base count (snd p) /\ pd_entries_per_chunk (snd p) = pd_entries_per_chunk d) as [Hp He].
  { unfold p. destruct (_ <=? _); [|auto]. pose proof (drop_oldest_spec data base count m d Hd) as H.
    destruct (drop_oldest (m, d)) as [b [m' d']]. simpl. tauto. }
  destruct p as [m' d']. cbn [snd] in *. split; [|exact He]. destruct Hp as [P1 P2 P3 P4]. destruct Hd as [D1 D2 D3 D4].
  split; try assumption. simpl. apply Forall_app. split.
  - eapply Forall_impl; [exact P4|]. intros c [C1 C2]. now split.
  - apply Forall_singleton. destruct Hck as [C1 C2]. split; simpl; rewrite ?P1, ?P2, ?He, <- ?D1, <- ?D2; assumption.
Qed.
