(* ===== verification/Store.v ===== *)
(** The page store, [crates/drydb/src/store.rs].

    The store turns a page ordinal into a checked page: directory lookup,
    positional reads, filter decoding, validation and caching, all on one
    memory budget.  [Store] is its whole mutable state, with the schedule of
    read events still to come ([Source.v]) and of references to pages that
    other parts of the process take and drop between two calls.

    The file, the filter and the limits are fixed while a database is open and
    are the section's variables.  [page_content] is what the file says page [o]
    is; [StoreFacts.v] proves that the store returns it. *)

From Stdlib Require Import ZArith Lia.
From stdpp Require Import base list gmap countable.
From coqutil Require Import Byte.
From S2P Require Import Prelude Errors Format Node Budget Page Source Cache Directory.

#[local] Open Scope Z_scope.
#[local] Open Scope drydb_scope.

Definition EVICT_ROUNDS : Z := 16.
Definition RETAIN_HEADROOM_PAGES : Z := 8.
(** [size_of::<(u64, PagePin)>()] on a 64-bit target. *)
Definition ROOT_ENTRY_BYTES : Z := 16.

Record Limits : Set := mkLimits {
  max_stored_page_bytes : Z;
  max_decoded_page_bytes : Z;
  max_catalog_bytes : Z;
  limit_tree_depth : Z;
}.

Definition Limits_default : Limits := mkLimits (64 * 2 ^ 20) (8 * 2 ^ 20) (8 * 2 ^ 20) 64.

(** The [PageFilter] trait as the store calls it.  [pf_decode] is given the
    capacity of the output buffer and returns the output with the capacity it
    ended up with. *)
Record PageFilter : Type := mkPageFilter {
  pf_decode : Z -> list byte -> Result (list byte * Z);
  pf_decoded_size_hint : list byte -> option Z;
  pf_working_set_bytes : Z;
  pf_probe_bytes : Z;
}.

Record RetainedRoots : Type := mkRoots {
  rr_roots : gmap Z PagePin;
  rr_capacity : Z;
  rr_slots : Z;
  rr_book : Bookkeeping;
}.

Definition RetainedRoots_default : RetainedRoots := mkRoots ∅ 0 0 None.

Definition footprint (r : RetainedRoots) : Z := hash_table_bytes (rr_slots r) ROOT_ENTRY_BYTES.

(** What others do to the shared memory between two calls of the store: the
    trees, cursors and guards that hold pages take and drop references, and
    give back what they had reserved. *)
Inductive EnvEvent : Type :=
| EnvClone (buffer : positive)
| EnvDrop (buffer : positive)
| EnvRelease (bytes : Z).

Definition env_event (m : Mem) (ev : EnvEvent) : Mem :=
  match ev with
  | EnvClone b => ref_clone b m
  | EnvDrop b => ref_drop b m
  | EnvRelease n => charge_release (mkCharge n) m
  end.

Record Store : Type := mkStore {
  st_mem : Mem;
  st_cache : PageCache;
  st_dir : PageDirectory;
  st_roots : RetainedRoots;
  st_reads : Reads;
  st_marks : Markers;
  (** How many page buffers have been made. *)
  st_serial : positive;
  st_env : list (list EnvEvent);
}.

Definition get_cache (s : Store) : Mem * PageCache := (st_mem s, st_cache s).
Definition put_cache (mc : Mem * PageCache) (s : Store) : Store :=
  mkStore (fst mc) (snd mc) (st_dir s) (st_roots s) (st_reads s) (st_marks s) (st_serial s) (st_env s).
Definition get_dir (s : Store) : Mem * PageDirectory := (st_mem s, st_dir s).
Definition put_dir (md : Mem * PageDirectory) (s : Store) : Store :=
  mkStore (fst md) (st_cache s) (snd md) (st_roots s) (st_reads s) (st_marks s) (st_serial s) (st_env s).
Definition set_mem (m : Mem) (s : Store) : Store := put_cache (m, st_cache s) s.
Definition set_roots (r : RetainedRoots) (s : Store) : Store :=
  mkStore (st_mem s) (st_cache s) (st_dir s) r (st_reads s) (st_marks s) (st_serial s) (st_env s).
Definition set_reads (r : Reads) (s : Store) : Store :=
  mkStore (st_mem s) (st_cache s) (st_dir s) (st_roots s) r (st_marks s) (st_serial s) (st_env s).
Definition set_marks (m : Markers) (s : Store) : Store :=
  mkStore (st_mem s) (st_cache s) (st_dir s) (st_roots s) (st_reads s) m (st_serial s) (st_env s).
Definition set_env (e : list (list EnvEvent)) (s : Store) : Store :=
  mkStore (st_mem s) (st_cache s) (st_dir s) (st_roots s) (st_reads s) (st_marks s) (st_serial s) e.

(** [PageStore::new]; the store's own fixed charge is part of what the caller
    holds on the budget. *)
Definition PageStore_new (m : Mem) (c : PageCache) (d : PageDirectory) (reads : Reads) (env : list (list EnvEvent)) : Store :=
  mkStore m c d RetainedRoots_default reads ∅ 1 env.

(** The events up to the next call. *)
Definition env_step (s : Store) : Store :=
  match st_env s with
  | [] => s
  | evs :: rest => set_env rest (set_mem (foldl env_event (st_mem s) evs) s)
  end.

Section Store.
Context {SA : StdAlloc}.
Context (data : list byte) (filter : option PageFilter) (limits : Limits) (directory_base : Z).
(** The capacity [Vec::with_capacity(n)] allocates. *)
Context (vec_capacity : Z -> Z).

Abbreviation M A := (SM Store Stop A).

Definition failed {A} (r : Result A) : M A := lift_failed r.

(** * Retained roots *)

Definition settle_roots (want : Z) (s : Store) : Result unit * Store :=
  match Bookkeeping_settle want (m_budget (st_mem s), rr_book (st_roots s)) with
  | (r, (b, k)) =>
      let roots := st_roots s in
      (r, set_roots (mkRoots (rr_roots roots) (rr_capacity roots) (rr_slots roots) k)
            (set_mem (set_budget b (st_mem s)) s))
  end.

Definition retained_root (tree : Z) (s : Store) : option PagePin := rr_roots (st_roots s) !! tree.

Definition drop_pin (pin : PagePin) (s : Store) : Store := set_mem (pin_drop pin (st_mem s)) s.

Definition drop_opt (pin : option PagePin) (s : Store) : Store :=
  match pin with Some pin => drop_pin pin s | None => s end.

Definition retain_root (tree : Z) (pin : PagePin) (s : Store) : Store :=
  let held := st_roots s in
  let want := hash_table_peak_bytes (rr_slots held) (rr_capacity held) (Z.of_nat (size (rr_roots held)))
                ROOT_ENTRY_BYTES in
  match settle_roots want s with
  | (Err _, s) => drop_pin pin s
  | (Ok _, s) =>
      let held := st_roots s in
      let old := rr_roots held !! tree in
      let roots := <[tree := pin]> (rr_roots held) in
      let capacity := hm_insert (rr_capacity held) (Z.of_nat (size roots)) in
      let held := mkRoots roots capacity (Z.max (rr_slots held) capacity) (rr_book held) in
      let s := drop_opt old (set_roots held s) in
      snd (settle_roots (footprint held) s)
  end.

Definition release_root (tree : Z) (s : Store) : Store :=
  let held := st_roots s in
  let entry := rr_roots held !! tree in
  let roots := delete tree (rr_roots held) in
  let len := Z.of_nat (size roots) in
  let s := set_roots (mkRoots roots (from_option (fun _ => hm_remove (rr_capacity held) len) (rr_capacity held) entry) (rr_slots held) (rr_book held)) s in
  let s :=
    if 2 * len <? rr_slots (st_roots s) then
      let during := footprint (st_roots s) + hash_table_bytes len ROOT_ENTRY_BYTES in
      match settle_roots during s with
      | (Ok _, s) =>
          let held := st_roots s in
          let capacity := hm_shrink_to_fit (rr_capacity held) len in
          set_roots (mkRoots (rr_roots held) capacity
                       (if negb (capacity =? rr_capacity held) then capacity else rr_slots held) (rr_book held)) s
      | (Err _, s) => s
      end
    else s in
  let s := snd (settle_roots (footprint (st_roots s)) s) in
  drop_opt entry s.

Definition release_roots (s : Store) : Z * Store :=
  let held := st_roots s in
  let pins := map snd (map_to_list (rr_roots held)) in
  let s := set_roots RetainedRoots_default s in
  let s := foldl (fun s pin => drop_pin pin s) s pins in
  let s := set_mem (option_release (rr_book held) (st_mem s)) s in
  (zsum (map pin_len pins), s).

Definition reclaim_pages (bytes : Z) (s : Store) : Z * Store :=
  let '(freed, s) := on_cache get_cache put_cache (evict_bytes bytes) s in
  if 0 <? freed then (freed, s) else release_roots s.

Definition has_headroom_for (bytes : Z) (s : Store) : bool :=
  let reserve := saturating_mul bytes RETAIN_HEADROOM_PAGES in
  reserve <=? Z.max 0 (b_limit (m_budget (st_mem s)) - in_use (m_budget (st_mem s))).

(** * Reservations *)

Definition try_reserve (bytes : Z) (s : Store) : Result Charge * Store :=
  let '(r, b) := Budget_try_reserve bytes (m_budget (st_mem s)) in (r, set_mem (set_budget b (st_mem s)) s).

Definition release (charge : Charge) (s : Store) : Store := set_mem (charge_release charge (st_mem s)) s.

Fixpoint reserve_rounds (rounds : nat) (bytes : Z) (last : option Error) : M Charge := fun s =>
  match rounds with
  | O => (Err (Failed (default Error_corrupt last)), s)
  | S rounds =>
      let '(freed, s) := on_cache get_cache put_cache (evict_bytes bytes) s in
      let '(dropped_chunk, s) := if freed =? 0 then on_dir get_dir put_dir dir_evict_one s else (false, s) in
      let '(released, s) := if (freed =? 0) && negb dropped_chunk then release_roots s else (0, s) in
      match try_reserve bytes s with
      | (Ok charge, s) => (Ok charge, s)
      | (Err e, s) =>
          if (freed =? 0) && negb dropped_chunk && (released =? 0) then (Err (Failed e), s)
          else reserve_rounds rounds bytes (Some e) s
      end
  end.

Definition reserve (bytes : Z) : M Charge := fun s =>
  match try_reserve bytes s with
  | (Ok charge, s) => (Ok charge, s)
  | (Err e, s) =>
      if is_retryable e then
        let rounds := saturating_add (saturating_add (cache_len (st_cache s)) (chunks_held (st_dir s))) EVICT_ROUNDS in
        reserve_rounds (Z.to_nat rounds) bytes None s
      else (Err (Failed e), s)
  end.

(** * Loading *)

Definition read_source (len offset : Z) : M (list byte) := fun s =>
  match read_exact_at data len offset (st_reads s) with
  | (Ok bytes, reads) => (Ok bytes, set_reads reads s)
  | (Err e, reads) => (Err (Failed e), set_reads reads s)
  end.

(** Rounds enough for [read_chunk]: every one drops a chunk, a page or all the
    retained roots. *)
Definition reclaim_rounds (s : Store) : nat :=
  (2 + length (pd_chunks (st_dir s)) + Z.to_nat (cache_len (st_cache s)))%nat.

Definition offset_of (o : PageOrdinal) : M FileOffset := fun s =>
  dir_offset_of get_dir put_dir read_source reclaim_pages (reclaim_rounds s) o s.

Definition page_limit (o : PageOrdinal) (offset : Z) : M Z := fun s =>
  let next := saturating_add o 1 in
  if pd_count (st_dir s) <=? next then (Ok directory_base, s)
  else
    (let! next_offset := offset_of next in
     sret (if offset <? next_offset then Z.min next_offset directory_base else directory_base)) s.

(** The output buffer a filter is given. *)
Definition decode_capacity (f : PageFilter) (encoded : list byte) : Result Z :=
  match pf_decoded_size_hint f encoded with
  | Some size => if size <=? max_decoded_page_bytes limits then Ok size else Err Error_corrupt
  | None => Ok (max_decoded_page_bytes limits)
  end.

(** What the filter made of the page, checked. *)
Definition decode_payload (f : PageFilter) (capacity : Z) (encoded : list byte) : Result (list byte) :=
  let reserved := vec_capacity capacity in
  let? payload := pf_decode f reserved encoded in
  fail? reserved <? snd payload with Error_corrupt in
  fail? max_decoded_page_bytes limits <? zlen (fst payload) with Error_corrupt in
  Ok (fst payload).

(** The decoded page: the raw prefix with its length field rewritten. *)
Definition decoded_page (stored payload : list byte) : Result (list byte) :=
  let? total := ok_or (checked_add PAGE_PREFIX_LEN (zlen payload)) Error_corrupt in
  Ok (i32_le total ++ drop 4 (take (Z.to_nat PAGE_PREFIX_LEN) stored) ++ payload).

Definition held {A} (charge : Charge) (k : M A) : M A := holding release charge k.

Definition decode_stored (stored_charge : Charge) (stored : list byte) : M (Charge * list byte) :=
  match filter with
  | None => sret (stored_charge, stored)
  | Some f =>
      let encoded := drop (Z.to_nat PAGE_PREFIX_LEN) stored in
      let! capacity := failed (decode_capacity f encoded) in
      let! scratch_charge := reserve (capacity + BUFFER_OVERHEAD) in
      held scratch_charge
        (let! probe := reserve (pf_probe_bytes f) in
         let! _ := smodify (release probe) in
         let! working_charge := reserve (pf_working_set_bytes f) in
         let! _ := smodify (release working_charge) in
         let! payload := failed (decode_payload f capacity encoded) in
         let! page := failed (decoded_page stored payload) in
         let! exact_charge := reserve (zlen page + BUFFER_OVERHEAD) in
         let! _ := smodify (fun s => release stored_charge (release scratch_charge s)) in
         sret (exact_charge, page))
  end.

Definition buffer_id (o : PageOrdinal) (serial : positive) : positive := encode (o, serial).

(** [PagePin::new(PageBuffer::new(..))] *)
Definition new_pin (o : PageOrdinal) (bytes : list byte) (charge : Charge) (s : Store) : PagePin * Store :=
  let b := buffer_id o (st_serial s) in
  (mkPagePin b o bytes,
   mkStore (pin_alloc b charge (st_mem s)) (st_cache s) (st_dir s) (st_roots s) (st_reads s) (st_marks s)
     (Pos.succ (st_serial s)) (st_env s)).

Definition stored_length (length_bytes : list byte) : Result Z :=
  let? raw := read_i32 length_bytes 0 in
  let? stored_len := checked_len raw in
  fail? stored_len <? PAGE_PREFIX_LEN with Error_corrupt in
  fail? max_stored_page_bytes limits <? stored_len with Error_corrupt in
  Ok stored_len.

Definition check_page_bytes (o : PageOrdinal) (bytes : list byte) : Result unit :=
  map_err (fun e => at_page e o)
    (let? view := PageView_parse bytes in
     PageView_validate view).

Definition load (o : PageOrdinal) : M (PagePin * Z) :=
  let! offset := offset_of o in
  let! length_bytes := read_source PAGE_LENGTH_LEN offset in
  let! stored_len := failed (stored_length length_bytes) in
  let! end_ := failed (ok_or (checked_add offset stored_len) Error_corrupt) in
  let! limit := page_limit o offset in
  let! _ := failed (if limit <? end_ then Err Error_corrupt else Ok tt) in
  let! stored_charge := reserve (stored_len + BUFFER_OVERHEAD) in
  let! page := held stored_charge
    (let! stored := read_source stored_len offset in
     decode_stored stored_charge stored) in
  let '(charge, bytes) := page in
  held charge
    (let! _ := failed (check_page_bytes o bytes) in
     fun s => let '(pin, s) := new_pin o bytes charge s in (Ok (pin, ch_bytes charge), s)).

(** * The store's interface *)

Definition annotate (e : Error) (o : PageOrdinal) : Error :=
  match loc_page (err_location e) with Some _ => e | None => at_page e o end.

Definition annotate_stop (o : PageOrdinal) (stop : Stop) : Stop :=
  match stop with Failed e => Failed (annotate e o) | _ => stop end.

Definition page (o : PageOrdinal) : M PagePin := fun s =>
  match get_or_load get_cache put_cache o reserve (load o) s with
  | (Ok pin, s) => (Ok pin, s)
  | (Err stop, s) => (Err (annotate_stop o stop), s)
  end.

Definition store_page_cached (o : PageOrdinal) (s : Store) : option PagePin * Store :=
  on_cache get_cache put_cache (cache_get o) s.

(** * What the file says *)

Definition content_limit (count : Z) (o : PageOrdinal) (offset : Z) : Result Z :=
  if count <=? saturating_add o 1 then Ok directory_base
  else
    let? next_offset := page_offset data directory_base count (saturating_add o 1) in
    Ok (if offset <? next_offset then Z.min next_offset directory_base else directory_base).

Definition decoded (stored : list byte) : Result (list byte) :=
  match filter with
  | None => Ok stored
  | Some f =>
      let encoded := drop (Z.to_nat PAGE_PREFIX_LEN) stored in
      let? capacity := decode_capacity f encoded in
      let? payload := decode_payload f capacity encoded in
      decoded_page stored payload
  end.

Definition content (count : Z) (o : PageOrdinal) : Result (list byte) :=
  let? offset := page_offset data directory_base count o in
  let? stored_len := stored_length (slice data offset PAGE_LENGTH_LEN) in
  let? end_ := ok_or (checked_add offset stored_len) Error_corrupt in
  let? limit := content_limit count o offset in
  fail? limit <? end_ with Error_corrupt in
  let? bytes := decoded (slice data offset stored_len) in
  let? _ := check_page_bytes o bytes in
  Ok bytes.

Definition page_content (count : Z) (o : PageOrdinal) : option (list byte) :=
  match content count o with Ok bytes => Some bytes | Err _ => None end.
End Store.
