(* ===== verification/StoreFacts.v ===== *)
(** The page store returns the pages of the file.

    [implements m r] says that a stateful computation [m] of the store does
    what the pure definition [r] says: whatever is cached, evicted or kept
    pinned, however the reads are cut up, it returns what [r] returns, and an
    error of its own only when a read failed or the budget had no room.  The
    loading path is followed step by step with it, up to [page] against
    [page_content]; the last part makes the store an instance of what the trees
    and cursors rely on. *)

From Stdlib Require Import ZArith Lia.
From stdpp Require Import base list gmap countable.
From coqutil Require Import Byte.
From S2P Require Import Prelude Errors Format Node Budget Page Source Cache CacheFacts Directory Store.

#[local] Open Scope Z_scope.
#[local] Open Scope drydb_scope.

Section StoreFacts.
Context {SA : StdAlloc}.
Context (data : list byte) (filter : option PageFilter) (limits : Limits) (directory_base count : Z).
Context (vec_capacity : Z -> Z) (Hfits : dir_fits data directory_base count).

Abbreviation M A := (SM Store Stop A).
Abbreviation content := (content data filter limits directory_base vec_capacity count).
Abbreviation page_content := (page_content data filter limits directory_base vec_capacity count).
Abbreviation read_source := (read_source data).
Abbreviation offset_of := (offset_of data).
Abbreviation page_limit := (page_limit data directory_base).
Abbreviation load := (load data filter limits directory_base vec_capacity).
Abbreviation page := (page data filter limits directory_base vec_capacity).

(** * The store's invariant *)

(** A pin of page [o]: the bytes the file says, in a buffer made for [o]. *)
Definition buffer_data (b : positive) : list byte :=
  match decode (A := Z * positive) b with Some (o, _) => default [] (page_content o) | None => [] end.

Definition pin_of (o : PageOrdinal) (pin : PagePin) : Prop :=
  pin_ordinal pin = o /\ page_content o = Some (pin_data pin) /\ pin_data pin = buffer_data (pin_buffer pin).

(** [L] says which pages are being loaded. *)
Record store_inv (L : Z -> Prop) (s : Store) : Prop := {
  sv_cache : cache_inv (st_cache s);
  sv_loading : forall o, cached (st_cache s) o = Some Loading <-> L o;
  sv_pages : forall o pin bytes, cached (st_cache s) o = Some (Ready pin bytes false) -> pin_of o pin;
  sv_dir : dir_ok data directory_base count (st_dir s);
  sv_roots : forall t pin, rr_roots (st_roots s) !! t = Some pin -> pin_of (pin_ordinal pin) pin;
}.

(** What the parts of a load leave alone. *)
Record stays (s s' : Store) : Prop := {
  sy_marks : st_marks s' = st_marks s;
  sy_env : st_env s' = st_env s;
  sy_entries : pd_entries_per_chunk (st_dir s') = pd_entries_per_chunk (st_dir s);
  sy_roots : forall t pin, rr_roots (st_roots s') !! t = Some pin -> rr_roots (st_roots s) !! t = Some pin;
}.

Lemma stays_refl' s : stays s s.
Proof. split; auto. Qed.

Lemma stays_trans' a b c : stays a b -> stays b c -> stays a c.
Proof. intros [H1 H2 H4 H3] [H1' H2' H4' H3']. split; [congruence | congruence | congruence | auto]. Qed.

(** Errors that are no fault of the file. *)
Definition transient (e : Error) : Prop := err_kind e = Io \/ err_kind e = BudgetExceeded.

Definition stops (r : Prop) (stop : Stop) : Prop :=
  match stop with Failed e => r \/ transient e | Blocked | OutOfFuel => False end.

Definition runs {A} (L L' : Z -> Prop) (m : M A) (Q : A -> Prop) (R : Stop -> Prop) : Prop :=
  forall s, store_inv L s ->
    store_inv L' (snd (m s)) /\ stays s (snd (m s)) /\
    match fst (m s) with Ok a => Q a | Err stop => R stop end.

Definition implements {A} (L : Z -> Prop) (m : M A) (r : Result A) : Prop :=
  runs L L m (fun a => r = Ok a) (stops (exists e, r = Err e)).

Section Rules.
Context (L : Z -> Prop).

Lemma runs_bind {A B} (m : M A) (f : A -> M B) (P : A -> Prop) (Q : B -> Prop) (R : Stop -> Prop) :
  runs L L m P R -> (forall a, P a -> runs L L (f a) Q R) -> runs L L (sbind m f) Q R.
Proof.
  intros Hm Hf s Hs. unfold sbind. destruct (Hm s Hs) as (Hs' & Hst & Ha).
  destruct (m s) as [[a|e] s']; cbn [fst snd] in *; [|auto].
  destruct (Hf a Ha s' Hs') as (Hs'' & Hst' & H). split; [exact Hs''|].
  split; [exact (stays_trans' _ _ _ Hst Hst') | exact H].
Qed.

Lemma runs_mono {A} (m : M A) (P Q : A -> Prop) (R R' : Stop -> Prop) :
  runs L L m P R -> (forall a, P a -> Q a) -> (forall e, R e -> R' e) -> runs L L m Q R'.
Proof.
  intros Hm HQ HR s Hs. destruct (Hm s Hs) as (Hs' & Hst & Ha). split; [exact Hs'|]. split; [exact Hst|].
  destruct (fst (m s)); auto.
Qed.

Lemma stops_mono (P Q : Prop) stop : (P -> Q) -> stops P stop -> stops Q stop.
Proof. intros HPQ. destruct stop; simpl; tauto. Qed.

Lemma implements_ret {A} (a : A) : implements L (sret a) (Ok a).
Proof. intros s Hs. split; [exact Hs|]. split; [apply stays_refl' | reflexivity]. Qed.

Lemma implements_failed {A} (r : Result A) : implements L (failed r) r.
Proof.
  intros s Hs. unfold failed, lift_failed, lift. split; [exact Hs|]. split; [apply stays_refl'|].
  destruct r as [a|e]; simpl; [reflexivity|]. left. eauto.
Qed.

(** Binding follows the pure definition. *)
Lemma implements_bind {A B} (m : M A) (r : Result A) (f : A -> M B) (g : A -> Result B) :
  implements L m r -> (forall a, r = Ok a -> implements L (f a) (g a)) -> implements L (sbind m f) (rbind r g).
Proof.
  intros Hm Hf. eapply runs_bind.
  - eapply runs_mono; [exact Hm | exact (fun a H => H)|]. intros stop. apply stops_mono.
    intros [e ->]. exists e. reflexivity.
  - intros a ->. exact (Hf a eq_refl).
Qed.

(** A step the pure definition does not have: it can only fail transiently. *)
Lemma implements_step {A B} (m : M A) (r : Result B) (f : A -> M B) (P : A -> Prop) :
  runs L L m P (stops False) -> (forall a, P a -> implements L (f a) r) -> implements L (sbind m f) r.
Proof.
  intros Hm Hf. eapply runs_bind; [|exact Hf]. eapply runs_mono; [exact Hm | auto|]. intros stop. now apply stops_mono.
Qed.

(** ** Changes of memory only *)

Lemma inv_set_mem m s : store_inv L s -> store_inv L (set_mem m s).
Proof. intros [H1 H2 H3 H4 H5]. split; assumption. Qed.

Lemma stays_set_mem m s : stays s (set_mem m s).
Proof. split; auto. Qed.

Lemma release_runs charge : runs L L (smodify (release charge)) (fun _ => True) (stops False).
Proof. intros s Hs. simpl. split; [now apply inv_set_mem|]. split; [apply stays_set_mem | exact I]. Qed.

Lemma held_implements {A} charge (m : M A) r : implements L m r -> implements L (held charge m) r.
Proof.
  intros Hm s Hs. unfold held, holding. destruct (Hm s Hs) as (Hs' & Hst & Ha).
  destruct (m s) as [[a|e] s']; cbn [fst snd] in *; [auto|].
  split; [now apply inv_set_mem|]. split; [|exact Ha].
  eapply stays_trans'; [exact Hst | apply stays_set_mem].
Qed.

Lemma try_reserve_runs bytes s : store_inv L s ->
  store_inv L (snd (try_reserve bytes s)) /\ stays s (snd (try_reserve bytes s)) /\
  (forall c, fst (try_reserve bytes s) = Ok c -> ch_bytes c = bytes) /\
  (forall e, fst (try_reserve bytes s) = Err e -> err_kind e = BudgetExceeded).
Proof.
  intros Hs. unfold try_reserve, Budget_try_reserve, sbind, Budget_take.
  destruct (checked_add _ _) as [n|]; [destruct (_ <=? _)|]; cbn [fst snd sret];
    (split; [now apply inv_set_mem|]); (split; [apply stays_set_mem|]); split; intros ? [= <-]; reflexivity.
Qed.

(** ** Evicting *)

Lemma inv_shrinks m c s : store_inv L s -> cache_shrinks (st_cache s) c -> store_inv L (put_cache (m, c) s).
Proof.
  intros [H1 H2 H3 H4 H5] (Hc & _ & _ & Hk & Hl). split; cbn [put_cache fst snd st_cache st_dir st_roots]; auto.
  - intros o. rewrite Hl. apply H2.
  - intros o pin bytes Ho. exact (H3 o pin bytes (Hk _ _ Ho)).
Qed.

Lemma evict_bytes_runs bytes s : store_inv L s ->
  match on_cache get_cache put_cache (evict_bytes bytes) s with
  | (freed, s') => store_inv L s' /\ stays s s' /\ 0 <= freed /\ st_dir s' = st_dir s /\ st_roots s' = st_roots s /\
      cache_len (st_cache s') <= cache_len (st_cache s) /\
      (0 < freed -> cache_len (st_cache s') < cache_len (st_cache s))
  end.
Proof.
  intros Hs. unfold on_cache, get_cache. pose proof (evict_bytes_spec bytes (st_mem s) (st_cache s) (sv_cache _ _ Hs)) as H.
  destruct (evict_bytes bytes (st_mem s, st_cache s)) as [freed [m c]]. destruct H as (Hshr & Hf & _ & Hle & Hlt & _).
  split; [exact (inv_shrinks m c s Hs Hshr)|]. split; [split; auto|]. auto.
Qed.

Lemma dir_evict_runs s : store_inv L s ->
  match on_dir get_dir put_dir dir_evict_one s with
  | (dropped, s') => store_inv L s' /\ stays s s' /\ st_cache s' = st_cache s /\ st_roots s' = st_roots s /\
      (if dropped then length (pd_chunks (st_dir s)) = S (length (pd_chunks (st_dir s'))) else st_dir s' = st_dir s)
  end.
Proof.
  intros Hs. unfold on_dir, get_dir, dir_evict_one.
  pose proof (drop_oldest_spec data directory_base count (st_mem s) (st_dir s) (sv_dir _ _ Hs)) as H.
  destruct (drop_oldest (st_mem s, st_dir s)) as [dropped [m d]]. destruct H as (Hd & He & _ & Hlen).
  destruct Hs as [H1 H2 H3 H4 H5]. split; [split; assumption|]. split; [split; auto|]. split; [reflexivity|].
  split; [reflexivity|]. destruct dropped; [exact Hlen | apply Hlen].
Qed.

Lemma fold_drop_pin pins s : exists m, foldl (fun s pin => drop_pin pin s) s pins = set_mem m s.
Proof.
  revert s. induction pins as [|pin pins IH]; intros s; simpl; [exists (st_mem s); now destruct s|].
  destruct (IH (drop_pin pin s)) as [m ->]. exists m. reflexivity.
Qed.

Lemma release_roots_runs s : store_inv L s ->
  match release_roots s with
  | (released, s') => store_inv L s' /\ stays s s' /\ st_cache s' = st_cache s /\ st_dir s' = st_dir s /\
      rr_roots (st_roots s') = ∅ /\ (released <> 0 -> rr_roots (st_roots s) <> ∅)
  end.
Proof.
  intros [H1 H2 H3 H4 H5]. unfold release_roots.
  destruct (fold_drop_pin (map snd (map_to_list (rr_roots (st_roots s)))) (set_roots RetainedRoots_default s)) as [m ->].
  cbn. split; [split; auto; cbn; intros t pin; now rewrite lookup_empty|].
  split; [split; cbn; auto; intros t pin; now rewrite lookup_empty|].
  repeat split. intros Hr He. apply Hr. now rewrite He, map_to_list_empty.
Qed.

(** ** Reservations *)

Lemma reserve_rounds_runs rounds bytes last :
  match last with None => rounds <> O | Some e => transient e end ->
  runs L L (reserve_rounds rounds bytes last) (fun c => ch_bytes c = bytes) (stops False).
Proof.
  revert last. induction rounds as [|rounds IH]; intros last Hlast s Hs.
  { destruct last as [e|]; [|congruence]. simpl. split; [exact Hs|]. split; [apply stays_refl' | now right]. }
  cbn [reserve_rounds]. pose proof (evict_bytes_runs bytes s Hs) as H1.
  destruct (on_cache get_cache put_cache (evict_bytes bytes) s) as [freed s1]. destruct H1 as (Hs1 & Hst1 & _).
  set (r2 := if freed =? 0 then _ else _).
  assert (store_inv L (snd r2) /\ stays s (snd r2)) as [Hs2 Hst2].
  { unfold r2. destruct (freed =? 0); [|auto]. pose proof (dir_evict_runs s1 Hs1) as H2.
    destruct (on_dir get_dir put_dir dir_evict_one s1) as [b s2]. destruct H2 as (? & ? & _).
    split; [assumption | eapply stays_trans'; eassumption]. }
  destruct r2 as [dropped s2]. cbn [snd] in *. set (r3 := if (freed =? 0) && negb dropped then _ else _).
  assert (store_inv L (snd r3) /\ stays s (snd r3)) as [Hs3 Hst3].
  { unfold r3. destruct (_ && _); [|auto]. pose proof (release_roots_runs s2 Hs2) as H3.
    destruct (release_roots s2) as [rel s3]. destruct H3 as (? & ? & _). split; [assumption | eapply stays_trans'; eassumption]. }
  destruct r3 as [released s3]. cbn [snd] in *. destruct (try_reserve_runs bytes s3 Hs3) as (Hs4 & Hst4 & Hok & Herr).
  pose proof (stays_trans' _ _ _ Hst3 Hst4) as Hst. destruct (try_reserve bytes s3) as [[c|e] s4]; cbn [fst snd] in *.
  - auto.
  - specialize (Herr e eq_refl). destruct (_ && _ && _).
    + split; [exact Hs4|]. split; [exact Hst|]. right. now right.
    + destruct (IH (Some e) (or_intror Herr) s4 Hs4) as (Hs5 & Hst5 & H5). split; [exact Hs5|].
      split; [eapply stays_trans'; eassumption | exact H5].
Qed.

Lemma reserve_runs bytes : runs L L (reserve bytes) (fun c => ch_bytes c = bytes) (stops False).
Proof.
  intros s Hs. unfold reserve. destruct (try_reserve_runs bytes s Hs) as (Hs1 & Hst1 & Hok & Herr).
  destruct (try_reserve bytes s) as [[c|e] s1]; cbn [fst snd] in *; [auto|]. specialize (Herr e eq_refl).
  destruct (is_retryable e).
  - pose proof (cache_len_nonneg (st_cache s1)). pose proof (zlen_nonneg (pd_chunks (st_dir s1))).
    destruct (reserve_rounds_runs (Z.to_nat (saturating_add (saturating_add (cache_len (st_cache s1))
      (chunks_held (st_dir s1))) EVICT_ROUNDS)) bytes None) with (s := s1) as (Hs2 & Hst2 & H2).
    + unfold saturating_add, EVICT_ROUNDS, chunks_held, usize_max, u64_max. lia.
    + exact Hs1.
    + split; [exact Hs2|]. split; [eapply stays_trans'; eassumption | exact H2].
  - split; [exact Hs1|]. split; [exact Hst1|]. right. now right.
Qed.

(** ** Reads *)

Lemma read_source_runs len offset :
  0 <= offset -> 0 <= len -> offset + len <= u64_max ->
  runs L L (read_source len offset)
    (fun bytes => bytes = slice data offset len /\ zlen bytes = len) (stops False).
Proof.
  intros Ho Hl Hm s Hs. unfold read_source.
  pose proof (read_exact_at_spec data len offset (st_reads s) Ho Hl Hm) as H.
  destruct (read_exact_at data len offset (st_reads s)) as [[bytes|e] reads]; cbn [fst snd] in *;
    (split; [destruct Hs; split; assumption|]); (split; [split; auto|]); [exact H|].
  right. left. destruct H as [-> _]. reflexivity.
Qed.

(** ** The directory *)

(** What [reserve_chunk] can still get back. *)
Definition root_rounds (r : RetainedRoots) : nat := if decide (rr_roots r = ∅) then 0 else 1.
Definition reclaimable (s : Store) : nat :=
  (length (pd_chunks (st_dir s)) + Z.to_nat (cache_len (st_cache s)) + root_rounds (st_roots s))%nat.

Lemma reclaim_pages_runs bytes s : store_inv L s ->
  match reclaim_pages bytes s with
  | (freed, s') => store_inv L s' /\ stays s s' /\ st_dir s' = st_dir s /\
      (freed <> 0 -> (reclaimable s' < reclaimable s)%nat)
  end.
Proof.
  intros Hs. unfold reclaim_pages. pose proof (evict_bytes_runs bytes s Hs) as H1.
  destruct (on_cache get_cache put_cache (evict_bytes bytes) s) as [freed s1].
  destruct H1 as (Hs1 & Hst1 & Hf & Hd1 & Hr1 & Hle & Hlt). pose proof (cache_len_nonneg (st_cache s1)).
  destruct (Z.ltb_spec 0 freed) as [Hpos|Hz].
  - split; [exact Hs1|]. split; [exact Hst1|]. split; [exact Hd1|]. intros _. unfold reclaimable.
    rewrite Hd1, Hr1. specialize (Hlt Hpos). lia.
  - pose proof (release_roots_runs s1 Hs1) as H2. destruct (release_roots s1) as [rel s2].
    destruct H2 as (Hs2 & Hst2 & Hc2 & Hd2 & He & Hne). split; [exact Hs2|].
    split; [eapply stays_trans'; eassumption|]. split; [congruence|]. intros Hr. specialize (Hne Hr).
    assert (root_rounds (st_roots s2) = 0%nat /\ root_rounds (st_roots s) = 1%nat) as [Hz0 Hz1].
    { rewrite Hr1 in Hne. unfold root_rounds. rewrite He. now rewrite decide_True, decide_False. }
    unfold reclaimable. rewrite Hd2, Hd1, Hc2, Hz0, Hz1. lia.
Qed.

Lemma dir_try_reserve_eq wanted s :
  on_dir get_dir put_dir (dir_try_reserve wanted) s = try_reserve wanted s.
Proof.
  unfold on_dir, get_dir, dir_try_reserve, try_reserve. cbn [fst snd].
  destruct (Budget_try_reserve wanted (m_budget (st_mem s))) as [r b]. now destruct s.
Qed.

Lemma reserve_chunk_runs fuel wanted s :
  store_inv L s -> (reclaimable s < fuel)%nat ->
  match reserve_chunk get_dir put_dir reclaim_pages fuel wanted s with
  | (r, s') => store_inv L s' /\ stays s s' /\
      match r with Ok c => ch_bytes c = wanted | Err stop => stops False stop end
  end.
Proof.
  revert s. induction fuel as [|fuel IH]; intros s Hs Hf; [lia|]. cbn [reserve_chunk]. rewrite dir_try_reserve_eq.
  destruct (try_reserve_runs wanted s Hs) as (Hs1 & Hst1 & Hok & Herr).
  assert (st_dir (snd (try_reserve wanted s)) = st_dir s /\ reclaimable (snd (try_reserve wanted s)) = reclaimable s) as [Hd1 Hr1].
  { unfold try_reserve. destruct (Budget_try_reserve _ _). split; reflexivity. }
  destruct (try_reserve wanted s) as [[c|e] s1]; cbn [fst snd] in *; [auto|].
  pose proof (dir_evict_runs s1 Hs1) as H2. destruct (on_dir get_dir put_dir dir_evict_one s1) as [[] s2];
    destruct H2 as (Hs2 & Hst2 & Hc2 & Hro2 & Hlen).
  - specialize (IH s2 Hs2). destruct (reserve_chunk _ _ _ fuel wanted s2) as [r s3].
    destruct IH as (Hs3 & Hst3 & H3); [unfold reclaimable in *; rewrite Hc2, Hro2; lia|].
    split; [exact Hs3|]. split; [eauto using stays_trans' | exact H3].
  - pose proof (reclaim_pages_runs wanted s2 Hs2) as H3. destruct (reclaim_pages wanted s2) as [freed s3].
    destruct H3 as (Hs3 & Hst3 & Hd3 & Hprog). destruct (Z.eqb_spec freed 0) as [_|Hne].
    + split; [exact Hs3|]. split; [eauto using stays_trans'|]. right. right. exact (Herr e eq_refl).
    + specialize (IH s3 Hs3). destruct (reserve_chunk _ _ _ fuel wanted s3) as [r s4].
      destruct IH as (Hs4 & Hst4 & H4).
      { specialize (Hprog Hne). unfold reclaimable in *. rewrite Hc2, Hro2, Hlen in Hprog. lia. }
      split; [exact Hs4|]. split; [eauto using stays_trans' | exact H4].
Qed.

Lemma inv_put_dir m d s :
  store_inv L s -> dir_ok data directory_base count d -> store_inv L (put_dir (m, d) s).
Proof. intros [H1 H2 H3 H4 H5] Hd. split; assumption. Qed.

Lemma stays_put_dir m d s :
  pd_entries_per_chunk d = pd_entries_per_chunk (st_dir s) -> stays s (put_dir (m, d) s).
Proof. intros He. split; auto. Qed.

Lemma dir_release_eq c s : dir_release get_dir put_dir c s = release c s.
Proof. now destruct s. Qed.

Lemma read_chunk_runs q fuel s :
  store_inv L s -> (reclaimable s < fuel)%nat -> 0 <= q -> q * pd_entries_per_chunk (st_dir s) < count ->
  match read_chunk get_dir put_dir read_source reclaim_pages fuel q s with
  | (r, s') => store_inv L s' /\ stays s s' /\
      match r with
      | Ok ck => chunk_ok data (st_dir s') ck /\ ck_index ck = q
      | Err stop => stops False stop
      end
  end.
Proof.
  intros Hs Hf Hq Hlt. unfold read_chunk. cbn [get_dir snd].
  rewrite (chunk_range_spec data directory_base count (st_dir s) q Hfits (sv_dir _ _ Hs) Hq Hlt). cbv zeta.
  set (epc := pd_entries_per_chunk (st_dir s)) in *. set (len := Z.min _ _ * _). set (off := directory_base + _).
  unfold sbind at 1. pose proof (reserve_chunk_runs fuel (len + BUFFER_OVERHEAD) s Hs Hf) as H1.
  destruct (reserve_chunk _ _ _ fuel _ s) as [[c|stop] s1]; destruct H1 as (Hs1 & Hst1 & H1); [|auto].
  pose proof (sv_dir _ _ Hs) as [_ _ Hepc _]. fold epc in Hepc.
  destruct Hfits as [F1 F2 F3 F4]. unfold DIRECTORY_SLOT_LEN in *.
  assert (0 <= off /\ 0 <= len /\ off + len <= u64_max) as (Ho & Hl & Hm) by (unfold off, len, u64_max; nia).
  unfold holding, sbind at 1. destruct (read_source_runs len off Ho Hl Hm s1 Hs1) as (Hs2 & Hst2 & H2).
  pose proof (stays_trans' _ _ _ Hst1 Hst2) as Hst. destruct (read_source len off s1) as [[bytes|stop] s2]; cbn [fst snd] in *.
  - unfold sbind, on_dir, next_tick, get_dir, sret. cbn [fst snd]. pose proof (sy_entries _ _ Hst) as He. fold epc in He.
    pose proof (sv_dir _ _ Hs2) as [D1 D2 D3 D4].
    split.
    { apply inv_put_dir; [exact Hs2|]. split; try assumption. simpl. rewrite Forall_forall in D4 |- *.
      intros ck Hin. destruct (D4 ck Hin). now split. }
    split; [eapply stays_trans'; [exact Hst | now apply stays_put_dir]|]. split; [|reflexivity].
    split; simpl; rewrite ?D1, ?D2, ?He; [lia | apply H2].
  - rewrite dir_release_eq. split; [now apply inv_set_mem|]. split; [|exact H2].
    eapply stays_trans'; [exact Hst | apply stays_set_mem].
Qed.

Lemma offset_of_implements o : 0 <= o -> implements L (offset_of o) (page_offset data directory_base count o).
Proof.
  intros Ho s Hs. unfold offset_of, dir_offset_of. cbn [get_dir snd].
  rewrite (page_offset_eq data directory_base count (st_dir s) o Hfits (sv_dir _ _ Hs) Ho).
  rewrite (do_count _ _ _ _ (sv_dir _ _ Hs)). destruct (Z.leb_spec count o) as [Hge|Hlt].
  { split; [exact Hs|]. split; [apply stays_refl'|]. left. eauto. }
  pose proof (dir_lookup_spec data directory_base count (st_dir s) o Hfits (sv_dir _ _ Hs) (conj Ho Hlt)) as H1.
  unfold on_dir. cbn [get_dir fst snd]. set (epc := pd_entries_per_chunk (st_dir s)) in *.
  destruct (dir_lookup _ _ (st_dir s)) as [r d1]. cbn [fst snd]. destruct H1 as (Hd1 & He1 & Hl1 & H1).
  set (s1 := put_dir (st_mem s, d1) s). assert (store_inv L s1) as Hs1 by now apply inv_put_dir.
  assert (stays s s1) as Hst1 by now apply stays_put_dir. destruct r as [[raw|]|e]; [| |destruct H1].
  - subst raw. destruct (implements_failed (validate_offset (st_dir s) (slot_value data directory_base o) o) s1 Hs1)
      as (Hs2 & Hst2 & H2). split; [exact Hs2|]. split; [exact (stays_trans' _ _ _ Hst1 Hst2) | exact H2].
  - pose proof (sv_dir _ _ Hs) as [_ _ Hepc _]. fold epc in Hepc.
    pose proof (Z.div_mod o epc ltac:(lia)) as Hdm. pose proof (Z.mod_pos_bound o epc ltac:(lia)) as Hmod.
    unfold sbind. pose proof (read_chunk_runs (o / epc) (reclaim_rounds s) s1 Hs1) as H2.
    destruct (read_chunk _ _ _ _ _ _ s1) as [[ck|stop] s2].
    2: { destruct H2 as (Hs2 & Hst2 & H2).
         - unfold reclaimable, reclaim_rounds, root_rounds. simpl. rewrite Hl1. destruct (decide _); lia.
         - apply Z.div_pos; lia.
         - change (st_dir s1) with d1. rewrite He1. fold epc. nia.
         - split; [exact Hs2|]. split; [exact (stays_trans' _ _ _ Hst1 Hst2)|]. exact (stops_mono _ _ _ (False_ind _) H2). }
    destruct H2 as (Hs2 & Hst2 & Hck & Hidx).
    { unfold reclaimable, reclaim_rounds, root_rounds. simpl. rewrite Hl1. destruct (decide _); lia. }
    { apply Z.div_pos; lia. }
    { change (st_dir s1) with d1. rewrite He1. fold epc. nia. }
    pose proof (stays_trans' _ _ _ Hst1 Hst2) as Hst. pose proof (sy_entries _ _ Hst) as He2. fold epc in He2.
    destruct (chunk_slot data directory_base count (st_dir s2) ck o Hfits (sv_dir _ _ Hs2) Hck (conj Ho Hlt)) as [Hraw _].
    { now rewrite He2. }
    rewrite He2 in Hraw. unfold holding, lift_failed, lift. rewrite Hraw. cbn [map_err].
    change (get_dir s2) with (st_mem s2, st_dir s2). pose proof (dir_insert_spec data directory_base count ck (st_mem s2) (st_dir s2)
      (sv_dir _ _ Hs2) Hck) as [Hd3 He3]. destruct (dir_insert ck (st_mem s2, st_dir s2)) as [m3 d3]. cbn [snd] in *.
    set (s3 := put_dir (m3, d3) s2). assert (store_inv L s3) as Hs3 by now apply inv_put_dir.
    assert (stays s s3) as Hst3 by (eapply stays_trans'; [exact Hst | now apply stays_put_dir]).
    destruct (implements_failed (validate_offset (st_dir s) (slot_value data directory_base o) o) s3 Hs3)
      as (Hs4 & Hst4 & H4). split; [exact Hs4|]. split; [exact (stays_trans' _ _ _ Hst3 Hst4) | exact H4].
Qed.

(** ** Loading *)

(** [implements] where the results correspond by [P]. *)
Definition simulates {A B} (m : M A) (r : Result B) (P : A -> B -> Prop) : Prop :=
  runs L L m (fun a => exists b, r = Ok b /\ P a b) (stops (exists e, r = Err e)).

Lemma implements_simulates {A} (m : M A) r : implements L m r -> simulates m r eq.
Proof. intros H. eapply runs_mono; [exact H| |auto]. intros a Ha. simpl in *. eauto. Qed.

Lemma simulates_bind {A B C D} (m : M A) (r : Result B) P (f : A -> M C) (g : B -> Result D) Q :
  simulates m r P -> (forall a b, r = Ok b -> P a b -> simulates (f a) (g b) Q) -> simulates (sbind m f) (rbind r g) Q.
Proof.
  intros Hm Hf. eapply runs_bind.
  - eapply runs_mono; [exact Hm | exact (fun a H => H)|]. intros stop. apply stops_mono.
    intros [e ->]. exists e. reflexivity.
  - intros a (b & -> & Hp). exact (Hf a b eq_refl Hp).
Qed.

Lemma simulates_follow {A C D} (m : M A) (r : Result A) (f : A -> M C) (g : A -> Result D) Q :
  implements L m r -> (forall a, r = Ok a -> simulates (f a) (g a) Q) -> simulates (sbind m f) (rbind r g) Q.
Proof. intros Hm Hf. eapply simulates_bind; [exact (implements_simulates _ _ Hm)|]. intros a ? Hr <-. auto. Qed.

Lemma simulates_step {A B C} (m : M A) (r : Result B) (f : A -> M C) (P : A -> Prop) Q :
  runs L L m P (stops False) -> (forall a, P a -> simulates (f a) r Q) -> simulates (sbind m f) r Q.
Proof.
  intros Hm Hf. eapply runs_bind; [|exact Hf]. eapply runs_mono; [exact Hm | auto|]. intros stop. now apply stops_mono.
Qed.

Lemma simulates_ret {A B} (a : A) (b : B) (P : A -> B -> Prop) : P a b -> simulates (sret a) (Ok b) P.
Proof. intros HP s Hs. split; [exact Hs|]. split; [apply stays_refl'|]. simpl. eauto. Qed.

Lemma simulates_eq {A B} (m : M A) (r r' : Result B) P : simulates m r P -> r = r' -> simulates m r' P.
Proof. now intros H <-. Qed.

Lemma simulates_held {A B} charge (m : M A) (r : Result B) P : simulates m r P -> simulates (held charge m) r P.
Proof.
  intros Hm s Hs. unfold held, holding. destruct (Hm s Hs) as (Hs' & Hst & Ha).
  destruct (m s) as [[a|e] s']; cbn [fst snd] in *; [auto|].
  split; [now apply inv_set_mem|]. split; [|exact Ha].
  eapply stays_trans'; [exact Hst | apply stays_set_mem].
Qed.

Lemma page_limit_implements o offset :
  0 <= o -> implements L (page_limit o offset) (content_limit data directory_base count o offset).
Proof.
  intros Ho s Hs. unfold page_limit, content_limit. rewrite (do_count _ _ _ _ (sv_dir _ _ Hs)).
  destruct (Z.leb_spec count (saturating_add o 1)) as [Hge|Hlt]; [now apply implements_ret|].
  apply implements_bind; [|intros; apply implements_ret | exact Hs].
  apply offset_of_implements. unfold saturating_add, usize_max, u64_max. lia.
Qed.

Lemma decode_stored_simulates stored_charge stored :
  0 < ch_bytes stored_charge ->
  simulates (decode_stored filter limits vec_capacity stored_charge stored)
    (decoded filter limits vec_capacity stored)
    (fun page bytes => snd page = bytes /\ 0 < ch_bytes (fst page)).
Proof.
  intros Hc. unfold decode_stored, decoded. destruct filter as [f|]; [|apply simulates_ret; auto].
  cbv zeta. eapply simulates_follow; [apply implements_failed|]. intros capacity _.
  eapply simulates_step; [apply reserve_runs|]. intros scratch _. apply simulates_held.
  eapply simulates_step; [apply reserve_runs|]. intros probe _.
  eapply simulates_step; [apply release_runs|]. intros _ _.
  eapply simulates_step; [apply reserve_runs|]. intros working _.
  eapply simulates_step; [apply release_runs|]. intros _ _.
  eapply simulates_follow; [apply implements_failed|]. intros payload _.
  apply (simulates_eq _ (rbind (decoded_page stored payload) Ok)); [|now destruct (decoded_page _ _)].
  eapply simulates_follow; [apply implements_failed|]. intros page _.
  eapply simulates_step; [apply reserve_runs|]. intros exact Hexact.
  eapply simulates_step.
  - intros s Hs. split; [now apply inv_set_mem, inv_set_mem|]. split; [|exact (I : (fun _ => True) tt)].
    eapply stays_trans'; apply stays_set_mem.
  - intros _ _. apply simulates_ret. simpl. split; [reflexivity|]. rewrite Hexact.
    pose proof (zlen_nonneg page). unfold BUFFER_OVERHEAD. lia.
Qed.

(** The pin a load makes. *)
Definition loaded (o : PageOrdinal) (pin : PagePin * Z) (bytes : list byte) : Prop :=
  pin_ordinal (fst pin) = o /\ pin_data (fst pin) = bytes /\
  (exists serial, pin_buffer (fst pin) = buffer_id o serial) /\ 0 < snd pin.

Lemma page_offset_in_file o offset :
  page_offset data directory_base count o = Ok offset -> 0 <= offset < directory_base.
Proof.
  unfold page_offset, validate_offset, FileOffset_from_i64, PageDirectory_new, HEADER_LEN. intros H. inv_ok. simpl in *.
  bool_hyps. inv_ok. bool_hyps.
  repeat match goal with H : (_ <? _) = false |- _ => apply Z.ltb_ge in H | H : (_ <=? _) = false |- _ => apply Z.leb_gt in H end.
  lia.
Qed.

Lemma stored_length_pos bytes n : stored_length limits bytes = Ok n -> 28 <= n < 2 ^ 31.
Proof.
  unfold stored_length, checked_len, read_i32. intros H. inv_ok. bool_hyps.
  match goal with H : read_le _ _ _ _ = Ok _ |- _ => apply read_le_inv in H as (_ & _ & ->) end.
  unfold PAGE_PREFIX_LEN in *. match goal with |- context [swrap 32 ?x] => pose proof (swrap_range 32 x ltac:(lia)) end.
  unfold PAGE_LENGTH_LEN, NODE_HEADER_LEN in *. lia.
Qed.

Lemma load_simulates o : 0 <= o -> simulates (load o) (content o) (loaded o).
Proof.
  intros Ho. unfold load, content. eapply simulates_follow; [now apply offset_of_implements|].
  intros offset Hoff. apply page_offset_in_file in Hoff. destruct Hfits as [F1 F2 F3 F4].
  unfold DIRECTORY_SLOT_LEN in F3. assert (directory_base <= zlen data) by lia.
  eapply simulates_step; [apply read_source_runs; unfold PAGE_LENGTH_LEN, u64_max; lia|].
  intros length_bytes [-> _]. eapply simulates_follow; [apply implements_failed|].
  intros stored_len Hlen. apply stored_length_pos in Hlen.
  eapply simulates_follow; [apply implements_failed|]. intros end_ Hend.
  eapply simulates_follow; [now apply page_limit_implements|]. intros limit _.
  assert (forall (k : Result (list byte)), (fail? limit <? end_ with Error_corrupt in k) =
    rbind (if limit <? end_ then Err Error_corrupt else Ok tt) (fun _ => k)) as -> by (intros; now destruct (_ <? _)).
  eapply simulates_follow; [apply implements_failed|]. intros _ _.
  eapply simulates_step; [apply reserve_runs|]. intros stored_charge Hsc. unfold BUFFER_OVERHEAD in Hsc.
  eapply simulates_bind.
  - apply simulates_held. eapply simulates_step; [apply read_source_runs; unfold u64_max; lia|].
    intros stored [-> _]. apply decode_stored_simulates. lia.
  - intros [charge bytes] ? Hdec [<- Hch]. cbn [fst snd] in *. apply simulates_held.
    eapply simulates_follow; [apply implements_failed|]. intros _ _.
    intros s [H1 H2 H3 H4 H5]. cbn. split; [split; assumption|]. split; [split; auto|].
    exists bytes. split; [reflexivity|]. unfold loaded; cbn. repeat split; eauto.
Qed.
End Rules.

(** * Loading through the cache *)

Definition with_load (L : Z -> Prop) (o : Z) : Z -> Prop := fun x => x = o \/ L x.

(** A section of the shard of [o], for what it did to the shard. *)
Lemma on_shard_spec {A} L o (f : Mem * ShardInner -> A * (Mem * ShardInner)) s :
  store_inv L s ->
  let sh := shard_at (st_cache s) (shard_of (st_cache s) o) in
  let sh' := snd (snd (f (st_mem s, sh))) in
  let s' := snd (on_shard_of get_cache put_cache o f s) in
  shard_inv sh -> shard_inv sh' ->
  (forall x slot, pages sh' !! x = Some slot -> x = o \/ pages sh !! x = Some slot) ->
  fst (on_shard_of get_cache put_cache o f s) = fst (f (st_mem s, sh)) /\
  cache_inv (st_cache s') /\ stays s s' /\ st_dir s' = st_dir s /\ st_roots s' = st_roots s /\
  forall x, cached (st_cache s') x =
    if decide (shard_of (st_cache s) x = shard_of (st_cache s) o) then pages sh' !! x else cached (st_cache s) x.
Proof.
  intros Hs. cbv zeta. unfold on_shard_of, on_cache. change (get_cache s) with (st_mem s, st_cache s).
  cbn [fst snd]. set (i := shard_of (st_cache s) o).
  intros Hsh Hsh' Hk. pose proof (sv_cache _ _ Hs) as Hc. pose proof (shard_of_lt (st_cache s) o Hc) as Hi.
  destruct (with_shard_spec i f (st_mem s) (st_cache s) Hc Hi Hsh') as (Ha & Hc' & _ & _ & _ & Hcd).
  { intros x slot Hx. destruct (Hk x slot Hx) as [->|Hx']; [reflexivity|].
    exact (ci_home _ Hc i _ x slot (shard_at_lookup _ i Hi) Hx'). }
  destruct (with_shard i f (st_mem s, st_cache s)) as [a [m c]]. cbn [fst snd] in *.
  split; [exact Ha|]. split; [exact Hc'|]. split; [split; auto|]. split; [reflexivity|]. split; [reflexivity|]. exact Hcd.
Qed.

Lemma cached_home s x o :
  shard_of (st_cache s) x = shard_of (st_cache s) o ->
  cached (st_cache s) x = pages (shard_at (st_cache s) (shard_of (st_cache s) o)) !! x.
Proof. intros Hx. unfold cached. now rewrite Hx. Qed.

Lemma mark_loading_attempts o charge attempts m sh want attempts' s' :
  mark_loading o charge attempts (m, sh) = (Reserve want attempts', s') ->
  match charge with None => attempts' = attempts | Some _ => attempts' = S attempts /\ (S attempts <= RESERVE_ATTEMPTS)%nat end.
Proof.
  unfold mark_loading. destruct charge as [c|]; [|now intros [= _ <- _]].
  destruct (_ <? _); [case_bool_decide; intros H'; simplify_eq; split; [reflexivity | lia]|].
  destruct (book_absorb _ _); discriminate.
Qed.

Lemma mark_loading_refused o charge attempts m sh e s' :
  mark_loading o charge attempts (m, sh) = (Refused e, s') -> err_kind e = BudgetExceeded.
Proof.
  unfold mark_loading. destruct charge as [c|]; [|discriminate].
  destruct (_ <? _); [case_bool_decide; now intros [= <- _]|]. destruct (book_absorb _ _); discriminate.
Qed.

Lemma enter_runs L o charge attempts s :
  store_inv L s ->
  match on_shard_of get_cache put_cache o (cache_enter o charge attempts) s with
  | (seen, s') => stays s s' /\
      match seen with
      | Hit pin => store_inv L s' /\ pin_of o pin
      | InFlightElsewhere => store_inv L s' /\ L o
      | Reserve _ attempts' => store_inv L s' /\
          match charge with
          | None => attempts' = attempts
          | Some _ => attempts' = S attempts /\ (S attempts <= RESERVE_ATTEMPTS)%nat
          end
      | Refused e => store_inv L s' /\ err_kind e = BudgetExceeded
      | Marked => store_inv (with_load L o) s' /\ ~ L o
      end
  end.
Proof.
  intros Hs. set (sh := shard_at (st_cache s) (shard_of (st_cache s) o)).
  assert (shard_inv sh) as Hsh by (apply shard_at_inv, shard_of_lt; apply (sv_cache _ _ Hs)).
  pose proof (cache_enter_spec o charge attempts (st_mem s) sh Hsh) as He.
  pose proof (on_shard_spec L o (cache_enter o charge attempts) s Hs) as Hon. cbv zeta in Hon. fold sh in Hon.
  assert (cached (st_cache s) o = pages sh !! o) as Hco by reflexivity.
  destruct (on_shard_of _ _ _ _ s) as [seen' s'] eqn:Hons. cbn [fst snd] in Hon.
  destruct (cache_enter o charge attempts (st_mem s, sh)) as [seen [m' sh']] eqn:Hent. cbn [fst snd] in Hon.
  destruct He as (Hsh' & He). specialize (Hon Hsh Hsh').
  assert (forall x slot, pages sh' !! x = Some slot -> x = o \/ pages sh !! x = Some slot) as Hk.
  { intros x slot Hx. destruct seen; [destruct He as [_ He] | destruct He as (_ & -> & _) | destruct He as [_ ->]
      | destruct He as [_ He] | destruct He as [_ ->]]; auto.
    - rewrite He in Hx. auto.
    - rewrite He in Hx. apply lookup_insert_Some in Hx as [[-> _]|[_ Hx]]; auto. }
  destruct (Hon Hk) as (Hseen & Hc' & Hst & Hd & Hr & Hcd). subst seen'. split; [exact Hst|].
  destruct Hs as [H1 H2 H3 H4 H5].
  assert (pages sh' = pages sh -> store_inv L s') as Hsame.
  { intros Hp. assert (forall x, cached (st_cache s') x = cached (st_cache s) x) as Hx.
    { intros x. rewrite Hcd. case_decide as Hdx; [|reflexivity]. rewrite Hp. symmetry. now apply cached_home. }
    split; [exact Hc' | | | now rewrite Hd | now rewrite Hr].
    - intros x. rewrite Hx. apply H2.
    - intros x pin bytes. rewrite Hx. apply H3. }
  assert (pages sh !! o = None -> match seen with Reserve _ _ | Refused _ => mark_loading o charge attempts (st_mem s, sh) = (seen, (m', sh')) | _ => True end) as Hml.
  { intros Hn. apply pages_absent in Hn. unfold cache_enter in Hent. cbn [snd] in Hent. rewrite Hn in Hent. destruct seen; auto. }
  destruct seen as [pin| |want att| |e].
  - destruct He as [[bytes Hb] Hp]. split; [exact (Hsame Hp)|]. apply (H3 o pin bytes). now rewrite Hco.
  - destruct He as (Hl & -> & _). split; [now apply Hsame|]. apply H2. now rewrite Hco.
  - destruct He as [Hn ->]. split; [now apply Hsame|]. exact (mark_loading_attempts _ _ _ _ _ _ _ _ (Hml Hn)).
  - destruct He as [Hn Hp]. split.
    + split; [exact Hc' | | | now rewrite Hd | now rewrite Hr].
      * intros x. rewrite Hcd. unfold with_load. case_decide as Hdx.
        -- rewrite Hp, lookup_insert_Some, <- H2, (cached_home s x o Hdx). fold sh. split; intuition congruence.
        -- rewrite H2. split; [auto|]. intros [->|Hx]; [congruence | exact Hx].
      * intros x pin bytes. rewrite Hcd. case_decide as Hdx; [|apply H3].
        rewrite Hp, lookup_insert_Some. intros [[_ ?]|[_ Hx]]; [discriminate|]. apply (H3 x pin bytes).
        rewrite (cached_home s x o Hdx). exact Hx.
    + rewrite <- H2, Hco, Hn. discriminate.
  - destruct He as [Hn ->]. split; [now apply Hsame|]. exact (mark_loading_refused _ _ _ _ _ _ _ (Hml Hn)).
Qed.

(** What ends a load: the marker goes, and the page may stay. *)
Lemma end_load_runs L o (f : Mem * ShardInner -> Mem * ShardInner) page s :
  store_inv (with_load L o) s -> ~ L o ->
  (forall m sh, shard_inv sh -> pages sh !! o = Some Loading ->
     let sh' := snd (f (m, sh)) in
     shard_inv sh' /\ pages sh' ⊆ partial_alter (fun _ => page) o (pages sh) /\
     forall x, pages sh' !! x = Some Loading <-> x <> o /\ pages sh !! x = Some Loading) ->
  (forall pin bytes, page = Some (Ready pin bytes false) -> pin_of o pin) ->
  let s' := snd (on_shard_of get_cache put_cache o (state_only f) s) in
  store_inv L s' /\ stays s s'.
Proof.
  intros Hs HL Hf Hpage. cbv zeta. set (sh := shard_at (st_cache s) (shard_of (st_cache s) o)).
  assert (shard_inv sh) as Hsh by (apply shard_at_inv, shard_of_lt; apply (sv_cache _ _ Hs)).
  assert (pages sh !! o = Some Loading) as Hol by (apply (sv_loading _ _ Hs o); now left).
  pose proof (on_shard_spec _ o (state_only f) s Hs) as Hon. cbv zeta in Hon. fold sh in Hon.
  specialize (Hf (st_mem s) sh Hsh Hol). cbv zeta in Hf. unfold state_only in Hon at 1 2 4. cbn [fst snd] in Hon.
  set (sh' := snd (f (st_mem s, sh))) in *. destruct Hf as (Hsh' & Hsub & Hl).
  assert (forall x slot, x <> o -> pages sh' !! x = Some slot -> pages sh !! x = Some slot) as Hk.
  { intros x slot Hne Hx. pose proof (lookup_weaken _ _ _ _ Hx Hsub) as Hx'.
    now rewrite lookup_partial_alter_ne in Hx' by congruence. }
  destruct (Hon Hsh Hsh') as (_ & Hc' & Hst & Hd & Hr & Hcd).
  { intros x slot Hx. destruct (decide (x = o)) as [->|Hne]; [now left | right; exact (Hk x slot Hne Hx)]. }
  split; [|exact Hst]. destruct Hs as [H1 H2 H3 H4 H5]. split; [exact Hc' | | | now rewrite Hd | now rewrite Hr].
  - intros x. rewrite Hcd. unfold with_load in H2. case_decide as Hdx.
    + change (state_only f (st_mem s, sh)).2.2 with sh'. rewrite Hl. unfold sh. rewrite <- (cached_home s x o Hdx), H2.
      split; [tauto|]. intros Hx. split; [congruence | tauto].
    + rewrite H2. split; [|tauto]. intros [->|Hx]; [congruence | exact Hx].
  - intros x pin bytes. rewrite Hcd. case_decide as Hdx; [|apply H3].
    change (state_only f (st_mem s, sh)).2.2 with sh'. intros Hx. destruct (decide (x = o)) as [->|Hne].
    + pose proof (lookup_weaken _ _ _ _ Hx Hsub) as Hx'. rewrite lookup_partial_alter_eq in Hx'. exact (Hpage _ _ Hx').
    + apply (H3 x pin bytes). rewrite (cached_home s x o Hdx). exact (Hk x _ Hne Hx).
Qed.

Lemma publish_runs L o pin bytes cap s :
  store_inv (with_load L o) s -> ~ L o -> pin_of o pin -> 0 < bytes ->
  let s' := snd (on_shard_of get_cache put_cache o (state_only (publish cap o pin bytes)) s) in
  store_inv L s' /\ stays s s'.
Proof.
  intros Hs HL Hp Hb. apply (end_load_runs L o _ (Some (Ready pin bytes false))); auto.
  - intros m sh Hsh Ho. exact (publish_spec cap o pin bytes (m, sh) Hsh Ho Hb).
  - now intros ? ? [= <- _].
Qed.

Lemma InFlight_drop_runs L o s :
  store_inv (with_load L o) s -> ~ L o ->
  let s' := snd (on_shard_of get_cache put_cache o (state_only (InFlight_drop o)) s) in
  store_inv L s' /\ stays s s'.
Proof.
  intros Hs HL. apply (end_load_runs L o _ None); auto; [|discriminate].
  intros m sh Hsh Ho. destruct (InFlight_drop_spec o (m, sh) Hsh Ho) as [Hi Hp]. cbv zeta. cbn [snd] in *.
  split; [exact Hi|]. rewrite Hp. split; [reflexivity|]. intros x. rewrite lookup_delete_Some. intuition congruence.
Qed.

Lemma loaded_pin_of o pin bytes n : content o = Ok bytes -> loaded o (pin, n) bytes -> pin_of o pin.
Proof.
  intros Hc (H1 & H2 & [serial H3] & _). cbn [fst] in *. split; [exact H1|].
  assert (page_content o = Some (pin_data pin)) as Hp by (unfold Store.page_content; now rewrite Hc, H2).
  split; [exact Hp|]. unfold buffer_data. rewrite H3.
  change (buffer_id o serial) with (encode (A := Z * positive) (o, serial)). now rewrite decode_encode, Hp.
Qed.

(** Whether the loop can still ask for a charge. *)
Definition enough_rounds (fuel : nat) (charge : option Charge) (attempts : nat) : Prop :=
  (attempts <= RESERVE_ATTEMPTS)%nat /\
  match charge with
  | None => (RESERVE_ATTEMPTS + 1 - attempts < fuel)%nat
  | Some _ => (RESERVE_ATTEMPTS - attempts < fuel)%nat
  end.

(** Why loading page [o] can fail. *)
Definition load_stop (o : PageOrdinal) : Stop -> Prop := stops (exists e, content o = Err e).

Lemma get_or_load_loop_runs L fuel o charge attempts s :
  0 <= o -> ~ L o -> store_inv L s -> enough_rounds fuel charge attempts ->
  let out := get_or_load_loop get_cache put_cache fuel o reserve (load o) charge attempts s in
  store_inv L (snd out) /\ stays s (snd out) /\
  match fst out with Ok pin => pin_of o pin | Err stop => load_stop o stop end.
Proof.
  intros Ho HL. revert charge attempts s. induction fuel as [|fuel IH]; intros charge attempts s Hs Hf.
  { destruct Hf as [_ Hf]. destruct charge; lia. }
  cbv zeta. rewrite get_or_load_loop_S. pose proof (enter_runs L o charge attempts s Hs) as He.
  destruct (on_shard_of _ _ o (cache_enter o charge attempts) s) as [seen s1]. destruct He as (Hst1 & He).
  destruct seen as [pin| |want att| |e].
  - destruct He as [Hs1 Hp]. auto.
  - destruct He as [_ Hl]. tauto.
  - destruct He as [Hs1 Hatt]. destruct (reserve_runs L want s1 Hs1) as (Hs2 & Hst2 & H2).
    pose proof (stays_trans' _ _ _ Hst1 Hst2) as Hst. destruct (reserve want s1) as [[c|stop] s2]; cbn [fst snd] in *.
    + destruct (IH (Some c) att s2 Hs2) as (Hs3 & Hst3 & H3).
      { unfold enough_rounds, RESERVE_ATTEMPTS in *. destruct charge; simplify_eq/=; lia. }
      split; [exact Hs3|]. split; [exact (stays_trans' _ _ _ Hst Hst3) | exact H3].
    + split; [exact Hs2|]. split; [exact Hst|]. destruct stop as [e| |]; [|destruct H2..].
      destruct H2 as [[]|H2]. now right.
  - destruct He as [Hs1 _]. destruct (load_simulates (with_load L o) o Ho s1 Hs1) as (Hs2 & Hst2 & H2).
    pose proof (stays_trans' _ _ _ Hst1 Hst2) as Hst. destruct (load o s1) as [[[pin bytes]|stop] s2]; cbn [fst snd] in *.
    + destruct H2 as (b & Hc & Hl). pose proof (loaded_pin_of o pin b bytes Hc Hl) as Hp.
      destruct Hl as (_ & _ & _ & Hb). cbn [snd] in Hb.
      destruct (publish_runs L o pin bytes (pc_capacity_per_shard (snd (get_cache s2))) s2 Hs2 HL Hp Hb) as [Hs3 Hst3].
      cbv zeta. destruct (on_shard_of _ _ o (state_only (publish _ _ _ _)) s2) as [u s3]. cbn [fst snd] in *.
      split; [exact Hs3|]. split; [exact (stays_trans' _ _ _ Hst Hst3) | exact Hp].
    + destruct (InFlight_drop_runs L o s2 Hs2 HL) as [Hs3 Hst3].
      destruct (on_shard_of _ _ o (state_only (InFlight_drop o)) s2) as [u s3]. cbn [fst snd] in *.
      split; [exact Hs3|]. split; [exact (stays_trans' _ _ _ Hst Hst3) | exact H2].
  - destruct He as [Hs1 He]. split; [exact Hs1|]. split; [exact Hst1|]. right. now right.
Qed.

Lemma annotate_kind e o : err_kind (annotate e o) = err_kind e.
Proof. unfold annotate. now destruct (loc_page _). Qed.

Lemma page_spec L o s :
  0 <= o -> ~ L o -> store_inv L s ->
  store_inv L (snd (page o s)) /\ stays s (snd (page o s)) /\
  match fst (page o s) with Ok pin => pin_of o pin | Err stop => load_stop o stop end.
Proof.
  intros Ho HL Hs. unfold page, Store.page, get_or_load.
  pose proof (get_or_load_loop_runs L 12 o None 0 s Ho HL Hs) as H. cbv zeta in H.
  destruct (get_or_load_loop _ _ 12 o reserve (load o) None 0 s) as [[pin|stop] s']; cbn [fst snd] in *.
  - apply H. unfold enough_rounds, RESERVE_ATTEMPTS. lia.
  - destruct H as (Hs' & Hst & H); [unfold enough_rounds, RESERVE_ATTEMPTS; lia|].
    split; [exact Hs'|]. split; [exact Hst|]. destruct stop as [e| |]; simpl in *; [|exact H|exact H].
    unfold transient. now rewrite annotate_kind.
Qed.

Lemma page_cached_spec L o s :
  store_inv L s ->
  store_inv L (snd (store_page_cached o s)) /\ stays s (snd (store_page_cached o s)) /\
  match fst (store_page_cached o s) with Some pin => pin_of o pin | None => True end.
Proof.
  intros Hs. set (sh := shard_at (st_cache s) (shard_of (st_cache s) o)).
  assert (shard_inv sh) as Hsh by (apply shard_at_inv, shard_of_lt; apply (sv_cache _ _ Hs)).
  pose proof (touch_spec o (st_mem s) sh Hsh) as Ht. pose proof (on_shard_spec L o (touch o) s Hs) as Hon.
  cbv zeta in Hon. fold sh in Hon. change (store_page_cached o s) with (on_shard_of get_cache put_cache o (touch o) s).
  destruct (on_shard_of _ _ _ _ s) as [r s']. cbn [fst snd] in *.
  destruct (touch o (st_mem s, sh)) as [r' [m' sh']]. cbn [fst snd] in *.
  assert (pages sh' = pages sh /\ shard_inv sh' /\ match r' with Some pin => exists bytes, pages sh !! o = Some (Ready pin bytes false) | None => True end)
    as (Hp & Hsh' & Hr').
  { destruct r' as [pin|]; [tauto|]. destruct Ht as [[= _ ->] _]. auto. }
  destruct (Hon Hsh Hsh') as (-> & Hc' & Hst & Hd & Hr & Hcd).
  { intros x slot. rewrite Hp. auto. }
  destruct Hs as [H1 H2 H3 H4 H5].
  assert (forall x, cached (st_cache s') x = cached (st_cache s) x) as Hx.
  { intros x. rewrite Hcd. case_decide as Hdx; [|reflexivity]. rewrite Hp. symmetry. now apply cached_home. }
  split; [split; [exact Hc' | intros x; rewrite Hx; apply H2 | intros x pin bytes; rewrite Hx; apply H3 | now rewrite Hd | now rewrite Hr]|].
  split; [exact Hst|]. destruct r' as [pin|]; [|exact I]. destruct Hr' as [bytes Hb]. exact (H3 o pin bytes Hb).
Qed.

(** * Retained roots *)

Lemma settle_roots_runs L want s :
  store_inv L s ->
  store_inv L (snd (settle_roots want s)) /\ stays s (snd (settle_roots want s)) /\
  rr_roots (st_roots (snd (settle_roots want s))) = rr_roots (st_roots s).
Proof.
  intros [H1 H2 H3 H4 H5]. unfold settle_roots. destruct (Bookkeeping_settle _ _) as [r [b k]].
  split; [split; assumption|]. split; [split; auto | reflexivity].
Qed.

Lemma retain_root_spec L tree pin s :
  store_inv L s -> pin_of (pin_ordinal pin) pin ->
  let s' := retain_root tree pin s in
  store_inv L s' /\ st_marks s' = st_marks s /\ st_env s' = st_env s /\
  forall t p, retained_root t s' = Some p -> (t = tree /\ p = pin) \/ retained_root t s = Some p.
Proof.
  intros Hs Hp. cbv zeta. unfold retain_root. set (want := hash_table_peak_bytes _ _ _ _).
  destruct (settle_roots_runs L want s Hs) as (Hs1 & Hst1 & Hr1).
  destruct (settle_roots want s) as [[u|e] s1]; cbn [fst snd] in *.
  2: { split; [now apply inv_set_mem|]. destruct Hst1 as [M E _ _]. cbn. rewrite M, E.
       repeat split. intros t p Ht. right. unfold retained_root in *. cbn in Ht. now rewrite <- Hr1. }
  set (roots := <[tree := pin]> (rr_roots (st_roots s1))). set (held := mkRoots roots _ _ _).
  set (s2 := drop_opt _ (set_roots held s1)).
  assert (store_inv L s2 /\ st_marks s2 = st_marks s1 /\ st_env s2 = st_env s1 /\ rr_roots (st_roots s2) = roots)
    as (Hs2 & Hm2 & He2 & Hr2).
  { assert (store_inv L (set_roots held s1)) as H.
    { destruct Hs1 as [H1 H2 H3 H4 H5]. split; try assumption. cbn. intros t p [[_ <-]|[_ Ht]]%lookup_insert_Some;
        [exact Hp | exact (H5 t p Ht)]. }
    unfold s2. destruct (_ !! tree) as [old|]; (split; [|auto]); [exact (inv_set_mem L _ _ H) | exact H]. }
  destruct (settle_roots_runs L (footprint held) s2 Hs2) as (Hs3 & [M E _ _] & Hr3).
  split; [exact Hs3|]. destruct Hst1 as [M1 E1 _ _]. split; [congruence|]. split; [congruence|].
  intros t p. unfold retained_root. rewrite Hr3, Hr2. unfold roots.
  intros [[<- <-]|[_ Ht]]%lookup_insert_Some; [auto | right; now rewrite <- Hr1].
Qed.

Lemma release_root_spec L tree s :
  store_inv L s ->
  let s' := release_root tree s in store_inv L s' /\ stays s s' /\ retained_root tree s' = None.
Proof.
  intros Hs. cbv zeta. unfold release_root. set (entry := rr_roots (st_roots s) !! tree).
  set (roots := delete tree (rr_roots (st_roots s))). set (s1 := set_roots _ s).
  assert (store_inv L s1 /\ stays s s1 /\ rr_roots (st_roots s1) = roots) as (Hs1 & Hst1 & Hr1).
  { destruct Hs as [H1 H2 H3 H4 H5]. split; [split; try assumption|split; [split; auto|reflexivity]];
      intros t p Ht; change (rr_roots (st_roots s1)) with roots in Ht; apply lookup_delete_Some in Ht as [_ Ht];
      [exact (H5 t p Ht) | exact Ht]. }
  set (s2 := if _ <? _ then _ else s1).
  assert (store_inv L s2 /\ stays s s2 /\ rr_roots (st_roots s2) = roots) as (Hs2 & Hst2 & Hr2).
  { unfold s2. destruct (_ <? _); [|auto]. set (w := _ + hash_table_bytes _ _).
    destruct (settle_roots_runs L w s1 Hs1) as (Ha & Hb & Hc).
    pose proof (stays_trans' _ _ _ Hst1 Hb) as Hst. rewrite Hr1 in Hc.
    destruct (settle_roots w s1) as [[u|e] s3]; cbn [fst snd] in *; [|auto].
    destruct Ha as [H1 H2 H3 H4 H5]. split; [split; assumption|]. split; [|exact Hc].
    destruct Hst as [S1 S2 S3 S4]. split; assumption. }
  destruct (settle_roots_runs L (footprint (st_roots s2)) s2 Hs2) as (Hs3 & Hst3 & Hr3).
  pose proof (stays_trans' _ _ _ Hst2 Hst3) as Hst. set (s3 := snd (settle_roots _ s2)) in *. clearbody s3.
  assert (retained_root tree s3 = None) as Hn by (unfold retained_root; rewrite Hr3, Hr2; apply lookup_delete_eq).
  destruct entry; [|auto]. cbn. split; [now apply inv_set_mem|]. split; [|exact Hn].
  eapply stays_trans'; [exact Hst | apply stays_set_mem].
Qed.

Lemma env_step_spec L s :
  store_inv L s ->
  store_inv L (env_step s) /\ st_marks (env_step s) = st_marks s /\ st_roots (env_step s) = st_roots s.
Proof.
  intros Hs. unfold env_step. destruct (st_env s); [auto|]. destruct Hs.
  split; [split; assumption | auto].
Qed.

(** A store just opened. *)
Lemma PageStore_new_inv m capacity shards entries_per_chunk max_chunks reads env :
  store_inv (fun _ => False)
    (PageStore_new m (PageCache_new capacity shards)
       (PageDirectory_new directory_base count entries_per_chunk max_chunks) reads env).
Proof.
  destruct (PageCache_new_inv capacity shards) as [Hc Hn]. split; cbn.
  - exact Hc.
  - intros o. rewrite Hn. split; [discriminate | tauto].
  - intros o pin bytes. now rewrite Hn.
  - split; simpl; [reflexivity | reflexivity | lia | constructor].
  - intros t pin. now rewrite lookup_empty.
Qed.

End StoreFacts.
