(* ===== verification/StoreAccounts.v ===== *)
(** The page store's memory.

    Every byte the budget counts is held by a live page buffer, a shard's
    tables, a directory chunk, the retained roots' table, or somebody outside
    the store ([accounted]).  [costs d m D e] says what a computation does to
    the share of those outside: it takes over [d] bytes of theirs and leaves
    them [D] of its result, or [e] when it fails.  Loading a page is neutral on
    every path, so nothing leaks and nothing is given back twice. *)

From Stdlib Require Import ZArith Lia.
From stdpp Require Import base countable gmap list.
From coqutil Require Import Byte.
From S2P Require Import Prelude Errors Format Node Budget Page Source Cache CacheFacts Directory Store.

#[local] Open Scope Z_scope.
#[local] Open Scope drydb_scope.

(** Buffer ids not used yet. *)
Definition fresh_from (n b : positive) : Prop := exists o serial, (n <= serial)%positive /\ b = buffer_id o serial.

Definition chunk_charge (ck : CachedChunk) : Z := ch_bytes (ck_charge ck).
Definition chunk_bytes (d : PageDirectory) : Z := zsum (chunk_charge <$> pd_chunks d).
Definition cache_bytes (c : PageCache) : Z := zsum (shard_book <$> pc_shards c).
Definition roots_bytes (r : RetainedRoots) : Z := Bookkeeping_bytes (rr_book r).

Record accounted (outside : Z) (s : Store) : Prop := {
  ac_balanced : balanced (fresh_from (st_serial s)) (st_mem s)
    (cache_bytes (st_cache s) + chunk_bytes (st_dir s) + roots_bytes (st_roots s) + outside);
  ac_some : (0 < length (pc_shards (st_cache s)))%nat;
  ac_shards : forall i sh, pc_shards (st_cache s) !! i = Some sh -> 0 <= shard_book sh /\ 0 <= sh_clock_capacity sh;
  ac_chunks : Forall (fun ck => 0 <= chunk_charge ck) (pd_chunks (st_dir s));
  ac_roots : 0 <= roots_bytes (st_roots s);
  ac_outside : 0 <= outside;
  ac_entries : 1 <= pd_entries_per_chunk (st_dir s);
}.

Lemma chunk_bytes_nonneg d : Forall (fun ck => 0 <= chunk_charge ck) (pd_chunks d) -> 0 <= chunk_bytes d.
Proof. intros H. apply zsum_nonneg. now apply Forall_fmap. Qed.

Lemma cache_bytes_nonneg c :
  (forall i sh, pc_shards c !! i = Some sh -> 0 <= shard_book sh /\ 0 <= sh_clock_capacity sh) -> 0 <= cache_bytes c.
Proof.
  intros H. apply zsum_nonneg, Forall_fmap, Forall_lookup. intros i sh Hi. exact (proj1 (H i sh Hi)).
Qed.

Lemma zsum_app l k : zsum (l ++ k) = zsum l + zsum k.
Proof. induction l as [|x l IH]; simpl; [reflexivity|]. unfold zsum in *. simpl. lia. Qed.

Lemma swap_remove_charge (l : list CachedChunk) i ck :
  l !! i = Some ck -> zsum (chunk_charge <$> swap_remove i l) = zsum (chunk_charge <$> l) - chunk_charge ck.
Proof.
  intros Hi. unfold swap_remove. pose proof (lookup_lt_Some _ _ _ Hi) as Hlt.
  match goal with |- context [match ?x with _ => _ end] => destruct x as [y|] eqn:Hy end; [|apply last_None in Hy as ->; discriminate].
  apply last_Some in Hy as [k ->]. rewrite length_app in *. simpl in *. replace (length k + 1 - 1)%nat with (length k) by lia.
  rewrite (fmap_app chunk_charge k [y]), zsum_app. change (zsum (chunk_charge <$> [y])) with (chunk_charge y + 0).
  destruct (decide (i = length k)) as [->|Hne].
  - rewrite list_lookup_middle in Hi by reflexivity. injection Hi as <-.
    rewrite insert_app_r_alt, Nat.sub_diag by lia. simpl. rewrite take_app_length. lia.
  - rewrite lookup_app_l in Hi by lia. rewrite insert_app_l by lia.
    rewrite take_app_length' by now rewrite length_insert.
    rewrite list_fmap_insert, (zsum_insert _ i (chunk_charge ck)) by now rewrite list_lookup_fmap, Hi. lia.
Qed.

Section Accounts.
Context {SA : StdAlloc} {SL : StdAllocLaws}.
Context (data : list byte) (filter : option PageFilter) (limits : Limits) (directory_base : Z) (vec_capacity : Z -> Z).

Abbreviation M A := (SM Store Stop A).
Abbreviation bal s := (balanced (fresh_from (st_serial s))).

(** ** The rules *)

Definition settled_stop (e : Z) (stop : Stop) (s : Store) : Prop :=
  match stop with Failed _ => accounted e s | Blocked | OutOfFuel => True end.

Definition costs {A} (d : Z) (m : M A) (D : A -> Z) (e : Z) : Prop := forall rest s,
  0 <= rest -> accounted (d + rest) s ->
  match m s with
  | (Ok a, s') => 0 <= D a /\ accounted (D a + rest) s'
  | (Err stop, s') => settled_stop (e + rest) stop s'
  end.

Lemma costs_bind {A B} d (m : M A) P (f : A -> M B) D e :
  costs d m P e -> (forall a, 0 <= P a -> costs (P a) (f a) D e) -> costs d (sbind m f) D e.
Proof.
  intros Hm Hf rest s Hr Hs. unfold sbind. specialize (Hm rest s Hr Hs).
  destruct (m s) as [[a|stop] s']; [|exact Hm]. destruct Hm as [Ha Hm]. exact (Hf a Ha rest s' Hr Hm).
Qed.

Lemma costs_frame {A} k d (m : M A) D e : 0 <= k -> costs d m D e -> costs (k + d) m (fun a => k + D a) (k + e).
Proof.
  intros Hk Hm rest s Hr Hs. specialize (Hm (k + rest) s). replace (d + (k + rest)) with (k + d + rest) in Hm by lia.
  specialize (Hm ltac:(lia) Hs). destruct (m s) as [[a|stop] s'].
  - destruct Hm as [Ha Hm]. split; [lia|]. now replace (k + D a + rest) with (D a + (k + rest)) by lia.
  - destruct stop; simpl in *; auto. now replace (k + e + rest) with (e + (k + rest)) by lia.
Qed.

(** A step that does not touch what is already outside. *)
Lemma costs_step {A B} k (m : M A) P (f : A -> M B) D :
  0 <= k -> costs 0 m P 0 -> (forall a, 0 <= P a -> costs (k + P a) (f a) D k) -> costs k (sbind m f) D k.
Proof.
  intros Hk Hm Hf rest s Hr Hs. unfold sbind. specialize (Hm (k + rest) s ltac:(lia) Hs).
  destruct (m s) as [[a|stop] s'].
  - destruct Hm as [Ha Hm]. apply (Hf a Ha rest s' Hr). now replace (k + P a + rest) with (P a + (k + rest)) by lia.
  - destruct stop; exact Hm.
Qed.

Lemma costs_ret {A} (a : A) (D : A -> Z) e : 0 <= D a -> costs (D a) (sret a) D e.
Proof. intros Ha rest s Hr Hs. simpl. auto. Qed.

Lemma costs_failed {A} (r : Result A) e : 0 <= e -> costs e (failed r) (fun _ => e) e.
Proof. intros He rest s Hr Hs. unfold failed, lift_failed, lift. destruct r; simpl; auto. Qed.

Lemma costs_eq {A} d d' (m : M A) D e : costs d m D e -> d = d' -> costs d' m D e.
Proof. now intros H <-. Qed.

(** ** Single steps *)

Lemma store_accounted_release c outside s :
  0 <= ch_bytes c -> 0 <= outside -> accounted (ch_bytes c + outside) s -> accounted outside (release c s).
Proof.
  intros Hc Ho [H1 H2 H3 H4 H5 H6 H7]. pose proof (chunk_bytes_nonneg _ H4). pose proof (cache_bytes_nonneg _ H3).
  split; try assumption. cbn. apply balanced_release; [exact Hc | | lia].
  eapply eq_rect; [exact H1 | lia].
Qed.

Lemma costs_held {A} c d (m : M A) D e :
  0 <= ch_bytes c -> 0 <= e -> costs (ch_bytes c + d) m D (ch_bytes c + e) -> costs (ch_bytes c + d) (held c m) D e.
Proof.
  intros Hc He Hm rest s Hr Hs. unfold held, holding. specialize (Hm rest s Hr Hs).
  destruct (m s) as [[a|stop] s']; [exact Hm|]. destruct stop; simpl in *; auto.
  apply store_accounted_release; [exact Hc | lia|]. now replace (ch_bytes c + (e + rest)) with (ch_bytes c + e + rest) by lia.
Qed.

Lemma costs_release c k e : 0 <= ch_bytes c -> 0 <= k -> costs (k + ch_bytes c) (smodify (release c)) (fun _ => k) e.
Proof.
  intros Hc Hk rest s Hr Hs. simpl. split; [exact Hk|]. apply store_accounted_release; [exact Hc | lia|].
  now replace (ch_bytes c + (k + rest)) with (k + ch_bytes c + rest) by lia.
Qed.

Lemma accounted_try_reserve n outside s :
  0 <= n -> accounted outside s ->
  match try_reserve n s with
  | (Ok c, s') => ch_bytes c = n /\ accounted (n + outside) s'
  | (Err e, s') => accounted outside s'
  end.
Proof.
  intros Hn [H1 H2 H3 H4 H5 H6 H7]. unfold try_reserve. pose proof (balanced_try_reserve n (st_mem s) _ Hn H1) as H.
  destruct (Budget_try_reserve n (m_budget (st_mem s))) as [[c|e] b].
  - destruct H as [Hc Hb]. split; [exact Hc|]. split; try assumption; [|lia]. cbn.
    eapply eq_rect; [exact Hb | lia].
  - destruct H as (-> & _). split; try assumption. cbn. now destruct (st_mem s).
Qed.

Lemma accounted_cache {A} (f : Mem * PageCache -> A * (Mem * PageCache)) outside outside' s :
  accounted outside s -> 0 <= outside' ->
  (forall k, 0 <= k -> cache_paid (fresh := fresh_from (st_serial s)) (outside + k) (st_mem s, st_cache s) ->
     cache_paid (fresh := fresh_from (st_serial s)) (outside' + k) (snd (f (st_mem s, st_cache s)))) ->
  (0 < length (pc_shards (snd (snd (f (st_mem s, st_cache s))))))%nat ->
  accounted outside' (snd (on_cache get_cache put_cache f s)).
Proof.
  intros [H1 H2 H3 H4 H5 H6 H7] Ho Hf Hlen. pose proof (chunk_bytes_nonneg _ H4).
  set (k := chunk_bytes (st_dir s) + roots_bytes (st_roots s)).
  assert (cache_paid (fresh := fresh_from (st_serial s)) (outside + k) (st_mem s, st_cache s)) as Hp.
  { split; cbn [fst snd]; [|exact H3 | unfold k; lia]. eapply eq_rect; [exact H1 | unfold cache_bytes, k; lia]. }
  specialize (Hf k ltac:(unfold k; lia) Hp). unfold on_cache, get_cache.
  destruct (f (st_mem s, st_cache s)) as [a [m c]]. cbn [fst snd] in *. destruct Hf as [P1 P2 P3]. cbn [fst snd] in *.
  split; cbn; auto. eapply eq_rect; [exact P1 | unfold cache_bytes, k; lia].
Qed.

Lemma evict_bytes_loop_length fuel target start released idle cursor s :
  length (pc_shards (snd (snd (evict_bytes_loop fuel target start released idle cursor s)))) = length (pc_shards (snd s)).
Proof.
  revert released idle cursor s. induction fuel as [|fuel IH]; intros released idle cursor [m c]; cbn [evict_bytes_loop]; [reflexivity|].
  destruct (_ && _); [|reflexivity]. unfold with_shard. destruct (evict_one _) as [[b|] [m' sh']]; rewrite IH; cbn; apply length_insert.
Qed.

Lemma accounted_evict_bytes n outside s :
  accounted outside s -> accounted outside (snd (on_cache get_cache put_cache (evict_bytes n) s)).
Proof.
  intros Hs. pose proof (ac_some _ _ Hs) as Hn. apply (accounted_cache _ outside); [exact Hs | apply Hs | |].
  - intros k _ Hp. apply evict_bytes_paid; [exact Hn | exact Hp].
  - unfold evict_bytes. rewrite evict_bytes_loop_length. exact Hn.
Qed.

Lemma accounted_dir_evict outside s :
  accounted outside s -> accounted outside (snd (on_dir get_dir put_dir dir_evict_one s)).
Proof.
  intros Hs. unfold on_dir, get_dir, dir_evict_one, drop_oldest.
  destruct (oldest (pd_chunks (st_dir s))) as [i|] eqn:Ho; cbn [snd]; [|destruct Hs; split; assumption].
  apply oldest_lookup in Ho. apply lookup_lt_is_Some in Ho as [ck Hck]. rewrite Hck. cbn [fmap option_fmap option_map option_release].
  destruct Hs as [H1 H2 H3 H4 H5 H6 H7]. pose proof (cache_bytes_nonneg _ H3).
  pose proof (Forall_lookup_1 _ _ _ _ H4 Hck) as Hc.
  assert (Forall (fun ck => 0 <= chunk_charge ck) (swap_remove i (pd_chunks (st_dir s)))) as H4'.
  { apply Forall_forall. intros c Hin. apply swap_remove_elem in Hin. rewrite Forall_forall in H4. auto. }
  pose proof (swap_remove_charge _ _ _ Hck) as Hsum.
  pose proof (chunk_bytes_nonneg (set_chunks (swap_remove i (pd_chunks (st_dir s))) (st_dir s)) H4') as Hnn.
  split; try assumption. change (bal s (charge_release (ck_charge ck) (st_mem s))
    (cache_bytes (st_cache s) + zsum (chunk_charge <$> swap_remove i (pd_chunks (st_dir s))) + roots_bytes (st_roots s) + outside)).
  unfold chunk_bytes in *. cbn [pd_chunks set_chunks] in Hnn. change (ch_bytes (ck_charge ck)) with (chunk_charge ck) in *.
  apply balanced_release; [exact Hc | | lia]. eapply eq_rect; [exact H1|]. change (ch_bytes (ck_charge ck)) with (chunk_charge ck). lia.
Qed.

(** ** Retained roots *)

Lemma accounted_mem outside s m :
  accounted outside s -> (forall r, bal s (st_mem s) r -> bal s m r) -> accounted outside (set_mem m s).
Proof. intros [H1 H2 H3 H4 H5 H6 H7] Hm. split; try assumption. cbn. now apply Hm. Qed.

Lemma accounted_drop_pin outside pin s : accounted outside s -> accounted outside (drop_pin pin s).
Proof. intros Hs. apply accounted_mem; [exact Hs|]. intros r. apply balanced_ref_drop. Qed.

Lemma accounted_drop_opt outside pin s : accounted outside s -> accounted outside (drop_opt pin s).
Proof. destruct pin; simpl; [apply accounted_drop_pin | auto]. Qed.

(** Replacing the roots but not what they are charged. *)
Lemma accounted_set_roots outside r s :
  accounted outside s -> rr_book r = rr_book (st_roots s) -> accounted outside (set_roots r s).
Proof.
  intros [H1 H2 H3 H4 H5 H6 H7] Hb. split; try assumption; cbn; unfold roots_bytes in *; rewrite Hb; assumption.
Qed.

Lemma accounted_settle_roots want outside s :
  0 <= want -> accounted outside s -> accounted outside (snd (settle_roots want s)).
Proof.
  intros Hw [H1 H2 H3 H4 H5 H6 H7]. unfold settle_roots. unfold roots_bytes in *.
  pose proof (balanced_buffers_nonneg _ _ H1). pose proof (cache_bytes_nonneg _ H3). pose proof (chunk_bytes_nonneg _ H4).
  pose proof H1 as [B1 B2 B3 B4 B5].
  pose proof (Bookkeeping_settle_spec want (m_budget (st_mem s)) (rr_book (st_roots s)) Hw) as Hset.
  destruct (Bookkeeping_settle want _) as [[u|e] [b k]].
  - destruct Hset as (Hk & Hu & Hle & Hl); [lia..|]. unfold Bookkeeping_bytes in *.
    split; cbn; unfold roots_bytes, Bookkeeping_bytes; cbn; rewrite ?Hk; try assumption.
    split; cbn; auto; try lia.
  - destruct Hset as (-> & -> & _); [lia..|]. split; try assumption. cbn. now destruct (st_mem s).
Qed.

Lemma footprint_nonneg r : 0 <= footprint r.
Proof. apply hash_table_bytes_nonneg. Qed.

Lemma accounted_retain_root tree pin outside s :
  accounted outside s -> accounted outside (retain_root tree pin s).
Proof.
  intros Hs. unfold retain_root. set (want := hash_table_peak_bytes _ _ _ _).
  assert (0 <= want) as Hw.
  { unfold want, hash_table_peak_bytes. pose proof (hash_table_bytes_nonneg (rr_slots (st_roots s)) ROOT_ENTRY_BYTES).
    destruct (_ <? _); [assumption|]. unfold saturating_add, usize_max, u64_max.
    set (next := if _ =? 0 then _ else _). assert (0 <= next) by (unfold next; destruct (_ =? 0); apply hash_table_bytes_nonneg). lia. }
  pose proof (accounted_settle_roots want outside s Hw Hs) as H1. destruct (settle_roots want s) as [[u|e] s1]; cbn [snd] in H1.
  - apply accounted_settle_roots; [apply footprint_nonneg|]. apply accounted_drop_opt, accounted_set_roots; [exact H1 | reflexivity].
  - now apply accounted_drop_pin.
Qed.

Lemma accounted_release_root tree outside s : accounted outside s -> accounted outside (release_root tree s).
Proof.
  intros Hs. unfold release_root. apply accounted_drop_opt, accounted_settle_roots; [apply footprint_nonneg|].
  set (s1 := set_roots _ s). assert (accounted outside s1) as H1 by (apply accounted_set_roots; [exact Hs | reflexivity]).
  destruct (_ <? _); [|exact H1]. set (w := _ + hash_table_bytes _ _). assert (0 <= w) as Hw.
  { unfold w. pose proof (footprint_nonneg (st_roots s1)).
    pose proof (hash_table_bytes_nonneg (Z.of_nat (size (delete tree (rr_roots (st_roots s))))) ROOT_ENTRY_BYTES). lia. }
  pose proof (accounted_settle_roots w outside s1 Hw H1) as H2. destruct (settle_roots w s1) as [[u|e] s2]; cbn [snd] in H2; [|exact H2].
  apply accounted_set_roots; [exact H2 | reflexivity].
Qed.

Lemma accounted_release_roots outside s : accounted outside s -> accounted outside (snd (release_roots s)).
Proof.
  intros Hs. unfold release_roots. cbn [snd]. set (pins := map snd _). clearbody pins.
  set (book := rr_book (st_roots s)). set (held := Bookkeeping_bytes book).
  assert (accounted (held + outside) (set_roots RetainedRoots_default s)) as H1.
  { destruct Hs as [H1 H2 H3 H4 H5 H6 H7]. unfold roots_bytes in *. split; try assumption; cbn; [|lia|unfold held, book; lia].
    eapply eq_rect; [exact H1 | unfold held, book, roots_bytes; cbn; lia]. }
  assert (accounted (held + outside) (foldl (fun s pin => drop_pin pin s) (set_roots RetainedRoots_default s) pins)) as H2.
  { revert H1. generalize (set_roots RetainedRoots_default s). induction pins as [|pin pins IH]; intros s0 H0; simpl; [exact H0|].
    apply IH. now apply accounted_drop_pin. }
  pose proof (ac_roots _ _ Hs) as Hb. unfold roots_bytes in Hb. fold book in Hb. fold held in Hb.
  revert H2. set (s2 := foldl _ _ _). clearbody s2. unfold held in *. destruct book as [c|]; cbn in *.
  - intros H2. apply store_accounted_release; [exact Hb | apply Hs | exact H2].
  - intros H2. destruct s2. exact H2.
Qed.

Lemma accounted_reclaim_pages n outside s : accounted outside s -> accounted outside (snd (reclaim_pages n s)).
Proof.
  intros Hs. unfold reclaim_pages. pose proof (accounted_evict_bytes n outside s Hs) as H1.
  destruct (on_cache _ _ _ s) as [freed s1]. destruct (0 <? freed); [exact H1 | now apply accounted_release_roots].
Qed.

(** ** Reservations and reads *)

Lemma costs_reserve_rounds rounds n last : 0 <= n -> costs 0 (reserve_rounds rounds n last) ch_bytes 0.
Proof.
  intros Hn. revert last. induction rounds as [|rounds IH]; intros last rest s Hr Hs; [exact Hs|]. cbn [reserve_rounds].
  pose proof (accounted_evict_bytes n _ s Hs) as H1. destruct (on_cache _ _ _ s) as [freed s1]. cbn [snd] in H1.
  set (r2 := if freed =? 0 then _ else _). assert (accounted (0 + rest) (snd r2)) as H2.
  { unfold r2. destruct (freed =? 0); [now apply accounted_dir_evict | exact H1]. }
  destruct r2 as [dropped s2]. cbn [snd] in H2. set (r3 := if (freed =? 0) && negb dropped then _ else _).
  assert (accounted (0 + rest) (snd r3)) as H3 by (unfold r3; destruct (_ && _); [now apply accounted_release_roots | exact H2]).
  destruct r3 as [released s3]. cbn [snd] in H3. pose proof (accounted_try_reserve n _ s3 Hn H3) as H4.
  destruct (try_reserve n s3) as [[c|e] s4].
  - destruct H4 as [-> H4]. split; [exact Hn|]. exact H4.
  - destruct (_ && _ && _); [exact H4|]. exact (IH (Some e) rest s4 Hr H4).
Qed.

Lemma costs_reserve n : 0 <= n -> costs 0 (reserve n) ch_bytes 0.
Proof.
  intros Hn rest s Hr Hs. unfold reserve. pose proof (accounted_try_reserve n _ s Hn Hs) as H1.
  destruct (try_reserve n s) as [[c|e] s1]; [destruct H1 as [-> H1]; split; [exact Hn | exact H1]|].
  destruct (is_retryable e); [|exact H1].
  exact (costs_reserve_rounds _ n None Hn rest s1 Hr H1).
Qed.

Lemma accounted_set_reads r outside s : accounted outside s -> accounted outside (set_reads r s).
Proof. intros []. split; assumption. Qed.

Lemma costs_read_source len offset : costs 0 (read_source data len offset) (fun _ => 0) 0.
Proof.
  intros rest s Hr Hs. unfold read_source. destruct (read_exact_at _ _ _ _) as [[bytes|e] reads]; simpl;
    [split; [lia|]|]; now apply accounted_set_reads.
Qed.

(** ** The directory *)

Abbreviation reserve_chunk := (reserve_chunk get_dir put_dir reclaim_pages).
Abbreviation read_chunk := (read_chunk get_dir put_dir (read_source data) reclaim_pages).

Lemma dir_try_reserve_is wanted s : on_dir get_dir put_dir (dir_try_reserve wanted) s = try_reserve wanted s.
Proof.
  unfold on_dir, get_dir, dir_try_reserve, try_reserve. cbn [fst snd].
  destruct (Budget_try_reserve wanted (m_budget (st_mem s))) as [r b]. now destruct s.
Qed.

Lemma costs_reserve_chunk fuel wanted : 0 <= wanted -> costs 0 (reserve_chunk fuel wanted) ch_bytes 0.
Proof.
  intros Hw. induction fuel as [|fuel IH]; intros rest s Hr Hs; [exact I|]. cbn [Directory.reserve_chunk].
  rewrite dir_try_reserve_is. pose proof (accounted_try_reserve wanted _ s Hw Hs) as H1.
  destruct (try_reserve wanted s) as [[c|e] s1]; [destruct H1 as [-> H1]; split; [exact Hw | exact H1]|].
  pose proof (accounted_dir_evict _ s1 H1) as H2. destruct (on_dir get_dir put_dir dir_evict_one s1) as [[] s2]; cbn [snd] in H2.
  - exact (IH rest s2 Hr H2).
  - pose proof (accounted_reclaim_pages wanted _ s2 H2) as H3. destruct (reclaim_pages wanted s2) as [freed s3]. cbn [snd] in H3.
    destruct (freed =? 0); [exact H3 | exact (IH rest s3 Hr H3)].
Qed.

Lemma accounted_put_dir outside d s :
  accounted outside s -> chunk_charge <$> pd_chunks d = chunk_charge <$> pd_chunks (st_dir s) ->
  pd_entries_per_chunk d = pd_entries_per_chunk (st_dir s) -> accounted outside (put_dir (st_mem s, d) s).
Proof.
  intros [H1 H2 H3 H4 H5 H6 H7] He Hepc. split; try assumption; cbn.
  - unfold chunk_bytes in *. now rewrite He.
  - apply (Forall_fmap chunk_charge (Z.le 0)). rewrite He. now apply Forall_fmap.
  - now rewrite Hepc.
Qed.

Lemma use_chunk_charges tick index chunks :
  chunk_charge <$> snd (use_chunk tick index chunks) = chunk_charge <$> chunks.
Proof.
  induction chunks as [|ck chunks IH]; cbn [use_chunk]; [reflexivity|]. destruct (_ =? _); [reflexivity|].
  destruct (use_chunk tick index chunks) as [found chunks']. cbn [snd] in *. rewrite !fmap_cons. now f_equal.
Qed.

Lemma accounted_dir_release c outside s :
  0 <= ch_bytes c -> 0 <= outside -> accounted (ch_bytes c + outside) s ->
  accounted outside (dir_release get_dir put_dir c s).
Proof.
  intros Hc Ho Hs. assert (dir_release get_dir put_dir c s = release c s) as -> by now destruct s.
  now apply store_accounted_release.
Qed.

Lemma accounted_read_chunk fuel q rest s :
  0 <= rest -> accounted rest s -> q * pd_entries_per_chunk (st_dir s) < pd_count (st_dir s) ->
  match read_chunk fuel q s with
  | (Ok ck, s') => 0 <= chunk_charge ck /\ accounted (chunk_charge ck + rest) s'
  | (Err stop, s') => settled_stop rest stop s'
  end.
Proof.
  intros Hr Hs Hq. unfold Directory.read_chunk. cbn [get_dir snd].
  destruct (chunk_range (st_dir s) q) as [[len offset]|e] eqn:Hrange; [|exact Hs].
  assert (0 <= len) as Hlen.
  { pose proof (ac_entries _ _ Hs). unfold chunk_range, chunk_first, checked_mul, checked_add in Hrange.
    repeat (case_match; simpl in Hrange; try discriminate). simplify_eq/=. unfold DIRECTORY_SLOT_LEN. lia. }
  unfold sbind at 1. pose proof (costs_reserve_chunk fuel (len + BUFFER_OVERHEAD) ltac:(unfold BUFFER_OVERHEAD; lia) rest s Hr Hs) as H1.
  destruct (reserve_chunk fuel _ s) as [[c|stop] s1]; [|exact H1]. destruct H1 as [Hc H1].
  unfold holding, sbind. pose proof (costs_frame (ch_bytes c) 0 _ _ 0 Hc (costs_read_source len offset) rest s1 Hr) as H2.
  rewrite Z.add_0_r in H2. specialize (H2 H1). destruct (read_source data len offset s1) as [[bytes|stop] s2].
  - destruct H2 as [_ H2]. cbn. split; [exact Hc|]. rewrite Z.add_0_r in H2. unfold chunk_charge. cbn.
    apply accounted_put_dir; [exact H2 | reflexivity | reflexivity].
  - destruct stop; simpl in *; auto. apply accounted_dir_release; [exact Hc | lia|]. exact H2.
Qed.

Lemma accounted_insert ck outside s :
  0 <= chunk_charge ck -> 0 <= outside -> accounted (chunk_charge ck + outside) s ->
  accounted outside (put_dir (dir_insert ck (get_dir s)) s).
Proof.
  intros Hc Ho Hs. unfold dir_insert, get_dir. destruct (existsb _ _).
  { change (accounted outside (release (ck_charge ck) (put_dir (st_mem s, st_dir s) s))).
    apply store_accounted_release; [exact Hc | exact Ho | now destruct s]. }
  set (p := if _ <=? _ then _ else _). assert (accounted (chunk_charge ck + outside) (put_dir p s)) as Hp.
  { unfold p. destruct (_ <=? _); [|now destruct s]. pose proof (accounted_dir_evict _ _ Hs) as He. unfold on_dir, get_dir, dir_evict_one in He.
    destruct (drop_oldest (st_mem s, st_dir s)) as [b md]. exact He. }
  destruct p as [m d]. destruct Hp as [H1 H2 H3 H4 H5 H6 H7]. cbn in *.
  assert (chunk_bytes (set_chunks (pd_chunks d ++ [ck]) d) = chunk_bytes d + chunk_charge ck) as Hsum.
  { unfold chunk_bytes. cbn [pd_chunks set_chunks]. rewrite fmap_app, zsum_app. unfold zsum at 2. simpl. lia. }
  split; try assumption; cbn.
  - change (bal s m (cache_bytes (st_cache s) + chunk_bytes (set_chunks (pd_chunks d ++ [ck]) d)
      + roots_bytes (st_roots s) + outside)). rewrite Hsum. eapply eq_rect; [exact H1 | lia].
  - apply Forall_app. split; [exact H4 | now apply Forall_singleton].
Qed.

Lemma costs_offset_of o : costs 0 (offset_of data o) (fun _ => 0) 0.
Proof.
  intros rest s Hr Hs. unfold offset_of, dir_offset_of. cbn [get_dir snd].
  destruct (Z.leb_spec (pd_count (st_dir s)) o) as [Hge|Hlt]; [exact Hs|].
  unfold on_dir. cbn [get_dir fst snd]. pose proof (ac_entries _ _ Hs) as Hepc.
  set (epc := pd_entries_per_chunk (st_dir s)) in *. set (slot := _ * DIRECTORY_SLOT_LEN).
  assert (chunk_charge <$> pd_chunks (snd (dir_lookup (o / epc) slot (st_dir s))) = chunk_charge <$> pd_chunks (st_dir s) /\
    pd_entries_per_chunk (snd (dir_lookup (o / epc) slot (st_dir s))) = epc /\
    pd_count (snd (dir_lookup (o / epc) slot (st_dir s))) = pd_count (st_dir s)) as (Hch & He & Hcnt).
  { unfold dir_lookup, next_tick. pose proof (use_chunk_charges (pd_tick (st_dir s)) (o / epc) (pd_chunks (st_dir s))) as H.
    cbn [pd_chunks]. destruct (use_chunk _ _ (pd_chunks (st_dir s))) as [found chunks]. split; [exact H | split; reflexivity]. }
  destruct (dir_lookup (o / epc) slot (st_dir s)) as [r d1]. cbn [fst snd] in *.
  set (s1 := put_dir (st_mem s, d1) s). assert (accounted (0 + rest) s1) as H1 by (apply accounted_put_dir; [exact Hs | exact Hch | exact He]).
  destruct r as [[raw|]|e]; [| |exact H1].
  - exact (costs_failed (validate_offset (st_dir s) raw o) 0 (Z.le_refl 0) rest s1 Hr H1).
  - unfold sbind. pose proof (accounted_read_chunk (reclaim_rounds s) (o / epc) (0 + rest) s1 ltac:(lia) H1) as H2.
    destruct (read_chunk _ _ s1) as [[ck|stop] s2].
    2: { apply H2. change (st_dir s1) with d1. rewrite He, Hcnt. pose proof (Z.mul_div_le o epc). lia. }
    destruct H2 as [Hck H2]; [change (st_dir s1) with d1; rewrite He, Hcnt; pose proof (Z.mul_div_le o epc); lia|].
    unfold holding, lift_failed, lift. destruct (read_i64 (ck_data ck) slot) as [raw|e]; cbn [map_err].
    + pose proof (accounted_insert ck (0 + rest) s2 Hck ltac:(lia) H2) as H3.
      destruct (validate_offset (st_dir s) raw o); simpl; [split; [lia|]|]; exact H3.
    + simpl. apply accounted_dir_release; [exact Hck | lia | exact H2].
Qed.

Lemma costs_page_limit o offset : costs 0 (page_limit data directory_base o offset) (fun _ => 0) 0.
Proof.
  intros rest s Hr Hs. unfold page_limit. destruct (_ <=? _); [simpl; split; [lia | exact Hs]|].
  revert rest s Hr Hs. change (costs 0 (let! next := offset_of data (saturating_add o 1) in
    sret (if offset <? next then Z.min next directory_base else directory_base)) (fun _ => 0) 0).
  eapply costs_bind; [apply costs_offset_of|]. intros next _. exact (costs_ret _ (fun _ => 0) 0 (Z.le_refl 0)).
Qed.

(** ** Loading *)

(** Sizes are not negative. *)
Definition sizes_ok : Prop :=
  0 <= max_decoded_page_bytes limits /\
  match filter with
  | Some f => (forall bytes n, pf_decoded_size_hint f bytes = Some n -> 0 <= n) /\
      0 <= pf_working_set_bytes f /\ 0 <= pf_probe_bytes f
  | None => True
  end.
Context (Hsizes : sizes_ok).

(** Reserving, and giving back at once. *)
Lemma costs_passing {A} n k (f : unit -> M A) D :
  0 <= n -> 0 <= k -> (forall u, costs k (f u) D k) ->
  costs k (let! c := reserve n in let! u := smodify (release c) in f u) D k.
Proof.
  intros Hn Hk Hf. apply (costs_step k _ ch_bytes); [exact Hk | now apply costs_reserve|]. intros c Hc.
  eapply costs_bind; [now apply costs_release|]. intros u _. apply Hf.
Qed.

Lemma costs_pure {A B} (r : Result A) k (f : A -> M B) D :
  0 <= k -> (forall a, r = Ok a -> costs k (f a) D k) -> costs k (sbind (failed r) f) D k.
Proof.
  intros Hk Hf rest s Hr Hs. unfold sbind, failed, lift_failed, lift. destruct r as [a|e]; simpl; [|exact Hs].
  exact (Hf a eq_refl rest s Hr Hs).
Qed.

Lemma costs_decode_stored stored_charge stored :
  0 <= ch_bytes stored_charge ->
  costs (ch_bytes stored_charge) (decode_stored filter limits vec_capacity stored_charge stored)
    (fun p => ch_bytes (fst p)) (ch_bytes stored_charge).
Proof.
  intros Hst. destruct Hsizes as [Hmax Hf]. unfold decode_stored. destruct filter as [f|].
  2: { exact (costs_ret (stored_charge, stored) (fun p => ch_bytes (fst p)) _ Hst). }
  destruct Hf as (Hhint & Hwork & Hprobe). cbv zeta. apply costs_pure; [exact Hst|]. intros capacity Hcap.
  assert (0 <= capacity) as Hc.
  { unfold decode_capacity in Hcap. destruct (pf_decoded_size_hint _ _) as [n|] eqn:Hn; [|congruence].
    destruct (_ <=? _); [|discriminate]. injection Hcap as <-. exact (Hhint _ _ Hn). }
  apply (costs_step _ _ ch_bytes); [exact Hst | apply costs_reserve; unfold BUFFER_OVERHEAD; lia|]. intros scratch Hsc.
  eapply costs_eq; [apply costs_held; [exact Hsc | exact Hst|] | apply Z.add_comm].
  set (k := ch_bytes scratch + ch_bytes stored_charge). assert (0 <= k) as Hk by (unfold k; lia).
  apply costs_passing; [exact Hprobe | exact Hk|]. intros _. apply costs_passing; [exact Hwork | exact Hk|]. intros _.
  apply costs_pure; [exact Hk|]. intros payload _. apply costs_pure; [exact Hk|]. intros page _.
  apply (costs_step _ _ ch_bytes); [exact Hk | apply costs_reserve; pose proof (zlen_nonneg page); unfold BUFFER_OVERHEAD; lia|].
  intros exact Hex rest s Hr Hs. cbn. split; [exact Hex|].
  apply store_accounted_release; [exact Hst | lia|]. apply store_accounted_release; [exact Hsc | lia|].
  replace (ch_bytes scratch + (ch_bytes stored_charge + (ch_bytes exact + rest))) with (k + ch_bytes exact + rest)
    by (unfold k; lia). exact Hs.
Qed.

Lemma accounted_new_pin o bytes c outside s :
  0 <= ch_bytes c -> 0 <= outside -> accounted (ch_bytes c + outside) s -> accounted outside (snd (new_pin o bytes c s)).
Proof.
  intros Hc Ho [H1 H2 H3 H4 H5 H6 H7]. pose proof (cache_bytes_nonneg _ H3). pose proof (chunk_bytes_nonneg _ H4).
  split; try assumption. cbn.
  apply (balanced_pin_alloc (fresh_from (st_serial s))); [exists o, (st_serial s); split; [lia | reflexivity] | | exact Hc | lia |].
  - intros b' (o' & n & Hn & ->). split; [exists o', n; split; [lia | reflexivity]|].
    intros He. apply (inj encode) in He. injection He as _ ->. lia.
  - eapply eq_rect; [exact H1 | lia].
Qed.

Lemma costs_load o : costs 0 (load data filter limits directory_base vec_capacity o) (fun _ => 0) 0.
Proof.
  unfold load. apply (costs_step 0 _ (fun _ => 0)); [lia | apply costs_offset_of|]. intros offset _.
  apply (costs_step 0 _ (fun _ => 0)); [lia | apply costs_read_source|]. intros length_bytes _.
  apply costs_pure; [lia|]. intros stored_len Hlen. apply costs_pure; [lia|]. intros end_ _.
  apply (costs_step 0 _ (fun _ => 0)); [lia | apply costs_page_limit|]. intros limit _.
  apply costs_pure; [lia|]. intros _ _.
  assert (0 <= stored_len) as Hsl.
  { unfold stored_length in Hlen. inv_ok. bool_hyps. unfold checked_len in *. case_match; [discriminate|]. simplify_eq.
    match goal with H : (_ <? 0) = false |- _ => apply Z.ltb_ge in H; exact H end. }
  apply (costs_step 0 _ ch_bytes); [lia | apply costs_reserve; unfold BUFFER_OVERHEAD; lia|]. intros stored_charge Hst.
  apply (costs_bind _ _ (fun p => ch_bytes (fst p))).
  - eapply costs_eq; [apply (costs_held stored_charge 0); [exact Hst | lia|] | lia]. rewrite Z.add_0_r.
    apply (costs_step _ _ (fun _ => 0)); [exact Hst | apply costs_read_source|]. intros stored _.
    cbv beta. rewrite Z.add_0_r. now apply costs_decode_stored.
  - intros [charge bytes] Hch. cbn [fst] in *. eapply costs_eq; [apply (costs_held charge 0); [exact Hch | lia|] | lia].
    rewrite Z.add_0_r. apply costs_pure; [exact Hch|]. intros _ _ rest s Hr Hs.
    split; [lia|]. exact (accounted_new_pin o bytes charge rest s Hch Hr Hs).
Qed.

(** ** Through the cache *)

Lemma accounted_on_shard {A} o (f : Mem * ShardInner -> A * (Mem * ShardInner)) d d' outside s :
  0 <= d -> 0 <= d' -> 0 <= outside -> accounted (d + outside) s ->
  (shard_of (st_cache s) o < length (pc_shards (st_cache s)))%nat ->
  (forall r, 0 <= r -> paid (fresh := fresh_from (st_serial s)) (d + r) (st_mem s, shard_at (st_cache s) (shard_of (st_cache s) o)) ->
     paid (fresh := fresh_from (st_serial s)) (d' + r) (snd (f (st_mem s, shard_at (st_cache s) (shard_of (st_cache s) o))))) ->
  accounted (d' + outside) (snd (on_shard_of get_cache put_cache o f s)).
Proof.
  intros Hd Hd' Ho Hs Hi Hf. unfold on_shard_of. eapply accounted_cache; [exact Hs | lia | |].
  - intros k Hk Hp. rewrite <- Z.add_assoc in *. cbn [snd]. apply (with_shard_paid _ f d); auto; try lia.
  - cbn [snd]. unfold with_shard. destruct (f _) as [a [m' sh']]. cbn. rewrite length_insert. apply (ac_some _ _ Hs).
Qed.

Lemma shard_of_in c o : (0 < length (pc_shards c))%nat -> (shard_of c o < length (pc_shards c))%nat.
Proof. intros Hn. pose proof (shard_index_lt (zlen (pc_shards c)) o). unfold shard_of, zlen in *. lia. Qed.

Lemma cache_enter_want o charge attempts s :
  match fst (cache_enter o charge attempts s) with Reserve want _ => 0 <= want | _ => True end.
Proof.
  destruct s as [m sh]. assert (0 <= LOADING_SLOT_BYTES + growth_for_one_more sh) as H
    by (unfold LOADING_SLOT_BYTES, growth_for_one_more; lia).
  unfold cache_enter, touch, mark_loading. cbn [fst snd]. destruct (sh_map sh !! o) as [[pin bytes r|]|]; cbn; auto.
  destruct charge as [c|]; cbn; [|exact H]. destruct (_ <? _); [case_bool_decide; cbn; auto|]. exact I.
Qed.

Lemma accounted_get_or_load fuel o charge attempts rest s :
  0 <= from_option ch_bytes 0 charge -> 0 <= rest -> accounted (from_option ch_bytes 0 charge + rest) s ->
  match get_or_load_loop get_cache put_cache fuel o reserve (load data filter limits directory_base vec_capacity o)
          charge attempts s with
  | (Ok _, s') => accounted rest s'
  | (Err stop, s') => settled_stop rest stop s'
  end.
Proof.
  revert charge attempts s. induction fuel as [|fuel IH]; intros charge attempts s Hc Hr Hs; [exact I|].
  rewrite get_or_load_loop_S. set (sh := shard_at (st_cache s) (shard_of (st_cache s) o)).
  set (seen0 := fst (cache_enter o charge attempts (st_mem s, sh))).
  assert (accounted (charge_out charge seen0 + rest) (snd (on_shard_of get_cache put_cache o (cache_enter o charge attempts) s)))
    as H1.
  { apply (accounted_on_shard o _ (from_option ch_bytes 0 charge)); auto.
    - destruct seen0; simpl; lia.
    - apply shard_of_in, (ac_some _ _ Hs).
    - intros r Hr' Hp. fold sh in Hp |- *. pose proof (cache_enter_paid o charge attempts r (st_mem s, sh) Hc Hr' Hp) as H.
      unfold seen0. destruct (cache_enter o charge attempts (st_mem s, sh)) as [seen s']. exact H. }
  assert (fst (on_shard_of get_cache put_cache o (cache_enter o charge attempts) s) = seen0) as Hseen.
  { unfold on_shard_of, on_cache, with_shard, get_cache. cbn [fst snd].
    change (default ShardInner_default (pc_shards (st_cache s) !! shard_of (st_cache s) o)) with sh. unfold seen0.
    destruct (cache_enter o charge attempts (st_mem s, sh)) as [seen [m' sh']]. reflexivity. }
  pose proof (cache_enter_want o charge attempts (st_mem s, sh)) as Hwant. fold seen0 in Hwant.
  destruct (on_shard_of _ _ o (cache_enter o charge attempts) s) as [seen s1]. cbn [fst snd] in *.
  rewrite <- Hseen in H1, Hwant. clear Hseen seen0.
  destruct seen as [pin| |want att| |e]; simpl in H1.
  - exact H1.
  - exact I.
  - pose proof (costs_reserve want Hwant rest s1 Hr H1) as H2. destruct (reserve want s1) as [[c|stop] s2]; [|destruct stop; exact H2].
    destruct H2 as [Hcc H2]. exact (IH (Some c) att s2 Hcc Hr H2).
  - pose proof (costs_load o rest s1 Hr H1) as H2. destruct (load _ _ _ _ _ o s1) as [[[pin bytes]|stop] s2].
    + destruct H2 as [_ H2]. set (cap := pc_capacity_per_shard _).
      pose proof (accounted_on_shard o (state_only (publish cap o pin bytes)) 0 0 rest s2 (Z.le_refl 0) (Z.le_refl 0) Hr H2
        (shard_of_in _ o (ac_some _ _ H2)) (fun r _ Hp => publish_paid cap o pin bytes _ _ Hp)) as H3.
      cbv zeta. destruct (on_shard_of _ _ o (state_only (publish cap o pin bytes)) s2) as [u s3]. exact H3.
    + destruct stop as [e| |]; simpl in H2 |- *.
      * pose proof (accounted_on_shard o (state_only (InFlight_drop o)) 0 0 rest s2 (Z.le_refl 0) (Z.le_refl 0) Hr H2
          (shard_of_in _ o (ac_some _ _ H2)) (fun r _ Hp => InFlight_drop_paid o _ _ Hp)) as H3.
        destruct (on_shard_of _ _ o (state_only (InFlight_drop o)) s2) as [u s3]. exact H3.
      * destruct (on_shard_of _ _ o (state_only (InFlight_drop o)) s2) as [u s3]. exact I.
      * destruct (on_shard_of _ _ o (state_only (InFlight_drop o)) s2) as [u s3]. exact I.
  - exact H1.
Qed.

Lemma accounted_page o outside s :
  accounted outside s ->
  match page data filter limits directory_base vec_capacity o s with
  | (Ok _, s') => accounted outside s'
  | (Err stop, s') => settled_stop outside stop s'
  end.
Proof.
  intros Hs. unfold page, get_or_load. pose proof (ac_outside _ _ Hs) as Ho.
  pose proof (accounted_get_or_load 12 o None 0 outside s (Z.le_refl 0) Ho Hs) as H.
  destruct (get_or_load_loop _ _ 12 o reserve _ None 0 s) as [[pin|stop] s']; [exact H | destruct stop; exact H].
Qed.

Lemma accounted_page_cached o outside s : accounted outside s -> accounted outside (snd (store_page_cached o s)).
Proof.
  intros Hs. exact (accounted_on_shard o (touch o) 0 0 outside s (Z.le_refl 0) (Z.le_refl 0) (ac_outside _ _ Hs) Hs
    (shard_of_in _ o (ac_some _ _ Hs)) (fun r _ Hp => touch_paid o _ _ Hp)).
Qed.
End Accounts.
