(* ===== verification/OpenStore.v ===== *)
(** Trees and cursors over the page store.

    [Btree.v] and [Cursor.v] are proved against the interface of a store.  Here
    the page store of [Store.v] is shown to be one, so their theorems hold of
    searches and scans that go through the directory, the cache, the filter and
    the budget, with other parts of the process taking and dropping pages in
    between. *)

From Stdlib Require Import ZArith Lia.
From stdpp Require Import base list gmap countable.
From coqutil Require Import Byte.
From S2P Require Import Prelude Errors Format Node Encoding Budget Page TreePage Btree Query Cursor.
From S2P Require Import Source Cache CacheFacts Directory Store StoreFacts StoreAccounts.

#[local] Open Scope Z_scope.
#[local] Open Scope drydb_scope.

(** What is fixed while a database is open. *)
Record Config : Type := mkConfig {
  cf_alloc : StdAlloc;
  cf_data : list byte;
  cf_filter : option PageFilter;
  cf_limits : Limits;
  cf_directory_base : Z;
  cf_page_count : Z;
  cf_vec_capacity : Z -> Z;
}.

Definition config_fits (cf : Config) : Prop := dir_fits (cf_data cf) (cf_directory_base cf) (cf_page_count cf).

Record OpenStore (cf : Config) : Type := mkOpen { os_store : Store }.
Arguments mkOpen {cf}.
Arguments os_store {cf}.

(** The page an ordinal stands for; ordinals are [u64]s. *)
Definition file_page (cf : Config) (o : PageOrdinal) : option (list byte) :=
  if o <? 0 then None
  else page_content (cf_data cf) (cf_filter cf) (cf_limits cf) (cf_directory_base cf) (cf_vec_capacity cf) (cf_page_count cf) o.

(** A stop as the caller sees it.  Only errors come out of a store between whose
    calls nothing is in flight ([store_page_correct]). *)
Definition stop_error (stop : Stop) : Error := match stop with Failed e => e | _ => Error_corrupt end.

Definition os_lift {cf A} (m : SM Store Stop A) : SM (OpenStore cf) Error A := fun s =>
  match m (env_step (os_store s)) with (r, s) => (map_err stop_error r, mkOpen s) end.

(** [PageStore::page] of an open file. *)
Definition cf_page (cf : Config) (o : PageOrdinal) : SM Store Stop PagePin :=
  page (SA := cf_alloc cf) (cf_data cf) (cf_filter cf) (cf_limits cf) (cf_directory_base cf) (cf_vec_capacity cf) o.

Definition os_page {cf} (o : PageOrdinal) : SM (OpenStore cf) Error PagePin :=
  if o <? 0 then sfail Error_corrupt else os_lift (cf_page cf o).

#[export] Instance Open_tree_store cf : TreeStore (OpenStore cf) := {|
  ts_page := os_page;
  ts_page_cached := fun o s =>
    if o <? 0 then (None, s)
    else match store_page_cached (SA := cf_alloc cf) o (env_step (os_store s)) with (r, s) => (r, mkOpen s) end;
  ts_retained_root := fun t s => retained_root t (os_store s);
  ts_retain_root := fun t pin s =>
    let s := env_step (os_store s) in
    mkOpen (retain_root (SA := cf_alloc cf) t pin (set_mem (pin_clone pin (st_mem s)) s));
  ts_release_root := fun t s => mkOpen (release_root (SA := cf_alloc cf) t (env_step (os_store s)));
  ts_has_headroom_for := fun n s => has_headroom_for n (os_store s);
  ts_markers := fun s => st_marks (os_store s);
  ts_set_markers := fun m s => mkOpen (set_marks m (os_store s));
  ts_page_count := fun s => pd_count (st_dir (os_store s));
  ts_max_tree_depth := fun _ => limit_tree_depth (cf_limits cf);
|}.

#[export] Instance Open_cursor_store cf : CursorStore (OpenStore cf) := {|
  cs_reserve := fun n s =>
    match os_lift (cf := cf) (reserve (SA := cf_alloc cf) n) s with (r, s) => (rmap ch_bytes r, s) end;
  cs_try_reserve := fun n s =>
    match try_reserve n (env_step (os_store s)) with (r, s) => (rmap ch_bytes r, mkOpen s) end;
  cs_capacity := cf_vec_capacity cf;
|}.

(** * The store is a store *)

Section Laws.
Context (cf : Config) (Hfits : config_fits cf).

Abbreviation inv := (store_inv (cf_data cf) (cf_filter cf) (cf_limits cf) (cf_directory_base cf) (cf_page_count cf)
  (cf_vec_capacity cf)).
Abbreviation pin_of := (pin_of (cf_data cf) (cf_filter cf) (cf_limits cf) (cf_directory_base cf) (cf_page_count cf)
  (cf_vec_capacity cf)).
Abbreviation buffer_data := (buffer_data (cf_data cf) (cf_filter cf) (cf_limits cf) (cf_directory_base cf)
  (cf_page_count cf) (cf_vec_capacity cf)).

(** Nothing is in flight. *)
Definition open_ok (s : OpenStore cf) : Prop := inv (fun _ => False) (os_store s).

Lemma os_lift_spec {A} (m : SM Store Stop A) (Q : A -> Prop) (R : Stop -> Prop) s :
  open_ok s ->
  (forall s, inv (fun _ => False) s -> inv (fun _ => False) (snd (m s)) /\ stays s (snd (m s)) /\
     match fst (m s) with Ok a => Q a | Err stop => R stop end) ->
  open_ok (snd (os_lift m s)) /\ evolves s (snd (os_lift m s)) /\
  match fst (os_lift m s) with Ok a => Q a | Err e => exists stop, R stop /\ e = stop_error stop end.
Proof.
  intros Hs Hm. unfold os_lift. destruct (env_step_spec _ _ _ _ _ _ _ _ Hs) as (He & Hmk & Hrt).
  destruct (Hm _ He) as (Hs' & [S1 S2 S3 S4] & H). destruct (m (env_step (os_store s))) as [r s']. cbn [fst snd] in *.
  split; [exact Hs'|]. split.
  - split; cbn.
    + intros b. left. now rewrite S1, Hmk.
    + intros t pin Ht. apply S4 in Ht. unfold retained_root. now rewrite Hrt in Ht.
  - destruct r; simpl; eauto.
Qed.

Lemma file_page_content o : 0 <= o -> file_page cf o = page_content (cf_data cf) (cf_filter cf) (cf_limits cf)
  (cf_directory_base cf) (cf_vec_capacity cf) (cf_page_count cf) o.
Proof. intros Ho. unfold file_page. destruct (Z.ltb_spec o 0); [lia | reflexivity]. Qed.

Lemma os_page_spec o s :
  open_ok s ->
  open_ok (snd (os_page o s)) /\ evolves s (snd (os_page o s)) /\
  match fst (os_page o s) with Ok pin => 0 <= o /\ pin_of o pin | Err e => file_page cf o = None \/ transient e end.
Proof.
  intros Hs. unfold os_page. destruct (Z.ltb_spec o 0) as [Hneg|Ho].
  - split; [exact Hs|]. split; [split; auto|]. left. unfold file_page. destruct (Z.ltb_spec o 0); [reflexivity | lia].
  - match goal with |- context [os_lift ?m s] => destruct (os_lift_spec m (pin_of o) (load_stop (cf_data cf) (cf_filter cf)
      (cf_limits cf) (cf_directory_base cf) (cf_page_count cf) (cf_vec_capacity cf) o) s Hs) as (H1 & H2 & H3) end.
    { intros s0 Hs0. now apply page_spec. }
    split; [exact H1|]. split; [exact H2|]. destruct (fst _); [auto|].
    destruct H3 as ([e'| |] & Hstop & ->); [|destruct Hstop..]. simpl.
    destruct Hstop as [[e He]|Ht]; [left | now right]. rewrite file_page_content by exact Ho. unfold page_content. now rewrite He.
Qed.

#[export, program] Instance Open_laws :
  StoreLaws (OpenStore cf) (file_page cf) (cf_page_count cf) (limit_tree_depth (cf_limits cf)) := {|
  store_ok := open_ok;
  bufdata := buffer_data;
|}.
Next Obligation.
  intros o s Hs. destruct (os_page_spec o s Hs) as (H1 & H2 & H3). split; [exact H1|]. split; [exact H2|].
  cbn. intros pin Hp. rewrite Hp in H3. destruct H3 as [Ho (P1 & P2 & P3)]. rewrite file_page_content by exact Ho. auto.
Qed.
Next Obligation.
  intros o s Hs. cbn. destruct (Z.ltb_spec o 0) as [Hneg|Ho]; [split; [exact Hs|]; split; [split; auto|discriminate]|].
  destruct (env_step_spec _ _ _ _ _ _ _ _ Hs) as (He & Hmk & Hrt).
  destruct (page_cached_spec (SA := cf_alloc cf) _ _ _ _ _ _ _ o _ He) as (Hs' & [S1 S2 S3 S4] & H).
  destruct (store_page_cached (SA := cf_alloc cf) o _) as [r s']. cbn [fst snd] in *. split; [exact Hs'|]. split.
  - split; cbn; [intros b; left; now rewrite S1, Hmk|]. intros t pin Ht. apply S4 in Ht. unfold retained_root. now rewrite Hrt in Ht.
  - intros pin ->. destruct H as (P1 & P2 & P3). rewrite file_page_content by exact Ho. auto.
Qed.
Next Obligation.
  intros t o pin s Hs Hp. cbn. destruct (env_step_spec _ _ _ _ _ _ _ _ Hs) as (He & Hmk & Hrt).
  set (s1 := set_mem _ _). assert (inv (fun _ => False) s1) as Hs1 by now apply inv_set_mem.
  destruct (retain_root_spec (SA := cf_alloc cf) _ _ _ _ _ _ (fun _ => False) t pin s1 Hs1) as (H1 & H2 & _ & H4).
  { destruct Hp as (<- & P2 & P3). split; [reflexivity|]. split; [|exact P3].
    unfold file_page in P2. destruct (_ <? 0); [discriminate | exact P2]. }
  split; [exact H1|]. split; [now rewrite H2|]. intros t' p Ht. destruct (H4 t' p Ht) as [|Ho]; [auto|]. right.
  unfold retained_root in *. now rewrite <- Hrt.
Qed.
Next Obligation. intros m s [H1 H2 H3 H4 H5]. cbn. split; [split; assumption | auto]. Qed.
Next Obligation. intros s Hs. exact (do_count _ _ _ _ (sv_dir _ _ _ _ _ _ _ _ Hs)). Qed.
Next Obligation. reflexivity. Qed.

Lemma Open_reserve_spec n s :
  open_ok s ->
  open_ok (snd (cs_reserve n s)) /\ evolves s (snd (cs_reserve n s)) /\
  match fst (cs_reserve n s) with Ok m => m = n | Err e => transient e end.
Proof.
  intros Hs. cbn. destruct (os_lift_spec (reserve (SA := cf_alloc cf) n) (fun c => ch_bytes c = n) (stops False) s Hs)
    as (H1 & H2 & H3); [intros s0 Hs0; now apply reserve_runs|].
  destruct (os_lift _ s) as [[c|e] s']; cbn [fst snd rmap] in *; (split; [exact H1|]); (split; [exact H2|]); [exact H3|].
  destruct H3 as ([e'| |] & Hstop & ->); [|destruct Hstop..]. now destruct Hstop.
Qed.

Lemma Open_try_reserve_spec n s :
  open_ok s ->
  open_ok (snd (cs_try_reserve n s)) /\ evolves s (snd (cs_try_reserve n s)) /\
  match fst (cs_try_reserve n s) with Ok m => m = n | Err e => transient e end.
Proof.
  intros Hs. cbn. destruct (env_step_spec _ _ _ _ _ _ _ _ Hs) as (He & Hmk & Hrt).
  destruct (try_reserve_runs _ _ _ _ _ _ _ n _ He) as (Hs' & [S1 S2 S3 S4] & Hok & Herr).
  destruct (try_reserve n _) as [[c|e] s']; cbn [fst snd rmap] in *; (split; [exact Hs'|]).
  all: split; [split; cbn; [intros b; left; now rewrite S1, Hmk|];
    intros t pin Ht; apply S4 in Ht; unfold retained_root; now rewrite Hrt in Ht|]; auto.
  right. auto.
Qed.

#[export] Instance Open_cursor_laws : CursorLaws (OpenStore cf) Open_laws.
Proof.
  split; intros n s Hs.
  - destruct (Open_reserve_spec n s Hs) as (H1 & H2 & H3). split; [exact H1|]. split; [exact H2|].
    intros m Hm. now rewrite Hm in H3.
  - destruct (Open_try_reserve_spec n s Hs) as (H1 & H2 & H3). split; [exact H1|]. split; [exact H2|].
    intros m Hm. now rewrite Hm in H3.
Qed.

(** C9: the page store returns the pages of the file.  Whatever is cached,
    evicted or retained and however the reads are cut up, [page] answers with a
    pin of exactly the page the directory, the length field and the filter
    define; when it fails, that page is damaged, a read failed or the budget had
    no room, and it never waits for itself or runs out of rounds. *)
Theorem store_page_correct o s :
  0 <= o -> inv (fun _ => False) s ->
  let run := cf_page cf o s in
  inv (fun _ => False) (snd run) /\
  match fst run with
  | Ok pin => pin_ordinal pin = o /\ file_page cf o = Some (pin_data pin)
  | Err (Failed e) => file_page cf o = None \/ err_kind e = Io \/ err_kind e = BudgetExceeded
  | Err _ => False
  end.
Proof.
  intros Ho Hs run. unfold cf_page in run. rewrite file_page_content by exact Ho.
  destruct (page_spec (SA := cf_alloc cf) _ _ _ _ _ _ Hfits (fun _ => False) o s Ho (fun H => H) Hs) as (Hs' & _ & H).
  fold run in Hs', H. split; [exact Hs'|]. destruct (fst run) as [pin|[e| |]]; try exact H.
  - destruct H as (Hp & Hc & _). auto.
  - destruct H as [[e' He]|Ht]; [left; unfold page_content; now rewrite He | right; exact Ht].
Qed.

(** C20: loading a page is neutral for the budget on every path, filter and
    failures included.  What the budget counts is always exactly the live page
    buffers, the cache's tables, the directory chunks, the roots' table and what
    others hold, and never more than the limit; a call leaves the share of the
    others as it was, so no path leaks a reservation or gives one back twice. *)
Theorem page_load_is_neutral o outside s :
  StdAllocLaws (SA := cf_alloc cf) -> sizes_ok (cf_filter cf) (cf_limits cf) ->
  0 <= o -> inv (fun _ => False) s -> accounted outside s ->
  let s' := snd (cf_page cf o s) in
  accounted outside s' /\
  in_use (m_budget (st_mem s')) =
    msum buffer_charge (m_buffers (st_mem s')) + cache_bytes (st_cache s') + chunk_bytes (st_dir s') +
    roots_bytes (st_roots s') + outside /\
  in_use (m_budget (st_mem s')) <= b_limit (m_budget (st_mem s')).
Proof.
  intros HL Hz Ho Hs Ha s'.
  assert (accounted outside s') as Ha'.
  { pose proof (accounted_page (SA := cf_alloc cf) (cf_data cf) (cf_filter cf) (cf_limits cf) (cf_directory_base cf)
      (cf_vec_capacity cf) Hz o outside s Ha) as H.
    destruct (page_spec (SA := cf_alloc cf) _ _ _ _ _ _ Hfits (fun _ => False) o s Ho (fun H => H) Hs) as (_ & _ & Hp).
    unfold s', cf_page. destruct (page _ _ _ _ _ o s) as [[pin|[e| |]] s1]; cbn [fst snd] in *; try exact H; destruct Hp. }
  split; [exact Ha'|]. destruct (ac_balanced _ _ Ha') as [B1 _ _ B4 _]. unfold in_use. rewrite B1. split; [lia|].
  rewrite <- B1. apply B4.
Qed.

(** The errors a store can have of its own. *)
Lemma load_error_transient e : load_error (SL := Open_laws) e -> transient e.
Proof.
  intros (o & s & bytes & Hs & Hf & He). cbn in He. destruct (os_page_spec o s Hs) as (_ & _ & H).
  rewrite He in H. destruct H as [H|H]; [congruence | exact H].
Qed.

Lemma scan_error_transient e : scan_error (SL := Open_laws) e -> transient e.
Proof.
  intros [He|(n & s & Hs & [He|He])]; [now apply load_error_transient| |].
  - destruct (Open_reserve_spec n s Hs) as (_ & _ & H). now rewrite He in H.
  - destruct (Open_try_reserve_spec n s Hs) as (_ & _ & H). now rewrite He in H.
Qed.
End Laws.

(** * What a database reads *)

Section Reads.
Context (cf : Config) (Hfits : config_fits cf) (t : Tree) (Hid : 1 <= tree_id t).
Context `{HL : !LawfulEncoding (tree_encoding t)} `{HC : !CheckableEncoding (tree_encoding t)}.
Abbreviation wf := (well_formed (file := file_page cf) (page_count := cf_page_count cf)
  (max_depth := limit_tree_depth (cf_limits cf)) t).
Abbreviation inv := (tree_inv (SL := Open_laws cf Hfits) t).

(** A search of a well-formed tree through the real store is exact or fails
    for a reason outside the file: the entry found is the first one the operator
    asks for, whatever the cache, the directory and the retained roots hold, and
    an error is an I/O error or a refused reservation. *)
Theorem open_store_search h root leaves q op s :
  wf h root leaves -> key_ok q -> inv s ->
  let run := search t q op s in
  inv (snd run) /\
  match fst run with
  | Ok r => result_is (SL := Open_laws cf Hfits) r (first_in t op q leaves)
  | Err e => err_kind e = Io \/ err_kind e = BudgetExceeded
  end.
Proof.
  intros Hwf Hq Hs run. destruct (search_spec (SL := Open_laws cf Hfits) t Hid h root leaves q op Hwf Hq s Hs) as [Hinv Hr].
  fold run in Hinv, Hr. split; [exact Hinv|]. destruct (fst run) as [r|e]; [exact Hr|].
  exact (load_error_transient cf Hfits e Hr).
Qed.

(** C23: a scan through the real store is exact on a sound tree.  For a well-formed tree
    of a lawful encoding in the file, with settled leaves, none of them empty unless it is the only one, and
    values that can be read, a scan of a range through the page store, its cache, directory
    and budget in any state, hands out exactly the entries the range selects, in the order
    asked for, or stops at an I/O error, a refused reservation or invalid bounds.  (A
    damaged tree may stop it as corrupt, and an empty leaf at the edge hides entries from a
    descending scan; both are outside the claim.) *)
Theorem open_store_scan h root leaves fuel charge r o s :
  wf h root leaves -> settled leaves -> readable (file := file_page cf) leaves ->
  (length (selected t leaves o r) < fuel)%nat -> inv s ->
  let run := scan t fuel charge r o s in
  inv (snd run) /\
  match fst run with
  | Ok out => exists ers, out = Some ers /\ Forall2 (hands_out (file := file_page cf)) ers (selected t leaves o r)
  | Err e => (err_kind e = Io \/ err_kind e = BudgetExceeded) \/ (e = Error_invalid /\ bad_bounds t (kr_lower r) (kr_upper r))
  end.
Proof.
  intros Hwf Hset Hread Hfuel Hs run.
  destruct (scan_spec (SL := Open_laws cf Hfits) t Hid h root leaves Hwf Hset Hread fuel charge r o Hfuel s Hs) as [Hinv Hr].
  fold run in Hinv, Hr. split; [exact Hinv|]. destruct (fst run) as [out|e]; [exact Hr|].
  destruct Hr as [He|Hb]; [left; exact (scan_error_transient cf Hfits e He) | now right].
Qed.
End Reads.

(** ** A database of one page *)

(** Capacities that only grow, by doubling. *)
Definition doubling : StdAlloc := {|
  hm_insert := fun capacity len => if len <=? capacity then capacity else Z.max 3 (2 * capacity);
  hm_remove := fun capacity _ => capacity;
  hm_shrink_to_fit := fun _ len => len;
  vd_push_back := fun capacity len => if len <=? capacity then capacity else Z.max 4 (2 * capacity);
  vd_shrink_to := fun _ keep => Z.max 0 keep;
|}.

Definition demo_leaf : list byte := tiny_leaf Byte.x62 (-1) (-1).
Definition demo_view : PageView := tiny_view Byte.x62 (-1) (-1).
Definition demo_leaves : list LeafInfo := [mkLeafInfo 0 demo_view [[Byte.x62]]].

Definition demo_config : Config :=
  mkConfig doubling (replicate 26 Byte.x00 ++ demo_leaf ++ i64_le 26) None Limits_default 71 1 (fun n => n).
Definition demo_tree : Tree := mkTree (Some 0) AsciiEncoding 1 true.

(** Short and interrupted reads, and a reference dropped in between. *)
Definition demo_store : OpenStore demo_config :=
  mkOpen (PageStore_new (mkMem (Budget_new 4096) ∅) (PageCache_new 1024 2) (PageDirectory_new 71 1 512 4)
    [ReadInterrupted; ReadShort 2; ReadFull; ReadShort 0] [[]; [EnvDrop (buffer_id 0 1)]]).

Lemma demo_fits : config_fits demo_config.
Proof. split; vm_compute; intuition discriminate. Qed.

Lemma demo_page : file_page demo_config 0 = Some demo_leaf.
Proof. vm_compute. reflexivity. Qed.

(** A leaf with one entry is a tree. *)
Lemma single_leaf_wf (file : PageOrdinal -> option (list byte)) count bytes v key :
  file 0 = Some bytes -> PageView_parse bytes = Ok v -> check_digests AsciiEncoding v = Ok tt -> omitted_keys (view_layout v) = false ->
  (fun j => entry_key v (Z.of_nat j)) <$> seq 0 (Z.to_nat (entry_count v)) = [Ok key] ->
  view_kind v = Leaf -> left_sibling v = None -> right_sibling v = None -> 1 <= count <= u64_max ->
  well_formed (file := file) (page_count := count) (max_depth := 64) demo_tree 0 0 [mkLeafInfo 0 v [key]].
Proof.
  intros Hf Hp Hc Hom Hk Hkind Hl Hr Hn. split; [reflexivity | | reflexivity | repeat split; auto | | change (1 <= count <= u64_max); exact Hn].
  2: { cbn. apply Sorted.SSorted_cons; constructor. }
  exists v, [key]. split; [|split; [exact Hkind | reflexivity]]. split; [exists bytes; split; [exact Hf | exact Hp]|].
  split; [exact Hc|]. apply (checked_keys AsciiEncoding bytes v [key] Hp Hc Hom Hk).
Qed.

Lemma demo_wf_in (file : PageOrdinal -> option (list byte)) : file 0 = Some demo_leaf ->
  well_formed (file := file) (page_count := 1) (max_depth := 64) demo_tree 0 0 demo_leaves.
Proof. intros Hf. apply (single_leaf_wf file 1 demo_leaf demo_view); [exact Hf | vm_compute; (reflexivity || intuition discriminate)..]. Qed.

Lemma demo_wf : well_formed (file := file_page demo_config) (page_count := 1) (max_depth := 64) demo_tree 0 0 demo_leaves.
Proof. exact (demo_wf_in _ demo_page). Qed.

Lemma demo_readable (file : PageOrdinal -> option (list byte)) : readable (file := file) demo_leaves.
Proof.
  intros l [->|Hl]%elem_of_cons; [|inversion Hl]. split; [vm_compute; reflexivity|]. intros j e b Hj He Hv. exfalso.
  revert Hv. cbn [lp_view] in He. eapply (single_entry_readable demo_leaf); eauto; try (vm_compute; reflexivity); discriminate.
Qed.

Lemma demo_inv : tree_inv (SL := Open_laws demo_config demo_fits) demo_tree demo_store.
Proof.
  split; [|discriminate | discriminate].
  change (open_ok demo_config demo_store). apply (PageStore_new_inv (cf_data demo_config) (cf_filter demo_config) (cf_limits demo_config) 71 1).
Qed.

Lemma open_store_search_witness :
  exists pin, fst (search demo_tree [Byte.x62] Equal demo_store) = Ok (Some (pin, 0)) /\ pin_ordinal pin = 0.
Proof.
  pose proof (open_store_search demo_config demo_fits demo_tree ltac:(discriminate) 0 0 demo_leaves [Byte.x62] Equal
    demo_store demo_wf I demo_inv) as [_ H].
  destruct (fst (search demo_tree [Byte.x62] Equal demo_store)) as [r|e] eqn:Hrun.
  - change (first_in demo_tree Equal [Byte.x62] demo_leaves) with (Some (mkLeafInfo 0 demo_view [[Byte.x62]], 0)) in H.
    destruct r as [[pin i]|]; [|contradiction]. destruct H as [-> [[H _] _]]. exists pin. split; [reflexivity | exact H].
  - exfalso. vm_compute in Hrun. discriminate.
Defined.

Lemma open_store_scan_witness :
  exists ers, fst (scan demo_tree 2 0 KeyRange_all Ascending demo_store) = Ok (Some ers) /\ length ers = 1%nat.
Proof.
  assert (settled demo_leaves) as Hset by (intros l [->|Hl]%elem_of_cons Hk; [discriminate Hk | inversion Hl]).
  pose proof (open_store_scan demo_config demo_fits demo_tree ltac:(discriminate) 0 0 demo_leaves 2 0 KeyRange_all Ascending
    demo_store demo_wf Hset (demo_readable _) ltac:(vm_compute; lia) demo_inv) as [_ H].
  destruct (fst (scan demo_tree 2 0 KeyRange_all Ascending demo_store)) as [out|e] eqn:Hrun.
  - destruct H as (ers & -> & HF). exists ers. split; [reflexivity|]. apply Forall2_length in HF. rewrite HF. vm_compute. reflexivity.
  - exfalso. assert (is_ok (fst (scan demo_tree 2 0 KeyRange_all Ascending demo_store)) = true) as Hok by (vm_compute; reflexivity).
    rewrite Hrun in Hok. discriminate.
Defined.

Lemma store_page_correct_witness :
  let run := cf_page demo_config 0 (os_store demo_store) in
  exists pin, fst run = Ok pin /\ pin_data pin = demo_leaf.
Proof.
  intros run. pose proof (store_page_correct demo_config demo_fits 0 (os_store demo_store) ltac:(lia)
    (PageStore_new_inv (cf_data demo_config) None Limits_default 71 1 (fun n => n) _ 1024 2 512 4 _ _)) as [_ H].
  fold run in H.
  assert (is_ok (fst run) = true) as Hok by (vm_compute; reflexivity).
  destruct (fst run) as [pin|stop]; [|discriminate Hok]. exists pin. split; [reflexivity|].
  destruct H as [_ H]. rewrite demo_page in H. now injection H.
Defined.

Lemma doubling_laws : StdAllocLaws (SA := doubling).
Proof. split; intros; cbn; [destruct (Z.leb_spec len capacity)|]; lia. Qed.

Lemma demo_accounted : accounted 0 (os_store demo_store).
Proof.
  split; [| cbn; rewrite length_replicate; vm_compute; lia | | constructor | vm_compute; discriminate..].
  - split; try (vm_compute; intuition discriminate); intros b; cbn; now rewrite lookup_empty.
  - intros i sh H. apply lookup_replicate_1 in H as [-> _]. split; vm_compute; discriminate.
Qed.

Lemma page_load_is_neutral_witness :
  let s' := snd (cf_page demo_config 0 (os_store demo_store)) in
  accounted 0 s' /\ in_use (m_budget (st_mem s')) <= 4096.
Proof.
  intros s'. pose proof (page_load_is_neutral demo_config demo_fits 0 0 (os_store demo_store) doubling_laws
    ltac:(split; [vm_compute; discriminate | exact I]) ltac:(lia)
    (PageStore_new_inv (cf_data demo_config) None Limits_default 71 1 (fun n => n) _ 1024 2 512 4 _ _) demo_accounted) as (H1 & _ & H3).
  split; [exact H1|]. vm_compute. discriminate.
Defined.
