(* ===== verification/Blob.v ===== *)
(** Streaming reads of values on their own page, [crates/drydb/src/blob.rs].

    A [BlobReader] knows where the value lies in the file and reads it in pieces,
    past the page cache.  It opens a page by its prefix alone; the facts relate
    what it reads to the page the store would hand out. *)

From Stdlib Require Import ZArith Lia.
From stdpp Require Import base list gmap.
From coqutil Require Import Byte.
From S2P Require Import Prelude Errors Format Node Encoding Budget Page TreePage Btree Query Cursor Table.
From S2P Require Import Source Cache CacheFacts Directory Store StoreFacts OpenStore.

#[local] Open Scope Z_scope.
#[local] Open Scope drydb_scope.

Record BlobReader : Type := mkBlobReader {
  br_page : PageOrdinal;
  br_start : Z;
  br_len : Z;
  br_pos : Z;
}.

Inductive SeekFrom : Set :=
| SeekStart (n : Z)
| SeekEnd (n : Z)
| SeekCurrent (n : Z).

(** The destination of a copy: what it has taken, and what becomes of the writes
    still to come; a write that fails may have taken a part. *)
Inductive WriteEvent : Set :=
| WriteDone
| WriteFails (taken : nat).

Record Writer : Type := mkWriter { wr_bytes : list byte; wr_events : list WriteEvent }.

Definition write_all (bytes : list byte) (w : Writer) : Result unit * Writer :=
  match wr_events w with
  | WriteFails n :: events => (Err Error_io, mkWriter (wr_bytes w ++ take n bytes) events)
  | events => (Ok tt, mkWriter (wr_bytes w ++ bytes) (tail events))
  end.

Section Blob.
Context {SA : StdAlloc}.
Context (data : list byte) (filter : option PageFilter) (limits : Limits) (directory_base : Z).
Abbreviation M A := (SM Store Stop A).

(** The length a blob page declares, by its prefix. *)
Definition blob_stored_len (page : PageOrdinal) (prefix : list byte) : Result Z :=
  let? raw := read_i32 prefix 0 in
  let? stored_len := checked_len raw in
  fail? stored_len <? PAGE_PREFIX_LEN with at_page Error_corrupt page in
  fail? max_stored_page_bytes limits <? stored_len with at_page Error_corrupt page in
  Ok stored_len.

(** The prefix parsed as a page of its own. *)
Definition blob_probe (page : PageOrdinal) (prefix : list byte) : Result unit :=
  let probe := i32_le PAGE_PREFIX_LEN ++ drop 4 prefix in
  let? view := map_err (fun e => at_page e page) (PageView_parse probe) in
  fail? bool_decide (view_kind view <> Leaf) || negb (entry_count view =? 0) with at_page Error_corrupt page in
  Ok tt.

Definition blob_open (page : PageOrdinal) : M BlobReader :=
  match filter with
  | Some _ => sfail (Failed (Error_new Unsupported))
  | None =>
      let! offset := offset_of data page in
      let! prefix := read_source data PAGE_PREFIX_LEN offset in
      let! stored_len := failed (blob_stored_len page prefix) in
      let! end_ := failed (ok_or (checked_add offset stored_len) Error_corrupt) in
      let! limit := page_limit data directory_base page offset in
      let! _ := failed (if limit <? end_ then Err (at_page Error_corrupt page) else Ok tt) in
      let! _ := failed (blob_probe page prefix) in
      sret (mkBlobReader page (offset + PAGE_PREFIX_LEN) (stored_len - PAGE_PREFIX_LEN) 0)
  end.

(** [read_up_to_at] on the source of the store. *)
Definition read_some (len offset : Z) : M (list byte) := fun s =>
  match read_up_to_at data len offset (st_reads s) with
  | (Ok bytes, reads) => (Ok bytes, set_reads reads s)
  | (Err e, reads) => (Err (Failed e), set_reads reads s)
  end.

(** [read_at] into a buffer of [buf_len] bytes: what was put at its start. *)
Definition blob_read_at (r : BlobReader) (buf_len offset : Z) : M (list byte) :=
  if br_len r <=? offset then sret []
  else
    let remaining := br_len r - offset in
    let want := Z.min buf_len remaining in
    let! filled := read_some want (br_start r + offset) in
    if zlen filled <? want then sfail (Failed (at_page Error_io (br_page r)))
    else sret filled.

(** The loop of [copy_to]: every round moves on by at least a byte. *)
Fixpoint copy_loop (fuel : nat) (r : BlobReader) (chunk_size offset : Z) : SM (Store * Writer) Stop Z := fun sw =>
  match fuel with
  | O => (Err OutOfFuel, sw)
  | S fuel =>
      if offset <? br_len r then
        match blob_read_at r chunk_size offset (fst sw) with
        | (Err e, s) => (Err e, (s, snd sw))
        | (Ok [], s) => (Ok offset, (s, snd sw))
        | (Ok bytes, s) =>
            match write_all bytes (snd sw) with
            | (Err e, w) => (Err (Failed e), (s, w))
            | (Ok _, w) => copy_loop fuel r chunk_size (offset + zlen bytes) (s, w)
            end
        end
      else (Ok offset, sw)
  end.

Definition copy_to (r : BlobReader) (chunk_size : Z) : SM (Store * Writer) Stop Z := fun sw =>
  let chunk_size := Z.min (Z.max chunk_size 1) (2 ^ 20) in
  match reserve (chunk_size + BUFFER_OVERHEAD) (fst sw) with
  | (Err e, s) => (Err e, (s, snd sw))
  | (Ok charge, s) =>
      let '(out, (s, w)) := copy_loop (S (Z.to_nat (br_len r))) r chunk_size 0 (s, snd sw) in
      (out, (release charge s, w))
  end.

(** [io::Read] *)
Definition blob_read (buf_len : Z) (r : BlobReader) : M (list byte * BlobReader) :=
  let! bytes := blob_read_at r buf_len (br_pos r) in
  sret (bytes, mkBlobReader (br_page r) (br_start r) (br_len r) (br_pos r + zlen bytes)).

(** [io::Seek]; [None] is an [io::Error] of kind [InvalidInput]. *)
Definition blob_seek (to : SeekFrom) (r : BlobReader) : option (Z * BlobReader) :=
  let next := match to with
              | SeekStart n => n
              | SeekEnd n => br_len r + n
              | SeekCurrent n => br_pos r + n
              end in
  if next <? 0 then None
  else if u64_max <? next then None
  else Some (next, mkBlobReader (br_page r) (br_start r) (br_len r) next).
End Blob.

(** * The prefix of a blob page *)

Section Prefix.
Context (bytes : list byte) (Hlen : PAGE_PREFIX_LEN <= zlen bytes <= usize_max).
Abbreviation probe := (i32_le PAGE_PREFIX_LEN ++ drop 4 (slice bytes 0 PAGE_PREFIX_LEN)).

Lemma probe_len : zlen probe = PAGE_PREFIX_LEN.
Proof.
  rewrite zlen_app, zlen_i32_le. unfold zlen, slice in *. rewrite length_drop, length_take, length_drop.
  unfold PAGE_PREFIX_LEN, PAGE_LENGTH_LEN, NODE_HEADER_LEN in *. lia.
Qed.

(** A field of the prefix behind its length is the field of the page. *)
Lemma probe_field f n o : 4 <= o -> 0 <= n -> o + n <= PAGE_PREFIX_LEN -> read_le f n probe o = read_le f n bytes o.
Proof.
  intros Ho Hn Hend. rewrite !read_le_ok by (rewrite ?probe_len; unfold PAGE_PREFIX_LEN, PAGE_LENGTH_LEN, NODE_HEADER_LEN, usize_max in *; lia).
  do 2 f_equal. rewrite slice_app_r by (rewrite zlen_i32_le; lia). rewrite zlen_i32_le.
  transitivity (slice (slice bytes 0 PAGE_PREFIX_LEN) o n); [|rewrite slice_slice by lia; f_equal; lia].
  unfold slice. rewrite drop_drop. do 2 f_equal. lia.
Qed.

(** The prefix of a page without entries parses as a page without entries,
    unless the page has compact metadata. *)
Lemma probe_parses v :
  PageView_parse bytes = Ok v -> view_kind v = Leaf -> entry_count v = 0 -> compact_meta (view_layout v) = false ->
  exists v', PageView_parse probe = Ok v' /\ view_kind v' = Leaf /\ entry_count v' = 0.
Proof.
  intros Hp Hk Hc Hcm. unfold PageView_parse in *. rewrite probe_len.
  assert (read_i32 probe 0 = Ok PAGE_PREFIX_LEN) as Hl.
  { unfold read_i32. rewrite read_le_ok by (rewrite ?probe_len; unfold PAGE_PREFIX_LEN, PAGE_LENGTH_LEN, NODE_HEADER_LEN, usize_max; lia).
    rewrite slice_app_l, slice_all by (rewrite ?zlen_i32_le; lia). rewrite swrap_i32_le; [reflexivity|]. unfold PAGE_PREFIX_LEN, PAGE_LENGTH_LEN, NODE_HEADER_LEN. lia. }
  rewrite Hl. unfold read_i32, read_i64 in *.
  rewrite !probe_field by (unfold KIND_OFFSET, ENTRY_COUNT_OFFSET, LEFT_SIBLING_OFFSET, RIGHT_SIBLING_OFFSET, PAGE_PREFIX_LEN, PAGE_LENGTH_LEN, NODE_HEADER_LEN; lia).
  inv_ok. change (compact_meta (parse_layout v2) = false) in Hcm. cbn in Hk, Hc. subst v3 v5.
  change (PAGE_PREFIX_LEN <? PAGE_PREFIX_LEN) with false. change (checked_len PAGE_PREFIX_LEN) with (Ok PAGE_PREFIX_LEN : Result Z).
  assert (digest_area_size (parse_layout v2) 0 = Some 0) as Hd by (unfold digest_area_size, digest_slots; now destruct (eytzinger _)).
  assert (leaf_meta_size (parse_layout v2) 0 = Some 0) as Hm by (unfold leaf_meta_size; now rewrite Hcm).
  cbn [rbind]. change (negb (PAGE_PREFIX_LEN =? PAGE_PREFIX_LEN)) with false.
  rewrite E1. cbn [rbind]. rewrite E2. cbn [rbind]. rewrite G1, G2, G3, G4, Hcm. cbn [andb]. rewrite E3. cbn [rbind]. rewrite E4. cbn [rbind].
  rewrite E5. cbn [rbind]. rewrite E6. cbn [rbind]. rewrite E7. cbn [rbind]. rewrite E8. cbn [rbind]. rewrite Hd, Hm. eexists. split; [reflexivity | auto].
Qed.
End Prefix.

(** * Against the page of the store *)

Section BlobFacts.
Context {SA : StdAlloc}.
Context (data : list byte) (filter : option PageFilter) (Hplain : filter = None) (limits : Limits) (directory_base count : Z) (vec_capacity : Z -> Z).
Context (Hfits : dir_fits data directory_base count) (L : Z -> Prop).
Abbreviation content := (content data filter limits directory_base vec_capacity count).
Abbreviation runs := (runs data filter limits directory_base count vec_capacity).
Abbreviation implements := (implements data filter limits directory_base count vec_capacity).
Abbreviation store_inv := (store_inv data filter limits directory_base count vec_capacity).

(** What [blob_open] finds in the file. *)
Definition blob_span (page : PageOrdinal) : Result BlobReader :=
  let? offset := page_offset data directory_base count page in
  let prefix := slice data offset PAGE_PREFIX_LEN in
  let? stored_len := blob_stored_len limits page prefix in
  let? end_ := ok_or (checked_add offset stored_len) Error_corrupt in
  let? limit := content_limit data directory_base count page offset in
  let? _ := if limit <? end_ then Err (at_page Error_corrupt page) else Ok tt in
  let? _ := blob_probe page prefix in
  Ok (mkBlobReader page (offset + PAGE_PREFIX_LEN) (stored_len - PAGE_PREFIX_LEN) 0).

Lemma blob_open_implements page : 0 <= page -> implements L (blob_open data filter limits directory_base page) (blob_span page).
Proof.
  intros Hp. unfold blob_open, blob_span. rewrite Hplain. apply implements_bind; [now apply offset_of_implements|]. intros offset Hoff.
  apply page_offset_in_file in Hoff. destruct Hfits as [F1 F2 F3 F4].
  eapply implements_step; [apply read_source_runs; unfold PAGE_PREFIX_LEN, PAGE_LENGTH_LEN, NODE_HEADER_LEN, DIRECTORY_SLOT_LEN, u64_max in *; lia|].
  intros prefix [-> _]. cbv zeta.
  apply implements_bind; [apply implements_failed|]. intros stored_len _. apply implements_bind; [apply implements_failed|]. intros end_ _.
  apply implements_bind; [now apply page_limit_implements|]. intros limit _. apply implements_bind; [apply implements_failed|]. intros _ _.
  apply implements_bind; [apply implements_failed|]. intros _ _. apply implements_ret.
Qed.

Ltac prefix_lia := unfold PAGE_PREFIX_LEN, PAGE_LENGTH_LEN, NODE_HEADER_LEN, DIRECTORY_SLOT_LEN, u64_max, usize_max in *; lia.

Lemma content_limit_in_file o offset limit :
  0 <= offset < directory_base -> content_limit data directory_base count o offset = Ok limit -> limit <= directory_base.
Proof.
  intros Ho. unfold content_limit. destruct (_ <=? _); [now intros [= <-]|]. intros H. inv_ok. destruct (_ <? _); lia.
Qed.

Lemma blob_stored_len_ok o offset n :
  0 <= offset -> offset + PAGE_PREFIX_LEN <= zlen data -> stored_length limits (slice data offset PAGE_LENGTH_LEN) = Ok n ->
  blob_stored_len limits o (slice data offset PAGE_PREFIX_LEN) = Ok n.
Proof.
  intros Ho Hlen. unfold stored_length, blob_stored_len, read_i32. destruct Hfits as [F1 F2 F3 F4].
  rewrite !read_le_ok by (rewrite ?zlen_slice by prefix_lia; prefix_lia). cbn [rbind].
  rewrite !slice_slice by prefix_lia. replace (offset + 0) with offset by lia. intros H. inv_ok. rewrite E. cbn [rbind]. now rewrite G, G0.
Qed.

(** A page without entries in the file, and the reader opened on it. *)
Lemma span_of_content o bytes v :
  content o = Ok bytes -> PageView_parse bytes = Ok v -> view_kind v = Leaf -> entry_count v = 0 -> compact_meta (view_layout v) = false ->
  exists r, blob_span o = Ok r /\ br_page r = o /\ 0 <= br_start r /\ br_len r = zlen (blob_payload v) /\ br_start r + br_len r <= zlen data /\
    slice data (br_start r) (br_len r) = blob_payload v.
Proof.
  intros Hc Hp Hk Hz Hcm. unfold content, Store.content in Hc. rewrite Hplain in Hc. cbn [decoded] in Hc. inv_ok.
  pose proof (page_offset_in_file data directory_base count o v0 E) as Hoff. pose proof (stored_length_pos limits _ _ E0) as Hlen.
  pose proof (content_limit_in_file o v0 v3 Hoff E2) as Hlim. apply Z.ltb_ge in G. pose proof E1 as [-> _]%checked_add_Some.
  destruct Hfits as [F1 F2 F3 F4]. assert (directory_base <= zlen data) as Hdir by prefix_lia.
  assert (zlen (slice data v0 v1) = v1) as Hz1 by (apply zlen_slice; lia).
  pose proof (PageView_parse_wf _ v Hp) as [_ Hb].
  assert (blob_stored_len limits o (slice data v0 PAGE_PREFIX_LEN) = Ok v1) as Hsl by (apply blob_stored_len_ok; [prefix_lia | prefix_lia | exact E0]).
  assert (blob_probe o (slice data v0 PAGE_PREFIX_LEN) = Ok tt) as Hpr.
  { unfold blob_probe. replace (slice data v0 PAGE_PREFIX_LEN) with (slice (slice data v0 v1) 0 PAGE_PREFIX_LEN) by (rewrite slice_slice by prefix_lia; f_equal; lia).
    destruct (probe_parses (slice data v0 v1) ltac:(prefix_lia) v Hp Hk Hz Hcm) as (v' & Hv' & Hk' & Hz'). rewrite Hv'. cbn [map_err rbind].
    rewrite bool_decide_eq_false_2 by (rewrite Hk'; tauto). now rewrite Hz'. }
  assert (zlen (blob_payload v) = v1 - PAGE_PREFIX_LEN) as Hpl.
  { unfold blob_payload, zlen in *. rewrite length_drop, Hb. prefix_lia. }
  exists (mkBlobReader o (v0 + PAGE_PREFIX_LEN) (v1 - PAGE_PREFIX_LEN) 0). cbn [br_page br_start br_len]. split_and!; [|reflexivity | prefix_lia.. |].
  - unfold blob_span. rewrite E. cbn [rbind]. rewrite Hsl. cbn [rbind]. rewrite E1. cbn [ok_or rbind]. rewrite E2. cbn [rbind].
    rewrite (proj2 (Z.ltb_ge _ _)) by lia. cbn [rbind]. now rewrite Hpr.
  - unfold blob_payload. rewrite Hb. unfold slice. rewrite skipn_firstn_comm, drop_drop. f_equal; [prefix_lia | f_equal; prefix_lia].
Qed.

(** ** Reading *)

Lemma read_some_runs len offset :
  0 <= offset -> 0 <= len -> offset + len <= u64_max ->
  runs L L (read_some data len offset) (fun bytes => bytes = slice data offset len) (stops False).
Proof.
  intros Ho Hl Hm s Hs. unfold read_some. pose proof (read_up_to_at_spec data len offset (st_reads s) Ho Hl Hm) as H.
  destruct (read_up_to_at data len offset (st_reads s)) as [[bytes|e] reads]; cbn [fst snd] in *;
    (split; [destruct Hs; split; assumption|]); (split; [split; auto|]); [exact H|]. right. left. now destruct H as [-> _].
Qed.

(** A reader whose value lies in the file. *)
Definition reads_value (r : BlobReader) (value : list byte) : Prop :=
  0 <= br_start r /\ br_len r = zlen value /\ br_start r + br_len r <= zlen data /\ slice data (br_start r) (br_len r) = value.

Lemma blob_read_at_runs r value buf_len offset :
  reads_value r value -> 0 <= offset -> 0 <= buf_len ->
  runs L L (blob_read_at data r buf_len offset) (fun bytes => bytes = slice value offset buf_len) (stops False).
Proof.
  intros (H0 & Hl & Hin & <-) Ho Hb. unfold blob_read_at. destruct Hfits as [_ _ _ F4].
  destruct (Z.leb_spec (br_len r) offset) as [Hge|Hlt].
  - intros s Hs. split; [exact Hs|]. split; [apply stays_refl'|]. symmetry. unfold slice at 1. rewrite drop_ge; [apply take_nil|].
    rewrite Hl in Hge. unfold zlen in Hge. lia.
  - set (want := Z.min buf_len (br_len r - offset)).
    eapply runs_bind; [apply read_some_runs; prefix_lia|]. intros bytes ->.
    rewrite zlen_slice by lia. rewrite (proj2 (Z.ltb_ge _ _)) by lia. intros s Hs. split; [exact Hs|]. split; [apply stays_refl'|]. cbn [fst sret].
    destruct (Z.le_gt_cases buf_len (br_len r - offset)) as [Hsmall|Hbig]; subst want.
    + rewrite Z.min_l by lia. now rewrite slice_slice by lia.
    + rewrite Z.min_r by lia. rewrite <- (slice_to_end (slice data (br_start r) (br_len r)) offset (br_len r - offset) buf_len) by (rewrite ?zlen_slice; lia).
      now rewrite slice_slice by lia.
Qed.

(** ** Copying *)

(** The writer took a part of [rest] after what it had. *)
Definition took (w w' : Writer) (rest : list byte) (whole : bool) : Prop :=
  exists part, wr_bytes w' = wr_bytes w ++ part /\ if whole then part = rest else part `prefix_of` rest.

Definition copied (w : Writer) (rest : list byte) (total : Z) (out : result Stop Z) (w' : Writer) : Prop :=
  match out with
  | Ok n => n = total /\ took w w' rest true
  | Err stop => (exists e, stop = Failed e /\ transient e) /\ took w w' rest false
  end.

Lemma write_all_took bytes w :
  match write_all bytes w with
  | (Ok _, w') => took w w' bytes true
  | (Err e, w') => transient e /\ took w w' bytes false
  end.
Proof.
  unfold write_all. destruct (wr_events w) as [|[|n] events]; [eexists; split; reflexivity..|].
  split; [now left|]. eexists. split; [reflexivity|]. apply prefix_take.
Qed.

Lemma copied_none w rest total stop : stops False stop -> copied w rest total (Err stop) w.
Proof.
  destruct stop as [e| |]; [|intros []..]. intros [[]|He]. split; [eauto|]. exists []. split; [now rewrite app_nil_r | apply prefix_nil].
Qed.

Lemma copied_more w w1 bytes rest total out w' :
  took w w1 bytes true -> copied w1 rest total out w' -> copied w (bytes ++ rest) total out w'.
Proof.
  intros (p1 & E1 & ->) H. destruct out as [n|stop]; destruct H as (H & p2 & E2 & H2); (split; [exact H|]);
    exists (bytes ++ p2); (split; [rewrite E2, E1; now rewrite app_assoc|]); [now rewrite H2 | now apply prefix_app].
Qed.

Lemma copy_loop_spec r value chunk : reads_value r value -> 0 < chunk -> forall fuel offset s w,
  store_inv L s -> 0 <= offset <= br_len r -> (Z.to_nat (br_len r - offset) < fuel)%nat ->
  let run := copy_loop data fuel r chunk offset (s, w) in
  store_inv L (fst (snd run)) /\ copied w (drop (Z.to_nat offset) value) (br_len r) (fst run) (snd (snd run)).
Proof.
  intros Hr Hc. pose proof Hr as (_ & Hl & _ & _). induction fuel as [|fuel IH]; intros offset s w Hs Ho Hf; [lia|]. cbn [copy_loop fst snd].
  destruct (Z.ltb_spec offset (br_len r)) as [Hlt|Hge].
  2: { cbn. split; [exact Hs|]. split; [lia|]. exists []. split; [now rewrite app_nil_r|]. symmetry. apply drop_ge. unfold zlen in Hl. lia. }
  pose proof (blob_read_at_runs r value chunk offset Hr ltac:(lia) ltac:(lia) s Hs) as (Hs1 & _ & H1).
  destruct (blob_read_at data r chunk offset s) as [[bytes|stop] s1]; cbn [fst snd] in *.
  2: { split; [exact Hs1 | now apply copied_none]. }
  assert (bytes ++ drop (Z.to_nat (offset + zlen bytes)) value = drop (Z.to_nat offset) value) as Hsplit.
  { rewrite <- (take_drop (length bytes) (drop (Z.to_nat offset) value)), drop_drop. f_equal; [|f_equal; unfold zlen; lia].
    rewrite H1. unfold slice. rewrite length_take, length_drop.
    destruct (Nat.min_dec (Z.to_nat chunk) (length value - Z.to_nat offset)) as [->|E]; [reflexivity|].
    rewrite !take_ge by (rewrite length_drop; lia). reflexivity. }
  assert (0 < zlen bytes <= br_len r - offset) as Hb.
  { pose proof (f_equal length H1) as Hn. unfold slice in Hn. rewrite length_take, length_drop in Hn. unfold zlen in *. lia. }
  destruct bytes as [|b bytes]; [unfold zlen in Hb; cbn in Hb; lia|]. rewrite <- Hsplit. pose proof (write_all_took (b :: bytes) w) as Hw.
  destruct (write_all (b :: bytes) w) as [[u|e] w1].
  - destruct (IH (offset + zlen (b :: bytes)) s1 w1 Hs1 ltac:(lia) ltac:(lia)) as [Hs2 H2]. split; [exact Hs2|]. eapply copied_more; eassumption.
  - destruct Hw as (He & part & E & Hp). split; [exact Hs1|]. split; [eauto|]. exists part. split; [exact E|]. now apply prefix_app_r.
Qed.

Lemma copy_to_spec r value chunk s w : reads_value r value -> store_inv L s ->
  let run := copy_to data r chunk (s, w) in
  store_inv L (fst (snd run)) /\ copied w value (br_len r) (fst run) (snd (snd run)).
Proof.
  intros Hr Hs. unfold copy_to. cbn [fst snd]. set (size := Z.min _ _). assert (0 < size) as Hsize by (subst size; lia).
  destruct (reserve_runs data filter limits directory_base count vec_capacity L (size + BUFFER_OVERHEAD) s Hs) as (Hs1 & _ & H1).
  destruct (reserve (size + BUFFER_OVERHEAD) s) as [[charge|stop] s1]; cbn [fst snd] in *; [|split; [exact Hs1 | now apply copied_none]].
  assert (0 <= br_len r) by (destruct Hr as (_ & -> & _); apply zlen_nonneg).
  destruct (copy_loop_spec r value size Hr Hsize (S (Z.to_nat (br_len r))) 0 s1 w Hs1 ltac:(lia) ltac:(lia)) as [Hs2 H2].
  destruct (copy_loop data (S (Z.to_nat (br_len r))) r size 0 (s1, w)) as [out [s2 w2]]. cbn [fst snd] in *. split; [|exact H2].
  now destruct (release_runs data filter limits directory_base count vec_capacity L charge s2 Hs2) as (? & _).
Qed.

(** What a caller gets from a reader: the bytes of the value at any place, the
    bytes where a seek has put the position, and the whole value as a copy. *)
Record streams (r : BlobReader) (value : list byte) (s : Store) : Prop := {
  stream_len : br_len r = zlen value;
  stream_read_at n offset : 0 <= n -> 0 <= offset ->
    match fst (blob_read_at data r n offset s) with
    | Ok bytes => bytes = slice value offset n
    | Err stop => stops False stop
    end;
  stream_seek to p r' n : blob_seek to r = Some (p, r') -> 0 <= n ->
    match fst (blob_read data n r' s) with
    | Ok (bytes, r'') => bytes = slice value p n /\ br_pos r'' = p + zlen bytes
    | Err stop => stops False stop
    end;
  stream_copy chunk w :
    copied w value (zlen value) (fst (copy_to data r chunk (s, w))) (snd (snd (copy_to data r chunk (s, w))));
}.

Lemma reads_streams r value s : reads_value r value -> store_inv L s -> streams r value s.
Proof.
  intros Hr Hs. pose proof Hr as (_ & Hl & _ & _). split; [exact Hl | | |].
  - intros n offset Hn Ho. now destruct (blob_read_at_runs r value n offset Hr Ho Hn s Hs) as (_ & _ & H).
  - intros to p r' n Hseek Hn. unfold blob_seek in Hseek. set (next := match to with SeekStart _ => _ | _ => _ end) in Hseek.
    destruct (Z.ltb_spec next 0) as [|H0]; [discriminate|]. destruct (_ <? _); [discriminate|]. injection Hseek as <- <-.
    destruct (blob_read_at_runs (mkBlobReader (br_page r) (br_start r) (br_len r) next) value n next Hr H0 Hn s Hs) as (_ & _ & H).
    unfold blob_read, sbind. cbn [br_pos]. destruct (blob_read_at _ _ _ _ s) as [[bytes|stop] s']; cbn [fst] in *; [now split | exact H].
  - intros chunk w. rewrite <- Hl. exact (proj2 (copy_to_spec r value chunk s w Hr Hs)).
Qed.
End BlobFacts.

(** * Readers of a table *)

Definition os_blob_open {cf} (page : PageOrdinal) : SM (OpenStore cf) Error BlobReader :=
  if page <? 0 then sfail Error_corrupt
  else os_lift (blob_open (SA := cf_alloc cf) (cf_data cf) (cf_filter cf) (cf_limits cf) (cf_directory_base cf) page).

Definition table_blob_reader {cf} (tb : TableInner) (key : list byte) : SM (OpenStore cf) Error (option BlobReader) :=
  let t := ti_primary tb in
  let! _ := lift (validate_key (tree_encoding t) key) in
  let! found := find t key in
  match found with
  | None => sret None
  | Some (pin, index) =>
      let! view := lift (pin_view pin) in
      let! entry := lift (leaf_entry view index) in
      match le_value entry with
      | Inline _ _ => sfail Error_invalid
      | Overflow page => let! reader := os_blob_open page in sret (Some reader)
      end
  end.

Section TableReader.
Context (cf : Config) (Hfits : config_fits cf) (Hplain : cf_filter cf = None) (tb : TableInner).
Abbreviation t := (ti_primary tb).
Context (Hid : 1 <= tree_id t) `{HL : !LawfulEncoding (tree_encoding t)} `{HC : !CheckableEncoding (tree_encoding t)}.
Context (h : nat) (root : PageOrdinal) (leaves : list LeafInfo).
Context (Hwf : well_formed (file := file_page cf) (page_count := cf_page_count cf)
  (max_depth := limit_tree_depth (cf_limits cf)) t h root leaves).
Context (Hread : readable (file := file_page cf) leaves).
(** No page of a value has compact metadata. *)
Context (Hblobs : forall e le b bytes v, e ∈ entries leaves ->
  leaf_entry (lp_view (en_leaf e)) (en_index e) = Ok le -> le_value le = Overflow b ->
  file_page cf b = Some bytes -> PageView_parse bytes = Ok v -> compact_meta (view_layout v) = false).

Abbreviation holds_value := (holds_value (file := file_page cf)).
Abbreviation inv := (tree_inv (SL := Open_laws cf Hfits) t).

Definition reader_of (key : list byte) (r : option BlobReader) : Prop :=
  match r with
  | None => forall e, ~ entry_at leaves key e
  | Some r => exists e value, entry_at leaves key e /\ holds_value e value true /\
      forall s, inv s -> streams (cf_data cf) (SA := cf_alloc cf) r value (os_store s)
  end.

Definition reader_error (key : list byte) (e : Error) : Prop :=
  transient e \/
  e = Error_invalid /\ (validate_key (tree_encoding t) key <> Ok tt \/ exists en value, entry_at leaves key en /\ holds_value en value false).

Lemma os_blob_open_triple b bytes v :
  file_page cf b = Some bytes -> PageView_parse bytes = Ok v -> view_kind v = Leaf -> entry_count v = 0 -> compact_meta (view_layout v) = false ->
  triple t (SL := Open_laws cf Hfits) transient (os_blob_open (cf := cf) b) (fun r => reads_value (cf_data cf) r (blob_payload v)).
Proof.
  intros Hf Hp Hk Hc Hcm s Hs. unfold os_blob_open. unfold file_page in Hf. destruct (Z.ltb_spec b 0) as [|Hb]; [discriminate|].
  unfold page_content in Hf. destruct (content _ _ _ _ _ _ b) as [bytes'|] eqn:Hcont; [|discriminate]. injection Hf as ->.
  destruct (span_of_content (cf_data cf) _ Hplain _ _ _ _ Hfits (fun _ => False) b bytes v Hcont Hp Hk Hc Hcm) as (r & Hspan & _ & Hr).
  pose proof (blob_open_implements (SA := cf_alloc cf) (cf_data cf) _ Hplain (cf_limits cf) _ _ (cf_vec_capacity cf) Hfits (fun _ => False) b Hb) as Himp.
  destruct (os_lift_spec cf _ _ _ s (ti_store _ _ Hs) Himp) as (H1 & H2 & H3). split; [eapply tree_inv_evolves; eassumption|].
  destruct (fst _) as [r'|e].
  - rewrite Hspan in H3. injection H3 as <-. exact Hr.
  - destruct H3 as ([e'| |] & Hstop & ->); [|destruct Hstop..]. destruct Hstop as [[e'' He]|Ht]; [congruence | exact Ht].
Qed.

(** C16: a table's blob reader streams the value [get] would return.  Take an unfiltered
    file and a well-formed tree of a lawful encoding in it whose values can be read, and let no page that holds
    a value have the compact-metadata flag set, as none that the builder writes has.  Then
    [blob_reader] gives a reader for a key whose value has a page of its own: reading at an
    offset, reading after a seek and copying in chunks of any size all produce the bytes of
    that value, and a copy that fails has written only a beginning of it.  There is no
    reader only when there is no entry; an error is an I/O error, a refused reservation, or
    [InvalidArgument] for a value stored in its leaf or bytes that are no key.  (A value
    page with that flag is refused as corrupt though [get] returns its value:
    [compact_blob_is_not_streamed].) *)
Theorem blob_reader_correct key s :
  inv s ->
  let run := table_blob_reader (cf := cf) tb key s in
  inv (snd run) /\ match fst run with Ok r => reader_of key r | Err e => reader_error key e end.
Proof.
  intros Hs run. revert s Hs run. change (triple t (SL := Open_laws cf Hfits) (reader_error key) (table_blob_reader tb key) (reader_of key)).
  unfold table_blob_reader. apply (validate_triple tb); [intros e He Hv; right; auto|]. intros Hk.
  eapply triple_bind; [eapply triple_error; [apply (search_spec t Hid h root leaves key Equal Hwf Hk)|]|].
  { intros e He. left. exact (load_error_transient cf Hfits e He). }
  intros [[pin i]|] Hr; [|apply triple_ret; exact (missing_entry tb leaves key Hk (result_none _ Hr))].
  destruct (found_entry tb h root leaves Hwf key pin i Hk Hr) as (l & He & Hl & Hpin).
  destruct (entry_on_leaf tb h root leaves Hwf Hread key l i pin He Hl Hpin) as (le & Hle & Hval).
  eapply triple_bind; [eapply (triple_lift_ok _ _ _ _ (eq (lp_view l))); [apply Hpin | reflexivity]|]. intros ? <-.
  eapply triple_bind; [eapply (triple_lift_ok _ _ _ _ (eq le)); [exact Hle | reflexivity]|]. intros ? <-.
  destruct (le_value le) as [offset len|b] eqn:Hlv.
  - destruct Hval as (g & _ & Hh). apply triple_fail. right. split; [reflexivity|]. right. eauto.
  - destruct Hval as (bytes & v & Hf & Hp & Hkind & Hcount).
    eapply triple_bind; [eapply triple_error; [apply (os_blob_open_triple b bytes v Hf Hp Hkind Hcount), (Hblobs (mkEntry l i key) le b bytes v (proj1 He)); auto | intros e H; now left]|].
    intros r Hreads. apply triple_ret. exists (mkEntry l i key), (blob_payload v). split; [exact He|]. split.
    + exists le. split; [exact Hle|]. rewrite Hlv. split; [reflexivity|]. exists bytes. split; [exact Hf|].
      unfold blob_payload. now apply PageView_parse_wf in Hp as [_ ->].
    + intros s [Hok _ _]. eapply (reads_streams _ _ _ _ _ _ Hfits); [exact Hreads | exact Hok].
Qed.
End TableReader.

(** ** A value on a page of its own *)

(** A leaf with one entry whose value is on page 1, and that page, with its
    layout flags. *)
Definition ref_leaf : list byte :=
  i32_le 53 ++ i32_le 0 ++ i32_le 1 ++ i64_le (-1) ++ i64_le (-1)
  ++ u64_le (ascii_digest [Byte.x62]) ++ i32_le 44 ++ u16_le 1 ++ u16_le OVERFLOW_SENTINEL ++ [Byte.x62] ++ i64_le 1.
Definition value_bytes : list byte := [Byte.x68; Byte.x65; Byte.x6c; Byte.x6c; Byte.x6f].
Definition blob_page (kind : Z) : list byte :=
  i32_le 33 ++ i32_le kind ++ i32_le 0 ++ i64_le (-1) ++ i64_le (-1) ++ value_bytes.

Definition ref_view : PageView :=
  mkPageView ref_leaf (mkNodeHeader Leaf (mkNodeLayout false false false) 1 None None) 36 44.
Definition ref_leaves : list LeafInfo := [mkLeafInfo 0 ref_view [[Byte.x62]]].
Definition ref_config (kind : Z) : Config :=
  mkConfig doubling (replicate 26 Byte.x00 ++ ref_leaf ++ blob_page kind ++ i64_le 26 ++ i64_le 79) None Limits_default 112 2 (fun n => n).
Definition ref_table : TableInner := mkTableInner (ti_descriptor sample_table) demo_tree [].
Definition ref_store (kind : Z) : OpenStore (ref_config kind) :=
  mkOpen (PageStore_new (mkMem (Budget_new 4096) ∅) (PageCache_new 1024 2) (PageDirectory_new 112 2 512 4)
    [ReadInterrupted; ReadShort 2; ReadFull; ReadShort 0] []).

Lemma ref_fits : config_fits (ref_config 0).
Proof. split; vm_compute; intuition discriminate. Qed.

Lemma ref_page : file_page (ref_config 0) 0 = Some ref_leaf /\ file_page (ref_config 0) 1 = Some (blob_page 0).
Proof. vm_compute. auto. Qed.

Lemma ref_parse : PageView_parse ref_leaf = Ok ref_view.
Proof. vm_compute. reflexivity. Qed.

Lemma ref_wf : well_formed (file := file_page (ref_config 0)) (page_count := 2) (max_depth := 64) demo_tree 0 0 ref_leaves.
Proof.
  apply (single_leaf_wf _ 2 ref_leaf ref_view); [apply ref_page | exact ref_parse | vm_compute; (reflexivity || intuition discriminate)..].
Qed.

Lemma ref_entry : leaf_entry ref_view 0 = Ok (mkLeafEntry 44 1 (Overflow 1)).
Proof. vm_compute. reflexivity. Qed.

Lemma ref_overflow j e b : 0 <= j -> leaf_entry ref_view j = Ok e -> le_value e = Overflow b -> b = 1.
Proof.
  intros Hj He Hv. destruct (leaf_entry_inv ref_view j e (proj1 (PageView_parse_wf _ _ ref_parse)) He) as (_ & Hlt & _).
  change (j < 1) in Hlt. assert (j = 0) as -> by lia. rewrite ref_entry in He. injection He as <-. now injection Hv as <-.
Qed.

Lemma ref_readable : readable (file := file_page (ref_config 0)) ref_leaves.
Proof.
  intros l [->|Hl]%elem_of_cons; [|inversion Hl]. split; [vm_compute; reflexivity|]. intros j e b Hj He Hv.
  rewrite (ref_overflow j e b Hj He Hv). exists (blob_page 0). eexists. split; [apply ref_page|]. split; [vm_compute; reflexivity | auto].
Qed.

Lemma ref_plain e le b bytes v : e ∈ entries ref_leaves -> leaf_entry (lp_view (en_leaf e)) (en_index e) = Ok le -> le_value le = Overflow b ->
  file_page (ref_config 0) b = Some bytes -> PageView_parse bytes = Ok v -> compact_meta (view_layout v) = false.
Proof.
  intros [->|He]%elem_of_cons Hle Hv Hf Hp; [|inversion He]. rewrite (ref_overflow 0 le b ltac:(lia) Hle Hv), (proj2 ref_page) in Hf.
  injection Hf as <-. vm_compute in Hp. injection Hp as <-. reflexivity.
Qed.

Lemma ref_inv : tree_inv (SL := Open_laws (ref_config 0) ref_fits) demo_tree (ref_store 0).
Proof.
  split; [|discriminate | discriminate].
  change (open_ok (ref_config 0) (ref_store 0)). apply (PageStore_new_inv (cf_data (ref_config 0)) None Limits_default 112 2).
Qed.

Lemma blob_reader_correct_witness :
  let run := table_blob_reader ref_table [Byte.x62] (ref_store 0) in
  exists r e value, fst run = Ok (Some r) /\ entry_at ref_leaves [Byte.x62] e /\
    holds_value (file := file_page (ref_config 0)) e value true /\
    streams (SA := doubling) (cf_data (ref_config 0)) r value (os_store (ref_store 0)).
Proof.
  intros run. destruct (blob_reader_correct (ref_config 0) ref_fits eq_refl ref_table ltac:(discriminate) 0 0 ref_leaves ref_wf ref_readable
    ref_plain [Byte.x62] (ref_store 0) ref_inv) as [_ H]. fold run in H.
  assert (fst run = Ok (Some (mkBlobReader 1 107 5 0))) as E by (vm_compute; reflexivity). rewrite E in H |- *.
  destruct H as (e & value & He & Hv & Hs). exists (mkBlobReader 1 107 5 0), e, value.
  split; [reflexivity|]. split; [exact He|]. split; [exact Hv | exact (Hs (ref_store 0) ref_inv)].
Defined.

(** The reader of a blob page whose layout word has the compact flag is refused,
    where [get] returns the value. *)
Example compact_blob_is_not_streamed :
  is_ok (fst (table_get ref_table [Byte.x62] (ref_store FLAG_COMPACT_META))) = true /\
  fst (table_blob_reader ref_table [Byte.x62] (ref_store FLAG_COMPACT_META)) = Err (at_page Error_corrupt 1).
Proof. vm_compute. auto. Qed.
