(* ===== verification/Database.v ===== *)
(** Opening a database, [crates/drydb/src/db.rs], and the registry of page
    filters of [crates/drydb/src/filter.rs].

    Opening reads the header and the descriptors, checks what they say against
    the file and the budget, and builds the page store and the handles of the
    tables.  The layouts of the standard library's and the crate's own types are
    parameters, as is the built-in filter, which wraps a library. *)

From Stdlib Require Import ZArith Lia.
From stdpp Require Import base list gmap.
From coqutil Require Import Byte.
From S2P Require Import Prelude Errors Format Header Node Encoding Budget Catalog Page TreePage Btree Query Cursor Index Table.
From S2P Require Import Source Cache CacheFacts Directory Store StoreFacts StoreAccounts OpenStore.

#[local] Open Scope Z_scope.
#[local] Open Scope drydb_scope.

(** * Page filters by id *)

Definition ZSTD_FILTER_ID : Str :=
  [Byte.x44; Byte.x72; Byte.x79; Byte.x44; Byte.x42; Byte.x2e; Byte.x5a; Byte.x73; Byte.x74; Byte.x64; Byte.x43; Byte.x6f;
   Byte.x6d; Byte.x70; Byte.x72; Byte.x65; Byte.x73; Byte.x73; Byte.x69; Byte.x6f; Byte.x6e].

(** The registered filters, the latest first: [HashMap::insert] replaces. *)
Record FilterRegistry : Type := mkFilterRegistry { fr_custom : list (Str * PageFilter) }.

Definition FilterRegistry_new : FilterRegistry := mkFilterRegistry [].

Definition FilterRegistry_register (id : Str) (f : PageFilter) (r : FilterRegistry) : FilterRegistry :=
  mkFilterRegistry ((id, f) :: fr_custom r).

(** [zstd] is the built-in filter when the feature is on. *)
Definition FilterRegistry_resolve (zstd : option PageFilter) (r : FilterRegistry) (id : Str) : Result PageFilter :=
  match by_name id (fr_custom r) with
  | Some f => Ok f
  | None =>
      match zstd with
      | Some f => if str_eqb id ZSTD_FILTER_ID then Ok f else Err (Error_new UnknownFilter)
      | None => Err (Error_new UnknownFilter)
      end
  end.

(** * Options *)

Definition DEFAULT_MEMORY_BUDGET : Z := Z.shiftl 64 20.
Definition DEFAULT_DIRECTORY_CHUNK_ENTRIES : Z := 512.
Definition DEFAULT_DIRECTORY_CHUNKS : Z := 8.

Record OpenOptions : Type := mkOpenOptions {
  oo_memory_budget : Z;
  oo_cache_capacity : option Z;
  oo_cache_shards : Z;
  oo_directory_chunk_entries : Z;
  oo_directory_chunks : Z;
  oo_limits : Limits;
  oo_encodings : EncodingRegistry;
  oo_filters : FilterRegistry;
  oo_validate_digests : bool;
}.

(** [parallelism] is what [available_parallelism] says, if it says anything. *)
Definition default_shards (parallelism : option Z) : Z :=
  Z.min (Z.max (match parallelism with Some n => n * 4 | None => 16 end) 1) 256.

Definition OpenOptions_default (parallelism : option Z) : OpenOptions :=
  mkOpenOptions DEFAULT_MEMORY_BUDGET None (default_shards parallelism) DEFAULT_DIRECTORY_CHUNK_ENTRIES DEFAULT_DIRECTORY_CHUNKS
    Limits_default EncodingRegistry_new FilterRegistry_new true.

Definition set_memory_budget (bytes : Z) (o : OpenOptions) : OpenOptions :=
  mkOpenOptions bytes (oo_cache_capacity o) (oo_cache_shards o) (oo_directory_chunk_entries o) (oo_directory_chunks o)
    (oo_limits o) (oo_encodings o) (oo_filters o) (oo_validate_digests o).
Definition set_cache_capacity (bytes : Z) (o : OpenOptions) : OpenOptions :=
  mkOpenOptions (oo_memory_budget o) (Some bytes) (oo_cache_shards o) (oo_directory_chunk_entries o) (oo_directory_chunks o)
    (oo_limits o) (oo_encodings o) (oo_filters o) (oo_validate_digests o).
Definition set_cache_shards (shards : Z) (o : OpenOptions) : OpenOptions :=
  mkOpenOptions (oo_memory_budget o) (oo_cache_capacity o) (Z.max shards 1) (oo_directory_chunk_entries o) (oo_directory_chunks o)
    (oo_limits o) (oo_encodings o) (oo_filters o) (oo_validate_digests o).
Definition set_directory_chunk_entries (entries : Z) (o : OpenOptions) : OpenOptions :=
  mkOpenOptions (oo_memory_budget o) (oo_cache_capacity o) (oo_cache_shards o) (Z.max entries 1) (oo_directory_chunks o)
    (oo_limits o) (oo_encodings o) (oo_filters o) (oo_validate_digests o).
Definition set_directory_chunks (chunks : Z) (o : OpenOptions) : OpenOptions :=
  mkOpenOptions (oo_memory_budget o) (oo_cache_capacity o) (oo_cache_shards o) (oo_directory_chunk_entries o) (Z.max chunks 1)
    (oo_limits o) (oo_encodings o) (oo_filters o) (oo_validate_digests o).
Definition set_limits (limits : Limits) (o : OpenOptions) : OpenOptions :=
  mkOpenOptions (oo_memory_budget o) (oo_cache_capacity o) (oo_cache_shards o) (oo_directory_chunk_entries o) (oo_directory_chunks o)
    limits (oo_encodings o) (oo_filters o) (oo_validate_digests o).
Definition set_validate_digests (validate : bool) (o : OpenOptions) : OpenOptions :=
  mkOpenOptions (oo_memory_budget o) (oo_cache_capacity o) (oo_cache_shards o) (oo_directory_chunk_entries o) (oo_directory_chunks o)
    (oo_limits o) (oo_encodings o) (oo_filters o) validate.
Definition register_encoding (e : KeyEncoding) (o : OpenOptions) : Result OpenOptions :=
  let? encodings := EncodingRegistry_register (oo_encodings o) e in
  Ok (mkOpenOptions (oo_memory_budget o) (oo_cache_capacity o) (oo_cache_shards o) (oo_directory_chunk_entries o) (oo_directory_chunks o)
    (oo_limits o) encodings (oo_filters o) (oo_validate_digests o)).
Definition register_filter (id : Str) (f : PageFilter) (o : OpenOptions) : OpenOptions :=
  mkOpenOptions (oo_memory_budget o) (oo_cache_capacity o) (oo_cache_shards o) (oo_directory_chunk_entries o) (oo_directory_chunks o)
    (oo_limits o) (oo_encodings o) (FilterRegistry_register id f (oo_filters o)) (oo_validate_digests o).

Definition minimum_budget (page_size directory_chunk_entries : Z) : Z :=
  let pages := saturating_mul (saturating_add page_size BUFFER_OVERHEAD) 4 in
  let directory := saturating_add (saturating_mul directory_chunk_entries DIRECTORY_SLOT_LEN) BUFFER_OVERHEAD in
  saturating_add (saturating_add pages directory) (Z.shiftl 8 10).

(** * What the handles cost *)

Definition index_copy_bytes (d : IndexDescriptor) : Z :=
  zlen (id_name d) + zlen (id_key_encoding_id d) + 2 * BUFFER_OVERHEAD.

Definition table_copy_bytes (sz : Sizes) (total : Z) (t : TableDescriptor) : Z :=
  let total := saturating_add (saturating_add total (zlen (td_name t))) BUFFER_OVERHEAD in
  let total := saturating_add total (index_copy_bytes (td_primary t)) in
  let total := saturating_add total (saturating_mul (size_of_IndexDescriptor sz) (zlen (td_secondaries t))) in
  let total := saturating_add total BUFFER_OVERHEAD in
  foldl (fun total d => saturating_add total (index_copy_bytes d)) total (td_secondaries t).

Definition descriptor_copy_bytes (sz : Sizes) (c : Catalog) : Z := foldl (table_copy_bytes sz) 0 (cat_tables c).

Definition handle_footprint (sz : Sizes) (c : Catalog) : Z :=
  let entries := zlen (cat_tables c) + foldr Z.add 0 (map (fun t => zlen (td_secondaries t)) (cat_tables c)) in
  saturating_add (saturating_mul (descriptor_copy_bytes sz c) 3)
    (saturating_mul (saturating_add entries 2) (BUFFER_OVERHEAD * 4)).

(** * Opening *)

Record Database : Type := mkDatabase {
  db_catalog : Catalog;
  db_config : Config;
  db_tables : list (Str * TableInner);
  db_catalog_charge : Charge;
  (** The fixed charge of the store. *)
  db_store_charge : Charge;
}.

Definition SHARD_BUDGET_SHARE : Z := 64.

(** What the types of the crate take, as the compiler lays them out. *)
Record Layout : Type := mkLayout { lay_catalog : Sizes; size_of_Shard : Z }.

Definition bookkeeping_bytes (lay : Layout) (shards : Z) : Z :=
  saturating_add (saturating_mul shards (size_of_Shard lay)) BUFFER_OVERHEAD.

(** [while shards > 1 && ..]: there are at most [MAX_SHARDS], so ten halvings
    reach one. *)
Fixpoint halve_shards (fuel : nat) (lay : Layout) (affordable shards : Z) : Z :=
  match fuel with
  | O => shards
  | S fuel =>
      if (1 <? shards) && (affordable <? bookkeeping_bytes lay shards) then halve_shards fuel lay affordable (shards / 2)
      else shards
  end.

Definition affordable_shards (lay : Layout) (requested memory_budget : Z) : Z :=
  halve_shards 10 lay (memory_budget / SHARD_BUDGET_SHARE) (shard_count requested).

Section Open.
Context (alloc : StdAlloc) (lay : Layout) (zstd : option PageFilter) (vec_capacity : Z -> Z).
Context (data : list byte).
(** While a file is opened there are the budget, which goes when opening fails,
    and the reads to come. *)
Abbreviation OM A := (SM (Budget * Reads) Stop A).

Definition fails {A} (r : Result A) : OM A := lift (map_err Failed r).
Definition refuse (b : bool) (e : Error) : OM unit := if b then sfail (Failed e) else sret tt.

Definition in_budget {A} (m : SM Budget Error A) : OM A := fun s =>
  let '(r, b) := m (fst s) in (map_err Failed r, (b, snd s)).

Definition give_back (c : Charge) : OM unit := smodify (fun s => (Charge_drop c (fst s), snd s)).

Definition read_source_up_to (len offset : Z) : OM (list byte) := fun s =>
  let '(r, reads) := read_up_to_at data len offset (snd s) in (map_err Failed r, (fst s, reads)).

Definition read_header : OM Header :=
  let! bytes := read_source_up_to HEADER_LEN 0 in
  let! _ := refuse (zlen bytes <? HEADER_LEN) (Error_new UnsupportedFormat) in
  fails (Header_parse bytes).

(** [parse] with the charge it grows. *)
Definition parse_charged (buf : list byte) (h : Header) (charge : Charge) : OM (CatalogParse * Charge) := fun s =>
  let '(r, (b, charge)) := parse (lay_catalog lay) buf (page_filter_count h) (Header.table_count h) (page_size h) (page_count h)
                             (page_directory_position h) (fst s, charge) in
  (map_err Failed (rmap (fun p => (p, charge)) r), (b, snd s)).

(** The loop of [read_catalog]: the capacity at least doubles, so that [fuel]
    rounds reach every limit below [2 ^ fuel]. *)
Fixpoint catalog_rounds (fuel : nat) (h : Header) (max_bytes capacity : Z) : OM (Charge * Catalog) :=
  match fuel with
  | O => sfail OutOfFuel
  | S fuel =>
      let! buffer_charge := in_budget (Budget_try_reserve (capacity + BUFFER_OVERHEAD)) in
      let! catalog_charge := in_budget (Budget_try_reserve 0) in
      let! buf := read_source_up_to capacity 0 in
      let! _ := refuse (zlen buf <? HEADER_LEN) (Error_new UnsupportedFormat) in
      let! '(parsed, catalog_charge) := parse_charged buf h catalog_charge in
      match parsed with
      | Complete c => let! _ := give_back buffer_charge in sret (catalog_charge, c)
      | NeedMore needed =>
          let! _ := refuse (zlen buf <? capacity) Error_corrupt in
          let! _ := refuse (max_bytes <=? capacity) Error_corrupt in
          let! _ := give_back catalog_charge in
          let! _ := give_back buffer_charge in
          catalog_rounds fuel h max_bytes (Z.min (Z.max needed (capacity * 2)) max_bytes)
      end
  end.

Definition CATALOG_ROUNDS : nat := 65.

Definition open_catalog (h : Header) (max_bytes : Z) : OM (Charge * Catalog) :=
  catalog_rounds CATALOG_ROUNDS h max_bytes (Z.max (Z.min (8 * 1024) max_bytes) HEADER_LEN).

Definition catalog_header (c : Catalog) : Header :=
  mkHeader 1 4 (wrap 16 (zlen (cat_filters c))) (cat_page_size c) (wrap 16 (zlen (cat_tables c))) (cat_page_count c) (cat_directory_position c).

Definition open_filter (o : OpenOptions) (c : Catalog) : Result (option PageFilter) :=
  match cat_filters c with
  | [] => Ok None
  | [id] => rmap Some (FilterRegistry_resolve zstd (oo_filters o) id)
  | _ => Err (Error_new Unsupported)
  end.

(** Whether decoding a page with the filter fits in the budget. *)
Definition check_filter (o : OpenOptions) (c : Catalog) (f : PageFilter) : OM unit := fun s =>
  let '(probe, b) := Budget_try_reserve (pf_probe_bytes f) (fst s) in
  let '(working, b) := match probe with
                       | Ok charge => (Some (pf_working_set_bytes f), Charge_drop charge b)
                       | Err _ => (None, b)
                       end in
  let fixed := max_decoded_page_bytes (oo_limits o) + BUFFER_OVERHEAD + cat_page_size c in
  match working with
  | Some working => if oo_memory_budget o <? fixed + working then (Err (Failed Error_invalid), (b, snd s)) else (Ok tt, (b, snd s))
  | None => (Err (Failed Error_invalid), (b, snd s))
  end.

Fixpoint build_tables (next_tree_id : Z) (descriptors : list TableDescriptor) (encodings : EncodingRegistry)
    (validate_digests : bool) (built : list (Str * TableInner)) : Result (list (Str * TableInner) * Z) :=
  match descriptors with
  | [] => Ok (built, next_tree_id)
  | d :: descriptors =>
      let? '(table, next_tree_id) := TableInner_build next_tree_id d encodings validate_digests in
      build_tables next_tree_id descriptors encodings validate_digests ((td_name d, table) :: built)
  end.

Definition grow_charge (bytes : Z) (c : Charge) : OM Charge := fun s =>
  let '(r, (b, c)) := Charge_grow bytes (fst s, c) in (map_err Failed (rmap (fun _ => c) r), (b, snd s)).

(** [open_source]; [size] is what the source says of the file, [None] when it
    fails.  The result is the database with its store and the tree ids left. *)
Definition open_run (o : OpenOptions) (size : option Z) (next_tree_id : Z) (env : list (list EnvEvent)) : OM (Database * Store * Z) :=
  let! header := read_header in
  let! _ := refuse (oo_memory_budget o <? minimum_budget (page_size header) (oo_directory_chunk_entries o)) Error_invalid in
  let! '(catalog_charge, catalog) := open_catalog header (max_catalog_bytes (oo_limits o)) in
  let! file_size := fails (ok_or size Error_io) in
  let! '(dir_start, dir_end) := fails (Header_directory_span (catalog_header catalog)) in
  let! _ := refuse (file_size <? dir_end) Error_corrupt in
  let! _ := refuse (dir_start <? cat_descriptor_end catalog) Error_corrupt in
  let! filter := fails (open_filter o catalog) in
  let! _ := match filter with Some f => check_filter o catalog f | None => sret tt end in
  let cache_capacity := Z.min (default (oo_memory_budget o / 4 * 3) (oo_cache_capacity o)) (oo_memory_budget o) in
  let shards := affordable_shards lay (oo_cache_shards o) (oo_memory_budget o) in
  let! store_charge := in_budget (Budget_try_reserve (bookkeeping_bytes lay shards)) in
  let cache := PageCache_new cache_capacity shards in
  let directory := PageDirectory_new (cat_directory_position catalog) (cat_page_count catalog) (oo_directory_chunk_entries o)
                     (oo_directory_chunks o) in
  let! catalog_charge := grow_charge (handle_footprint (lay_catalog lay) catalog) catalog_charge in
  let! '(tables, next_tree_id) := fails (build_tables next_tree_id (cat_tables catalog) (oo_encodings o) (oo_validate_digests o) []) in
  let! s := sget in
  let store := PageStore_new (mkMem (fst s) ∅) cache directory (snd s) env in
  let config := mkConfig alloc data filter (oo_limits o) (cat_directory_position catalog) (cat_page_count catalog) vec_capacity in
  sret (mkDatabase catalog config tables catalog_charge store_charge, store, next_tree_id).

Definition open_source (o : OpenOptions) (size : option Z) (reads : Reads) (next_tree_id : Z) (env : list (list EnvEvent))
    : result Stop (Database * Store * Z) :=
  fst (open_run o size next_tree_id env (Budget_new (oo_memory_budget o), reads)).
End Open.

(** * Handles *)

Definition db_table (db : Database) (name : Str) : Result TableInner := ok_or (by_name name (db_tables db)) Error_invalid.

(** [size_of::<&str>()] on a 64-bit target. *)
Definition STR_BYTES : Z := 16.

Definition name_list {Store} `{!CursorStore Store} (names : list Str) : SM Store Error (Charged (list Str)) :=
  let! charge := cs_reserve (saturating_mul (zlen names) STR_BYTES + BUFFER_OVERHEAD) in
  sret (mkCharged names (mkCharge charge)).

Definition table_names {Store} `{!CursorStore Store} (db : Database) : SM Store Error (Charged (list Str)) :=
  name_list (map td_name (cat_tables (db_catalog db))).

Definition index_names {Store} `{!CursorStore Store} (tb : TableInner) : SM Store Error (Charged (list Str)) :=
  name_list (map id_name (td_secondaries (ti_descriptor tb))).

Record MemoryReport : Type := mkMemoryReport {
  mr_budget_limit : Z;
  mr_charged : Z;
  mr_peak_charged : Z;
  mr_cache_resident : Z;
  mr_cache_capacity : Z;
}.

Definition memory_report (s : Store) : MemoryReport :=
  let b := m_budget (st_mem s) in
  mkMemoryReport (b_limit b) (in_use b) (peak b) (foldr Z.add 0 (map sh_resident (pc_shards (st_cache s)))) (pc_capacity (st_cache s)).
