(* ===== verification/DatabaseFacts.v ===== *)
(** What an opened database is.

    Whatever the file holds, a database that opens has the catalog the whole
    file describes, a directory that lies in the file, a store in its initial
    invariant whose budget counts exactly what has been set up, and for every
    descriptor a handle whose trees have ids of their own. *)

From Stdlib Require Import ZArith Lia.
From stdpp Require Import base list gmap.
From coqutil Require Import Byte.
From S2P Require Import Prelude Errors Format Header Node Encoding Budget Catalog Page TreePage Btree Query Cursor Index Table.
From S2P Require Import Source Cache CacheFacts Directory Store StoreFacts StoreAccounts OpenStore Database.

#[local] Open Scope Z_scope.
#[local] Open Scope drydb_scope.

(** * Steps of opening

    [opens u m Q]: from a budget that counts [u] bytes, [m] fails with an error or
    gives a result and a budget related by [Q]. *)

Section Steps.
Context (lay : Layout) (data : list byte) (limit : Z).
Abbreviation OM A := (SM (Budget * Reads) Stop A).

Definition opens {A} (u : Z) (m : OM A) (Q : A -> Z -> Prop) : Prop :=
  forall b reads, b_limit b = limit -> b_used b = u ->
    match m (b, reads) with
    | (Ok a, (b', _)) => b_limit b' = limit /\ 0 <= b_used b' <= limit /\ Q a (b_used b')
    | (Err stop, _) => exists e, stop = Failed e
    end.

Lemma opens_bind {A B} u (m : OM A) (f : A -> OM B) (P : A -> Z -> Prop) (Q : B -> Z -> Prop) :
  opens u m P -> (forall a v, P a v -> 0 <= v <= limit -> opens v (f a) Q) -> opens u (sbind m f) Q.
Proof.
  intros Hm Hf b reads Hl Hu. unfold sbind. specialize (Hm b reads Hl Hu).
  destruct (m (b, reads)) as [[a|e] [b' reads']]; [|exact Hm]. destruct Hm as (H1 & H2 & H3). exact (Hf a _ H3 H2 b' reads' H1 eq_refl).
Qed.

Lemma opens_ret {A} u (a : A) (Q : A -> Z -> Prop) : 0 <= u <= limit -> Q a u -> opens u (sret a) Q.
Proof. intros Hu HQ b reads Hl <-. simpl. auto. Qed.

Lemma opens_fails {A} u (r : Result A) : 0 <= u <= limit -> opens u (fails r) (fun a v => r = Ok a /\ v = u).
Proof. intros Hu b reads Hl <-. unfold fails, lift. destruct r as [a|e]; simpl; eauto. Qed.

Lemma opens_refuse u c e : 0 <= u <= limit -> opens u (refuse c e) (fun _ v => c = false /\ v = u).
Proof. intros Hu b reads Hl <-. unfold refuse. destruct c; simpl; eauto. Qed.

Context (Hlimit : limit <= u64_max).

Lemma opens_reserve u n : 0 <= u <= limit -> 0 <= n ->
  opens u (in_budget (Budget_try_reserve n)) (fun c v => ch_bytes c = n /\ v = u + n).
Proof.
  intros Hu Hn b reads Hl <-. unfold in_budget, Budget_try_reserve, sbind. cbn [fst].
  destruct (Budget_take_spec n b Hn) as [[Hle ->]|[Hgt ->]]; [lia.. | |]; cbn; [|eauto]. split; [exact Hl|]. split; [lia | auto].
Qed.

Lemma opens_give_back u c : 0 <= ch_bytes c <= u -> u <= limit -> opens u (give_back c) (fun _ v => v = u - ch_bytes c).
Proof.
  intros Hc Hu b reads Hl <-. cbn. unfold wrap, u64_max in *. rewrite Z.mod_small by lia. split; [exact Hl|]. split; lia.
Qed.

Lemma opens_read u len offset : 0 <= u <= limit -> 0 <= offset -> 0 <= len -> offset + len <= u64_max ->
  opens u (read_source_up_to data len offset) (fun bytes v => bytes = slice data offset len /\ v = u).
Proof.
  intros Hu Ho Hl Hm b reads Hb <-. unfold read_source_up_to. cbn [fst snd].
  pose proof (read_up_to_at_spec data len offset reads Ho Hl Hm) as H.
  destruct (read_up_to_at data len offset reads) as [[bytes|e] reads']; cbn in *; eauto.
Qed.

Lemma opens_grow u n c : 0 <= ch_bytes c <= u -> u <= limit -> 0 <= n ->
  opens u (grow_charge n c) (fun c' v => ch_bytes c' = ch_bytes c + n /\ v = u + n).
Proof.
  intros Hc Hu Hn b reads Hl Hb. unfold grow_charge. cbn [fst snd].
  destruct (Charge_grow_spec n (b, c) Hn) as [(b' & -> & [Hc1 Hc2] & H1 & H2 & H3)|[-> _]]; [split; simpl in *; lia | |]; cbn; [|eauto].
  destruct b' as [b' c']. cbn [fst snd] in *. split; [lia|]. split; [lia|]. split; lia.
Qed.

(** ** The catalog *)

Context (Hsz : Catalog.sizes_ok (lay_catalog lay)) (Hdata : zlen data < 2 ^ 63).

(** The catalog the whole file describes. *)
Definition catalog_of (c : Catalog) : Prop :=
  exists h b, Header_parse (slice data 0 HEADER_LEN) = Ok h /\ covers b /\
    cat_page_size c = page_size h /\ cat_page_count c = page_count h /\ cat_directory_position c = page_directory_position h /\
    fst (parse (lay_catalog lay) data (page_filter_count h) (Header.table_count h) (page_size h) (page_count h)
      (page_directory_position h) b) = Ok (Complete c).

Definition catalog_wf (c : Catalog) : Prop := Forall table_wf (cat_tables c) /\ NoDup (map td_name (cat_tables c)).

Lemma rd_bind_inv {A B} (m : Rd A) (f : A -> Rd B) buf s x s' :
  rd_bind m f buf s = (Ok (Some x), s') -> exists a s1, m buf s = (Ok (Some a), s1) /\ f a buf s1 = (Ok (Some x), s').
Proof. unfold rd_bind, sbind. intros H. destruct (m buf s) as [[[a|]|e] s1]; [eauto | discriminate..]. Qed.

(** The fields of the header are kept in the catalog. *)
Lemma parse_fields sz buf fc tc ps pc dp b c b' : parse sz buf fc tc ps pc dp b = (Ok (Complete c), b') ->
  cat_page_size c = ps /\ cat_page_count c = pc /\ cat_directory_position c = dp.
Proof.
  unfold parse. destruct (read_catalog _ _ _ _ _ _ buf _) as [[[c'|]|e] [r b1]] eqn:H; [|discriminate..]. intros [= <- <-]. revert H.
  unfold read_catalog. intros H. do 5 (apply rd_bind_inv in H as (? & ? & _ & H)). injection H as <- _. auto.
Qed.

(** What a round of the loop parses: a complete catalog is that of any longer
    file. *)
Lemma opens_parse u n h c : 0 <= ch_bytes c <= u -> u <= limit -> 0 <= n ->
  opens u (parse_charged lay (slice data 0 n) h c) (fun r v =>
    v - ch_bytes (snd r) = u - ch_bytes c /\ 0 <= ch_bytes (snd r) <= v /\
    match fst r with
    | Complete cat => catalog_wf cat /\ ch_bytes (snd r) = ch_bytes c + catalog_cost (lay_catalog lay) (cat_filters cat) (cat_tables cat) /\
        exists b, covers b /\ fst (parse (lay_catalog lay) data (page_filter_count h) (Header.table_count h) (page_size h) (page_count h)
          (page_directory_position h) b) = Ok (Complete cat)
    | NeedMore _ => True
    end).
Proof.
  intros Hc Hu Hn b reads Hl Hb. unfold parse_charged, parse. cbn [fst snd].
  set (rd := read_catalog (lay_catalog lay) (page_filter_count h) (Header.table_count h) (page_size h) (page_count h) (page_directory_position h)).
  assert (covers (b, c)) as Hcov by (unfold covers; cbn [fst snd]; lia).
  pose proof (yields_catalog (lay_catalog lay) Hsz (page_filter_count h) (Header.table_count h) (page_size h) (page_count h) (page_directory_position h) (slice data 0 n) (mkReader HEADER_LEN None) (b, c) Hcov) as Hy. fold rd in Hy.
  pose proof (stable_catalog (lay_catalog lay) (page_filter_count h) (Header.table_count h) (page_size h) (page_count h) (page_directory_position h)
    (slice data 0 n) (drop (Z.to_nat n) data) (mkReader HEADER_LEN None, (b, c))) as Hst. fold rd in Hst.
  assert (slice data 0 n ++ drop (Z.to_nat n) data = data) as Happ by (unfold slice; rewrite drop_0; apply take_drop).
  assert (ready (mkReader HEADER_LEN None, (b, c))) as Hready by (split; [reflexivity | unfold HEADER_LEN; cbn [fst r_pos]; lia]).
  rewrite Happ in Hst. specialize (Hst Hdata Hready).
  destruct (rd (slice data 0 n) (mkReader HEADER_LEN None, (b, c))) as [[[cat|]|e] [r [b' c']]]; cbn [fst snd rmap map_err] in *; [| |eauto].
  - destruct Hy as ([Hcv1 Hcv2] & H1 & H2 & H3 & _ & Hwf & Hnd & Hcost). cbn [fst snd] in *. split; [lia|]. split; [lia|]. split; [lia|]. split; [lia|].
    split; [split; assumption|]. split; [lia|]. exists (b, c). split; [exact Hcov|]. destruct Hst as (_ & _ & ->). reflexivity.
  - destruct Hy as ([Hcv1 Hcv2] & H1 & H2 & H3 & _). cbn [fst snd] in *. split; [lia|]. split; [lia|]. split; [lia|]. split; [lia | exact I].
Qed.

Context (h : Header) (max_bytes : Z) (Hmax : 0 <= max_bytes <= u64_max).

Definition catalog_read (u : Z) (r : Charge * Catalog) (v : Z) : Prop :=
  catalog_wf (snd r) /\ ch_bytes (fst r) = catalog_cost (lay_catalog lay) (cat_filters (snd r)) (cat_tables (snd r)) /\
  0 <= ch_bytes (fst r) /\ v = u + ch_bytes (fst r) /\
  exists b, covers b /\ fst (parse (lay_catalog lay) data (page_filter_count h) (Header.table_count h) (page_size h) (page_count h)
    (page_directory_position h) b) = Ok (Complete (snd r)).

Lemma opens_rounds fuel : forall u capacity, 0 <= u <= limit -> 0 < capacity <= u64_max -> max_bytes <= capacity * 2 ^ Z.of_nat fuel ->
  opens u (catalog_rounds lay data (S fuel) h max_bytes capacity) (catalog_read u).
Proof.
  induction fuel as [|fuel IH]; intros u capacity Hu Hcap Hf; cbn [catalog_rounds].
  all: eapply opens_bind; [apply opens_reserve; unfold BUFFER_OVERHEAD; lia|]; intros buffer v [Hb ->] Hv.
  all: eapply opens_bind; [apply opens_reserve; lia|]; intros charge v' [Hc ->] Hv'.
  all: eapply opens_bind; [apply opens_read; lia|]; intros buf v [-> ->] _.
  all: eapply opens_bind; [apply opens_refuse; lia|]; intros _ v [_ ->] _.
  all: eapply opens_bind; [apply (opens_parse _ capacity h charge); unfold BUFFER_OVERHEAD in *; lia|]; intros [parsed charge'] v (H1 & H2 & H3) Hv''; cbn [fst snd] in *.
  all: destruct parsed as [cat|needed].
  1, 3: eapply opens_bind; [apply opens_give_back; unfold BUFFER_OVERHEAD in *; lia|]; intros _ v2 -> Hv2; apply opens_ret; [lia|];
    destruct H3 as (Hw & Hcost & Hp); split; [exact Hw|]; cbn [fst snd]; split; [lia|]; split; [lia|]; split; [lia | exact Hp].
  all: eapply opens_bind; [apply opens_refuse; lia|]; intros _ v2 [_ ->] _.
  all: eapply opens_bind; [apply opens_refuse; lia|]; intros _ v3 [Hlt%Z.leb_gt ->] _.
  - exfalso. lia.
  - eapply opens_bind; [apply opens_give_back; lia|]. intros _ v4 -> Hv4.
    eapply opens_bind; [apply opens_give_back; unfold BUFFER_OVERHEAD in *; lia|]. intros _ v5 -> Hv5.
    replace (v - ch_bytes charge' - ch_bytes buffer) with u by lia. apply IH; [lia..|].
    rewrite Nat2Z.inj_succ, Z.pow_succ_r in Hf by lia. pose proof (Z.pow_pos_nonneg 2 (Z.of_nat fuel)). nia.
Qed.

Lemma opens_catalog u : 0 <= u <= limit -> opens u (open_catalog lay data h max_bytes) (catalog_read u).
Proof.
  intros Hu. apply opens_rounds; [exact Hu | unfold HEADER_LEN, u64_max in *; lia|].
  change (Z.of_nat 64) with 64. unfold HEADER_LEN, u64_max in *. lia.
Qed.
End Steps.

(** * Handles *)

Section Handles.
Context (encodings : EncodingRegistry) (validate : bool).

Definition index_of (d : IndexDescriptor) (ix : IndexInner) : Prop :=
  ix_descriptor ix = d /\ id_value_kind d = VPageRef /\ tree_root (ix_tree ix) = id_root d /\ tree_validate_digests (ix_tree ix) = validate /\
  EncodingRegistry_resolve encodings (encoding_id (id_key_encoding_id d)) = Ok (ix_source_encoding ix) /\
  tree_encoding (ix_tree ix) = if id_is_unique d then ix_source_encoding ix else DuplicateKeyEncoding (ix_source_encoding ix).

Definition table_of (d : TableDescriptor) (tb : TableInner) : Prop :=
  ti_descriptor tb = d /\ id_value_kind (td_primary d) = RawData /\ tree_root (ti_primary tb) = id_root (td_primary d) /\
  tree_validate_digests (ti_primary tb) = validate /\
  EncodingRegistry_resolve encodings (encoding_id (id_key_encoding_id (td_primary d))) = Ok (tree_encoding (ti_primary tb)) /\
  (forall i, i ∈ td_secondaries d -> NoDup (map id_name (td_secondaries d)) -> exists ix, table_index tb (id_name i) = Ok ix /\ index_of i ix).

(** The trees of a table, and of a database. *)
Definition table_trees (tb : TableInner) : list Tree := ti_primary tb :: map (fun p => ix_tree (snd p)) (ti_secondaries tb).
Definition db_trees (tables : list (Str * TableInner)) : list Tree := concat (map (fun p => table_trees (snd p)) tables).

(** Ids handed out from a counter. *)
Definition fresh_ids (next next' : Z) (ts : list Tree) : Prop :=
  next <= next' /\ NoDup (map tree_id ts) /\ Forall (fun t => next <= tree_id t < next') ts.

Lemma fresh_ids_nil n : fresh_ids n n [].
Proof. split; [lia|]. split; constructor. Qed.

Lemma fresh_ids_one n t : tree_id t = n -> fresh_ids n (n + 1) [t].
Proof. intros H. split; [lia|]. split; [apply NoDup_singleton|]. constructor; [lia | constructor]. Qed.

Lemma fresh_ids_app a b c ts us : fresh_ids a b ts -> fresh_ids b c us -> fresh_ids a c (us ++ ts).
Proof.
  intros (H1 & H2 & H3) (H4 & H5 & H6). split; [lia|]. split.
  - rewrite map_app. apply NoDup_app. split; [exact H5|]. split; [|exact H2].
    intros x (u & -> & Hu)%list_elem_of_fmap (t & He & Ht)%list_elem_of_fmap. rewrite Forall_forall in H3, H6.
    specialize (H3 t Ht). specialize (H6 u Hu). lia.
  - apply Forall_app. split; (eapply Forall_impl; [eassumption | cbn; intros; lia]).
Qed.

Lemma fresh_ids_swap a c ts us : fresh_ids a c (us ++ ts) -> fresh_ids a c (ts ++ us).
Proof.
  intros (H1 & H2 & H3). split; [exact H1|]. rewrite map_app in *. apply NoDup_app in H2 as (H2 & H4 & H5). apply Forall_app in H3 as [H3 H6].
  split; [|apply Forall_app; auto]. apply NoDup_app. split; [exact H5|]. split; [|exact H2]. intros x Hx Hu. exact (H4 x Hu Hx).
Qed.

(** Entries made from descriptors with names of their own are found by name. *)
Lemma built_by_name {D A} (name : D -> Str) (R : D -> A -> Prop) ds (m : list (Str * A)) d :
  Forall2 (fun d p => fst p = name d /\ R d (snd p)) (rev ds) m -> NoDup (map name ds) -> d ∈ ds ->
  exists a, by_name (name d) m = Some a /\ R d a.
Proof.
  intros Hf Hn Hd. assert (map fst m = rev (map name ds)) as Hnames.
  { rewrite <- map_rev. clear -Hf. induction Hf as [|? ? ? ? [H _]]; [reflexivity|]. cbn. now f_equal. }
  assert (d ∈ rev ds) as [k Hk]%list_elem_of_lookup by (apply list_elem_of_In; rewrite <- in_rev; now apply list_elem_of_In).
  destruct (Forall2_lookup_l _ _ _ _ _ Hf Hk) as (p & Hp & H1 & H2). exists (snd p). split; [|exact H2].
  pose proof (find_by_name fst m p) as Hfind. unfold by_name. rewrite <- H1, Hfind; [reflexivity| |].
  - rewrite Hnames. apply NoDup_ListNoDup, List.NoDup_rev, NoDup_ListNoDup. exact Hn.
  - apply list_elem_of_In, list_elem_of_lookup. eauto.
Qed.

Lemma build_secondaries_spec indexes : forall next built built' next',
  build_secondaries next indexes encodings validate built = Ok (built', next') ->
  exists new, built' = new ++ built /\ Forall2 (fun d p => fst p = id_name d /\ index_of d (snd p)) (rev indexes) new /\
    fresh_ids next next' (map (fun p => ix_tree (snd p)) new).
Proof.
  induction indexes as [|d indexes IH]; cbn [build_secondaries]; intros next built built' next' H.
  - injection H as <- <-. exists []. split; [reflexivity|]. split; [constructor | apply fresh_ids_nil].
  - unfold IndexInner_build in H. destruct (id_value_kind d) eqn:Hk; try discriminate.
    destruct (EncodingRegistry_resolve _ _) as [source|e] eqn:Hr; [|discriminate]. cbn in H.
    apply IH in H as (new & -> & Hf & Hids). eexists (new ++ [(id_name d, _)]). split; [now rewrite <- app_assoc|]. split.
    + cbn [rev]. apply Forall2_app; [exact Hf|]. constructor; [|constructor]. split; [reflexivity|]. repeat split; auto.
    + rewrite map_app. eapply fresh_ids_app; [|exact Hids]. now apply fresh_ids_one.
Qed.

Lemma TableInner_build_spec d next tb next' :
  TableInner_build next d encodings validate = Ok (tb, next') -> table_of d tb /\ fresh_ids next next' (table_trees tb).
Proof.
  unfold TableInner_build. destruct (id_value_kind (td_primary d)) eqn:Hk; try discriminate.
  destruct (EncodingRegistry_resolve _ _) as [encoding|e] eqn:Hr; [|discriminate]. cbn.
  destruct (build_secondaries _ _ _ _ _) as [[secondaries n]|e] eqn:Hb; [|discriminate]. intros [= <- <-].
  apply build_secondaries_spec in Hb as (new & E & Hf & Hids). rewrite app_nil_r in E. subst new. split.
  - repeat split; auto. intros i Hi Hnd. destruct (built_by_name id_name index_of _ _ i Hf Hnd Hi) as (ix & Hix & H).
    exists ix. unfold table_index. cbn [ti_secondaries]. now rewrite Hix.
  - unfold table_trees. cbn [ti_primary ti_secondaries]. apply (fresh_ids_swap _ _ [_]), (fresh_ids_app next (next + 1)); [|exact Hids].
    now apply fresh_ids_one.
Qed.

Lemma build_tables_spec descriptors : forall next built built' next',
  build_tables next descriptors encodings validate built = Ok (built', next') ->
  exists new, built' = new ++ built /\ Forall2 (fun d p => fst p = td_name d /\ table_of d (snd p)) (rev descriptors) new /\
    fresh_ids next next' (db_trees new).
Proof.
  induction descriptors as [|d descriptors IH]; cbn [build_tables]; intros next built built' next' H.
  - injection H as <- <-. exists []. split; [reflexivity|]. split; [constructor | apply fresh_ids_nil].
  - destruct (TableInner_build next d encodings validate) as [[tb n]|e] eqn:Hb; [|discriminate]. cbn in H.
    apply TableInner_build_spec in Hb as [Ht Hid]. apply IH in H as (new & -> & Hf & Hids).
    exists (new ++ [(td_name d, tb)]). split; [now rewrite <- app_assoc|]. split.
    + cbn [rev]. apply Forall2_app; [exact Hf|]. constructor; [auto | constructor].
    + unfold db_trees. rewrite map_app, concat_app. eapply fresh_ids_app; [|exact Hids]. cbn. now rewrite app_nil_r.
Qed.
End Handles.

(** * Opening *)

Section Opening.
Context (alloc : StdAlloc) (lay : Layout) (zstd : option PageFilter) (vec_capacity : Z -> Z) (data : list byte) (o : OpenOptions).

(** Options and layouts of machine words. *)
Record options_ok : Prop := {
  oo_budget : 0 <= oo_memory_budget o <= u64_max;
  oo_catalog : 0 <= max_catalog_bytes (oo_limits o) <= u64_max;
  oo_probe id f : FilterRegistry_resolve zstd (oo_filters o) id = Ok f -> 0 <= pf_probe_bytes f;
  oo_sizes : Catalog.sizes_ok (lay_catalog lay);
  oo_shard : 0 <= size_of_Shard lay;
}.

Record opened (next : Z) (db : Database) (s : Store) (next' : Z) : Prop := {
  op_catalog : catalog_of lay data (db_catalog db);
  op_names : catalog_wf (db_catalog db);
  op_config : exists filter, open_filter zstd o (db_catalog db) = Ok filter /\ db_config db = mkConfig alloc data filter (oo_limits o)
    (cat_directory_position (db_catalog db)) (cat_page_count (db_catalog db)) vec_capacity;
  op_fits : config_fits (db_config db);
  op_end : cat_descriptor_end (db_catalog db) <= cat_directory_position (db_catalog db);
  op_table d : d ∈ cat_tables (db_catalog db) ->
    exists tb, db_table db (td_name d) = Ok tb /\ table_of (oo_encodings o) (oo_validate_digests o) d tb;
  op_other name : (forall d, d ∈ cat_tables (db_catalog db) -> td_name d <> name) -> db_table db name = Err Error_invalid;
  op_ids : fresh_ids next next' (db_trees (db_tables db));
  op_trees Hfits t : t ∈ db_trees (db_tables db) -> tree_inv (SL := Open_laws (db_config db) Hfits) t (mkOpen s);
  op_catalog_charge : ch_bytes (db_catalog_charge db) =
    catalog_cost (lay_catalog lay) (cat_filters (db_catalog db)) (cat_tables (db_catalog db)) + handle_footprint (lay_catalog lay) (db_catalog db);
  op_accounted : accounted (ch_bytes (db_catalog_charge db) + ch_bytes (db_store_charge db)) s;
}.

Context (Hok : options_ok) (Hdata : zlen data < 2 ^ 63).
Abbreviation limit := (oo_memory_budget o).

Lemma saturating_add_nonneg a b : 0 <= a -> 0 <= b -> 0 <= saturating_add a b.
Proof. unfold saturating_add, usize_max. lia. Qed.
Lemma saturating_mul_nonneg a b : 0 <= a -> 0 <= b -> 0 <= saturating_mul a b.
Proof. unfold saturating_mul, usize_max. nia. Qed.

Lemma bookkeeping_bytes_nonneg shards : 0 <= shards -> 0 <= bookkeeping_bytes lay shards.
Proof.
  intros H. unfold bookkeeping_bytes. apply saturating_add_nonneg; [|discriminate]. apply saturating_mul_nonneg; [exact H | apply Hok].
Qed.

Lemma halve_shards_pos fuel affordable shards : 0 < shards -> 0 < halve_shards fuel lay affordable shards.
Proof.
  revert shards. induction fuel as [|fuel IH]; intros shards Hs; cbn [halve_shards]; [exact Hs|].
  destruct (Z.ltb_spec 1 shards); cbn [andb]; [|exact Hs]. destruct (_ <? _); [|exact Hs]. apply IH. apply Z.div_str_pos. lia.
Qed.

Lemma foldl_nonneg {A} (f : Z -> A -> Z) l : (forall n x, 0 <= n -> 0 <= f n x) -> forall n, 0 <= n -> 0 <= foldl f n l.
Proof. intros Hf. induction l as [|x l IH]; cbn; intros n Hn; auto. Qed.

Lemma index_copy_bytes_nonneg d : 0 <= index_copy_bytes d.
Proof. unfold index_copy_bytes, BUFFER_OVERHEAD, zlen. lia. Qed.

Lemma handle_footprint_nonneg c : 0 <= handle_footprint (lay_catalog lay) c.
Proof.
  assert (0 <= size_of_IndexDescriptor (lay_catalog lay)) as Hsize by apply (oo_sizes Hok).
  assert (0 <= descriptor_copy_bytes (lay_catalog lay) c) as Hd.
  { apply foldl_nonneg; [|lia]. intros n t Hn. unfold table_copy_bytes. apply foldl_nonneg.
    - intros m d Hm. apply saturating_add_nonneg; [exact Hm | apply index_copy_bytes_nonneg].
    - repeat apply saturating_add_nonneg; try discriminate; [exact Hn | apply zlen_nonneg | apply index_copy_bytes_nonneg|].
      apply saturating_mul_nonneg; [exact Hsize | apply zlen_nonneg]. }
  unfold handle_footprint. apply saturating_add_nonneg; apply saturating_mul_nonneg; try discriminate; [exact Hd|].
  apply saturating_add_nonneg; [|discriminate]. apply Z.add_nonneg_nonneg; [apply zlen_nonneg|].
  induction (cat_tables c) as [|t ts IH]; cbn; [lia|]. pose proof (zlen_nonneg (td_secondaries t)). lia.
Qed.

Lemma opens_header u : 0 <= u <= limit ->
  opens limit u (read_header data) (fun h v => Header_parse (slice data 0 HEADER_LEN) = Ok h /\ v = u).
Proof.
  intros Hu. unfold read_header. eapply opens_bind; [apply opens_read; unfold HEADER_LEN, u64_max; lia|]. intros bytes v [-> ->] _.
  eapply opens_bind; [apply opens_refuse; lia|]. intros _ v [_ ->] _. now apply opens_fails.
Qed.

Lemma opens_check_filter u c f : 0 <= u <= limit -> 0 <= pf_probe_bytes f ->
  opens limit u (check_filter o c f) (fun _ v => v = u).
Proof.
  intros Hu Hf b reads Hl <-. unfold check_filter, Budget_try_reserve, sbind. cbn [fst snd]. pose proof (oo_budget Hok).
  destruct (Budget_take_spec (pf_probe_bytes f) b Hf) as [[Hle ->]|[Hgt ->]]; [lia.. | |]; cbn; [|eauto].
  destruct (_ <? _); [eauto|]. cbn. unfold wrap, u64_max in *. rewrite Z.mod_small by lia. lia.
Qed.

Lemma shard_count_pos n : 0 < shard_count n.
Proof. apply Z.pow_pos_nonneg; [reflexivity | apply Z.log2_up_nonneg]. Qed.

(** A store just set up is accounted for by what was reserved before it. *)
Lemma new_store_accounted b capacity shards base count entries chunks reads env n :
  b_used b = n -> 0 <= n -> b_used b <= b_limit b <= u64_max ->
  accounted n (PageStore_new (mkMem b ∅) (PageCache_new capacity shards) (PageDirectory_new base count entries chunks) reads env).
Proof.
  intros Hu Hn Hb. pose proof (shard_count_pos shards) as Hs.
  assert (cache_bytes (PageCache_new capacity shards) = 0) as Hcb.
  { unfold cache_bytes, PageCache_new. cbn [pc_shards]. induction (Z.to_nat (shard_count shards)) as [|k IH]; [reflexivity|]. exact IH. }
  split; [| cbn -[shard_count]; rewrite length_replicate; lia | | constructor | reflexivity || (vm_compute; discriminate) | exact Hn | cbn; lia].
  - split; cbn -[PageCache_new]; [| lia | | exact Hb | intros b'; now rewrite lookup_empty].
    + rewrite Hcb, Hu. reflexivity.
    + intros b' bf. now rewrite lookup_empty.
  - intros i sh H. apply lookup_replicate_1 in H as [-> _]. split; vm_compute; discriminate.
Qed.

Lemma open_spec size next env : size = None \/ size = Some (zlen data) -> 1 <= next -> 
  opens limit 0 (open_run alloc lay zstd vec_capacity data o size next env)
    (fun r _ => opened next (fst (fst r)) (snd (fst r)) (snd r)).
Proof.
  intros Hsize Hnext. pose proof (oo_budget Hok) as Hlimit. unfold open_run.
  eapply opens_bind; [apply opens_header; lia|]. intros h v [Hh ->] _.
  eapply opens_bind; [apply opens_refuse; lia|]. intros _ v [_ ->] _.
  eapply opens_bind; [eapply (opens_catalog lay data limit); [apply Hlimit | apply Hok | exact Hdata | apply Hok | lia]|].
  intros [charge c] v (Hwf & Hcost & Hc0 & Hv & b0 & Hcov & Hparse) Hv0. cbn [fst snd] in *. subst v.
  eapply opens_bind; [apply opens_fails; lia|]. intros file_size v [Hfs ->] _.
  eapply opens_bind; [apply opens_fails; lia|]. intros [dir_start dir_end] v [Hspan ->] _.
  eapply opens_bind; [apply opens_refuse; lia|]. intros _ v [Hend%Z.ltb_ge ->] _.
  eapply opens_bind; [apply opens_refuse; lia|]. intros _ v [Hdesc%Z.ltb_ge ->] _.
  eapply opens_bind; [apply opens_fails; lia|]. intros filter v [Hfilter ->] _.
  eapply (opens_bind _ _ _ _ (fun _ v => v = 0 + ch_bytes charge)).
  { destruct filter as [f|]; [|now apply opens_ret]. apply opens_check_filter; [lia|].
    unfold open_filter in Hfilter. destruct (cat_filters c) as [|id [|]]; [discriminate | | discriminate].
    destruct (FilterRegistry_resolve _ _ id) as [f'|] eqn:Hr; [|discriminate]. injection Hfilter as <-. exact (oo_probe Hok id f' Hr). }
  intros _ v -> _. cbv zeta.
  assert (0 <= bookkeeping_bytes lay (affordable_shards lay (oo_cache_shards o) limit)) as Hbook.
  { apply bookkeeping_bytes_nonneg, Z.lt_le_incl, halve_shards_pos, shard_count_pos. }
  eapply opens_bind; [apply opens_reserve; [apply Hlimit | lia | exact Hbook]|].
  intros store_charge v [Hsc ->] Hv1.
  eapply opens_bind; [apply opens_grow; [apply Hlimit | lia.. | apply handle_footprint_nonneg]|]. intros charge' v [Hc' ->] Hv2.
  eapply opens_bind; [apply opens_fails; lia|]. intros [tables next'] v [Hb ->] _.
  intros b reads Hl Hu. cbn [sbind sget sret]. split; [exact Hl|]. split; [lia|]. cbn [fst snd].
  apply build_tables_spec in Hb as (new & E & Hnew & Hids). rewrite app_nil_r in E. subst new. destruct Hwf as [Hwf Hnd].
  pose proof (Header_parse_inv _ _ Hh) as [Hhw _]. destruct (parse _ data _ _ _ _ _ b0) as [r b1] eqn:Hp. cbn in Hparse. subst r.
  apply parse_fields in Hp as Hfields. destruct Hfields as (Hf1 & Hf2 & Hf3).
  assert (dir_start = cat_directory_position c /\ dir_end = cat_directory_position c + cat_page_count c * DIRECTORY_SLOT_LEN) as [-> ->].
  { unfold Header_directory_span in Hspan. inv_ok. unfold checked_mul, checked_add in *. repeat case_match; simplify_eq/=. auto. }
  assert (file_size = zlen data) as -> by (destruct Hsize as [->| ->]; [discriminate | now injection Hfs]).
  assert (dir_fits data (cat_directory_position c) (cat_page_count c)) as Hfits.
  { destruct Hhw. split; [rewrite Hf3; lia | rewrite Hf2; lia | exact Hend | exact Hdata]. }
  split; cbn [db_catalog db_config db_tables db_catalog_charge db_store_charge].
  - exists h, b0. rewrite Hp. split_and!; auto.
  - now split.
  - eauto.
  - exact Hfits.
  - exact Hdesc.
  - intros d Hd. destruct (built_by_name td_name _ _ _ d Hnew Hnd Hd) as (tb & Htb & H). exists tb. unfold db_table. cbn [db_tables]. now rewrite Htb.
  - intros name Hno. unfold db_table, by_name. cbn [db_tables]. destruct (List.find _ tables) as [p|] eqn:Hfind; [exfalso | reflexivity].
    apply find_some in Hfind as [Hin Heq%bool_decide_eq_true]. apply list_elem_of_In, list_elem_of_lookup in Hin as [k Hk].
    destruct (Forall2_lookup_r _ _ _ _ _ Hnew Hk) as (d & Hd & Hname & _). apply (Hno d); [|congruence].
    apply list_elem_of_In, in_rev, list_elem_of_In, list_elem_of_lookup. eauto.
  - exact Hids.
  - intros Hf t Ht. destruct Hids as (_ & _ & Hids). rewrite Forall_forall in Hids. specialize (Hids t Ht). split.
    + match goal with |- store_ok ?s => change (open_ok _ s) end. apply (PageStore_new_inv data filter).
    + intros b' v'. cbn. rewrite lookup_empty. cbn. lia.
    + intros pin Hpin. cbn in Hpin. discriminate.
  - lia.
  - apply new_store_accounted; lia.
Qed.

(** As a fact about the entry point. *)
Lemma open_source_opened size reads next env db s next' :
  size = None \/ size = Some (zlen data) -> 1 <= next ->
  open_source alloc lay zstd vec_capacity data o size reads next env = Ok (db, s, next') -> opened next db s next'.
Proof.
  intros Hsize Hnext. unfold open_source. pose proof (open_spec size next env Hsize Hnext (Budget_new limit) reads eq_refl eq_refl) as H.
  destruct (open_run _ _ _ _ _ _ _ _ _ _) as [[[[db0 s0] n0]|stop] [b reads']]; [|discriminate]. intros [= -> -> ->]. apply H.
Qed.

(** C12: whatever bytes a file holds, opening it fails with an error or yields a
    database that is the file's: the catalog is the one the whole file describes,
    however many rounds the descriptors took to read; names are unique and lead to
    handles with the root and the encoding their descriptor names, and other names
    to none; the page directory lies inside the file and behind the descriptors;
    every tree has an id no other tree has; the store starts in its invariant for
    each of them; and the budget counts exactly the catalog, the handles and the
    cache's shards.  The loop over the descriptors always ends. *)
Theorem open_source_correct size reads next env :
  size = None \/ size = Some (zlen data) -> 1 <= next ->
  match open_source alloc lay zstd vec_capacity data o size reads next env with
  | Ok (db, s, next') => opened next db s next'
  | Err stop => exists e, stop = Failed e
  end.
Proof.
  intros Hsize Hnext. unfold open_source. pose proof (open_spec size next env Hsize Hnext (Budget_new limit) reads eq_refl eq_refl) as H.
  destruct (open_run _ _ _ _ _ _ _ _ _ _) as [[[[db s] next']|stop] [b reads']]; [exact (proj2 (proj2 H)) | exact H].
Qed.

(** The trees of a handle are trees of the database. *)
Lemma db_table_tree db name tb t : db_table db name = Ok tb -> t ∈ table_trees tb -> t ∈ db_trees (db_tables db).
Proof.
  unfold db_table, by_name. destruct (List.find _ (db_tables db)) as [p|] eqn:Hfind; [|discriminate]. intros [= <-] Ht.
  apply find_some in Hfind as [Hp _]. apply list_elem_of_In, in_concat. exists (table_trees (snd p)).
  split; [now apply (in_map (fun p => table_trees (snd p))) | now apply list_elem_of_In].
Qed.

Section Opened.
Context (next : Z) (db : Database) (s : Store) (next' : Z) (Hop : opened next db s next') (Hnext : 1 <= next).

Lemma opened_tree_id t : t ∈ db_trees (db_tables db) -> 1 <= tree_id t.
Proof. intros Hin. destruct (op_ids _ _ _ _ Hop) as (_ & _ & Hids). rewrite Forall_forall in Hids. specialize (Hids _ Hin). lia. Qed.

(** Lookups in a database just opened. *)
Lemma opened_get tb : ti_primary tb ∈ db_trees (db_tables db) ->
  forall h root leaves {HL : LawfulEncoding (tree_encoding (ti_primary tb))} {HC : CheckableEncoding (tree_encoding (ti_primary tb))},
  well_formed (file := file_page (db_config db)) (page_count := cf_page_count (db_config db))
    (max_depth := limit_tree_depth (cf_limits (db_config db))) (ti_primary tb) h root leaves ->
  readable (file := file_page (db_config db)) leaves -> forall key,
  match fst (table_get tb key (mkOpen (cf := db_config db) s)) with
  | Ok r => answer_of (file := file_page (db_config db)) leaves key r
  | Err e => transient e \/ (e = Error_invalid /\ validate_key (tree_encoding (ti_primary tb)) key <> Ok tt)
  end.
Proof.
  intros Hin h root leaves HL HC Hwf Hread key. pose proof (op_fits _ _ _ _ Hop) as Hfits.
  destruct (table_get_spec (SL := Open_laws (db_config db) Hfits) tb (opened_tree_id _ Hin) h root leaves Hwf Hread key _ (op_trees _ _ _ _ Hop Hfits _ Hin)) as [_ H].
  destruct (fst _) as [r|e]; [exact H|]. destruct H as [He|He]; [left; exact (scan_error_transient _ Hfits e He) | now right].
Qed.
End Opened.

(** C4: a database that has been opened answers lookups as its file says.  For
    every table of the catalog whose tree is well formed in the file and whose
    values can be read, the handle found by name answers [get] with the bytes
    stored under the key, or with nothing when there is no entry; the only errors
    are I/O errors, refused reservations and bytes that are no key. *)
Theorem opened_table_lookup size reads next env db s next' d h root leaves :
  size = None \/ size = Some (zlen data) -> 1 <= next ->
  open_source alloc lay zstd vec_capacity data o size reads next env = Ok (db, s, next') ->
  d ∈ cat_tables (db_catalog db) ->
  exists tb, db_table db (td_name d) = Ok tb /\ tree_root (ti_primary tb) = id_root (td_primary d) /\
    forall (HL : LawfulEncoding (tree_encoding (ti_primary tb))) (HC : CheckableEncoding (tree_encoding (ti_primary tb))),
    well_formed (file := file_page (db_config db)) (page_count := cf_page_count (db_config db))
      (max_depth := limit_tree_depth (cf_limits (db_config db))) (ti_primary tb) h root leaves ->
    readable (file := file_page (db_config db)) leaves -> forall key,
    match fst (table_get tb key (mkOpen (cf := db_config db) s)) with
    | Ok r => answer_of (file := file_page (db_config db)) leaves key r
    | Err e => transient e \/ (e = Error_invalid /\ validate_key (tree_encoding (ti_primary tb)) key <> Ok tt)
    end.
Proof.
  intros Hsize Hnext Hopen Hd. pose proof (open_source_opened _ _ _ _ _ _ _ Hsize Hnext Hopen) as Hop.
  destruct (op_table _ _ _ _ Hop d Hd) as (tb & Htb & Hof). exists tb. split; [exact Htb|]. split; [apply Hof|]. intros HL HC.
  exact (opened_get _ _ _ _ Hop Hnext tb (db_table_tree _ _ _ _ Htb (list_elem_of_here _ _)) h root leaves).
Qed.
End Opening.

(** ** A file with one table *)

Definition open_layout : Layout := mkLayout (mkSizes 24 128 80 80) 128.
Definition ascii_index : IndexDescriptor :=
  mkIndexDescriptor [] true [Byte.x61; Byte.x73; Byte.x63; Byte.x69; Byte.x69] RawData (Some 0) 0.
Definition open_table : TableDescriptor := mkTableDescriptor [Byte.x74] ascii_index [].
Definition open_descriptors : list byte := catalog_bytes [] [open_table].
(** The header, the descriptors, one leaf and its slot in the directory. *)
Definition open_file : list byte :=
  Header_encode (mkHeader 1 4 0 4096 1 1 (26 + zlen open_descriptors + 45)) ++ open_descriptors ++ demo_leaf
  ++ i64_le (26 + zlen open_descriptors).
Definition open_options : OpenOptions := set_memory_budget (Z.shiftl 64 10) (set_cache_shards 16 (OpenOptions_default None)).
Definition open_reads : Reads := [ReadShort 7; ReadInterrupted].
Definition open_example : result Stop (Database * Store * Z) :=
  open_source doubling open_layout None (fun n => n) open_file open_options (Some (zlen open_file)) open_reads 1 [].

Lemma open_options_ok : options_ok open_layout None open_options.
Proof.
  split; [vm_compute; intuition discriminate.. | | vm_compute; intuition discriminate | vm_compute; discriminate].
  intros id f. vm_compute. discriminate.
Qed.

Lemma open_source_correct_witness :
  exists db s n, open_example = Ok (db, s, n) /\ opened doubling open_layout None (fun n => n) open_file open_options 1 db s n.
Proof.
  pose proof (open_source_correct doubling open_layout None (fun n => n) open_file open_options open_options_ok ltac:(vm_compute; reflexivity)
    (Some (zlen open_file)) open_reads 1 [] (or_intror eq_refl) ltac:(lia)) as H. fold open_example in H.
  assert (match open_example with Ok _ => true | _ => false end = true) as Hok by (vm_compute; reflexivity).
  destruct open_example as [[[db s] n]|]; [|discriminate Hok]. eauto 10.
Defined.

Definition open_config : Config :=
  mkConfig doubling open_file None Limits_default (26 + zlen open_descriptors + 45) 1 (fun n => n).
Definition open_handle : TableInner := mkTableInner (place_table 26 open_table) demo_tree [].

Lemma open_example_db :
  match open_example with
  | Ok (db, _, _) => db_config db = open_config /\ cat_tables (db_catalog db) = [place_table 26 open_table] /\
      db_tables db = [(td_name open_table, open_handle)]
  | Err _ => False
  end.
Proof. vm_compute. auto. Qed.

Lemma opened_table_lookup_witness :
  exists db s n tb, open_example = Ok (db, s, n) /\ db_table db [Byte.x74] = Ok tb /\
    match fst (table_get tb [Byte.x62] (mkOpen (cf := db_config db) s)) with
    | Ok r => answer_of (file := file_page (db_config db)) demo_leaves [Byte.x62] r
    | Err e => transient e \/ (e = Error_invalid /\ validate_key (tree_encoding (ti_primary tb)) [Byte.x62] <> Ok tt)
    end.
Proof.
  pose proof (opened_table_lookup doubling open_layout None (fun n => n) open_file open_options open_options_ok ltac:(vm_compute; reflexivity)
    (Some (zlen open_file)) open_reads 1 []) as H. fold open_example in H.
  pose proof open_example_db as Hdb. destruct open_example as [[[db s] n]|]; [|contradiction Hdb]. destruct Hdb as (Hcf & Hcat & Htab).
  destruct (H db s n (place_table 26 open_table) 0%nat 0 demo_leaves (or_intror eq_refl) ltac:(lia) eq_refl) as (tb & Htb & _ & Hget).
  { rewrite Hcat. left. }
  exists db, s, n, tb. split; [reflexivity|]. split; [exact Htb|]. unfold db_table, by_name in Htb. rewrite Htab in Htb. injection Htb as <-.
  apply (Hget Ascii_lawful Ascii_checkable); [|apply demo_readable]. rewrite Hcf. apply demo_wf_in. vm_compute. reflexivity.
Defined.

(** The whole of it on the example: the value is found. *)
Example open_and_get :
  match open_example with
  | Ok (db, s, _) =>
      match db_table db [Byte.x74] with
      | Ok tb => is_ok (fst (table_get tb [Byte.x62] (mkOpen (cf := db_config db) s)))
      | Err _ => false
      end
  | Err _ => false
  end = true.
Proof. vm_compute. reflexivity. Qed.

(** A file one byte short of its directory is refused. *)
Example open_truncated :
  open_source doubling open_layout None (fun n => n) (take 104 open_file) open_options (Some 104) [] 1 [] = Err (Failed Error_corrupt).
Proof. vm_compute. reflexivity. Qed.
