(* ===== verification/Effects.v ===== *)
(** Effects of the build path: file operations that can fail.

    The page writer is a cascade of calls that mutate shared state, write to a
    file and can fail at any write.  [IO T A] is such a computation over a
    [T]; the state also carries the schedule of the file operations that are
    going to fail, so every theorem covers every pattern of I/O errors.  [wp]
    is the logic the build path is verified in. *)

From Stdlib Require Import ZArith Lia.
From stdpp Require Import base list.
From coqutil Require Import Byte.
From S2P Require Import Prelude Errors.

#[local] Open Scope Z_scope.
#[local] Open Scope drydb_scope.

(** How a computation stops short: with an error, with a panic ([expect] and
    out of range indexing), or - in the model only - by running out of the fuel
    of a loop. *)
Inductive Stop : Set :=
| Failed (e : Error)
| Panicked
| OutOfFuel.

Definition IO (T A : Type) : Type := SM (T * list bool) Stop A.

(** One file operation: it fails when the schedule says so. *)
Definition io {T} (f : T -> T) : IO T unit := fun s =>
  match s with
  | (t, true :: faults) => (Err (Failed Error_io), (t, faults))
  | (t, faults) => (Ok tt, (f t, tail faults))
  end.

Definition here {T} : IO T T := fun s => (Ok (fst s), s).
Definition update {T} (f : T -> T) : IO T unit := fun s => (Ok tt, (f (fst s), snd s)).
Definition lift_result {T A} (m : Result A) : IO T A := lift (map_err Failed m).
Definition expect {T A} (o : option A) : IO T A := lift (ok_or o Panicked).

(** Run a computation on a part of the state. *)
Definition zoom {T U A} (get : T -> U) (set : U -> T -> T) (m : IO U A) : IO T A := fun s =>
  let '(r, (u, faults)) := m (get (fst s), snd s) in (r, (set u (fst s), faults)).

(** * Files *)

(** A file: its bytes and its cursor. *)
Record File : Type := mkFile { f_data : list byte; f_cursor : Z }.

Definition File_empty : File := mkFile [] 0.

(** Writing [bytes] at [offset]; a gap past the end reads as zeros. *)
Definition overwrite (data : list byte) (offset : Z) (bytes : list byte) : list byte :=
  take (Z.to_nat offset) data ++ replicate (Z.to_nat offset - length data) Byte.x00
  ++ bytes ++ drop (Z.to_nat offset + length bytes) data.

Definition file_seek (offset : Z) (f : File) : File := mkFile (f_data f) offset.

Definition file_write (bytes : list byte) (f : File) : File :=
  mkFile (overwrite (f_data f) (f_cursor f) bytes) (f_cursor f + zlen bytes).

(** [BufWriter<File>]: what does not fit in the buffer flushes it first, and
    what would fill it goes straight to the file. *)
Record BufWriter : Type := mkBufWriter {
  bw_inner : File;
  bw_buf : list byte;
  bw_capacity : Z;
}.

Definition bw_flush (w : BufWriter) : BufWriter :=
  mkBufWriter (file_write (bw_buf w) (bw_inner w)) [] (bw_capacity w).

Definition bw_write_all (bytes : list byte) (w : BufWriter) : BufWriter :=
  let w := if bw_capacity w <? zlen (bw_buf w) + zlen bytes then bw_flush w else w in
  if bw_capacity w <=? zlen bytes
  then mkBufWriter (file_write bytes (bw_inner w)) (bw_buf w) (bw_capacity w)
  else mkBufWriter (bw_inner w) (bw_buf w ++ bytes) (bw_capacity w).

Definition bw_get_mut (f : File -> File) (w : BufWriter) : BufWriter :=
  mkBufWriter (f (bw_inner w)) (bw_buf w) (bw_capacity w).

(** * Reasoning

    [wp m Q B t]: run from [t], whatever the faults, [m] either returns with
    [Q], or stops with an I/O error the schedule contains, or stops in [B]. *)

Definition wp {T A} (m : IO T A) (Q : A -> T -> Prop) (B : Stop -> Prop) (t : T) : Prop :=
  forall faults,
    match m (t, faults) with
    | (Ok a, (t', faults')) => Q a t' /\ (forall b, b ∈ faults' -> b ∈ faults)
    | (Err e, _) => (e = Failed Error_io /\ true ∈ faults) \/ B e
    end.

Section Wp.
Context {T : Type} (B : Stop -> Prop).

Lemma wp_ret {A} (a : A) Q (t : T) : Q a t -> wp (sret a) Q B t.
Proof. intros H faults; simpl; auto. Qed.

Lemma wp_fail {A} e (Q : A -> T -> Prop) t : B e -> wp (sfail e) Q B t.
Proof. intros H faults; simpl; auto. Qed.

Lemma wp_here (Q : T -> T -> Prop) t : Q t t -> wp here Q B t.
Proof. intros H faults; simpl; auto. Qed.

Lemma wp_update f (Q : unit -> T -> Prop) t : Q tt (f t) -> wp (update f) Q B t.
Proof. intros H faults; simpl; auto. Qed.

Lemma wp_io f (Q : unit -> T -> Prop) t : Q tt (f t) -> wp (io f) Q B t.
Proof.
  intros H [|[] faults]; simpl; split_and?; auto.
  - left. split; [reflexivity | left].
  - intros b Hb; now right.
Qed.

Lemma wp_bind {A C} (m : IO T A) (k : A -> IO T C) Q t :
  wp m (fun a t' => wp (k a) Q B t') B t -> wp (sbind m k) Q B t.
Proof.
  intros H faults. specialize (H faults). unfold sbind.
  destruct (m (t, faults)) as [[a|e] [t' faults']]; [|exact H].
  destruct H as [Hk Hsub]. specialize (Hk faults').
  destruct (k a (t', faults')) as [[c|e] [t'' faults'']]; intuition auto.
Qed.

Lemma wp_lift_result {A} (m : Result A) (Q : A -> T -> Prop) t :
  match m with Ok a => Q a t | Err e => B (Failed e) end -> wp (lift_result m) Q B t.
Proof. intros H faults. unfold lift_result, lift. destruct m; simpl; auto. Qed.

Lemma wp_expect {A} (o : option A) (Q : A -> T -> Prop) t :
  (exists a, o = Some a /\ Q a t) -> wp (expect o) Q B t.
Proof. intros (a & -> & H) faults; simpl; auto. Qed.

Lemma wp_zoom {U A} get set (m : IO U A) (Q : A -> T -> Prop) t :
  wp m (fun a u => Q a (set u t)) B (get t) -> wp (zoom get set m) Q B t.
Proof.
  intros H faults. specialize (H faults). unfold zoom; simpl.
  destruct (m (get t, faults)) as [[a|e] [u faults']]; exact H.
Qed.

Lemma wp_mono {A} (m : IO T A) (Q Q' : A -> T -> Prop) (B' : Stop -> Prop) t :
  wp m Q' B' t -> (forall a t', Q' a t' -> Q a t') -> (forall e, B' e -> B e) -> wp m Q B t.
Proof.
  intros H HQ HB faults. specialize (H faults).
  destruct (m (t, faults)) as [[a|e] [t' faults']]; intuition auto.
Qed.

Lemma wp_and {A} (m : IO T A) (Q Q' : A -> T -> Prop) (B' : Stop -> Prop) t :
  wp m Q B t -> wp m Q' B' t -> wp m (fun a t' => Q a t' /\ Q' a t') (fun e => B e /\ B' e) t.
Proof.
  intros H H' faults. specialize (H faults). specialize (H' faults).
  destruct (m (t, faults)) as [[a|e] [t' faults']]; intuition auto.
Qed.

Lemma wp_if {A} (b : bool) (m k : IO T A) Q t :
  (b = true -> wp m Q B t) -> (b = false -> wp k Q B t) -> wp (if b then m else k) Q B t.
Proof. destruct b; auto. Qed.
End Wp.

(** What [wp] says of a run without faults: it ends in [Q] or in [B]. *)
Lemma wp_no_faults {T A} (m : IO T A) Q B t :
  wp m Q B t ->
  match m (t, []) with
  | (Ok a, (t', _)) => Q a t'
  | (Err e, _) => B e
  end.
Proof.
  intros H. specialize (H []). destruct (m (t, [])) as [[a|e] [t' f]]; [now destruct H|].
  destruct H as [[_ Hf]|H]; [inversion Hf | exact H].
Qed.

(** [wp_run] takes the next step of a computation. *)
Ltac wp_step :=
  lazymatch goal with
  | |- wp (sbind _ _) _ _ _ => apply wp_bind
  | |- wp (sret _) _ _ _ => apply wp_ret
  | |- wp (sfail _) _ _ _ => apply wp_fail
  | |- wp here _ _ _ => apply wp_here
  | |- wp (update _) _ _ _ => apply wp_update
  | |- wp (io _) _ _ _ => apply wp_io
  | |- wp (if _ then _ else _) _ _ _ => apply wp_if; intros ?
  | |- wp (lift_result _) _ _ _ => apply wp_lift_result
  | |- wp (zoom _ _ _) _ _ _ => apply wp_zoom
  end.
Ltac wp_run := repeat wp_step.
