(* ===== verification/Sink.v ===== *)
(** The output file of a build, [crates/drydb/src/builder/sink.rs].

    A [PageSink] appends to a buffered file, patches bytes it has already
    written and collects the file offset of every page.  The file, the
    [BufWriter] in front of it and the temporary file of the directory spool
    are modelled down to their cursors, because the back patches and the spill
    are only right if every seek is undone.

    [SinkSpec] is the abstract contract: the bytes written so far and the list
    of page offsets.  Every operation refines it. *)

From Stdlib Require Import ZArith Lia.
From stdpp Require Import base list.
From coqutil Require Import Byte Word.LittleEndianList.
From S2P Require Import Prelude Errors Format Effects.

#[local] Open Scope Z_scope.
#[local] Open Scope drydb_scope.

(** * The page directory spool *)

Record DirectorySpool : Type := mkDirectorySpool {
  ds_buffer : list byte;
  ds_file : option File;
  ds_spilled_bytes : Z;
  ds_count : Z;
  ds_threshold : Z;
}.

Definition DirectorySpool_new (threshold : Z) : DirectorySpool :=
  mkDirectorySpool [] None 0 0 (Z.max threshold DIRECTORY_SLOT_LEN).

Definition ds_on_file (f : File -> File) (d : DirectorySpool) : DirectorySpool :=
  mkDirectorySpool (ds_buffer d) (f <$> ds_file d) (ds_spilled_bytes d) (ds_count d)
    (ds_threshold d).

Definition DirectorySpool_spill : IO DirectorySpool unit :=
  let! this := here in
  if zlen (ds_buffer this) =? 0 then sret tt
  else
    let! _ := match ds_file this with
              | None => io (fun d => mkDirectorySpool (ds_buffer d) (Some File_empty)
                                       (ds_spilled_bytes d) (ds_count d) (ds_threshold d))
              | Some _ => sret tt
              end in
    let! _ := io (fun d => ds_on_file (file_seek (ds_spilled_bytes d)) d) in
    let! _ := io (fun d => ds_on_file (file_write (ds_buffer d)) d) in
    update (fun d => mkDirectorySpool [] (ds_file d) (ds_spilled_bytes d + zlen (ds_buffer d))
                       (ds_count d) (ds_threshold d)).

Definition DirectorySpool_push (offset : Z) : IO DirectorySpool PageOrdinal :=
  let! this := here in
  fail! i32_max <=? ds_count this with Failed (Error_new ValueTooLarge) in
  let ordinal := ds_count this in
  let! _ := update (fun d => mkDirectorySpool (ds_buffer d ++ i64_le offset) (ds_file d)
                               (ds_spilled_bytes d) (ds_count d + 1) (ds_threshold d)) in
  let! this := here in
  let! _ := if ds_threshold this <=? zlen (ds_buffer this)
            then DirectorySpool_spill else sret tt in
  sret ordinal.

(** * The sink *)

Record PageSink : Type := mkPageSink {
  sk_writer : BufWriter;
  sk_pos : Z;
  sk_filter : option (list byte -> Result (list byte));
  sk_directory : DirectorySpool;
}.

Definition sk_on_writer (f : BufWriter -> BufWriter) (s : PageSink) : PageSink :=
  mkPageSink (f (sk_writer s)) (sk_pos s) (sk_filter s) (sk_directory s).

Definition sk_advance (n : Z) (s : PageSink) : PageSink :=
  mkPageSink (sk_writer s) (sk_pos s + n) (sk_filter s) (sk_directory s).

Definition sk_set_directory (d : DirectorySpool) (s : PageSink) : PageSink :=
  mkPageSink (sk_writer s) (sk_pos s) (sk_filter s) d.

Definition PageSink_new (filter : option (list byte -> Result (list byte)))
    (directory : DirectorySpool) : PageSink :=
  mkPageSink (mkBufWriter File_empty [] (Z.shiftl 1 20)) 0 filter directory.

Definition write_raw (bytes : list byte) : IO PageSink unit :=
  let! _ := io (sk_on_writer (bw_write_all bytes)) in
  update (sk_advance (zlen bytes)).

Definition begin_page : IO PageSink (PageOrdinal * Z) :=
  let! this := here in
  let offset := sk_pos this in
  let! ordinal := zoom sk_directory sk_set_directory (DirectorySpool_push offset) in
  sret (ordinal, offset).

Definition write_page (page : list byte) : IO PageSink unit :=
  let! this := here in
  match sk_filter this with
  | None => write_raw page
  | Some encode =>
      let! payload := lift_result (encode (drop (Z.to_nat PAGE_PREFIX_LEN) page)) in
      let! sum := lift_result (ok_or (checked_add PAGE_PREFIX_LEN (zlen payload))
                              (Error_new ValueTooLarge)) in
      fail! negb (sum <=? i32_max) with Failed (Error_new ValueTooLarge) in
      let prefix := splice (take (Z.to_nat PAGE_PREFIX_LEN) page) 0 (i32_le sum) in
      let! _ := write_raw prefix in
      write_raw payload
  end.

Definition patch_at (offset : Z) (bytes : list byte) : IO PageSink unit :=
  let! _ := io (sk_on_writer bw_flush) in
  let! this := here in
  let saved := sk_pos this in
  let! _ := io (sk_on_writer (bw_get_mut (file_seek offset))) in
  let! _ := io (sk_on_writer (bw_get_mut (file_write bytes))) in
  io (sk_on_writer (bw_get_mut (file_seek saved))).

Definition sink_flush : IO PageSink unit := io (sk_on_writer bw_flush).

(** The copy loop of [write_into] over the temporary file; [written] is the
    count of the [CountingWriter].  Every round moves at least a byte. *)
Fixpoint copy_spool (fuel : nat) (chunk remaining written : Z) (file : File) : IO PageSink Z :=
  match fuel with
  | O => sfail OutOfFuel
  | S fuel =>
      if 0 <? remaining then
        let want := Z.min chunk remaining in
        fail! zlen (f_data file) <? f_cursor file + want with Failed Error_io in
        let bytes := slice (f_data file) (f_cursor file) want in
        let! _ := io id in
        let! _ := io (sk_on_writer (bw_write_all bytes)) in
        copy_spool fuel chunk (remaining - want) (written + want)
          (file_seek (f_cursor file + want) file)
      else sret written
  end.

Definition SPOOL_CHUNK : Z := 256 * 1024.

Definition DirectorySpool_write_into (this : DirectorySpool) : IO PageSink Z :=
  let! written := match ds_file this with
                  | Some file =>
                      let! _ := io id in
                      copy_spool (S (Z.to_nat (ds_spilled_bytes this))) SPOOL_CHUNK
                        (ds_spilled_bytes this) 0 (file_seek 0 file)
                  | None => sret 0
                  end in
  let! _ := io (sk_on_writer (bw_write_all (ds_buffer this))) in
  sret (written + zlen (ds_buffer this)).

Definition finish_directory : IO PageSink (Z * Z) :=
  let! this := here in
  let offset := sk_pos this in
  let directory := sk_directory this in
  let! _ := update (sk_set_directory (DirectorySpool_new DIRECTORY_SLOT_LEN)) in
  let count := ds_count directory in
  let! written := DirectorySpool_write_into directory in
  let! _ := update (sk_advance written) in
  sret (offset, count).

(** * The contract

    [contents] is what the file will hold once the buffer is flushed. *)

Definition contents (w : BufWriter) : list byte :=
  overwrite (f_data (bw_inner w)) (f_cursor (bw_inner w)) (bw_buf w).

Definition directory_bytes (offsets : list Z) : list byte := concat (i64_le <$> offsets).

(** What a sink promises: the bytes written so far, and the page offsets. *)
Record SinkSpec : Type := mkSinkSpec { ss_bytes : list byte; ss_offsets : list Z }.

Record writer_at (w : BufWriter) (bytes : list byte) : Prop := {
  wa_contents : f_data (bw_inner w) ++ bw_buf w = bytes;
  wa_cursor : f_cursor (bw_inner w) = zlen (f_data (bw_inner w));
}.

Record spool_holds (d : DirectorySpool) (offsets : list Z) : Prop := {
  sh_bytes : default [] (f_data <$> ds_file d) ++ ds_buffer d = directory_bytes offsets;
  sh_spilled : ds_spilled_bytes d = zlen (default [] (f_data <$> ds_file d));
  sh_count : ds_count d = zlen offsets;
  sh_limit : zlen offsets <= i32_max;
}.

Record sink_holds (s : PageSink) (a : SinkSpec) : Prop := {
  so_writer : writer_at (sk_writer s) (ss_bytes a);
  so_pos : sk_pos s = zlen (ss_bytes a);
  so_directory : spool_holds (sk_directory s) (ss_offsets a);
}.

Lemma overwrite_end data bytes : overwrite data (zlen data) bytes = data ++ bytes.
Proof.
  unfold overwrite, zlen. rewrite Nat2Z.id, firstn_all, Nat.sub_diag. simpl.
  rewrite drop_ge by lia. now rewrite app_nil_r.
Qed.

Lemma overwrite_inside data offset bytes :
  0 <= offset -> offset + zlen bytes <= zlen data -> overwrite data offset bytes = splice data offset bytes.
Proof.
  unfold overwrite, splice, zlen. intros. now replace (Z.to_nat offset - length data)%nat with 0%nat by lia.
Qed.

Lemma writer_at_contents w bytes : writer_at w bytes -> contents w = bytes.
Proof. intros [<- Hc]. unfold contents. rewrite Hc. apply overwrite_end. Qed.

Lemma writer_at_flush w bytes :
  writer_at w bytes -> writer_at (bw_flush w) bytes /\ bw_buf (bw_flush w) = [].
Proof.
  intros [<- Hc]. split; [|reflexivity]. unfold bw_flush, file_write; constructor; simpl.
  - now rewrite Hc, overwrite_end, app_nil_r.
  - rewrite Hc, overwrite_end, zlen_app. lia.
Qed.

Lemma writer_at_write w bytes more :
  writer_at w bytes -> writer_at (bw_write_all more w) (bytes ++ more).
Proof.
  intros Hw. unfold bw_write_all.
  set (w' := if _ <? _ then bw_flush w else w).
  assert (writer_at w' bytes /\ (bw_buf w' = [] \/ zlen (bw_buf w') + zlen more <= bw_capacity w'))
    as [[<- Hc] Hb].
  { unfold w'. destruct (Z.ltb_spec (bw_capacity w) (zlen (bw_buf w) + zlen more)).
    - apply writer_at_flush in Hw as [? ?]. auto.
    - auto. }
  destruct (Z.leb_spec (bw_capacity w') (zlen more)).
  - assert (bw_buf w' = []) as Hnil.
    { destruct Hb as [Hb|Hb]; [exact Hb|]. apply nil_length_inv. unfold zlen in *. lia. }
    unfold file_write; constructor; simpl; rewrite Hc, overwrite_end, ?Hnil, ?app_nil_r; [reflexivity|].
    rewrite zlen_app. lia.
  - constructor; simpl; [now rewrite app_assoc | exact Hc].
Qed.

Lemma writer_at_patch w bytes offset new :
  0 <= offset -> offset + zlen new <= zlen bytes -> writer_at w bytes -> bw_buf w = [] ->
  writer_at (bw_get_mut (file_seek (zlen bytes))
               (bw_get_mut (file_write new) (bw_get_mut (file_seek offset) w)))
    (splice bytes offset new).
Proof.
  intros Ho Hn [<- Hc] Hb. rewrite Hb, app_nil_r in *. constructor; simpl.
  - rewrite Hb, app_nil_r. apply overwrite_inside; assumption.
  - rewrite overwrite_inside, zlen_splice by assumption. reflexivity.
Qed.

(** * The spool *)

Lemma zlen_directory_bytes offsets : zlen (directory_bytes offsets) = 8 * zlen offsets.
Proof.
  unfold directory_bytes. induction offsets as [|o offsets IH]; [reflexivity|].
  rewrite fmap_cons. simpl concat. rewrite zlen_app, zlen_i64_le, zlen_cons, IH. lia.
Qed.

Lemma directory_bytes_snoc offsets o :
  directory_bytes (offsets ++ [o]) = directory_bytes offsets ++ i64_le o.
Proof. unfold directory_bytes. rewrite fmap_app, concat_app. simpl. now rewrite app_nil_r. Qed.

(** Only I/O errors and the page count limit stop a sink. *)
Definition too_large (e : Stop) : Prop := e = Failed (Error_new ValueTooLarge).
Definition never (e : Stop) : Prop := False.

Lemma spill_ok d offsets B :
  spool_holds d offsets ->
  wp DirectorySpool_spill (fun _ d' => spool_holds d' offsets) B d.
Proof.
  intros [Hb Hs Hc Hl]. unfold DirectorySpool_spill. wp_run; [constructor; assumption|].
  destruct (ds_file d) as [f|] eqn:Hf; wp_run; constructor; simpl in *; rewrite ?Hf in *; simpl in *;
    rewrite ?app_nil_r; try assumption.
  - rewrite Hs, overwrite_end. exact Hb.
  - rewrite Hs, overwrite_end, zlen_app. reflexivity.
  - rewrite Hs, overwrite_end. exact Hb.
  - rewrite Hs, overwrite_end. reflexivity.
Qed.

Lemma spool_push_ok d offsets o :
  spool_holds d offsets ->
  wp (DirectorySpool_push o)
    (fun p d' => p = zlen offsets /\ 0 <= p < i32_max /\ spool_holds d' (offsets ++ [o]))
    too_large d.
Proof.
  intros [Hb Hs Hc Hl].
  assert (spool_holds (mkDirectorySpool (ds_buffer d ++ i64_le o) (ds_file d)
    (ds_spilled_bytes d) (ds_count d + 1) (ds_threshold d)) (offsets ++ [o]) \/
    i32_max <= ds_count d) as Hd.
  { destruct (Z.le_gt_cases i32_max (ds_count d)); [now right|left]. constructor; simpl.
    - now rewrite directory_bytes_snoc, app_assoc, Hb.
    - exact Hs.
    - rewrite zlen_app, Hc. reflexivity.
    - rewrite zlen_app. change (zlen [o]) with 1. lia. }
  pose proof (zlen_nonneg offsets).
  unfold DirectorySpool_push. wp_run; [reflexivity| |].
  all: destruct Hd as [Hd|Hd]; [|lia].
  - eapply wp_mono; [eapply spill_ok; exact Hd| |intros e He; exact He].
    intros [] d' Hd'. wp_run. split_and?; lia || assumption.
  - split_and?; lia || assumption.
Qed.

(** * Every operation refines the contract *)

(** The bytes a page takes in the file. *)
Definition stored_page (filter : option (list byte -> Result (list byte))) (page : list byte)
    : Result (list byte) :=
  match filter with
  | None => Ok page
  | Some encode =>
      let? payload := encode (drop (Z.to_nat PAGE_PREFIX_LEN) page) in
      fail? i32_max <? PAGE_PREFIX_LEN + zlen payload with Error_new ValueTooLarge in
      Ok (splice (take (Z.to_nat PAGE_PREFIX_LEN) page) 0 (i32_le (PAGE_PREFIX_LEN + zlen payload))
          ++ payload)
  end.

(** [refines m s a Q B]: from [s], which holds [a], [m] returns with what [Q]
    says of the result and of the new contract state, or stops in [B]. *)
Definition refines {A} (m : IO PageSink A) (s : PageSink) (Q : A -> SinkSpec -> Prop)
    (B : Stop -> Prop) : Prop :=
  wp m (fun r s' => exists a', Q r a' /\ sink_holds s' a' /\ sk_filter s' = sk_filter s) B s.

Section Operations.
Context (s : PageSink) (a : SinkSpec) (Hs : sink_holds s a).

Lemma write_raw_refines bytes B :
  refines (write_raw bytes) s
    (fun _ a' => a' = mkSinkSpec (ss_bytes a ++ bytes) (ss_offsets a)) B.
Proof.
  destruct Hs as [Hw Hp Hd]. unfold refines, write_raw. wp_run. eexists. split; [reflexivity|].
  split; [|reflexivity]. constructor; simpl.
  - now apply writer_at_write.
  - rewrite Hp, zlen_app. reflexivity.
  - exact Hd.
Qed.

Lemma begin_page_refines :
  refines begin_page s
    (fun r a' => r = (zlen (ss_offsets a), zlen (ss_bytes a)) /\ fst r < i32_max /\
      a' = mkSinkSpec (ss_bytes a) (ss_offsets a ++ [zlen (ss_bytes a)])) too_large.
Proof.
  destruct Hs as [Hw Hp Hd]. unfold refines, begin_page. wp_run.
  eapply wp_mono; [eapply spool_push_ok; exact Hd| |intros e He; exact He].
  intros p d' (-> & Hr & Hd'). wp_run. rewrite Hp in *. eexists. split_and!; try reflexivity.
  - simpl. lia.
  - constructor; assumption.
Qed.

Lemma flush_refines B : refines sink_flush s (fun _ a' => a' = a) B.
Proof.
  destruct Hs as [Hw Hp Hd]. unfold refines, sink_flush. wp_run. exists a.
  split_and!; try reflexivity. constructor; simpl; [|assumption..]. now apply writer_at_flush.
Qed.

Lemma patch_at_refines offset bytes B :
  0 <= offset -> offset + zlen bytes <= zlen (ss_bytes a) ->
  refines (patch_at offset bytes) s
    (fun _ a' => a' = mkSinkSpec (splice (ss_bytes a) offset bytes) (ss_offsets a)) B.
Proof.
  intros Ho Hn. destruct Hs as [Hw Hp Hd]. unfold refines, patch_at. wp_run.
  eexists. split; [reflexivity|]. split; [|reflexivity]. constructor; simpl.
  - rewrite Hp. apply writer_at_flush in Hw as [Hw Hb]. now apply writer_at_patch.
  - now rewrite zlen_splice.
  - exact Hd.
Qed.
End Operations.

Lemma write_page_refines s a page :
  sink_holds s a -> zlen page <= usize_max ->
  refines (write_page page) s
    (fun _ a' => exists stored, stored_page (sk_filter s) page = Ok stored /\
      a' = mkSinkSpec (ss_bytes a ++ stored) (ss_offsets a))
    (fun e => exists e', e = Failed e' /\ stored_page (sk_filter s) page = Err e').
Proof.
  intros Hs Hl. unfold refines, write_page. wp_run. destruct (sk_filter s) as [encode|] eqn:Hf; simpl.
  2:{ eapply wp_mono; [eapply (write_raw_refines s a Hs)| |intros e He; exact He].
      intros [] s' (a' & -> & Hs' & Hf'). rewrite Hf in Hf'. eauto 6. }
  wp_run. destruct (encode _) as [payload|e] eqn:He; simpl; [|eauto].
  wp_run. unfold checked_add.
  destruct (Z.leb_spec (PAGE_PREFIX_LEN + zlen payload) usize_max) as [Hu|Hu]; simpl.
  2:{ eexists; split; [reflexivity|]. destruct (Z.ltb_spec i32_max (PAGE_PREFIX_LEN + zlen payload)); fmt_lia || reflexivity. }
  wp_run.
  { eexists; split; [reflexivity|]. apply negb_true_iff in H.
    destruct (Z.ltb_spec i32_max (PAGE_PREFIX_LEN + zlen payload)); lia || reflexivity. }
  apply negb_false_iff in H.
  eapply wp_mono; [eapply (write_raw_refines s a Hs)| |intros e He'; exact He'].
  intros [] s1 (a1 & -> & Hs1 & Hf1).
  eapply wp_mono; [eapply (write_raw_refines s1 _ Hs1)| |intros e He'; exact He'].
  intros [] s2 (a2 & -> & Hs2 & Hf2). simpl in *. eexists. split; [|split; [exact Hs2|congruence]].
  destruct (Z.ltb_spec i32_max (PAGE_PREFIX_LEN + zlen payload)); [lia|].
  eexists. split; [reflexivity|]. now rewrite app_assoc.
Qed.

(** ** The directory section *)

Lemma copy_spool_ok fuel chunk remaining written file s bytes B :
  0 < chunk -> 0 <= remaining < Z.of_nat fuel -> 0 <= f_cursor file ->
  f_cursor file + remaining = zlen (f_data file) -> writer_at (sk_writer s) bytes ->
  wp (copy_spool fuel chunk remaining written file)
    (fun r s' => r = written + remaining /\
      writer_at (sk_writer s') (bytes ++ drop (Z.to_nat (f_cursor file)) (f_data file)) /\
      sk_pos s' = sk_pos s /\ sk_filter s' = sk_filter s /\ sk_directory s' = sk_directory s) B s.
Proof.
  intros Hch. revert remaining written file s bytes.
  induction fuel as [|fuel IH]; intros remaining written file s bytes Hr Hc Hd Hw; [lia|].
  cbn [copy_spool]. wp_run; bool_lia || idtac.
  2:{ split_and!; try reflexivity; [lia|].
      rewrite drop_ge by (unfold zlen in *; lia). now rewrite app_nil_r. }
  set (want := Z.min chunk remaining).
  eapply wp_mono; [apply IH with (bytes := bytes ++ slice (f_data file) (f_cursor file) want)
    | |intros e He; exact He]; simpl.
  - lia.
  - lia.
  - lia.
  - now apply writer_at_write.
  - intros r s' (-> & Hw' & ? & ? & ?). simpl in *. split_and!; try assumption; [lia|].
    rewrite <- app_assoc in Hw'. unfold slice in Hw'. rewrite Z2Nat.inj_add in Hw' by lia.
    rewrite <- drop_drop, take_drop in Hw'. exact Hw'.
Qed.

Lemma finish_directory_refines s a B :
  sink_holds s a ->
  refines finish_directory s
    (fun r a' => r = (zlen (ss_bytes a), zlen (ss_offsets a)) /\
      a' = mkSinkSpec (ss_bytes a ++ directory_bytes (ss_offsets a)) []) B.
Proof.
  intros [Hw Hp [Hb Hsp Hc Hl]]. unfold refines, finish_directory, DirectorySpool_write_into. wp_run.
  assert (spool_holds (DirectorySpool_new DIRECTORY_SLOT_LEN) []) as Hnew.
  { constructor; try reflexivity. rewrite zlen_nil. fmt_lia. }
  rewrite <- Hb. destruct (ds_file (sk_directory s)) as [f|] eqn:Hf; cbv beta iota; cbn in Hb, Hsp.
  - wp_run.
    eapply wp_mono; [apply copy_spool_ok with (bytes := ss_bytes a)| |intros e He; exact He]; simpl.
    + reflexivity.
    + pose proof (zlen_nonneg (f_data f)). lia.
    + lia.
    + lia.
    + exact Hw.
    + intros r s' (-> & Hw' & Hp' & Hf' & Hd'). wp_run. eexists. rewrite Hp, Hc. split_and!; try reflexivity.
      * constructor; simpl.
        -- rewrite app_assoc. apply writer_at_write. exact Hw'.
        -- rewrite Hp', Hp, Hsp, !zlen_app. simpl. lia.
        -- now rewrite Hd'.
      * exact Hf'.
  - wp_run. eexists. rewrite Hp, Hc. split_and!; try reflexivity. constructor; simpl.
    + now apply writer_at_write.
    + rewrite Hp, zlen_app. lia.
    + exact Hnew.
Qed.

(** C22: the sink refines its contract, whatever the spill threshold, the
    buffer capacity and the pattern of I/O errors: writes append, pages are
    numbered in order and their offsets recorded, a back patch replaces exactly
    its bytes and later writes still append, and the directory section is the
    offsets in order.  Without an I/O error an operation stops only when the
    page count or a page length would leave its 32-bit field, or when the
    filter refuses the page. *)
Theorem sink_refines_contract s a bytes page offset patch :
  sink_holds s a -> zlen page <= usize_max ->
  0 <= offset -> offset + zlen patch <= zlen (ss_bytes a) ->
  refines (write_raw bytes) s
    (fun _ a' => a' = mkSinkSpec (ss_bytes a ++ bytes) (ss_offsets a)) never /\
  refines begin_page s
    (fun r a' => r = (zlen (ss_offsets a), zlen (ss_bytes a)) /\ fst r < i32_max /\
      a' = mkSinkSpec (ss_bytes a) (ss_offsets a ++ [zlen (ss_bytes a)])) too_large /\
  refines (write_page page) s
    (fun _ a' => exists stored, stored_page (sk_filter s) page = Ok stored /\
      a' = mkSinkSpec (ss_bytes a ++ stored) (ss_offsets a))
    (fun e => exists e', e = Failed e' /\ stored_page (sk_filter s) page = Err e') /\
  refines (patch_at offset patch) s
    (fun _ a' => a' = mkSinkSpec (splice (ss_bytes a) offset patch) (ss_offsets a)) never /\
  refines sink_flush s (fun _ a' => a' = a) never /\
  refines finish_directory s
    (fun r a' => r = (zlen (ss_bytes a), zlen (ss_offsets a)) /\
      a' = mkSinkSpec (ss_bytes a ++ directory_bytes (ss_offsets a)) []) never.
Proof.
  intros Hs Hl Ho Hn. split_and!.
  - now apply write_raw_refines.
  - now apply begin_page_refines.
  - now apply write_page_refines.
  - now apply patch_at_refines.
  - now apply flush_refines.
  - now apply finish_directory_refines.
Qed.

(** A fresh sink holds nothing, so the contract covers every run from there. *)
Lemma PageSink_new_holds filter threshold :
  sink_holds (PageSink_new filter (DirectorySpool_new threshold)) (mkSinkSpec [] []).
Proof.
  constructor; [constructor; reflexivity | reflexivity |].
  constructor; try reflexivity. vm_compute. discriminate.
Qed.

(** Two page starts spilled at every push, a patch in between, and the section
    written back. *)
Definition sample_sink_run : IO PageSink (Z * Z) :=
  let! _ := write_raw [Byte.x01; Byte.x02; Byte.x03] in
  let! _ := begin_page in
  let! _ := write_raw [Byte.x04] in
  let! _ := patch_at 1 [Byte.xff] in
  let! _ := begin_page in
  finish_directory.

Definition sample_sink : PageSink := PageSink_new None (DirectorySpool_new 1).

Example sample_sink_run_result :
  let '(r, (s, _)) := sample_sink_run (sample_sink, []) in
  r = Ok (4, 2) /\ contents (sk_writer s) =
    [Byte.x01; Byte.xff; Byte.x03; Byte.x04] ++ directory_bytes [3; 4].
Proof. vm_compute. split; reflexivity. Qed.

Lemma sink_refines_contract_witness :
  refines (write_raw [Byte.x01]) sample_sink
    (fun _ a' => a' = mkSinkSpec [Byte.x01] []) never.
Proof.
  destruct (sink_refines_contract sample_sink (mkSinkSpec [] []) [Byte.x01] [] 0 []) as [H _].
  - apply PageSink_new_holds.
  - vm_compute. discriminate.
  - lia.
  - vm_compute. discriminate.
  - exact H.
Defined.
