(* ===== verification/SinkPages.v ===== *)
(** The file being built as a list of pages.

    Over the contract of [Sink] the output file is a head, whatever precedes the
    pages, and the pages in the order of their ordinals.  [laid] says so of a
    sink; each operation of a writer is then an operation on the list: a page is
    appended, or the sibling field of one of them is patched. *)

From Stdlib Require Import ZArith Lia.
From stdpp Require Import base list.
From coqutil Require Import Byte.
From S2P Require Import Prelude Errors Format Node Effects Sink.

#[local] Open Scope Z_scope.
#[local] Open Scope drydb_scope.

(** Runs that end: what they leave behind, whichever way they may stop. *)
Abbreviation anyhow := (fun _ : Stop => True).

Lemma wp_expect_known {T A} (o : option A) (Q : A -> T -> Prop) t :
  (forall a, o = Some a -> Q a t) -> wp (expect o) Q anyhow t.
Proof. intros H faults. destruct o; simpl; auto. Qed.

Lemma wp_lift_known {T A} (m : Result A) (Q : A -> T -> Prop) t :
  (forall a, m = Ok a -> Q a t) -> wp (lift_result m) Q anyhow t.
Proof. intros H. apply wp_lift_result. destruct m; auto. Qed.

Lemma wp_stop {T A} e (Q : A -> T -> Prop) t : wp (sfail e) Q anyhow t.
Proof. now apply wp_fail. Qed.

(** Where each of a list of byte strings starts. *)
Fixpoint starts (base : Z) (stored : list (list byte)) : list Z :=
  match stored with
  | [] => []
  | s :: stored => base :: starts (base + zlen s) stored
  end.

Lemma starts_snoc base stored s : starts base (stored ++ [s]) = starts base stored ++ [base + zlen (concat stored)].
Proof.
  revert base. induction stored as [|x stored IH]; intros base; simpl.
  - now rewrite zlen_nil, Z.add_0_r.
  - rewrite IH, zlen_app. do 3 f_equal. lia.
Qed.

Lemma length_starts base stored : length (starts base stored) = length stored.
Proof. revert base. induction stored; intros base; simpl; auto. Qed.

Lemma starts_lookup base stored i s :
  stored !! i = Some s -> starts base stored !! i = Some (base + zlen (concat (take i stored))).
Proof.
  revert base i. induction stored as [|x stored IH]; intros base [|i] H; simpl in *; try discriminate.
  - now rewrite zlen_nil, Z.add_0_r.
  - rewrite (IH _ _ H), zlen_app. f_equal. lia.
Qed.

(** Only the lengths matter. *)
Lemma starts_insert base stored i s s' :
  stored !! i = Some s -> zlen s' = zlen s -> starts base (<[i := s']> stored) = starts base stored.
Proof.
  revert base i. induction stored as [|x stored IH]; intros base [|i] H Hl; simpl in *; try discriminate.
  - injection H as ->. now rewrite Hl.
  - now rewrite IH.
Qed.

Lemma splice_app_r {A} (l k new : list A) off :
  zlen l <= off -> splice (l ++ k) off new = l ++ splice k (off - zlen l) new.
Proof.
  unfold splice, zlen. intros H. rewrite take_app_ge, drop_app_ge by lia. rewrite <- app_assoc.
  replace (Z.to_nat (off - Z.of_nat (length l))) with (Z.to_nat off - length l)%nat by lia.
  do 3 f_equal. f_equal. lia.
Qed.

Lemma splice_app_l {A} (l k new : list A) off :
  0 <= off -> off + zlen new <= zlen l -> splice (l ++ k) off new = splice l off new ++ k.
Proof.
  unfold splice, zlen. intros H0 H. rewrite take_app_le, drop_app_le by lia. now rewrite <- !app_assoc.
Qed.

(** A patch inside one of many. *)
Lemma splice_concat (stored : list (list byte)) i s off new :
  stored !! i = Some s -> 0 <= off -> off + zlen new <= zlen s ->
  splice (concat stored) (zlen (concat (take i stored)) + off) new = concat (<[i := splice s off new]> stored).
Proof.
  intros H H0 H1. rewrite <- (take_drop_middle _ _ _ H) at 1. rewrite insert_take_drop by (now apply lookup_lt_Some in H).
  rewrite !concat_app. cbn [concat]. rewrite splice_app_r by (pose proof (zlen_nonneg (concat (take i stored))); lia).
  replace (_ + off - _) with off by lia. now rewrite splice_app_l.
Qed.

Section Laid.
Context (filter : option (list byte -> Result (list byte))).

Lemma stored_prefix page stored :
  stored_page filter page = Ok stored -> PAGE_PREFIX_LEN <= zlen page -> PAGE_PREFIX_LEN <= zlen stored.
Proof.
  unfold stored_page. destruct filter as [encode|]; [|now intros [= ->]]. intros H Hp. inv_ok.
  rewrite zlen_app, zlen_splice; rewrite ?zlen_take by (unfold_consts; lia); rewrite ?zlen_i32_le; unfold_consts; try lia.
  pose proof (zlen_nonneg v). lia.
Qed.

(** The sibling field is stored as it is. *)
Lemma stored_page_link page stored r :
  stored_page filter page = Ok stored -> PAGE_PREFIX_LEN <= zlen page ->
  stored_page filter (splice page RIGHT_SIBLING_OFFSET (i64_le r)) = Ok (splice stored RIGHT_SIBLING_OFFSET (i64_le r)).
Proof.
  unfold stored_page. destruct filter as [encode|]; [|now intros [= ->]]. intros H Hp. inv_ok.
  assert (exists a b c d, page = a ++ b ++ c ++ d /\ zlen a = 4 /\ zlen b = 16 /\ zlen c = 8) as (a & b & c & d & -> & Ha & Hb & Hc).
  { exists (take 4 page), (take 16 (drop 4 page)), (take 8 (drop 20 page)), (drop 28 page).
    split; [|unfold zlen in *; rewrite !length_take, !length_drop; unfold_consts; lia].
    rewrite <- (take_drop 4 page) at 1. f_equal. rewrite <- (take_drop 16 (drop 4 page)) at 1. f_equal. rewrite drop_drop.
    rewrite <- (take_drop 8 (drop _ page)) at 1. f_equal. now rewrite drop_drop. }
  assert (forall (x : list byte) n, zlen x = Z.of_nat n -> length x = n) as Hlen by (unfold zlen; lia).
  apply (Hlen _ 4%nat) in Ha as Ha'. apply (Hlen _ 16%nat) in Hb as Hb'. apply (Hlen _ 8%nat) in Hc as Hc'.
  assert (forall c' : list byte, length c' = 8%nat -> drop (Z.to_nat PAGE_PREFIX_LEN) (a ++ b ++ c' ++ d) = d /\
    splice (take (Z.to_nat PAGE_PREFIX_LEN) (a ++ b ++ c' ++ d)) 0 (i32_le (PAGE_PREFIX_LEN + zlen v)) ++ v
      = i32_le (PAGE_PREFIX_LEN + zlen v) ++ b ++ c' ++ v) as Hpage.
  { intros c' Hc8. replace (a ++ b ++ c' ++ d) with ((a ++ b ++ c') ++ d) by now rewrite <- !app_assoc.
    change (Z.to_nat PAGE_PREFIX_LEN) with 28%nat. rewrite drop_app_length', take_app_length' by (rewrite !length_app; lia).
    split; [reflexivity|]. rewrite (splice_mid [] a _ (b ++ c')); [now rewrite <- !app_assoc | reflexivity | now rewrite Ha']. }
  assert (splice (a ++ b ++ c ++ d) RIGHT_SIBLING_OFFSET (i64_le r) = a ++ b ++ i64_le r ++ d) as ->.
  { rewrite !app_assoc, <- (app_assoc (a ++ b)). rewrite splice_mid; [now rewrite <- !app_assoc | rewrite zlen_app, Ha, Hb; reflexivity | now rewrite Hc']. }
  destruct (Hpage c Hc') as [Hd1 Ht1]. destruct (Hpage (i64_le r) eq_refl) as [Hd2 Ht2]. rewrite Hd1 in *.
  rewrite Hd2, E. cbn [rbind]. rewrite (proj2 (Z.ltb_ge _ _)) by lia. cbn [rbind]. f_equal. rewrite Ht1, Ht2.
  rewrite !(app_assoc _ b). rewrite splice_mid; [reflexivity | rewrite zlen_app, zlen_i32_le, Hb; reflexivity | now rewrite Hc'].
Qed.

(** [laid head pages offs s]: the file holds [head] and then the stored form of
    each page, and the directory where they start. *)
Definition laid (head : list byte) (pages : list (list byte)) (offs : list Z) (s : PageSink) : Prop :=
  exists stored, sink_holds s (mkSinkSpec (head ++ concat stored) offs) /\ offs = starts (zlen head) stored /\
    Forall2 (fun p st => stored_page filter p = Ok st) pages stored /\ sk_filter s = filter.

(** Between [begin_page] and [write_page]. *)
Definition begun (head : list byte) (pages : list (list byte)) (offs : list Z) (off : Z) (s : PageSink) : Prop :=
  exists stored, sink_holds s (mkSinkSpec (head ++ concat stored) (offs ++ [off])) /\ offs = starts (zlen head) stored /\
    off = zlen head + zlen (concat stored) /\ Forall2 (fun p st => stored_page filter p = Ok st) pages stored /\ sk_filter s = filter.

Lemma laid_length head pages offs s : laid head pages offs s -> length offs = length pages.
Proof. intros (st & _ & -> & H & _). rewrite length_starts. symmetry. now apply Forall2_length in H. Qed.

Lemma laid_begin head pages offs s :
  laid head pages offs s ->
  wp begin_page (fun r s' => fst r = zlen pages /\ fst r < i32_max /\ begun head pages offs (snd r) s') anyhow s.
Proof.
  intros (st & Hs & -> & Hst & Hf). eapply wp_mono; [apply (begin_page_refines _ _ Hs) | |auto].
  intros [o off] s' (a & ([= -> ->] & Hlt & ->) & Hs' & Hf'). simpl in *.
  assert (zlen (starts (zlen head) st) = zlen pages) as Hz by (unfold zlen; now rewrite length_starts, (Forall2_length _ _ _ Hst)).
  rewrite Hz in *. split; [reflexivity|]. split; [exact Hlt|]. exists st. rewrite zlen_app in *. split; [exact Hs'|]. repeat split; congruence.
Qed.

Lemma begun_write head pages offs off s page :
  begun head pages offs off s -> zlen page <= usize_max ->
  wp (write_page page) (fun _ s' => laid head (pages ++ [page]) (offs ++ [off]) s') anyhow s.
Proof.
  intros (st & Hs & -> & -> & Hst & Hf) Hp. eapply wp_mono; [apply (write_page_refines _ _ _ Hs Hp) | |auto].
  intros [] s' (a & (stored & Hstored & ->) & Hs' & Hf'). simpl in *. rewrite Hf in Hstored. exists (st ++ [stored]).
  rewrite concat_app, app_assoc. cbn [concat]. rewrite app_nil_r. split; [exact Hs'|]. split; [now rewrite starts_snoc|].
  split; [|congruence]. apply Forall2_app; [exact Hst | now constructor].
Qed.

(** Patching the sibling field of a page. *)
Lemma laid_link head pages offs s p page off r :
  laid head pages offs s -> pages !! p = Some page -> offs !! p = Some off -> PAGE_PREFIX_LEN <= zlen page ->
  wp (patch_at (off + RIGHT_SIBLING_OFFSET) (i64_le r))
    (fun _ s' => laid head (<[p := splice page RIGHT_SIBLING_OFFSET (i64_le r)]> pages) offs s') anyhow s.
Proof.
  intros (st & Hs & -> & Hst & Hf) Hp Ho Hlen. destruct (Forall2_lookup_l _ _ _ _ _ Hst Hp) as (stp & Hstp & Hstored).
  rewrite (starts_lookup _ _ _ _ Hstp) in Ho. injection Ho as <-. pose proof (stored_prefix _ _ Hstored Hlen) as Hsl.
  pose proof (zlen_nonneg head). pose proof (zlen_nonneg (concat (take p st))).
  assert (zlen (i64_le r) = 8) as H8 by reflexivity. assert (RIGHT_SIBLING_OFFSET = 20 /\ PAGE_PREFIX_LEN = 28) as [HR HP] by (split; reflexivity).
  assert (zlen (concat (take p st)) + zlen stp <= zlen (concat st)) as Hin.
  { rewrite <- (take_drop_middle _ _ _ Hstp) at 2. rewrite concat_app, !zlen_app. cbn [concat]. rewrite zlen_app.
    pose proof (zlen_nonneg (concat (drop (S p) st))). lia. }
  eapply wp_mono; [eapply (patch_at_refines _ _ Hs _ _ anyhow); cbn [ss_bytes]; rewrite ?zlen_app; lia | |auto].
  intros [] s' (a & -> & Hs' & Hf'). cbn [ss_bytes ss_offsets] in Hs'. exists (<[p := splice stp RIGHT_SIBLING_OFFSET (i64_le r)]> st).
  rewrite splice_app_r in Hs' by lia. replace (_ + _ + RIGHT_SIBLING_OFFSET - zlen head) with (zlen (concat (take p st)) + RIGHT_SIBLING_OFFSET) in Hs' by lia.
  rewrite (splice_concat _ _ _ _ _ Hstp) in Hs' by lia. split; [exact Hs'|]. split; [|split; [|congruence]].
  - symmetry. apply (starts_insert _ _ _ stp); [exact Hstp | rewrite zlen_splice; lia].
  - apply Forall2_insert; [exact Hst | now apply stored_page_link].
Qed.

(** Patching the head. *)
Lemma laid_patch_head head pages offs s off bytes B :
  laid head pages offs s -> 0 <= off -> off + zlen bytes <= zlen head ->
  wp (patch_at off bytes) (fun _ s' => laid (splice head off bytes) pages offs s') B s.
Proof.
  intros (st & Hs & -> & Hst & Hf) H0 H1. pose proof (zlen_nonneg (concat st)).
  eapply wp_mono; [eapply (patch_at_refines _ _ Hs _ _ B); cbn [ss_bytes]; rewrite ?zlen_app; lia | |auto].
  intros [] s' (a & -> & Hs' & Hf'). cbn [ss_bytes ss_offsets] in Hs'. exists st. rewrite splice_app_l in Hs' by assumption.
  split; [exact Hs'|]. rewrite zlen_splice by lia. repeat split; congruence.
Qed.

(** While there are no pages, writing grows the head. *)
Lemma laid_write_raw head s bytes B :
  laid head [] [] s -> wp (write_raw bytes) (fun _ s' => laid (head ++ bytes) [] [] s') B s.
Proof.
  intros (st & Hs & _ & Hst & Hf). apply Forall2_nil_inv_l in Hst as ->. cbn [concat] in Hs. rewrite app_nil_r in Hs.
  eapply wp_mono; [apply (write_raw_refines _ _ Hs _ B) | |auto]. intros [] s' (a & -> & Hs' & Hf'). exists [].
  cbn [concat]. rewrite app_nil_r. split; [exact Hs'|]. repeat split; [constructor | congruence].
Qed.
End Laid.
