(* ===== verification/Heap.v ===== *)
(** Binary heaps in an array.

    The sift of the merge in [crates/drydb/src/builder/spool.rs] on a list,
    apart from what the elements are: [less] compares two of them.  [Merger.v]
    runs the same steps in its own state and is related to [sift] there. *)

From Stdlib Require Import ZArith Lia.
From stdpp Require Import base list.
From S2P Require Import Prelude.

Section Heap.
Context {A : Type} `{Inhabited A} (less : A -> A -> bool).

Definition swap (i j : nat) (l : list A) : list A := <[i := l !!! j]> (<[j := l !!! i]> l).

(** The smaller of the children of [i]; [i] has a left one. *)
Definition smaller_child (i : nat) (l : list A) : nat :=
  let left := 2 * i + 1 in
  let right := left + 1 in
  if (right <? length l) && less (l !!! right) (l !!! left) then right else left.

Fixpoint sift (fuel i : nat) (l : list A) : list A :=
  match fuel with
  | O => l
  | S fuel =>
      if length l <=? 2 * i + 1 then l
      else
        let smallest := smaller_child i l in
        if less (l !!! smallest) (l !!! i) then sift fuel smallest (swap i smallest l) else l
  end.

Definition parent (j : nat) : nat := (j - 1) / 2.

Lemma parent_lt j : 0 < j -> parent j < j.
Proof. intros Hj. unfold parent. apply Nat.Div0.div_lt_upper_bound; lia. Qed.

Lemma parent_child i j : 0 < j -> parent j = i <-> j = 2 * i + 1 \/ j = 2 * i + 2.
Proof.
  intros Hj. unfold parent. pose proof (Nat.div_mod (j - 1) 2 ltac:(lia)).
  pose proof (Nat.mod_upper_bound (j - 1) 2 ltac:(lia)). lia.
Qed.

Lemma smaller_child_cases i l :
  2 * i + 1 < length l ->
  (smaller_child i l = 2 * i + 1 \/ smaller_child i l = 2 * i + 2) /\ smaller_child i l < length l.
Proof.
  intros Hl. unfold smaller_child. destruct (Nat.ltb_spec (2 * i + 1 + 1) (length l)); simpl; [|lia].
  destruct (less _ _); lia.
Qed.

Lemma length_swap i j l : length (swap i j l) = length l.
Proof. unfold swap. now rewrite !length_insert. Qed.

Lemma swap_lookup i j l n :
  i < length l -> j < length l -> i <> j ->
  swap i j l !!! n = if decide (n = i) then l !!! j else if decide (n = j) then l !!! i else l !!! n.
Proof.
  intros Hi Hj Hne. unfold swap. destruct (decide (n = i)) as [->|Hn].
  - rewrite list_lookup_total_insert_eq by (rewrite length_insert; lia). reflexivity.
  - rewrite list_lookup_total_insert_ne by congruence. destruct (decide (n = j)) as [->|Hm].
    + now rewrite list_lookup_total_insert_eq.
    + now rewrite list_lookup_total_insert_ne by congruence.
Qed.

Lemma swap_permutation i j l : i < length l -> j < length l -> swap i j l ≡ₚ l.
Proof.
  intros Hi Hj. unfold swap.
  destruct (lookup_lt_is_Some_2 l i Hi) as [x Hx], (lookup_lt_is_Some_2 l j Hj) as [y Hy].
  rewrite (list_lookup_total_correct _ _ _ Hx), (list_lookup_total_correct _ _ _ Hy).
  destruct (decide (i = j)) as [->|Hne].
  { rewrite list_insert_insert_eq, list_insert_id by congruence. reflexivity. }
  assert (<[j:=x]> l !! i = Some x) as Hi' by (rewrite list_lookup_insert_ne by congruence; exact Hx).
  apply Permutation_inj. split; [now rewrite !length_insert|].
  exists (fun n => if decide (n = i) then j else if decide (n = j) then i else n). split.
  - intros n m. repeat destruct (decide _); lia.
  - intros n. destruct (decide (n = i)) as [->|]; [now rewrite list_lookup_insert_eq by (rewrite length_insert; lia)|].
    rewrite list_lookup_insert_ne by congruence. destruct (decide (n = j)) as [->|].
    + rewrite list_lookup_insert_eq by lia. now rewrite Hx.
    + now rewrite list_lookup_insert_ne by congruence.
Qed.

(** ** Order

    [le] is a total preorder on the elements the heap holds. *)
Context (P : A -> Prop).
Definition le (x y : A) : Prop := less y x = false.
Hypothesis less_le : forall x y, P x -> P y -> less x y = true -> le x y.
Hypothesis le_trans : forall x y z, P x -> P y -> P z -> le x y -> le y z -> le x z.

(** Every node from [k] on is at most its children. *)
Definition heap_from (k : nat) (l : list A) : Prop :=
  forall j, 0 < j < length l -> k <= parent j -> le (l !!! parent j) (l !!! j).

Lemma le_refl x : P x -> le x x.
Proof. intros Hx. unfold le. destruct (less x x) eqn:E; [|reflexivity].
  pose proof (less_le x x Hx Hx E) as Hxx. unfold le in Hxx. congruence.
Qed.

Lemma lookup_total_P l j : Forall P l -> j < length l -> P (l !!! j).
Proof. intros HP Hj. destruct (lookup_lt_is_Some_2 l j Hj) as [x Hx]. erewrite list_lookup_total_correct by exact Hx. exact (Forall_lookup_1 _ _ _ _ HP Hx). Qed.

(** The chosen child is at most both children. *)
Lemma smaller_child_le i l j :
  Forall P l -> 0 < j < length l -> parent j = i -> le (l !!! smaller_child i l) (l !!! j).
Proof.
  intros HP Hj Hp. apply parent_child in Hp; [|lia]. unfold smaller_child.
  assert (2 * i + 1 + 1 = 2 * i + 2) as -> by lia.
  assert (P (l !!! (2 * i + 1))) by (apply lookup_total_P; [assumption | lia]).
  destruct (Nat.ltb_spec (2 * i + 2) (length l)); cbn [andb].
  - assert (P (l !!! (2 * i + 2))) by (apply lookup_total_P; [assumption | lia]).
    destruct (less (l !!! (2 * i + 2)) (l !!! (2 * i + 1))) eqn:E; destruct Hp as [-> | ->];
      first [exact E | now apply le_refl | now apply less_le].
  - destruct Hp as [-> | ->]; [now apply le_refl | lia].
Qed.

(** [sift] repairs a heap broken at [i] only. *)
Lemma sift_spec fuel : forall i l k,
  Forall P l -> k <= i -> length l <= fuel + i ->
  (forall j, 0 < j < length l -> k <= parent j -> parent j <> i -> le (l !!! parent j) (l !!! j)) ->
  (forall j, 0 < j < length l -> parent j = i -> 0 < i -> k <= parent i -> le (l !!! parent i) (l !!! j)) ->
  heap_from k (sift fuel i l) /\ sift fuel i l ≡ₚ l.
Proof.
  induction fuel as [|fuel IH]; intros i l k HP Hk Hf Hrest Hup; simpl.
  { split; [|reflexivity]. intros j Hj Hkj. apply Hrest; [lia | lia |]. pose proof (parent_lt j). lia. }
  replace (i + (i + 0)) with (2 * i) by lia.
  destruct (Nat.leb_spec (length l) (2 * i + 1)) as [Hle|Hlt].
  { split; [|reflexivity]. intros j Hj Hkj. apply Hrest; [lia | lia |]. intros Hp. apply parent_child in Hp; lia. }
  destruct (smaller_child_cases i l Hlt) as [Hs Hsl]. pose proof (fun j => smaller_child_le i l j HP) as Hmin.
  set (s := smaller_child i l) in *.
  assert (parent s = i) as Hps by (apply parent_child; lia).
  assert (P (l !!! i)) as HPi by (apply lookup_total_P; [assumption | lia]).
  assert (P (l !!! s)) as HPs by (apply lookup_total_P; [assumption | lia]).
  destruct (less (l !!! s) (l !!! i)) eqn:Hless.
  - assert (i < length l) as Hi by lia. assert (i <> s) as His by lia.
    destruct (IH s (swap i s l) k) as [H1 H2]; try (rewrite ?length_swap; lia).
    + rewrite swap_permutation by assumption. exact HP.
    + rewrite length_swap. intros j Hj Hkj Hpj. rewrite !swap_lookup by assumption.
      pose proof (parent_lt j ltac:(lia)). destruct (decide (parent j = i)) as [Hpi|Hpi].
      * destruct (decide (j = i)) as [->|]; [lia|]. destruct (decide (j = s)) as [->|]; [now apply less_le|].
        apply Hmin; assumption.
      * destruct (decide (parent j = s)); [contradiction|]. destruct (decide (j = i)) as [->|Hji].
        { apply (Hup s); lia. }
        destruct (decide (j = s)) as [->|]; [contradiction|]. apply Hrest; assumption.
    + rewrite length_swap. intros j Hj Hpj _ _. rewrite !swap_lookup by assumption. rewrite Hps.
      pose proof (parent_lt j ltac:(lia)). destruct (decide (i = i)); [|contradiction].
      destruct (decide (j = i)); [lia|]. destruct (decide (j = s)); [lia|].
      rewrite <- Hpj at 1. apply Hrest; [lia | lia | lia].
    + split; [exact H1|]. rewrite H2. apply swap_permutation; assumption.
  - split; [|reflexivity]. intros j Hj Hkj. destruct (decide (parent j = i)) as [Hp|Hp]; [|now apply Hrest].
    rewrite Hp. apply (le_trans _ (l !!! s)); auto. now apply lookup_total_P.
Qed.

(** At the root of a heap nothing is smaller. *)
Lemma heap_root l j : Forall P l -> heap_from 0 l -> j < length l -> le (l !!! 0) (l !!! j).
Proof.
  intros HP Hh. induction j as [j IH] using lt_wf_ind. intros Hj.
  destruct (decide (j = 0)) as [->|Hne]; [apply le_refl; now apply lookup_total_P|].
  pose proof (parent_lt j ltac:(lia)). apply (le_trans _ (l !!! parent j)); try (apply lookup_total_P; [assumption | lia]).
  - apply IH; lia.
  - apply Hh; lia.
Qed.

(** Sifting the only broken node, and the steps of building a heap. *)
Lemma sift_root fuel l :
  Forall P l -> length l <= fuel -> heap_from 1 l -> heap_from 0 (sift fuel 0 l) /\ sift fuel 0 l ≡ₚ l.
Proof.
  intros HP Hf Hh. apply sift_spec; auto with lia.
Qed.

Lemma sift_node fuel i l :
  Forall P l -> length l <= fuel + i -> heap_from (S i) l -> heap_from i (sift fuel i l) /\ sift fuel i l ≡ₚ l.
Proof.
  intros HP Hf Hh. apply sift_spec; [assumption | lia | lia | |].
  - intros j Hj Hk Hp. apply Hh; lia.
  - intros j Hj Hp Hi Hk. pose proof (parent_lt i Hi). lia.
Qed.

Lemma heap_from_half l k : length l / 2 <= k -> heap_from k l.
Proof.
  intros Hk j Hj Hp. exfalso. pose proof (Nat.div_mod (length l) 2 ltac:(lia)).
  pose proof (Nat.mod_upper_bound (length l) 2 ltac:(lia)).
  pose proof (parent_child (parent j) j ltac:(lia)) as Hc. destruct (proj1 Hc eq_refl); lia.
Qed.
End Heap.
