(* ===== verification/Merger.v ===== *)
(** Merging sorted runs, [crates/drydb/src/builder/spool.rs].

    A run is a stretch of the spool file that holds records in order.  The
    merger keeps the first unread record of every run, without its value, and a
    binary heap of the runs over these.  Reads can fail by the schedule of
    [Effects.v].

    [merge_all_ok] says what comes out: the records of all the runs, in order.
    Headers store lengths as [u32], so this needs records whose key and value
    are shorter than 4 GiB; [long_value_is_truncated] shows what happens
    otherwise. *)

From Stdlib Require Import ZArith Lia.
From stdpp Require Import base list sorting.
From coqutil Require Import Byte Word.LittleEndianList.
From S2P Require Import Prelude Errors Format Encoding Effects Heap.

#[local] Open Scope Z_scope.
#[local] Open Scope drydb_scope.

(** Sequence, key length, value length. *)
Definition RECORD_HEADER_LEN : Z := 8 + 4 + 4.

Record SpoolRecord : Type := mkSpoolRecord {
  rec_seq : Z;
  rec_key : list byte;
  rec_value : list byte;
}.

Record RunReader : Type := mkRunReader { rr_pos : Z; rr_end : Z }.

Record Pending : Type := mkPending {
  pe_seq : Z;
  pe_key : list byte;
  pe_value_pos : Z;
  pe_value_len : Z;
}.

Record Merger : Type := mkMerger {
  mg_readers : list RunReader;
  mg_front : list (option Pending);
  mg_heap : list nat;
  mg_failure : option Error;
}.

(** [n as u32], stored. *)
Definition u32_le (n : Z) : list byte := le_split 4 n.

Definition record_header (seq key_len value_len : Z) : list byte :=
  u64_le seq ++ u32_le key_len ++ u32_le value_len.

(** * Reading runs *)

(** [file.read_exact(&mut [0; n])] *)
Definition file_read_exact (n : Z) : IO File (list byte) :=
  if n =? 0 then sret []
  else
    let! _ := io id in
    let! f := here in
    fail! zlen (f_data f) <? f_cursor f + n with Failed Error_io in
    let! _ := update (file_seek (f_cursor f + n)) in
    sret (slice (f_data f) (f_cursor f) n).

Definition read_next (r : RunReader) : IO File (option Pending * RunReader) :=
  if rr_end r <=? rr_pos r then sret (None, r)
  else
    let! _ := io (file_seek (rr_pos r)) in
    let! header := file_read_exact RECORD_HEADER_LEN in
    let seq := le_combine (slice header 0 8) in
    let key_len := le_combine (slice header 8 4) in
    let value_len := le_combine (slice header 12 4) in
    let total := RECORD_HEADER_LEN + key_len + value_len in
    fail! rr_end r <? rr_pos r + total with Failed Error_corrupt in
    let! key := file_read_exact key_len in
    let value_pos := rr_pos r + (RECORD_HEADER_LEN + key_len) in
    sret (Some (mkPending seq key value_pos value_len), mkRunReader (rr_pos r + total) (rr_end r)).

Definition read_value (p : Pending) : IO File (list byte) :=
  let! _ := io (file_seek (pe_value_pos p)) in
  file_read_exact (pe_value_len p).

(** [write_record] appends to whatever the writer is. *)
Definition write_record {T} (on_writer : (BufWriter -> BufWriter) -> T -> T) (seq : Z) (key value : list byte)
    : IO T Z :=
  let! _ := io (on_writer (bw_write_all (record_header seq (zlen key) (zlen value)))) in
  let! _ := io (on_writer (bw_write_all key)) in
  let! _ := io (on_writer (bw_write_all value)) in
  sret (RECORD_HEADER_LEN + zlen key + zlen value).

(** * The merger *)

Definition set_readers (l : list RunReader) (m : Merger) : Merger :=
  mkMerger l (mg_front m) (mg_heap m) (mg_failure m).
Definition set_front (l : list (option Pending)) (m : Merger) : Merger :=
  mkMerger (mg_readers m) l (mg_heap m) (mg_failure m).
Definition set_heap (l : list nat) (m : Merger) : Merger :=
  mkMerger (mg_readers m) (mg_front m) l (mg_failure m).
Definition set_failure (e : option Error) (m : Merger) : Merger :=
  mkMerger (mg_readers m) (mg_front m) (mg_heap m) e.

Section Merge.
Context (E : KeyEncoding).

(** The file the runs are in, and the merger. *)
Abbreviation MS := (File * Merger)%type.

Definition merger : IO MS Merger := let! s := here in sret (snd s).
Definition on_merger (f : Merger -> Merger) : IO MS unit := update (fun s => (fst s, f (snd s))).
Definition in_file {A} (m : IO File A) : IO MS A := zoom fst (fun f s => (f, snd s)) m.

Definition refill (run : nat) : IO MS unit :=
  let! m := merger in
  let! reader := expect (mg_readers m !! run) in
  let! '(pending, reader) := in_file (read_next reader) in
  let! _ := expect (mg_front m !! run) in
  on_merger (fun m => set_front (<[run := pending]> (mg_front m)) (set_readers (<[run := reader]> (mg_readers m)) m)).

(** A comparison that fails counts as equal and is remembered, the first one
    for good. *)
Definition heap_compare (a b : nat) : IO MS comparison :=
  let! m := merger in
  let! fa := expect (mg_front m !! a) in
  let! fb := expect (mg_front m !! b) in
  match fa, fb with
  | Some ra, Some rb =>
      match ke_compare E (pe_key ra) (pe_key rb) with
      | Ok Eq => sret (pe_seq ra ?= pe_seq rb)
      | Ok other => sret other
      | Err e =>
          let! _ := on_merger (set_failure (Some (default e (mg_failure m)))) in
          sret Eq
      end
  | _, _ => sret Eq
  end.

Definition at_heap (i : nat) : IO MS nat := let! m := merger in expect (mg_heap m !! i).

(** One round per level of the heap. *)
Fixpoint sift_loop (fuel i : nat) : IO MS unit :=
  match fuel with
  | O => sret tt
  | S fuel =>
      let! m := merger in
      let len := length (mg_heap m) in
      let left := (2 * i + 1)%nat in
      if (len <=? left)%nat then sret tt
      else
        let right := (left + 1)%nat in
        let! hl := at_heap left in
        let! hi := at_heap i in
        let! smallest :=
          (if (right <? len)%nat then
             let! hr := at_heap right in
             let! c := heap_compare hr hl in
             sret match c with Lt => right | _ => left end
           else sret left) in
        let! hs := at_heap smallest in
        let! c := heap_compare hs hi in
        match c with
        | Lt =>
            let! _ := on_merger (fun m => set_heap (<[i := hs]> (<[smallest := hi]> (mg_heap m))) m) in
            sift_loop fuel smallest
        | _ => sret tt
        end
  end.

Definition sift_down (i : nat) : IO MS unit := let! m := merger in sift_loop (length (mg_heap m)) i.

Definition check : IO MS unit :=
  let! m := merger in
  let! _ := on_merger (set_failure None) in
  match mg_failure m with
  | Some e => sfail (Failed e)
  | None => sret tt
  end.

(** [for i in 0..readers.len() { refill(i); if front[i].is_some() { heap.push(i) } }] *)
Fixpoint fill_front (runs : nat) (i : nat) : IO MS unit :=
  match runs with
  | O => sret tt
  | S runs =>
      let! _ := refill i in
      let! m := merger in
      let! f := expect (mg_front m !! i) in
      let! _ := match f with
                | Some _ => on_merger (fun m => set_heap (mg_heap m ++ [i]) m)
                | None => sret tt
                end in
      fill_front runs (S i)
  end.

(** [for i in (0..n).rev() { sift_down(i) }] *)
Fixpoint sift_all (n : nat) : IO MS unit :=
  match n with
  | O => sret tt
  | S n => let! _ := sift_down n in sift_all n
  end.

Definition Merger_new (readers : list RunReader) : IO MS unit :=
  let! _ := on_merger (fun _ => mkMerger readers (replicate (length readers) None) [] None) in
  let! _ := fill_front (length readers) 0 in
  let! m := merger in
  let! _ := sift_all (length (mg_heap m) / 2) in
  check.

(** The heap after its root has read on. *)
Definition reheap (run : nat) : IO MS unit :=
  let! m := merger in
  let! f := expect (mg_front m !! run) in
  match f with
  | None =>
      let! last := expect (last (mg_heap m)) in
      let! _ := on_merger (fun m => set_heap (removelast (mg_heap m)) m) in
      let! m := merger in
      match mg_heap m with
      | [] => sret tt
      | _ :: _ =>
          let! _ := on_merger (fun m => set_heap (<[O := last]> (mg_heap m)) m) in
          sift_down 0
      end
  | Some _ => sift_down 0
  end.

Definition next_pending : IO MS (option Pending) :=
  let! m := merger in
  match mg_heap m with
  | [] => sret None
  | run :: _ =>
      let! pending := expect (mg_front m !! run) in
      let! _ := on_merger (fun m => set_front (<[run := None]> (mg_front m)) m) in
      let! _ := refill run in
      let! _ := reheap run in
      let! _ := check in
      sret pending
  end.

Definition merger_next_record : IO MS (option SpoolRecord) :=
  let! pending := next_pending in
  match pending with
  | None => sret None
  | Some p =>
      let! value := in_file (read_value p) in
      sret (Some (mkSpoolRecord (pe_seq p) (pe_key p) value))
  end.
End Merge.

(** * Order *)

Section Order.
Context (E : KeyEncoding) {L : LawfulEncoding E}.

(** Keys first, then the order of appending. *)
Definition rec_cmp (a b : SpoolRecord) : comparison :=
  cmp_then (ord (rec_key a) (rec_key b)) (rec_seq a ?= rec_seq b).
Definition rec_le (a b : SpoolRecord) : Prop := rec_cmp a b <> Gt.

(** A record whose lengths fit the header. *)
Record record_ok (r : SpoolRecord) : Prop := {
  ro_key : key_ok (rec_key r);
  ro_key_len : zlen (rec_key r) < 2 ^ 32;
  ro_value_len : zlen (rec_value r) < 2 ^ 32;
  ro_seq : 0 <= rec_seq r <= u64_max;
}.

Lemma pair_order : CmpOrder (fun c => key_ok (fst c)) (fun c d => cmp_then (ord (fst c) (fst d)) (snd c ?= snd d)).
Proof.
  apply (then_CmpOrder _ fst snd key_ok (fun _ => True)); auto using ord_order, Z_CmpOrder.
  intros [] [] _ _; simpl; congruence.
Qed.

Lemma rec_cmp_opp a b : record_ok a -> record_ok b -> rec_cmp b a = CompOpp (rec_cmp a b).
Proof.
  intros Ha Hb. exact (cmp_opp _ _ pair_order (rec_key a, rec_seq a) (rec_key b, rec_seq b) (ro_key a Ha) (ro_key b Hb)).
Qed.

Lemma rec_le_trans a b c : record_ok a -> record_ok b -> record_ok c -> rec_le a b -> rec_le b c -> rec_le a c.
Proof.
  intros Ha Hb Hc. unfold rec_le. pose proof pair_order as HO.
  pose proof (cmp_trans _ _ HO (rec_key a, rec_seq a) (rec_key b, rec_seq b) (rec_key c, rec_seq c)
    (ro_key a Ha) (ro_key b Hb) (ro_key c Hc)) as Ht.
  pose proof (cmp_eq _ _ HO (rec_key a, rec_seq a) (rec_key b, rec_seq b) (ro_key a Ha) (ro_key b Hb)) as He.
  pose proof (cmp_eq _ _ HO (rec_key b, rec_seq b) (rec_key c, rec_seq c) (ro_key b Hb) (ro_key c Hc)) as He'.
  unfold rec_cmp in *. simpl in *. destruct (cmp_then (ord (rec_key a) (rec_key b)) _) eqn:E1; intros H1 H2; try congruence.
  - pose proof (proj1 He eq_refl) as Hab. injection Hab as -> ->. exact H2.
  - destruct (cmp_then (ord (rec_key b) (rec_key c)) _) eqn:E2; try congruence.
    + pose proof (proj1 He' eq_refl) as Hbc. injection Hbc as <- <-. now rewrite E1.
    + now rewrite (Ht eq_refl eq_refl).
Qed.

Lemma rec_le_total a b : record_ok a -> record_ok b -> rec_le a b \/ rec_le b a.
Proof. intros Ha Hb. unfold rec_le. rewrite (rec_cmp_opp a b Ha Hb). destruct (rec_cmp a b); simpl; auto; left; discriminate. Qed.

Lemma not_lt_le a b : record_ok a -> record_ok b -> rec_cmp b a <> Lt -> rec_le a b.
Proof. intros Ha Hb. rewrite (rec_cmp_opp a b Ha Hb). unfold rec_le. destruct (rec_cmp a b); simpl; congruence. Qed.

Lemma lt_le a b : rec_cmp a b = Lt -> rec_le a b.
Proof. unfold rec_le. congruence. Qed.

(** * Stored records *)

Definition record_bytes (r : SpoolRecord) : list byte :=
  record_header (rec_seq r) (zlen (rec_key r)) (zlen (rec_value r)) ++ rec_key r ++ rec_value r.

Definition record_len (r : SpoolRecord) : Z := RECORD_HEADER_LEN + zlen (rec_key r) + zlen (rec_value r).

Definition records_bytes (rs : list SpoolRecord) : list byte := concat (record_bytes <$> rs).

Lemma zlen_u32_le n : zlen (u32_le n) = 4.
Proof. apply zlen_le_split. Qed.

Lemma zlen_record_header seq k v : zlen (record_header seq k v) = RECORD_HEADER_LEN.
Proof. unfold record_header. rewrite !zlen_app, zlen_u64_le, !zlen_u32_le. reflexivity. Qed.

Lemma zlen_stored_record r : zlen (record_bytes r) = record_len r.
Proof. unfold record_bytes, record_len. rewrite !zlen_app, zlen_record_header. lia. Qed.

Lemma record_len_pos r : RECORD_HEADER_LEN <= record_len r.
Proof. unfold record_len. pose proof (zlen_nonneg (rec_key r)). pose proof (zlen_nonneg (rec_value r)). lia. Qed.

Lemma records_bytes_cons r rs : records_bytes (r :: rs) = record_bytes r ++ records_bytes rs.
Proof. reflexivity. Qed.

Lemma records_bytes_app rs rs' : records_bytes (rs ++ rs') = records_bytes rs ++ records_bytes rs'.
Proof. unfold records_bytes. now rewrite fmap_app, concat_app. Qed.

(** The file holds the records [rs] from [pos] to [end_]. *)
Record at_run (data : list byte) (pos end_ : Z) (rs : list SpoolRecord) : Prop := {
  ar_pos : 0 <= pos;
  ar_end : end_ = pos + zlen (records_bytes rs);
  ar_fits : end_ <= zlen data;
  ar_data : slice data pos (zlen (records_bytes rs)) = records_bytes rs;
}.

Record pending_of (data : list byte) (p : Pending) (r : SpoolRecord) : Prop := {
  po_seq : pe_seq p = rec_seq r;
  po_key : pe_key p = rec_key r;
  po_len : pe_value_len p = zlen (rec_value r);
  po_pos : 0 <= pe_value_pos p;
  po_fits : pe_value_pos p + pe_value_len p <= zlen data;
  po_value : slice data (pe_value_pos p) (pe_value_len p) = rec_value r;
}.

(** A run begins with its first record. *)
Lemma at_run_cons data pos end_ r rs :
  at_run data pos end_ (r :: rs) ->
  slice data pos (record_len r) = record_bytes r /\ at_run data (pos + record_len r) end_ rs.
Proof.
  intros [H1 H2 H3 H4]. rewrite records_bytes_cons, zlen_app, zlen_stored_record in *.
  pose proof (record_len_pos r) as Hr. unfold RECORD_HEADER_LEN in Hr. pose proof (zlen_nonneg (records_bytes rs)).
  rewrite (slice_split data pos (record_len r)) in H4 by lia.
  apply app_inj_1 in H4 as [Ha Hb].
  - split; [exact Ha|]. split; try lia. exact Hb.
  - pose proof (zlen_slice data pos (record_len r) ltac:(lia) ltac:(lia) ltac:(lia)) as Hz.
    rewrite <- zlen_stored_record in Hz at 2. unfold zlen in Hz. lia.
Qed.

(** The fields of a stored record: the lengths as far as they fit 32 bits. *)
Lemma record_fields data pos r :
  0 <= rec_seq r <= u64_max -> 0 <= pos -> pos + record_len r <= zlen data ->
  slice data pos (record_len r) = record_bytes r ->
  let header := slice data pos RECORD_HEADER_LEN in
  zlen header = RECORD_HEADER_LEN /\
  le_combine (slice header 0 8) = rec_seq r /\ le_combine (slice header 8 4) = zlen (rec_key r) mod 2 ^ 32 /\
  le_combine (slice header 12 4) = zlen (rec_value r) mod 2 ^ 32 /\
  slice data (pos + RECORD_HEADER_LEN) (zlen (rec_key r)) = rec_key r /\
  slice data (pos + (RECORD_HEADER_LEN + zlen (rec_key r))) (zlen (rec_value r)) = rec_value r.
Proof.
  intros Hs Hp Hfit Hd header. pose proof (zlen_nonneg (rec_key r)). pose proof (zlen_nonneg (rec_value r)).
  assert (record_len r = RECORD_HEADER_LEN + zlen (rec_key r) + zlen (rec_value r)) as Hlen by reflexivity.
  assert (RECORD_HEADER_LEN = 16) as Hh by reflexivity.
  assert (forall o n, 0 <= o -> 0 <= n -> o + n <= record_len r -> slice data (pos + o) n = slice (record_bytes r) o n) as Hin.
  { intros o n Ho Hn Hon. rewrite <- Hd, slice_slice by lia. reflexivity. }
  assert (header = record_header (rec_seq r) (zlen (rec_key r)) (zlen (rec_value r))) as ->.
  { unfold header. replace pos with (pos + 0) by lia. rewrite Hin by lia. unfold record_bytes.
    rewrite slice_app_l by (rewrite ?zlen_record_header; lia). apply slice_all. now rewrite zlen_record_header. }
  rewrite zlen_record_header, !Hin by lia. unfold record_bytes, record_header.
  assert (forall n, le_combine (u32_le n) = n mod 2 ^ 32) as H32 by (intros n; apply le_combine_split).
  split_and!; try reflexivity.
  - rewrite slice_app_l, slice_all by zlen_lia. now apply le_combine_u64.
  - rewrite slice_app_r by zlen_lia. rewrite zlen_u64_le. simpl (8 - 8). rewrite slice_app_l, slice_all by (rewrite ?zlen_u32_le; lia).
    apply H32.
  - rewrite slice_app_r by zlen_lia. rewrite zlen_u64_le. simpl (12 - 8). rewrite slice_app_r by (rewrite ?zlen_u32_le; lia).
    rewrite zlen_u32_le. simpl (4 - 4). rewrite slice_all by (now rewrite zlen_u32_le). apply H32.
  - fold (record_header (rec_seq r) (zlen (rec_key r)) (zlen (rec_value r))).
    apply slice_exact; [now rewrite zlen_record_header | reflexivity].
  - fold (record_header (rec_seq r) (zlen (rec_key r)) (zlen (rec_value r))).
    rewrite app_assoc, slice_app_r by (rewrite zlen_app, zlen_record_header; lia).
    rewrite zlen_app, zlen_record_header, Z.sub_diag. now apply slice_all.
Qed.
End Order.

(** * Reading *)

Section Reading.
Context (E : KeyEncoding) {L : LawfulEncoding E} (B : Stop -> Prop).

Lemma wp_read_exact n (f : File) (Q : list byte -> File -> Prop) :
  0 <= n -> 0 <= f_cursor f -> f_cursor f + n <= zlen (f_data f) ->
  Q (slice (f_data f) (f_cursor f) n) (file_seek (f_cursor f + n) f) ->
  wp (file_read_exact n) Q B f.
Proof.
  intros Hn Hc Hfit HQ. unfold file_read_exact. apply wp_if; intros Hz.
  - apply Z.eqb_eq in Hz as ->. apply wp_ret. rewrite Z.add_0_r in HQ. destruct f as [data cursor]. exact HQ.
  - wp_run; [exfalso; apply Z.ltb_lt in H; simpl in H; lia|]. exact HQ.
Qed.

(** The runs are in the first part of the file; what follows may change. *)
Lemma read_next_ok data more r rs f :
  f_data f = data ++ more -> at_run data (rr_pos r) (rr_end r) rs -> Forall (record_ok E) rs ->
  wp (read_next r)
    (fun out f' => f_data f' = data ++ more /\
       match rs with
       | [] => out = (None, r)
       | x :: rs' => exists p r', out = (Some p, r') /\ pending_of data p x /\ at_run data (rr_pos r') (rr_end r') rs'
       end) B f.
Proof.
  intros Hf Hr Hok. unfold read_next. pose proof Hr as [Hp He Hfit _]. destruct rs as [|x rs].
  { rewrite (proj2 (Z.leb_le _ _)) by (rewrite He; change (zlen (records_bytes [])) with 0; lia).
    apply wp_ret. auto. }
  apply Forall_cons in Hok as [Hx Hok]. destruct (at_run_cons _ _ _ _ _ Hr) as [Hd Hrest].
  pose proof (ar_end _ _ _ _ Hrest) as He'. pose proof (zlen_nonneg (records_bytes rs)).
  pose proof (record_len_pos x) as Hlen. unfold RECORD_HEADER_LEN in Hlen.
  destruct (record_fields data (rr_pos r) x (ro_seq E x Hx) Hp ltac:(lia) Hd) as (H1 & H2 & H3 & H4 & H5 & H6).
  rewrite Z.mod_small in H3, H4 by (split; [apply zlen_nonneg | apply Hx]).
  rewrite (proj2 (Z.leb_gt _ _)) by lia. pose proof (zlen_nonneg (rec_key x)). pose proof (zlen_nonneg (rec_value x)).
  assert (record_len x = RECORD_HEADER_LEN + zlen (rec_key x) + zlen (rec_value x)) as Hl by reflexivity.
  assert (RECORD_HEADER_LEN = 16) as Hh by reflexivity.
  pose proof (zlen_nonneg more).
  apply wp_bind, wp_io, wp_bind, wp_read_exact; simpl; rewrite ?Hf, ?zlen_app; try lia. rewrite slice_app_l by lia.
  rewrite H2, H3, H4. apply wp_if; intros Hlt; [apply Z.ltb_lt in Hlt; lia|].
  apply wp_bind, wp_read_exact; simpl; rewrite ?Hf, ?zlen_app; try lia. rewrite slice_app_l, H5 by lia. apply wp_ret.
  split; [first [exact Hf | reflexivity]|]. do 2 eexists. split; [reflexivity|]. split.
  - split; simpl; try reflexivity; try lia. exact H6.
  - simpl. replace (rr_pos r + (RECORD_HEADER_LEN + zlen (rec_key x) + zlen (rec_value x))) with (rr_pos r + record_len x) by lia.
    exact Hrest.
Qed.

Lemma read_value_ok data more p x f :
  f_data f = data ++ more -> pending_of data p x ->
  wp (read_value p) (fun out f' => f_data f' = data ++ more /\ out = rec_value x) B f.
Proof.
  intros Hf [P1 P2 P3 P4 P5 P6]. unfold read_value. pose proof (zlen_nonneg (rec_value x)). pose proof (zlen_nonneg more).
  apply wp_bind, wp_io, wp_read_exact; simpl; rewrite ?Hf, ?zlen_app; try lia. rewrite slice_app_l by lia. auto.
Qed.
End Reading.

(** C39: a value of 4 GiB or more is written whole under a header that holds its
    length modulo 2^32: the reader takes a prefix of it for the value and goes on
    in the middle of the rest as if another record began there. *)
Theorem long_value_is_truncated r :
  0 <= rec_seq r <= u64_max -> zlen (rec_key r) < 2 ^ 32 -> 2 ^ 32 <= zlen (rec_value r) ->
  let data := record_bytes r in
  exists p reader,
    fst (read_next (mkRunReader 0 (zlen data)) (mkFile data 0, [])) = Ok (Some p, reader) /\
    pe_value_len p = zlen (rec_value r) mod 2 ^ 32 /\ pe_value_len p < zlen (rec_value r) /\
    rr_pos reader < rr_end reader.
Proof.
  intros Hs Hk Hv data. pose proof (zlen_nonneg (rec_key r)) as Hk0.
  assert (zlen data = RECORD_HEADER_LEN + zlen (rec_key r) + zlen (rec_value r)) as Hz by apply zlen_stored_record.
  assert (RECORD_HEADER_LEN = 16) as Hh by reflexivity.
  destruct (record_fields data 0 r Hs ltac:(lia)) as (H1 & H2 & H3 & H4 & H5 & H6).
  { unfold data. rewrite zlen_stored_record. lia. } { apply slice_all. unfold data. now rewrite zlen_stored_record. }
  pose proof (Z.mod_pos_bound (zlen (rec_value r)) (2 ^ 32) ltac:(lia)) as Hm. rewrite (Z.mod_small (zlen (rec_key r))) in H3 by lia.
  assert (wp (read_next (mkRunReader 0 (zlen data)))
    (fun out _ => exists p reader, out = (Some p, reader) /\ pe_value_len p = zlen (rec_value r) mod 2 ^ 32 /\ rr_pos reader < rr_end reader)
    (fun _ => False) (mkFile data 0)) as Hw.
  { unfold read_next. cbn [rr_pos rr_end]. rewrite (proj2 (Z.leb_gt _ _)) by lia.
    apply wp_bind, wp_io, wp_bind, wp_read_exact; cbn [f_data f_cursor file_seek]; try lia.
    rewrite H2, H3, H4. apply wp_if; intros Hlt; [apply Z.ltb_lt in Hlt; lia|].
    apply wp_bind, wp_read_exact; cbn [f_data f_cursor file_seek]; try lia. apply wp_ret. do 2 eexists. split; [reflexivity|].
    cbn [pe_value_len rr_pos rr_end]. lia. }
  apply wp_no_faults in Hw. destruct (read_next _ _) as [[[p0 reader]|e] [f fl]]; [|contradiction].
  destruct Hw as (p & reader' & [= -> ->] & Hlen & Hpos). exists p, reader'. simpl. split; [reflexivity|]. lia.
Qed.

Lemma long_value_is_truncated_witness :
  let r := mkSpoolRecord 0 [] (replicate (Z.to_nat (2 ^ 32)) Byte.x00) in
  exists p reader, fst (read_next (mkRunReader 0 (zlen (record_bytes r))) (mkFile (record_bytes r) 0, [])) = Ok (Some p, reader) /\
    pe_value_len p = zlen (rec_value r) mod 2 ^ 32.
Proof.
  intros r. destruct (long_value_is_truncated r) as (p & reader & H1 & H2 & _).
  - unfold r, u64_max; cbn [rec_seq]; lia.
  - unfold r; cbn [rec_key]. rewrite zlen_nil. lia.
  - unfold r; cbn [rec_value]. unfold zlen. rewrite length_replicate, Z2Nat.id; lia.
  - exists p, reader. split; [exact H1 | exact H2].
Defined.


(** * The invariant of a merge

    [rest] lists, for every run, the records still to come. *)

Section Merging.
Context (E : KeyEncoding) {L : LawfulEncoding E} (B : Stop -> Prop) (data more : list byte).

(** What the merger holds of a run. *)
Definition front_of (f : option Pending) (r : RunReader) (rs : list SpoolRecord) : Prop :=
  match f with
  | Some p => exists x rs', rs = x :: rs' /\ pending_of data p x /\ at_run data (rr_pos r) (rr_end r) rs'
  | None => rs = [] /\ at_run data (rr_pos r) (rr_end r) []
  end.

(** The first [n] runs have been looked at. *)
Record fronts (n : nat) (m : Merger) (rest : list (list SpoolRecord)) : Prop := {
  fr_readers : length (mg_readers m) = length rest;
  fr_front : length (mg_front m) = length rest;
  fr_runs : forall i rs, rest !! i = Some rs -> exists r f,
    mg_readers m !! i = Some r /\ mg_front m !! i = Some f /\
    if decide (i < n)%nat then front_of f r rs else f = None /\ at_run data (rr_pos r) (rr_end r) rs;
  fr_records : Forall (Forall (record_ok E)) rest;
  fr_failure : mg_failure m = None;
}.

Definition live (rest : list (list SpoolRecord)) (i : nat) : Prop := exists x rs, rest !! i = Some (x :: rs).

Definition head_cmp (rest : list (list SpoolRecord)) (a b : nat) : comparison :=
  match rest !! a, rest !! b with
  | Some (x :: _), Some (y :: _) => rec_cmp E x y
  | _, _ => Eq
  end.
Definition run_less (rest : list (list SpoolRecord)) (a b : nat) : bool :=
  match head_cmp rest a b with Lt => true | _ => false end.

Lemma fronts_head n m rest i x rs :
  fronts n m rest -> (i < n)%nat -> rest !! i = Some (x :: rs) ->
  record_ok E x /\ Forall (record_ok E) rs /\
  exists r p, mg_readers m !! i = Some r /\ mg_front m !! i = Some (Some p) /\ pending_of data p x /\
    at_run data (rr_pos r) (rr_end r) rs.
Proof.
  intros [_ _ H3 H4 _] Hn Hi. pose proof (Forall_lookup_1 _ _ _ _ H4 Hi) as [Hx Hrs]%Forall_cons.
  destruct (H3 i _ Hi) as (r & f & Hr & Hf & Ho). rewrite decide_True in Ho by exact Hn. destruct f as [p|]; [|now destruct Ho].
  destruct Ho as (x' & rs' & [= <- <-] & Hp & Hat). repeat split; try apply Hx; auto. exists r, p. auto.
Qed.

Lemma live_record n m rest i : fronts n m rest -> live rest i -> exists x rs, rest !! i = Some (x :: rs) /\ record_ok E x.
Proof.
  intros [_ _ _ H4 _] (x & rs & Hi). pose proof (Forall_lookup_1 _ _ _ _ H4 Hi) as [Hx _]%Forall_cons. eauto.
Qed.

Lemma run_less_le n m rest a b :
  fronts n m rest -> live rest a -> live rest b -> run_less rest a b = true -> le (run_less rest) a b.
Proof.
  intros Hf Ha Hb. destruct (live_record n m rest a Hf Ha) as (x & ? & Hx & Hxo), (live_record n m rest b Hf Hb) as (y & ? & Hy & Hyo).
  unfold le, run_less, head_cmp. rewrite Hx, Hy, (rec_cmp_opp E x y Hxo Hyo). destruct (rec_cmp E x y); simpl; congruence.
Qed.

Lemma run_le_iff n m rest a b x xs y ys :
  fronts n m rest -> rest !! a = Some (x :: xs) -> rest !! b = Some (y :: ys) ->
  le (run_less rest) a b <-> rec_le E x y.
Proof.
  intros Hf Ha Hb. destruct (live_record n m rest a Hf) as (? & ? & Ha' & Hx); [now exists x, xs|].
  destruct (live_record n m rest b Hf) as (? & ? & Hb' & Hy); [now exists y, ys|]. simplify_eq.
  unfold le, run_less, head_cmp, rec_le. rewrite Ha, Hb, (rec_cmp_opp E _ _ Hx Hy).
  destruct (rec_cmp E _ _); simpl; split; congruence.
Qed.

Lemma run_le_trans n m rest a b c :
  fronts n m rest -> live rest a -> live rest b -> live rest c ->
  le (run_less rest) a b -> le (run_less rest) b c -> le (run_less rest) a c.
Proof.
  intros Hf Ha Hb Hc.
  destruct (live_record n m rest a Hf Ha) as (x & ? & Hx & Hxo), (live_record n m rest b Hf Hb) as (y & ? & Hy & Hyo),
    (live_record n m rest c Hf Hc) as (z & ? & Hz & Hzo).
  rewrite (run_le_iff n m rest a b), (run_le_iff n m rest b c), (run_le_iff n m rest a c) by eauto.
  now apply rec_le_trans.
Qed.

(** ** Comparing and sifting *)

Lemma fronts_set_heap n m rest h : fronts n m rest -> fronts n (set_heap h m) rest.
Proof. intros [H1 H2 H3 H4 H5]. now split. Qed.

Lemma wp_merger (Q : Merger -> File * Merger -> Prop) s : Q (snd s) s -> wp merger Q B s.
Proof. intros HQ. unfold merger. now wp_run. Qed.

Lemma wp_on_merger f (Q : unit -> File * Merger -> Prop) s : Q tt (fst s, f (snd s)) -> wp (on_merger f) Q B s.
Proof. intros HQ. unfold on_merger. now wp_run. Qed.

Lemma wp_at_heap i x (Q : nat -> File * Merger -> Prop) s :
  mg_heap (snd s) !! i = Some x -> Q x s -> wp (at_heap i) Q B s.
Proof. intros Hi HQ. unfold at_heap. apply wp_bind, wp_merger, wp_expect. eauto. Qed.

Lemma wp_heap_compare n a b file m rest (Q : comparison -> File * Merger -> Prop) :
  fronts n m rest -> (a < n)%nat -> (b < n)%nat -> live rest a -> live rest b ->
  Q (head_cmp rest a b) (file, m) -> wp (heap_compare E a b) Q B (file, m).
Proof.
  intros Hf Han Hbn (x & xs & Ha) (y & ys & Hb) HQ.
  destruct (fronts_head n m rest a x xs Hf Han Ha) as (Hx & _ & ra & pa & _ & Hfa & Hpa & _).
  destruct (fronts_head n m rest b y ys Hf Hbn Hb) as (Hy & _ & rb & pb & _ & Hfb & Hpb & _).
  unfold heap_compare. apply wp_bind, wp_merger, wp_bind, wp_expect. exists (Some pa). split; [exact Hfa|].
  apply wp_bind, wp_expect. exists (Some pb). split; [exact Hfb|].
  rewrite (po_key _ _ _ Hpa), (po_key _ _ _ Hpb), (po_seq _ _ _ Hpa), (po_seq _ _ _ Hpb).
  rewrite (compare_ok _ _ (ro_key E x Hx) (ro_key E y Hy)). unfold head_cmp in HQ. rewrite Ha, Hb in HQ. unfold rec_cmp, cmp_then in HQ.
  destruct (ord (rec_key x) (rec_key y)); apply wp_ret; exact HQ.
Qed.

(** The heap lists live runs that have been looked at. *)
Definition heap_ok (n : nat) (rest : list (list SpoolRecord)) (h : list nat) : Prop :=
  Forall (fun i => live rest i /\ (i < n)%nat) h.

Lemma sift_loop_ok n fuel : forall i file m rest,
  fronts n m rest -> heap_ok n rest (mg_heap m) ->
  wp (sift_loop E fuel i)
    (fun _ s => s = (file, set_heap (Heap.sift (run_less rest) fuel i (mg_heap m)) m)) B (file, m).
Proof.
  induction fuel as [|fuel IH]; intros i file m rest Hf Hh; cbn [sift_loop Heap.sift].
  { apply wp_ret. now destruct m. }
  apply wp_bind, wp_merger. cbn [snd]. set (h := mg_heap m) in *.
  destruct (Nat.leb_spec (length h) (2 * i + 1)) as [Hle|Hlt]; [apply wp_ret; now destruct m|].
  assert (forall j, (j < length h)%nat -> h !! j = Some (h !!! j)) as Hlk
    by (intros j Hj; now apply list_lookup_lookup_total_lt).
  assert (forall j, (j < length h)%nat -> live rest (h !!! j) /\ (h !!! j < n)%nat) as Hlive
    by (intros j Hj; exact (Forall_lookup_1 _ _ _ _ Hh (Hlk j Hj))).
  apply wp_bind. eapply wp_at_heap; [apply Hlk; lia|]. apply wp_bind. eapply wp_at_heap; [apply Hlk; lia|].
  apply wp_bind. eapply wp_mono; [|intros c s' Hc; exact Hc | intros e He; exact He].
  assert (wp (if (2 * i + 1 + 1 <? length h)%nat then
                let! hr := at_heap (2 * i + 1 + 1) in
                let! c := heap_compare E hr (h !!! (2 * i + 1)%nat) in
                sret match c with Lt => (2 * i + 1 + 1)%nat | _ => (2 * i + 1)%nat end
              else sret (2 * i + 1)%nat)
            (fun s t => s = smaller_child (run_less rest) i h /\ t = (file, m)) B (file, m)) as Hsmall.
  { unfold smaller_child. destruct (Nat.ltb_spec (2 * i + 1 + 1) (length h)); [|apply wp_ret; auto].
    apply wp_bind. eapply wp_at_heap; [apply Hlk; assumption|]. apply wp_bind.
    eapply wp_heap_compare; [exact Hf | apply Hlive; lia..|]. apply wp_ret. unfold run_less. cbn [andb].
    destruct (head_cmp _ _ _); auto. }
  eapply wp_mono; [exact Hsmall | | intros e He; exact He]. intros s t [-> ->].
  destruct (smaller_child_cases (run_less rest) i h Hlt) as [_ Hs]. set (s := smaller_child _ i h) in *.
  apply wp_bind. eapply wp_at_heap; [apply Hlk; exact Hs|]. apply wp_bind.
  eapply wp_heap_compare; [exact Hf | apply Hlive; lia..|].
  unfold run_less at 1. destruct (head_cmp rest (h !!! s) (h !!! i)); try (apply wp_ret; now destruct m).
  apply wp_bind, wp_on_merger. cbn [fst snd]. fold h. fold (Heap.swap i s h).
  eapply wp_mono; [apply (IH s file (set_heap (Heap.swap i s h) m) rest) | | intros e He; exact He].
  - now apply fronts_set_heap.
  - unfold heap_ok. cbn [mg_heap set_heap]. rewrite swap_permutation by lia. exact Hh.
  - intros [] t ->. reflexivity.
Qed.

(** ** The merge *)

Record merging (m : Merger) (rest : list (list SpoolRecord)) : Prop := {
  me_fronts : fronts (length rest) m rest;
  me_nodup : NoDup (mg_heap m);
  me_live : forall i, i ∈ mg_heap m <-> live rest i;
  me_heap : heap_from (run_less rest) 0 (mg_heap m);
  me_sorted : Forall (StronglySorted (rec_le E)) rest;
}.

Lemma live_lt rest i : live rest i -> (i < length rest)%nat.
Proof. intros (x & rs & Hi). now apply lookup_lt_Some in Hi. Qed.

Lemma heap_ok_live rest h : (forall i, i ∈ h -> live rest i) -> heap_ok (length rest) rest h.
Proof. intros Hh. apply Forall_forall. intros i Hi. split; [auto|]. apply live_lt. auto. Qed.

(** The run at the root has the least record of all. *)
Lemma root_least m rest run heap :
  merging m rest -> mg_heap m = run :: heap ->
  exists x rs, rest !! run = Some (x :: rs) /\ forall y, y ∈ concat rest -> rec_le E x y.
Proof.
  intros [Hf Hnd Hlive Hh Hs] Hm. assert (live rest run) as (x & rs & Hrun) by (apply Hlive; rewrite Hm; left).
  exists x, rs. split; [exact Hrun|]. intros y Hy. apply elem_of_concat in Hy as (j & ys & Hj & Hy).
  destruct ys as [|z zs]; [inversion Hy|].
  pose proof (fr_records _ _ _ Hf) as Hok. pose proof (Forall_lookup_1 _ _ _ _ Hok Hrun) as [Hx _]%Forall_cons.
  pose proof (Forall_lookup_1 _ _ _ _ Hok Hj) as Hzs. pose proof (Forall_lookup_1 _ _ _ _ Hs Hj) as Hsj.
  assert (rec_le E x z) as Hxz.
  { apply (run_le_iff _ m rest run j x rs z zs Hf Hrun Hj).
    assert (j ∈ mg_heap m) as [k Hk]%list_elem_of_lookup by (apply Hlive; now exists z, zs).
    pose proof (heap_root (run_less rest) (live rest) (fun a b => run_less_le _ m rest a b Hf)
      (fun a b c => run_le_trans _ m rest a b c Hf) (mg_heap m) k) as Hroot.
    rewrite (list_lookup_total_correct _ _ _ Hk) in Hroot. rewrite Hm in Hroot at 4. apply Hroot.
    - apply Forall_forall. intros i Hi. now apply Hlive.
    - exact Hh.
    - now apply lookup_lt_Some in Hk. }
  apply Forall_cons in Hzs as [Hz Hzs]. apply StronglySorted_inv in Hsj as [_ Hsj].
  apply elem_of_cons in Hy as [->|Hy]; [exact Hxz|]. rewrite Forall_forall in Hsj, Hzs.
  apply (rec_le_trans E x z y); auto.
Qed.

Lemma refill_ok i file m r f0 rs :
  f_data file = data ++ more -> mg_readers m !! i = Some r -> mg_front m !! i = Some f0 ->
  at_run data (rr_pos r) (rr_end r) rs -> Forall (record_ok E) rs ->
  wp (refill i)
    (fun _ s => exists f r', f_data (fst s) = data ++ more /\ front_of f r' rs /\
       snd s = set_front (<[i := f]> (mg_front m)) (set_readers (<[i := r']> (mg_readers m)) m)) B (file, m).
Proof.
  intros Hd Hr Hf Hat Hok. unfold refill. apply wp_bind, wp_merger, wp_bind, wp_expect. exists r. split; [exact Hr|].
  apply wp_bind. unfold in_file. apply wp_zoom. cbn [fst snd].
  eapply wp_mono; [exact (read_next_ok E B data more r rs file Hd Hat Hok) | | intros e He; exact He].
  intros [f r'] file' [Hd' Hout]. apply wp_bind, wp_expect. exists f0. split; [exact Hf|].
  apply wp_on_merger. cbn [fst snd]. exists f, r'. split; [exact Hd'|]. split; [|reflexivity].
  destruct rs as [|x rs].
  - injection Hout as -> ->. simpl. auto.
  - destruct Hout as (p & r'' & [= -> ->] & Hp & Hat'). simpl. eauto 6.
Qed.

(** A run moves on by one record. *)
Lemma fronts_advance n m rest i f r rs front :
  fronts n m rest -> (i < n)%nat -> (i < length rest)%nat -> front_of f r rs -> Forall (record_ok E) rs ->
  length front = length rest -> (forall j, j <> i -> front !! j = mg_front m !! j) ->
  fronts n (mkMerger (<[i := r]> (mg_readers m)) (<[i := f]> front) (mg_heap m) None) (<[i := rs]> rest).
Proof.
  intros [H1 H2 H3 H4 H5] Hn Hi Hf Hok Hlen Hfr. split; simpl; rewrite ?length_insert; auto.
  - intros j rs' Hj. destruct (decide (j = i)) as [->|Hne].
    + rewrite list_lookup_insert_eq in Hj by exact Hi. injection Hj as <-. exists r, f.
      rewrite !list_lookup_insert_eq by lia. rewrite decide_True by exact Hn. auto.
    + rewrite list_lookup_insert_ne in Hj by congruence. rewrite !list_lookup_insert_ne by congruence. rewrite Hfr by exact Hne. auto.
  - now apply Forall_insert.
Qed.

(** Only what is below the root has to be in order before the root is sifted. *)
Lemma heap_from_below rest rest' run h h' :
  heap_from (run_less rest) 0 h -> NoDup h -> h !! 0%nat = Some run -> (length h' <= length h)%nat ->
  (forall j, (0 < j < length h')%nat -> h' !! j = h !! j) ->
  (forall i, i <> run -> rest' !! i = rest !! i) ->
  heap_from (run_less rest') 1 h'.
Proof.
  intros Hh Hnd Hrun Hlen Heq Hrest j Hj Hp. pose proof (parent_lt j ltac:(lia)) as Hlt.
  assert (forall k, (0 < k < length h')%nat -> h' !!! k = h !!! k /\ h !!! k <> run) as Hk.
  { intros k Hk. split; [now rewrite !list_lookup_total_alt, Heq|]. intros Hc.
    assert (h !! k = Some run) as Hr by (rewrite <- Hc; apply list_lookup_lookup_total_lt; lia).
    pose proof (NoDup_lookup h _ _ _ Hnd Hr Hrun). lia. }
  destruct (Hk j ltac:(lia)) as [-> Hj'], (Hk (parent j) ltac:(lia)) as [-> Hp'].
  specialize (Hh j ltac:(lia) ltac:(lia)). unfold le, run_less, head_cmp in *. now rewrite !Hrest.
Qed.

Lemma sift_down_ok n i file m rest :
  fronts n m rest -> heap_ok n rest (mg_heap m) ->
  wp (sift_down E i)
    (fun _ s => s = (file, set_heap (Heap.sift (run_less rest) (length (mg_heap m)) i (mg_heap m)) m)) B (file, m).
Proof. intros Hf Hh. unfold sift_down. apply wp_bind, wp_merger. now apply (sift_loop_ok n). Qed.

Lemma wp_check file m (Q : unit -> File * Merger -> Prop) :
  mg_failure m = None -> Q tt (file, m) -> wp check Q B (file, m).
Proof.
  intros Hf HQ. unfold check. apply wp_bind, wp_merger, wp_bind, wp_on_merger. simpl. rewrite Hf. apply wp_ret.
  destruct m. simpl in *. subst. exact HQ.
Qed.

(** Sifting the root of a heap that is in order below it. *)
Lemma sift_merging file m rest h :
  fronts (length rest) m rest -> Forall (StronglySorted (rec_le E)) rest ->
  mg_heap m = h -> NoDup h -> (forall i, i ∈ h <-> live rest i) -> heap_from (run_less rest) 1 h ->
  wp (sift_down E 0) (fun _ s => fst s = file /\ merging (snd s) rest) B (file, m).
Proof.
  intros Hf Hs <- Hnd Hl Hh.
  assert (heap_ok (length rest) rest (mg_heap m)) as Hok by (apply heap_ok_live; intros i; apply Hl).
  eapply wp_mono; [exact (sift_down_ok _ 0 file m rest Hf Hok) | | intros e He; exact He].
  intros [] s ->. simpl. split; [reflexivity|].
  destruct (sift_root (run_less rest) (live rest) (fun a b => run_less_le _ m rest a b Hf)
    (fun a b c => run_le_trans _ m rest a b c Hf) (length (mg_heap m)) (mg_heap m)) as [H1 H2]; [|lia | exact Hh|].
  { apply Forall_forall. intros i Hi. now apply Hl. }
  split; simpl; auto.
  - now apply fronts_set_heap.
  - now rewrite H2.
  - intros i. rewrite H2. apply Hl.
Qed.

Lemma no_live rest : (forall i, ~ live rest i) -> concat rest = [].
Proof.
  intros Hn. induction rest as [|[|x xs] rest IH]; [reflexivity | |].
  - apply IH. intros i (x & rs & Hi). apply (Hn (S i)). now exists x, rs.
  - exfalso. apply (Hn O). now exists x, xs.
Qed.

Lemma live_insert rest run rs i :
  (run < length rest)%nat -> live (<[run := rs]> rest) i <-> (i = run /\ rs <> []) \/ (i <> run /\ live rest i).
Proof.
  intros Hr. unfold live. destruct (decide (i = run)) as [->|Hne].
  - rewrite list_lookup_insert_eq by exact Hr. split.
    + intros (x & xs & [= ->]). left. split; [reflexivity | discriminate].
    + intros [[_ H]|[H _]]; [|contradiction]. destruct rs as [|x xs]; [contradiction | eauto].
  - rewrite list_lookup_insert_ne by congruence. split; [intros H; right; auto|]. intros [[H _]|[_ H]]; [contradiction | exact H].
Qed.

(** What [next_pending] hands out and what is left. *)
Definition emitted (m : Merger) (rest : list (list SpoolRecord)) (x : option SpoolRecord) (m' : Merger) : Prop :=
  match x with
  | None => concat rest = [] /\ m' = m
  | Some x => exists run rs, rest !! run = Some (x :: rs) /\ (forall y, y ∈ concat rest -> rec_le E x y) /\
      merging m' (<[run := rs]> rest)
  end.

Lemma pop_heap (run x : nat) (h mid : list nat) :
  h = run :: mid ++ [x] -> NoDup h ->
  removelast h = run :: mid /\ last h = Some x /\ NoDup (x :: mid) /\ (forall i, i ∈ x :: mid <-> i ∈ h /\ i <> run).
Proof.
  intros -> Hnd. rewrite app_comm_cons, removelast_last, last_snoc.
  apply NoDup_cons in Hnd as [Hrun Hnd]. assert (NoDup (x :: mid)) as Hnd'
    by (eapply NoDup_Permutation_proper; [apply Permutation_cons_append | exact Hnd]).
  split_and!; auto. intros i.
  assert (i ∈ (run :: mid) ++ [x] <-> i = run \/ i ∈ x :: mid) as -> by (rewrite elem_of_app, !elem_of_cons, elem_of_nil; tauto).
  assert (i ∈ x :: mid -> i <> run); [|tauto]. intros Hi ->. apply Hrun. rewrite elem_of_app, list_elem_of_singleton.
  apply elem_of_cons in Hi. tauto.
Qed.

(** Once the root has read on, the heap is put in order again. *)
Lemma reheap_ok file m m' rest run heap x f r rs :
  merging m rest -> mg_heap m = run :: heap -> rest !! run = Some (x :: rs) -> front_of f r rs ->
  m' = mkMerger (<[run := r]> (mg_readers m)) (<[run := f]> (mg_front m)) (mg_heap m) None ->
  wp (reheap E run) (fun _ s => fst s = file /\ merging (snd s) (<[run := rs]> rest)) B (file, m').
Proof.
  intros Hm Hheap Hrun Hfo Hm'. pose proof Hm as [Hf Hnd Hlive Hh Hs]. pose proof (lookup_lt_Some _ _ _ Hrun) as Hlt.
  pose proof (Forall_lookup_1 _ _ _ _ (fr_records _ _ _ Hf) Hrun) as [_ Hok]%Forall_cons.
  set (rest' := <[run := rs]> rest).
  assert (fronts (length rest') m' rest') as Hf'.
  { subst m'. unfold rest'. rewrite length_insert. apply (fronts_advance _ m rest run f r rs (mg_front m)); auto.
    apply (fr_front _ _ _ Hf). }
  assert (Forall (StronglySorted (rec_le E)) rest') as Hs'.
  { apply Forall_insert; [exact Hs|]. pose proof (Forall_lookup_1 _ _ _ _ Hs Hrun) as Hsr. now apply StronglySorted_inv in Hsr. }
  assert (forall i, i <> run -> rest' !! i = rest !! i) as Hsame by (intros i Hi; now apply list_lookup_insert_ne).
  assert (mg_heap m !! 0%nat = Some run) as H0 by now rewrite Hheap. assert (mg_heap m' = mg_heap m) as Hmh by now subst m'.
  unfold reheap. apply wp_bind, wp_merger, wp_bind, wp_expect. cbn [snd]. exists f. split.
  { subst m'. simpl. apply list_lookup_insert_eq. now rewrite (fr_front _ _ _ Hf). }
  destruct f as [p'|].
  - apply (sift_merging file m' rest' (mg_heap m) Hf' Hs' Hmh Hnd).
    + intros i. unfold rest'. rewrite live_insert, Hlive by exact Hlt.
      destruct (decide (i = run)) as [->|]; [|tauto]. destruct Hfo as (y & ys & -> & _).
      assert (live rest run) by now exists x, (y :: ys). intuition discriminate.
    + now apply (heap_from_below rest rest' run (mg_heap m)).
  - destruct Hfo as [-> _]. rewrite Hmh. destruct heap as [|y heap _] using rev_ind.
    + rewrite Hheap. apply wp_bind, wp_expect. exists run. split; [reflexivity|].
      apply wp_bind, wp_on_merger, wp_bind, wp_merger. cbn [fst snd set_heap mg_heap]. rewrite Hmh, Hheap. apply wp_ret.
      split; [reflexivity|]. split; simpl; [now apply fronts_set_heap | constructor | | intros j Hj; simpl in Hj; lia | exact Hs'].
      intros i. unfold rest'. rewrite live_insert, <- Hlive, Hheap, list_elem_of_singleton, elem_of_nil by exact Hlt. tauto.
    + destruct (pop_heap run y (mg_heap m) heap Hheap Hnd) as (Hrl & Hla & Hnd' & Hin).
      apply wp_bind, wp_expect. exists y. split; [exact Hla|]. apply wp_bind, wp_on_merger, wp_bind, wp_merger.
      cbn [fst snd set_heap mg_heap]. rewrite Hmh, Hrl. apply wp_bind, wp_on_merger. cbn [fst snd set_heap mg_heap].
      apply (sift_merging file _ rest' (y :: heap)); try assumption; try reflexivity.
      * exact (fronts_set_heap _ _ _ _ (fronts_set_heap _ _ _ _ Hf')).
      * intros i. unfold rest'. rewrite live_insert, <- Hlive, Hin by exact Hlt. intuition.
      * apply (heap_from_below rest rest' run (mg_heap m)); auto; rewrite Hheap; simpl; [rewrite length_app; simpl; lia|].
        intros [|j] Hj; [lia|]. simpl in *. now rewrite lookup_app_l by lia.
Qed.

Lemma next_pending_ok file m rest :
  f_data file = data ++ more -> merging m rest ->
  wp (next_pending E)
    (fun out s => f_data (fst s) = data ++ more /\
       exists x, emitted m rest x (snd s) /\
         match out, x with Some p, Some x => pending_of data p x | None, None => True | _, _ => False end) B (file, m).
Proof.
  intros Hd Hm. unfold next_pending. apply wp_bind, wp_merger. cbn [snd].
  destruct (mg_heap m) as [|run heap] eqn:Hheap.
  { apply wp_ret. split; [exact Hd|]. exists None. simpl. split; [|exact I]. split; [|reflexivity]. apply no_live.
    intros i Hi. apply (me_live _ _ Hm) in Hi. rewrite Hheap in Hi. inversion Hi. }
  destruct (root_least m rest run heap Hm Hheap) as (x & rs & Hrun & Hleast).
  pose proof (me_fronts _ _ Hm) as Hf. pose proof (lookup_lt_Some _ _ _ Hrun) as Hlt.
  destruct (fronts_head _ m rest run x rs Hf Hlt Hrun) as (Hx & Hrs & r & p & Hr & Hp & Hpx & Hat).
  apply wp_bind, wp_expect. exists (Some p). split; [exact Hp|]. apply wp_bind, wp_on_merger. cbn [fst snd].
  assert ((run < length (mg_front m))%nat) as Hlf by (rewrite (fr_front _ _ _ Hf); exact Hlt).
  apply wp_bind. eapply wp_mono; [eapply (refill_ok run file _ r None rs Hd) | | intros e He; exact He].
  { exact Hr. } { simpl. now rewrite list_lookup_insert_eq. } { exact Hat. } { exact Hrs. }
  intros [] [file' m'] (f & r' & Hd' & Hfo & Hm'). simpl in Hd', Hm'. rewrite list_insert_insert_eq in Hm'.
  unfold set_front, set_readers in Hm'. simpl in Hm'. rewrite (fr_failure _ _ _ Hf) in Hm'.
  apply wp_bind. eapply wp_mono; [exact (reheap_ok file' m m' rest run heap x f r' rs Hm Hheap Hrun Hfo Hm') | | intros e He; exact He].
  intros [] [file'' m''] [Hfile Hm'']. simpl in Hfile, Hm''. subst file''.
  apply wp_bind, wp_check; [exact (fr_failure _ _ _ (me_fronts _ _ Hm''))|]. apply wp_ret. split; [exact Hd'|].
  exists (Some x). split; [|exact Hpx]. exists run, rs. auto.
Qed.

Lemma next_record_ok file m rest :
  f_data file = data ++ more -> merging m rest ->
  wp (merger_next_record E) (fun out s => f_data (fst s) = data ++ more /\ emitted m rest out (snd s)) B (file, m).
Proof.
  intros Hd Hm. unfold merger_next_record. apply wp_bind.
  eapply wp_mono; [exact (next_pending_ok file m rest Hd Hm) | | intros e He; exact He].
  intros out [file' m'] (Hd' & x & Hx & Ho). simpl in Hd', Hx. destruct out as [p|], x as [x|]; try contradiction.
  - apply wp_bind. unfold in_file. apply wp_zoom. cbn [fst].
    eapply wp_mono; [exact (read_value_ok B data more p x file' Hd' Ho) | | intros e He; exact He].
    intros value file'' [Hd'' ->]. apply wp_ret. cbn [fst snd]. split; [exact Hd''|].
    rewrite (po_seq _ _ _ Ho), (po_key _ _ _ Ho). now destruct x.
  - apply wp_ret. auto.
Qed.

(** ** Starting a merge *)

Record filling (n : nat) (m : Merger) (rest : list (list SpoolRecord)) : Prop := {
  fi_fronts : fronts n m rest;
  fi_nodup : NoDup (mg_heap m);
  fi_live : forall i, i ∈ mg_heap m <-> live rest i /\ (i < n)%nat;
}.

Lemma filling_step n m rest f r rs :
  filling n m rest -> rest !! n = Some rs -> front_of f r rs ->
  let m' := set_front (<[n := f]> (mg_front m)) (set_readers (<[n := r]> (mg_readers m)) m) in
  filling (S n) (match f with Some _ => set_heap (mg_heap m' ++ [n]) m' | None => m' end) rest.
Proof.
  intros [Hf Hnd Hl] Hn Hfo m'. pose proof (lookup_lt_Some _ _ _ Hn) as Hlt. destruct Hf as [H1 H2 H3 H4 H5].
  assert (fronts (S n) m' rest) as Hf'.
  { split; simpl; rewrite ?length_insert; auto. intros i rs' Hi. destruct (decide (i = n)) as [->|Hne].
    - replace rs' with rs by congruence. exists r, f. rewrite !list_lookup_insert_eq by lia. rewrite decide_True by lia. auto.
    - rewrite !list_lookup_insert_ne by congruence. destruct (H3 i rs' Hi) as (r' & f' & Hr' & Hf' & Ho). exists r', f'.
      split; [exact Hr'|]. split; [exact Hf'|]. repeat destruct (decide _); auto; lia. }
  assert (live rest n <-> rs <> []) as Hln.
  { unfold live. rewrite Hn. split; [intros (x & xs & [= ->]); discriminate|]. destruct rs as [|x xs]; [contradiction | eauto]. }
  assert (n ∉ mg_heap m) as Hnin by (rewrite Hl; lia).
  destruct f as [p|].
  - destruct Hfo as (x & xs & -> & _). split; simpl; [now apply fronts_set_heap | |].
    + apply NoDup_app. split; [exact Hnd|]. split; [|apply NoDup_singleton]. intros i Hi ->%list_elem_of_singleton. contradiction.
    + intros i. rewrite elem_of_app, Hl, list_elem_of_singleton. destruct (decide (i = n)) as [->|]; [|intuition lia].
      assert (live rest n) by (apply Hln; discriminate). intuition lia.
  - destruct Hfo as [-> _]. split; [exact Hf' | exact Hnd |]. intros i. simpl. rewrite Hl.
    destruct (decide (i = n)) as [->|]; [|intuition lia]. assert (~ live rest n) by (rewrite Hln; congruence). intuition lia.
Qed.

Lemma fill_front_ok runs : forall n file m rest,
  f_data file = data ++ more -> filling n m rest -> (n + runs = length rest)%nat ->
  wp (fill_front runs n) (fun _ s => f_data (fst s) = data ++ more /\ filling (length rest) (snd s) rest) B (file, m).
Proof.
  induction runs as [|runs IH]; intros n file m rest Hd Hfi Hn; cbn [fill_front].
  { apply wp_ret. replace n with (length rest) in Hfi by lia. auto. }
  destruct (lookup_lt_is_Some_2 rest n ltac:(lia)) as [rs Hrs]. pose proof (fi_fronts _ _ _ Hfi) as Hf.
  destruct (fr_runs _ _ _ Hf n rs Hrs) as (r & f & Hr & Hfr & Ho). rewrite decide_False in Ho by lia. destruct Ho as [-> Hat].
  apply wp_bind. eapply wp_mono; [apply (refill_ok n file m r None rs Hd Hr Hfr Hat) | | intros e He; exact He].
  { exact (Forall_lookup_1 _ _ _ _ (fr_records _ _ _ Hf) Hrs). }
  intros [] [file' m'] (f' & r' & Hd' & Hfo & Hm'). simpl in Hd', Hm'.
  pose proof (filling_step n m rest f' r' rs Hfi Hrs Hfo) as Hstep. cbv zeta in Hstep. rewrite <- Hm' in Hstep.
  apply wp_bind, wp_merger, wp_bind, wp_expect. cbn [snd]. exists f'. split.
  { rewrite Hm'. simpl. apply list_lookup_insert_eq. rewrite (fr_front _ _ _ Hf). lia. }
  destruct f' as [p|]; apply wp_bind; [apply wp_on_merger | apply wp_ret]; cbn [fst snd]; apply IH; auto; lia.
Qed.

Lemma sift_all_ok n : forall file m rest,
  fronts (length rest) m rest -> NoDup (mg_heap m) -> (forall i, i ∈ mg_heap m <-> live rest i) ->
  Forall (StronglySorted (rec_le E)) rest -> heap_from (run_less rest) n (mg_heap m) ->
  wp (sift_all E n) (fun _ s => fst s = file /\ merging (snd s) rest) B (file, m).
Proof.
  induction n as [|n IH]; intros file m rest Hf Hnd Hl Hs Hh; cbn [sift_all]; [apply wp_ret; split; [reflexivity | now split]|].
  assert (heap_ok (length rest) rest (mg_heap m)) as Hok by (apply heap_ok_live; intros i; apply Hl).
  apply wp_bind. eapply wp_mono; [exact (sift_down_ok _ n file m rest Hf Hok) | | intros e He; exact He].
  intros [] s ->.
  destruct (sift_node (run_less rest) (live rest) (fun a b => run_less_le _ m rest a b Hf)
    (fun a b c => run_le_trans _ m rest a b c Hf) (length (mg_heap m)) n (mg_heap m)) as [H1 H2]; [|lia | exact Hh|].
  { apply Forall_forall. intros i Hi. now apply Hl. }
  apply IH; simpl; auto; [now apply fronts_set_heap | now rewrite H2 |]. intros i. rewrite H2. apply Hl.
Qed.

(** Runs in order, each from its reader's position to its end. *)
Lemma Merger_new_ok readers file m rest :
  f_data file = data ++ more -> Forall2 (fun r rs => at_run data (rr_pos r) (rr_end r) rs) readers rest ->
  Forall (Forall (record_ok E)) rest -> Forall (StronglySorted (rec_le E)) rest ->
  wp (Merger_new E readers) (fun _ s => f_data (fst s) = data ++ more /\ merging (snd s) rest) B (file, m).
Proof.
  intros Hd HF Hok Hs. unfold Merger_new. apply wp_bind, wp_on_merger. cbn [fst snd].
  pose proof (Forall2_length _ _ _ HF) as Hlen. set (m0 := mkMerger _ _ _ _).
  assert (filling 0 m0 rest) as H0.
  { split; simpl; [|constructor | intros i; rewrite elem_of_nil; intuition lia]. split; unfold m0; cbn [mg_readers mg_front mg_failure]; rewrite ?length_replicate; auto.
    intros i rs Hi. destruct (Forall2_lookup_r _ _ _ _ _ HF Hi) as (r & Hr & Hat). exists r, None. split; [exact Hr|].
    split; [apply lookup_replicate; split; [reflexivity|]; now apply lookup_lt_Some in Hr|]. rewrite decide_False by lia. auto. }
  apply wp_bind. rewrite Hlen. eapply wp_mono; [apply (fill_front_ok (length rest) 0 file m0 rest Hd H0); lia | | intros e He; exact He].
  intros [] [file' m'] [Hd' [Hf Hnd Hl]]. simpl in Hd', Hf, Hnd, Hl. apply wp_bind, wp_merger, wp_bind. cbn [snd].
  eapply wp_mono; [apply (sift_all_ok _ file' m' rest Hf Hnd) | | intros e He; exact He].
  - intros i. rewrite Hl. split; [tauto|]. intros Hi. split; [exact Hi | now apply live_lt].
  - exact Hs.
  - apply heap_from_half. lia.
  - intros [] [file'' m''] [Hfile Hm]. simpl in Hfile, Hm. subst file''.
    apply wp_check; [exact (fr_failure _ _ _ (me_fronts _ _ Hm)) | auto].
Qed.

Lemma concat_remove (rest : list (list SpoolRecord)) i x rs :
  rest !! i = Some (x :: rs) -> concat rest ≡ₚ x :: concat (<[i := rs]> rest).
Proof.
  revert i. induction rest as [|r rest IH]; intros [|i] Hi; simpl in *; try discriminate.
  - now injection Hi as ->.
  - etransitivity; [apply Permutation_app_head, (IH i Hi)|]. symmetry. apply Permutation_middle.
Qed.

Lemma emitted_step m rest x m' :
  emitted m rest (Some x) m' ->
  exists rest', merging m' rest' /\ concat rest ≡ₚ x :: concat rest' /\ Forall (rec_le E x) (concat rest').
Proof.
  intros (run & rs & Hrun & Hle & Hm'). exists (<[run := rs]> rest). split; [exact Hm'|].
  pose proof (concat_remove rest run x rs Hrun) as Hp. split; [exact Hp|]. apply Forall_forall. intros y Hy. apply Hle.
  rewrite Hp. now right.
Qed.

Lemma merging_records m rest : merging m rest -> Forall (record_ok E) (concat rest).
Proof. intros Hm. apply Forall_concat. exact (fr_records _ _ _ (me_fronts _ _ Hm)). Qed.

(** [while let Some(record) = next_record()?], collecting what comes. *)
Fixpoint merge_all (fuel : nat) : IO (File * Merger) (list SpoolRecord) :=
  match fuel with
  | O => sfail OutOfFuel
  | S fuel =>
      let! r := merger_next_record E in
      match r with
      | None => sret []
      | Some x => let! xs := merge_all fuel in sret (x :: xs)
      end
  end.

Lemma merge_all_ok fuel : forall file m rest,
  f_data file = data ++ more -> merging m rest -> (length (concat rest) < fuel)%nat ->
  wp (merge_all fuel) (fun out _ => out ≡ₚ concat rest /\ StronglySorted (rec_le E) out) B (file, m).
Proof.
  induction fuel as [|fuel IH]; intros file m rest Hd Hm Hlen; [lia|]. cbn [merge_all]. apply wp_bind.
  eapply wp_mono; [exact (next_record_ok file m rest Hd Hm) | | intros e He; exact He].
  intros [x|] [file' m'] [Hd' He]; simpl in Hd', He.
  - destruct (emitted_step m rest x m' He) as (rest' & Hm' & Hp & Hle). apply wp_bind.
    eapply wp_mono; [apply (IH file' m' rest' Hd' Hm') | | intros e Hx; exact Hx].
    { rewrite Hp in Hlen. simpl in Hlen. lia. }
    intros xs ? [Hxs Hsx]. apply wp_ret. split; [rewrite Hp; now constructor|].
    constructor; [exact Hsx|]. now rewrite Hxs.
  - destruct He as [He ->]. apply wp_ret. rewrite He. split; [reflexivity | constructor].
Qed.
End Merging.
