(* ===== verification/Spool.v ===== *)
(** Bounded sorting of build input, [crates/drydb/src/builder/spool.rs].

    A [RecordSpool] buffers records up to a byte budget, sorts the buffer and
    writes it out as a run; runs of one level are merged as they pile up, dead
    space is compacted away, and at the end the remaining runs are merged on the
    fly.  [spool_sorts] says that none of this shows: what comes out is what went
    in, by key and, between equal keys, in the order it went in.

    The file is one of [Effects.v]: every file operation may fail.  A failure
    while writing spoils the spool for good.  What vectors allocate is a
    parameter ([VecAlloc]); it decides when the buffer is written out and nothing
    else. *)

From Stdlib Require Import ZArith Lia.
From stdpp Require Import base list sorting.
From coqutil Require Import Byte Word.LittleEndianList.
From S2P Require Import Prelude Errors Format Encoding Effects Sink Heap Merger.

#[local] Open Scope Z_scope.
#[local] Open Scope drydb_scope.

(** The new capacity of a vector, from the old one and the length wanted. *)
Class VecAlloc : Type := {
  vec_extend : Z -> Z -> Z;
  vec_shrink : Z -> Z -> Z;
}.

Record Slot : Set := mkSlot {
  sl_key_off : Z;
  sl_key_len : Z;
  sl_value_off : Z;
  sl_value_len : Z;
  sl_seq : Z;
}.

(** [size_of::<Slot>()] on a 64-bit target. *)
Definition SPOOL_SLOT_BYTES : Z := 40.

Record Run : Set := mkRun { run_start : Z; run_end : Z; run_level : Z }.
Definition run_len (r : Run) : Z := run_end r - run_start r.

Definition MERGE_FAN_IN : nat := 16.
Definition COMPACT_AT : Z := 2.
Definition SPOOL_WRITER_BYTES : Z := 256 * 1024.

Record RecordSpool : Type := mkRecordSpool {
  sp_dir : list byte;
  sp_data : list byte;
  sp_data_capacity : Z;
  sp_slots : list Slot;
  sp_slots_capacity : Z;
  sp_runs : list Run;
  sp_file : option File;
  sp_write_pos : Z;
  sp_budget : Z;
  sp_next_seq : Z;
  sp_count : Z;
  sp_spoiled : option ErrorKind;
  sp_written : Z;
}.

(** The stem of the file's name and the encoding are parameters of what follows. *)
Definition RecordSpool_new (dir : list byte) (budget : Z) : RecordSpool :=
  mkRecordSpool dir [] 0 [] 0 [] None 0 (Z.max budget (64 * 1024)) 0 0 None 0.

Definition set_buffer (data : list byte) (dc : Z) (slots : list Slot) (sc : Z) (s : RecordSpool) : RecordSpool :=
  mkRecordSpool (sp_dir s) data dc slots sc (sp_runs s) (sp_file s) (sp_write_pos s) (sp_budget s) (sp_next_seq s)
    (sp_count s) (sp_spoiled s) (sp_written s).
Definition set_slots (slots : list Slot) (s : RecordSpool) : RecordSpool :=
  set_buffer (sp_data s) (sp_data_capacity s) slots (sp_slots_capacity s) s.
Definition set_stored (runs : list Run) (file : option File) (write_pos written : Z) (s : RecordSpool) : RecordSpool :=
  mkRecordSpool (sp_dir s) (sp_data s) (sp_data_capacity s) (sp_slots s) (sp_slots_capacity s) runs file write_pos
    (sp_budget s) (sp_next_seq s) (sp_count s) (sp_spoiled s) written.
Definition set_spool_file (file : option File) (s : RecordSpool) : RecordSpool :=
  set_stored (sp_runs s) file (sp_write_pos s) (sp_written s) s.
Definition set_spoiled (k : ErrorKind) (s : RecordSpool) : RecordSpool :=
  mkRecordSpool (sp_dir s) (sp_data s) (sp_data_capacity s) (sp_slots s) (sp_slots_capacity s) (sp_runs s) (sp_file s)
    (sp_write_pos s) (sp_budget s) (sp_next_seq s) (sp_count s) (Some k) (sp_written s).

(** [set_budget] *)
Definition spool_set_budget (budget : Z) (s : RecordSpool) : RecordSpool :=
  mkRecordSpool (sp_dir s) (sp_data s) (sp_data_capacity s) (sp_slots s) (sp_slots_capacity s) (sp_runs s) (sp_file s)
    (sp_write_pos s) (Z.max budget (64 * 1024)) (sp_next_seq s) (sp_count s) (sp_spoiled s) (sp_written s).

(** [set_dir]: where the next temporary file will be. *)
Definition spool_set_dir (dir : list byte) (s : RecordSpool) : RecordSpool :=
  mkRecordSpool dir (sp_data s) (sp_data_capacity s) (sp_slots s) (sp_slots_capacity s) (sp_runs s) (sp_file s)
    (sp_write_pos s) (sp_budget s) (sp_next_seq s) (sp_count s) (sp_spoiled s) (sp_written s).

Definition spool_len (s : RecordSpool) : Z := sp_count s.

Definition buffered_bytes (s : RecordSpool) : Z :=
  saturating_add (sp_data_capacity s) (saturating_mul (sp_slots_capacity s) SPOOL_SLOT_BYTES).

(** * Sorting the buffer *)

Section Sort.
Context (E : KeyEncoding) (data : list byte).

Definition slot_key (s : Slot) : list byte := slice data (sl_key_off s) (sl_key_len s).
Definition slot_value (s : Slot) : list byte := slice data (sl_value_off s) (sl_value_len s).

(** The comparator of the sort; a comparison that fails counts as equal and the
    first failure is kept. *)
Definition compare_slots (a b : Slot) (failure : option Error) : comparison * option Error :=
  match ke_compare E (slot_key a) (slot_key b) with
  | Ok Eq => (sl_seq a ?= sl_seq b, failure)
  | Ok other => (other, failure)
  | Err e => (Eq, Some (default e failure))
  end.

(** [sort_unstable_by]: any sort will do, since no two slots compare equal. *)
Fixpoint insert_slot (x : Slot) (l : list Slot) (failure : option Error) : list Slot * option Error :=
  match l with
  | [] => ([x], failure)
  | y :: l' =>
      let '(c, failure) := compare_slots x y failure in
      match c with
      | Gt => let '(l', failure) := insert_slot x l' failure in (y :: l', failure)
      | _ => (x :: l, failure)
      end
  end.

Fixpoint sort_slots (l : list Slot) (failure : option Error) : list Slot * option Error :=
  match l with
  | [] => ([], failure)
  | x :: l => let '(l, failure) := sort_slots l failure in insert_slot x l failure
  end.
End Sort.

(** * Where a merge reads and writes *)

(** [Merging] reads runs from one file and writes to another. *)
Record Merging : Type := mkMerging { mi_in : File; mi_out : BufWriter; mi_merger : Merger }.

(** [Appending] reads runs from a file and, through a second handle, writes past
    their end in the same file. *)
Record Appending : Type := mkAppending { ap_cursor : Z; ap_out : BufWriter; ap_merger : Merger }.

Class MergeState (T : Type) : Type := {
  ms_get : T -> File * Merger;
  ms_put : File * Merger -> T -> T;
  ms_on_writer : (BufWriter -> BufWriter) -> T -> T;
}.

#[export] Instance Merging_state : MergeState Merging := {|
  ms_get := fun t => (mi_in t, mi_merger t);
  ms_put := fun s t => mkMerging (fst s) (mi_out t) (snd s);
  ms_on_writer := fun f t => mkMerging (mi_in t) (f (mi_out t)) (mi_merger t);
|}.

#[export] Instance Appending_state : MergeState Appending := {|
  ms_get := fun t => (mkFile (f_data (bw_inner (ap_out t))) (ap_cursor t), ap_merger t);
  ms_put := fun s t => mkAppending (f_cursor (fst s)) (ap_out t) (snd s);
  ms_on_writer := fun f t => mkAppending (ap_cursor t) (f (ap_out t)) (ap_merger t);
|}.

Definition Merger_none : Merger := mkMerger [] [] [] None.
Definition spool_writer (f : File) : BufWriter := mkBufWriter f [] SPOOL_WRITER_BYTES.

Definition run_reader (r : Run) : RunReader := mkRunReader (run_start r) (run_end r).

(** Rounds enough for a merge: a record takes at least a byte. *)
Definition merge_rounds (runs : list Run) : nat :=
  S (Z.to_nat (foldr Z.add 0 ((fun r => Z.max 0 (run_len r)) <$> runs))).

Section Spool.
Context {VA : VecAlloc} (E : KeyEncoding).

(** [while let Some(record) = merger.next_record(..)? { pos += write_record(..)? }] *)
Fixpoint merge_into {T} {MS : MergeState T} (fuel : nat) (pos : Z) : IO T Z :=
  match fuel with
  | O => sfail OutOfFuel
  | S fuel =>
      let! r := zoom ms_get ms_put (merger_next_record E) in
      match r with
      | None => sret pos
      | Some r =>
          let! n := write_record ms_on_writer (rec_seq r) (rec_key r) (rec_value r) in
          merge_into fuel (pos + n)
      end
  end.

(** One merge of [runs], whose output starts at [pos] and ends at the result. *)
Definition merge_runs {T} {MS : MergeState T} (runs : list Run) (pos : Z) : IO T Z :=
  let! _ := zoom ms_get ms_put (Merger_new E (run_reader <$> runs)) in
  let! pos := merge_into (merge_rounds runs) pos in
  let! _ := io (ms_on_writer bw_flush) in
  sret pos.

(** [runs.chunks(n)] *)
Fixpoint chunks_of {A} (fuel n : nat) (l : list A) : list (list A) :=
  match fuel with
  | O => []
  | S fuel => match l with [] => [] | _ => take n l :: chunks_of fuel n (drop n l) end
  end.
Definition chunks {A} (n : nat) (l : list A) : list (list A) := chunks_of (length l) n l.

Definition merged_level (chunk : list Run) : Z :=
  match chunk with
  | [r] => run_level r
  | _ => foldr Z.max 0 (run_level <$> chunk) + 1
  end.

Fixpoint merge_chunks (chunks : list (list Run)) (next_runs : list Run) (out_pos : Z)
    : IO Merging (list Run * Z) :=
  match chunks with
  | [] => sret (next_runs, out_pos)
  | chunk :: chunks =>
      let start := out_pos in
      let! out_pos := merge_runs chunk out_pos in
      merge_chunks chunks (next_runs ++ [mkRun start out_pos (merged_level chunk)]) out_pos
  end.

(** [merge_groups] reads [input] and returns the fresh file it wrote. *)
Definition merge_groups (input : File) (runs : list Run) (group : nat) {T} : IO T (File * list Run * Z) :=
  let! _ := io id in
  zoom (fun _ => mkMerging input (spool_writer File_empty) Merger_none) (fun _ t => t)
    (let! '(next_runs, out_pos) := merge_chunks (chunks group runs) [] 0 in
     let! m := here in
     sret (bw_inner (mi_out m), next_runs, out_pos)).

Definition rewrite_runs (input : File) (runs : list Run) {T} : IO T (File * list Run * Z) := merge_groups input runs 1.

(** * The spool's own operations *)

(** The spool takes the file a pass has written, once it has. *)
Definition move_runs (pass : File -> list Run -> IO RecordSpool (File * list Run * Z)) : IO RecordSpool unit :=
  let! s := here in
  let! input := expect (sp_file s) in
  let! '(output, next_runs, out_pos) := pass input (sp_runs s) in
  update (fun s => set_stored next_runs (Some output) out_pos (sp_written s + out_pos) s).

Definition spool_rewrite : IO RecordSpool unit := move_runs (fun input runs => rewrite_runs input runs).

(** [reduce_runs]; a pass leaves a sixteenth of the runs. *)
Fixpoint reduce_runs (fuel : nat) : IO RecordSpool unit :=
  match fuel with
  | O => sfail OutOfFuel
  | S fuel =>
      let! s := here in
      if (MERGE_FAN_IN <? length (sp_runs s))%nat then
        let! _ := move_runs (fun input runs => merge_groups input runs MERGE_FAN_IN) in
        reduce_runs fuel
      else sret tt
  end.

(** Merge the last [count] runs, appending to the file they are in. *)
Definition merge_tail (count : nat) (level : Z) : IO RecordSpool unit :=
  let! s := here in
  let at_ := (length (sp_runs s) - count)%nat in
  let! file := expect (sp_file s) in
  let start := sp_write_pos s in
  let! _ := io id in
  let! _ := io id in
  let! end_ := zoom (fun _ => mkAppending (f_cursor file) (spool_writer (mkFile (f_data file) start)) Merger_none)
    (fun t s => set_spool_file (Some (mkFile (f_data (bw_inner (ap_out t))) (ap_cursor t))) s)
    (merge_runs (drop at_ (sp_runs s)) start) in
  update (fun s => set_stored (take at_ (sp_runs s) ++ [mkRun start end_ level]) (sp_file s) end_
                     (sp_written s + (end_ - start)) s).

Fixpoint merge_tiers_loop (fuel : nat) : IO RecordSpool unit :=
  match fuel with
  | O => sfail OutOfFuel
  | S fuel =>
      let! s := here in
      let runs := sp_runs s in
      if (MERGE_FAN_IN <=? length runs)%nat then
        let tail := drop (length runs - MERGE_FAN_IN) runs in
        let! first := expect (head tail) in
        let level := run_level first in
        if existsb (fun r => negb (run_level r =? level)) tail then sret tt
        else
          let! _ := merge_tail MERGE_FAN_IN (level + 1) in
          merge_tiers_loop fuel
      else sret tt
  end.

Definition merge_tiers : IO RecordSpool unit :=
  let! s := here in
  let! _ := merge_tiers_loop (S (length (sp_runs s))) in
  let! s := here in
  let live := foldr Z.add 0 (run_len <$> sp_runs s) in
  if (saturating_mul live COMPACT_AT <? sp_write_pos s) && (1 <? length (sp_runs s))%nat
  then spool_rewrite else sret tt.

Definition sort_buffer : IO RecordSpool unit :=
  let! s := here in
  let '(slots, failure) := sort_slots E (sp_data s) (sp_slots s) None in
  let! _ := update (set_slots slots) in
  match failure with
  | Some e => sfail (Failed e)
  | None => sret tt
  end.

(** The loop of [spill]: the writer and [write_pos]. *)
Fixpoint write_slots (data : list byte) (slots : list Slot) : IO (BufWriter * Z) unit :=
  match slots with
  | [] => sret tt
  | sl :: slots =>
      let on_writer f (s : BufWriter * Z) := (f (fst s), snd s) in
      let! _ := io (on_writer (bw_write_all (record_header (sl_seq sl) (sl_key_len sl) (sl_value_len sl)))) in
      let! _ := io (on_writer (bw_write_all (slot_key data sl))) in
      let! _ := io (on_writer (bw_write_all (slot_value data sl))) in
      let! _ := update (fun s => (fst s, snd s + (RECORD_HEADER_LEN + sl_key_len sl + sl_value_len sl))) in
      write_slots data slots
  end.

Definition spill : IO RecordSpool unit :=
  let! s := here in
  match sp_slots s with
  | [] => sret tt
  | _ =>
      let! _ := sort_buffer in
      let! s := here in
      let! _ := match sp_file s with
                | None => io (set_spool_file (Some File_empty))
                | Some _ => sret tt
                end in
      let! s := here in
      let! file := expect (sp_file s) in
      let start := sp_write_pos s in
      let! _ := io (set_spool_file (Some (file_seek start file))) in
      let! _ := zoom (fun s => (spool_writer (default File_empty (sp_file s)), sp_write_pos s))
        (fun w s => set_stored (sp_runs s) (Some (bw_inner (fst w))) (snd w) (sp_written s) s)
        (let! _ := write_slots (sp_data s) (sp_slots s) in
         io (fun w => (bw_flush (fst w), snd w))) in
      let! _ := update (fun s => set_stored (sp_runs s ++ [mkRun start (sp_write_pos s) 0]) (sp_file s) (sp_write_pos s)
                                   (sp_written s + (sp_write_pos s - start)) s) in
      let! _ := update (fun s => set_buffer [] (vec_shrink (sp_data_capacity s) 0) [] (vec_shrink (sp_slots_capacity s) 0) s) in
      merge_tiers
  end.

Definition check_usable : IO RecordSpool unit :=
  let! s := here in
  match sp_spoiled s with
  | None => sret tt
  | Some kind => sfail (Failed (Error_new kind))
  end.

(** [if let Err(e) = self.spill() { self.spoiled = Some(e.kind()); return Err(e) }] *)
Definition or_spoil (m : IO RecordSpool unit) : IO RecordSpool unit := fun s =>
  match m s with
  | (Err (Failed e), (s, faults)) => (Err (Failed e), (set_spoiled (err_kind e) s, faults))
  | r => r
  end.

Definition spool_push (key value : list byte) : IO RecordSpool unit :=
  let! _ := check_usable in
  let! _ := lift_result (validate_key E key) in
  let! _ := lift_result (ke_digest E key) in
  let! s := here in
  let at_ := zlen (sp_data s) in
  let data := sp_data s ++ key ++ value in
  let slots := sp_slots s ++ [mkSlot at_ (zlen key) (at_ + zlen key) (zlen value) (sp_next_seq s)] in
  let! _ := update (fun s =>
    mkRecordSpool (sp_dir s) data (vec_extend (vec_extend (sp_data_capacity s) (at_ + zlen key)) (zlen data))
      slots (vec_extend (sp_slots_capacity s) (zlen slots))
      (sp_runs s) (sp_file s) (sp_write_pos s) (sp_budget s) (sp_next_seq s + 1) (sp_count s + 1)
      (sp_spoiled s) (sp_written s)) in
  let! s := here in
  if sp_budget s <=? buffered_bytes s then or_spoil spill else sret tt.

Definition spool_flush : IO RecordSpool unit :=
  let! _ := check_usable in
  or_spoil spill.

(** * The sorted stream *)

Inductive SortedRecords : Type :=
| Memory (data : list byte) (data_capacity : Z) (slots : list Slot) (slots_capacity : Z) (next : nat)
| Merged (file : File) (merger : Merger).

Definition held_bytes (st : SortedRecords) : Z :=
  match st with
  | Memory _ dc _ sc _ => saturating_add dc (saturating_mul sc SPOOL_SLOT_BYTES)
  | Merged _ _ => 0
  end.

Definition into_sorted : IO RecordSpool SortedRecords :=
  let! _ := check_usable in
  let! s := here in
  match sp_runs s with
  | [] =>
      let! _ := sort_buffer in
      let! s := here in
      sret (Memory (sp_data s) (sp_data_capacity s) (sp_slots s) (sp_slots_capacity s) 0)
  | _ =>
      let! _ := spill in
      let! s := here in
      let! _ := reduce_runs (S (length (sp_runs s))) in
      let! s := here in
      let! file := expect (sp_file s) in
      zoom (fun _ => (file, Merger_none)) (fun _ s => s)
        (let! _ := Merger_new E (run_reader <$> sp_runs s) in
         let! m := here in
         sret (Merged (fst m) (snd m)))
  end.

Definition sorted_next_record : IO SortedRecords (option SpoolRecord) :=
  let! s := here in
  match s with
  | Memory data dc slots sc next =>
      match slots !! next with
      | None => sret None
      | Some sl =>
          let! _ := update (fun _ => Memory data dc slots sc (S next)) in
          sret (Some (mkSpoolRecord (sl_seq sl) (slot_key data sl) (slot_value data sl)))
      end
  | Merged file merger => zoom (fun _ => (file, merger)) (fun m _ => Merged (fst m) (snd m)) (merger_next_record E)
  end.
End Spool.
