(* ===== verification/SpoolFacts.v ===== *)
(** The spool sorts.

    The invariant of a [RecordSpool]: the buffer and the runs hold, between
    them, the records appended so far; every run is in order and lies below
    [write_pos] in the file.  Each operation is followed with it, through the
    merges that append to the file they read from. *)

From Stdlib Require Import ZArith Lia.
From stdpp Require Import base list sorting.
From coqutil Require Import Byte Word.LittleEndianList.
From S2P Require Import Prelude Errors Format Encoding Effects Sink Heap Merger Spool.

#[local] Open Scope Z_scope.
#[local] Open Scope drydb_scope.

(** * Writing past a given point of a file *)

(** The writer has put [bytes] after [base]; some of it is still buffered, and
    what the file held further on may still be there. *)
Definition writes_after (base bytes : list byte) (w : BufWriter) : Prop :=
  exists flushed tail, f_data (bw_inner w) = base ++ flushed ++ tail /\
    f_cursor (bw_inner w) = zlen base + zlen flushed /\ bytes = flushed ++ bw_buf w.

Lemma overwrite_after pre tail bytes :
  overwrite (pre ++ tail) (zlen pre) bytes = pre ++ bytes ++ drop (length bytes) tail.
Proof.
  unfold overwrite, zlen. rewrite Nat2Z.id, take_app_length, length_app.
  replace (length pre - (length pre + length tail))%nat with 0%nat by lia. simpl. do 2 f_equal.
  rewrite drop_app_ge by lia. f_equal. lia.
Qed.

Lemma file_write_after base flushed tail bytes f :
  f_data f = base ++ flushed ++ tail -> f_cursor f = zlen base + zlen flushed ->
  f_data (file_write bytes f) = base ++ (flushed ++ bytes) ++ drop (length bytes) tail /\
  f_cursor (file_write bytes f) = zlen base + zlen (flushed ++ bytes).
Proof.
  intros Hd Hc. unfold file_write. simpl. rewrite Hd, Hc, zlen_app. split; [|lia].
  rewrite (app_assoc base flushed tail), <- zlen_app, overwrite_after. now rewrite <- !app_assoc.
Qed.

Lemma writes_after_flush base bytes w :
  writes_after base bytes w -> writes_after base bytes (bw_flush w) /\ bw_buf (bw_flush w) = [].
Proof.
  intros (flushed & tail & Hd & Hc & ->). split; [|reflexivity].
  destruct (file_write_after base flushed tail (bw_buf w) (bw_inner w) Hd Hc) as [H1 H2].
  exists (flushed ++ bw_buf w), (drop (length (bw_buf w)) tail). unfold bw_flush. cbn [bw_inner bw_buf]. rewrite app_nil_r. auto.
Qed.

Lemma writes_after_write base bytes more w :
  writes_after base bytes w -> writes_after base (bytes ++ more) (bw_write_all more w).
Proof.
  intros Hw. unfold bw_write_all. set (w' := if _ <? _ then bw_flush w else w).
  assert (writes_after base bytes w' /\ (bw_buf w' = [] \/ zlen (bw_buf w') + zlen more <= bw_capacity w')) as [Hw' Hb].
  { unfold w'. destruct (Z.ltb_spec (bw_capacity w) (zlen (bw_buf w) + zlen more)); [|auto].
    apply writes_after_flush in Hw as [? ?]. auto. }
  destruct Hw' as (flushed & tail & Hd & Hc & ->). destruct (Z.leb_spec (bw_capacity w') (zlen more)) as [Hbig|Hsmall].
  - assert (bw_buf w' = []) as Hnil.
    { destruct Hb as [Hb|Hb]; [exact Hb|]. apply nil_length_inv. unfold zlen in *. lia. }
    destruct (file_write_after base flushed tail more (bw_inner w') Hd Hc) as [H1 H2].
    exists (flushed ++ more), (drop (length more) tail). cbn [bw_inner bw_buf]. rewrite Hnil, !app_nil_r. auto.
  - exists flushed, tail. cbn [bw_inner bw_buf]. split_and!; [exact Hd | exact Hc | now rewrite app_assoc].
Qed.

Lemma writes_after_start base tail capacity : writes_after base [] (mkBufWriter (mkFile (base ++ tail) (zlen base)) [] capacity).
Proof. exists [], tail. simpl. rewrite zlen_nil. auto with lia. Qed.

(** What is in the file once the writer is flushed. *)
Lemma writes_after_data base bytes w :
  writes_after base bytes w -> bw_buf w = [] -> exists tail, f_data (bw_inner w) = (base ++ bytes) ++ tail.
Proof. intros (flushed & tail & Hd & _ & ->) ->. exists tail. now rewrite Hd, app_nil_r, app_assoc. Qed.

(** * Runs under a growing file *)

Lemma at_run_app data more pos end_ rs : at_run data pos end_ rs -> at_run (data ++ more) pos end_ rs.
Proof.
  intros [H1 H2 H3 H4]. pose proof (zlen_nonneg more). pose proof (zlen_nonneg (records_bytes rs)). split; auto.
  - rewrite zlen_app. lia.
  - now rewrite slice_app_l by lia.
Qed.

Lemma at_run_prefix data n pos end_ rs :
  at_run data pos end_ rs -> end_ <= n <= zlen data -> at_run (take (Z.to_nat n) data) pos end_ rs.
Proof.
  intros [H1 H2 H3 H4] Hn. pose proof (zlen_nonneg (records_bytes rs)). split; auto.
  - rewrite zlen_take by lia. lia.
  - rewrite <- H4 at 2. rewrite <- (take_drop (Z.to_nat n) data) at 2. rewrite slice_app_l; [reflexivity | lia | lia |].
    rewrite zlen_take by lia. lia.
Qed.

Lemma at_run_end data rs : at_run (data ++ records_bytes rs) (zlen data) (zlen data + zlen (records_bytes rs)) rs.
Proof.
  split; [apply zlen_nonneg | reflexivity | rewrite zlen_app; lia |].
  rewrite slice_app_r, Z.sub_diag by lia. now apply slice_all.
Qed.

Lemma records_le_bytes rs : Z.of_nat (length rs) <= zlen (records_bytes rs).
Proof.
  induction rs as [|r rs IH]; [unfold zlen; simpl; lia|]. rewrite records_bytes_cons, zlen_app, zlen_stored_record.
  pose proof (record_len_pos r). unfold RECORD_HEADER_LEN in *. simpl length. lia.
Qed.

Lemma merge_rounds_enough data runs rest :
  Forall2 (fun r rs => at_run data (run_start r) (run_end r) rs) runs rest ->
  (length (concat rest) < merge_rounds runs)%nat.
Proof.
  intros HF. unfold merge_rounds.
  assert (Z.of_nat (length (concat rest)) <= foldr Z.add 0 ((fun r => Z.max 0 (run_len r)) <$> runs)) ; [|lia].
  induction HF as [|r rs runs rest Hr HF IH]; [simpl; lia|]. rewrite fmap_cons. cbn [foldr concat]. rewrite length_app.
  pose proof (records_le_bytes rs). assert (run_len r = zlen (records_bytes rs)) by (unfold run_len; rewrite (ar_end _ _ _ _ Hr); lia). lia.
Qed.

(** * Merges *)

(** Reading and writing do not disturb each other.  A merge in place reads the
    very file its writer writes to. *)
Class MergeLaws (T : Type) {MS : MergeState T} : Type := {
  ms_writer : T -> BufWriter;
  ms_in_place : bool;
  ms_put_merger : forall s t, snd (ms_get (ms_put s t)) = snd s;
  ms_put_data : forall s t, f_data (fst s) = f_data (fst (ms_get t)) ->
    f_data (fst (ms_get (ms_put s t))) = f_data (fst (ms_get t));
  ms_put_writer : forall s t, ms_writer (ms_put s t) = ms_writer t;
  ms_writer_on : forall f t, ms_writer (ms_on_writer f t) = f (ms_writer t);
  ms_on_merger : forall f t, snd (ms_get (ms_on_writer f t)) = snd (ms_get t);
  ms_source : forall f t,
    if ms_in_place then f_data (fst (ms_get t)) = f_data (bw_inner (ms_writer t))
    else f_data (fst (ms_get (ms_on_writer f t))) = f_data (fst (ms_get t));
}.

#[export, program] Instance Merging_laws : MergeLaws Merging := {| ms_writer := mi_out; ms_in_place := false |}.
Solve Obligations with (intros; simpl; auto).

#[export, program] Instance Appending_laws : MergeLaws Appending := {| ms_writer := ap_out; ms_in_place := true |}.
Solve Obligations with (intros; simpl; auto).

Section Merges.
Context (E : KeyEncoding) {L : LawfulEncoding E} (B : Stop -> Prop).
Context {T : Type} {MS : MergeState T} {ML : MergeLaws T}.

(** The merge reads the runs in [data] and has written [bytes] after [base]. *)
Record merge_at (data base bytes : list byte) (t : T) : Prop := {
  ma_source : exists more, f_data (fst (ms_get t)) = data ++ more;
  ma_writer : writes_after base bytes (ms_writer t);
  ma_place : ms_in_place = true -> data = base;
}.

(** What a merge reads stays as it is. *)
Definition same_source (t t' : T) : Prop :=
  ms_in_place = false -> f_data (fst (ms_get t')) = f_data (fst (ms_get t)).

Lemma merge_at_write data base bytes more t f :
  merge_at data base bytes t ->
  (forall w, writes_after base bytes w -> writes_after base more (f w)) ->
  merge_at data base more (ms_on_writer f t) /\ same_source t (ms_on_writer f t) /\
  snd (ms_get (ms_on_writer f t)) = snd (ms_get t).
Proof.
  intros [[m Hs] Hw Hp] Hf. split_and!.
  - assert (writes_after base more (ms_writer (ms_on_writer f t))) as Hw' by (rewrite ms_writer_on; auto). split; auto.
    pose proof (ms_source f t) as Hsrc. pose proof (ms_source f (ms_on_writer f t)) as Hsrc'. destruct ms_in_place.
    + destruct Hw' as (flushed & tail & Hd & _). exists (flushed ++ tail). now rewrite Hsrc', Hd, Hp.
    + exists m. now rewrite Hsrc.
  - intros Hi. pose proof (ms_source f t) as Hsrc. now rewrite Hi in Hsrc.
  - apply ms_on_merger.
Qed.

Lemma merge_at_read data base bytes t file m :
  merge_at data base bytes t -> f_data file = f_data (fst (ms_get t)) ->
  merge_at data base bytes (ms_put (file, m) t) /\ same_source t (ms_put (file, m) t) /\
  snd (ms_get (ms_put (file, m) t)) = m.
Proof.
  intros [Hs Hw Hp] Hf. pose proof (ms_put_data (file, m) t Hf) as Hd. split_and!.
  - split; [now rewrite Hd | now rewrite ms_put_writer | exact Hp].
  - intros _. exact Hd.
  - apply ms_put_merger.
Qed.

Lemma write_record_ok data base bytes r t :
  merge_at data base bytes t ->
  wp (write_record ms_on_writer (rec_seq r) (rec_key r) (rec_value r))
    (fun n t' => n = record_len r /\ merge_at data base (bytes ++ record_bytes r) t' /\ same_source t t' /\
       snd (ms_get t') = snd (ms_get t)) B t.
Proof.
  intros Hm. unfold write_record.
  destruct (merge_at_write _ _ _ _ t _ Hm (writes_after_write base bytes (record_header (rec_seq r) (zlen (rec_key r)) (zlen (rec_value r)))))
    as (H1 & S1 & M1).
  destruct (merge_at_write _ _ _ _ _ _ H1 (writes_after_write base _ (rec_key r))) as (H2 & S2 & M2).
  destruct (merge_at_write _ _ _ _ _ _ H2 (writes_after_write base _ (rec_value r))) as (H3 & S3 & M3).
  wp_run. split; [reflexivity|]. unfold record_bytes. rewrite !app_assoc. rewrite <- !app_assoc in *. rewrite !app_assoc in *.
  split; [exact H3|]. split; [|congruence]. intros Hi. rewrite (S3 Hi), (S2 Hi). exact (S1 Hi).
Qed.

Lemma merge_into_ok fuel : forall data base bytes pos t rest,
  merge_at data base bytes t -> merging E data (snd (ms_get t)) rest -> (length (concat rest) < fuel)%nat ->
  wp (merge_into E fuel pos)
    (fun pos' t' => exists out, out ≡ₚ concat rest /\ StronglySorted (rec_le E) out /\
       pos' = pos + zlen (records_bytes out) /\ merge_at data base (bytes ++ records_bytes out) t' /\ same_source t t') B t.
Proof.
  induction fuel as [|fuel IH]; intros data base bytes pos t rest Hm Hrest Hlen; [lia|]. cbn [merge_into].
  destruct (ma_source _ _ _ _ Hm) as [more Hsrc]. destruct (ms_get t) as [file m] eqn:Hget. cbn [fst snd] in Hsrc, Hrest.
  apply wp_bind, wp_zoom. rewrite Hget.
  eapply wp_mono; [exact (next_record_ok E B data more file m rest Hsrc Hrest) | | intros e He; exact He].
  intros out [file' m'] [Hd He]. cbn [fst snd] in Hd, He.
  destruct (merge_at_read data base bytes t file' m' Hm) as (H1 & S1 & M1); [rewrite Hget; cbn [fst]; congruence|].
  destruct out as [x|].
  - destruct (emitted_step E data m rest x m' He) as (rest' & Hm' & Hp & Hle).
    apply wp_bind. eapply wp_mono; [exact (write_record_ok data base bytes x _ H1) | | intros e Hx; exact Hx].
    intros n t' (-> & H2 & S2 & M2). eapply wp_mono; [apply (IH data base _ (pos + record_len x) t' rest' H2) | | intros e Hx; exact Hx].
    { now rewrite M2, M1. } { rewrite Hp in Hlen. simpl in Hlen. lia. }
    intros pos' t'' (out & Ho & Hso & -> & H3 & S3). exists (x :: out). rewrite records_bytes_cons, zlen_app, zlen_stored_record.
    split_and!; [rewrite Hp; now constructor | constructor; [exact Hso | now rewrite Ho] | lia | now rewrite app_assoc |].
    intros Hi. rewrite (S3 Hi), (S2 Hi). exact (S1 Hi).
  - destruct He as [He ->]. apply wp_ret. exists []. change (records_bytes []) with (@nil byte). rewrite He, app_nil_r, zlen_nil.
    split_and!; [constructor | constructor | lia | exact H1 | exact S1].
Qed.

Lemma merge_runs_ok data base bytes runs rest pos t :
  merge_at data base bytes t -> Forall2 (fun r rs => at_run data (run_start r) (run_end r) rs) runs rest ->
  Forall (Forall (record_ok E)) rest -> Forall (StronglySorted (rec_le E)) rest ->
  wp (merge_runs E runs pos)
    (fun pos' t' => exists out, out ≡ₚ concat rest /\ StronglySorted (rec_le E) out /\
       pos' = pos + zlen (records_bytes out) /\ merge_at data base (bytes ++ records_bytes out) t' /\ same_source t t' /\
       bw_buf (ms_writer t') = []) B t.
Proof.
  intros Hm HF Hok Hs. unfold merge_runs. destruct (ma_source _ _ _ _ Hm) as [more Hsrc].
  destruct (ms_get t) as [file m] eqn:Hget. cbn [fst] in Hsrc. apply wp_bind, wp_zoom. rewrite Hget.
  eapply wp_mono; [apply (Merger_new_ok E B data more (run_reader <$> runs) file m rest Hsrc) | | intros e He; exact He]; auto.
  { now apply Forall2_fmap_l. }
  intros [] [file' m'] [Hd Hm']. cbn [fst snd] in Hd, Hm'.
  destruct (merge_at_read data base bytes t file' m' Hm) as (H1 & S1 & M1); [rewrite Hget; cbn [fst]; congruence|].
  apply wp_bind. eapply wp_mono; [apply (merge_into_ok _ data base bytes pos _ rest H1) | | intros e He; exact He].
  { now rewrite M1. } { exact (merge_rounds_enough data runs rest HF). }
  intros pos' t' (out & Ho & Hso & -> & H2 & S2). apply wp_bind, wp_io, wp_ret.
  destruct (merge_at_write data base _ _ t' bw_flush H2 (fun w Hw => proj1 (writes_after_flush base _ w Hw))) as (H3 & S3 & M3).
  exists out. split_and!; auto; [|now rewrite ms_writer_on]. intros Hi. rewrite (S3 Hi), (S2 Hi). exact (S1 Hi).
Qed.
End Merges.

(** * Passes over all the runs *)

Section Chunks.
Context {A C : Type} (P : A -> C -> Prop).

Lemma chunks_of_spec fuel n (l : list A) :
  (0 < n)%nat -> (length l <= fuel)%nat ->
  concat (chunks_of fuel n l) = l /\ Forall (fun c => (0 < length c <= n)%nat) (chunks_of fuel n l) /\
  (length (chunks_of fuel n l) * n < length l + n)%nat.
Proof.
  intros Hn. revert l. induction fuel as [|fuel IH]; intros l Hl; [destruct l; simpl in *; [auto with lia | lia]|].
  destruct l as [|x l]; [simpl; auto with lia|]. cbn [chunks_of].
  destruct (IH (drop n (x :: l))) as (H1 & H2 & H3). { rewrite length_drop. simpl in *. lia. }
  split_and!.
  - cbn [concat]. rewrite H1. apply take_drop.
  - constructor; [|exact H2]. rewrite length_take. simpl length. lia.
  - cbn [length]. rewrite length_drop in H3. destruct (Nat.le_gt_cases n (length (x :: l))) as [Hle|Hgt]; [simpl in *; lia|].
    rewrite (drop_ge (x :: l)) by lia. destruct fuel; simpl; lia.
Qed.

Lemma Forall2_chunks_of fuel n l k :
  Forall2 P l k -> Forall2 (Forall2 P) (chunks_of fuel n l) (chunks_of fuel n k).
Proof.
  revert l k. induction fuel as [|fuel IH]; intros l k HF; [constructor|].
  destruct HF as [|x y l k Hx HF]; cbn [chunks_of]; [constructor|].
  constructor; [apply Forall2_take; now constructor | apply IH, Forall2_drop; now constructor].
Qed.
End Chunks.

Lemma chunks_1 {A} (l : list A) : chunks 1 l = (fun x => [x]) <$> l.
Proof. unfold chunks. induction l as [|x l IH]; [reflexivity|]. cbn [length chunks_of]. rewrite fmap_cons, <- IH. reflexivity. Qed.

(** Chunks put together again are all there was. *)
Lemma concat_perm_chunks {A} group (rest : list (list A)) outs :
  (0 < group)%nat -> Forall2 (fun out rest => out ≡ₚ concat rest) outs (chunks group rest) -> concat outs ≡ₚ concat rest.
Proof.
  intros Hg HF. destruct (chunks_of_spec (length rest) group rest Hg ltac:(lia)) as (Hc & _ & _). fold (chunks group rest) in Hc.
  rewrite <- Hc at 1. clear Hc. induction HF as [|out c outs cs Ho HF IH]; [reflexivity|]. cbn [concat]. rewrite concat_app. now apply Permutation_app.
Qed.

Section Passes.
Context (E : KeyEncoding) {L : LawfulEncoding E} (B : Stop -> Prop).

(** Runs in a file: where they are, what they hold, and that it is in order. *)
Definition holds_run (data : list byte) (r : Run) (rs : list SpoolRecord) : Prop :=
  at_run data (run_start r) (run_end r) rs.

Definition in_order (rest : list (list SpoolRecord)) : Prop :=
  Forall (Forall (record_ok E)) rest /\ Forall (StronglySorted (rec_le E)) rest.

Lemma in_order_perm out rest :
  in_order rest -> out ≡ₚ concat rest -> StronglySorted (rec_le E) out -> in_order [out].
Proof.
  intros [Hok _] Hp Hs. split; constructor; try constructor; auto. rewrite Hp. now apply Forall_concat.
Qed.

Lemma merge_chunks_ok data chunks : forall rests next_runs outs bytes t,
  merge_at data [] bytes t -> bw_buf (mi_out t) = [] ->
  Forall2 (Forall2 (holds_run data)) chunks rests -> Forall in_order rests ->
  Forall2 (holds_run bytes) next_runs outs ->
  wp (merge_chunks E chunks next_runs (zlen bytes))
    (fun p t' => exists bytes' outs', merge_at data [] bytes' t' /\ bw_buf (mi_out t') = [] /\ snd p = zlen bytes' /\
       Forall2 (holds_run bytes') (fst p) (outs ++ outs') /\ in_order outs' /\
       Forall2 (fun out rest => out ≡ₚ concat rest) outs' rests /\
       run_level <$> fst p = (run_level <$> next_runs) ++ (merged_level <$> chunks)) B t.
Proof.
  induction chunks as [|chunk chunks IH]; intros rests next_runs outs bytes t Hm Hb HF Hok Hnext; cbn [merge_chunks].
  { inversion HF. subst. apply wp_ret. exists bytes, []. rewrite !app_nil_r. split_and!; auto; repeat constructor. }
  apply Forall2_cons_inv_l in HF as (rest & rests' & Hrest & HF & ->). apply Forall_cons in Hok as [[Hro Hrs] Hok].
  apply wp_bind. eapply wp_mono; [exact (merge_runs_ok E B data [] bytes chunk rest (zlen bytes) t Hm Hrest Hro Hrs) | | intros e He; exact He].
  intros pos t' (out & Hp & Hso & -> & Hm' & _ & Hb'). rewrite <- zlen_app.
  set (bytes' := bytes ++ records_bytes out) in *.
  eapply wp_mono; [apply (IH rests' _ (outs ++ [out]) bytes' t' Hm' Hb' HF Hok) | | intros e He; exact He].
  - apply Forall2_app.
    + eapply Forall2_impl; [exact Hnext|]. intros r rs Hr. now apply at_run_app.
    + constructor; [|constructor]. unfold holds_run, bytes'. cbn [run_start run_end]. rewrite zlen_app. apply at_run_end.
  - intros p t'' (bytes'' & outs' & H1 & H2 & H3 & H4 & [H5 H5'] & H6 & H7). exists bytes'', (out :: outs').
    rewrite <- app_assoc in H4. destruct (in_order_perm out rest (conj Hro Hrs) Hp Hso) as [[Ha _]%Forall_cons [Hb2 _]%Forall_cons].
    assert (in_order (out :: outs')) as Hord by (split; now constructor).
    split_and!; auto. rewrite H7, fmap_app, <- app_assoc. reflexivity.
Qed.

(** What a pass leaves: each group of runs as one, in a file of its own. *)
Definition pass_done (group : nat) (runs : list Run) (rest : list (list SpoolRecord)) (p : File * list Run * Z) : Prop :=
  let '(output, next_runs, out_pos) := p in
  exists outs,
    Forall2 (holds_run (take (Z.to_nat out_pos) (f_data output))) next_runs outs /\ in_order outs /\
    Forall2 (fun out rest => out ≡ₚ concat rest) outs (chunks group rest) /\
    0 <= out_pos <= zlen (f_data output) /\
    run_level <$> next_runs = merged_level <$> chunks group runs.

Lemma chunks_in_order group rest : (0 < group)%nat -> in_order rest -> Forall in_order (chunks group rest).
Proof.
  intros Hg [Hok Hs]. destruct (chunks_of_spec (length rest) group rest Hg ltac:(lia)) as (Hc & _ & _). fold (chunks group rest) in Hc.
  rewrite <- Hc in Hok, Hs. apply Forall_and. split; now apply Forall_concat.
Qed.

Lemma merge_groups_ok {T} runs rest input group (t : T) :
  (0 < group)%nat -> Forall2 (holds_run (f_data input)) runs rest -> in_order rest ->
  wp (merge_groups E input runs group) (fun p t' => t' = t /\ pass_done group runs rest p) B t.
Proof.
  intros Hg HF Hord. unfold merge_groups. apply wp_bind, wp_io, wp_zoom, wp_bind.
  eapply wp_mono; [eapply (merge_chunks_ok (f_data input) (chunks group runs) (chunks group rest) [] [] []) | | intros e He; exact He].
  - split; [now exists []; simpl; rewrite app_nil_r | exact (writes_after_start [] [] _) | discriminate].
  - reflexivity.
  - unfold chunks. rewrite (Forall2_length _ _ _ HF). now apply Forall2_chunks_of.
  - now apply chunks_in_order.
  - constructor.
  - intros [next_runs out_pos] m (bytes & outs & Hm & Hb & Hp & HF' & Ho & Hperm & Hlev). cbn [fst snd] in *. subst out_pos.
    apply wp_bind, wp_here, wp_ret. split; [reflexivity|].
    destruct (writes_after_data [] bytes (mi_out m) (ma_writer _ _ _ _ Hm) Hb) as [tail Htail]. cbn [app] in Htail.
    exists outs. rewrite Htail, zlen_app. pose proof (zlen_nonneg bytes). pose proof (zlen_nonneg tail).
    unfold zlen at 1. rewrite Nat2Z.id, take_app_length. split_and!; auto; lia.
Qed.
End Passes.

(** * The buffer *)

Section Buffer.
Context (E : KeyEncoding) {L : LawfulEncoding E} (B : Stop -> Prop).

(** A slot points at a record in the buffer. *)
Record slot_holds (data : list byte) (sl : Slot) (r : SpoolRecord) : Prop := {
  sh_seq : sl_seq sl = rec_seq r;
  sh_key_len : sl_key_len sl = zlen (rec_key r);
  sh_value_len : sl_value_len sl = zlen (rec_value r);
  sh_key_off : 0 <= sl_key_off sl /\ sl_key_off sl + sl_key_len sl <= zlen data;
  sh_value_off : 0 <= sl_value_off sl /\ sl_value_off sl + sl_value_len sl <= zlen data;
  sh_key : slot_key data sl = rec_key r;
  sh_value : slot_value data sl = rec_value r;
}.

Lemma slot_holds_app data more sl r : slot_holds data sl r -> slot_holds (data ++ more) sl r.
Proof.
  intros [H1 H2 H3 H4 H5 H6 H7]. pose proof (zlen_nonneg more). pose proof (zlen_nonneg (rec_key r)). pose proof (zlen_nonneg (rec_value r)).
  split; rewrite ?zlen_app; auto; [lia | lia | |]; unfold slot_key, slot_value in *; now rewrite slice_app_l by lia.
Qed.

Lemma slot_holds_new data key value seq :
  slot_holds (data ++ key ++ value) (mkSlot (zlen data) (zlen key) (zlen data + zlen key) (zlen value) seq)
    (mkSpoolRecord seq key value).
Proof.
  pose proof (zlen_nonneg data). pose proof (zlen_nonneg key). pose proof (zlen_nonneg value).
  split; cbn; rewrite ?zlen_app; auto with lia.
  - unfold slot_key. cbn. rewrite slice_app_r, Z.sub_diag, slice_app_l by lia. now apply slice_all.
  - unfold slot_value. cbn. rewrite app_assoc, slice_app_r by (rewrite zlen_app; lia). rewrite zlen_app, Z.sub_diag. now apply slice_all.
Qed.

Lemma compare_slots_ok data a b ra rb failure :
  slot_holds data a ra -> slot_holds data b rb -> record_ok E ra -> record_ok E rb ->
  compare_slots E data a b failure = (rec_cmp E ra rb, failure).
Proof.
  intros [] [] [] []. unfold compare_slots, rec_cmp. rewrite sh_key0, sh_key1, compare_ok by auto.
  rewrite sh_seq0, sh_seq1. now destruct (ord _ _).
Qed.

Lemma insert_slot_ok data x rx l rs :
  slot_holds data x rx -> record_ok E rx -> Forall2 (slot_holds data) l rs -> Forall (record_ok E) rs ->
  StronglySorted (rec_le E) rs ->
  exists l' rs', insert_slot E data x l None = (l', None) /\ Forall2 (slot_holds data) l' rs' /\
    rs' ≡ₚ rx :: rs /\ StronglySorted (rec_le E) rs'.
Proof.
  intros Hx Hrx HF. induction HF as [|y ry l rs Hy HF IH]; intros Hok Hs.
  { exists [x], [rx]. split_and!; auto using Forall2_cons, Forall2_nil. repeat constructor. }
  apply Forall_cons in Hok as [Hry Hok]. apply StronglySorted_inv in Hs as [Hs Hle]. cbn [insert_slot].
  rewrite (compare_slots_ok data x y rx ry None) by auto.
  assert (rec_cmp E rx ry <> Gt -> StronglySorted (rec_le E) (rx :: ry :: rs)) as Hfront.
  { intros Hc. constructor; [now constructor|]. constructor; [exact Hc|]. rewrite Forall_forall in *. intros z Hz.
    apply (rec_le_trans E rx ry z); auto. }
  destruct (rec_cmp E rx ry) eqn:Hc; [exists (x :: y :: l), (rx :: ry :: rs); split_and!; auto; now apply Hfront..|].
  destruct (IH Hok Hs) as (l' & rs' & -> & HF' & Hp & Hs'). exists (y :: l'), (ry :: rs'). split_and!; auto.
  - etransitivity; [apply perm_skip, Hp | apply perm_swap].
  - constructor; [exact Hs'|]. rewrite Hp. constructor; [|exact Hle]. apply lt_le. rewrite (rec_cmp_opp E rx ry), Hc by auto. reflexivity.
Qed.

Lemma sort_slots_ok data l rs :
  Forall2 (slot_holds data) l rs -> Forall (record_ok E) rs ->
  exists l' rs', sort_slots E data l None = (l', None) /\ Forall2 (slot_holds data) l' rs' /\
    rs' ≡ₚ rs /\ StronglySorted (rec_le E) rs'.
Proof.
  induction 1 as [|x rx l rs Hx HF IH]; intros Hok; [exists [], []; split_and!; repeat constructor|].
  apply Forall_cons in Hok as [Hrx Hok]. destruct (IH Hok) as (l' & rs' & Hl & HF' & Hp & Hs). cbn [sort_slots]. rewrite Hl.
  destruct (insert_slot_ok data x rx l' rs' Hx Hrx HF') as (l'' & rs'' & Hl' & HF'' & Hp' & Hs'); auto; [now rewrite Hp|].
  exists l'', rs''. split_and!; auto. etransitivity; [exact Hp' | apply perm_skip, Hp].
Qed.

Lemma write_slots_ok data base l rs : Forall2 (slot_holds data) l rs -> forall bytes w pos,
  writes_after base bytes w ->
  wp (write_slots data l) (fun _ s => writes_after base (bytes ++ records_bytes rs) (fst s) /\
     snd s = pos + zlen (records_bytes rs)) B (w, pos).
Proof.
  induction 1 as [|x r l rs Hx HF IH]; intros bytes w pos Hw; cbn [write_slots].
  { apply wp_ret. change (records_bytes []) with (@nil byte). rewrite app_nil_r, zlen_nil. split; [exact Hw | cbn; lia]. }
  destruct Hx as [H1 H2 H3 _ _ H4 H5]. do 4 (apply wp_bind; wp_step; cbn [fst snd]).
  rewrite H1, H2, H3, H4, H5, records_bytes_cons, zlen_app, zlen_stored_record.
  eapply wp_mono; [apply (IH (bytes ++ record_bytes r)) | | intros e He; exact He].
  - unfold record_bytes. rewrite !app_assoc. do 3 apply writes_after_write. exact Hw.
  - intros _ s [Ha Hb]. rewrite <- app_assoc in Ha. split; [exact Ha|]. rewrite Hb. unfold record_len. lia.
Qed.
End Buffer.

(** * Counting *)

Section Counting.
#[local] Abbreviation occurs l x := (count_occ Z.eq_dec l x).

Lemma occurs_lt l x z : z ∈ l -> z <> x -> (occurs l x < length l)%nat.
Proof.
  intros Hz Hne. apply list_elem_of_split in Hz as (l1 & l2 & ->). rewrite count_occ_app, length_app. simpl.
  destruct (Z.eq_dec z x); [contradiction|]. pose proof (count_occ_bound Z.eq_dec x l1). pose proof (count_occ_bound Z.eq_dec x l2). lia.
Qed.

Lemma length_remove_occurs l x : length l = (length (remove Z.eq_dec x l) + occurs l x)%nat.
Proof. induction l as [|y l IH]; [reflexivity|]. simpl. destruct (Z.eq_dec x y), (Z.eq_dec y x); simpl; congruence || lia. Qed.

Lemma occurs_remove_le l x y : (occurs (remove Z.eq_dec x l) y <= occurs l y)%nat.
Proof. induction l as [|z l IH]; [simpl; lia|]. simpl. destruct (Z.eq_dec x z); simpl; destruct (Z.eq_dec z y); lia. Qed.
End Counting.

(** * Tiers *)

Section Tiers.
#[local] Abbreviation occurs l x := (count_occ Z.eq_dec l x).

(** Levels go down and, up to the last run, none is there sixteen times. *)
Definition tiering (levels : list Z) : Prop :=
  StronglySorted Z.ge levels /\ (forall x, (occurs (removelast levels) x < MERGE_FAN_IN)%nat).
Definition tiered (levels : list Z) : Prop :=
  StronglySorted Z.ge levels /\ (forall x, (occurs levels x < MERGE_FAN_IN)%nat).

Lemma sorted_ge_app l k x : StronglySorted Z.ge (l ++ k) -> x ∈ k -> Forall (fun y => y >= x) l.
Proof.
  intros Hs Hx. apply Forall_forall. intros y Hy. apply list_elem_of_split in Hy as (l1 & l2 & ->).
  rewrite <- app_assoc in Hs. apply StronglySorted_app_1_r in Hs. apply StronglySorted_inv in Hs as [_ Hs].
  rewrite Forall_forall in Hs. apply Hs. apply elem_of_app. now right.
Qed.

Lemma all_equal (x : Z) l : Forall (fun y => y = x) l -> l = replicate (length l) x.
Proof. induction 1 as [|y l -> H IH]; [reflexivity|]. simpl. now f_equal. Qed.

Lemma occurs_replicate n (x : Z) : occurs (replicate n x) x = n.
Proof. induction n as [|n IH]; [reflexivity|]. simpl. destruct (Z.eq_dec x x); [now f_equal | contradiction]. Qed.

(** Sixteen of a level become one of the next. *)
Lemma tier_up pre n x : n = MERGE_FAN_IN -> tiering (pre ++ replicate n x) -> tiering (pre ++ [x + 1]).
Proof.
  intros -> [Hs Hc]. assert (replicate MERGE_FAN_IN x = replicate 15 x ++ [x]) as Hr by reflexivity.
  rewrite Hr, app_assoc, removelast_last in Hc.
  assert (Forall (fun y => y >= x + 1) pre) as Hpre.
  { pose proof (sorted_ge_app pre _ x Hs ltac:(left)) as Hge. specialize (Hc x). rewrite count_occ_app, occurs_replicate in Hc.
    apply Forall_forall. intros y Hy. rewrite Forall_forall in Hge. specialize (Hge y Hy).
    assert (y <> x); [|lia]. intros ->. apply list_elem_of_In, (count_occ_In Z.eq_dec) in Hy. unfold MERGE_FAN_IN in Hc. lia. }
  split.
  - apply StronglySorted_app_1_l in Hs. clear Hc. induction Hs as [|y pre Hs IH Hy]; [repeat constructor|].
    apply Forall_cons in Hpre as [Hx Hpre]. cbn [app]. constructor; [auto|]. apply Forall_app. auto.
  - intros y. rewrite removelast_last. specialize (Hc y). rewrite count_occ_app in Hc. lia.
Qed.

(** When the last sixteen differ, no level is there sixteen times. *)
Lemma tier_stop levels :
  tiering levels -> (forall pre x, levels <> pre ++ replicate MERGE_FAN_IN x) -> tiered levels.
Proof.
  intros [Hs Hc] Hdiff. split; [exact Hs|]. intros x. destruct levels as [|y levels _] using rev_ind; [unfold MERGE_FAN_IN; simpl; lia|].
  rewrite removelast_last in Hc. rewrite count_occ_app. pose proof (Hc x) as Hx. simpl. destruct (Z.eq_dec y x) as [->|]; [|lia].
  enough (occurs levels x + 1 <> MERGE_FAN_IN)%nat by lia. intros Hn.
  set (n := (length levels - 15)%nat). assert (15 <= length levels)%nat as Hlen.
  { pose proof (count_occ_bound Z.eq_dec x levels). unfold MERGE_FAN_IN in Hn. lia. }
  apply (Hdiff (take n levels) x). change (replicate MERGE_FAN_IN x) with (replicate 15 x ++ [x]). rewrite app_assoc. f_equal.
  rewrite <- (take_drop n levels) at 1. f_equal.
  assert (length (drop n levels) = 15)%nat as Hd by (rewrite length_drop; lia).
  enough (Forall (fun z => z = x) (drop n levels)) as Hall by (now rewrite <- Hd, <- all_equal).
  pose proof (sorted_ge_app levels [x] x Hs ltac:(left)) as Hge.
  assert (forall z, z ∈ drop n levels -> z = x \/ z > x) as Hz.
  { intros z Hz. rewrite Forall_forall in Hge. assert (z >= x); [|lia]. apply Hge. rewrite <- (take_drop n levels). apply elem_of_app. now right. }
  apply Forall_forall. intros z Hin. destruct (Hz z Hin) as [|Hgt]; [assumption|exfalso].
  (* all before are greater, so fewer than fifteen are left *)
  apply StronglySorted_app_1_l in Hs. rewrite <- (take_drop n levels) in Hs, Hn.
  assert (occurs (take n levels) x = 0)%nat as H0.
  { apply count_occ_not_In. intros Hi%list_elem_of_In. pose proof (sorted_ge_app _ _ z Hs Hin) as Hf. rewrite Forall_forall in Hf.
    specialize (Hf x Hi). lia. }
  rewrite count_occ_app, H0 in Hn. pose proof (occurs_lt (drop n levels) x z Hin ltac:(lia)). unfold MERGE_FAN_IN in Hn. lia.
Qed.

(** Levels below [m], none more than fifteen times. *)
Lemma tiered_bound levels m :
  tiered levels -> Forall (fun x => 0 <= x < Z.of_nat m) levels -> (length levels <= 15 * m)%nat.
Proof.
  intros [_ Hc]. clear - Hc. revert levels Hc. induction m as [|m IH]; intros levels Hc Hr.
  { destruct levels; [simpl; lia|]. apply Forall_cons in Hr as [? _]. lia. }
  pose proof (length_remove_occurs levels (Z.of_nat m)) as Hl. specialize (IH (remove Z.eq_dec (Z.of_nat m) levels)).
  specialize (Hc (Z.of_nat m)) as Hm. unfold MERGE_FAN_IN in *. enough (length (remove Z.eq_dec (Z.of_nat m) levels) <= 15 * m)%nat by lia.
  apply IH.
  - intros x. eapply Nat.le_lt_trans; [apply occurs_remove_le | apply Hc].
  - apply Forall_forall. intros x Hx%list_elem_of_In. apply in_remove in Hx as [Hx%list_elem_of_In Hne].
    rewrite Forall_forall in Hr. specialize (Hr x Hx). lia.
Qed.
End Tiers.

(** * The invariant *)

Section Invariant.
Context {VA : VecAlloc} (E : KeyEncoding) {L : LawfulEncoding E} (B : Stop -> Prop).

Definition file_bytes (s : RecordSpool) : list byte := f_data (default File_empty (sp_file s)).
Definition stored_bytes (s : RecordSpool) : list byte := take (Z.to_nat (sp_write_pos s)) (file_bytes s).

(** [buf] is in the buffer, [stored] in the runs. *)
Record spool_inv (s : RecordSpool) (buf : list SpoolRecord) (stored : list (list SpoolRecord)) : Prop := {
  si_slots : Forall2 (slot_holds (sp_data s)) (sp_slots s) buf;
  si_buf : Forall (record_ok E) buf;
  si_pos : 0 <= sp_write_pos s <= zlen (file_bytes s);
  si_runs : Forall2 (holds_run (stored_bytes s)) (sp_runs s) stored;
  si_stored : in_order E stored;
  si_file : sp_runs s <> [] -> is_Some (sp_file s);
  si_usable : sp_spoiled s = None;
  si_seq : sp_next_seq s = zlen buf + zlen (concat stored);
  si_count : sp_count s = sp_next_seq s;
}.

Lemma zlen_stored_bytes s buf stored : spool_inv s buf stored -> zlen (stored_bytes s) = sp_write_pos s.
Proof. intros Hs. exact (zlen_take (file_bytes s) (sp_write_pos s) (si_pos _ _ _ Hs)). Qed.

Lemma file_bytes_split s : file_bytes s = stored_bytes s ++ drop (Z.to_nat (sp_write_pos s)) (file_bytes s).
Proof. symmetry. apply take_drop. Qed.

Lemma zlen_perm {A} (l k : list A) : l ≡ₚ k -> zlen l = zlen k.
Proof. intros Hp. unfold zlen. now rewrite Hp. Qed.

(** New runs in place of the old, over a file that starts with what they need. *)
Lemma spool_inv_stored s buf stored runs data cursor written stored' bytes tail :
  spool_inv s buf stored -> data = bytes ++ tail -> Forall2 (holds_run bytes) runs stored' -> in_order E stored' ->
  concat stored' ≡ₚ concat stored ->
  spool_inv (set_stored runs (Some (mkFile data cursor)) (zlen bytes) written s) buf stored'.
Proof.
  intros [H1 H2 H3 H4 H5 H6 H7 H8 H9] -> HF Hord Hp. pose proof (zlen_nonneg bytes). pose proof (zlen_nonneg tail).
  assert (stored_bytes (set_stored runs (Some (mkFile (bytes ++ tail) cursor)) (zlen bytes) written s) = bytes) as Hbytes.
  { unfold stored_bytes, file_bytes, zlen. cbn. now rewrite Nat2Z.id, take_app_length. }
  split; rewrite ?Hbytes; cbn; auto.
  - unfold file_bytes. cbn. rewrite zlen_app. lia.
  - now rewrite (zlen_perm _ _ Hp).
Qed.

(** [merge_tail] *)
Lemma merge_tail_ok s buf stored count level :
  spool_inv s buf stored -> (0 < count <= length (sp_runs s))%nat ->
  let at_ := (length (sp_runs s) - count)%nat in
  wp (merge_tail E count level) (fun _ s' => exists out run,
    spool_inv s' buf (take at_ stored ++ [out]) /\ out ≡ₚ concat (drop at_ stored) /\
    sp_runs s' = take at_ (sp_runs s) ++ [run] /\ run_level run = level) B s.
Proof.
  intros Hs Hc at_. unfold merge_tail. apply wp_bind, wp_here, wp_bind, wp_expect. fold at_.
  destruct (si_file _ _ _ Hs) as [file Hfile]; [intros Hn; rewrite Hn in Hc; simpl in Hc; lia|]. exists file. split; [exact Hfile|].
  apply wp_bind, wp_io, wp_bind, wp_io, wp_bind, wp_zoom. unfold id. set (base := stored_bytes s).
  pose proof (zlen_stored_bytes s buf stored Hs) as Hlen. fold base in Hlen.
  assert (f_data file = base ++ drop (Z.to_nat (sp_write_pos s)) (file_bytes s)) as Hd.
  { rewrite <- (file_bytes_split s : _ = base ++ _). unfold file_bytes. now rewrite Hfile. }
  destruct (si_stored _ _ _ Hs) as [Hok Hso].
  eapply wp_mono; [apply (merge_runs_ok E B base base [] (drop at_ (sp_runs s)) (drop at_ stored)) | | intros e He; exact He].
  - split; cbn; [rewrite Hd; eauto | | auto]. rewrite Hd, <- Hlen. apply writes_after_start.
  - apply Forall2_drop. exact (si_runs _ _ _ Hs).
  - now apply Forall_drop.
  - now apply Forall_drop.
  - intros end_ t (out & Hp & Hsort & -> & Hm & _ & Hbuf). apply wp_update. cbn [app] in Hm.
    destruct (writes_after_data _ _ _ (ma_writer _ _ _ _ Hm) Hbuf) as [tail Htail]. cbn in Htail.
    set (run := mkRun (sp_write_pos s) (sp_write_pos s + zlen (records_bytes out)) level).
    exists out, run. split_and!; try reflexivity; [|exact Hp]. rewrite <- Hlen. rewrite <- zlen_app.
    eapply (spool_inv_stored s buf stored _ _ _ _ _ (base ++ records_bytes out)); [exact Hs | exact Htail | | |].
    + apply Forall2_app; [|constructor; [|constructor]].
      * eapply Forall2_impl; [apply Forall2_take; exact (si_runs _ _ _ Hs)|]. intros r rs Hr. now apply at_run_app.
      * unfold holds_run, run. cbn [run_start run_end]. rewrite <- Hlen. apply at_run_end.
    + assert (in_order E [out]) as [H1 H2].
      { eapply (in_order_perm E _ (drop at_ stored)); auto. split; now apply Forall_drop. }
      split; apply Forall_app; split; auto; now apply Forall_take.
    + rewrite concat_app. cbn. rewrite app_nil_r. rewrite <- (take_drop at_ stored) at 2. rewrite concat_app. now apply Permutation_app_head.
Qed.

(** A pass over all the runs. *)
Lemma move_runs_ok s buf stored group :
  spool_inv s buf stored -> sp_runs s <> [] -> (0 < group)%nat ->
  wp (move_runs (fun input runs => merge_groups E input runs group)) (fun _ s' => exists stored',
    spool_inv s' buf stored' /\ Forall2 (fun out rest => out ≡ₚ concat rest) stored' (chunks group stored) /\
    run_level <$> sp_runs s' = merged_level <$> chunks group (sp_runs s)) B s.
Proof.
  intros Hs Hne Hg. unfold move_runs. apply wp_bind, wp_here, wp_bind, wp_expect.
  destruct (si_file _ _ _ Hs Hne) as [file Hfile]. exists file. split; [exact Hfile|]. apply wp_bind.
  eapply wp_mono; [apply (merge_groups_ok E B (sp_runs s) stored file group s Hg) | | intros e He; exact He].
  - eapply Forall2_impl; [exact (si_runs _ _ _ Hs)|]. intros r rs Hr.
    assert (f_data file = file_bytes s) as -> by (unfold file_bytes; now rewrite Hfile). rewrite file_bytes_split. now apply at_run_app.
  - exact (si_stored _ _ _ Hs).
  - intros [[[data cursor] next_runs] out_pos] s' [-> (outs & HF & Hord & Hp & Hpos & Hlev)]. cbn in HF, Hpos. apply wp_update.
    exists outs. split_and!; [|exact Hp | exact Hlev]. rewrite <- (zlen_take data out_pos Hpos) at 1.
    eapply spool_inv_stored; [exact Hs | symmetry; apply take_drop | exact HF | exact Hord |].
    exact (concat_perm_chunks group stored outs Hg Hp).
Qed.
(** A run merged [n] times has at least [16 ^ n] records. *)
Definition sized (level : Z) (rs : list SpoolRecord) : Prop := 0 <= level /\ 16 ^ level <= zlen rs.

Definition levels (s : RecordSpool) : list Z := run_level <$> sp_runs s.

(** The invariant between operations. *)
Definition spool_holds (s : RecordSpool) (buf : list SpoolRecord) (stored : list (list SpoolRecord)) : Prop :=
  spool_inv s buf stored /\ tiered (levels s) /\ Forall2 sized (levels s) stored.

(** The same records, wherever they are. *)
Definition keeps (buf : list SpoolRecord) (stored : list (list SpoolRecord)) (s' : RecordSpool) : Prop :=
  exists stored', spool_holds s' buf stored' /\ concat stored' ≡ₚ concat stored.

Lemma sized_concat n x stored :
  Forall2 sized (replicate n x) stored -> 0 <= x -> Z.of_nat n * 16 ^ x <= zlen (concat stored).
Proof.
  intros HF Hx. revert stored HF. induction n as [|n IH]; intros stored HF; [unfold zlen; lia|].
  apply Forall2_cons_inv_l in HF as (rs & stored' & [_ Hr] & HF & ->). cbn [concat]. rewrite zlen_app. specialize (IH _ HF). lia.
Qed.

Lemma same_level x runs :
  existsb (fun r => negb (run_level r =? x)) runs = false <-> run_level <$> runs = replicate (length runs) x.
Proof.
  induction runs as [|r runs IH]; [split; reflexivity|]. cbn [existsb length]. rewrite fmap_cons, orb_false_iff, negb_false_iff, Z.eqb_eq, IH.
  cbn [replicate]. split; [intros [-> ->]; reflexivity | intros [= -> ->]; auto].
Qed.

Lemma merge_tiers_loop_ok fuel : forall s buf stored,
  spool_inv s buf stored -> tiering (levels s) -> Forall2 sized (levels s) stored -> (length (sp_runs s) < fuel)%nat ->
  wp (merge_tiers_loop E fuel) (fun _ s' => keeps buf stored s') B s.
Proof.
  induction fuel as [|fuel IH]; intros s buf stored Hs Ht Hz Hf; [lia|]. cbn [merge_tiers_loop]. apply wp_bind, wp_here.
  set (runs := sp_runs s) in *. set (n := (length runs - MERGE_FAN_IN)%nat).
  apply wp_if; intros Hlen; [apply Nat.leb_le in Hlen | apply Nat.leb_gt in Hlen].
  2:{ apply wp_ret. exists stored. split; [|reflexivity]. split_and!; auto. apply tier_stop; auto. intros pre x Heq.
      assert (length (levels s) = length runs) as Hl by apply length_fmap. rewrite Heq, length_app, length_replicate in Hl. lia. }
  assert (length (drop n runs) = MERGE_FAN_IN) as Hd by (rewrite length_drop; unfold n; lia).
  assert (levels s = (run_level <$> take n runs) ++ (run_level <$> drop n runs)) as Hsplit by (rewrite <- fmap_app, take_drop; reflexivity).
  destruct (drop n runs) as [|first tail] eqn:Htail; [discriminate|]. apply wp_bind, wp_expect. exists first. split; [reflexivity|].
  set (x := run_level first). apply wp_if; intros Hsame.
  - apply wp_ret. exists stored. split; [|reflexivity]. split_and!; auto. apply tier_stop; auto. intros pre y Heq.
    rewrite Hsplit in Heq. apply app_inj_2 in Heq as [_ Heq]; [|now rewrite length_fmap, length_replicate].
    assert (x = y) as <- by (injection Heq; auto). rewrite <- Hd in Heq. apply same_level in Heq. congruence.
  - apply same_level in Hsame. rewrite Hd in Hsame. rewrite Hsame in Hsplit. apply wp_bind.
    eapply wp_mono; [apply (merge_tail_ok s buf stored MERGE_FAN_IN (x + 1) Hs); fold runs; unfold MERGE_FAN_IN in *; lia | | intros e He; exact He].
    fold runs n. intros _ s' (out & run & Hs' & Hp & Hruns & Hlev).
    assert (levels s' = (run_level <$> take n runs) ++ [x + 1]) as Hl' by (unfold levels; now rewrite Hruns, fmap_app, <- Hlev).
    pose proof (take_drop n stored) as Hst. pose proof (Forall2_length _ _ _ Hz) as Hzl. rewrite Hsplit, <- Hst in Hz.
    apply Forall2_app_inv in Hz as [Hz1 Hz2]; [|rewrite length_fmap, !length_take, <- Hzl; unfold levels; now rewrite length_fmap].
    eapply wp_mono; [apply (IH s' buf (take n stored ++ [out]) Hs') | | intros e He; exact He].
    + rewrite Hl'. apply (tier_up _ MERGE_FAN_IN x eq_refl). now rewrite <- Hsplit.
    + rewrite Hl'. apply Forall2_app; [exact Hz1|]. constructor; [|constructor].
      assert (0 <= x) as Hx by (apply Forall2_cons_inv_l in Hz2 as (? & ? & [? _] & _); auto).
      split; [lia|]. rewrite (zlen_perm _ _ Hp). pose proof (sized_concat _ _ _ Hz2 Hx) as Hc. rewrite Z.pow_add_r by lia. unfold MERGE_FAN_IN in Hc. lia.
    + rewrite Hruns, length_app, length_take. simpl. unfold MERGE_FAN_IN in *. lia.
    + intros _ s'' (stored' & Hh & Hc). exists stored'. split; [exact Hh|]. etransitivity; [exact Hc|].
      rewrite concat_app. cbn. rewrite app_nil_r. rewrite <- Hst at 2. rewrite concat_app. now apply Permutation_app_head.
Qed.
(** Compaction leaves every run as it is, in another file. *)
Lemma spool_rewrite_ok s buf stored :
  spool_holds s buf stored -> sp_runs s <> [] -> wp (spool_rewrite E) (fun _ s' => keeps buf stored s') B s.
Proof.
  intros (Hs & Ht & Hz) Hne. unfold spool_rewrite, rewrite_runs.
  eapply wp_mono; [apply (move_runs_ok s buf stored 1 Hs Hne); lia | | intros e He; exact He].
  intros _ s' (stored' & Hs' & Hp & Hlev). exists stored'.
  assert (levels s' = levels s) as Hl.
  { unfold levels. rewrite Hlev, chunks_1, <- list_fmap_compose. reflexivity. }
  split; [|now apply (concat_perm_chunks 1); auto]. split_and!; auto; rewrite Hl; [exact Ht|].
  rewrite chunks_1, Forall2_fmap_r in Hp. clear - Hz Hp. revert stored' Hp.
  induction Hz as [|x rs ls stored [Hx Hr] Hz IH]; intros stored' Hp; inversion Hp as [|rs' ? stored'' ? Hrs Hp']; subst; constructor; auto.
  split; [exact Hx|]. cbn in Hrs. rewrite app_nil_r in Hrs. now rewrite (zlen_perm _ _ Hrs).
Qed.

Lemma merge_tiers_ok s buf stored :
  spool_inv s buf stored -> tiering (levels s) -> Forall2 sized (levels s) stored ->
  wp (merge_tiers E) (fun _ s' => keeps buf stored s') B s.
Proof.
  intros Hs Ht Hz. unfold merge_tiers. apply wp_bind, wp_here, wp_bind.
  eapply wp_mono; [apply (merge_tiers_loop_ok _ s buf stored Hs Ht Hz); lia | | intros e He; exact He].
  intros _ s' (stored' & Hh & Hp). apply wp_bind, wp_here, wp_if; intros Hc; [|apply wp_ret; now exists stored'].
  eapply wp_mono; [apply (spool_rewrite_ok s' buf stored' Hh) | | intros e He; exact He].
  - intros Hn. rewrite Hn, andb_false_r in Hc. discriminate.
  - intros _ s'' (stored'' & Hh' & Hp'). exists stored''. split; [exact Hh' | now rewrite Hp'].
Qed.

Lemma sort_buffer_ok s buf stored :
  spool_inv s buf stored ->
  wp (sort_buffer E) (fun _ s' => exists slots buf', s' = set_slots slots s /\ spool_inv s' buf' stored /\ buf' ≡ₚ buf /\
    StronglySorted (rec_le E) buf') B s.
Proof.
  intros [H1 H2 H3 H4 H5 H6 H7 H8 H9]. unfold sort_buffer. apply wp_bind, wp_here.
  destruct (sort_slots_ok E (sp_data s) (sp_slots s) buf H1 H2) as (slots & buf' & -> & HF & Hp & Hs).
  apply wp_bind, wp_update, wp_ret. exists slots, buf'. split_and!; auto. split; cbn; auto; [now rewrite Hp | now rewrite (zlen_perm _ _ Hp)].
Qed.

(** A level-0 run after the others. *)
Lemma tiering_spill ls : tiered ls -> Forall (fun x => 0 <= x) ls -> tiering (ls ++ [0]).
Proof.
  intros [Hs Hc] H0. split; [|now rewrite removelast_last]. clear Hc.
  induction Hs as [|x ls Hs IH Hx]; [repeat constructor|]. apply Forall_cons in H0 as [Hx0 H0]. cbn [app]. constructor; [auto|].
  apply Forall_app. split; [exact Hx|]. constructor; [lia | constructor].
Qed.
(** The state once the sorted buffer is a run of its own. *)
Lemma spilled_inv s buf stored tail cursor written dc sc :
  spool_inv s buf stored -> StronglySorted (rec_le E) buf ->
  let bytes := records_bytes buf in
  spool_inv (set_buffer [] dc [] sc
      (set_stored (sp_runs s ++ [mkRun (sp_write_pos s) (sp_write_pos s + zlen bytes) 0])
         (Some (mkFile ((stored_bytes s ++ bytes) ++ tail) cursor)) (sp_write_pos s + zlen bytes) written s))
    [] (stored ++ [buf]).
Proof.
  intros Hs Hsort bytes. pose proof (zlen_stored_bytes s buf stored Hs) as Hlen. destruct (si_stored _ _ _ Hs) as [Ho1 Ho2].
  pose proof (zlen_nonneg bytes). pose proof (zlen_nonneg (stored_bytes s)). pose proof (zlen_nonneg tail).
  rewrite <- Hlen. rewrite <- !zlen_app. set (s' := set_buffer _ _ _ _ _).
  assert (stored_bytes s' = stored_bytes s ++ bytes) as Hb.
  { unfold s', stored_bytes at 1, file_bytes at 1, zlen. cbn. now rewrite Nat2Z.id, take_app_length. }
  split; rewrite ?Hb; cbn; auto; try (constructor; fail).
  - unfold file_bytes. cbn. rewrite !zlen_app. lia.
  - apply Forall2_app; [|constructor; [|constructor]].
    + eapply Forall2_impl; [exact (si_runs _ _ _ Hs)|]. intros r rs Hr. now apply at_run_app.
    + unfold holds_run. cbn. rewrite zlen_app. apply at_run_end.
  - split; apply Forall_app; split; auto; constructor; auto. exact (si_buf _ _ _ Hs).
  - exact (si_usable _ _ _ Hs).
  - rewrite (si_seq _ _ _ Hs), concat_app. cbn. rewrite app_nil_r, zlen_app, zlen_nil. lia.
  - exact (si_count _ _ _ Hs).
Qed.

Lemma ensure_file_ok s buf stored :
  spool_inv s buf stored ->
  wp (match sp_file s with None => io (set_spool_file (Some File_empty)) | Some _ => sret tt end)
    (fun _ s' => exists f, s' = set_spool_file (Some f) s /\ f_data f = file_bytes s) B s.
Proof.
  intros Hs. destruct (sp_file s) as [f|] eqn:Hf.
  - apply wp_ret. exists f. unfold file_bytes. rewrite Hf. split; [destruct s; cbn in *; subst; reflexivity | reflexivity].
  - apply wp_io. exists File_empty. unfold file_bytes. rewrite Hf. auto.
Qed.

(** Records in the buffer go to a run, and nothing else changes. *)
Definition spilled (buf : list SpoolRecord) (stored : list (list SpoolRecord)) (s' : RecordSpool) : Prop :=
  exists stored', spool_holds s' [] stored' /\ concat stored' ≡ₚ buf ++ concat stored.

Lemma spool_spill_ok s buf stored : spool_holds s buf stored -> wp (spill E) (fun _ s' => spilled buf stored s') B s.
Proof.
  intros (Hs & Ht & Hz). unfold spill. apply wp_bind, wp_here. destruct (sp_slots s) as [|sl slots0] eqn:Hslots.
  { apply wp_ret. exists stored. pose proof (si_slots _ _ _ Hs) as HF. rewrite Hslots in HF. inversion HF; subst. split; [split_and!; auto | reflexivity]. }
  apply wp_bind. eapply wp_mono; [exact (sort_buffer_ok s buf stored Hs) | | intros e He; exact He].
  intros _ s1 (slots & buf' & -> & Hs1 & Hp & Hsort). apply wp_bind, wp_here, wp_bind.
  eapply wp_mono; [exact (ensure_file_ok _ buf' stored Hs1) | | intros e He; exact He].
  intros _ s2 (f & -> & Hf). apply wp_bind, wp_here, wp_bind, wp_expect. exists f. split; [reflexivity|].
  apply wp_bind, wp_io, wp_bind, wp_zoom, wp_bind. cbn [set_spool_file set_stored sp_file default fst sp_write_pos set_slots set_buffer].
  rewrite (file_bytes_split (set_slots slots s)) in Hf. set (base := stored_bytes (set_slots slots s)) in *. cbn in Hf.
  eapply wp_mono; [apply (write_slots_ok B (sp_data s) base slots buf' (si_slots _ _ _ Hs1) []) | | intros e He; exact He].
  { unfold spool_writer, file_seek. cbn. rewrite Hf. pose proof (zlen_stored_bytes _ _ _ Hs1) as Hlen. fold base in Hlen. cbn in Hlen. rewrite <- Hlen. apply writes_after_start. }
  intros _ [w pos] [Hw Hpos]. cbn [fst snd app] in Hw, Hpos. subst pos. apply wp_io.
  apply writes_after_flush in Hw as [Hw Hnil]. destruct (writes_after_data _ _ _ Hw Hnil) as [tail Htail].
  apply wp_bind, wp_update, wp_bind, wp_update. cbn [fst snd sp_runs sp_file sp_write_pos set_stored set_spool_file].
  pose proof (fun cursor written dc sc => spilled_inv _ buf' stored tail cursor written dc sc Hs1 Hsort) as Hinv. cbv zeta in Hinv. fold base in Hinv.
  eapply wp_mono; [eapply (merge_tiers_ok _ [] (stored ++ [buf'])) | | intros e He; exact He].
  - rewrite <- Htail in Hinv. destruct (bw_inner (bw_flush w)) as [data cursor]. apply Hinv.
  - unfold levels. cbn. rewrite fmap_app. apply tiering_spill; [exact Ht|].
    eapply Forall2_Forall_l; [exact Hz|]. apply Forall_forall. now intros rs _ x [? _].
  - unfold levels. cbn. rewrite fmap_app. apply Forall2_app; [exact Hz|]. constructor; [|constructor]. split; [cbn; lia|].
    rewrite (zlen_perm _ _ Hp). pose proof (Forall2_length _ _ _ (si_slots _ _ _ Hs)) as Hlen. rewrite Hslots in Hlen. unfold zlen. cbn in *. lia.
  - intros _ s' (stored' & Hh & Hc). exists stored'. split; [exact Hh|]. rewrite Hc, concat_app. cbn. rewrite app_nil_r.
    rewrite Permutation_app_comm. now apply Permutation_app_tail.
Qed.
End Invariant.
