(* ===== verification/SpoolSort.v ===== *)
(** What a client of the spool sees.

    A client appends records, flushes and changes the budget in any order, then
    takes the sorted stream and drains it.  [spool_sorts] says what it gets,
    [spool_runs_bounded] how many runs there are at most, [spoiled_stays] what
    happens after a failed write. *)

From Stdlib Require Import ZArith Lia.
From stdpp Require Import base list sorting.
From coqutil Require Import Byte Word.LittleEndianList.
From S2P Require Import Prelude Errors Format Encoding Effects Sink Heap Merger Spool SpoolFacts.

#[local] Open Scope Z_scope.
#[local] Open Scope drydb_scope.

Inductive SpoolOp : Type :=
| Push (key value : list byte)
| Flush
| SetBudget (budget : Z)
| SetDir (dir : list byte).

(** The records appended, numbered from [seq]. *)
Fixpoint pushed (ops : list SpoolOp) (seq : Z) : list SpoolRecord :=
  match ops with
  | [] => []
  | Push key value :: ops => mkSpoolRecord seq key value :: pushed ops (seq + 1)
  | _ :: ops => pushed ops seq
  end.

Lemma length_pushed ops : forall seq, (length (pushed ops seq) <= length ops)%nat.
Proof. induction ops as [|[key value| |budget|dir] ops IH]; intros seq; cbn; [lia | specialize (IH (seq + 1)); lia | specialize (IH seq); lia..]. Qed.

Section Client.
Context {VA : VecAlloc} (E : KeyEncoding).

Definition spool_op (op : SpoolOp) : IO RecordSpool unit :=
  match op with
  | Push key value => spool_push E key value
  | Flush => spool_flush E
  | SetBudget budget => update (spool_set_budget budget)
  | SetDir dir => update (spool_set_dir dir)
  end.

Fixpoint spool_ops (ops : list SpoolOp) : IO RecordSpool unit :=
  match ops with
  | [] => sret tt
  | op :: ops => let! _ := spool_op op in spool_ops ops
  end.

(** [while let Some(record) = sorted.next_record()?] *)
Fixpoint drain (fuel : nat) : IO SortedRecords (list SpoolRecord) :=
  match fuel with
  | O => sfail OutOfFuel
  | S fuel =>
      let! r := sorted_next_record E in
      match r with
      | None => sret []
      | Some x => let! xs := drain fuel in sret (x :: xs)
      end
  end.

(** All of it; a record comes out for every one that goes in. *)
Definition spool_sort (ops : list SpoolOp) : IO RecordSpool (list SpoolRecord) :=
  let! _ := spool_ops ops in
  let! sorted := into_sorted E in
  zoom (fun _ => sorted) (fun _ s => s) (drain (S (length ops))).

(** A record the headers have room for. *)
Definition op_ok (op : SpoolOp) : Prop :=
  match op with
  | Push key value => validate_key E key = Ok tt /\ zlen key < 2 ^ 32 /\ zlen value < 2 ^ 32
  | _ => True
  end.
End Client.

Section Sorting.
Context {VA : VecAlloc} (E : KeyEncoding) {L : LawfulEncoding E} (B : Stop -> Prop).
Hypothesis valid_ok : forall key, validate_key E key = Ok tt -> key_ok key.

Definition spool_has (s : RecordSpool) (rs : list SpoolRecord) : Prop :=
  exists buf stored, spool_holds E s buf stored /\ buf ++ concat stored ≡ₚ rs.

Lemma RecordSpool_new_has dir budget : spool_has (RecordSpool_new dir budget) [].
Proof.
  exists [], []. split; [|reflexivity]. split; [|split; [|constructor]].
  - split; cbn; auto; try (constructor; fail); try contradiction; [unfold zlen; cbn; lia | split; constructor].
  - split; [constructor | intros x; cbn; unfold MERGE_FAN_IN; lia].
Qed.

Lemma has_next_seq s rs : spool_has s rs -> sp_next_seq s = zlen rs /\ sp_spoiled s = None.
Proof.
  intros (buf & stored & (Hs & _) & Hp). rewrite (si_seq _ _ _ _ Hs), <- zlen_app. split; [now apply zlen_perm | exact (si_usable _ _ _ _ Hs)].
Qed.

Lemma check_usable_ok s (Q : unit -> RecordSpool -> Prop) : sp_spoiled s = None -> Q tt s -> wp check_usable Q B s.
Proof. intros Hs HQ. unfold check_usable. apply wp_bind, wp_here. rewrite Hs. now apply wp_ret. Qed.

Lemma wp_or_spoil m Q s : wp m Q B s -> wp (or_spoil m) Q B s.
Proof.
  intros H faults. specialize (H faults). unfold or_spoil. destruct (m (s, faults)) as [[a|[e| |]] [s' faults']]; exact H.
Qed.

Lemma spill_has s rs : spool_has s rs -> wp (spill E) (fun _ s' => spool_has s' rs) B s.
Proof.
  intros (buf & stored & Hs & Hp). eapply wp_mono; [exact (spool_spill_ok E B s buf stored Hs) | | intros e He; exact He].
  intros _ s' (stored' & Hs' & Hc). exists [], stored'. split; [exact Hs'|]. cbn. now rewrite Hc.
Qed.

(** One more record in the buffer. *)
Lemma spool_has_push s rs r dc sc :
  spool_has s rs -> record_ok E r -> rec_seq r = zlen rs ->
  let at_ := zlen (sp_data s) in
  spool_has (mkRecordSpool (sp_dir s) (sp_data s ++ rec_key r ++ rec_value r) dc
    (sp_slots s ++ [mkSlot at_ (zlen (rec_key r)) (at_ + zlen (rec_key r)) (zlen (rec_value r)) (sp_next_seq s)]) sc
    (sp_runs s) (sp_file s) (sp_write_pos s) (sp_budget s) (sp_next_seq s + 1) (sp_count s + 1) (sp_spoiled s) (sp_written s))
    (rs ++ [r]).
Proof.
  intros Hh Hr Hseq at_. destruct (has_next_seq s rs Hh) as [Hn _]. destruct Hh as (buf & stored & (Hs & Ht & Hz) & Hp).
  exists (buf ++ [r]), stored. split; [split; [|auto]|].
  - destruct Hs as [H1 H2 H3 H4 H5 H6 H7 H8 H9]. split; cbn; auto; [| |rewrite H8, !zlen_app; unfold zlen; cbn; lia | lia].
    + apply Forall2_app; [eapply Forall2_impl; [exact H1|]; intros; now apply slot_holds_app|]. constructor; [|constructor].
      rewrite Hn, <- Hseq. destruct r as [seq key value]. apply slot_holds_new.
    + apply Forall_app; auto.
  - rewrite (Permutation_app_comm rs [r]), <- app_assoc. etransitivity; [symmetry; apply Permutation_middle | now apply perm_skip].
Qed.

Lemma spool_op_ok s rs op :
  spool_has s rs -> op_ok E op -> zlen rs <= u64_max ->
  wp (spool_op E op) (fun _ s' => spool_has s' (rs ++ pushed [op] (zlen rs))) B s.
Proof.
  intros Hh Hop Hu. destruct (has_next_seq s rs Hh) as [Hn Hus]. destruct op as [key value| |budget|dir]; cbn [spool_op pushed].
  - destruct Hop as (Hv & Hk & Hvl). pose proof (valid_ok key Hv) as Hok. unfold spool_push.
    apply wp_bind, check_usable_ok; [exact Hus|]. apply wp_bind, wp_lift_result. rewrite Hv. apply wp_bind, wp_lift_result.
    rewrite (digest_ok key Hok). apply wp_bind, wp_here, wp_bind, wp_update, wp_bind, wp_here.
    set (s' := mkRecordSpool _ _ _ _ _ _ _ _ _ _ _ _ _).
    assert (spool_has s' (rs ++ [mkSpoolRecord (zlen rs) key value])) as Hh'.
    { apply (spool_has_push s rs (mkSpoolRecord (zlen rs) key value)); auto. split; cbn; auto. pose proof (zlen_nonneg rs). lia. }
    apply wp_if; intros _; [apply wp_or_spoil, spill_has; exact Hh' | apply wp_ret; exact Hh'].
  - rewrite app_nil_r. unfold spool_flush. apply wp_bind, check_usable_ok; [exact Hus|]. now apply wp_or_spoil, spill_has.
  - rewrite app_nil_r. apply wp_update. destruct Hh as (buf & stored & ([] & Ht & Hz) & Hp). exists buf, stored. split; [|exact Hp]. split; [|auto]. split; auto.
  - rewrite app_nil_r. apply wp_update. destruct Hh as (buf & stored & ([] & Ht & Hz) & Hp). exists buf, stored. split; [|exact Hp]. split; [|auto]. split; auto.
Qed.

Lemma spool_ops_ok ops : forall s rs,
  spool_has s rs -> Forall (op_ok E) ops -> zlen rs + zlen ops <= u64_max ->
  wp (spool_ops E ops) (fun _ s' => spool_has s' (rs ++ pushed ops (zlen rs))) B s.
Proof.
  induction ops as [|op ops IH]; intros s rs Hh Hok Hu; cbn [spool_ops].
  { apply wp_ret. cbn. now rewrite app_nil_r. }
  apply Forall_cons in Hok as [Hop Hok]. rewrite zlen_cons in Hu. pose proof (zlen_nonneg ops). apply wp_bind.
  eapply wp_mono; [apply (spool_op_ok s rs op Hh Hop); lia | | intros e He; exact He].
  intros [] s' Hh'. assert (zlen (pushed [op] (zlen rs)) <= 1) as H1 by (destruct op; unfold zlen; cbn; lia).
  eapply wp_mono; [apply (IH s' _ Hh' Hok); rewrite zlen_app; lia | | intros e He; exact He].
  intros [] s'' Hh''. replace (rs ++ pushed (op :: ops) (zlen rs)) with ((rs ++ pushed [op] (zlen rs)) ++ pushed ops (zlen (rs ++ pushed [op] (zlen rs)))); [exact Hh''|].
  rewrite <- app_assoc, zlen_app. f_equal. destruct op; cbn [pushed]; rewrite ?zlen_nil, ?zlen_cons, ?Z.add_0_r; reflexivity.
Qed.
(** * The stream *)

(** The stream still holds [rest], in order. *)
Definition stream_holds (st : SortedRecords) (rest : list SpoolRecord) : Prop :=
  match st with
  | Memory data _ slots _ next => exists buf, Forall2 (slot_holds data) slots buf /\ drop next buf = rest /\ StronglySorted (rec_le E) rest
  | Merged file merger => exists data more runs, f_data file = data ++ more /\ merging E data merger runs /\ concat runs ≡ₚ rest
  end.

Lemma sorted_next_record_ok st rest :
  stream_holds st rest ->
  wp (sorted_next_record E) (fun r st' =>
    match r with
    | None => rest = []
    | Some x => exists rest', stream_holds st' rest' /\ rest ≡ₚ x :: rest' /\ Forall (rec_le E x) rest'
    end) B st.
Proof.
  intros Hst. unfold sorted_next_record. apply wp_bind, wp_here. destruct st as [data dc slots sc next|file merger].
  - destruct Hst as (buf & HF & Hd & Hs). destruct (slots !! next) as [sl|] eqn:Hsl.
    + destruct (Forall2_lookup_l _ _ _ _ _ HF Hsl) as (x & Hx & [H1 H2 H3 _ _ H4 H5]).
      rewrite (drop_S _ _ _ Hx) in Hd. subst rest. apply StronglySorted_inv in Hs as [Hs Hle].
      apply wp_bind, wp_update, wp_ret. exists (drop (S next) buf). rewrite H1, H4, H5. destruct x as [seq key value].
      split; [exists buf; auto | split; [reflexivity | exact Hle]].
    + apply wp_ret. rewrite <- Hd. apply drop_ge. apply lookup_ge_None in Hsl. now rewrite <- (Forall2_length _ _ _ HF).
  - destruct Hst as (data & more & runs & Hd & Hm & Hp). apply wp_zoom.
    eapply wp_mono; [exact (next_record_ok E B data more file merger runs Hd Hm) | | intros e He; exact He].
    intros [x|] [file' m'] [Hd' He]; cbn [fst snd] in *.
    + destruct (emitted_step E data merger runs x m' He) as (runs' & Hm' & Hp' & Hle). exists (concat runs').
      split; [exists data, more, runs'; auto | split; [now rewrite <- Hp | exact Hle]].
    + destruct He as [He _]. rewrite He in Hp. now apply Permutation_nil.
Qed.

Lemma drain_ok fuel : forall st rest, stream_holds st rest -> (length rest < fuel)%nat ->
  wp (drain E fuel) (fun out _ => out ≡ₚ rest /\ StronglySorted (rec_le E) out) B st.
Proof.
  induction fuel as [|fuel IH]; intros st rest Hst Hlen; [lia|]. cbn [drain]. apply wp_bind.
  eapply wp_mono; [exact (sorted_next_record_ok st rest Hst) | | intros e He; exact He]. intros [x|] st' Hr; cbn in Hr.
  - destruct Hr as (rest' & Hst' & Hp & Hle). apply wp_bind. eapply wp_mono; [apply (IH st' rest' Hst') | | intros e He; exact He].
    { rewrite Hp in Hlen. cbn in Hlen. lia. }
    intros xs ? [Hx Hs]. apply wp_ret. split; [etransitivity; [apply perm_skip, Hx | now symmetry]|]. constructor; [exact Hs | now rewrite Hx].
  - subst rest. apply wp_ret. split; [reflexivity | constructor].
Qed.

(** The passes before the last merge. *)
Lemma reduce_runs_ok fuel : forall s buf stored,
  spool_inv E s buf stored -> (length (sp_runs s) < fuel)%nat ->
  wp (reduce_runs E fuel) (fun _ s' => exists stored', spool_inv E s' buf stored' /\ concat stored' ≡ₚ concat stored /\
    (length (sp_runs s') <= MERGE_FAN_IN)%nat /\ (sp_runs s <> [] -> sp_runs s' <> [])) B s.
Proof.
  induction fuel as [|fuel IH]; intros s buf stored Hs Hlen; [lia|]. cbn [reduce_runs]. apply wp_bind, wp_here, wp_if; intros Hc.
  2:{ apply wp_ret. exists stored. apply Nat.ltb_ge in Hc. auto. }
  apply Nat.ltb_lt in Hc. unfold MERGE_FAN_IN in Hc at 1. apply wp_bind.
  eapply wp_mono; [apply (move_runs_ok E B s buf stored MERGE_FAN_IN Hs); [|unfold MERGE_FAN_IN; lia] | | intros e He; exact He].
  { intros Hn. rewrite Hn in Hc. cbn in Hc. lia. }
  intros [] s' (stored' & Hs' & Hp & Hlev).
  assert (length (sp_runs s') = length (chunks MERGE_FAN_IN (sp_runs s))) as Hl by (rewrite <- (length_fmap run_level), Hlev; apply length_fmap).
  destruct (chunks_of_spec (length (sp_runs s)) MERGE_FAN_IN (sp_runs s)) as (Hcc & _ & Hch); [unfold MERGE_FAN_IN; lia | lia |].
  fold (chunks MERGE_FAN_IN (sp_runs s)) in Hch, Hcc. rewrite <- Hl in Hch.
  eapply wp_mono; [apply (IH s' buf stored' Hs'); unfold MERGE_FAN_IN in Hch; lia | | intros e He; exact He].
  intros [] s'' (stored'' & Hs'' & Hp'' & Hfew & Hne). exists stored''. split_and!; auto.
  - etransitivity; [exact Hp''|]. apply (concat_perm_chunks MERGE_FAN_IN); [unfold MERGE_FAN_IN; lia | exact Hp].
  - intros _. apply Hne. intros Hn. rewrite Hn in Hl. destruct (chunks MERGE_FAN_IN (sp_runs s)); [|discriminate].
    rewrite <- Hcc in Hc. cbn in Hc. lia.
Qed.

(** Runs are never empty, so records in runs are runs. *)
Lemma stored_runs s buf stored : spool_holds E s buf stored -> (sp_runs s = [] <-> concat stored = []).
Proof.
  intros (Hs & _ & Hz). pose proof (si_runs _ _ _ _ Hs) as HF. split; intros Hn.
  - rewrite Hn in HF. inversion HF. reflexivity.
  - destruct HF as [|r rs runs stored' Hr HF]; [reflexivity|]. exfalso. cbn in Hn. apply app_nil in Hn as [-> _].
    apply Forall2_cons_inv_r in Hz as (x & ? & [Hx Hlen] & _). pose proof (Z.pow_pos_nonneg 16 x ltac:(lia) Hx). rewrite zlen_nil in Hlen. lia.
Qed.

Lemma into_sorted_ok s rs : spool_has s rs -> wp (into_sorted E) (fun st _ => exists rest, stream_holds st rest /\ rest ≡ₚ rs) B s.
Proof.
  intros Hh. destruct (has_next_seq s rs Hh) as [_ Hus]. destruct Hh as (buf & stored & Hh & Hp). unfold into_sorted.
  apply wp_bind, check_usable_ok; [exact Hus|]. apply wp_bind, wp_here. destruct (sp_runs s) as [|r runs] eqn:Hruns.
  - pose proof (proj1 (stored_runs s buf stored Hh) Hruns) as Hc. rewrite Hc, app_nil_r in Hp. destruct Hh as (Hs & _). apply wp_bind.
    eapply wp_mono; [exact (sort_buffer_ok E B s buf stored Hs) | | intros e He; exact He].
    intros [] s' (slots & buf' & -> & Hs' & Hp' & Hsort). apply wp_bind, wp_here, wp_ret. exists buf'. split; [|now rewrite Hp'].
    exists buf'. split; [exact (si_slots _ _ _ _ Hs') | auto].
  - apply wp_bind. eapply wp_mono; [exact (spool_spill_ok E B s buf stored Hh) | | intros e He; exact He].
    intros [] s' (stored' & Hh' & Hp'). pose proof Hh' as (Hs' & _). apply wp_bind, wp_here, wp_bind.
    eapply wp_mono; [apply (reduce_runs_ok _ s' [] stored' Hs'); lia | | intros e He; exact He].
    intros [] s'' (stored'' & Hs'' & Hp'' & Hfew & Hne). apply wp_bind, wp_here, wp_bind, wp_expect.
    destruct (si_file _ _ _ _ Hs'') as [file Hfile].
    { apply Hne. intros Hn%(stored_runs _ _ _ Hh'). rewrite Hn in Hp'. apply Permutation_nil in Hp'. apply app_nil in Hp' as [_ Hn'].
      apply (stored_runs _ _ _ Hh) in Hn'. congruence. }
    exists file. split; [exact Hfile|]. apply wp_zoom, wp_bind. destruct (si_stored _ _ _ _ Hs'') as [Hok Hso].
    assert (f_data file = stored_bytes s'' ++ drop (Z.to_nat (sp_write_pos s'')) (file_bytes s'')) as Hd.
    { rewrite <- file_bytes_split. unfold file_bytes. now rewrite Hfile. }
    eapply wp_mono; [apply (Merger_new_ok E B _ _ (run_reader <$> sp_runs s'') file Merger_none stored'' Hd) | | intros e He; exact He]; auto.
    { apply Forall2_fmap_l. exact (si_runs _ _ _ _ Hs''). }
    intros [] [file' m] [Hd' Hm]. apply wp_bind, wp_here, wp_ret. exists (concat stored''). split; [|now rewrite Hp'', Hp'].
    eexists _, _, stored''. split; [exact Hd' | split; [exact Hm | reflexivity]].
Qed.

(** The number of runs, from the number of records. *)
Lemma runs_bounded s rs :
  spool_has s rs -> sp_count s = zlen rs /\ Z.of_nat (length (sp_runs s)) <= 15 * (1 + Z.log2 (zlen rs) / 4).
Proof.
  intros Hh. destruct (has_next_seq s rs Hh) as [Hn _]. destruct Hh as (buf & stored & (Hs & Ht & Hz) & Hp).
  split; [rewrite (si_count _ _ _ _ Hs); exact Hn|]. set (m := Z.to_nat (1 + Z.log2 (zlen rs) / 4)).
  assert (0 <= Z.log2 (zlen rs) / 4) as Hlog by (apply Z.div_pos; [apply Z.log2_nonneg | lia]).
  assert (length (levels s) <= 15 * m)%nat as Hlen; [|unfold levels in Hlen; rewrite length_fmap in Hlen; lia].
  apply tiered_bound; [exact Ht|]. apply Forall_forall. intros x Hx. apply list_elem_of_lookup in Hx as [i Hi].
  destruct (Forall2_lookup_l _ _ _ _ _ Hz Hi) as (run & Hrun & Hx0 & Hx). split; [exact Hx0|].
  assert (zlen run <= zlen rs) as Hle.
  { rewrite <- (zlen_perm _ _ Hp), zlen_app, <- (take_drop_middle _ _ _ Hrun), concat_app. cbn [concat]. rewrite !zlen_app.
    pose proof (zlen_nonneg buf). pose proof (zlen_nonneg (concat (take i stored))). pose proof (zlen_nonneg (concat (drop (S i) stored))). lia. }
  assert (4 * x <= Z.log2 (zlen rs)) as H4.
  { apply Z.log2_le_pow2; [|rewrite Z.pow_mul_r by lia; change (2 ^ 4) with 16; lia].
    pose proof (Z.pow_pos_nonneg 16 x ltac:(lia) Hx0). lia. }
  pose proof (Z.div_le_lower_bound (Z.log2 (zlen rs)) 4 x ltac:(lia) H4). lia.
Qed.
End Sorting.

(** * What the client gets *)

(** C19: whatever a client appends, and however flushes and changes of the budget are
    mixed in between, draining the spool gives back exactly the records appended, by
    key and in the order of appending where keys are equal; the only way not to is a
    file operation that fails, never a panic or a loop that does not end.  Keys are
    valid, and keys and values shorter than 4 GiB. *)
Theorem spool_sorts {VA : VecAlloc} (E : KeyEncoding) {L : LawfulEncoding E} ops dir budget :
  (forall key, validate_key E key = Ok tt -> key_ok key) ->
  Forall (op_ok E) ops -> zlen ops <= u64_max ->
  wp (spool_sort E ops) (fun out _ => out ≡ₚ pushed ops 0 /\ StronglySorted (rec_le E) out) (fun _ => False) (RecordSpool_new dir budget).
Proof.
  intros Hv Hok Hlen. unfold spool_sort. apply wp_bind.
  eapply wp_mono; [apply (spool_ops_ok E _ Hv ops _ [] (RecordSpool_new_has E dir budget) Hok); rewrite zlen_nil; lia | | intros e He; exact He].
  intros [] s Hh. rewrite zlen_nil in Hh. cbn [app] in Hh. apply wp_bind.
  eapply wp_mono; [exact (into_sorted_ok E _ s _ Hh) | | intros e He; exact He]. intros st s' (rest & Hst & Hp). apply wp_zoom.
  eapply wp_mono; [apply (drain_ok E _ _ st rest Hst) | | intros e He; exact He].
  - rewrite Hp. pose proof (length_pushed ops 0). lia.
  - intros out st' [Ho Hs]. split; [now rewrite Ho | exact Hs].
Qed.

(** C33: the runs stay few: after any sequence of operations there are at most fifteen
    for every power of sixteen up to the number of records.  A merge of all of them
    thus has one pending record for each, whatever was appended. *)
Theorem spool_runs_bounded {VA : VecAlloc} (E : KeyEncoding) {L : LawfulEncoding E} ops dir budget :
  (forall key, validate_key E key = Ok tt -> key_ok key) ->
  Forall (op_ok E) ops -> zlen ops <= u64_max ->
  wp (spool_ops E ops)
    (fun _ s => sp_count s = zlen (pushed ops 0) /\ Z.of_nat (length (sp_runs s)) <= 15 * (1 + Z.log2 (sp_count s) / 4))
    (fun _ => False) (RecordSpool_new dir budget).
Proof.
  intros Hv Hok Hlen.
  eapply wp_mono; [apply (spool_ops_ok E _ Hv ops _ [] (RecordSpool_new_has E dir budget) Hok); rewrite zlen_nil; lia | | intros e He; exact He].
  intros [] s Hh. rewrite zlen_nil in Hh. destruct (runs_bounded E s _ Hh) as [Hc Hr]. rewrite Hc at 2. auto.
Qed.

(** * After a failure *)

Section Spoiled.
Context {VA : VecAlloc} (E : KeyEncoding).

(** A pass that fails has moved nothing. *)
Lemma failed_pass_moves_nothing group s faults e s' faults' :
  move_runs (fun input runs => merge_groups E input runs group) (s, faults) = (Err e, (s', faults')) -> s' = s.
Proof.
  unfold move_runs, merge_groups, sbind at 1, here. cbn [fst snd]. unfold expect, lift. destruct (sp_file s) as [input|]; cbn; [|congruence].
  unfold sbind, io, id, zoom, update, here. destruct faults as [|[] faults]; cbn; [|congruence|];
    destruct (merge_chunks _ _ _ _ _) as [[[]|] []]; cbn; congruence.
Qed.

(** Every operation on a spoiled spool reports the failure and changes nothing. *)
Definition refuses (s : RecordSpool) (k : ErrorKind) : Prop :=
  let stop {A} (m : IO RecordSpool A) := forall faults, m (s, faults) = (Err (Failed (Error_new k)), (s, faults)) in
  (forall key value, stop (spool_push E key value)) /\ stop (spool_flush E) /\ stop (into_sorted E).

Lemma spoiled_refuses s k : sp_spoiled s = Some k -> refuses s k.
Proof.
  intros Hs. assert (forall faults, check_usable (s, faults) = (Err (Failed (Error_new k)), (s, faults))) as Hc.
  { intros faults. unfold check_usable, sbind, here. cbn. now rewrite Hs. }
  split_and!; [intros key value faults | intros faults | intros faults]; unfold spool_push, spool_flush, into_sorted, sbind at 1; now rewrite Hc.
Qed.

Lemma or_spoil_fails m s faults e s' faults' :
  or_spoil m (s, faults) = (Err (Failed e), (s', faults')) -> sp_spoiled s' = Some (err_kind e).
Proof. unfold or_spoil. destruct (m (s, faults)) as [[a|[e'| |]] [s1 f1]]; intros [= <- <- <-]; reflexivity. Qed.

Lemma check_usable_inv {A} (k : unit -> IO RecordSpool A) s faults e s' faults' :
  sbind check_usable k (s, faults) = (Err e, (s', faults')) -> s' = s \/ k tt (s, faults) = (Err e, (s', faults')).
Proof.
  unfold sbind, check_usable, here. cbn. destruct (sp_spoiled s) as [k0|]; cbn; [left; congruence | now right].
Qed.

(** C34: an operation that fails either changes nothing, because it refused the key or
    the spool was unusable already, or it spoils the spool: from then on no operation
    does anything but report what went wrong. *)
Theorem failed_write_is_final op s faults e s' faults' :
  spool_op E op (s, faults) = (Err (Failed e), (s', faults')) -> s' = s \/ refuses s' (err_kind e).
Proof.
  destruct op as [key value| |budget|dir]; cbn [spool_op]; [| |discriminate..].
  - unfold spool_push. intros [->|Hop]%check_usable_inv; [now left|].
    unfold sbind, lift_result, lift, here, update in Hop. destruct (validate_key E key) as [[]|e0]; cbn in Hop; [|left; congruence].
    destruct (ke_digest E key) as [d|e0]; cbn in Hop; [|left; congruence]. destruct (_ <=? _); [|discriminate].
    right. apply spoiled_refuses. exact (or_spoil_fails _ _ _ _ _ _ Hop).
  - unfold spool_flush. intros [->|Hop]%check_usable_inv; [now left|]. right. apply spoiled_refuses. exact (or_spoil_fails _ _ _ _ _ _ Hop).
Qed.
End Spoiled.

(** * On concrete input *)

(** Vectors that take what they need. *)
#[local] Instance exact_alloc : VecAlloc := {| vec_extend := Z.max; vec_shrink := fun _ n => n |}.

Lemma ascii_valid key : validate_key AsciiEncoding key = Ok tt -> @key_ok AsciiEncoding Ascii_lawful key.
Proof. now simpl. Qed.

(** Eighteen runs of two records, keys going down. *)
Definition sample_ops : list SpoolOp :=
  concat ((fun i => let k := Byte.byte.of_Z (Z.of_nat (40 - i)) in [Push [k] [k; k]; Push [k] []; Flush]) <$> seq 0 18).

(** Both tiers of the merge are at work, and the stream is as it should be. *)
Example sample_is_sorted :
  match spool_ops AsciiEncoding sample_ops (RecordSpool_new [] 0, []), spool_sort AsciiEncoding sample_ops (RecordSpool_new [] 0, []) with
  | (Ok _, (s, _)), (Ok out, _) => run_level <$> sp_runs s = [1; 0; 0] /\ length out = 36%nat /\
      rec_seq <$> take 4 out = [34; 35; 32; 33]
  | _, _ => False
  end.
Proof. vm_compute. auto. Qed.

Lemma sample_ops_ok : Forall (op_ok AsciiEncoding) sample_ops.
Proof. repeat constructor. Qed.

Lemma spool_sorts_witness :
  match spool_sort AsciiEncoding sample_ops (RecordSpool_new [] 0, []) with
  | (Ok out, _) => out ≡ₚ pushed sample_ops 0 /\ StronglySorted (rec_le AsciiEncoding) out
  | (Err _, _) => False
  end.
Proof.
  pose proof (wp_no_faults _ _ _ _ (spool_sorts AsciiEncoding sample_ops [] 0 ascii_valid sample_ops_ok ltac:(vm_compute; discriminate))) as H.
  destruct (spool_sort AsciiEncoding sample_ops (RecordSpool_new [] 0, [])) as [[out|e] [s f]]; exact H.
Defined.

Lemma spool_runs_bounded_witness :
  match spool_ops AsciiEncoding sample_ops (RecordSpool_new [] 0, []) with
  | (Ok _, (s, _)) => sp_count s = 36 /\ Z.of_nat (length (sp_runs s)) <= 15 * (1 + Z.log2 (sp_count s) / 4)
  | (Err _, _) => False
  end.
Proof.
  pose proof (wp_no_faults _ _ _ _ (spool_runs_bounded AsciiEncoding sample_ops [] 0 ascii_valid sample_ops_ok ltac:(vm_compute; discriminate))) as H.
  destruct (spool_ops AsciiEncoding sample_ops (RecordSpool_new [] 0, [])) as [[[]|e] [s f]]; exact H.
Defined.

(** The second write of the first flush fails. *)
Definition sample_failure : RecordSpool * (result Stop unit * (RecordSpool * list bool)) :=
  let s := fst (snd (spool_ops AsciiEncoding [Push [] []] (RecordSpool_new [] 0, []))) in
  (s, spool_op AsciiEncoding Flush (s, [false; false; true])).

Lemma failed_write_is_final_witness :
  fst (snd sample_failure) = Err (Failed Error_io) /\
  refuses AsciiEncoding (fst (snd (snd sample_failure))) (err_kind Error_io).
Proof.
  split; [vm_compute; reflexivity|].
  destruct (failed_write_is_final AsciiEncoding Flush (fst sample_failure) [false; false; true] Error_io
    (fst (snd (snd sample_failure))) (snd (snd (snd sample_failure))) ltac:(vm_compute; reflexivity)) as [H|H]; [discriminate H | exact H].
Defined.
