(* ===== verification/PageWriter.v ===== *)
(** The pages the tree writer produces, [crates/drydb/src/builder/tree.rs].

    A [Level] collects the entries of the page being filled; [page_bytes] is
    the page written for it.  What a page is worth to a reader is proved here:
    it parses, every entry decodes to what was added, the digests come back
    sorted, and the page is a [sorted_page], which is all the search functions
    of [TreePage] rely on.  The packing and the cascade between levels are in
    [TreeWriter.v]. *)

From Stdlib Require Import ZArith Lia.
From stdpp Require Import base list sorting strings.
From coqutil Require Import Byte Word.LittleEndianList.
From S2P Require Import Prelude Errors Format PageRef Eytzinger Node Encoding TreePage.

#[local] Open Scope Z_scope.
#[local] Open Scope drydb_scope.

Definition MIN_PAGE_SIZE : Z := PAGE_PREFIX_LEN + 32.

(** * Layout and admission *)

Definition choose_layout (page_size : Z) (eytzinger_digests : bool) (E : KeyEncoding)
    (allow_omitted_keys : bool) : NodeLayout :=
  let compact := page_size <=? MAX_COMPACT_PAGE_SIZE in
  {| eytzinger := eytzinger_digests;
     compact_meta := compact;
     omitted_keys := allow_omitted_keys && compact && negb eytzinger_digests
                     && ke_is_digest_exact E |}.

Definition check_key_fits (page_size : Z) (layout : NodeLayout) (key_len : Z) : Result unit :=
  let stored_key_len := if omitted_keys layout then 0 else key_len in
  let digest_one := default usize_max (digest_area_size layout 1) in
  let digest_two := default usize_max (digest_area_size layout 2) in
  let leaf_meta := default usize_max (leaf_meta_size layout 1) in
  let internal_meta := default usize_max (internal_meta_size layout 2) in
  let leaf := saturating_add (saturating_add (saturating_add
                (saturating_add PAGE_PREFIX_LEN leaf_meta) digest_one) stored_key_len) 8 in
  fail? page_size <? leaf with Error_new ValueTooLarge in
  let two_separators := saturating_add (saturating_add
                          (saturating_add PAGE_PREFIX_LEN internal_meta) digest_two)
                          (saturating_mul 2 (saturating_add stored_key_len 8)) in
  fail? page_size <? two_separators with Error_new ValueTooLarge in
  Ok tt.

(** * Scattering digests into Eytzinger slots

    The state of [fill] is the slot array and the position in the sorted
    digests; the node index doubles, so the recursion is as deep as the array
    has bits. *)

Fixpoint fill (fuel : nat) (sorted : list Z) (node : Z) (st : list Z * nat) : list Z * nat :=
  match fuel with
  | O => st
  | S fuel =>
      if zlen (fst st) <? node then st
      else
        let '(slots, next) := fill fuel sorted (node * 2) st in
        let '(value, next) := match sorted !! next with
                              | Some value => (value, S next)
                              | None => (u64_max, next)
                              end in
        fill fuel sorted (node * 2 + 1) (<[Z.to_nat (node - 1) := value]> slots, next)
  end.

Definition scatter_eytzinger (sorted slots : list Z) : list Z := fst (fill 65 sorted 1 (slots, 0%nat)).

(** * Levels *)

Record Level {X : Type} : Type := mkLevel {
  lv_payload : list byte;
  (** [(stored key length, inline payload length)] per entry. *)
  lv_sizes : list (Z * Z);
  lv_overflow : list (option PageRef);
  lv_digests : list Z;
  lv_extras : list X;
  lv_first_key : option (list byte);
  lv_prev_ordinal : option PageOrdinal;
  lv_prev_offset : option Z;
}.
Arguments Level X : clear implicits.

Definition Level_new {X} : Level X := mkLevel X [] [] [] [] [] None None None.

Definition level_count {X} (l : Level X) : Z := zlen (lv_sizes l).

Definition Level_reset {X} (l : Level X) : Level X :=
  mkLevel X [] [] [] [] [] None (lv_prev_ordinal l) (lv_prev_offset l).

Definition set_first_key {X} (key : list byte) (l : Level X) : Level X :=
  mkLevel X (lv_payload l) (lv_sizes l) (lv_overflow l) (lv_digests l) (lv_extras l)
    (Some key) (lv_prev_ordinal l) (lv_prev_offset l).

Definition set_prev {X} (ordinal : PageOrdinal) (offset : Z) (l : Level X) : Level X :=
  mkLevel X (lv_payload l) (lv_sizes l) (lv_overflow l) (lv_digests l) (lv_extras l)
    (lv_first_key l) (Some ordinal) (Some offset).

Definition clear_extras {X} (l : Level X) : Level X :=
  mkLevel X (lv_payload l) (lv_sizes l) (lv_overflow l) (lv_digests l) []
    (lv_first_key l) (lv_prev_ordinal l) (lv_prev_offset l).

(** One entry appended to a level. *)
Definition level_add {X} (digest : Z) (stored_key value : list byte) (blob : option PageRef)
    (extras : list X) (l : Level X) : Level X :=
  mkLevel X (lv_payload l ++ stored_key ++ value)
    (lv_sizes l ++ [(zlen stored_key, zlen value)]) (lv_overflow l ++ [blob])
    (lv_digests l ++ [digest]) (lv_extras l ++ extras)
    (lv_first_key l) (lv_prev_ordinal l) (lv_prev_offset l).

(** * The bytes of a page *)

Section PageBytes.
Context {X : Type} (layout : NodeLayout).

Definition digest_bytes (state : Level X) : list byte :=
  concat (u64_le <$>
    if eytzinger layout
    then scatter_eytzinger (lv_digests state)
           (replicate (Z.to_nat (complete_size (level_count state))) u64_max)
    else lv_digests state).

(** [state.overflow[i].is_some()]; the vectors of a level grow together. *)
Definition is_overflow (overflow : list (option PageRef)) (i : nat) : bool :=
  match overflow !! i with Some (Some _) => true | _ => false end.

(** The compact offset slots, one per entry and a closing one. *)
Fixpoint compact_slots (is_leaf : bool) (overflow : list (option PageRef)) (i : nat) (offset : Z)
    (sizes : list (Z * Z)) : list byte :=
  match sizes with
  | [] => u16_le (wrap 16 offset)
  | (key_len, payload_len) :: sizes =>
      let slot := wrap 16 offset in
      let slot := if is_leaf && is_overflow overflow i
                  then Z.lor slot COMPACT_OVERFLOW_BIT else slot in
      u16_le slot ++ compact_slots is_leaf overflow (S i) (offset + (key_len + payload_len)) sizes
  end.

(** The classic fixed-size records. *)
Fixpoint classic_records (is_leaf : bool) (overflow : list (option PageRef)) (i : nat) (offset : Z)
    (sizes : list (Z * Z)) : list byte :=
  match sizes with
  | [] => []
  | (key_len, payload_len) :: sizes =>
      i32_le offset ++ u16_le key_len
      ++ (if is_leaf
          then u16_le (if is_overflow overflow i then OVERFLOW_SENTINEL else payload_len)
          else [])
      ++ classic_records is_leaf overflow (S i) (offset + (key_len + payload_len)) sizes
  end.

Definition meta_bytes (is_leaf : bool) (payload_base : Z) (state : Level X) : list byte :=
  if compact_meta layout then
    if is_leaf || negb (omitted_keys layout) then
      compact_slots is_leaf (lv_overflow state) 0 payload_base (lv_sizes state)
      ++ (if is_leaf && negb (omitted_keys layout)
          then concat ((fun s => u16_le (fst s)) <$> lv_sizes state) else [])
    else []
  else classic_records is_leaf (lv_overflow state) 0 payload_base (lv_sizes state).

Definition page_bytes (is_leaf : bool) (page_len payload_base : Z) (state : Level X) : list byte :=
  let kind_bits := Z.lor (if is_leaf then 0 else 1) (flag_bits layout) in
  i32_le page_len ++ i32_le kind_bits ++ i32_le (level_count state)
  ++ i64_le (PageOrdinal_to_i64 (lv_prev_ordinal state)) ++ i64_le (-1)
  ++ digest_bytes state
  ++ meta_bytes is_leaf payload_base state
  ++ lv_payload state.

(** The page of a value stored on its own. *)
Definition blob_page_bytes (value : list byte) : list byte :=
  i32_le (PAGE_PREFIX_LEN + zlen value) ++ i32_le 0 ++ i32_le 0 ++ i64_le (-1) ++ i64_le (-1)
  ++ value.
End PageBytes.

(** * Scattering is the inverse of the in-order walk *)

(** What slot the [j]-th in-order node gets, counting from position [next]. *)
Definition filled (sorted : list Z) (j : nat) : Z := default u64_max (sorted !! j).

Lemma filled_clamp sorted j k : (length sorted <= j)%nat -> filled sorted (j + k) = u64_max.
Proof. intros H. unfold filled. rewrite lookup_ge_None_2 by lia. reflexivity. Qed.

(** [filled] does not see the clamping of the position at the end. *)
Lemma filled_min sorted a k :
  filled sorted (Nat.min a (length sorted) + k) = filled sorted (a + k).
Proof.
  destruct (Nat.le_gt_cases a (length sorted)).
  - now rewrite Nat.min_l.
  - rewrite Nat.min_r by lia. rewrite !filled_clamp by lia. reflexivity.
Qed.

Record fill_post (sorted : list Z) (h : nat) (node : Z) (slots : list Z) (next : nat)
    (slots' : list Z) (next' : nat) : Prop := {
  fp_len : length slots' = length slots;
  fp_next : next' = Nat.min (next + length (inorder_nodes h node)) (length sorted);
  fp_other : forall n, 1 <= n -> n ∉ inorder_nodes h node ->
    slots' !! Z.to_nat (n - 1) = slots !! Z.to_nat (n - 1);
  fp_node : forall j n, inorder_nodes h node !! j = Some n ->
    slots' !! Z.to_nat (n - 1) = Some (filled sorted (next + j));
}.

Lemma fill_spec sorted H h fuel node slots next :
  zlen slots = 2 ^ Z.of_nat H - 1 -> (h <= H)%nat -> (h < fuel)%nat -> (next <= length sorted)%nat ->
  2 ^ Z.of_nat (H - h) <= node < 2 * 2 ^ Z.of_nat (H - h) ->
  let '(slots', next') := fill fuel sorted node (slots, next) in
  fill_post sorted h node slots next slots' next'.
Proof.
  revert fuel node slots next; induction h as [|h IH]; intros [|fuel] node slots next Hl Hh Hf Hn Hr; [lia| |lia|].
  { rewrite Nat.sub_0_r in Hr. cbn [fill fst]. destruct (Z.ltb_spec (zlen slots) node); [|lia].
    constructor; auto; [simpl; lia | intros j n Hj; discriminate]. }
  assert (2 ^ Z.of_nat (H - h) = 2 * 2 ^ Z.of_nat (H - S h)) as Hp.
  { rewrite <- Z.pow_succ_r by lia. f_equal. lia. }
  assert (0 < 2 ^ Z.of_nat (H - S h)) by (apply Z.pow_pos_nonneg; lia).
  assert (2 ^ Z.of_nat (H - h) <= 2 ^ Z.of_nat H) by (apply Z.pow_le_mono_r; lia).
  cbn [fill fst]. destruct (Z.ltb_spec (zlen slots) node); [lia|].
  rewrite (Z.mul_comm node 2).
  pose proof (IH fuel (2 * node) slots next Hl ltac:(lia) ltac:(lia) Hn ltac:(lia)) as HL.
  destruct (fill fuel sorted (2 * node) (slots, next)) as [s1 n1]. destruct HL as [L1 N1 O1 V1].
  set (k := length (inorder_nodes h (2 * node))) in *.
  assert (exists n2, (match sorted !! n1 with Some value => (value, S n1) | None => (u64_max, n1) end)
    = (filled sorted (next + k), n2) /\ n2 = Nat.min (next + k + 1) (length sorted)) as (n2 & -> & N2).
  { rewrite <- (Nat.add_0_r (next + k)), <- (filled_min sorted (next + k) 0), Nat.add_0_r, <- N1.
    unfold filled. destruct (sorted !! n1) as [x|] eqn:Hx; simpl; eexists; (split; [reflexivity|]).
    - apply lookup_lt_Some in Hx. lia.
    - apply lookup_ge_None in Hx. lia. }
  set (s2 := <[Z.to_nat (node - 1) := filled sorted (next + k)]> s1).
  assert (length s2 = length slots) as L2 by (unfold s2; rewrite length_insert; exact L1).
  pose proof (IH fuel (2 * node + 1) s2 n2 ltac:(unfold zlen in *; lia) ltac:(lia) ltac:(lia)
    ltac:(lia) ltac:(lia)) as HR.
  destruct (fill fuel sorted (2 * node + 1) (s2, n2)) as [s3 n3]. destruct HR as [L3 N3 O3 V3].
  assert (k = length (inorder_nodes h (2 * node + 1))) as Hk.
  { pose proof (zlen_inorder_nodes h (2 * node)). pose proof (zlen_inorder_nodes h (2 * node + 1)).
    unfold zlen in *. lia. }
  assert (forall n, 1 <= n -> n <> node -> s2 !! Z.to_nat (n - 1) = s1 !! Z.to_nat (n - 1)) as O2.
  { intros n Hn1 Hne. unfold s2. apply list_lookup_insert_ne. lia. }
  assert (node ∉ inorder_nodes h (2 * node) ++ inorder_nodes h (2 * node + 1)) as Hroot.
  { intros Hin. apply inorder_nodes_root in Hin; lia. }
  rewrite not_elem_of_app in Hroot. destruct Hroot as [HrootL HrootR].
  constructor.
  - congruence.
  - cbn [inorder_nodes]. rewrite length_app. simpl. fold k. rewrite N3, <- Hk, N2. lia.
  - intros n Hn1. cbn [inorder_nodes]. rewrite not_elem_of_app, not_elem_of_cons. intros (Hnl & Hne & Hnr).
    rewrite O3, O2, O1 by assumption. reflexivity.
  - intros j n Hj. cbn [inorder_nodes] in Hj.
    destruct (Nat.lt_ge_cases j k) as [Hjk|Hjk].
    + rewrite lookup_app_l in Hj by exact Hjk.
      pose proof (list_elem_of_lookup_2 _ _ _ Hj) as Hin.
      assert (2 * node <= n) by (apply inorder_nodes_bounds in Hin; lia).
      rewrite O3, O2; [now apply V1 | lia | congruence | lia | apply inorder_nodes_disjoint; auto; lia].
    + rewrite lookup_app_r in Hj by exact Hjk. fold k in Hj.
      destruct (j - k)%nat as [|m] eqn:Hm; simpl in Hj.
      * simplify_eq. rewrite O3 by (assumption || lia). unfold s2.
        rewrite list_lookup_insert_eq by (unfold zlen in *; lia). do 2 f_equal. lia.
      * rewrite (V3 m n Hj), N2, filled_min. do 2 f_equal. lia.
Qed.

(** The slots in sorted order are the digests followed by the padding. *)
Lemma scatter_inorder sorted h :
  (h <= 63)%nat -> zlen sorted <= 2 ^ Z.of_nat h - 1 ->
  let slots := scatter_eytzinger sorted (replicate (Z.to_nat (2 ^ Z.of_nat h - 1)) u64_max) in
  zlen slots = 2 ^ Z.of_nat h - 1 /\
  (fun n => default 0 (slots !! Z.to_nat (n - 1))) <$> inorder_nodes h 1 =
  sorted ++ replicate (Z.to_nat (2 ^ Z.of_nat h - 1) - length sorted) u64_max.
Proof.
  intros Hh Hs. assert (0 < 2 ^ Z.of_nat h) by (apply Z.pow_pos_nonneg; lia).
  set (blank := replicate _ u64_max).
  assert (zlen blank = 2 ^ Z.of_nat h - 1) as Hb.
  { unfold blank, zlen. rewrite length_replicate. lia. }
  pose proof (fill_spec sorted h h 65 1 blank 0 Hb ltac:(lia) ltac:(lia) ltac:(lia)) as HF.
  rewrite Nat.sub_diag in HF. specialize (HF ltac:(simpl; lia)).
  unfold scatter_eytzinger. destruct (fill 65 sorted 1 (blank, 0%nat)) as [slots next].
  destruct HF as [HL _ _ HV]. simpl. split; [unfold zlen in *; lia|].
  pose proof (zlen_inorder_nodes h 1) as Hlen.
  apply list_eq. intros j. rewrite list_lookup_fmap.
  destruct (inorder_nodes h 1 !! j) as [n|] eqn:Hj; simpl.
  - rewrite (HV j n Hj). simpl. apply lookup_lt_Some in Hj. unfold filled.
    destruct (sorted !! j) as [x|] eqn:Hx; simpl.
    + now rewrite lookup_app_l, Hx by now apply lookup_lt_Some in Hx.
    + apply lookup_ge_None in Hx. rewrite lookup_app_r by exact Hx. symmetry. apply lookup_replicate.
      split; [reflexivity|]. unfold zlen in *. lia.
  - apply lookup_ge_None in Hj. symmetry. apply lookup_ge_None.
    rewrite length_app, length_replicate. unfold zlen in *. lia.
Qed.

(** * What a level holds *)

(** One entry of a page being filled: the key bytes the page stores, the
    bytes of the value slot, and for an overflow value where it went. *)
Record Item : Type := mkItem {
  it_key : list byte;
  it_value : list byte;
  it_blob : option PageRef;
  it_digest : Z;
}.

Definition item_bytes (it : Item) : list byte := it_key it ++ it_value it.
Definition items_bytes (items : list Item) : list byte := concat (item_bytes <$> items).
Definition item_size (it : Item) : Z * Z := (zlen (it_key it), zlen (it_value it)).

Record level_holds {X} (l : Level X) (items : list Item) : Prop := {
  lh_payload : lv_payload l = items_bytes items;
  lh_sizes : lv_sizes l = item_size <$> items;
  lh_overflow : lv_overflow l = it_blob <$> items;
  lh_digests : lv_digests l = it_digest <$> items;
}.

Definition page_ordinal_ok (p : PageOrdinal) : Prop := 0 <= p < 2 ^ 63.

(** What the fields of an entry can store. *)
Record item_ok (layout : NodeLayout) (is_leaf : bool) (it : Item) : Prop := {
  ik_key : zlen (it_key it) <= u16_max;
  ik_omitted : omitted_keys layout = true -> it_key it = [];
  ik_digest : 0 <= it_digest it <= u64_max;
  ik_value : match is_leaf, it_blob it with
             | true, None => zlen (it_value it) < OVERFLOW_SENTINEL
             | true, Some r => it_value it = i64_le (pr_page r) /\ page_ordinal_ok (pr_page r)
             | false, _ => exists child, it_value it = i64_le child /\ page_ordinal_ok child
             end;
}.

Lemma level_add_holds {X} (l : Level X) items it extras :
  level_holds l items ->
  level_holds (level_add (it_digest it) (it_key it) (it_value it) (it_blob it) extras l) (items ++ [it]).
Proof.
  intros [Hp Hs Ho Hd]. constructor; simpl; rewrite ?Hp, ?Hs, ?Ho, ?Hd, ?fmap_app; try reflexivity.
  unfold items_bytes. rewrite fmap_app, concat_app. simpl. now rewrite app_nil_r.
Qed.

Lemma level_holds_count {X} (l : Level X) items : level_holds l items -> level_count l = zlen items.
Proof. intros [_ Hs _ _]. unfold level_count, zlen. now rewrite Hs, length_fmap. Qed.

(** ** Entry metadata *)

Definition sizes_total (sizes : list (Z * Z)) : Z := foldr (fun s n => fst s + snd s + n) 0 sizes.

Lemma zlen_items_bytes items : zlen (items_bytes items) = sizes_total (item_size <$> items).
Proof.
  unfold items_bytes. induction items as [|it items IH]; [reflexivity|].
  rewrite !fmap_cons. simpl. rewrite !zlen_app, IH. unfold item_bytes. rewrite zlen_app. lia.
Qed.

Definition slot_value (is_leaf : bool) (overflow : list (option PageRef)) (i : nat) (offset : Z) : Z :=
  if is_leaf && is_overflow overflow i
  then Z.lor (wrap 16 offset) COMPACT_OVERFLOW_BIT else wrap 16 offset.

Lemma zlen_compact_slots is_leaf overflow i offset sizes :
  zlen (compact_slots is_leaf overflow i offset sizes) = 2 * (zlen sizes + 1).
Proof.
  revert i offset; induction sizes as [|[k p] sizes IH]; intros i offset; cbn [compact_slots].
  - rewrite zlen_u16_le, zlen_nil. lia.
  - rewrite zlen_app, zlen_u16_le, IH, zlen_cons. lia.
Qed.

Lemma compact_slots_at is_leaf overflow i offset sizes j :
  (j < length sizes)%nat ->
  slice (compact_slots is_leaf overflow i offset sizes) (Z.of_nat j * 2) 2 =
  u16_le (slot_value is_leaf overflow (i + j) (offset + sizes_total (take j sizes))).
Proof.
  revert i offset j; induction sizes as [|[k p] sizes IH]; intros i offset j Hj; simpl in Hj; [lia|].
  cbn [compact_slots]. fold (slot_value is_leaf overflow i offset). destruct j as [|j].
  - rewrite slice_app_l by (rewrite ?zlen_u16_le; lia). rewrite slice_all by (now rewrite zlen_u16_le).
    rewrite Nat.add_0_r. simpl. now rewrite Z.add_0_r.
  - rewrite slice_app_r by (rewrite zlen_u16_le; lia). rewrite zlen_u16_le.
    replace (Z.of_nat (S j) * 2 - 2) with (Z.of_nat j * 2) by lia. rewrite IH by lia.
    simpl. f_equal. f_equal; lia.
Qed.

Lemma compact_slots_last is_leaf overflow i offset sizes :
  slice (compact_slots is_leaf overflow i offset sizes) (Z.of_nat (length sizes) * 2) 2 =
  u16_le (wrap 16 (offset + sizes_total sizes)).
Proof.
  revert i offset; induction sizes as [|[k p] sizes IH]; intros i offset; cbn [compact_slots].
  - simpl. rewrite Z.add_0_r. apply slice_all. now rewrite zlen_u16_le.
  - rewrite slice_app_r by (rewrite zlen_u16_le; simpl; lia). rewrite zlen_u16_le.
    replace (Z.of_nat (length ((k, p) :: sizes)) * 2 - 2) with (Z.of_nat (length sizes) * 2) by (simpl; lia).
    rewrite IH. simpl. do 2 f_equal. lia.
Qed.

Definition record_width (is_leaf : bool) : Z := if is_leaf then 8 else 6.

Definition record_bytes (is_leaf : bool) (overflow : list (option PageRef)) (i : nat) (offset : Z)
    (size : Z * Z) : list byte :=
  i32_le offset ++ u16_le (fst size)
  ++ (if is_leaf then u16_le (if is_overflow overflow i then OVERFLOW_SENTINEL else snd size) else []).

Lemma zlen_record_bytes is_leaf overflow i offset size :
  zlen (record_bytes is_leaf overflow i offset size) = record_width is_leaf.
Proof. unfold record_bytes, record_width. destruct is_leaf; zlen_lia. Qed.

Lemma classic_records_cons is_leaf overflow i offset k p sizes :
  classic_records is_leaf overflow i offset ((k, p) :: sizes) =
  record_bytes is_leaf overflow i offset (k, p)
  ++ classic_records is_leaf overflow (S i) (offset + (k + p)) sizes.
Proof. cbn [classic_records]. unfold record_bytes. now rewrite <- !app_assoc. Qed.

Lemma zlen_classic_records is_leaf overflow i offset sizes :
  zlen (classic_records is_leaf overflow i offset sizes) = record_width is_leaf * zlen sizes.
Proof.
  revert i offset; induction sizes as [|[k p] sizes IH]; intros i offset.
  - unfold zlen; simpl; lia.
  - rewrite classic_records_cons, zlen_app, IH, zlen_record_bytes, zlen_cons. lia.
Qed.

Lemma classic_records_at is_leaf overflow i offset sizes j size :
  sizes !! j = Some size ->
  slice (classic_records is_leaf overflow i offset sizes)
    (Z.of_nat j * record_width is_leaf) (record_width is_leaf) =
  record_bytes is_leaf overflow (i + j) (offset + sizes_total (take j sizes)) size.
Proof.
  assert (0 < record_width is_leaf) by (destruct is_leaf; simpl; lia).
  revert i offset j; induction sizes as [|[k p] sizes IH]; intros i offset j Hj; [discriminate|].
  rewrite classic_records_cons. destruct j as [|j].
  - simpl in Hj. simplify_eq. rewrite slice_app_l by (rewrite ?zlen_record_bytes; lia).
    rewrite slice_all by (now rewrite zlen_record_bytes). simpl. rewrite Nat.add_0_r, Z.add_0_r. reflexivity.
  - rewrite slice_app_r by (rewrite zlen_record_bytes; lia). rewrite zlen_record_bytes.
    replace (Z.of_nat (S j) * record_width is_leaf - record_width is_leaf)
      with (Z.of_nat j * record_width is_leaf) by lia.
    rewrite IH by exact Hj. simpl. f_equal; lia.
Qed.

(** * A written page read back *)

Definition node_kind (is_leaf : bool) : NodeKind := if is_leaf then Leaf else Internal.

Record layout_ok (l : NodeLayout) : Prop := {
  lo_compact : omitted_keys l = true -> compact_meta l = true;
  lo_sorted : omitted_keys l = true -> eytzinger l = false;
}.

Lemma choose_layout_ok page_size ey E omit : layout_ok (choose_layout page_size ey E omit).
Proof.
  unfold choose_layout. constructor; simpl; rewrite !andb_true_iff, negb_true_iff; tauto.
Qed.

Lemma kind_word_ok l (is_leaf : bool) :
  layout_ok l ->
  let w := Z.lor (if is_leaf then 0 else 1) (flag_bits l) in
  0 <= w <= i32_max /\ parse_kind w = Ok (node_kind is_leaf) /\ parse_layout w = l /\
  Z.land w FLAG_LEGACY_KEY_DIGESTS = 0 /\
  Z.land w (Z.lnot (Z.lor KIND_MASK KNOWN_FLAGS)) = 0.
Proof.
  intros [Hc Hs]. destruct l as [[] [] []]; simpl in *; try (discriminate (Hc eq_refl));
    try (discriminate (Hs eq_refl)); destruct is_leaf; vm_compute; repeat split; discriminate.
Qed.

(** What a page being written has to satisfy; the page buffer of the writer
    never exceeds the page size. *)
Record page_fits {X} (layout : NodeLayout) (is_leaf : bool) (state : Level X) (items : list Item)
    (m page_size : Z) : Prop := {
  pf_layout : layout_ok layout;
  pf_holds : level_holds state items;
  pf_items : Forall (item_ok layout is_leaf) items;
  pf_meta : meta_area_size (node_kind is_leaf) layout (zlen items) = Some m;
  pf_size : PAGE_PREFIX_LEN + 8 * digest_slots layout (zlen items) + m + zlen (lv_payload state)
            <= page_size;
  pf_limit : page_size <= i32_max;
  pf_compact : compact_meta layout = true -> page_size <= MAX_COMPACT_PAGE_SIZE;
  pf_left : forall p, lv_prev_ordinal state = Some p -> page_ordinal_ok p;
}.

(** Adding an entry that fits, and starting the next page. *)
Lemma page_fits_add {X} layout is_leaf (l : Level X) items m page_size it extras m' :
  page_fits layout is_leaf l items m page_size -> item_ok layout is_leaf it ->
  meta_area_size (node_kind is_leaf) layout (zlen items + 1) = Some m' ->
  PAGE_PREFIX_LEN + 8 * digest_slots layout (zlen items + 1) + m' + zlen (lv_payload l)
    + zlen (it_key it) + zlen (it_value it) <= page_size ->
  page_fits layout is_leaf (level_add (it_digest it) (it_key it) (it_value it) (it_blob it) extras l)
    (items ++ [it]) m' page_size.
Proof.
  intros [Hl Hh Hi Hm Hs Hlim Hc Hp] Hit Hm' Hsize.
  assert (zlen (items ++ [it]) = zlen items + 1) as Hz by (rewrite zlen_app; reflexivity).
  constructor; rewrite ?Hz; try assumption.
  - now apply level_add_holds.
  - apply Forall_app. split; [assumption | now apply Forall_singleton].
  - simpl. rewrite !zlen_app. lia.
Qed.

Lemma page_fits_empty {X} layout is_leaf (prev : option PageOrdinal) offset page_size :
  layout_ok layout -> MIN_PAGE_SIZE <= page_size <= i32_max ->
  (compact_meta layout = true -> page_size <= MAX_COMPACT_PAGE_SIZE) ->
  (forall p, prev = Some p -> page_ordinal_ok p) ->
  forall first, exists m,
  page_fits layout is_leaf (mkLevel X [] [] [] [] [] first prev offset) [] m page_size.
Proof.
  intros Hl Hs Hc Hp first.
  exists (if is_leaf then if compact_meta layout then 2 else 0
          else if compact_meta layout then if omitted_keys layout then 0 else 2 else 0).
  unfold MIN_PAGE_SIZE in Hs. constructor; auto.
  - constructor; reflexivity.
  - destruct layout as [? [] []], is_leaf; reflexivity.
  - assert (digest_slots layout (zlen (@nil Item)) = 0) as -> by (destruct layout as [[] ? ?]; reflexivity).
    cbn [lv_payload]. change (zlen (@nil byte)) with 0. unfold_consts. destruct is_leaf, (compact_meta layout), (omitted_keys layout); lia.
  - lia.
Qed.

Section WrittenPage.
Context {X : Type} (layout : NodeLayout) (is_leaf : bool) (state : Level X) (items : list Item).
Context (m page_size : Z) (Hfits : page_fits layout is_leaf state items m page_size).

Abbreviation N := (zlen items).
Definition written_meta_base : Z := DIGEST_BASE + 8 * digest_slots layout N.
Definition written_payload_base : Z := written_meta_base + m.
Definition written_len : Z := written_payload_base + zlen (lv_payload state).

(** The sibling to the right is patched in when the next page of the level has
    been written. *)
Context (right : option PageOrdinal) (Hright : forall p, right = Some p -> page_ordinal_ok p).

Definition header_bytes : list byte :=
  i32_le written_len ++ i32_le (Z.lor (if is_leaf then 0 else 1) (flag_bits layout))
  ++ i32_le N ++ i64_le (PageOrdinal_to_i64 (lv_prev_ordinal state)) ++ i64_le (PageOrdinal_to_i64 right).

Definition written_page : list byte :=
  header_bytes ++ digest_bytes layout state ++ meta_bytes layout is_leaf written_payload_base state ++ lv_payload state.

Definition written_view : PageView :=
  mkPageView written_page
    (mkNodeHeader (node_kind is_leaf) layout N (lv_prev_ordinal state) right)
    written_meta_base written_payload_base.

Lemma written_count : N <= Z.max m (digest_slots layout N) /\ 0 <= digest_slots layout N.
Proof.
  pose proof (zlen_nonneg items) as Hn. pose proof (pf_layout _ _ _ _ _ _ Hfits) as [Hlc Hls].
  pose proof (pf_meta _ _ _ _ _ _ Hfits) as Hm. unfold digest_slots.
  destruct (eytzinger layout) eqn:Hey; [|lia]. pose proof (complete_size_nonneg N).
  split; [|assumption]. assert (N <= m); [|lia].
  unfold meta_area_size, leaf_meta_size, internal_meta_size in Hm.
  destruct (omitted_keys layout); [discriminate (Hls eq_refl)|].
  destruct (node_kind is_leaf), (compact_meta layout); simplify_option_eq; inv_reads; subst; lia.
Qed.

Lemma written_bounds :
  0 <= N <= i32_max /\ N <= digest_slots layout N /\ 0 <= m /\ 0 <= zlen (lv_payload state) /\
  written_len <= page_size /\ page_size <= i32_max.
Proof.
  pose proof (pf_size _ _ _ _ _ _ Hfits). pose proof (pf_limit _ _ _ _ _ _ Hfits).
  pose proof (zlen_nonneg (lv_payload state)). pose proof (zlen_nonneg items).
  pose proof (meta_area_size_nonneg _ _ _ _ (zlen_nonneg items) (pf_meta _ _ _ _ _ _ Hfits)).
  destruct written_count as [Hc Hs]. assert (N <= i32_max) by fmt_lia.
  pose proof (digest_slots_ge layout N ltac:(lia)).
  unfold written_len, written_payload_base, written_meta_base. unfold_consts. lia.
Qed.

(** The digests as the page stores them. *)
Definition slot_list : list Z :=
  if eytzinger layout
  then scatter_eytzinger (lv_digests state) (replicate (Z.to_nat (complete_size (level_count state))) u64_max)
  else lv_digests state.

Abbreviation tree_height := (Z.to_nat (Z.log2_up (N + 1))).

Lemma tree_height_ok :
  (tree_height <= 63)%nat /\ complete_size N = 2 ^ Z.of_nat tree_height - 1 /\
  zlen (lv_digests state) = N /\ level_count state = N.
Proof.
  destruct written_bounds as [[Hn Hn'] _].
  assert (N < 2 ^ 63) by fmt_lia.
  assert (Z.log2_up (N + 1) <= 63) by (apply Z.log2_up_le_pow2; lia).
  pose proof (Z.log2_up_nonneg (N + 1)). rewrite complete_size_spec, Z2Nat.id by lia.
  pose proof (pf_holds _ _ _ _ _ _ Hfits) as Hh. split; [lia|]. split; [reflexivity|].
  split; [|now apply level_holds_count]. rewrite (lh_digests _ _ Hh). unfold zlen. now rewrite length_fmap.
Qed.

Lemma zlen_slot_list : zlen slot_list = digest_slots layout N.
Proof.
  destruct tree_height_ok as (Hh & Hc & Hd & Hl). destruct written_bounds as (Hn & Hs & _).
  unfold slot_list, digest_slots in *. destruct (eytzinger layout); [|exact Hd].
  rewrite Hl, Hc in *. apply scatter_inorder; lia.
Qed.

Lemma zlen_digest_bytes : zlen (digest_bytes layout state) = 8 * digest_slots layout N.
Proof.
  rewrite <- zlen_slot_list. apply (zlen_concat_fixed u64_le 8). apply zlen_u64_le.
Qed.

Lemma zlen_meta_bytes : zlen (meta_bytes layout is_leaf written_payload_base state) = m.
Proof.
  pose proof (pf_meta _ _ _ _ _ _ Hfits) as Hm. pose proof (pf_holds _ _ _ _ _ _ Hfits) as Hh.
  assert (zlen (lv_sizes state) = N) as Hs by (rewrite <- (level_holds_count _ _ Hh); reflexivity).
  unfold meta_bytes, meta_area_size, leaf_meta_size, internal_meta_size in *.
  destruct (compact_meta layout).
  - destruct is_leaf, (omitted_keys layout); simpl in Hm |- *; simplify_option_eq; inv_reads; subst;
      rewrite ?zlen_app, ?zlen_compact_slots, ?Hs;
      rewrite ?(zlen_concat_fixed (fun s : Z * Z => u16_le (fst s)) 2) by (intros; apply zlen_u16_le);
      rewrite ?Hs, ?zlen_nil; try lia; reflexivity.
  - rewrite zlen_classic_records, Hs. destruct is_leaf; simpl in *; inv_reads; lia.
Qed.

Lemma zlen_header_bytes : zlen header_bytes = PAGE_PREFIX_LEN.
Proof. unfold header_bytes. zlen_lia. Qed.

(** The page the writer hands to the sink, with the pointer patched in. *)
Definition link_right (page : list byte) : list byte :=
  match right with None => page | Some p => splice page RIGHT_SIBLING_OFFSET (i64_le p) end.

(** Patching the pointer of a page, whatever it was. *)
Lemma written_page_relink p : right = Some p -> forall old,
  splice ((i32_le written_len ++ i32_le (Z.lor (if is_leaf then 0 else 1) (flag_bits layout))
    ++ i32_le N ++ i64_le (PageOrdinal_to_i64 (lv_prev_ordinal state)) ++ i64_le (PageOrdinal_to_i64 old))
    ++ digest_bytes layout state ++ meta_bytes layout is_leaf written_payload_base state ++ lv_payload state)
    RIGHT_SIBLING_OFFSET (i64_le p) = written_page.
Proof.
  intros Hr old. destruct (Hright p Hr) as [Hp0 Hp]. unfold written_page, header_bytes. rewrite Hr.
  cbn [PageOrdinal_to_i64]. rewrite swrap_small by lia. rewrite <- !app_assoc.
  match goal with |- splice (?a ++ ?b ++ ?c ++ ?d ++ ?e ++ ?f) _ _ = _ =>
    replace (a ++ b ++ c ++ d ++ e ++ f) with ((a ++ b ++ c ++ d) ++ e ++ f) by now rewrite <- !app_assoc end.
  rewrite splice_mid; [now rewrite <- !app_assoc | zlen_lia | reflexivity].
Qed.

Lemma written_page_linked : written_page = link_right (page_bytes layout is_leaf written_len written_payload_base state).
Proof.
  destruct tree_height_ok as (_ & _ & _ & Hl). unfold link_right, page_bytes. rewrite Hl.
  pose proof written_page_relink as Hlink. destruct right as [p|] eqn:Hr.
  - rewrite <- (Hlink p eq_refl None). now rewrite <- !app_assoc.
  - unfold written_page, header_bytes. rewrite Hr. now rewrite <- !app_assoc.
Qed.

Lemma zlen_written_page : zlen written_page = written_len.
Proof.
  unfold written_page. rewrite !zlen_app, zlen_header_bytes, zlen_digest_bytes, zlen_meta_bytes.
  unfold written_len, written_payload_base, written_meta_base. unfold_consts. lia.
Qed.

Lemma header_field f o n :
  0 <= o -> 0 <= n -> o + n <= PAGE_PREFIX_LEN ->
  read_le f n written_page o = Ok (f (slice header_bytes o n)).
Proof.
  intros. destruct written_bounds as (? & ? & ? & ? & ? & ?).
  pose proof zlen_written_page. unfold written_len, written_payload_base, written_meta_base in *.
  rewrite read_le_ok by fmt_lia.
  unfold written_page. rewrite slice_app_l by (rewrite ?zlen_header_bytes; lia). reflexivity.
Qed.

Lemma written_page_parses : PageView_parse written_page = Ok written_view.
Proof.
  destruct written_bounds as (Hn & Hs & Hm0 & Hp & Hlen & Hlim). pose proof zlen_written_page as Hz.
  destruct (kind_word_ok layout is_leaf (pf_layout _ _ _ _ _ _ Hfits)) as (Hw & Hk & Hl & Hleg & Hunk).
  pose proof (pf_layout _ _ _ _ _ _ Hfits) as [Hlc Hls].
  assert (written_len = DIGEST_BASE + 8 * digest_slots layout N + m + zlen (lv_payload state)) as Hwl by reflexivity.
  unfold PageView_parse, read_i32, read_i64. rewrite !header_field by (unfold_consts; lia).
  unfold header_bytes. unfold_consts. slice_field. rewrite Hz.
  rewrite !swrap_i32_le by fmt_lia. rewrite !swrap_i64_le by apply PageOrdinal_to_i64_range.
  rewrite (proj2 (Z.ltb_ge written_len (4 + 24))) by lia.
  unfold checked_len. cbn [rbind].
  rewrite (proj2 (Z.ltb_ge written_len 0)), (proj2 (Z.ltb_ge N 0)) by lia. cbn [rbind].
  rewrite Z.eqb_refl. cbn [negb rbind].
  rewrite Hk. cbn [rbind]. rewrite Hleg, Hunk, Hl. cbn [negb Z.eqb rbind].
  assert (omitted_keys layout && negb (compact_meta layout) = false) as ->
    by (destruct (omitted_keys layout); [rewrite Hlc|]; reflexivity).
  assert (omitted_keys layout && eytzinger layout = false) as ->
    by (destruct (omitted_keys layout); [rewrite Hls|]; reflexivity).
  assert (compact_meta layout && (32767 <? written_len) = false) as ->.
  { destruct (compact_meta layout) eqn:Hc; [|reflexivity]. simpl. apply Z.ltb_ge.
    pose proof (pf_compact _ _ _ _ _ _ Hfits Hc). fmt_lia. }
  cbn [rbind]. rewrite PageOrdinal_round_trip by apply (pf_left _ _ _ _ _ _ Hfits).
  rewrite PageOrdinal_round_trip by exact Hright. cbn [rbind].
  unfold digest_area_size. rewrite checked_mul_ok by fmt_lia. cbn [ok_or rbind].
  rewrite checked_add_ok by fmt_lia. cbn [ok_or rbind].
  cmp_cases. pose proof (pf_meta _ _ _ _ _ _ Hfits) as Hm. unfold meta_area_size in Hm.
  rewrite Hm. cbn [Pos.eqb ok_or rbind]. rewrite checked_add_ok by fmt_lia. cbn [ok_or rbind].
  rewrite (proj2 (Z.ltb_ge _ _)) by lia. f_equal. unfold written_view. f_equal.
  - unfold written_meta_base. unfold_consts. lia.
  - unfold written_payload_base, written_meta_base. unfold_consts. lia.
Qed.

Lemma written_view_wf : PageView_wf written_view.
Proof. apply (PageView_parse_wf written_page written_view written_page_parses). Qed.

(** ** Digests *)

Lemma written_slot_digest i d :
  slot_list !! i = Some d -> 0 <= d <= u64_max -> slot_digest written_view (Z.of_nat i) = d.
Proof.
  intros Hd Hr. pose proof (lookup_lt_Some _ _ _ Hd) as Hi. pose proof zlen_slot_list as Hl.
  unfold slot_digest. simpl pv_bytes. unfold written_page.
  replace DIGEST_BASE with (zlen header_bytes) by (rewrite zlen_header_bytes; reflexivity).
  rewrite slice_mid by (rewrite ?zlen_digest_bytes; unfold zlen in *; lia).
  unfold digest_bytes. fold slot_list.
  rewrite (slice_concat_fixed u64_le 8 slot_list i d zlen_u64_le Hd). now apply le_combine_u64.
Qed.

Lemma written_digests_in_range :
  Forall (fun d => 0 <= d <= u64_max) (lv_digests state).
Proof.
  rewrite (lh_digests _ _ (pf_holds _ _ _ _ _ _ Hfits)). apply Forall_fmap.
  eapply Forall_impl; [exact (pf_items _ _ _ _ _ _ Hfits)|]. intros it Hit. apply Hit.
Qed.

Lemma tree_node_in_range (h : nat) n : n ∈ inorder_nodes h 1 -> 1 <= n <= 2 ^ Z.of_nat h - 1.
Proof.
  intros (d & Hd & Hlo & Hhi)%inorder_nodes_depth.
  assert (0 < 2 ^ Z.of_nat d) by (apply Z.pow_pos_nonneg; lia).
  assert (2 * 2 ^ Z.of_nat d <= 2 ^ Z.of_nat h).
  { rewrite <- Z.pow_succ_r by lia. apply Z.pow_le_mono_r; lia. }
  lia.
Qed.

Lemma padded_digest_in_range pad d :
  d ∈ lv_digests state ++ replicate pad u64_max -> 0 <= d <= u64_max.
Proof.
  pose proof written_digests_in_range as Hr. rewrite Forall_forall in Hr.
  rewrite elem_of_app, elem_of_replicate. intros [Hd|[-> _]]; [auto | fmt_lia].
Qed.

Lemma written_tree_digests :
  eytzinger layout = true ->
  (fun n => slot_digest written_view (n - 1)) <$> inorder_nodes tree_height 1 =
  lv_digests state ++ replicate (Z.to_nat (2 ^ Z.of_nat tree_height - 1) - length (lv_digests state)) u64_max.
Proof.
  intros Hey. destruct tree_height_ok as (Hh & Hc & Hd & Hl).
  destruct written_bounds as (Hn & Hs & _). unfold digest_slots in Hs. rewrite Hey in Hs.
  destruct (scatter_inorder (lv_digests state) tree_height Hh ltac:(lia)) as [Hz Hin].
  assert (slot_list = scatter_eytzinger (lv_digests state)
    (replicate (Z.to_nat (2 ^ Z.of_nat tree_height - 1)) u64_max)) as Hsl.
  { unfold slot_list. now rewrite Hey, Hl, Hc. }
  rewrite <- Hsl in Hz, Hin. rewrite <- Hin. apply list_fmap_ext. intros j n Hj.
  pose proof (tree_node_in_range _ _ (list_elem_of_lookup_2 _ _ _ Hj)) as Hnr.
  destruct (slot_list !! Z.to_nat (n - 1)) as [d|] eqn:Hsn.
  2:{ apply lookup_ge_None in Hsn. change (zlen slot_list) with (Z.of_nat (length slot_list)) in Hz. lia. }
  cbn [default]. rewrite <- (Z2Nat.id (n - 1)) at 1 by lia.
  apply written_slot_digest; [exact Hsn|].
  eapply padded_digest_in_range. rewrite <- Hin. apply list_elem_of_fmap. exists n.
  rewrite Hsn. split; [reflexivity|]. now apply list_elem_of_lookup_2 in Hj.
Qed.

Lemma written_plain_digests :
  eytzinger layout = false -> slot_digest written_view <$> seqZ 0 N = lv_digests state.
Proof.
  intros Hey. destruct tree_height_ok as (_ & _ & Hd & _). pose proof written_digests_in_range as Hr.
  apply list_eq. intros j. rewrite list_lookup_fmap.
  destruct (lv_digests state !! j) as [d|] eqn:Hj.
  - pose proof (lookup_lt_Some _ _ _ Hj). rewrite lookup_seqZ_lt by (unfold zlen in *; lia).
    simpl. f_equal. apply written_slot_digest.
    + unfold slot_list. now rewrite Hey.
    + rewrite Forall_lookup in Hr. eauto.
  - apply lookup_ge_None in Hj. rewrite lookup_seqZ_ge by (unfold zlen in *; lia). reflexivity.
Qed.

Lemma written_sorted_digests :
  exists pad, sorted_digests written_view = lv_digests state ++ replicate pad u64_max.
Proof.
  unfold sorted_digests. change (view_layout written_view) with layout.
  change (entry_count written_view) with N. destruct (eytzinger layout) eqn:Hey.
  - eexists. now apply written_tree_digests.
  - exists 0%nat. rewrite written_plain_digests by exact Hey. now rewrite app_nil_r.
Qed.

(** ** Entries *)

(** Where the payload of entry [j] starts. *)
Definition item_offset (j : nat) : Z := written_payload_base + zlen (items_bytes (take j items)).

Lemma items_bytes_split j it :
  items !! j = Some it ->
  items_bytes items = items_bytes (take j items) ++ item_bytes it ++ items_bytes (drop (S j) items).
Proof.
  intros Hj. rewrite <- (take_drop_middle _ _ _ Hj) at 1. unfold items_bytes.
  rewrite fmap_app, fmap_cons, concat_app. reflexivity.
Qed.

Lemma item_offset_bounds j it :
  items !! j = Some it ->
  written_payload_base <= item_offset j /\
  item_offset j + zlen (it_key it) + zlen (it_value it) <= written_len.
Proof.
  intros Hj. unfold item_offset, written_len.
  rewrite (lh_payload _ _ (pf_holds _ _ _ _ _ _ Hfits)), (items_bytes_split j it Hj), !zlen_app.
  unfold item_bytes. rewrite zlen_app.
  pose proof (zlen_nonneg (items_bytes (take j items))).
  pose proof (zlen_nonneg (items_bytes (drop (S j) items))). lia.
Qed.

Lemma item_offset_S j it :
  items !! j = Some it -> item_offset (S j) = item_offset j + (zlen (it_key it) + zlen (it_value it)).
Proof.
  intros Hj. unfold item_offset, items_bytes. rewrite (take_S_r _ _ _ Hj), fmap_app, concat_app. simpl.
  rewrite app_nil_r, zlen_app. unfold item_bytes. rewrite zlen_app. lia.
Qed.

(** The bytes of entry [j], at its offset. *)
Lemma written_item j it o n :
  items !! j = Some it -> 0 <= o -> 0 <= n -> o + n <= zlen (item_bytes it) ->
  slice written_page (item_offset j + o) n = slice (item_bytes it) o n.
Proof.
  intros Hj Ho Hn Hl. unfold written_page. rewrite !app_assoc.
  set (areas := (header_bytes ++ digest_bytes layout state) ++ _).
  assert (zlen areas = written_payload_base) as Ha.
  { unfold areas. rewrite !zlen_app, zlen_header_bytes, zlen_digest_bytes, zlen_meta_bytes. reflexivity. }
  rewrite (lh_payload _ _ (pf_holds _ _ _ _ _ _ Hfits)), (items_bytes_split j it Hj).
  rewrite app_assoc. unfold item_offset. rewrite <- Ha, <- zlen_app.
  apply slice_mid; assumption.
Qed.

(** The metadata area, at its base. *)
Lemma written_meta_read f o n :
  0 <= o -> 0 <= n -> o + n <= m ->
  read_le f n written_page (written_meta_base + o) =
  Ok (f (slice (meta_bytes layout is_leaf written_payload_base state) o n)).
Proof.
  intros Ho Hn Hl. destruct written_bounds as (? & ? & ? & ? & ? & ?).
  pose proof zlen_written_page as Hz. unfold written_len, written_payload_base, written_meta_base in *.
  rewrite read_le_ok by fmt_lia.
  unfold written_page. rewrite app_assoc.
  replace (DIGEST_BASE + 8 * digest_slots layout N) with (zlen (header_bytes ++ digest_bytes layout state)).
  2:{ rewrite zlen_app, zlen_header_bytes, zlen_digest_bytes. reflexivity. }
  rewrite slice_mid by (rewrite ?zlen_meta_bytes; lia). do 3 f_equal.
  rewrite zlen_app, zlen_header_bytes, zlen_digest_bytes. reflexivity.
Qed.
(** ** Entry metadata read back *)

Lemma sizes_total_take j : written_payload_base + sizes_total (take j (lv_sizes state)) = item_offset j.
Proof.
  rewrite (lh_sizes _ _ (pf_holds _ _ _ _ _ _ Hfits)), <- fmap_take, <- zlen_items_bytes. reflexivity.
Qed.

Lemma written_overflow j it :
  items !! j = Some it -> is_overflow (lv_overflow state) j = bool_decide (is_Some (it_blob it)).
Proof.
  intros Hj. unfold is_overflow. rewrite (lh_overflow _ _ (pf_holds _ _ _ _ _ _ Hfits)), list_lookup_fmap, Hj.
  simpl. destruct (it_blob it); [rewrite bool_decide_true by eauto | rewrite bool_decide_false by (intros [? [=]])];
    reflexivity.
Qed.

Lemma written_size j it :
  items !! j = Some it -> lv_sizes state !! j = Some (zlen (it_key it), zlen (it_value it)).
Proof.
  intros Hj. now rewrite (lh_sizes _ _ (pf_holds _ _ _ _ _ _ Hfits)), list_lookup_fmap, Hj.
Qed.

Lemma length_sizes : zlen (lv_sizes state) = N.
Proof. exact (level_holds_count _ _ (pf_holds _ _ _ _ _ _ Hfits)). Qed.

Lemma item_offset_range j :
  (j <= length items)%nat -> written_payload_base <= item_offset j <= written_len.
Proof.
  intros Hj. unfold item_offset, written_len.
  rewrite (lh_payload _ _ (pf_holds _ _ _ _ _ _ Hfits)).
  rewrite <- (take_drop j items) at 3. unfold items_bytes. rewrite fmap_app, concat_app, zlen_app.
  pose proof (zlen_nonneg (concat (item_bytes <$> take j items))).
  pose proof (zlen_nonneg (concat (item_bytes <$> drop j items))). lia.
Qed.

(** Compact offset slot [j], the closing one included. *)
Definition slot_word (j : nat) : Z :=
  if is_leaf && is_overflow (lv_overflow state) j && (Nat.ltb j (length items))
  then Z.lor (item_offset j) COMPACT_OVERFLOW_BIT else item_offset j.

Lemma compact_slot_read j :
  compact_meta layout = true -> is_leaf || negb (omitted_keys layout) = true ->
  (j <= length items)%nat ->
  0 <= item_offset j <= COMPACT_OFFSET_MASK /\
  read_u16 written_page (written_meta_base + Z.of_nat j * 2) = Ok (slot_word j).
Proof.
  intros Hc Hst Hj. pose proof (item_offset_range j Hj) as Ho.
  pose proof (pf_compact _ _ _ _ _ _ Hfits Hc) as Hps.
  destruct written_bounds as (? & ? & ? & ? & ? & ?).
  assert (0 <= written_payload_base) by (unfold written_payload_base, written_meta_base; fmt_lia).
  assert (0 <= item_offset j <= COMPACT_OFFSET_MASK) as Hr by fmt_lia. split; [exact Hr|].
  pose proof length_sizes as Hls. pose proof zlen_meta_bytes as Hz.
  unfold meta_bytes in Hz. rewrite Hc, Hst, zlen_app, zlen_compact_slots, Hls in Hz.
  match type of Hz with _ + zlen ?k = _ => pose proof (zlen_nonneg k) end.
  unfold read_u16. rewrite written_meta_read by (unfold zlen in *; lia).
  unfold meta_bytes. rewrite Hc, Hst.
  rewrite slice_app_l by (rewrite ?zlen_compact_slots, ?Hls; unfold zlen; lia). f_equal.
  assert (wrap 16 (item_offset j) = item_offset j) as Hw by (apply Z.mod_small; fmt_lia).
  unfold slot_word. destruct (Nat.ltb_spec j (length items)) as [Hlt|Hge].
  - rewrite compact_slots_at by (unfold zlen in *; lia).
    rewrite sizes_total_take. unfold slot_value. rewrite Hw, Nat.add_0_l, andb_true_r.
    destruct (is_leaf && is_overflow _ _); apply le_combine_u16.
    + rewrite Z.lor_comm. change COMPACT_OVERFLOW_BIT with (1 * 2 ^ 15).
      rewrite lor_high_low by fmt_lia. fmt_lia.
    + fmt_lia.
  - replace j with (length (lv_sizes state)) in * by (unfold zlen in *; lia).
    rewrite compact_slots_last. rewrite <- (firstn_all (lv_sizes state)) at 1.
    rewrite sizes_total_take, Hw, andb_false_r. apply le_combine_u16. fmt_lia.
Qed.

Lemma slot_word_offset j :
  0 <= item_offset j <= COMPACT_OFFSET_MASK -> Z.land (slot_word j) COMPACT_OFFSET_MASK = item_offset j.
Proof.
  intros Hr. assert (Z.land (item_offset j) COMPACT_OFFSET_MASK = item_offset j) as Hl.
  { change COMPACT_OFFSET_MASK with (Z.ones 15). rewrite Z.land_ones by lia. apply Z.mod_small. fmt_lia. }
  unfold slot_word. destruct (_ && _); [|exact Hl].
  rewrite Z.land_lor_distr_l, Hl. change (Z.land COMPACT_OVERFLOW_BIT COMPACT_OFFSET_MASK) with 0.
  apply Z.lor_0_r.
Qed.

Lemma slot_word_bit j it :
  is_leaf = true -> items !! j = Some it -> 0 <= item_offset j <= COMPACT_OFFSET_MASK ->
  (Z.land (slot_word j) COMPACT_OVERFLOW_BIT =? 0) = negb (bool_decide (is_Some (it_blob it))).
Proof.
  intros Hleaf Hj Hr. unfold slot_word. rewrite Hleaf, (written_overflow j it Hj). simpl andb.
  pose proof (lookup_lt_Some _ _ _ Hj) as Hlt. apply Nat.ltb_lt in Hlt. rewrite Hlt, andb_true_r.
  assert (Z.land (item_offset j) COMPACT_OVERFLOW_BIT = 0) as Hl.
  { rewrite Z.land_comm. change COMPACT_OVERFLOW_BIT with (1 * 2 ^ 15). apply land_high_low; fmt_lia. }
  case_bool_decide; [|now rewrite Hl].
  now rewrite Z.land_lor_distr_l, Hl.
Qed.

Lemma item_at j it :
  items !! j = Some it ->
  item_ok layout is_leaf it /\ (j < length items)%nat /\ N = Z.of_nat (length items).
Proof.
  intros Hj. split; [|split; [now apply lookup_lt_Some in Hj | reflexivity]].
  eapply Forall_lookup_1; [exact (pf_items _ _ _ _ _ _ Hfits) | exact Hj].
Qed.

Definition stored_len (it : Item) : Z :=
  if bool_decide (is_Some (it_blob it)) then OVERFLOW_SENTINEL else zlen (it_value it).

Lemma compact_key_len_read j it :
  is_leaf = true -> compact_meta layout = true -> omitted_keys layout = false ->
  items !! j = Some it ->
  read_u16 written_page (written_meta_base + (N + 1) * 2 + Z.of_nat j * 2) = Ok (zlen (it_key it)).
Proof.
  intros Hleaf Hc Hom Hj. destruct (item_at j it Hj) as (Hit & Hlt & HN).
  pose proof zlen_meta_bytes as Hz. unfold meta_bytes in Hz. rewrite Hc, Hom, Hleaf in Hz.
  cbn [orb andb negb] in Hz. pose proof length_sizes as Hls. pose proof (zlen_nonneg items).
  assert (forall s : Z * Z, zlen (u16_le (fst s)) = 2) as Hw by (intros; apply zlen_u16_le).
  rewrite zlen_app, zlen_compact_slots, (zlen_concat_fixed _ 2), Hls in Hz by exact Hw.
  rewrite <- Z.add_assoc. unfold read_u16. rewrite written_meta_read by lia.
  unfold meta_bytes. rewrite Hc, Hom, Hleaf. cbn [orb andb negb].
  rewrite slice_app_r by (rewrite zlen_compact_slots, Hls; lia). rewrite zlen_compact_slots, Hls.
  replace ((N + 1) * 2 + Z.of_nat j * 2 - 2 * (N + 1)) with (Z.of_nat j * 2) by lia.
  rewrite (slice_concat_fixed _ 2 _ j (zlen (it_key it), zlen (it_value it)) Hw) by now apply written_size.
  f_equal. apply le_combine_u16. split; [apply zlen_nonneg | apply Hit].
Qed.

(** A field of a classic record. *)
Lemma classic_field f j it o n :
  compact_meta layout = false -> items !! j = Some it ->
  0 <= o -> 0 <= n -> o + n <= record_width is_leaf ->
  read_le f n written_page (written_meta_base + Z.of_nat j * record_width is_leaf + o) =
  Ok (f (slice (record_bytes is_leaf (lv_overflow state) j (item_offset j)
                  (zlen (it_key it), zlen (it_value it))) o n)).
Proof.
  intros Hc Hj Ho Hn Hl. destruct (item_at j it Hj) as (Hit & Hlt & HN).
  assert (0 < record_width is_leaf) by (destruct is_leaf; simpl; lia).
  pose proof zlen_meta_bytes as Hz. unfold meta_bytes in Hz.
  rewrite Hc, zlen_classic_records, length_sizes in Hz.
  rewrite <- Z.add_assoc, written_meta_read by nia.
  unfold meta_bytes. rewrite Hc, <- sizes_total_take, <- (Nat.add_0_l j) at 1.
  rewrite <- (classic_records_at _ (lv_overflow state) 0 _ _ j _ (written_size j it Hj)).
  rewrite slice_slice by lia. reflexivity.
Qed.

Lemma item_offset_i32 j :
  (j <= length items)%nat -> 0 <= item_offset j <= i32_max /\ 0 <= written_payload_base.
Proof.
  intros Hj. pose proof (item_offset_range j Hj). destruct written_bounds as (? & ? & ? & ? & ? & ?).
  assert (0 <= written_payload_base) by (unfold written_payload_base, written_meta_base; fmt_lia). lia.
Qed.

Lemma classic_offset_read j it :
  compact_meta layout = false -> items !! j = Some it ->
  read_i32 written_page (written_meta_base + Z.of_nat j * record_width is_leaf) = Ok (item_offset j) /\
  read_u16 written_page (written_meta_base + Z.of_nat j * record_width is_leaf + 4) = Ok (zlen (it_key it)).
Proof.
  intros Hc Hj. destruct (item_at j it Hj) as (Hit & Hlt & HN).
  destruct (item_offset_i32 j ltac:(lia)) as [Ho _]. pose proof (zlen_nonneg (it_key it)).
  pose proof (ik_key _ _ _ Hit).
  rewrite <- (Z.add_0_r (_ + _)) at 1. unfold read_i32, read_u16.
  rewrite !(classic_field _ j it) by (assumption || destruct is_leaf; simpl; lia).
  unfold record_bytes. slice_field. rewrite swrap_i32_le by fmt_lia.
  cbn [fst]. rewrite le_combine_u16 by lia. split; reflexivity.
Qed.

Lemma leaf_meta_written j it :
  is_leaf = true -> items !! j = Some it ->
  leaf_meta written_view (Z.of_nat j) = Ok (item_offset j, zlen (it_key it), stored_len it).
Proof.
  intros Hleaf Hj. destruct (item_at j it Hj) as (Hit & Hlt & HN).
  pose proof (zlen_nonneg (it_key it)). pose proof (zlen_nonneg (it_value it)).
  unfold leaf_meta. change (view_layout written_view) with layout.
  change (pv_bytes written_view) with written_page.
  change (pv_meta_base written_view) with written_meta_base.
  change (entry_count written_view) with N.
  destruct (compact_meta layout) eqn:Hc.
  - assert (is_leaf || negb (omitted_keys layout) = true) as Hst by now rewrite Hleaf.
    destruct (compact_slot_read j Hc Hst) as [Hr ->]; [lia|]. cbn [rbind].
    destruct (compact_slot_read (S j) Hc Hst) as [Hr' Hn]; [lia|].
    replace (Z.of_nat j + 1) with (Z.of_nat (S j)) by lia. rewrite Hn. cbn [rbind].
    rewrite !slot_word_offset, (slot_word_bit j it Hleaf Hj Hr) by assumption.
    rewrite negb_involutive. pose proof (item_offset_S j it Hj).
    assert ((if omitted_keys layout then Ok 0
             else read_u16 written_page (written_meta_base + (N + 1) * 2 + Z.of_nat j * 2))
            = Ok (zlen (it_key it))) as ->.
    { destruct (omitted_keys layout) eqn:Hom.
      - now rewrite (ik_omitted _ _ _ Hit Hom).
      - now apply compact_key_len_read. }
    cbn [rbind]. cmp_cases. unfold stored_len.
    destruct (bool_decide _); do 2 f_equal; lia.
  - destruct (classic_offset_read j it Hc Hj) as [Hoff Hkey].
    pose proof (classic_field le_combine j it 6 2 Hc Hj) as Hval.
    destruct (item_offset_i32 j ltac:(lia)) as [Ho _].
    rewrite Hleaf in Hoff, Hkey, Hval. cbn [record_width] in *. cbv zeta.
    rewrite Hoff. cbn [rbind]. unfold checked_len. cmp_cases. rewrite Hkey. cbn [rbind].
    unfold read_u16. rewrite Hval by lia. cbn [rbind]. unfold record_bytes. slice_field.
    rewrite (written_overflow j it Hj). unfold stored_len. do 2 f_equal.
    pose proof (ik_value _ _ _ Hit) as Hv. rewrite Hleaf in Hv.
    destruct (it_blob it) as [r|]; cbn; apply le_combine_u16; [fmt_lia|].
    split; [lia|]. revert Hv. fmt_lia.
Qed.

Lemma zlen_items_take_8 (its : list Item) j :
  Forall (fun it => zlen (item_bytes it) = 8) its -> (j <= length its)%nat ->
  zlen (items_bytes (take j its)) = 8 * Z.of_nat j.
Proof.
  intros H. revert j; induction H as [|it its Hit _ IH]; intros [|j] Hj; simpl in Hj; try lia; try reflexivity.
  change (items_bytes (take (S j) (it :: its))) with (item_bytes it ++ items_bytes (take j its)).
  rewrite zlen_app, Hit, IH by lia. lia.
Qed.

Lemma omitted_items_8 :
  is_leaf = false -> omitted_keys layout = true -> Forall (fun it => zlen (item_bytes it) = 8) items.
Proof.
  intros Hleaf Hom. eapply Forall_impl; [exact (pf_items _ _ _ _ _ _ Hfits)|]. intros it Hit.
  unfold item_bytes. rewrite (ik_omitted _ _ _ Hit Hom). pose proof (ik_value _ _ _ Hit) as Hv.
  rewrite Hleaf in Hv. destruct Hv as (p & -> & _). apply zlen_i64_le.
Qed.

Lemma internal_meta_written j it :
  is_leaf = false -> items !! j = Some it ->
  internal_meta written_view (Z.of_nat j) = Ok (item_offset j, zlen (it_key it)).
Proof.
  intros Hleaf Hj. destruct (item_at j it Hj) as (Hit & Hlt & HN).
  assert (zlen (it_value it) = 8) as Hv.
  { pose proof (ik_value _ _ _ Hit) as Hv. rewrite Hleaf in Hv. destruct Hv as (child & -> & _). apply zlen_i64_le. }
  pose proof (zlen_nonneg (it_key it)).
  unfold internal_meta. change (view_layout written_view) with layout.
  change (pv_bytes written_view) with written_page.
  change (pv_meta_base written_view) with written_meta_base.
  destruct (compact_meta layout) eqn:Hc.
  - destruct (omitted_keys layout) eqn:Hom.
    + rewrite (ik_omitted _ _ _ Hit Hom). do 2 f_equal.
      pose proof (pf_meta _ _ _ _ _ _ Hfits) as Hm. unfold meta_area_size, internal_meta_size in Hm.
      rewrite Hleaf, Hc, Hom in Hm. simpl in Hm. injection Hm as Hm.
      unfold item_offset, written_payload_base. rewrite <- Hm,  zlen_items_take_8 by (lia || exact (omitted_items_8 Hleaf Hom)).
      lia.
    + assert (is_leaf || negb (omitted_keys layout) = true) as Hst by now rewrite Hom, orb_true_r.
      destruct (compact_slot_read j Hc Hst) as [Hr ->]; [lia|]. cbn [rbind].
      destruct (compact_slot_read (S j) Hc Hst) as [Hr' Hn]; [lia|].
      replace (Z.of_nat j + 1) with (Z.of_nat (S j)) by lia. rewrite Hn. cbn [rbind].
      pose proof (item_offset_S j it Hj). unfold slot_word. rewrite Hleaf. cbn [andb].
      cmp_cases. do 2 f_equal. lia.
  - destruct (classic_offset_read j it Hc Hj) as [Hoff Hkey].
    destruct (item_offset_i32 j ltac:(lia)) as [Ho _].
    rewrite Hleaf in Hoff, Hkey. cbn [record_width] in *. cbv zeta.
    rewrite Hoff. cbn [rbind]. unfold checked_len. cmp_cases. rewrite Hkey. reflexivity.
Qed.

(** ** Entries, keys and values *)

Definition written_value (j : nat) (it : Item) : LeafValue :=
  match it_blob it with
  | Some r => Overflow (pr_page r)
  | None => Inline (item_offset j + zlen (it_key it)) (zlen (it_value it))
  end.

Lemma written_key j it :
  items !! j = Some it ->
  read_slice written_page (item_offset j) (zlen (it_key it)) = Ok (it_key it).
Proof.
  intros Hj. destruct (item_offset_bounds j it Hj) as [Ho Hl]. destruct written_bounds as (? & ? & ? & ? & ? & ?).
  destruct (item_at j it Hj) as (_ & Hlt & _). destruct (item_offset_i32 j ltac:(lia)) as [Hi _].
  pose proof (zlen_nonneg (it_key it)). pose proof (zlen_nonneg (it_value it)).
  rewrite read_slice_ok by (rewrite ?zlen_written_page; fmt_lia).
  rewrite <- (Z.add_0_r (item_offset j)), (written_item j it) by (unfold item_bytes; rewrite ?zlen_app; assumption || lia).
  unfold item_bytes. rewrite slice_app_l by lia. now rewrite slice_all.
Qed.

Lemma written_value_bytes j it :
  items !! j = Some it ->
  slice written_page (item_offset j + zlen (it_key it)) (zlen (it_value it)) = it_value it.
Proof.
  intros Hj. pose proof (zlen_nonneg (it_key it)). pose proof (zlen_nonneg (it_value it)).
  rewrite (written_item j it) by (unfold item_bytes; rewrite ?zlen_app; assumption || lia).
  unfold item_bytes. rewrite slice_app_r by lia. rewrite Z.sub_diag. now apply slice_all.
Qed.

Lemma written_pointer j it p :
  items !! j = Some it -> it_value it = i64_le p -> page_ordinal_ok p ->
  read_i64 written_page (item_offset j + zlen (it_key it)) = Ok p /\
  payload_range written_view (item_offset j) (zlen (it_key it) + 8) = Ok tt.
Proof.
  intros Hj Hv Hp. destruct (item_offset_bounds j it Hj) as [Ho Hl].
  assert (zlen (it_value it) = 8) as Hz by (rewrite Hv; apply zlen_i64_le).
  destruct written_bounds as (? & ? & ? & ? & ? & ?). destruct (item_at j it Hj) as (_ & Hlt & _).
  destruct (item_offset_i32 j ltac:(lia)) as [Hi _]. pose proof (zlen_nonneg (it_key it)). split.
  - unfold read_i64. rewrite read_le_ok by (rewrite ?zlen_written_page; fmt_lia).
    rewrite <- Hz, (written_value_bytes j it Hj), Hv. f_equal. apply swrap_i64_le. unfold page_ordinal_ok in Hp. lia.
  - apply payload_range_ok; change (pv_bytes written_view) with written_page;
      rewrite ?zlen_written_page; fmt_lia || exact Ho.
Qed.

Lemma page_ordinal_decode p : page_ordinal_ok p -> PageOrdinal_from_i64 p = Ok (Some p).
Proof.
  unfold page_ordinal_ok. intros. unfold PageOrdinal_from_i64. cmp_cases. reflexivity.
Qed.

Lemma leaf_entry_written j it :
  is_leaf = true -> items !! j = Some it ->
  leaf_entry written_view (Z.of_nat j) =
  Ok (mkLeafEntry (item_offset j) (zlen (it_key it)) (written_value j it)).
Proof.
  intros Hleaf Hj. destruct (item_at j it Hj) as (Hit & Hlt & HN).
  pose proof (ik_value _ _ _ Hit) as Hv. rewrite Hleaf in Hv.
  unfold leaf_entry, check_index. rewrite bool_decide_false
    by (unfold written_view, view_kind; simpl; rewrite Hleaf; simpl; congruence).
  change (entry_count written_view) with N. rewrite (proj2 (Z.leb_gt N (Z.of_nat j))) by lia.
  cbn [rbind]. rewrite (leaf_meta_written j it Hleaf Hj). cbn [rbind].
  assert (omitted_keys (view_layout written_view) && negb (zlen (it_key it) =? 0) = false) as ->.
  { change (view_layout written_view) with layout. destruct (omitted_keys layout) eqn:Hom; [|reflexivity].
    now rewrite (ik_omitted _ _ _ Hit Hom). }
  unfold stored_len, written_value. destruct (it_blob it) as [r|] eqn:Hb; cbn [bool_decide].
  - destruct Hv as [Hv Hp]. destruct (written_pointer j it _ Hj Hv Hp) as [Hr Hrange].
    rewrite bool_decide_true by eauto. rewrite Z.eqb_refl.
    rewrite Hrange. cbn [rbind]. change (pv_bytes written_view) with written_page. rewrite Hr. cbn [rbind].
    now rewrite page_ordinal_decode.
  - rewrite bool_decide_false by (intros [? [=]]).
    rewrite (proj2 (Z.eqb_neq (zlen (it_value it)) OVERFLOW_SENTINEL)) by lia.
    destruct (item_offset_bounds j it Hj) as [Ho Hl]. destruct written_bounds as (? & ? & ? & ? & ? & ?).
    rewrite payload_range_ok; [reflexivity|exact Ho|..]; change (pv_bytes written_view) with written_page;
      rewrite zlen_written_page; [lia | fmt_lia].
Qed.

Lemma internal_entry_written j it p :
  is_leaf = false -> items !! j = Some it -> it_value it = i64_le p -> page_ordinal_ok p ->
  internal_entry written_view (Z.of_nat j) = Ok (mkInternalEntry (item_offset j) (zlen (it_key it)) p).
Proof.
  intros Hleaf Hj Hv Hp. destruct (item_at j it Hj) as (Hit & Hlt & HN).
  unfold internal_entry, check_index. rewrite bool_decide_false
    by (unfold written_view, view_kind; simpl; rewrite Hleaf; simpl; congruence).
  change (entry_count written_view) with N. rewrite (proj2 (Z.leb_gt N (Z.of_nat j))) by lia.
  cbn [rbind]. rewrite (internal_meta_written j it Hleaf Hj). cbn [rbind].
  assert (omitted_keys (view_layout written_view) && negb (zlen (it_key it) =? 0) = false) as ->.
  { change (view_layout written_view) with layout. destruct (omitted_keys layout) eqn:Hom; [|reflexivity].
    now rewrite (ik_omitted _ _ _ Hit Hom). }
  destruct (written_pointer j it p Hj Hv Hp) as [Hr Hrange]. rewrite Hrange. cbn [rbind].
  change (pv_bytes written_view) with written_page. rewrite Hr. cbn [rbind].
  now rewrite page_ordinal_decode.
Qed.

Lemma written_page_validates : PageView_validate written_view = Ok tt.
Proof.
  apply validate_ok; [exact written_view_wf|]. change (entry_count written_view) with N.
  intros i Hi. destruct (items !! Z.to_nat i) as [it|] eqn:Hj.
  2:{ apply lookup_ge_None in Hj. unfold zlen in Hi. lia. }
  replace i with (Z.of_nat (Z.to_nat i)) by lia. change (view_kind written_view) with (node_kind is_leaf).
  destruct (bool_split is_leaf) as [Hleaf|Hleaf];
    rewrite Hleaf; cbn [node_kind].
  - eexists. apply leaf_entry_written; eauto.
  - destruct (item_at _ _ Hj) as (Hit & _). pose proof (ik_value _ _ _ Hit) as Hv.
    rewrite Hleaf in Hv. destruct Hv as (p & Hv & Hp).
    eexists. eapply internal_entry_written; eauto.
Qed.
End WrittenPage.

Lemma page_bytes_written {X} layout is_leaf (state : Level X) items m page_size :
  page_fits layout is_leaf state items m page_size ->
  page_bytes layout is_leaf (written_len layout state items m) (written_payload_base layout items m) state =
  written_page layout is_leaf state items m None.
Proof. intros Hf. symmetry. now apply (written_page_linked _ _ _ _ _ _ Hf None). Qed.

Lemma written_page_link {X} layout is_leaf (state : Level X) items m r p :
  page_ordinal_ok p ->
  splice (written_page layout is_leaf state items m r) RIGHT_SIBLING_OFFSET (i64_le p) =
  written_page layout is_leaf state items m (Some p).
Proof. intros Hp. refine (written_page_relink layout is_leaf state items m (Some p) _ p eq_refl r). now intros q [= <-]. Qed.

(** * A written page is searchable *)

(** What the writer adds for a key: the stored form and the digest. *)
Definition item_of_key (E : KeyEncoding) `{!LawfulEncoding E} (layout : NodeLayout)
    (key : list byte) (it : Item) : Prop :=
  it_key it = (if omitted_keys layout then [] else key) /\ it_digest it = dig key.

Section Searchable.
Context (E : KeyEncoding) `{HL : !LawfulEncoding E}.
Context {X : Type} (layout : NodeLayout) (is_leaf : bool) (state : Level X) (items : list Item).
Context (m page_size : Z) (Hfits : page_fits layout is_leaf state items m page_size).
Context (right : option PageOrdinal) (Hright : forall p, right = Some p -> page_ordinal_ok p).
Context (keys : list (list byte)) (Hkeys : Forall2 (item_of_key E layout) keys items).
Context (Hok : Forall key_ok keys) (Hasc : StronglySorted (key_lt E) keys).
Context (Hexact : omitted_keys layout = true -> ke_is_digest_exact E = true).

Abbreviation view := (written_view layout is_leaf state items m right).

Lemma key_item j k :
  keys !! j = Some k -> exists it, items !! j = Some it /\ item_of_key E layout k it.
Proof. intros Hj. eapply Forall2_lookup_l; eauto. Qed.

Lemma written_digests_keys : lv_digests state = dig <$> keys.
Proof.
  rewrite (lh_digests _ _ (pf_holds _ _ _ _ _ _ Hfits)).
  clear -Hkeys. revert Hkeys. generalize keys. induction items as [|it its IH]; intros ks Hks.
  - inversion Hks; reflexivity.
  - inversion Hks as [|k ? ks' ? [_ Hd] Hks']; subst. rewrite !fmap_cons, (IH ks' Hks'). congruence.
Qed.

Lemma written_zlen_keys : zlen keys = zlen items.
Proof. unfold zlen. f_equal. eapply Forall2_length; eauto. Qed.

Lemma written_digest_at j k :
  eytzinger layout = false -> keys !! j = Some k -> digest_at view (Z.of_nat j) = Ok (dig k).
Proof.
  intros Hey Hj. pose proof (written_view_wf _ _ _ _ _ _ Hfits right Hright) as Hwf.
  pose proof written_zlen_keys as Hz. pose proof (lookup_lt_Some _ _ _ Hj) as Hlt.
  unfold digest_at. change (view_layout view) with layout. change (entry_count view) with (zlen items).
  rewrite Hey, (proj2 (Z.leb_gt _ _)) by (unfold zlen in *; lia).
  pose proof (digest_slot_ok view (Z.of_nat j) Hwf) as Hd. unfold digest_slot in Hd.
  pose proof (wf_slots_in_page view Hwf) as (Hs & _). change (entry_count view) with (zlen items) in Hs.
  rewrite (proj2 (Z.leb_gt (digest_slot_count view) _)) in Hd by (unfold zlen in *; lia).
  rewrite Hd by (unfold zlen in *; lia). f_equal.
  apply (written_slot_digest _ _ _ _ _ _ Hfits).
  - unfold slot_list. rewrite Hey, written_digests_keys, list_lookup_fmap, Hj. reflexivity.
  - apply dig_range. eapply Forall_lookup_1; eauto.
Qed.

(** The key of an entry, read back off the page. *)
Lemma written_entry_key j k :
  omitted_keys layout = false -> keys !! j = Some k -> entry_key view (Z.of_nat j) = Ok k.
Proof.
  intros Hom Hj. destruct (key_item j k Hj) as (it & Hit & [Hk _]). rewrite Hom in Hk.
  unfold entry_key. change (view_kind view) with (node_kind is_leaf).
  destruct (item_at _ _ _ _ _ _ Hfits j it Hit) as (Hok' & _).
  destruct (bool_split is_leaf) as [Hleaf|Hleaf];
    rewrite Hleaf; cbn [node_kind].
  - rewrite <- Hleaf, (leaf_entry_written _ _ _ _ _ _ Hfits right j it Hleaf Hit). cbn [rbind].
    unfold leaf_key. cbn [le_key_offset le_key_len pv_bytes view].
    rewrite (written_key _ _ _ _ _ _ Hfits right j it Hit). congruence.
  - pose proof (ik_value _ _ _ Hok') as Hv. rewrite Hleaf in Hv. destruct Hv as (p & Hv & Hp).
    rewrite <- Hleaf, (internal_entry_written _ _ _ _ _ _ Hfits right j it p Hleaf Hit Hv Hp). cbn [rbind].
    unfold internal_key. cbn [ie_key_offset ie_key_len pv_bytes view].
    rewrite (written_key _ _ _ _ _ _ Hfits right j it Hit). congruence.
Qed.

Lemma written_sorted_page : sorted_page E view keys.
Proof.
  constructor.
  - exact (written_view_wf _ _ _ _ _ _ Hfits right Hright).
  - exact written_zlen_keys.
  - exact Hok.
  - intros i k q Hi Hq. assert (key_ok k) by (eapply Forall_lookup_1; eauto).
    assert (omitted_keys layout = true -> digest_at view (Z.of_nat i) = Ok (dig k)) as Hdig.
    { intros Hom. apply written_digest_at; [|exact Hi].
      exact (lo_sorted _ (pf_layout _ _ _ _ _ _ Hfits) Hom). }
    pose proof (written_entry_key i k) as Hk. unfold entry_key in Hk. unfold compare_at.
    destruct (view_kind view); [unfold compare_leaf | unfold compare_internal];
      change (view_layout view) with layout; destruct (omitted_keys layout).
    1,3: rewrite Hdig by reflexivity; cbn [rbind]; now rewrite dig_compare by auto.
    1,2: specialize (Hk eq_refl Hi); apply rbind_Ok_inv in Hk as (e & -> & Hk); cbn [rbind];
      rewrite Hk; cbn [rbind]; now apply compare_ok.
  - exact Hasc.
  - rewrite <- written_digests_keys. exact (written_sorted_digests _ _ _ _ _ _ Hfits right).
Qed.
End Searchable.

(** * Admission *)

(** [check_key_fits] in exact arithmetic: one entry on a leaf, as an overflow
    reference, and two separators on an internal page. *)
Definition entry_area (k : NodeKind) (layout : NodeLayout) (n stored : Z) : Z :=
  PAGE_PREFIX_LEN + default 0 (meta_area_size k layout n) + 8 * digest_slots layout n + n * (stored + 8).

Definition stored_key_len (layout : NodeLayout) (key_len : Z) : Z :=
  if omitted_keys layout then 0 else key_len.

Lemma small_areas k layout n :
  n = 1 \/ n = 2 ->
  exists m, meta_area_size k layout n = Some m /\ 0 <= m <= 32 /\
    digest_area_size layout n = Some (8 * digest_slots layout n) /\
    0 <= digest_slots layout n <= 3.
Proof.
  intros Hn. destruct layout as [[] [] []], k, Hn as [-> | ->]; eexists; (split; [reflexivity|]);
    (split; [vm_compute; split; discriminate|]); (split; [reflexivity|]); vm_compute; split; discriminate.
Qed.

Lemma check_key_fits_exact page_size layout key_len :
  0 <= key_len < 2 ^ 62 -> page_size < 2 ^ 62 ->
  check_key_fits page_size layout key_len =
  if (entry_area Leaf layout 1 (stored_key_len layout key_len) <=? page_size)
     && (entry_area Internal layout 2 (stored_key_len layout key_len) <=? page_size)
  then Ok tt else Err (Error_new ValueTooLarge).
Proof.
  intros Hk Hp. destruct (small_areas Leaf layout 1 ltac:(auto)) as (m1 & Hm1 & Hr1 & Hd1 & Hs1).
  destruct (small_areas Internal layout 2 ltac:(auto)) as (m2 & Hm2 & Hr2 & Hd2 & Hs2).
  unfold entry_area. rewrite Hm1, Hm2. cbn [meta_area_size] in Hm1, Hm2.
  unfold check_key_fits. rewrite Hm1, Hm2, Hd1, Hd2. cbn [default].
  fold (stored_key_len layout key_len). set (st := stored_key_len layout key_len).
  assert (0 <= st < 2 ^ 62) by (unfold st, stored_key_len; destruct (omitted_keys layout); lia).
  unfold saturating_add, saturating_mul. rewrite !Z.min_l by fmt_lia.
  replace (1 * (st + 8)) with (st + 8) by lia. unfold_consts.
  unfold id. cmp_cases; reflexivity.
Qed.

(** Where [check_key_fits] admits a key, [n] keys that long still leave every
    page kind room for one of them: the writer cannot be stuck on an empty
    page. *)
Lemma internal_entry_area_le layout stored :
  0 <= stored ->
  entry_area Internal layout 1 stored <= entry_area Leaf layout 1 stored.
Proof.
  intros Hs. unfold entry_area. destruct layout as [ey [] []]; simpl; unfold digest_slots; simpl; lia.
Qed.

(** * Claims *)

(** What the writer adds for a key. *)
Definition writes_key (E : KeyEncoding) (layout : NodeLayout) (key : list byte) (it : Item) : Prop :=
  it_key it = (if omitted_keys layout then [] else key) /\
  ke_digest E key = Ok (it_digest it) /\ validate_key E key = Ok tt.

Definition ascending (E : KeyEncoding) (keys : list (list byte)) : Prop :=
  forall i j a b, keys !! i = Some a -> keys !! j = Some b -> (i < j)%nat -> ke_compare E a b = Ok Lt.

Section Ascending.
Context (E : KeyEncoding) `{HL : !LawfulEncoding E}.

Lemma ascending_sorted keys : Forall key_ok keys -> ascending E keys -> StronglySorted (key_lt E) keys.
Proof.
  intros Hok. induction Hok as [|k ks Hk Hks IH]; intros Hasc; [constructor|].
  constructor; [apply IH; intros i j a b Hi Hj Hlt; apply (Hasc (S i) (S j)); auto; lia|].
  apply Forall_lookup. intros i x Hx. specialize (Hasc 0%nat (S i) k x eq_refl Hx ltac:(lia)).
  rewrite compare_ok in Hasc by (assumption || eapply Forall_lookup_1; eauto). now injection Hasc.
Qed.

(** The reference search for an equal key. *)
Lemma leaf_ref_equal keys q :
  Forall key_ok keys -> key_ok q -> StronglySorted (key_lt E) keys ->
  (forall j, keys !! j = Some q -> leaf_ref E Equal q keys = Some (Z.of_nat j)) /\
  (q ∉ keys -> leaf_ref E Equal q keys = None).
Proof.
  intros Hok Hq Hsorted. unfold leaf_ref. split.
  - intros j Hj. rewrite <- (take_drop_middle _ _ _ Hj), first_index_app.
    + simpl. rewrite (ord_refl E q Hq). simpl. f_equal. unfold zlen. rewrite length_take.
      apply lookup_lt_Some in Hj. lia.
    + intros k [i Hi]%list_elem_of_lookup. rewrite lookup_take_Some in Hi. destruct Hi as [Hi Hlt].
      pose proof (StronglySorted_lookup_lt _ _ _ _ _ _ Hsorted Hi Hj Hlt) as Hkq.
      unfold key_lt in Hkq. simpl. now rewrite Hkq.
  - intros Hnin. apply first_index_None. intros k Hk. simpl.
    destruct (ord k q) eqn:Ho; try reflexivity. exfalso.
    rewrite Forall_forall in Hok. apply (cmp_eq _ _ ord_order) in Ho; auto. now subst.
Qed.

Lemma writes_keys layout keys items :
  (forall key, validate_key E key = Ok tt -> key_ok key) ->
  Forall2 (writes_key E layout) keys items ->
  Forall (fun k => validate_key E k = Ok tt) keys /\ Forall key_ok keys /\
  Forall2 (item_of_key E layout) keys items.
Proof.
  intros Hvk Hkeys. induction Hkeys as [|k it ks its (Hk & Hd & Hv) _ (IH1 & IH2 & IH3)];
    split_and!; constructor; auto.
  split; [exact Hk|]. rewrite digest_ok in Hd by auto. now injection Hd.
Qed.
End Ascending.

(** C28: a page the writer produces reads back as what went into it, under every
    layout and for leaves and internal pages alike, also after the sibling to
    the right has been patched in.  It parses and validates, the header carries
    the kind, layout, entry count and both siblings, and every entry decodes to
    its key bytes and its inline value, overflow page or child. *)
Theorem written_page_round_trip {X} layout is_leaf (state : Level X) items m page_size :
  page_fits layout is_leaf state items m page_size ->
  forall right, (forall p, right = Some p -> page_ordinal_ok p) ->
  let v := written_view layout is_leaf state items m right in
  pv_bytes v = link_right right (page_bytes layout is_leaf (written_len layout state items m) (written_payload_base layout items m) state) /\
  PageView_parse (pv_bytes v) = Ok v /\
  PageView_validate v = Ok tt /\
  zlen (pv_bytes v) <= page_size /\
  view_kind v = node_kind is_leaf /\ view_layout v = layout /\ entry_count v = zlen items /\
  left_sibling v = lv_prev_ordinal state /\ right_sibling v = right /\
  forall j it, items !! j = Some it ->
    if is_leaf then
      exists e, leaf_entry v (Z.of_nat j) = Ok e /\ leaf_key v e = Ok (it_key it) /\
        match it_blob it with
        | Some r => le_value e = Overflow (pr_page r)
        | None => exists o n, le_value e = Inline o n /\ inline_value v o n = Ok (it_value it)
        end
    else
      exists e, internal_entry v (Z.of_nat j) = Ok e /\ internal_key v e = Ok (it_key it) /\
        it_value it = i64_le (ie_child e).
Proof.
  intros Hf right Hright v. destruct (written_bounds _ _ _ _ _ _ Hf) as (Hn & _ & _ & _ & Hl & Hlim).
  split_and!; try reflexivity.
  - exact (written_page_linked _ _ _ _ _ _ Hf right Hright).
  - exact (written_page_parses _ _ _ _ _ _ Hf right Hright).
  - exact (written_page_validates _ _ _ _ _ _ Hf right Hright).
  - change (pv_bytes v) with (written_page layout is_leaf state items m right).
    rewrite (zlen_written_page _ _ _ _ _ _ Hf). exact Hl.
  - intros j it Hj. destruct (item_at _ _ _ _ _ _ Hf j it Hj) as (Hit & _).
    pose proof (written_key _ _ _ _ _ _ Hf right j it Hj) as Hk. destruct is_leaf.
    + eexists. split; [exact (leaf_entry_written _ _ _ _ _ _ Hf right j it eq_refl Hj)|]. split; [exact Hk|].
      simpl. unfold written_value. destruct (it_blob it); [reflexivity|].
      do 2 eexists. split; [reflexivity|]. unfold inline_value.
      destruct (item_offset_bounds _ _ _ _ _ _ Hf j it Hj) as [Ho Hb].
      destruct (item_offset_i32 _ _ _ _ _ _ Hf j) as [Hi _]; [apply lookup_lt_Some in Hj; lia|].
      pose proof (zlen_nonneg (it_key it)). pose proof (zlen_nonneg (it_value it)).
      change (pv_bytes v) with (written_page layout true state items m right).
      rewrite read_slice_ok by (rewrite ?(zlen_written_page _ _ _ _ _ _ Hf); fmt_lia).
      now rewrite (written_value_bytes _ _ _ _ _ _ Hf right j it Hj).
    + destruct (ik_value _ _ _ Hit) as (p & Hv & Hp).
      eexists. split; [exact (internal_entry_written _ _ _ _ _ _ Hf right j it p eq_refl Hj Hv Hp)|].
      split; [exact Hk | exact Hv].
Qed.

(** C10: a page of strictly ascending keys under a built-in encoding passes the
    reader's digest check, and on a leaf the search finds each key at the entry
    it was written to and nothing else. *)
Theorem written_page_is_searchable {X} id E layout is_leaf (state : Level X) items m page_size keys :
  builtin id = Some E -> page_fits layout is_leaf state items m page_size ->
  (omitted_keys layout = true -> ke_is_digest_exact E = true) ->
  Forall2 (writes_key E layout) keys items -> ascending E keys ->
  forall right, (forall p, right = Some p -> page_ordinal_ok p) ->
  let v := written_view layout is_leaf state items m right in
  check_digests E v = Ok tt /\
  (is_leaf = true -> forall q d, validate_key E q = Ok tt -> ke_digest E q = Ok d ->
     (forall j, keys !! j = Some q -> leaf_search E v q d Equal = Ok (Some (Z.of_nat j))) /\
     (q ∉ keys -> leaf_search E v q d Equal = Ok None)).
Proof.
  intros HE Hf Hex Hkeys Hasc right Hright v. destruct (builtin_writable id E HE) as (HL & HW & Hvk).
  destruct (writes_keys E layout keys items Hvk Hkeys) as (Hvalid & Hok & Hits).
  pose proof (ascending_sorted E keys Hok Hasc) as Hsorted.
  pose proof (written_sorted_page E layout is_leaf state items m page_size Hf right Hright keys Hits Hok Hsorted Hex) as Hp.
  split.
  - apply (check_digests_ok E v keys Hp Hvalid); [|exact Hex]. intros Hom j k.
    exact (written_entry_key E layout is_leaf state items m page_size Hf right keys Hits j k Hom).
  - intros Hleaf q d Hq Hd. specialize (Hvk q Hq). rewrite digest_ok in Hd by assumption.
    injection Hd as <-.
    rewrite (leaf_search_ref E v keys q Equal Hp) by (assumption || now subst is_leaf).
    destruct (leaf_ref_equal E keys q Hok Hvk Hsorted) as [Hin Hout].
    split; [intros j Hj; now rewrite (Hin j Hj) | intros Hnin; now rewrite (Hout Hnin)].
Qed.

(** * Blob pages *)

Definition blob_view (value : list byte) : PageView :=
  mkPageView (blob_page_bytes value)
    (mkNodeHeader Leaf (mkNodeLayout false false false) 0 None None) DIGEST_BASE DIGEST_BASE.

Lemma zlen_blob_page value : zlen (blob_page_bytes value) = PAGE_PREFIX_LEN + zlen value.
Proof. unfold blob_page_bytes. zlen_lia. Qed.

Lemma blob_field f o n value :
  0 <= o -> 0 <= n -> o + n <= PAGE_PREFIX_LEN -> zlen value <= i32_max ->
  read_le f n (blob_page_bytes value) o =
  Ok (f (slice (i32_le (PAGE_PREFIX_LEN + zlen value) ++ i32_le 0 ++ i32_le 0 ++ i64_le (-1) ++ i64_le (-1)) o n)).
Proof.
  intros. pose proof (zlen_nonneg value).
  rewrite read_le_ok by (rewrite ?zlen_blob_page; fmt_lia).
  unfold blob_page_bytes. rewrite !app_assoc, slice_app_l by (autorewrite with zlen; fmt_lia).
  reflexivity.
Qed.

(** A value stored on a page of its own reads back whole, as long as the
    page length fits the 32-bit field. *)
Theorem blob_page_round_trip value :
  PAGE_PREFIX_LEN + zlen value <= i32_max ->
  PageView_parse (blob_page_bytes value) = Ok (blob_view value) /\
  PageView_validate (blob_view value) = Ok tt /\ blob_payload (blob_view value) = value.
Proof.
  intros Hl. pose proof (zlen_nonneg value) as Hn. split_and!.
  - unfold PageView_parse, read_i32, read_i64. rewrite !blob_field by (unfold_consts; lia).
    unfold_consts. slice_field. rewrite !swrap_i32_le, !swrap_i64_le by lia.
    rewrite zlen_blob_page. unfold_consts. rewrite (proj2 (Z.ltb_ge _ _)) by lia.
    unfold checked_len. cbn [rbind]. rewrite (proj2 (Z.ltb_ge (4 + 24 + zlen value) 0)) by lia.
    cbn [rbind]. rewrite Z.eqb_refl. cbn [negb rbind].
    change (parse_kind 0) with (Ok Leaf : Result NodeKind).
    change (parse_layout 0) with (mkNodeLayout false false false).
    cbn [rbind]. cbn [Z.ltb Z.compare rbind].
    change (digest_area_size (mkNodeLayout false false false) 0) with (Some 0).
    change (leaf_meta_size (mkNodeLayout false false false) 0) with (Some 0).
    change (Z.land 0 FLAG_LEGACY_KEY_DIGESTS =? 0) with true.
    change (Z.land 0 (Z.lnot (Z.lor KIND_MASK KNOWN_FLAGS)) =? 0) with true.
    cbn [negb andb eytzinger compact_meta omitted_keys ok_or rbind].
    change (checked_add (4 + 24) 0) with (Some 28). cbn [ok_or rbind].
    rewrite (proj2 (Z.ltb_ge _ _)) by lia. change (checked_add 28 0) with (Some 28).
    cbn [ok_or rbind]. rewrite (proj2 (Z.ltb_ge _ _)) by lia. reflexivity.
  - reflexivity.
  - unfold blob_payload. change (pv_bytes (blob_view value)) with (blob_page_bytes value).
    unfold blob_page_bytes. rewrite !app_assoc. apply drop_zlen_app. zlen_lia.
Qed.

(** C35: the writer's own limit admits values of up to [i32::MAX] bytes, but a
    blob page is 28 bytes longer than its value: for the last 28 lengths the
    page length wraps to a negative number and the page cannot be read back. *)
Theorem blob_page_length_overflows value :
  i32_max - PAGE_PREFIX_LEN < zlen value <= i32_max ->
  PageView_parse (blob_page_bytes value) = Err Error_corrupt.
Proof.
  intros Hl. unfold PageView_parse, read_i32. rewrite !blob_field by (unfold_consts; lia).
  rewrite zlen_blob_page. unfold_consts. rewrite (proj2 (Z.ltb_ge _ _)) by lia.
  slice_field. cbn [rbind].
  assert (swrap 32 (le_combine (i32_le (4 + 24 + zlen value))) < 0) as Hneg.
  { unfold i32_le. rewrite le_combine_split. change (Z.of_nat 4 * 8) with 32.
    rewrite swrap_wrap by lia. rewrite swrap_negative by (simpl; lia). simpl; lia. }
  unfold checked_len. rewrite (proj2 (Z.ltb_lt _ _)) by exact Hneg. reflexivity.
Qed.

(** * Witnesses

    A compact Eytzinger leaf with an inline value and an overflow value. *)

Definition sample_layout : NodeLayout := choose_layout 128 true AsciiEncoding true.
Definition sample_keys : list (list byte) := [[Byte.x61]; [Byte.x62]].
Definition sample_items : list Item :=
  [ mkItem [Byte.x61] [Byte.x31] None 0x6100000000000000;
    mkItem [Byte.x62] (i64_le 7) (Some (mkPageRef 7 28 500)) 0x6200000000000000 ].
Definition sample_level : Level unit :=
  foldl (fun l it => level_add (it_digest it) (it_key it) (it_value it) (it_blob it) [tt] l)
    Level_new sample_items.

Lemma sample_page_fits : page_fits sample_layout true sample_level sample_items 10 128.
Proof.
  constructor.
  - apply choose_layout_ok.
  - constructor; reflexivity.
  - repeat apply Forall_cons_2; [| |apply Forall_nil_2]; constructor;
      try (vm_compute; discriminate); try (vm_compute; split; discriminate).
    split; [reflexivity|]. vm_compute. split; [discriminate | reflexivity].
  - reflexivity.
  - vm_compute. discriminate.
  - vm_compute. discriminate.
  - intros _. vm_compute. discriminate.
  - intros p [=].
Qed.

Example sample_page_search :
  leaf_search AsciiEncoding (written_view sample_layout true sample_level sample_items 10 (Some 9))
    [Byte.x62] 0x6200000000000000 Equal = Ok (Some 1).
Proof. vm_compute. reflexivity. Qed.

Lemma written_page_round_trip_witness :
  PageView_validate (written_view sample_layout true sample_level sample_items 10 (Some 9)) = Ok tt.
Proof.
  destruct (written_page_round_trip sample_layout true sample_level sample_items 10 128) with (right := Some 9) as (_ & _ & Hv & _).
  - exact sample_page_fits.
  - intros p [= <-]. split; [discriminate | reflexivity].
  - exact Hv.
Defined.

Lemma written_page_is_searchable_witness :
  check_digests AsciiEncoding (written_view sample_layout true sample_level sample_items 10 (Some 9)) = Ok tt.
Proof.
  destruct (written_page_is_searchable "ascii"%string AsciiEncoding sample_layout true sample_level sample_items
    10 128 sample_keys) with (right := Some 9) as [Hc _].
  - reflexivity.
  - exact sample_page_fits.
  - discriminate.
  - repeat (apply Forall2_cons_2; [split; [reflexivity | split; reflexivity]|]). apply Forall2_nil_2.
  - intros [|[|i]] [|[|j]] a b; simpl; intros [= <-] [= <-]; (lia || reflexivity).
  - intros p [= <-]. split; [discriminate | reflexivity].
  - exact Hc.
Defined.

Lemma blob_page_length_overflows_witness :
  PageView_parse (blob_page_bytes (replicate (Z.to_nat i32_max) Byte.x00)) = Err Error_corrupt.
Proof.
  apply blob_page_length_overflows. unfold zlen. rewrite length_replicate, Z2Nat.id by (unfold i32_max; lia).
  unfold_consts. lia.
Defined.
