(* ===== verification/TreeWriter.v ===== *)
(** Bottom-up B+Tree writing, [crates/drydb/src/builder/tree.rs].

    Entries arrive in key order and are packed into a leaf until the next one
    does not fit; the leaf is written, its right sibling pointer is patched
    into the page before it and its first key is promoted to the parent level.
    The same rule applies to every level, so one forward pass with one page
    buffer per level writes a tree of any height; how high it gets is bounded by
    what its levels weigh ([weight_from]). *)

From Stdlib Require Import ZArith Lia.
From stdpp Require Import base list sorting.
From coqutil Require Import Byte Word.LittleEndianList.
From S2P Require Import Prelude Errors Format PageRef Eytzinger Node Encoding TreePage Effects Sink.
From S2P Require Import PageWriter.

#[local] Open Scope Z_scope.
#[local] Open Scope drydb_scope.

Definition MAX_LEVELS : Z := 64.

(** The fields of a [TreeWriter] that stay put while it runs. *)
Record TreeConfig : Type := mkTreeConfig {
  tc_page_size : Z;
  tc_layout : NodeLayout;
  tc_encoding : KeyEncoding;
  tc_extra_budget : Z;
}.

(** [X] is the extra kept with each leaf entry, [C] the state the
    [on_value_ref] closure captures. *)
Record TreeWriter {X C : Type} : Type := mkTreeWriter {
  tw_sink : PageSink;
  tw_levels : list (Level X);
  tw_entries : Z;
  tw_pending_extra : Z;
  tw_caller : C;
}.
Arguments TreeWriter X C : clear implicits.

Definition TreeWriter_new {X C} (sink : PageSink) (page_size : Z) (eytzinger_digests : bool)
    (E : KeyEncoding) (allow_omitted_keys : bool) (caller : C)
    : Result (TreeConfig * TreeWriter X C) :=
  fail? page_size <? MIN_PAGE_SIZE with Error_invalid in
  let layout := choose_layout page_size eytzinger_digests E allow_omitted_keys in
  Ok (mkTreeConfig page_size layout E usize_max, mkTreeWriter X C sink [Level_new] 0 0 caller).

Definition limit_pending_extra (c : TreeConfig) (bytes : Z) : TreeConfig :=
  mkTreeConfig (tc_page_size c) (tc_layout c) (tc_encoding c) bytes.

Section Writer.
Context {X C : Type}.
Context (extra_bytes : X -> Z) (on_value_ref : X -> PageRef -> IO C unit).
Context (c : TreeConfig).

Abbreviation W := (TreeWriter X C).
Abbreviation layout := (tc_layout c).
Abbreviation page_size := (tc_page_size c).

Definition set_sink (s : PageSink) (w : W) : W :=
  mkTreeWriter X C s (tw_levels w) (tw_entries w) (tw_pending_extra w) (tw_caller w).
Definition set_levels (ls : list (Level X)) (w : W) : W :=
  mkTreeWriter X C (tw_sink w) ls (tw_entries w) (tw_pending_extra w) (tw_caller w).
Definition set_entries (n : Z) (w : W) : W :=
  mkTreeWriter X C (tw_sink w) (tw_levels w) n (tw_pending_extra w) (tw_caller w).
Definition set_pending (n : Z) (w : W) : W :=
  mkTreeWriter X C (tw_sink w) (tw_levels w) (tw_entries w) n (tw_caller w).
Definition set_caller (s : C) (w : W) : W :=
  mkTreeWriter X C (tw_sink w) (tw_levels w) (tw_entries w) (tw_pending_extra w) s.

(** [self.levels[i]]: panics past the end. *)
Definition get_level (i : nat) : IO W (Level X) :=
  let! w := here in expect (tw_levels w !! i).

Definition on_level (i : nat) (f : Level X -> Level X) : IO W unit :=
  let! l := get_level i in
  update (fun w => set_levels (<[i := f l]> (tw_levels w)) w).

Definition on_sink {A} (m : IO PageSink A) : IO W A := zoom tw_sink set_sink m.

Definition tw_digest_area (n : Z) : IO W Z := expect (digest_area_size layout n).
Definition tw_leaf_meta (n : Z) : IO W Z := expect (leaf_meta_size layout n).
Definition tw_internal_meta (n : Z) : IO W Z := expect (internal_meta_size layout n).

Definition stored_key (key : list byte) : list byte := if omitted_keys layout then [] else key.

Definition inline_needs (stored_key_len value_len : Z) : IO W Z :=
  let! level := get_level 0 in
  let next := level_count level + 1 in
  let! meta := tw_leaf_meta next in
  let! digests := tw_digest_area next in
  sret (PAGE_PREFIX_LEN + meta + digests + zlen (lv_payload level) + stored_key_len + value_len).

Definition internal_needs (level : nat) (stored_key_len : Z) : IO W Z :=
  let! state := get_level level in
  let next := level_count state + 1 in
  let! meta := tw_internal_meta next in
  let! digests := tw_digest_area next in
  sret (PAGE_PREFIX_LEN + meta + digests + zlen (lv_payload state) + stored_key_len + 8).

Definition write_blob_page (value : list byte) : IO W PageOrdinal :=
  let! '(ordinal, _) := on_sink begin_page in
  let! _ := on_sink (write_page (blob_page_bytes value)) in
  sret ordinal.

(** The loop that hands every extra on with the place its value landed. *)
Fixpoint hand_on (ordinal : PageOrdinal) (sizes : list (Z * Z)) (overflow : list (option PageRef))
    (i : nat) (offset : Z) (extras : list X) : IO W unit :=
  match extras with
  | [] => sret tt
  | extra :: extras =>
      let! '(key_len, payload_len) := expect (sizes !! i) in
      let! entry := expect (overflow !! i) in
      let reference := match entry with
                       | Some r => r
                       | None => mkPageRef ordinal (wrap 32 (offset + key_len)) (wrap 32 payload_len)
                       end in
      let! _ := zoom tw_caller set_caller (on_value_ref extra reference) in
      hand_on ordinal sizes overflow (S i) (offset + (key_len + payload_len)) extras
  end.

Definition flush_page (level : nat) (ordinal : PageOrdinal) : IO W unit :=
  let is_leaf := Nat.eqb level 0 in
  let! state := get_level level in
  let entry_count := level_count state in
  let! digest_area := tw_digest_area entry_count in
  let! meta_area := if is_leaf then tw_leaf_meta entry_count else tw_internal_meta entry_count in
  let payload_base := PAGE_PREFIX_LEN + digest_area + meta_area in
  let page_len := payload_base + zlen (lv_payload state) in
  fail! page_size <? page_len with Failed Error_corrupt in
  let! _ := on_sink (write_page (page_bytes layout is_leaf page_len payload_base state)) in
  if is_leaf then
    let! _ := on_level level clear_extras in
    let! _ := update (set_pending 0) in
    hand_on ordinal (lv_sizes state) (lv_overflow state) 0 payload_base (lv_extras state)
  else sret tt.

(** [rotate] calls itself one level up, so [MAX_LEVELS] of fuel is enough. *)
Fixpoint rotate (fuel : nat) (level : nat) (promote : bool) : IO W unit :=
  match fuel with
  | O => sfail OutOfFuel
  | S fuel =>
      let! '(ordinal, offset) := on_sink begin_page in
      let! _ := flush_page level ordinal in
      let! state := get_level level in
      let! _ := match lv_prev_offset state with
                | Some prev_offset =>
                    on_sink (patch_at (prev_offset + RIGHT_SIBLING_OFFSET) (i64_le ordinal))
                | None => sret tt
                end in
      if negb promote then on_level level (fun l => set_prev ordinal offset (Level_reset l))
      else
        let! state := get_level level in
        let! separator := lift_result (ok_or (lv_first_key state) Error_corrupt) in
        let parent := S level in
        let! w := here in
        let levels := length (tw_levels w) in
        let! _ := if (levels <=? parent)%nat then
                    fail! MAX_LEVELS <=? Z.of_nat levels with Failed Error_too_high in
                    update (fun w => set_levels (tw_levels w ++ [Level_new]) w)
                  else sret tt in
        let! up := get_level parent in
        let! _ := if level_count up =? 0 then on_level parent (set_first_key separator)
                  else sret tt in
        let stored := stored_key separator in
        let! needs := internal_needs parent (zlen stored) in
        let! _ := if page_size <? needs then
                    let! _ := rotate fuel parent true in
                    let! up := get_level parent in
                    if level_count up =? 0 then on_level parent (set_first_key separator)
                    else sret tt
                  else sret tt in
        let! digest := lift_result (ke_digest (tc_encoding c) separator) in
        let! _ := on_level parent (level_add digest stored (i64_le ordinal) None []) in
        on_level level (fun l => set_prev ordinal offset (Level_reset l))
  end.

Definition ROTATE_FUEL : nat := 64.

Definition push (key value : list byte) (extra : X) : IO W unit :=
  fail! u16_max <? zlen key with Failed (Error_new ValueTooLarge) in
  fail! i32_max <? zlen value with Failed (Error_new ValueTooLarge) in
  let stored := stored_key key in
  let stored_key_len := zlen stored in
  let value_len := zlen value in
  let! meta := tw_leaf_meta 1 in
  let! digests := tw_digest_area 1 in
  let minimum := PAGE_PREFIX_LEN + meta + digests + stored_key_len + 8 in
  fail! page_size <? minimum with Failed (Error_new ValueTooLarge) in
  let! level := get_level 0 in
  let! _ := if level_count level =? 0 then on_level 0 (set_first_key key) else sret tt in
  let! needs := inline_needs stored_key_len value_len in
  let! overflow :=
    if page_size <? needs then
      let! overflow_needs := inline_needs stored_key_len 8 in
      let! level := get_level 0 in
      let! _ := if (page_size <? overflow_needs) && (0 <? level_count level) then
                  let! _ := rotate ROTATE_FUEL 0 true in
                  let! level := get_level 0 in
                  if level_count level =? 0 then on_level 0 (set_first_key key) else sret tt
                else sret tt in
      let! needs := inline_needs stored_key_len value_len in
      sret (page_size <? needs)
    else sret false in
  let overflow := overflow || (OVERFLOW_SENTINEL <=? value_len) in
  let! digest := lift_result (ke_digest (tc_encoding c) key) in
  let! _ := if overflow then
              let! ordinal := write_blob_page value in
              on_level 0 (level_add digest stored (i64_le ordinal)
                (Some (mkPageRef ordinal PAGE_PREFIX_LEN (wrap 32 value_len))) [extra])
            else on_level 0 (level_add digest stored value None [extra]) in
  let! _ := update (fun w => set_pending (tw_pending_extra w + extra_bytes extra) w) in
  let! _ := update (fun w => set_entries (tw_entries w + 1) w) in
  let! w := here in
  let! level := get_level 0 in
  if (tc_extra_budget c <? tw_pending_extra w) && (0 <? level_count level)
  then rotate ROTATE_FUEL 0 true else sret tt.

(** One pass of the loop in [finish]; [levels] grows while it runs. *)
Fixpoint finish_pass (fuel : nat) (level : nat) (flushed : bool) : IO W bool :=
  match fuel with
  | O => sfail OutOfFuel
  | S fuel =>
      let! w := here in
      if (S level <? length (tw_levels w))%nat then
        let! state := get_level level in
        let! flushed := if 0 <? level_count state then
                          let! _ := rotate ROTATE_FUEL level true in sret true
                        else sret flushed in
        finish_pass fuel (S level) flushed
      else sret flushed
  end.

Fixpoint finish_loop (fuel : nat) : IO W unit :=
  match fuel with
  | O => sfail OutOfFuel
  | S fuel =>
      let! flushed := finish_pass (S ROTATE_FUEL) 0 false in
      if negb flushed then sret tt else finish_loop fuel
  end.

Definition finish : IO W PageOrdinal :=
  let! _ := finish_loop 2 in
  let! w := here in
  let top := Nat.pred (length (tw_levels w)) in
  let! state := get_level top in
  let! _ := if (0 <? level_count state) || bool_decide (lv_prev_ordinal state = None)
            then rotate ROTATE_FUEL top false else sret tt in
  let! state := get_level top in
  lift_result (ok_or (lv_prev_ordinal state) Error_corrupt).
End Writer.

(** * What the writer maintains

    Every level holds a page that fits, its first key is known while it has
    entries, and the page before it is in the file, so its sibling pointer can
    be patched. *)

Lemma areas_some layout n :
  0 <= n <= 2 ^ 32 ->
  exists ml mi, leaf_meta_size layout n = Some ml /\ internal_meta_size layout n = Some mi /\
    digest_area_size layout n = Some (8 * digest_slots layout n).
Proof.
  intros Hn. assert (0 <= digest_slots layout n <= 2 ^ 33) as Hd.
  { unfold digest_slots. destruct (eytzinger layout); [|lia].
    destruct (complete_size_least n 33) as [Hge Hle]; lia. }
  unfold leaf_meta_size, internal_meta_size, digest_area_size.
  rewrite (checked_mul_ok (digest_slots layout n) 8) by fmt_lia.
  rewrite (Z.mul_comm _ 8). destruct (compact_meta layout).
  - rewrite (checked_add_ok n 1) by fmt_lia. simpl.
    rewrite checked_add_ok by (destruct (omitted_keys layout); fmt_lia). simpl.
    rewrite !checked_mul_ok by (destruct (omitted_keys layout); fmt_lia).
    destruct (omitted_keys layout); eauto 6.
  - rewrite !checked_mul_ok by fmt_lia. eauto 6.
Qed.

(** ** How high a tree gets

    An entry of a level weighs what it takes to make one: one at the leaves, and
    at each level above twice what it weighs one below, counting from the first
    internal level.  While an internal page holds two separators, writing it
    gives its parent one entry for two, so the levels never weigh more than the
    entries pushed, and a level that exists weighs at least a power of two. *)

Definition unit_weight (n : nat) : Z :=
  match n with O => 1 | S m => 2 ^ Z.of_nat m end.

Fixpoint weight_from {X} (n : nat) (ls : list (Level X)) : Z :=
  match ls with
  | [] => 0
  | l :: ls => level_count l * unit_weight n + weight_from (S n) ls
  end.

Abbreviation weight := (weight_from 0).

Lemma unit_weight_pos n : 1 <= unit_weight n.
Proof. destruct n; simpl; [lia|]. pose proof (Z.pow_pos_nonneg 2 (Z.of_nat n)). lia. Qed.

Lemma unit_weight_S n : unit_weight (S n) <= 2 * unit_weight n /\ unit_weight n <= unit_weight (S n).
Proof.
  destruct n as [|n]; [simpl; lia|]. unfold unit_weight. rewrite Nat2Z.inj_succ, Z.pow_succ_r by lia.
  pose proof (Z.pow_pos_nonneg 2 (Z.of_nat n)). lia.
Qed.

Lemma unit_weight_SS n : unit_weight (S (S n)) = 2 * unit_weight (S n).
Proof. unfold unit_weight. rewrite Nat2Z.inj_succ, Z.pow_succ_r by lia. lia. Qed.

Section Weight.
Context {X : Type}.
Implicit Types ls : list (Level X).

Lemma level_count_nonneg (l : Level X) : 0 <= level_count l.
Proof. apply zlen_nonneg. Qed.

Lemma weight_from_nonneg ls : forall n, 0 <= weight_from n ls.
Proof.
  induction ls as [|l ls IH]; intros n; simpl; [lia|]. specialize (IH (S n)).
  pose proof (level_count_nonneg l). pose proof (unit_weight_pos n). nia.
Qed.

Lemma weight_from_insert ls : forall n i l l', ls !! i = Some l ->
  weight_from n (<[i := l']> ls) = weight_from n ls + (level_count l' - level_count l) * unit_weight (n + i).
Proof.
  induction ls as [|x ls IH]; intros n [|i] l l'; simpl; try discriminate.
  - intros [= ->]. rewrite Nat.add_0_r. lia.
  - intros Hi. rewrite (IH (S n) i l l' Hi). replace (n + S i)%nat with (S n + i)%nat by lia. lia.
Qed.

Lemma weight_insert ls i l l' : ls !! i = Some l ->
  weight (<[i := l']> ls) = weight ls + (level_count l' - level_count l) * unit_weight i.
Proof. exact (weight_from_insert ls 0 i l l'). Qed.

Lemma weight_insert_same ls i l l' : ls !! i = Some l -> level_count l' = level_count l ->
  weight (<[i := l']> ls) = weight ls.
Proof. intros Hi Hc. rewrite (weight_insert ls i l l' Hi). lia. Qed.

Lemma weight_from_app ls : forall n, weight_from n (ls ++ [Level_new]) = weight_from n ls.
Proof.
  induction ls as [|l ls IH]; intros n; simpl; [|now rewrite IH].
  change (level_count (@Level_new X)) with 0. lia.
Qed.

Lemma weight_from_lookup ls : forall n i l, ls !! i = Some l -> level_count l * unit_weight (n + i) <= weight_from n ls.
Proof.
  induction ls as [|x ls IH]; intros n [|i] l; simpl; try discriminate.
  - intros [= ->]. rewrite Nat.add_0_r. pose proof (weight_from_nonneg ls (S n)). lia.
  - intros Hi. specialize (IH (S n) i l Hi). replace (n + S i)%nat with (S n + i)%nat by lia.
    pose proof (level_count_nonneg x). pose proof (unit_weight_pos n). nia.
Qed.

(** A level holding two entries weighs too much to be the 64th. *)
Lemma light_is_low ls n l : ls !! n = Some l -> 2 <= level_count l -> weight ls < 2 ^ 63 -> (n < 63)%nat.
Proof.
  intros Hn Hl Hw. destruct (le_lt_dec 63 n) as [Hge|]; [|assumption]. exfalso.
  pose proof (weight_from_lookup ls 0 n l Hn) as Hle. simpl Nat.add in Hle.
  destruct n as [|m]; [lia|]. unfold unit_weight in Hle.
  assert (2 ^ 62 <= 2 ^ Z.of_nat m) by (apply Z.pow_le_mono_r; lia). nia.
Qed.
End Weight.

Section Invariant.
Context {X C : Type} (extra_bytes : X -> Z) (on_value_ref : X -> PageRef -> IO C unit).
Context (c : TreeConfig) (filter : option (list byte -> Result (list byte))).

(** Whether an internal page is known to hold two separators, whichever two of
    the keys pushed; the height is bounded then. *)
Context (short : Prop).

Abbreviation layout := (tc_layout c).
Abbreviation page_size := (tc_page_size c).
Abbreviation digest := (ke_digest (tc_encoding c)).
Abbreviation W := (TreeWriter X C).

Record config_ok : Prop := {
  cf_layout : layout_ok layout;
  cf_size : MIN_PAGE_SIZE <= page_size <= i32_max;
  cf_compact : compact_meta layout = true -> page_size <= MAX_COMPACT_PAGE_SIZE;
  cf_digest : forall key d, digest key = Ok d -> 0 <= d <= u64_max;
}.

(** A key that passed the checks of [push]. *)
Record key_fits (key : list byte) : Prop := {
  kf_len : zlen key <= u16_max;
  kf_page : entry_area Leaf layout 1 (zlen (stored_key c key)) <= page_size;
  kf_digest : exists d, digest key = Ok d;
  kf_short : short -> entry_area Internal layout 2 (zlen (stored_key c key)) <= page_size;
}.

(** What a page has for two separators. *)
Definition separators_room : Z :=
  page_size - PAGE_PREFIX_LEN - default 0 (meta_area_size Internal layout 2) - 8 * digest_slots layout 2.

(** What the caller asks of an extra, and keeps true of its own state:
    [caller_ok j] when it can take [j] more. *)
Context (extra_ok : X -> Prop) (caller_ok : nat -> C -> Prop).

Record level_ok (n : nat) (pos : Z) (l : Level X) : Prop := {
  lk_fits : exists items m, page_fits layout (Nat.eqb n 0) l items m page_size;
  lk_first : 0 < level_count l -> exists key, lv_first_key l = Some key /\ key_fits key;
  lk_prev : forall o, lv_prev_offset l = Some o -> 0 <= o /\ o + PAGE_PREFIX_LEN <= pos;
  lk_extras : (length (lv_extras l) <= length (lv_sizes l))%nat /\ Forall extra_ok (lv_extras l);
  lk_short : short -> n <> 0%nat -> level_count l = 1 -> 2 * zlen (lv_payload l) <= separators_room;
}.

(** How many extras wait for the page of their entry. *)
Definition pending (w : W) : nat := length (default [] (lv_extras <$> tw_levels w !! 0%nat)).

(** The caller can take the extras that wait, and [room] more. *)
Record writer_ok (room : nat) (w : W) : Prop := {
  wk_sink : exists a, sink_holds (tw_sink w) a;
  wk_filter : sk_filter (tw_sink w) = filter;
  wk_levels : forall n l, tw_levels w !! n = Some l -> level_ok n (sk_pos (tw_sink w)) l;
  wk_count : (1 <= length (tw_levels w) <= 64)%nat;
  wk_caller : exists j, (room + pending w <= j)%nat /\ caller_ok j (tw_caller w);
}.

(** How the writer may stop, I/O errors aside: a limit of the format, the
    filter, the encoding or the caller refuses, or the tree is too high, which
    keys short enough rule out. *)
Context (caller_stops : Stop -> Prop).

Definition writer_stops (e : Stop) : Prop :=
  caller_stops e \/ exists e', e = Failed e' /\
    (e' = Error_new ValueTooLarge \/ (exists page, stored_page filter page = Err e') \/
     (exists key, digest key = Err e') \/ (e' = Error_too_high /\ ~ short)).

Context (Hc : config_ok).
Context (Hcaller : forall j extra r s, extra_ok extra -> caller_ok (S j) s -> wp (on_value_ref extra r) (fun _ s' => caller_ok j s') caller_stops s).

Lemma caller_writer_stops e : caller_stops e -> writer_stops e.
Proof. now left. Qed.

(** ** Levels *)

Lemma wp_get_level i (w : W) (Q : Level X -> W -> Prop) B :
  (exists l, tw_levels w !! i = Some l /\ Q l w) -> wp (get_level i) Q B w.
Proof. intros (l & Hl & HQ). unfold get_level. wp_run. apply wp_expect. eauto. Qed.

Lemma wp_on_level i f (w : W) (Q : unit -> W -> Prop) B :
  (exists l, tw_levels w !! i = Some l /\ Q tt (set_levels (<[i := f l]> (tw_levels w)) w)) ->
  wp (on_level i f) Q B w.
Proof.
  intros (l & Hl & HQ). unfold on_level. apply wp_bind, wp_get_level. exists l. split; [exact Hl|].
  now apply wp_update.
Qed.

Lemma wp_areas n (w : W) B :
  0 <= n <= 2 ^ 32 ->
  exists ml mi, leaf_meta_size layout n = Some ml /\ internal_meta_size layout n = Some mi /\
    (forall Q : Z -> W -> Prop, Q ml w -> wp (tw_leaf_meta c n) Q B w) /\
    (forall Q : Z -> W -> Prop, Q mi w -> wp (tw_internal_meta c n) Q B w) /\
    (forall Q : Z -> W -> Prop, Q (8 * digest_slots layout n) w -> wp (tw_digest_area c n) Q B w).
Proof.
  intros Hn. destruct (areas_some layout n Hn) as (ml & mi & Hl & Hi & Hd). exists ml, mi.
  split_and!; auto; intros Q HQ; apply wp_expect; eauto.
Qed.

Lemma level_ok_count n pos l :
  level_ok n pos l -> exists items m, page_fits layout (Nat.eqb n 0) l items m page_size /\
    level_count l = zlen items /\ 0 <= zlen items <= i32_max.
Proof.
  intros [(items & m & Hf) _ _ _ _]. exists items, m. split; [exact Hf|].
  split; [exact (level_holds_count _ _ (pf_holds _ _ _ _ _ _ Hf))|].
  now destruct (written_bounds _ _ _ _ _ _ Hf).
Qed.

Lemma level_ok_pos n pos pos' l : pos <= pos' -> level_ok n pos l -> level_ok n pos' l.
Proof. intros Hp [Hf Hk Hv He Hs]. constructor; auto. intros o Ho. specialize (Hv o Ho). lia. Qed.

Lemma level_ok_reset n pos l ordinal offset :
  level_ok n pos l -> page_ordinal_ok ordinal -> 0 <= offset -> offset + PAGE_PREFIX_LEN <= pos ->
  level_ok n pos (set_prev ordinal offset (Level_reset l)).
Proof.
  intros Hl Ho Hoff Hp. constructor; simpl.
  - exists []. apply page_fits_empty; [apply Hc..|]. intros p [= <-]. exact Ho.
  - unfold level_count. intros H.
    exfalso. revert H. apply Z.lt_irrefl.
  - intros o [= <-]. lia.
  - split; [lia | constructor].
  - unfold level_count. simpl. discriminate.
Qed.

Lemma level_ok_set_first n pos l key :
  level_ok n pos l -> key_fits key -> level_ok n pos (set_first_key key l).
Proof.
  intros [(items & m & [? [] ? ? ? ? ? ?]) Hk Hv He Hs] Hkey. constructor; simpl; auto; [|eauto].
  exists items, m. constructor; auto. constructor; auto.
Qed.

Lemma level_ok_new n pos : level_ok n pos Level_new.
Proof.
  constructor; simpl.
  - exists []. apply page_fits_empty; [apply Hc..|]. intros p [=].
  - unfold level_count. intros H.
    exfalso. revert H. apply Z.lt_irrefl.
  - intros o [=].
  - split; [lia | constructor].
  - unfold level_count. simpl. discriminate.
Qed.

Lemma level_ok_clear n pos l : level_ok n pos l -> level_ok n pos (clear_extras l).
Proof.
  intros [(items & m & [? [] ? ? ? ? ? ?]) Hk Hv He Hs]. constructor; simpl; auto; [|split; [lia | constructor]].
  exists items, m. constructor; auto. constructor; auto.
Qed.

(** What an entry needs on top of what the level holds. *)
Definition needs (n : nat) (l : Level X) (entry_len : Z) : Z :=
  PAGE_PREFIX_LEN
  + default 0 (meta_area_size (node_kind (Nat.eqb n 0)) layout (level_count l + 1))
  + 8 * digest_slots layout (level_count l + 1) + zlen (lv_payload l) + entry_len.

Lemma level_ok_add n pos l it extras :
  level_ok n pos l -> item_ok layout (Nat.eqb n 0) it ->
  (exists key, lv_first_key l = Some key /\ key_fits key) ->
  needs n l (zlen (it_key it) + zlen (it_value it)) <= page_size -> (length extras <= 1)%nat -> Forall extra_ok extras ->
  (short -> n <> 0%nat -> 2 * (zlen (it_key it) + zlen (it_value it)) <= separators_room) ->
  level_ok n pos (level_add (it_digest it) (it_key it) (it_value it) (it_blob it) extras l).
Proof.
  intros Hl Hit Hk Hn Hx Hxs Hsh. destruct (level_ok_count _ _ _ Hl) as (items & m & Hf & Hcount & Hr).
  destruct (areas_some layout (zlen items + 1) ltac:(fmt_lia)) as (ml & mi & Hml & Hmi & _).
  unfold needs in Hn. rewrite Hcount in Hn.
  constructor; simpl; [|exact (fun _ => Hk)|exact (lk_prev _ _ _ Hl)| |].
  - exists (items ++ [it]), (if Nat.eqb n 0 then ml else mi). apply (page_fits_add _ _ _ _ m); auto.
    + destruct (Nat.eqb n 0); simpl; assumption.
    + destruct (Nat.eqb n 0); simpl in *; rewrite ?Hml, ?Hmi in Hn; simpl in Hn; lia.
  - destruct (lk_extras _ _ _ Hl) as [Hle Hall]. rewrite !length_app. simpl. split; [lia | now apply Forall_app].
  - intros Hs Hn0 Hone. unfold level_count in Hone, Hcount. simpl in Hone. rewrite zlen_app in Hone.
    assert (items = []) as -> by (apply nil_length_inv; unfold zlen in *; simpl in Hone; lia).
    rewrite (lh_payload _ _ (pf_holds _ _ _ _ _ _ Hf)). simpl. rewrite zlen_app. exact (Hsh Hs Hn0).
Qed.
(** ** The state *)

Abbreviation pos w := (sk_pos (tw_sink w)).
Abbreviation weighs w := (weight (tw_levels w)).

Section Room.
Context (room : nat).
Abbreviation w_ok := (writer_ok room).


Lemma writer_ok_sink (w : W) s a :
  w_ok w -> sink_holds s a -> sk_filter s = filter -> pos w <= zlen (ss_bytes a) ->
  w_ok (set_sink s w).
Proof.
  intros [Hs Hf Hl Hn Hk] Ha Hsf Hp. constructor; simpl; auto; [eauto|].
  intros n l Hln. eapply level_ok_pos; [|eauto]. rewrite (so_pos _ _ Ha). exact Hp.
Qed.

Lemma pending_level (w : W) i (l l0 : Level X) :
  tw_levels w !! i = Some l0 -> (length (lv_extras l) <= length (lv_extras l0))%nat ->
  (pending (set_levels (<[i := l]> (tw_levels w)) w) <= pending w)%nat.
Proof.
  intros Hi Hx. unfold pending. simpl. destruct i as [|i].
  - rewrite list_lookup_insert_eq by (now apply lookup_lt_Some in Hi). rewrite Hi. exact Hx.
  - now rewrite list_lookup_insert_ne.
Qed.

Lemma writer_ok_level (w : W) i l l0 :
  w_ok w -> level_ok i (pos w) l -> tw_levels w !! i = Some l0 -> (length (lv_extras l) <= length (lv_extras l0))%nat ->
  w_ok (set_levels (<[i := l]> (tw_levels w)) w).
Proof.
  intros [Hs Hf Hl Hn (j & Hj & Hk)] Hi Hl0 Hx. constructor; simpl; auto; [|now rewrite length_insert|].
  - intros n l' Hln. apply list_lookup_insert_Some in Hln as [(-> & -> & _)|(Hne & Hln)]; auto.
  - exists j. split; [|exact Hk]. pose proof (pending_level w i l l0 Hl0 Hx). lia.
Qed.

Lemma wp_on_sink {A} (m : IO PageSink A) a Qs Bs Q (B : Stop -> Prop) (w : W) :
  sink_holds (tw_sink w) a -> refines m (tw_sink w) Qs Bs ->
  (forall r a' s, Qs r a' -> sink_holds s a' -> sk_filter s = sk_filter (tw_sink w) -> Q r (set_sink s w)) ->
  (forall e, Bs e -> B e) -> wp (on_sink m) Q B w.
Proof.
  intros Ha Hm HQ HB. apply wp_zoom. eapply wp_mono; [exact Hm | | exact HB].
  intros r s (a' & Hq & Hs & Hf). eauto.
Qed.

Lemma too_large_stops e : too_large e -> writer_stops e.
Proof. intros ->. right. eauto 6. Qed.

Lemma zlen_stored_page page stored :
  PAGE_PREFIX_LEN <= zlen page -> stored_page filter page = Ok stored -> PAGE_PREFIX_LEN <= zlen stored.
Proof.
  intros Hp. unfold stored_page. destruct filter as [encode|]; [|intros [= <-]; exact Hp].
  intros H. inv_ok. rewrite zlen_app, zlen_splice; [|lia|].
  - rewrite zlen_take by fmt_lia. pose proof (zlen_nonneg v). lia.
  - rewrite zlen_take by fmt_lia. rewrite zlen_i32_le. fmt_lia.
Qed.

(** Starting a page, and writing one of at least a prefix. *)
Lemma begin_page_ok (w : W) Q :
  w_ok w ->
  (forall ordinal s, page_ordinal_ok ordinal -> 0 <= pos w -> sk_pos s = pos w ->
     w_ok (set_sink s w) -> Q (ordinal, pos w) (set_sink s w)) ->
  wp (on_sink begin_page) Q writer_stops w.
Proof.
  intros Hw HQ. destruct (wk_sink _ _ Hw) as [a Ha].
  eapply wp_on_sink; [exact Ha | exact (begin_page_refines _ _ Ha) | | exact too_large_stops].
  intros r a' s (-> & Hr & ->) Hs Hf. pose proof (so_pos _ _ Ha) as Hp. pose proof (so_pos _ _ Hs) as Hp'.
  simpl in Hp', Hr. rewrite <- Hp. apply HQ.
  - unfold page_ordinal_ok. pose proof (zlen_nonneg (ss_offsets a)). fmt_lia.
  - rewrite Hp. apply zlen_nonneg.
  - congruence.
  - eapply writer_ok_sink; [exact Hw | exact Hs | rewrite Hf; apply Hw | simpl; lia].
Qed.

Lemma write_page_ok (w : W) page Q :
  w_ok w -> PAGE_PREFIX_LEN <= zlen page <= usize_max ->
  (forall s, pos w + PAGE_PREFIX_LEN <= sk_pos s -> w_ok (set_sink s w) -> Q tt (set_sink s w)) ->
  wp (on_sink (write_page page)) Q writer_stops w.
Proof.
  intros Hw Hlen HQ. destruct (wk_sink _ _ Hw) as [a Ha].
  eapply wp_on_sink; [exact Ha | apply (write_page_refines _ _ _ Ha); lia | |].
  - intros [] a' s (stored & Hst & ->) Hs Hf. rewrite (wk_filter _ _ Hw) in Hst, Hf.
    apply zlen_stored_page in Hst; [|lia]. pose proof (so_pos _ _ Hs) as Hp. pose proof (so_pos _ _ Ha) as Hp0.
    simpl in Hp. rewrite zlen_app in Hp. apply HQ; [lia|].
    eapply writer_ok_sink; [exact Hw | exact Hs | exact Hf |]. simpl. rewrite zlen_app.
    pose proof (zlen_nonneg stored). lia.
  - intros e (e' & -> & He). rewrite (wk_filter _ _ Hw) in He. right. eauto 8.
Qed.

(** Patching the sibling pointer of a page that is in the file. *)
Lemma patch_sibling_ok (w : W) prev ordinal Q :
  w_ok w -> 0 <= prev -> prev + PAGE_PREFIX_LEN <= pos w ->
  (forall s, sk_pos s = pos w -> w_ok (set_sink s w) -> Q tt (set_sink s w)) ->
  wp (on_sink (patch_at (prev + RIGHT_SIBLING_OFFSET) (i64_le ordinal))) Q writer_stops w.
Proof.
  intros Hw Hp0 Hp HQ. destruct (wk_sink _ _ Hw) as [a Ha]. pose proof (so_pos _ _ Ha) as Hpos.
  assert (0 <= prev + RIGHT_SIBLING_OFFSET) by fmt_lia.
  assert (prev + RIGHT_SIBLING_OFFSET + zlen (i64_le ordinal) <= zlen (ss_bytes a)) as Hin
    by (rewrite zlen_i64_le; fmt_lia).
  eapply wp_on_sink; [exact Ha | apply (patch_at_refines _ _ Ha _ _ never); assumption | | intros e []].
  intros [] a' s -> Hs Hf. rewrite (wk_filter _ _ Hw) in Hf. pose proof (so_pos _ _ Hs) as Hp'.
  simpl in Hp'. rewrite zlen_splice in Hp' by assumption. apply HQ; [congruence|].
  eapply writer_ok_sink; [exact Hw | exact Hs | exact Hf |]. simpl. rewrite zlen_splice by assumption. lia.
Qed.

(** ** Flushing a page *)

Lemma hand_on_ok ordinal sizes overflow extras : forall i offset (w : W) Q,
  (i + length extras <= length sizes)%nat -> length overflow = length sizes -> Forall extra_ok extras ->
  forall j, caller_ok (length extras + j) (tw_caller w) -> (forall s, caller_ok j s -> Q tt (set_caller s w)) ->
  wp (hand_on on_value_ref ordinal sizes overflow i offset extras) Q writer_stops w.
Proof.
  induction extras as [|x extras IH]; intros i offset w Q Hi Ho Hxs j Hk HQ; cbn [hand_on].
  { wp_run. destruct w. now apply HQ. }
  simpl in Hi. destruct (lookup_lt_is_Some_2 sizes i) as [[k' p] Hs]; [lia|].
  destruct (lookup_lt_is_Some_2 overflow i) as [r Hr]; [lia|].
  apply wp_bind, wp_expect. exists (k', p). split; [exact Hs|].
  apply wp_bind, wp_expect. exists r. split; [exact Hr|].
  apply wp_bind, wp_zoom. eapply wp_mono; [exact (Hcaller _ _ _ _ (Forall_inv Hxs) Hk) | | exact caller_writer_stops].
  intros [] s Hk'. apply IH with (j := j); [lia | exact Ho | exact (Forall_inv_tail Hxs) | exact Hk' |]. intros s'. exact (HQ s').
Qed.

(** The areas of the page [flush_page] writes. *)
Lemma wp_page_areas n (l : Level X) items m (w : W) Q :
  page_fits layout (Nat.eqb n 0) l items m page_size -> level_count l = zlen items ->
  (forall Q' : Z -> W -> Prop, Q' (8 * digest_slots layout (zlen items)) w ->
     wp (tw_digest_area c (level_count l)) Q' writer_stops w) /\
  (Q m w -> wp (if Nat.eqb n 0 then tw_leaf_meta c (level_count l) else tw_internal_meta c (level_count l))
    Q writer_stops w).
Proof.
  intros Hf ->. destruct (written_bounds _ _ _ _ _ _ Hf) as (Hn & _).
  destruct (areas_some layout (zlen items) ltac:(fmt_lia)) as (ml & mi & Hml & Hmi & Hd).
  pose proof (pf_meta _ _ _ _ _ _ Hf) as Hm. split; [intros Q' HQ; apply wp_expect; eauto|].
  intros HQ. destruct (Nat.eqb n 0); simpl in Hm; apply wp_expect; eauto.
Qed.

(** [flush_page] writes the page [PageWriter] describes, so it reads back. *)
Lemma flush_page_ok level ordinal (w : W) l Q :
  w_ok w -> tw_levels w !! level = Some l ->
  (forall w', w_ok w' -> pos w + PAGE_PREFIX_LEN <= pos w' ->
     tw_levels w' = <[level := if Nat.eqb level 0 then clear_extras l else l]> (tw_levels w) ->
     Q tt w') ->
  wp (flush_page on_value_ref c level ordinal) Q writer_stops w.
Proof.
  intros Hw Hl HQ. pose proof (wk_levels _ _ Hw level l Hl) as Hlv.
  destruct (level_ok_count _ _ _ Hlv) as (items & m & Hf & Hcount & Hr).
  pose proof (zlen_written_page _ _ _ _ _ _ Hf None) as Hz. rewrite <- (page_bytes_written _ _ _ _ _ _ Hf) in Hz.
  destruct (written_bounds _ _ _ _ _ _ Hf) as (_ & Hs & Hm & Hp & Hlen & Hlim).
  unfold written_len, written_payload_base, written_meta_base, DIGEST_BASE in *.
  unfold flush_page. apply wp_bind, wp_get_level. exists l. split; [exact Hl|]. cbv zeta.
  apply wp_bind, (proj1 (wp_page_areas level l items m w (fun _ _ => True) Hf Hcount)).
  apply wp_bind. eapply wp_mono; [apply (proj2 (wp_page_areas level l items m w (fun r w' => r = m /\ w' = w) Hf Hcount)); auto| |auto].
  intros ? ? [-> ->]. apply wp_if; intros Hbig; [lia|].
  apply wp_bind, write_page_ok; [exact Hw | rewrite Hz; fmt_lia |]. intros s Hs' Hw'.
  destruct (Nat.eqb level 0) eqn:Hleaf.
  - apply wp_bind, wp_on_level. exists l. split; [exact Hl|]. apply wp_bind, wp_update.
    apply Nat.eqb_eq in Hleaf as ->. destruct (wk_caller _ _ Hw') as (j & Hj & Hk). unfold pending in Hj. simpl in Hj. rewrite Hl in Hj. simpl in Hj.
    apply (hand_on_ok ordinal (lv_sizes l) (lv_overflow l) (lv_extras l) 0 _ _ _) with (j := (j - length (lv_extras l))%nat).
    + pose proof (proj1 (lk_extras _ _ _ Hlv)). lia.
    + pose proof (pf_holds _ _ _ _ _ _ Hf) as [_ Hsz Hov _]. rewrite Hsz, Hov, !length_fmap. reflexivity.
    + exact (proj2 (lk_extras _ _ _ Hlv)).
    + simpl. now replace (length (lv_extras l) + (j - length (lv_extras l)))%nat with j by lia.
    + intros s'' Hk'. apply HQ; [|exact Hs'|reflexivity].
      destruct (writer_ok_level _ 0 (clear_extras l) l Hw') as [H1 H2 H3 H4 _]; [apply level_ok_clear, (wk_levels _ _ Hw' 0%nat l Hl) | exact Hl | simpl; lia |].
      constructor; [exact H1 | exact H2 | exact H3 | exact H4|]. exists (j - length (lv_extras l))%nat. split; [|exact Hk'].
      unfold pending. simpl. rewrite list_lookup_insert_eq by (now apply lookup_lt_Some in Hl). simpl. lia.
  - apply wp_ret. apply HQ; [exact Hw' | exact Hs' |]. symmetry. now apply list_insert_id.
Qed.

(** ** Rotating a level *)

(** What an internal page needs for one more separator. *)
Lemma wp_internal_needs n l len (w : W) Q :
  tw_levels w !! S n = Some l -> level_ok (S n) (pos w) l ->
  Q (needs (S n) l (len + 8)) w -> wp (internal_needs c (S n) len) Q writer_stops w.
Proof.
  intros Hl Hlv HQ. destruct (level_ok_count _ _ _ Hlv) as (items & m & Hf & Hcount & Hr).
  unfold internal_needs. apply wp_bind, wp_get_level. exists l. split; [exact Hl|].
  destruct (wp_areas (level_count l + 1) w writer_stops ltac:(rewrite Hcount; fmt_lia))
    as (ml & mi & Hml & Hmi & _ & Hi & Hd).
  apply wp_bind, Hi, wp_bind, Hd, wp_ret. unfold needs in HQ. simpl in HQ. rewrite Hmi in HQ. simpl in HQ.
  now rewrite !Z.add_assoc in HQ.
Qed.

(** An empty level has room for a key that passed the checks of [push]. *)
Lemma needs_empty n pos' l key :
  level_ok (S n) pos' l -> level_count l = 0 -> key_fits key ->
  needs (S n) l (zlen (stored_key c key) + 8) <= page_size.
Proof.
  intros Hlv Hz Hk. destruct (level_ok_count _ _ _ Hlv) as (items & m & Hf & Hcount & Hr).
  assert (items = []) as ->.
  { apply nil_length_inv. unfold zlen in Hcount. lia. }
  pose proof (pf_holds _ _ _ _ _ _ Hf) as [Hp _ _ _].
  pose proof (internal_entry_area_le layout (zlen (stored_key c key)) (zlen_nonneg _)).
  pose proof (kf_page _ Hk). unfold needs, entry_area in *. rewrite Hz, Hp.
  change (zlen (items_bytes [])) with 0. change (node_kind (Nat.eqb (S n) 0)) with Internal.
  change (0 + 1) with 1. lia.
Qed.

(** So has an internal page with one separator, where two keys fit. *)
Lemma needs_one n pos' l key :
  short -> level_ok (S n) pos' l -> level_count l = 1 -> key_fits key ->
  needs (S n) l (zlen (stored_key c key) + 8) <= page_size.
Proof.
  intros Hs Hlv Hone Hk. pose proof (lk_short _ _ _ Hlv Hs ltac:(discriminate) Hone) as Hl.
  pose proof (kf_short _ Hk Hs) as Hf. unfold separators_room in Hl. unfold entry_area in Hf. unfold needs.
  rewrite Hone. change (node_kind (Nat.eqb (S n) 0)) with Internal. change (1 + 1) with 2. lia.
Qed.

(** So a level that has to be written for a separator holds two. *)
Lemma full_holds_two n pos' l key :
  short -> level_ok (S n) pos' l -> key_fits key -> page_size < needs (S n) l (zlen (stored_key c key) + 8) ->
  2 <= level_count l.
Proof.
  intros Hs Hlv Hk Hn. pose proof (level_count_nonneg l).
  destruct (decide (level_count l = 0)) as [Hz|]; [pose proof (needs_empty n pos' l key Hlv Hz Hk); lia|].
  destruct (decide (level_count l = 1)) as [Ho|]; [pose proof (needs_one n pos' l key Hs Hlv Ho Hk); lia | lia].
Qed.

(** A written level gives up its weight for one entry of its parent. *)
Record rotated (level : nat) (w w' : W) : Prop := {
  ro_ok : w_ok w';
  ro_level : exists l', tw_levels w' !! level = Some l' /\ level_count l' = 0 /\ lv_prev_ordinal l' <> None;
  ro_below : forall n, (n < level)%nat -> tw_levels w' !! n = tw_levels w !! n;
  ro_grows : (length (tw_levels w) <= length (tw_levels w'))%nat;
  ro_pos : pos w <= pos w';
  ro_weight : short -> forall l, tw_levels w !! level = Some l ->
    weighs w' + level_count l * unit_weight level <= weighs w + unit_weight (S level);
}.


(** The separator of a written page, as the entry the parent gets for it. *)
Lemma separator_item_ok key ordinal d :
  key_fits key -> page_ordinal_ok ordinal -> digest key = Ok d ->
  item_ok layout false (mkItem (stored_key c key) (i64_le ordinal) None d).
Proof.
  intros Hk Ho Hd. constructor; simpl.
  - unfold stored_key. destruct (omitted_keys layout); [vm_compute; discriminate | apply (kf_len _ Hk)].
  - unfold stored_key. now intros ->.
  - apply (cf_digest Hc key d Hd).
  - eauto.
Qed.

(** The tail of [rotate]: the separator goes to the parent and the level starts
    over. *)
Lemma promote_ok level key ordinal offset (w : W) up l Q :
  w_ok w -> tw_levels w !! S level = Some up -> tw_levels w !! level = Some l ->
  key_fits key -> (exists k, lv_first_key up = Some k /\ key_fits k) ->
  needs (S level) up (zlen (stored_key c key) + 8) <= page_size ->
  page_ordinal_ok ordinal -> 0 <= offset -> offset + PAGE_PREFIX_LEN <= pos w ->
  (forall w', rotated level w w' -> Q tt w') ->
  wp (let! digest := lift_result (ke_digest (tc_encoding c) key) in
      let! _ := on_level (S level) (level_add digest (stored_key c key) (i64_le ordinal) None []) in
      on_level level (fun l => set_prev ordinal offset (Level_reset l))) Q writer_stops w.
Proof.
  intros Hw Hup Hl Hkey Hfirst Hneeds Hord Hoff Hpos HQ.
  apply wp_bind, wp_lift_result. destruct (kf_digest _ Hkey) as [d Hd]. rewrite Hd.
  apply wp_bind, wp_on_level. exists up. split; [exact Hup|].
  set (it := mkItem (stored_key c key) (i64_le ordinal) None d).
  assert (level_ok (S level) (pos w) (level_add (it_digest it) (it_key it) (it_value it) (it_blob it) [] up)) as Hup'.
  { apply level_ok_add; [apply (wk_levels _ _ Hw), Hup | now apply separator_item_ok | exact Hfirst | | simpl; lia | constructor |].
    - simpl. rewrite zlen_i64_le. exact Hneeds.
    - intros Hs _. pose proof (kf_short _ Hkey Hs) as Hf. unfold entry_area in Hf. unfold separators_room.
      change (it_key it) with (stored_key c key). change (it_value it) with (i64_le ordinal). rewrite zlen_i64_le. lia. }
  pose proof (writer_ok_level w (S level) _ up Hw Hup' Hup ltac:(simpl; rewrite app_nil_r; lia)) as Hw1.
  apply wp_on_level. exists l. split; [simpl; rewrite list_lookup_insert_ne by lia; exact Hl|].
  apply HQ. constructor.
  - apply (writer_ok_level _ level _ l Hw1); [|simpl; rewrite list_lookup_insert_ne by lia; exact Hl | simpl; lia].
    simpl. apply level_ok_reset; auto. apply (wk_levels _ _ Hw), Hl.
  - exists (set_prev ordinal offset (Level_reset l)). simpl. split_and!; [|reflexivity|discriminate].
    apply list_lookup_insert_eq. rewrite length_insert. apply lookup_lt_Some in Hl. exact Hl.
  - intros n Hn. simpl. now rewrite !list_lookup_insert_ne by lia.
  - simpl. rewrite !length_insert. lia.
  - simpl. lia.
  - intros _ l0 Hl0. rewrite Hl in Hl0. injection Hl0 as <-. simpl.
    rewrite (weight_insert _ level l), (weight_insert _ (S level) up) by (rewrite ?list_lookup_insert_ne by lia; assumption).
    unfold level_count. simpl. rewrite zlen_app. change (zlen (@nil (Z * Z))) with 0.
    match goal with |- context [zlen [?p]] => change (zlen [p]) with 1 end.
    change (2 ^ Z.of_nat level) with (unit_weight (S level)). lia.
Qed.

(** Steps that leave the levels up to [level] alone. *)
Record stays (level : nat) (w w' : W) : Prop := {
  st_ok : w_ok w';
  st_levels : forall n, (n <= level)%nat -> tw_levels w' !! n = tw_levels w !! n;
  st_grows : (length (tw_levels w) <= length (tw_levels w'))%nat;
  st_pos : pos w <= pos w';
  st_weight : short -> weighs w' <= weighs w;
}.

Lemma stays_refl level w : w_ok w -> stays level w w.
Proof. now constructor. Qed.

Lemma stays_trans level w1 w2 w3 : stays level w1 w2 -> stays level w2 w3 -> stays level w1 w3.
Proof.
  intros [H1 H2 H3 H4 Hs1] [H5 H6 H7 H8 Hs2]. constructor; auto; try lia.
  - intros n Hn. rewrite H6, H2 by exact Hn. reflexivity.
  - intros Hs. specialize (Hs1 Hs). specialize (Hs2 Hs). lia.
Qed.

(** The parent of a promoted page: its first key is known. *)
Definition parent_ready (level : nat) (w : W) (up : Level X) : Prop :=
  tw_levels w !! S level = Some up /\ exists k, lv_first_key up = Some k /\ key_fits k.

Lemma set_first_ok level key (w : W) up :
  w_ok w -> tw_levels w !! S level = Some up -> key_fits key ->
  wp (if level_count up =? 0 then on_level (S level) (set_first_key key) else sret tt)
    (fun _ w' => stays level w w' /\
       exists up', parent_ready level w' up' /\ level_count up' = level_count up /\
         lv_payload up' = lv_payload up) writer_stops w.
Proof.
  intros Hw Hup Hkey. destruct (Z.eqb_spec (level_count up) 0) as [Hz|Hnz].
  - apply wp_on_level. exists up. split; [exact Hup|]. split.
    + constructor; simpl; [|intros n Hn; apply list_lookup_insert_ne; lia|rewrite length_insert; lia|lia|].
      2:{ intros _. now rewrite (weight_insert_same _ _ up). }
      apply (writer_ok_level _ _ _ up); [exact Hw | | exact Hup | simpl; lia]. apply level_ok_set_first; [apply (wk_levels _ _ Hw), Hup | exact Hkey].
    + exists (set_first_key key up). split_and!; try reflexivity. split; [|simpl; eauto].
      simpl. apply list_lookup_insert_eq. now apply lookup_lt_Some in Hup.
  - apply wp_ret. split; [now apply stays_refl|]. exists up. split_and!; try reflexivity. split; [exact Hup|].
    apply (lk_first _ _ _ (wk_levels _ _ Hw _ _ Hup)).
    pose proof (zlen_nonneg (lv_sizes up)). unfold level_count in *. lia.
Qed.

(** The parent level exists, or is made. *)
Lemma parent_level_ok level (w : W) :
  w_ok w -> (level < length (tw_levels w))%nat ->
  (short -> length (tw_levels w) = S level -> (level < 63)%nat) ->
  wp (if (length (tw_levels w) <=? S level)%nat then
        fail! MAX_LEVELS <=? Z.of_nat (length (tw_levels w)) with Failed Error_too_high in
        update (fun w => set_levels (tw_levels w ++ [Level_new]) w)
      else sret tt)
    (fun _ w' => stays level w w' /\ exists up, tw_levels w' !! S level = Some up) writer_stops w.
Proof.
  intros Hw Hlen Hlow. destruct (Nat.leb_spec (length (tw_levels w)) (S level)) as [Hle|Hgt].
  - assert (length (tw_levels w) = S level) as Heq by lia. apply wp_if; intros Hmax; [|clear Hle].
    { unfold MAX_LEVELS in Hmax. apply wp_fail. right. exists Error_too_high. split; [reflexivity|]. do 3 right.
      split; [reflexivity|]. intros Hs. specialize (Hlow Hs Heq). lia. }
    unfold MAX_LEVELS in Hmax. apply wp_update. split.
    + constructor; simpl; [|intros n Hn; apply lookup_app_l; lia|rewrite length_app; simpl; lia|lia|].
      2:{ intros _. now rewrite weight_from_app. }
      destruct Hw as [H1 H2 H3 H4 H5]. constructor; [exact H1 | exact H2 | | simpl; rewrite length_app; simpl; lia |].
      2:{ destruct H5 as (j & Hj & Hk). exists j. split; [|exact Hk]. unfold pending in *. simpl. rewrite lookup_app_l by lia. exact Hj. }
      simpl. intros n l Hn. apply lookup_app_Some in Hn as [Hn|[Hn Hn']]; [auto|].
      apply list_lookup_singleton_Some in Hn' as [_ <-]. apply level_ok_new.
    + exists Level_new. simpl. rewrite lookup_app_r by lia. now rewrite Heq, Nat.sub_diag.
  - apply wp_ret. split; [now apply stays_refl|]. now apply lookup_lt_is_Some_2.
Qed.

(** The first half of [rotate]: the page is written and the sibling before it
    patched. *)
Lemma write_level_ok {A} level (w : W) l (k : PageOrdinal -> Z -> IO W A) Q :
  w_ok w -> tw_levels w !! level = Some l ->
  (forall ordinal w' l', page_ordinal_ok ordinal -> w_ok w' ->
     tw_levels w' !! level = Some l' -> lv_first_key l' = lv_first_key l ->
     level_count l' = level_count l -> weighs w' = weighs w ->
     (forall n, (n < level)%nat -> tw_levels w' !! n = tw_levels w !! n) ->
     length (tw_levels w') = length (tw_levels w) -> 0 <= pos w -> pos w + PAGE_PREFIX_LEN <= pos w' ->
     wp (k ordinal (pos w)) Q writer_stops w') ->
  wp (let! '(ordinal, offset) := on_sink begin_page in
      let! _ := flush_page on_value_ref c level ordinal in
      let! state := get_level level in
      let! _ := match lv_prev_offset state with
                | Some prev_offset =>
                    on_sink (patch_at (prev_offset + RIGHT_SIBLING_OFFSET) (i64_le ordinal))
                | None => sret tt
                end in
      k ordinal offset) Q writer_stops w.
Proof.
  intros Hw Hl HQ.
  apply wp_bind, begin_page_ok; [exact Hw|]. intros ordinal s1 Hord Hpos0 Hs1 Hw1.
  apply wp_bind, (flush_page_ok level _ _ l); [exact Hw1 | exact Hl |]. intros w2 Hw2 Hp2 Hl2.
  simpl in Hp2, Hl2. rewrite Hs1 in Hp2.
  set (l2 := if Nat.eqb level 0 then clear_extras l else l) in *.
  assert (tw_levels w2 !! level = Some l2) as Hll2.
  { rewrite Hl2. apply list_lookup_insert_eq. now apply lookup_lt_Some in Hl. }
  assert (forall n, (n < level)%nat -> tw_levels w2 !! n = tw_levels w !! n) as Hbelow.
  { intros n Hn. rewrite Hl2. apply list_lookup_insert_ne. lia. }
  assert (length (tw_levels w2) = length (tw_levels w)) as Hlen2 by (rewrite Hl2; apply length_insert).
  assert (lv_first_key l2 = lv_first_key l) as Hfk by (unfold l2; now destruct (Nat.eqb level 0)).
  assert (level_count l2 = level_count l) as Hc2 by (unfold l2; now destruct (Nat.eqb level 0)).
  assert (weighs w2 = weighs w) as Hwt by (rewrite Hl2; now apply (weight_insert_same _ _ l)).
  apply wp_bind, wp_get_level. exists l2. split; [exact Hll2|].
  pose proof (lk_prev _ _ _ (wk_levels _ _ Hw2 level l2 Hll2)) as Hprev.
  destruct (lv_prev_offset l2) as [o|].
  - destruct (Hprev o eq_refl) as [Ho1 Ho2]. apply wp_bind, patch_sibling_ok; [exact Hw2 | exact Ho1 | exact Ho2 |].
    intros s Hs Hws. apply (HQ ordinal _ l2); auto. simpl. lia.
  - apply wp_bind, wp_ret. now apply (HQ ordinal _ l2).
Qed.

(** Making room in the parent. *)
Lemma make_room_ok level key (w : W) up fuel :
  ((short -> 2 <= level_count up) -> forall Q, (forall w', rotated (S level) w w' -> Q tt w') ->
     wp (rotate on_value_ref c fuel (S level) true) Q writer_stops w) ->
  w_ok w -> parent_ready level w up -> key_fits key ->
  wp (if page_size <? needs (S level) up (zlen (stored_key c key) + 8) then
        let! _ := rotate on_value_ref c fuel (S level) true in
        let! up := get_level (S level) in
        if level_count up =? 0 then on_level (S level) (set_first_key key) else sret tt
      else sret tt)
    (fun _ w' => stays level w w' /\ exists up', parent_ready level w' up' /\
       needs (S level) up' (zlen (stored_key c key) + 8) <= page_size) writer_stops w.
Proof.
  intros IH Hw Hup Hkey. apply wp_if; intros Hn.
  - assert (short -> 2 <= level_count up) as Htwo.
    { intros Hs. apply (full_holds_two level (pos w) up key Hs); [apply (wk_levels _ _ Hw), Hup | exact Hkey | lia]. }
    apply wp_bind, (IH Htwo). intros w1 [Hw1 (up1 & Hup1 & Hz & _) Hb Hg Hp Hwt].
    apply wp_bind, wp_get_level. exists up1. split; [exact Hup1|].
    eapply wp_mono; [apply (set_first_ok level key w1 up1 Hw1 Hup1 Hkey)| |auto].
    intros [] w2 (Hst & up2 & Hready & Hc2 & Hp2). split.
    + eapply stays_trans; [|exact Hst]. constructor; auto; [intros n Hle; apply Hb; lia|].
      intros Hs. specialize (Hwt Hs up (proj1 Hup)). specialize (Htwo Hs). rewrite unit_weight_SS in Hwt.
      pose proof (unit_weight_pos (S level)). nia.
    + exists up2. split; [exact Hready|]. destruct Hready as [Hup2 _].
      eapply needs_empty; [apply (wk_levels _ _ (st_ok _ _ _ Hst)), Hup2 | congruence | exact Hkey].
  - apply wp_ret. split; [now apply stays_refl|]. exists up. split; [exact Hup | lia].
Qed.

Lemma rotated_stays level w w1 w2 :
  (forall n, (n < level)%nat -> tw_levels w1 !! n = tw_levels w !! n) ->
  (length (tw_levels w) <= length (tw_levels w1))%nat -> pos w <= pos w1 ->
  (short -> weighs w1 <= weighs w /\ forall l, tw_levels w !! level = Some l ->
     exists l1, tw_levels w1 !! level = Some l1 /\ level_count l1 = level_count l) ->
  rotated level w1 w2 -> rotated level w w2.
Proof.
  intros Hb Hg Hp Hwt [H1 H2 H3 H4 H5 H6]. constructor; auto; try lia.
  - intros n Hn. rewrite H3, Hb by exact Hn. reflexivity.
  - intros Hs l Hl. destruct (Hwt Hs) as [Hle Hsame]. destruct (Hsame l Hl) as (l1 & Hl1 & Hc1).
    specialize (H6 Hs l1 Hl1). rewrite Hc1 in H6. lia.
Qed.

(** Without promotion the page is written and the level starts over. *)
Lemma rotate_last_ok fuel level (w : W) l Q :
  w_ok w -> tw_levels w !! level = Some l ->
  (forall w', rotated level w w' -> length (tw_levels w') = length (tw_levels w) -> Q tt w') ->
  wp (rotate on_value_ref c (S fuel) level false) Q writer_stops w.
Proof.
  intros Hw Hl HQ. pose proof (lookup_lt_Some _ _ _ Hl) as Hlt.
  cbn [rotate negb]. apply (write_level_ok level w l); [exact Hw | exact Hl |].
  intros ordinal w1 l1 Hord Hw1 Hl1 _ Hcl Hwt Hb1 Hg1 Hpos0 Hp1.
  apply wp_on_level. exists l1. split; [exact Hl1|].
  apply HQ; [constructor|simpl; rewrite length_insert; lia].
  - apply (writer_ok_level _ _ _ l1); [exact Hw1 | | exact Hl1 | simpl; lia]. apply level_ok_reset; [apply (wk_levels _ _ Hw1), Hl1 | exact Hord | lia | lia].
  - exists (set_prev ordinal (pos w) (Level_reset l1)). split_and!; [|reflexivity|discriminate].
    simpl. apply list_lookup_insert_eq. lia.
  - intros n Hn. simpl. rewrite list_lookup_insert_ne by lia. now apply Hb1.
  - simpl. rewrite length_insert. lia.
  - simpl. fmt_lia.
  - intros _ l0 Hl0. rewrite Hl in Hl0. injection Hl0 as <-. simpl.
    rewrite (weight_insert _ level l1) by assumption. rewrite Hcl, Hwt.
    change (level_count (set_prev ordinal (pos w) (Level_reset l1))) with 0.
    pose proof (unit_weight_pos (S level)) as Hu. simpl in Hu. lia.
Qed.

(** [rotate] from any level: it never panics, never runs out of fuel, and leaves
    the level empty with its page in the file. *)
Lemma rotate_ok fuel : forall level promote (w : W) l Q,
  (64 <= fuel + level)%nat -> w_ok w -> tw_levels w !! level = Some l ->
  (promote = true -> exists key, lv_first_key l = Some key /\ key_fits key) ->
  (short -> weighs w < 2 ^ 63 /\ (level <> 0%nat -> length (tw_levels w) = S level -> 2 <= level_count l)) ->
  (forall w', rotated level w w' -> Q tt w') ->
  wp (rotate on_value_ref c fuel level promote) Q writer_stops w.
Proof.
  induction fuel as [|fuel IH]; intros level promote w l Q Hfuel Hw Hl Hfirst Hlight HQ.
  { pose proof (wk_count _ _ Hw). apply lookup_lt_Some in Hl. lia. }
  pose proof (lookup_lt_Some _ _ _ Hl) as Hlt.
  destruct promote; [|apply (rotate_last_ok fuel level w l); auto].
  cbn [rotate negb]. apply (write_level_ok level w l); [exact Hw | exact Hl |].
  intros ordinal w1 l1 Hord Hw1 Hl1 Hfk Hcl Hwt Hb1 Hg1 Hpos0 Hp1.
  destruct (Hfirst eq_refl) as (key & Hkey & Hfits). rewrite Hkey in Hfk.
  apply wp_bind, wp_get_level. exists l1. split; [exact Hl1|].
  apply wp_bind, wp_lift_result. rewrite Hfk. cbn [ok_or].
  apply wp_bind, wp_here.
  apply wp_bind. eapply wp_mono; [apply (parent_level_ok level w1 Hw1); [lia|]| |auto].
  { intros Hs Hlen. destruct (Hlight Hs) as [Hlt63 Htwo]. destruct level as [|n]; [lia|].
    apply (light_is_low (tw_levels w) (S n) l Hl); [apply Htwo; lia | exact Hlt63]. }
  intros [] w2 (Hst2 & up2 & Hup2). apply wp_bind, wp_get_level. exists up2. split; [exact Hup2|].
  apply wp_bind. eapply wp_mono; [apply (set_first_ok level key w2 up2 (st_ok _ _ _ Hst2) Hup2 Hfits)| |auto].
  intros [] w3 (Hst3 & up3 & Hup3 & _). cbv zeta.
  apply wp_bind, (wp_internal_needs level up3); [exact (proj1 Hup3) | apply (wk_levels _ _ (st_ok _ _ _ Hst3)), Hup3 |].
  apply wp_bind. eapply wp_mono;
    [apply (make_room_ok level key w3 up3 fuel) | | auto].
  - intros Htwo Q' HQ'. apply (IH (S level) true w3 up3);
      [lia | exact (st_ok _ _ _ Hst3) | exact (proj1 Hup3) | intros _; exact (proj2 Hup3) | | exact HQ'].
    intros Hs. split; [|intros _ _; exact (Htwo Hs)]. destruct (Hlight Hs).
    pose proof (st_weight _ _ _ Hst2 Hs). pose proof (st_weight _ _ _ Hst3 Hs). lia.
  - exact (st_ok _ _ _ Hst3).
  - exact Hup3.
  - exact Hfits.
  - intros [] w4 (Hst4 & up4 & [Hup4 Hf4] & Hn4).
    pose proof (stays_trans _ _ _ _ (stays_trans _ _ _ _ Hst2 Hst3) Hst4) as [Ho4 Hl4 Hg4 Hp4 Hs4].
    apply (promote_ok level key ordinal (pos w) w4 up4 l1); auto; [rewrite Hl4 by lia; exact Hl1 | lia |].
    intros w5 Hr. apply HQ. eapply rotated_stays; [| | | |exact Hr]; try (fmt_lia || lia).
    + intros n Hn. rewrite Hl4, Hb1 by lia. reflexivity.
    + intros Hs. split; [specialize (Hs4 Hs); lia|]. intros l0 Hl0. rewrite Hl in Hl0. injection Hl0 as <-.
      exists l1. split; [rewrite Hl4 by lia; exact Hl1 | exact Hcl].
Qed.

End Room.

(** ** Pushing an entry *)

Section Push.
(** The caller can take one more than it will have to. *)
Context (room : nat).
Abbreviation w_ok := (writer_ok (S room)).
Context (key value : list byte).
Context (Hklen : zlen key <= u16_max) (Hvlen : zlen value <= i32_max).
Context (Hroom : entry_area Leaf layout 1 (zlen (stored_key c key)) <= page_size).
Context (Htwo : short -> entry_area Internal layout 2 (zlen (stored_key c key)) <= page_size).
(** What the levels weigh at most before the entry is added. *)
Context (most : Z) (Hmost : short -> most < 2 ^ 62).

(** Level 0 waits for the key: it has a first key, or the key is its first. *)
Definition leaf_ready (w : W) (l : Level X) : Prop :=
  w_ok w /\ tw_levels w !! 0%nat = Some l /\
  ((exists k, lv_first_key l = Some k /\ key_fits k) \/
   (level_count l = 0 /\ lv_first_key l = Some key)) /\
  (short -> weighs w <= most).

Lemma leaf_first_ok (w : W) l :
  w_ok w -> tw_levels w !! 0%nat = Some l -> (short -> weighs w <= most) ->
  wp (if level_count l =? 0 then on_level 0 (set_first_key key) else sret tt)
    (fun _ w' => exists l', leaf_ready w' l' /\ level_count l' = level_count l) writer_stops w.
Proof.
  intros Hw Hl Hwt. pose proof (wk_levels _ _ Hw _ _ Hl) as Hlv.
  destruct (Z.eqb_spec (level_count l) 0) as [Hz|Hnz].
  - apply wp_on_level. exists l. split; [exact Hl|]. exists (set_first_key key l).
    split; [|reflexivity]. split; [|split; [|split; [right; split; [exact Hz | reflexivity]|]]].
    + apply (writer_ok_level _ _ _ _ l); [exact Hw | | exact Hl | simpl; lia]. destruct Hlv as [(items & m & [? [] ? ? ? ? ? ?]) Hk Hv He Hsh].
      constructor; simpl; auto; [exists items, m; constructor; auto; constructor; auto |].
      change (level_count (set_first_key key l)) with (level_count l). lia.
    + simpl. apply list_lookup_insert_eq. now apply lookup_lt_Some in Hl.
    + simpl. now rewrite (weight_insert_same _ _ l).
  - apply wp_ret. exists l. split; [|reflexivity]. split; [exact Hw|]. split; [exact Hl|]. split; [left|exact Hwt].
    apply (lk_first _ _ _ Hlv). pose proof (zlen_nonneg (lv_sizes l)). unfold level_count in *. lia.
Qed.

Lemma wp_inline_needs l len vlen (w : W) Q :
  tw_levels w !! 0%nat = Some l -> level_ok 0 (pos w) l ->
  Q (needs 0 l (len + vlen)) w -> wp (inline_needs c len vlen) Q writer_stops w.
Proof.
  intros Hl Hlv HQ. destruct (level_ok_count _ _ _ Hlv) as (items & m & Hf & Hcount & Hr).
  unfold inline_needs. apply wp_bind, wp_get_level. exists l. split; [exact Hl|].
  destruct (wp_areas (level_count l + 1) w writer_stops ltac:(rewrite Hcount; fmt_lia))
    as (ml & mi & Hml & Hmi & Hi & _ & Hd).
  apply wp_bind, Hi, wp_bind, Hd, wp_ret. unfold needs in HQ. simpl in HQ. rewrite Hml in HQ. simpl in HQ.
  now rewrite !Z.add_assoc in HQ.
Qed.

(** An empty leaf has room for the key and an overflow reference. *)
Lemma leaf_needs_empty pos' l :
  level_ok 0 pos' l -> level_count l = 0 -> needs 0 l (zlen (stored_key c key) + 8) <= page_size.
Proof.
  intros Hlv Hz. destruct (level_ok_count _ _ _ Hlv) as (items & m & Hf & Hcount & Hr).
  assert (items = []) as -> by (apply nil_length_inv; unfold zlen in Hcount; lia).
  pose proof (pf_holds _ _ _ _ _ _ Hf) as [Hp _ _ _].
  unfold needs. unfold entry_area in Hroom. rewrite Hz, Hp.
  change (zlen (items_bytes [])) with 0. change (node_kind (Nat.eqb 0 0)) with Leaf.
  change (0 + 1) with 1. lia.
Qed.

(** Deciding between an inline value and an overflow page leaves room for the
    form chosen. *)
Definition room_for (l : Level X) (overflow : bool) : Prop :=
  needs 0 l (zlen (stored_key c key) + if overflow then 8 else zlen value) <= page_size.

Lemma rotate_leaf_ok (w : W) l :
  leaf_ready w l ->
  wp (if (page_size <? needs 0 l (zlen (stored_key c key) + 8)) && (0 <? level_count l) then
        let! _ := rotate on_value_ref c ROTATE_FUEL 0 true in
        let! level := get_level 0 in
        if level_count level =? 0 then on_level 0 (set_first_key key) else sret tt
      else sret tt)
    (fun _ w' => exists l', leaf_ready w' l' /\ room_for l' true) writer_stops w.
Proof.
  intros (Hw & Hl & Hfirst & Hwt). pose proof (wk_levels _ _ Hw _ _ Hl) as Hlv.
  apply wp_if; intros Hb.
  - apply andb_prop in Hb as [_ Hpos]. apply Z.ltb_lt in Hpos.
    apply wp_bind, (rotate_ok (S room) _ 0 true w l); [unfold ROTATE_FUEL; lia | exact Hw | exact Hl | | |].
    { intros _. destruct Hfirst as [Hf|[Hz _]]; [exact Hf | lia]. }
    { intros Hs. specialize (Hwt Hs). specialize (Hmost Hs). lia. }
    intros w1 [Hw1 (l1 & Hl1 & Hz & _) _ _ _ Hwt1].
    assert (short -> weighs w1 <= most) as Hm1.
    { intros Hs. specialize (Hwt1 Hs l Hl). specialize (Hwt Hs). simpl in Hwt1. lia. } apply wp_bind, wp_get_level. exists l1. split; [exact Hl1|].
    eapply wp_mono; [apply (leaf_first_ok w1 l1 Hw1 Hl1 Hm1)| |auto].
    intros [] w2 (l2 & Hr2 & Hc2). exists l2. split; [exact Hr2|].
    destruct Hr2 as (Hw2 & Hl2 & _).
    eapply leaf_needs_empty; [apply (wk_levels _ _ Hw2), Hl2 | congruence].
  - apply wp_ret. exists l. split; [exact (conj Hw (conj Hl (conj Hfirst Hwt)))|]. apply andb_false_iff in Hb as [Hb|Hb].
    + unfold room_for. lia.
    + apply (leaf_needs_empty (pos w)); [exact Hlv|].
      pose proof (zlen_nonneg (lv_sizes l)). unfold level_count in *. lia.
Qed.

Lemma choose_overflow_ok (w : W) l :
  leaf_ready w l ->
  wp (if page_size <? needs 0 l (zlen (stored_key c key) + zlen value) then
        let! overflow_needs := inline_needs c (zlen (stored_key c key)) 8 in
        let! level := get_level 0 in
        let! _ := if (page_size <? overflow_needs) && (0 <? level_count level) then
                    let! _ := rotate on_value_ref c ROTATE_FUEL 0 true in
                    let! level := get_level 0 in
                    if level_count level =? 0 then on_level 0 (set_first_key key) else sret tt
                  else sret tt in
        let! needs := inline_needs c (zlen (stored_key c key)) (zlen value) in
        sret (page_size <? needs)
      else sret false)
    (fun overflow w' => exists l', leaf_ready w' l' /\ room_for l' overflow) writer_stops w.
Proof.
  intros Hr. pose proof Hr as (Hw & Hl & _). apply wp_if; intros Hn.
  - apply wp_bind, (wp_inline_needs l); [exact Hl | apply (wk_levels _ _ Hw), Hl |].
    apply wp_bind, wp_get_level. exists l. split; [exact Hl|].
    apply wp_bind. eapply wp_mono; [exact (rotate_leaf_ok w l Hr)| |auto].
    intros [] w1 (l1 & Hr1 & Hroom1). pose proof Hr1 as (Hw1 & Hl1 & _).
    apply wp_bind, (wp_inline_needs l1); [exact Hl1 | apply (wk_levels _ _ Hw1), Hl1 |].
    apply wp_ret. exists l1. split; [exact Hr1|].
    destruct (Z.ltb_spec page_size (needs 0 l1 (zlen (stored_key c key) + zlen value))); [exact Hroom1|].
    unfold room_for. lia.
  - apply wp_ret. exists l. split; [exact Hr|]. unfold room_for. lia.
Qed.

(** The entry that [push] adds. *)
Lemma push_item_ok (d : Z) blob bytes :
  digest key = Ok d ->
  match blob with
  | Some r => bytes = i64_le (pr_page r) /\ page_ordinal_ok (pr_page r)
  | None => bytes = value /\ zlen value < OVERFLOW_SENTINEL
  end ->
  item_ok layout true (mkItem (stored_key c key) bytes blob d).
Proof.
  intros Hd Hb. constructor; simpl.
  - unfold stored_key. destruct (omitted_keys layout); [vm_compute; discriminate | exact Hklen].
  - unfold stored_key. now intros ->.
  - apply (cf_digest Hc key d Hd).
  - destruct blob as [r|]; [exact Hb|]. destruct Hb as [-> Hb]. exact Hb.
Qed.

Lemma add_entry_ok (w : W) l d blob bytes extra Q :
  extra_ok extra -> leaf_ready w l -> digest key = Ok d ->
  item_ok layout true (mkItem (stored_key c key) bytes blob d) ->
  needs 0 l (zlen (stored_key c key) + zlen bytes) <= page_size ->
  (forall w' l', writer_ok room w' -> tw_levels w' !! 0%nat = Some l' -> 0 < level_count l' ->
     (short -> weighs w' <= most + 1) -> Q tt w') ->
  wp (on_level 0 (level_add d (stored_key c key) bytes blob [extra])) Q writer_stops w.
Proof.
  intros Hx (Hw & Hl & Hfirst & Hwt) Hd Hit Hn HQ. apply wp_on_level. exists l. split; [exact Hl|].
  pose proof (wk_levels _ _ Hw _ _ Hl) as Hlv.
  assert (exists k, lv_first_key l = Some k /\ key_fits k) as Hk.
  { destruct Hfirst as [Hf|[_ Hf]]; [exact Hf|]. exists key. split; [exact Hf|]. constructor; eauto. }
  eapply HQ.
  - destruct Hw as [H1 H2 H3 H4 (j & Hj & Hc5)]. constructor; simpl; [exact H1 | exact H2 | | now rewrite length_insert |].
    + intros n l' Hn'. apply list_lookup_insert_Some in Hn' as [(<- & <- & _)|(_ & Hn')]; [|now apply H3].
      apply (level_ok_add 0 (pos w) l (mkItem (stored_key c key) bytes blob d) [extra]); auto. congruence.
    + exists j. split; [|exact Hc5]. unfold pending in *. simpl. rewrite Hl in Hj. rewrite list_lookup_insert_eq by (now apply lookup_lt_Some in Hl).
      simpl in *. rewrite length_app. simpl. lia.
  - simpl. apply list_lookup_insert_eq. now apply lookup_lt_Some in Hl.
  - unfold level_count. simpl. rewrite zlen_app. pose proof (zlen_nonneg (lv_sizes l)).
    change (zlen [(zlen (stored_key c key), zlen bytes)]) with 1. lia.
  - intros Hs. specialize (Hwt Hs). simpl. rewrite (weight_insert _ 0 l) by exact Hl. unfold level_count. simpl.
    rewrite zlen_app. change (zlen [(zlen (stored_key c key), zlen bytes)]) with 1. lia.
Qed.
End Push.

Lemma write_blob_page_ok room key most value (w : W) l Q :
  zlen value <= i32_max -> leaf_ready room key most w l ->
  (forall ordinal w', page_ordinal_ok ordinal -> leaf_ready room key most w' l -> Q ordinal w') ->
  wp (write_blob_page value) Q writer_stops w.
Proof.
  intros Hv (Hw & Hl & Hfirst) HQ. pose proof (zlen_nonneg value).
  unfold write_blob_page. apply wp_bind, (begin_page_ok (S room)); [exact Hw|]. intros ordinal s1 Hord _ _ Hw1.
  apply wp_bind, (write_page_ok (S room)); [exact Hw1 | rewrite zlen_blob_page; fmt_lia |]. intros s2 _ Hw2.
  apply wp_ret, HQ; [exact Hord|]. split; [exact Hw2|]. split; assumption.
Qed.

Lemma tw_push_ok room key value extra (w : W) :
  extra_ok extra -> writer_ok (S room) w ->
  (short -> weighs w < 2 ^ 62 /\
     (zlen key <= u16_max -> entry_area Internal layout 2 (zlen (stored_key c key)) <= page_size)) ->
  wp (push extra_bytes on_value_ref c key value extra)
    (fun _ w' => writer_ok room w' /\ (short -> weighs w' <= weighs w + 1)) writer_stops w.
Proof.
  intros Hx Hw Hsh. destruct (lookup_lt_is_Some_2 (tw_levels w) 0) as [l0 Hl0]; [apply (wk_count _ _ Hw)|].
  unfold push. apply wp_if; intros Hk; [apply wp_fail, too_large_stops; reflexivity|].
  apply wp_if; intros Hv; [apply wp_fail, too_large_stops; reflexivity|].
  destruct (wp_areas 1 w writer_stops ltac:(lia)) as (ml & mi & Hml & _ & Ha1 & _ & Ha3).
  cbv zeta. apply wp_bind, Ha1, wp_bind, Ha3. apply wp_if; intros Hmin; [apply wp_fail, too_large_stops; reflexivity|].
  assert (zlen key <= u16_max) as Hk' by lia. assert (zlen value <= i32_max) as Hv' by lia. clear Hk Hv.
  assert (entry_area Leaf layout 1 (zlen (stored_key c key)) <= page_size) as Hroom.
  { unfold entry_area. simpl meta_area_size. rewrite Hml. cbn [default from_option]. unfold id. lia. }
  assert (short -> entry_area Internal layout 2 (zlen (stored_key c key)) <= page_size) as Htwo
    by (intros Hs; now apply (Hsh Hs)).
  assert (short -> weighs w < 2 ^ 62) as Hmost by (intros Hs; apply (Hsh Hs)).
  apply wp_bind, wp_get_level. exists l0. split; [exact Hl0|].
  apply wp_bind. eapply wp_mono; [exact (leaf_first_ok room key (weighs w) w l0 Hw Hl0 (fun _ => Z.le_refl _))| |auto].
  intros [] w1 (l1 & Hr1 & _). pose proof Hr1 as (Hw1 & Hl1 & _).
  apply wp_bind, (wp_inline_needs l1); [exact Hl1 | apply (wk_levels _ _ Hw1), Hl1 |].
  apply wp_bind. eapply wp_mono; [exact (choose_overflow_ok room key value Hroom (weighs w) Hmost w1 l1 Hr1)| |auto].
  intros overflow w2 (l2 & Hr2 & Hroom2). apply wp_bind, wp_lift_result.
  destruct (digest key) as [d|e] eqn:Hd; [|right; eauto 8].
  apply wp_bind.
  eapply (wp_mono _ _ _ (fun _ w' => exists l', writer_ok room w' /\ tw_levels w' !! 0%nat = Some l' /\ 0 < level_count l' /\
    (short -> weighs w' <= weighs w + 1)));
    [| |intros e He; exact He].
  - apply wp_if; intros Hov.
    + apply wp_bind, (write_blob_page_ok room key (weighs w) value w2 l2); [exact Hv' | exact Hr2 |].
      intros ordinal w3 Hord Hr3. eapply (add_entry_ok room key Hk' Hroom Htwo (weighs w) w3 l2 d); [exact Hx | exact Hr3 | exact Hd | | |eauto 6].
      * now apply (push_item_ok key value).
      * rewrite zlen_i64_le. unfold room_for in Hroom2. destruct overflow; [exact Hroom2|].
        simpl in Hov. unfold needs in *. fmt_lia.
    + apply orb_false_iff in Hov as [-> Hov]. eapply (add_entry_ok room key Hk' Hroom Htwo (weighs w) w2 l2 d);
        [exact Hx | exact Hr2 | exact Hd | | exact Hroom2 | eauto 6].
      apply (push_item_ok key value); [exact Hk' | exact Hd | split; [reflexivity | lia]].
  - intros [] w3 (l3 & Hw3 & Hl3 & Hc3 & Hwt3). apply wp_bind, wp_update, wp_bind, wp_update, wp_bind, wp_here.
    set (w4 := set_entries _ _).
    assert (writer_ok room w4) as Hw4 by (destruct Hw3; constructor; assumption).
    apply wp_bind, wp_get_level. exists l3. split; [exact Hl3|]. apply wp_if; intros _.
    + apply (rotate_ok room _ 0 true w4 l3); [unfold ROTATE_FUEL; lia | exact Hw4 | exact Hl3 | | |].
      * intros _. exact (lk_first _ _ _ (wk_levels _ _ Hw4 _ _ Hl3) Hc3).
      * intros Hs. specialize (Hwt3 Hs). specialize (Hmost Hs). simpl. split; [lia | congruence].
      * intros w5 [Hw5 _ _ _ _ Hwt5]. split; [exact Hw5|]. intros Hs. specialize (Hwt5 Hs l3 Hl3). specialize (Hwt3 Hs).
        simpl in Hwt5. lia.
    + apply wp_ret. split; [exact Hw4 | exact Hwt3].
Qed.

(** ** Finishing *)

Section Finish.
Context (room : nat).
Abbreviation w_ok := (writer_ok room).

(** Every level below [level] is empty. *)
Definition drained (level : nat) (w : W) : Prop :=
  forall n l, (n < level)%nat -> tw_levels w !! n = Some l -> level_count l = 0.

(** A pass weighs the levels down by no more than the last entry of each level
    is worth to its parent. *)
Lemma finish_pass_ok most fuel : forall level flushed (w : W),
  (65 <= fuel + level)%nat -> w_ok w -> (level < length (tw_levels w))%nat -> drained level w ->
  (short -> most < 2 ^ 62 /\ weighs w < most + unit_weight level) ->
  wp (finish_pass on_value_ref c fuel level flushed)
    (fun _ w' => w_ok w' /\ drained (pred (length (tw_levels w'))) w') writer_stops w.
Proof.
  induction fuel as [|fuel IH]; intros level flushed w Hfuel Hw Hlen Hdr Hwt.
  { pose proof (wk_count _ _ Hw). lia. }
  cbn [finish_pass]. apply wp_bind, wp_here. destruct (Nat.ltb_spec (S level) (length (tw_levels w))) as [Hlt|Hge].
  2:{ apply wp_ret. split; [exact Hw|]. replace (pred (length (tw_levels w))) with level by lia. exact Hdr. }
  destruct (lookup_lt_is_Some_2 (tw_levels w) level) as [l Hl]; [lia|].
  pose proof (level_count_nonneg l) as Hnn. pose proof (unit_weight_S level) as [Hu2 Hu1].
  apply wp_bind, wp_get_level. exists l. split; [exact Hl|].
  apply wp_bind, wp_if; intros Hc0.
  - assert (short -> weighs w < 2 ^ 63) as Hlight.
    { intros Hs. destruct (Hwt Hs) as [Hm Hle]. pose proof (wk_count _ _ Hw) as [_ Hn].
      assert (unit_weight level <= 2 ^ 62); [|lia].
      destruct level as [|n]; [vm_compute; discriminate|]. apply Z.pow_le_mono_r; lia. }
    apply wp_bind, (rotate_ok room _ level true w l); [unfold ROTATE_FUEL; lia | exact Hw | exact Hl | | |].
    { intros _. apply (lk_first _ _ _ (wk_levels _ _ Hw _ _ Hl)). lia. }
    { intros Hs. split; [exact (Hlight Hs) | lia]. }
    intros w1 [Hw1 (l1 & Hl1 & Hz1 & _) Hb1 Hg1 _ Hwt1]. apply wp_ret.
    apply (IH (S level) true w1); [lia | exact Hw1 | lia | |].
    + intros n l' Hn Hl'. destruct (decide (n = level)) as [->|Hne]; [congruence|].
      rewrite Hb1 in Hl' by lia. apply (Hdr n); [lia | exact Hl'].
    + intros Hs. destruct (Hwt Hs) as [Hm Hle]. split; [exact Hm|]. specialize (Hwt1 Hs l Hl).
      pose proof (unit_weight_pos level). nia.
  - apply wp_ret. apply (IH (S level) flushed w); [lia | exact Hw | lia | |].
    + intros n l' Hn Hl'. destruct (decide (n = level)) as [->|Hne]; [|apply (Hdr n); [lia | exact Hl']].
      rewrite Hl in Hl'. injection Hl' as <-. lia.
    + intros Hs. destruct (Hwt Hs). lia.
Qed.

(** A pass over drained levels does nothing. *)
Lemma finish_pass_idle (B : Stop -> Prop) fuel : forall level flushed (w : W),
  (length (tw_levels w) <= fuel + level)%nat -> (1 <= fuel)%nat -> drained (pred (length (tw_levels w))) w ->
  wp (finish_pass on_value_ref c fuel level flushed) (fun flushed' w' => flushed' = flushed /\ w' = w) B w.
Proof.
  induction fuel as [|fuel IH]; intros level flushed w Hfuel Hone Hdr; [lia|].
  cbn [finish_pass]. apply wp_bind, wp_here. destruct (Nat.ltb_spec (S level) (length (tw_levels w))) as [Hlt|Hge];
    [|now apply wp_ret].
  destruct (lookup_lt_is_Some_2 (tw_levels w) level) as [l Hl]; [lia|].
  apply wp_bind, wp_get_level. exists l. split; [exact Hl|].
  rewrite (Hdr level l ltac:(lia) Hl). apply wp_bind. cbn [Z.ltb Z.compare]. apply wp_ret.
  apply IH; [lia | lia | exact Hdr].
Qed.

(** The first pass drains every level but the top one; the second finds nothing
    and ends the loop. *)
Lemma finish_loop_ok (w : W) :
  w_ok w -> (short -> weighs w < 2 ^ 62) ->
  wp (finish_loop on_value_ref c 2)
    (fun _ w' => w_ok w' /\ drained (pred (length (tw_levels w'))) w') writer_stops w.
Proof.
  intros Hw Hwt. pose proof (wk_count _ _ Hw).
  cbn [finish_loop]. apply wp_bind.
  eapply wp_mono; [apply (finish_pass_ok (weighs w) _ 0 false w); [unfold ROTATE_FUEL; lia | exact Hw | lia | |]| |auto].
  { intros n l Hn. lia. }
  { intros Hs. simpl. specialize (Hwt Hs). lia. }
  intros flushed w1 (Hw1 & Hd1). apply wp_if; intros _; [apply wp_ret; auto|].
  pose proof (wk_count _ _ Hw1). apply wp_bind.
  eapply wp_mono; [apply (finish_pass_idle writer_stops _ 0 false w1); [unfold ROTATE_FUEL; lia | lia | exact Hd1]| |auto].
  intros flushed2 w2 [-> ->]. apply wp_ret. auto.
Qed.

Lemma finish_ok (w : W) :
  w_ok w -> (short -> weighs w < 2 ^ 62) ->
  wp (finish on_value_ref c)
    (fun root w' => w_ok w' /\ page_ordinal_ok root /\ drained (length (tw_levels w')) w') writer_stops w.
Proof.
  intros Hw Hwt. unfold finish. apply wp_bind. eapply wp_mono; [exact (finish_loop_ok w Hw Hwt)| |auto].
  intros [] w1 (Hw1 & Hd1). pose proof (wk_count _ _ Hw1). apply wp_bind, wp_here. cbv zeta.
  set (top := Nat.pred (length (tw_levels w1))).
  destruct (lookup_lt_is_Some_2 (tw_levels w1) top) as [l Hl]; [unfold top; lia|].
  apply wp_bind, wp_get_level. exists l. split; [exact Hl|].
  pose proof (zlen_nonneg (lv_sizes l)) as Hnn. apply wp_bind.
  eapply (wp_mono _ _ _ (fun _ w' => w_ok w' /\ drained (length (tw_levels w')) w' /\
    exists l', tw_levels w' !! top = Some l' /\ lv_prev_ordinal l' <> None)); [| |intros e He; exact He].
  - apply wp_if; intros Hb.
    + apply (rotate_last_ok room _ top w1 l); [exact Hw1 | exact Hl |].
      intros w2 [Hw2 (l2 & Hl2 & Hz2 & Hp2) Hb2 _ _ _] Hlen2. split; [exact Hw2|]. split; [|eauto].
      intros n l' Hn Hl'. destruct (decide (n = top)) as [->|Hne]; [congruence|].
      rewrite Hb2 in Hl' by (unfold top in *; lia).
      apply (Hd1 n); [unfold top in *; lia | exact Hl'].
    + apply orb_false_iff in Hb as [Hz Hp]. apply bool_decide_eq_false_1 in Hp.
      apply wp_ret. split; [exact Hw1|]. split; [|eauto]. intros n l' Hn Hl'.
      destruct (decide (n = top)) as [->|Hne].
      * rewrite Hl in Hl'. injection Hl' as <-. unfold level_count in *. lia.
      * apply (Hd1 n); [unfold top in *; lia | exact Hl'].
  - intros [] w2 (Hw2 & Hd2 & l2 & Hl2 & Hp2). apply wp_bind, wp_get_level. exists l2. split; [exact Hl2|].
    apply wp_lift_result. destruct (lv_prev_ordinal l2) as [root|] eqn:Hroot; [|congruence]. cbn [ok_or].
    split; [exact Hw2|]. split; [|exact Hd2].
    destruct (wk_levels _ _ Hw2 _ _ Hl2) as [(items & m & Hf) _ _ _ _].
    exact (pf_left _ _ _ _ _ _ Hf root Hroot).
Qed.

End Finish.
End Invariant.

(** * Whole trees *)

Section Build.
Context {X C : Type} (extra_bytes : X -> Z) (on_value_ref : X -> PageRef -> IO C unit).

(** The loop that feeds a sorted run to the writer, and its end. *)
Fixpoint push_all (c : TreeConfig) (entries : list (list byte * list byte * X)) : IO (TreeWriter X C) unit :=
  match entries with
  | [] => sret tt
  | (key, value, extra) :: entries =>
      let! _ := push extra_bytes on_value_ref c key value extra in
      push_all c entries
  end.

Definition build_tree (c : TreeConfig) (entries : list (list byte * list byte * X))
    : IO (TreeWriter X C) PageOrdinal :=
  let! _ := push_all c entries in finish on_value_ref c.
End Build.

Lemma TreeWriter_new_ok {X C} sink a page_size ey E omit (caller : C) c (w : TreeWriter X C) budget (extra_ok : X -> Prop) (caller_ok : nat -> C -> Prop) room :
  TreeWriter_new sink page_size ey E omit caller = Ok (c, w) ->
  page_size <= i32_max -> sink_holds sink a ->
  (forall key d, ke_digest E key = Ok d -> 0 <= d <= u64_max) -> caller_ok room caller ->
  config_ok (limit_pending_extra c budget) /\
  (forall short, writer_ok (limit_pending_extra c budget) (sk_filter sink) short extra_ok caller_ok room w) /\
  weight (tw_levels w) = 0.
Proof.
  intros H Hps Hs Hd Hk. unfold TreeWriter_new in H. inv_ok.
  assert (config_ok (limit_pending_extra
    (mkTreeConfig page_size (choose_layout page_size ey E omit) E usize_max) budget)) as Hc.
  { constructor; simpl; [apply choose_layout_ok | lia | intros Hc; lia | exact Hd]. }
  split; [exact Hc|]. split; [|reflexivity]. intros short. constructor; simpl; [eauto | reflexivity | | lia | exists room; split; [unfold pending; simpl; lia | exact Hk]].
  intros n l Hl. apply list_lookup_singleton_Some in Hl as [-> <-]. now apply level_ok_new.
Qed.

(** What [append] asks of the keys it takes for a tree, by [check_key_fits]; and
    there are no more of them than a 64-bit machine can be fed. *)
Definition keys_fit {X} (c : TreeConfig) (entries : list (list byte * list byte * X)) : Prop :=
  zlen entries < 2 ^ 62 /\
  Forall (fun e => check_key_fits (tc_page_size c) (tc_layout c) (zlen (fst (fst e))) = Ok tt) entries.

Lemma two_separators_fit page_size layout key_len :
  check_key_fits page_size layout key_len = Ok tt -> 0 <= key_len <= u16_max -> page_size <= i32_max ->
  entry_area Internal layout 2 (stored_key_len layout key_len) <= page_size.
Proof.
  intros Hfit Hk Hp. rewrite check_key_fits_exact in Hfit by fmt_lia.
  destruct (andb _ _) eqn:Hb; [|discriminate]. apply andb_prop in Hb as [_ Hb]. lia.
Qed.

Lemma zlen_stored_key c key : zlen (stored_key c key) = stored_key_len (tc_layout c) (zlen key).
Proof. unfold stored_key, stored_key_len. now destruct (omitted_keys (tc_layout c)). Qed.

(** Feeding the entries, from any state the writer keeps. *)
Lemma push_all_ok {X C} extra_bytes (on_value_ref : X -> PageRef -> IO C unit) c filter short extra_ok caller_ok caller_stops :
  config_ok c ->
  (forall (j : nat) extra r s, extra_ok extra -> caller_ok s -> wp (on_value_ref extra r) (fun _ s' => caller_ok s') caller_stops s) ->
  forall entries (w : TreeWriter X C),
  Forall (fun e => extra_ok (snd e)) entries ->
  writer_ok c filter short extra_ok (fun _ => caller_ok) (length entries) w ->
  (short -> weight (tw_levels w) + zlen entries < 2 ^ 62 /\
     Forall (fun e => check_key_fits (tc_page_size c) (tc_layout c) (zlen (fst (fst e))) = Ok tt) entries) ->
  wp (push_all extra_bytes on_value_ref c entries)
    (fun _ w' => writer_ok c filter short extra_ok (fun _ => caller_ok) 0 w' /\
       (short -> weight (tw_levels w') < 2 ^ 62)) (writer_stops c filter short caller_stops) w.
Proof.
  intros Hc Hcaller. induction entries as [|[[key value] extra] entries IH]; intros w Hxs Hw Hsh.
  { apply wp_ret. split; [exact Hw|]. intros Hs. destruct (Hsh Hs). change (zlen []) with 0 in *. lia. }
  apply Forall_cons in Hxs as [Hx Hxs]. apply wp_bind.
  eapply wp_mono; [apply (tw_push_ok extra_bytes on_value_ref c filter short extra_ok (fun _ => caller_ok) caller_stops
    Hc Hcaller (length entries) key value extra w Hx Hw)| |auto].
  - intros Hs. destruct (Hsh Hs) as [Hwt Hfit]. rewrite zlen_cons in Hwt. pose proof (zlen_nonneg entries).
    split; [lia|]. intros Hk. rewrite zlen_stored_key.
    apply two_separators_fit; [exact (Forall_inv Hfit) | pose proof (zlen_nonneg key); lia | apply (cf_size _ Hc)].
  - intros [] w1 [Hw1 Hwt1]. apply IH; [exact Hxs | exact Hw1|]. intros Hs. destruct (Hsh Hs) as [Hwt Hfit].
    specialize (Hwt1 Hs). rewrite zlen_cons in Hwt. split; [lia | exact (Forall_inv_tail Hfit)].
Qed.

(** A whole tree, from a new writer. *)
Lemma build_tree_safe {X C} extra_bytes (on_value_ref : X -> PageRef -> IO C unit)
    sink a page_size ey E omit (caller : C) c w budget entries extra_ok caller_ok caller_stops :
  TreeWriter_new sink page_size ey E omit caller = Ok (c, w) ->
  page_size <= i32_max -> sink_holds sink a ->
  (forall key d, ke_digest E key = Ok d -> 0 <= d <= u64_max) ->
  (forall extra r s, extra_ok extra -> caller_ok s -> wp (on_value_ref extra r) (fun _ s' => caller_ok s') caller_stops s) -> caller_ok caller ->
  Forall (fun e => extra_ok (snd e)) entries ->
  wp (build_tree extra_bytes on_value_ref (limit_pending_extra c budget) entries)
    (fun root w' => page_ordinal_ok root /\
       (exists a', sink_holds (tw_sink w') a') /\
       Forall (fun l => level_count l = 0) (tw_levels w') /\ caller_ok (tw_caller w'))
    (writer_stops (limit_pending_extra c budget) (sk_filter sink) (keys_fit c entries) caller_stops) w.
Proof.
  intros Hnew Hps Hs Hd Hcaller Hk Hxs.
  destruct (TreeWriter_new_ok _ _ _ _ _ _ _ _ _ budget extra_ok (fun _ => caller_ok) (length entries) Hnew Hps Hs Hd Hk)
    as (Hc & Hw & Hzero).
  specialize (Hw (keys_fit c entries)). unfold build_tree. apply wp_bind.
  eapply wp_mono; [apply (push_all_ok extra_bytes on_value_ref _ _ _ _ _ _ Hc (fun _ => Hcaller) entries w Hxs Hw)| |auto].
  { intros [Hn Hfit]. rewrite Hzero. split; [lia | exact Hfit]. }
  intros [] w1 [Hw1 Hwt1].
  eapply wp_mono; [exact (finish_ok on_value_ref _ _ _ extra_ok (fun _ => caller_ok) caller_stops Hc (fun _ => Hcaller) 0 w1 Hw1 Hwt1) | |auto].
  intros root w2 (Hw2 & Hr & Hdr). split; [exact Hr|]. split; [exact (wk_sink _ _ _ _ _ _ _ Hw2)|].
  split; [|destruct (wk_caller _ _ _ _ _ _ _ Hw2) as (_ & _ & H); exact H].
  apply Forall_lookup. intros n l Hl. apply (Hdr n); [now apply lookup_lt_Some in Hl | exact Hl].
Qed.

(** C11: writing a tree is total and stops only for the reasons listed.  For any
    entries in any order, any page size from the smallest up to i32::MAX, layout,
    digest function into 64 bits, filter, budget for the extras, closure of the
    caller that keeps its own invariant, and pattern of I/O errors: pushing every entry and finishing never panics, never runs past
    its loops' bounds, and returns a root page with every level flushed, or stops
    with an I/O error, ValueTooLarge (a key, value, page number or page past what
    the format or the page size admits), the error of a filter, an encoding or a
    caller's closure that refused, or the error that the tree would pass 64
    levels.  The last is impossible when every key passes [check_key_fits] and
    there are fewer than 2^62 entries.  So the writer's other CorruptData errors
    never happen: its arithmetic for what fits a page is exact enough that
    [flush_page] never finds a page over the page size, no page is promoted
    without a first key, and there is always a root. *)
Theorem tree_writer_safe {X C} extra_bytes (on_value_ref : X -> PageRef -> IO C unit)
    sink a page_size ey E omit (caller : C) c w budget entries extra_ok caller_ok caller_stops :
  TreeWriter_new sink page_size ey E omit caller = Ok (c, w) ->
  page_size <= i32_max -> sink_holds sink a ->
  (forall key d, ke_digest E key = Ok d -> 0 <= d <= u64_max) ->
  (forall extra r s, extra_ok extra -> caller_ok s -> wp (on_value_ref extra r) (fun _ s' => caller_ok s') caller_stops s) -> caller_ok caller ->
  Forall (fun e => extra_ok (snd e)) entries ->
  wp (build_tree extra_bytes on_value_ref (limit_pending_extra c budget) entries)
    (fun root w' => page_ordinal_ok root /\
       (exists a', sink_holds (tw_sink w') a') /\
       Forall (fun l => level_count l = 0) (tw_levels w') /\ caller_ok (tw_caller w'))
    (fun e => caller_stops e \/ exists e', e = Failed e' /\
       (e' = Error_new ValueTooLarge \/ (exists page, stored_page (sk_filter sink) page = Err e') \/
        (exists key, ke_digest E key = Err e') \/ (e' = Error_too_high /\ ~ keys_fit c entries))) w.
Proof.
  intros Hnew Hps Hs Hd Hcaller Hk Hxs.
  assert (tc_encoding c = E) as HE by (unfold TreeWriter_new in Hnew; inv_ok; reflexivity).
  eapply wp_mono; [exact (build_tree_safe extra_bytes on_value_ref sink a page_size ey E omit caller c w budget entries
    extra_ok caller_ok caller_stops Hnew Hps Hs Hd Hcaller Hk Hxs) | auto |].
  intros e He. rewrite <- HE. exact He.
Qed.

(** What [flush_page] appends to the file is the stored form of a page that
    [written_page_round_trip] reads back, filled from the level. *)
Theorem flush_page_writes {X C} (on_value_ref : X -> PageRef -> IO C unit) c filter a level l ordinal
    (w : TreeWriter X C) short extra_ok caller_ok room caller_stops :
  config_ok c -> writer_ok c filter short extra_ok caller_ok room w -> sink_holds (tw_sink w) a ->
  tw_levels w !! level = Some l ->
  (forall j extra r s, extra_ok extra -> caller_ok (S j) s -> wp (on_value_ref extra r) (fun _ s' => caller_ok j s') caller_stops s) ->
  wp (flush_page on_value_ref c level ordinal)
    (fun _ w' => exists items m stored,
       page_fits (tc_layout c) (Nat.eqb level 0) l items m (tc_page_size c) /\
       stored_page filter (written_page (tc_layout c) (Nat.eqb level 0) l items m None) = Ok stored /\
       sink_holds (tw_sink w') (mkSinkSpec (ss_bytes a ++ stored) (ss_offsets a)))
    (writer_stops c filter short caller_stops) w.
Proof.
  intros Hc Hw Ha Hl Hcaller. pose proof (wk_levels _ _ _ _ _ _ _ Hw level l Hl) as Hlv.
  destruct (level_ok_count _ _ _ _ _ _ Hlv) as (items & m & Hf & Hcount & Hr).
  pose proof (zlen_written_page _ _ _ _ _ _ Hf None) as Hz. rewrite <- (page_bytes_written _ _ _ _ _ _ Hf) in Hz.
  destruct (written_bounds _ _ _ _ _ _ Hf) as (_ & Hs & Hm & Hp & Hlen & Hlim).
  pose proof (page_bytes_written _ _ _ _ _ _ Hf) as Hpage.
  unfold written_len, written_payload_base, written_meta_base, DIGEST_BASE in Hz, Hlen, Hpage.
  unfold flush_page. apply wp_bind, wp_get_level. exists l. split; [exact Hl|]. cbv zeta.
  destruct (wp_page_areas c filter short caller_stops level l items m w (fun r w' => r = m /\ w' = w) Hf Hcount) as [Hda Hma].
  apply wp_bind, Hda, wp_bind. eapply wp_mono; [apply Hma; auto| |auto].
  intros ? ? [-> ->]. apply wp_if; intros Hbig; [lia|].
  apply wp_bind. eapply wp_on_sink; [exact Ha | apply (write_page_refines _ _ _ Ha); fmt_lia | |].
  - intros [] a' s (stored & Hst & ->) Hs' Hf'. rewrite (wk_filter _ _ _ _ _ _ _ Hw), Hpage in Hst.
    assert (forall s', exists items0 m0 stored0,
       page_fits (tc_layout c) (Nat.eqb level 0) l items0 m0 (tc_page_size c) /\
       stored_page filter (written_page (tc_layout c) (Nat.eqb level 0) l items0 m0 None) = Ok stored0 /\
       sink_holds (tw_sink (set_caller s' (set_pending 0 (set_levels (tw_levels w) (set_sink s w)))))
         (mkSinkSpec (ss_bytes a ++ stored0) (ss_offsets a))) as Hdone.
    { intros s'. exists items, m, stored. split; [exact Hf|]. split; [exact Hst | exact Hs']. }
    destruct (Nat.eqb level 0) eqn:Hzero.
    + apply wp_bind, wp_on_level. exists l. split; [exact Hl|]. apply wp_bind, wp_update.
      apply Nat.eqb_eq in Hzero as ->. destruct (wk_caller _ _ _ _ _ _ _ Hw) as (j & Hj & Hk). unfold pending in Hj. rewrite Hl in Hj. simpl in Hj.
      eapply hand_on_ok with (c := c) (filter := filter) (short := short) (extra_ok := extra_ok) (caller_ok := caller_ok) (caller_stops := caller_stops)
        (j := (j - length (lv_extras l))%nat); [exact Hcaller|..].
      * pose proof (proj1 (lk_extras _ _ _ _ _ _ Hlv)). lia.
      * pose proof (pf_holds _ _ _ _ _ _ Hf) as [_ Hsz Hov _]. rewrite Hsz, Hov, !length_fmap. reflexivity.
      * exact (proj2 (lk_extras _ _ _ _ _ _ Hlv)).
      * simpl. now replace (length (lv_extras l) + (j - length (lv_extras l)))%nat with j by lia.
      * intros s' _. exact (Hdone s').
    + apply wp_ret. exact (Hdone (tw_caller w)).
  - intros e (e' & -> & He). rewrite (wk_filter _ _ _ _ _ _ _ Hw) in He. right. eauto 8.
Qed.

(** * Witnesses *)

Definition sample_callback (_ : unit) (_ : PageRef) : IO unit unit := sret tt.

Definition sample_config : TreeConfig :=
  mkTreeConfig 90 (choose_layout 90 true AsciiEncoding true) AsciiEncoding usize_max.

Definition sample_writer : TreeWriter unit unit :=
  mkTreeWriter unit unit (PageSink_new None (DirectorySpool_new 24)) [Level_new] 0 0 tt.

Definition sample_entries : list (list byte * list byte * unit) :=
  [([Byte.x61], [Byte.x31], tt); ([Byte.x62], [Byte.x32], tt)].

Lemma ascii_digest_in_range key d : ke_digest AsciiEncoding key = Ok d -> 0 <= d <= u64_max.
Proof. intros [= <-]. apply ascii_digest_range. Qed.

Lemma sample_callback_ok extra r s : True -> True -> wp (sample_callback extra r) (fun _ _ => True) never s.
Proof. intros _ _. now apply wp_ret. Qed.

Lemma tree_writer_safe_witness :
  match build_tree (fun _ : unit => 0) sample_callback (limit_pending_extra sample_config 0)
          sample_entries (sample_writer, []) with
  | (Ok root, _) => page_ordinal_ok root
  | (Err e, _) => e = Failed (Error_new ValueTooLarge)
  end.
Proof.
  pose proof (wp_no_faults _ _ _ _
    (tree_writer_safe (fun _ : unit => 0) sample_callback (PageSink_new None (DirectorySpool_new 24))
       (mkSinkSpec [] []) 90 true AsciiEncoding true tt sample_config sample_writer 0 sample_entries (fun _ => True) (fun _ => True) never
       eq_refl ltac:(vm_compute; discriminate) (PageSink_new_holds None 24)
       ascii_digest_in_range sample_callback_ok I
       ltac:(repeat constructor))) as H.
  destruct (build_tree _ _ _ _ _) as [[root|e] [w' faults]].
  - apply H.
  - destruct H as [[]|(e' & -> & [-> | [(page & Hp) | [(key & Hd) | [-> Hlow]]]])];
      [reflexivity | discriminate Hp | discriminate Hd |].
    exfalso. apply Hlow. split; [reflexivity|]. repeat constructor.
Defined.

Definition stacking_config : TreeConfig :=
  mkTreeConfig 90 (choose_layout 90 true AsciiEncoding false) AsciiEncoding usize_max.

(** Keys that leave an internal page room for one separator only.  On 90-byte
    pages 30 bytes fit a leaf, as [push] asks, but [check_key_fits] refuses them;
    65 of them fill every level with one separator, and the writer gives up on
    the tree.  [append] keeps such keys from a primary tree; the keys of an index
    reach the writer unchecked. *)
Definition stacking_entries : list (list byte * list byte * unit) :=
  (fun i => (repeat Byte.x61 28 ++ [byte.of_Z (48 + Z.of_nat i / 10); byte.of_Z (48 + Z.of_nat i mod 10)], [], tt)) <$> seq 0 66.

Example long_keys_stack_levels :
  check_key_fits 90 (tc_layout stacking_config) 30 = Err (Error_new ValueTooLarge) /\
  fst (build_tree (fun _ : unit => 0) sample_callback stacking_config stacking_entries (sample_writer, []))
    = Err (Failed Error_too_high).
Proof. vm_compute. auto. Qed.


Lemma flush_page_writes_witness :
  wp (flush_page sample_callback (limit_pending_extra sample_config 0) 0 7)
    (fun _ w' => exists a', sink_holds (tw_sink w') a') (fun _ => True) sample_writer.
Proof.
  destruct (TreeWriter_new_ok (X := unit) (PageSink_new None (DirectorySpool_new 24)) (mkSinkSpec [] []) 90 true
    AsciiEncoding true tt sample_config sample_writer 0 (fun _ => True) (fun _ _ => True) 0%nat eq_refl ltac:(vm_compute; discriminate)
    (PageSink_new_holds None 24) ascii_digest_in_range I) as (Hc & Hw & _).
  eapply wp_mono.
  - exact (flush_page_writes sample_callback (limit_pending_extra sample_config 0) None (mkSinkSpec [] []) 0
      Level_new 7 sample_writer True (fun _ => True) (fun _ _ => True) 0%nat never Hc (Hw True) (PageSink_new_holds None 24) eq_refl (fun _ => sample_callback_ok)).
  - intros [] w' (items & m & stored & _ & _ & H). eauto.
  - auto.
Defined.
