(* ===== verification/EndToEnd.v ===== *)
(** A tree written by the model of the writer and searched by the model of the
    reader.

    The general theorems meet at the page: [PageWriter] proves that a written
    page is a [sorted_page], [Btree] proves the search over pages that are.
    Here both models run on one file, through overflow values, several levels
    and sibling patches, under each page layout. *)

From Stdlib Require Import ZArith Lia.
From stdpp Require Import base list gmap strings.
From coqutil Require Import Byte.
From S2P Require Import Prelude Errors Format PageRef Node Encoding Page TreePage Btree Effects Sink.
From S2P Require Import PageWriter TreeWriter.

#[local] Open Scope Z_scope.
#[local] Open Scope drydb_scope.

(** The pages of a finished file, cut at the recorded offsets. *)
Fixpoint cut_pages (bytes : list byte) (offsets : list Z) : list (list byte) :=
  match offsets with
  | [] => []
  | o :: rest =>
      slice bytes o (match rest with o' :: _ => o' | [] => zlen bytes end - o) :: cut_pages bytes rest
  end.

(** The offsets the directory spool holds, eight bytes each. *)
Fixpoint spool_offsets (fuel : nat) (bytes : list byte) : list Z :=
  match fuel, bytes with
  | S fuel, _ :: _ =>
      swrap 64 (LittleEndianList.le_combine (take 8 bytes)) :: spool_offsets fuel (drop 8 bytes)
  | _, _ => []
  end.

Definition no_callback (_ : unit) (_ : PageRef) : IO unit unit := sret tt.

(** Build a tree from entries on tiny pages; the page count stays small. *)
Definition demo_build (E : KeyEncoding) (page_size : Z) (ey : bool)
    (entries : list (list byte * list byte)) : option (Z * list (list byte)) :=
  match TreeWriter_new (X := unit) (PageSink_new None (DirectorySpool_new 24)) page_size ey E true tt with
  | Ok (c, w) =>
      match build_tree (fun _ => 0) no_callback c ((fun e => (e, tt)) <$> entries) (w, []) with
      | (Ok root, (w, _)) =>
          let s := tw_sink w in
          let d := sk_directory s in
          let dir := default [] (f_data <$> ds_file d) ++ ds_buffer d in
          Some (root, cut_pages (contents (sk_writer s)) (spool_offsets 256 dir))
      | _ => None
      end
  | Err _ => None
  end.

(** The value of an entry, inline or on its own page. *)
Definition demo_value_at (pages : list (list byte)) (pin : PagePin) (index : Z) : Result (list byte) :=
  let? view := pin_view pin in
  let? e := leaf_entry view index in
  match le_value e with
  | Inline o n => inline_value view o n
  | Overflow p =>
      let? bytes := ok_or (get_at pages p) Error_corrupt in
      let? blob := PageView_parse bytes in
      Ok (blob_payload blob)
  end.

Definition demo_get (E : KeyEncoding) (built : Z * list (list byte)) (key : list byte)
    : Result (option (list byte)) :=
  let '(root, pages) := built in
  let? found := fst (search (mkTree (Some root) E 1 true) key Equal (mkImage ∅ : Image pages 64)) in
  match found with
  | Some (pin, index) => rmap Some (demo_value_at pages pin index)
  | None => Ok None
  end.

Definition answer_is (r : Result (option (list byte))) (expected : option (list byte)) : bool :=
  match r with
  | Ok v => bool_decide (v = expected)
  | Err _ => false
  end.

(** Every entry is found with its value, and the other keys are not. *)
Definition demo_answers (E : KeyEncoding) (page_size : Z) (ey : bool)
    (entries : list (list byte * list byte)) (others : list (list byte)) : bool :=
  match demo_build E page_size ey entries with
  | Some built =>
      forallb (fun e => answer_is (demo_get E built (fst e)) (Some (snd e))) entries
      && forallb (fun k => answer_is (demo_get E built k) None) others
  | None => false
  end.

Definition ascii_key (i : nat) : list byte :=
  [byte.of_Z (Z.of_nat (97 + i / 5)); byte.of_Z (Z.of_nat (97 + i mod 5))].

Definition ascii_entries : list (list byte * list byte) :=
  (fun i => (ascii_key i, replicate (i * 3) (byte.of_Z (Z.of_nat i)))) <$> seq 0 18.

Definition i64_entries : list (list byte * list byte) :=
  (fun i => (Int64_encode (Z.of_nat i - 9), replicate (i * 3) (byte.of_Z (Z.of_nat i)))) <$> seq 0 18.

(** Eighteen entries on pages this small make a tree of four levels or more, with
    separators, sibling patches and overflow pages. *)
Example ascii_eytzinger_answers :
  demo_answers AsciiEncoding 90 true ascii_entries [[]; [Byte.x62]; [Byte.x7a]] = true.
Proof. vm_compute. reflexivity. Qed.

Example ascii_sorted_answers :
  demo_answers AsciiEncoding 90 false ascii_entries [[]; [Byte.x62]; [Byte.x7a]] = true.
Proof. vm_compute. reflexivity. Qed.

(** Exact digests: the pages store no key bytes. *)
Example i64_omitted_answers :
  demo_answers Int64Encoding 72 false i64_entries [Int64_encode 100; Int64_encode (-100)] = true.
Proof. vm_compute. reflexivity. Qed.

Example i64_eytzinger_answers :
  demo_answers Int64Encoding 110 true i64_entries [Int64_encode 100; Int64_encode (-100)] = true.
Proof. vm_compute. reflexivity. Qed.

(** The classic metadata layout needs a page past 32767 bytes, so its tree is
    one leaf here. *)
Example ascii_classic_answers :
  demo_answers AsciiEncoding 40000 false ascii_entries [[]; [Byte.x62]; [Byte.x7a]] = true.
Proof. vm_compute. reflexivity. Qed.
