(* ===== verification/Built.v ===== *)
(** What the tree writer builds, [crates/drydb/src/builder/tree.rs].

    [TreeWriter] proves that writing a tree never goes wrong; here is what it
    comes to.  The pages written so far are a list of ghost pages that know what
    they were made of: a leaf its rows, an internal page its separators and its
    children, a blob page its value.  A level above the leaves holds the nodes
    that have no parent yet, so that the levels from the top down list all leaves
    in order ([ups]), the leaves form one chain ([chain]), and every value that
    has been handed on can be found where the reference says ([given]).  The root
    that [finish] returns is the root of all of them. *)

From Stdlib Require Import ZArith Lia.
From stdpp Require Import base list sorting.
From coqutil Require Import Byte Word.LittleEndianList.
From S2P Require Import Prelude Errors Format PageRef Eytzinger Node Encoding TreePage Effects Sink.
From S2P Require Import SinkPages PageWriter TreeWriter.

#[local] Open Scope Z_scope.
#[local] Open Scope drydb_scope.

Create HintDb grows.

(** The longest page a value may take. *)
Class PageLimit : Type := { max_page : Z; max_page_range : max_page <= i32_max }.
#[export] Instance any_page : PageLimit := {| max_page := i32_max; max_page_range := Z.le_refl i32_max |}.

Section Ghost.
Context {PL : PageLimit} {X : Type} (c : TreeConfig) `{HL : !LawfulEncoding (tc_encoding c)}.
Abbreviation E := (tc_encoding c).
Abbreviation layout := (tc_layout c).
Abbreviation page_size := (tc_page_size c).
Abbreviation row := (list byte * list byte * X)%type.

Definition row_key (e : row) : list byte := fst (fst e).
Definition row_value (e : row) : list byte := snd (fst e).
Definition row_extra (e : row) : X := snd e.

Inductive Page : Type :=
| OldPage (bytes : list byte)
| LeafPage (st : Level X) (items : list Item) (m : Z) (es : list row) (right : option PageOrdinal)
| InnerPage (st : Level X) (items : list Item) (m : Z) (seps : list (list byte)) (kids : list PageOrdinal)
    (right : option PageOrdinal)
| BlobPage (value : list byte).

Definition bytes_of (pg : Page) : list byte :=
  match pg with
  | OldPage bytes => bytes
  | LeafPage st items m _ r => written_page layout true st items m r
  | InnerPage st items m _ _ r => written_page layout false st items m r
  | BlobPage value => blob_page_bytes value
  end.

(** A page before its sibling is known, and after. *)
Definition set_right (r : option PageOrdinal) (pg : Page) : Page :=
  match pg with
  | LeafPage st items m es _ => LeafPage st items m es r
  | InnerPage st items m seps kids _ => InnerPage st items m seps kids r
  | _ => pg
  end.

Definition is_new (pg : Page) : Prop := match pg with OldPage _ => False | _ => True end.

Definition page (G : list Page) (o : PageOrdinal) : option Page := if o <? 0 then None else G !! Z.to_nat o.

(** Pages are added and siblings patched in. *)
Definition grows (G G' : list Page) : Prop :=
  forall o pg, page G o = Some pg -> exists r, page G' o = Some (set_right r pg).

(** ** Rows and pages *)

Definition key_good (key : list byte) : Prop := key_ok key /\ validate_key E key = Ok tt /\ key_fits c False key.
Definition row_good (e : row) : Prop := key_good (row_key e) /\ zlen (row_value e) <= max_page - PAGE_PREFIX_LEN.

(** The value of an item: on the page, or on a page of its own. *)
Definition value_at (G : list Page) (it : Item) (value : list byte) : Prop :=
  match it_blob it with
  | None => it_value it = value
  | Some r => page G (pr_page r) = Some (BlobPage value) /\ pr_start r = PAGE_PREFIX_LEN /\ pr_length r = zlen value
  end.

Definition item_of (G : list Page) (e : row) (it : Item) : Prop :=
  item_of_key E layout (row_key e) it /\ value_at G it (row_value e).

Definition kid_item (k : PageOrdinal) (it : Item) : Prop := it_value it = i64_le k /\ page_ordinal_ok k.

Definition right_ok (r : option PageOrdinal) : Prop := forall p, r = Some p -> page_ordinal_ok p.

Definition sound (G : list Page) (pg : Page) : Prop :=
  match pg with
  | OldPage _ => True
  | LeafPage st items m es r =>
      page_fits layout true st items m page_size /\ Forall2 (item_of G) es items /\ Forall row_good es /\ right_ok r
  | InnerPage st items m seps kids r =>
      page_fits layout false st items m page_size /\ Forall2 (item_of_key E layout) seps items /\
      Forall2 kid_item kids items /\ Forall key_good seps /\ seps <> [] /\ right_ok r
  | BlobPage value => PAGE_PREFIX_LEN + zlen value <= max_page
  end.

(** ** Trees *)

Definition rows_at (G : list Page) (o : PageOrdinal) : list row :=
  match page G o with Some (LeafPage _ _ _ es _) => es | _ => [] end.
Definition rows (G : list Page) (L : list PageOrdinal) : list row := concat (rows_at G <$> L).
Definition first_key (G : list Page) (L : list PageOrdinal) : option (list byte) := row_key <$> head (rows G L).
Definition starts_at (G : list Page) (sep : list byte) (L : list PageOrdinal) : Prop := first_key G L = Some sep.

Fixpoint sub (G : list Page) (h : nat) (o : PageOrdinal) (L : list PageOrdinal) : Prop :=
  match h with
  | O => L = [o] /\ exists st items m es r, page G o = Some (LeafPage st items m es r)
  | S h => exists st items m seps kids r Ls,
      page G o = Some (InnerPage st items m seps kids r) /\ Forall2 (sub G h) kids Ls /\ L = concat Ls /\
      Forall2 (starts_at G) seps Ls /\ Forall (fun k => k < o) kids
  end.

(** The leaves point at each other. *)
Fixpoint chain (G : list Page) (before : option PageOrdinal) (L : list PageOrdinal) : Prop :=
  match L with
  | [] => True
  | o :: rest => (exists st items m es, page G o = Some (LeafPage st items m es (head rest)) /\ lv_prev_ordinal st = before) /\
      chain G (Some o) rest
  end.

(** A reference leads to a value on a leaf, or to a blob page. *)
Definition ref_to (G : list Page) (r : PageRef) (value : list byte) : Prop :=
  match page G (pr_page r) with
  | Some (LeafPage st items m es _) => exists j it, items !! j = Some it /\ it_blob it = None /\ it_value it = value /\
      pr_start r = item_offset layout items m j + zlen (it_key it) /\ pr_length r = zlen value
  | Some (BlobPage v) => v = value /\ pr_start r = PAGE_PREFIX_LEN /\ pr_length r = zlen value
  | _ => False
  end.

Definition given (G : list Page) (e : row) (p : X * PageRef) : Prop :=
  fst p = row_extra e /\ ref_to G (snd p) (row_value e).

(** ** Growing *)

Lemma same_right pg : exists r, set_right r pg = pg.
Proof. destruct pg as [bytes|st items m es r|st items m seps kids r|v]; [exists None | exists r | exists r | exists None]; reflexivity. Qed.

Lemma grows_refl G : grows G G.
Proof. intros o pg H. destruct (same_right pg) as [r Hr]. exists r. now rewrite Hr. Qed.

Lemma grows_trans G1 G2 G3 : grows G1 G2 -> grows G2 G3 -> grows G1 G3.
Proof.
  intros H12 H23 o pg H. destruct (H12 _ _ H) as [r Hr]. destruct (H23 _ _ Hr) as [r' Hr']. exists r'. rewrite Hr'. now destruct pg.
Qed.

Lemma page_app G pgs o pg : page G o = Some pg -> page (G ++ pgs) o = Some pg.
Proof. unfold page. destruct (o <? 0); [easy | apply lookup_app_l_Some]. Qed.

Lemma grows_app G pgs : grows G (G ++ pgs).
Proof. intros o pg H. destruct (same_right pg) as [r Hr]. exists r. rewrite Hr. now apply page_app. Qed.

Lemma page_new G pg : page (G ++ [pg]) (zlen G) = Some pg.
Proof. unfold page, zlen. rewrite (proj2 (Z.ltb_ge _ _)) by lia. now rewrite Nat2Z.id, list_lookup_middle. Qed.

Lemma page_bound G o pg : page G o = Some pg -> 0 <= o < zlen G.
Proof. unfold page, zlen. destruct (Z.ltb_spec o 0); [easy|]. intros Hl%lookup_lt_Some. lia. Qed.

(** Patching one page. *)
Definition link (G : list Page) (p : PageOrdinal) (r : option PageOrdinal) : list Page := alter (set_right r) (Z.to_nat p) G.

Lemma page_link G p r o : 0 <= p -> page (link G p r) o = if decide (o = p) then set_right r <$> page G o else page G o.
Proof.
  intros Hp. unfold page, link. destruct (Z.ltb_spec o 0); [now destruct (decide _)|]. destruct (decide (o = p)) as [->|Hne].
  - now rewrite list_lookup_alter_eq.
  - apply list_lookup_alter_ne. lia.
Qed.

Lemma grows_link G p r : 0 <= p -> grows G (link G p r).
Proof.
  intros Hp o pg H. rewrite page_link by exact Hp. destruct (decide (o = p)); rewrite H; cbn; [eauto|].
  destruct (same_right pg) as [r' Hr]. exists r'. now rewrite Hr.
Qed.

Lemma zlen_link G p r : zlen (link G p r) = zlen G.
Proof. unfold zlen, link. now rewrite length_alter. Qed.

(** ** What growing keeps *)

Section Grows.
Context (G G' : list Page) (Hg : grows G G').

Lemma grows_blob o v : page G o = Some (BlobPage v) -> page G' o = Some (BlobPage v).
Proof. intros H. now destruct (Hg _ _ H) as [r Hr]. Qed.
Lemma grows_leaf o st items m es r : page G o = Some (LeafPage st items m es r) -> exists r', page G' o = Some (LeafPage st items m es r').
Proof. intros H. destruct (Hg _ _ H) as [r' Hr]. eauto. Qed.
Lemma grows_inner o st items m seps kids r :
  page G o = Some (InnerPage st items m seps kids r) -> exists r', page G' o = Some (InnerPage st items m seps kids r').
Proof. intros H. destruct (Hg _ _ H) as [r' Hr]. eauto. Qed.

Lemma grows_value it v : value_at G it v -> value_at G' it v.
Proof. unfold value_at. destruct (it_blob it); [|auto]. intros [H1 H2]. auto using grows_blob. Qed.
Lemma grows_items es items : Forall2 (item_of G) es items -> Forall2 (item_of G') es items.
Proof. intros H. eapply Forall2_impl; [exact H|]. intros e it [H1 H2]. split; auto using grows_value. Qed.
Lemma grows_sound pg : sound G pg -> sound G' pg.
Proof. destruct pg; simpl; auto. intros (H1 & H2 & H3). auto using grows_items. Qed.

(** On leaves that exist. *)
Definition is_leaf_page (o : PageOrdinal) : Prop := exists st items m es r, page G o = Some (LeafPage st items m es r).

Lemma grows_rows_at o : is_leaf_page o -> rows_at G' o = rows_at G o.
Proof. intros (st & items & m & es & r & H). unfold rows_at. destruct (grows_leaf _ _ _ _ _ _ H) as [r' ->]. now rewrite H. Qed.

Lemma grows_rows L : Forall is_leaf_page L -> rows G' L = rows G L.
Proof. unfold rows. intros H. f_equal. apply list_fmap_ext. intros i o Ho. eapply grows_rows_at, Forall_lookup_1; eauto. Qed.

Lemma sub_leaves h : forall o L, sub G h o L -> Forall is_leaf_page L.
Proof.
  induction h as [|h IH]; intros o L; simpl.
  - intros [-> H]. now apply Forall_singleton.
  - intros (st & items & m & seps & kids & r & Ls & _ & Hk & -> & _). apply Forall_concat. clear -Hk IH.
    induction Hk; constructor; eauto.
Qed.

Lemma grows_starts sep L : Forall is_leaf_page L -> starts_at G sep L -> starts_at G' sep L.
Proof. intros Hlv. unfold starts_at, first_key. now rewrite grows_rows. Qed.

Lemma grows_starts_all seps h kids Ls :
  Forall2 (sub G h) kids Ls -> Forall2 (starts_at G) seps Ls -> Forall2 (starts_at G') seps Ls.
Proof.
  intros Hk Hs. revert kids Hk. induction Hs as [|s L seps Ls H _ IH]; intros kids Hk; inversion Hk; subst; constructor; eauto.
  eapply grows_starts; [eapply sub_leaves; eauto | exact H].
Qed.

Lemma grows_sub h : forall o L, sub G h o L -> sub G' h o L.
Proof.
  induction h as [|h IH]; intros o L; simpl.
  - intros [-> (st & items & m & es & r & H)]. destruct (grows_leaf _ _ _ _ _ _ H) as [r' Hr]. eauto 10.
  - intros (st & items & m & seps & kids & r & Ls & H & Hk & -> & Hs & Hlt). destruct (grows_inner _ _ _ _ _ _ _ H) as [r' Hr].
    exists st, items, m, seps, kids, r', Ls. split; [exact Hr|]. split; [eapply Forall2_impl; eauto|]. split; [reflexivity|].
    split; [eapply grows_starts_all; eauto | exact Hlt].
Qed.

Lemma grows_ref r v : ref_to G r v -> ref_to G' r v.
Proof.
  unfold ref_to. destruct (page G (pr_page r)) as [[|st items m es ri| |w]|] eqn:H; try contradiction.
  - destruct (grows_leaf _ _ _ _ _ _ H) as [r' ->]. auto.
  - rewrite (grows_blob _ _ H). auto.
Qed.
Lemma grows_given es ps : Forall2 (given G) es ps -> Forall2 (given G') es ps.
Proof. intros H. eapply Forall2_impl; [exact H|]. intros e p [H1 H2]. split; auto using grows_ref. Qed.
End Grows.
End Ghost.

(** * The invariant *)

Section Writing.
Context {PL : PageLimit} {X C : Type} (extra_bytes : X -> Z) (on_value_ref : X -> PageRef -> IO C unit).
Context (c : TreeConfig) `{HL : !LawfulEncoding (tc_encoding c)} (Hc : config_ok c).
Context (filter : option (list byte -> Result (list byte))).
(** What the caller has been handed, in order. *)
Context (handed : list (X * PageRef) -> C -> Prop).
Context (Hcaller : forall x r done s, handed done s ->
  wp (on_value_ref x r) (fun _ s' => handed (done ++ [(x, r)]) s') anyhow s).
(** What the file held before. *)
Context (head : list byte) (old : list (list byte)).

Abbreviation E := (tc_encoding c).
Abbreviation layout := (tc_layout c).
Abbreviation page_size := (tc_page_size c).
Abbreviation W := (TreeWriter X C).
Abbreviation row := (list byte * list byte * X)%type.
Abbreviation Page := (@Page X).
Implicit Types (G : list Page) (w : W).

Record world (K : PageSink -> Prop) (G : list Page) (L : list PageOrdinal) (w : W) : Prop := {
  wd_sink : K (tw_sink w);
  wd_old : take (length old) G = OldPage <$> old;
  wd_sound : Forall (sound c G) G;
  wd_chain : chain G None L;
  wd_nodup : NoDup L;
  wd_few : (length (tw_levels w) <= 64)%nat;
  wd_new : forall i pg, G !! i = Some pg -> (length old <= i)%nat -> is_new pg;
}.

Abbreviation is_laid G offs := (laid filter head (bytes_of c <$> G) offs).

Lemma chain_leaves G : forall L before, chain G before L -> Forall (is_leaf_page G) L.
Proof.
  induction L as [|o L IH]; intros before; simpl; [constructor|]. intros [(st & items & m & es & H & _) Hr].
  constructor; [unfold is_leaf_page; eauto 10 | eauto].
Qed.

(** A sound page is long enough to be patched, and patched it is the ghost page
    with its sibling set. *)
Lemma bytes_of_link G pg p : sound c G pg -> (forall b, pg <> OldPage b) -> (forall v, pg <> BlobPage v) -> page_ordinal_ok p ->
  splice (bytes_of c pg) RIGHT_SIBLING_OFFSET (i64_le p) = bytes_of c (set_right (Some p) pg) /\ PAGE_PREFIX_LEN <= zlen (bytes_of c pg).
Proof.
  intros Hs Hold Hblob Hp. destruct pg as [b|st items m es r|st items m seps kids r|v]; [now destruct (Hold b) | | | now destruct (Hblob v)]; cbn;
    (split; [now apply written_page_link|]); destruct Hs as [Hf _]; rewrite (zlen_written_page _ _ _ _ _ _ Hf r);
    destruct (written_bounds _ _ _ _ _ _ Hf) as (Hn & Hd & Hm & Hpl & _); unfold written_len, written_payload_base, written_meta_base;
    unfold_consts; lia.
Qed.

Lemma fmap_link G p r pg : page G p = Some pg ->
  bytes_of c <$> link G p r = <[Z.to_nat p := bytes_of c (set_right r pg)]> (bytes_of c <$> G).
Proof.
  unfold page, link. destruct (p <? 0); [discriminate|]. intros H. apply list_eq. intros i. rewrite list_lookup_fmap.
  destruct (decide (i = Z.to_nat p)) as [->|Hne].
  - rewrite list_lookup_alter_eq, H, list_lookup_insert_eq; [reflexivity|]. rewrite length_fmap. now apply lookup_lt_Some in H.
  - rewrite list_lookup_alter_ne, list_lookup_insert_ne, list_lookup_fmap by congruence. reflexivity.
Qed.

(** ** Chains *)

Lemma chain_app_page G pgs : forall L before, chain G before L -> chain (G ++ pgs) before L.
Proof.
  induction L as [|o L IH]; intros before; simpl; [easy|]. intros [(st & items & m & es & H & Hp) Hr].
  split; [|auto]. exists st, items, m, es. split; [now apply page_app | exact Hp].
Qed.

(** A page that is not on the chain can be patched. *)
Lemma chain_link_other G p r : 0 <= p -> forall L before, p ∉ L -> chain G before L -> chain (link G p r) before L.
Proof.
  intros Hp. induction L as [|o L IH]; intros before; simpl; [easy|]. intros [Hne Hnin]%not_elem_of_cons [(st & items & m & es & H & Hpr) Hr].
  split; [|auto]. exists st, items, m, es. rewrite page_link by exact Hp. now rewrite decide_False by congruence.
Qed.

Lemma chain_link_inner G p st items m seps kids r r' L before :
  page G p = Some (InnerPage st items m seps kids r) -> chain G before L -> chain (link G p r') before L.
Proof.
  intros H Hch. apply chain_link_other; [now apply page_bound in H | | exact Hch]. intros Hin.
  pose proof (chain_leaves _ _ _ Hch) as Hl. rewrite Forall_forall in Hl. destruct (Hl p Hin) as (? & ? & ? & ? & ? & H'). congruence.
Qed.

(** A leaf is added behind the last one. *)
Definition link_last G (L : list PageOrdinal) (o : PageOrdinal) : list Page :=
  match last L with Some p => link G p (Some o) | None => G end.

Lemma chain_snoc G o st items m es : forall L before,
  chain G before L -> NoDup L -> o ∉ L -> page G o = Some (LeafPage st items m es None) ->
  lv_prev_ordinal st = match last L with Some p => Some p | None => before end ->
  chain (link_last G L o) before (L ++ [o]).
Proof.
  induction L as [|a L IH]; intros before Hch Hnd Hnin Ho Hprev; simpl in *.
  - split; [eauto 10 | easy].
  - destruct Hch as [(st' & items' & m' & es' & Ha & Hpa) Hch]. apply not_elem_of_cons in Hnin as [Hne Hnin].
    apply NoDup_cons in Hnd as [Hnal Hnd]. pose proof (page_bound _ _ _ Ha) as Hba. destruct L as [|b L].
    + unfold link_last. simpl in *. rewrite !page_link by lia. rewrite decide_True, decide_False by congruence. rewrite Ha, Ho. simpl.
      split; [eauto 10|]. split; [eauto 10 | easy].
    + unfold link_last in *. change (last (a :: b :: L)) with (last (b :: L)) in *.
      specialize (IH (Some a) Hch Hnd Hnin Ho).
      destruct (last (b :: L)) as [p|] eqn:Hlast; [|now apply last_None in Hlast].
      assert (a <> p) as Hap. { intros ->. apply Hnal. apply last_Some in Hlast as [l' ->]. apply elem_of_app. right. now left. }
      split; [|apply IH; congruence]. exists st', items', m', es'.
      pose proof (chain_leaves _ _ _ Hch) as Hl. rewrite Forall_forall in Hl.
      destruct (Hl p) as (? & ? & ? & ? & ? & Hpp); [apply last_Some in Hlast as [l' ->]; apply elem_of_app; right; now left|].
      rewrite page_link by (now apply page_bound in Hpp). now rewrite decide_False by exact Hap.
Qed.

(** ** Steps of the world *)

Lemma world_grow K K' G G' L L' w w' :
  world K G L w -> grows G G' -> K' (tw_sink w') -> take (length old) G' = take (length old) G ->
  (forall i pg, G' !! i = Some pg -> G !! i = Some pg \/ (sound c G' pg /\ is_new pg)) -> chain G' None L' -> NoDup L' ->
  tw_levels w' = tw_levels w -> world K' G' L' w'.
Proof.
  intros [Hk Ho Hs Hch Hnd Hfew Hn] Hg Hk' Ht Hnew Hch' Hnd' Hlv. split; try assumption; [congruence | | congruence |].
  - apply Forall_lookup. intros i pg Hi. destruct (Hnew _ _ Hi) as [H|[H _]]; [|exact H].
    eapply grows_sound; [exact Hg|]. eapply Forall_lookup_1; eauto.
  - intros i pg Hi Hlen. destruct (Hnew _ _ Hi) as [H|[_ H]]; [exact (Hn i pg H Hlen) | exact H].
Qed.

Abbreviation is_begun G offs off := (begun filter head (bytes_of c <$> G) offs off).

Lemma wp_on_sink_known {A} (m : IO PageSink A) (P : A -> PageSink -> Prop) (Q : A -> W -> Prop) w :
  wp m P anyhow (tw_sink w) -> (forall a s, P a s -> Q a (set_sink s w)) -> wp (on_sink m) Q anyhow w.
Proof. intros H HQ. unfold on_sink. apply wp_zoom. eapply wp_mono; [exact H | intros a s; apply HQ | auto]. Qed.

Lemma world_begin G offs L w (Q : PageOrdinal * Z -> W -> Prop) :
  world (is_laid G offs) G L w ->
  (forall s off, zlen G < i32_max -> world (is_begun G offs off) G L (set_sink s w) -> Q (zlen G, off) (set_sink s w)) ->
  wp (on_sink begin_page) Q anyhow w.
Proof.
  intros Hw HQ. eapply wp_on_sink_known; [apply (laid_begin filter _ _ _ _ (wd_sink _ _ _ _ Hw))|].
  intros [o off] s (Ho & Hlt & Hb). simpl in *. assert (zlen (bytes_of c <$> G) = zlen G) as Hz by (unfold zlen; now rewrite length_fmap).
  rewrite Hz in Ho. subst o. apply HQ; [exact Hlt|]. destruct Hw. split; assumption.
Qed.

Lemma world_write G offs off L pg w (Q : unit -> W -> Prop) :
  world (is_begun G offs off) G L w -> sound c (G ++ [pg]) pg -> is_new pg -> zlen (bytes_of c pg) <= usize_max -> (length old <= length G)%nat ->
  (forall s, world (is_laid (G ++ [pg]) (offs ++ [off])) (G ++ [pg]) L (set_sink s w) -> Q tt (set_sink s w)) ->
  wp (on_sink (write_page (bytes_of c pg))) Q anyhow w.
Proof.
  intros Hw Hpg Hnew Hlen Hold HQ. eapply wp_on_sink_known; [apply (begun_write filter _ _ _ _ _ _ (wd_sink _ _ _ _ Hw) Hlen)|].
  intros [] s Hl. apply HQ. eapply (world_grow _ _ G (G ++ [pg])); [exact Hw | apply grows_app | now rewrite fmap_app | | | | | reflexivity].
  - now rewrite take_app_le.
  - intros i p Hi. destruct (decide (i < length G)%nat) as [H|H]; [left; now rewrite lookup_app_l in Hi|].
    right. rewrite lookup_app_r in Hi by lia. apply list_lookup_singleton_Some in Hi as [_ <-]. now split.
  - apply chain_app_page, Hw.
  - apply Hw.
Qed.

Lemma world_link G offs L L' p off r pg w (Q : unit -> W -> Prop) :
  world (is_laid G offs) G L w -> page G p = Some pg -> (forall b, pg <> OldPage b) -> (forall v, pg <> BlobPage v) ->
  offs !! Z.to_nat p = Some off -> (Z.of_nat (length old) <= p) -> page_ordinal_ok r -> chain (link G p (Some r)) None L' -> NoDup L' ->
  (forall s, world (is_laid (link G p (Some r)) offs) (link G p (Some r)) L' (set_sink s w) -> Q tt (set_sink s w)) ->
  wp (on_sink (patch_at (off + RIGHT_SIBLING_OFFSET) (i64_le r))) Q anyhow w.
Proof.
  intros Hw Hp Hnold Hnblob Hoff Hold Hr Hch Hnd HQ.
  assert (G !! Z.to_nat p = Some pg) as Hpg by (unfold page in Hp; destruct (p <? 0); [discriminate | exact Hp]).
  pose proof (Forall_lookup_1 _ _ _ _ (wd_sound _ _ _ _ Hw) Hpg) as Hs.
  destruct (bytes_of_link G pg r Hs Hnold Hnblob Hr) as [Hlink Hlen].
  eapply wp_on_sink_known; [eapply (laid_link filter _ _ _ _ _ _ _ r (wd_sink _ _ _ _ Hw)); [rewrite list_lookup_fmap, Hpg; reflexivity | exact Hoff | exact Hlen]|].
  intros [] s Hl. apply HQ. rewrite Hlink, <- fmap_link in Hl by exact Hp.
  pose proof (page_bound _ _ _ Hp) as Hb. eapply (world_grow _ _ G (link G p (Some r))); [exact Hw | now apply grows_link | exact Hl | | | exact Hch | exact Hnd | reflexivity].
  - unfold link. apply take_alter_ge. lia.
  - intros i q Hi. destruct (decide (i = Z.to_nat p)) as [->|Hne]; [|left; unfold link in Hi; now rewrite list_lookup_alter_ne in Hi by congruence].
    right. unfold link in Hi. rewrite list_lookup_alter_eq, Hpg in Hi. injection Hi as <-.
    split; [|destruct pg; cbn; auto; now destruct (Hnold bytes)].
    apply (grows_sound _ G); [now apply grows_link|]. clear -Hs Hr Hnold Hnblob. destruct pg; simpl in *; [now destruct (Hnold bytes) | | | now destruct (Hnblob value)].
    + destruct Hs as (H1 & H2 & H3 & _). split_and!; auto. now intros q [= <-].
    + destruct Hs as (H1 & H2 & H3 & H4 & H5 & _). split_and!; auto. now intros q [= <-].
Qed.

(** ** Levels above the leaves *)

(** The nodes of height [h] a level is collecting, with the leaves below them. *)
Record holds G (h : nat) (l : Level X) (items : list Item) (L : list PageOrdinal) : Prop := mkHolds {
  ho_fits : exists m, page_fits layout false l items m page_size;
  ho_nodes : exists seps kids Ls, Forall2 (item_of_key E layout) seps items /\ Forall2 kid_item kids items /\ Forall (key_good c) seps /\
    Forall2 (sub G h) kids Ls /\ L = concat Ls /\ Forall2 (starts_at G) seps Ls /\ Forall (fun k => k < zlen G) kids /\
    (seps <> [] -> lv_first_key l = list.head seps);
}.

(** The page of this level that was written last. *)
Definition prev_ok G (offs : list Z) (l : Level X) : Prop :=
  match lv_prev_ordinal l, lv_prev_offset l with
  | None, None => True
  | Some p, Some off => Z.of_nat (length old) <= p /\ offs !! Z.to_nat p = Some off /\
      exists st items m seps kids r, page G p = Some (InnerPage st items m seps kids r)
  | _, _ => False
  end.

Fixpoint ups G (offs : list Z) (h : nat) (ls : list (Level X)) (L : list PageOrdinal) : Prop :=
  match ls with
  | [] => L = []
  | l :: ls => exists L1 L2 items, L = L1 ++ L2 /\ ups G offs (S h) ls L1 /\ holds G h l items L2 /\ prev_ok G offs l
  end.

(** The highest level has no page before it, and above the leaves it is not empty. *)
Definition top_ok (ls : list (Level X)) : Prop :=
  exists l, ls !! Nat.pred (length ls) = Some l /\ lv_prev_ordinal l = None /\ (length ls = 1%nat \/ level_count l <> 0).

Lemma holds_grows G G' h l items L : grows G G' -> zlen G <= zlen G' -> holds G h l items L -> holds G' h l items L.
Proof.
  intros Hg Hz [Hf (seps & kids & Ls & H1 & H2 & H3 & H4 & H5 & H6 & H7 & H8)]. split; [exact Hf|].
  exists seps, kids, Ls. split_and!; auto.
  - eapply Forall2_impl; [exact H4|]. intros; eapply grows_sub; eauto.
  - eapply grows_starts_all; eauto.
  - eapply Forall_impl; [exact H7|]. simpl. lia.
Qed.

Lemma prev_ok_grows G G' offs offs' l : grows G G' -> offs `prefix_of` offs' -> prev_ok G offs l -> prev_ok G' offs' l.
Proof.
  intros Hg [more ->]. unfold prev_ok. destruct (lv_prev_ordinal l), (lv_prev_offset l); try easy.
  intros (H1 & H2 & st & items & m & seps & kids & r & H3). split; [exact H1|]. split; [now apply lookup_app_l_Some|].
  destruct (grows_inner _ _ Hg _ _ _ _ _ _ _ H3) as [r' H4]. eauto 10.
Qed.

Lemma ups_grows G G' offs offs' : grows G G' -> zlen G <= zlen G' -> offs `prefix_of` offs' ->
  forall ls h L, ups G offs h ls L -> ups G' offs' h ls L.
Proof.
  intros Hg Hz Hp. induction ls as [|l ls IH]; intros h L; simpl; [easy|]. intros (L1 & L2 & items & -> & Hu & Hh & Hpr).
  exists L1, L2, items. split; [reflexivity|]. split; [auto|]. split; [eapply holds_grows; eauto | eapply prev_ok_grows; eauto].
Qed.

Lemma holds_count G h l items L : holds G h l items L -> level_count l = zlen items.
Proof. intros [[m Hf] _]. exact (level_holds_count _ _ (pf_holds _ _ _ _ _ _ Hf)). Qed.

(** A level just written starts over. *)
Lemma holds_reset G h l o off : page_ordinal_ok o -> holds G h (set_prev o off (Level_reset l)) [] [].
Proof.
  intros Ho. split.
  - apply page_fits_empty; [apply Hc..|]. now intros p [= <-].
  - exists [], [], []. split_and!; try constructor.
Qed.

Lemma holds_new G h : holds G h Level_new [] [].
Proof.
  split.
  - apply page_fits_empty; [apply Hc..|]. now intros p [=].
  - exists [], [], []. split_and!; try constructor.
Qed.

(** A level takes one more node. *)
Lemma holds_add G h l items L sep o d Lo m' extras :
  holds G h l items L -> key_good c sep -> d = dig sep -> page_ordinal_ok o -> o < zlen G -> sub G h o Lo -> starts_at G sep Lo ->
  (items = [] -> lv_first_key l = Some sep) ->
  internal_meta_size layout (zlen items + 1) = Some m' ->
  PAGE_PREFIX_LEN + 8 * digest_slots layout (zlen items + 1) + m' + zlen (lv_payload l) + zlen (stored_key c sep) + 8 <= page_size ->
  holds G h (level_add d (stored_key c sep) (i64_le o) None extras l)
    (items ++ [mkItem (stored_key c sep) (i64_le o) None (dig sep)]) (L ++ Lo).
Proof.
  intros [[m Hf] (seps & kids & Ls & H1 & H2 & H3 & H4 & -> & H6 & H7 & H8)] Hsep -> Ho Hlt Hsub Hst Hfirst Hm Hfit.
  destruct Hsep as (Hok & Hval & Hkf). set (it := mkItem _ _ _ _). split.
  - exists m'. apply (page_fits_add layout false l items m page_size it); [exact Hf | | exact Hm | ].
    + split; simpl; [pose proof (kf_len _ _ _ Hkf); unfold stored_key; destruct (omitted_keys layout); [vm_compute; discriminate | assumption] | | now apply dig_range | eauto].
      unfold stored_key. now intros ->.
    + unfold it. simpl. rewrite zlen_i64_le. lia.
  - exists (seps ++ [sep]), (kids ++ [o]), (Ls ++ [Lo]). rewrite concat_app. simpl. rewrite app_nil_r.
    split_and!; repeat (apply Forall2_app || apply Forall_app; try split); auto; try (constructor; [|constructor]); try assumption; try easy.
    intros _. destruct seps as [|s seps]; simpl.
    + apply Forall2_nil_inv_l in H1. auto.
    + now rewrite H8.
Qed.

Lemma holds_set_first G h l L sep : holds G h l [] L -> holds G h (set_first_key sep l) [] L.
Proof.
  intros [[m [? [] ? ? ? ? ? ?]] (seps & kids & Ls & H1 & H2 & H3 & H4 & H5 & H6 & H7 & H8)]. split.
  - exists m. split; auto. split; auto.
  - apply Forall2_nil_inv_r in H1 as ->. exists [], kids, Ls. split_and!; auto. easy.
Qed.

(** An empty page has room for a separator that passed the check of [push]. *)
Lemma empty_fits G h l L sep :
  holds G h l [] L -> key_good c sep -> exists m', internal_meta_size layout (zlen (@nil Item) + 1) = Some m' /\
  PAGE_PREFIX_LEN + 8 * digest_slots layout (zlen (@nil Item) + 1) + m' + zlen (lv_payload l) + zlen (stored_key c sep) + 8 <= page_size.
Proof.
  intros [[m Hf] _] (_ & _ & Hk). pose proof (pf_holds _ _ _ _ _ _ Hf) as [Hp _ _ _]. pose proof (kf_page _ _ _ Hk) as Hfit.
  pose proof (internal_entry_area_le layout (zlen (stored_key c sep)) (zlen_nonneg _)) as Hle.
  pose proof (Z.le_trans _ _ _ Hle Hfit) as H. unfold entry_area in H.
  destruct (small_areas Internal layout 1 ltac:(auto)) as (m1 & Hm1 & _). rewrite Hm1 in H. cbn [default] in H. unfold id in H.
  exists m1. split; [exact Hm1|]. rewrite Hp. change (zlen (items_bytes [])) with 0. change (zlen (@nil Item) + 1) with 1. lia.
Qed.

(** ** Handing a node on to the level above *)

(** The node goes into the parent, the level starts over. *)
Definition add_node (level : nat) (ordinal : PageOrdinal) (offset : Z) (separator : list byte) : IO W unit :=
  let! digest := lift_result (ke_digest E separator) in
  let! _ := on_level (S level) (level_add digest (stored_key c separator) (i64_le ordinal) None []) in
  on_level level (fun l => set_prev ordinal offset (Level_reset l)).

(** What [rotate] does once the page is written. *)
Definition promote (fuel level : nat) (ordinal : PageOrdinal) (offset : Z) : IO W unit :=
  let! state := get_level level in
  let! separator := lift_result (ok_or (lv_first_key state) Error_corrupt) in
  let parent := S level in
  let! w := here in
  let levels := length (tw_levels w) in
  let! _ := if (levels <=? parent)%nat then
              fail! MAX_LEVELS <=? Z.of_nat levels with Failed Error_too_high in
              update (fun w => set_levels (tw_levels w ++ [Level_new]) w)
            else sret tt in
  let! up := get_level parent in
  let! _ := if level_count up =? 0 then on_level parent (set_first_key separator) else sret tt in
  let stored := stored_key c separator in
  let! needs := internal_needs c parent (zlen stored) in
  let! _ := if page_size <? needs then
              let! _ := rotate on_value_ref c fuel parent true in
              let! up := get_level parent in
              if level_count up =? 0 then on_level parent (set_first_key separator) else sret tt
            else sret tt in
  add_node level ordinal offset separator.

Lemma rotate_unfold fuel level up :
  rotate on_value_ref c (S fuel) level up =
  let! '(ordinal, offset) := on_sink begin_page in
  let! _ := flush_page on_value_ref c level ordinal in
  let! state := get_level level in
  let! _ := match lv_prev_offset state with
            | Some prev_offset => on_sink (patch_at (prev_offset + RIGHT_SIBLING_OFFSET) (i64_le ordinal))
            | None => sret tt
            end in
  if negb up then on_level level (fun l => set_prev ordinal offset (Level_reset l)) else promote fuel level ordinal offset.
Proof. reflexivity. Qed.

(** A step that leaves the levels below [n] and the caller alone. *)
Record step (n : nat) (L : list PageOrdinal) w G (offs : list Z) w' G' (offs' : list Z) : Prop := {
  sp_world : world (is_laid G' offs') G' L w';
  sp_grows : grows G G';
  sp_zlen : zlen G <= zlen G';
  sp_offs : offs `prefix_of` offs';
  sp_low : take n (tw_levels w') = take n (tw_levels w);
  sp_caller : tw_caller w' = tw_caller w;
  sp_entries : tw_entries w' = tw_entries w;
  sp_pending : tw_pending_extra w' = tw_pending_extra w;
}.

Definition rotates (fuel : nat) : Prop := forall n w G offs L L' l,
  world (is_laid G offs) G L w -> ups G offs n (drop (S n) (tw_levels w)) L' -> tw_levels w !! S n = Some l -> 0 < level_count l ->
  top_ok (tw_levels w) ->
  wp (rotate on_value_ref c fuel (S n) true)
    (fun _ w' => exists G' offs' l', step (S n) L w G offs w' G' offs' /\ ups G' offs' n (drop (S n) (tw_levels w')) L' /\
       top_ok (tw_levels w') /\ tw_levels w' !! S n = Some l' /\ level_count l' = 0) anyhow w.

Lemma world_levels K G L w ls : world K G L w -> (length ls <= 64)%nat -> world K G L (set_levels ls w).
Proof. intros [] Hls. split; assumption. Qed.

(** The last two steps: the node goes into the parent, the level starts over. *)
Lemma promote_add n o off w G offs L La Lb Lo l up items sep m' :
  world (is_laid G offs) G L w -> tw_levels w !! n = Some l -> tw_levels w !! S n = Some up ->
  ups G offs (S n) (drop (S (S n)) (tw_levels w)) La -> holds G n up items Lb -> prev_ok G offs up ->
  key_good c sep -> sub G n o Lo -> starts_at G sep Lo -> page_ordinal_ok o -> o < zlen G ->
  (items = [] -> lv_first_key up = Some sep) ->
  internal_meta_size layout (zlen items + 1) = Some m' ->
  PAGE_PREFIX_LEN + 8 * digest_slots layout (zlen items + 1) + m' + zlen (lv_payload up) + zlen (stored_key c sep) + 8 <= page_size ->
  (top_ok (tw_levels w) \/ (length (tw_levels w) = S (S n) /\ lv_prev_ordinal up = None)) ->
  wp (add_node n o off sep)
    (fun _ w' => step n L w G offs w' G offs /\ ups G offs n (drop (S n) (tw_levels w')) ((La ++ Lb) ++ Lo) /\
       top_ok (tw_levels w') /\ tw_levels w' !! n = Some (set_prev o off (Level_reset l))) anyhow w.
Proof.
  intros Hw Hl Hup Hu Hh Hpr Hsep Hsub Hst Ho Hlt Hfirst Hm Hfit Htop. destruct Hsep as (Hok & Hval & Hkf).
  unfold add_node. rewrite (digest_ok sep Hok). apply wp_bind, wp_lift_result. apply wp_bind, wp_on_level. exists up. split; [exact Hup|].
  set (up' := level_add _ _ _ _ _ up). apply wp_on_level. exists l.
  assert (n <> S n) as Hne by lia. split; [cbn; now rewrite list_lookup_insert_ne|]. cbn [set_levels tw_levels].
  assert ((n < length (tw_levels w))%nat) as Hlen by (now apply lookup_lt_Some in Hl).
  assert ((S n < length (tw_levels w))%nat) as Hlen' by (now apply lookup_lt_Some in Hup).
  split; [|split; [|split]].
  - split; try reflexivity; [ | apply grows_refl | cbn].
    { pose proof (wd_few _ _ _ _ Hw). do 2 (apply world_levels; [|cbn; rewrite ?length_insert; assumption]). exact Hw. }
    rewrite take_insert_ge, take_insert_ge by lia. reflexivity.
  - cbn. rewrite drop_insert_lt by lia. rewrite (drop_S _ up').
    2:{ rewrite list_lookup_insert_eq; [reflexivity | lia]. }
    rewrite drop_insert_lt by lia. cbn [ups]. exists La, (Lb ++ Lo). eexists. split; [now rewrite app_assoc|]. split; [exact Hu|]. split; [|exact Hpr].
    exact (holds_add G n up items Lb sep o (dig sep) Lo m' [] Hh (conj Hok (conj Hval Hkf)) eq_refl Ho Hlt Hsub Hst Hfirst Hm Hfit).
  - cbn. unfold top_ok. rewrite !length_insert. destruct (decide (Nat.pred (length (tw_levels w)) = S n)) as [Hlast|Hlast].
    + exists up'. rewrite Hlast, list_lookup_insert_ne, list_lookup_insert_eq by lia. split; [reflexivity|]. split.
      * destruct Htop as [(t & Ht & Hn & _)|[_ Hn]]; [|exact Hn]. rewrite Hlast, Hup in Ht. now injection Ht as <-.
      * right. unfold up', level_count. cbn. rewrite zlen_app. pose proof (zlen_nonneg (lv_sizes up)). change (zlen [_]) with 1. lia.
    + destruct Htop as [(t & Ht & Hn & Hcnt)|[Hlen2 _]]; [|lia]. exists t. rewrite !list_lookup_insert_ne by lia. auto.
  - cbn. rewrite list_lookup_insert_eq; [reflexivity|]. now rewrite length_insert.
Qed.

Lemma wp_needs_known n len w up (Q : Z -> W -> Prop) :
  tw_levels w !! n = Some up ->
  (forall m', internal_meta_size layout (level_count up + 1) = Some m' ->
     Q (PAGE_PREFIX_LEN + m' + 8 * digest_slots layout (level_count up + 1) + zlen (lv_payload up) + len + 8) w) ->
  wp (internal_needs c n len) Q anyhow w.
Proof.
  intros Hup HQ. unfold internal_needs. apply wp_bind, wp_get_level. exists up. split; [exact Hup|].
  apply wp_bind, wp_expect_known. intros m' Hm. apply wp_bind, wp_expect_known. intros d Hd. apply wp_ret.
  unfold digest_area_size, checked_mul in Hd. destruct (_ <=? _); [|discriminate]. injection Hd as <-.
  rewrite (Z.mul_comm _ 8). now apply HQ.
Qed.

Lemma take_shorter {A} (l k : list A) n n' : (n <= n')%nat -> take n' l = take n' k -> take n l = take n k.
Proof. intros Hn H. rewrite <- (Nat.min_l n n' Hn), <- !take_take. now rewrite H. Qed.

Lemma step_trans n n' L w1 G1 o1 w2 G2 o2 w3 G3 o3 : (n <= n')%nat ->
  step n' L w1 G1 o1 w2 G2 o2 -> step n L w2 G2 o2 w3 G3 o3 -> step n L w1 G1 o1 w3 G3 o3.
Proof.
  intros Hn [] []. split; try congruence; [eapply grows_trans; eauto | lia | etrans; eauto|].
  rewrite sp_low1. eapply take_shorter; eauto.
Qed.

Lemma step_levels n L w G offs ls : world (is_laid G offs) G L w -> (length ls <= 64)%nat -> take n ls = take n (tw_levels w) ->
  step n L w G offs (set_levels ls w) G offs.
Proof. intros Hw Hls Ht. split; try reflexivity; [now apply world_levels | apply grows_refl | exact Ht]. Qed.

(** What is known when a node is handed on. *)
Definition node_ready (n : nat) (o : PageOrdinal) (Lo : list PageOrdinal) (sep : list byte) G : Prop :=
  key_good c sep /\ sub G n o Lo /\ starts_at G sep Lo /\ page_ordinal_ok o /\ o < zlen G.

Lemma node_ready_grows n o Lo sep G G' : grows G G' -> zlen G <= zlen G' -> node_ready n o Lo sep G -> node_ready n o Lo sep G'.
Proof.
  intros Hg Hz (H1 & H2 & H3 & H4 & H5). split_and!; auto; [eapply grows_sub; eauto | | lia].
  eapply grows_starts; [exact Hg | eapply sub_leaves; eauto | exact H3].
Qed.

Definition handed_on (n : nat) (o : PageOrdinal) (off : Z) (L L1 Lo : list PageOrdinal) (l : Level X) w G offs (w' : W) : Prop :=
  exists G' offs', step n L w G offs w' G' offs' /\ ups G' offs' n (drop (S n) (tw_levels w')) (L1 ++ Lo) /\
    top_ok (tw_levels w') /\ tw_levels w' !! n = Some (set_prev o off (Level_reset l)).

Lemma handed_on_trans n o off L L1 Lo l w1 G1 o1 w2 G2 o2 w3 :
  step n L w1 G1 o1 w2 G2 o2 -> handed_on n o off L L1 Lo l w2 G2 o2 w3 -> handed_on n o off L L1 Lo l w1 G1 o1 w3.
Proof. intros H (G' & offs' & Hs & H'). exists G', offs'. split; [eapply step_trans; [|exact H|]; eauto | exact H']. Qed.

(** Into a parent that has nothing yet. *)
Lemma add_to_empty n o off w G offs L L1 Lo l up sep :
  world (is_laid G offs) G L w -> tw_levels w !! n = Some l -> tw_levels w !! S n = Some up -> level_count up = 0 ->
  ups G offs n (drop (S n) (tw_levels w)) L1 -> node_ready n o Lo sep G ->
  (top_ok (tw_levels w) \/ (length (tw_levels w) = S (S n) /\ lv_prev_ordinal up = None)) ->
  let w1 := set_levels (<[S n := set_first_key sep up]> (tw_levels w)) w in
  (exists m', internal_meta_size layout 1 = Some m' /\
     PAGE_PREFIX_LEN + m' + 8 * digest_slots layout 1 + zlen (lv_payload up) + zlen (stored_key c sep) + 8 <= page_size) /\
  wp (add_node n o off sep) (fun _ w' => handed_on n o off L L1 Lo l w G offs w') anyhow w1.
Proof.
  intros Hw Hl Hup Hz Hu (Hsep & Hsub & Hst & Ho & Hlt) Htop w1.
  assert ((S n < length (tw_levels w))%nat) as Hlen by (now apply lookup_lt_Some in Hup).
  rewrite (drop_S _ _ _ Hup) in Hu. destruct Hu as (La & Lb & items & -> & Hu & Hh & Hpr).
  assert (items = []) as -> by (apply nil_length_inv; pose proof (holds_count _ _ _ _ _ Hh); unfold zlen in *; lia).
  destruct (empty_fits _ _ _ _ sep Hh Hsep) as (m' & Hm & Hfit). split.
  { exists m'. change (zlen (@nil Item) + 1) with 1 in Hm, Hfit. split; [exact Hm | lia]. }
  apply wp_mono with (Q' := fun _ w' => step n L w1 G offs w' G offs /\ ups G offs n (drop (S n) (tw_levels w')) ((La ++ Lb) ++ Lo) /\
       top_ok (tw_levels w') /\ tw_levels w' !! n = Some (set_prev o off (Level_reset l))) (B' := anyhow); [| |auto].
  - eapply (promote_add n o off w1 G offs L La Lb Lo l (set_first_key sep up) []); eauto.
    + apply world_levels; [exact Hw|]. rewrite length_insert. apply Hw.
    + cbn. rewrite list_lookup_insert_ne; [exact Hl | lia].
    + cbn. apply list_lookup_insert_eq. exact Hlen.
    + cbn. rewrite drop_insert_lt by lia. exact Hu.
    + now apply holds_set_first.
    + unfold w1. cbn. destruct Htop as [(t & Ht & Hp & Hcnt)|[Hl2 Hp]]; [left | right; now rewrite length_insert].
      unfold top_ok. rewrite length_insert. destruct (decide (Nat.pred (length (tw_levels w)) = S n)) as [Hlast|Hlast].
      * rewrite Hlast, Hup in Ht. injection Ht as <-. exists (set_first_key sep up). rewrite Hlast, list_lookup_insert_eq by exact Hlen. auto.
      * exists t. rewrite list_lookup_insert_ne by congruence. auto.
  - intros [] w' (Hs & H). eapply handed_on_trans; [|exists G, offs; split; [exact Hs | exact H]].
    apply step_levels; [exact Hw | rewrite length_insert; apply Hw|]. apply take_insert_ge. lia.
Qed.

(** From the moment the parent exists. *)
Lemma promote_rest fuel n o off w G offs L L1 Lo l up sep :
  rotates fuel -> world (is_laid G offs) G L w -> tw_levels w !! n = Some l -> tw_levels w !! S n = Some up ->
  ups G offs n (drop (S n) (tw_levels w)) L1 -> node_ready n o Lo sep G ->
  (top_ok (tw_levels w) \/ (length (tw_levels w) = S (S n) /\ lv_prev_ordinal up = None /\ level_count up = 0)) ->
  wp (let! _ := if level_count up =? 0 then on_level (S n) (set_first_key sep) else sret tt in
      let! needs := internal_needs c (S n) (zlen (stored_key c sep)) in
      let! _ := if page_size <? needs then
                  let! _ := rotate on_value_ref c fuel (S n) true in
                  let! up := get_level (S n) in
                  if level_count up =? 0 then on_level (S n) (set_first_key sep) else sret tt
                else sret tt in
      add_node n o off sep)
    (fun _ w' => handed_on n o off L L1 Lo l w G offs w') anyhow w.
Proof.
  intros Hrot Hw Hl Hup Hu Hnode Htop. apply wp_bind. destruct (Z.eqb_spec (level_count up) 0) as [Hz|Hz].
  - apply wp_on_level. exists up. split; [exact Hup|].
    destruct (add_to_empty n o off w G offs L L1 Lo l up sep Hw Hl Hup Hz Hu Hnode) as [(m' & Hm & Hfit) Hadd]; [intuition|].
    apply wp_bind. eapply wp_needs_known; [cbn; apply list_lookup_insert_eq; now apply lookup_lt_Some in Hup|].
    intros m1 Hm1. change (level_count (set_first_key sep up)) with (level_count up) in *. rewrite Hz in *. change (0 + 1) with 1 in *.
    rewrite Hm in Hm1. injection Hm1 as <-. cbn [lv_payload set_first_key]. rewrite (proj2 (Z.ltb_ge _ _)) by lia.
    apply wp_bind, wp_ret. exact Hadd.
  - destruct Htop as [Htop|(_ & _ & ?)]; [|contradiction]. apply wp_ret, wp_bind. eapply wp_needs_known; [exact Hup|]. intros m1 Hm1.
    destruct (Z.ltb_spec page_size (PAGE_PREFIX_LEN + m1 + 8 * digest_slots layout (level_count up + 1) + zlen (lv_payload up) + zlen (stored_key c sep) + 8))
      as [Hbig|Hfit]; apply wp_bind.
    + apply wp_bind. assert (0 < level_count up) as Hpos by (pose proof (zlen_nonneg (lv_sizes up)); unfold level_count in *; lia).
      eapply wp_mono; [apply (Hrot n w G offs L L1 up Hw Hu Hup Hpos Htop) | |auto].
      intros [] w2 (G2 & offs2 & l2 & Hs & Hu2 & Htop2 & Hl2 & Hz2). apply wp_bind, wp_get_level. exists l2. split; [exact Hl2|].
      rewrite Hz2, Z.eqb_refl. apply wp_on_level. exists l2. split; [exact Hl2|].
      assert (tw_levels w2 !! n = Some l) as Hln.
      { rewrite <- (lookup_take_lt (tw_levels w2) (S n) n) by lia. rewrite (sp_low _ _ _ _ _ _ _ _ Hs), lookup_take_lt by lia. exact Hl. }
      pose proof (node_ready_grows _ _ _ _ _ _ (sp_grows _ _ _ _ _ _ _ _ Hs) (sp_zlen _ _ _ _ _ _ _ _ Hs) Hnode) as Hnode2.
      destruct (add_to_empty n o off w2 G2 offs2 L L1 Lo l l2 sep (sp_world _ _ _ _ _ _ _ _ Hs) Hln Hl2 Hz2 Hu2 Hnode2 (or_introl Htop2)) as [_ Hadd].
      eapply wp_mono; [exact Hadd | |auto]. intros [] w3 H3. destruct H3 as (G3 & offs3 & Hs3 & H3). exists G3, offs3.
      split; [|exact H3]. eapply (step_trans n (S n)); [lia | exact Hs | exact Hs3].
    + apply wp_ret. rewrite (drop_S _ _ _ Hup) in Hu. destruct Hu as (La & Lb & items & -> & Hu & Hh & Hpr).
      pose proof (holds_count _ _ _ _ _ Hh) as Hcnt. rewrite Hcnt in *. destruct Hnode as (Hsep & Hsub & Hst & Ho & Hlt).
      eapply wp_mono; [eapply (promote_add n o off w G offs L La Lb Lo l up items sep m1) | intros [] w' (Hs & H); exists G, offs; split; [exact Hs | exact H] | auto];
        eauto; [|lia]. intros ->. now destruct Hz.
Qed.

Lemma promote_handed fuel n o off w G offs L L1 Lo l sep :
  rotates fuel -> world (is_laid G offs) G L w -> tw_levels w !! n = Some l -> lv_first_key l = Some sep ->
  ups G offs n (drop (S n) (tw_levels w)) L1 -> node_ready n o Lo sep G -> top_ok (tw_levels w) ->
  wp (promote fuel n o off) (fun _ w' => handed_on n o off L L1 Lo l w G offs w') anyhow w.
Proof.
  intros Hrot Hw Hl Hfirst Hu Hnode Htop. assert ((n < length (tw_levels w))%nat) as Hlen by (now apply lookup_lt_Some in Hl).
  unfold promote. apply wp_bind, wp_get_level. exists l. split; [exact Hl|]. rewrite Hfirst. apply wp_bind, wp_lift_result. cbv zeta.
  apply wp_bind, wp_here, wp_bind. destruct (Nat.leb_spec (length (tw_levels w)) (S n)) as [Hle|Hlt].
  - assert (length (tw_levels w) = S n) as Hlen' by lia. apply wp_if; [intros _; apply wp_stop | intros Hmax%Z.leb_gt]. apply wp_update.
    set (w1 := set_levels _ w). assert (tw_levels w1 !! S n = Some Level_new) as Hup.
    { unfold w1. cbn. rewrite lookup_app_r, Hlen', Nat.sub_diag by lia. reflexivity. }
    apply wp_bind, wp_get_level. exists Level_new. split; [exact Hup|].
    rewrite drop_ge in Hu by lia. cbn in Hu. subst L1.
    assert (step n L w G offs w1 G offs) as Hs. { apply step_levels; [exact Hw | rewrite length_app; unfold MAX_LEVELS in Hmax; cbn; lia | apply take_app_le; lia]. }
    eapply wp_mono; [eapply (promote_rest fuel n o off w1 G offs L [] Lo l Level_new sep Hrot (sp_world _ _ _ _ _ _ _ _ Hs)) | |auto].
    + unfold w1. cbn. now rewrite lookup_app_l.
    + exact Hup.
    + rewrite (drop_S _ _ _ Hup). unfold w1. cbn. rewrite drop_ge by (rewrite length_app; cbn; lia).
      exists [], [], []. split; [reflexivity|]. split; [reflexivity|]. split; [apply holds_new | exact Logic.I].
    + exact Hnode.
    + right. unfold w1. cbn. rewrite length_app. cbn. split; [lia | split; reflexivity].
    + intros [] w' H. eapply handed_on_trans; [exact Hs | exact H].
  - apply wp_ret. destruct (lookup_lt_is_Some_2 _ _ Hlt) as [up Hup]. apply wp_bind, wp_get_level. exists up. split; [exact Hup|].
    now apply promote_rest with (L1 := L1); auto.
Qed.

(** ** Writing a page *)

Lemma world_old K G L w : world K G L w -> (length old <= length G)%nat.
Proof.
  intros Hw. pose proof (f_equal length (wd_old _ _ _ _ Hw)) as H. rewrite length_take, length_fmap in H. lia.
Qed.

Lemma world_offs G offs L w : world (is_laid G offs) G L w -> length offs = length G.
Proof. intros Hw. rewrite (laid_length _ _ _ _ _ (wd_sink _ _ _ _ Hw)). apply length_fmap. Qed.

Definition after_write (level : nat) (o : PageOrdinal) (l : Level X) (payload_base : Z) : IO W unit :=
  if Nat.eqb level 0 then
    let! _ := on_level level clear_extras in
    let! _ := update (set_pending 0) in
    hand_on on_value_ref o (lv_sizes l) (lv_overflow l) 0 payload_base (lv_extras l)
  else sret tt.

Lemma flush_written level o G offs off L l items m pg w (Q : unit -> W -> Prop) :
  world (is_begun G offs off) G L w -> tw_levels w !! level = Some l ->
  page_fits layout (Nat.eqb level 0) l items m page_size -> bytes_of c pg = written_page layout (Nat.eqb level 0) l items m None ->
  sound c (G ++ [pg]) pg -> is_new pg ->
  (forall s, world (is_laid (G ++ [pg]) (offs ++ [off])) (G ++ [pg]) L (set_sink s w) ->
     wp (after_write level o l (written_payload_base layout items m)) Q anyhow (set_sink s w)) ->
  wp (flush_page on_value_ref c level o) Q anyhow w.
Proof.
  intros Hw Hl Hf Hb Hs Hnew HQ. pose proof (level_holds_count _ _ (pf_holds _ _ _ _ _ _ Hf)) as Hcnt.
  pose proof (page_bytes_written _ _ _ _ _ _ Hf) as Hpage. pose proof (zlen_written_page _ _ _ _ _ _ Hf None) as Hz.
  destruct (written_bounds _ _ _ _ _ _ Hf) as (_ & _ & _ & _ & Hlen & Hlim).
  unfold flush_page. apply wp_bind, wp_get_level. exists l. split; [exact Hl|]. cbv zeta. rewrite Hcnt.
  apply wp_bind, wp_expect_known. intros d Hd. unfold digest_area_size, checked_mul in Hd. destruct (_ <=? _); [|discriminate]. injection Hd as <-.
  assert (forall Q' : Z -> W -> Prop, Q' m w ->
    wp (if Nat.eqb level 0 then tw_leaf_meta c (zlen items) else tw_internal_meta c (zlen items)) Q' anyhow w) as Hmeta.
  { intros Q' HQ'. pose proof (pf_meta _ _ _ _ _ _ Hf) as Hm. destruct (Nat.eqb level 0); apply wp_expect; exists m; split; assumption. }
  apply wp_bind, Hmeta. rewrite (Z.mul_comm _ 8).
  change (PAGE_PREFIX_LEN + 8 * digest_slots layout (zlen items) + m) with (written_payload_base layout items m).
  change (written_payload_base layout items m + zlen (lv_payload l)) with (written_len layout l items m).
  apply wp_if; [intros _; apply wp_stop | intros _]. rewrite Hpage, <- Hb. apply wp_bind.
  eapply world_write; [exact Hw | exact Hs | exact Hnew | rewrite Hb, Hz; unfold_consts; lia | exact (world_old _ _ _ _ Hw) | exact HQ].
Qed.

(** ** Rotating an internal level *)

Lemma starts_concat G sep seps L Ls : Forall2 (starts_at G) (sep :: seps) (L :: Ls) -> starts_at G sep (concat (L :: Ls)).
Proof.
  intros H. inversion H as [|? ? ? ? H1 _]; subst. unfold starts_at, first_key, rows in *. cbn [concat]. rewrite fmap_app, concat_app.
  destruct (concat (rows_at G <$> L)); [discriminate | exact H1].
Qed.

Lemma holds_node G h l items L : holds G h l items L -> items <> [] -> exists m seps kids sep,
  page_fits layout false l items m page_size /\ lv_first_key l = Some sep /\ key_good c sep /\ starts_at G sep L /\
  (forall G', sound c G' (InnerPage l items m seps kids None)) /\
  forall G' o, grows G G' -> page G' o = Some (InnerPage l items m seps kids None) -> o = zlen G -> sub G' (S h) o L.
Proof.
  intros [[m Hf] (seps & kids & Ls & H1 & H2 & H3 & H4 & -> & H6 & H7 & H8)] Hne.
  destruct seps as [|sep seps]; [apply Forall2_nil_inv_l in H1; contradiction|]. exists m, (sep :: seps), kids, sep.
  split; [exact Hf|]. split; [now apply H8|]. split; [now inversion H3|]. split; [|split].
  - inversion H6; subst. now apply (starts_concat _ _ seps).
  - intros G'. cbn. split_and!; auto; easy.
  - intros G' o Hg Ho ->. cbn. exists l, items, m, (sep :: seps), kids, None, Ls. split_and!; auto.
    + eapply Forall2_impl; [exact H4|]. intros; eapply grows_sub; eauto.
    + eapply grows_starts_all; eauto.
Qed.

Lemma prev_patch n G offs L w l o : world (is_laid G offs) G L w -> prev_ok G offs l -> page_ordinal_ok o ->
  forall Q : unit -> W -> Prop,
  (forall w' G', step n L w G offs w' G' offs -> tw_levels w' = tw_levels w -> (forall i, lv_prev_ordinal l <> Some i -> page G' i = page G i) -> Q tt w') ->
  wp (match lv_prev_offset l with
      | Some prev_offset => on_sink (patch_at (prev_offset + RIGHT_SIBLING_OFFSET) (i64_le o))
      | None => sret tt
      end) Q anyhow w.
Proof.
  intros Hw Hpr Ho Q HQ. unfold prev_ok in Hpr. destruct (lv_prev_ordinal l) as [p|], (lv_prev_offset l) as [off|]; try contradiction.
  2:{ apply wp_ret, (HQ w G); [|reflexivity | reflexivity]. split; try reflexivity; [exact Hw | apply grows_refl]. }
  destruct Hpr as (Hold & Hoff & st & items & m & seps & kids & r & Hp). pose proof (page_bound _ _ _ Hp) as Hb.
  eapply (world_link G offs L L p off o); [exact Hw | exact Hp | easy | easy | exact Hoff | exact Hold | exact Ho | | apply Hw |].
  - eapply chain_link_inner; [exact Hp | apply Hw].
  - intros s Hw'. apply (HQ _ (link G p (Some o))); [|reflexivity|].
    + split; try reflexivity; [exact Hw' | now apply grows_link | rewrite zlen_link; lia].
    + intros i Hi. rewrite page_link, decide_False by (lia || congruence). reflexivity.
Qed.

Lemma step_sink_write n G offs off L pg w s :
  world (is_laid (G ++ [pg]) (offs ++ [off])) (G ++ [pg]) L (set_sink s w) -> step n L w G offs (set_sink s w) (G ++ [pg]) (offs ++ [off]).
Proof.
  intros Hw. split; try reflexivity; [exact Hw | apply grows_app | rewrite zlen_app; pose proof (zlen_nonneg [pg]); lia | now exists [off]].
Qed.

Lemma zlen_ordinal_ok G : zlen G < i32_max -> page_ordinal_ok (zlen G).
Proof. intros H. split; [apply zlen_nonneg | fmt_lia]. Qed.

(** The level just written has its page behind it. *)
Lemma prev_ok_new G offs off G' offs' l st items m seps kids r :
  length offs = length G -> (length old <= length G)%nat -> (offs ++ [off]) `prefix_of` offs' ->
  page G' (zlen G) = Some (InnerPage st items m seps kids r) -> prev_ok G' offs' (set_prev (zlen G) off (Level_reset l)).
Proof.
  intros Hlen Hold [more ->] Hp. cbn. unfold zlen in *. split; [lia|]. split; [|eauto 10].
  rewrite Nat2Z.id, <- Hlen. apply lookup_app_l_Some. now rewrite list_lookup_middle.
Qed.

Lemma rotates_all fuel : rotates fuel.
Proof.
  induction fuel as [|fuel IH]; [intros n w G offs L L' l _ _ _ _ _; apply wp_stop|].
  intros n w G offs L L' l Hw Hu Hl Hpos Htop. rewrite rotate_unfold. apply wp_bind. eapply world_begin; [exact Hw|].
  intros s off Hlim Hw1. rewrite (drop_S _ _ _ Hl) in Hu. destruct Hu as (La & L2 & items & -> & Hu & Hh & Hpr).
  assert (items <> []) as Hne by (intros ->; pose proof (holds_count _ _ _ _ _ Hh) as H0; change (zlen []) with 0 in H0; lia).
  destruct (holds_node _ _ _ _ _ Hh Hne) as (m & seps & kids & sep & Hf & Hfirst & Hsep & Hst & Hsound & Hsub).
  pose proof (zlen_ordinal_ok G Hlim) as Ho. cbv beta iota. apply wp_bind.
  eapply (flush_written (S n) _ _ _ _ _ _ _ _ (InnerPage l items m seps kids None)); [exact Hw1 | exact Hl | exact Hf | reflexivity | exact (Hsound _) | exact I |]. intros s2 Hw2. apply wp_ret.
  apply wp_bind, wp_get_level. exists l. split; [exact Hl|]. apply wp_bind.
  set (pg := InnerPage l items m seps kids None) in *. pose proof (step_sink_write (S n) _ _ _ _ _ _ _ Hw2) as Hs2.
  set (w2 := set_sink s2 (set_sink s w)) in *.
  eapply (prev_patch (S n)); [exact Hw2 | eapply prev_ok_grows; [apply grows_app | | exact Hpr]; now exists [off] | exact Ho |].
  intros w3 G3 Hs3 Hlv3 Hpage3. cbn [negb].
  assert (step (S n) L w G offs w3 G3 (offs ++ [off])) as Hs.
  { eapply (step_trans _ (S n)); [lia | | exact Hs3]. destruct Hs2. split; assumption. }
  assert (page G3 (zlen G) = Some pg) as Hpg.
  { rewrite Hpage3; [apply page_new|]. intros Hp. unfold prev_ok in Hpr. rewrite Hp in Hpr.
    destruct (lv_prev_offset l); [|contradiction]. destruct Hpr as (_ & _ & ? & ? & ? & ? & ? & ? & Hin). apply page_bound in Hin. lia. }
  assert (tw_levels w3 = tw_levels w) as Hlv by (rewrite Hlv3; reflexivity).
  assert (node_ready (S n) (zlen G) L2 sep G3) as Hnode.
  { split; [exact Hsep|]. split; [apply (Hsub G3); [apply Hs | exact Hpg | reflexivity]|].
    split; [|split; [exact Ho | now apply page_bound in Hpg]]. eapply grows_starts; [apply Hs | | exact Hst].
    destruct Hh as [_ (? & ? & ? & _ & _ & _ & Hk & -> & _)]. apply Forall_concat. clear -Hk. induction Hk; constructor; auto. eapply sub_leaves; eauto. }
  eapply wp_mono; [eapply (promote_handed fuel (S n) (zlen G) off w3 G3 (offs ++ [off]) L La L2 l sep IH (sp_world _ _ _ _ _ _ _ _ Hs)) | |auto].
  - now rewrite Hlv.
  - exact Hfirst.
  - rewrite Hlv. eapply ups_grows; [apply Hs | apply Hs | now exists [off] | exact Hu].
  - exact Hnode.
  - now rewrite Hlv.
  - intros [] w4 (G4 & offs4 & Hs4 & Hu4 & Htop4 & Hl4). exists G4, offs4. eexists. split; [eapply (step_trans _ (S n)); [lia | exact Hs | exact Hs4]|].
    split; [|split; [exact Htop4 | split; [exact Hl4 | reflexivity]]]. rewrite (drop_S _ _ _ Hl4).
    exists (La ++ L2), [], []. split; [now rewrite app_nil_r|]. split; [exact Hu4|]. split; [apply holds_reset; exact Ho|].
    destruct (grows_inner _ _ (sp_grows _ _ _ _ _ _ _ _ Hs4) _ _ _ _ _ _ _ Hpg) as [r Hr].
    eapply prev_ok_new; [exact (world_offs _ _ _ _ Hw) | exact (world_old _ _ _ _ Hw) | apply Hs4 | exact Hr].
Qed.

(** ** Leaves *)

Definition leaf_prev (offs : list Z) (L : list PageOrdinal) (l : Level X) : Prop :=
  match last L with
  | None => lv_prev_ordinal l = None /\ lv_prev_offset l = None
  | Some p => lv_prev_ordinal l = Some p /\ Z.of_nat (length old) <= p /\ exists off, lv_prev_offset l = Some off /\ offs !! Z.to_nat p = Some off
  end.

(** The rows a leaf is collecting. *)
Record collects G (offs : list Z) (L : list PageOrdinal) (l : Level X) (items : list Item) (es : list row) : Prop := {
  co_fits : exists m, page_fits layout true l items m page_size;
  co_items : Forall2 (item_of c G) es items;
  co_good : Forall (row_good c) es;
  co_extras : lv_extras l = row_extra <$> es;
  co_first : es <> [] -> lv_first_key l = row_key <$> list.head es;
  co_prev : leaf_prev offs L l;
}.

Lemma rows_app G L L' : rows G (L ++ L') = rows G L ++ rows G L'.
Proof. unfold rows. now rewrite fmap_app, concat_app. Qed.

(** Every value of a leaf is handed on with the place it is at. *)
Lemma hand_on_given G o st items m es r : page G o = Some (LeafPage st items m es r) -> sound c G (LeafPage st items m es r) ->
  forall k i done w, (i + k = length es)%nat -> handed done (tw_caller w) ->
  wp (hand_on on_value_ref o (item_size <$> items) (it_blob <$> items) i (item_offset layout items m i) (row_extra <$> drop i es))
    (fun _ w' => exists s refs, w' = set_caller s w /\ handed (done ++ refs) s /\ Forall2 (given c G) (drop i es) refs) anyhow w.
Proof.
  intros Ho (Hf & Hit & _). induction k as [|k IH]; intros i done w Hi Hdone.
  - rewrite drop_ge by lia. apply wp_ret. exists (tw_caller w), []. rewrite app_nil_r. split; [now destruct w|]. split; [exact Hdone | constructor].
  - destruct (lookup_lt_is_Some_2 es i ltac:(lia)) as [e He]. destruct (Forall2_lookup_l _ _ _ _ _ Hit He) as (it & Hitm & Hk & Hv).
    rewrite (drop_S _ _ _ He). cbn [fmap list_fmap hand_on]. apply wp_bind, wp_expect. exists (item_size it). split; [now rewrite list_lookup_fmap, Hitm|].
    unfold item_size. cbv beta iota. apply wp_bind, wp_expect. exists (it_blob it). split; [now rewrite list_lookup_fmap, Hitm|].
    set (ref := match it_blob it with Some _ => _ | None => _ end).
    assert (given c G e (row_extra e, ref)) as Hgiven.
    { split; [reflexivity|]. cbn [snd]. unfold value_at in Hv. destruct (item_offset_bounds _ _ _ _ _ _ Hf i it Hitm) as [Hb1 Hb2].
      destruct (written_bounds _ _ _ _ _ _ Hf) as (_ & _ & _ & _ & Hlen & Hlim).
      pose proof (zlen_nonneg (it_key it)). pose proof (zlen_nonneg (it_value it)).
      destruct (item_offset_i32 _ _ _ _ _ _ Hf i) as [Hi0 _]; [apply lookup_lt_Some in Hitm; lia|].
      unfold ref. destruct (it_blob it) as [b|] eqn:Hb.
      - unfold ref_to. destruct Hv as [-> Hv]. auto.
      - unfold ref_to. cbn [pr_page pr_start pr_length]. rewrite Ho. exists i, it. split_and!; auto; [| rewrite <- Hv]; unfold wrap; apply Z.mod_small; fmt_lia. }
    apply wp_bind, wp_zoom. eapply wp_mono; [apply (Hcaller (row_extra e) ref done _ Hdone) | |auto]. intros [] s Hs.
    assert (item_offset layout items m (S i) = item_offset layout items m i + (zlen (it_key it) + zlen (it_value it))) as Hnext.
    { unfold item_offset, items_bytes. rewrite (take_S_r _ _ _ Hitm), fmap_app, concat_app. cbn. rewrite app_nil_r. unfold item_bytes.
      rewrite !zlen_app. lia. }
    rewrite <- Hnext. eapply wp_mono; [apply (IH (S i) (done ++ [(row_extra e, ref)]) (set_caller s w)); [lia | exact Hs] | |auto].
    intros [] w' (s' & refs & -> & Hs' & Hrefs). exists s', ((row_extra e, ref) :: refs). split; [reflexivity|].
    split; [now rewrite <- app_assoc in Hs' | now constructor].
Qed.

(** What has been handed on so far is what the leaves hold. *)
Definition told G (L : list PageOrdinal) w : Prop := exists done, handed done (tw_caller w) /\ Forall2 (given c G) (rows G L) done.

Lemma told_grows G G' L w w' : grows G G' -> Forall (is_leaf_page G) L -> tw_caller w' = tw_caller w -> told G L w -> told G' L w'.
Proof.
  intros Hg Hl Hcl (done & Hd & Hgv). exists done. rewrite Hcl. split; [exact Hd|]. rewrite (grows_rows _ _ Hg) by exact Hl. eapply grows_given; eauto.
Qed.

(** The leaf is in the file and on the chain. *)
Record leaf_written (l : Level X) (items : list Item) (es : list row) (L : list PageOrdinal) (off : Z) w G offs w' G' : Prop := {
  lw_world : world (is_laid G' (offs ++ [off])) G' (L ++ [zlen G]) w';
  lw_grows : grows G G';
  lw_zlen : zlen G <= zlen G';
  lw_levels : tw_levels w' = <[0%nat := clear_extras l]> (tw_levels w);
  lw_entries : tw_entries w' = tw_entries w;
  lw_page : exists m, page G' (zlen G) = Some (LeafPage l items m es None);
  lw_rows : rows G' (L ++ [zlen G]) = rows G L ++ es;
  lw_told : told G' (L ++ [zlen G]) w';
  lw_ordinal : page_ordinal_ok (zlen G);
}.

Lemma sound_leaf G offs L l items es m : collects G offs L l items es -> page_fits layout true l items m page_size ->
  forall pgs, sound c (G ++ pgs) (LeafPage l items m es None).
Proof.
  intros [_ Hi Hg _ _ _] Hf pgs. cbn. split_and!; auto; [eapply grows_items; [apply grows_app | exact Hi] | now intros p].
Qed.

(** The patch of the leaf before this one, if there is one. *)
Lemma leaf_patch G offs L w l off items es m : leaf_prev offs L l ->
  let o := zlen G in let pg := LeafPage l items m es None in
  world (is_laid (G ++ [pg]) (offs ++ [off])) (G ++ [pg]) L w -> Forall (is_leaf_page G) L -> page_ordinal_ok o ->
  forall Q : unit -> W -> Prop,
  (forall s, let G' := link_last (G ++ [pg]) L o in
     world (is_laid G' (offs ++ [off])) G' (L ++ [o]) (set_sink s w) -> grows (G ++ [pg]) G' -> zlen G <= zlen G' ->
     page G' o = Some (LeafPage l items m es None) -> Q tt (set_sink s w)) ->
  wp (match lv_prev_offset l with
      | Some prev_offset => on_sink (patch_at (prev_offset + RIGHT_SIBLING_OFFSET) (i64_le o))
      | None => sret tt
      end) Q anyhow w.
Proof.
  intros Hpr o pg Hw Hl Ho Q HQ.
  assert (forall p, p ∈ L -> 0 <= p < zlen G) as Hin.
  { intros p Hp. rewrite Forall_forall in Hl. destruct (Hl p Hp) as (? & ? & ? & ? & ? & H). now apply page_bound in H. }
  assert (o ∉ L) as Hnin by (intros H; apply Hin in H; lia).
  assert (NoDup (L ++ [o])) as Hnd.
  { apply NoDup_app. split; [apply Hw|]. split; [|apply NoDup_singleton]. intros x Hx Hx'. apply list_elem_of_singleton in Hx' as ->. contradiction. }
  assert (lv_prev_ordinal l = match last L with Some p => Some p | None => None end) as Hprev
    by (unfold leaf_prev in Hpr; destruct (last L); apply Hpr).
  pose proof (chain_snoc _ o l items m es L None (wd_chain _ _ _ _ Hw) (wd_nodup _ _ _ _ Hw) Hnin (page_new G pg) Hprev) as Hch.
  unfold leaf_prev, link_last in *. destruct (last L) as [p|] eqn:Hlast.
  - destruct Hpr as (Hp1 & Hold & off' & -> & Hoff). assert (p ∈ L) as HpL by (apply last_Some in Hlast as [l' ->]; apply elem_of_app; right; now left).
    rewrite Forall_forall in Hl. destruct (Hl p HpL) as (st & its & m0 & es0 & r & Hp). pose proof (Hin p HpL) as Hpb.
    eapply (world_link (G ++ [pg])); [exact Hw | apply page_app; exact Hp | easy | easy | | exact Hold | exact Ho | exact Hch | exact Hnd |].
    { now apply lookup_app_l_Some. }
    intros s Hw'. apply HQ; [exact Hw' | | |].
    + apply grows_link; lia.
    + rewrite zlen_link, zlen_app. pose proof (zlen_nonneg [pg]). lia.
    + rewrite page_link, decide_False by lia. apply page_new.
  - destruct Hpr as [_ ->]. apply wp_ret. specialize (HQ (tw_sink w)). assert (set_sink (tw_sink w) w = w) as Hself by now destruct w.
    rewrite Hself in HQ. apply HQ; [|apply grows_refl | rewrite zlen_app; pose proof (zlen_nonneg [pg]); lia | apply page_new].
    destruct Hw. split; try assumption.
Qed.

Lemma leaf_write G offs L l items es w (k : PageOrdinal -> Z -> IO W unit) (Q : unit -> W -> Prop) :
  world (is_laid G offs) G L w -> tw_levels w !! 0%nat = Some l -> collects G offs L l items es -> told G L w ->
  (forall off w' G', leaf_written l items es L off w G offs w' G' -> wp (k (zlen G) off) Q anyhow w') ->
  wp (let! '(ordinal, offset) := on_sink begin_page in
      let! _ := flush_page on_value_ref c 0 ordinal in
      let! state := get_level 0 in
      let! _ := match lv_prev_offset state with
                | Some prev_offset => on_sink (patch_at (prev_offset + RIGHT_SIBLING_OFFSET) (i64_le ordinal))
                | None => sret tt
                end in
      k ordinal offset) Q anyhow w.
Proof.
  intros Hw Hl Hco (done & Hd & Hgv) HQ. apply wp_bind. eapply world_begin; [exact Hw|]. intros s off Hlim Hw1. cbv beta iota.
  destruct (co_fits _ _ _ _ _ _ Hco) as [m Hf]. pose proof (zlen_ordinal_ok G Hlim) as Ho. set (pg := LeafPage l items m es None).
  pose proof (chain_leaves _ _ _ (wd_chain _ _ _ _ Hw)) as Hleaves.
  apply wp_bind. eapply (flush_written 0 _ _ _ _ _ _ _ _ pg); [exact Hw1 | exact Hl | exact Hf | reflexivity | eapply sound_leaf; eauto | exact I |].
  intros s2 Hw2. unfold after_write. cbn [Nat.eqb]. apply wp_bind, wp_on_level. exists l. split; [exact Hl|]. apply wp_bind, wp_update.
  pose proof (pf_holds _ _ _ _ _ _ Hf) as Hh. rewrite (lh_sizes _ _ Hh), (lh_overflow _ _ Hh), (co_extras _ _ _ _ _ _ Hco).
  assert (written_payload_base layout items m = item_offset layout items m 0) as ->.
  { unfold item_offset. rewrite take_0. change (zlen (items_bytes [])) with 0. lia. }
  eapply wp_mono; [apply (hand_on_given (G ++ [pg]) (zlen G) l items m es None (page_new _ _) (sound_leaf _ _ _ _ _ _ _ Hco Hf _) (length es) 0 done); [reflexivity | exact Hd] | |auto].
  rewrite drop_0. intros [] w3 (sc & refs & -> & Hd3 & Hrefs). apply wp_bind, wp_get_level. exists (clear_extras l).
  split; [cbn; apply list_lookup_insert_eq; now apply lookup_lt_Some in Hl|]. cbn [clear_extras lv_prev_offset]. apply wp_bind.
  eapply (leaf_patch G offs L _ l off items es m (co_prev _ _ _ _ _ _ Hco)); [| exact Hleaves | exact Ho |].
  { destruct Hw2. split; try assumption. cbn. now rewrite length_insert. }
  intros s4 G4 Hw4 Hg Hz4 Hp4. apply (HQ off _ G4). pose proof (grows_trans _ _ _ (grows_app G [pg]) Hg) as Hg4.
  assert (rows G4 (L ++ [zlen G]) = rows G L ++ es) as Hrows.
  { rewrite rows_app, (grows_rows _ _ Hg4) by exact Hleaves. f_equal. unfold rows. cbn. unfold rows_at. rewrite Hp4. apply app_nil_r. }
  split; try assumption; try reflexivity; [eauto|]. exists (done ++ refs). split; [exact Hd3|]. rewrite Hrows.
  apply Forall2_app; [now apply (grows_given c G G4) | now apply (grows_given c (G ++ [pg]) G4)].
Qed.

(** ** The whole writer *)

(** The writer has taken in these rows: some are on leaves, the others are being
    collected for the next one. *)
Record at_leaf w G (offs : list Z) (L : list PageOrdinal) (l : Level X) (items : list Item) (es : list row) : Prop := {
  al_world : world (is_laid G offs) G L w;
  al_level : tw_levels w !! 0%nat = Some l;
  al_collects : collects G offs L l items es;
  al_ups : ups G offs 0 (drop 1 (tw_levels w)) L;
  al_top : top_ok (tw_levels w);
  al_told : told G L w;
}.

Definition taken w (all : list row) : Prop := exists G offs L l items es, at_leaf w G offs L l items es /\ rows G L ++ es = all.

Lemma collects_reset G offs off G' L l : page_ordinal_ok (zlen G) -> length offs = length G -> (length old <= length G)%nat ->
  forall offs', (offs ++ [off]) `prefix_of` offs' ->
  collects G' offs' (L ++ [zlen G]) (set_prev (zlen G) off (Level_reset l)) [] [].
Proof.
  intros Ho Hlen Hold offs' [more ->]. split; try constructor; try easy.
  - apply page_fits_empty; [apply Hc..|]. now intros p [= <-].
  - unfold leaf_prev. rewrite last_snoc. cbn. unfold zlen in *. split; [reflexivity|]. split; [lia|]. exists off. split; [reflexivity|].
    rewrite Nat2Z.id, <- Hlen. apply lookup_app_l_Some. now rewrite list_lookup_middle.
Qed.

(** A full leaf is written and its first key goes up. *)
Lemma rotate_leaf fuel w G offs L l items es :
  at_leaf w G offs L l items es -> es <> [] ->
  wp (rotate on_value_ref c fuel 0 true)
    (fun _ w' => exists G' offs' L' l', at_leaf w' G' offs' L' l' [] [] /\ rows G' L' = rows G L ++ es) anyhow w.
Proof.
  intros [Hw Hl Hco Hu Htop Htold] Hne. destruct fuel as [|fuel]; [apply wp_stop|]. rewrite rotate_unfold.
  eapply leaf_write; [exact Hw | exact Hl | exact Hco | exact Htold|]. intros off w3 G3 [Hw3 Hg3 Hz3 Hlv3 Hen3 [m Hp3] Hr3 Ht3 Ho]. cbn [negb].
  destruct es as [|e es]; [contradiction|]. pose proof (co_first _ _ _ _ _ _ Hco Hne) as Hfirst. cbn in Hfirst.
  assert ((0 < length (tw_levels w))%nat) as Hlen by (now apply lookup_lt_Some in Hl).
  pose proof (Forall_inv (co_good _ _ _ _ _ _ Hco)) as [Hkey _].
  eapply wp_mono; [eapply (promote_handed fuel 0 (zlen G) off w3 G3 (offs ++ [off]) (L ++ [zlen G]) L [zlen G] (clear_extras l) (row_key e) (rotates_all fuel) Hw3) | |auto].
  - rewrite Hlv3. now apply list_lookup_insert_eq.
  - exact Hfirst.
  - rewrite Hlv3, drop_insert_lt by lia. eapply ups_grows; [exact Hg3 | exact Hz3 | now exists [off] | exact Hu].
  - split; [exact Hkey|]. split; [cbn; split; [reflexivity | eauto 10]|]. split; [|split; [exact Ho | now apply page_bound in Hp3]].
    unfold starts_at, first_key, rows. cbn. unfold rows_at. now rewrite Hp3.
  - rewrite Hlv3. destruct Htop as (t & Ht & Hn & Hcnt). unfold top_ok. rewrite length_insert.
    destruct (decide (Nat.pred (length (tw_levels w)) = 0%nat)) as [Hz|Hz].
    + rewrite Hz in *. rewrite Hl in Ht. injection Ht as <-. exists (clear_extras l). rewrite list_lookup_insert_eq by exact Hlen. split; [reflexivity|]. split; [exact Hn | left; lia].
    + exists t. rewrite list_lookup_insert_ne by congruence. auto.
  - intros [] w4 (G4 & offs4 & Hs & Hu4 & Htop4 & Hl4). exists G4, offs4, (L ++ [zlen G]). eexists.
    pose proof (chain_leaves _ _ _ (wd_chain _ _ _ _ Hw3)) as Hlv.
    split; [|rewrite (grows_rows _ _ (sp_grows _ _ _ _ _ _ _ _ Hs)) by exact Hlv; exact Hr3].
    split; [apply Hs | exact Hl4 | | exact Hu4 | exact Htop4 | eapply told_grows; [apply Hs | exact Hlv | apply Hs | exact Ht3]].
    apply (collects_reset G offs off); [exact Ho | exact (world_offs _ _ _ _ Hw) | exact (world_old _ _ _ _ Hw) | apply Hs].
Qed.

(** ** Taking a row in *)

Lemma collects_grows G G' offs offs' L l items es : grows G G' -> offs `prefix_of` offs' -> collects G offs L l items es -> collects G' offs' L l items es.
Proof.
  intros Hg [more ->] [Hf Hi Hgood Hx Hk Hp]. split; auto; [eapply grows_items; eauto|]. unfold leaf_prev in *. destruct (last L); [|exact Hp].
  destruct Hp as (H1 & H2 & off & H3 & H4). split_and!; auto. exists off. split; [exact H3 | now apply lookup_app_l_Some].
Qed.

Lemma collects_first G offs L l key : collects G offs L l [] [] -> collects G offs L (set_first_key key l) [] [].
Proof. intros [[m [? [] ? ? ? ? ? ?]] Hi Hg Hx _ Hp]. split; auto; [|easy]. exists m. split; auto. split; auto. Qed.

(** The leaf has room for one more entry of this size. *)
Definition room (l : Level X) (n : Z) : Prop := exists m', leaf_meta_size layout (level_count l + 1) = Some m' /\
  PAGE_PREFIX_LEN + m' + 8 * digest_slots layout (level_count l + 1) + zlen (lv_payload l) + n <= page_size.

Lemma collects_count G offs L l items es : collects G offs L l items es -> level_count l = zlen items /\ zlen es = zlen items.
Proof.
  intros [[m Hf] Hi _ _ _ _]. split; [exact (level_holds_count _ _ (pf_holds _ _ _ _ _ _ Hf))|]. unfold zlen. now rewrite (Forall2_length _ _ _ Hi).
Qed.

Lemma collects_add G offs L l items es e it :
  collects G offs L l items es -> row_good c e -> item_of c G e it -> item_ok layout true it ->
  room l (zlen (it_key it) + zlen (it_value it)) -> (es = [] -> lv_first_key l = Some (row_key e)) ->
  collects G offs L (level_add (it_digest it) (it_key it) (it_value it) (it_blob it) [row_extra e] l) (items ++ [it]) (es ++ [e]).
Proof.
  intros Hco Hgood Hit Hok (m' & Hm & Hfit) Hfirst. destruct (collects_count _ _ _ _ _ _ Hco) as [Hc1 _]. rewrite Hc1 in *.
  destruct Hco as [[m Hf] Hi Hg Hx Hk Hp]. split.
  - exists m'. apply (page_fits_add layout true l items m page_size it); [exact Hf | exact Hok | exact Hm | lia].
  - apply Forall2_app; [exact Hi | now constructor].
  - apply Forall_app. split; [exact Hg | now constructor].
  - cbn. now rewrite Hx, fmap_app.
  - intros _. cbn. destruct es as [|e0 es]; [now apply Hfirst | now rewrite Hk].
  - exact Hp.
Qed.

(** Level 0 changes. *)
Lemma at_leaf_level w G offs L l items es l' items' es' :
  at_leaf w G offs L l items es -> collects G offs L l' items' es' -> lv_prev_ordinal l' = lv_prev_ordinal l ->
  at_leaf (set_levels (<[0%nat := l']> (tw_levels w)) w) G offs L l' items' es'.
Proof.
  intros [Hw Hl _ Hu (t & Ht & Hn & Hcnt) Htold] Hco Hp. assert ((0 < length (tw_levels w))%nat) as Hlen by (now apply lookup_lt_Some in Hl).
  split; [apply world_levels; [exact Hw | rewrite length_insert; apply Hw] | now apply list_lookup_insert_eq | exact Hco | cbn; now rewrite drop_insert_lt by lia | | exact Htold].
  unfold top_ok. cbn. rewrite length_insert. destruct (decide (Nat.pred (length (tw_levels w)) = 0%nat)) as [Hz|Hz].
  - rewrite Hz, Hl in Ht. injection Ht as <-. exists l'. rewrite Hz, list_lookup_insert_eq by exact Hlen. split; [reflexivity|]. split; [congruence | left; lia].
  - exists t. rewrite list_lookup_insert_ne by congruence. auto.
Qed.

Lemma wp_inline_needs_known klen vlen w l (Q : Z -> W -> Prop) :
  tw_levels w !! 0%nat = Some l ->
  (forall m', leaf_meta_size layout (level_count l + 1) = Some m' ->
     Q (PAGE_PREFIX_LEN + m' + 8 * digest_slots layout (level_count l + 1) + zlen (lv_payload l) + klen + vlen) w) ->
  wp (inline_needs c klen vlen) Q anyhow w.
Proof.
  intros Hl HQ. unfold inline_needs. apply wp_bind, wp_get_level. exists l. split; [exact Hl|].
  apply wp_bind, wp_expect_known. intros m' Hm. apply wp_bind, wp_expect_known. intros d Hd. apply wp_ret.
  unfold digest_area_size, checked_mul in Hd. destruct (_ <=? _); [|discriminate]. injection Hd as <-.
  rewrite (Z.mul_comm _ 8). now apply HQ.
Qed.

Definition ready w (all : list row) (key : list byte) (G : list Page) (offs : list Z) (L : list PageOrdinal) (l : Level X) (items : list Item) (es : list row) : Prop :=
  at_leaf w G offs L l items es /\ rows G L ++ es = all /\ (es = [] -> lv_first_key l = Some key).

Lemma ensure_first w G offs L l items es key (Q : unit -> W -> Prop) :
  at_leaf w G offs L l items es ->
  (forall w' l', at_leaf w' G offs L l' items es -> (es = [] -> lv_first_key l' = Some key) -> Q tt w') ->
  wp (if level_count l =? 0 then on_level 0 (set_first_key key) else sret tt) Q anyhow w.
Proof.
  intros Hat HQ. pose proof (al_collects _ _ _ _ _ _ _ Hat) as Hco. destruct (collects_count _ _ _ _ _ _ Hco) as [Hc1 Hc2].
  destruct (Z.eqb_spec (level_count l) 0) as [Hz|Hz].
  - assert (items = [] /\ es = []) as [-> ->] by (split; apply nil_length_inv; unfold zlen in *; lia).
    apply wp_on_level. exists l. split; [apply Hat|]. apply (HQ _ (set_first_key key l)); [|reflexivity].
    apply (at_leaf_level _ _ _ _ l [] []); [exact Hat | now apply collects_first | reflexivity].
  - apply wp_ret, (HQ _ l); [exact Hat|]. intros ->. destruct Hz. rewrite Hc1, <- Hc2. reflexivity.
Qed.

Lemma empty_room G offs L l key : collects G offs L l [] [] -> key_good c key -> room l (zlen (stored_key c key) + 8).
Proof.
  intros Hco (_ & _ & Hk). destruct (collects_count _ _ _ _ _ _ Hco) as [Hc1 _]. destruct Hco as [[m Hf] _ _ _ _ _].
  pose proof (pf_holds _ _ _ _ _ _ Hf) as [Hp _ _ _]. pose proof (kf_page _ _ _ Hk) as H. unfold entry_area in H.
  destruct (small_areas Leaf layout 1 ltac:(auto)) as (m1 & Hm1 & _). rewrite Hm1 in H. cbn [default] in H. unfold id in H.
  exists m1. rewrite Hc1, Hp. change (zlen (@nil Item) + 1) with 1. change (zlen (items_bytes [])) with 0. split; [exact Hm1 | lia].
Qed.

(** Where the value goes: the leaf is written first when not even a reference fits. *)
Lemma push_room key vlen w all (k : bool -> IO W unit) (Q : unit -> W -> Prop) :
  taken w all -> key_good c key -> 0 <= vlen ->
  (forall (overflow : bool) w' G offs L l items es, ready w' all key G offs L l items es ->
     room l (zlen (stored_key c key) + if overflow then 8 else vlen) -> wp (k overflow) Q anyhow w') ->
  wp (let! level := get_level 0 in
      let! _ := if level_count level =? 0 then on_level 0 (set_first_key key) else sret tt in
      let! needs := inline_needs c (zlen (stored_key c key)) vlen in
      let! overflow :=
        if page_size <? needs then
          let! overflow_needs := inline_needs c (zlen (stored_key c key)) 8 in
          let! level := get_level 0 in
          let! _ := if (page_size <? overflow_needs) && (0 <? level_count level) then
                      let! _ := rotate on_value_ref c ROTATE_FUEL 0 true in
                      let! level := get_level 0 in
                      if level_count level =? 0 then on_level 0 (set_first_key key) else sret tt
                    else sret tt in
          let! needs := inline_needs c (zlen (stored_key c key)) vlen in
          sret (page_size <? needs)
        else sret false in
      k overflow) Q anyhow w.
Proof.
  intros (G & offs & L & l0 & items & es & Hat & Hall) Hkey Hv HQ. apply wp_bind, wp_get_level. exists l0. split; [apply Hat|].
  apply wp_bind. eapply ensure_first; [exact Hat|]. clear w l0 Hat. intros w l Hat Hfirst.
  apply wp_bind. eapply wp_inline_needs_known; [apply Hat|]. intros m1 Hm1. apply wp_bind.
  destruct (Z.ltb_spec page_size (PAGE_PREFIX_LEN + m1 + 8 * digest_slots layout (level_count l + 1) + zlen (lv_payload l) + zlen (stored_key c key) + vlen)) as [Hbig|Hfit].
  2:{ apply wp_ret. eapply (HQ false); [split; [exact Hat | split; [exact Hall | exact Hfirst]]|]. exists m1. split; [exact Hm1 | lia]. }
  (* the last check *)
  assert (forall w' G' offs' L' l' items' es', ready w' all key G' offs' L' l' items' es' -> room l' (zlen (stored_key c key) + 8) ->
    wp (let! needs := inline_needs c (zlen (stored_key c key)) vlen in sret (page_size <? needs))
      (fun overflow w'' => wp (k overflow) Q anyhow w'') anyhow w') as Hlast.
  { intros w' G' offs' L' l' items' es' Hr (m8 & Hm8 & Hroom). apply wp_bind. eapply wp_inline_needs_known; [apply Hr|]. intros m2 Hm2. apply wp_ret.
    rewrite Hm8 in Hm2. injection Hm2 as <-. eapply HQ; [exact Hr|]. exists m8. split; [exact Hm8|].
    destruct (Z.ltb_spec page_size (PAGE_PREFIX_LEN + m8 + 8 * digest_slots layout (level_count l' + 1) + zlen (lv_payload l') + zlen (stored_key c key) + vlen)); lia. }
  apply wp_bind. eapply wp_inline_needs_known; [apply Hat|]. intros m3 Hm3. rewrite Hm1 in Hm3. injection Hm3 as <-.
  apply wp_bind, wp_get_level. exists l. split; [apply Hat|]. apply wp_bind.
  destruct (collects_count _ _ _ _ _ _ (al_collects _ _ _ _ _ _ _ Hat)) as [Hc1 Hc2].
  destruct (Z.ltb_spec page_size (PAGE_PREFIX_LEN + m1 + 8 * digest_slots layout (level_count l + 1) + zlen (lv_payload l) + zlen (stored_key c key) + 8)) as [Hbig8|Hfit8]; cbn [andb].
  2:{ apply wp_ret, (Hlast w G offs L l items es); [split; [exact Hat | split; [exact Hall | exact Hfirst]]|]. exists m1. split; [exact Hm1 | lia]. }
  destruct (Z.ltb_spec 0 (level_count l)) as [Hpos|Hzero].
  - apply wp_bind. assert (es <> []) as Hne by (intros ->; rewrite Hc1, <- Hc2 in Hpos; now apply Z.lt_irrefl in Hpos).
    eapply wp_mono; [apply (rotate_leaf _ _ _ _ _ _ _ _ Hat Hne) | |auto]. intros [] w2 (G2 & offs2 & L2 & l2 & Hat2 & Hrows2).
    apply wp_bind, wp_get_level. exists l2. split; [apply Hat2|]. eapply ensure_first; [exact Hat2|]. intros w3 l3 Hat3 Hfirst3.
    apply (Hlast w3 G2 offs2 L2 l3 [] []); [split; [exact Hat3 | split; [now rewrite app_nil_r, Hrows2 | exact Hfirst3]]|].
    eapply empty_room; [apply Hat3 | exact Hkey].
  - assert (items = [] /\ es = []) as [-> ->] by (split; apply nil_length_inv; unfold zlen in *; lia).
    apply wp_ret, (Hlast w G offs L l [] []); [split; [exact Hat | split; [exact Hall | exact Hfirst]]|]. eapply empty_room; [apply Hat | exact Hkey].
Qed.

Lemma told_app G pgs L w w' : Forall (is_leaf_page G) L -> tw_caller w' = tw_caller w -> told G L w -> told (G ++ pgs) L w'.
Proof. intros. eapply told_grows; eauto. apply grows_app. Qed.

(** A value on a page of its own. *)
Lemma write_blob_ready value w all key G offs L l items es (Q : PageOrdinal -> W -> Prop) :
  ready w all key G offs L l items es -> PAGE_PREFIX_LEN + zlen value <= max_page ->
  (forall s off, let G' := G ++ [BlobPage value] in
     ready (set_sink s w) all key G' (offs ++ [off]) L l items es -> page G' (zlen G) = Some (BlobPage value) ->
     page_ordinal_ok (zlen G) -> Q (zlen G) (set_sink s w)) ->
  wp (write_blob_page value) Q anyhow w.
Proof.
  intros ([Hw Hl Hco Hu Htop Htold] & Hall & Hfirst) Hlen HQ. unfold write_blob_page. apply wp_bind. eapply world_begin; [exact Hw|].
  intros s off Hlim Hw1. cbv beta iota. apply wp_bind. change (blob_page_bytes value) with (bytes_of c (@BlobPage X value)).
  eapply (world_write _ _ _ _ (BlobPage value)); [exact Hw1 | exact Hlen | exact I | cbn; rewrite zlen_blob_page; pose proof max_page_range; fmt_lia | exact (world_old _ _ _ _ Hw) |].
  intros s2 Hw2. apply wp_ret. pose proof (chain_leaves _ _ _ (wd_chain _ _ _ _ Hw)) as Hlv.
  apply (HQ s2 off); [|apply page_new | now apply zlen_ordinal_ok]. split; [|split; [|exact Hfirst]].
  - split; [exact Hw2 | exact Hl | | | exact Htop | eapply told_app; [exact Hlv | reflexivity | exact Htold]].
    + eapply collects_grows; [apply grows_app | now exists [off] | exact Hco].
    + eapply ups_grows; [apply grows_app | rewrite zlen_app; pose proof (zlen_nonneg [@BlobPage X value]); lia | now exists [off] | exact Hu].
  - rewrite (grows_rows _ _ (grows_app G _)) by exact Hlv. exact Hall.
Qed.

(** The row is on the leaf being collected. *)
Lemma ready_add w all e G offs L l items es it :
  ready w all (row_key e) G offs L l items es -> row_good c e -> item_of c G e it -> item_ok layout true it ->
  room l (zlen (it_key it) + zlen (it_value it)) ->
  taken (set_levels (<[0%nat := level_add (it_digest it) (it_key it) (it_value it) (it_blob it) [row_extra e] l]> (tw_levels w)) w) (all ++ [e]).
Proof.
  intros (Hat & Hall & Hfirst) Hgood Hit Hok Hroom. exists G, offs, L. do 3 eexists. split; [|now rewrite <- Hall, <- app_assoc].
  eapply at_leaf_level; [exact Hat | | reflexivity]. apply collects_add; auto. apply Hat.
Qed.

(** What the writer remembers besides does not matter. *)
Lemma taken_frame w w' all : tw_sink w' = tw_sink w -> tw_levels w' = tw_levels w -> tw_caller w' = tw_caller w -> taken w all -> taken w' all.
Proof.
  intros H1 H2 H3 (G & offs & L & l & items & es & [Hw Hl Hco Hu Htop (done & Hd & Hg)] & Hall). exists G, offs, L, l, items, es. split; [|exact Hall].
  split; rewrite ?H2; try assumption; [destruct Hw; split; try assumption; [now rewrite H1 | now rewrite H2]|]. exists done. now rewrite H3.
Qed.

Lemma push_end w all extra : taken w all ->
  wp (let! _ := update (fun w => set_pending (tw_pending_extra w + extra_bytes extra) w) in
      let! _ := update (fun w => set_entries (tw_entries w + 1) w) in
      let! w := here in
      let! level := get_level 0 in
      if (tc_extra_budget c <? tw_pending_extra w) && (0 <? level_count level)
      then rotate on_value_ref c ROTATE_FUEL 0 true else sret tt) (fun _ w' => taken w' all) anyhow w.
Proof.
  intros Ht. apply wp_bind, wp_update, wp_bind, wp_update, wp_bind, wp_here.
  set (w1 := set_entries _ _). apply (taken_frame w w1) in Ht; [|reflexivity..]. destruct Ht as (G & offs & L & l & items & es & Hat & Hall).
  apply wp_bind, wp_get_level. exists l. split; [apply Hat|]. apply wp_if; intros Hb; [|apply wp_ret; exists G, offs, L, l, items, es; auto].
  apply andb_true_iff in Hb as [_ Hpos%Z.ltb_lt]. destruct (collects_count _ _ _ _ _ _ (al_collects _ _ _ _ _ _ _ Hat)) as [Hc1 Hc2].
  assert (es <> []) as Hne by (intros ->; rewrite Hc1, <- Hc2 in Hpos; now apply Z.lt_irrefl in Hpos).
  eapply wp_mono; [apply (rotate_leaf _ _ _ _ _ _ _ _ Hat Hne) | |auto]. intros [] w2 (G2 & offs2 & L2 & l2 & Hat2 & Hrows2).
  exists G2, offs2, L2, l2, [], []. split; [exact Hat2|]. now rewrite app_nil_r, Hrows2.
Qed.

Lemma push_taken w all key value extra :
  taken w all -> key_ok key -> validate_key E key = Ok tt -> zlen value <= max_page - PAGE_PREFIX_LEN ->
  wp (push extra_bytes on_value_ref c key value extra) (fun _ w' => taken w' (all ++ [(key, value, extra)])) anyhow w.
Proof.
  intros Ht Hok Hval Hvl. unfold push. apply wp_if; [intros _; apply wp_stop | intros Hkl%Z.ltb_ge]. apply wp_if; [intros _; apply wp_stop | intros _]. cbv zeta.
  apply wp_bind, wp_expect_known. intros m1 Hm1. apply wp_bind, wp_expect_known. intros d1 Hd1. apply wp_if; [intros _; apply wp_stop | intros Hmin%Z.ltb_ge].
  assert (key_good c key) as Hgood.
  { split; [exact Hok|]. split; [exact Hval|]. split; [exact Hkl | | exists (dig key); now apply digest_ok | intros []]. unfold entry_area, meta_area_size.
    rewrite Hm1. cbn [default]. unfold id. unfold digest_area_size, checked_mul in Hd1. destruct (_ <=? _); [|discriminate]. injection Hd1 as <-. lia. }
  pose proof (zlen_nonneg value) as Hv0. pose proof max_page_range as Hmax. eapply push_room; [exact Ht | exact Hgood | exact Hv0 |]. clear w Ht Hm1 Hd1 Hmin m1 d1.
  intros overflow w G offs L l items es Hr Hroom. rewrite (digest_ok key Hok). apply wp_bind, wp_lift_result.
  assert (row_good c (key, value, extra)) as Hrow by (split; [exact Hgood | exact Hvl]).
  assert (zlen (stored_key c key) <= u16_max /\ (omitted_keys layout = true -> stored_key c key = [])) as [Hs1 Hs2].
  { unfold stored_key. destruct (omitted_keys layout); split; auto; [vm_compute; discriminate | easy]. }
  assert (0 <= dig key <= u64_max) as Hdr by now apply dig_range.
  assert (item_of_key E layout key (mkItem (stored_key c key) value None (dig key))) as Hik by (split; reflexivity).
  apply wp_bind. apply wp_if; intros Hov.
  - apply wp_bind. eapply write_blob_ready; [exact Hr | lia |]. intros s off G' Hr' Hpg Ho.
    apply wp_on_level. exists l. split; [apply Hr'|].
    set (ref := mkPageRef (zlen G) PAGE_PREFIX_LEN (wrap 32 (zlen value))).
    apply (push_end _ (all ++ [(key, value, extra)]) extra).
    apply (ready_add _ all (key, value, extra) G' (offs ++ [off]) L l items es (mkItem (stored_key c key) (i64_le (zlen G)) (Some ref) (dig key)));
      [exact Hr' | exact Hrow | | |].
    + split; [exact Hik|]. unfold value_at. cbn. split; [exact Hpg|]. split; [reflexivity|]. unfold wrap. apply Z.mod_small. unfold_consts. lia.
    + split; cbn; auto.
    + cbn [it_key it_value]. rewrite zlen_i64_le. destruct Hroom as (m' & Hm' & Hfit). exists m'. split; [exact Hm'|].
      apply orb_true_iff in Hov as [->|Hsent%Z.leb_le]; [lia|]. destruct overflow; unfold_consts; lia.
  - apply orb_false_iff in Hov as [-> Hsent%Z.leb_gt]. apply wp_on_level. exists l. split; [apply Hr|].
    apply (push_end _ (all ++ [(key, value, extra)]) extra).
    apply (ready_add _ all (key, value, extra) G offs L l items es (mkItem (stored_key c key) value None (dig key))); [exact Hr | exact Hrow | | |].
    + split; [exact Hik | reflexivity].
    + split; cbn; auto.
    + exact Hroom.
Qed.

(** ** Finishing *)

(** The levels above one of them can be changed on their own. *)
Lemma ups_focus G offs n : forall ls h L, ups G offs h ls L -> exists L', ups G offs (h + n) (drop n ls) L' /\
  forall G' offs' ls', grows G G' -> zlen G <= zlen G' -> offs `prefix_of` offs' -> take n ls' = take n ls ->
    ups G' offs' (h + n) (drop n ls') L' -> ups G' offs' h ls' L.
Proof.
  induction n as [|n IH]; intros ls h L Hu; [exists L; rewrite Nat.add_0_r; auto|]. destruct ls as [|l ls].
  - cbn in Hu. subst L. exists []. split; [reflexivity|]. intros G' offs' ls' _ _ _ Ht. cbn in Ht. now destruct ls'.
  - destruct Hu as (L1 & L2 & items & -> & Hu & Hh & Hp). destruct (IH _ _ _ Hu) as (L' & Hu' & Hback). exists L'.
    rewrite Nat.add_succ_r. split; [exact Hu'|]. intros G' offs' ls' Hg Hz Ho Ht Hu2. destruct ls' as [|l' ls']; [discriminate|].
    injection Ht as -> Ht. exists L1, L2, items. split; [reflexivity|]. split; [now apply Hback|].
    split; [eapply holds_grows; eauto | eapply prev_ok_grows; eauto].
Qed.

Lemma rotate_taken fuel level w all l : taken w all -> tw_levels w !! level = Some l -> 0 < level_count l ->
  wp (rotate on_value_ref c fuel level true) (fun _ w' => taken w' all) anyhow w.
Proof.
  intros (G & offs & L & l0 & items & es & Hat & Hall) Hl Hpos. destruct level as [|n].
  - rewrite (al_level _ _ _ _ _ _ _ Hat) in Hl. injection Hl as <-.
    destruct (collects_count _ _ _ _ _ _ (al_collects _ _ _ _ _ _ _ Hat)) as [Hc1 Hc2].
    assert (es <> []) as Hne by (intros ->; rewrite Hc1, <- Hc2 in Hpos; now apply Z.lt_irrefl in Hpos).
    eapply wp_mono; [apply (rotate_leaf _ _ _ _ _ _ _ _ Hat Hne) | |auto]. intros [] w2 (G2 & offs2 & L2 & l2 & Hat2 & Hrows2).
    exists G2, offs2, L2, l2, [], []. split; [exact Hat2|]. now rewrite app_nil_r, Hrows2.
  - destruct Hat as [Hw Hl0 Hco Hu Htop Htold]. destruct (ups_focus G offs n _ _ _ Hu) as (L' & Hu' & Hback).
    rewrite drop_drop, Nat.add_0_l in Hu'. replace (1 + n)%nat with (S n) in Hu' by lia.
    eapply wp_mono; [apply (rotates_all fuel n w G offs L L' l Hw Hu' Hl Hpos Htop) | |auto].
    intros [] w' (G' & offs' & l' & Hs & Hu2 & Htop' & _). pose proof (sp_low _ _ _ _ _ _ _ _ Hs) as Hlow.
    exists G', offs', L, l0, items, es. split; [|rewrite (grows_rows _ _ (sp_grows _ _ _ _ _ _ _ _ Hs)); [exact Hall | eapply chain_leaves, Hw]].
    split; [apply Hs | | eapply collects_grows; [apply Hs | apply Hs | exact Hco] | | exact Htop' |].
    + rewrite <- (lookup_take_lt (tw_levels w') (S n) 0) by lia. rewrite Hlow, lookup_take_lt by lia. exact Hl0.
    + apply Hback; [apply Hs | apply Hs | apply Hs | |].
      * rewrite !take_drop_commute. cbn. now rewrite Hlow.
      * rewrite drop_drop, Nat.add_0_l. exact Hu2.
    + eapply told_grows; [apply Hs | eapply chain_leaves, Hw | apply Hs | exact Htold].
Qed.

(** Nothing waits below the highest level. *)
Definition drained_below (w : W) (from : nat) : Prop :=
  forall i l, (from <= i)%nat -> (S i < length (tw_levels w))%nat -> tw_levels w !! i = Some l -> level_count l = 0.

Lemma finish_pass_taken all fuel : forall level flushed w, taken w all ->
  wp (finish_pass on_value_ref c fuel level flushed)
    (fun r w' => taken w' all /\ (r = false -> flushed = false /\ w' = w /\ drained_below w level)) anyhow w.
Proof.
  induction fuel as [|fuel IH]; intros level flushed w Ht; [apply wp_stop|]. cbn [finish_pass]. apply wp_bind, wp_here.
  destruct (Nat.ltb_spec (S level) (length (tw_levels w))) as [Hlt|Hge].
  2:{ apply wp_ret. split; [exact Ht|]. intros ->. split; [reflexivity|]. split; [reflexivity|]. intros i l H1 H2. lia. }
  destruct (lookup_lt_is_Some_2 (tw_levels w) level ltac:(lia)) as [l Hl]. apply wp_bind, wp_get_level. exists l. split; [exact Hl|].
  apply wp_bind. destruct (Z.ltb_spec 0 (level_count l)) as [Hpos|Hz].
  - apply wp_bind. eapply wp_mono; [apply (rotate_taken _ _ _ _ _ Ht Hl Hpos) | |auto]. intros [] w1 Ht1. apply wp_ret.
    eapply wp_mono; [apply (IH (S level) true w1 Ht1) | |auto]. intros r w2 [H1 H2]. split; [exact H1|]. intros Hr. now destruct (H2 Hr).
  - apply wp_ret. eapply wp_mono; [apply (IH (S level) flushed w Ht) | |auto]. intros r w2 [H1 H2]. split; [exact H1|]. intros Hr.
    destruct (H2 Hr) as (-> & -> & Hd). split; [reflexivity|]. split; [reflexivity|]. intros i l' Hi Hlen Hl'.
    destruct (decide (i = level)) as [->|Hne]; [|apply (Hd i l'); auto; lia]. rewrite Hl in Hl'. injection Hl' as <-.
    unfold level_count in *. pose proof (zlen_nonneg (lv_sizes l)). lia.
Qed.

Lemma finish_loop_taken all fuel : forall w, taken w all ->
  wp (finish_loop on_value_ref c fuel) (fun _ w' => taken w' all /\ drained_below w' 0) anyhow w.
Proof.
  induction fuel as [|fuel IH]; intros w Ht; [apply wp_stop|]. cbn [finish_loop]. apply wp_bind.
  eapply wp_mono; [apply (finish_pass_taken all _ 0 false w Ht) | |auto]. intros flushed w1 [Ht1 H1].
  apply wp_if; intros Hf; [|now apply IH]. apply negb_true_iff in Hf. destruct (H1 Hf) as (_ & -> & Hd). apply wp_ret. auto.
Qed.

(** What is below the highest level is empty, so all leaves are below it. *)
Lemma ups_only_top G offs ls : forall h L, ups G offs h ls L ->
  (forall i l, (S i < length ls)%nat -> ls !! i = Some l -> level_count l = 0) -> forall top, last ls = Some top ->
  exists items, holds G (h + Nat.pred (length ls)) top items L /\ prev_ok G offs top.
Proof.
  induction ls as [|l ls IH]; intros h L Hu Hz top Ht; [discriminate|]. destruct Hu as (L1 & L2 & items & -> & Hu & Hh & Hp).
  destruct ls as [|l' ls].
  - cbn in Hu, Ht. injection Ht as <-. subst L1. cbn. rewrite Nat.add_0_r. eauto.
  - assert (items = []) as ->.
    { apply nil_length_inv. pose proof (holds_count _ _ _ _ _ Hh) as Hcnt. rewrite (Hz 0%nat l ltac:(cbn; lia) eq_refl) in Hcnt. unfold zlen in Hcnt. lia. }
    destruct Hh as [_ (seps & kids & Ls & _ & Hk & _ & Hs & -> & _)]. apply Forall2_nil_inv_r in Hk as ->. apply Forall2_nil_inv_l in Hs as ->.
    cbn [concat]. rewrite app_nil_r. destruct (IH (S h) L1 Hu) with (top := top) as (items' & Hh' & Hp'); [|exact Ht|].
    + intros i x Hi Hx. apply (Hz (S i) x); [cbn in *; lia | exact Hx].
    + exists items'. cbn in *. rewrite Nat.add_succ_r. auto.
Qed.

(** The tree is in the file. *)
Record finished w (root : PageOrdinal) (all : list row) (h : nat) G (offs : list Z) (L : list PageOrdinal) : Prop := {
  fi_world : world (is_laid G offs) G L w;
  fi_tree : sub G h root L;
  fi_rows : rows G L = all;
  fi_told : told G L w;
  fi_height : (h < 64)%nat;
}.

Lemma get_root level w (Q : PageOrdinal -> W -> Prop) l :
  tw_levels w !! level = Some l -> (forall root, lv_prev_ordinal l = Some root -> Q root w) ->
  wp (let! state := get_level level in lift_result (ok_or (lv_prev_ordinal state) Error_corrupt)) Q anyhow w.
Proof.
  intros Hl HQ. apply wp_bind, wp_get_level. exists l. split; [exact Hl|]. apply wp_lift_known. intros root Hr.
  apply HQ. destruct (lv_prev_ordinal l); [|discriminate]. now injection Hr as <-.
Qed.

(** A single leaf is the root. *)
Lemma finish_leaf w G offs L l items es (Q : PageOrdinal -> W -> Prop) :
  at_leaf w G offs L l items es -> length (tw_levels w) = 1%nat ->
  (forall root w' h G' offs' L', finished w' root (rows G L ++ es) h G' offs' L' -> Q root w') ->
  wp (let! _ := rotate on_value_ref c ROTATE_FUEL 0 false in
      let! state := get_level 0 in lift_result (ok_or (lv_prev_ordinal state) Error_corrupt)) Q anyhow w.
Proof.
  intros [Hw Hl Hco Hu Htop Htold] Hone HQ. apply wp_bind. unfold ROTATE_FUEL. rewrite rotate_unfold.
  eapply leaf_write; [exact Hw | exact Hl | exact Hco | exact Htold |]. intros off w3 G3 [Hw3 Hg3 Hz3 Hlv3 _ [m Hp3] Hr3 Ht3 Ho]. cbn [negb].
  rewrite drop_ge in Hu by lia. cbn in Hu. subst L. rewrite app_nil_l in *.
  apply wp_on_level. exists (clear_extras l). split; [rewrite Hlv3; apply list_lookup_insert_eq; lia|].
  eapply get_root; [cbn; apply list_lookup_insert_eq; rewrite Hlv3, length_insert; lia|]. cbn. intros root [= <-].
  apply (HQ _ _ 0%nat G3 (offs ++ [off]) [zlen G]). split; [| cbn; split; [reflexivity | eauto 10] | exact Hr3 | exact Ht3 | lia].
  apply world_levels; [exact Hw3|]. rewrite length_insert. apply Hw3.
Qed.

(** The last internal page is the root. *)
Lemma finish_inner n w G offs L l items es (Q : PageOrdinal -> W -> Prop) :
  at_leaf w G offs L l items es -> length (tw_levels w) = S (S n) -> drained_below w 0 ->
  (forall root w' h G' offs' L', finished w' root (rows G L ++ es) h G' offs' L' -> Q root w') ->
  wp (let! _ := rotate on_value_ref c ROTATE_FUEL (S n) false in
      let! state := get_level (S n) in lift_result (ok_or (lv_prev_ordinal state) Error_corrupt)) Q anyhow w.
Proof.
  intros [Hw Hl Hco Hu (top & Htl & Hnone & Hcnt) Htold] Hlen Hd HQ. rewrite Hlen in Htl. cbn in Htl.
  assert (es = []) as ->.
  { destruct (collects_count _ _ _ _ _ _ Hco) as [Hc1 Hc2]. rewrite (Hd 0%nat l ltac:(lia) ltac:(lia) Hl) in Hc1. apply nil_length_inv. unfold zlen in *. lia. }
  destruct (ups_only_top G offs (drop 1 (tw_levels w)) 0 L Hu) with (top := top) as (titems & Hh & Hpr).
  { intros i x Hi Hx. rewrite length_drop in Hi. rewrite lookup_drop in Hx. apply (Hd (1 + i)%nat x); [lia | lia | exact Hx]. }
  { rewrite last_lookup, length_drop, lookup_drop, Hlen. exact Htl. }
  rewrite length_drop, Hlen in Hh. cbn in Hh.
  assert (titems <> []) as Hne.
  { intros ->. destruct Hcnt as [Hone|Hcnt]; [lia|]. apply Hcnt. rewrite (holds_count _ _ _ _ _ Hh). reflexivity. }
  destruct (holds_node _ _ _ _ _ Hh Hne) as (m & seps & kids & sep & Hf & Hfirst & Hsep & Hst & Hsound & Hsub).
  apply wp_bind. unfold ROTATE_FUEL. rewrite rotate_unfold. apply wp_bind. eapply world_begin; [exact Hw|]. intros s off Hlim Hw1. cbv beta iota.
  apply wp_bind. set (pg := InnerPage top titems m seps kids None).
  eapply (flush_written (S n) _ _ _ _ _ _ _ _ pg); [exact Hw1 | exact Htl | exact Hf | reflexivity | exact (Hsound _) | exact I |]. intros s2 Hw2. apply wp_ret.
  apply wp_bind, wp_get_level. exists top. split; [exact Htl|]. unfold prev_ok in Hpr. rewrite Hnone in Hpr.
  destruct (lv_prev_offset top); [contradiction|]. apply wp_bind, wp_ret. cbn [negb].
  apply wp_on_level. exists top. split; [exact Htl|]. eapply get_root; [cbn; apply list_lookup_insert_eq; lia|]. cbn. intros root [= <-].
  pose proof (chain_leaves _ _ _ (wd_chain _ _ _ _ Hw)) as Hlv.
  apply (HQ _ _ (S n) (G ++ [pg]) (offs ++ [off]) L). split.
  - apply world_levels; [exact Hw2|]. rewrite length_insert. apply Hw2.
  - apply (Hsub (G ++ [pg])); [apply grows_app | apply page_new | reflexivity].
  - now rewrite (grows_rows _ _ (grows_app G _)), app_nil_r by exact Hlv.
  - eapply told_app; [exact Hlv | reflexivity | exact Htold].
  - pose proof (wd_few _ _ _ _ Hw). lia.
Qed.

Lemma finish_taken w all : taken w all ->
  wp (finish on_value_ref c) (fun root w' => exists h G offs L, finished w' root all h G offs L) anyhow w.
Proof.
  intros Ht. unfold finish. apply wp_bind. eapply wp_mono; [apply (finish_loop_taken all 2 w Ht) | |auto].
  clear w Ht. intros [] w [(G & offs & L & l & items & es & Hat & Hall) Hd]. apply wp_bind, wp_here. cbv zeta.
  destruct (al_top _ _ _ _ _ _ _ Hat) as (top & Htl & Hnone & Hcnt). apply wp_bind, wp_get_level. exists top. split; [exact Htl|].
  rewrite Hnone, bool_decide_eq_true_2, orb_true_r by reflexivity.
  assert (forall root w' h G' offs' L', finished w' root (rows G L ++ es) h G' offs' L' -> exists h G offs L, finished w' root all h G offs L) as HQ.
  { rewrite Hall. eauto. }
  destruct (length (tw_levels w)) as [|[|n]] eqn:Hlen; [apply lookup_lt_Some in Htl; lia | |]; cbn [Nat.pred].
  - eapply finish_leaf; eauto.
  - eapply finish_inner; eauto.
Qed.

Definition row_fits (e : row) : Prop :=
  key_ok (row_key e) /\ validate_key E (row_key e) = Ok tt /\ zlen (row_value e) <= max_page - PAGE_PREFIX_LEN.

Lemma push_all_taken es : forall w all, taken w all -> Forall row_fits es ->
  wp (push_all extra_bytes on_value_ref c es) (fun _ w' => taken w' (all ++ es)) anyhow w.
Proof.
  induction es as [|[[key value] extra] es IH]; intros w all Ht Hes; cbn [push_all].
  - apply wp_ret. now rewrite app_nil_r.
  - inversion Hes as [|? ? (Hk & Hv & Hl) Hes']; subst. apply wp_bind. eapply wp_mono; [apply (push_taken w all key value extra Ht Hk Hv Hl) | |auto].
    intros [] w1 Ht1. eapply wp_mono; [apply (IH w1 _ Ht1 Hes') | |auto]. intros [] w2. now rewrite <- app_assoc.
Qed.

Lemma build_tree_finished w es : taken w [] -> Forall row_fits es ->
  wp (build_tree extra_bytes on_value_ref c es) (fun root w' => exists h G offs L, finished w' root es h G offs L) anyhow w.
Proof.
  intros Ht Hes. unfold build_tree. apply wp_bind. eapply wp_mono; [apply (push_all_taken es w [] Ht Hes) | |auto].
  intros [] w1 Ht1. now apply finish_taken.
Qed.

(** A writer that has just been made. *)
Lemma new_taken sink offs caller : laid filter head old offs sink -> handed [] caller -> taken (mkTreeWriter X C sink [Level_new] 0 0 caller) [].
Proof.
  intros Hl Hd. exists (OldPage <$> old), offs, [], Level_new, [], []. split; [|reflexivity]. split; cbn.
  - split; cbn; [|now rewrite take_ge by (now rewrite length_fmap) | | easy | constructor | lia | intros i pg Hi%lookup_lt_Some Hlen; rewrite length_fmap in Hi; lia].
    + rewrite <- list_fmap_compose. change (bytes_of c ∘ OldPage) with (fun b : list byte => b). now rewrite list_fmap_id.
    + apply Forall_fmap, Forall_true. easy.
  - reflexivity.
  - split; try constructor; try easy. apply page_fits_empty; [apply Hc..|]. now intros p [=].
  - reflexivity.
  - exists Level_new. split; [reflexivity|]. split; [reflexivity | now left].
  - exists []. split; [exact Hd | constructor].
Qed.
End Writing.
