(* ===== verification/BuiltTree.v ===== *)
(** A tree that was written is a tree that can be read.

    [Built] says which pages the writer has put into the file and what they were
    made of.  Here the reader looks at them: every page parses, passes its check
    and holds the keys it was made of, the separators bound the children, the
    leaves are chained, so the tree is [well_formed] in the sense of [Btree.v],
    and its entries are the rows that were pushed, with their values. *)

From Stdlib Require Import ZArith Lia.
From stdpp Require Import base list sorting gmap.
From coqutil Require Import Byte.
From S2P Require Import Prelude Errors Format PageRef Eytzinger Node Encoding Budget Catalog Page TreePage Btree Query Cursor.
From S2P Require Import Index Table Effects Sink SinkPages PageWriter TreeWriter Built EndToEnd.

#[local] Open Scope Z_scope.
#[local] Open Scope drydb_scope.

Section Read.
Context {PL : PageLimit} {X : Type} (c : TreeConfig) `{HL : !LawfulEncoding (tc_encoding c)} `{HW : !WritableEncoding (tc_encoding c)}.
Abbreviation E := (tc_encoding c).
Abbreviation layout := (tc_layout c).
Abbreviation Page := (@Page X).
Context (Hexact : omitted_keys layout = true -> ke_is_digest_exact E = true).
(** The file shows the pages. *)
Context (file : PageOrdinal -> option (list byte)) (G : list Page).
Context (Hfile : forall o pg, page G o = Some pg -> file o = Some (bytes_of c pg)).
Context (Hsound : Forall (sound c G) G).
Context (id : Z) (validate : bool) (root : PageOrdinal).
Abbreviation t := (mkTree (Some root) E id validate).
Abbreviation tree_node := (tree_node (file := file) t).
Abbreviation subtree := (subtree (file := file) t).
Abbreviation keys_in L := (row_key <$> rows G L).

Definition leaf_info (o : PageOrdinal) : LeafInfo :=
  match page G o with
  | Some (LeafPage st items m es r) => mkLeafInfo o (written_view layout true st items m r) (row_key <$> es)
  | _ => mkLeafInfo o (blob_view []) []
  end.

Lemma page_sound o pg : page G o = Some pg -> sound c G pg.
Proof.
  unfold page. destruct (o <? 0); [discriminate|]. intros H. exact (Forall_lookup_1 _ _ _ _ Hsound H).
Qed.

(** A page of sorted keys is a page of the tree. *)
Lemma node_of is_leaf (st : Level X) items m r keys o :
  file o = Some (written_page layout is_leaf st items m r) ->
  page_fits layout is_leaf st items m (tc_page_size c) -> right_ok r ->
  Forall2 (item_of_key E layout) keys items -> Forall (key_good c) keys -> StronglySorted (key_lt E) keys ->
  tree_node o (written_view layout is_leaf st items m r) keys.
Proof.
  intros Hf Hfit Hr Hit Hgood Hs.
  assert (Forall key_ok keys) as Hok by (eapply Forall_impl; [exact Hgood | intros k Hk; apply Hk]).
  pose proof (written_sorted_page E layout is_leaf st items m _ Hfit r Hr keys Hit Hok Hs Hexact) as Hp.
  split; [|split; [|exact Hp]].
  - eexists. split; [exact Hf|]. exact (written_page_parses _ _ _ _ _ _ Hfit r Hr).
  - apply (check_digests_ok E _ keys Hp); [eapply Forall_impl; [exact Hgood | intros k Hk; apply Hk] | | exact Hexact].
    intros Hom j k. exact (written_entry_key E layout is_leaf st items m _ Hfit r keys Hit j k Hom).
Qed.

Lemma items_keys es items : Forall2 (item_of c G) es items -> Forall2 (item_of_key E layout) (row_key <$> es) items.
Proof. intros H. apply Forall2_fmap_l. eapply Forall2_impl; [exact H | intros e it [H' _]; exact H']. Qed.

Lemma rows_good (es : list (list byte * list byte * X)) : Forall (row_good c) es -> Forall (key_good c) (row_key <$> es).
Proof. intros H. apply Forall_fmap. eapply Forall_impl; [exact H | intros e He; apply He]. Qed.

Lemma leaf_of o : is_leaf_page G o -> StronglySorted (key_lt E) (row_key <$> rows_at G o) -> leaf_ok (file := file) t (leaf_info o).
Proof.
  intros (st & items & m & es & r & Ho) Hs. unfold leaf_info. unfold rows_at in Hs. rewrite Ho in Hs |- *.
  destruct (page_sound _ _ Ho) as (Hfit & Hit & Hgood & Hr). split; [|reflexivity]. cbn.
  apply node_of; auto; [exact (Hfile _ _ Ho) | now apply items_keys | now apply rows_good].
Qed.

Lemma leaf_keys o : lp_keys (leaf_info o) = row_key <$> rows_at G o.
Proof. unfold leaf_info, rows_at. now destruct (page G o) as [[]|]. Qed.

Lemma leaf_ordinal o : lp_ordinal (leaf_info o) = o.
Proof. unfold leaf_info. now destruct (page G o) as [[]|]. Qed.

Lemma keys_in_concat (Ls : list (list PageOrdinal)) : keys_in (concat Ls) = concat ((fun L => keys_in L) <$> Ls).
Proof.
  induction Ls as [|L Ls IH]; [reflexivity|]. cbn [concat]. rewrite rows_app, fmap_app, IH. reflexivity.
Qed.

Lemma keys_in_leaf L o k : o ∈ L -> k ∈ lp_keys (leaf_info o) -> k ∈ keys_in L.
Proof.
  rewrite leaf_keys, !list_elem_of_fmap. intros Ho (e & -> & He). exists e. split; [reflexivity|].
  apply list_elem_of_lookup in Ho as [i Hi]. apply elem_of_concat. exists i, (rows_at G o). now rewrite list_lookup_fmap, Hi.
Qed.

(** What the writer calls a tree the reader calls one. *)
Lemma sub_subtree h : forall o L, sub G h o L -> StronglySorted (key_lt E) (keys_in L) -> subtree h o (leaf_info <$> L).
Proof.
  induction h as [|h IH]; intros o L; cbn [sub].
  - intros [-> (st & items & m & es & r & Ho)] Hs. unfold rows in Hs. cbn in Hs. rewrite app_nil_r in Hs.
    destruct (leaf_of o) as [Hn Hk]; [unfold is_leaf_page; eauto 10 | exact Hs |]. rewrite leaf_ordinal in Hn.
    exists (lp_view (leaf_info o)), (lp_keys (leaf_info o)). split_and!; auto. unfold leaf_info. cbn. now rewrite Ho.
  - intros (st & items & m & seps & kids & r & Ls & Ho & Hsub & -> & Hst & Hlt) Hs. rewrite keys_in_concat in Hs.
    destruct (page_sound _ _ Ho) as (Hfit & Hit & Hkid & Hgood & Hne & Hr).
    assert (Forall2 (heads E) seps ((fun L => keys_in L) <$> Ls)) as Hheads.
    { apply Forall2_fmap_r. apply Forall2_same_length_lookup_2; [now apply Forall2_length in Hst|].
      intros i sep L Hi HL'. split; [|apply (Forall_lookup_1 _ _ _ _ Hgood Hi)].
      pose proof (Forall2_lookup_lr _ _ _ _ _ _ Hst Hi HL') as Hsl. unfold starts_at, first_key in Hsl. now destruct (rows G L). }
    assert (length kids = length Ls) as Hlen by now apply Forall2_length in Hsub.
    exists (written_view layout false st items m r), seps, kids, (map (map leaf_info) Ls). split_and!; auto.
    + apply node_of; auto; [exact (Hfile _ _ Ho) | exact (separators_sorted E seps _ Hs Hheads)].
    + unfold separators_are_inexact. cbn. destruct (omitted_keys layout) eqn:Hom; [|reflexivity]. now rewrite Hexact.
    + apply Forall2_length in Hst. congruence.
    + intros i k Hk. destruct (Forall2_lookup_l _ _ _ _ _ Hkid Hk) as (it & Hi & Hv & Hp).
      split; [pose proof (Forall_lookup_1 _ _ _ _ Hlt Hk); cbn in *; lia|].
      eexists. split; [exact (internal_entry_written _ _ _ _ _ _ Hfit r i it k eq_refl Hi Hv Hp) | reflexivity].
    + apply Forall2_fmap_r, Forall2_same_length_lookup_2; [exact Hlen|]. intros i k L Hk HLs.
      apply IH; [exact (Forall2_lookup_lr _ _ _ _ _ _ Hsub Hk HLs)|].
      apply (sorted_concat_part _ _ i _ Hs). now rewrite list_lookup_fmap, HLs.
    + clear. induction Ls as [|L Ls IH]; [reflexivity|]. cbn. now rewrite fmap_app, IH.
    + intros i ls l k Hi Hl Hk. apply list_lookup_fmap_Some in Hi as (L & -> & HLs).
      apply list_elem_of_fmap in Hl as (o' & -> & Ho').
      destruct (separators_bound E seps _ Hs Hheads i (keys_in L) k) as [H1 H2];
        [now rewrite list_lookup_fmap, HLs | exact (keys_in_leaf L o' k Ho' Hk) |]. auto.
Qed.

Lemma chain_chained : forall L before, chain G before L ->
  chained before (leaf_info <$> L).
Proof.
  induction L as [|o L IH]; intros before; cbn; [easy|]. intros [(st & items & m & es & Ho & Hb) Hc].
  unfold leaf_info at 1 2. rewrite Ho. cbn. rewrite leaf_ordinal. split_and!; [exact Hb | |].
  - destruct L as [|o' L]; cbn; [reflexivity|]. now rewrite leaf_ordinal.
  - now apply IH.
Qed.

Lemma concat_keys L : concat (map lp_keys (leaf_info <$> L)) = keys_in L.
Proof. induction L as [|o L IH]; [reflexivity|]. cbn. rewrite IH, leaf_keys. unfold rows. cbn. now rewrite fmap_app. Qed.

(** Below a page no leaf is empty. *)
Lemma sub_settled h o L : sub G h o L -> settled (leaf_info <$> L).
Proof.
  intros Hsub l Hl Hk. destruct h as [|h]; [destruct Hsub as [-> _]; now apply list_elem_of_singleton in Hl as ->|].
  exfalso. revert o L Hsub l Hl Hk.
  induction h as [|h IH]; intros o L (st & items & m & seps & kids & r & Ls & Ho & Hsub & -> & Hst & Hlt) l Hl Hk;
    apply list_elem_of_fmap in Hl as (o' & -> & (i & L & Hi & Ho')%elem_of_concat);
    destruct (Forall2_lookup_r _ _ _ _ _ Hsub Hi) as (k & _ & Hk').
  - destruct Hk' as [-> _]. apply list_elem_of_singleton in Ho' as ->. rewrite leaf_keys in Hk.
    destruct (Forall2_lookup_r _ _ _ _ _ Hst Hi) as (sep & _ & Hsep). unfold starts_at, first_key, rows in Hsep. cbn in Hsep.
    rewrite app_nil_r in Hsep. apply fmap_nil_inv in Hk. now rewrite Hk in Hsep.
  - apply (IH k L Hk' (leaf_info o')); [now apply list_elem_of_fmap; exists o' | exact Hk].
Qed.

(** A value on a page of its own is read back from there. *)
Lemma blob_value o value : page G o = Some (BlobPage value) ->
  file o = Some (blob_page_bytes value) /\ PageView_parse (blob_page_bytes value) = Ok (blob_view value) /\
  drop (Z.to_nat PAGE_PREFIX_LEN) (blob_page_bytes value) = value.
Proof.
  intros Ho. destruct (blob_page_round_trip value (Z.le_trans _ _ _ (page_sound _ _ Ho) max_page_range)) as (Hp & _ & Hv). split; [exact (Hfile _ _ Ho) | auto].
Qed.

(** The entry of a row holds its value. *)
Lemma item_value o st items m es r j e :
  page G o = Some (LeafPage st items m es r) -> es !! j = Some e ->
  exists overflow, holds_value (file := file) (mkEntry (leaf_info o) (Z.of_nat j) (row_key e)) (row_value e) overflow.
Proof.
  intros Ho He. destruct (page_sound _ _ Ho) as (Hfit & Hit & _ & Hr). destruct (Forall2_lookup_l _ _ _ _ _ Hit He) as (it & Hj & _ & Hv).
  pose proof (leaf_entry_written _ _ _ _ _ _ Hfit r j it eq_refl Hj) as Hle. unfold written_value, value_at in *.
  exists (bool_decide (is_Some (it_blob it))). unfold holds_value, leaf_info. rewrite Ho. cbn [en_leaf en_index lp_view].
  eexists. split; [exact Hle|]. cbn [le_value]. destruct (it_blob it) as [b|].
  - destruct Hv as (Hb & _ & _). destruct (blob_value _ _ Hb) as (Hf & _ & Hd). split; [reflexivity | eauto].
  - split; [reflexivity|]. rewrite <- Hv. symmetry. exact (written_value_bytes _ _ _ _ _ _ Hfit r j it Hj).
Qed.

Lemma leaves_readable L : Forall (is_leaf_page G) L -> readable (file := file) (leaf_info <$> L).
Proof.
  intros HL' l (o & -> & Ho)%list_elem_of_fmap. rewrite Forall_forall in HL'. destruct (HL' o Ho) as (st & items & m & es & r & Hp).
  destruct (page_sound _ _ Hp) as (Hfit & Hit & _ & Hr). unfold leaf_info. rewrite Hp. cbn [lp_view].
  split; [exact (written_page_validates _ _ _ _ _ _ Hfit r Hr)|]. intros j e b Hj He Hb.
  destruct (items !! Z.to_nat j) as [it|] eqn:Hi.
  - replace j with (Z.of_nat (Z.to_nat j)) in He by lia.
    rewrite (leaf_entry_written _ _ _ _ _ _ Hfit r _ it eq_refl Hi) in He. injection He as <-. cbn in Hb. unfold written_value in Hb.
    destruct (Forall2_lookup_r _ _ _ _ _ Hit Hi) as (row & _ & _ & Hv). unfold value_at in Hv. destruct (it_blob it) as [rf|]; [|discriminate].
    injection Hb as <-. destruct Hv as (Hv & _). destruct (blob_value _ _ Hv) as (Hf & Hpv & _). eauto 10.
  - apply lookup_ge_None in Hi. unfold leaf_entry, check_index in He. cbn in He.
    rewrite (proj2 (Z.leb_le (zlen items) j)) in He by (unfold zlen; lia). discriminate.
Qed.

(** What an entry of the tree is to a row that was pushed. *)
Definition stores (e : list byte * list byte * X) (en : Entry) : Prop :=
  en_key en = row_key e /\ exists overflow, holds_value (file := file) en (row_value e) overflow.

Lemma leaves_store L : Forall (is_leaf_page G) L -> Forall2 stores (rows G L) (entries (leaf_info <$> L)).
Proof.
  induction 1 as [|o L (st & items & m & es & r & Ho) _ IH]; [constructor|].
  unfold rows. rewrite !fmap_cons, entries_cons. cbn [concat]. apply Forall2_app; [|exact IH].
  unfold rows_at. rewrite Ho. apply Forall2_same_length_lookup_2.
  - unfold entries_of. rewrite length_imap, leaf_keys, length_fmap. unfold rows_at. now rewrite Ho.
  - intros j e en He (k & Hk & ->)%entries_of_lookup. rewrite leaf_keys, list_lookup_fmap in Hk. unfold rows_at in Hk. rewrite Ho, He in Hk.
    injection Hk as <-. split; [reflexivity | exact (item_value _ _ _ _ _ _ _ _ Ho He)].
Qed.

Lemma sub_well_formed h L page_count max_depth :
  sub G h root L -> chain G None L -> StronglySorted (key_lt E) (keys_in L) ->
  Z.of_nat h < max_depth -> zlen L <= page_count <= u64_max ->
  well_formed (file := file) (page_count := page_count) (max_depth := max_depth) t h root (leaf_info <$> L).
Proof.
  intros Hsub Hch Hs Hh Hc. split; [reflexivity | now apply sub_subtree | exact Hh | now apply chain_chained | | ].
  - now rewrite concat_keys.
  - unfold zlen in *. now rewrite length_fmap.
Qed.
End Read.

(** * The whole run *)

Section Run.
Context {PL : PageLimit} {X : Type} (c : TreeConfig) `{HL : !LawfulEncoding (tc_encoding c)}.

(** A reference handed on leads to the value it was handed on for. *)
Definition reads_as (file : PageOrdinal -> option (list byte)) (r : PageRef) (value : list byte) : Prop :=
  exists bytes, file (pr_page r) = Some bytes /\ slice bytes (pr_start r) (pr_length r) = value /\ pr_length r = zlen value /\
    PAGE_PREFIX_LEN <= pr_start r /\ pr_start r + pr_length r <= zlen bytes <= i32_max.

Lemma ref_reads file (G : list (@Page X)) r value :
  (forall o pg, page G o = Some pg -> file o = Some (bytes_of c pg)) -> Forall (sound c G) G ->
  ref_to c G r value -> reads_as file r value.
Proof.
  intros Hfile Hsound Hr. unfold ref_to in Hr. destruct (page G (pr_page r)) as [pg|] eqn:Hp; [|contradiction].
  pose proof (page_sound c G Hsound _ _ Hp) as Hs. exists (bytes_of c pg). split; [exact (Hfile _ _ Hp)|]. destruct pg as [| st items m es rt | | v]; try contradiction.
  - destruct Hr as (j & it & Hj & _ & <- & -> & ->). destruct Hs as (Hfit & _). destruct (item_offset_bounds _ _ _ _ _ _ Hfit j it Hj) as [H1 H2].
    pose proof (zlen_nonneg (it_key it)). pose proof (written_bounds _ _ _ _ _ _ Hfit) as Hb. cbn [bytes_of].
    rewrite (zlen_written_page _ _ _ _ _ _ Hfit). split; [exact (written_value_bytes _ _ _ _ _ _ Hfit rt j it Hj)|].
    unfold written_payload_base, written_meta_base in H1. unfold_consts. repeat split; lia.
  - destruct Hr as (-> & -> & ->). assert (PAGE_PREFIX_LEN + zlen value <= i32_max) as Hlen by exact (Z.le_trans _ _ _ Hs max_page_range).
    destruct (blob_page_round_trip value Hlen) as (_ & _ & Hb). cbn [bytes_of].
    split; [unfold slice; change (drop (Z.to_nat PAGE_PREFIX_LEN) (blob_page_bytes value) = value) in Hb; rewrite Hb; apply take_ge; unfold zlen; lia|].
    rewrite zlen_blob_page. repeat split; lia.
Qed.
End Run.

(** The tree at [root] holds these rows, in this order. *)
Definition holds_rows {X} (file : PageOrdinal -> option (list byte)) (page_count : Z) (E : KeyEncoding) `{!LawfulEncoding E}
    (root : PageOrdinal) (es : list (list byte * list byte * X)) : Prop :=
  exists h leaves,
    (forall id validate max_depth, 64 <= max_depth -> well_formed (file := file) (page_count := page_count) (max_depth := max_depth)
       (mkTree (Some root) E id validate) h root leaves) /\
    settled leaves /\ readable (file := file) leaves /\ Forall2 (stores file) es (entries leaves).

(** A file shows pages when they are its first. *)
Definition shows_pages (file : PageOrdinal -> option (list byte)) (pages : list (list byte)) : Prop :=
  forall o bytes, image_file pages o = Some bytes -> file o = Some bytes.

(** The pages hold a tree of these rows: every file that shows them does. *)
Definition tree_in {X} (pages : list (list byte)) (E : KeyEncoding) `{!LawfulEncoding E} (root : PageOrdinal)
    (es : list (list byte * list byte * X)) : Prop :=
  forall file page_count, shows_pages file pages -> zlen pages <= page_count <= u64_max -> holds_rows file page_count E root es.

Lemma image_more pages more o bytes : image_file pages o = Some bytes -> image_file (pages ++ more) o = Some bytes.
Proof. unfold image_file, get_at. destruct (0 <=? o); [|discriminate]. apply lookup_app_l_Some. Qed.

Lemma shows_more file pages more : shows_pages file (pages ++ more) -> shows_pages file pages.
Proof. intros Hs o bytes Ho. apply Hs. now apply image_more. Qed.

Lemma tree_in_more {X} pages more E `{!LawfulEncoding E} root (es : list (list byte * list byte * X)) :
  tree_in pages E root es -> tree_in (pages ++ more) E root es.
Proof.
  intros Ht file n Hs Hn. apply Ht; [now apply shows_more in Hs|]. rewrite zlen_app in Hn. pose proof (zlen_nonneg more). lia.
Qed.

Lemma reads_more pages more r value : reads_as (image_file pages) r value -> reads_as (image_file (pages ++ more)) r value.
Proof. intros (bytes & Hb & Hs). exists bytes. split; [now apply image_more | exact Hs]. Qed.

Lemma image_pages {X} (c : TreeConfig) (G : list (@Page X)) o pg :
  page G o = Some pg -> image_file (bytes_of c <$> G) o = Some (bytes_of c pg).
Proof.
  unfold page, image_file, get_at. destruct (Z.ltb_spec o 0); [discriminate|]. rewrite (proj2 (Z.leb_le 0 o)) by lia.
  intros H'. now rewrite list_lookup_fmap, H'.
Qed.

Lemma leaves_in_file {X} (G : list (@Page X)) L : NoDup L -> Forall (is_leaf_page G) L -> zlen L <= zlen G.
Proof.
  intros Hnd HL. unfold zlen. rewrite <- (length_fmap Z.to_nat), <- (length_seq (length G) 0). apply inj_le, submseteq_length, NoDup_submseteq.
  - apply NoDup_fmap_2_strong; [|exact Hnd]. intros x y Hx Hy Heq. rewrite Forall_forall in HL.
    destruct (HL x Hx) as (? & ? & ? & ? & ? & H1%page_bound), (HL y Hy) as (? & ? & ? & ? & ? & H2%page_bound). lia.
  - intros i (o & -> & Ho)%list_elem_of_fmap. rewrite Forall_forall in HL. destruct (HL o Ho) as (? & ? & ? & ? & ? & H1%page_bound).
    apply elem_of_seq. unfold zlen in H1. lia.
Qed.

(** A directory has at most [i32::MAX] pages. *)
Lemma laid_few filter head pages offs s : laid filter head pages offs s -> zlen pages <= zlen pages <= u64_max.
Proof.
  intros (st & Hso & -> & Hst & _). pose proof (sh_limit _ _ (so_directory _ _ Hso)) as Hl. cbn in Hl.
  unfold zlen in *. rewrite length_starts, <- (Forall2_length _ _ _ Hst) in Hl. unfold i32_max, u64_max in *. lia.
Qed.

(** A page that the store accepts, and that is not too long. *)
Definition page_checks {PL : PageLimit} (bytes : list byte) : Prop :=
  PAGE_PREFIX_LEN <= zlen bytes <= max_page /\ exists v, PageView_parse bytes = Ok v /\ PageView_validate v = Ok tt.

Lemma sound_checks {PL : PageLimit} {X} (c : TreeConfig) `{HL : !LawfulEncoding (tc_encoding c)} (G : list (@Page X)) pg :
  tc_page_size c <= max_page -> sound c G pg -> is_new pg -> page_checks (bytes_of c pg).
Proof.
  intros Hmax Hs Hnew. destruct pg as [b|st items m es r|st items m seps kids r|v]; [contradiction| | |].
  1, 2: destruct Hs as (Hf & Hs); destruct (written_bounds _ _ _ _ _ _ Hf) as (Hn & Hd & Hm & Hpl & Hlen & _);
    pose proof (zlen_written_page _ _ _ _ _ _ Hf r) as Hz; cbn [bytes_of]; split;
    [rewrite Hz; unfold written_len, written_payload_base, written_meta_base in *; unfold_consts; lia|].
  - destruct Hs as (_ & _ & Hr). exact (ex_intro _ _ (conj (written_page_parses _ _ _ _ _ _ Hf r Hr) (written_page_validates _ _ _ _ _ _ Hf r Hr))).
  - destruct Hs as (_ & _ & _ & _ & Hr). exact (ex_intro _ _ (conj (written_page_parses _ _ _ _ _ _ Hf r Hr) (written_page_validates _ _ _ _ _ _ Hf r Hr))).
  - cbn in Hs |- *. pose proof max_page_range as Hr. pose proof (zlen_nonneg v). destruct (blob_page_round_trip v ltac:(lia)) as (Hp & Hv & _).
    split; [rewrite zlen_blob_page; lia | eauto].
Qed.

Section Finished.
Context {PL : PageLimit} {X C : Type} (c : TreeConfig) `{HL : !LawfulEncoding (tc_encoding c)} `{HW : !WritableEncoding (tc_encoding c)}.
Context (Hexact : omitted_keys (tc_layout c) = true -> ke_is_digest_exact (tc_encoding c) = true).
Context (filter : option (list byte -> Result (list byte))) (handed : list (X * PageRef) -> C -> Prop).
Context (head : list byte) (old : list (list byte)).

Lemma finished_holds (w : TreeWriter X C) root es h G offs L :
  finished c filter handed head old w root es h G offs L -> StronglySorted (key_lt (tc_encoding c)) (row_key <$> es) ->
  exists pages done, laid filter head (old ++ pages) offs (tw_sink w) /\
    tree_in (old ++ pages) (tc_encoding c) root es /\
    handed done (tw_caller w) /\
    Forall2 (fun e p => fst p = row_extra e /\ reads_as (image_file (old ++ pages)) (snd p) (row_value e)) es done /\
    (tc_page_size c <= max_page -> Forall page_checks pages).
Proof.
  intros [Hw Ht Hrows (done & Hd & Hg) Hh] Hs. destruct Hw as [Hsink Hold Hsound Hch Hnd _ Hnew].
  assert (bytes_of c <$> G = old ++ drop (length old) (bytes_of c <$> G)) as HG.
  { rewrite <- (take_drop (length old) (bytes_of c <$> G)) at 1. f_equal. rewrite <- fmap_take, Hold, <- list_fmap_compose.
    change (bytes_of c ∘ OldPage) with (fun b : list byte => b). now rewrite list_fmap_id. }
  exists (drop (length old) (bytes_of c <$> G)), done. rewrite <- HG. split; [exact Hsink|].
  pose proof (image_pages c G) as Himage. pose proof (sub_leaves G h root L Ht) as Hleaves.
  split; [|split; [exact Hd|split]].
  - intros file n Hshow Hn.
    assert (forall o pg, page G o = Some pg -> file o = Some (bytes_of c pg)) as Hfile by (intros o pg Ho; apply Hshow, Himage, Ho).
    exists h, (leaf_info c G <$> L). split_and!.
    + intros id validate max_depth Hmax. apply sub_well_formed; auto; [now rewrite Hrows | lia|].
      pose proof (leaves_in_file G L Hnd Hleaves). unfold zlen in *. rewrite length_fmap in Hn. lia.
    + now apply (sub_settled c G h root).
    + exact (leaves_readable c _ G Hfile Hsound L Hleaves).
    + rewrite <- Hrows. exact (leaves_store c _ G Hfile Hsound L Hleaves).
  - rewrite <- Hrows. eapply Forall2_impl; [exact Hg|]. intros e p [Hx Hr]. split; [exact Hx|]. exact (ref_reads c _ G _ _ Himage Hsound Hr).
  - intros Hmax. rewrite <- fmap_drop. apply Forall_fmap, Forall_lookup. intros i pg Hi. rewrite lookup_drop in Hi. cbn.
    apply (sound_checks c G); [exact Hmax | exact (Forall_lookup_1 _ _ _ _ Hsound Hi) | apply (Hnew _ _ Hi); lia].
Qed.
End Finished.

(** ** Growing a tree

    The two halves together: what the writer has taken ([Built]), and that it
    does not go wrong ([TreeWriter]). *)

Section Growing.
Context {PL : PageLimit} {X C : Type} (extra_bytes : X -> Z) (on_value_ref : X -> PageRef -> IO C unit).
Context (c : TreeConfig) `{HL : !LawfulEncoding (tc_encoding c)} `{HW : !WritableEncoding (tc_encoding c)} (Hc : config_ok c).
Context (Hexact : omitted_keys (tc_layout c) = true -> ke_is_digest_exact (tc_encoding c) = true).
Context (filter : option (list byte -> Result (list byte))) (handed : list (X * PageRef) -> C -> Prop).
Context (extra_ok : X -> Prop) (limit : nat) (caller_stops : Stop -> Prop).

(** The caller has taken extras it is meant for, and [j] more are within the limit. *)
Definition given_some (j : nat) (s : C) : Prop :=
  exists done, handed done s /\ Forall (fun p => extra_ok (fst p)) done /\ (length done + j <= limit)%nat.

(** What the caller does when it comes to an end, and that it does not go wrong
    within the limit. *)
Context (Hcaller : forall x r done s, handed done s ->
  wp (on_value_ref x r) (fun _ s' => handed (done ++ [(x, r)]) s') anyhow s).
Context (Hsafe : forall x r done s, Forall (fun p => extra_ok (fst p)) (done ++ [(x, r)]) -> (length done < limit)%nat -> handed done s ->
  wp (on_value_ref x r) (fun _ s' => handed (done ++ [(x, r)]) s') caller_stops s).
Context (head : list byte) (old : list (list byte)).
Abbreviation stops := (writer_stops c filter False caller_stops).

Definition growing (room : nat) (w : TreeWriter X C) (all : list (list byte * list byte * X)) : Prop :=
  taken c filter handed head old w all /\ writer_ok c filter False extra_ok given_some room w.

Lemma caller_goes_on j x r s : extra_ok x -> given_some (S j) s -> wp (on_value_ref x r) (fun _ s' => given_some j s') caller_stops s.
Proof.
  intros Hx (done & Hd & Hok & Hj). assert (Forall (fun p => extra_ok (fst p)) (done ++ [(x, r)])) as Hok' by (apply Forall_app; auto).
  eapply wp_mono; [exact (Hsafe x r done s Hok' ltac:(lia) Hd) | |auto].
  intros [] s' Hd'. exists (done ++ [(x, r)]). split; [exact Hd'|]. split; [exact Hok'|]. rewrite length_app. cbn. lia.
Qed.

Lemma growing_push room w all key value extra :
  extra_ok extra -> growing (S room) w all -> key_ok key -> validate_key (tc_encoding c) key = Ok tt -> zlen value <= max_page - PAGE_PREFIX_LEN ->
  wp (push extra_bytes on_value_ref c key value extra) (fun _ w' => growing room w' (all ++ [(key, value, extra)])) stops w.
Proof.
  intros Hx [Ht Hw] Hk Hv Hl. eapply wp_mono; [apply wp_and | |].
  - exact (push_taken extra_bytes on_value_ref c Hc filter handed Hcaller head old w all key value extra Ht Hk Hv Hl).
  - exact (tw_push_ok extra_bytes on_value_ref c filter False extra_ok given_some caller_stops Hc caller_goes_on room key value extra w Hx Hw (False_ind _)).
  - intros [] w' [H [H' _]]. exact (conj H H').
  - intros e [_ H]. exact H.
Qed.

Lemma growing_finish room w all :
  growing room w all -> StronglySorted (key_lt (tc_encoding c)) (row_key <$> all) ->
  wp (finish on_value_ref c) (fun root w' => page_ordinal_ok root /\ exists pages offs done,
    laid filter head (old ++ pages) offs (tw_sink w') /\ tree_in (old ++ pages) (tc_encoding c) root all /\
    handed done (tw_caller w') /\
    Forall2 (fun e p => fst p = row_extra e /\ reads_as (image_file (old ++ pages)) (snd p) (row_value e)) all done /\
    (tc_page_size c <= max_page -> Forall page_checks pages)) stops w.
Proof.
  intros [Ht Hw] Hs. eapply wp_mono; [apply wp_and | |].
  - exact (finish_taken on_value_ref c Hc filter handed Hcaller head old w all Ht).
  - exact (finish_ok on_value_ref c filter False extra_ok given_some caller_stops Hc caller_goes_on room w Hw (False_ind _)).
  - intros root w' [(h & G & offs & L & Hf) (_ & Hr & _)]. split; [exact Hr|].
    destruct (finished_holds c Hexact filter handed head old w' root all h G offs L Hf Hs) as (pages & done & H). exists pages, offs, done. exact H.
  - intros e [_ H]. exact H.
Qed.

Lemma growing_new sink offs caller :
  laid filter head old offs sink -> handed [] caller -> growing limit (mkTreeWriter X C sink [Level_new] 0 0 caller) [].
Proof.
  intros Hl Hd. split; [exact (new_taken c Hc filter handed head old _ _ _ Hl Hd)|]. destruct Hl as (st & Hs & _ & _ & Hf).
  split; cbn; [eauto | exact Hf | | lia | exists limit; split; [unfold pending; cbn; lia | exists []; split; [exact Hd | split; [constructor | cbn; lia]]]].
  intros n l Hn. apply list_lookup_singleton_Some in Hn as [-> <-]. apply level_ok_new. exact Hc.
Qed.
End Growing.

(** What [push] asks of a row: a key of the encoding, and a value that has a page
    when it needs one. *)
Definition pushable {PL : PageLimit} {X} (E : KeyEncoding) (e : list byte * list byte * X) : Prop :=
  validate_key E (row_key e) = Ok tt /\ zlen (row_value e) <= max_page - PAGE_PREFIX_LEN.

Section Build.
Context {PL : PageLimit} {X C : Type} (extra_bytes : X -> Z) (on_value_ref : X -> PageRef -> IO C unit).
Context (E : KeyEncoding) `{HL : !LawfulEncoding E} `{HC : !CheckableEncoding E} `{HW : !WritableEncoding E}.
Context (filter : option (list byte -> Result (list byte))) (handed : list (X * PageRef) -> C -> Prop) (caller_stops : Stop -> Prop).
Context (Hcaller : forall x r done s, handed done s ->
  wp (on_value_ref x r) (fun _ s' => handed (done ++ [(x, r)]) s') caller_stops s).
(** A digest is a [u64]. *)
Context (Hdigest : forall key d, ke_digest E key = Ok d -> 0 <= d <= u64_max).
Abbreviation any := (fun _ : X => True).

Lemma caller_anyhow x r done s : handed done s -> wp (on_value_ref x r) (fun _ s' => handed (done ++ [(x, r)]) s') anyhow s.
Proof. intros Hd. eapply wp_mono; [exact (Hcaller x r done s Hd) | auto | auto]. Qed.

Lemma caller_safe limit x r done s : Forall (fun p : X * PageRef => any (fst p)) (done ++ [(x, r)]) -> (length done < limit)%nat -> handed done s ->
  wp (on_value_ref x r) (fun _ s' => handed (done ++ [(x, r)]) s') caller_stops s.
Proof. intros _ _. exact (Hcaller x r done s). Qed.

Lemma caller_any x r s : any x -> (exists done, handed done s) ->
  wp (on_value_ref x r) (fun _ s' => exists done, handed done s') caller_stops s.
Proof. intros _ [done Hd]. eapply wp_mono; [exact (Hcaller x r done s Hd) | intros [] s' Hs'; eauto | auto]. Qed.

Lemma pushed_sorted (es : list (list byte * list byte * X)) :
  Forall (pushable E) es -> ascending E (row_key <$> es) -> StronglySorted (key_lt E) (row_key <$> es).
Proof.
  intros Hes Hasc. apply ascending_sorted; [|exact Hasc]. apply Forall_fmap. eapply Forall_impl; [exact Hes|].
  intros e [Hv _]. now apply validated_ok.
Qed.

Definition config_for (page_size : Z) (ey omit : bool) (budget : Z) : TreeConfig :=
  mkTreeConfig page_size (choose_layout page_size ey E omit) E budget.

Lemma config_for_ok page_size ey omit budget : MIN_PAGE_SIZE <= page_size <= i32_max -> config_ok (config_for page_size ey omit budget).
Proof. constructor; simpl; [apply choose_layout_ok | lia | intros Hcm; lia | exact Hdigest]. Qed.

Lemma config_for_exact page_size ey omit budget :
  omitted_keys (tc_layout (config_for page_size ey omit budget)) = true -> ke_is_digest_exact E = true.
Proof. intros H. exact (proj2 (proj1 (andb_true_iff _ _) H)). Qed.

Lemma push_all_grows c (Hc : config_ok c) `{HLc : !LawfulEncoding (tc_encoding c)} `{HWc : !WritableEncoding (tc_encoding c)} limit room head old es : forall w all,
  growing c filter handed any limit head old (length es + room) w all ->
  Forall (fun e : list byte * list byte * X => key_ok (row_key e) /\ validate_key (tc_encoding c) (row_key e) = Ok tt /\
    zlen (row_value e) <= max_page - PAGE_PREFIX_LEN) es ->
  wp (push_all extra_bytes on_value_ref c es) (fun _ w' => growing c filter handed any limit head old room w' (all ++ es)) (writer_stops c filter False caller_stops) w.
Proof.
  induction es as [|[[key value] extra] es IH]; intros w all Hg Hes; cbn [push_all]; [apply wp_ret; now rewrite app_nil_r|].
  apply Forall_cons in Hes as [(Hk & Hv & Hl) Hes]. apply wp_bind.
  eapply wp_mono; [exact (growing_push extra_bytes on_value_ref c Hc filter handed any limit caller_stops caller_anyhow (caller_safe limit) head old (length es + room) w all key value extra I Hg Hk Hv Hl) | |auto].
  intros [] w1 Hg1. eapply wp_mono; [exact (IH w1 _ Hg1 Hes) | |auto]. intros [] w2. now rewrite <- app_assoc.
Qed.

(** What a tree that comes to an end holds. *)
Lemma built_holds page_size ey omit budget sink head old offs caller c w (es : list (list byte * list byte * X)) :
  TreeWriter_new sink page_size ey E omit caller = Ok (c, w) -> page_size <= i32_max ->
  laid filter head old offs sink -> handed [] caller ->
  Forall (pushable E) es -> ascending E (row_key <$> es) ->
  wp (build_tree extra_bytes on_value_ref (limit_pending_extra c budget) es)
    (fun root w' => exists pages offs' done, laid filter head (old ++ pages) offs' (tw_sink w') /\
       tree_in (old ++ pages) E root es /\ handed done (tw_caller w') /\
       Forall2 (fun e p => fst p = row_extra e /\ reads_as (image_file (old ++ pages)) (snd p) (row_value e)) es done)
    (writer_stops (limit_pending_extra c budget) filter False caller_stops) w.
Proof.
  intros Hnew Hps Hl Hd Hes Hasc. pose proof (pushed_sorted es Hes Hasc) as Hs. unfold TreeWriter_new in Hnew. inv_ok.
  change (limit_pending_extra _ budget) with (config_for page_size ey omit budget). set (c := config_for page_size ey omit budget).
  assert (config_ok c) as Hc by (apply config_for_ok; lia). unfold build_tree. apply wp_bind.
  eapply wp_mono; [apply (push_all_grows c Hc (length es + 0) 0 head old es _ []) | |auto].
  - exact (growing_new c Hc filter handed any (length es + 0) head old sink offs caller Hl Hd).
  - eapply Forall_impl; [exact Hes|]. intros e [Hv Hz]. split_and!; auto. now apply validated_ok.
  - intros [] w1 Hg.
    eapply wp_mono; [exact (growing_finish on_value_ref c Hc (config_for_exact page_size ey omit budget) filter handed any (length es + 0) caller_stops caller_anyhow (caller_safe _) head old 0 w1 es Hg Hs) | |auto].
    intros root w' (_ & pages & offs' & done & H1 & H2 & H3 & H4 & _). exists pages, offs', done. auto.
Qed.

Lemma build_tree_holds page_size ey omit budget sink head old offs caller c w (es : list (list byte * list byte * X)) :
  TreeWriter_new sink page_size ey E omit caller = Ok (c, w) -> page_size <= i32_max ->
  laid filter head old offs sink -> handed [] caller ->
  Forall (pushable E) es -> ascending E (row_key <$> es) ->
  wp (build_tree extra_bytes on_value_ref (limit_pending_extra c budget) es)
    (fun root w' => exists pages offs' done, laid filter head (old ++ pages) offs' (tw_sink w') /\
       tree_in (old ++ pages) E root es /\ handed done (tw_caller w') /\
       Forall2 (fun e p => fst p = row_extra e /\ reads_as (image_file (old ++ pages)) (snd p) (row_value e)) es done)
    (writer_stops (limit_pending_extra c budget) filter (keys_fit c es) caller_stops) w.
Proof.
  intros Hnew Hps Hl Hd Hes Hasc.
  assert (exists a, sink_holds sink a /\ sk_filter sink = filter) as (a & Ha & Hf) by (destruct Hl as (st & ? & _ & _ & ?); eauto).
  pose proof (build_tree_safe extra_bytes on_value_ref sink a page_size ey E omit caller c w budget es any
    (fun s => exists done, handed done s) caller_stops Hnew Hps Ha Hdigest caller_any (ex_intro _ [] Hd) (Forall_true _ _ (fun _ => I))) as Hsafe.
  rewrite Hf in Hsafe.
  eapply wp_mono; [apply wp_and; [exact (built_holds page_size ey omit budget sink head old offs caller c w es Hnew Hps Hl Hd Hes Hasc) | exact Hsafe] | |].
  - intros root w' [H _]. exact H.
  - intros e [_ H]. exact H.
Qed.
End Build.

Lemma wp_returned {T A} (m : IO T A) Q B t faults a t' faults' :
  wp m Q B t -> m (t, faults) = (Ok a, (t', faults')) -> Q a t'.
Proof. intros H Hm. specialize (H faults). rewrite Hm in H. apply H. Qed.

(** Only one value is stored with an entry. *)
Lemma holds_value_unique file e v v' o o' : holds_value (file := file) e v o -> holds_value (file := file) e v' o' -> v = v'.
Proof.
  intros (le & Hle & H) (le' & Hle' & H'). rewrite Hle in Hle'. injection Hle' as <-.
  destruct (le_value le); [destruct H as [_ ->], H' as [_ ->]; reflexivity|].
  destruct H as (_ & b & Hb & ->), H' as (_ & b' & Hb' & ->). congruence.
Qed.

(** What a lookup may say about a key of these rows. *)
Definition row_answer {X} (es : list (list byte * list byte * X)) (key : list byte) (value : option (list byte)) : Prop :=
  match value with
  | Some v => exists x, (key, v, x) ∈ es
  | None => forall v x, (key, v, x) ∉ es
  end.

Lemma rows_answered {X} file leaves (es : list (list byte * list byte * X)) key r :
  Forall2 (stores file) es (entries leaves) -> answer_of (file := file) leaves key r -> row_answer es key (guard_bytes <$> r).
Proof.
  intros Hst Ha. destruct r as [g|]; cbn.
  - destruct Ha as (e & ov & [He <-] & Hv). apply list_elem_of_lookup in He as [i Hi].
    destruct (Forall2_lookup_r _ _ _ _ _ Hst Hi) as ([[k v] x] & Hrow & Hk & ov' & Hv'). cbn in *. subst k.
    exists x. rewrite (holds_value_unique _ _ _ _ _ _ Hv Hv'). now apply list_elem_of_lookup_2 in Hrow.
  - intros v x Hin. apply list_elem_of_lookup in Hin as [i Hi]. destruct (Forall2_lookup_l _ _ _ _ _ Hst Hi) as (e & He & Hk & _).
    apply (Ha e). split; [now apply list_elem_of_lookup_2 in He | exact Hk].
Qed.

(** The order of keys, decided. *)
Fixpoint ascendingb (E : KeyEncoding) (keys : list (list byte)) : bool :=
  match keys with
  | [] => true
  | k :: rest => forallb (fun x => match ke_compare E k x with Ok Lt => true | _ => false end) rest && ascendingb E rest
  end.

Lemma ascendingb_ok E keys : ascendingb E keys = true -> ascending E keys.
Proof.
  induction keys as [|k keys IH]; [intros _ i j a b Hi; discriminate|]. cbn. intros [H1 H2]%andb_true_iff [|i] [|j] a b Hi Hj Hlt; try lia; cbn in *.
  - injection Hi as <-. rewrite forallb_forall in H1. specialize (H1 b).
    destruct (ke_compare E k b) as [[]|]; (reflexivity || exfalso; discriminate H1; apply list_elem_of_In; now apply list_elem_of_lookup_2 in Hj).
  - apply (IH H2 i j); auto. lia.
Qed.

(** * Claims *)

(** C7: a tree is what was pushed into it.  Take a lawful encoding, rows in ascending
    order of their keys whose keys it admits and whose values leave room for a page prefix
    in a 32-bit length (at most max_page - 28 bytes; the 28 lengths above it that push
    admits are the claim of [blob_page_length_overflows]).  Then under every layout,
    page size up to i32::MAX, page filter and budget for the extras, with values inline or on pages of their
    own, building never panics or runs on; and when it returns a root, the file is what
    it was with more pages behind it, the pages under the root are a well-formed tree
    whose entries are exactly the rows, in order and with their values, also when the
    file goes on behind them, and the caller has been handed, for every row in order, a
    reference that leads to its value.  It stops only with an I/O error, ValueTooLarge,
    the error of the filter, the encoding or the caller that refused, or the error of a
    tree that would pass 64 levels, and not with the last when every key passes
    [check_key_fits] and there are fewer than 2^62 rows; the writer's other CorruptData errors never happen. *)
Theorem built_tree_holds_the_rows {X C} extra_bytes (on_value_ref : X -> PageRef -> IO C unit)
    (handed : list (X * PageRef) -> C -> Prop) caller_stops E `{HL : !LawfulEncoding E} `{HC : !CheckableEncoding E} `{HW : !WritableEncoding E}
    filter sink head old offs page_size ey omit budget caller c w es :
  (forall x r done s, handed done s -> wp (on_value_ref x r) (fun _ s' => handed (done ++ [(x, r)]) s') caller_stops s) ->
  (forall key d, ke_digest E key = Ok d -> 0 <= d <= u64_max) ->
  TreeWriter_new sink page_size ey E omit caller = Ok (c, w) -> page_size <= i32_max ->
  laid filter head old offs sink -> handed [] caller ->
  Forall (pushable E) es -> ascending E (row_key <$> es) ->
  wp (build_tree extra_bytes on_value_ref (limit_pending_extra c budget) es)
    (fun root w' => exists pages offs' done,
       laid filter head (old ++ pages) offs' (tw_sink w') /\
       tree_in (old ++ pages) E root es /\
       handed done (tw_caller w') /\
       Forall2 (fun e p => fst p = row_extra e /\ reads_as (image_file (old ++ pages)) (snd p) (row_value e)) es done)
    (fun e => caller_stops e \/ exists e', e = Failed e' /\
       (e' = Error_new ValueTooLarge \/ (exists page, stored_page filter page = Err e') \/
        (exists key, ke_digest E key = Err e') \/ (e' = Error_too_high /\ ~ keys_fit c es))) w.
Proof.
  intros Hcall Hdig Hnew Hps Hl Hd Hes Hasc.
  assert (tc_encoding c = E) as HE by (unfold TreeWriter_new in Hnew; inv_ok; reflexivity).
  eapply wp_mono; [exact (build_tree_holds extra_bytes on_value_ref E filter handed caller_stops Hcall Hdig page_size ey omit budget sink head old offs
    caller c w es Hnew Hps Hl Hd Hes Hasc) | auto |].
  intros e He. rewrite <- HE. exact He.
Qed.

(** What was built is what is found.  Over any store of the pages of a tree
    built from ascending rows, a lookup answers with the value that was pushed
    under the key, and with nothing only when no row has the key; it fails only
    when a page cannot be read or memory is refused, or on bytes that are no key. *)
Theorem built_table_answers {X C} extra_bytes (on_value_ref : X -> PageRef -> IO C unit)
    E `{HL : !LawfulEncoding E} `{HC : !CheckableEncoding E} `{HW : !WritableEncoding E}
    filter sink head old offs page_size ey omit budget caller c w (es : list (list byte * list byte * X)) faults root w' faults' :
  (forall x r s, wp (on_value_ref x r) (fun _ _ => True) anyhow s) ->
  (forall key d, ke_digest E key = Ok d -> 0 <= d <= u64_max) ->
  TreeWriter_new sink page_size ey E omit caller = Ok (c, w) -> page_size <= i32_max ->
  laid filter head old offs sink ->
  Forall (pushable E) es -> ascending E (row_key <$> es) ->
  build_tree extra_bytes on_value_ref (limit_pending_extra c budget) es (w, faults) = (Ok root, (w', faults')) ->
  exists pages offs', laid filter head (old ++ pages) offs' (tw_sink w') /\
    forall Store (TS : TreeStore Store) (CS : CursorStore Store) max_depth
      (SL : StoreLaws Store (image_file (old ++ pages)) (zlen (old ++ pages)) max_depth)
      descriptor secondaries id validate,
    64 <= max_depth -> 1 <= id ->
    let tb := mkTableInner descriptor (mkTree (Some root) E id validate) secondaries in
    forall key s, tree_inv (ti_primary tb) s ->
    match fst (table_get tb key s) with
    | Ok r => row_answer es key (guard_bytes <$> r)
    | Err e => get_error (SL := SL) tb key e
    end.
Proof.
  intros Hcall Hdig Hnew Hps Hl Hes Hasc Hrun.
  destruct (wp_returned _ _ _ _ _ _ _ _
    (build_tree_holds extra_bytes on_value_ref E filter (fun _ _ => True) anyhow (fun x r _ s _ => Hcall x r s) Hdig page_size ey omit budget sink head old offs
       caller c w es Hnew Hps Hl I Hes Hasc) Hrun) as (pages & offs' & _ & Hlaid & Ht & _).
  destruct (Ht (image_file (old ++ pages)) (zlen (old ++ pages)) (fun _ _ H => H)) as (h & leaves & Hwf & _ & Hread & Hst); [now apply laid_few in Hlaid|].
  exists pages, offs'. split; [exact Hlaid|]. intros Store TS CS max_depth SL descriptor secondaries id validate Hmax Hid tb key s Hs.
  pose proof (table_get_spec tb Hid h root leaves (Hwf id validate max_depth Hmax) Hread key s Hs) as [_ Hget].
  destruct (fst (table_get tb key s)) as [r|e]; [|exact Hget]. exact (rows_answered _ leaves es key r Hst Hget).
Qed.

(** ** Examples *)

(** Eighteen rows on pages so small that the tree has several levels; the caller
    collects what it is handed. *)
Definition collect (x : unit) (r : PageRef) : IO (list (unit * PageRef)) unit := update (fun l => l ++ [(x, r)]).
Definition demo_rows : list (list byte * list byte * unit) := (fun e => (e, tt)) <$> ascii_entries.
Definition demo_sink : PageSink := PageSink_new None (DirectorySpool_new 24).
Definition demo_writer : TreeWriter unit (list (unit * PageRef)) := mkTreeWriter _ _ demo_sink [Level_new] 0 0 [].
Definition demo_run := build_tree (fun _ => 0) collect (limit_pending_extra sample_config usize_max) demo_rows (demo_writer, []).

Lemma demo_laid : laid None [] [] [] demo_sink.
Proof. exists []. split; [apply (PageSink_new_holds None 24) | repeat split; constructor]. Qed.

Lemma demo_ascending : ascending AsciiEncoding (row_key <$> demo_rows).
Proof. apply ascendingb_ok. vm_compute. reflexivity. Qed.

Lemma demo_pushable : Forall (pushable AsciiEncoding) demo_rows.
Proof.
  unfold demo_rows, ascii_entries. apply Forall_fmap, Forall_fmap, Forall_seq. intros j Hj. split; [reflexivity|]. cbn -[Nat.mul].
  unfold zlen. rewrite length_replicate. fmt_lia.
Qed.

Lemma built_tree_holds_the_rows_witness : exists root w' pages,
  fst demo_run = Ok root /\ fst (snd demo_run) = w' /\ tree_in pages AsciiEncoding root demo_rows /\
  Forall2 (fun e p => reads_as (image_file pages) (snd p) (row_value e)) demo_rows (tw_caller w').
Proof.
  assert (is_ok (fst demo_run) = true) as Hok by (vm_compute; reflexivity).
  pose proof (wp_no_faults _ _ _ _ (built_tree_holds_the_rows (fun _ => 0) collect (fun done s => s = done) (fun _ => False) AsciiEncoding None demo_sink [] [] [] 90 true
    true usize_max [] sample_config demo_writer demo_rows ltac:(intros x r done s ->; now apply wp_update) ascii_digest_in_range eq_refl
    ltac:(vm_compute; discriminate) demo_laid eq_refl demo_pushable demo_ascending)) as H. fold demo_run in H.
  destruct demo_run as [[root|e] [w' faults']]; [|discriminate Hok]. destruct H as (pages & offs & done & _ & H1 & <- & H2).
  exists root, w', pages. split_and!; auto. eapply Forall2_impl; [exact H2|]. intros e p [_ H]. exact H.
Defined.

Lemma built_table_answers_witness : exists root pages,
  fst demo_run = Ok root /\
  let tb := mkTableInner (mkTableDescriptor [] (mkIndexDescriptor [] true [] RawData (Some root) 0) []) (mkTree (Some root) AsciiEncoding 1 true) [] in
  match fst (table_get tb (ascii_key 7) (mkImage ∅ : Image pages 64)) with
  | Ok r => row_answer demo_rows (ascii_key 7) (guard_bytes <$> r)
  | Err e => get_error (SL := Image_laws pages 64) tb (ascii_key 7) e
  end.
Proof.
  destruct demo_run as [[root|e] [w' faults']] eqn:Hrun; [|exfalso].
  - destruct (built_table_answers (fun _ => 0) collect AsciiEncoding None demo_sink [] [] [] 90 true true usize_max []
      sample_config demo_writer demo_rows [] root w' faults') as (pages & offs & _ & H).
    + intros x r s. now apply wp_update.
    + apply ascii_digest_in_range.
    + reflexivity.
    + vm_compute. discriminate.
    + exact demo_laid.
    + exact demo_pushable.
    + exact demo_ascending.
    + exact Hrun.
    + exists root, pages. split; [reflexivity|]. cbn zeta. apply (H (Image pages 64)); [lia | lia |].
      split; [exact I | | intros pin [=]]. intros b v Hb. cbn in Hb. rewrite lookup_empty in Hb. discriminate.
  - assert (is_ok (fst demo_run) = true) as H by (vm_compute; reflexivity). rewrite Hrun in H. discriminate.
Defined.
