(* ===== verification/Builder.v ===== *)
(** Building a database file, [crates/drydb/src/builder/mod.rs] and
    [crates/drydb/src/builder/temp.rs].

    A builder holds one sorter per table.  Rows are appended in any order; the
    sorters share one buffer, and the one that holds the most is written out when
    they hold too much between them.  A build writes the header and the
    descriptors with placeholders, then one primary tree per table, from the
    sorted rows, and one tree per index, from what the writer hands on about the
    rows, and at last the page directory and the patched header.  The file is
    renamed into place when it is complete. *)

From Stdlib Require Import ZArith Lia.
From Stdlib Require Strings.String Strings.Byte.
From stdpp Require Import base list gmap.
From coqutil Require Import Byte.
From S2P Require Import Prelude Errors Format Header PageRef Node Encoding Catalog TreePage Effects Sink Merger Spool.
From S2P Require Import PageWriter TreeWriter.

#[local] Open Scope Z_scope.
#[local] Open Scope drydb_scope.

Definition DEFAULT_PAGE_SIZE : Z := 4096.
Definition DEFAULT_SORT_BUFFER : Z := Z.shiftl 64 20.
Definition DIRECTORY_SPILL_THRESHOLD : Z := Z.shiftl 1 20.

(** A path is its bytes. *)
Definition PathBuf : Type := list byte.

(** * The state of a builder *)

(** A key that was made for an index, and what its vector has allocated. *)
Definition IndexKey : Type := (list byte * Z)%type.

Record SecondarySpec : Type := mkSecondarySpec {
  ss_name : Str;
  ss_unique : bool;
  ss_encoding : KeyEncoding;
  ss_key_fn : list byte -> list byte -> Result IndexKey;
}.

Record TableSpec : Type := mkTableSpec {
  ts_name : Str;
  ts_encoding : KeyEncoding;
  ts_secondaries : list SecondarySpec;
  ts_spool : RecordSpool;
}.

Abbreviation TableId := nat.

(** The filter as the builder uses it: its id and what it does to a page. *)
Definition BuildFilter : Type := (Str * (list byte -> Result (list byte)))%type.

Record DatabaseBuilder : Type := mkDatabaseBuilder {
  bd_page_size : Z;
  bd_buffered : Z;
  bd_eytzinger_digests : bool;
  bd_filter : option BuildFilter;
  bd_sort_buffer : Z;
  bd_temp_dir : option PathBuf;
  bd_tables : list TableSpec;
}.

Definition DatabaseBuilder_new : DatabaseBuilder :=
  mkDatabaseBuilder DEFAULT_PAGE_SIZE 0 false None DEFAULT_SORT_BUFFER None [].

Definition set_spool (s : RecordSpool) (t : TableSpec) : TableSpec :=
  mkTableSpec (ts_name t) (ts_encoding t) (ts_secondaries t) s.
Definition add_secondary (x : SecondarySpec) (t : TableSpec) : TableSpec :=
  mkTableSpec (ts_name t) (ts_encoding t) (ts_secondaries t ++ [x]) (ts_spool t).
Definition set_tables (ts : list TableSpec) (b : DatabaseBuilder) : DatabaseBuilder :=
  mkDatabaseBuilder (bd_page_size b) (bd_buffered b) (bd_eytzinger_digests b) (bd_filter b) (bd_sort_buffer b)
    (bd_temp_dir b) ts.
Definition set_buffered (n : Z) (b : DatabaseBuilder) : DatabaseBuilder :=
  mkDatabaseBuilder (bd_page_size b) n (bd_eytzinger_digests b) (bd_filter b) (bd_sort_buffer b) (bd_temp_dir b) (bd_tables b).

(** * Settings *)

Definition builder_page_size (bytes : Z) (b : DatabaseBuilder) : Result DatabaseBuilder :=
  fail? bytes <? MIN_PAGE_SIZE with Error_invalid in
  fail? i32_max <? bytes with Error_invalid in
  Ok (mkDatabaseBuilder bytes (bd_buffered b) (bd_eytzinger_digests b) (bd_filter b) (bd_sort_buffer b) (bd_temp_dir b) (bd_tables b)).

Definition builder_eytzinger_digests (enabled : bool) (b : DatabaseBuilder) : DatabaseBuilder :=
  mkDatabaseBuilder (bd_page_size b) (bd_buffered b) enabled (bd_filter b) (bd_sort_buffer b) (bd_temp_dir b) (bd_tables b).

Definition builder_page_filter (f : BuildFilter) (b : DatabaseBuilder) : DatabaseBuilder :=
  mkDatabaseBuilder (bd_page_size b) (bd_buffered b) (bd_eytzinger_digests b) (Some f) (bd_sort_buffer b) (bd_temp_dir b) (bd_tables b).

Definition builder_sort_buffer (bytes : Z) (b : DatabaseBuilder) : DatabaseBuilder :=
  let sort_buffer := Z.max bytes (64 * 1024) in
  mkDatabaseBuilder (bd_page_size b) (bd_buffered b) (bd_eytzinger_digests b) (bd_filter b) sort_buffer (bd_temp_dir b)
    ((fun t => set_spool (spool_set_budget sort_buffer (ts_spool t)) t) <$> bd_tables b).

Section Paths.
(** [std::env::temp_dir()] *)
Context (env_temp_dir : PathBuf).

(** [scratch_dir]; [parent] is [Some] of the output's parent when there is an
    output that has one. *)
Definition scratch_dir (parent : option PathBuf) (override_dir : option PathBuf) : PathBuf :=
  match override_dir with
  | Some dir => dir
  | None =>
      match parent with
      | Some [] => [Byte.x2e]
      | Some parent => parent
      | None => env_temp_dir
      end
  end.

Definition builder_temp_dir (dir : PathBuf) (b : DatabaseBuilder) : DatabaseBuilder :=
  mkDatabaseBuilder (bd_page_size b) (bd_buffered b) (bd_eytzinger_digests b) (bd_filter b) (bd_sort_buffer b) (Some dir)
    ((fun t => set_spool (spool_set_dir (scratch_dir None (Some dir)) (ts_spool t)) t) <$> bd_tables b).

Definition create_table (name : Str) (encoding : KeyEncoding) (b : DatabaseBuilder) : Result (TableId * DatabaseBuilder) :=
  fail? (zlen name =? 0) with Error_invalid in
  fail? existsb (fun t => str_eqb (ts_name t) name) (bd_tables b) with Error_invalid in
  let dir := scratch_dir None (bd_temp_dir b) in
  let spool := RecordSpool_new dir (bd_sort_buffer b) in
  let tables := bd_tables b ++ [mkTableSpec name encoding [] spool] in
  Ok ((length tables - 1)%nat, set_tables tables b).
End Paths.

Definition add_secondary_index (table : TableId) (name : Str) (unique : bool) (encoding : KeyEncoding)
    (key_fn : list byte -> list byte -> Result IndexKey) (b : DatabaseBuilder) : Result DatabaseBuilder :=
  let? spec := ok_or (bd_tables b !! table) Error_invalid in
  fail? existsb (fun s => str_eqb (ss_name s) name) (ts_secondaries spec) with Error_invalid in
  fail? 0 <? spool_len (ts_spool spec) with Error_invalid in
  Ok (set_tables (alter (add_secondary (mkSecondarySpec name unique encoding key_fn)) table (bd_tables b)) b).

(** * Sorters that share a buffer *)

(** What holds a sorter: a table, or an index while its table is written. *)
Class HasSpool (A : Type) : Type := {
  hs_encoding : A -> KeyEncoding;
  hs_spool : A -> RecordSpool;
  hs_set_spool : RecordSpool -> A -> A;
}.

#[export] Instance TableSpec_spool : HasSpool TableSpec := {|
  hs_encoding := ts_encoding;
  hs_spool := ts_spool;
  hs_set_spool := set_spool;
|}.

(** The sorter of an index, with the encoding it was made for. *)
Record IndexSpool : Type := mkIndexSpool { is_encoding : KeyEncoding; is_spool : RecordSpool }.

#[export] Instance IndexSpool_spool : HasSpool IndexSpool := {|
  hs_encoding := is_encoding;
  hs_spool := is_spool;
  hs_set_spool := fun s i => mkIndexSpool (is_encoding i) s;
|}.

Section Keep.
Context {VA : VecAlloc} {A : Type} {HS : HasSpool A}.

Definition hs_bytes (x : A) : Z := buffered_bytes (hs_spool x).

(** [.iter().map(|s| s.buffered_bytes()).sum()] *)
Definition total_bytes (l : list A) : Z := foldr Z.add 0 (hs_bytes <$> l).

(** [max_by_key]: of several that are equally full the last one. *)
Fixpoint fullest_from (l : list A) (i : nat) (best : option (nat * Z)) : option nat :=
  match l with
  | [] => fst <$> best
  | x :: l =>
      let better := match best with Some (_, n) => n <=? hs_bytes x | None => true end in
      fullest_from l (S i) (if better then Some (i, hs_bytes x) else best)
  end.
Definition fullest (l : list A) : option nat := fullest_from l 0 None.

(** Run a computation on one of the sorters; indexing past the end panics. *)
Definition on_spool {R} (i : nat) (m : KeyEncoding -> IO RecordSpool R) : IO (list A) R :=
  let! l := here in
  let! x := expect (l !! i) in
  zoom (fun l => default (hs_spool x) (hs_spool <$> l !! i)) (fun s => alter (hs_set_spool s) i) (m (hs_encoding x)).

(** The loop the builder runs wherever sorters share a buffer: while what they
    hold is over the budget the fullest is written out and the rest counted
    again.  The count is part of the state: after a flush that fails it is the
    old one.  A round empties a sorter. *)
Fixpoint keep_loop (fuel : nat) (budget : Z) : IO (list A * Z) unit :=
  let! '(l, held) := here in
  if held <=? budget then sret tt
  else
    match fullest l with
    | None => sret tt
    | Some i =>
        if (default 0 (hs_bytes <$> l !! i) =? 0) then sret tt
        else
          match fuel with
          | O => sfail OutOfFuel
          | S fuel =>
              let! _ := zoom fst (fun l t => (l, snd t)) (on_spool i spool_flush) in
              let! _ := update (fun t => (fst t, total_bytes (fst t))) in
              keep_loop fuel budget
          end
    end.

(** Over a list of sorters that are counted first. *)
Definition keep_counted (budget : Z) : IO (list A) Z :=
  let! l := here in
  let! held := zoom (fun l => (l, total_bytes l)) (fun t _ => fst t)
    (let! _ := keep_loop (length l) budget in
     let! t := here in
     sret (snd t)) in
  sret held.

(** [keep_inside] *)
Definition keep_inside (budget : Z) : IO (list A) unit :=
  let! _ := keep_counted budget in sret tt.
End Keep.

Section Build.
Context {VA : VecAlloc}.

(** [keep_inside_the_sort_buffer] *)
Definition keep_inside_the_sort_buffer : IO DatabaseBuilder unit :=
  let! b := here in
  zoom (fun b => (bd_tables b, bd_buffered b)) (fun t b => set_buffered (snd t) (set_tables (fst t) b))
    (keep_loop (length (bd_tables b)) (bd_sort_buffer b)).

(** [let r = m; ...; r?]: the error of [m] is looked at later. *)
Definition catching {T R} (m : IO T R) : IO T (Result R) := fun s =>
  match m s with
  | (Ok r, s) => (Ok (Ok r), s)
  | (Err (Failed e), s) => (Ok (Err e), s)
  | (Err stop, s) => (Err stop, s)
  end.

Definition append (table : TableId) (key value : list byte) : IO DatabaseBuilder unit :=
  let! b := here in
  let! spec := lift_result (ok_or (bd_tables b !! table) Error_invalid) in
  fail! u16_max <? zlen key with Failed (Error_new ValueTooLarge) in
  let layout := choose_layout (bd_page_size b) (bd_eytzinger_digests b) (ts_encoding spec) true in
  let! _ := lift_result (check_key_fits (bd_page_size b) layout (zlen key)) in
  let before := buffered_bytes (ts_spool spec) in
  let! pushed := catching (zoom bd_tables set_tables (on_spool table (fun E => spool_push E key value))) in
  let! b := here in
  let! spec := expect (bd_tables b !! table) in
  let after := buffered_bytes (ts_spool spec) in
  let! _ := update (set_buffered (saturating_add (saturating_sub (bd_buffered b) before) after)) in
  let! _ := lift_result pushed in
  keep_inside_the_sort_buffer.

(** * Descriptors *)

Record TableRoots : Type := mkTableRoots { tr_primary : Z; tr_secondaries : list Z }.

(** [write_index_descriptor]: the placeholder is the offset past the descriptor. *)
Definition write_index_descriptor (name encoding_id : Str) (unique : bool) (value_kind : ValueKind) : IO PageSink Z :=
  let! s := here in
  let start := sk_pos s in
  let! bytes := lift_result (encode_index_descriptor name encoding_id unique value_kind 0) in
  let root_field := start + (zlen bytes - 8) in
  let placeholder := start + zlen bytes in
  let bytes := take (length bytes - 8) bytes ++ i64_le placeholder in
  let! _ := write_raw bytes in
  sret root_field.

Definition id_bytes (E : KeyEncoding) : Str := String.list_byte_of_string (ke_id E).
Definition pk_suffix : Str := [Byte.x5f; Byte.x70; Byte.x6b].

Fixpoint write_secondary_descriptors (secondaries : list SecondarySpec) (roots : list Z) : IO PageSink (list Z) :=
  match secondaries with
  | [] => sret roots
  | index :: secondaries =>
      let! root := write_index_descriptor (ss_name index) (id_bytes (ss_encoding index)) (ss_unique index) VPageRef in
      write_secondary_descriptors secondaries (roots ++ [root])
  end.

Definition write_table_descriptor (spec : TableSpec) : IO PageSink TableRoots :=
  let name := ts_name spec in
  let! _ := write_raw (i32_le (zlen name)) in
  let! _ := write_raw name in
  let! primary := write_index_descriptor (name ++ pk_suffix) (id_bytes (ts_encoding spec)) true RawData in
  fail! u16_max <? zlen (ts_secondaries spec) with Failed Error_invalid in
  let! _ := write_raw (u16_le (zlen (ts_secondaries spec))) in
  let! secondaries := write_secondary_descriptors (ts_secondaries spec) [] in
  sret (mkTableRoots primary secondaries).

Fixpoint write_descriptors (tables : list TableSpec) (roots : list TableRoots) : IO PageSink (list TableRoots) :=
  match tables with
  | [] => sret roots
  | spec :: tables =>
      let! r := write_table_descriptor spec in
      write_descriptors tables (roots ++ [r])
  end.

Definition write_filter_id (filter : option BuildFilter) : IO PageSink unit :=
  match filter with
  | None => sret tt
  | Some (id, _) =>
      fail! 255 <? zlen id with Failed Error_invalid in
      let! _ := write_raw [byte.of_Z (zlen id)] in
      write_raw id
  end.

(** * Index trees *)

Record IndexReport : Type := mkIndexReport { ir_name : Str; ir_entries : Z }.
Record TableReport : Type := mkTableReport { tp_name : Str; tp_rows : Z; tp_indexes : list IndexReport }.
Record BuildReport : Type := mkBuildReport { bp_page_count : Z; bp_file_size : Z; bp_tables : list TableReport }.

(** A tree being written from a sorted stream. *)
Record Feeding (X C : Type) : Type := mkFeeding { fd_sorted : SortedRecords; fd_writer : TreeWriter X C }.
Arguments mkFeeding {X C}.
Arguments fd_sorted {X C}.
Arguments fd_writer {X C}.

Definition next_sorted {X C} (E : KeyEncoding) : IO (Feeding X C) (option SpoolRecord) :=
  zoom fd_sorted (fun s f => mkFeeding s (fd_writer f)) (sorted_next_record E).
Definition on_tree {X C R} (m : IO (TreeWriter X C) R) : IO (Feeding X C) R :=
  zoom fd_writer (fun w f => mkFeeding (fd_sorted f) w) m.

(** A key that does not come after the one before it is refused. *)
Definition check_after (E : KeyEncoding) (previous : option (list byte)) (key : list byte) {T} : IO T unit :=
  match previous with
  | None => sret tt
  | Some previous =>
      let! c := lift_result (ke_compare E previous key) in
      fail! negb (cmp_eqb Lt c) with Failed Error_invalid in
      sret tt
  end.

(** [while let Some(record) = sorted.next_record()?]; [fuel] is more than the
    records of the stream, [state] what the body keeps between two rounds. *)
Fixpoint for_records {X C A} (E : KeyEncoding) (body : A -> SpoolRecord -> IO (Feeding X C) A) (fuel : nat) (state : A)
    : IO (Feeding X C) unit :=
  match fuel with
  | O => sfail OutOfFuel
  | S fuel =>
      let! record := next_sorted E in
      match record with
      | None => sret tt
      | Some r => let! state := body state r in for_records E body fuel state
      end
  end.

Definition unit_bytes (_ : unit) : Z := 0.
Definition discard (_ : unit) (_ : PageRef) : IO unit unit := sret tt.

(** The loop of a unique index. *)
Definition write_unique (c : TreeConfig) (E : KeyEncoding) (fuel : nat) : IO (Feeding unit unit) unit :=
  for_records E (fun previous r =>
    let! _ := check_after E previous (rec_key r) in
    let! _ := on_tree (push unit_bytes discard c (rec_key r) (rec_value r) tt) in
    sret (Some (rec_key r))) fuel None.

(** The record id of the next entry: one more when the key is the one before. *)
Definition next_rid (E : KeyEncoding) (previous : option (list byte)) (key : list byte) (rid : Z) : Result Z :=
  match previous with
  | None => Ok 0
  | Some previous_key =>
      let? c := ke_compare E previous_key key in
      if cmp_eqb Eq c then
        fail? i32_max <=? rid with Error_new ValueTooLarge in Ok (rid + 1)
      else Ok 0
  end.

(** The loop of the others. *)
Definition write_composite (c : TreeConfig) (E : KeyEncoding) (fuel : nat) : IO (Feeding unit unit) unit :=
  for_records E (fun '(previous, rid) r =>
    let! rid := lift_result (next_rid E previous (rec_key r) rid) in
    let! _ := on_tree (push unit_bytes discard c (DuplicateKey_encode (rec_key r) rid) (rec_value r) tt) in
    sret (Some (rec_key r), rid)) fuel (None, 0).

(** [build_index_tree]: the stream ends after the records of the spool. *)
Definition build_index_tree (page_size : Z) (eytzinger : bool) (index : SecondarySpec) (spool : IndexSpool)
    : IO PageSink PageOrdinal :=
  let E := ss_encoding index in
  let! sorted := zoom (fun _ => is_spool spool) (fun _ s => s) (into_sorted (is_encoding spool)) in
  let fuel := S (Z.to_nat (spool_len (is_spool spool))) in
  let! s := here in
  let tree := if ss_unique index then E else DuplicateKeyEncoding E in
  let! '(c, w) := lift_result (TreeWriter_new s page_size eytzinger tree (ss_unique index) tt) in
  zoom (fun _ => mkFeeding sorted w) (fun f _ => tw_sink (fd_writer f))
    (let! _ := if ss_unique index then write_unique c E fuel else write_composite c E fuel in
     on_tree (finish discard c)).

(** * Tables *)

(** [size_of::<Vec<_>>()] on a 64-bit target. *)
Definition VEC_BYTES : Z := 24.
Definition keys_bytes (keys : list IndexKey) : Z :=
  VEC_BYTES + foldr Z.add 0 ((fun k => snd k + VEC_BYTES) <$> keys).

Fixpoint push_index_keys (i : nat) (keys : list IndexKey) (encoded : list byte) : IO (list IndexSpool) unit :=
  match keys with
  | [] => sret tt
  | key :: keys =>
      let! _ := on_spool i (fun E => spool_push E (fst key) encoded) in
      push_index_keys (S i) keys encoded
  end.

(** What [build_table] does with the reference of a row. *)
Definition on_value_ref (spool_budget : Z) (keys : list IndexKey) (reference : PageRef) : IO (list IndexSpool) unit :=
  let! _ := push_index_keys 0 keys (PageRef_encode reference) in
  keep_inside spool_budget.

Fixpoint index_keys (secondaries : list SecondarySpec) (key value : list byte) : Result (list IndexKey) :=
  match secondaries with
  | [] => Ok []
  | index :: secondaries =>
      let? k := ss_key_fn index key value in
      let? ks := index_keys secondaries key value in
      Ok (k :: ks)
  end.

Definition write_rows (c : TreeConfig) (E : KeyEncoding) (secondaries : list SecondarySpec) (spool_budget : Z) (fuel : nat)
    : IO (Feeding (list IndexKey) (list IndexSpool)) unit :=
  for_records E (fun previous r =>
    let! _ := check_after E previous (rec_key r) in
    let! keys := lift_result (index_keys secondaries (rec_key r) (rec_value r)) in
    let! _ := on_tree (push keys_bytes (on_value_ref spool_budget) c (rec_key r) (rec_value r) keys) in
    sret (Some (rec_key r))) fuel None.

Section Table.
Context (page_size : Z) (eytzinger : bool) (sort_buffer : Z) (scratch : PathBuf).

Fixpoint build_index_trees (indexes : list (SecondarySpec * IndexSpool * Z)) (reports : list IndexReport)
    : IO PageSink (list IndexReport) :=
  match indexes with
  | [] => sret reports
  | (index, spool, root_offset) :: indexes =>
      let entries := spool_len (is_spool spool) in
      let! root := build_index_tree page_size eytzinger index spool in
      let! _ := patch_at root_offset (i64_le root) in
      build_index_trees indexes (reports ++ [mkIndexReport (ss_name index) entries])
  end.

(** The primary tree, and the sorters of the indexes as its rows have left them. *)
Definition build_primary (spec : TableSpec) (waiting : Z) : IO PageSink (PageOrdinal * list IndexSpool) :=
  let E := ts_encoding spec in
  let secondaries := ts_secondaries spec in
  let index_spools := (fun index => mkIndexSpool (ss_encoding index) (RecordSpool_new scratch sort_buffer)) <$> secondaries in
  let share := saturating_sub sort_buffer waiting in
  let! sorted := zoom (fun _ => ts_spool spec) (fun _ s => s)
    (let! spool := here in
     let! _ := if negb (zlen secondaries =? 0) && (share / 2 <? buffered_bytes spool) then spool_flush E else sret tt in
     into_sorted E) in
  let! s := here in
  let! '(c, w) := lift_result (TreeWriter_new s page_size eytzinger E true index_spools) in
  let index_budget := saturating_sub share (held_bytes sorted) in
  let spool_budget := index_budget - index_budget / 2 in
  let c := if zlen secondaries =? 0 then c else limit_pending_extra c (index_budget / 2) in
  zoom (fun _ => mkFeeding sorted w) (fun f _ => tw_sink (fd_writer f))
    (let! _ := write_rows c E secondaries spool_budget (S (Z.to_nat (spool_len (ts_spool spec)))) in
     let! root := on_tree (finish (on_value_ref spool_budget) c) in
     let! f := here in
     sret (root, tw_caller (fd_writer f))).

Definition build_table (spec : TableSpec) (roots : TableRoots) (waiting : Z) : IO PageSink TableReport :=
  let rows := spool_len (ts_spool spec) in
  let! '(primary_root, index_spools) := build_primary spec waiting in
  let! _ := patch_at (tr_primary roots) (i64_le primary_root) in
  let! reports := build_index_trees (zip (zip (ts_secondaries spec) index_spools) (tr_secondaries roots)) [] in
  sret (mkTableReport (ts_name spec) rows reports).

(** The sink, and the tables that are still to be written. *)
Record Building : Type := mkBuilding { bu_sink : PageSink; bu_tables : list TableSpec }.
Definition on_bsink {R} (m : IO PageSink R) : IO Building R :=
  zoom bu_sink (fun s b => mkBuilding s (bu_tables b)) m.
Definition on_tables {R} (m : IO (list TableSpec) R) : IO Building R :=
  zoom bu_tables (fun ts b => mkBuilding (bu_sink b) ts) m.

Fixpoint write_tables (fuel : nat) (roots : list TableRoots) (reports : list TableReport) : IO Building (list TableReport) :=
  let! b := here in
  match bu_tables b with
  | [] => sret reports
  | spec :: tables =>
      match fuel with
      | O => sfail OutOfFuel
      | S fuel =>
          let! _ := update (fun b => mkBuilding (bu_sink b) tables) in
          let! waiting := on_tables (keep_counted (sort_buffer / 2)) in
          let! root_offsets := expect (head roots) in
          let! report := on_bsink (build_table spec root_offsets waiting) in
          write_tables fuel (tail roots) (reports ++ [report])
      end
  end.
End Table.

Definition build_header (b : DatabaseBuilder) : Result Header :=
  fail? u16_max <? zlen (bd_tables b) with Error_invalid in
  Ok (mkHeader MAJOR_VERSION MINOR_VERSION (match bd_filter b with Some _ => 1 | None => 0 end) (bd_page_size b)
        (zlen (bd_tables b)) 0 0).

(** [build_into], from a sink over the output file. *)
Definition build_into (b : DatabaseBuilder) (scratch : PathBuf) : IO PageSink BuildReport :=
  let! header := lift_result (build_header b) in
  let! _ := write_raw (Header_encode header) in
  let! _ := write_filter_id (bd_filter b) in
  let! roots := write_descriptors (bd_tables b) [] in
  let! reports := zoom (fun s => mkBuilding s (bd_tables b)) (fun t _ => bu_sink t)
    (let! _ := on_tables (keep_inside (bd_sort_buffer b)) in
     write_tables (bd_page_size b) (bd_eytzinger_digests b) (bd_sort_buffer b) scratch (length (bd_tables b)) roots []) in
  let! '(directory_position, page_count) := finish_directory in
  fail! i32_max <? page_count with Failed Error_invalid in
  let! _ := patch_at PAGE_COUNT_FIELD_OFFSET (i32_le page_count ++ i64_le directory_position) in
  let! _ := sink_flush in
  let! s := here in
  sret (mkBuildReport page_count (sk_pos s) reports).

(** The sink of a build: its file is empty. *)
Definition build_sink (b : DatabaseBuilder) : PageSink :=
  PageSink_new (snd <$> bd_filter b) (DirectorySpool_new DIRECTORY_SPILL_THRESHOLD).
End Build.
Arguments mkFeeding {X C}.
Arguments fd_sorted {X C}.
Arguments fd_writer {X C}.

(** * The file system *)

#[export] Instance byte_countable : Countable byte := inj_countable Stdlib.Strings.Byte.to_N Stdlib.Strings.Byte.of_N Stdlib.Strings.Byte.of_to_N.

(** What is on the disk, by path. *)
Abbreviation Disk := (gmap PathBuf (list byte)).

Record TempFile : Type := mkTempFile { tf_path : PathBuf; tf_keep : bool }.

(** [OpenOptions::create_new]: an existing file is left alone. *)
Definition create_new (path : PathBuf) : IO Disk bool :=
  let! d := here in
  let! _ := io (fun d => match d !! path with Some _ => d | None => <[path := []]> d end) in
  sret (bool_decide (d !! path = None)).

Section Temp.
(** The name of an attempt: the process, a counter and the clock. *)
Context (temp_name : nat -> PathBuf).

Fixpoint create_attempts (remaining attempt : nat) : IO Disk TempFile :=
  match remaining with
  | O => sfail (Failed Error_io)
  | S remaining =>
      let path := temp_name attempt in
      let! created := create_new path in
      if created then sret (mkTempFile path false) else create_attempts remaining (S attempt)
  end.

(** [TempFile::create_in] *)
Definition create_in : IO Disk TempFile := create_attempts 64 0.
End Temp.

(** [Drop for TempFile]: a failure to remove the file is ignored. *)
Definition TempFile_drop (t : TempFile) : IO Disk unit := fun s =>
  if tf_keep t then (Ok tt, s) else let '(_, s) := io (delete (tf_path t)) s in (Ok tt, s).

(** [t] is dropped when [m] fails, or in any case. *)
Definition or_drop {R} (t : TempFile) (m : IO Disk R) : IO Disk R := fun s =>
  match m s with
  | (Ok r, s) => (Ok r, s)
  | (Err e, s) => (Err e, snd (TempFile_drop t s))
  end.
Definition then_drop {R} (t : TempFile) (m : IO Disk R) : IO Disk R :=
  let! r := or_drop t m in
  let! _ := TempFile_drop t in
  sret r.

(** [TempFile::publish]: flushed to the disk, then renamed.  The renamed file is
    kept; what happens to the directory entry is ignored. *)
Definition rename (from to : PathBuf) (d : Disk) : Disk :=
  match d !! from with
  | Some bytes => <[to := bytes]> (delete from d)
  | None => d
  end.

Definition TempFile_publish (t : TempFile) (destination : PathBuf) : IO Disk unit :=
  or_drop t (let! _ := io id in io (rename (tf_path t) destination)).

Section Output.
Context {VA : VecAlloc} (env_temp_dir : PathBuf) (temp_name : PathBuf -> nat -> PathBuf).

(** The build writes to the temporary file through a handle of its own. *)
Definition build_on_disk (b : DatabaseBuilder) (t : TempFile) (scratch : PathBuf) : IO Disk BuildReport := fun s =>
  let '(r, (sink, faults)) := build_into b scratch (build_sink b, snd s) in
  (r, (<[tf_path t := f_data (bw_inner (sk_writer sink))]> (fst s), faults)).

(** [build_to_file]; [parent] is the parent of the destination, if it has one. *)
Definition build_to_file (b : DatabaseBuilder) (path : PathBuf) (parent : option PathBuf) : IO Disk BuildReport :=
  let dir := scratch_dir env_temp_dir parent (bd_temp_dir b) in
  let! temp := create_in (temp_name dir) in
  let! report := or_drop temp (let! _ := io id in build_on_disk b temp dir) in
  let! _ := TempFile_publish temp path in
  sret report.

(** [build_to_vec] *)
Definition build_to_vec (b : DatabaseBuilder) : IO Disk (list byte) :=
  let dir := scratch_dir env_temp_dir None (bd_temp_dir b) in
  let! temp := create_in (temp_name dir) in
  then_drop temp
    (let! _ := io id in
     let! _ := build_on_disk b temp dir in
     let! _ := io id in
     let! d := here in
     sret (default [] (d !! tf_path temp))).
End Output.
