(* ===== verification/BuilderFacts.v ===== *)
(** What the builder does before it builds.

    A builder is the list of the rows each table has been given ([builder_has]):
    [append] adds one, the settings and the shared buffer change nothing.  The
    loop that keeps the sorters inside the buffer ends, since what it writes out
    is empty afterwards, and ends below the budget. *)

From Stdlib Require Import ZArith Lia.
From stdpp Require Import base list sorting gmap.
From coqutil Require Import Byte.
From S2P Require Import Prelude Errors Format Encoding Catalog TreePage Effects Sink Merger Spool SpoolFacts SpoolSort.
From S2P Require Import PageWriter TreeWriter Builder.

#[local] Open Scope Z_scope.
#[local] Open Scope drydb_scope.

(** What the standard library's vectors do: an empty one that is shrunk holds
    nothing, and capacities are not negative. *)
Class VecLaws {VA : VecAlloc} : Prop := {
  vec_shrink_empty : forall c, vec_shrink c 0 = 0;
  vec_extend_nonneg : forall c n, 0 <= c -> 0 <= vec_extend c n;
}.
Arguments VecLaws VA : clear implicits.

(** * The buffer of a sorter *)

Abbreviation preserves := Prelude.keeps.
Abbreviation SpoolState := (RecordSpool * list bool)%type.

Definition same_buffer (t t' : SpoolState) : Prop :=
  sp_slots (fst t') = sp_slots (fst t) /\ sp_data_capacity (fst t') = sp_data_capacity (fst t) /\
  sp_slots_capacity (fst t') = sp_slots_capacity (fst t).

#[export] Instance same_buffer_order : PreOrder same_buffer.
Proof. split; unfold same_buffer; [easy | intros x y z (-> & -> & ->) (-> & -> & ->); easy]. Qed.

Lemma keeps_update f : (forall s fs, same_buffer (s, fs) (f s, fs)) -> preserves same_buffer (update f).
Proof. intros H [s fs]. apply H. Qed.

Lemma keeps_here {T} (R : T * list bool -> T * list bool -> Prop) `{!PreOrder R} : preserves R here.
Proof. intros s. simpl. reflexivity. Qed.

Lemma keeps_id_io : preserves same_buffer (io id).
Proof. intros [s [|[] fs]]; easy. Qed.

Lemma keeps_zoom_buffer {U R} get set (m : IO U R) :
  (forall u s fs fs', same_buffer (s, fs) (set u s, fs')) -> preserves same_buffer (zoom get set m).
Proof. intros H [s fs]. unfold zoom. simpl. destruct (m (get s, fs)) as [r [u fs']]. apply H. Qed.

Create HintDb buffer.
#[export] Hint Resolve keeps_id_io : buffer.

Ltac keeps_buffer :=
  repeat lazymatch goal with
  | |- preserves _ (sbind _ _) => apply keeps_sbind; [exact _ | | intros ?]
  | |- preserves _ (sret _) => apply keeps_sret; exact _
  | |- preserves _ (sfail _) => apply keeps_sfail; exact _
  | |- preserves _ here => apply keeps_here; exact _
  | |- preserves _ (expect _) => apply keeps_lift; exact _
  | |- preserves _ (update _) => apply keeps_update; easy
  | |- preserves _ (zoom _ _ _) => apply keeps_zoom_buffer; easy
  | |- preserves _ (if ?b then _ else _) => destruct b
  | |- preserves _ (let '(_, _) := ?x in _) => destruct x
  | |- preserves _ _ => solve [auto with buffer]
  end.

Section Buffers.
Context {VA : VecAlloc} (E : KeyEncoding).

Lemma keeps_move_runs group : preserves same_buffer (move_runs (fun input runs => merge_groups E input runs group)).
Proof. unfold move_runs, merge_groups. keeps_buffer. Qed.

Lemma keeps_merge_tail count level : preserves same_buffer (merge_tail E count level).
Proof. unfold merge_tail. keeps_buffer. Qed.

#[local] Hint Resolve keeps_move_runs keeps_merge_tail : buffer.

Lemma keeps_merge_tiers_loop fuel : preserves same_buffer (merge_tiers_loop E fuel).
Proof. induction fuel as [|fuel IH]; cbn [merge_tiers_loop]; keeps_buffer. Qed.
#[local] Hint Resolve keeps_merge_tiers_loop : buffer.

Lemma keeps_merge_tiers : preserves same_buffer (merge_tiers E).
Proof. unfold merge_tiers, spool_rewrite, rewrite_runs. keeps_buffer. Qed.

Context {VL : VecLaws VA}.

(** A sorter's vectors are as large as they have been, and an empty buffer has
    given its memory back. *)
Record tight (s : RecordSpool) : Prop := {
  tg_data : 0 <= sp_data_capacity s;
  tg_slots : 0 <= sp_slots_capacity s;
  tg_empty : sp_slots s = [] -> buffered_bytes s = 0;
}.

Definition emptied (s : RecordSpool) : Prop := sp_slots s = [] /\ sp_data_capacity s = 0 /\ sp_slots_capacity s = 0.

Lemma emptied_bytes s : emptied s -> buffered_bytes s = 0.
Proof. intros (_ & Hd & Hs). unfold buffered_bytes. now rewrite Hd, Hs. Qed.

Lemma emptied_tight s : emptied s -> tight s.
Proof. intros He. split; [destruct He as (_ & -> & _); lia | destruct He as (_ & _ & ->); lia | intros _; exact (emptied_bytes s He)]. Qed.

Lemma tight_nonneg s : tight s -> 0 <= buffered_bytes s.
Proof. intros [Hd Hs _]. unfold buffered_bytes, saturating_add, saturating_mul, SPOOL_SLOT_BYTES, usize_max in *. lia. Qed.

(** Whatever it did before, it ends like its last part. *)
Lemma ends_bind {T A R} (m : IO T A) (k : A -> IO T R) (P : T * list bool -> Prop) :
  (forall a t b t', k a t = (Ok b, t') -> P t') -> forall t b t', sbind m k t = (Ok b, t') -> P t'.
Proof. intros H t b t' (a & t1 & _ & Hk)%sbind_Ok_inv. eauto. Qed.

Lemma spill_empties s fs s' fs' : sp_slots s <> [] -> spill E (s, fs) = (Ok tt, (s', fs')) -> emptied s'.
Proof.
  intros Hne H. unfold spill in H. unfold sbind at 1 in H. cbn [here fst] in H. destruct (sp_slots s) as [|sl slots]; [contradiction|].
  match type of H with ?m _ = _ => enough (forall t u t', m t = (Ok u, t') -> emptied (fst t')) as Hall by exact (Hall _ _ _ H) end.
  clear -VL. do 8 (apply (ends_bind _ _ (fun t => emptied (fst t))); intros ?; cbv zeta). intros t [] t' H.
  apply sbind_Ok_inv in H as ([] & t1 & [= <-] & H).
  match type of H with _ ?t2 = _ => pose proof (keeps_merge_tiers t2) as Hk end. rewrite H in Hk. destruct Hk as (H1 & H2 & H3).
  cbn in H1, H2, H3. split; [exact H1|]. rewrite H2, H3. split; apply vec_shrink_empty.
Qed.

Lemma spill_tight s fs s' fs' : tight s -> spill E (s, fs) = (Ok tt, (s', fs')) -> buffered_bytes s' = 0 /\ tight s'.
Proof.
  intros Ht H. destruct (sp_slots s) as [|sl slots] eqn:Hs.
  - unfold spill, sbind, here in H. cbn in H. rewrite Hs in H. injection H as <- _. split; [exact (tg_empty _ Ht Hs) | exact Ht].
  - assert (emptied s') as He by (eapply spill_empties; [|exact H]; congruence). split; [now apply emptied_bytes | now apply emptied_tight].
Qed.

Lemma or_spoil_Ok (m : IO RecordSpool unit) t t' : or_spoil m t = (Ok tt, t') -> m t = (Ok tt, t').
Proof. unfold or_spoil. destruct (m t) as [[[]|[e| |]] [s fs]]; congruence. Qed.

Lemma flush_tight s fs s' fs' : tight s -> spool_flush E (s, fs) = (Ok tt, (s', fs')) -> buffered_bytes s' = 0 /\ tight s'.
Proof.
  intros Ht H. unfold spool_flush in H. apply sbind_Ok_inv in H as ([] & [s1 fs1] & Hc & H%or_spoil_Ok).
  assert ((s1, fs1) = (s, fs)) as [= -> ->]; [|exact (spill_tight _ _ _ _ Ht H)].
  unfold check_usable, sbind, here in Hc. cbn in Hc. destruct (sp_spoiled s); inversion Hc. reflexivity.
Qed.

Lemma push_tight key value s fs s' fs' : tight s -> spool_push E key value (s, fs) = (Ok tt, (s', fs')) -> tight s'.
Proof.
  intros Ht H. unfold spool_push in H. apply sbind_Ok_inv in H as ([] & [s1 fs1] & Hc & H).
  assert ((s1, fs1) = (s, fs)) as [= -> ->].
  { unfold check_usable, sbind, here in Hc. cbn in Hc. destruct (sp_spoiled s); inversion Hc. reflexivity. }
  apply sbind_Ok_inv in H as ([] & t2 & H2 & H). assert (t2 = (s, fs)) as -> by (unfold lift_result, lift in H2; congruence).
  apply sbind_Ok_inv in H as (d & t3 & H3 & H). assert (t3 = (s, fs)) as -> by (unfold lift_result, lift in H3; congruence).
  cbn in H. set (s4 := mkRecordSpool _ _ _ _ _ _ _ _ _ _ _ _ _) in H.
  assert (tight s4) as Ht4.
  { split; cbn; [apply vec_extend_nonneg, vec_extend_nonneg, Ht | apply vec_extend_nonneg, Ht|].
    intros Hn. apply (f_equal length) in Hn. rewrite length_app in Hn. cbn in Hn. lia. }
  match type of H with (if ?b then _ else _) _ = _ => destruct b end.
  - apply or_spoil_Ok in H. exact (proj2 (spill_tight _ _ _ _ Ht4 H)).
  - injection H as <- _. exact Ht4.
Qed.
End Buffers.

(** * Encodings a file can be built with *)

Class Buildable (E : KeyEncoding) : Type := {
  bl_lawful :: LawfulEncoding E;
  bl_checkable :: CheckableEncoding E;
  bl_writable :: WritableEncoding E;
  (** A digest is a [u64]. *)
  bl_digest : forall key d, ke_digest E key = Ok d -> 0 <= d <= u64_max;
}.

Lemma need_len_inv key n u : need_len key n = Ok u -> zlen key = n.
Proof. unfold need_len. intros H. destruct (zlen key =? n) eqn:He; [lia | discriminate]. Qed.

(** Where a digest is made only of a well-formed key it is in range. *)
Lemma digest_of_ok (E : KeyEncoding) `{HL : !LawfulEncoding E} :
  (forall key d, ke_digest E key = Ok d -> key_ok key) -> forall key d, ke_digest E key = Ok d -> 0 <= d <= u64_max.
Proof. intros H key d Hd. pose proof (H key d Hd) as Hk. rewrite (digest_ok key Hk) in Hd. injection Hd as <-. now apply dig_range. Qed.

#[export] Instance Ascii_buildable : Buildable AsciiEncoding.
Proof. refine (Build_Buildable AsciiEncoding _ _ _ _). apply (digest_of_ok AsciiEncoding). exact (fun _ _ _ => I). Defined.
#[export] Instance Ulid_buildable : Buildable UlidEncoding.
Proof. refine (Build_Buildable UlidEncoding _ _ _ _). apply (digest_of_ok UlidEncoding). exact (fun _ _ _ => I). Defined.
#[export] Instance Uuidv7_buildable : Buildable Uuidv7Encoding.
Proof.
  refine (Build_Buildable Uuidv7Encoding _ _ _ _). apply (digest_of_ok Uuidv7Encoding). cbn. intros key d H. unfold Uuidv7_digest, Uuidv7_fields in H. destruct (need_len key 16) eqn:Hn; [|discriminate].
  exact (need_len_inv _ _ _ Hn).
Defined.
#[export] Instance Int64_buildable : Buildable Int64Encoding.
Proof.
  refine (Build_Buildable Int64Encoding _ _ _ _). apply (digest_of_ok Int64Encoding). cbn. intros key d H. unfold Int64_digest, Int64_decode in H. destruct (need_len key 8) eqn:Hn; [|discriminate].
  exact (need_len_inv _ _ _ Hn).
Defined.

Lemma builtin_buildable id E : builtin id = Some E -> exists _ : Buildable E, True.
Proof.
  unfold builtin. intros HE. repeat lazymatch type of HE with (if ?b then _ else _) = _ => destruct b; [injection HE as <-; eexists; [exact _ | exact I]|] end.
  discriminate.
Qed.

(** * Sorters *)

Lemma wp_post {T A} (m : IO T A) (Q : A -> T -> Prop) (P : A -> T -> Prop) B t :
  wp m Q B t -> (forall fs a t' fs', m (t, fs) = (Ok a, (t', fs')) -> P a t') -> wp m (fun a t' => Q a t' /\ P a t') B t.
Proof.
  intros H HP faults. specialize (H faults). destruct (m (t, faults)) as [[a|e] [t' fs']] eqn:Hm; [|exact H].
  destruct H as [HQ Hf]. split; [split; [exact HQ | exact (HP _ _ _ _ Hm)] | exact Hf].
Qed.

(** The records of rows that were appended, numbered. *)
Definition numbered (rows : list (list byte * list byte)) : list SpoolRecord :=
  imap (fun i r => mkSpoolRecord (Z.of_nat i) (fst r) (snd r)) rows.

Lemma numbered_snoc rows r : numbered (rows ++ [r]) = numbered rows ++ [mkSpoolRecord (zlen rows) (fst r) (snd r)].
Proof. unfold numbered. rewrite imap_app. cbn. rewrite Nat.add_0_r. reflexivity. Qed.

Lemma zlen_numbered rows : zlen (numbered rows) = zlen rows.
Proof. unfold zlen, numbered. now rewrite length_imap. Qed.

(** A sorter has been given these rows. *)
Definition spool_given {VA : VecAlloc} (E : KeyEncoding) (s : RecordSpool) (rows : list (list byte * list byte)) : Prop :=
  exists HB : Buildable E, spool_has E s (numbered rows) /\ tight s /\ Forall (fun r => validate_key E (fst r) = Ok tt) rows.

Section Given.
Context {VA : VecAlloc} {VL : VecLaws VA} (E : KeyEncoding) (B : Stop -> Prop).

Lemma new_given dir budget : Buildable E -> spool_given E (RecordSpool_new dir budget) [].
Proof. intros HB. exists HB. split; [apply RecordSpool_new_has|]. split; [split; cbn; [lia | lia | reflexivity] | constructor]. Qed.

Lemma given_budget budget s rows : spool_given E s rows -> spool_given E (spool_set_budget budget s) rows.
Proof.
  intros (HB & (buf & stored & ([] & Ht & Hz) & Hp) & [] & Hv). exists HB. split; [|split; [split; assumption | exact Hv]].
  exists buf, stored. split; [|exact Hp]. split; [|auto]. split; auto.
Qed.

Lemma given_dir dir s rows : spool_given E s rows -> spool_given E (spool_set_dir dir s) rows.
Proof.
  intros (HB & (buf & stored & ([] & Ht & Hz) & Hp) & [] & Hv). exists HB. split; [|split; [split; assumption | exact Hv]].
  exists buf, stored. split; [|exact Hp]. split; [|auto]. split; auto.
Qed.

Lemma given_count s rows : spool_given E s rows -> spool_len s = zlen rows.
Proof.
  intros (HB & Hh & _ & _). unfold spool_len. destruct (runs_bounded E s _ Hh) as [-> _]. apply zlen_numbered.
Qed.

Lemma flush_given s rows : spool_given E s rows ->
  wp (spool_flush E) (fun _ s' => spool_given E s' rows /\ buffered_bytes s' = 0) B s.
Proof.
  intros (HB & Hh & Ht & Hall). eapply wp_mono; [apply (wp_post _ (fun _ s' => spool_has E s' (numbered rows)) (fun _ s' => buffered_bytes s' = 0 /\ tight s') B) | |auto].
  - unfold spool_flush. apply wp_bind, check_usable_ok; [exact (proj2 (has_next_seq E s _ Hh))|]. apply wp_or_spoil, spill_has, Hh.
  - intros fs [] s' fs' H. exact (flush_tight E s fs s' fs' Ht H).
  - intros [] s' [Hh' [Hb Ht']]. split; [exists HB; auto | exact Hb].
Qed.

(** How a push fails: the encoding refuses the key. *)
Lemma push_given s rows key value :
  spool_given E s rows -> zlen rows <= u64_max -> zlen key < 2 ^ 32 -> zlen value < 2 ^ 32 ->
  (forall e, validate_key E key = Err e -> B (Failed e)) ->
  wp (spool_push E key value) (fun _ s' => spool_given E s' (rows ++ [(key, value)]) /\ validate_key E key = Ok tt) B s.
Proof.
  intros (HB & Hh & Ht & Hall) Hu Hk Hv Hbad. destruct (validate_key E key) as [[]|e] eqn:Hvk.
  - eapply wp_mono; [apply (wp_post _ (fun _ s' => spool_has E s' (numbered rows ++ pushed [Push key value] (zlen (numbered rows)))) (fun _ s' => tight s') B) | |auto].
    + apply (spool_op_ok E B validated_ok s (numbered rows) (Push key value) Hh); [cbn; auto | now rewrite zlen_numbered].
    + intros fs [] s' fs' H. exact (push_tight E key value s fs s' fs' Ht H).
    + intros [] s' [Hh' Ht']. split; [|reflexivity]. exists HB. rewrite numbered_snoc. rewrite zlen_numbered in Hh'.
      split; [exact Hh'|]. split; [exact Ht'|]. apply Forall_app. split; [exact Hall | now constructor].
  - unfold spool_push. apply wp_bind, check_usable_ok; [exact (proj2 (has_next_seq E s _ Hh))|].
    apply wp_bind, wp_lift_result. rewrite Hvk. now apply Hbad.
Qed.
End Given.

(** * Sorters that share a buffer *)

Class HasSpoolLaws (A : Type) {HS : HasSpool A} : Prop := {
  hs_get : forall s (x : A), hs_spool (hs_set_spool s x) = s;
  hs_enc : forall s (x : A), hs_encoding (hs_set_spool s x) = hs_encoding x;
  hs_eta : forall x : A, hs_set_spool (hs_spool x) x = x;
  hs_set_set : forall s s' (x : A), hs_set_spool s' (hs_set_spool s x) = hs_set_spool s' x;
}.

#[export] Instance TableSpec_spool_laws : HasSpoolLaws TableSpec.
Proof. split; try reflexivity. now intros []. Qed.
#[export] Instance IndexSpool_spool_laws : HasSpoolLaws IndexSpool.
Proof. split; try reflexivity. now intros []. Qed.

Section Shared.
Context {VA : VecAlloc} {VL : VecLaws VA} {A : Type} {HS : HasSpool A} {HL : HasSpoolLaws A} (B : Stop -> Prop).
Implicit Types (l : list A) (x : A).

Definition given_rows x (rows : list (list byte * list byte)) : Prop := spool_given (hs_encoding x) (hs_spool x) rows.

(** The same but for the state of the sorters. *)
Definition respooled x y : Prop := y = hs_set_spool (hs_spool y) x.

Lemma respooled_refl x : respooled x x.
Proof. symmetry. apply hs_eta. Qed.

Lemma respooled_trans x y z : respooled x y -> respooled y z -> respooled x z.
Proof. unfold respooled. intros Hy Hz. rewrite Hz at 1. rewrite Hy. now rewrite hs_set_set. Qed.

Lemma respooled_set x y s : respooled x y -> respooled x (hs_set_spool s y).
Proof. intros H. apply (respooled_trans _ _ _ H). unfold respooled. now rewrite hs_get. Qed.

Lemma all_respooled_refl l : Forall2 respooled l l.
Proof. induction l; constructor; auto. apply respooled_refl. Qed.

Lemma all_respooled_trans l l' l'' : Forall2 respooled l l' -> Forall2 respooled l' l'' -> Forall2 respooled l l''.
Proof. intros H. revert l''. induction H; intros l'' H'; inversion H'; subst; constructor; auto. eapply respooled_trans; eauto. Qed.

(** A step on one of them. *)
Lemma on_spool_ok {R} i (m : KeyEncoding -> IO RecordSpool R) x (Q : R -> RecordSpool -> Prop) l :
  l !! i = Some x -> wp (m (hs_encoding x)) Q B (hs_spool x) ->
  wp (on_spool i m) (fun r l' => exists s, Q r s /\ l' = <[i := hs_set_spool s x]> l) B l.
Proof.
  intros Hx Hm. unfold on_spool. apply wp_bind, wp_here, wp_bind, wp_expect. exists x. split; [exact Hx|]. apply wp_zoom.
  rewrite Hx. eapply wp_mono; [exact Hm | | auto]. intros r s HQ. exists s. split; [exact HQ|].
  apply list_eq. intros j. destruct (decide (i = j)) as [<-|Hij].
  - rewrite list_lookup_alter_eq, Hx, list_lookup_insert_eq by (now apply lookup_lt_Some in Hx). reflexivity.
  - now rewrite list_lookup_alter_ne, list_lookup_insert_ne.
Qed.

(** The fullest is as full as any. *)
Lemma fullest_from_spec : forall l i best (pre : list A), length pre = i ->
  match best with
  | None => pre = []
  | Some (j, n) => exists x, pre !! j = Some x /\ hs_bytes x = n /\ Forall (fun y => hs_bytes y <= n) pre
  end ->
  match fullest_from l i best with
  | None => pre ++ l = []
  | Some j => exists x, (pre ++ l) !! j = Some x /\ Forall (fun y => hs_bytes y <= hs_bytes x) (pre ++ l)
  end.
Proof.
  induction l as [|x l IH]; intros i best pre Hi Hb; cbn [fullest_from].
  - rewrite app_nil_r. destruct best as [[j n]|]; cbn; [|exact Hb]. destruct Hb as (y & Hy & <- & Hall). eauto.
  - specialize (IH (S i) (if match best with Some (_, n) => n <=? hs_bytes x | None => true end then Some (i, hs_bytes x) else best) (pre ++ [x])).
    rewrite <- app_assoc in IH. apply IH; [rewrite length_app; cbn; lia|]. destruct best as [[j n]|].
    + destruct Hb as (y & Hy & Hn & Hall). destruct (Z.leb_spec n (hs_bytes x)).
      * exists x. split; [rewrite lookup_app_r by lia; now rewrite Hi, Nat.sub_diag|]. split; [reflexivity|]. apply Forall_app. split; [|repeat constructor; lia].
        eapply Forall_impl; [exact Hall|]. cbn. lia.
      * exists y. split; [now apply lookup_app_l_Some|]. split; [exact Hn|]. apply Forall_app. split; [exact Hall | repeat constructor; lia].
    + subst pre. cbn in Hi. subst i. exists x. split; [reflexivity|]. split; [reflexivity | repeat constructor; lia].
Qed.

Lemma fullest_spec l :
  match fullest l with
  | None => l = []
  | Some i => exists x, l !! i = Some x /\ Forall (fun y => hs_bytes y <= hs_bytes x) l
  end.
Proof. exact (fullest_from_spec l 0 None [] eq_refl eq_refl). Qed.

(** How many sorters hold something. *)
Definition busy l : nat := length (List.filter (fun x => negb (hs_bytes x =? 0)) l).

Lemma busy_insert l i x y : l !! i = Some x -> hs_bytes x <> 0 -> hs_bytes y = 0 -> S (busy (<[i := y]> l)) = busy l.
Proof.
  unfold busy. revert i. induction l as [|z l IH]; intros [|i] Hi Hx Hy; try discriminate.
  - injection Hi as ->. change (<[0%nat := y]> (x :: l)) with (y :: l). cbn [List.filter]. rewrite Hy, (proj2 (Z.eqb_neq _ _) Hx). reflexivity.
  - change (<[S i := y]> (z :: l)) with (z :: <[i := y]> l). cbn [List.filter]. specialize (IH i Hi Hx Hy). destruct (hs_bytes z =? 0); cbn [negb length]; lia.
Qed.

Lemma busy_all l : (busy l <= length l)%nat.
Proof. apply List.filter_length_le. Qed.

Lemma total_idle l : Forall (fun y => hs_bytes y <= 0) l -> Forall (fun y => 0 <= hs_bytes y) l -> total_bytes l = 0.
Proof. unfold total_bytes. induction l as [|x l IH]; intros H H'; [reflexivity|]. inversion H; inversion H'; subst. cbn in *. rewrite IH by assumption. lia. Qed.

Lemma given_nonneg l rowss : Forall2 given_rows l rowss -> Forall (fun y => 0 <= hs_bytes y) l.
Proof. intros H. eapply Forall2_Forall_l; [exact H|]. apply Forall_forall. intros rows _ x (HB & _ & Ht & _). now apply tight_nonneg. Qed.

(** It ends: a round empties a sorter that held something. *)
Lemma keep_loop_ok budget : forall fuel l held rowss, Forall2 given_rows l rowss -> (busy l <= fuel)%nat ->
  wp (keep_loop fuel budget) (fun _ t => Forall2 given_rows (fst t) rowss /\ Forall2 respooled l (fst t) /\
    (held = total_bytes l -> 0 <= budget -> snd t = total_bytes (fst t) /\ snd t <= budget)) B (l, held).
Proof.
  induction fuel as [|fuel IH]; intros l held rowss Hl Hf.
  all: cbn [keep_loop]; apply wp_bind, wp_here; cbn [fst]; apply wp_if; intros Hle; [apply Z.leb_le in Hle | apply Z.leb_gt in Hle];
    [apply wp_ret; split_and!; auto using all_respooled_refl|].
  all: pose proof (fullest_spec l) as Hfull; destruct (fullest l) as [i|];
    [|subst l; apply wp_ret; split_and!; auto using all_respooled_refl; cbn; lia].
  all: destruct Hfull as (x & Hx & Hmax); rewrite Hx; cbn [fmap option_fmap option_map default from_option]; unfold id; apply wp_if; intros H0;
    [apply Z.eqb_eq in H0 | apply Z.eqb_neq in H0];
    [apply wp_ret; split_and!; auto using all_respooled_refl; intros -> Hb; exfalso; rewrite H0 in Hmax;
     rewrite (total_idle l Hmax (given_nonneg _ _ Hl)) in Hle; lia |].
  - exfalso. assert (busy l = 0)%nat as Hz by lia. pose proof (busy_insert l i x x Hx H0) as Hb. unfold busy in *.
    apply length_zero_iff_nil in Hz. apply list_elem_of_lookup_2, list_elem_of_In in Hx.
    assert (x ∈ List.filter (fun x => negb (hs_bytes x =? 0)) l) as Hin.
    { apply list_elem_of_In, filter_In. split; [exact Hx|]. now rewrite (proj2 (Z.eqb_neq _ _) H0). }
    rewrite Hz in Hin. inversion Hin.
  - destruct (Forall2_lookup_l _ _ _ _ _ Hl Hx) as (rows & Hrows & Hg). apply wp_bind, wp_zoom.
    eapply wp_mono; [exact (on_spool_ok i spool_flush x _ l Hx (flush_given _ B _ _ Hg)) | | auto].
    intros [] l' (s & [Hs Hb] & ->). cbn [fst snd]. apply wp_bind, wp_update. cbn [fst snd].
    set (y := hs_set_spool s x). assert (hs_bytes y = 0) as Hy by (unfold hs_bytes, y; now rewrite hs_get).
    eapply wp_mono; [apply (IH (<[i := y]> l) _ rowss) | | auto].
    + rewrite <- (list_insert_id rowss i rows Hrows). apply Forall2_insert; [exact Hl|]. unfold given_rows, y. now rewrite hs_get, hs_enc.
    + pose proof (busy_insert l i x y Hx H0 Hy). lia.
    + intros [] t (H1 & H2 & H3). split_and!; auto. eapply all_respooled_trans; [|exact H2].
      rewrite <- (list_insert_id l i x Hx) at 1. apply Forall2_insert; [apply all_respooled_refl | apply respooled_set, respooled_refl].
Qed.

Lemma keep_counted_ok budget l rowss : Forall2 given_rows l rowss ->
  wp (keep_counted budget) (fun held l' => Forall2 given_rows l' rowss /\ Forall2 respooled l l' /\
    (0 <= budget -> held = total_bytes l' /\ held <= budget)) B l.
Proof.
  intros Hl. unfold keep_counted. apply wp_bind, wp_here, wp_bind, wp_zoom, wp_bind.
  eapply wp_mono; [exact (keep_loop_ok budget (length l) l (total_bytes l) rowss Hl (busy_all l)) | | auto].
  intros [] t (H1 & H2 & H3). apply wp_bind, wp_here, wp_ret, wp_ret. auto.
Qed.

Lemma keep_inside_ok budget l rowss : Forall2 given_rows l rowss ->
  wp (keep_inside budget) (fun _ l' => Forall2 given_rows l' rowss /\ Forall2 respooled l l' /\ (0 <= budget -> total_bytes l' <= budget)) B l.
Proof.
  intros Hl. unfold keep_inside. apply wp_bind. eapply wp_mono; [exact (keep_counted_ok budget l rowss Hl) | | auto].
  intros held l' (H1 & H2 & H3). apply wp_ret. split_and!; auto. intros Hb. destruct (H3 Hb) as [<- H]. exact H.
Qed.
End Shared.

(** * The builder as lists of rows *)

Section Builder.
Context {VA : VecAlloc} {VL : VecLaws VA}.
Abbreviation row := (list byte * list byte)%type.

Record builder_has (b : DatabaseBuilder) (rowss : list (list row)) : Prop := {
  bh_tables : Forall2 given_rows (bd_tables b) rowss;
  bh_page_size : MIN_PAGE_SIZE <= bd_page_size b <= i32_max;
  bh_sort_buffer : 64 * 1024 <= bd_sort_buffer b;
}.

Lemma new_has : builder_has DatabaseBuilder_new [].
Proof. split; [constructor | split; vm_compute; discriminate | vm_compute; discriminate]. Qed.

(** The settings change no rows. *)
Lemma settings_keep b rowss :
  builder_has b rowss ->
  (forall bytes b', builder_page_size bytes b = Ok b' -> builder_has b' rowss) /\
  (forall enabled, builder_has (builder_eytzinger_digests enabled b) rowss) /\
  (forall f, builder_has (builder_page_filter f b) rowss) /\
  (forall bytes, builder_has (builder_sort_buffer bytes b) rowss) /\
  (forall env dir, builder_has (builder_temp_dir env dir b) rowss).
Proof.
  intros [Ht Hp Hs]. split_and!.
  - intros bytes b' H. unfold builder_page_size in H. inv_ok. split; cbn; auto. lia.
  - intros enabled. split; auto.
  - intros f. split; auto.
  - intros bytes. split; cbn; auto; [|lia]. apply Forall2_fmap_l. eapply Forall2_impl; [exact Ht|]. intros t rows. apply given_budget.
  - intros env dir. split; cbn; auto. apply Forall2_fmap_l. eapply Forall2_impl; [exact Ht|]. intros t rows. apply given_dir.
Qed.

Lemma create_table_has env name E b rowss id b' :
  builder_has b rowss -> Buildable E -> create_table env name E b = Ok (id, b') ->
  builder_has b' (rowss ++ [[]]) /\ id = length rowss /\ name <> [] /\ ~ name ∈ (ts_name <$> bd_tables b) /\
  exists spool, bd_tables b' = bd_tables b ++ [mkTableSpec name E [] spool].
Proof.
  intros [Ht Hp Hs] HE H. unfold create_table in H. inv_ok. split; [|split; [|split; [|split]]].
  - split; cbn; auto. apply Forall2_app; [exact Ht|]. constructor; [|constructor]. now apply new_given.
  - rewrite length_app. cbn. rewrite (Forall2_length _ _ _ Ht). lia.
  - intros ->. discriminate.
  - intros Hin. apply list_elem_of_fmap in Hin as (t & -> & Ht').
    match goal with H : existsb _ _ = false |- _ => apply not_true_iff_false in H; apply H end.
    apply existsb_exists. exists t. split; [now apply list_elem_of_In|]. unfold str_eqb. now apply bool_decide_eq_true.
  - eexists. reflexivity.
Qed.

Lemma add_secondary_index_has table name unique E key_fn b rowss b' :
  builder_has b rowss -> add_secondary_index table name unique E key_fn b = Ok b' ->
  builder_has b' rowss /\ exists spec, bd_tables b !! table = Some spec /\ rowss !! table = Some [] /\
    ~ name ∈ (ss_name <$> ts_secondaries spec) /\
    bd_tables b' = <[table := add_secondary (mkSecondarySpec name unique E key_fn) spec]> (bd_tables b).
Proof.
  intros [Ht Hp Hs] H. unfold add_secondary_index in H. inv_ok. rename v into spec.
  match goal with H : bd_tables b !! table = Some spec |- _ => rename H into Hspec end.
  destruct (Forall2_lookup_l _ _ _ _ _ Ht Hspec) as (rows & Hrows & Hg).
  assert (alter (add_secondary (mkSecondarySpec name unique E key_fn)) table (bd_tables b) =
    <[table := add_secondary (mkSecondarySpec name unique E key_fn) spec]> (bd_tables b)) as Halt.
  { apply list_eq. intros j. destruct (decide (table = j)) as [<-|Hj].
    - rewrite list_lookup_alter_eq, Hspec, list_lookup_insert_eq by (now apply lookup_lt_Some in Hspec). reflexivity.
    - now rewrite list_lookup_alter_ne, list_lookup_insert_ne. }
  split.
  - split; cbn; auto. rewrite Halt, <- (list_insert_id rowss table rows Hrows). apply Forall2_insert; [exact Ht | exact Hg].
  - exists spec. split_and!; auto.
    + rewrite Hrows. f_equal. unfold given_rows in Hg. apply given_count in Hg. cbn in Hg.
      destruct rows as [|r rows]; [reflexivity|]. rewrite zlen_cons in Hg. pose proof (zlen_nonneg rows). lia.
    + intros Hin. apply list_elem_of_fmap in Hin as (t & -> & Ht').
      match goal with H : existsb _ _ = false |- _ => apply not_true_iff_false in H; apply H end.
      apply existsb_exists. exists t. split; [now apply list_elem_of_In|]. unfold str_eqb. now apply bool_decide_eq_true.
Qed.

(** ** Appending *)

(** The same builder but for the state of its sorters. *)
Definition refilled (b b' : DatabaseBuilder) : Prop :=
  Forall2 respooled (bd_tables b) (bd_tables b') /\ bd_page_size b' = bd_page_size b /\
  bd_eytzinger_digests b' = bd_eytzinger_digests b /\ bd_filter b' = bd_filter b /\
  bd_sort_buffer b' = bd_sort_buffer b /\ bd_temp_dir b' = bd_temp_dir b.

#[export] Instance refilled_order : PreOrder refilled.
Proof.
  split.
  - intros b. repeat split. apply all_respooled_refl.
  - intros b b' b'' (Ht & Hp & He & Hf & Hs & Hd) (Ht' & Hp' & He' & Hf' & Hs' & Hd').
    split; [exact (all_respooled_trans _ _ _ Ht Ht')|]. split_and!; congruence.
Qed.

Lemma refilled_lookup b b' i : refilled b b' ->
  ts_encoding <$> bd_tables b' !! i = ts_encoding <$> bd_tables b !! i.
Proof.
  intros (Ht & _). destruct (bd_tables b !! i) as [x|] eqn:Hx.
  - destruct (Forall2_lookup_l _ _ _ _ _ Ht Hx) as (y & Hy & Hr). rewrite Hy. cbn. now rewrite Hr.
  - destruct (bd_tables b' !! i) as [y|] eqn:Hy; [|reflexivity]. destruct (Forall2_lookup_r _ _ _ _ _ Ht Hy) as (x & Hx' & _). congruence.
Qed.

Lemma keep_inside_the_sort_buffer_ok b rowss B : builder_has b rowss ->
  wp keep_inside_the_sort_buffer (fun _ b' => builder_has b' rowss /\ refilled b b') B b.
Proof.
  intros [Ht Hp Hs]. unfold keep_inside_the_sort_buffer. apply wp_bind, wp_here, wp_zoom.
  eapply wp_mono; [exact (keep_loop_ok B _ _ (bd_tables b) (bd_buffered b) rowss Ht (busy_all _)) | | auto].
  intros [] [ts n] (H1 & H2 & _). cbn [fst snd] in *. split; [split; cbn; auto | split_and!; auto].
Qed.

(** A computation whose error is looked at after the bookkeeping. *)
Lemma wp_catching table (m : IO DatabaseBuilder unit) (f : TableSpec -> DatabaseBuilder -> DatabaseBuilder) k Q Q' B b :
  (table < length (bd_tables b))%nat ->
  preserves (fun t t' => length (bd_tables (fst t')) = length (bd_tables (fst t))) m ->
  wp m Q B b ->
  (forall b' spec, Q tt b' -> bd_tables b' !! table = Some spec -> wp k Q' B (f spec b')) ->
  wp (let! pushed := catching m in
      let! b := here in
      let! spec := expect (bd_tables b !! table) in
      let! _ := update (f spec) in
      let! _ := lift_result pushed in
      k : IO DatabaseBuilder unit) Q' B b.
Proof.
  intros Hlen Hk Hm Hrest faults. specialize (Hm faults). specialize (Hk (b, faults)). unfold catching, sbind at 1.
  destruct (m (b, faults)) as [[[]|e] [b' faults']] eqn:Hrun; cbn [fst snd] in Hk.
  all: destruct (lookup_lt_is_Some_2 (bd_tables b') table) as [spec Hspec]; [lia|].
  - destruct Hm as [HQ Hf]. specialize (Hrest b' spec HQ Hspec faults').
    unfold sbind, here, expect, lift, ok_or, update, lift_result. cbn [fst snd]. rewrite Hspec. cbn [fst snd map_err].
    unfold lift. destruct (k (f spec b', faults')) as [[[]|e] [b'' faults'']]; intuition auto.
  - destruct e as [e| |]; [|exact Hm..].
    unfold sbind, here, expect, lift, ok_or, update, lift_result. cbn [fst snd]. rewrite Hspec. cbn [fst snd map_err].
    unfold lift. exact Hm.
Qed.

(** Why a row is refused. *)
Definition row_refused (b : DatabaseBuilder) (table : TableId) (key : list byte) (e : Stop) : Prop :=
  (e = Failed Error_invalid /\ bd_tables b !! table = None) \/
  exists spec, bd_tables b !! table = Some spec /\
    ((e = Failed (Error_new ValueTooLarge) /\ u16_max < zlen key) \/
     (exists x, check_key_fits (bd_page_size b) (choose_layout (bd_page_size b) (bd_eytzinger_digests b) (ts_encoding spec) true) (zlen key) = Err x /\ e = Failed x) \/
     (exists x, validate_key (ts_encoding spec) key = Err x /\ e = Failed x)).

Lemma append_has b rowss table key value rows :
  builder_has b rowss -> rowss !! table = Some rows -> zlen rows <= u64_max -> zlen value < 2 ^ 32 ->
  wp (append table key value)
    (fun _ b' => builder_has b' (<[table := rows ++ [(key, value)]]> rowss) /\ refilled b b' /\
       exists spec, bd_tables b !! table = Some spec /\ validate_key (ts_encoding spec) key = Ok tt /\ zlen key <= u16_max)
    (row_refused b table key) b.
Proof.
  intros Hb Hrows Hcount Hvl. destruct (Forall2_lookup_r _ _ _ _ _ (bh_tables _ _ Hb) Hrows) as (spec & Hspec & Hg).
  unfold append. apply wp_bind, wp_here, wp_bind, wp_lift_result. rewrite Hspec. cbn [ok_or].
  apply wp_if; intros Hk; [apply wp_fail; right; exists spec; split; [exact Hspec|]; left; split; [reflexivity | lia]|].
  apply wp_bind, wp_lift_result. destruct (check_key_fits _ _ (zlen key)) as [[]|x] eqn:Hfits.
  2:{ right. exists spec. split; [exact Hspec|]. right. left. eauto. }
  set (Q := fun (_ : unit) b' => builder_has b' (<[table := rows ++ [(key, value)]]> rowss) /\ refilled b b' /\
     validate_key (ts_encoding spec) key = Ok tt).
  apply (wp_catching table _
    (fun s b' => set_buffered (saturating_add (saturating_sub (bd_buffered b') (buffered_bytes (ts_spool spec))) (buffered_bytes (ts_spool s))) b') _ Q).
  - now apply lookup_lt_Some in Hspec.
  - intros [b0 fs]. unfold zoom, on_spool, sbind, here, expect, lift, ok_or. cbn [fst snd].
    destruct (bd_tables b0 !! table); [|reflexivity]. unfold zoom. cbn [fst snd]. destruct (spool_push _ _ _ _) as [r [s f]]. cbn. apply length_alter.
  - apply wp_zoom. eapply wp_mono; [apply (on_spool_ok _ table (fun E => spool_push E key value) spec
      (fun _ s => spool_given (ts_encoding spec) s (rows ++ [(key, value)]) /\ validate_key (ts_encoding spec) key = Ok tt) (bd_tables b) Hspec) | | intros e He; exact He].
    + apply (push_given _ (row_refused b table key)); [exact Hg | exact Hcount | unfold u16_max in *; lia | exact Hvl |].
      intros e He. right. exists spec. split; [exact Hspec|]. right. right. eauto.
    + intros [] l' (s & [Hs Hv] & ->). destruct Hb as [Ht Hp Hsb]. split; [|split; [|exact Hv]].
      * split; cbn; auto. apply Forall2_insert; [exact Ht | exact Hs].
      * split_and!; auto. cbn. rewrite <- (list_insert_id (bd_tables b) table spec Hspec) at 1. apply Forall2_insert; [apply all_respooled_refl|].
        exact (respooled_set spec spec s (respooled_refl spec)).
  - intros b' s (Hb' & Hre & Hv) Hs. eapply wp_mono; [apply (keep_inside_the_sort_buffer_ok (set_buffered _ b')) | | intros e He; exact He].
    + destruct Hb' as [Ht Hp Hsb]. split; cbn; [exact Ht | exact Hp | exact Hsb].
    + intros [] b'' [Hb'' Hre']. split; [exact Hb''|]. split; [transitivity b'; [exact Hre | exact Hre']|].
      exists spec. split; [reflexivity|]. split; [exact Hv | lia].
Qed.

(** Rows appended one after the other. *)
Abbreviation table_row := (TableId * row)%type.

Fixpoint append_all (ops : list table_row) : IO DatabaseBuilder unit :=
  match ops with
  | [] => sret tt
  | (table, (key, value)) :: ops => let! _ := append table key value in append_all ops
  end.

Definition collect (rowss : list (list row)) (op : table_row) : list (list row) := alter (.++ [snd op]) (fst op) rowss.

Lemma refused_refilled b b' table key e : refilled b b' -> row_refused b' table key e -> row_refused b table key e.
Proof.
  intros Hre H. pose proof (refilled_lookup b b' table Hre) as Hl. destruct Hre as (_ & Hp & He & _). unfold row_refused in *. rewrite Hp, He in H.
  destruct H as [[-> Hn]|(spec' & Hs & H)].
  - left. split; [reflexivity|]. rewrite Hn in Hl. destruct (bd_tables b !! table); [discriminate | reflexivity].
  - right. rewrite Hs in Hl. destruct (bd_tables b !! table) as [spec|]; [|discriminate]. injection Hl as Henc. exists spec.
    split; [reflexivity|]. now rewrite <- Henc.
Qed.

Lemma append_all_has ops : forall b rowss,
  builder_has b rowss -> Forall (fun op => (fst op < length rowss)%nat /\ zlen (snd (snd op)) < 2 ^ 32) ops ->
  Forall (fun rows => zlen rows + zlen ops <= u64_max) rowss ->
  wp (append_all ops) (fun _ b' => builder_has b' (foldl collect rowss ops) /\ refilled b b')
    (fun e => exists table key value, (table, (key, value)) ∈ ops /\ row_refused b table key e) b.
Proof.
  induction ops as [|[table [key value]] ops IH]; intros b rowss Hb Hops Hcount; [apply wp_ret; split; [exact Hb | reflexivity]|].
  apply Forall_cons in Hops as [[Htable Hv] Hops]. destruct (lookup_lt_is_Some_2 rowss table Htable) as [rows Hrows].
  pose proof (proj1 (Forall_lookup _ _) Hcount table rows Hrows) as Hc. rewrite zlen_cons in Hc. pose proof (zlen_nonneg ops).
  cbn [append_all]. apply wp_bind. eapply wp_mono; [exact (append_has b rowss table key value rows Hb Hrows ltac:(lia) Hv) | |].
  2:{ intros e He. exists table, key, value. split; [left | exact He]. }
  intros [] b' (Hb' & Hre & _). cbn [foldl].
  assert (collect rowss (table, (key, value)) = <[table := rows ++ [(key, value)]]> rowss) as ->.
  { apply list_eq. intros j. unfold collect. cbn. destruct (decide (table = j)) as [<-|Hj].
    - rewrite list_lookup_alter_eq, Hrows, list_lookup_insert_eq by exact Htable. reflexivity.
    - now rewrite list_lookup_alter_ne, list_lookup_insert_ne. }
  eapply wp_mono; [apply (IH b' _ Hb') | |].
  - rewrite length_insert. exact Hops.
  - apply Forall_insert; [|rewrite zlen_app, zlen_cons; change (zlen (@nil row)) with 0; lia].
    eapply Forall_impl; [exact Hcount|]. intros rs. cbn. rewrite zlen_cons. lia.
  - intros [] b'' [Hb'' Hre']. split; [exact Hb'' | now transitivity b'].
  - intros e (t & k & v & Hin & Hr). exists t, k, v. split; [now right | exact (refused_refilled _ _ _ _ _ Hre Hr)].
Qed.
End Builder.

(** * The output file *)

Section Publishing.
Context {VA : VecAlloc}.
Implicit Types (t : TempFile).

(** A temporary file is a new one. *)
Lemma create_attempts_inv names : forall remaining attempt (d : Disk) fs r d' fs',
  create_attempts names remaining attempt (d, fs) = (r, (d', fs')) ->
  match r with
  | Ok t => d !! tf_path t = None /\ d' = <[tf_path t := []]> d /\ tf_keep t = false
  | Err _ => d' = d
  end.
Proof.
  induction remaining as [|remaining IH]; intros attempt d fs r d' fs' H; [injection H as <- <- _; reflexivity|].
  cbn [create_attempts] in H. unfold create_new, sbind, here, io in H. cbn [fst] in H.
  destruct fs as [|[] fs]; [| injection H as <- <- _; reflexivity |].
  all: destruct (d !! names attempt) as [bytes|] eqn:Hd; cbv beta iota in H;
    [rewrite bool_decide_false in H by discriminate; exact (IH _ _ _ _ _ _ H)
    |rewrite bool_decide_true in H by reflexivity; injection H as <- <- _; auto].
Qed.

(** What a build leaves of the disk: everything but its own file as it was. *)
Lemma build_on_disk_inv b t scratch d fs r d' fs' :
  build_on_disk b t scratch (d, fs) = (r, (d', fs')) ->
  exists sink fs1, build_into b scratch (build_sink b, fs) = (r, (sink, fs1)) /\ d' = <[tf_path t := f_data (bw_inner (sk_writer sink))]> d.
Proof.
  unfold build_on_disk. cbn [fst snd]. destruct (build_into b scratch (build_sink b, fs)) as [r0 [sink fs1]]. intros [= <- <- _]. eauto.
Qed.

(** Computations that touch no file but the temporary one. *)
Definition elsewhere (t : TempFile) (s s' : Disk * list bool) : Prop := forall p, p <> tf_path t -> fst s' !! p = fst s !! p.

#[export] Instance elsewhere_order t : PreOrder (elsewhere t).
Proof. split; [now intros s p | intros x y z H H' p Hp; now rewrite H', H]. Qed.

Lemma elsewhere_io t f : (forall d, elsewhere t (d, []) (f d, [])) -> preserves (elsewhere t) (io f).
Proof. intros H [d [|[] fs]] p Hp; [exact (H d p Hp) | reflexivity | exact (H d p Hp)]. Qed.

Lemma elsewhere_drop t : preserves (elsewhere t) (TempFile_drop t).
Proof.
  intros s. unfold TempFile_drop. destruct (tf_keep t); [reflexivity|].
  pose proof (elsewhere_io t (delete (tf_path t))) as H. specialize (H ltac:(intros d p Hp; cbn; now rewrite lookup_delete_ne by congruence) s).
  destruct (io (delete (tf_path t)) s) as [r s']. exact H.
Qed.

Lemma elsewhere_or_drop t {R} (m : IO Disk R) : preserves (elsewhere t) m -> preserves (elsewhere t) (or_drop t m).
Proof.
  intros H s. unfold or_drop. specialize (H s). destruct (m s) as [[r|e] s']; [exact H|]. etransitivity; [exact H|]. apply elsewhere_drop.
Qed.

Lemma elsewhere_build b t scratch : preserves (elsewhere t) (build_on_disk b t scratch).
Proof.
  intros [d fs] p Hp. destruct (build_on_disk b t scratch (d, fs)) as [r [d' fs']] eqn:H.
  apply build_on_disk_inv in H as (sink & fs1 & _ & ->). cbn. now rewrite lookup_insert_ne by congruence.
Qed.

Lemma elsewhere_id t : preserves (elsewhere t) (io id).
Proof. apply elsewhere_io. intros d p Hp. reflexivity. Qed.

Lemma or_drop_Ok t {R} (m : IO Disk R) s r s' : or_drop t m s = (Ok r, s') -> m s = (Ok r, s').
Proof. unfold or_drop. destruct (m s) as [[]]; congruence. Qed.

Lemma io_Ok {T} (f : T -> T) x fs x' fs' : io f (x, fs) = (Ok tt, (x', fs')) -> x' = f x.
Proof. destruct fs as [|[] fs]; cbn; congruence. Qed.

Lemma publish_fails t path s e s' : TempFile_publish t path s = (Err e, s') -> elsewhere t s s'.
Proof.
  unfold TempFile_publish, or_drop. destruct s as [d fs]. unfold sbind. pose proof (elsewhere_id t (d, fs)) as Hid.
  destruct (io id (d, fs)) as [[[]|e1] [d1 fs1]] eqn:H1; cbn [snd] in Hid.
  - apply io_Ok in H1 as ->. destruct fs1 as [|[] fs1]; cbn [io]; intros [= _ <-]. exact (elsewhere_drop t (d, fs1)).
  - intros [= _ <-]. etransitivity; [exact Hid | exact (elsewhere_drop t (d1, fs1))].
Qed.

Lemma rename_new (d : Disk) from to bytes : d !! from = None -> rename from to (<[from := bytes]> d) = <[to := bytes]> d.
Proof.
  intros Hn. unfold rename. rewrite lookup_insert_eq. f_equal. rewrite delete_insert_id; auto.
Qed.
End Publishing.

(** C38: the loop that keeps sorters inside a shared budget ends, and ends below the
    budget: it writes out the fullest while they hold too much, loses no row of any
    of them, and fails only with an I/O error of a sorter's file. *)
Theorem keep_inside_ends {VA : VecAlloc} {VL : VecLaws VA} budget l rowss :
  Forall2 given_rows l rowss -> 0 <= budget ->
  wp (keep_inside budget) (fun _ l' => Forall2 given_rows l' rowss /\ Forall2 (A := IndexSpool) respooled l l' /\ total_bytes l' <= budget)
    (fun _ => False) l.
Proof.
  intros Hl Hb. eapply wp_mono; [exact (keep_inside_ok (fun _ => False) budget l rowss Hl) | | auto]. intros [] l' (H1 & H2 & H3). auto.
Qed.

(** C37: rows with values under 4 GiB, appended one after the other to tables of the
    builder, are all in the sorters of their tables, in the order they came in and
    whatever was written out in between; a row is refused only when its key is too long
    for the format or for a page, or the encoding rejects it, and an append fails
    otherwise only with an I/O error.  (Longer values are the claim of [long_value_is_truncated].) *)
Theorem appends_collected {VA : VecAlloc} {VL : VecLaws VA} ops b rowss :
  builder_has b rowss -> Forall (fun op => (fst op < length rowss)%nat /\ zlen (snd (snd op)) < 2 ^ 32) ops ->
  Forall (fun rows => zlen rows + zlen ops <= u64_max) rowss ->
  wp (append_all ops) (fun _ b' => builder_has b' (foldl collect rowss ops) /\ refilled b b')
    (fun e => exists table key value, (table, (key, value)) ∈ ops /\ row_refused b table key e) b.
Proof. apply append_all_has. Qed.

(** C36: [build_to_file] replaces the destination or leaves it: when it succeeds,
    for any schedule of I/O errors, the disk is what it was but for the
    destination, which has all the bytes the build has written to its sink, and the
    temporary file is gone; when it fails, every file that was there, the
    destination included, is as it was. *)
Theorem build_to_file_atomic {VA : VecAlloc} env temp_name b path parent d faults r d' faults' :
  build_to_file env temp_name b path parent (d, faults) = (r, (d', faults')) ->
  match r with
  | Ok report => exists sink before after,
      build_into b (scratch_dir env parent (bd_temp_dir b)) (build_sink b, before) = (Ok report, (sink, after)) /\
      d' = <[path := f_data (bw_inner (sk_writer sink))]> d
  | Err _ => forall p bytes, d !! p = Some bytes -> d' !! p = Some bytes
  end.
Proof.
  unfold build_to_file. set (scratch := scratch_dir env parent (bd_temp_dir b)). unfold sbind at 1.
  destruct (create_in (temp_name scratch) (d, faults)) as [[t|e] [d1 fs1]] eqn:Hc; apply create_attempts_inv in Hc.
  2:{ intros [= <- <- _]. now subst. }
  destruct Hc as (Hnone & -> & Hkeep).
  assert (forall s', elsewhere t (<[tf_path t := []]> d, fs1) s' -> forall p bytes, d !! p = Some bytes -> fst s' !! p = Some bytes) as Hkept.
  { intros s' H p bytes Hp. rewrite H by congruence. cbn [fst]. rewrite lookup_insert_ne by congruence. exact Hp. }
  unfold sbind at 1. set (m := or_drop t _).
  assert (preserves (elsewhere t) m) as Hm.
  { apply elsewhere_or_drop, keeps_sbind; [exact _ | apply elsewhere_id | intros []; apply elsewhere_build]. }
  specialize (Hm (<[tf_path t := []]> d, fs1)). destruct (m _) as [[report|e] [d2 fs2]] eqn:Hrun; cbn [snd] in Hm.
  2:{ intros [= <- <- _]. exact (Hkept _ Hm). }
  unfold sbind. destruct (TempFile_publish t path (d2, fs2)) as [[[]|e] [d3 fs3]] eqn:Hp.
  - intros [= <- <- _]. apply or_drop_Ok in Hrun. apply sbind_Ok_inv in Hrun as ([] & [d4 fs4] & ->%io_Ok & Hb).
    apply build_on_disk_inv in Hb as (sink & fs5 & Hb & ->). exists sink, fs4, fs5. split; [exact Hb|].
    apply or_drop_Ok in Hp. apply sbind_Ok_inv in Hp as ([] & [d4 fs6] & ->%io_Ok & ->%io_Ok).
    unfold id. rewrite insert_insert_eq. now apply rename_new.
  - intros [= <- <- _]. apply publish_fails in Hp. exact (Hkept _ (transitivity Hm Hp)).
Qed.

(** * On concrete input *)

#[local] Instance exact_alloc : VecAlloc := {| vec_extend := Z.max; vec_shrink := fun _ n => n |}.
#[local] Instance exact_laws : VecLaws exact_alloc.
Proof. split; [reflexivity | cbn; lia]. Qed.

(** A table with a key of its own kind, and rows for it in descending order. *)
Definition demo_table : DatabaseBuilder :=
  match create_table [] [Byte.x74] AsciiEncoding DatabaseBuilder_new with Ok (_, b) => b | Err _ => DatabaseBuilder_new end.
Definition demo_ops : list (TableId * (list byte * list byte)) := [(0%nat, ([Byte.x62], [Byte.x31])); (0%nat, ([Byte.x61], [])); (0%nat, ([], [Byte.x32; Byte.x33]))].

Lemma demo_table_has : builder_has demo_table [[]].
Proof. exact (proj1 (create_table_has [] [Byte.x74] AsciiEncoding DatabaseBuilder_new [] 0%nat demo_table new_has _ eq_refl)). Qed.

Lemma appends_collected_witness :
  match append_all demo_ops (demo_table, []) with
  | (Ok _, (b, _)) => builder_has b [[([Byte.x62], [Byte.x31]); ([Byte.x61], []); ([], [Byte.x32; Byte.x33])]] /\ bd_buffered b = 125
  | (Err _, _) => False
  end.
Proof.
  pose proof (wp_no_faults _ _ _ _ (appends_collected demo_ops demo_table [[]] demo_table_has
    ltac:(repeat constructor) ltac:(repeat constructor; vm_compute; discriminate))) as H.
  assert ((is_ok (fst (append_all demo_ops (demo_table, []))), bd_buffered (fst (snd (append_all demo_ops (demo_table, []))))) = (true, 125)) as Hn
    by (vm_compute; reflexivity).
  destruct (append_all demo_ops (demo_table, [])) as [[[]|e] [b fs]]; [|discriminate Hn].
  injection Hn as Hn. split; [exact (proj1 H) | exact Hn].
Defined.

(** Two sorters with a row each, and room for one of them. *)
Definition demo_spool : IndexSpool :=
  mkIndexSpool AsciiEncoding (fst (snd (spool_push AsciiEncoding [Byte.x61] [Byte.x62] (RecordSpool_new [] 1000, [])))).

Lemma demo_spool_given : given_rows demo_spool [([Byte.x61], [Byte.x62])].
Proof.
  pose proof (wp_no_faults _ _ _ _ (push_given AsciiEncoding (fun _ => False) _ [] [Byte.x61] [Byte.x62] (new_given AsciiEncoding [] 1000 _)
    ltac:(vm_compute; discriminate) ltac:(reflexivity) ltac:(reflexivity) ltac:(discriminate))) as H.
  unfold given_rows, demo_spool. cbn [hs_encoding hs_spool IndexSpool_spool is_encoding is_spool].
  destruct (spool_push _ _ _ _) as [[[]|e] [s fs]]; [exact (proj1 H) | destruct H].
Qed.

Lemma keep_inside_ends_witness :
  match keep_inside 60 ([demo_spool; demo_spool], []) with
  | (Ok _, (l, _)) => Forall2 given_rows l [[([Byte.x61], [Byte.x62])]; [([Byte.x61], [Byte.x62])]] /\ total_bytes l <= 60 /\
      total_bytes [demo_spool; demo_spool] = 84
  | (Err _, _) => False
  end.
Proof.
  pose proof (wp_no_faults _ _ _ _ (keep_inside_ends 60 [demo_spool; demo_spool] [_; _]
    ltac:(repeat constructor; exact demo_spool_given) ltac:(lia))) as H.
  destruct (keep_inside 60 _) as [[[]|e] [l fs]]; [|exact H]. destruct H as (H1 & _ & H2). split; [exact H1|]. split; [exact H2|].
  vm_compute. reflexivity.
Defined.

(** Over a file that is there, with an error in the middle of the build and without. *)
Definition demo_disk : Disk := {[ [Byte.x64] := [Byte.x6f] ]}.
Definition demo_build : IO Disk BuildReport := build_to_file [] (fun _ n => replicate n Byte.x5f) demo_table [Byte.x64] None.

Lemma build_to_file_atomic_witness :
  match demo_build (demo_disk, replicate 4 false ++ [true]), demo_build (demo_disk, []) with
  | (Err _, (d, _)), (Ok report, (d', _)) => d !! [Byte.x64] = Some [Byte.x6f] /\ (exists bytes, d' = {[ [Byte.x64] := bytes ]} /\ zlen bytes = bp_file_size report)
  | _, _ => False
  end.
Proof.
  pose proof (fun r d' fs' => build_to_file_atomic [] (fun _ n => replicate n Byte.x5f) demo_table [Byte.x64] None demo_disk (replicate 4 false ++ [true]) r d' fs') as H.
  pose proof (fun r d' fs' => build_to_file_atomic [] (fun _ n => replicate n Byte.x5f) demo_table [Byte.x64] None demo_disk [] r d' fs') as H'.
  fold demo_build in H, H'.
  assert ((is_ok (fst (demo_build (demo_disk, replicate 4 false ++ [true]))), is_ok (fst (demo_build (demo_disk, []))),
    match demo_build (demo_disk, []) with (Ok report, (d, _)) => zlen (default [] (d !! [Byte.x64])) =? bp_file_size report | _ => false end) = (false, true, true)) as Hn
    by (vm_compute; reflexivity).
  destruct (demo_build (demo_disk, replicate 4 false ++ [true])) as [[report|e] [d fs]]; [discriminate Hn|].
  destruct (demo_build (demo_disk, [])) as [[report|e'] [d' fs']]; [|discriminate Hn].
  injection Hn as Hn. split; [exact (H _ _ _ eq_refl [Byte.x64] [Byte.x6f] eq_refl)|].
  destruct (H' _ _ _ eq_refl) as (sink & before & after & _ & ->). eexists. split; [apply insert_singleton_eq|].
  rewrite lookup_insert_eq in Hn. now apply Z.eqb_eq in Hn.
Defined.
