(* ===== verification/Spending.v ===== *)
(** What a run does to the schedule of faults, from any state.

    [wp] asks that a run leaves no fault in the schedule that was not there.  For
    a computation whose state is not known to be good this is all that can be said
    of it: [spends].  Here it is shown of the operations of a sorter and of what
    the builder hands to a tree writer, so that they can be run where nothing else
    is known. *)

From Stdlib Require Import ZArith Lia.
From stdpp Require Import base list.
From coqutil Require Import Byte.
From S2P Require Import Prelude Errors Format PageRef Encoding Effects Sink SinkPages Merger Spool SpoolSort TreeWriter Builder.

#[local] Open Scope Z_scope.
#[local] Open Scope drydb_scope.

Definition spends {T A} (m : IO T A) : Prop := forall t, wp m (fun _ _ => True) anyhow t.

Lemma spends_ret {T A} (a : A) : spends (sret a : IO T A).
Proof. intros t. now apply wp_ret. Qed.
Lemma spends_fail {T A} e : spends (sfail e : IO T A).
Proof. intros t. now apply wp_fail. Qed.
Lemma spends_here {T} : spends (here : IO T T).
Proof. intros t. now apply wp_here. Qed.
Lemma spends_update {T} (f : T -> T) : spends (update f).
Proof. intros t. now apply wp_update. Qed.
Lemma spends_io {T} (f : T -> T) : spends (io f).
Proof. intros t. now apply wp_io. Qed.
Lemma spends_lift {T A} (m : Result A) : spends (lift_result m : IO T A).
Proof. intros t. apply wp_lift_result. now destruct m. Qed.
Lemma spends_expect {T A} (o : option A) : spends (expect o : IO T A).
Proof. intros t. now apply wp_expect_known. Qed.
Lemma spends_bind {T A C} (m : IO T A) (k : A -> IO T C) : spends m -> (forall a, spends (k a)) -> spends (sbind m k).
Proof. intros Hm Hk t. apply wp_bind. eapply wp_mono; [exact (Hm t) | intros a t' _; exact (Hk a t') | auto]. Qed.
Lemma spends_zoom {T U A} get set (m : IO U A) : spends m -> spends (zoom get set m : IO T A).
Proof. intros Hm t. apply wp_zoom. eapply wp_mono; [exact (Hm (get t)) | auto | auto]. Qed.
Lemma spends_or_spoil m : spends m -> spends (or_spoil m).
Proof. intros Hm t. apply wp_or_spoil, Hm. Qed.

Create HintDb spends.
#[export] Hint Resolve spends_ret spends_fail spends_here spends_update spends_io spends_lift spends_expect : spends.

Ltac spend :=
  intros; cbv beta zeta;
  lazymatch goal with
  | |- spends (sbind _ _) => apply spends_bind; [spend | spend]
  | |- spends (zoom _ _ _) => apply spends_zoom; spend
  | |- spends (or_spoil _) => apply spends_or_spoil; spend
  | |- spends (if ?b then _ else _) => destruct b; spend
  | |- spends (match ?x with _ => _ end) => destruct x; spend
  | |- _ => solve [auto with spends]
  end.

Section Spool.
Context {VA : VecAlloc} (E : KeyEncoding).

Lemma spends_read_exact n : spends (file_read_exact n).
Proof. unfold file_read_exact. spend. Qed.
#[local] Hint Resolve spends_read_exact : spends.

Lemma spends_merger : spends merger.
Proof. unfold merger. spend. Qed.
Lemma spends_on_merger f : spends (on_merger f).
Proof. unfold on_merger. spend. Qed.
#[local] Hint Resolve spends_merger spends_on_merger : spends.
Lemma spends_at_heap i : spends (at_heap i).
Proof. unfold at_heap. spend. Qed.
#[local] Hint Resolve spends_at_heap : spends.

Lemma spends_refill run : spends (refill run).
Proof. unfold refill, in_file, read_next. spend. Qed.
#[local] Hint Resolve spends_refill : spends.

Lemma spends_heap_compare a b : spends (heap_compare E a b).
Proof. unfold heap_compare. spend. Qed.
#[local] Hint Resolve spends_heap_compare : spends.

Lemma spends_sift_loop fuel : forall i, spends (sift_loop E fuel i).
Proof. induction fuel as [|fuel IH]; intros i; cbn [sift_loop]; spend. Qed.

Lemma spends_sift_down i : spends (sift_down E i).
Proof. unfold sift_down. pose proof spends_sift_loop. spend. Qed.
#[local] Hint Resolve spends_sift_down : spends.

Lemma spends_check : spends check.
Proof. unfold check. spend. Qed.
#[local] Hint Resolve spends_check : spends.

Lemma spends_fill_front n : forall i, spends (fill_front n i).
Proof. induction n as [|n IH]; intros i; cbn [fill_front]; spend. Qed.

Lemma spends_sift_all n : spends (sift_all E n).
Proof. induction n as [|n IH]; cbn [sift_all]; spend. Qed.
#[local] Hint Resolve spends_fill_front spends_sift_all : spends.

Lemma spends_Merger_new readers : spends (Merger_new E readers).
Proof. unfold Merger_new. spend. Qed.

Lemma spends_merger_next : spends (merger_next_record E).
Proof. unfold merger_next_record, next_pending, reheap, in_file, read_value. spend. Qed.
#[local] Hint Resolve spends_Merger_new spends_merger_next : spends.

Lemma spends_write_record {T} (on_writer : (BufWriter -> BufWriter) -> T -> T) seq key value : spends (write_record on_writer seq key value).
Proof. unfold write_record. spend. Qed.
#[local] Hint Resolve spends_write_record : spends.

Lemma spends_merge_into {T} {MS : MergeState T} fuel : forall pos, spends (merge_into E (T := T) fuel pos).
Proof. induction fuel as [|fuel IH]; intros pos; cbn [merge_into]; spend. Qed.
#[local] Hint Resolve spends_merge_into : spends.

Lemma spends_merge_runs {T} {MS : MergeState T} runs pos : spends (merge_runs E (T := T) runs pos).
Proof. unfold merge_runs. spend. Qed.
#[local] Hint Resolve spends_merge_runs : spends.

Lemma spends_merge_chunks cs : forall runs pos, spends (merge_chunks E cs runs pos).
Proof. induction cs as [|chunk cs IH]; intros runs pos; cbn [merge_chunks]; spend. Qed.
#[local] Hint Resolve spends_merge_chunks : spends.

Lemma spends_move_runs group : spends (move_runs (fun input runs => merge_groups E input runs group)).
Proof. unfold move_runs, merge_groups. spend. Qed.
#[local] Hint Resolve spends_move_runs : spends.

Lemma spends_merge_tail count level : spends (merge_tail E count level).
Proof. unfold merge_tail. spend. Qed.
#[local] Hint Resolve spends_merge_tail : spends.

Lemma spends_merge_tiers_loop fuel : spends (merge_tiers_loop E fuel).
Proof. induction fuel as [|fuel IH]; cbn [merge_tiers_loop]; spend. Qed.
#[local] Hint Resolve spends_merge_tiers_loop : spends.

Lemma spends_write_slots data slots : spends (write_slots data slots).
Proof. induction slots as [|sl slots IH]; cbn [write_slots]; spend. Qed.
#[local] Hint Resolve spends_write_slots : spends.

Lemma spends_spill : spends (spill E).
Proof. unfold spill, sort_buffer, merge_tiers, spool_rewrite, rewrite_runs. spend. Qed.
#[local] Hint Resolve spends_spill : spends.

Lemma spends_flush : spends (spool_flush E).
Proof. unfold spool_flush, check_usable. spend. Qed.

Lemma spends_push key value : spends (spool_push E key value).
Proof. unfold spool_push, check_usable. spend. Qed.
End Spool.
#[export] Hint Resolve spends_flush spends_push : spends.

(** What the builder does for every value of a table. *)
Section Index.
Context {VA : VecAlloc}.

Lemma spends_on_spool {A} {HS : HasSpool A} {R} i (m : KeyEncoding -> IO RecordSpool R) :
  (forall E, spends (m E)) -> spends (on_spool (A := A) i m).
Proof. intros Hm. unfold on_spool. spend. Qed.
#[local] Hint Resolve spends_on_spool : spends.

Lemma spends_push_index_keys keys encoded : forall i, spends (push_index_keys i keys encoded).
Proof. induction keys as [|key keys IH]; intros i; cbn [push_index_keys]; spend. Qed.
#[local] Hint Resolve spends_push_index_keys : spends.

Lemma spends_keep_loop {A} {HS : HasSpool A} fuel budget : spends (keep_loop (A := A) fuel budget).
Proof. induction fuel as [|fuel IH]; cbn [keep_loop]; spend. Qed.
#[local] Hint Resolve spends_keep_loop : spends.

Lemma spends_on_value_ref budget keys r : spends (on_value_ref budget keys r).
Proof. unfold on_value_ref, keep_inside, keep_counted. spend. Qed.
End Index.
