(* ===== verification/Feeding.v ===== *)
(** The loops that feed a tree from a sorted stream, [crates/drydb/src/builder/mod.rs].

    A loop of the builder takes the records of a sorter in order and pushes one
    entry for each.  [for_records_ok] is the rule for such a loop.  The three loops
    of the builder follow: the rows of a table, the entries of a unique index, and
    those of an index whose keys are numbered to be unique ([composites]). *)

From Stdlib Require Import ZArith Lia.
From stdpp Require Import base list sorting.
From coqutil Require Import Byte.
From S2P Require Import Prelude Errors Format PageRef Encoding TreePage Effects Sink SinkPages Merger Spool SpoolSort.
From S2P Require Import PageWriter TreeWriter Built BuiltTree IndexFacts Builder BuilderFacts Spending.

#[local] Open Scope Z_scope.
#[local] Open Scope drydb_scope.

(** Runs that end with an error at worst: no panic, and no loop without end. *)
Definition fails (e : Stop) : Prop := exists x, e = Failed x.

Lemma writer_fails c filter short caller_stops e : (forall e, caller_stops e -> fails e) -> writer_stops c filter short caller_stops e -> fails e.
Proof. intros H [He|(x & -> & _)]; [exact (H e He) | now exists x]. Qed.

Lemma failed_fails x : fails (Failed x).
Proof. now exists x. Qed.
#[export] Hint Resolve failed_fails : core.

(** ** Composite keys are written, too *)

Lemma dup_accepts (E : KeyEncoding) `{HL : !LawfulEncoding E} s r : key_ok s -> 0 <= r <= i32_max ->
  DuplicateKey_accepts_digest E (DuplicateKey_encode s r) (dig s) = Ok true.
Proof.
  intros Hs Hr. unfold DuplicateKey_accepts_digest, DuplicateKey_digest. rewrite DuplicateKey_split_encode by assumption. cbn [rbind].
  rewrite (digest_ok s Hs). cbn [rbind]. now rewrite Z.eqb_refl.
Qed.

#[export] Instance Duplicate_writable (E : KeyEncoding) `{HL : !LawfulEncoding E} : WritableEncoding (DuplicateKeyEncoding E).
Proof.
  split; [|discriminate]. intros key (s & r & -> & Hs & Hr).
  change (DuplicateKey_accepts_digest E (DuplicateKey_encode s r) (dig (dup_source (DuplicateKey_encode s r))) = Ok true).
  rewrite dup_source_encode. now apply dup_accepts.
Qed.

Lemma dup_valid E k r : validate_key E k = Ok tt -> validate_key (DuplicateKeyEncoding E) (DuplicateKey_encode k r) = Ok tt.
Proof.
  unfold validate_key, DuplicateKey_encode. cbn [ke_fixed_key_len DuplicateKeyEncoding]. destruct (ke_fixed_key_len E) as [n|]; [|reflexivity].
  cbn [fmap option_fmap option_map]. rewrite zlen_app, zlen_i32_le. unfold RID_LEN. intros H. destruct (Z.eqb_spec (zlen k) n) as [->|]; [|discriminate].
  now rewrite Z.eqb_refl.
Qed.

(** ** Sorted keys, one at a time *)

Section Keys.
Context (E : KeyEncoding) `{HL : !LawfulEncoding E}.

Lemma key_lt_snoc keys k : Forall key_ok (keys ++ [k]) -> StronglySorted (key_lt E) keys ->
  (forall p, last keys = Some p -> key_lt E p k) -> StronglySorted (key_lt E) (keys ++ [k]).
Proof.
  intros Hok Hs Hl. apply Forall_app in Hok as [Hok [Hk _]%Forall_cons].
  assert (Forall (fun p => key_lt E p k) keys) as Hall.
  { destruct (last keys) as [p|] eqn:Hp; [|apply last_None in Hp as ->; constructor]. specialize (Hl p eq_refl).
    apply last_Some in Hp as [ks ->]. apply Forall_app in Hok as [Hok [Hpk _]%Forall_cons]. apply StronglySorted_app in Hs as (Hlt & _ & _).
    apply Forall_app. split; [|now constructor]. apply Forall_forall. intros q Hq. rewrite Forall_forall in Hok.
    apply (cmp_trans _ _ ord_order q p k); auto. apply Hlt; [exact Hq | now left]. }
  apply StronglySorted_app. split_and!; [|exact Hs | repeat constructor].
  intros a b Ha Hb. apply list_elem_of_singleton in Hb as ->. rewrite Forall_forall in Hall. auto.
Qed.

Lemma rec_le_ord (a b : SpoolRecord) : rec_le E a b -> ord (rec_key a) (rec_key b) <> Gt.
Proof. unfold rec_le, rec_cmp. intros H Ho. now rewrite Ho in H. Qed.

(** The check that keys ascend. *)
Lemma check_after_ok {T} previous keys k (Q : unit -> T -> Prop) t :
  previous = last keys -> Forall key_ok (keys ++ [k]) -> StronglySorted (key_lt E) keys ->
  (StronglySorted (key_lt E) (keys ++ [k]) -> Q tt t) -> wp (check_after E previous k) Q fails t.
Proof.
  intros -> Hok Hs HQ. unfold check_after. destruct (last keys) as [p|] eqn:Hp.
  - pose proof Hok as [Hks [Hk _]%Forall_cons]%Forall_app.
    assert (key_ok p) as Hpk by (rewrite Forall_forall in Hks; apply Hks; apply last_Some in Hp as [ks ->]; apply elem_of_app; right; now left).
    apply wp_bind, wp_lift_result. rewrite (compare_ok p k) by assumption. apply wp_if; intros Hc; [apply wp_fail; auto|].
    apply wp_ret, HQ. apply key_lt_snoc; auto. intros p' Hp'. rewrite Hp in Hp'. injection Hp' as <-. unfold key_lt.
    now destruct (ord p k).
  - apply wp_ret, HQ. apply key_lt_snoc; auto. intros p Hp'. congruence.
Qed.
End Keys.

(** ** The loop *)

Section Loop.
Context {X C A : Type} (E : KeyEncoding) `{HL : !LawfulEncoding E} (B : Stop -> Prop).
Context (body : A -> SpoolRecord -> IO (Feeding X C) A) (all : list SpoolRecord).
Context (Inv : A -> list SpoolRecord -> TreeWriter X C -> Prop).

Definition in_turn (done : list SpoolRecord) (r : SpoolRecord) : Prop :=
  done ++ [r] ⊆+ all /\ Forall (fun d => rec_le E d r) done.

Context (Hbody : forall a done r f, Inv a done (fd_writer f) -> in_turn done r ->
  wp (body a r) (fun a' f' => fd_sorted f' = fd_sorted f /\ Inv a' (done ++ [r]) (fd_writer f')) B f).

Lemma for_records_ok fuel : forall a done rest f,
  stream_holds E (fd_sorted f) rest -> done ++ rest ≡ₚ all -> StronglySorted (rec_le E) done ->
  Forall (fun d => Forall (rec_le E d) rest) done -> (length rest < fuel)%nat -> Inv a done (fd_writer f) ->
  wp (for_records E body fuel a) (fun _ f' => exists a' done', done' ≡ₚ all /\ StronglySorted (rec_le E) done' /\ Inv a' done' (fd_writer f')) B f.
Proof.
  induction fuel as [|fuel IH]; intros a done rest f Hst Hall Hs Hle Hfuel Hinv; [lia|]. cbn [for_records].
  apply wp_bind, wp_zoom. eapply wp_mono; [exact (sorted_next_record_ok E B (fd_sorted f) rest Hst) | | auto].
  intros [r|] st Hr.
  - destruct Hr as (rest' & Hst' & Hp & Hmin). set (f1 := mkFeeding st (fd_writer f)).
    assert (Forall (fun d => Forall (rec_le E d) (r :: rest')) done) as Hle'.
    { eapply Forall_impl; [exact Hle|]. intros d Hd. now rewrite <- Hp. }
    assert ((done ++ [r]) ++ rest' ≡ₚ all) as Hall' by (rewrite <- app_assoc; etransitivity; [apply Permutation_app_head; symmetry; exact Hp | exact Hall]).
    apply wp_bind. eapply wp_mono; [apply (Hbody a done r f1 Hinv) | | auto].
    { split; [rewrite <- Hall'; apply submseteq_inserts_r; reflexivity|]. eapply Forall_impl; [exact Hle'|]. intros d Hd. now inversion Hd. }
    intros a' f' [Hf' Hinv']. apply (IH a' (done ++ [r]) rest').
    + now rewrite Hf'.
    + exact Hall'.
    + apply StronglySorted_app. split_and!; [|exact Hs | repeat constructor]. intros x y Hx Hy. apply list_elem_of_singleton in Hy as ->.
      rewrite Forall_forall in Hle'. specialize (Hle' x Hx). now inversion Hle'.
    + apply Forall_app. split; [eapply Forall_impl; [exact Hle'|]; intros d Hd; now inversion Hd | now repeat constructor].
    + rewrite Hp in Hfuel. cbn in Hfuel. lia.
    + exact Hinv'.
  - subst rest. rewrite app_nil_r in Hall. apply wp_ret. exists a, done. auto.
Qed.
End Loop.

(** ** The entries of a tree, one at a time *)

Lemma on_tree_ok {X C R} (m : IO (TreeWriter X C) R) Q B (f : Feeding X C) :
  wp m (fun r w' => Q r (mkFeeding (fd_sorted f) w')) B (fd_writer f) -> wp (on_tree m) Q B f.
Proof. intros H. apply wp_zoom. exact H. Qed.

Section Feed.
Context {PL : PageLimit} {X C : Type} (extra_bytes : X -> Z) (on_value_ref : X -> PageRef -> IO C unit).
Context (T : KeyEncoding) `{HL : !LawfulEncoding T} `{HW : !WritableEncoding T} (Hdigest : forall key d, ke_digest T key = Ok d -> 0 <= d <= u64_max).
Context (page_size : Z) (Hps : MIN_PAGE_SIZE <= page_size <= max_page) (ey omit : bool) (budget : Z).
Abbreviation c := (config_for T page_size ey omit budget).

Lemma size_in_range : MIN_PAGE_SIZE <= page_size <= i32_max.
Proof. pose proof max_page_range. lia. Qed.
Abbreviation Hps' := size_in_range.

Context (filter : option (list byte -> Result (list byte))) (handed : list (X * PageRef) -> C -> Prop) (extra_ok : X -> Prop) (limit : nat).
Context (Hcaller : forall x r done s, handed done s -> wp (on_value_ref x r) (fun _ s' => handed (done ++ [(x, r)]) s') anyhow s).
Context (Hsafe : forall x r done s, Forall (fun p => extra_ok (fst p)) (done ++ [(x, r)]) -> (length done < limit)%nat -> handed done s ->
  wp (on_value_ref x r) (fun _ s' => handed (done ++ [(x, r)]) s') fails s).
Context (head : list byte) (old : list (list byte)).
Abbreviation growing := (growing c filter handed extra_ok limit head old).

Lemma feed_push room (f : Feeding X C) es key value extra :
  extra_ok extra -> growing (S room) (fd_writer f) es -> key_ok key -> validate_key T key = Ok tt -> zlen value <= max_page - PAGE_PREFIX_LEN ->
  wp (on_tree (push extra_bytes on_value_ref c key value extra))
    (fun _ f' => fd_sorted f' = fd_sorted f /\ growing room (fd_writer f') (es ++ [(key, value, extra)])) fails f.
Proof.
  intros Hx Hg Hk Hv Hl. apply on_tree_ok.
  eapply wp_mono; [exact (growing_push extra_bytes on_value_ref c (config_for_ok T Hdigest page_size ey omit budget Hps') filter handed extra_ok limit fails Hcaller Hsafe
    head old room (fd_writer f) es key value extra Hx Hg Hk Hv Hl) | auto | intros e; now apply writer_fails].
Qed.

(** What a tree is when it is finished. *)
Definition finished_tree (es : list (list byte * list byte * X)) (root : PageOrdinal) (sink : PageSink) (s : C) : Prop :=
  page_ordinal_ok root /\ exists pages offs done, laid filter head (old ++ pages) offs sink /\ tree_in (old ++ pages) T root es /\
    Forall page_checks pages /\ handed done s /\ Forall2 (fun e p => fst p = row_extra e /\ reads_as (Btree.image_file (old ++ pages)) (snd p) (row_value e)) es done.

Lemma feed_finish room (f : Feeding X C) es :
  growing room (fd_writer f) es -> StronglySorted (key_lt T) (row_key <$> es) ->
  wp (on_tree (finish on_value_ref c)) (fun root f' => finished_tree es root (tw_sink (fd_writer f')) (tw_caller (fd_writer f'))) fails f.
Proof.
  intros Hg Hs. apply on_tree_ok.
  eapply wp_mono; [exact (growing_finish on_value_ref c (config_for_ok T Hdigest page_size ey omit budget Hps') (config_for_exact T page_size ey omit budget)
    filter handed extra_ok limit fails Hcaller Hsafe head old room (fd_writer f) es Hg Hs) | | intros e; now apply writer_fails].
  intros root w' (Hr & pages & offs & done & H1 & H2 & H3 & H4 & H5). split; [exact Hr|]. exists pages, offs, done. split_and!; auto. apply H5. apply Hps.
Qed.
End Feed.

(** A record as an entry. *)
Definition entry {X} (x : SpoolRecord -> X) (r : SpoolRecord) : list byte * list byte * X := (rec_key r, rec_value r, x r).

Lemma entry_keys {X} (x : SpoolRecord -> X) (rs : list SpoolRecord) : row_key <$> (entry x <$> rs) = rec_key <$> rs.
Proof. rewrite <- list_fmap_compose. reflexivity. Qed.

(** A record that the builder can push. *)
Definition record_fits {PL : PageLimit} (E : KeyEncoding) (r : SpoolRecord) : Prop :=
  validate_key E (rec_key r) = Ok tt /\ zlen (rec_value r) <= max_page - PAGE_PREFIX_LEN.

Lemma in_turn_fits (E : KeyEncoding) `{HL : !LawfulEncoding E} all done r (P : SpoolRecord -> Prop) :
  in_turn E all done r -> Forall P all -> Forall P (done ++ [r]) /\ (length done < length all)%nat.
Proof.
  intros [Hsub _] Hall. split.
  - rewrite Forall_forall in Hall |- *. intros x Hx. apply Hall. exact (elem_of_submseteq _ _ _ Hx Hsub).
  - apply submseteq_length in Hsub. rewrite length_app in Hsub. cbn in Hsub. lia.
Qed.

Lemma fits_ok {PL : PageLimit} (E : KeyEncoding) `{HL : !LawfulEncoding E} `{HC : !CheckableEncoding E} (rs : list SpoolRecord) : Forall (record_fits E) rs -> Forall key_ok (rec_key <$> rs).
Proof. intros H. apply Forall_fmap. eapply Forall_impl; [exact H|]. intros r [Hv _]. now apply validated_ok. Qed.

Lemma entry_snoc {X} (x : SpoolRecord -> X) (rs : list SpoolRecord) r : entry x <$> (rs ++ [r]) = (entry x <$> rs) ++ [(rec_key r, rec_value r, x r)].
Proof. now rewrite fmap_app. Qed.

(** ** Numbered keys *)

Section Composites.
Context (E : KeyEncoding) `{HL : !LawfulEncoding E}.

(** The record id of a row: how many came before it under the same key. *)
Definition rid_of (done : list SpoolRecord) (r : SpoolRecord) : Z :=
  zlen (List.filter (fun d => bool_decide (rec_key d = rec_key r)) done).

Definition composite_entry (done : list SpoolRecord) (r : SpoolRecord) : list byte * list byte * unit :=
  (DuplicateKey_encode (rec_key r) (rid_of done r), rec_value r, tt).

(** The entries of an index whose keys are not unique, from its rows in order. *)
Definition composites (rs : list SpoolRecord) : list (list byte * list byte * unit) :=
  imap (fun i r => composite_entry (take i rs) r) rs.

Lemma composites_snoc rs r : composites (rs ++ [r]) = composites rs ++ [composite_entry rs r].
Proof.
  unfold composites. rewrite imap_app. cbn. rewrite Nat.add_0_r, take_app_length. f_equal. apply imap_ext. intros i x Hi.
  rewrite take_app_le; [reflexivity|]. apply lookup_lt_Some in Hi. lia.
Qed.

Lemma rid_of_snoc done d r : rid_of (done ++ [d]) r = rid_of done r + if bool_decide (rec_key d = rec_key r) then 1 else 0.
Proof. unfold rid_of. rewrite List.filter_app, zlen_app. cbn. now destruct (bool_decide _). Qed.

Lemma rid_of_none done r : Forall (fun d => rec_key d <> rec_key r) done -> rid_of done r = 0.
Proof.
  induction 1 as [|d done Hd _ IH]; [reflexivity|]. unfold rid_of in *. cbn. rewrite bool_decide_false by exact Hd. exact IH.
Qed.

(** The next record id is the one the row should have, and keeps the keys in
    order. *)
Lemma next_rid_ok done r rid rid' :
  Forall key_ok (rec_key <$> (done ++ [r])) -> StronglySorted (rec_le E) (done ++ [r]) ->
  (forall x, last done = Some x -> rid = rid_of done x - 1) -> 0 <= rid <= i32_max ->
  next_rid E (last (rec_key <$> done)) (rec_key r) rid = Ok rid' ->
  rid' = rid_of done r /\ 0 <= rid' <= i32_max /\
  (forall p, last (row_key <$> composites done) = Some p -> key_lt (DuplicateKeyEncoding E) p (DuplicateKey_encode (rec_key r) rid')).
Proof.
  intros Hok Hs Hlast Hrid H. unfold next_rid in H. destruct done as [|x ds] using rev_ind.
  { cbn in H. injection H as <-. split; [reflexivity|]. split; [fmt_lia | discriminate]. }
  clear IHds. rewrite fmap_app in H. cbn in H. rewrite last_snoc in H.
  specialize (Hlast x (last_snoc _ _)). rewrite rid_of_snoc, bool_decide_true in Hlast by reflexivity.
  rewrite !fmap_app in Hok. apply Forall_app in Hok as [[Hds [Hx _]%Forall_cons]%Forall_app [Hr _]%Forall_cons].
  rewrite (compare_ok _ _ Hx Hr) in H. cbn [rbind] in H.
  assert (forall c, key_lt (DuplicateKeyEncoding E) (DuplicateKey_encode (rec_key x) rid) (DuplicateKey_encode (rec_key r) rid') <-> c ->
    c -> forall p, last (row_key <$> composites (ds ++ [x])) = Some p -> key_lt (DuplicateKeyEncoding E) p (DuplicateKey_encode (rec_key r) rid')) as Hgoal.
  { intros c Hc HC p Hp. rewrite composites_snoc, fmap_app in Hp. cbn in Hp. rewrite last_snoc in Hp. injection Hp as <-.
    replace (rid_of ds x) with rid by lia. now apply Hc. }
  rewrite rid_of_snoc. destruct (ord (rec_key x) (rec_key r)) eqn:Ho; cbn [cmp_eqb] in H.
  - apply (cmp_eq _ _ ord_order) in Ho; auto. destruct (Z.leb_spec i32_max rid) as [|Hlt]; [discriminate|]. cbn in H. injection H as <-.
    assert (forall d, bool_decide (rec_key d = rec_key r) = bool_decide (rec_key d = rec_key x)) as Hext by (intros d; now rewrite Ho).
    assert (rid_of ds r = rid_of ds x) as -> by (unfold rid_of; f_equal; apply List.filter_ext; exact Hext).
    rewrite bool_decide_true by exact Ho. split; [lia|]. split; [lia|]. apply (Hgoal True); [|exact I].
    unfold key_lt. rewrite dup_ord by lia. rewrite Ho, (ord_refl E) by exact Hr. cbn. split; [auto | intros _; apply Z.compare_lt_iff; lia].
  - injection H as <-. rewrite bool_decide_false by (intros Hk; rewrite Hk, (ord_refl E) in Ho by exact Hr; discriminate).
    rewrite rid_of_none; [split; [reflexivity|]; split; [fmt_lia|]|].
    + apply (Hgoal True); [|exact I]. unfold key_lt. rewrite dup_ord by fmt_lia. now rewrite Ho.
    + apply Forall_forall. intros d Hd Hk. rewrite <- app_assoc in Hs. apply StronglySorted_app in Hs as (Hle & _).
      pose proof (rec_le_ord E d x (Hle d x Hd ltac:(now left))) as Hdx. apply Hdx. rewrite Hk.
      rewrite (cmp_opp _ _ ord_order (rec_key x) (rec_key r)) by auto. now rewrite Ho.
  - exfalso. apply StronglySorted_app in Hs as (Hle & _). apply (rec_le_ord E x r); [|exact Ho]. apply Hle; [|now left].
    apply elem_of_app. right. now left.
Qed.
End Composites.

(** ** The tree of an index *)

Section IndexTrees.
Context {PL : PageLimit} (E : KeyEncoding) {HB : Buildable E} (page_size : Z) (Hps : MIN_PAGE_SIZE <= page_size <= max_page) (ey : bool) (budget : Z).
Context (filter : option (list byte -> Result (list byte))) (head : list byte) (old : list (list byte)).
Abbreviation no_caller := (fun (_ : list (unit * PageRef)) (_ : unit) => True).
Abbreviation any := (fun _ : unit => True).
Context (all : list SpoolRecord) (Hall : Forall (record_fits E) all).

Lemma discard_ok B x r done s : no_caller done s -> wp (discard x r) (fun _ s' => no_caller (done ++ [(x, r)]) s') B s.
Proof. intros _. now apply wp_ret. Qed.

Section Unique.
Abbreviation c := (config_for E page_size ey true budget).
Abbreviation growing := (growing c filter no_caller any (length all) head old).

Definition unique_inv (previous : option (list byte)) (done : list SpoolRecord) (w : TreeWriter unit unit) : Prop :=
  previous = last (rec_key <$> done) /\ StronglySorted (key_lt E) (rec_key <$> done) /\
  growing (length all - length done) w (entry (fun _ => tt) <$> done).

Lemma write_unique_ok fuel (f : Feeding unit unit) rest :
  stream_holds E (fd_sorted f) rest -> rest ≡ₚ all -> (length all < fuel)%nat -> growing (length all) (fd_writer f) [] ->
  wp (write_unique c E fuel) (fun _ f' => exists previous done, done ≡ₚ all /\ StronglySorted (rec_le E) done /\ unique_inv previous done (fd_writer f')) fails f.
Proof.
  intros Hst Hp Hfuel Hg. unfold write_unique. apply (for_records_ok E fails _ all unique_inv) with (rest := rest) (done := []).
  - intros previous done r f' (Hprev & Hs & Hg') Ht. destruct (in_turn_fits E all done r _ Ht Hall) as [Hfit Hlen].
    pose proof (fits_ok E _ Hfit) as Hok. rewrite fmap_app in Hok. apply Forall_app in Hfit as [_ [[Hv Hl] _]%Forall_cons].
    apply wp_bind, (check_after_ok E previous (rec_key <$> done)); auto. intros Hs'. apply wp_bind.
    replace (length all - length done)%nat with (S (length all - length (done ++ [r]))) in Hg' by (rewrite length_app; cbn; lia).
    eapply wp_mono; [exact (feed_push unit_bytes discard E bl_digest page_size Hps ey true budget filter no_caller any (length all) (discard_ok anyhow)
      (fun x r done s _ _ => discard_ok fails x r done s) head old _ f' _ (rec_key r) (rec_value r) tt I Hg' (validated_ok _ Hv) Hv Hl) | | auto].
    intros [] f'' [Hf'' Hg'']. apply wp_ret. split; [exact Hf''|]. unfold unique_inv. rewrite entry_snoc, fmap_app. split; [|split; [exact Hs' | exact Hg'']].
    cbn. now rewrite last_snoc.
  - exact Hst.
  - exact Hp.
  - constructor.
  - constructor.
  - rewrite Hp. exact Hfuel.
  - split; [reflexivity|]. split; [constructor|]. cbn [length]. now rewrite Nat.sub_0_r.
Qed.
End Unique.

Section Composite.
Abbreviation D := (DuplicateKeyEncoding E).
Abbreviation c := (config_for D page_size ey false budget).
Abbreviation growing := (growing c filter no_caller any (length all) head old).

Lemma dup_digest key d : ke_digest D key = Ok d -> 0 <= d <= u64_max.
Proof.
  cbn. unfold DuplicateKey_digest. destruct (DuplicateKey_split key) as [[s r]|]; [|discriminate]. cbn [rbind]. apply bl_digest.
Qed.

Definition composite_inv (state : option (list byte) * Z) (done : list SpoolRecord) (w : TreeWriter unit unit) : Prop :=
  fst state = last (rec_key <$> done) /\ 0 <= snd state <= i32_max /\
  (forall x, last done = Some x -> snd state = rid_of done x - 1) /\ StronglySorted (rec_le E) done /\
  Forall (@key_ok D _) (row_key <$> composites done) /\
  StronglySorted (key_lt D) (row_key <$> composites done) /\
  growing (length all - length done) w (composites done).

Lemma write_composite_ok fuel (f : Feeding unit unit) rest :
  stream_holds E (fd_sorted f) rest -> rest ≡ₚ all -> (length all < fuel)%nat -> growing (length all) (fd_writer f) [] ->
  wp (write_composite c E fuel) (fun _ f' => exists state done, done ≡ₚ all /\ StronglySorted (rec_le E) done /\ composite_inv state done (fd_writer f')) fails f.
Proof.
  intros Hst Hp Hfuel Hg. unfold write_composite. apply (for_records_ok E fails _ all composite_inv) with (rest := rest) (done := []).
  - intros [previous rid] done r f' (Hprev & Hrid & Hlast & Hsort & Hoks & Hs & Hg') Ht. cbn [fst snd] in *.
    destruct (in_turn_fits E all done r _ Ht Hall) as [Hfit Hlen]. pose proof (fits_ok E _ Hfit) as Hok.
    pose proof Hfit as [_ [[Hv Hl] _]%Forall_cons]%Forall_app.
    assert (StronglySorted (rec_le E) (done ++ [r])) as Hsort'.
    { apply StronglySorted_app_2; [|exact Hsort | repeat constructor]. intros d y Hd Hy. apply list_elem_of_singleton in Hy as ->.
      destruct Ht as [_ Hle]. rewrite Forall_forall in Hle. auto. }
    apply wp_bind, wp_lift_result. destruct (next_rid E previous (rec_key r) rid) as [rid'|e] eqn:Hnext; [|auto].
    rewrite Hprev in Hnext. destruct (next_rid_ok E done r rid rid' Hok Hsort' Hlast Hrid Hnext) as (-> & Hrid' & Hlt).
    assert (@key_ok D _ (DuplicateKey_encode (rec_key r) (rid_of done r))) as Hkey.
    { apply dup_key_ok; [now apply validated_ok | exact Hrid']. }
    apply wp_bind. replace (length all - length done)%nat with (S (length all - length (done ++ [r]))) in Hg' by (rewrite length_app; cbn; lia).
    eapply wp_mono; [exact (feed_push unit_bytes discard D dup_digest page_size Hps ey false budget filter no_caller any (length all) (discard_ok anyhow)
      (fun x r done s _ _ => discard_ok fails x r done s) head old _ f' _ _ (rec_value r) tt I Hg' Hkey (dup_valid E _ _ Hv) Hl) | | auto].
    intros [] f'' [Hf'' Hg'']. apply wp_ret. split; [exact Hf''|].
    assert (Forall (@key_ok D _) (row_key <$> composites (done ++ [r]))) as Hoks' by (rewrite composites_snoc, fmap_app; apply Forall_app; now repeat constructor).
    unfold composite_inv. cbn [fst snd]. split; [rewrite fmap_app; cbn; now rewrite last_snoc|]. split; [exact Hrid'|]. split.
    { intros x Hx. rewrite last_snoc in Hx. injection Hx as <-. rewrite rid_of_snoc, bool_decide_true by reflexivity. lia. }
    split; [exact Hsort'|]. split; [exact Hoks'|]. rewrite composites_snoc in *. split; [|exact Hg''].
    rewrite fmap_app in *. apply key_lt_snoc; [exact Hoks' | exact Hs | exact Hlt].
  - exact Hst.
  - exact Hp.
  - constructor.
  - constructor.
  - rewrite Hp. exact Hfuel.
  - split; [reflexivity|]. cbn [snd length]. rewrite Nat.sub_0_r. split; [fmt_lia|]. split; [discriminate|].
    split; [constructor|]. split; [constructor|]. split; [constructor | exact Hg].
Qed.
End Composite.
End IndexTrees.

(** The tree at [root] is the index of these rows: sorted by key and then by the
    order they came in, one entry for each. *)
Definition index_tree (pages : list (list byte)) (E : KeyEncoding) (unique : bool) (root : PageOrdinal) (rows : list (list byte * list byte)) : Prop :=
  exists HB : Buildable E, exists done, done ≡ₚ numbered rows /\ StronglySorted (rec_le E) done /\
    if unique then StronglySorted (key_lt E) (rec_key <$> done) /\ tree_in pages E root (entry (fun _ => tt) <$> done)
    else tree_in pages (DuplicateKeyEncoding E) root (composites done).

Lemma index_tree_more pages more E unique root rows : index_tree pages E unique root rows -> index_tree (pages ++ more) E unique root rows.
Proof.
  intros (HB & done & Hp & Hs & H). exists HB, done. split; [exact Hp|]. split; [exact Hs|].
  destruct unique; [destruct H as [H1 H2]; split; [exact H1|] | ]; now apply tree_in_more.
Qed.

Lemma numbered_fits {PL : PageLimit} E rows : Forall (fun r => validate_key E (fst r) = Ok tt) rows ->
  Forall (fun r => zlen (snd r) <= max_page - PAGE_PREFIX_LEN) rows -> Forall (record_fits E) (numbered rows).
Proof.
  intros Hv Hl. apply Forall_lookup. intros i r Hi. unfold numbered in Hi. apply list_lookup_imap_Some in Hi as (row & Hrow & ->).
  split; cbn; [exact (proj1 (Forall_lookup _ _) Hv i row Hrow) | exact (proj1 (Forall_lookup _ _) Hl i row Hrow)].
Qed.

Section BuildIndex.
Context {PL : PageLimit} {VA : VecAlloc} (page_size : Z) (Hps : page_size <= max_page) (ey : bool).

Lemma build_index_tree_ok index sp rows filter head old offs sink :
  is_encoding sp = ss_encoding index -> spool_given (ss_encoding index) (is_spool sp) rows ->
  Forall (fun r => zlen (snd r) <= max_page - PAGE_PREFIX_LEN) rows -> laid filter head old offs sink ->
  wp (build_index_tree page_size ey index sp) (fun root sink' => page_ordinal_ok root /\ exists pages offs',
    laid filter head (old ++ pages) offs' sink' /\ Forall page_checks pages /\ index_tree (old ++ pages) (ss_encoding index) (ss_unique index) root rows) fails sink.
Proof.
  intros Henc Hgiven Hl Hlaid. pose proof (given_count _ _ _ Hgiven) as Hcount. destruct Hgiven as (HB & Hhas & _ & Hv).
  unfold build_index_tree. rewrite Henc. set (E := ss_encoding index) in *. set (all := numbered rows).
  assert (Forall (record_fits E) all) as Hall by now apply numbered_fits.
  assert (length all < S (Z.to_nat (spool_len (is_spool sp))))%nat as Hfuel.
  { rewrite Hcount. unfold all, numbered, zlen. rewrite length_imap. lia. }
  apply wp_bind, wp_zoom. eapply wp_mono; [exact (into_sorted_ok E fails _ _ Hhas) | | auto].
  intros st _ (rest & Hst & Hp). cbv zeta. apply wp_bind, wp_here, wp_bind, wp_lift_result.
  set (tree := if ss_unique index then E else DuplicateKeyEncoding E).
  destruct (TreeWriter_new sink page_size ey tree (ss_unique index) tt) as [[c w]|e] eqn:Hnew; [|auto].
  unfold TreeWriter_new in Hnew. inv_ok. change (mkTreeConfig page_size _ tree usize_max) with (config_for tree page_size ey (ss_unique index) usize_max).
  assert (MIN_PAGE_SIZE <= page_size <= max_page) as Hps' by lia. pose proof (size_in_range page_size Hps') as Hps2. apply wp_zoom, wp_bind. unfold tree. destruct (ss_unique index).
  - eapply wp_mono; [apply (write_unique_ok E page_size Hps' ey usize_max filter head old all Hall _ (mkFeeding st _) rest Hst Hp Hfuel) | | auto].
    { exact (growing_new _ (config_for_ok E bl_digest page_size ey true usize_max Hps2) filter _ _ (length all) head old sink offs tt Hlaid I). }
    intros [] f (previous & done & Hd & Hs & _ & Hks & Hg).
    eapply wp_mono; [exact (feed_finish discard E bl_digest page_size Hps' ey true usize_max filter _ _ (length all) (discard_ok anyhow)
      (fun x r done s _ _ => discard_ok fails x r done s) head old _ f _ Hg ltac:(rewrite entry_keys; exact Hks)) | | auto].
    intros root f' (Hr & pages & offs' & ? & Hlaid' & Ht & Hck & _). split; [exact Hr|]. exists pages, offs'. split; [exact Hlaid'|]. split; [exact Hck|].
    exists HB, done. auto.
  - eapply wp_mono; [apply (write_composite_ok E page_size Hps' ey usize_max filter head old all Hall _ (mkFeeding st _) rest Hst Hp Hfuel) | | auto].
    { exact (growing_new _ (config_for_ok _ (dup_digest E) page_size ey false usize_max Hps2) filter _ _ (length all) head old sink offs tt Hlaid I). }
    intros [] f (state & done & Hd & Hs & _ & _ & _ & _ & _ & Hks & Hg).
    eapply wp_mono; [exact (feed_finish discard (DuplicateKeyEncoding E) (dup_digest E) page_size Hps' ey false usize_max filter _ _ (length all) (discard_ok anyhow)
      (fun x r done s _ _ => discard_ok fails x r done s) head old _ f _ Hg Hks) | | auto].
    intros root f' (Hr & pages & offs' & ? & Hlaid' & Ht & Hck & _). split; [exact Hr|]. exists pages, offs'. split; [exact Hlaid'|]. split; [exact Hck|].
    exists HB, done. auto.
Qed.
End BuildIndex.

(** ** The rows of a table *)

Section Rows.
Context {VA : VecAlloc} {VL : VecLaws VA} (secondaries : list SecondarySpec).
Abbreviation n := (length secondaries).

(** The rows the [i]-th index gets for what was handed on. *)
Definition index_entries (i : nat) (done : list (list IndexKey * PageRef)) : list (list byte * list byte) :=
  omap (fun p => (fun k => (fst k, PageRef_encode (snd p))) <$> (fst p !! i)) done.

Definition keys_fit (keys : list IndexKey) : Prop := length keys = n /\ Forall (fun k => zlen (fst k) < 2 ^ 32) keys.

(** What the sorters of the indexes hold. *)
Definition index_spools_have (done : list (list IndexKey * PageRef)) (spools : list IndexSpool) : Prop :=
  is_encoding <$> spools = ss_encoding <$> secondaries /\
  Forall2 given_rows spools ((fun i => index_entries i done) <$> seq 0 n).

Lemma given_at_length {A} {HS : HasSpool A} (l : list A) rowss : Forall2 given_rows l rowss -> length l = length rowss.
Proof. apply Forall2_length. Qed.

Lemma push_index_keys_ok keys encoded : forall l1 l2 rows1 rows2,
  Forall2 given_rows l1 rows1 -> Forall2 given_rows l2 rows2 -> length keys = length l2 ->
  Forall (fun k => zlen (fst k) < 2 ^ 32) keys -> zlen encoded < 2 ^ 32 -> Forall (fun rows => zlen rows <= u64_max) rows2 ->
  wp (push_index_keys (length l1) keys encoded)
    (fun _ l' => Forall2 given_rows l' (rows1 ++ zip_with (fun rows k => rows ++ [(fst k, encoded)]) rows2 keys) /\
       is_encoding <$> l' = is_encoding <$> (l1 ++ l2)) fails (l1 ++ l2).
Proof.
  induction keys as [|key keys IH]; intros l1 l2 rows1 rows2 H1 H2 Hlen Hks Henc Hcount; cbn [push_index_keys].
  - destruct l2; [|discriminate]. apply Forall2_nil_inv_l in H2 as ->. apply wp_ret. cbn. rewrite !app_nil_r. auto.
  - destruct l2 as [|x l2]; [discriminate|]. inversion H2 as [|? rows ? rows2' Hx H2']; subst.
    apply Forall_cons in Hks as [Hk Hks]. apply Forall_cons in Hcount as [Hc Hcount].
    apply wp_bind. eapply wp_mono; [apply (on_spool_ok fails (length l1) (fun E => spool_push E (fst key) encoded) x
      (fun _ s => spool_given (is_encoding x) s (rows ++ [(fst key, encoded)])) (l1 ++ x :: l2)) | | auto].
    + apply list_lookup_middle. reflexivity.
    + eapply wp_mono; [exact (push_given (is_encoding x) fails (is_spool x) rows (fst key) encoded Hx Hc Hk Henc ltac:(auto)) | | auto].
      intros [] s [Hs _]. exact Hs.
    + intros [] l' (s & Hs & ->). set (y := mkIndexSpool (is_encoding x) s).
      assert (<[length l1 := hs_set_spool s x]> (l1 ++ x :: l2) = (l1 ++ [y]) ++ l2) as ->.
      { rewrite <- app_assoc. replace (length l1) with (length l1 + 0)%nat by lia. rewrite insert_app_r. reflexivity. }
      replace (S (length l1)) with (length (l1 ++ [y])) by (rewrite length_app; cbn; lia).
      eapply wp_mono; [apply (IH (l1 ++ [y]) l2 (rows1 ++ [rows ++ [(fst key, encoded)]]) rows2') | | auto]; auto.
      * apply Forall2_app; [exact H1|]. constructor; [exact Hs | constructor].
      * intros [] l' [Hl' He]. rewrite <- app_assoc in Hl'. split; [exact Hl'|]. rewrite He, !fmap_app. cbn. now rewrite <- app_assoc.
Qed.

Lemma index_entries_snoc done x r : length x = n ->
  (fun i => index_entries i (done ++ [(x, r)])) <$> seq 0 n =
  zip_with (fun rows k => rows ++ [(fst k, PageRef_encode r)]) ((fun i => index_entries i done) <$> seq 0 n) x.
Proof.
  intros Hx. apply list_eq. intros i. rewrite lookup_zip_with, !list_lookup_fmap. destruct (decide (i < n)%nat) as [Hi|Hi].
  - rewrite lookup_seq_lt by exact Hi. cbn. destruct (lookup_lt_is_Some_2 x i ltac:(lia)) as [k Hk].
    unfold index_entries. rewrite omap_app. unfold IndexKey in *. cbn. rewrite !Hk. reflexivity.
  - now rewrite lookup_seq_ge by lia.
Qed.

Lemma index_entries_few i done : (length (index_entries i done) <= length done)%nat.
Proof. unfold index_entries. induction done as [|p done IH]; cbn; [lia|]. destruct (fst p !! i); cbn; lia. Qed.

Lemma respooled_encodings (l l' : list IndexSpool) : Forall2 respooled l l' -> is_encoding <$> l' = is_encoding <$> l.
Proof. induction 1 as [|x y l l' Hxy _ IH]; [reflexivity|]. rewrite !fmap_cons, IH. f_equal. now rewrite Hxy. Qed.

Lemma on_value_ref_ok budget done x r spools :
  index_spools_have done spools -> keys_fit x -> Z.of_nat (length done) <= u64_max ->
  wp (on_value_ref budget x r) (fun _ s' => index_spools_have (done ++ [(x, r)]) s') fails spools.
Proof.
  intros [Henc Hg] [Hx Hk] Hc. pose proof (given_at_length _ _ Hg) as Hlen. rewrite length_fmap, length_seq in Hlen.
  unfold on_value_ref. apply wp_bind.
  eapply wp_mono; [apply (push_index_keys_ok x (PageRef_encode r) [] spools [] _ ltac:(constructor) Hg) | | auto].
  - unfold IndexKey in *. lia.
  - exact Hk.
  - rewrite zlen_PageRef_encode. reflexivity.
  - apply Forall_fmap, Forall_forall. intros i _. cbn. pose proof (index_entries_few i done). unfold zlen. lia.
  - intros [] l' [Hl' He]. cbn [app] in Hl', He. rewrite <- index_entries_snoc in Hl' by exact Hx.
    eapply wp_mono; [exact (keep_inside_ok fails budget l' _ Hl') | | auto]. intros [] l'' (H1 & H2 & _).
    split; [|exact H1]. rewrite (respooled_encodings _ _ H2), He. exact Henc.
Qed.

(** As the tree writer sees it: what the sorters hold while everything that was
    handed on was fit and not too much. *)
Definition spooled (limit : nat) (done : list (list IndexKey * PageRef)) (spools : list IndexSpool) : Prop :=
  Forall (fun p => keys_fit (fst p)) done -> (length done <= limit)%nat -> index_spools_have done spools.

Context (limit : nat) (Hlimit : Z.of_nat limit <= u64_max).

#[local] Instance keys_fit_dec x : Decision (keys_fit x).
Proof.
  unfold keys_fit. destruct (decide (length x = n)); [|right; now intros [? ?]].
  destruct (decide (Forall (fun k : IndexKey => zlen (fst k) < 2 ^ 32) x)); [now left | right; now intros [? ?]].
Qed.

Lemma spooled_safe budget x r done s :
  Forall (fun p => keys_fit (fst p)) (done ++ [(x, r)]) -> (length done < limit)%nat -> spooled limit done s ->
  wp (on_value_ref budget x r) (fun _ s' => spooled limit (done ++ [(x, r)]) s') fails s.
Proof.
  intros Hfit Hlen Hs. apply Forall_app in Hfit as [Hd [Hx _]%Forall_cons].
  eapply wp_mono; [exact (on_value_ref_ok budget done x r s (Hs Hd ltac:(lia)) Hx ltac:(lia)) | | auto]. intros [] s' Hs' _ _. exact Hs'.
Qed.

Lemma spooled_anyhow budget x r done s : spooled limit done s ->
  wp (on_value_ref budget x r) (fun _ s' => spooled limit (done ++ [(x, r)]) s') anyhow s.
Proof.
  intros Hs. destruct (decide (Forall (fun p => keys_fit (fst p)) (done ++ [(x, r)]) /\ (length done < limit)%nat)) as [[H1 H2]|Hno].
  - eapply wp_mono; [exact (spooled_safe budget x r done s H1 H2 Hs) | auto | auto].
  - eapply wp_mono; [exact (spends_on_value_ref budget x r s) | | auto]. intros [] s' _ H1 H2. exfalso. apply Hno. split; [exact H1|].
    rewrite length_app in H2. cbn in H2. lia.
Qed.
End Rows.
