(* ===== verification/BuiltTables.v ===== *)
(** The trees of a table, [crates/drydb/src/builder/mod.rs].

    [build_table] writes the rows of a table into a primary tree, collects for
    every index the key of each row with the reference the writer hands on for its
    value, and writes the index trees from them.  Here: whatever the rows, the
    trees hold exactly them. *)

From Stdlib Require Import ZArith Lia.
From stdpp Require Import base list sorting.
From coqutil Require Import Byte.
From S2P Require Import Prelude Errors Format PageRef Encoding Catalog TreePage Effects Sink SinkPages Merger Spool SpoolSort.
From S2P Require Import PageWriter TreeWriter Built BuiltTree Builder BuilderFacts Spending Feeding.

#[local] Open Scope Z_scope.
#[local] Open Scope drydb_scope.

(** An index that can be built: of an encoding that can, with keys whose length is a
    [u32]. *)
Definition secondary_ok (s : SecondarySpec) : Prop :=
  inhabited (Buildable (ss_encoding s)) /\
  forall key value k, ss_key_fn s key value = Ok k -> zlen (fst k) < 2 ^ 32.

(** ** The rows *)

(** The keys of a row in the indexes. *)
Definition keys_of (secondaries : list SecondarySpec) (r : SpoolRecord) : list IndexKey :=
  match index_keys secondaries (rec_key r) (rec_value r) with Ok ks => ks | Err _ => [] end.

Definition has_keys (secondaries : list SecondarySpec) (r : SpoolRecord) : Prop :=
  index_keys secondaries (rec_key r) (rec_value r) = Ok (keys_of secondaries r).

Lemma index_keys_fit secondaries key value : Forall secondary_ok secondaries ->
  forall ks, index_keys secondaries key value = Ok ks -> keys_fit secondaries ks.
Proof.
  induction 1 as [|s ss [_ Hs] _ IH]; intros ks H; cbn [index_keys] in H.
  - injection H as <-. split; [reflexivity | constructor].
  - destruct (ss_key_fn s key value) as [k|] eqn:Hk; [|discriminate]. cbn [rbind] in H.
    destruct (index_keys ss key value) as [ks'|] eqn:Hks; [|discriminate]. injection H as <-.
    destruct (IH _ eq_refl) as [Hlen Hall]. split; [cbn; now f_equal | constructor; [exact (Hs _ _ _ Hk) | exact Hall]].
Qed.

Section Rows.
Context {PL : PageLimit} {VA : VecAlloc} {VL : VecLaws VA} (E : KeyEncoding) {HB : Buildable E}.
Context (secondaries : list SecondarySpec) (Hsec : Forall secondary_ok secondaries).
Context (page_size : Z) (Hps : MIN_PAGE_SIZE <= page_size <= max_page) (ey : bool) (budget spool_budget : Z).
Context (filter : option (list byte -> Result (list byte))) (head : list byte) (old : list (list byte)).
Context (all : list SpoolRecord) (Hall : Forall (record_fits E) all) (Hcount : Z.of_nat (length all) <= u64_max).
Abbreviation c := (config_for E page_size ey true budget).
Abbreviation growing := (growing c filter (spooled secondaries (length all)) (keys_fit secondaries) (length all) head old).
Abbreviation caller := (spooled_anyhow secondaries (length all) Hcount spool_budget).
Abbreviation safe := (spooled_safe secondaries (length all) Hcount spool_budget).

Definition rows_inv (previous : option (list byte)) (done : list SpoolRecord) (w : TreeWriter (list IndexKey) (list IndexSpool)) : Prop :=
  previous = last (rec_key <$> done) /\ StronglySorted (key_lt E) (rec_key <$> done) /\ Forall (has_keys secondaries) done /\
  growing (length all - length done) w (entry (keys_of secondaries) <$> done).

Lemma write_rows_ok fuel (f : Feeding (list IndexKey) (list IndexSpool)) rest :
  stream_holds E (fd_sorted f) rest -> rest ≡ₚ all -> (length all < fuel)%nat -> growing (length all) (fd_writer f) [] ->
  wp (write_rows c E secondaries spool_budget fuel)
    (fun _ f' => exists previous done, done ≡ₚ all /\ StronglySorted (rec_le E) done /\ rows_inv previous done (fd_writer f')) fails f.
Proof.
  intros Hst Hp Hfuel Hg. unfold write_rows. apply (for_records_ok E fails _ all rows_inv) with (rest := rest) (done := []).
  - intros previous done r f' (Hprev & Hs & Hkeys & Hg') Ht. destruct (in_turn_fits E all done r _ Ht Hall) as [Hfit Hlen].
    pose proof (fits_ok E _ Hfit) as Hok. rewrite fmap_app in Hok. apply Forall_app in Hfit as [_ [[Hv Hl] _]%Forall_cons].
    apply wp_bind, (check_after_ok E previous (rec_key <$> done)); auto. intros Hs'. apply wp_bind, wp_lift_result.
    destruct (index_keys secondaries (rec_key r) (rec_value r)) as [ks|e] eqn:Hks; [|auto].
    assert (has_keys secondaries r /\ ks = keys_of secondaries r) as [Hr ->] by (unfold has_keys, keys_of; rewrite Hks; auto). apply wp_bind.
    replace (length all - length done)%nat with (S (length all - length (done ++ [r]))) in Hg' by (rewrite length_app; cbn; lia).
    eapply wp_mono; [exact (feed_push keys_bytes (on_value_ref spool_budget) E bl_digest page_size Hps ey true budget filter _ _ (length all) caller safe
      head old _ f' _ (rec_key r) (rec_value r) _ (index_keys_fit _ _ _ Hsec _ Hks) Hg' (validated_ok _ Hv) Hv Hl) | | auto].
    intros [] f'' [Hf'' Hg'']. apply wp_ret. split; [exact Hf''|]. unfold rows_inv. rewrite entry_snoc, fmap_app. split; [cbn; now rewrite last_snoc|].
    split; [exact Hs'|]. split; [apply Forall_app; auto | exact Hg''].
  - exact Hst.
  - exact Hp.
  - constructor.
  - constructor.
  - rewrite Hp. exact Hfuel.
  - split; [reflexivity|]. split; [constructor|]. split; [constructor|]. cbn [length]. now rewrite Nat.sub_0_r.
Qed.

(** What is handed on for a row: its keys and where its value is. *)
Definition leads_to (pages : list (list byte)) (r : SpoolRecord) (p : list IndexKey * PageRef) : Prop :=
  index_keys secondaries (rec_key r) (rec_value r) = Ok (fst p) /\ reads_as (Btree.image_file pages) (snd p) (rec_value r).

Lemma finish_rows_ok (f : Feeding (list IndexKey) (list IndexSpool)) previous done :
  done ≡ₚ all -> rows_inv previous done (fd_writer f) ->
  wp (on_tree (finish (on_value_ref spool_budget) c))
    (fun root f' => page_ordinal_ok root /\ exists pages offs refs, laid filter head (old ++ pages) offs (tw_sink (fd_writer f')) /\
       Forall page_checks pages /\ tree_in (old ++ pages) E root (entry (keys_of secondaries) <$> done) /\
       Forall2 (leads_to (old ++ pages)) done refs /\ index_spools_have secondaries refs (tw_caller (fd_writer f'))) fails f.
Proof.
  intros Hp (_ & Hs & Hkeys & Hg).
  eapply wp_mono; [exact (feed_finish (on_value_ref spool_budget) E bl_digest page_size Hps ey true budget filter _ _ (length all) caller safe
    head old _ f _ Hg ltac:(rewrite entry_keys; exact Hs)) | | auto].
  intros root f' (Hr & pages & offs & refs & H1 & H2 & H3 & Hh & H4). split; [exact Hr|]. exists pages, offs, refs.
  assert (Forall2 (leads_to (old ++ pages)) done refs) as Hleads.
  { apply Forall2_fmap_l in H4. apply Forall2_same_length_lookup_2; [exact (Forall2_length _ _ _ H4)|]. intros i r p Hi Hj.
    destruct (Forall2_lookup_lr _ _ _ _ _ _ H4 Hi Hj) as [Hk Hv]. split; [|exact Hv]. rewrite Hk. exact (Forall_lookup_1 _ _ _ _ Hkeys Hi). }
  split_and!; auto. apply Hh.
  - eapply Forall2_Forall_r; [exact Hleads|]. apply Forall_forall. intros r _ p [Hk _]. exact (index_keys_fit _ _ _ Hsec _ Hk).
  - rewrite <- (Forall2_length _ _ _ Hleads), Hp. reflexivity.
Qed.
End Rows.

(** ** The primary tree *)

(** The tree at [root] has exactly the rows, by ascending key, and [refs] says for
    each which keys its indexes have for it and where its value is. *)
Definition rows_in (pages : list (list byte)) (E : KeyEncoding) (secondaries : list SecondarySpec) (root : PageOrdinal)
    (rows : list (list byte * list byte)) (refs : list (list IndexKey * PageRef)) : Prop :=
  exists HB : Buildable E, exists done, done ≡ₚ numbered rows /\ StronglySorted (key_lt E) (rec_key <$> done) /\
    tree_in pages E root (entry (keys_of secondaries) <$> done) /\ Forall2 (leads_to secondaries pages) done refs.

Lemma rows_in_more pages more E secondaries root rows refs :
  rows_in pages E secondaries root rows refs -> rows_in (pages ++ more) E secondaries root rows refs.
Proof.
  intros (HB & done & Hp & Hs & Ht & Hr). exists HB, done. split; [exact Hp|]. split; [exact Hs|]. split; [now apply tree_in_more|].
  eapply Forall2_impl; [exact Hr|]. intros r p [Hk Hv]. split; [exact Hk | now apply reads_more].
Qed.

Lemma rows_in_sorted pages E secondaries root rows refs : rows_in pages E secondaries root rows refs -> length refs = length rows.
Proof. intros (HB & done & Hp & _ & _ & Hr). rewrite <- (Forall2_length _ _ _ Hr), Hp. unfold numbered. apply length_imap. Qed.

(** The sorters of the indexes start empty. *)
Lemma new_index_spools {VA : VecAlloc} secondaries scratch budget : Forall secondary_ok secondaries ->
  index_spools_have secondaries [] ((fun index => mkIndexSpool (ss_encoding index) (RecordSpool_new scratch budget)) <$> secondaries).
Proof.
  intros Hsec. split.
  - rewrite <- list_fmap_compose. reflexivity.
  - apply Forall2_fmap_l, Forall2_fmap_r, Forall2_same_length_lookup_2; [now rewrite length_seq|]. intros i s j Hs _.
    destruct (Forall_lookup_1 _ _ _ _ Hsec Hs) as [[HB] _]. now apply new_given.
Qed.

Section Table.
Context {PL : PageLimit} {VA : VecAlloc} {VL : VecLaws VA} (page_size : Z) (Hps : page_size <= max_page) (ey : bool) (sort_buffer : Z) (scratch : PathBuf).
Context (filter : option (list byte -> Result (list byte))).

(** A table as the builder has it: its sorter was given these rows. *)
Record table_given (spec : TableSpec) (rows : list (list byte * list byte)) : Prop := {
  tg_rows : given_rows spec rows;
  tg_values : Forall (fun r => zlen (snd r) <= max_page - PAGE_PREFIX_LEN) rows;
  tg_secondaries : Forall secondary_ok (ts_secondaries spec);
  tg_count : zlen rows <= u64_max;
}.

Lemma into_sorted_given E (m : IO RecordSpool unit) s rows :
  (forall B, wp m (fun _ s' => spool_given E s' rows) B s) ->
  wp (let! _ := m in into_sorted E) (fun st _ => exists HB : Buildable E, exists rest, stream_holds E st rest /\ rest ≡ₚ numbered rows) fails s.
Proof.
  intros Hm. apply wp_bind. eapply wp_mono; [exact (Hm fails) | | auto]. intros [] s' (HB & Hhas & _).
  eapply wp_mono; [exact (into_sorted_ok E fails _ _ Hhas) | | auto]. intros st _ (rest & Hst & Hp). exists HB, rest. auto.
Qed.

Lemma build_primary_ok spec rows waiting head old offs sink :
  table_given spec rows -> laid filter head old offs sink ->
  wp (build_primary page_size ey sort_buffer scratch spec waiting)
    (fun p sink' => page_ordinal_ok (fst p) /\ exists pages offs' refs, laid filter head (old ++ pages) offs' sink' /\ Forall page_checks pages /\
       rows_in (old ++ pages) (ts_encoding spec) (ts_secondaries spec) (fst p) rows refs /\
       index_spools_have (ts_secondaries spec) refs (snd p)) fails sink.
Proof.
  intros [Hgiven Hl Hsec Hcount] Hlaid. pose proof (given_count _ _ _ Hgiven) as Hlen. cbn in Hlen.
  pose proof Hgiven as (_ & _ & _ & Hv). cbn in Hv. unfold build_primary. cbv zeta. set (E := ts_encoding spec) in *. set (all := numbered rows).
  assert (Forall (record_fits E) all) as Hall by now apply numbered_fits.
  assert (Z.of_nat (length all) = zlen rows) as Hz by (unfold all, numbered, zlen; now rewrite length_imap).
  apply wp_bind, wp_zoom. eapply wp_mono; [|clear Hgiven|intros e He; exact He].
  { apply wp_bind, wp_here, (into_sorted_given E _ _ rows). intros B. apply wp_if; intros _; [|now apply wp_ret].
    eapply wp_mono; [exact (flush_given E B _ _ Hgiven) | | auto]. intros [] s' [H _]. exact H. }
  intros st _ (HB & rest & Hst & Hp). apply wp_bind, wp_here, wp_bind, wp_lift_result.
  destruct (TreeWriter_new _ _ _ _ _ _) as [[c w]|e] eqn:Hnew; [|auto].
  unfold TreeWriter_new in Hnew. inv_ok. set (n := zlen (ts_secondaries spec)). set (share := saturating_sub (saturating_sub sort_buffer waiting) (held_bytes st)).
  set (c := if n =? 0 then _ else _).
  assert (c = config_for E page_size ey true (if n =? 0 then usize_max else share / 2)) as -> by (unfold c; now destruct (n =? 0)).
  assert (MIN_PAGE_SIZE <= page_size <= max_page) as Hps' by lia. pose proof (size_in_range page_size Hps') as Hps2.
  apply wp_zoom, wp_bind.
  eapply wp_mono; [apply (write_rows_ok E (ts_secondaries spec) Hsec page_size Hps' ey _ _ filter head old all Hall ltac:(lia) _ (mkFeeding st _) rest Hst Hp) | | auto].
  - rewrite Hlen. lia.
  - refine (growing_new _ (config_for_ok E bl_digest page_size ey true _ Hps2) filter _ _ (length all) head old sink offs _ Hlaid _).
    intros _ _. now apply new_index_spools.
  - intros [] f (previous & done & Hd & _ & Hinv). apply wp_bind.
    eapply wp_mono; [exact (finish_rows_ok E (ts_secondaries spec) Hsec page_size Hps' ey _ _ filter head old all ltac:(lia) f previous done Hd Hinv) | | auto].
    intros root f' (Hr & pages & offs' & refs & H1 & H2 & H3 & H4 & H5). apply wp_bind, wp_here, wp_ret. split; [exact Hr|].
    exists pages, offs', refs. split_and!; auto. exists HB, done. destruct Hinv as (_ & Hs & _). auto.
Qed.
End Table.

(** ** Roots *)

(** The descriptors of a table, with the roots of its trees. *)
Definition index_descriptor (name : Str) (unique : bool) (E : KeyEncoding) (kind : ValueKind) (root : Z) : IndexDescriptor :=
  mkIndexDescriptor name unique (id_bytes E) kind (Some root) 0.
Definition secondary_descriptor (s : SecondarySpec) (root : Z) : IndexDescriptor :=
  index_descriptor (ss_name s) (ss_unique s) (ss_encoding s) VPageRef root.
Definition table_descriptor (spec : TableSpec) (root : Z) (roots : list Z) : TableDescriptor :=
  mkTableDescriptor (ts_name spec) (index_descriptor (ts_name spec ++ pk_suffix) true (ts_encoding spec) RawData root)
    (zip_with secondary_descriptor (ts_secondaries spec) roots).

(** Where the root fields are when the descriptor starts at [p]. *)
Definition root_fields (p : Z) (t : TableDescriptor) : TableRoots :=
  mkTableRoots (id_root_field_offset (td_primary (place_table p t))) (id_root_field_offset <$> td_secondaries (place_table p t)).

(** A descriptor ends with its root. *)
Definition index_front (name : Str) (unique : bool) (E : KeyEncoding) (kind : ValueKind) : list byte :=
  u16_le (zlen name) ++ u16_le (zlen (id_bytes E)) ++ name ++ id_bytes E ++
  [byte.of_Z (if unique then 1 else 0); byte.of_Z (ValueKind_to_u8 kind)].

Lemma index_bytes_root name unique E kind root :
  index_bytes (index_descriptor name unique E kind root) = index_front name unique E kind ++ i64_le root.
Proof.
  unfold index_bytes, index_front. cbn [id_name id_is_unique id_key_encoding_id id_value_kind id_root index_descriptor PageOrdinal_to_i64].
  unfold i64_le at 1. rewrite (le_split_swrap 8 64) by lia. now rewrite <- !app_assoc.
Qed.

Lemma zlen_index_bytes name unique E kind root :
  zlen (index_bytes (index_descriptor name unique E kind root)) = zlen (index_front name unique E kind) + 8.
Proof. rewrite index_bytes_root, zlen_app. reflexivity. Qed.

Section Patch.
Context (filter : option (list byte -> Result (list byte))).

Lemma patch_root pre name unique E kind root root' post pages offs s B :
  laid filter (pre ++ index_bytes (index_descriptor name unique E kind root) ++ post) pages offs s ->
  wp (patch_at (zlen pre + zlen (index_bytes (index_descriptor name unique E kind root)) - 8) (i64_le root'))
    (fun _ s' => laid filter (pre ++ index_bytes (index_descriptor name unique E kind root') ++ post) pages offs s') B s.
Proof.
  intros Hl. rewrite zlen_index_bytes, !index_bytes_root in *. set (front := index_front name unique E kind) in *.
  pose proof (zlen_nonneg pre) as H0. pose proof (zlen_nonneg front) as H1. pose proof (zlen_nonneg post) as H2.
  replace (zlen pre + (zlen front + 8) - 8) with (zlen (pre ++ front)) by (rewrite zlen_app; lia).
  rewrite <- !app_assoc, (app_assoc pre) in *.
  eapply wp_mono; [apply (laid_patch_head filter _ _ _ _ _ _ B Hl) | | auto].
  - rewrite zlen_app. lia.
  - rewrite !zlen_app, !zlen_i64_le. lia.
  - intros [] s' Hl'. rewrite splice_mid in Hl' by reflexivity. exact Hl'.
Qed.

(** ** The trees of the indexes *)

(** The tree at [root] is that of the index for these rows. *)
Definition index_in (pages : list (list byte)) (s : SecondarySpec) (rows : list (list byte * list byte)) (root : Z) : Prop :=
  page_ordinal_ok root /\ index_tree pages (ss_encoding s) (ss_unique s) root rows.

Context {PL : PageLimit} {VA : VecAlloc} (page_size : Z) (Hps : page_size <= max_page) (ey : bool).

Lemma build_index_trees_ok : forall secondaries spools rowss roots pre post old offs sink reports,
  is_encoding <$> spools = ss_encoding <$> secondaries -> Forall2 given_rows spools rowss ->
  Forall (Forall (fun r => zlen (snd r) <= max_page - PAGE_PREFIX_LEN)) rowss -> length roots = length secondaries ->
  laid filter (pre ++ concat (map index_bytes (zip_with secondary_descriptor secondaries roots)) ++ post) old offs sink ->
  wp (build_index_trees page_size ey
        (zip (zip secondaries spools) (id_root_field_offset <$> place_indexes (zlen pre) (zip_with secondary_descriptor secondaries roots))) reports)
    (fun reports' sink' => reports' = reports ++ zip_with (fun s rows => mkIndexReport (ss_name s) (zlen rows)) secondaries rowss /\
       exists roots' pages offs', laid filter (pre ++ concat (map index_bytes (zip_with secondary_descriptor secondaries roots')) ++ post) (old ++ pages) offs' sink' /\
         Forall page_checks pages /\ Forall3 (index_in (old ++ pages)) secondaries rowss roots') fails sink.
Proof.
  induction secondaries as [|s secondaries IH]; intros [|sp spools] [|rows rowss] [|root roots] pre post old offs sink reports Henc Hg Hl Hlen Hlaid;
    try discriminate; try now inversion Hg.
  - cbn. apply wp_ret. rewrite app_nil_r. split; [reflexivity|]. exists [], [], offs. rewrite app_nil_r. split; [exact Hlaid|]. split; constructor.
  - injection Henc as He Henc. inversion Hg as [|? ? ? ? Hsp Hg']; subst. apply Forall_cons in Hl as [Hl Hl'].
    cbn [zip_with place_indexes map concat fmap list_fmap zip build_index_trees id_root_field_offset place_index] in *.
    rewrite <- app_assoc in Hlaid. unfold given_rows in Hsp. cbn [hs_encoding hs_spool IndexSpool_spool] in Hsp. rewrite He in Hsp.
    apply wp_bind. eapply wp_mono; [exact (build_index_tree_ok page_size Hps ey s sp rows filter _ old offs sink He Hsp Hl Hlaid) | | auto].
    intros r sink1 (Hr & pages & offs1 & Hlaid1 & Hck & Ht). apply wp_bind.
    eapply wp_mono; [exact (patch_root pre _ _ _ _ _ r _ _ _ _ fails Hlaid1) | | auto]. intros [] sink2 Hlaid2.
    change (index_descriptor (ss_name s) (ss_unique s) (ss_encoding s) VPageRef root) with (secondary_descriptor s root) in *.
    change (index_descriptor (ss_name s) (ss_unique s) (ss_encoding s) VPageRef r) with (secondary_descriptor s r) in *.
    rewrite app_assoc in Hlaid2.
    assert (zlen (index_bytes (secondary_descriptor s root)) = zlen (index_bytes (secondary_descriptor s r))) as Hz by (unfold secondary_descriptor; now rewrite !zlen_index_bytes).
    rewrite Hz. replace (zlen pre + zlen (index_bytes (secondary_descriptor s r))) with (zlen (pre ++ index_bytes (secondary_descriptor s r))) by apply zlen_app.
    eapply wp_mono; [apply (IH spools rowss roots _ post _ offs1 sink2 _ Henc Hg' Hl' ltac:(now injection Hlen) Hlaid2) | | auto].
    intros reports' sink3 (-> & roots' & pages' & offs3 & Hlaid3 & Hck' & H3). split.
    + rewrite <- app_assoc. cbn. rewrite (given_count _ _ _ Hsp). reflexivity.
    + exists (r :: roots'), (pages ++ pages'), offs3. cbn [zip_with map concat]. rewrite <- !app_assoc in *. split; [exact Hlaid3|].
      split; [apply Forall_app; auto|]. constructor; [|exact H3]. split; [exact Hr|]. rewrite app_assoc. now apply index_tree_more.
Qed.
End Patch.

(** ** Tables *)

Lemma index_entries_count secondaries i refs :
  (i < length secondaries)%nat -> Forall (fun p : list IndexKey * PageRef => keys_fit secondaries (fst p)) refs ->
  length (index_entries i refs) = length refs.
Proof.
  intros Hi. unfold index_entries. induction 1 as [|[ks r] refs [Hlen _] _ IH]; [reflexivity|]. cbn.
  destruct (lookup_lt_is_Some_2 ks i) as [k Hk]; [cbn in Hlen; lia|]. unfold IndexKey in *. rewrite Hk. cbn. now rewrite IH.
Qed.

Lemma rows_in_fit pages E secondaries root rows refs : Forall secondary_ok secondaries -> rows_in pages E secondaries root rows refs ->
  Forall (fun p => keys_fit secondaries (fst p)) refs.
Proof.
  intros Hsec (HB & done & _ & _ & _ & Hr). eapply Forall2_Forall_r; [exact Hr|]. apply Forall_forall. intros r _ p [Hk _].
  exact (index_keys_fit _ _ _ Hsec _ Hk).
Qed.

(** Every index gets an entry per row. *)
Lemma index_reports secondaries : Forall secondary_ok secondaries -> forall pages E root rows refs, rows_in pages E secondaries root rows refs ->
  zip_with (fun s rows => mkIndexReport (ss_name s) (zlen rows)) secondaries ((fun i => index_entries i refs) <$> seq 0 (length secondaries)) =
  (fun s => mkIndexReport (ss_name s) (zlen rows)) <$> secondaries.
Proof.
  intros Hsec pages E root rows refs Hrows. pose proof (rows_in_fit _ _ _ _ _ _ Hsec Hrows) as Hfit. apply list_eq. intros i.
  rewrite lookup_zip_with, !list_lookup_fmap. destruct (secondaries !! i) as [s|] eqn:Hs; [|reflexivity]. apply lookup_lt_Some in Hs.
  rewrite lookup_seq_lt by exact Hs. cbn. unfold zlen. now rewrite (index_entries_count secondaries i refs Hs Hfit), (rows_in_sorted _ _ _ _ _ _ Hrows).
Qed.

(** What a build reports about a table. *)
Definition report_of (spec : TableSpec) (rows : list (list byte * list byte)) : TableReport :=
  mkTableReport (ts_name spec) (zlen rows) ((fun s => mkIndexReport (ss_name s) (zlen rows)) <$> ts_secondaries spec).

(** The pages hold a table: its rows under [root], and under each of [roots] what
    its index has for them. *)
Definition table_in (pages : list (list byte)) (spec : TableSpec) (rows : list (list byte * list byte)) (root : Z) (roots : list Z) : Prop :=
  page_ordinal_ok root /\ exists refs, rows_in pages (ts_encoding spec) (ts_secondaries spec) root rows refs /\
    Forall3 (index_in pages) (ts_secondaries spec) ((fun i => index_entries i refs) <$> seq 0 (length (ts_secondaries spec))) roots.

Lemma table_in_more pages more spec rows root roots : table_in pages spec rows root roots -> table_in (pages ++ more) spec rows root roots.
Proof.
  intros (Hr & refs & H1 & H2). split; [exact Hr|]. exists refs. split; [now apply rows_in_more|].
  eapply Forall3_impl; [exact H2|]. intros s rs r [Ho Ht]. split; [exact Ho | now apply index_tree_more].
Qed.

Section WholeTable.
Context {PL : PageLimit} {VA : VecAlloc} {VL : VecLaws VA} (page_size : Z) (Hps : MIN_PAGE_SIZE <= page_size <= max_page) (ey : bool).
Context (sort_buffer : Z) (scratch : PathBuf) (filter : option (list byte -> Result (list byte))).

Lemma index_rows_short i refs : Forall (fun r => zlen (snd r) <= max_page - PAGE_PREFIX_LEN) (index_entries i refs).
Proof.
  unfold index_entries. induction refs as [|p refs IH]; [constructor|]. cbn. destruct (fst p !! i) as [k|]; [|exact IH]. constructor; [|exact IH].
  cbn [snd]. rewrite zlen_PageRef_encode. revert Hps. unfold MIN_PAGE_SIZE, PAGE_REF_LEN. lia.
Qed.

Lemma build_table_ok spec rows root roots waiting pre post old offs sink :
  table_given spec rows -> length roots = length (ts_secondaries spec) ->
  laid filter (pre ++ table_bytes (table_descriptor spec root roots) ++ post) old offs sink ->
  wp (build_table page_size ey sort_buffer scratch spec (root_fields (zlen pre) (table_descriptor spec root roots)) waiting)
    (fun report sink' => report = report_of spec rows /\ exists root' roots' pages offs',
       laid filter (pre ++ table_bytes (table_descriptor spec root' roots') ++ post) (old ++ pages) offs' sink' /\
       Forall page_checks pages /\ table_in (old ++ pages) spec rows root' roots') fails sink.
Proof.
  intros Hgiven Hlen Hlaid. pose proof (tg_secondaries _ _ Hgiven) as Hsec. pose proof (given_count _ _ _ (tg_rows _ _ Hgiven)) as Hcount. cbn in Hcount. unfold build_table.
  set (secs := ts_secondaries spec) in *. apply wp_bind.
  eapply wp_mono; [exact (build_primary_ok page_size (proj2 Hps) ey sort_buffer scratch filter spec rows waiting _ old offs sink Hgiven Hlaid) | | auto].
  intros [r spools] sink1 (Hr & pages & offs1 & refs & Hlaid1 & Hck & Hrows & Hspools). cbn [fst snd] in *. fold secs in Hrows, Hspools.
  set (name := index_front (ts_name spec ++ pk_suffix) true (ts_encoding spec) RawData).
  set (front := pre ++ table_head (table_descriptor spec root roots)).
  set (back := fun roots => concat (map index_bytes (zip_with secondary_descriptor secs roots)) ++ post).
  assert (forall root' roots', length roots' = length secs ->
    pre ++ table_bytes (table_descriptor spec root' roots') ++ post =
    front ++ index_bytes (index_descriptor (ts_name spec ++ pk_suffix) true (ts_encoding spec) RawData root') ++ u16_le (zlen secs) ++ back roots') as Hbytes.
  { intros root' roots' Hl. unfold table_bytes, front, back. cbn [td_name td_primary td_secondaries table_descriptor table_head].
    fold secs. replace (zlen (zip_with secondary_descriptor secs roots')) with (zlen secs) by (unfold zlen; rewrite length_zip_with; lia).
    now rewrite <- !app_assoc. }
  rewrite (Hbytes root roots Hlen) in Hlaid1. apply wp_bind.
  unfold root_fields. cbn [tr_primary tr_secondaries td_primary td_secondaries place_table id_root_field_offset place_index table_descriptor]. fold secs.
  change (table_head (mkTableDescriptor _ _ _)) with (table_head (table_descriptor spec root roots)). rewrite <- zlen_app. fold front.
  eapply wp_mono; [exact (patch_root filter front _ _ _ _ _ r _ _ _ _ fails Hlaid1) | | auto]. intros [] sink2 Hlaid2.
  set (front2 := front ++ index_bytes (index_descriptor (ts_name spec ++ pk_suffix) true (ts_encoding spec) RawData r) ++ u16_le (zlen secs)).
  assert (zlen front + zlen (index_bytes (index_descriptor (ts_name spec ++ pk_suffix) true (ts_encoding spec) RawData root)) + 2 = zlen front2) as ->.
  { unfold front2. rewrite !zlen_app, !zlen_index_bytes, zlen_u16_le. lia. }
  destruct Hspools as [Henc Hg].
  apply wp_bind. eapply wp_mono; [apply (build_index_trees_ok filter page_size (proj2 Hps) ey secs spools _ roots front2 post (old ++ pages) offs1 sink2 [] Henc Hg) | | auto].
  - apply Forall_fmap, Forall_forall. intros i _. apply index_rows_short.
  - exact Hlen.
  - unfold front2. rewrite <- !app_assoc. exact Hlaid2.
  - intros reports sink3 (-> & roots' & pages' & offs3 & Hlaid3 & Hck' & H3). apply wp_ret. split.
    + unfold report_of. rewrite Hcount. f_equal. cbn [app]. fold secs. exact (index_reports secs Hsec _ _ _ _ _ Hrows).
    + exists r, roots', (pages ++ pages'), offs3. assert (length roots' = length secs) as Hlen' by (symmetry; exact (Forall3_length_lr _ _ _ _ H3)).
      rewrite (Hbytes r roots' Hlen'). unfold front2 in Hlaid3. rewrite <- !app_assoc in *. split; [exact Hlaid3|].
      split; [apply Forall_app; auto|]. split; [exact Hr|]. exists refs. fold secs. split; [rewrite app_assoc; now apply rows_in_more | exact H3].
Qed.
End WholeTable.
