(* ===== verification/BuiltDatabase.v ===== *)
(** A database that was built, [crates/drydb/src/builder/mod.rs].

    The file of a build is a header, the descriptors, the pages and the page
    directory.  The descriptors are written with placeholders and patched when the
    trees stand; the header is patched when the pages are counted.  Here the pieces
    come together: for any builder, whatever rows its tables were given, the file a
    build leaves is that of the format, with exactly these rows in its trees. *)

From Stdlib Require Import ZArith Lia.
From stdpp Require Import base list.
From coqutil Require Import Byte.
From S2P Require Import Prelude Errors Format Header PageRef Encoding Catalog TreePage Effects Sink SinkPages Merger Spool.
From S2P Require Import PageWriter TreeWriter Built BuiltTree Builder BuilderFacts Feeding BuiltTables.

#[local] Open Scope Z_scope.
#[local] Open Scope drydb_scope.

(** ** Descriptors *)

Section Descriptors.
Context (filter : option (list byte -> Result (list byte))).

(** Before there are pages, the position of the sink is the length of what was
    written. *)
Lemma laid_pos head s : laid filter head [] [] s -> sk_pos s = zlen head.
Proof.
  intros (st & Hs & _ & Hst & _). apply Forall2_nil_inv_l in Hst as ->. destruct Hs as [_ Hp _]. cbn in Hp. now rewrite app_nil_r in Hp.
Qed.

(** The names of a descriptor fit its fields. *)
Definition names_fit (name : Str) (E : KeyEncoding) : Prop := zlen name <= u16_max /\ zlen (id_bytes E) <= u16_max.

Lemma write_index_descriptor_ok name E unique kind head s :
  laid filter head [] [] s ->
  wp (write_index_descriptor name (id_bytes E) unique kind) (fun field s' => names_fit name E /\ exists root,
    field = id_root_field_offset (place_index (zlen head) (index_descriptor name unique E kind root)) /\
    laid filter (head ++ index_bytes (index_descriptor name unique E kind root)) [] [] s') fails s.
Proof.
  intros Hl. unfold write_index_descriptor. apply wp_bind, wp_here. cbv zeta. apply wp_bind, wp_lift_result.
  destruct (encode_index_descriptor name (id_bytes E) unique kind 0) as [bytes|e] eqn:He; [|auto].
  unfold encode_index_descriptor in He. inv_ok.
  match goal with |- context [write_raw (take (length ?b - 8) ?b ++ _)] => set (bytes := b) end.
  assert (bytes = index_front name unique E kind ++ i64_le 0) as Hb by (unfold bytes, index_front; now rewrite <- !app_assoc).
  assert (take (length bytes - 8) bytes = index_front name unique E kind) as ->.
  { rewrite Hb, length_app. change (length (i64_le 0)) with 8%nat. now rewrite Nat.add_sub, take_app_length. }
  set (root := sk_pos s + zlen bytes). apply wp_bind. rewrite <- index_bytes_root.
  eapply wp_mono; [exact (laid_write_raw filter head s _ fails Hl) | | auto]. intros [] s' Hl'. apply wp_ret.
  split; [split; lia|]. exists root. split; [|exact Hl']. cbn [place_index id_root_field_offset]. rewrite (laid_pos head s Hl).
  rewrite zlen_index_bytes, Hb, zlen_app, zlen_i64_le. lia.
Qed.

Lemma write_secondary_descriptors_ok : forall secondaries fields head s,
  laid filter head [] [] s ->
  wp (write_secondary_descriptors secondaries fields)
    (fun fields' s' => Forall (fun x => names_fit (ss_name x) (ss_encoding x)) secondaries /\ exists roots, length roots = length secondaries /\
       let ds := zip_with secondary_descriptor secondaries roots in
       fields' = fields ++ (id_root_field_offset <$> place_indexes (zlen head) ds) /\ laid filter (head ++ concat (map index_bytes ds)) [] [] s') fails s.
Proof.
  induction secondaries as [|x secondaries IH]; intros fields head s Hl; cbn [write_secondary_descriptors].
  - apply wp_ret. split; [constructor|]. exists []. cbn. rewrite !app_nil_r. auto.
  - apply wp_bind. eapply wp_mono; [exact (write_index_descriptor_ok _ _ _ _ head s Hl) | | auto].
    intros field s1 (Hx & root & -> & Hl1). eapply wp_mono; [exact (IH _ _ s1 Hl1) | | auto].
    intros fields' s2 (Hxs & roots & Hlen & -> & Hl2). split; [now constructor|]. exists (root :: roots). cbn zeta.
    cbn [zip_with length place_indexes map concat]. rewrite fmap_cons, <- app_assoc, app_assoc, <- zlen_app. cbn [app]. split; [now f_equal|].
    split; [now rewrite <- app_assoc | rewrite <- app_assoc in Hl2; exact Hl2].
Qed.

(** The descriptor of a table has room for its names. *)
Definition table_fits (spec : TableSpec) : Prop :=
  names_fit (ts_name spec ++ pk_suffix) (ts_encoding spec) /\ zlen (ts_secondaries spec) <= u16_max /\
  Forall (fun x => names_fit (ss_name x) (ss_encoding x)) (ts_secondaries spec).

(** The roots of a table: of its rows, and of its indexes. *)
Abbreviation Roots := (Z * list Z)%type.
Definition rooted (spec : TableSpec) (r : Roots) : TableDescriptor := table_descriptor spec (fst r) (snd r).
Definition roots_for (spec : TableSpec) (r : Roots) : Prop := length (snd r) = length (ts_secondaries spec).

Fixpoint tables_root_fields (p : Z) (ds : list TableDescriptor) : list TableRoots :=
  match ds with
  | [] => []
  | d :: ds => root_fields p d :: tables_root_fields (p + zlen (table_bytes d)) ds
  end.

Lemma write_table_descriptor_ok spec head s :
  laid filter head [] [] s ->
  wp (write_table_descriptor spec) (fun fields s' => table_fits spec /\ exists r, roots_for spec r /\
    fields = root_fields (zlen head) (rooted spec r) /\ laid filter (head ++ table_bytes (rooted spec r)) [] [] s') fails s.
Proof.
  intros Hl. unfold write_table_descriptor. cbv zeta. apply wp_bind.
  eapply wp_mono; [exact (laid_write_raw filter _ _ _ fails Hl) | | auto]. clear s Hl. intros [] s Hl. apply wp_bind.
  eapply wp_mono; [exact (laid_write_raw filter _ _ _ fails Hl) | | auto]. clear s Hl. intros [] s Hl. apply wp_bind.
  eapply wp_mono; [exact (write_index_descriptor_ok _ _ _ _ _ s Hl) | | auto]. clear s Hl. intros field s (Hn & root & -> & Hl).
  apply wp_if; intros Hc; [apply wp_fail; auto|]. apply wp_bind.
  eapply wp_mono; [exact (laid_write_raw filter _ _ _ fails Hl) | | auto]. clear s Hl. intros [] s Hl. apply wp_bind.
  eapply wp_mono; [exact (write_secondary_descriptors_ok _ _ _ s Hl) | | auto]. clear s Hl. intros fields s (Hs & roots & Hlen & -> & Hl).
  apply wp_ret. split; [split; [exact Hn|]; split; [lia | exact Hs]|]. exists (root, roots). split; [exact Hlen|].
  assert (zlen (zip_with secondary_descriptor (ts_secondaries spec) roots) = zlen (ts_secondaries spec)) as Hz by (unfold zlen; rewrite length_zip_with; lia).
  split.
  - unfold root_fields, rooted. cbn [fst snd]. cbn [td_name td_primary td_secondaries place_table table_descriptor]. unfold table_head. cbn [td_name table_descriptor].
    cbn [app]. do 3 f_equal; [now rewrite <- app_assoc, zlen_app|]. rewrite !zlen_app, zlen_u16_le. lia.
  - unfold table_bytes, table_head, rooted. cbn [fst snd td_name td_primary td_secondaries table_descriptor]. rewrite Hz, <- !app_assoc in *. exact Hl.
Qed.

Lemma write_descriptors_ok : forall tables fields head s,
  laid filter head [] [] s ->
  wp (write_descriptors tables fields) (fun fields' s' => Forall table_fits tables /\ exists rs, Forall2 roots_for tables rs /\
    let ds := zip_with rooted tables rs in
    fields' = fields ++ tables_root_fields (zlen head) ds /\ laid filter (head ++ concat (map table_bytes ds)) [] [] s') fails s.
Proof.
  induction tables as [|spec tables IH]; intros fields head s Hl; cbn [write_descriptors].
  - apply wp_ret. split; [constructor|]. exists []. split; [constructor|]. cbn. rewrite !app_nil_r. auto.
  - apply wp_bind. eapply wp_mono; [exact (write_table_descriptor_ok spec head s Hl) | | auto].
    intros f s1 (Hf & r & Hr & -> & Hl1). eapply wp_mono; [exact (IH _ _ s1 Hl1) | | auto].
    intros fields' s2 (Hfs & rs & Hrs & -> & Hl2). split; [now constructor|]. exists (r :: rs). split; [now constructor|]. cbn zeta.
    cbn [zip_with tables_root_fields map concat]. rewrite <- app_assoc in Hl2. split; [|exact Hl2]. rewrite <- app_assoc, <- zlen_app. reflexivity.
Qed.
End Descriptors.

(** ** All tables *)

(** The length of a descriptor does not depend on the roots. *)
Lemma zlen_secondaries_bytes secondaries : forall roots roots', length roots = length secondaries -> length roots' = length secondaries ->
  zlen (concat (map index_bytes (zip_with secondary_descriptor secondaries roots))) =
  zlen (concat (map index_bytes (zip_with secondary_descriptor secondaries roots'))).
Proof.
  induction secondaries as [|x secondaries IH]; intros [|r roots] [|r' roots'] H H'; try discriminate; [reflexivity|].
  injection H as H. injection H' as H'. cbn [zip_with map concat]. unfold secondary_descriptor at 1 3. rewrite !zlen_app, !zlen_index_bytes, (IH _ _ H H'). reflexivity.
Qed.

Lemma zlen_table_bytes spec r r' : roots_for spec r -> roots_for spec r' -> zlen (table_bytes (rooted spec r)) = zlen (table_bytes (rooted spec r')).
Proof.
  unfold roots_for, rooted. intros H H'. unfold table_bytes, table_head. cbn [td_name td_primary td_secondaries table_descriptor].
  rewrite !zlen_app, !zlen_index_bytes, !zlen_u16_le, (zlen_secondaries_bytes _ _ _ H H'). reflexivity.
Qed.

Lemma table_in_roots pages spec rows r : table_in pages spec rows (fst r) (snd r) -> roots_for spec r.
Proof. intros (_ & refs & _ & H). symmetry. exact (Forall3_length_lr _ _ _ _ H). Qed.

(** What depends on the sorter of a table only for its rows. *)
Lemma respooled_zip {A B} (f : TableSpec -> A -> B) tables tables' (l : list A) :
  (forall s spec a, f (set_spool s spec) a = f spec a) -> Forall2 respooled tables tables' ->
  zip_with f tables' l = zip_with f tables l.
Proof.
  intros Hf H. revert l. induction H as [|x y tables tables' Hxy _ IH]; intros [|a l]; try reflexivity. cbn. rewrite IH. f_equal.
  rewrite Hxy. apply Hf.
Qed.

Lemma respooled_stable (P : TableSpec -> Prop) x y : (forall s spec, P (set_spool s spec) <-> P spec) -> respooled x y -> P y <-> P x.
Proof. intros Hf Hxy. rewrite Hxy. apply Hf. Qed.

Lemma respooled_Forall2 {A} (P : TableSpec -> A -> Prop) tables tables' (l : list A) :
  (forall s spec a, P (set_spool s spec) a <-> P spec a) -> Forall2 respooled tables tables' -> Forall2 P tables l -> Forall2 P tables' l.
Proof.
  intros Hf H. revert l. induction H as [|x y tables tables' Hxy _ IH]; intros l Hl; inversion Hl; subst; constructor; auto.
  now apply (respooled_stable (fun x => P x _) x y).
Qed.

Lemma respooled_Forall3 {A B} (P : TableSpec -> A -> B -> Prop) tables tables' (l : list A) (k : list B) :
  (forall s spec a b, P (set_spool s spec) a b <-> P spec a b) -> Forall2 respooled tables tables' -> Forall3 P tables' l k -> Forall3 P tables l k.
Proof.
  intros Hf H. revert l k. induction H as [|x y tables tables' Hxy _ IH]; intros l k Hl; inversion Hl; subst; constructor; auto.
  now apply (respooled_stable (fun x => P x _ _) x y).
Qed.

(** The tables of a builder, with what was appended to them. *)
Definition tables_given {PL : PageLimit} {VA : VecAlloc} (tables : list TableSpec) (rowss : list (list (list byte * list byte))) : Prop :=
  Forall2 table_given tables rowss.

(** The pages hold all tables, under these roots. *)
Definition tables_in (pages : list (list byte)) (tables : list TableSpec) (rowss : list (list (list byte * list byte))) (rs : list (Z * list Z)) : Prop :=
  Forall3 (fun spec rows r => table_in pages spec rows (fst r) (snd r)) tables rowss rs.

Lemma tables_given_kept {PL : PageLimit} {VA : VecAlloc} tables tables' rowss :
  Forall2 respooled tables tables' -> Forall2 given_rows tables' rowss -> tables_given tables rowss -> tables_given tables' rowss.
Proof.
  unfold tables_given. intros H. revert rowss. induction H as [|x y tables tables' Hxy _ IH]; intros rowss Hg Hr; [inversion Hr; constructor|].
  inversion Hr as [|? rows ? rowss' [H1 H2 H3 H4] Hr']; subst. inversion Hg as [|? ? ? ? Hy Hg']; subst. constructor; [|auto]. split; auto. now rewrite Hxy.
Qed.

Section Tables.
Context {PL : PageLimit} {VA : VecAlloc} {VL : VecLaws VA} (page_size : Z) (Hps : MIN_PAGE_SIZE <= page_size <= max_page) (ey : bool).
Context (sort_buffer : Z) (scratch : PathBuf) (filter : option (list byte -> Result (list byte))).

Lemma write_tables_ok fuel : forall tables rowss rs pre post old offs reports b,
  bu_tables b = tables -> tables_given tables rowss -> Forall2 roots_for tables rs -> (length tables <= fuel)%nat ->
  laid filter (pre ++ concat (map table_bytes (zip_with rooted tables rs)) ++ post) old offs (bu_sink b) ->
  wp (write_tables page_size ey sort_buffer scratch fuel (tables_root_fields (zlen pre) (zip_with rooted tables rs)) reports)
    (fun reports' b' => reports' = reports ++ zip_with report_of tables rowss /\ exists rs' pages offs',
       laid filter (pre ++ concat (map table_bytes (zip_with rooted tables rs')) ++ post) (old ++ pages) offs' (bu_sink b') /\
       Forall page_checks pages /\ tables_in (old ++ pages) tables rowss rs') fails b.
Proof.
  induction fuel as [|fuel IH]; intros tables rowss rs pre post old offs reports b Hb Hg Hrs Hfuel Hl.
  all: destruct tables as [|spec tables]; [inversion Hg; inversion Hrs; subst; cbn [write_tables]; apply wp_bind, wp_here; rewrite Hb; apply wp_ret;
    split; [now rewrite app_nil_r|]; exists [], [], offs; rewrite app_nil_r; split; [exact Hl|]; split; constructor |].
  { cbn in Hfuel. lia. }
  inversion Hg as [|? rows ? rowss' Hspec Hg']; subst. inversion Hrs as [|? r ? rs' Hr Hrs']; subst. cbn [write_tables zip_with tables_root_fields].
  apply wp_bind, wp_here. rewrite Hb. apply wp_bind, wp_update. cbn [bu_sink bu_tables]. apply wp_bind. unfold on_tables. apply wp_zoom. cbn [bu_sink bu_tables].
  eapply wp_mono; [apply (keep_counted_ok fails (sort_buffer / 2) tables rowss'); eapply Forall2_impl; [exact Hg'|]; intros s rows' H; apply H | | auto].
  intros waiting tables' (Hgiven & Hre & _). apply wp_bind, wp_expect. eexists. split; [reflexivity|]. apply wp_bind. unfold on_bsink. apply wp_zoom. cbn [bu_sink bu_tables].
  cbn [zip_with map concat] in Hl. rewrite <- app_assoc in Hl.
  eapply wp_mono; [exact (build_table_ok page_size Hps ey sort_buffer scratch filter spec rows (fst r) (snd r) waiting pre _ old offs (bu_sink b) Hspec Hr Hl) | | auto].
  intros report sink (-> & root & roots & pages & offs1 & Hl1 & Hck & Hin). set (r' := (root, roots)).
  change (table_descriptor spec root roots) with (rooted spec r') in Hl1. cbn [tail].
  assert (zlen (table_bytes (rooted spec r)) = zlen (table_bytes (rooted spec r'))) as Hz.
  { apply zlen_table_bytes; [exact Hr | exact (table_in_roots _ _ _ r' Hin)]. }
  rewrite Hz, <- zlen_app. rewrite app_assoc in Hl1.
  assert (zip_with rooted tables' rs' = zip_with rooted tables rs') as Hzip by (apply respooled_zip; [reflexivity | exact Hre]).
  rewrite <- Hzip in Hl1 |- *.
  eapply wp_mono; [apply (IH tables' rowss' rs' _ post (old ++ pages) offs1 _ (mkBuilding sink tables') eq_refl) | | auto].
  - exact (tables_given_kept _ _ _ Hre Hgiven Hg').
  - apply (respooled_Forall2 roots_for tables tables'); auto.
  - rewrite <- (Forall2_length _ _ _ Hre). cbn in Hfuel. lia.
  - exact Hl1.
  - intros reports' b' (-> & rs2 & pages2 & offs2 & Hl2 & Hck2 & Hin2). split.
    + rewrite <- app_assoc. cbn [zip_with app]. do 2 f_equal. apply respooled_zip; [reflexivity | exact Hre].
    + exists (r' :: rs2), (pages ++ pages2), offs2. rewrite app_assoc.
      assert (zip_with rooted tables' rs2 = zip_with rooted tables rs2) as Hzip2 by (apply respooled_zip; [reflexivity | exact Hre]).
      rewrite Hzip2 in Hl2. cbn [zip_with map concat]. rewrite <- !app_assoc in *. split; [exact Hl2|]. split; [apply Forall_app; auto|].
      constructor; [cbn [fst snd]; rewrite app_assoc; now apply table_in_more|]. apply (respooled_Forall3 _ tables tables'); [reflexivity | exact Hre | exact Hin2].
Qed.
End Tables.

(** ** The whole file *)

Section File.
Context {PL : PageLimit} {VA : VecAlloc} {VL : VecLaws VA} (b : DatabaseBuilder).

Definition filter_ids : list Str := match bd_filter b with Some (id, _) => [id] | None => [] end.

Definition built_header (page_count directory : Z) : Header :=
  mkHeader MAJOR_VERSION MINOR_VERSION (zlen filter_ids) (bd_page_size b) (zlen (bd_tables b)) page_count directory.

(** The file with these descriptors and these stored pages. *)
Definition file_of (ds : list TableDescriptor) (stored : list (list byte)) : list byte :=
  let descriptors := catalog_bytes filter_ids ds in
  let pages_at := HEADER_LEN + zlen descriptors in
  Header_encode (built_header (zlen stored) (pages_at + zlen (concat stored))) ++ descriptors ++ concat stored ++
  directory_bytes (starts pages_at stored).

(** A file that holds the tables of the builder with these rows. *)
Definition file_holds (rowss : list (list (list byte * list byte))) (data : list byte) (page_count : Z) : Prop :=
  exists rs pages stored, data = file_of (zip_with rooted (bd_tables b) rs) stored /\
    Forall2 (fun p st => stored_page (snd <$> bd_filter b) p = Ok st) pages stored /\ Forall page_checks pages /\
    tables_in pages (bd_tables b) rowss rs /\ page_count = zlen pages /\ page_count <= i32_max.

(** What the format has fields for. *)
Record descriptors_fit : Prop := {
  df_filters : Forall (fun id => zlen id <= 255) filter_ids;
  df_tables : Forall table_fits (bd_tables b);
  df_table_count : zlen (bd_tables b) <= u16_max;
}.

Record ready_to_build (rowss : list (list (list byte * list byte))) : Prop := {
  rb_tables : tables_given (bd_tables b) rowss;
  rb_page_size : MIN_PAGE_SIZE <= bd_page_size b <= max_page;
}.

Abbreviation filter := (snd <$> bd_filter b).

Lemma build_sink_laid : laid filter [] [] [] (build_sink b).
Proof. exists []. split; [apply (PageSink_new_holds filter) | repeat split; constructor]. Qed.

Lemma write_filter_id_ok head s : laid filter head [] [] s ->
  wp (write_filter_id (bd_filter b)) (fun _ s' => Forall (fun id => zlen id <= 255) filter_ids /\
    laid filter (head ++ concat (map filter_bytes filter_ids)) [] [] s') fails s.
Proof.
  intros Hl. unfold write_filter_id, filter_ids. destruct (bd_filter b) as [[id f]|].
  - apply wp_if; intros H; [apply wp_fail; auto|]. apply wp_bind.
    eapply wp_mono; [exact (laid_write_raw _ head s _ fails Hl) | | auto]. clear s Hl. intros [] s Hl.
    eapply wp_mono; [exact (laid_write_raw _ _ s _ fails Hl) | | auto]. clear s Hl. intros [] s Hl.
    split; [repeat constructor; lia|]. cbn [map concat]. rewrite app_nil_r. unfold filter_bytes. now rewrite <- app_assoc in Hl.
  - apply wp_ret. split; [constructor|]. cbn. now rewrite app_nil_r.
Qed.

(** The header is complete when the page count and the place of the directory
    are patched in. *)
Lemma patch_header n pos n' pos' rest :
  splice (Header_encode (built_header n pos) ++ rest) PAGE_COUNT_FIELD_OFFSET (i32_le n' ++ i64_le pos') = Header_encode (built_header n' pos') ++ rest.
Proof.
  set (front := MAGIC ++ [byte.of_Z MAJOR_VERSION] ++ [byte.of_Z MINOR_VERSION] ++ u16_le (zlen filter_ids) ++ i32_le (bd_page_size b) ++ u16_le (zlen (bd_tables b))).
  assert (forall n pos, Header_encode (built_header n pos) = front ++ i32_le n ++ i64_le pos) as Henc.
  { intros m p. unfold Header_encode, built_header, front. cbn [major_version minor_version page_filter_count page_size table_count page_count page_directory_position].
    now rewrite <- !app_assoc. }
  rewrite !Henc, <- !app_assoc, (app_assoc (i32_le n)), splice_mid; [now rewrite <- app_assoc | | reflexivity].
  unfold front, MAGIC, PAGE_COUNT_FIELD_OFFSET. zlen_lia.
Qed.

Lemma build_trees_ok rowss rs head sink scratch :
  ready_to_build rowss -> Forall2 roots_for (bd_tables b) rs ->
  laid filter (head ++ concat (map table_bytes (zip_with rooted (bd_tables b) rs))) [] [] sink ->
  wp (let! _ := on_tables (keep_inside (bd_sort_buffer b)) in
      write_tables (bd_page_size b) (bd_eytzinger_digests b) (bd_sort_buffer b) scratch (length (bd_tables b))
        (tables_root_fields (zlen head) (zip_with rooted (bd_tables b) rs)) [])
    (fun reports t => reports = zip_with report_of (bd_tables b) rowss /\ exists rs' pages offs,
       laid filter (head ++ concat (map table_bytes (zip_with rooted (bd_tables b) rs'))) pages offs (bu_sink t) /\
       Forall page_checks pages /\ tables_in pages (bd_tables b) rowss rs') fails (mkBuilding sink (bd_tables b)).
Proof.
  intros [Hg Hps] Hrs Hl. apply wp_bind. unfold on_tables. apply wp_zoom. cbn [bu_tables bu_sink].
  eapply wp_mono; [apply (keep_inside_ok fails (bd_sort_buffer b) (bd_tables b) rowss); eapply Forall2_impl; [exact Hg|]; intros s rows H; apply H | | auto].
  intros [] tables' (Hgiven & Hre & _).
  assert (forall rs, zip_with rooted tables' rs = zip_with rooted (bd_tables b) rs) as Hzip by (intros rs'; apply respooled_zip; [reflexivity | exact Hre]).
  rewrite <- !Hzip in *.
  eapply wp_mono; [apply (write_tables_ok (bd_page_size b) Hps (bd_eytzinger_digests b) (bd_sort_buffer b) scratch filter (length (bd_tables b))
    tables' rowss rs head [] [] [] [] (mkBuilding sink tables') eq_refl) | | auto].
  - exact (tables_given_kept _ _ _ Hre Hgiven Hg).
  - apply (respooled_Forall2 roots_for (bd_tables b) tables'); auto.
  - now rewrite (Forall2_length _ _ _ Hre).
  - rewrite app_nil_r. exact Hl.
  - intros reports t (-> & rs' & pages & offs & Hl' & Hck & Hin). split; [apply respooled_zip; [reflexivity | exact Hre]|].
    exists rs', pages, offs. rewrite Hzip, app_nil_r in Hl'. split; [exact Hl'|]. split; [exact Hck|].
    apply (respooled_Forall3 _ (bd_tables b) tables'); [reflexivity | exact Hre | exact Hin].
Qed.

(** The directory, the header and the flush. *)
Lemma finish_file_ok rowss rs pages offs reports sink :
  laid filter (Header_encode (built_header 0 0) ++ catalog_bytes filter_ids (zip_with rooted (bd_tables b) rs)) pages offs sink ->
  Forall page_checks pages -> tables_in pages (bd_tables b) rowss rs ->
  wp (let! '(directory_position, page_count) := finish_directory in
      fail! i32_max <? page_count with Failed Error_invalid in
      let! _ := patch_at PAGE_COUNT_FIELD_OFFSET (i32_le page_count ++ i64_le directory_position) in
      let! _ := sink_flush in
      let! s := here in
      sret (mkBuildReport page_count (sk_pos s) reports))
    (fun report s => let data := f_data (bw_inner (sk_writer s)) in
       file_holds rowss data (bp_page_count report) /\ bp_file_size report = zlen data /\ bp_tables report = reports) fails sink.
Proof.
  set (ds := catalog_bytes filter_ids (zip_with rooted (bd_tables b) rs)). set (pages_at := HEADER_LEN + zlen ds).
  assert (zlen (Header_encode (built_header 0 0) ++ ds) = pages_at) as Hat by (rewrite zlen_app, zlen_Header_encode; reflexivity).
  remember (Header_encode (built_header 0 0)) as h eqn:Hh. intros (st & Hs & -> & Hst & _) Hck Hin. apply wp_bind. eapply wp_mono; [exact (finish_directory_refines sink _ fails Hs) | | auto].
  clear Hs. intros [pos count] s (a & ([= -> ->] & ->) & Hs & _). clear sink. cbn [ss_bytes ss_offsets] in *. apply wp_if; intros Hc; [apply wp_fail; auto|].
  assert (zlen (starts pages_at st) = zlen st) as Hn by (unfold zlen; now rewrite length_starts).
  rewrite Hat in Hs, Hc |- *. rewrite Hn in Hc |- *. rewrite zlen_app, Hat. subst h.
  apply wp_bind. eapply wp_mono; [apply (patch_at_refines s _ Hs _ _ fails) | | auto].
  { vm_compute. discriminate. }
  { cbn [ss_bytes]. rewrite !zlen_app, zlen_Header_encode, zlen_i32_le, zlen_i64_le. pose proof (zlen_nonneg ds). pose proof (zlen_nonneg (concat st)).
    pose proof (zlen_nonneg (directory_bytes (starts pages_at st))). unfold PAGE_COUNT_FIELD_OFFSET, HEADER_LEN. lia. }
  clear Hs. intros [] s' (a & -> & [Hw Hp Hd] & _). clear s. rename s' into s. cbn [ss_bytes ss_offsets] in *. rewrite <- !app_assoc, patch_header in *.
  apply wp_bind. unfold sink_flush. apply wp_io, wp_bind, wp_here, wp_ret. cbv zeta. cbn [sk_on_writer sk_writer sk_pos bp_page_count bp_file_size bp_tables].
  destruct (writer_at_flush _ _ Hw) as [[Hw1 _] Hw2]. rewrite Hw2, app_nil_r in Hw1. rewrite Hw1. split; [|split; [exact Hp | reflexivity]].
  assert (zlen st = zlen pages) as Hlen by (unfold zlen; now rewrite (Forall2_length _ _ _ Hst)).
  exists rs, pages, st. split; [reflexivity|]. split_and!; auto. lia.
Qed.

Lemma build_into_ok rowss scratch :
  ready_to_build rowss ->
  wp (build_into b scratch) (fun report s => let data := f_data (bw_inner (sk_writer s)) in
    descriptors_fit /\ file_holds rowss data (bp_page_count report) /\ bp_file_size report = zlen data /\
    bp_tables report = zip_with report_of (bd_tables b) rowss) fails (build_sink b).
Proof.
  intros Hready. unfold build_into. apply wp_bind, wp_lift_result. destruct (build_header b) as [h|e] eqn:Hh; [|auto].
  unfold build_header in Hh. inv_ok.
  match goal with |- context [Header_encode ?h] => assert (h = built_header 0 0) as -> by (unfold built_header, filter_ids; now destruct (bd_filter b) as [[]|]) end.
  apply wp_bind. eapply wp_mono; [exact (laid_write_raw filter [] _ _ fails build_sink_laid) | | auto]. intros [] s1 Hl1. cbn [app] in Hl1.
  apply wp_bind. eapply wp_mono; [exact (write_filter_id_ok _ s1 Hl1) | | auto]. intros [] s2 [Hid Hl2].
  apply wp_bind. eapply wp_mono; [exact (write_descriptors_ok filter (bd_tables b) [] _ s2 Hl2) | | auto].
  intros roots s3 (Hfit & rs & Hrs & -> & Hl3). cbn [app].
  apply wp_bind, wp_zoom. eapply wp_mono; [exact (build_trees_ok rowss rs _ s3 scratch Hready Hrs Hl3) | | auto].
  intros reports t (-> & rs' & pages & offs & Hl4 & Hck & Hin). rewrite <- app_assoc in Hl4.
  eapply wp_mono; [exact (finish_file_ok rowss rs' pages offs _ (bu_sink t) Hl4 Hck Hin) | | auto].
  intros report s (H1 & H2 & H3). cbv zeta. split; [|auto]. split; [exact Hid | exact Hfit | lia].
Qed.

(** C3: what a build leaves is a file of the format that holds what was appended.
    For a builder of tables with lawful encodings, with pages between the smallest size and max_page (a parameter of at
    most i32::MAX), whose sorters were given the rows, spilled or not, with no value
    longer than max_page - 28 bytes (the length of its page is a 32-bit field; what
    happens to the 28 lengths above it is the claim of [blob_page_length_overflows]),
    and for any schedule of I/O errors, the build ends without a panic and without a
    loop running out: with an error, or with a file that is the header, the descriptors
    of the tables in order, the pages and the page directory, and nothing else.  Every
    stored page is a page that parses and validates, as the page filter has encoded it;
    the root of every table leads to a tree of exactly its rows, by ascending key, and
    the root of every index to a tree of exactly one entry per row, its key the one the
    index function gives and its value a reference that leads to the value of the row.
    The names and counts fit the fields they are written to, and the report has the
    length of the file and the counts of the rows. *)
Theorem build_into_correct rowss scratch :
  ready_to_build rowss ->
  wp (build_into b scratch) (fun report s => let data := f_data (bw_inner (sk_writer s)) in
    descriptors_fit /\ file_holds rowss data (bp_page_count report) /\ bp_file_size report = zlen data /\
    bp_tables report = zip_with report_of (bd_tables b) rowss) fails (build_sink b).
Proof. apply build_into_ok. Qed.
End File.

(** * On concrete input *)

#[local] Instance exact_alloc : VecAlloc := {| vec_extend := Z.max; vec_shrink := fun _ n => n |}.
#[local] Instance exact_laws : VecLaws exact_alloc.
Proof. split; [reflexivity | cbn; lia]. Qed.

(** The table of [BuilderFacts.v] with its three rows. *)
Definition demo_filled : DatabaseBuilder := fst (snd (append_all demo_ops (demo_table, []))).
Definition demo_filled_rows : list (list (list byte * list byte)) := [[([Byte.x62], [Byte.x31]); ([Byte.x61], []); ([], [Byte.x32; Byte.x33])]].

Lemma demo_filled_ready : ready_to_build demo_filled demo_filled_rows.
Proof.
  pose proof (wp_no_faults _ _ _ _ (append_all_has demo_ops demo_table [[]] demo_table_has
    ltac:(repeat constructor) ltac:(repeat constructor; vm_compute; discriminate))) as H.
  assert (is_ok (fst (append_all demo_ops (demo_table, []))) = true) as Hn by (vm_compute; reflexivity).
  unfold demo_filled. destruct (append_all demo_ops (demo_table, [])) as [[[]|e] [b fs]]; [|discriminate Hn]. cbn [fst snd].
  destruct H as [Hhas Hre]. assert (bd_tables demo_table = [mkTableSpec [Byte.x74] AsciiEncoding [] (RecordSpool_new [] DEFAULT_SORT_BUFFER)]) as Hdt by (vm_compute; reflexivity).
  destruct Hhas as [Hg Hps _]. split; [|exact Hps]. unfold tables_given. destruct Hre as (Hre & _). rewrite Hdt in Hre.
  apply Forall2_cons_inv_l in Hre as (spec & rest & Hspec & Hre & Hb). apply Forall2_nil_inv_l in Hre as ->. rewrite Hb in *.
  constructor; [|constructor]. apply Forall2_cons in Hg as [Hg _]. split; [exact Hg | | rewrite Hspec; constructor | vm_compute; discriminate].
  repeat constructor; vm_compute; discriminate.
Qed.

Lemma build_into_correct_witness :
  match build_into demo_filled [] (build_sink demo_filled, []) with
  | (Ok report, (s, _)) => file_holds demo_filled demo_filled_rows (f_data (bw_inner (sk_writer s))) 1 /\ bp_file_size report = 135
  | (Err _, _) => False
  end.
Proof.
  pose proof (wp_no_faults _ _ _ _ (build_into_correct demo_filled demo_filled_rows [] demo_filled_ready)) as H.
  assert (match build_into demo_filled [] (build_sink demo_filled, []) with (Ok r, _) => (bp_page_count r, bp_file_size r) | _ => (0, 0) end = (1, 135)) as Hn
    by (vm_compute; reflexivity).
  destruct (build_into demo_filled [] _) as [[report|e] [s fs]]; [|discriminate Hn]. injection Hn as Hc Hz. rewrite Hc in H. split; [apply H | exact Hz].
Defined.
