(* ===== verification/BuiltFile.v ===== *)
(** A file that was built, opened again.

    The two sides of the program meet here: what [DatabaseBuilder] leaves in a file
    is read by the store through the page directory and the filter, so a database
    opened over it has the tables that were built, and answers for the rows that
    were appended. *)

From Stdlib Require Import ZArith Lia.
From stdpp Require Import base list gmap.
From coqutil Require Import Byte.
From S2P Require Import Prelude Errors Format Header PageRef Node Encoding Budget Catalog Page TreePage Btree Query Cursor Index Table.
From S2P Require Import Source Cache Directory Store StoreFacts OpenStore Database DatabaseFacts Effects Sink SinkPages Merger Spool PageWriter TreeWriter.
From S2P Require Import Built BuiltTree Builder BuilderFacts Feeding BuiltTables BuiltDatabase.

#[local] Open Scope Z_scope.
#[local] Open Scope drydb_scope.

(** ** Pages *)

Lemma take_zlen_app {A} (l k : list A) n : n = zlen l -> take (Z.to_nat n) (l ++ k) = l.
Proof. intros ->. unfold zlen. rewrite Nat2Z.id. apply take_app_length. Qed.

(** A page starts with its length. *)
Lemma page_length_field {PL : PageLimit} p : page_checks p -> slice p 0 4 = i32_le (zlen p).
Proof.
  intros (Hlen & v & Hp & _). unfold PageView_parse in Hp. destruct (zlen p <? PAGE_PREFIX_LEN) eqn:Hshort; [discriminate|]. cbn [rbind] in Hp.
  destruct (read_i32 p 0) as [raw|e] eqn:Hr; [|discriminate]. cbn [rbind] in Hp. apply read_i32_inv in Hr as (_ & _ & Hv & _).
  unfold checked_len in Hp. destruct (raw <? 0); [discriminate|]. cbn [rbind] in Hp. destruct (Z.eqb_spec raw (zlen p)) as [<-|]; [|discriminate].
  rewrite Hv. symmetry. apply i32_le_swrap. apply zlen_slice; unfold_consts; lia.
Qed.

(** Its prefix and its payload. *)
Lemma page_parts {PL : PageLimit} p : page_checks p -> exists mid payload,
  p = i32_le (zlen p) ++ mid ++ payload /\ zlen mid = PAGE_PREFIX_LEN - 4.
Proof.
  intros Hck. pose proof (page_length_field p Hck) as Hfield. destruct Hck as [Hlen _]. exists (take 24 (drop 4 p)), (drop 24 (drop 4 p)).
  split; [|unfold zlen in *; rewrite length_take, length_drop; unfold_consts; lia].
  rewrite <- Hfield, take_drop. symmetry. exact (take_drop 4 p).
Qed.

Section Shown.
Context {PL : PageLimit} (limits : Limits) (vec_capacity : Z -> Z).

(** What a filter that reads has to do with the one that wrote: it gives back every
    page that was written, within the limits of the store. *)
Definition filter_inverts (encode : option (list byte -> Result (list byte))) (decode : option PageFilter) : Prop :=
  match encode, decode with
  | None, None => max_page <= max_stored_page_bytes limits
  | Some encode, Some f => forall payload out, zlen payload <= max_page - PAGE_PREFIX_LEN -> encode payload = Ok out ->
      PAGE_PREFIX_LEN + zlen out <= max_stored_page_bytes limits /\
      exists capacity, decode_capacity limits f out = Ok capacity /\ decode_payload limits vec_capacity f capacity out = Ok payload
  | _, _ => False
  end.

(** A page is read back from what was stored for it. *)
Lemma stored_reads encode f p st : filter_inverts encode f -> page_checks p -> stored_page encode p = Ok st ->
  PAGE_PREFIX_LEN <= zlen st <= max_stored_page_bytes limits /\ zlen st <= i32_max /\ slice st 0 4 = i32_le (zlen st) /\
  decoded f limits vec_capacity st = Ok p.
Proof.
  intros Hf Hck Hst. pose proof (page_length_field p Hck) as Hfield. pose proof max_page_range as Hmax.
  unfold stored_page in Hst. destruct encode as [enc|]; destruct f as [f|]; try contradiction; cbn [filter_inverts] in Hf.
  - destruct (enc (drop (Z.to_nat PAGE_PREFIX_LEN) p)) as [out|] eqn:He; [|discriminate]. cbn [rbind] in Hst. inv_ok.
    destruct (page_parts p Hck) as (mid & payload & Hp & Hmid). destruct Hck as [Hlen _].
    assert (drop (Z.to_nat PAGE_PREFIX_LEN) p = payload) as Hd.
    { rewrite Hp, app_assoc. apply drop_zlen_app. rewrite zlen_app, zlen_i32_le, Hmid. lia. }
    assert (take (Z.to_nat PAGE_PREFIX_LEN) p = i32_le (zlen p) ++ mid) as Ht.
    { rewrite Hp at 1. rewrite app_assoc. apply take_zlen_app. rewrite zlen_app, zlen_i32_le, Hmid. lia. }
    assert (zlen p = PAGE_PREFIX_LEN + zlen payload) as Hpl by (rewrite Hp at 1; rewrite !zlen_app, zlen_i32_le, Hmid; lia).
    rewrite Hd in He. rewrite Ht. destruct (Hf payload out ltac:(lia) He) as (Hout & capacity & Hcap & Hdec).
    set (total := PAGE_PREFIX_LEN + zlen out) in *.
    assert (splice (i32_le (zlen p) ++ mid) 0 (i32_le total) = i32_le total ++ mid) as -> by (apply (splice_mid [] (i32_le (zlen p)) (i32_le total) mid 0); reflexivity).
    assert (zlen ((i32_le total ++ mid) ++ out) = total) as Hz by (rewrite !zlen_app, zlen_i32_le, Hmid; unfold total; lia).
    pose proof (zlen_nonneg out). rewrite Hz. split; [lia|]. split; [lia|]. split.
    + rewrite <- app_assoc. rewrite slice_app_l by (rewrite ?zlen_i32_le; lia). now apply slice_all.
    + unfold decoded. rewrite (drop_zlen_app _ out PAGE_PREFIX_LEN) by (rewrite zlen_app, zlen_i32_le, Hmid; lia).
      rewrite Hcap. cbn [rbind]. rewrite Hdec. cbn [rbind]. unfold decoded_page. rewrite checked_add_ok by (unfold_consts; lia). cbn [ok_or rbind].
      rewrite <- Hpl. f_equal. rewrite Hp at 2. f_equal. f_equal. rewrite take_zlen_app; [reflexivity|]. rewrite zlen_app, zlen_i32_le, Hmid. lia.
  - destruct Hck as [Hlen _]. injection Hst as <-. split; [lia|]. split; [lia|]. split; [exact Hfield | reflexivity].
Qed.

(** A file whose pages are followed by their directory. *)
Context (front : list byte) (stored pages : list (list byte)).
Context (encode : option (list byte -> Result (list byte))) (f : option PageFilter) (Hf : filter_inverts encode f).
Context (Hst : Forall2 (fun p st => stored_page encode p = Ok st) pages stored) (Hck : Forall page_checks pages).
Context (Hfront : HEADER_LEN <= zlen front).
Abbreviation data := (front ++ concat stored ++ directory_bytes (starts (zlen front) stored)).
Abbreviation base := (zlen front + zlen (concat stored)).
Context (Hdata : zlen data < 2 ^ 63).

(** Where the page starts. *)
Definition start_of (i : nat) : Z := zlen front + zlen (concat (take i stored)).

Lemma start_next i st : stored !! i = Some st -> start_of (S i) = start_of i + zlen st /\ start_of (S i) <= base.
Proof.
  intros Hi. unfold start_of. rewrite (take_S_r _ _ _ Hi), concat_app, zlen_app. cbn [concat]. rewrite app_nil_r. split; [lia|].
  rewrite <- (take_drop_middle _ _ _ Hi) at 2. rewrite concat_app, zlen_app. cbn [concat]. rewrite zlen_app.
  pose proof (zlen_nonneg (concat (drop (S i) stored))). lia.
Qed.

Lemma built_page i p : pages !! i = Some p -> exists st, stored !! i = Some st /\
  PAGE_PREFIX_LEN <= zlen st <= max_stored_page_bytes limits /\ zlen st <= i32_max /\ slice st 0 4 = i32_le (zlen st) /\
  decoded f limits vec_capacity st = Ok p.
Proof.
  intros Hi. destruct (Forall2_lookup_l _ _ _ _ _ Hst Hi) as (st & Hsi & Hs). exists st. split; [exact Hsi|].
  exact (stored_reads _ _ _ _ Hf (Forall_lookup_1 _ _ _ _ Hck Hi) Hs).
Qed.

Lemma data_length : zlen data = base + 8 * zlen pages.
Proof.
  assert (zlen (starts (zlen front) stored) = zlen pages) as Hn by (unfold zlen; now rewrite length_starts, (Forall2_length _ _ _ Hst)).
  rewrite !zlen_app, zlen_directory_bytes, Hn. lia.
Qed.

(** The directory leads to it. *)
Lemma built_offset i p : pages !! i = Some p -> page_offset data base (zlen pages) (Z.of_nat i) = Ok (start_of i).
Proof.
  intros Hi. destruct (built_page i p Hi) as (st & Hsi & Hlen & _). destruct (start_next i st Hsi) as [Hn Hb]. pose proof data_length as Hdl.
  pose proof (lookup_lt_Some _ _ _ Hi) as Hlt. unfold page_offset. destruct (Z.leb_spec (zlen pages) (Z.of_nat i)) as [H|_]; [unfold zlen in H; lia|].
  assert (slice data (base + Z.of_nat i * DIRECTORY_SLOT_LEN) DIRECTORY_SLOT_LEN = i64_le (start_of i)) as ->.
  { rewrite app_assoc, slice_app_r by (rewrite zlen_app; unfold DIRECTORY_SLOT_LEN; lia). rewrite zlen_app.
    replace (base + Z.of_nat i * DIRECTORY_SLOT_LEN - base) with (Z.of_nat i * DIRECTORY_SLOT_LEN) by lia.
    apply (slice_concat_fixed i64_le DIRECTORY_SLOT_LEN); [exact zlen_i64_le | exact (starts_lookup _ _ _ _ Hsi)]. }
  pose proof (zlen_nonneg (concat (take i stored))). assert (HEADER_LEN <= start_of i < base) as Hrange by (unfold start_of in *; unfold_consts; lia).
  unfold read_i64. rewrite read_le_ok by (rewrite ?zlen_i64_le; unfold usize_max, u64_max; lia). rewrite slice_all by reflexivity.
  cbn [rbind]. rewrite swrap_i64_le by (pose proof (zlen_nonneg pages); unfold HEADER_LEN in *; lia). unfold validate_offset, FileOffset_from_i64, PageDirectory_new. cbn [pd_base].
  unfold HEADER_LEN in *. destruct (Z.ltb_spec (start_of i) 0); [lia|]. cbn [map_err rbind].
  destruct (Z.ltb_spec (start_of i) 26); [lia|]. destruct (Z.leb_spec base (start_of i)); [lia | reflexivity].
Qed.

Lemma built_content i p : pages !! i = Some p -> content data f limits base vec_capacity (zlen pages) (Z.of_nat i) = Ok p.
Proof.
  intros Hi. destruct (built_page i p Hi) as (st & Hsi & Hlen & Hi32 & Hfield & Hdec). destruct (start_next i st Hsi) as [Hn Hb].
  pose proof (lookup_lt_Some _ _ _ Hi) as Hlt. pose proof data_length as Hdl. pose proof (zlen_nonneg pages) as Hn0.
  pose proof (zlen_nonneg front) as Hf0. pose proof (zlen_nonneg (concat (take i stored))) as Hs0.
  assert (forall n, 0 <= n <= zlen st -> slice data (start_of i) n = slice st 0 n) as Hslice.
  { intros n Hnn. unfold start_of. rewrite <- (take_drop_middle _ _ _ Hsi) at 1. rewrite concat_app. cbn [concat]. rewrite <- !app_assoc.
    rewrite slice_app_r by lia. rewrite slice_app_r by lia. replace (_ - _ - _) with 0 by lia. apply slice_app_l; lia. }
  pose proof (zlen_nonneg (concat stored)). assert (Z.of_nat i < zlen pages < 2 ^ 63) as Hsmall by (split; [unfold zlen; lia | lia]).
  unfold content. rewrite (built_offset i p Hi). cbn [rbind].
  rewrite Hslice by (unfold PAGE_LENGTH_LEN; unfold_consts; lia). unfold PAGE_LENGTH_LEN. rewrite Hfield. unfold stored_length.
  rewrite read_i32_field by (unfold_consts; lia). cbn [rbind]. unfold checked_len. rewrite (proj2 (Z.ltb_ge _ _)) by (unfold_consts; lia). cbn [rbind].
  rewrite (proj2 (Z.ltb_ge _ PAGE_PREFIX_LEN)) by lia. rewrite (proj2 (Z.ltb_ge _ (zlen st))) by lia. cbn [rbind].
  rewrite checked_add_ok by (unfold start_of in *; unfold usize_max, u64_max; unfold_consts; lia). cbn [ok_or rbind].
  rewrite <- Hn. unfold content_limit.
  assert (exists limit, (if zlen pages <=? saturating_add (Z.of_nat i) 1 then Ok base
    else let? next := page_offset data base (zlen pages) (saturating_add (Z.of_nat i) 1) in Ok (if start_of i <? next then Z.min next base else base)) = Ok limit /\
    start_of (S i) <= limit) as (limit & -> & Hlim).
  { assert (saturating_add (Z.of_nat i) 1 = Z.of_nat (S i)) as -> by (unfold saturating_add, usize_max, u64_max; lia).
    destruct (Z.leb_spec (zlen pages) (Z.of_nat (S i))) as [|Hlt']; [eauto|].
    destruct (lookup_lt_is_Some_2 pages (S i)) as [q Hq]; [unfold zlen in Hlt'; lia|]. rewrite (built_offset (S i) q Hq). cbn [rbind]. eexists. split; [reflexivity|].
    destruct (_ <? _); lia. }
  cbn [rbind]. rewrite (proj2 (Z.ltb_ge limit _)) by exact Hlim. cbn [rbind]. rewrite Hslice by (unfold_consts; lia). rewrite slice_all by reflexivity. rewrite Hdec. cbn [rbind].
  unfold check_page_bytes. destruct (Forall_lookup_1 _ _ _ _ Hck Hi) as (_ & v & Hp & Hv). rewrite Hp. cbn [rbind]. rewrite Hv. reflexivity.
Qed.
End Shown.

(** ** Descriptors *)

(** What a program gives a builder: names that are strings, different ones for the
    tables, and for the indexes of each. *)
Record names_ok (b : DatabaseBuilder) : Prop := {
  no_utf8 : Forall (fun spec => from_utf8 (ts_name spec) = true /\ from_utf8 (id_bytes (ts_encoding spec)) = true /\
    Forall (fun x => from_utf8 (ss_name x) = true /\ from_utf8 (id_bytes (ss_encoding x)) = true) (ts_secondaries spec)) (bd_tables b);
  no_filter : Forall (fun id => from_utf8 id = true) (filter_ids b);
  no_tables : NoDup (ts_name <$> bd_tables b);
  no_indexes : Forall (fun spec => NoDup (ss_name <$> ts_secondaries spec)) (bd_tables b);
}.

Lemma index_descriptor_ok name unique E kind root : names_fit name E -> from_utf8 name = true -> from_utf8 (id_bytes E) = true ->
  page_ordinal_ok root -> index_ok (index_descriptor name unique E kind root).
Proof. intros [Hn He] Hun Hue Hr. split; cbn; auto. now intros v [= <-]. Qed.

Lemma secondary_names secondaries : forall roots, length secondaries = length roots ->
  map id_name (zip_with secondary_descriptor secondaries roots) = ss_name <$> secondaries.
Proof. induction secondaries as [|x l IH]; intros [|y k] H; try discriminate; [reflexivity|]. cbn. f_equal. apply IH. now injection H. Qed.

Lemma table_descriptor_ok pages spec rows r :
  table_fits spec -> from_utf8 (ts_name spec) = true -> from_utf8 (id_bytes (ts_encoding spec)) = true ->
  Forall (fun x => from_utf8 (ss_name x) = true /\ from_utf8 (id_bytes (ss_encoding x)) = true) (ts_secondaries spec) ->
  NoDup (ss_name <$> ts_secondaries spec) -> table_in pages spec rows (fst r) (snd r) -> table_ok (rooted spec r).
Proof.
  intros (Hn & Hc & Hs) Hu He Hsu Hnd Hin. pose proof (table_in_roots _ _ _ _ Hin) as Hlen. destruct Hin as (Hr & refs & _ & H3). unfold roots_for in Hlen.
  assert (map id_name (zip_with secondary_descriptor (ts_secondaries spec) (snd r)) = ss_name <$> ts_secondaries spec) as Hnames by (apply secondary_names; now symmetry).
  split; cbn [rooted table_descriptor td_name td_primary td_secondaries].
  - destruct Hn as [Hn _]. rewrite zlen_app in Hn. unfold_consts. pose proof (zlen_nonneg pk_suffix). lia.
  - exact Hu.
  - apply index_descriptor_ok; auto. apply from_utf8_app; [exact Hu | reflexivity].
  - apply Forall_lookup. intros i d Hd. rewrite lookup_zip_with in Hd. destruct (ts_secondaries spec !! i) as [x|] eqn:Hx; [|discriminate].
    destruct (snd r !! i) as [root|] eqn:Hroot; [|discriminate]. injection Hd as <-.
    destruct (Forall_lookup_1 _ _ _ _ Hsu Hx) as [H1 H2]. apply index_descriptor_ok; auto; [exact (Forall_lookup_1 _ _ _ _ Hs Hx)|].
    destruct (Forall3_lookup_l _ _ _ _ _ _ H3 Hx) as (rs & root' & _ & Hroot' & Ho & _). rewrite Hroot in Hroot'. injection Hroot' as <-. exact Ho.
  - unfold zlen in *. rewrite length_zip_with. lia.
  - rewrite Hnames. apply repeats_false. exact Hnd.
Qed.

Lemma rooted_names tables rs : length tables = length rs -> map td_name (zip_with rooted tables rs) = ts_name <$> tables.
Proof. revert rs. induction tables as [|s tables IH]; intros [|r rs] H; try discriminate; [reflexivity|]. cbn. f_equal. apply IH. now injection H. Qed.

Lemma descriptors_ok b pages rowss rs : names_ok b -> descriptors_fit b -> tables_in pages (bd_tables b) rowss rs ->
  Forall filter_ok (filter_ids b) /\ Forall table_ok (zip_with rooted (bd_tables b) rs) /\
  repeats [] (map td_name (zip_with rooted (bd_tables b) rs)) = false.
Proof.
  intros [Hu Hf Hnt Hni] [Hff Hft _] Hin. split_and!.
  - apply Forall_and. now split.
  - apply Forall_lookup. intros i d Hd. rewrite lookup_zip_with in Hd. destruct (bd_tables b !! i) as [spec|] eqn:Hs; [|discriminate].
    destruct (rs !! i) as [r|] eqn:Hr; [|discriminate]. injection Hd as <-. destruct (Forall_lookup_1 _ _ _ _ Hu Hs) as (H1 & H2 & H3).
    destruct (Forall3_lookup_l _ _ _ _ _ _ Hin Hs) as (rows & r' & _ & Hr' & Ht). rewrite Hr in Hr'. injection Hr' as <-.
    exact (table_descriptor_ok pages spec rows r (Forall_lookup_1 _ _ _ _ Hft Hs) H1 H2 H3 (Forall_lookup_1 _ _ _ _ Hni Hs) Ht).
  - rewrite rooted_names by exact (Forall3_length_lr _ _ _ _ Hin). apply repeats_false. exact Hnt.
Qed.

(** ** Opening *)

Section Opening.
Context {PL : PageLimit} (alloc : StdAlloc) (lay : Layout) (zstd : option PageFilter) (vec_capacity : Z -> Z) (o : OpenOptions).
Context (Hok : options_ok lay zstd o).
Context (b : DatabaseBuilder) (rowss : list (list (list byte * list byte))).
Context (Hnames : names_ok b) (Hfit : descriptors_fit b) (Hps : MIN_PAGE_SIZE <= bd_page_size b <= max_page).

(** The options know a filter for the one the builder wrote with, and it reads what
    that has written. *)
Definition filter_reads : Prop :=
  match bd_filter b with
  | None => filter_inverts (oo_limits o) vec_capacity None None
  | Some (id, encode) => forall f, FilterRegistry_resolve zstd (oo_filters o) id = Ok f ->
      filter_inverts (oo_limits o) vec_capacity (Some encode) (Some f)
  end.

Section File.
Context (rs : list (Z * list Z)) (pages stored : list (list byte)).
Abbreviation ds := (zip_with rooted (bd_tables b) rs).
Abbreviation front_len := (HEADER_LEN + zlen (catalog_bytes (filter_ids b) ds)).
Abbreviation directory_at := (front_len + zlen (concat stored)).
Abbreviation data := (file_of b ds stored).
Context (Hst : Forall2 (fun p st => stored_page (snd <$> bd_filter b) p = Ok st) pages stored) (Hck : Forall page_checks pages).
Context (Hin : tables_in pages (bd_tables b) rowss rs) (Hcount : zlen pages <= i32_max) (Hdata : zlen data < 2 ^ 63).

Lemma stored_count : zlen stored = zlen pages.
Proof. unfold zlen. now rewrite (Forall2_length _ _ _ Hst). Qed.

Lemma directory_range : HEADER_LEN <= front_len <= directory_at /\ directory_at < 2 ^ 63.
Proof.
  pose proof (zlen_nonneg (catalog_bytes (filter_ids b) ds)). pose proof (zlen_nonneg (concat stored)).
  pose proof (zlen_nonneg (directory_bytes (starts front_len stored))). split; [lia|].
  pose proof Hdata as H2. unfold file_of in H2. rewrite !zlen_app, zlen_Header_encode in H2. lia.
Qed.

Lemma built_header_wf : Header_wf (built_header b (zlen stored) directory_at).
Proof.
  pose proof directory_range as Hd. pose proof stored_count as Hc. pose proof (zlen_nonneg stored). pose proof max_page_range.
  pose proof (df_table_count _ Hfit). pose proof (zlen_nonneg (bd_tables b)).
  split; cbn; try reflexivity; try (unfold HEADER_LEN in *; lia).
  - unfold filter_ids. destruct (bd_filter b) as [[]|]; vm_compute; intuition discriminate.
  - unfold MIN_PAGE_SIZE in Hps. lia.
Qed.

Lemma built_header_parses : Header_parse (slice data 0 HEADER_LEN) = Ok (built_header b (zlen stored) directory_at).
Proof.
  unfold file_of. rewrite slice_app_l by (rewrite ?zlen_Header_encode; unfold HEADER_LEN; lia). rewrite slice_all by now rewrite zlen_Header_encode.
  pose proof (Header_parse_encode _ [] built_header_wf ltac:(vm_compute; discriminate)) as H. now rewrite app_nil_r in H.
Qed.

Context (next : Z) (db : Database) (s : Store) (next' : Z).
Context (Hop : opened alloc lay zstd vec_capacity data o next db s next') (Hnext : 1 <= next).

(** The catalog is the one that was written. *)
Lemma opened_catalog :
  cat_page_count (db_catalog db) = zlen pages /\ cat_directory_position (db_catalog db) = directory_at /\
  cat_filters (db_catalog db) = filter_ids b /\ exists at_, cat_tables (db_catalog db) = place_tables at_ ds.
Proof.
  destruct (op_catalog _ _ _ _ _ _ _ _ _ _ Hop) as (h & bud & Hh & Hcov & Hp1 & Hp2 & Hp3 & Hparse). rewrite built_header_parses in Hh. injection Hh as <-.
  destruct (descriptors_ok b pages rowss rs Hnames Hfit Hin) as (Hfs & Hts & Hrep).
  cbn [built_header page_filter_count Header.table_count page_size page_count page_directory_position] in *.
  assert (length (bd_tables b) = length ds) as Hlen by (rewrite length_zip_with, <- (Forall3_length_lr _ _ _ _ Hin); lia).
  assert (zlen (bd_tables b) = zlen ds) as Hz by (unfold zlen; now rewrite Hlen). rewrite Hz in Hparse.
  destruct (decodes_catalog (lay_catalog lay) (oo_sizes _ _ _ Hok) HEADER_LEN (filter_ids b) ds (bd_page_size b) (zlen stored) directory_at
    ltac:(discriminate) Hfs Hts Hrep) as [_ Hdec].
  unfold parse in Hparse.
  destruct (Hdec (Header_encode (built_header b (zlen stored) directory_at)) (concat stored ++ directory_bytes (starts front_len stored))
    (mkReader HEADER_LEN None) bud (zlen_Header_encode _) eq_refl Hdata Hcov) as [(b' & Heq & _)|(e & s' & Heq & _)];
    change (Header_encode (built_header b (zlen stored) directory_at) ++ catalog_bytes (filter_ids b) ds ++ concat stored ++ directory_bytes (starts front_len stored)) with data in Heq;
    rewrite Heq in Hparse; [|destruct s'; discriminate].
  cbn in Hparse. injection Hparse as Hc. rewrite <- Hc. cbn. rewrite stored_count. eauto.
Qed.

Context (Hreads : filter_reads).

(** The store shows the pages that were written. *)
Lemma opened_shows : cf_page_count (db_config db) = zlen pages /\ shows_pages (file_page (db_config db)) pages.
Proof.
  destruct opened_catalog as (Hpc & Hdp & Hfi & _). destruct (op_config _ _ _ _ _ _ _ _ _ _ Hop) as (f & Hf & Hcf). rewrite Hcf, Hpc, Hdp. cbn [cf_page_count].
  split; [reflexivity|]. intros i p Hi. unfold image_file, get_at in Hi. destruct (Z.leb_spec 0 i) as [Hi0|]; [|discriminate].
  unfold file_page. destruct (Z.ltb_spec i 0); [lia|]. cbn [cf_data cf_filter cf_limits cf_directory_base cf_vec_capacity cf_page_count].
  assert (filter_inverts (oo_limits o) vec_capacity (snd <$> bd_filter b) f) as Hinv.
  { unfold open_filter in Hf. rewrite Hfi in Hf. unfold filter_ids in Hf. unfold filter_reads in Hreads. destruct (bd_filter b) as [[id encode]|]; cbn.
    - destruct (FilterRegistry_resolve _ _ id) as [f'|]; [|discriminate]. injection Hf as <-. now apply Hreads.
    - injection Hf as <-. exact Hreads. }
  set (front := Header_encode (built_header b (zlen stored) directory_at) ++ catalog_bytes (filter_ids b) ds).
  assert (zlen front = front_len) as Hfl by (unfold front; now rewrite zlen_app, zlen_Header_encode).
  pose proof (built_content (oo_limits o) vec_capacity front stored pages (snd <$> bd_filter b) f Hinv Hst Hck) as Hc. rewrite Hfl in Hc.
  unfold front in Hc. rewrite <- !app_assoc in Hc. pose proof (zlen_nonneg (catalog_bytes (filter_ids b) ds)).
  specialize (Hc ltac:(lia) Hdata (Z.to_nat i) p Hi). rewrite Z2Nat.id in Hc by lia. unfold page_content.
  change (Header_encode (built_header b (zlen stored) directory_at) ++ catalog_bytes (filter_ids b) ds ++ concat stored ++ directory_bytes (starts front_len stored)) with data in Hc.
  now rewrite Hc.
Qed.

(** A tree that was built is a tree of the open file. *)
Lemma opened_tree {X} E (HL : LawfulEncoding E) root (es : list (list byte * list byte * X)) : tree_in pages E root es ->
  holds_rows (file_page (db_config db)) (cf_page_count (db_config db)) E root es.
Proof.
  intros Ht. destruct opened_shows as [Hc Hs]. rewrite Hc. apply Ht; [exact Hs|]. pose proof (zlen_nonneg pages). unfold_consts. unfold u64_max. lia.
Qed.

Lemma place_indexes_lookup l : forall j d, l !! j = Some d -> forall p, exists p', place_index p' d ∈ place_indexes p l.
Proof.
  induction l as [|d' l IH]; intros [|j] d Hj p; try discriminate; cbn [place_indexes].
  - injection Hj as ->. exists p. left.
  - destruct (IH j d Hj (p + zlen (index_bytes d'))) as [p' H]. exists p'. now right.
Qed.

(** The handle of a table, from its descriptor. *)
Lemma opened_descriptor i spec r : bd_tables b !! i = Some spec -> rs !! i = Some r ->
  exists at_, place_table at_ (rooted spec r) ∈ cat_tables (db_catalog db).
Proof.
  intros Hs Hr. destruct opened_catalog as (_ & _ & _ & at_ & ->). revert i at_ Hs Hr. generalize (bd_tables b) rs. intros tables.
  induction tables as [|spec' tables IH]; intros [|r' rs'] [|i] at_ Hs Hr; try discriminate; cbn [zip_with place_tables].
  - injection Hs as ->. injection Hr as ->. exists at_. left.
  - destruct (IH rs' i (at_ + zlen (table_bytes (rooted spec' r'))) Hs Hr) as [at' H]. exists at'. now right.
Qed.

(** The options know the encodings the tables were made with, under their ids. *)
Definition encodings_known : Prop := Forall (fun spec => EncodingRegistry_resolve (oo_encodings o) (ke_id (ts_encoding spec)) = Ok (ts_encoding spec) /\
  Forall (fun x => EncodingRegistry_resolve (oo_encodings o) (ke_id (ss_encoding x)) = Ok (ss_encoding x)) (ts_secondaries spec)) (bd_tables b).
Context (Hknown : encodings_known).

Lemma encoding_of_bytes E : encoding_id (id_bytes E) = ke_id E.
Proof. apply String.string_of_list_byte_of_string. Qed.

(** The handle of a table that was built. *)
Lemma opened_table i spec r : bd_tables b !! i = Some spec -> rs !! i = Some r ->
  exists tb, db_table db (ts_name spec) = Ok tb /\ ti_primary tb ∈ db_trees (db_tables db) /\
    tree_encoding (ti_primary tb) = ts_encoding spec /\ tree_root (ti_primary tb) = Some (fst r).
Proof.
  intros Hs Hr. destruct (opened_descriptor i spec r Hs Hr) as [at_ Hd]. destruct (op_table _ _ _ _ _ _ _ _ _ _ Hop _ Hd) as (tb & Htb & _ & _ & Hroot & _ & Henc & _).
  exists tb. cbn [td_name td_primary place_table rooted table_descriptor place_index id_root index_descriptor id_key_encoding_id] in *.
  rewrite encoding_of_bytes, (proj1 (Forall_lookup_1 _ _ _ _ Hknown Hs)) in Henc. split; [exact Htb|].
  split; [exact (db_table_tree _ _ _ _ Htb (list_elem_of_here _ _))|]. split; [now injection Henc | exact Hroot].
Qed.

(** The handle of an index of it. *)
Lemma opened_index i spec r j x root : bd_tables b !! i = Some spec -> rs !! i = Some r -> ts_secondaries spec !! j = Some x -> snd r !! j = Some root ->
  exists tb ix, db_table db (ts_name spec) = Ok tb /\ table_index tb (ss_name x) = Ok ix /\ ix_tree ix ∈ db_trees (db_tables db) /\
    ix_source_encoding ix = ss_encoding x /\ tree_encoding (ix_tree ix) = (if ss_unique x then ss_encoding x else DuplicateKeyEncoding (ss_encoding x)) /\
    tree_root (ix_tree ix) = Some root /\ id_root (ix_descriptor ix) = Some root /\ id_is_unique (ix_descriptor ix) = ss_unique x.
Proof.
  intros Hs Hr Hj Hroot. destruct (opened_descriptor i spec r Hs Hr) as [at_ Hd]. destruct (op_table _ _ _ _ _ _ _ _ _ _ Hop _ Hd) as (tb & Htb & Hof).
  destruct Hof as (_ & _ & _ & _ & _ & Hindex). set (ds := zip_with secondary_descriptor (ts_secondaries spec) (snd r)).
  assert (ds !! j = Some (secondary_descriptor x root)) as Hz by (apply lookup_zip_with_Some; exists x, root; auto).
  cbn [td_secondaries place_table rooted table_descriptor] in Hindex. fold ds in Hindex.
  destruct (Forall3_lookup_l _ _ _ _ _ _ Hin Hs) as (rows & r' & _ & Hr' & Ht). injection (eq_trans (eq_sym Hr) Hr') as <-.
  match type of Hindex with forall i, i ∈ place_indexes ?p _ -> _ => destruct (place_indexes_lookup ds j _ Hz p) as [at' Hmem] end.
  destruct (Hindex _ Hmem) as (ix & Hix & Hd1 & _ & Hroot' & _ & Henc & Henc').
  { rewrite place_indexes_names. unfold ds. rewrite secondary_names by (symmetry; exact (table_in_roots _ _ _ _ Ht)).
    exact (Forall_lookup_1 _ _ _ _ (no_indexes _ Hnames) Hs). }
  cbn [place_index secondary_descriptor index_descriptor id_name id_key_encoding_id id_is_unique id_root] in *.
  rewrite encoding_of_bytes, (Forall_lookup_1 _ _ _ _ (proj2 (Forall_lookup_1 _ _ _ _ Hknown Hs)) Hj) in Henc. injection Henc as Henc.
  exists tb, ix. rewrite Henc' , <- Henc, Hd1. split_and!; auto. apply (db_table_tree _ _ _ _ Htb). right.
  unfold table_index, by_name in Hix. destruct (List.find _ _) as [p|] eqn:Hfind; [|discriminate]. injection Hix as <-.
  apply find_some in Hfind as [Hp _]. apply list_elem_of_In. now apply (in_map (fun p => ix_tree (snd p))).
Qed.
End File.
End Opening.

(** ** Lookups *)

(** What a lookup may say about a key of the rows that were appended. *)
Definition appended_answer (rows : list (list byte * list byte)) (key : list byte) (value : option (list byte)) : Prop :=
  match value with
  | Some v => (key, v) ∈ rows
  | None => forall v, (key, v) ∉ rows
  end.

Lemma entry_appended {X} (x : SpoolRecord -> X) rows done k v : done ≡ₚ numbered rows ->
  (exists y, (k, v, y) ∈ (entry x <$> done)) <-> (k, v) ∈ rows.
Proof.
  intros Hp. split.
  - intros [y (r & Hr & Hin)%list_elem_of_fmap]. rewrite Hp in Hin. unfold numbered in Hin. apply elem_of_lookup_imap_1 in Hin as (i & row & -> & Hrow).
    unfold entry in Hr. cbn in Hr. injection Hr as -> -> _. destruct row. now apply list_elem_of_lookup_2 in Hrow.
  - intros (i & Hi)%list_elem_of_lookup. set (r := mkSpoolRecord (Z.of_nat i) k v). exists (x r). apply list_elem_of_fmap. exists r. split; [reflexivity|].
    rewrite Hp. apply list_elem_of_lookup. exists i. unfold numbered. now rewrite list_lookup_imap, Hi.
Qed.

Lemma appended_answered {X} (x : SpoolRecord -> X) rows done key value : done ≡ₚ numbered rows ->
  row_answer (entry x <$> done) key value -> appended_answer rows key value.
Proof.
  intros Hp H. destruct value as [v|]; cbn in *.
  - exact (proj1 (entry_appended x rows done key v Hp) H).
  - intros v [y Hy]%(entry_appended x rows done key v Hp). exact (H v y Hy).
Qed.

Section Capstone.
Context {PL : PageLimit} {VA : VecAlloc} {VL : VecLaws VA}.
Context (alloc : StdAlloc) (lay : Layout) (zstd : option PageFilter) (vec_capacity : Z -> Z) (o : OpenOptions).

(** A database opened over a file that a build has left answers for the rows of
    every table. *)
Lemma held_answers b rowss data page_count next db s next' :
  options_ok lay zstd o -> 64 <= limit_tree_depth (oo_limits o) ->
  names_ok b -> descriptors_fit b -> MIN_PAGE_SIZE <= bd_page_size b <= max_page ->
  filter_reads zstd vec_capacity o b -> encodings_known o b ->
  file_holds b rowss data page_count -> zlen data < 2 ^ 63 -> 1 <= next ->
  opened alloc lay zstd vec_capacity data o next db s next' ->
  forall i spec rows, bd_tables b !! i = Some spec -> rowss !! i = Some rows ->
  exists tb, db_table db (ts_name spec) = Ok tb /\ forall key,
    match fst (table_get tb key (mkOpen (cf := db_config db) s)) with
    | Ok r => appended_answer rows key (guard_bytes <$> r)
    | Err e => transient e \/ (e = Error_invalid /\ validate_key (ts_encoding spec) key <> Ok tt)
    end.
Proof.
  intros Hok Hdepth Hnames Hfit Hps Hreads Hknown (rs & pages & stored & -> & Hst & Hck & Hin & -> & Hcount) Hdata Hnext Hop i spec rows Hs Hrows.
  destruct (Forall3_lookup_l _ _ _ _ _ _ Hin Hs) as (rows' & r & Hrows' & Hr & Ht). rewrite Hrows in Hrows'. injection Hrows' as <-.
  destruct Ht as (_ & refs & (HB & done & Hp & _ & Htree & _) & _).
  destruct (opened_table alloc lay zstd vec_capacity o Hok b rowss Hnames Hfit Hps rs pages stored Hst Hin Hcount Hdata next db s next' Hop Hknown
    i spec r Hs Hr) as (tb & Htb & Hmem & Henc & Hroot).
  exists tb. split; [exact Htb|]. intros key.
  destruct (opened_tree alloc lay zstd vec_capacity o Hok b rowss Hnames Hfit Hps rs pages stored Hst Hck Hin Hcount Hdata next db s next' Hop Hreads
    _ bl_lawful _ _ Htree) as (h & leaves & Hwf & _ & Hread & Hstores).
  assert (limit_tree_depth (cf_limits (db_config db)) = limit_tree_depth (oo_limits o)) as Hl by (destruct (op_config _ _ _ _ _ _ _ _ _ _ Hop) as (f & _ & ->); reflexivity).
  destruct tb as [place [root E id validate] secondaries]. cbn [ti_primary tree_encoding tree_root] in Hmem, Henc, Hroot. subst root E.
  pose proof (opened_get alloc lay zstd vec_capacity _ o next db s next' Hop Hnext (mkTableInner place (mkTree (Some (fst r)) (ts_encoding spec) id validate) secondaries) Hmem h (fst r) leaves (HL := bl_lawful) (HC := bl_checkable)) as Hget.
  rewrite Hl in Hget. specialize (Hget (Hwf id validate _ Hdepth) Hread key).
  destruct (fst (table_get _ key _)) as [g|e]; [|exact Hget]. exact (appended_answered _ _ _ _ _ Hp (rows_answered _ _ _ _ _ Hstores Hget)).
Qed.
End Capstone.

(** ** Appended, built, opened *)

(** What does not depend on the sorters. *)
Lemma respooled_Forall (P : TableSpec -> Prop) tables tables' :
  (forall s spec, P (set_spool s spec) <-> P spec) -> Forall2 respooled tables tables' -> Forall P tables -> Forall P tables'.
Proof.
  intros HP Hre Ht. induction Hre as [|x y tables tables' Hxy _ IH]; [constructor|]. apply Forall_cons in Ht as [Hx Ht]. constructor; [|auto].
  now apply (respooled_stable P x y HP).
Qed.

Lemma respooled_names tables tables' : Forall2 respooled tables tables' -> ts_name <$> tables' = ts_name <$> tables.
Proof. induction 1 as [|x y tables tables' Hxy _ IH]; [reflexivity|]. rewrite !fmap_cons, IH, Hxy. reflexivity. Qed.

Lemma refilled_names b b' : refilled b b' -> names_ok b -> names_ok b'.
Proof.
  intros (Ht & _ & _ & Hf & _) [Hu Hfi Hn Hi]. split.
  - now apply (respooled_Forall _ (bd_tables b)).
  - unfold filter_ids in *. now rewrite Hf.
  - now rewrite (respooled_names _ _ Ht).
  - now apply (respooled_Forall (fun spec => NoDup (ss_name <$> ts_secondaries spec)) (bd_tables b)).
Qed.

Lemma refilled_known o b b' : refilled b b' -> encodings_known o b -> encodings_known o b'.
Proof. intros (Ht & _). now apply respooled_Forall. Qed.

Lemma refilled_reads {PL : PageLimit} zstd vec_capacity o b b' : refilled b b' -> filter_reads zstd vec_capacity o b -> filter_reads zstd vec_capacity o b'.
Proof. intros (_ & _ & _ & Hf & _). unfold filter_reads. now rewrite Hf. Qed.

Section Session.
Context {PL : PageLimit} {VA : VecAlloc} {VL : VecLaws VA}.
Abbreviation row := (list byte * list byte)%type.

(** A builder with its tables and indexes made, and no row yet. *)
Record made (b : DatabaseBuilder) : Prop := {
  md_empty : builder_has b ((fun _ => []) <$> bd_tables b);
  md_page_size : bd_page_size b <= max_page;
  md_names : names_ok b;
  md_secondaries : Forall (fun spec => Forall secondary_ok (ts_secondaries spec)) (bd_tables b);
}.

(** The calls that declare tables and indexes make such a builder. *)
Lemma made_new : DEFAULT_PAGE_SIZE <= max_page -> made DatabaseBuilder_new.
Proof. intros Hp. split; [exact new_has | exact Hp | split; constructor | constructor]. Qed.

Lemma made_table env name E b id b' : made b -> Buildable E -> from_utf8 name = true -> from_utf8 (id_bytes E) = true ->
  create_table env name E b = Ok (id, b') -> made b'.
Proof.
  intros [Hempty Hps [Hu Hf Hnt Hni] Hsec] HE Hname Hid Hrun.
  destruct (create_table_has env name E b _ id b' Hempty HE Hrun) as (Hhas & _ & _ & Hnew & spool & Htables).
  assert (bd_page_size b' = bd_page_size b /\ bd_filter b' = bd_filter b) as [Hps' Hf'] by (unfold create_table in Hrun; inv_ok; auto).
  unfold filter_ids in Hf. rewrite <- Hf' in Hf. rewrite <- Hps' in Hps.
  split; [rewrite Htables, fmap_app; exact Hhas | exact Hps | | rewrite Htables; apply Forall_app; split; [exact Hsec | repeat constructor]].
  split; [rewrite Htables; apply Forall_app; split; [exact Hu | repeat constructor; auto] | exact Hf | |
    rewrite Htables; apply Forall_app; split; [exact Hni | repeat constructor]].
  rewrite Htables, fmap_app. apply NoDup_app. split; [exact Hnt|]. split; [|apply NoDup_singleton].
  intros n Hn ->%list_elem_of_singleton. exact (Hnew Hn).
Qed.

Lemma made_index table name unique E key_fn b b' : made b -> Buildable E -> from_utf8 name = true -> from_utf8 (id_bytes E) = true ->
  (forall key value k, key_fn key value = Ok k -> zlen (fst k) < 2 ^ 32) ->
  add_secondary_index table name unique E key_fn b = Ok b' -> made b'.
Proof.
  intros [Hempty Hps [Hu Hf Hnt Hni] Hsec] HE Hname Hid Hfn Hrun.
  destruct (add_secondary_index_has table name unique E key_fn b _ b' Hempty Hrun) as (Hhas & spec & Hspec & _ & Hnew & Htables).
  assert (bd_page_size b' = bd_page_size b /\ bd_filter b' = bd_filter b) as [Hps' Hf'] by (unfold add_secondary_index in Hrun; inv_ok; auto).
  unfold filter_ids in Hf. rewrite <- Hf' in Hf. rewrite <- Hps' in Hps.
  split; [| exact Hps | |].
  - rewrite Htables, list_fmap_insert, list_insert_id; [exact Hhas|]. now rewrite list_lookup_fmap, Hspec.
  - split; [| exact Hf | |]; rewrite Htables.
    + apply Forall_insert; [exact Hu|]. destruct (Forall_lookup_1 _ _ _ _ Hu Hspec) as (H1 & H2 & H3). split; [exact H1|]. split; [exact H2|].
      apply Forall_app. split; [exact H3 | repeat constructor; auto].
    + rewrite list_fmap_insert, list_insert_id; [exact Hnt|]. rewrite list_lookup_fmap, Hspec. reflexivity.
    + apply Forall_insert; [exact Hni|]. cbn [ts_secondaries add_secondary]. rewrite fmap_app. apply NoDup_app.
      split; [exact (Forall_lookup_1 _ _ _ _ Hni Hspec)|]. split; [|apply NoDup_singleton]. intros n Hn ->%list_elem_of_singleton. exact (Hnew Hn).
  - rewrite Htables. apply Forall_insert; [exact Hsec|]. apply Forall_app. split; [exact (Forall_lookup_1 _ _ _ _ Hsec Hspec)|].
    constructor; [|constructor]. split; [constructor; exact HE | exact Hfn].
Qed.

Lemma made_filter id f b : made b -> from_utf8 id = true -> made (builder_page_filter (id, f) b).
Proof. intros [Hempty Hps [Hu Hf Hnt Hni] Hsec] Hid. split; [apply settings_keep; exact Hempty | exact Hps | split; auto; repeat constructor; exact Hid | exact Hsec]. Qed.

(** Rows for its tables, none longer than a page may be. *)
Definition ops_fit (b : DatabaseBuilder) (ops : list (TableId * row)) : Prop :=
  Forall (fun op => (fst op < length (bd_tables b))%nat /\ zlen (snd (snd op)) <= max_page - PAGE_PREFIX_LEN) ops /\ zlen ops <= u64_max.

(** The rows among them for a table. *)
Definition appended_to (i : nat) (ops : list (TableId * row)) : list row := snd <$> base.filter (fun op => fst op = i) ops.

Lemma collected ops : forall rowss i rows, rowss !! i = Some rows -> foldl collect rowss ops !! i = Some (rows ++ appended_to i ops).
Proof.
  induction ops as [|[j r] ops IH]; intros rowss i rows Hi; cbn [foldl]; [unfold appended_to; cbn; now rewrite app_nil_r|].
  unfold appended_to. rewrite filter_cons. cbn [fst]. unfold collect at 2. cbn [fst snd]. destruct (decide (j = i)) as [->|Hne].
  - rewrite (IH _ i (rows ++ [r])) by (now rewrite list_lookup_alter_eq, Hi). rewrite fmap_cons, <- app_assoc. reflexivity.
  - apply IH. now rewrite list_lookup_alter_ne.
Qed.

Lemma length_appended i ops : zlen (appended_to i ops) <= zlen ops.
Proof. unfold zlen, appended_to. rewrite length_fmap. pose proof (length_filter (fun op => fst op = i) ops). lia. Qed.

Lemma made_rows b i spec : bd_tables b !! i = Some spec -> ((fun _ => []) <$> bd_tables b : list (list row)) !! i = Some [].
Proof. intros Hi. now rewrite list_lookup_fmap, Hi. Qed.

(** A builder that has taken the rows is ready. *)
Lemma made_ready b ops b' : made b -> ops_fit b ops ->
  builder_has b' (foldl collect ((fun _ => []) <$> bd_tables b) ops) -> refilled b b' ->
  ready_to_build b' (foldl collect ((fun _ => []) <$> bd_tables b) ops).
Proof.
  intros [Hempty Hps Hnames Hsec] [Hops Hlen] [Hrows _ _] (Hre & Hps' & _). split; [|rewrite Hps'; split; [apply Hempty | exact Hps]].
  apply Forall2_same_length_lookup_2; [exact (Forall2_length _ _ _ Hrows)|]. intros i spec rows Hi Hr.
  destruct (Forall2_lookup_r _ _ _ _ _ Hre Hi) as (spec0 & Hi0 & _). rewrite (collected ops _ i [] (made_rows b i spec0 Hi0)) in Hr. injection Hr as <-.
  split.
  - apply (Forall2_lookup_lr _ _ _ _ _ _ Hrows Hi). exact (collected ops _ i [] (made_rows b i spec0 Hi0)).
  - apply Forall_forall. intros r ([j r'] & -> & [_ Hin]%list_elem_of_filter)%list_elem_of_fmap. apply (Forall_forall _ _ ) with (x := (j, r')) in Hops; [|exact Hin]. apply Hops.
  - apply (Forall_lookup_1 (fun spec => Forall secondary_ok (ts_secondaries spec)) (bd_tables b') i); [|exact Hi]. now apply (respooled_Forall _ (bd_tables b)).
  - etransitivity; [apply length_appended | exact Hlen].
Qed.

(** What the build leaves for a reader. *)
Record left_behind (b b' : DatabaseBuilder) (ops : list (TableId * row)) (sink : PageSink) : Prop := {
  lb_refilled : refilled b b';
  lb_page_size : MIN_PAGE_SIZE <= bd_page_size b' <= max_page;
  lb_fit : descriptors_fit b';
  lb_holds : exists page_count, file_holds b' (foldl collect ((fun _ => []) <$> bd_tables b) ops) (f_data (bw_inner (sk_writer sink))) page_count;
}.

Lemma session_leaves b ops faults b' faults1 scratch report sink faults2 :
  made b -> ops_fit b ops -> append_all ops (b, faults) = (Ok tt, (b', faults1)) ->
  build_into b' scratch (build_sink b', faults1) = (Ok report, (sink, faults2)) -> left_behind b b' ops sink.
Proof.
  intros Hmade Hops Happ Hbuild.
  assert (Forall (fun op => (fst op < length ((fun _ => [] : list row) <$> bd_tables b))%nat /\ zlen (snd (snd op)) < 2 ^ 32) ops) as Hfit.
  { eapply Forall_impl; [exact (proj1 Hops)|]. intros op [H1 H2]. rewrite length_fmap. split; [exact H1|].
    pose proof max_page_range. unfold_consts. unfold i32_max in *. lia. }
  assert (Forall (fun rows => zlen rows + zlen ops <= u64_max) ((fun _ => [] : list row) <$> bd_tables b)) as Hcount.
  { apply Forall_fmap, Forall_forall. intros x _. exact (proj2 Hops). }
  destruct (wp_returned _ _ _ _ _ _ _ _ (append_all_has ops b _ (md_empty _ Hmade) Hfit Hcount) Happ) as [Hhas Hre].
  pose proof (made_ready b ops b' Hmade Hops Hhas Hre) as Hready.
  destruct (wp_returned _ _ _ _ _ _ _ _ (build_into_ok b' _ scratch Hready) Hbuild) as (Hdf & Hholds & _).
  split; [exact Hre | exact (rb_page_size _ _ Hready) | exact Hdf | eauto].
Qed.

Context (alloc : StdAlloc) (lay : Layout) (zstd : option PageFilter) (vec_capacity : Z -> Z) (o : OpenOptions) (Hok : options_ok lay zstd o).

(** C1: what is appended to a builder and built is what a reader within these limits
    finds.  Tables and indexes with lawful encodings are declared first, with pages of
    at most max_page bytes and index functions whose keys are under 4 GiB; max_page is a
    parameter of at most i32::MAX.  Then rows are appended to these tables, in any order
    and however often the sorters spill, no value longer than max_page - 28 bytes; the
    database is built, with a page filter or without; and the bytes the build has left
    are opened, from any reader.  The options know the encodings; they allow trees of 64
    levels; and their size limits admit every page up to max_page, with a filter after it
    has been encoded, which their filter decodes again.  (Under limits that are smaller
    than a value, as the default ones are for a value of 100 MiB, the file opens but the
    value cannot be read; this is outside the claim.)  If every step succeeds, then every
    table can be opened by its name, and looking up a key in it answers with the value
    that was appended under that key, and with nothing only when no row with that key was
    appended; the only errors left are I/O errors and refused reservations, and bytes that
    are no key. *)
Theorem built_file_answers b ops faults b' faults1 scratch report sink faults2 size reads next env db s next' :
  made b -> ops_fit b ops ->
  append_all ops (b, faults) = (Ok tt, (b', faults1)) ->
  build_into b' scratch (build_sink b', faults1) = (Ok report, (sink, faults2)) ->
  let data := f_data (bw_inner (sk_writer sink)) in
  zlen data < 2 ^ 63 -> size = None \/ size = Some (zlen data) -> 1 <= next ->
  open_source alloc lay zstd vec_capacity data o size reads next env = Ok (db, s, next') ->
  64 <= limit_tree_depth (oo_limits o) -> filter_reads zstd vec_capacity o b -> encodings_known o b ->
  forall i spec, bd_tables b !! i = Some spec ->
  exists tb, db_table db (ts_name spec) = Ok tb /\ forall key,
    match fst (table_get tb key (mkOpen (cf := db_config db) s)) with
    | Ok r => appended_answer (appended_to i ops) key (guard_bytes <$> r)
    | Err e => transient e \/ (e = Error_invalid /\ validate_key (ts_encoding spec) key <> Ok tt)
    end.
Proof.
  intros Hmade Hops Happ Hbuild data Hdata Hsize Hnext Hopen Hdepth Hreads Hknown i spec Hi.
  destruct (session_leaves b ops faults b' faults1 scratch report sink faults2 Hmade Hops Happ Hbuild) as [Hre Hps Hdf (page_count & Hholds)].
  pose proof (open_source_opened alloc lay zstd vec_capacity data o Hok Hdata _ _ _ _ _ _ _ Hsize Hnext Hopen) as Hop.
  destruct (Forall2_lookup_l _ _ _ _ _ (proj1 Hre) Hi) as (spec' & Hi' & Hsp).
  destruct (held_answers alloc lay zstd vec_capacity o b' _ data _ next db s next' Hok Hdepth (refilled_names b b' Hre (md_names _ Hmade)) Hdf
    Hps (refilled_reads zstd vec_capacity o b b' Hre Hreads) (refilled_known o b b' Hre Hknown) Hholds Hdata Hnext Hop
    i spec' (appended_to i ops) Hi' (collected ops _ i [] (made_rows b i spec Hi))) as (tb & Htb & Hget).
  rewrite Hsp in Htb, Hget. eauto.
Qed.
End Session.

(** * On concrete input *)

#[local] Instance exact_alloc : VecAlloc := {| vec_extend := Z.max; vec_shrink := fun _ n => n |}.
#[local] Instance exact_laws : VecLaws exact_alloc.
Proof. split; [reflexivity | cbn; lia]. Qed.
(** Pages of at most a mebibyte, which the limits of a store allow. *)
#[local] Instance mebibyte : PageLimit := {| max_page := 2 ^ 20; max_page_range := ltac:(vm_compute; discriminate) |}.

(** A page filter: every bit of the payload is flipped. *)
Definition flip (bytes : list byte) : list byte := (fun b => byte.of_Z (255 - byte.unsigned b)) <$> bytes.
Definition flip_filter : PageFilter := mkPageFilter (fun _ encoded => Ok (flip encoded, zlen encoded)) (fun encoded => Some (zlen encoded)) 0 0.
Definition demo_options : OpenOptions :=
  mkOpenOptions DEFAULT_MEMORY_BUDGET (oo_cache_capacity open_options) (oo_cache_shards open_options) (oo_directory_chunk_entries open_options)
    (oo_directory_chunks open_options) (oo_limits open_options) (oo_encodings open_options)
    (FilterRegistry_register [Byte.x66] flip_filter (oo_filters open_options)) (oo_validate_digests open_options).

Lemma flip_flip bytes : flip (flip bytes) = bytes.
Proof. unfold flip. rewrite <- list_fmap_compose. rewrite <- (list_fmap_id bytes) at 2. apply list_fmap_ext. intros _ b _. now destruct b. Qed.
Lemma zlen_flip bytes : zlen (flip bytes) = zlen bytes.
Proof. unfold zlen, flip. now rewrite length_fmap. Qed.

Lemma flip_inverts : filter_inverts (oo_limits demo_options) (fun n => n) (Some (fun payload => Ok (flip payload))) (Some flip_filter).
Proof.
  intros payload out Hlen [= <-]. pose proof (zlen_nonneg payload). cbn [max_page mebibyte] in Hlen. unfold decode_capacity, decode_payload. cbn -[Z.leb Z.ltb flip].
  rewrite zlen_flip. unfold_consts. split; [lia|]. rewrite (proj2 (Z.leb_le _ _)) by lia. exists (zlen payload). split; [reflexivity|].
  cbn -[Z.ltb flip]. rewrite flip_flip, ?zlen_flip, (proj2 (Z.ltb_ge _ _)) by lia. cbn [rbind]. now rewrite (proj2 (Z.ltb_ge _ _)) by lia.
Qed.

Lemma demo_options_ok : options_ok open_layout None demo_options.
Proof.
  split; [vm_compute; intuition discriminate.. | | vm_compute; intuition discriminate | vm_compute; discriminate].
  intros id f. unfold FilterRegistry_resolve, demo_options. cbn. destruct (str_eqb _ id); intros [= <-]. vm_compute. discriminate.
Qed.

(** A table with an index on the values, and rows two of which share one. *)
Definition by_value : SecondarySpec := mkSecondarySpec [Byte.x69] false AsciiEncoding (fun _ value => Ok (take 8 value, 8)).
Definition demo_library : DatabaseBuilder :=
  match add_secondary_index 0 (ss_name by_value) (ss_unique by_value) (ss_encoding by_value) (ss_key_fn by_value) demo_table with
  | Ok b => builder_page_filter ([Byte.x66], fun payload => Ok (flip payload)) b
  | Err _ => demo_table
  end.
Definition library_ops : list (TableId * (list byte * list byte)) :=
  [(0%nat, ([Byte.x62], [Byte.x31])); (0%nat, ([Byte.x63], [Byte.x30])); (0%nat, ([Byte.x61], [Byte.x31]))].
Definition demo_appended := append_all library_ops (demo_library, []).
Definition demo_built := let '(b', faults) := snd demo_appended in build_into b' [] (build_sink b', faults).
Definition demo_data : list byte := f_data (bw_inner (sk_writer (fst (snd demo_built)))).
Definition demo_opened := open_source doubling open_layout None (fun n => n) demo_data demo_options (Some (zlen demo_data)) [ReadShort 7; ReadInterrupted] 1 [].

Lemma demo_made : made demo_library.
Proof.
  apply made_filter; [|reflexivity]. apply (made_index 0 (ss_name by_value) false AsciiEncoding (ss_key_fn by_value) demo_table); [| exact _ | reflexivity | reflexivity | | reflexivity].
  - apply (made_table [] [Byte.x74] AsciiEncoding DatabaseBuilder_new 0%nat); [apply made_new; vm_compute; discriminate | exact _ | reflexivity..].
  - intros key value k [= <-]. cbn [fst]. unfold zlen. rewrite length_take. lia.
Qed.

Lemma demo_ops_fit : ops_fit demo_library library_ops.
Proof. split; [repeat constructor; vm_compute; discriminate | vm_compute; discriminate]. Qed.

Lemma demo_reads : filter_reads None (fun n => n) demo_options demo_library.
Proof. intros f [= <-]. exact flip_inverts. Qed.

Lemma demo_known : encodings_known demo_options demo_library.
Proof. repeat constructor. Qed.

Lemma demo_runs : is_ok (fst demo_appended) = true /\ is_ok (fst demo_built) = true /\
  match demo_opened with Ok (db, s, _) => match db_table db [Byte.x74] with
    | Ok tb => rmap (option_map guard_bytes) (fst (table_get tb [Byte.x61] (mkOpen (cf := db_config db) s))) | _ => Err Error_invalid end | _ => Err Error_invalid end
  = Ok (Some [Byte.x31]).
Proof. vm_compute. auto. Qed.

(** The runs are looked into last. *)
#[local] Strategy 100 [append_all build_into open_source].

Lemma demo_result : exists b' faults1 report sink faults2 db s next',
  demo_appended = (Ok tt, (b', faults1)) /\ build_into b' [] (build_sink b', faults1) = (Ok report, (sink, faults2)) /\
  f_data (bw_inner (sk_writer sink)) = demo_data /\ demo_opened = Ok (db, s, next').
Proof.
  destruct demo_runs as (H1 & H2 & H3).
  assert (demo_built = (let '(b', faults) := snd demo_appended in build_into b' [] (build_sink b', faults))) as Hb by (unfold demo_built; reflexivity).
  assert (demo_data = f_data (bw_inner (sk_writer (fst (snd demo_built))))) as Hd by (unfold demo_data; reflexivity).
  destruct demo_appended as [[[]|e] [b' faults1]]; [|discriminate H1]. cbn [snd] in Hb. rewrite Hb in Hd, H2.
  destruct (build_into b' [] _) as [[report|e] [sink faults2]] eqn:Hrun; [|discriminate H2]. cbn [fst snd] in Hd.
  destruct demo_opened as [[[db s] next']|e]; [|discriminate H3]. exists b', faults1, report, sink, faults2, db, s, next'. auto.
Qed.

Lemma built_file_answers_witness :
  exists db s next' tb, demo_opened = Ok (db, s, next') /\ db_table db [Byte.x74] = Ok tb /\
    (forall key, match fst (table_get tb key (mkOpen (cf := db_config db) s)) with
      | Ok r => appended_answer [([Byte.x62], [Byte.x31]); ([Byte.x63], [Byte.x30]); ([Byte.x61], [Byte.x31])] key (guard_bytes <$> r)
      | Err e => transient e \/ (e = Error_invalid /\ validate_key AsciiEncoding key <> Ok tt)
      end) /\
    rmap (option_map guard_bytes) (fst (table_get tb [Byte.x61] (mkOpen (cf := db_config db) s))) = Ok (Some [Byte.x31]).
Proof.
  destruct demo_result as (b' & faults1 & report & sink & faults2 & db & s & next' & Happ & Hbuild & Hdata & Hres).
  pose proof Hres as Hopen. unfold demo_opened in Hopen. unfold demo_appended in Happ.
  pose proof (built_file_answers doubling open_layout None (fun n => n) demo_options demo_options_ok demo_library library_ops [] b' faults1 []
    report sink faults2 (Some (zlen demo_data)) [ReadShort 7; ReadInterrupted] 1 [] db s next' demo_made demo_ops_fit Happ Hbuild) as H.
  cbv zeta in H. rewrite Hdata in H.
  destruct (H ltac:(vm_compute; reflexivity) (or_intror eq_refl) ltac:(lia) Hopen ltac:(vm_compute; discriminate) demo_reads demo_known
    0%nat _ eq_refl) as (tb & Htb & Hget).
  exists db, s, next', tb. split; [exact Hres|]. split; [exact Htb|]. split; [exact Hget|].
  destruct demo_runs as (_ & _ & Hrun). rewrite Hres in Hrun. change (ts_name _) with [Byte.x74] in Htb. now rewrite Htb in Hrun.
Defined.
