(* ===== verification/BuiltIndex.v ===== *)
(** Secondary indexes of a file that was built, opened again.

    What the builder has put into the tree of an index is, for every row of the
    table, the key of the index and a reference to the row's value; what a cursor
    over the index makes of it is that key and that value.  So a range query over an
    index of the open file shows the rows that were appended, by the order of the
    index. *)

From Stdlib Require Import ZArith Lia.
From stdpp Require Import base list sorting gmap.
From coqutil Require Import Byte.
From S2P Require Import Prelude Errors Format Header PageRef Node Encoding Budget Catalog Page TreePage Btree Query Cursor Index IndexFacts Table.
From S2P Require Import Source Cache Directory Store StoreFacts OpenStore Database DatabaseFacts Effects Sink SinkPages Merger Spool PageWriter TreeWriter.
From S2P Require Import Built BuiltTree Builder BuilderFacts Feeding BuiltTables BuiltDatabase BuiltFile.

#[local] Open Scope Z_scope.
#[local] Open Scope drydb_scope.

(** ** What an index shows *)

Abbreviation row := (list byte * list byte)%type.

(** The row as the index shows it: under the key of the index. *)
Definition indexed (s : SecondarySpec) (r : row) : option row :=
  match ss_key_fn s (fst r) (snd r) with Ok k => Some (fst k, snd r) | Err _ => None end.

(** A record of the sorter of an index, and what it stands for. *)
Definition stands_for (pages : list (list byte)) (r : SpoolRecord) (shown : row) : Prop :=
  rec_key r = fst shown /\ exists ref, rec_value r = PageRef_encode ref /\ reads_as (image_file pages) ref (snd shown).

Lemma index_keys_at secondaries key value : forall ks j s, index_keys secondaries key value = Ok ks -> secondaries !! j = Some s ->
  exists k, ss_key_fn s key value = Ok k /\ ks !! j = Some k.
Proof.
  induction secondaries as [|s0 secondaries IH]; intros ks [|j] s H Hj; try discriminate; cbn [index_keys] in H; inv_ok.
  - injection Hj as <-. eauto.
  - exact (IH _ j s ltac:(eassumption) Hj).
Qed.

(** The entries of an index stand for the rows it shows. *)
Lemma entries_stand secondaries pages j s : secondaries !! j = Some s -> forall done refs, Forall2 (leads_to secondaries pages) done refs ->
  exists shown, omap (fun r => indexed s (rec_key r, rec_value r)) done = shown /\ Forall2 (stands_for pages) (numbered (index_entries j refs)) shown.
Proof.
  intros Hj done refs H. enough (forall n, Forall2 (stands_for pages) (imap (fun i r => mkSpoolRecord (Z.of_nat (n + i)) (fst r) (snd r)) (index_entries j refs))
    (omap (fun r => indexed s (rec_key r, rec_value r)) done)) as Hall by (eexists; split; [reflexivity | exact (Hall 0%nat)]).
  induction H as [|r [ks ref] done refs [Hk Hv] _ IH]; intros n; [constructor|]. cbn [fst snd] in *.
  destruct (index_keys_at _ _ _ ks j s Hk Hj) as (k & Hkey & Hkj). unfold index_entries. cbn [omap list_omap fst snd]. unfold indexed at 1. cbn [fst snd]. rewrite Hkey.
  unfold IndexKey in *. rewrite Hkj. cbn [fmap option_fmap option_map imap]. constructor; [|].
  - split; [reflexivity|]. exists ref. auto.
  - erewrite imap_ext; [exact (IH (S n))|]. intros i x _. cbn. do 2 f_equal. lia.
Qed.

(** The rows an index shows, in the order it keeps them. *)
Definition shows_rows (E : KeyEncoding) `{!LawfulEncoding E} (s : SecondarySpec) (rows shown : list row) : Prop :=
  shown ≡ₚ omap (indexed s) rows /\ Forall (fun r => is_Some (indexed s r)) rows /\ StronglySorted (fun a b => @ord E _ (fst a) (fst b) <> Gt) shown.

Lemma numbered_rows rows : (fun r => (rec_key r, rec_value r)) <$> numbered rows = rows.
Proof.
  apply list_eq. intros i. unfold numbered. rewrite list_lookup_fmap, list_lookup_imap. now destruct (rows !! i) as [[]|].
Qed.

Lemma omap_records {A} (f : row -> option A) (done : list SpoolRecord) : omap (fun r => f (rec_key r, rec_value r)) done = omap f ((fun r => (rec_key r, rec_value r)) <$> done).
Proof. induction done as [|r done IH]; [reflexivity|]. cbn. destruct (f _); [f_equal|]; exact IH. Qed.

Lemma Forall2_same_order {A B} (P : A -> B -> Prop) l l' k : l ≡ₚ l' -> Forall2 P l' k -> exists k', k' ≡ₚ k /\ Forall2 P l k'.
Proof.
  intros Hp H. destruct (Permutation_Forall2 (P := P) (symmetry Hp) H) as (k' & Hk & H'). exists k'. now split.
Qed.

(** The entries the builder makes of the records. *)
Definition index_rows_of (unique : bool) (done : list SpoolRecord) : list (list byte * list byte * unit) :=
  if unique then entry (fun _ => tt) <$> done else composites done.
Definition index_encoding (s : SecondarySpec) : KeyEncoding := if ss_unique s then ss_encoding s else DuplicateKeyEncoding (ss_encoding s).
#[export] Instance index_lawful s `{HS : !LawfulEncoding (ss_encoding s)} : LawfulEncoding (index_encoding s).
Proof. unfold index_encoding. destruct (ss_unique s); exact _. Defined.

(** What the pages hold for an index of a table. *)
Lemma table_in_shows pages spec rows root roots j s r :
  table_in pages spec rows root roots -> ts_secondaries spec !! j = Some s -> roots !! j = Some r ->
  exists HB : Buildable (ss_encoding s), exists done shown, shows_rows (ss_encoding s) s rows shown /\ Forall2 (stands_for pages) done shown /\
    tree_in pages (index_encoding s) r (index_rows_of (ss_unique s) done).
Proof.
  intros (_ & refs & (_ & pdone & Hpp & _ & _ & Hleads) & H3) Hs Hr.
  assert (j < length (ts_secondaries spec))%nat as Hj by (now apply lookup_lt_Some in Hs).
  destruct (Forall3_lookup_l _ _ _ _ _ _ H3 Hs) as (rs & r' & Hrs & Hr' & _ & Ht). injection (eq_trans (eq_sym Hr) Hr') as <-.
  rewrite list_lookup_fmap, lookup_seq_lt in Hrs by exact Hj. injection Hrs as <-. destruct Ht as (HB & done & Hp & Hsort & Ht). cbn [Nat.add] in *.
  destruct (entries_stand _ pages j s Hs pdone refs Hleads) as (shown0 & Hshown0 & Hstand).
  destruct (Forall2_same_order _ _ _ _ Hp Hstand) as (shown & Hperm & Hst). exists HB, done, shown. split; [split; [|split]|split; [exact Hst|]].
  - rewrite Hperm, <- Hshown0, omap_records. apply omap_Permutation. rewrite Hpp. now rewrite numbered_rows.
  - rewrite <- (numbered_rows rows), <- Hpp. apply Forall_fmap. eapply Forall2_Forall_l; [exact Hleads|]. apply Forall_forall. intros [ks ref] _ d [Hk _].
    destruct (index_keys_at _ _ _ ks j s Hk Hs) as (k & Hkey & _). unfold compose, indexed. cbn [fst snd]. rewrite Hkey. eauto.
  - clear -Hst Hsort. induction Hst as [|d k done shown [Hd _] Hst IH]; [constructor|]. apply StronglySorted_inv in Hsort as [Hsort Hle]. constructor; [now apply IH|].
    eapply Forall2_Forall_r; [exact Hst|]. eapply Forall_impl; [exact Hle|]. intros d' Hdd' y [Hy _]. rewrite <- Hd, <- Hy. now apply rec_le_ord.
  - unfold index_rows_of, index_encoding. unfold index_lawful, index_encoding. destruct (ss_unique s); [exact (proj2 Ht) | exact Ht].
Qed.

(** ** Entries of the tree *)

(** The key a caller sees for a key of the tree. *)
Definition shown_key (unique : bool) (k : list byte) : list byte := if unique then k else dup_source k.

Lemma index_rows_lookup unique done i e : index_rows_of unique done !! i = Some e ->
  exists r, done !! i = Some r /\ row_value e = rec_value r /\ shown_key unique (row_key e) = rec_key r.
Proof.
  unfold index_rows_of. destruct unique; intros He.
  - rewrite list_lookup_fmap in He. destruct (done !! i) as [r|]; [|discriminate]. injection He as <-. eauto.
  - unfold composites in He. rewrite list_lookup_imap in He. destruct (done !! i) as [r|]; [|discriminate]. injection He as <-. exists r.
    split; [reflexivity|]. split; [reflexivity|]. apply dup_source_encode.
Qed.

Lemma length_index_rows unique done : length (index_rows_of unique done) = length done.
Proof. unfold index_rows_of. destruct unique; [apply length_fmap | apply length_imap]. Qed.

Lemma image_file_range pages o bytes : image_file pages o = Some bytes -> 0 <= o < zlen pages.
Proof.
  unfold image_file, get_at. destruct (Z.leb_spec 0 o); [|discriminate]. intros Hl%lookup_lt_Some. unfold zlen. lia.
Qed.

Section Entries.
Context (file : PageOrdinal -> option (list byte)) (pages : list (list byte)) (Hshows : shows_pages file pages) (Hcount : zlen pages <= i32_max).

(** An entry whose value is a reference leads to the record it was made for. *)
Lemma entry_record (en : Entry) raw ref value overflow :
  holds_value (file := file) en raw overflow -> raw = PageRef_encode ref -> reads_as (image_file pages) ref value ->
  forall v, record_of (file := file) en v <-> v = value.
Proof.
  intros Hraw -> (bytes & Hb & Hv & Hlen & Hstart & Hend) v. pose proof (image_file_range _ _ _ Hb) as Hrange. pose proof (Hshows _ _ Hb) as Hfile.
  pose proof (zlen_nonneg value) as H0.
  assert (PageRef_wf ref) as Hwf by (split; unfold_consts; unfold i32_max in *; lia).
  assert (PageRef_parse (PageRef_encode ref) = Ok ref) as Hparse.
  { rewrite <- (app_nil_r (PageRef_encode ref)). apply PageRef_parse_encode; [exact Hwf | vm_compute; discriminate]. }
  assert (PageRef_range ref (zlen bytes) = Ok (pr_start ref, pr_start ref + pr_length ref)) as Hpr.
  { unfold PageRef_range. rewrite checked_add_ok by (unfold usize_max, u64_max; unfold_consts; unfold i32_max in *; lia). cbn [ok_or rbind].
    rewrite (proj2 (Z.ltb_ge _ _)) by lia. cbn [rbind]. now rewrite (proj2 (Z.ltb_ge _ _)) by lia. }
  split.
  - intros (raw' & o' & r' & bytes' & start & stop & Hraw' & _ & Hp' & Hf' & Hr' & ->).
    rewrite <- (holds_value_unique _ _ _ _ _ _ Hraw Hraw') in Hp'. rewrite Hparse in Hp'. injection Hp' as <-. rewrite Hfile in Hf'. injection Hf' as <-.
    rewrite Hpr in Hr'. injection Hr' as <- <-. rewrite <- Hv. f_equal. lia.
  - intros ->. exists (PageRef_encode ref), overflow, ref, bytes, (pr_start ref), (pr_start ref + pr_length ref).
    repeat split; auto. rewrite <- Hv. f_equal. lia.
Qed.

(** What a cursor makes of an entry. *)
Definition tells (unique : bool) (en : Entry) (shown : row) : Prop :=
  shown_key unique (en_key en) = fst shown /\ forall v, record_of (file := file) en v <-> v = snd shown.

Lemma entries_tell unique done shown leaves :
  Forall2 (stores file) (index_rows_of unique done) (entries leaves) -> Forall2 (stands_for pages) done shown ->
  Forall2 (tells unique) (entries leaves) shown.
Proof.
  intros Hst Hsh. apply Forall2_same_length_lookup_2.
  { rewrite <- (Forall2_length _ _ _ Hst), length_index_rows. exact (Forall2_length _ _ _ Hsh). }
  intros i en kv Hen Hkv. destruct (Forall2_lookup_r _ _ _ _ _ Hst Hen) as (e & He & Hk & overflow & Hv).
  destruct (index_rows_lookup _ _ _ _ He) as (r & Hr & Hval & Hkey). destruct (Forall2_lookup_lr _ _ _ _ _ _ Hsh Hr Hkv) as (Hrk & ref & Href & Hreads).
  split; [rewrite Hk, Hkey; exact Hrk|]. rewrite Hval in Hv. exact (entry_record en _ ref _ overflow Hv Href Hreads).
Qed.
End Entries.

(** ** Scans *)

Lemma Forall2_filter {A B} (P : A -> B -> Prop) (f : A -> bool) (g : B -> bool) l k :
  Forall2 P l k -> (forall x y, P x y -> f x = g y) -> Forall2 P (List.filter f l) (List.filter g k).
Proof. intros H Hfg. induction H as [|x y l k Hxy _ IH]; [constructor|]. cbn. rewrite (Hfg _ _ Hxy). destruct (g y); auto. Qed.

Lemma Forall2_scan_order {A B} (P : A -> B -> Prop) o l k : Forall2 P l k -> Forall2 P (scan_order o l) (scan_order o k).
Proof. destruct o; cbn; auto. intros H. rewrite !rev_alt. exact (Forall2_reverse _ _ _ H). Qed.

(** The rows a range selects, in the order asked for. *)
Definition in_order (E : KeyEncoding) `{!LawfulEncoding E} (o : Order) (lower upper : Bound) (shown : list row) : list row :=
  scan_order o (List.filter (fun r => in_range (@ord E _) (KeyRange_from_bounds lower upper) (fst r)) shown).

(** A row a cursor has handed out, as bytes. *)
Definition row_bytes (r : list byte * ValueGuard) : row := (fst r, guard_bytes (snd r)).

Section Scan.
Context {Store : Type} {TS : TreeStore Store} {CS : CursorStore Store}.
Context {file : PageOrdinal -> option (list byte)} {page_count max_depth : Z}.
Context {SL : StoreLaws Store file page_count max_depth} {CL : CursorLaws Store SL}.
Context (ix : IndexInner) {HS : LawfulEncoding (ix_source_encoding ix)} {HC : CheckableEncoding (ix_source_encoding ix)}.
Abbreviation t := (ix_tree ix).
Context {HL : LawfulEncoding (tree_encoding t)} {Hkeys : KeysReadable (tree_encoding t)} {IK : IndexKeys ix} (Hid : 1 <= tree_id t).

(** A scan of an index whose entries tell rows hands out those rows. *)
Lemma index_scan_shows unique h root leaves shown :
  well_formed (file := file) (page_count := page_count) (max_depth := max_depth) t h root leaves -> settled leaves -> readable (file := file) leaves ->
  (forall k, source_key k = shown_key unique k) -> Forall2 (tells file unique) (entries leaves) shown ->
  forall fuel lower upper o s, (length shown < fuel)%nat -> tree_inv t s ->
  match fst (index_rows fuel ix lower upper o s) with
  | Ok out => exists rows, out = Some rows /\ row_bytes <$> rows = in_order (ix_source_encoding ix) o lower upper shown
  | Err e => scan_error (SL := SL) e \/ (e = Error_invalid /\ bad_source_bounds ix lower upper)
  end.
Proof.
  intros Hwf Hset Hread Hsk Htells fuel lower upper o s Hfuel Hs.
  assert (forall e, e ∈ entries leaves -> exists value, record_of (file := file) e value) as Hrefs.
  { intros e (i & Hi)%list_elem_of_lookup. destruct (Forall2_lookup_l _ _ _ _ _ Htells Hi) as (kv & _ & _ & Hr). exists (snd kv). now apply Hr. }
  assert (Forall2 (tells file unique) (rows_selected ix leaves o lower upper) (in_order (ix_source_encoding ix) o lower upper shown)) as Hsel.
  { apply Forall2_scan_order, Forall2_filter; [exact Htells|]. intros en kv [Hk _]. now rewrite Hsk, Hk. }
  assert (length (rows_selected ix leaves o lower upper) < fuel)%nat as Hf.
  { rewrite (Forall2_length _ _ _ Hsel). eapply Nat.le_lt_trans; [|exact Hfuel]. unfold in_order.
    destruct o; cbn [scan_order]; rewrite ?length_rev; apply List.filter_length_le. }
  destruct (index_rows_spec ix Hid h root leaves Hwf Hset Hread Hrefs fuel lower upper o Hf s Hs) as [_ H].
  destruct (fst _) as [out|e]; [|exact H]. destruct H as (rows & -> & Hrows). exists rows. split; [reflexivity|].
  apply list_eq_Forall2, Forall2_fmap_l. apply Forall2_same_length_lookup_2.
  { now rewrite (Forall2_length _ _ _ Hrows), (Forall2_length _ _ _ Hsel). }
  intros i [k g] kv Hi Hkv. destruct (Forall2_lookup_l _ _ _ _ _ Hrows Hi) as (en & Hen & Hk & Hg). destruct (Forall2_lookup_lr _ _ _ _ _ _ Hsel Hen Hkv) as [Hk' Hr].
  cbn in *. unfold row_bytes. cbn. rewrite Hk, Hsk, Hk'. apply Hr in Hg. rewrite Hg. now destruct kv.
Qed.
End Scan.

(** ** Of an open file *)

(** An encoding that calls only a key itself equal to it. *)
Definition compares_exactly (E : KeyEncoding) : Prop := forall a b, ke_compare E a b = Ok Eq -> a = b.

(** Bounds that are no keys, or the wrong way round. *)
Definition refused_bounds (E : KeyEncoding) `{!LawfulEncoding E} (lower upper : Bound) : Prop :=
  (exists k, (bound_key lower = Some k \/ bound_key upper = Some k) /\ validate_key E k <> Ok tt) \/
  (exists lo hi, bound_key lower = Some lo /\ bound_key upper = Some hi /\ @ord E _ lo hi = Gt).

Section Opened.
Context {PL : PageLimit} {VA : VecAlloc} {VL : VecLaws VA}.
Context (alloc : StdAlloc) (lay : Layout) (zstd : option PageFilter) (vec_capacity : Z -> Z) (o : OpenOptions).

(** What a scan over an index of a table promises. *)
Definition scan_shows (db : Database) (s : Store) (x : SecondarySpec) (ix : IndexInner) `{!LawfulEncoding (ss_encoding x)} (shown : list row) : Prop :=
  forall fuel lower upper order, (length shown < fuel)%nat ->
  match fst (index_rows fuel ix lower upper order (mkOpen (cf := db_config db) s)) with
  | Ok out => exists rows, out = Some rows /\ row_bytes <$> rows = in_order (ss_encoding x) order lower upper shown
  | Err e => transient e \/ (e = Error_invalid /\ refused_bounds (ss_encoding x) lower upper)
  end.

Lemma opened_scan next db s next' data x ix h root leaves shown {HB : Buildable (ss_encoding x)} :
  opened alloc lay zstd vec_capacity data o next db s next' -> 1 <= next -> ix_tree ix ∈ db_trees (db_tables db) ->
  ix_source_encoding ix = ss_encoding x -> tree_encoding (ix_tree ix) = index_encoding x -> tree_root (ix_tree ix) = Some root ->
  id_root (ix_descriptor ix) = Some root -> id_is_unique (ix_descriptor ix) = ss_unique x -> (ss_unique x = false -> compares_exactly (ss_encoding x)) ->
  (forall id validate, well_formed (file := file_page (db_config db)) (page_count := cf_page_count (db_config db))
     (max_depth := limit_tree_depth (cf_limits (db_config db))) (mkTree (Some root) (index_encoding x) id validate) h root leaves) ->
  settled leaves -> readable (file := file_page (db_config db)) leaves ->
  Forall2 (tells (file_page (db_config db)) (ss_unique x)) (entries leaves) shown ->
  scan_shows db s x ix shown.
Proof.
  intros Hop Hnext Hmem Hsource Henc Hroot Hdroot Hu Hexact Hwf Hset Hread Htells fuel lower upper order Hfuel.
  pose proof (op_fits _ _ _ _ _ _ _ _ _ _ Hop) as Hfits. pose proof (op_trees _ _ _ _ _ _ _ _ _ _ Hop Hfits _ Hmem) as Hinv.
  pose proof (opened_tree_id _ _ _ _ _ _ _ _ _ _ Hop Hnext _ Hmem) as Hid.
  destruct ix as [d [root0 E0 id validate] S]. cbn [ix_tree ix_descriptor ix_source_encoding tree_encoding tree_root] in *. subst root0 E0 S.
  specialize (Hwf id validate). rewrite <- Hdroot in *. unfold index_encoding, index_lawful in *. destruct (ss_unique x) eqn:Hux.
  - pose proof (index_scan_shows (SL := Open_laws (db_config db) Hfits) (CL := Open_cursor_laws _ Hfits) (unique_index d (ss_encoding x) id validate)
      (IK := unique_keys d (ss_encoding x) id validate Hu) Hid true h root leaves shown Hwf Hset Hread (fun _ => eq_refl) Htells fuel lower upper order _ Hfuel Hinv) as H.
    destruct (fst _) as [out|e]; [exact H|]. destruct H as [He|He]; [left; exact (scan_error_transient _ Hfits e He) | right; exact He].
  - assert (CompareExact (ss_encoding x)) as HE by (intros a c _; exact (Hexact eq_refl a c)).
    pose proof (index_scan_shows (SL := Open_laws (db_config db) Hfits) (CL := Open_cursor_laws _ Hfits) (composite_index d (ss_encoding x) id validate)
      (IK := composite_keys d (ss_encoding x) id validate Hu) Hid false h root leaves shown Hwf Hset Hread (fun _ => eq_refl) Htells fuel lower upper order _ Hfuel Hinv) as H.
    destruct (fst _) as [out|e]; [exact H|]. destruct H as [He|He]; [left; exact (scan_error_transient _ Hfits e He) | right; exact He].
Qed.

(** A database opened over a file that a build has left shows the rows through the
    indexes of every table. *)
Lemma held_shows b rowss data page_count next db s next' :
  options_ok lay zstd o -> 64 <= limit_tree_depth (oo_limits o) ->
  names_ok b -> descriptors_fit b -> MIN_PAGE_SIZE <= bd_page_size b <= max_page ->
  filter_reads zstd vec_capacity o b -> encodings_known o b ->
  file_holds b rowss data page_count -> zlen data < 2 ^ 63 -> 1 <= next ->
  opened alloc lay zstd vec_capacity data o next db s next' ->
  forall i spec rows j x, bd_tables b !! i = Some spec -> rowss !! i = Some rows -> ts_secondaries spec !! j = Some x ->
  (ss_unique x = false -> compares_exactly (ss_encoding x)) ->
  exists tb ix, db_table db (ts_name spec) = Ok tb /\ table_index tb (ss_name x) = Ok ix /\
    exists HB : Buildable (ss_encoding x), exists shown, shows_rows (ss_encoding x) x rows shown /\ scan_shows db s x ix shown.
Proof.
  intros Hok Hdepth Hnames Hfit Hps Hreads Hknown (rs & pages & stored & -> & Hst & Hck & Hin & -> & Hcount) Hdata Hnext Hop i spec rows j x Hs Hrows Hj Hexact.
  destruct (Forall3_lookup_l _ _ _ _ _ _ Hin Hs) as (rows' & r & Hrows' & Hr & Ht). rewrite Hrows in Hrows'. injection Hrows' as <-.
  pose proof (table_in_roots _ _ _ _ Ht) as Hroots. unfold roots_for in Hroots.
  destruct (lookup_lt_is_Some_2 (snd r) j) as [root Hroot]; [rewrite Hroots; now apply lookup_lt_Some in Hj|].
  destruct (table_in_shows _ _ _ _ _ _ _ _ Ht Hj Hroot) as (HB & done & shown & Hshown & Hstand & Htree).
  destruct (opened_index alloc lay zstd vec_capacity o Hok b rowss Hnames Hfit Hps rs pages stored Hst Hin Hcount Hdata next db s next' Hop Hknown
    i spec r j x root Hs Hr Hj Hroot) as (tb & ix & Htb & Hix & Hmem & Hsource & Henc & Htroot & Hdroot & Hu).
  exists tb, ix. split; [exact Htb|]. split; [exact Hix|]. exists HB, shown. split; [exact Hshown|].
  destruct (opened_tree alloc lay zstd vec_capacity o Hok b rowss Hnames Hfit Hps rs pages stored Hst Hck Hin Hcount Hdata next db s next' Hop Hreads
    _ _ _ _ Htree) as (h & leaves & Hwf & Hset & Hread & Hstores).
  destruct (opened_shows alloc lay zstd vec_capacity o Hok b rowss Hnames Hfit Hps rs pages stored Hst Hck Hin Hcount Hdata next db s next' Hop Hreads) as [_ Hshows].
  assert (limit_tree_depth (cf_limits (db_config db)) = limit_tree_depth (oo_limits o)) as Hl by (destruct (op_config _ _ _ _ _ _ _ _ _ _ Hop) as (f & _ & ->); reflexivity).
  apply (opened_scan next db s next' _ x ix h root leaves shown Hop Hnext Hmem Hsource Henc Htroot Hdroot Hu Hexact); auto.
  - intros id validate. rewrite Hl. now apply Hwf.
  - exact (entries_tell _ pages Hshows Hcount _ done shown leaves Hstores Hstand).
Qed.

Context (Hok : options_ok lay zstd o).

(** C2: what is appended to a builder and built is what the indexes of the file show,
    under the conditions of [built_file_answers]: tables and indexes declared first, with
    lawful encodings, pages of at most max_page bytes and index keys under 4 GiB; rows
    appended to them with no value longer than max_page - 28 bytes; and options that know
    the encodings, undo the filter, admit trees of 64 levels and every page up to
    max_page.  When everything succeeds, take any index that is unique, or whose encoding
    compares only identical keys as equal.  It can be found by its name, and there is one
    sequence of rows, the table's rows each under the key its index function gives it, in
    the order of these keys, that every range query shows a part of: it hands out exactly
    the rows whose key lies between the bounds, ascending or descending, duplicates
    included.  The only errors are I/O errors and refused reservations, and bounds that
    are no keys or the wrong way round. *)
Theorem built_index_answers b ops faults b' faults1 scratch report sink faults2 size reads next env db s next' :
  made b -> ops_fit b ops ->
  append_all ops (b, faults) = (Ok tt, (b', faults1)) ->
  build_into b' scratch (build_sink b', faults1) = (Ok report, (sink, faults2)) ->
  let data := f_data (bw_inner (sk_writer sink)) in
  zlen data < 2 ^ 63 -> size = None \/ size = Some (zlen data) -> 1 <= next ->
  open_source alloc lay zstd vec_capacity data o size reads next env = Ok (db, s, next') ->
  64 <= limit_tree_depth (oo_limits o) -> filter_reads zstd vec_capacity o b -> encodings_known o b ->
  forall i spec j x, bd_tables b !! i = Some spec -> ts_secondaries spec !! j = Some x ->
  (ss_unique x = false -> compares_exactly (ss_encoding x)) ->
  exists tb ix, db_table db (ts_name spec) = Ok tb /\ table_index tb (ss_name x) = Ok ix /\
    exists HB : Buildable (ss_encoding x), exists shown, shown ≡ₚ omap (indexed x) (appended_to i ops) /\
      Forall (fun r => is_Some (indexed x r)) (appended_to i ops) /\ StronglySorted (fun a b => @ord (ss_encoding x) _ (fst a) (fst b) <> Gt) shown /\
      forall fuel lower upper order, (length shown < fuel)%nat ->
      match fst (index_rows fuel ix lower upper order (mkOpen (cf := db_config db) s)) with
      | Ok out => exists rows, out = Some rows /\ row_bytes <$> rows = in_order (ss_encoding x) order lower upper shown
      | Err e => transient e \/ (e = Error_invalid /\ refused_bounds (ss_encoding x) lower upper)
      end.
Proof.
  intros Hmade Hops Happ Hbuild data Hdata Hsize Hnext Hopen Hdepth Hreads Hknown i spec j x Hi Hj Hexact.
  destruct (session_leaves b ops faults b' faults1 scratch report sink faults2 Hmade Hops Happ Hbuild) as [Hre Hps Hdf (page_count & Hholds)].
  pose proof (open_source_opened alloc lay zstd vec_capacity data o Hok Hdata _ _ _ _ _ _ _ Hsize Hnext Hopen) as Hop.
  destruct (Forall2_lookup_l _ _ _ _ _ (proj1 Hre) Hi) as (spec' & Hi' & Hsp).
  assert (ts_secondaries spec' !! j = Some x) as Hj' by (rewrite Hsp; exact Hj).
  destruct (held_shows b' _ data _ next db s next' Hok Hdepth (refilled_names b b' Hre (md_names _ Hmade)) Hdf
    Hps (refilled_reads zstd vec_capacity o b b' Hre Hreads) (refilled_known o b b' Hre Hknown) Hholds Hdata Hnext Hop
    i spec' (appended_to i ops) j x Hi' (collected ops _ i [] (made_rows b i spec Hi)) Hj' Hexact) as (tb & ix & Htb & Hix & HB & shown & (Hp & Hall & Hsort) & Hscan).
  rewrite Hsp in Htb. exists tb, ix. split; [exact Htb|]. split; [exact Hix|]. exists HB, shown.
  split; [exact Hp|]. split; [exact Hall|]. split; [exact Hsort | exact Hscan].
Qed.
End Opened.

(** * On concrete input *)

#[local] Instance exact_alloc : VecAlloc := {| vec_extend := Z.max; vec_shrink := fun _ n => n |}.
#[local] Instance exact_laws : VecLaws exact_alloc.
Proof. split; [reflexivity | cbn; lia]. Qed.

(** The rows of a scan by value, as bytes: those with the value asked for. *)
Definition demo_scan : Result (option (list row)) :=
  match demo_opened with
  | Ok (db, s, _) =>
      match db_table db [Byte.x74] with
      | Ok tb => match table_index tb [Byte.x69] with
        | Ok ix => rmap (option_map (map row_bytes)) (fst (index_rows 4 ix (Included [Byte.x31]) Unbounded Descending (mkOpen (cf := db_config db) s)))
        | Err e => Err e
        end
      | Err e => Err e
      end
  | Err _ => Err Error_invalid
  end.

Example demo_scan_runs : demo_scan = Ok (Some [([Byte.x31], [Byte.x31]); ([Byte.x31], [Byte.x31])]).
Proof. vm_compute. reflexivity. Qed.

#[local] Strategy 100 [append_all build_into open_source].

Lemma built_index_answers_witness :
  exists db s next' tb ix, demo_opened = Ok (db, s, next') /\ db_table db [Byte.x74] = Ok tb /\ table_index tb [Byte.x69] = Ok ix /\
    exists HB : Buildable AsciiEncoding, exists shown, shown ≡ₚ [([Byte.x31], [Byte.x31]); ([Byte.x30], [Byte.x30]); ([Byte.x31], [Byte.x31])] /\
    match fst (index_rows 4 ix (Included [Byte.x31]) Unbounded Descending (mkOpen (cf := db_config db) s)) with
    | Ok out => exists rows, out = Some rows /\ row_bytes <$> rows = @in_order AsciiEncoding (@bl_lawful _ HB) Descending (Included [Byte.x31]) Unbounded shown
    | Err e => transient e \/ (e = Error_invalid /\ @refused_bounds AsciiEncoding (@bl_lawful _ HB) (Included [Byte.x31]) Unbounded)
    end.
Proof.
  destruct demo_result as (b' & faults1 & report & sink & faults2 & db & s & next' & Happ & Hbuild & Hdata & Hres).
  pose proof Hres as Hopen. unfold demo_opened in Hopen. unfold demo_appended in Happ.
  pose proof (built_index_answers doubling open_layout None (fun n => n) demo_options demo_options_ok demo_library library_ops [] b' faults1 []
    report sink faults2 (Some (zlen demo_data)) [ReadShort 7; ReadInterrupted] 1 [] db s next' demo_made demo_ops_fit Happ Hbuild) as H.
  cbv zeta in H. rewrite Hdata in H.
  destruct (H ltac:(vm_compute; reflexivity) (or_intror eq_refl) ltac:(lia) Hopen ltac:(vm_compute; discriminate) demo_reads demo_known
    0%nat _ 0%nat by_value eq_refl eq_refl) as (tb & ix & Htb & Hix & HB & shown & Hp & _ & _ & Hscan).
  { intros _ a c [= Hac]. now apply (cmp_eq _ _ bytes_CmpOrder) in Hac. }
  exists db, s, next', tb, ix. split; [exact Hres|]. split; [exact Htb|]. split; [exact Hix|]. exists HB, shown. split; [exact Hp|].
  refine (Hscan 4%nat (Included [Byte.x31]) Unbounded Descending _). rewrite Hp. vm_compute. lia.
Defined.
