(* ===== verification/Verify.v ===== *)
(** Verification of a file, [crates/drydb/src/verify.rs].

    The pass walks every tree level by level along the sibling chains and matches
    each level against the children the level above declares.  What it finds goes
    into a report; what keeps it from looking stops it.  The text of a problem is
    left out, what it costs is not.

    Reservations and pages that go out of scope are given back in the source;
    the interface of the store the walk is written against has no operation for
    it, as in [Cursor.v]. *)

From Stdlib Require Import ZArith Lia.
From stdpp Require Import base list sorting gmap.
From coqutil Require Import Byte.
From S2P Require Import Prelude Errors Format PageRef Node Encoding Budget Page TreePage Btree Cursor.

#[local] Open Scope Z_scope.
#[local] Open Scope drydb_scope.

Record VerifyOptions : Type := mkVerifyOptions {
  vo_check_pages : bool;
  vo_check_trees : bool;
  vo_max_problems : Z;
}.

Definition VerifyOptions_default : VerifyOptions := mkVerifyOptions true true 100.

(** A problem and the page it was found on. *)
Record VerifyProblem : Type := mkVerifyProblem { vp_page : option PageOrdinal }.

Record VerifyReport : Type := mkVerifyReport {
  vr_pages_checked : Z;
  vr_entries_checked : Z;
  vr_trees_checked : Z;
  vr_problems : list VerifyProblem;
  vr_truncated : bool;
}.

Definition VerifyReport_default : VerifyReport := mkVerifyReport 0 0 0 [] false.

Definition is_ok (r : VerifyReport) : bool :=
  match vr_problems r with [] => negb (vr_truncated r) | _ => false end.

Definition MAX_PROBLEM_MESSAGE : Z := 512.
Definition PROBLEM_OVERHEAD : Z := 256.

(** * Pages that hold overflowed values: a bit per page of the file *)

Definition OverflowPages : Type := list Z.

Definition OverflowPages_empty (page_count : Z) : OverflowPages :=
  replicate (Z.to_nat (div_ceil page_count 64)) 0.

Definition overflow_insert (page : PageOrdinal) (bits : OverflowPages) : OverflowPages :=
  match bits !! Z.to_nat (page / 64) with
  | Some word => <[Z.to_nat (page / 64) := Z.lor word (Z.shiftl 1 (page mod 64))]> bits
  | None => bits
  end.

Definition overflow_contains (page : PageOrdinal) (bits : OverflowPages) : bool :=
  match bits !! Z.to_nat (page / 64) with
  | Some word => negb (Z.land word (Z.shiftl 1 (page mod 64)) =? 0)
  | None => false
  end.

(** What a tree's leaves hold in the value position. *)
Inductive ValueKind : Type :=
| PlainValues
| RecordValues
| ReferenceValues (primary : Tree).

(** What a parent says one of its children starts at. *)
Inductive Separator : Type :=
| SepKey (key : list byte)
| SepDigest (digest : Z).

Record LowerChain : Type := mkLowerChain {
  lc_current : option PageOrdinal;
  lc_started : bool;
  lc_steps_left : Z;
  lc_broken : bool;
}.

Definition LowerChain_new (steps_left : Z) : LowerChain := mkLowerChain None false steps_left false.

(** A key buffer with its capacity and the reservation for it. *)
Record KeyBuf : Type := mkKeyBuf { kb_bytes : list byte; kb_capacity : Z; kb_charge : Z }.

(** * The reporter *)

(** The report and what it has cost, what stopped the pass, the overflow pages
    of the table, and the store. *)
Record Reporter (Store : Type) : Type := mkReporter {
  rp_report : VerifyReport;
  rp_charge : Z;
  rp_failure : option Error;
  rp_overflow : OverflowPages;
  rp_store : Store;
}.
Arguments mkReporter {Store}.
Arguments rp_report {Store}.
Arguments rp_charge {Store}.
Arguments rp_failure {Store}.
Arguments rp_overflow {Store}.
Arguments rp_store {Store}.

Section Report.
Context {Store : Type} `{!TreeStore Store} `{!CursorStore Store} (options : VerifyOptions).
Abbreviation VM A := (SM (Reporter Store) Error A).

(** [m?] on the store, and [match m { Ok .. Err .. }] on it. *)
Definition in_store {A} (m : SM Store Error A) : VM A := fun s =>
  let '(r, st) := m (rp_store s) in
  (r, mkReporter (rp_report s) (rp_charge s) (rp_failure s) (rp_overflow s) st).
Definition attempt {A} (m : SM Store Error A) : VM (Result A) := fun s =>
  let '(r, st) := m (rp_store s) in
  (Ok r, mkReporter (rp_report s) (rp_charge s) (rp_failure s) (rp_overflow s) st).

Definition on_report (f : VerifyReport -> VerifyReport) : VM unit :=
  smodify (fun s => mkReporter (f (rp_report s)) (rp_charge s) (rp_failure s) (rp_overflow s) (rp_store s)).

Definition set_truncated (r : VerifyReport) : VerifyReport :=
  mkVerifyReport (vr_pages_checked r) (vr_entries_checked r) (vr_trees_checked r) (vr_problems r) true.
Definition add_problem (p : VerifyProblem) (r : VerifyReport) : VerifyReport :=
  mkVerifyReport (vr_pages_checked r) (vr_entries_checked r) (vr_trees_checked r) (vr_problems r ++ [p]) (vr_truncated r).
Definition count_page (r : VerifyReport) : VerifyReport :=
  mkVerifyReport (vr_pages_checked r + 1) (vr_entries_checked r) (vr_trees_checked r) (vr_problems r) (vr_truncated r).
Definition count_entry (r : VerifyReport) : VerifyReport :=
  mkVerifyReport (vr_pages_checked r) (vr_entries_checked r + 1) (vr_trees_checked r) (vr_problems r) (vr_truncated r).
Definition count_tree (r : VerifyReport) : VerifyReport :=
  mkVerifyReport (vr_pages_checked r) (vr_entries_checked r) (vr_trees_checked r + 1) (vr_problems r) (vr_truncated r).

Definition stops_the_pass (e : Error) : bool :=
  bool_decide (err_kind e = BudgetExceeded) || bool_decide (err_kind e = Io).

Definition stopped : VM bool := let! s := sget in sret (bool_decide (is_Some (rp_failure s))).

Definition full : VM bool :=
  let! stop := stopped in
  let! s := sget in
  sret (stop || (vo_max_problems options <=? zlen (vr_problems (rp_report s)))).

Definition problem (page : option PageOrdinal) : VM unit :=
  let! is_full := full in
  if is_full then on_report set_truncated
  else
    let! room := attempt (cs_reserve (MAX_PROBLEM_MESSAGE + PROBLEM_OVERHEAD)) in
    match room with
    | Ok more =>
        let! _ := smodify (fun s => mkReporter (rp_report s) (rp_charge s + more) (rp_failure s) (rp_overflow s) (rp_store s)) in
        on_report (add_problem (mkVerifyProblem page))
    | Err _ => on_report set_truncated
    end.

(** [failed] and [failed_with] *)
Definition failed (page : option PageOrdinal) (e : Error) : VM unit :=
  if stops_the_pass e then
    smodify (fun s => mkReporter (rp_report s) (rp_charge s) (Some (default e (rp_failure s))) (rp_overflow s) (rp_store s))
  else problem page.

(** ** Buffers, [crates/drydb/src/query.rs] *)

Definition kb_at_least (bytes : Z) (kb : KeyBuf) : SM Store Error KeyBuf :=
  let wanted := saturating_add bytes BUFFER_OVERHEAD in
  if wanted <=? kb_charge kb then sret kb
  else
    let! more := cs_reserve (wanted - kb_charge kb) in
    sret (mkKeyBuf (kb_bytes kb) (kb_capacity kb) (kb_charge kb + more)).

(** A buffer whose reservation fails is dropped with the walk that fails. *)
Definition kb_written (kb : KeyBuf) : SM Store Error KeyBuf := kb_at_least (kb_capacity kb) kb.

Definition kb_room (len : Z) (kb : KeyBuf) : SM Store Error KeyBuf :=
  if len <=? kb_capacity kb then sret kb
  else
    let! kb := kb_at_least len kb in
    kb_written (mkKeyBuf [] (cs_capacity len) (kb_charge kb)).

Definition kb_clear (kb : KeyBuf) : KeyBuf := mkKeyBuf [] (kb_capacity kb) (kb_charge kb).

(** [charge_buffer(..)?; previous_key.clear(); previous_key.extend_from_slice(key)] *)
Definition kb_assign (key : list byte) (kb : KeyBuf) : VM KeyBuf :=
  let! kb := in_store (kb_room (zlen key) kb) in
  sret (mkKeyBuf key (kb_capacity kb) (kb_charge kb)).
End Report.

Section Walk.
Context {Store : Type} `{!TreeStore Store} `{!CursorStore Store} (options : VerifyOptions) (t : Tree).
Abbreviation VM A := (SM (Reporter Store) Error A).
Abbreviation E := (tree_encoding t).
Abbreviation problem := (problem options).
Abbreviation failed := (failed options).
Abbreviation full := (full options).

Definition walk_page (ordinal : PageOrdinal) : VM (option PagePin) :=
  let! r := attempt (ts_page ordinal) in
  match r with
  | Ok pin => sret (Some pin)
  | Err e => let! _ := failed (Some ordinal) e in sret None
  end.

Definition check_page_digests (view : PageView) (ordinal : PageOrdinal) : VM unit :=
  match check_digests E view with
  | Ok _ => sret tt
  | Err e => failed (Some ordinal) e
  end.

Definition file_pages : VM Z := let! s := sget in sret (ts_page_count (rp_store s)).

(** * A level against the level above *)

Definition first_digest (view : PageView) : Result Z :=
  if negb (eytzinger (view_layout view)) then digest_at view 0
  else digest_slot view (leftmost 64 (digest_slot_count view) 1 - 1).

Definition check_separator (child_view : PageView) (separator : Separator) (child parent : PageOrdinal) : VM unit :=
  if entry_count child_view =? 0 then problem (Some child)
  else
    let child_key := if omitted_keys (view_layout child_view) then Ok None
                     else rmap Some (entry_key child_view 0) in
    match child_key with
    | Err e => failed (Some child) e
    | Ok child_key =>
        match first_digest child_view with
        | Err e => failed (Some child) e
        | Ok child_digest =>
            match separator with
            | SepKey key =>
                match child_key with
                | Some first => if bool_decide (first = key) then sret tt else problem (Some parent)
                | None =>
                    match ke_accepts_digest E key child_digest with
                    | Ok true => sret tt
                    | Ok false => problem (Some parent)
                    | Err e => failed (Some parent) e
                    end
                end
            | SepDigest digest => if digest =? child_digest then sret tt else problem (Some parent)
            end
        end
    end.

(** [LowerChain::expect] *)
Definition lower_expect (lc : LowerChain) (child parent : PageOrdinal) (separator : Separator) : VM LowerChain :=
  let broken lc := mkLowerChain (lc_current lc) (lc_started lc) (lc_steps_left lc) true in
  if lc_broken lc then sret lc
  else
    let lc := if lc_started lc then lc else mkLowerChain (Some child) true (lc_steps_left lc) (lc_broken lc) in
    match lc_current lc with
    | None => let! _ := problem (Some parent) in sret (broken lc)
    | Some current =>
        if negb (current =? child) then let! _ := problem (Some parent) in sret (broken lc)
        else if lc_steps_left lc =? 0 then let! _ := problem (Some child) in sret (broken lc)
        else
          let stop := mkLowerChain None (lc_started lc) (lc_steps_left lc - 1) true in
          let! r := attempt (ts_page child) in
          match r with
          | Err e => let! _ := failed (Some child) e in sret stop
          | Ok pin =>
              match pin_view pin with
              | Err e => let! _ := failed (Some child) e in sret stop
              | Ok view =>
                  let! _ := check_separator view separator child parent in
                  sret (mkLowerChain (right_sibling view) (lc_started lc) (lc_steps_left lc - 1) false)
              end
          end
    end.

(** [LowerChain::finish] *)
Definition lower_finish (lc : LowerChain) : VM unit :=
  if lc_broken lc then sret tt
  else match lc_current lc with
       | Some extra => problem (Some extra)
       | None => sret tt
       end.
(** * The internal levels *)

(** What the walk of one level carries from entry to entry. *)
Record LevelWalk : Type := mkLevelWalk {
  lw_first_child : option PageOrdinal;
  lw_lower : LowerChain;
  lw_previous : KeyBuf;
  lw_has_previous : bool;
}.

Definition separator_of (view : PageView) (i : Z) (entry : InternalEntry) : Result Separator :=
  if omitted_keys (view_layout view) then rmap SepDigest (digest_at view i)
  else rmap SepKey (internal_key view entry).

Definition check_child (view : PageView) (ordinal : PageOrdinal) (i : Z) (entry : InternalEntry) (lower : LowerChain)
    : VM LowerChain :=
  let! pages := file_pages in
  if pages <=? ie_child entry then let! _ := problem (Some ordinal) in sret lower
  else if ie_child entry =? ordinal then let! _ := problem (Some ordinal) in sret lower
  else match separator_of view i entry with
       | Ok separator => lower_expect lower (ie_child entry) ordinal separator
       | Err e => let! _ := failed (Some ordinal) e in sret lower
       end.

Definition check_ascends (ordinal : PageOrdinal) (previous key : list byte) : VM unit :=
  match ke_compare E previous key with
  | Ok Lt => sret tt
  | Ok _ => problem (Some ordinal)
  | Err e => failed (Some ordinal) e
  end.

(** [for i in 0..view.entry_count()]; [None] is [return Ok(None)]. *)
Fixpoint internal_entries (n : nat) (i : Z) (view : PageView) (ordinal : PageOrdinal) (w : LevelWalk)
    : VM (option LevelWalk) :=
  match n with
  | O => sret (Some w)
  | S n =>
      let! is_full := full in
      if is_full then sret None
      else
        match internal_entry view i with
        | Err e =>
            let! _ := failed (Some ordinal) e in
            internal_entries n (i + 1) view ordinal w
        | Ok entry =>
            let first_child := match lw_first_child w with None => Some (ie_child entry) | some => some end in
            let! lower := check_child view ordinal i entry (lw_lower w) in
            let w := mkLevelWalk first_child lower (lw_previous w) (lw_has_previous w) in
            if omitted_keys (view_layout view) then internal_entries n (i + 1) view ordinal w
            else
              match internal_key view entry with
              | Err e =>
                  let! _ := failed (Some ordinal) e in
                  internal_entries n (i + 1) view ordinal w
              | Ok key =>
                  let! _ := if lw_has_previous w then check_ascends ordinal (kb_bytes (lw_previous w)) key else sret tt in
                  let! previous := kb_assign key (lw_previous w) in
                  internal_entries n (i + 1) view ordinal (mkLevelWalk (lw_first_child w) (lw_lower w) previous true)
              end
        end
  end.

(** [while let Some(ordinal) = current], with the steps that are left. *)
Fixpoint level_pages (steps_left : nat) (current expected_left : option PageOrdinal) (w : LevelWalk)
    : VM (option (LevelWalk * nat)) :=
  match current with
  | None => sret (Some (w, steps_left))
  | Some ordinal =>
      let! is_full := full in
      if is_full then sret None
      else
        match steps_left with
        | O => let! _ := problem (Some ordinal) in sret None
        | S steps_left =>
            let! pin := walk_page ordinal in
            match pin with
            | None => sret None
            | Some pin =>
                match pin_view pin with
                | Err e => let! _ := failed (Some ordinal) e in sret None
                | Ok view =>
                    if bool_decide (view_kind view <> Internal) then let! _ := problem (Some ordinal) in sret None
                    else if entry_count view =? 0 then let! _ := problem (Some ordinal) in sret None
                    else
                      let! _ := if bool_decide (left_sibling view <> expected_left) then problem (Some ordinal) else sret tt in
                      let! _ := check_page_digests view ordinal in
                      let! w := internal_entries (Z.to_nat (entry_count view)) 0 view ordinal w in
                      match w with
                      | None => sret None
                      | Some w => level_pages steps_left (right_sibling view) (Some ordinal) w
                      end
                end
            end
        end
  end.

(** [verify_internal_levels], one level a round; the buffer of the last
    separator goes on to the next level. *)
Fixpoint internal_levels (levels_left : nat) (steps_left : nat) (is_root : bool) (level_start : PageOrdinal) (previous : KeyBuf)
    : VM (option PageOrdinal * KeyBuf) :=
  let! is_full := full in
  if is_full then sret (None, previous)
  else
    let! pin := walk_page level_start in
    match pin with
    | None => sret (None, previous)
    | Some pin =>
        match pin_view pin with
        | Err e => let! _ := failed (Some level_start) e in sret (None, previous)
        | Ok view =>
            let! _ := if is_root && (bool_decide (is_Some (left_sibling view)) || bool_decide (is_Some (right_sibling view)))
                      then problem (Some level_start) else sret tt in
            match levels_left with
            | O => let! _ := problem (Some level_start) in sret (None, previous)
            | S levels_left =>
                match view_kind view with
                | Leaf => sret (Some level_start, previous)
                | Internal =>
                    let! pages := file_pages in
                    let start := mkLevelWalk None (LowerChain_new (saturating_add pages 1)) (kb_clear previous) false in
                    let! walked := level_pages steps_left (Some level_start) None start in
                    match walked with
                    | None => sret (None, previous)
                    | Some (w, steps_left) =>
                        let! _ := lower_finish (lw_lower w) in
                        match lw_first_child w with
                        | None => let! _ := problem (Some level_start) in sret (None, lw_previous w)
                        | Some next => internal_levels levels_left steps_left false next (lw_previous w)
                        end
                    end
                end
            end
        end
    end.

Definition verify_internal_levels (previous : KeyBuf) : VM (option PageOrdinal * KeyBuf) :=
  match tree_root t with
  | None => sret (None, previous)
  | Some root =>
      let! pages := file_pages in
      let! s := sget in
      internal_levels (Z.to_nat (ts_max_tree_depth (rp_store s))) (Z.to_nat (saturating_add pages 1)) true root previous
  end.

(** * Values *)

Definition check_overflow_value (page ordinal : PageOrdinal) : VM unit :=
  let! pages := file_pages in
  if pages <=? page then problem (Some ordinal)
  else
    let! r := attempt (ts_page page) in
    match r with
    | Err e => failed (Some ordinal) e
    | Ok pin =>
        match pin_view pin with
        | Err e => failed (Some ordinal) e
        | Ok view => if bool_decide (view_kind view = Leaf) && (entry_count view =? 0) then sret tt else problem (Some ordinal)
        end
    end.

(** The key of one entry of the primary tree; the reservation for it is held
    until the reference is checked. *)
Definition target_key (primary : Tree) (view : PageView) (index : Z) : SM Store Error (list byte) :=
  let! entry := lift (leaf_entry view index) in
  if negb (omitted_keys (view_layout view)) then
    let! key := lift (leaf_key view entry) in
    let! _ := cs_reserve (zlen key + BUFFER_OVERHEAD) in
    sret key
  else
    let! capacity := lift (rebuilt_key_capacity (tree_encoding primary)) in
    let! _ := cs_reserve (capacity + BUFFER_OVERHEAD) in
    let! key := lift (rebuild_key (tree_encoding primary) view index []) in
    sret (default [] key).

Definition inline_at (start len : Z) (v : LeafValue) : bool :=
  match v with Inline offset n => (offset =? start) && (n =? len) | Overflow _ => false end.

(** The first entry whose value is that range. *)
Fixpoint entry_of_range (n : nat) (i : Z) (view : PageView) (start len : Z) : Result (option Z) :=
  match n with
  | O => Ok None
  | S n =>
      let? target := leaf_entry view i in
      if inline_at start len (le_value target) then Ok (Some i) else entry_of_range n (i + 1) view start len
  end.

Definition check_page_ref (primary : Tree) (value : list byte) (ordinal : PageOrdinal) : VM unit :=
  match PageRef_parse value with
  | Err e => failed (Some ordinal) e
  | Ok reference =>
      let page := pr_page reference in
      let! pin := walk_page page in
      match pin with
      | None => sret tt
      | Some pin =>
          match PageRef_range reference (pin_len pin) with
          | Err e => failed (Some ordinal) e
          | Ok (start, stop) =>
              match pin_view pin with
              | Err e => failed (Some page) e
              | Ok view =>
                  if entry_count view =? 0 then
                    let! s := sget in
                    if negb (overflow_contains page (rp_overflow s)) then problem (Some ordinal)
                    else if negb ((start =? PAGE_PREFIX_LEN) && (stop =? pin_len pin)) then problem (Some ordinal)
                    else sret tt
                  else
                    match entry_of_range (Z.to_nat (entry_count view)) 0 view start (stop - start) with
                    | Err e => failed (Some page) e
                    | Ok None => problem (Some ordinal)
                    | Ok (Some i) =>
                        let! target := attempt (target_key primary view i) in
                        match target with
                        | Err e => failed (Some page) e
                        | Ok key =>
                            let! found := attempt (find primary key) in
                            match found with
                            | Err e => failed (Some ordinal) e
                            | Ok None => problem (Some ordinal)
                            | Ok (Some (found, at_)) =>
                                if negb (pin_ordinal found =? page) then problem (Some ordinal)
                                else
                                  match (let? v := pin_view found in leaf_entry v at_) with
                                  | Err e => failed (Some page) e
                                  | Ok record =>
                                      if inline_at start (stop - start) (le_value record) then sret tt
                                      else problem (Some ordinal)
                                  end
                            end
                        end
                    end
              end
          end
      end
  end.
Definition check_value (values : ValueKind) (view : PageView) (ordinal : PageOrdinal) (entry : LeafEntry) : VM unit :=
  match le_value entry with
  | Overflow page =>
      let! _ := check_overflow_value page ordinal in
      match values with
      | PlainValues => sret tt
      | RecordValues =>
          smodify (fun s => mkReporter (rp_report s) (rp_charge s) (rp_failure s) (overflow_insert page (rp_overflow s)) (rp_store s))
      | ReferenceValues primary =>
          let! blob := walk_page page in
          match blob with
          | None => sret tt
          | Some blob =>
              match pin_view blob with
              | Ok blob_view => check_page_ref primary (blob_payload blob_view) ordinal
              | Err e => failed (Some page) e
              end
          end
      end
  | Inline offset len =>
      match values with
      | ReferenceValues primary =>
          match inline_value view offset len with
          | Ok value => check_page_ref primary value ordinal
          | Err e => failed (Some ordinal) e
          end
      | _ => sret tt
      end
  end.

(** * The leaf chain *)

Record LeafWalk : Type := mkLeafWalk {
  fw_key : KeyBuf;
  fw_previous : KeyBuf;
  fw_has_previous : bool;
  fw_previous_rebuilt : bool;
}.

(** The key of an entry: from the page or rebuilt into the buffer.  [Stop] is
    [return Ok(())], [Skip] is [continue]. *)
Inductive EntryKey : Type :=
| Read (key : list byte) (buf : KeyBuf)
| Skip (buf : KeyBuf)
| Stop.

Definition read_entry_key (view : PageView) (ordinal : PageOrdinal) (i : Z) (entry : LeafEntry) (buf : KeyBuf) : VM EntryKey :=
  if omitted_keys (view_layout view) then
    match rebuilt_key_capacity E with
    | Err e => let! _ := failed (Some ordinal) e in sret Stop
    | Ok capacity =>
        let! buf := in_store (kb_room capacity buf) in
        match rebuild_key E view i (kb_bytes buf) with
        | Ok (Some key) =>
            let capacity := if zlen key <=? kb_capacity buf then kb_capacity buf else cs_capacity (zlen key) in
            let! buf := in_store (kb_written (mkKeyBuf key capacity (kb_charge buf))) in
            sret (Read key buf)
        | Ok None | Err _ => let! _ := problem (Some ordinal) in sret (Skip buf)
        end
    end
  else
    match leaf_key view entry with
    | Ok key => sret (Read key buf)
    | Err e => let! _ := failed (Some ordinal) e in sret (Skip buf)
    end.

(** Whether the walk goes on from this entry: [false] is [continue]. *)
Definition compare_entries (ordinal : PageOrdinal) (rebuilt : bool) (w : LeafWalk) (key : list byte) : VM bool :=
  if fw_has_previous w then
    match ke_compare E (kb_bytes (fw_previous w)) key with
    | Err e => let! _ := failed (Some ordinal) e in sret false
    | Ok c =>
        let wrong := match c with Lt => false | Eq => negb (rebuilt || fw_previous_rebuilt w) | Gt => true end in
        let! _ := if wrong then problem (Some ordinal) else sret tt in
        sret true
    end
  else sret true.

Fixpoint leaf_entries (values : ValueKind) (n : nat) (i : Z) (view : PageView) (ordinal : PageOrdinal) (w : LeafWalk)
    : VM (option LeafWalk) :=
  match n with
  | O => sret (Some w)
  | S n =>
      let! is_full := full in
      if is_full then sret None
      else
        match leaf_entry view i with
        | Err e =>
            let! _ := failed (Some ordinal) e in
            leaf_entries values n (i + 1) view ordinal w
        | Ok entry =>
            let! _ := check_value values view ordinal entry in
            let! read := read_entry_key view ordinal i entry (fw_key w) in
            match read with
            | Stop => sret None
            | Skip buf =>
                leaf_entries values n (i + 1) view ordinal (mkLeafWalk buf (fw_previous w) (fw_has_previous w) (fw_previous_rebuilt w))
            | Read key buf =>
                let rebuilt := separators_are_inexact E view in
                let! go_on := compare_entries ordinal rebuilt w key in
                if negb go_on then
                  leaf_entries values n (i + 1) view ordinal (mkLeafWalk buf (fw_previous w) (fw_has_previous w) (fw_previous_rebuilt w))
                else
                  let! previous := kb_assign key (fw_previous w) in
                  let! _ := on_report count_entry in
                  leaf_entries values n (i + 1) view ordinal (mkLeafWalk buf previous true rebuilt)
            end
        end
  end.

(** The loop of [verify_tree] over the leaf chain. *)
Fixpoint leaf_chain (values : ValueKind) (steps_left : nat) (pin : PagePin) (expected_left : option PageOrdinal) (w : LeafWalk)
    : VM unit :=
  let! is_full := full in
  if is_full then sret tt
  else
    let ordinal := pin_ordinal pin in
    match steps_left with
    | O => problem (Some ordinal)
    | S steps_left =>
        match pin_view pin with
        | Err e => failed (Some ordinal) e
        | Ok view =>
            if bool_decide (view_kind view <> Leaf) then problem (Some ordinal)
            else
              let! _ := if bool_decide (left_sibling view <> expected_left) then problem (Some ordinal) else sret tt in
              let! _ := check_page_digests view ordinal in
              let! w := leaf_entries values (Z.to_nat (entry_count view)) 0 view ordinal w in
              match w with
              | None => sret tt
              | Some w =>
                  match right_sibling view with
                  | None => sret tt
                  | Some sibling =>
                      let! next := walk_page sibling in
                      match next with
                      | None => sret tt
                      | Some next => leaf_chain values steps_left next (Some ordinal) w
                      end
                  end
              end
        end
    end.

Definition verify_tree (values : ValueKind) : VM unit :=
  let! _ := on_report count_tree in
  let! previous_charge := in_store (cs_try_reserve 0) in
  let! '(leftmost, previous) := verify_internal_levels (mkKeyBuf [] 0 previous_charge) in
  match leftmost with
  | None => sret tt
  | Some leftmost =>
      let! pages := file_pages in
      let! key_charge := in_store (cs_try_reserve 0) in
      let! pin := walk_page leftmost in
      match pin with
      | None => sret tt
      | Some pin =>
          leaf_chain values (Z.to_nat (saturating_add pages 1)) pin None
            (mkLeafWalk (mkKeyBuf [] 0 key_charge) (kb_clear previous) false false)
      end
  end.
End Walk.

(** * The sweep over all pages *)

Section Sweep.
Context {Store : Type} `{!TreeStore Store} `{!CursorStore Store} (options : VerifyOptions).
Abbreviation VM A := (SM (Reporter Store) Error A).

(** [for ordinal in 0..page_count]; the result is whether the sweep was cut
    short by the limit on problems. *)
Fixpoint sweep (n : nat) (ordinal : Z) : VM bool :=
  match n with
  | O => sret false
  | S n =>
      let! is_full := full options in
      if is_full then let! stop := stopped in sret (negb stop)
      else
        let! r := attempt (ts_page ordinal) in
        let! _ := match r with
                  | Ok _ => on_report count_page
                  | Err e => failed options (Some ordinal) e
                  end in
        sweep n (ordinal + 1)
  end.
End Sweep.
