(* ===== verification/VerifyFacts.v ===== *)
(** A file that passes is a file the searches are right on.

    The conditions the queries are proved under ([well_formed] of [Btree.v]) are
    a property of the file.  [verified_tree_is_well_formed] says that the walk of
    [Verify.v] establishes it: when the walk ends without a problem and without
    having been cut short, the tree is well formed.

    The proof only follows runs that stay clean.  A report never becomes clean
    again ([tame]), so on such a run no check has failed ([holds]).  Both carry
    the pages that the overflow bits of the table are set for ([within]): the
    walk over the records sets the bits of their own pages only
    ([verify_tree_records]), so an index can refer to no other page. *)

From Stdlib Require Import ZArith Lia.
From stdpp Require Import base list sorting gmap.
From coqutil Require Import Byte.
From S2P Require Import Prelude Errors Format PageRef Eytzinger Node Encoding Budget Page TreePage Btree Query Cursor Verify.

#[local] Open Scope Z_scope.
#[local] Open Scope drydb_scope.

Create HintDb tame.

(** * What the pages of a checked tree hold *)

Section Nodes.
Context {file : PageOrdinal -> option (list byte)} (t : Tree).
Abbreviation E := (tree_encoding t).
Context {HL : LawfulEncoding E} {HC : CheckableEncoding E}.
Abbreviation tree_node := (tree_node (file := file) t).
Abbreviation page_at := (page_at (file := file)).

Lemma page_at_unique o v v' : page_at o v -> page_at o v' -> v = v'.
Proof. intros (b & Hf & Hp) (b' & Hf' & Hp'). congruence. Qed.

Lemma tree_node_unique o v v' keys keys' : tree_node o v keys -> tree_node o v' keys' -> v = v' /\ keys = keys'.
Proof.
  intros (Ha & _ & Hp) (Ha' & _ & Hp'). pose proof (page_at_unique o v v' Ha Ha') as <-. split; [reflexivity|].
  exact (sorted_page_unique E v keys keys' Hp Hp').
Qed.

Lemma page_wf o v : page_at o v -> PageView_wf v.
Proof. intros (b & _ & Hp). now apply PageView_parse_wf in Hp as [Hwf _]. Qed.

(** A page that passes the check is a node; stored keys can be read. *)
Lemma checked_node o v :
  page_at o v -> check_digests E v = Ok tt ->
  exists keys, tree_node o v keys /\ separators_are_inexact E v = false /\
    (omitted_keys (view_layout v) = false -> forall j k, keys !! j = Some k -> entry_key v (Z.of_nat j) = Ok k).
Proof.
  intros Ha Hc. pose proof (page_wf o v Ha) as Hwf. destruct (check_digests_sorted E v Hwf Hc) as (keys & Hp & Hk).
  exists keys. split; [split; [exact Ha | split; [exact Hc | exact Hp]]|]. split; [|exact Hk]. unfold separators_are_inexact.
  destruct (omitted_keys (view_layout v)) eqn:Hom; [|reflexivity]. now rewrite (checked_omitted_exact E v Hwf Hc Hom).
Qed.

Lemma node_key_read o v keys j k :
  tree_node o v keys -> omitted_keys (view_layout v) = false -> keys !! j = Some k -> entry_key v (Z.of_nat j) = Ok k.
Proof.
  intros Hn Hom Hj. destruct Hn as (Ha & Hc & Hp). destruct (checked_node o v Ha Hc) as (keys' & (_ & _ & Hp') & _ & Hk).
  rewrite (sorted_page_unique E v keys keys' Hp Hp') in Hj. now apply Hk.
Qed.

Lemma node_omitted_exact o v keys : tree_node o v keys -> omitted_keys (view_layout v) = true -> ke_is_digest_exact E = true.
Proof. intros (Ha & Hc & _) Hom. exact (checked_omitted_exact E v (page_wf o v Ha) Hc Hom). Qed.

Lemma node_key_ok o v keys j k : tree_node o v keys -> keys !! j = Some k -> key_ok k.
Proof. intros (_ & _ & Hp) Hj. exact (proj1 (Forall_lookup _ _) (sp_ok _ _ _ Hp) j k Hj). Qed.

Lemma head_inorder k : forall i, head (inorder_nodes (S k) i) = Some (i * 2 ^ Z.of_nat k).
Proof.
  induction k as [|k IH]; intros i; [simpl; f_equal; lia|].
  change (inorder_nodes (S (S k)) i) with (inorder_nodes (S k) (2 * i) ++ i :: inorder_nodes (S k) (2 * i + 1)).
  rewrite head_app, IH. f_equal. rewrite Nat2Z.inj_succ, Z.pow_succ_r by lia. lia.
Qed.

Lemma first_digest_ok o v keys k : tree_node o v keys -> head keys = Some k -> first_digest v = Ok (dig k).
Proof.
  intros (Ha & _ & Hp) Hk. pose proof (page_wf o v Ha) as Hwf. rewrite head_lookup in Hk. unfold first_digest.
  destruct (eytzinger (view_layout v)) eqn:Hey; cbn [negb]; [|exact (plain_digest_at E v keys Hp 0 k Hey Hk)].
  pose proof (sorted_digest_lookup E v keys Hp 0 k Hk) as Hd. unfold sorted_digests in Hd. rewrite Hey in Hd.
  pose proof (vwf_count v Hwf) as Hc. pose proof (sp_count _ _ _ Hp) as Hz. pose proof (lookup_lt_Some _ _ _ Hk) as Hlt.
  set (h := Z.to_nat (Z.log2_up (entry_count v + 1))) in *.
  assert (digest_slot_count v = 2 ^ Z.of_nat h - 1) as Hs.
  { rewrite (wf_digest_slot_count v Hwf). unfold digest_slots. rewrite Hey. unfold h. rewrite Z2Nat.id by apply Z.log2_up_nonneg.
    apply complete_size_spec; fmt_lia. }
  assert (0 < h <= 64)%nat as Hh.
  { unfold h. assert (0 < Z.log2_up (entry_count v + 1)) by (apply Z.log2_up_pos; unfold zlen in Hz; lia).
    assert (Z.log2_up (entry_count v + 1) <= 63) by (apply Z.log2_up_le_pow2; fmt_lia). lia. }
  destruct h as [|n]; [lia|]. rewrite Hs. rewrite (leftmost_spec 64 (S n) n 1) by (try lia; replace (S n - S n)%nat with 0%nat by lia; simpl; lia).
  rewrite list_lookup_fmap, <- head_lookup, head_inorder in Hd. cbn in Hd. injection Hd as <-. apply digest_slot_ok; [exact Hwf|]. rewrite Hs.
  rewrite Nat2Z.inj_succ, Z.pow_succ_r by lia. pose proof (Z.pow_pos_nonneg 2 (Z.of_nat n)). lia.
Qed.

(** A child starts where its parent says. *)
Definition starts_at (v : PageView) (sep : Separator) : Prop :=
  entry_count v <> 0 /\
  match sep with
  | SepKey key =>
      if omitted_keys (view_layout v) then exists d, first_digest v = Ok d /\ ke_accepts_digest E key d = Ok true
      else entry_key v 0 = Ok key
  | SepDigest d => first_digest v = Ok d
  end.

(** The key a separator stands for. *)
Definition denotes (sep : Separator) (k : list byte) : Prop :=
  key_ok k /\ match sep with
              | SepKey key => key = k
              | SepDigest d => d = dig k /\ ke_is_digest_exact E = true
              end.

Lemma starts_at_key o v keys sep k :
  tree_node o v keys -> starts_at v sep -> denotes sep k -> head keys = Some k.
Proof.
  intros Hn [Hc Hs] [Hk Hd]. pose proof Hn as (Ha & _ & Hp). pose proof (sp_count _ _ _ Hp) as Hz.
  destruct keys as [|k0 keys]; [rewrite zlen_nil in Hz; lia|]. cbn [head].
  pose proof (first_digest_ok o v (k0 :: keys) k0 Hn eq_refl) as Hf. pose proof (node_key_ok o v _ 0 k0 Hn eq_refl) as Hk0.
  destruct sep as [key|d].
  - subst key. destruct (omitted_keys (view_layout v)) eqn:Hom.
    + destruct Hs as (d & Hd & Hacc). rewrite Hf in Hd. injection Hd as <-. apply accepted_exact in Hacc; [|exact Hk].
      f_equal. exact (dig_exact k0 k (node_omitted_exact o v _ Hn Hom) Hk0 Hk Hacc).
    + pose proof (node_key_read o v _ 0 k0 Hn Hom eq_refl) as Hr. change (Z.of_nat 0) with 0 in Hr. congruence.
  - destruct Hd as [-> Hex]. rewrite Hf in Hs. injection Hs as Hs. f_equal. exact (dig_exact k0 k Hex Hk0 Hk Hs).
Qed.

(** What a parent declares. *)
Lemma separator_denotes o v seps i e sep k :
  tree_node o v seps -> view_kind v = Internal -> seps !! i = Some k ->
  internal_entry v (Z.of_nat i) = Ok e -> separator_of v (Z.of_nat i) e = Ok sep -> denotes sep k.
Proof.
  intros Hn Hk Hi He Hs. split; [exact (node_key_ok o v seps i k Hn Hi)|]. unfold separator_of in Hs.
  destruct (omitted_keys (view_layout v)) eqn:Hom.
  - pose proof Hn as (Ha & _ & Hp). destruct (vwf_omitted v (page_wf o v Ha) Hom) as [_ Hey].
    rewrite (plain_digest_at E v seps Hp i k Hey Hi) in Hs. injection Hs as <-. split; [reflexivity|]. exact (node_omitted_exact o v seps Hn Hom).
  - pose proof (node_key_read o v seps i k Hn Hom Hi) as Hr. unfold entry_key in Hr. rewrite Hk, He in Hr. cbn in Hr.
    rewrite Hr in Hs. now injection Hs as <-.
Qed.
End Nodes.

(** * Levels *)

Section Levels.
Context {file : PageOrdinal -> option (list byte)} {page_count : Z} (t : Tree).
Abbreviation E := (tree_encoding t).
Context {HL : LawfulEncoding E} {HC : CheckableEncoding E}.
Abbreviation tree_node := (tree_node (file := file) t).
Abbreviation page_at := (page_at (file := file)).
Abbreviation subtree := (subtree (file := file) t).
Abbreviation keys_of ls := (concat (map lp_keys ls)).

(** Pages in the order of their right siblings, up to [next]. *)
Fixpoint linked (pages : list PageOrdinal) (next : option PageOrdinal) : Prop :=
  match pages with
  | [] => True
  | o :: rest =>
      (exists v, page_at o v /\ right_sibling v = match rest with [] => next | o' :: _ => Some o' end) /\ linked rest next
  end.

Lemma linked_snoc pages o v :
  linked pages (Some o) -> page_at o v -> linked (pages ++ [o]) (right_sibling v).
Proof.
  induction pages as [|p pages IH]; simpl; [intros _ Hv; split; [eauto | exact I]|].
  intros [(w & Hw & Hr) Hl] Hv. split; [|auto]. exists w. split; [exact Hw|]. rewrite Hr. now destruct pages.
Qed.

(** A child as its parent declares it. *)
Definition child_ok (c : PageOrdinal) (k : list byte) : Prop :=
  exists v sep, page_at c v /\ starts_at t v sep /\ denotes t sep k.

(** An internal page with its children. *)
Record inner_ok (p : LeafInfo * list PageOrdinal) : Prop := {
  io_node : tree_node (lp_ordinal (fst p)) (lp_view (fst p)) (lp_keys (fst p));
  io_kind : view_kind (lp_view (fst p)) = Internal;
  io_exact : separators_are_inexact E (lp_view (fst p)) = false;
  io_ne : lp_keys (fst p) <> [];
  io_len : length (snd p) = length (lp_keys (fst p));
  io_children : forall i c, snd p !! i = Some c ->
    c <> lp_ordinal (fst p) /\ c < page_count /\
    (exists e, internal_entry (lp_view (fst p)) (Z.of_nat i) = Ok e /\ ie_child e = c) /\
    exists k, lp_keys (fst p) !! i = Some k /\ child_ok c k;
}.

(** [h] levels of internal pages lead from the pages [tops] to the pages
    [bottoms]. *)
Fixpoint descends (h : nat) (tops bottoms : list PageOrdinal) : Prop :=
  match h with
  | O => tops = bottoms
  | S h => exists infos, (lp_ordinal ∘ fst) <$> infos = tops /\ Forall inner_ok infos /\
      descends h (concat (snd <$> infos)) bottoms
  end.

(** A chain walked by its siblings is the chain declared from above. *)
Lemma same_pages infos : forall before tops,
  chained before infos -> Forall (fun l => page_at (lp_ordinal l) (lp_view l)) infos -> linked tops None ->
  lp_ordinal <$> head infos = head tops -> lp_ordinal <$> infos = tops.
Proof.
  induction infos as [|l infos IH]; intros before tops Hc Hp Hl Hh.
  { destruct tops; [reflexivity | discriminate]. }
  destruct tops as [|o tops]; [discriminate|]. injection Hh as <-. destruct Hc as (_ & Hr & Hc). apply Forall_cons in Hp as [Hv Hp].
  destruct Hl as [(v & Ha & Hv') Hl]. rewrite (page_at_unique _ v (lp_view l) Ha Hv), Hr in Hv'.
  rewrite fmap_cons. f_equal. apply (IH (Some (lp_ordinal l)) tops Hc Hp Hl). rewrite Hv'. now destruct tops.
Qed.

Lemma Forall2_concat_inv {A C} (P : A -> C -> Prop) css : forall xs,
  Forall2 P (concat css) xs -> exists xss, xs = concat xss /\ Forall2 (Forall2 P) css xss.
Proof.
  induction css as [|cs css IH]; intros xs HF; cbn [concat] in HF; [inversion HF; exists []; split; [reflexivity | constructor]|].
  apply Forall2_app_inv_l in HF as (xs1 & xs2 & H1 & H2 & ->). destruct (IH xs2 H2) as (xss & -> & HF).
  exists (xs1 :: xss). split; [reflexivity | now constructor].
Qed.

Lemma Forall2_conj {A C} (P Q : A -> C -> Prop) l k :
  Forall2 (fun x y => P x y /\ Q x y) l k <-> Forall2 P l k /\ Forall2 Q l k.
Proof.
  split.
  - induction 1 as [|x y l k [] _ []]; split; constructor; auto.
  - intros [H1 H2]. induction H1; inversion H2; subst; constructor; auto.
Qed.

Lemma keys_of_app ls ls' : keys_of (ls ++ ls') = keys_of ls ++ keys_of ls'.
Proof. now rewrite map_app, concat_app. Qed.

(** A subtree holds what its page starts with. *)
Definition first_is (o : PageOrdinal) (ls : list LeafInfo) : Prop :=
  forall v keys, tree_node o v keys -> head keys = head (keys_of ls).

Lemma subtree_node h o ls : subtree h o ls -> exists v keys, tree_node o v keys.
Proof. destruct h; cbn; [intros (v & keys & Hn & _) | intros (v & seps & ch & lss & Hn & _)]; eauto. Qed.

Lemma keys_of_concat xs : keys_of (concat xs) = concat ((fun ls => keys_of ls) <$> xs).
Proof. induction xs as [|x xs IH]; [reflexivity|]. cbn [concat]. rewrite keys_of_app, IH. reflexivity. Qed.

(** The key a child is declared with is the first one below it. *)
Lemma child_first h c k ls : child_ok c k -> subtree h c ls -> first_is c ls -> head (keys_of ls) = Some k /\ key_ok k.
Proof.
  intros (v & sep & Ha & Hs & Hd) Hsub Hf. destruct (subtree_node h c ls Hsub) as (v' & keys & Hn).
  pose proof Hn as (Ha' & _). pose proof (page_at_unique c v v' Ha Ha') as <-.
  rewrite <- (Hf v keys Hn). split; [exact (starts_at_key t c v keys sep k Hn Hs Hd) | apply Hd].
Qed.

Lemma inner_subtree h p xs :
  inner_ok p -> Forall2 (subtree h) (snd p) xs -> Forall2 first_is (snd p) xs ->
  StronglySorted (key_lt E) (keys_of (concat xs)) ->
  subtree (S h) (lp_ordinal (fst p)) (concat xs) /\ first_is (lp_ordinal (fst p)) (concat xs).
Proof.
  intros [Hn Hk Hex Hne Hlen Hch] Hsub Hfirst Hs. rewrite keys_of_concat in Hs.
  assert (forall i ls sep, xs !! i = Some ls -> lp_keys (fst p) !! i = Some sep -> head (keys_of ls) = Some sep /\ key_ok sep) as Hsep.
  { intros i ls sep Hi Hsep. destruct (Forall2_lookup_r _ _ _ _ _ Hsub Hi) as (c & Hc & Hst).
    destruct (Forall2_lookup_r _ _ _ _ _ Hfirst Hi) as (c' & Hc' & Hf). replace c' with c in * by congruence.
    destruct (Hch i c Hc) as (_ & _ & _ & k & Hkk & Hco). replace sep with k by congruence. exact (child_first h c k ls Hco Hst Hf). }
  assert (forall i ls l k, xs !! i = Some ls -> l ∈ ls -> k ∈ lp_keys l -> ((fun ls => keys_of ls) <$> xs) !! i = Some (keys_of ls) /\ k ∈ keys_of ls) as Hin.
  { intros i ls l k Hi Hl Hkl. rewrite list_lookup_fmap, Hi. split; [reflexivity|]. apply elem_of_concat.
    apply list_elem_of_lookup in Hl as [j Hj]. exists j, (lp_keys l). split; [|exact Hkl]. change (map lp_keys ls) with (lp_keys <$> ls). now rewrite list_lookup_fmap, Hj. }
  split.
  - exists (lp_view (fst p)), (lp_keys (fst p)), (snd p), xs. split_and!; auto.
    + intros i c Hc. destruct (Hch i c Hc) as (H1 & _ & H3 & _). auto.
    + intros i ls l k Hi Hl Hkl. destruct (Hin i ls l k Hi Hl Hkl) as [Hi' Hk'].
      destruct (separators_bound E (lp_keys (fst p)) ((fun ls => keys_of ls) <$> xs) Hs) with (i := i) (ks := keys_of ls) (k := k) as [H1 H2]; auto.
      apply Forall2_same_length_lookup_2; [rewrite length_fmap; apply Forall2_length in Hsub; lia|].
      intros j sep ks Hj Hks. apply list_lookup_fmap_Some in Hks as (ls' & -> & Hls'). exact (Hsep j ls' sep Hls' Hj).
  - intros v keys Hn'. destruct (tree_node_unique t _ _ _ _ _ Hn Hn') as [<- <-]. destruct (lp_keys (fst p)) as [|k0 ks] eqn:Hks; [contradiction|].
    pose proof (Forall2_length _ _ _ Hsub) as Hl2. destruct xs as [|ls xs]; [cbn in *; lia|].
    destruct (Hsep 0%nat ls k0 eq_refl eq_refl) as [Hh _]. cbn [concat]. rewrite keys_of_app, head_app, Hh. reflexivity.
Qed.

(** The levels over the leaves make a tree. *)
Lemma assemble h : forall tops bottoms leaves,
  descends h tops bottoms -> lp_ordinal <$> leaves = bottoms -> Forall (leaf_ok (file := file) t) leaves ->
  StronglySorted (key_lt E) (keys_of leaves) ->
  exists leavess, leaves = concat leavess /\ Forall2 (subtree h) tops leavess /\ Forall2 first_is tops leavess.
Proof.
  induction h as [|h IH]; intros tops bottoms leaves Hd Hl Hok Hs; cbn [descends] in Hd.
  - subst tops bottoms. exists ((fun l => [l]) <$> leaves). clear Hs. induction Hok as [|l leaves [Hn Hk] Hok IHl]; [repeat constructor|].
    destruct IHl as (Hc & H1 & H2). split; [cbn; now f_equal|]. split; cbn; constructor; auto.
    + exists (lp_view l), (lp_keys l). destruct l. auto.
    + intros v keys Hn'. cbn. rewrite app_nil_r. now destruct (tree_node_unique t _ _ _ _ _ Hn Hn') as [_ <-].
  - destruct Hd as (infos & <- & Hin & Hd). destruct (IH _ _ leaves Hd Hl Hok Hs) as (lss & -> & H1 & H2).
    destruct (Forall2_concat_inv _ _ lss (proj2 (Forall2_conj _ _ _ _) (conj H1 H2))) as (xss & -> & HF). rewrite Forall2_fmap_l in HF.
    exists ((fun xs => concat xs) <$> xss).
    assert (concat (concat xss) = concat ((fun xs => concat xs) <$> xss)) as Hcc.
    { clear. induction xss as [|xs xss IH]; [reflexivity|]. cbn. now rewrite concat_app, IH. }
    rewrite Hcc in Hs |- *. rewrite keys_of_concat in Hs. split; [reflexivity|].
    rewrite !Forall2_fmap. apply Forall2_conj. clear - HF Hin Hs HC.
    induction HF as [|p xs infos xss Hx HF IHF]; [constructor|]. apply Forall_cons in Hin as [Hp Hin]. constructor.
    + apply Forall2_conj in Hx as [H1 H2]. apply inner_subtree; auto.
      exact (sorted_concat_part _ _ 0 _ Hs eq_refl).
    + apply IHF; auto. cbn in Hs. now apply StronglySorted_app_1_r in Hs.
Qed.
Lemma descends_children h : forall tops bottoms, descends (S h) tops bottoms -> Forall (fun o => exists k, child_ok o k) bottoms.
Proof.
  induction h as [|h IH]; intros tops bottoms (infos & _ & Hin & Hd); [|exact (IH _ _ Hd)].
  cbn in Hd. subst bottoms. apply Forall_concat, Forall_fmap. eapply Forall_impl; [exact Hin|]. intros p Hp.
  apply Forall_lookup. intros i c Hc. destruct (io_children p Hp i c Hc) as (_ & _ & _ & k & _ & Hco). eauto.
Qed.

(** Below an internal page no leaf is empty. *)
Lemma declared_leaf l k : leaf_ok (file := file) t l -> child_ok (lp_ordinal l) k -> head (lp_keys l) = Some k.
Proof.
  intros [Hn _] (v & sep & Ha & Hs & Hd). pose proof Hn as (Ha' & _). rewrite (page_at_unique _ _ _ Ha Ha') in Hs.
  exact (starts_at_key t _ _ _ sep k Hn Hs Hd).
Qed.

(** Leaves that hold different keys are different pages. *)
Lemma leaves_distinct leaves :
  Forall (leaf_ok (file := file) t) leaves -> Forall (fun l => lp_keys l <> []) leaves ->
  StronglySorted (key_lt E) (keys_of leaves) -> NoDup (lp_ordinal <$> leaves).
Proof.
  intros Hok Hne Hs. apply NoDup_alt. intros i j o Hi Hj.
  apply list_lookup_fmap_Some in Hi as (l & -> & Hi), Hj as (l' & Ho & Hj). destruct (decide (i = j)) as [|Hij]; [assumption|exfalso].
  pose proof (Forall_lookup_1 _ _ _ _ Hok Hi) as [Hn _]. pose proof (Forall_lookup_1 _ _ _ _ Hok Hj) as [Hn' _].
  rewrite Ho in Hn. destruct (tree_node_unique t _ _ _ _ _ Hn Hn') as [_ Hk].
  pose proof (Forall_lookup_1 _ _ _ _ Hne Hi) as Hnk. destruct (lp_keys l) as [|k ks] eqn:Hks; [contradiction|].
  assert (forall a l, leaves !! a = Some l -> map lp_keys leaves !! a = Some (lp_keys l)) as Hmap.
  { intros a l0 Ha. change (map lp_keys leaves) with (lp_keys <$> leaves). now rewrite list_lookup_fmap, Ha. }
  assert (key_lt E k k) as Hkk.
  { destruct (Nat.lt_ge_cases i j);
      [eapply (sorted_concat_le _ _ i j k k _ _ Hs (Hmap _ _ Hi) (Hmap _ _ Hj)) | eapply (sorted_concat_le _ _ j i k k _ _ Hs (Hmap _ _ Hj) (Hmap _ _ Hi))];
      rewrite ?Hks, <- ?Hk; (lia || left). }
  unfold key_lt in Hkk. rewrite (ord_refl E k) in Hkk; [discriminate|]. exact (node_key_ok t _ _ _ 0 k Hn eq_refl).
Qed.
End Levels.

(** * The bits of the overflow pages *)

Lemma overflow_contains_spec b bits :
  overflow_contains b bits = true <-> exists word, bits !! Z.to_nat (b / 64) = Some word /\ Z.testbit word (b mod 64) = true.
Proof.
  unfold overflow_contains. destruct (bits !! Z.to_nat (b / 64)) as [word|]; [|split; [discriminate | intros (? & ? & _); discriminate]].
  assert (Z.land word (Z.shiftl 1 (b mod 64)) = if Z.testbit word (b mod 64) then 2 ^ (b mod 64) else 0) as ->.
  { pose proof (Z.mod_pos_bound b 64). rewrite Z.shiftl_1_l. apply Z.bits_inj'. intros n Hn. rewrite Z.land_spec, Z.pow2_bits_eqb by lia.
    destruct (Z.eqb_spec (b mod 64) n) as [<-|Hne]; [rewrite andb_true_r | rewrite andb_false_r].
    - destruct (Z.testbit word _) eqn:Hb; [now rewrite Z.pow2_bits_true by lia | now rewrite Z.bits_0].
    - destruct (Z.testbit word _); [rewrite Z.pow2_bits_eqb by lia; symmetry; now apply Z.eqb_neq | now rewrite Z.bits_0]. }
  pose proof (Z.pow_pos_nonneg 2 (b mod 64)). pose proof (Z.mod_pos_bound b 64). split.
  - intros H'. exists word. split; [reflexivity|]. destruct (Z.testbit word _); [reflexivity | discriminate].
  - intros (w & [= <-] & ->). apply negb_true_iff, Z.eqb_neq. lia.
Qed.

Lemma overflow_contains_insert page b bits :
  0 <= page -> 0 <= b -> overflow_contains b (overflow_insert page bits) = true -> b = page \/ overflow_contains b bits = true.
Proof.
  intros Hp Hb. rewrite !overflow_contains_spec. unfold overflow_insert. destruct (bits !! Z.to_nat (page / 64)) as [w|] eqn:Hw; [|now right].
  intros (word & Hl & Ht). pose proof (Z.mod_pos_bound b 64). pose proof (Z.mod_pos_bound page 64).
  apply list_lookup_insert_Some in Hl as [(Hi & <- & _)|(_ & Hl)]; [|right; eauto].
  rewrite Z.shiftl_1_l, Z.lor_spec, Z.pow2_bits_eqb in Ht by lia. apply orb_true_iff in Ht as [Ht|Ht%Z.eqb_eq].
  - right. exists w. rewrite <- Hi. auto.
  - left. pose proof (Z.div_mod b 64). pose proof (Z.div_mod page 64).
    assert (0 <= b / 64 /\ 0 <= page / 64) by (split; apply Z.div_pos; lia). lia.
Qed.

Lemma overflow_contains_empty b n : overflow_contains b (OverflowPages_empty n) = false.
Proof.
  apply not_true_is_false. rewrite overflow_contains_spec. intros (word & Hl & Ht). unfold OverflowPages_empty in Hl.
  apply lookup_replicate in Hl as [-> _]. now rewrite Z.bits_0 in Ht.
Qed.

Section Logic.
Context {Store : Type} {TS : TreeStore Store} {CS : CursorStore Store}.
Context {file : PageOrdinal -> option (list byte)} {page_count max_depth : Z}.
Context {SL : StoreLaws Store file page_count max_depth} {CL : CursorLaws Store SL}.
Context (options : VerifyOptions) (Hmax : 0 < vo_max_problems options).
Abbreviation VM A := (SM (Reporter Store) Error A).

(** What the walk keeps of the store. *)
Class StoreInv (I : Store -> Prop) : Prop := {
  inv_ok : forall s, I s -> store_ok s;
  inv_evolves : forall s s', I s -> store_ok s' -> evolves s s' -> I s';
}.

Context (I : Store -> Prop) {HI : StoreInv I}.

(** The pages the overflow bits may be set for. *)
Context (own : PageOrdinal -> Prop).

Definition within (s : Reporter Store) : Prop := forall b, 0 <= b -> overflow_contains b (rp_overflow s) = true -> own b.

Definition clean (s : Reporter Store) : Prop :=
  vr_problems (rp_report s) = [] /\ vr_truncated (rp_report s) = false /\ rp_failure s = None.

(** A computation that does not tidy up the report and sets no other bit. *)
Definition tame {A} (m : VM A) : Prop := forall s, I (rp_store s) ->
  I (rp_store (snd (m s))) /\ (clean (snd (m s)) -> clean s) /\ (within s -> within (snd (m s))).

(** What a computation returns when the report stays clean. *)
Definition holds {A} (m : VM A) (Q : A -> Prop) : Prop := forall s, I (rp_store s) -> within s -> clean s -> clean (snd (m s)) ->
  match fst (m s) with Ok a => Q a | Err _ => True end.

Definition spares {A} (m : SM Store Error A) : Prop := forall s, I s -> I (snd (m s)).

Lemma spares_page o : spares (ts_page o).
Proof. intros s Hs. destruct (sl_page o s (inv_ok s Hs)) as (Hok & Hev & _). exact (inv_evolves _ _ Hs Hok Hev). Qed.
Lemma spares_reserve n : spares (cs_reserve n).
Proof. intros s Hs. destruct (cl_reserve n s (inv_ok s Hs)) as (Hok & Hev & _). exact (inv_evolves _ _ Hs Hok Hev). Qed.
Lemma spares_try_reserve n : spares (cs_try_reserve n).
Proof. intros s Hs. destruct (cl_try_reserve n s (inv_ok s Hs)) as (Hok & Hev & _). exact (inv_evolves _ _ Hs Hok Hev). Qed.
Lemma spares_ret {A} (a : A) : spares (sret a).
Proof. now intros s. Qed.
Lemma spares_lift {A} (r : Result A) : spares (lift r).
Proof. now intros s. Qed.
Lemma spares_bind {A C} (m : SM Store Error A) (f : A -> SM Store Error C) :
  spares m -> (forall a, spares (f a)) -> spares (sbind m f).
Proof. intros Hm Hf s Hs. unfold sbind. specialize (Hm s Hs). destruct (m s) as [[a|e] s']; [now apply Hf | exact Hm]. Qed.

Lemma tame_ret {A} (a : A) : tame (sret a).
Proof. intros s Hs. simpl. auto. Qed.
Lemma tame_get : tame sget.
Proof. intros s Hs. simpl. auto. Qed.
Lemma tame_bind {A C} (m : VM A) (f : A -> VM C) : tame m -> (forall a, tame (f a)) -> tame (sbind m f).
Proof.
  intros Hm Hf s Hs. unfold sbind. destruct (Hm s Hs) as (H1 & H2 & H3). destruct (m s) as [[a|e] s']; simpl in *; [|auto].
  destruct (Hf a s' H1) as (H4 & H5 & H6). auto.
Qed.
Lemma tame_in_store {A} (m : SM Store Error A) : spares m -> tame (in_store m).
Proof. intros Hm s Hs. specialize (Hm _ Hs). unfold in_store. destruct (m (rp_store s)) as [r st]. simpl in *. auto. Qed.
Lemma tame_attempt {A} (m : SM Store Error A) : spares m -> tame (attempt m).
Proof. intros Hm s Hs. specialize (Hm _ Hs). unfold attempt. destruct (m (rp_store s)) as [r st]. simpl in *. auto. Qed.
Lemma tame_on_report f :
  (forall r, (vr_problems (f r) = [] -> vr_problems r = []) /\ (vr_truncated (f r) = false -> vr_truncated r = false)) ->
  tame (on_report f).
Proof. intros Hf s Hs. simpl. split; [exact Hs|]. split; [|auto]. intros (H1 & H2 & H3). simpl in *. destruct (Hf (rp_report s)). repeat split; auto. Qed.
Lemma tame_count f : f = count_page \/ f = count_entry \/ f = count_tree -> tame (on_report f).
Proof. intros [->|[->| ->]]; apply tame_on_report; simpl; auto. Qed.
Lemma tame_insert page : 0 <= page -> own page ->
  tame (smodify (fun s : Reporter Store => mkReporter (rp_report s) (rp_charge s) (rp_failure s) (overflow_insert page (rp_overflow s)) (rp_store s))).
Proof.
  intros Hp HO s Hs. simpl. split; [exact Hs|]. split; [auto|]. intros Hw b Hb Hin.
  apply overflow_contains_insert in Hin as [->|Hin]; auto.
Qed.
(** Any bit may be set where every page may be one. *)
Lemma tame_overflow g : (forall b, own b) ->
  tame (smodify (fun s : Reporter Store => mkReporter (rp_report s) (rp_charge s) (rp_failure s) (g (rp_overflow s)) (rp_store s))).
Proof. intros HO s Hs. simpl. split; [exact Hs|]. split; [auto|]. intros _ b _ _. apply HO. Qed.
(** [tame] walks through a computation by its structure. *)
#[local] Hint Resolve spares_page spares_reserve spares_try_reserve spares_ret spares_lift : tame.
#[local] Hint Resolve tame_ret tame_get tame_in_store tame_attempt : tame.

Ltac tame_run :=
  repeat first
    [ progress auto with tame
    | apply tame_bind; [|intros ?]
    | apply spares_bind; [|intros ?]
    | solve [apply tame_count; auto]
    | lazymatch goal with
      | |- tame (match ?x with _ => _ end) => destruct x
      | |- tame (let '_ := ?x in _) => destruct x
      | |- spares (match ?x with _ => _ end) => destruct x
      end ].

Lemma tame_full : tame (full options).
Proof. unfold full, stopped. tame_run. Qed.
#[local] Hint Resolve tame_full : tame.

Lemma tame_truncate : tame (on_report set_truncated).
Proof. apply tame_on_report. intros r. simpl. split; [auto | discriminate]. Qed.
Lemma tame_add p : tame (on_report (add_problem p)).
Proof. apply tame_on_report. intros r. simpl. split; [|auto]. intros H. now apply app_nil in H. Qed.
#[local] Hint Resolve tame_truncate tame_add : tame.

Lemma tame_problem page : tame (problem options page).
Proof. unfold problem. tame_run. Qed.
#[local] Hint Resolve tame_problem : tame.

Lemma tame_failed page e : tame (failed options page e).
Proof. unfold failed. destruct (stops_the_pass e); [|auto with tame]. intros s Hs. simpl. split; [exact Hs|]. split; [|auto]. intros (_ & _ & H). discriminate. Qed.
#[local] Hint Resolve tame_failed : tame.

Lemma spares_kb_at_least n kb : spares (kb_at_least n kb).
Proof. unfold kb_at_least. tame_run. Qed.
#[local] Hint Resolve spares_kb_at_least : tame.
Lemma spares_kb_written kb : spares (kb_written kb).
Proof. apply spares_kb_at_least. Qed.
#[local] Hint Resolve spares_kb_written : tame.
Lemma spares_kb_room n kb : spares (kb_room n kb).
Proof. unfold kb_room. tame_run. Qed.
#[local] Hint Resolve spares_kb_room : tame.
Lemma tame_kb_assign key kb : tame (kb_assign key kb).
Proof. unfold kb_assign. tame_run. Qed.
#[local] Hint Resolve tame_kb_assign : tame.

(** * Clean runs *)

Lemma holds_ret {A} (a : A) (Q : A -> Prop) : Q a -> holds (sret a) Q.
Proof. now intros HQ s _ _ _ _. Qed.

Lemma holds_bind {A C} (m : VM A) (f : A -> VM C) P Q :
  holds m P -> tame m -> (forall a, tame (f a)) -> (forall a, P a -> holds (f a) Q) -> holds (sbind m f) Q.
Proof.
  intros Hm Htm Htf Hf s Hs Hw Hc Hc'. unfold sbind in *. destruct (Htm s Hs) as (Hs1 & _ & Hw1). specialize (Hm s Hs Hw Hc).
  destruct (m s) as [[a|e] s1]; simpl in *; [|auto].
  destruct (Htf a s1 Hs1) as (_ & Hc1 & _). specialize (Hc1 Hc'). exact (Hf a (Hm Hc1) s1 Hs1 (Hw1 Hw) Hc1 Hc').
Qed.

Lemma holds_weaken {A} (m : VM A) (P Q : A -> Prop) : holds m P -> (forall a, P a -> Q a) -> holds m Q.
Proof. intros Hm HPQ s Hs Hw Hc Hc'. specialize (Hm s Hs Hw Hc Hc'). destruct (fst (m s)); auto. Qed.

Lemma holds_full : holds (full options) (eq false).
Proof.
  intros s Hs _ (H1 & _ & H3) _. unfold full, stopped, sbind, sget. simpl. rewrite H3, H1. simpl.
  symmetry. apply Z.leb_gt. exact Hmax.
Qed.

(** After a problem nothing needs to be shown. *)
Lemma holds_problem page Q : holds (problem options page) Q.
Proof.
  intros s Hs _ _ (H1 & H2 & H3). exfalso. unfold problem, full, stopped, attempt, on_report, sbind, sget, smodify in *. cbn in *.
  destruct (_ || _); [discriminate|]. destruct (cs_reserve _ _) as [[more|e] st]; cbn in *; [|discriminate].
  now apply app_nil in H1 as [_ ?].
Qed.

Lemma holds_failed page e Q : holds (failed options page e) Q.
Proof. unfold failed. destruct (stops_the_pass e); [|apply holds_problem]. intros s Hs _ _ (_ & _ & H). discriminate. Qed.

Lemma holds_after_problem {C} page (f : unit -> VM C) Q : (forall a, tame (f a)) -> holds (sbind (problem options page) f) Q.
Proof. intros Hf. apply (holds_bind _ _ (fun _ => False)); auto with tame; [apply holds_problem | contradiction]. Qed.
Lemma holds_after_failed {C} page e (f : unit -> VM C) Q : (forall a, tame (f a)) -> holds (sbind (failed options page e) f) Q.
Proof. intros Hf. apply (holds_bind _ _ (fun _ => False)); auto with tame; [apply holds_failed | contradiction]. Qed.

Lemma holds_unless_full {A} (m k : VM A) Q : tame m -> tame k -> holds k Q -> holds (let! f := full options in if f then m else k) Q.
Proof.
  intros Hm Hk HQ. apply (holds_bind _ _ (eq false)); [apply holds_full | auto with tame | intros []; auto | now intros ? <-].
Qed.

Lemma holds_attempt {A} (m : SM Store Error A) (Q : Result A -> Prop) :
  (forall s, I s -> Q (fst (m s))) -> holds (attempt m) Q.
Proof. intros HQ s Hs _ _ _. specialize (HQ _ Hs). unfold attempt. destruct (m (rp_store s)) as [r st]. exact HQ. Qed.

Lemma holds_page o : holds (attempt (ts_page o)) (fun r => forall pin, r = Ok pin -> is_page o pin).
Proof. apply holds_attempt. intros s Hs. destruct (sl_page o s (inv_ok s Hs)) as (_ & _ & Hp). exact Hp. Qed.

Lemma tame_walk_page o : tame (walk_page options o).
Proof. unfold walk_page. tame_run. Qed.
#[local] Hint Resolve tame_walk_page : tame.

Lemma holds_walk_page o : holds (walk_page options o) (fun r => exists pin, r = Some pin /\ is_page o pin).
Proof.
  unfold walk_page. apply (holds_bind _ _ _ _ (holds_page o)); [auto with tame | intros a; tame_run |].
  intros [pin|e] Hp; [apply holds_ret; eauto | apply holds_after_failed; auto with tame].
Qed.

Lemma tame_file_pages : tame file_pages.
Proof. unfold file_pages. tame_run. Qed.
#[local] Hint Resolve tame_file_pages : tame.

Lemma holds_file_pages : holds file_pages (eq page_count).
Proof. intros s Hs _ _ _. simpl. symmetry. apply sl_count. now apply inv_ok. Qed.

Lemma kb_assign_ok key kb : holds (kb_assign key kb) (fun kb' => kb_bytes kb' = key).
Proof. unfold kb_assign. apply (holds_bind _ _ (fun _ => True)); auto with tame; [intros s _ _ _ _; now destruct (fst _) | intros kb' _; now apply holds_ret]. Qed.
(** * The walk does not tidy up *)

Context (t : Tree) (values : ValueKind).
Abbreviation E := (tree_encoding t).

(** What looking a record up needs of the store. *)
Class LookupKeeps : Prop :=
  lookup_keeps : forall primary key, values = ReferenceValues primary -> spares (find primary key).
Context {HK : LookupKeeps}.
(** Values are recorded where every bit may be set. *)
Class Records : Prop := records_anywhere : values = RecordValues -> forall b, own b.

Lemma tame_check_page_digests v o : tame (check_page_digests options t v o).
Proof. unfold check_page_digests. tame_run. Qed.
Lemma tame_check_separator v sep c p : tame (check_separator options t v sep c p).
Proof. unfold check_separator. tame_run. Qed.
#[local] Hint Resolve tame_check_page_digests tame_check_separator : tame.
Lemma tame_lower_expect lc c p sep : tame (lower_expect options t lc c p sep).
Proof. unfold lower_expect. tame_run. Qed.
Lemma tame_lower_finish lc : tame (lower_finish options lc).
Proof. unfold lower_finish. tame_run. Qed.
#[local] Hint Resolve tame_lower_expect tame_lower_finish : tame.
Lemma tame_check_child v o i e lc : tame (check_child options t v o i e lc).
Proof. unfold check_child. tame_run. Qed.
Lemma tame_check_ascends o a b : tame (check_ascends options t o a b).
Proof. unfold check_ascends. tame_run. Qed.
#[local] Hint Resolve tame_check_child tame_check_ascends : tame.

Lemma tame_internal_entries n : forall i v o w, tame (internal_entries options t n i v o w).
Proof. induction n; intros i v o w; cbn [internal_entries]; tame_run. Qed.
#[local] Hint Resolve tame_internal_entries : tame.
Lemma tame_level_pages n : forall cur left w, tame (level_pages options t n cur left w).
Proof. induction n; intros cur left w; cbn [level_pages]; tame_run. Qed.
#[local] Hint Resolve tame_level_pages : tame.
Lemma tame_internal_levels n : forall steps root o kb, tame (internal_levels options t n steps root o kb).
Proof. induction n; intros steps root o kb; cbn [internal_levels]; tame_run. Qed.
#[local] Hint Resolve tame_internal_levels : tame.
Lemma tame_verify_internal_levels kb : tame (verify_internal_levels options t kb).
Proof. unfold verify_internal_levels. tame_run. Qed.
#[local] Hint Resolve tame_verify_internal_levels : tame.

Lemma tame_check_overflow_value p o : tame (check_overflow_value options p o).
Proof. unfold check_overflow_value. tame_run. Qed.
#[local] Hint Resolve tame_check_overflow_value : tame.
Lemma spares_target_key primary v i : spares (target_key primary v i).
Proof. unfold target_key. tame_run. Qed.
#[local] Hint Resolve spares_target_key : tame.
Lemma tame_check_page_ref primary value o : values = ReferenceValues primary -> tame (check_page_ref options primary value o).
Proof. intros Hv. unfold check_page_ref. pose proof (fun key => lookup_keeps primary key Hv). tame_run. Qed.
Lemma tame_check_value_at v o e : (values = RecordValues -> forall b, le_value e = Overflow b -> tame (smodify (fun s : Reporter Store =>
    mkReporter (rp_report s) (rp_charge s) (rp_failure s) (overflow_insert b (rp_overflow s)) (rp_store s)))) ->
  tame (check_value options values v o e).
Proof. intros H. unfold check_value. pose proof tame_check_page_ref. destruct (le_value e) as [offset len|b]; tame_run; eauto. Qed.
Lemma tame_read_entry_key v o i e kb : tame (read_entry_key options t v o i e kb).
Proof. unfold read_entry_key. tame_run. Qed.
Lemma tame_compare_entries o b w k : tame (compare_entries options t o b w k).
Proof. unfold compare_entries. tame_run. Qed.
#[local] Hint Resolve tame_read_entry_key tame_compare_entries : tame.

(** The bits an entry sets are those of the page its value is on. *)
Lemma tame_leaf_entries_at v o :
  (values = RecordValues -> forall j e b, leaf_entry v j = Ok e -> le_value e = Overflow b -> 0 <= b /\ own b) ->
  forall n i w, tame (leaf_entries options t values n i v o w).
Proof.
  intros Hv. induction n; intros i w; cbn [leaf_entries]; [tame_run|]. apply tame_bind; [tame_run | intros [|]; [tame_run|]].
  destruct (leaf_entry v i) as [e|e] eqn:He; [|tame_run].
  apply tame_bind; [|intros ?; tame_run]. apply tame_check_value_at. intros Hr b Hb. destruct (Hv Hr i e b He Hb). now apply tame_insert.
Qed.

(** The pages of a chain of siblings, and the values kept off them. *)
Inductive chain_page : PageOrdinal -> PageOrdinal -> Prop :=
| chain_here o : chain_page o o
| chain_next o v o' o'' : page_at (file := file) o v -> right_sibling v = Some o' -> chain_page o' o'' -> chain_page o o''.

Definition chain_overflow (o b : PageOrdinal) : Prop :=
  exists o' v j e, chain_page o o' /\ page_at (file := file) o' v /\ leaf_entry v j = Ok e /\ le_value e = Overflow b.

Lemma walk_page_is o s pin : I (rp_store s) -> fst (walk_page options o s) = Ok (Some pin) -> is_page o pin.
Proof.
  intros Hs. unfold walk_page, sbind, attempt. destruct (sl_page o (rp_store s) (inv_ok _ Hs)) as (_ & _ & Hp).
  destruct (ts_page o (rp_store s)) as [[p|e] st]; cbn; [intros [= ->]; auto|].
  destruct (failed _ _ _ _) as [[[]|er] s']; discriminate.
Qed.

Lemma tame_bind_page {A} o (f : option PagePin -> VM A) :
  tame (f None) -> (forall pin, is_page o pin -> tame (f (Some pin))) -> tame (sbind (walk_page options o) f).
Proof.
  intros Hn Hf s Hs. destruct (tame_walk_page o s Hs) as (H1 & H2 & H3). pose proof (walk_page_is o s) as Hp. unfold sbind.
  destruct (walk_page options o s) as [[[pin|]|e] s']; cbn in *; [| |auto].
  - destruct (Hf pin (Hp pin Hs eq_refl) s' H1) as (H4 & H5 & H6). auto.
  - destruct (Hn s' H1) as (H4 & H5 & H6). auto.
Qed.

Lemma overflow_nonneg o v j e b : page_at (file := file) o v -> leaf_entry v j = Ok e -> le_value e = Overflow b -> 0 <= b.
Proof.
  intros (bytes & _ & Hp) He Hb. destruct (leaf_entry_inv v j e (proj1 (PageView_parse_wf _ _ Hp)) He) as (_ & _ & _ & _ & _ & Hv).
  rewrite Hb in Hv. apply Hv.
Qed.

Lemma tame_leaf_chain_at n : forall o pin left w,
  is_page o pin -> (values = RecordValues -> forall b, chain_overflow o b -> own b) ->
  tame (leaf_chain options t values n pin left w).
Proof.
  induction n as [|n IH]; intros o pin left w Hp Hown; cbn [leaf_chain]; (apply tame_bind; [tame_run | intros [|]; [tame_run|]]); [tame_run|].
  pose proof Hp as (_ & Hf & _). destruct (pin_view pin) as [v|e] eqn:Hv; [|tame_run].
  assert (page_at (file := file) o v) as Ha by (apply pin_view_Ok in Hv; now exists (pin_data pin)).
  destruct (bool_decide _); [tame_run|]. apply tame_bind; [tame_run | intros _]. apply tame_bind; [tame_run | intros _].
  apply tame_bind; [apply tame_leaf_entries_at | intros [w'|]; [|tame_run]].
  { intros Hr j e b He Hb. split; [exact (overflow_nonneg o v j e b Ha He Hb)|]. apply (Hown Hr). exists o, v, j, e.
    split_and!; auto. constructor. }
  destruct (right_sibling v) as [o'|] eqn:Hright; [|tame_run]. apply tame_bind_page; [tame_run|]. intros next Hnext.
  apply (IH o'); [exact Hnext|]. intros Hr b (o'' & v' & j & e & Hch & H). apply (Hown Hr). exists o'', v', j, e.
  split; [|exact H]. exact (chain_next o v o' o'' Ha Hright Hch).
Qed.

Context {HR : Records}.
Lemma tame_check_value v o e : tame (check_value options values v o e).
Proof. apply tame_check_value_at. intros Hr b _. apply tame_overflow. exact (records_anywhere Hr). Qed.
#[local] Hint Resolve tame_check_value : tame.
Lemma tame_leaf_entries n : forall i v o w, tame (leaf_entries options t values n i v o w).
Proof. induction n; intros i v o w; cbn [leaf_entries]; tame_run. Qed.
#[local] Hint Resolve tame_leaf_entries : tame.
Lemma tame_leaf_chain n : forall pin left w, tame (leaf_chain options t values n pin left w).
Proof. induction n; intros pin left w; cbn [leaf_chain]; tame_run. Qed.
#[local] Hint Resolve tame_leaf_chain : tame.
Lemma tame_verify_tree : tame (verify_tree options t values).
Proof. unfold verify_tree. tame_run. Qed.
(** * The walk over the internal levels *)

Context {HL : LawfulEncoding E} {HC : CheckableEncoding E}.
Abbreviation page_at := (page_at (file := file)).
Abbreviation tree_node := (tree_node (file := file) t).
Abbreviation linked := (linked (file := file)).
Abbreviation child_ok := (child_ok (file := file) t).
Abbreviation inner_ok := (inner_ok (file := file) (page_count := page_count) t).
Abbreviation descends := (descends (file := file) (page_count := page_count) t).

Lemma pin_page_at o pin v : is_page o pin -> pin_view pin = Ok v -> page_at o v.
Proof. intros (_ & Hf & _) Hv. apply pin_view_Ok in Hv. now exists (pin_data pin). Qed.

Lemma check_page_digests_ok v o : holds (check_page_digests options t v o) (fun _ => check_digests E v = Ok tt).
Proof. unfold check_page_digests. destruct (check_digests E v) as [[]|e]; [now apply holds_ret | apply holds_failed]. Qed.

Lemma check_separator_ok v sep c p : holds (check_separator options t v sep c p) (fun _ => starts_at t v sep).
Proof.
  unfold check_separator. destruct (Z.eqb_spec (entry_count v) 0) as [|Hc]; [apply holds_problem|].
  destruct (omitted_keys (view_layout v)) eqn:Hom.
  - destruct (first_digest v) as [d|e] eqn:Hf; [|apply holds_failed]. destruct sep as [key|d'].
    + destruct (ke_accepts_digest E key d) as [[]|e] eqn:Ha; [|apply holds_problem | apply holds_failed].
      apply holds_ret. split; [exact Hc|]. rewrite Hom. eauto.
    + destruct (Z.eqb_spec d' d) as [->|]; [|apply holds_problem]. apply holds_ret. now split.
  - destruct (entry_key v 0) as [k|e] eqn:Hk; [|apply holds_failed]. cbn [rmap].
    destruct (first_digest v) as [d|e] eqn:Hf; [|apply holds_failed]. destruct sep as [key|d'].
    + destruct (bool_decide_reflect (k = key)) as [->|]; [|apply holds_problem]. apply holds_ret. split; [exact Hc|]. now rewrite Hom.
    + destruct (Z.eqb_spec d' d) as [->|]; [|apply holds_problem]. apply holds_ret. now split.
Qed.

(** The chain below has been followed over these children. *)
Record lower_at (lc : LowerChain) (cs : list PageOrdinal) : Prop := {
  la_broken : lc_broken lc = false;
  la_started : lc_started lc = false <-> cs = [];
  la_linked : linked cs (lc_current lc);
}.

Lemma lower_expect_ok lc cs child parent sep :
  lower_at lc cs ->
  holds (lower_expect options t lc child parent sep)
    (fun lc' => lower_at lc' (cs ++ [child]) /\ exists v, page_at child v /\ starts_at t v sep).
Proof.
  intros [Hb Hst Hl]. unfold lower_expect. rewrite Hb. set (lc0 := if lc_started lc then lc else _).
  assert (linked cs (Some child) \/ lc_current lc0 <> Some child) as Hcur.
  { unfold lc0. destruct (lc_started lc) eqn:Hs; [|left; now rewrite (proj1 Hst eq_refl)].
    destruct (decide (lc_current lc = Some child)) as [Hc|]; [left; now rewrite <- Hc | now right]. }
  assert (lc_started lc0 = true) as Hs0 by (unfold lc0; now destruct (lc_started lc) eqn:Hs).
  clearbody lc0. destruct (lc_current lc0) as [cur|]; [|apply holds_after_problem; auto with tame].
  destruct (Z.eqb_spec cur child) as [->|]; cbn [negb]; [|apply holds_after_problem; auto with tame].
  destruct Hcur as [Hlc|]; [|contradiction].
  destruct (lc_steps_left lc0 =? 0); [apply holds_after_problem; auto with tame|].
  apply (holds_bind _ _ _ _ (holds_page child)); [auto with tame | intros a; tame_run |]. intros [pin|e] Hp; [|apply holds_after_failed; auto with tame].
  specialize (Hp pin eq_refl). destruct (pin_view pin) as [v|e] eqn:Hv; [|apply holds_after_failed; auto with tame].
  pose proof (pin_page_at child pin v Hp Hv) as Ha.
  apply (holds_bind _ _ _ _ (check_separator_ok v sep child parent)); [auto with tame.. |]. intros _ Hs. apply holds_ret.
  split; [|eauto]. split; cbn; [reflexivity | | now apply linked_snoc]. rewrite Hs0. split; [discriminate | now destruct cs].
Qed.

Lemma check_child_ok v o seps i e lc cs k :
  tree_node o v seps -> view_kind v = Internal -> internal_entry v (Z.of_nat i) = Ok e -> seps !! i = Some k ->
  lower_at lc cs ->
  holds (check_child options t v o (Z.of_nat i) e lc)
    (fun lc' => lower_at lc' (cs ++ [ie_child e]) /\ ie_child e <> o /\ ie_child e < page_count /\ child_ok (ie_child e) k).
Proof.
  intros Hn Hk He Hi Hla. unfold check_child.
  apply (holds_bind _ _ _ _ holds_file_pages); [auto with tame | intros a; tame_run |]. intros ? <-.
  destruct (Z.leb_spec page_count (ie_child e)); [apply holds_after_problem; auto with tame|].
  destruct (Z.eqb_spec (ie_child e) o); [apply holds_after_problem; auto with tame|].
  destruct (separator_of v (Z.of_nat i) e) as [sep|er] eqn:Hs; [|apply holds_after_failed; auto with tame].
  eapply holds_weaken; [exact (lower_expect_ok lc cs (ie_child e) o sep Hla)|]. intros lc' (H1 & vc & Ha & Hst).
  split_and!; auto. exists vc, sep. split_and!; auto. exact (separator_denotes t o v seps i e sep k Hn Hk Hi He Hs).
Qed.
Lemma holds_any {A} (m : VM A) : holds m (fun _ => True).
Proof. intros s _ _ _. now destruct (fst (m s)). Qed.

(** The children found on a page, from entry [i] on. *)
Definition children_from (v : PageView) (o : PageOrdinal) (seps : list (list byte)) (i : nat) (cs : list PageOrdinal) : Prop :=
  forall j c, cs !! j = Some c ->
    c <> o /\ c < page_count /\ (exists e, internal_entry v (Z.of_nat (i + j)) = Ok e /\ ie_child e = c) /\
    exists k, seps !! (i + j)%nat = Some k /\ child_ok c k.

Lemma internal_entries_ok v o seps : tree_node o v seps -> view_kind v = Internal -> forall n i w cs,
  (i + n)%nat = length seps -> lower_at (lw_lower w) cs -> lw_first_child w = head cs ->
  holds (internal_entries options t n (Z.of_nat i) v o w) (fun r => exists w' new, r = Some w' /\
    lower_at (lw_lower w') (cs ++ new) /\ lw_first_child w' = head (cs ++ new) /\ length new = n /\ children_from v o seps i new).
Proof.
  intros Hn Hk n. induction n as [|n IH]; intros i w cs Hlen Hla Hfc; cbn [internal_entries].
  { apply holds_ret. exists w, []. rewrite app_nil_r. split_and!; auto. intros j c Hc. discriminate. }
  apply holds_unless_full; [auto with tame | tame_run |].
  destruct (internal_entry v (Z.of_nat i)) as [e|er] eqn:He; [|apply holds_after_failed; auto with tame].
  destruct (lookup_lt_is_Some_2 seps i ltac:(lia)) as [k Hi].
  apply (holds_bind _ _ _ _ (check_child_ok v o seps i e (lw_lower w) cs k Hn Hk He Hi Hla)); [auto with tame | intros a; tame_run |].
  intros lower (Hla' & Hne & Hlt & Hco). set (w1 := mkLevelWalk _ lower _ _).
  assert (forall w', lw_lower w' = lower -> lw_first_child w' = lw_first_child w1 ->
    holds (internal_entries options t n (Z.of_nat i + 1) v o w') (fun r => exists w'' new, r = Some w'' /\
      lower_at (lw_lower w'') (cs ++ new) /\ lw_first_child w'' = head (cs ++ new) /\ length new = S n /\ children_from v o seps i new)) as Hrest.
  { intros w' Hl' Hf'. replace (Z.of_nat i + 1) with (Z.of_nat (S i)) by lia.
    eapply holds_weaken; [apply (IH (S i) w' (cs ++ [ie_child e])); [lia | now rewrite Hl' |]|].
    - rewrite Hf'. unfold w1. cbn. rewrite Hfc. now destruct cs.
    - intros r (w'' & new & -> & H1 & H2 & H3 & H4). rewrite <- app_assoc in H1, H2. exists w'', (ie_child e :: new).
      split_and!; auto; [cbn; lia|]. intros [|j] c Hc.
      + injection Hc as <-. rewrite Nat.add_0_r. eauto 10.
      + destruct (H4 j c Hc) as (A1 & A2 & A3 & A4). replace (i + S j)%nat with (S i + j)%nat by lia. auto. }
  destruct (omitted_keys (view_layout v)); [now apply Hrest|].
  destruct (internal_key v e) as [key|er]; [|apply holds_after_failed; auto with tame].
  apply (holds_bind _ _ _ _ (holds_any _)); [tame_run | intros a; tame_run |]. intros _ _.
  apply (holds_bind _ _ _ _ (holds_any _)); [tame_run | intros a; tame_run |]. intros kb _. now apply Hrest.
Qed.

Lemma level_pages_ok steps : forall cur left w cs,
  lower_at (lw_lower w) cs -> lw_first_child w = head cs ->
  holds (level_pages options t steps cur left w) (fun r => exists w' steps' infos, r = Some (w', steps') /\
    Forall inner_ok infos /\ chained left (fst <$> infos) /\ lp_ordinal <$> head (fst <$> infos) = cur /\
    lower_at (lw_lower w') (cs ++ concat (snd <$> infos)) /\ lw_first_child w' = head (cs ++ concat (snd <$> infos))).
Proof.
  induction steps as [|steps IH]; intros cur left w cs Hla Hfc; cbn [level_pages]; destruct cur as [o|].
  1: apply holds_unless_full; [auto with tame | tame_run |]; apply holds_after_problem; auto with tame.
  1,3: apply holds_ret; exists w; eexists _, []; cbn; rewrite app_nil_r; split_and!; auto; constructor.
  apply holds_unless_full; [auto with tame | tame_run |].
  apply (holds_bind _ _ _ _ (holds_walk_page o)); [auto with tame | intros a; tame_run |]. intros ? (pin & -> & Hp).
  destruct (pin_view pin) as [v|e] eqn:Hv; [|apply holds_after_failed; auto with tame]. pose proof (pin_page_at o pin v Hp Hv) as Ha.
  destruct (bool_decide_reflect (view_kind v <> Internal)) as [|Hk%dec_stable]; [apply holds_after_problem; auto with tame|].
  destruct (Z.eqb_spec (entry_count v) 0) as [|Hc]; [apply holds_after_problem; auto with tame|].
  apply (holds_bind _ _ (fun _ => left_sibling v = left)); [|tame_run | intros a; tame_run |].
  { destruct (bool_decide_reflect (left_sibling v <> left)) as [|Hl%dec_stable]; [apply holds_problem | now apply holds_ret]. }
  intros _ Hleft. apply (holds_bind _ _ _ _ (check_page_digests_ok v o)); [auto with tame | intros a; tame_run |]. intros _ Hchk.
  destruct (checked_node t o v Ha Hchk) as (seps & Hn & Hex & _). pose proof (sp_count _ _ _ (proj2 (proj2 Hn))) as Hz.
  replace (Z.to_nat (entry_count v)) with (length seps) by (unfold zlen in Hz; lia).
  apply (holds_bind _ _ _ _ (internal_entries_ok v o seps Hn Hk (length seps) 0 w cs eq_refl Hla Hfc)); [auto with tame | intros a; tame_run |].
  intros ? (w1 & new & -> & Hla1 & Hfc1 & Hlen & Hch).
  eapply holds_weaken; [exact (IH (right_sibling v) (Some o) w1 (cs ++ new) Hla1 Hfc1)|].
  intros r (w' & steps' & infos & -> & Hin & Hcn & Hh & Hla' & Hfc'). rewrite <- app_assoc in Hla', Hfc'.
  exists w', steps', ((mkLeafInfo o v seps, new) :: infos). split_and!; auto.
  - constructor; [|exact Hin]. split; cbn; auto. intros ->. rewrite zlen_nil in Hz. lia.
  - rewrite fmap_cons. split_and!; auto.
Qed.
Lemma lower_finish_ok lc cs : lower_at lc cs -> holds (lower_finish options lc) (fun _ => linked cs None).
Proof.
  intros [Hb _ Hl]. unfold lower_finish. rewrite Hb. destruct (lc_current lc); [apply holds_problem | now apply holds_ret].
Qed.

Lemma lower_at_start steps : lower_at (LowerChain_new steps) [].
Proof. split; cbn; auto. split; auto. Qed.

Lemma internal_levels_ok n : forall steps (is_root : bool) o kb tops,
  head tops = Some o -> (if is_root then tops = [o] else linked tops None) ->
  holds (internal_levels options t n steps is_root o kb) (fun r => exists h bottoms first, fst r = Some first /\ (h < n)%nat /\
    descends h tops bottoms /\ linked bottoms None /\ head bottoms = Some first).
Proof.
  induction n as [|n IH]; intros steps is_root o kb tops Hh Htops; cbn [internal_levels];
    (apply holds_unless_full; [tame_run | tame_run |]);
    (apply (holds_bind _ _ _ _ (holds_walk_page o)); [auto with tame | intros a; tame_run |]); intros ? (pin & -> & Hp);
    (destruct (pin_view pin) as [v|e] eqn:Hv; [|apply holds_after_failed; auto with tame]); pose proof (pin_page_at o pin v Hp Hv) as Ha;
    (apply (holds_bind _ _ (fun _ => linked tops None)); [|tame_run | intros a; tame_run |]).
  1,3: destruct is_root; [|now apply holds_ret]; subst tops; cbn [andb];
    destruct (right_sibling v) eqn:Hr; [rewrite orb_true_r; apply holds_problem|];
    destruct (left_sibling v); [apply holds_problem | apply holds_ret; cbn; eauto].
  { intros _ _. apply holds_after_problem. auto with tame. }
  intros _ Hl. destruct (view_kind v) eqn:Hk.
  - apply holds_ret. exists 0%nat, tops, o. cbn. split_and!; auto. lia.
  - apply (holds_bind _ _ _ _ holds_file_pages); [auto with tame | intros a; tame_run |]. intros ? <-.
    apply (holds_bind _ _ _ _ (level_pages_ok steps (Some o) None (mkLevelWalk None _ _ _) [] (lower_at_start _) eq_refl)); [auto with tame | intros a; tame_run |].
    intros ? (w & steps' & infos & -> & Hin & Hcn & Ho & Hla & Hfc). cbn [app] in Hla, Hfc.
    apply (holds_bind _ _ _ _ (lower_finish_ok _ _ Hla)); [auto with tame | intros a; tame_run |]. intros _ Hlow.
    destruct (lw_first_child w) as [next|] eqn:Hnext; [|apply holds_after_problem; auto with tame].
    eapply holds_weaken; [exact (IH steps' false next (lw_previous w) _ (eq_sym Hfc) Hlow)|].
    intros r (h & bottoms & first & Hf & Hlt & Hd & Hlb & Hhb). exists (S h), bottoms, first. split_and!; auto; [lia|].
    exists infos. split_and!; auto. rewrite list_fmap_compose. eapply same_pages; [exact Hcn | | exact Hl | now rewrite Ho].
    apply Forall_fmap. eapply Forall_impl; [exact Hin|]. intros [l cs] Hp'. apply (io_node _ _ Hp').
Qed.

Lemma verify_internal_levels_ok kb :
  holds (verify_internal_levels options t kb) (fun r =>
    match tree_root t with
    | None => fst r = None
    | Some root => exists h bottoms first, fst r = Some first /\ Z.of_nat h < max_depth /\
        descends h [root] bottoms /\ linked bottoms None /\ head bottoms = Some first
    end).
Proof.
  unfold verify_internal_levels. destruct (tree_root t) as [root|]; [|now apply holds_ret].
  apply (holds_bind _ _ _ _ holds_file_pages); [auto with tame | intros a; tame_run |]. intros ? <-.
  apply (holds_bind _ _ (fun s => ts_max_tree_depth (rp_store s) = max_depth)); [|tame_run | intros a; tame_run |].
  { intros s Hs _ _ _. cbn. apply sl_depth. now apply inv_ok. }
  intros s ->. eapply holds_weaken; [exact (internal_levels_ok _ _ true root kb [root] eq_refl eq_refl)|].
  intros r (h & bottoms & first & Hf & Hlt & Hrest). exists h, bottoms, first. split_and!; auto; [lia | tauto..].
Qed.
(** * The walk over the leaves *)

Lemma read_entry_key_ok v o keys i k e kb :
  tree_node o v keys -> view_kind v = Leaf -> keys !! i = Some k -> leaf_entry v (Z.of_nat i) = Ok e ->
  holds (read_entry_key options t v o (Z.of_nat i) e kb) (fun r => exists buf, r = Read k buf).
Proof.
  intros Hn Hk Hi He. unfold read_entry_key. destruct (omitted_keys (view_layout v)) eqn:Hom.
  - destruct (rebuilt_key_capacity E) as [capacity|er]; [|apply holds_after_failed; auto with tame].
    apply (holds_bind _ _ _ _ (holds_any _)); [auto with tame | intros a; tame_run |]. intros buf _.
    rewrite (omitted_rebuild E v keys i k (kb_bytes buf) (proj2 (proj2 Hn)) (node_omitted_exact t o v keys Hn Hom) Hom Hi).
    apply (holds_bind _ _ _ _ (holds_any _)); [auto with tame | auto with tame |]. intros buf' _. apply holds_ret. eauto.
  - pose proof (node_key_read t o v keys i k Hn Hom Hi) as Hr. unfold entry_key in Hr. rewrite Hk, He in Hr. cbn in Hr. rewrite Hr.
    apply holds_ret. eauto.
Qed.

(** The last key the walk has seen. *)
Definition last_seen (w : LeafWalk) : option (list byte) := if fw_has_previous w then Some (kb_bytes (fw_previous w)) else None.

Definition walk_ok (w : LeafWalk) : Prop := fw_previous_rebuilt w = false /\ forall p, last_seen w = Some p -> key_ok p.

Lemma compare_entries_ok o w k :
  walk_ok w -> key_ok k ->
  holds (compare_entries options t o false w k) (fun b => b = true /\ forall p, last_seen w = Some p -> ord p k = Lt).
Proof.
  intros [Hr Hp] Hk. unfold compare_entries, last_seen in *. destruct (fw_has_previous w); [|now apply holds_ret].
  specialize (Hp _ eq_refl). rewrite (compare_ok _ _ Hp Hk), Hr. cbn [orb negb].
  apply (holds_bind _ _ (fun _ => ord (kb_bytes (fw_previous w)) k = Lt)); [|destruct (ord _ _); tame_run | auto with tame |].
  - destruct (ord _ _) eqn:Ho; [apply holds_problem | now apply holds_ret | apply holds_problem].
  - intros _ Hlt. apply holds_ret. split; [reflexivity|]. now intros p [= <-].
Qed.

(** * Values *)

(** A page that holds one value. *)
Definition blob_at (b : PageOrdinal) (bytes : list byte) : Prop :=
  exists v, file b = Some bytes /\ PageView_parse bytes = Ok v /\ view_kind v = Leaf /\ entry_count v = 0.

Definition overflow_ok (e : LeafEntry) : Prop := forall b, le_value e = Overflow b -> exists bytes, blob_at b bytes.

Lemma check_overflow_value_ok p o : holds (check_overflow_value options p o) (fun _ => exists bytes, blob_at p bytes).
Proof.
  unfold check_overflow_value. apply (holds_bind _ _ _ _ holds_file_pages); [auto with tame | intros a; tame_run |]. intros ? <-.
  destruct (page_count <=? p); [apply holds_problem|].
  apply (holds_bind _ _ _ _ (holds_page p)); [auto with tame | intros a; tame_run |]. intros [pin|e] Hp; [|apply holds_failed].
  destruct (Hp pin eq_refl) as (_ & Hf & _). destruct (pin_view pin) as [v|e] eqn:Hv; [|apply holds_failed].
  destruct (bool_decide_reflect (view_kind v = Leaf)) as [Hk|]; [|apply holds_problem].
  destruct (Z.eqb_spec (entry_count v) 0); [|apply holds_problem]. apply holds_ret. exists (pin_data pin), v. apply pin_view_Ok in Hv. auto.
Qed.

(** A reference to a record of the primary tree: to a value on one of its
    leaves, or to the whole payload of a page that may hold one. *)
Definition refers (leaves : list LeafInfo) (value : list byte) : Prop :=
  exists r, PageRef_parse value = Ok r /\
    ((exists l j e, l ∈ leaves /\ lp_ordinal l = pr_page r /\ leaf_entry (lp_view l) j = Ok e /\
        le_value e = Inline (pr_start r) (pr_length r)) \/
     own (pr_page r) /\ exists bytes v, file (pr_page r) = Some bytes /\ PageView_parse bytes = Ok v /\ entry_count v = 0 /\
       pr_start r = PAGE_PREFIX_LEN /\ pr_start r + pr_length r = zlen bytes).

Lemma inline_at_inv start len v : inline_at start len v = true -> v = Inline start len.
Proof. destruct v as [offset n|]; [|discriminate]. cbn. now intros [->%Z.eqb_eq ->%Z.eqb_eq]%andb_prop. Qed.

Lemma PageRef_range_inv r len start stop :
  PageRef_range r len = Ok (start, stop) -> start = pr_start r /\ stop = pr_start r + pr_length r.
Proof. unfold PageRef_range. intros. inv_ok. inv_reads. subst. auto. Qed.

Lemma PageRef_parse_page value r : PageRef_parse value = Ok r -> 0 <= pr_page r.
Proof.
  unfold PageRef_parse. intros. inv_ok. cbn. unfold PageOrdinal_from_i64, ok_or in *. repeat case_match; simplify_eq; lia.
Qed.

Lemma check_page_ref_ok primary leaves value o :
  values = ReferenceValues primary ->
  (forall key, holds (attempt (find primary key)) (fun r => forall pin at_, r = Ok (Some (pin, at_)) -> exists l, l ∈ leaves /\ on_leaf l pin)) ->
  holds (check_page_ref options primary value o) (fun _ => refers leaves value).
Proof.
  intros Hvals Hfind. pose proof (fun key => lookup_keeps primary key Hvals) as Hkeeps. unfold check_page_ref.
  destruct (PageRef_parse value) as [r|e] eqn:Hr; [|apply holds_failed].
  apply (holds_bind _ _ _ _ (holds_walk_page (pr_page r))); [auto with tame | intros a; tame_run |]. intros ? (pin & -> & Hp).
  destruct (PageRef_range r (pin_len pin)) as [[start stop]|e] eqn:Hrange; [|apply holds_failed].
  assert (start = pr_start r /\ stop = pr_start r + pr_length r) as [-> ->].
  { exact (PageRef_range_inv _ _ _ _ Hrange). }
  destruct (pin_view pin) as [v|e] eqn:Hv; [|apply holds_failed]. destruct (Z.eqb_spec (entry_count v) 0) as [Hc|Hc].
  - apply (holds_bind _ _ within); [intros s _ Hs _ _; exact Hs | tame_run | intros a; tame_run |]. intros s Hs.
    destruct (overflow_contains _ _) eqn:Hbit; cbn [negb]; [|apply holds_problem]. apply (Hs _ (PageRef_parse_page _ _ Hr)) in Hbit.
    destruct (Z.eqb_spec (pr_start r) PAGE_PREFIX_LEN) as [Hst|]; [|apply holds_problem].
    destruct (Z.eqb_spec (pr_start r + pr_length r) (pin_len pin)) as [Hl|]; [|apply holds_problem]. apply holds_ret.
    exists r. split; [exact Hr|]. right. split; [exact Hbit|]. exists (pin_data pin), v. destruct Hp as (_ & Hf & _). apply pin_view_Ok in Hv. auto.
  - destruct (entry_of_range _ _ _ _ _) as [[i|]|e]; [|apply holds_problem | apply holds_failed].
    apply (holds_bind _ _ _ _ (holds_any _)); [auto with tame | intros a; tame_run |]. intros [key|e] _; [|apply holds_failed].
    apply (holds_bind _ _ _ _ (Hfind key)); [auto with tame | intros a; tame_run |].
    intros [[[found at_]|]|e] Hf; [| apply holds_problem | apply holds_failed]. destruct (Hf found at_ eq_refl) as (l & Hl & (Ho & _) & Hview).
    destruct (Z.eqb_spec (pin_ordinal found) (pr_page r)) as [Heq|]; cbn [negb]; [|apply holds_problem]. rewrite Hview. cbn [rbind].
    destruct (leaf_entry (lp_view l) at_) as [e|e] eqn:He; [|apply holds_failed].
    destruct (inline_at _ _ (le_value e)) eqn:Hin; [|apply holds_problem]. apply inline_at_inv in Hin. apply holds_ret.
    exists r. split; [exact Hr|]. left. exists l, at_, e. replace (pr_start r + pr_length r - pr_start r) with (pr_length r) in Hin by lia.
    split_and!; auto. congruence.
Qed.

(** What the check of a value establishes: it leads somewhere, and a value of a
    tree of references is a reference to a record. *)
Context (records : list LeafInfo).
Class FindsIn : Prop :=
  finds_in : forall primary key, values = ReferenceValues primary ->
    holds (attempt (find primary key)) (fun r => forall pin at_, r = Ok (Some (pin, at_)) -> exists l, l ∈ records /\ on_leaf l pin).
Context {HF : FindsIn}.

Definition entry_value (v : PageView) (e : LeafEntry) (value : list byte) : Prop :=
  match le_value e with
  | Inline offset len => inline_value v offset len = Ok value
  | Overflow b => exists bytes w, file b = Some bytes /\ PageView_parse bytes = Ok w /\ value = blob_payload w
  end.

Definition value_ok (v : PageView) (e : LeafEntry) : Prop :=
  overflow_ok e /\
  match values with
  | ReferenceValues _ => exists value, entry_value v e value /\ refers records value
  | _ => True
  end.

Lemma value_checked v o e : holds (check_value options values v o e) (fun _ => value_ok v e).
Proof.
  unfold check_value, value_ok, overflow_ok, entry_value. destruct (le_value e) as [offset len|b].
  - destruct values as [| |primary] eqn:Hv; [now apply holds_ret..|].
    destruct (inline_value v offset len) as [value|er] eqn:He; [|apply holds_failed].
    eapply holds_weaken; [exact (check_page_ref_ok primary records value o Hv (fun key => finds_in primary key Hv))|].
    intros [] Hr. split; [discriminate | eauto].
  - apply (holds_bind _ _ _ _ (check_overflow_value_ok b o)); [auto with tame | intros a; destruct values eqn:Hv; pose proof tame_check_page_ref; tame_run; exact (tame_overflow (overflow_insert b) (records_anywhere Hv)) |].
    intros _ Hb. assert (forall c, Overflow b = Overflow c -> exists bytes, blob_at c bytes) as Hbs by now intros c [= <-].
    destruct values as [| |primary] eqn:Hv; [now apply holds_ret | now eapply holds_weaken; [apply holds_any|] |].
    apply (holds_bind _ _ _ _ (holds_walk_page b)); [auto with tame | intros a; pose proof (tame_check_page_ref primary); tame_run |].
    intros ? (pin & -> & _ & Hf & _). destruct (pin_view pin) as [w|er] eqn:Hw; [|apply holds_failed]. apply pin_view_Ok in Hw.
    eapply holds_weaken; [exact (check_page_ref_ok primary records (blob_payload w) o Hv (fun key => finds_in primary key Hv))|]. eauto 10.
Qed.

Definition values_from (v : PageView) (i n : nat) : Prop :=
  forall j e, (i <= j < n)%nat -> leaf_entry v (Z.of_nat j) = Ok e -> value_ok v e.

Lemma leaf_entries_ok v o keys : tree_node o v keys -> view_kind v = Leaf -> separators_are_inexact E v = false -> forall n i w,
  (i + n)%nat = length keys -> walk_ok w ->
  holds (leaf_entries options t values n (Z.of_nat i) v o w) (fun r => exists w', r = Some w' /\ walk_ok w' /\
    values_from v i (length keys) /\ (forall p k, last_seen w = Some p -> keys !! i = Some k -> ord p k = Lt) /\
    last_seen w' = match last (drop i keys) with Some k => Some k | None => last_seen w end).
Proof.
  intros Hn Hk Hex n. induction n as [|n IH]; intros i w Hlen Hw; cbn [leaf_entries].
  { apply holds_ret. exists w. rewrite drop_ge by lia. split_and!; auto; [intros j e; lia|]. intros p k _ Hi. apply lookup_lt_Some in Hi. lia. }
  apply holds_unless_full; [auto with tame | tame_run |].
  destruct (leaf_entry v (Z.of_nat i)) as [e|er] eqn:He; [|apply holds_after_failed; auto with tame].
  destruct (lookup_lt_is_Some_2 keys i ltac:(lia)) as [k Hi]. pose proof (node_key_ok t o v keys i k Hn Hi) as Hok.
  apply (holds_bind _ _ _ _ (value_checked v o e)); [auto with tame | intros a; tame_run |]. intros _ Hval.
  apply (holds_bind _ _ _ _ (read_entry_key_ok v o keys i k e (fw_key w) Hn Hk Hi He)); [auto with tame | intros a; tame_run |].
  intros ? (buf & ->). rewrite Hex.
  apply (holds_bind _ _ _ _ (compare_entries_ok o w k Hw Hok)); [auto with tame | intros a; tame_run |]. intros ? [-> Hcmp]. cbn [negb].
  apply (holds_bind _ _ _ _ (kb_assign_ok k (fw_previous w))); [auto with tame | intros a; tame_run |]. intros previous Hprev.
  apply (holds_bind _ _ _ _ (holds_any _)); [tame_run | intros a; tame_run |]. intros _ _.
  replace (Z.of_nat i + 1) with (Z.of_nat (S i)) by lia.
  eapply holds_weaken; [apply (IH (S i)); [lia|]|].
  - split; [reflexivity|]. intros p [= <-]. now rewrite Hprev.
  - intros r (w' & -> & Hw' & Hvs & _ & Hlast). exists w'. split_and!; auto.
    { intros j e' Hj He'. destruct (decide (j = i)) as [->|]; [replace e' with e by congruence; exact Hval | apply (Hvs j); [lia | exact He']]. }
    { intros p k' Hp Hk'. replace k' with k by congruence. auto. }
    rewrite Hlast. rewrite (drop_S keys k i Hi), last_cons. cbn [last_seen fw_has_previous fw_previous]. rewrite Hprev.
    now destruct (last (drop (S i) keys)).
Qed.
Abbreviation leaf_ok := (leaf_ok (file := file) t).
Abbreviation keys_of ls := (concat (map lp_keys ls)).

Lemma leaf_keys_ok leaves k : Forall leaf_ok leaves -> k ∈ keys_of leaves -> key_ok k.
Proof.
  intros Hl Hk. apply elem_of_concat in Hk as (i & ks & Hi & Hk). change (map lp_keys leaves) with (lp_keys <$> leaves) in Hi.
  apply list_lookup_fmap_Some in Hi as (l & -> & Hi). apply (leaf_key_ok t leaves l k Hl); [|exact Hk]. eapply list_elem_of_lookup_2; eauto.
Qed.

(** Keys in order after [prev]. *)
Definition after (prev : option (list byte)) (keys : list (list byte)) : Prop :=
  forall p, prev = Some p -> Forall (key_lt E p) keys.

Lemma after_keys prev keys :
  (forall p, prev = Some p -> key_ok p) -> Forall key_ok keys -> StronglySorted (key_lt E) keys ->
  (forall p k, prev = Some p -> keys !! 0%nat = Some k -> ord p k = Lt) -> after prev keys.
Proof.
  intros Hp Hok Hs H0 p ->. destruct keys as [|k keys]; constructor; [now apply H0|].
  apply Forall_cons in Hok as [Hk Hok]. apply StronglySorted_inv in Hs as [_ Hs]. rewrite Forall_forall in *.
  intros x Hx. apply (ord_trans E p k x); auto. rewrite (Hs x Hx). discriminate.
Qed.

Lemma sorted_join prev keys rest :
  (forall p, prev = Some p -> key_ok p) -> Forall key_ok keys -> Forall key_ok rest ->
  StronglySorted (key_lt E) keys -> StronglySorted (key_lt E) rest -> after prev keys ->
  after (match last keys with Some k => Some k | None => prev end) rest ->
  StronglySorted (key_lt E) (keys ++ rest) /\ after prev (keys ++ rest).
Proof.
  intros Hp Hk Hr Hsk Hsr Ha Hb. destruct keys as [|z keys _] using rev_ind; [cbn in *; auto|].
  rewrite last_snoc in Hb. specialize (Hb z eq_refl).
  assert (forall x, key_ok x -> key_lt E x z \/ x = z -> Forall (key_lt E x) rest) as Hz.
  { intros x Hx [Hlt| ->]; [|exact Hb]. rewrite Forall_forall in *. intros y Hy. apply (ord_trans E x z y); auto; [|rewrite (Hb y Hy); discriminate].
    apply Hk. apply elem_of_app. right. now left. }
  split.
  - apply StronglySorted_app_2; auto. intros x y Hx Hy. assert (key_ok x) as Hkx by (rewrite Forall_forall in Hk; now apply Hk).
    assert (key_lt E x z \/ x = z) as Hxz.
    { apply elem_of_app in Hx as [Hx|Hx%list_elem_of_singleton]; [left | now right].
      apply list_elem_of_split in Hx as (l1 & l2 & ->). rewrite <- app_assoc in Hsk. apply StronglySorted_app_1_r in Hsk.
      cbn in Hsk. apply StronglySorted_inv in Hsk as [_ Hsk]. rewrite Forall_forall in Hsk. apply Hsk. apply elem_of_app. right. now left. }
    specialize (Hz x Hkx Hxz). rewrite Forall_forall in Hz. now apply Hz.
  - intros p Hpp. apply Forall_app. split; [now apply Ha|]. apply (Hz p (Hp p Hpp)). left. specialize (Ha p Hpp).
    apply Forall_app in Ha as [_ Ha]. now apply Forall_cons in Ha as [Ha _].
Qed.

Definition values_ok (l : LeafInfo) : Prop :=
  forall j e, 0 <= j -> leaf_entry (lp_view l) j = Ok e -> value_ok (lp_view l) e.

Lemma values_from_ok o v keys : tree_node o v keys -> values_from v 0 (length keys) -> values_ok (mkLeafInfo o v keys).
Proof.
  intros (Ha & _ & Hsp) Hv j e Hj He. cbn in *. pose proof (sp_count _ _ _ Hsp) as Hz. unfold zlen in Hz.
  pose proof (leaf_entry_inv v j e (page_wf o v Ha) He) as (_ & Hlt & _).
  rewrite <- (Z2Nat.id j Hj) in He. apply (Hv (Z.to_nat j)); [lia | exact He].
Qed.

Lemma leaf_chain_ok steps : forall o pin left w,
  is_page o pin -> walk_ok w ->
  holds (leaf_chain options t values steps pin left w) (fun _ => exists leaves, Forall leaf_ok leaves /\ Forall values_ok leaves /\ chained left leaves /\
    lp_ordinal <$> head leaves = Some o /\ StronglySorted (key_lt E) (keys_of leaves) /\ after (last_seen w) (keys_of leaves)).
Proof.
  induction steps as [|steps IH]; intros o pin left w Hp Hw; cbn [leaf_chain];
    (apply holds_unless_full; [auto with tame | tame_run |]); [apply holds_problem|].
  pose proof Hp as (Ho & _). rewrite Ho. destruct (pin_view pin) as [v|e] eqn:Hv; [|apply holds_failed].
  pose proof (pin_page_at o pin v Hp Hv) as Ha.
  destruct (bool_decide_reflect (view_kind v <> Leaf)) as [|Hk%dec_stable]; [apply holds_problem|].
  apply (holds_bind _ _ (fun _ => left_sibling v = left)); [|tame_run | intros a; tame_run |].
  { destruct (bool_decide_reflect (left_sibling v <> left)) as [|Hl%dec_stable]; [apply holds_problem | now apply holds_ret]. }
  intros _ Hleft. apply (holds_bind _ _ _ _ (check_page_digests_ok v o)); [auto with tame | intros a; tame_run |]. intros _ Hchk.
  destruct (checked_node t o v Ha Hchk) as (keys & Hn & Hex & _). pose proof Hn as (_ & _ & Hsp). pose proof (sp_count _ _ _ Hsp) as Hz.
  replace (Z.to_nat (entry_count v)) with (length keys) by (unfold zlen in Hz; lia).
  apply (holds_bind _ _ _ _ (leaf_entries_ok v o keys Hn Hk Hex (length keys) 0 w eq_refl Hw)); [auto with tame | intros a; tame_run |].
  intros ? (w' & -> & Hw' & Hvs & Hfirst & Hlast). rewrite drop_0 in Hlast. apply (values_from_ok o v keys Hn) in Hvs.
  assert (after (last_seen w) keys) as Haft by (apply after_keys; [apply Hw | apply (sp_ok _ _ _ Hsp) | apply (sp_ascending _ _ _ Hsp) | exact Hfirst]).
  assert (leaf_ok (mkLeafInfo o v keys)) as Hlok by (split; [exact Hn | exact Hk]).
  destruct (right_sibling v) as [sib|] eqn:Hr.
  - apply (holds_bind _ _ _ _ (holds_walk_page sib)); [auto with tame | intros a; tame_run |]. intros ? (next & -> & Hnext).
    eapply holds_weaken; [exact (IH sib next (Some o) w' Hnext Hw')|].
    intros _ (leaves & Hl & Hvl & Hc & Hh & Hs & Hb). exists (mkLeafInfo o v keys :: leaves).
    rewrite Hlast in Hb. assert (Forall key_ok (keys_of leaves)) as Hrok by (apply Forall_forall; intros k; now apply leaf_keys_ok).
    destruct (sorted_join (last_seen w) keys (keys_of leaves) (proj2 Hw) (sp_ok _ _ _ Hsp) Hrok (sp_ascending _ _ _ Hsp) Hs Haft Hb) as [H1 H2].
    split_and!; auto. cbn. split_and!; auto. rewrite Hr. now destruct leaves.
  - apply holds_ret. exists [mkLeafInfo o v keys]. cbn. rewrite app_nil_r. split_and!; auto. apply (sp_ascending _ _ _ Hsp).
Qed.
(** * The tree *)

(** Pages are numbered below the page count. *)
Context (Hfile : forall o bytes, file o = Some bytes -> 0 <= o < page_count) (Hcount : page_count <= u64_max).

Lemma distinct_pages (l : list PageOrdinal) n : 0 <= n -> NoDup l -> Forall (fun o => 0 <= o < n) l -> zlen l <= n.
Proof.
  intros Hn Hd Hl. unfold zlen. rewrite <- (Z2Nat.id n Hn), <- (length_seqZ 0 n). apply Nat2Z.inj_le, submseteq_length, NoDup_submseteq; [exact Hd|].
  intros o Ho. rewrite Forall_forall in Hl. specialize (Hl o Ho). apply elem_of_seqZ. lia.
Qed.

Lemma leaf_page_in_file l : leaf_ok l -> 0 <= lp_ordinal l < page_count.
Proof. intros [((bytes & Hf & _) & _) _]. exact (Hfile _ _ Hf). Qed.

(** The leaves reached from one root are all of a well-formed tree. *)
Lemma verified_leaves h root bottoms leaves :
  tree_root t = Some root -> Z.of_nat h < max_depth -> descends h [root] bottoms -> lp_ordinal <$> leaves = bottoms ->
  Forall leaf_ok leaves -> chained None leaves -> StronglySorted (key_lt E) (keys_of leaves) ->
  well_formed (file := file) (page_count := page_count) (max_depth := max_depth) t h root leaves /\ settled leaves.
Proof.
  intros Hroot Hdepth Hd Hb Hl Hc Hs. destruct (assemble t h [root] bottoms leaves Hd Hb Hl Hs) as (lss & Hcat & Hsub & _).
  apply Forall2_cons_inv_l in Hsub as (ls & rest & Hsub & Hnil & ->). apply Forall2_nil_inv_l in Hnil as ->. cbn in Hcat. rewrite app_nil_r in Hcat. subst ls.
  assert (match h with O => True | S _ => Forall (fun l => lp_keys l <> []) leaves end) as Hne.
  { destruct h as [|h]; [trivial|]. pose proof (descends_children t h _ _ Hd) as Hco. rewrite <- Hb, Forall_fmap in Hco.
    rewrite Forall_forall in *. intros l Hin Hk. destruct (Hco l Hin) as [k Hk']. pose proof (declared_leaf t l k (Hl l Hin) Hk') as Hh.
    rewrite Hk in Hh. discriminate. }
  assert (h = 0%nat -> exists l, leaves = [l]) as Hone by (intros ->; destruct Hsub as (v & keys & _ & _ & ->); eauto).
  split.
  - split; auto. split; [|exact Hcount]. unfold zlen. rewrite <- (length_fmap lp_ordinal leaves).
    apply (distinct_pages (lp_ordinal <$> leaves)).
    + destruct (subtree_leaves t h root leaves Hsub) as [Hnil _]. destruct Hl as [|l ls Hl0 _]; [contradiction|].
      pose proof (leaf_page_in_file l Hl0). lia.
    + destruct h; [destruct (Hone eq_refl) as [l ->]; apply NoDup_singleton | now apply (leaves_distinct (file := file) t)].
    + apply Forall_fmap. eapply Forall_impl; [exact Hl|]. apply leaf_page_in_file.
  - intros l Hin Hk. destruct h; [destruct (Hone eq_refl) as [l' ->]; apply list_elem_of_singleton in Hin; now subst|].
    rewrite Forall_forall in Hne. now apply Hne in Hin.
Qed.

Lemma verify_tree_ok :
  holds (verify_tree options t values) (fun _ => match tree_root t with
    | None => True
    | Some root => exists h leaves,
        well_formed (file := file) (page_count := page_count) (max_depth := max_depth) t h root leaves /\
        settled leaves /\ Forall values_ok leaves
    end).
Proof.
  unfold verify_tree. apply (holds_bind _ _ _ _ (holds_any _)); [tame_run | intros a; tame_run |]. intros _ _.
  apply (holds_bind _ _ _ _ (holds_any _)); [auto with tame | intros a; tame_run |]. intros charge _.
  apply (holds_bind _ _ _ _ (verify_internal_levels_ok _)); [auto with tame | intros a; tame_run |]. intros [leftmost previous] Hlev.
  cbn [fst] in Hlev. destruct (tree_root t) as [root|] eqn:Hroot; [|subst leftmost; now apply holds_ret].
  destruct Hlev as (h & bottoms & first & -> & Hdepth & Hd & Hlink & Hhead).
  apply (holds_bind _ _ _ _ (holds_any _)); [auto with tame | intros a; tame_run |]. intros pages _.
  apply (holds_bind _ _ _ _ (holds_any _)); [auto with tame | intros a; tame_run |]. intros key_charge _.
  apply (holds_bind _ _ _ _ (holds_walk_page first)); [auto with tame | intros a; tame_run |]. intros ? (pin & -> & Hp).
  eapply holds_weaken; [apply (leaf_chain_ok _ first pin None _ Hp); split; [reflexivity | discriminate]|].
  intros _ (leaves & Hl & Hv & Hc & Hh & Hs & _). exists h, leaves.
  assert (lp_ordinal <$> leaves = bottoms) as Hb.
  { eapply same_pages; [exact Hc | | exact Hlink | now rewrite Hh, Hhead]. eapply Forall_impl; [exact Hl|]. now intros l [[Ha _] _]. }
  destruct (verified_leaves h root bottoms leaves Hroot Hdepth Hd Hb Hl Hc Hs) as [H1 H2]. auto.
Qed.
End Logic.

(** * What the walk over a table records

    The bits that are set while the leaves are walked are those of the pages
    the leaves keep their values on. *)

Definition on_own_page (leaves : list LeafInfo) (b : PageOrdinal) : Prop :=
  exists l j e, l ∈ leaves /\ leaf_entry (lp_view l) j = Ok e /\ le_value e = Overflow b.

Abbreviation anywhere := (fun _ : PageOrdinal => True).

#[export] Instance Records_anywhere values : Records anywhere values.
Proof. easy. Qed.

Ltac walk_tame :=
  repeat first
    [ progress auto with tame
    | lazymatch goal with |- forall _, _ => intros ? end
    | apply tame_bind; [|intros ?]
    | solve [apply tame_count; auto]
    | lazymatch goal with
      | |- tame _ _ (match ?x with _ => _ end) => destruct x
      | |- tame _ _ (let '_ := ?x in _) => destruct x
      end ].

#[export] Hint Resolve tame_ret tame_in_store : tame.
#[export] Hint Extern 1 (spares _ (cs_try_reserve _)) => (apply spares_try_reserve; exact _) : tame.
#[export] Hint Extern 1 (tame _ _ file_pages) => (apply tame_file_pages; assumption || exact _) : tame.
#[export] Hint Extern 1 (tame _ _ (verify_internal_levels _ _ _)) => (apply tame_verify_internal_levels; exact _) : tame.
#[export] Hint Extern 1 (tame _ _ (walk_page _ _)) => (apply tame_walk_page; exact _) : tame.
#[export] Hint Extern 1 (tame _ _ (leaf_chain _ _ _ _ _ _ _)) => (apply tame_leaf_chain; exact _) : tame.

Section Recorded.
Context {Store : Type} {TS : TreeStore Store} {CS : CursorStore Store}.
Context {file : PageOrdinal -> option (list byte)} {page_count max_depth : Z}.
Context {SL : StoreLaws Store file page_count max_depth} {CL : CursorLaws Store SL}.
Context (options : VerifyOptions) (Hmax : 0 < vo_max_problems options).
Context (I : Store -> Prop) {HI : StoreInv I}.
Context (t : Tree) (values : ValueKind) {HK : LookupKeeps I values}.
Context {HL : LawfulEncoding (tree_encoding t)} {HC : CheckableEncoding (tree_encoding t)}.
Context {HF : FindsIn I anywhere values nil}.
Context (Hfile : forall o bytes, file o = Some bytes -> 0 <= o < page_count) (Hcount : page_count <= u64_max).
Abbreviation VM A := (SM (Reporter Store) Error A).

(** One step of a run that ends well. *)
Lemma clean_step {A C} (m : VM A) (f : A -> VM C) P s r s' :
  (forall own, tame I own m) -> holds I anywhere m P -> (forall a, tame I anywhere (f a)) -> I (rp_store s) -> clean s -> clean s' ->
  sbind m f s = (Ok r, s') ->
  exists a s1, P a /\ I (rp_store s1) /\ clean s1 /\ (forall own, within own s -> within own s1) /\ f a s1 = (Ok r, s').
Proof.
  intros Hm Hh Hf Hs Hc Hc' Hrun. unfold sbind in Hrun. destruct (Hm anywhere s Hs) as (Hs1 & _ & _).
  specialize (Hh s Hs (fun _ _ _ => Logic.I) Hc). pose proof (fun own => proj2 (proj2 (Hm own s Hs))) as Hw.
  destruct (m s) as [[a|e] s1]; [|discriminate]. cbn in *. destruct (Hf a s1 Hs1) as (_ & Hc1 & _). rewrite Hrun in Hc1. cbn in Hc1.
  exists a, s1. auto.
Qed.

(** The pages of a chain are the pages of its leaves. *)
Lemma chain_page_in leaves : forall left o o',
  Forall (fun l => page_at (file := file) (lp_ordinal l) (lp_view l)) leaves -> chained left leaves ->
  lp_ordinal <$> head leaves = Some o -> chain_page (file := file) o o' -> exists l, l ∈ leaves /\ lp_ordinal l = o'.
Proof.
  induction leaves as [|l leaves IH]; intros left o o' Hl Hc Hh Hp; [discriminate|]. injection Hh as <-.
  apply Forall_cons in Hl as [Hl Hls]. destruct Hc as (_ & Hr & Hc). inversion Hp as [|? v' next ? Hv' Hright Hp']; subst; [exists l; split; [left | reflexivity]|].
  rewrite (page_at_unique _ _ _ Hv' Hl), Hr in Hright. destruct (IH _ _ _ Hls Hc Hright Hp') as (l' & Hin & Ho).
  exists l'. split; [now right | exact Ho].
Qed.

Lemma verify_tree_records s s' :
  I (rp_store s) -> clean s -> clean s' -> verify_tree options t values s = (Ok tt, s') ->
  match tree_root t with
  | None => forall own, within own s -> within own s'
  | Some root => exists h leaves,
      well_formed (file := file) (page_count := page_count) (max_depth := max_depth) t h root leaves /\ settled leaves /\
      Forall (values_ok (file := file) anywhere values []) leaves /\
      forall own, within own s -> (forall b, on_own_page leaves b -> own b) -> within own s'
  end.
Proof.
  intros Hs Hc Hc' Hrun. unfold verify_tree in Hrun.
  apply (clean_step _ _ (fun _ => True)) in Hrun as (_ & s1 & _ & Hs1 & Hc1 & Hw1 & Hrun); [|walk_tame | apply holds_any | walk_tame | assumption..].
  apply (clean_step _ _ (fun _ => True)) in Hrun as (charge & s2 & _ & Hs2 & Hc2 & Hw2 & Hrun); [|walk_tame | apply holds_any | walk_tame | assumption..].
  eapply clean_step in Hrun as ([leftmost previous] & s3 & Hlev & Hs3 & Hc3 & Hw3 & Hrun);
    [|walk_tame | exact (verify_internal_levels_ok options Hmax I anywhere t _) | walk_tame | assumption..].
  cbn [fst] in Hlev. destruct (tree_root t) as [root|] eqn:Hroot; [|subst leftmost; injection Hrun as <-; auto].
  destruct Hlev as (h & bottoms & first & -> & Hdepth & Hd & Hlink & Hhead).
  apply (clean_step _ _ (fun _ => True)) in Hrun as (pages & s4 & _ & Hs4 & Hc4 & Hw4 & Hrun); [|walk_tame | apply holds_any | walk_tame | assumption..].
  apply (clean_step _ _ (fun _ => True)) in Hrun as (key_charge & s5 & _ & Hs5 & Hc5 & Hw5 & Hrun); [|walk_tame | apply holds_any | walk_tame | assumption..].
  apply (clean_step _ _ (fun r => exists pin, r = Some pin /\ is_page first pin)) in Hrun as (? & s6 & (pin & -> & Hp) & Hs6 & Hc6 & Hw6 & Hrun);
    [|walk_tame | exact (holds_walk_page options I anywhere first) | walk_tame | assumption..].
  match type of Hrun with leaf_chain _ _ _ ?n _ _ ?w _ = _ => set (steps := n) in Hrun; set (start := w) in Hrun end.
  assert (walk_ok t start) as Hstart by (split; [reflexivity | discriminate]).
  pose proof (leaf_chain_ok options Hmax I anywhere t values [] steps first pin None start Hp Hstart s6 Hs6 (fun _ _ _ => Logic.I) Hc6) as H.
  rewrite Hrun in H. destruct (H Hc') as (leaves & Hl & Hv & Hch & Hh & Hs' & _). exists h, leaves.
  assert (Forall (fun l => page_at (file := file) (lp_ordinal l) (lp_view l)) leaves) as Hat
    by (eapply Forall_impl; [exact Hl | now intros l [[Ha _] _]]).
  assert (lp_ordinal <$> leaves = bottoms) as Hb by (eapply same_pages; [exact Hch | exact Hat | exact Hlink | now rewrite Hh, Hhead]).
  destruct (verified_leaves t Hfile Hcount h root bottoms leaves Hroot Hdepth Hd Hb Hl Hch Hs') as [Hwf Hset].
  split_and!; auto. intros own Hown Hleaves.
  destruct (tame_leaf_chain_at options I own t values steps first pin None start Hp) with (s := s6) as (_ & _ & Hend); [|exact Hs6 | rewrite Hrun in Hend; auto 10].
  intros _ b (o' & v & j & e & Hcp & Ha & He & Hb'). apply Hleaves. destruct (chain_page_in leaves None first o' Hat Hch Hh Hcp) as (l & Hin & <-).
  exists l, j, e. split; [exact Hin|]. rewrite Forall_forall in Hat. now rewrite (page_at_unique _ _ _ (Hat l Hin) Ha).
Qed.
End Recorded.
