(* ===== verification/VerifySound.v ===== *)
(** What a clean verification means.

    [VerifyFacts.v] follows the walk; here its two uses.  A tree of records that
    verifies without a problem satisfies everything the searches and the cursors
    assume of a tree, and an index that does leads to the records of its table. *)

From Stdlib Require Import ZArith Lia.
From stdpp Require Import base list gmap.
From coqutil Require Import Byte.
From S2P Require Import Prelude Errors Format PageRef Node Encoding Budget Page TreePage Btree Query Cursor PageWriter TreeWriter EndToEnd Verify VerifyFacts.

#[local] Open Scope Z_scope.
#[local] Open Scope drydb_scope.

(** A report with nothing in it, from a pass that nothing stopped. *)
Definition passed {Store} (s : Reporter Store) : Prop :=
  is_ok (rp_report s) = true /\ rp_failure s = None.

Lemma passed_clean {Store} (s : Reporter Store) : passed s -> clean s.
Proof.
  intros [Hok Hf]. unfold is_ok in Hok. unfold clean.
  destruct (vr_problems (rp_report s)); [|discriminate]. now destruct (vr_truncated (rp_report s)).
Qed.

(** An encoding whose digest refuses what is not a key. *)
Class DigestGuards (E : KeyEncoding) `{!LawfulEncoding E} : Prop :=
  digest_guards : forall key d, ke_digest E key = Ok d -> key_ok key.

#[export] Instance Ascii_guards : DigestGuards AsciiEncoding.
Proof. easy. Qed.
#[export] Instance Ulid_guards : DigestGuards UlidEncoding.
Proof. easy. Qed.
#[export] Instance Int64_guards : DigestGuards Int64Encoding.
Proof. intros key d. simpl. unfold Int64_digest, Int64_decode, need_len. intros. inv_ok. bool_lia. Qed.
#[export] Instance Uuidv7_guards : DigestGuards Uuidv7Encoding.
Proof. intros key d. simpl. unfold Uuidv7_digest, Uuidv7_fields, need_len. intros. inv_ok. bool_lia. Qed.

Section Sound.
Context {Store : Type} {TS : TreeStore Store} {CS : CursorStore Store}.
Context {file : PageOrdinal -> option (list byte)} {page_count max_depth : Z}.
Context {SL : StoreLaws Store file page_count max_depth} {CL : CursorLaws Store SL}.
Context (Hfile : forall o bytes, file o = Some bytes -> 0 <= o < page_count) (Hcount : page_count <= u64_max).
Abbreviation well_formed := (well_formed (file := file) (page_count := page_count) (max_depth := max_depth)).

#[local] Instance store_ok_inv : StoreInv store_ok.
Proof. split; auto. Qed.

Lemma tree_inv_inv t : 1 <= tree_id t -> StoreInv (tree_inv t).
Proof. intros Hid. split; [intros s []; auto | intros s s' Hs Hok Hev; exact (tree_inv_evolves t Hid s s' Hs Hok Hev)]. Qed.

(** Looking a record up in a tree that is well formed, with any bytes as key. *)
Lemma find_in_leaves primary h root leaves key s :
  1 <= tree_id primary -> forall `{HL : !LawfulEncoding (tree_encoding primary)} `{!CheckableEncoding (tree_encoding primary)} `{!DigestGuards (tree_encoding primary)},
  well_formed primary h root leaves -> tree_inv primary s ->
  tree_inv primary (snd (find primary key s)) /\
  forall pin i, fst (find primary key s) = Ok (Some (pin, i)) -> exists l, l ∈ leaves /\ on_leaf l pin.
Proof.
  intros Hid HL HC HG Hwf Hs. unfold find. destruct (ke_digest (tree_encoding primary) key) as [d|e] eqn:Hd.
  - destruct (search_spec primary Hid h root leaves key Equal Hwf (digest_guards _ _ Hd) s Hs) as [Hinv Hr]. split; [exact Hinv|].
    intros pin i Hf. rewrite Hf in Hr. destruct (first_in _ _ _ _) as [[l j]|] eqn:Hfi; [|contradiction].
    exists l. apply first_in_Some in Hfi as (L1 & L2 & -> & _). split; [apply elem_of_app; right; now left | apply Hr].
  - unfold search. rewrite Hd. now split.
Qed.

Lemma clean_run (I : Store -> Prop) own {A} (m : SM (Reporter Store) Error A) (Q : A -> Prop) s a s' :
  tame I own m -> holds I own m Q -> I (rp_store s) -> within own s -> m s = (Ok a, s') -> passed s' -> Q a.
Proof.
  intros Ht Hh Hs Hw Hrun Hp%passed_clean. destruct (Ht s Hs) as (_ & Hc & _). specialize (Hh s Hs Hw). rewrite Hrun in *. apply Hh; auto.
Qed.

Definition of_records (values : ValueKind) : Prop := match values with ReferenceValues _ => False | _ => True end.

(** Every value that is not on its leaf is on a page of its own. *)
Definition leads (l : LeafInfo) : Prop :=
  forall j e, 0 <= j -> leaf_entry (lp_view l) j = Ok e -> overflow_ok (file := file) e.

(** Every value is a reference to one of the records, which keep values of
    their own on these pages. *)
Definition points (own : PageOrdinal -> Prop) (records : list LeafInfo) (l : LeafInfo) : Prop :=
  forall j e, 0 <= j -> leaf_entry (lp_view l) j = Ok e ->
    exists value, entry_value (file := file) (lp_view l) e value /\ refers (file := file) own records value.

Lemma points_mono (own own' : PageOrdinal -> Prop) records l :
  (forall b, own b -> own' b) -> points own records l -> points own' records l.
Proof.
  intros Hsub Hp j e Hj He. destruct (Hp j e Hj He) as (value & Hv & r & Hr & Hcase). exists value. split; [exact Hv|].
  exists r. split; [exact Hr|]. destruct Hcase as [H|[Ho H]]; auto.
Qed.

Lemma verified_tree options t values s s' :
  forall `{HL : !LawfulEncoding (tree_encoding t)} `{HC : !CheckableEncoding (tree_encoding t)},
  0 < vo_max_problems options -> of_records values -> store_ok (rp_store s) ->
  verify_tree options t values s = (Ok tt, s') -> passed s' ->
  match tree_root t with
  | None => True
  | Some root => exists h leaves, well_formed t h root leaves /\ settled leaves /\ Forall leads leaves
  end.
Proof.
  intros HL HC Hmax Hv Hs Hrun Hp.
  assert (LookupKeeps store_ok values) as HK by (intros primary key ->; contradiction).
  assert (FindsIn store_ok anywhere values []) as HF by (intros primary key ->; contradiction).
  pose proof (clean_run _ _ _ _ s tt s' (tame_verify_tree options _ anywhere t values) (verify_tree_ok options Hmax _ anywhere t values [] Hfile Hcount) Hs (fun _ _ _ => Logic.I) Hrun Hp) as H.
  destruct (tree_root t) as [root|]; [|exact I]. destruct H as (h & leaves & Hwf & Hset & Hval). exists h, leaves. split_and!; auto.
  eapply Forall_impl; [exact Hval|]. intros l Hl j e Hj He. exact (proj1 (Hl j e Hj He)).
Qed.

(** A tree of records that verifies is a tree.  Whatever the pages of the file
    are, when the pass over a tree comes to its end with an empty report and
    nothing stopped it, the tree satisfies what the searches, the counts and the
    cursors assume: the pages below the root form a tree of one height below the
    depth limit with every leaf on one chain, the pages pass their check, the
    separators split the keys, the keys ascend over the whole chain, no leaf but
    a lone root is empty, and a value that is not on its leaf is on a page of
    its own. *)
Theorem verified_tree_is_well_formed options t values s s' :
  forall `{HL : !LawfulEncoding (tree_encoding t)} `{HC : !CheckableEncoding (tree_encoding t)},
  0 < vo_max_problems options -> of_records values -> store_ok (rp_store s) ->
  verify_tree options t values s = (Ok tt, s') -> passed s' ->
  match tree_root t with
  | None => True
  | Some root => exists h leaves, well_formed t h root leaves /\ settled leaves /\ Forall leads leaves
  end.
Proof. intros HL HC. exact (verified_tree options t values s s'). Qed.

(** An index that verifies leads to the records of its table.  Over a table
    whose own tree is well formed, when the pass over one of its indexes comes to
    its end with an empty report, the index is a well-formed tree itself, and the
    value of every entry of it, wherever it is kept, is a reference that is
    exactly the value of a record on one of the leaves of the table or exactly
    the payload of a page the records keep a value on. *)
Theorem verified_index_leads_to_records options own t primary h root leaves s s' :
  forall `{HL : !LawfulEncoding (tree_encoding t)} `{HC : !CheckableEncoding (tree_encoding t)},
  forall `{HP : !LawfulEncoding (tree_encoding primary)} `{!CheckableEncoding (tree_encoding primary)} `{!DigestGuards (tree_encoding primary)},
  0 < vo_max_problems options -> 1 <= tree_id primary -> well_formed primary h root leaves -> tree_inv primary (rp_store s) -> within own s ->
  verify_tree options t (ReferenceValues primary) s = (Ok tt, s') -> passed s' ->
  match tree_root t with
  | None => True
  | Some root => exists h keys, well_formed t h root keys /\ settled keys /\ Forall (points own leaves) keys
  end.
Proof.
  intros HL HC HP HCP HG Hmax Hid Hwf Hs Hown Hrun Hp. pose proof (tree_inv_inv primary Hid) as HI.
  assert (LookupKeeps (tree_inv primary) (ReferenceValues primary)) as HK.
  { intros p key [= <-] st Hst. apply (find_in_leaves primary h root leaves key st Hid Hwf Hst). }
  assert (Records own (ReferenceValues primary)) as HR by discriminate.
  assert (FindsIn (tree_inv primary) own (ReferenceValues primary) leaves) as HF.
  { intros p key [= <-] st Hst _ _ _. unfold attempt. pose proof (find_in_leaves primary h root leaves key (rp_store st) Hid Hwf Hst) as [_ Hf].
    destruct (find primary key (rp_store st)) as [r s0]. intros pin i ->. exact (Hf pin i eq_refl). }
  pose proof (clean_run _ own _ _ s tt s' (tame_verify_tree options _ own t _) (verify_tree_ok options Hmax _ own t _ leaves Hfile Hcount) Hs Hown Hrun Hp) as H.
  destruct (tree_root t) as [r|]; [|exact I]. destruct H as (h' & ks & Hw & Hset & Hval). exists h', ks. split_and!; auto.
  eapply Forall_impl; [exact Hval|]. intros l Hl j e Hj He. exact (proj2 (Hl j e Hj He)).
Qed.
End Sound.

(** ** Examples *)

Definition fresh_reporter {pages} : Reporter (Image pages 64) :=
  mkReporter VerifyReport_default 0 None [] (mkImage ∅).

Lemma image_pages_in_file pages o bytes : image_file pages o = Some bytes -> 0 <= o < zlen pages.
Proof.
  unfold image_file, get_at. destruct (Z.leb_spec 0 o); [|discriminate]. intros Hl%lookup_lt_Some. unfold zlen. lia.
Qed.

Lemma verified_tree_is_well_formed_witness :
  exists h leaves, well_formed (file := image_file sample_pages) (page_count := 5) (max_depth := 64) sample_tree h 0 leaves.
Proof.
  destruct (verified_tree_is_well_formed (SL := Image_laws sample_pages 64) (image_pages_in_file sample_pages) ltac:(discriminate)
    VerifyOptions_default sample_tree PlainValues fresh_reporter (snd (verify_tree VerifyOptions_default sample_tree PlainValues (fresh_reporter (pages := sample_pages)))))
    as (h & leaves & Hwf & _); [reflexivity | exact I | exact I | vm_compute; reflexivity | split; vm_compute; reflexivity | eauto].
Defined.

(** The pages of the sample tree and the one leaf of an index, whose only entry
    refers to the value of the first record. *)
Definition index_leaf : list byte :=
  i32_le 61 ++ i32_le 0 ++ i32_le 1 ++ i64_le (-1) ++ i64_le (-1)
  ++ u64_le (ascii_digest [Byte.x6b]) ++ i32_le 44 ++ u16_le 1 ++ u16_le 16 ++ [Byte.x6b] ++ PageRef_encode (mkPageRef 3 45 0).
Definition indexed_pages : list (list byte) := sample_pages ++ [index_leaf].
Definition index_tree : Tree := mkTree (Some 5) AsciiEncoding 2 true.

Lemma verified_index_leads_to_records_witness :
  exists primary_leaves h leaves,
    well_formed (file := image_file indexed_pages) (page_count := 6) (max_depth := 64) index_tree h 5 leaves /\
    Forall (points (file := image_file indexed_pages) (fun _ => False) primary_leaves) leaves.
Proof.
  destruct (verified_tree (SL := Image_laws indexed_pages 64) (image_pages_in_file indexed_pages) ltac:(discriminate)
    VerifyOptions_default sample_tree PlainValues fresh_reporter (snd (verify_tree VerifyOptions_default sample_tree PlainValues (fresh_reporter (pages := indexed_pages)))))
    as (h & leaves & Hwf & _); [reflexivity | exact I | exact I | vm_compute; reflexivity | split; vm_compute; reflexivity |].
  exists leaves.
  destruct (verified_index_leads_to_records (SL := Image_laws indexed_pages 64) (image_pages_in_file indexed_pages) ltac:(discriminate)
    VerifyOptions_default (fun _ => False) index_tree sample_tree h 0 leaves fresh_reporter
    (snd (verify_tree VerifyOptions_default index_tree (ReferenceValues sample_tree) (fresh_reporter (pages := indexed_pages)))))
    as (h' & ks & Hw & _ & Hpts); [reflexivity | discriminate | exact Hwf | | intros b _; discriminate | vm_compute; reflexivity | split; vm_compute; reflexivity | eauto].
  split; [exact I | | discriminate]. intros b v Hb. cbn in Hb. rewrite lookup_empty in Hb. discriminate.
Defined.

(** A reference to a page without entries counts only when the walk over the
    records has seen the page. *)
Definition stray_leaf : list byte := take 45 index_leaf ++ PageRef_encode (mkPageRef 6 28 3).
Definition stray_pages : list (list byte) := sample_pages ++ [stray_leaf; blob_page_bytes [Byte.x61; Byte.x62; Byte.x63]].
Definition stray_run (bits : OverflowPages) : bool :=
  is_ok (rp_report (snd (verify_tree VerifyOptions_default index_tree (ReferenceValues sample_tree)
    (mkReporter VerifyReport_default 0 None bits (mkImage ∅ : Image stray_pages 64))))).

Example stray_page_is_reported :
  stray_run (OverflowPages_empty 7) = false /\ stray_run (overflow_insert 6 (OverflowPages_empty 7)) = true.
Proof. vm_compute. auto. Qed.

(** What the writer writes verifies, entries and all, and a tree whose first
    separator is not the first key below it does not. *)
Definition demo_verifies (E : KeyEncoding) (page_size : Z) (ey : bool) (entries : list (list byte * list byte)) : bool :=
  match demo_build E page_size ey entries with
  | Some (root, pages) =>
      let run := verify_tree VerifyOptions_default (mkTree (Some root) E 1 true) PlainValues (fresh_reporter (pages := pages)) in
      Prelude.is_ok (fst run) && is_ok (rp_report (snd run)) && (vr_entries_checked (rp_report (snd run)) =? zlen entries)
  | None => false
  end.

Example ascii_tree_verifies : demo_verifies AsciiEncoding 90 true ascii_entries = true.
Proof. vm_compute. reflexivity. Qed.

Example i64_tree_verifies : demo_verifies Int64Encoding 72 false i64_entries = true.
Proof. vm_compute. reflexivity. Qed.

Example wrong_separator_is_reported :
  let pages := [sample_internal; []; []; tiny_leaf Byte.x61 (-1) 4; tiny_leaf Byte.x64 3 (-1)] in
  is_ok (rp_report (snd (verify_tree VerifyOptions_default sample_tree PlainValues (fresh_reporter (pages := pages))))) = false.
Proof. vm_compute. reflexivity. Qed.
