(* ===== verification/VerifyFile.v ===== *)
(** Verification of a whole file, [Database::verify] of
    [crates/drydb/src/verify.rs].

    The pass over all pages, then over every table: its tree, the trees of its
    indexes, and a scan of each index through its cursor whose entries are
    compared with the count.  A database that passes is one whose tables are all
    well formed, so that every query on it is exact. *)

From Stdlib Require Import ZArith Lia.
From stdpp Require Import base list sorting gmap.
From coqutil Require Import Byte.
From S2P Require Import Effects Sink Heap Merger Spool Builder BuilderFacts BuiltFile.
From S2P Require Import Prelude Errors Format PageRef Node Encoding Budget Catalog Page TreePage Btree Query Cursor Index Trees Table.
From S2P Require Import Source Cache Directory Store StoreFacts OpenStore Database DatabaseFacts Verify VerifyFacts VerifySound.

#[local] Open Scope Z_scope.
#[local] Open Scope drydb_scope.

Section Driver.
Context {Store : Type} `{!TreeStore Store} `{!CursorStore Store} (options : VerifyOptions).
Abbreviation VM A := (SM (Reporter Store) Error A).
(** The scan of an index is bounded by fuel, which is no error of the source. *)
Abbreviation DM A := (SM (Reporter Store) Cache.Stop A).

Definition walk {A} (m : VM A) : DM A := fun s => let '(r, s) := m s in (map_err Failed r, s).

Definition error_page (e : Error) : option PageOrdinal := loc_page (err_location e).

(** [cursor.advance()] *)
Definition index_step (ix : IndexInner) (cursor : IndexCursor) : VM (Result bool * IndexCursor) := fun s =>
  let '(r, (cursor, st)) := index_advance ix (cursor, rp_store s) in
  (Ok (r, cursor), mkReporter (rp_report s) (rp_charge s) (rp_failure s) (rp_overflow s) st).

(** The loop over the cursor: how many entries it produced, or [None] when the
    report was full. *)
Fixpoint index_entries (fuel : nat) (ix : IndexInner) (cursor : IndexCursor) (count : Z) : DM (option Z) :=
  match fuel with
  | O => sfail OutOfFuel
  | S fuel =>
      let! '(r, cursor) := walk (index_step ix cursor) in
      match r with
      | Ok true =>
          let! _ := walk (on_report count_entry) in
          let! is_full := walk (full options) in
          if is_full then sret None else index_entries fuel ix cursor (count + 1)
      | Ok false => sret (Some count)
      | Err e =>
          let! _ := walk (failed options (error_page e) e) in
          sret (Some count)
      end
  end.

(** The part of [verify_index] behind the walk of the tree. *)
Definition scan_index (fuel : nat) (ix : IndexInner) : DM unit :=
  let! stop := walk stopped in
  if stop then sret tt
  else
    let! is_full := walk (full options) in
    if is_full then sret tt
    else
      let! cursor := walk (in_store (index_scan ix Ascending)) in
      let! count := index_entries fuel ix cursor 0 in
      match count with
      | None => sret tt
      | Some count =>
          let! counted := walk (attempt (index_count ix)) in
          match counted with
          | Ok counted => if counted =? count then sret tt else walk (problem options None)
          | Err e => walk (failed options (error_page e) e)
          end
      end.

Definition verify_index (fuel : nat) (tb : TableInner) (index_name : Str) : DM unit :=
  let! ix := walk (lift (table_index tb index_name)) in
  let! _ := walk (verify_tree options (ix_tree ix) (ReferenceValues (ti_primary tb))) in
  scan_index fuel ix.

(** After a tree: what stopped the pass is its error, and a full report ends it. *)
Definition end_of_tree : DM bool :=
  let! s := sget in
  match rp_failure s with
  | Some e => sfail (Failed e)
  | None =>
      if vo_max_problems options <=? zlen (vr_problems (rp_report s))
      then let! _ := walk (on_report set_truncated) in sret true
      else sret false
  end.

Fixpoint verify_indexes (fuel : nat) (tb : TableInner) (indexes : list IndexDescriptor) : DM bool :=
  match indexes with
  | [] => sret false
  | index :: indexes =>
      let! _ := verify_index fuel tb (id_name index) in
      let! ended := end_of_tree in
      if ended then sret true else verify_indexes fuel tb indexes
  end.

(** [OverflowPages::new]; a table without an index has none.  Like every charge a
    query holds, its reservation goes back with an [EnvRelease] of the store. *)
Definition overflow_pages (d : TableDescriptor) : DM unit :=
  match td_secondaries d with
  | [] => sret tt
  | _ =>
      let! pages := walk file_pages in
      let! _ := walk (in_store (cs_reserve (saturating_mul (div_ceil pages 64) 8 + BUFFER_OVERHEAD))) in
      smodify (fun s => mkReporter (rp_report s) (rp_charge s) (rp_failure s) (OverflowPages_empty pages) (rp_store s))
  end.

Definition record_values (d : TableDescriptor) : ValueKind :=
  match td_secondaries d with [] => PlainValues | _ => RecordValues end.

Definition verify_table (fuel : nat) (db : Database) (d : TableDescriptor) : DM bool :=
  let! tb := walk (lift (db_table db (td_name d))) in
  let! _ := overflow_pages d in
  let! _ := walk (verify_tree options (ti_primary tb) (record_values d)) in
  let! ended := end_of_tree in
  if ended then sret true else verify_indexes fuel tb (td_secondaries d).

Fixpoint verify_tables (fuel : nat) (db : Database) (ds : list TableDescriptor) : DM bool :=
  match ds with
  | [] => sret false
  | d :: ds =>
      let! ended := verify_table fuel db d in
      if ended then sret true else verify_tables fuel db ds
  end.

(** [for ordinal in 0..page_count]; whether the report was cut short. *)
Definition verify_pages : DM bool :=
  let! pages := walk file_pages in
  let! truncated := walk (sweep options (Z.to_nat pages) 0) in
  let! s := sget in
  match rp_failure s with
  | Some e => sfail (Failed e)
  | None => if truncated then let! _ := walk (on_report set_truncated) in sret true else sret false
  end.

Definition verify_passes (fuel : nat) (db : Database) : DM bool :=
  let! ended := if vo_check_pages options then verify_pages else sret false in
  if ended then sret true
  else if vo_check_trees options then verify_tables fuel db (cat_tables (db_catalog db)) else sret false.

(** [Database::verify]: the report with what it has cost. *)
Definition db_verify (fuel : nat) (db : Database) : SM Store Cache.Stop (Charged VerifyReport) := fun st =>
  if negb (vo_check_pages options) && negb (vo_check_trees options) then (Err (Failed Error_invalid), st)
  else
    match cs_try_reserve 0 st with
    | (Err e, st) => (Err (Failed e), st)
    | (Ok charge, st) =>
        let '(r, s) := verify_passes fuel db (mkReporter VerifyReport_default charge None [] st) in
        (rmap (fun _ => mkCharged (rp_report s) (mkCharge (rp_charge s))) r, rp_store s)
    end.
End Driver.

(** * What a pass without findings shows *)

Section Facts.
Context {Store : Type} {TS : TreeStore Store} {CS : CursorStore Store}.
Context {file : PageOrdinal -> option (list byte)} {page_count max_depth : Z}.
Context {SL : StoreLaws Store file page_count max_depth} {CL : CursorLaws Store SL}.
Context (Hfile : forall o bytes, file o = Some bytes -> 0 <= o < page_count) (Hcount : page_count <= u64_max).
Context (options : VerifyOptions) (Hmax : 0 < vo_max_problems options).
Context (db : Database).
Abbreviation trees := (db_trees (db_tables db)).
Context (Hids : Forall (fun t => 1 <= tree_id t) trees) (Hdistinct : NoDup (map tree_id trees)).
Abbreviation I := (trees_inv trees).
Abbreviation DM A := (SM (Reporter Store) Cache.Stop A).

#[local] Instance trees_store_inv : StoreInv I.
Proof. split; [intros s []; auto | intros s s'; now apply trees_inv_evolves]. Qed.

Section Within.
(** The pages the overflow bits may be set for. *)
Context (own : PageOrdinal -> Prop).

(** As [tame] and [holds] of a walk, with the driver's stops. *)
Definition dtame {A} (m : DM A) : Prop := forall s, I (rp_store s) ->
  I (rp_store (snd (m s))) /\ (clean (snd (m s)) -> clean s) /\ (within own s -> within own (snd (m s))).
Definition dholds {A} (m : DM A) (Q : A -> Prop) : Prop := forall s, I (rp_store s) -> within own s -> clean s -> clean (snd (m s)) ->
  match fst (m s) with Ok a => Q a | Err _ => True end.

Lemma dtame_ret {A} (a : A) : dtame (sret a).
Proof. intros s Hs. simpl. auto. Qed.
Lemma dtame_fail {A} e : dtame (sfail (A := A) e).
Proof. intros s Hs. simpl. auto. Qed.
Lemma dtame_get : dtame sget.
Proof. intros s Hs. simpl. auto. Qed.
Lemma dtame_walk {A} (m : SM (Reporter Store) Error A) : tame I own m -> dtame (walk m).
Proof. intros Hm s Hs. unfold walk. specialize (Hm s Hs). now destruct (m s) as [r s']. Qed.
Lemma dtame_bind {A B} (m : DM A) (f : A -> DM B) : dtame m -> (forall a, dtame (f a)) -> dtame (sbind m f).
Proof.
  intros Hm Hf s Hs. unfold sbind. destruct (Hm s Hs) as (H1 & H2 & H3). destruct (m s) as [[a|e] s']; simpl in *; [|auto].
  destruct (Hf a s' H1) as (H4 & H5 & H6). auto.
Qed.

Lemma dholds_ret {A} (a : A) (Q : A -> Prop) : Q a -> dholds (sret a) Q.
Proof. now intros HQ s _ _ _ _. Qed.
Lemma dholds_any {A} (m : DM A) : dholds m (fun _ => True).
Proof. intros s _ _ _ _. now destruct (fst (m s)). Qed.
Lemma dholds_walk {A} (m : SM (Reporter Store) Error A) Q : holds I own m Q -> dholds (walk m) Q.
Proof. intros Hm s Hs Hw Hc. unfold walk. specialize (Hm s Hs Hw Hc). destruct (m s) as [[a|e] s']; exact Hm. Qed.
Lemma dholds_bind {A B} (m : DM A) (f : A -> DM B) P Q :
  dholds m P -> dtame m -> (forall a, dtame (f a)) -> (forall a, P a -> dholds (f a) Q) -> dholds (sbind m f) Q.
Proof.
  intros Hm Htm Htf Hf s Hs Hw Hc Hc'. unfold sbind in *. destruct (Htm s Hs) as (Hs1 & _ & Hw1). specialize (Hm s Hs Hw Hc).
  destruct (m s) as [[a|e] s1]; simpl in *; [|auto].
  destruct (Htf a s1 Hs1) as (_ & Hc1 & _). specialize (Hc1 Hc'). exact (Hf a (Hm Hc1) s1 Hs1 (Hw1 Hw) Hc1 Hc').
Qed.

(** What is looked up is known afterwards. *)
Lemma dtame_known {A B} (r : Result A) (f : A -> DM B) : (forall a, r = Ok a -> dtame (f a)) -> dtame (sbind (walk (lift r)) f).
Proof. intros Hf s Hs. destruct r as [a|e]; [now apply Hf | simpl; auto]. Qed.
Lemma dholds_known {A B} (r : Result A) (f : A -> DM B) Q : (forall a, r = Ok a -> dholds (f a) Q) -> dholds (sbind (walk (lift r)) f) Q.
Proof. intros Hf s Hs Hw Hc. destruct r as [a|e]; [exact (Hf a eq_refl s Hs Hw Hc) | simpl; auto]. Qed.

#[local] Hint Resolve dtame_ret dtame_fail dtame_get dtame_walk tame_full tame_truncate tame_attempt tame_in_store : tame.
#[local] Hint Extern 1 (tame _ _ (failed _ _ _)) => (apply tame_failed; exact _) : tame.
#[local] Hint Extern 1 (tame _ _ (problem _ _)) => (apply tame_problem; exact _) : tame.
#[local] Hint Extern 1 (tame _ _ file_pages) => (apply tame_file_pages; exact _) : tame.
#[local] Hint Extern 1 (spares _ (cs_reserve _)) => (apply spares_reserve; exact _) : tame.
#[local] Hint Extern 1 (tame _ _ (on_report count_entry)) => apply tame_count; auto : tame.

Ltac dtame_run :=
  repeat first
    [ progress auto with tame
    | apply dtame_bind; [|intros ?]
    | lazymatch goal with |- dtame (match ?x with _ => _ end) => destruct x end ].

(** ** Every step of the driver *)

Lemma table_tree name tb t : db_table db name = Ok tb -> t ∈ table_trees tb -> t ∈ trees.
Proof.
  intros Htb Ht. unfold db_table, by_name in Htb. destruct (List.find _ (db_tables db)) as [p|] eqn:Hfind; [|discriminate]. injection Htb as <-.
  apply find_some in Hfind as [Hp _]. apply list_elem_of_In, in_concat. exists (table_trees (snd p)).
  split; [now apply (in_map (fun p => table_trees (snd p))) | now apply list_elem_of_In].
Qed.

Lemma index_tree_of tb name ix : table_index tb name = Ok ix -> ix_tree ix ∈ table_trees tb.
Proof.
  unfold table_index, by_name. destruct (List.find _ (ti_secondaries tb)) as [p|] eqn:Hfind; [|discriminate]. intros [= <-].
  apply find_some in Hfind as [Hp _]. right. apply list_elem_of_In. now apply (in_map (fun p => ix_tree (snd p))).
Qed.

Lemma tame_lift {A} (r : Result A) : tame I own (lift r).
Proof. intros s Hs. simpl. auto. Qed.
#[local] Hint Resolve tame_lift : tame.

Section OneTable.
Context (tb : TableInner) (Htrees : forall t, t ∈ table_trees tb -> t ∈ trees).

Lemma primary_in : ti_primary tb ∈ trees.
Proof. apply Htrees. left. Qed.

#[local] Instance keeps_lookup values : (forall p, values = ReferenceValues p -> p = ti_primary tb) -> LookupKeeps I values.
Proof. intros H p key ->. rewrite (H p eq_refl). intros s Hs. exact (keeps_search trees Hids Hdistinct (ti_primary tb) primary_in key Equal s Hs). Qed.

Lemma tame_index_step ix c : ix_tree ix ∈ trees -> tame I own (index_step ix c).
Proof.
  intros Hix s Hs. unfold index_step. pose proof (ikeeps_advance trees Hids Hdistinct (ix_tree ix) Hix ix eq_refl (c, rp_store s) Hs) as H.
  destruct (index_advance ix (c, rp_store s)) as [r [c' st]]. simpl in *. auto.
Qed.

Lemma dtame_index_entries fuel ix : ix_tree ix ∈ trees -> forall c n, dtame (index_entries options fuel ix c n).
Proof.
  intros Hix. induction fuel; intros c n; cbn [index_entries]; [auto with tame|].
  apply dtame_bind; [apply dtame_walk; now apply tame_index_step|]. intros [r c']. dtame_run.
Qed.

Lemma dtame_end_of_tree : dtame (end_of_tree options).
Proof. unfold end_of_tree. dtame_run. Qed.
#[local] Hint Resolve dtame_index_entries dtame_end_of_tree : tame.

Lemma spares_of_keeps {A} (m : SM Store Error A) : keeps I m -> spares I m.
Proof. auto. Qed.

Lemma spares_scan ix : ix_tree ix ∈ trees -> spares I (index_scan ix Ascending).
Proof. intros Hix. apply spares_of_keeps, (keeps_index_range trees Hids (ix_tree ix) ix eq_refl). Qed.
Lemma spares_count ix : ix_tree ix ∈ trees -> spares I (index_count ix).
Proof. intros Hix. apply spares_of_keeps, (keeps_index_count trees Hids Hdistinct (ix_tree ix) Hix ix eq_refl). Qed.
#[local] Hint Resolve spares_scan spares_count : tame.

Lemma tame_walk_tree t values : (forall p, values = ReferenceValues p -> p = ti_primary tb) -> Records own values ->
  tame I own (verify_tree options t values).
Proof. intros H HR. pose proof (keeps_lookup values H). apply tame_verify_tree; exact _. Qed.

Lemma dtame_scan_index fuel ix : ix_tree ix ∈ trees -> dtame (scan_index options fuel ix).
Proof.
  intros Hix. unfold scan_index. apply dtame_bind; [apply dtame_walk; unfold stopped; intros s Hs; simpl; auto | intros stop; dtame_run].
Qed.

Lemma dtame_verify_index fuel name : dtame (verify_index options fuel tb name).
Proof.
  unfold verify_index. apply dtame_known. intros ix Hix%index_tree_of%Htrees.
  apply dtame_bind; [apply dtame_walk, tame_walk_tree; congruence || discriminate|]. intros _. now apply dtame_scan_index.
Qed.
#[local] Hint Resolve dtame_verify_index : tame.

Lemma dtame_verify_indexes fuel ds : dtame (verify_indexes options fuel tb ds).
Proof. induction ds; cbn [verify_indexes]; dtame_run. Qed.
End OneTable.

(** ** What each step shows *)

Abbreviation well_formed := (well_formed (file := file) (page_count := page_count) (max_depth := max_depth)).

(** The leaves of the tree of the records, a tree as the queries assume it;
    a table without a root has none. *)
Definition record_leaves (tb : TableInner) `{!LawfulEncoding (tree_encoding (ti_primary tb))} `{!CheckableEncoding (tree_encoding (ti_primary tb))}
    (leaves : list LeafInfo) : Prop :=
  match tree_root (ti_primary tb) with
  | None => leaves = []
  | Some root => exists h, well_formed (ti_primary tb) h root leaves /\ settled leaves /\ Forall (leads (file := file)) leaves
  end.

(** So is the tree of an index, and its entries lead to records: to a value on
    one of these leaves, or to all of a page one of them keeps a value on. *)
Definition index_sound (may : PageOrdinal -> Prop) (leaves : list LeafInfo) (ix : IndexInner) : Prop :=
  forall (HL : LawfulEncoding (tree_encoding (ix_tree ix))) (HC : CheckableEncoding (tree_encoding (ix_tree ix))),
  match tree_root (ix_tree ix) with
  | None => True
  | Some root => exists h keys, well_formed (ix_tree ix) h root keys /\ settled keys /\ Forall (points (file := file) may leaves) keys
  end.

Section OneTableHolds.
Context (tb : TableInner) (Htrees : forall t, t ∈ table_trees tb -> t ∈ trees).

(** Against whatever the records are. *)
Definition index_checked (ix : IndexInner) : Prop :=
  forall (HP : LawfulEncoding (tree_encoding (ti_primary tb))) (HCP : CheckableEncoding (tree_encoding (ti_primary tb)))
    (HG : DigestGuards (tree_encoding (ti_primary tb))) leaves,
  record_leaves tb leaves -> index_sound own leaves ix.

(** What is found by a key is on a leaf of the records. *)
Lemma find_record `{!LawfulEncoding (tree_encoding (ti_primary tb))} `{!CheckableEncoding (tree_encoding (ti_primary tb))}
    `{!DigestGuards (tree_encoding (ti_primary tb))} leaves key s pin i :
  record_leaves tb leaves -> I s -> fst (find (ti_primary tb) key s) = Ok (Some (pin, i)) -> exists l, l ∈ leaves /\ on_leaf l pin.
Proof.
  unfold record_leaves. intros Hrec Hs Hf. pose proof (primary_in tb Htrees) as Hin. pose proof (tree_has_id trees Hids _ Hin) as Hid.
  destruct (tree_root (ti_primary tb)) as [root|] eqn:Hroot.
  - destruct Hrec as (h & Hwf & _). exact (proj2 (find_in_leaves (ti_primary tb) h root leaves key s Hid Hwf (proj2 Hs _ Hin)) pin i Hf).
  - unfold find, search, descend, root_page, sbind, lift in Hf. destruct (ke_digest _ key); [|discriminate]. cbn in Hf. rewrite Hroot in Hf. discriminate.
Qed.

Lemma holds_index ix : holds I own (verify_tree options (ix_tree ix) (ReferenceValues (ti_primary tb))) (fun _ => index_checked ix).
Proof.
  intros s Hs Hw Hc Hc'. destruct (fst _) as [u|e] eqn:Hrun; [|exact Logic.I]. intros HP HCP HG leaves Hrec HL HC.
  assert (LookupKeeps I (ReferenceValues (ti_primary tb))) as HK by (apply (keeps_lookup tb Htrees); congruence).
  assert (Records own (ReferenceValues (ti_primary tb))) as HR by discriminate.
  assert (FindsIn I own (ReferenceValues (ti_primary tb)) leaves) as HF.
  { intros p key [= <-] st Hst _ _ _. unfold attempt. pose proof (fun pin i => find_record leaves key (rp_store st) pin i Hrec Hst) as Hf.
    destruct (find (ti_primary tb) key (rp_store st)) as [r s0]. intros pin i ->. exact (Hf pin i eq_refl). }
  pose proof (verify_tree_ok options Hmax I own (ix_tree ix) _ leaves Hfile Hcount s Hs Hw Hc Hc') as H. rewrite Hrun in H.
  destruct (tree_root (ix_tree ix)) as [r|]; [|exact Logic.I]. destruct H as (h' & ks & Hwf & Hset & Hval).
  exists h', ks. split; [exact Hwf|]. split; [exact Hset|]. eapply Forall_impl; [exact Hval|]. intros l Hl j e Hj He. exact (proj2 (Hl j e Hj He)).
Qed.

Lemma dholds_end_of_tree : dholds (end_of_tree options) (eq false).
Proof.
  intros s _ _ (H1 & _ & H3) _. unfold end_of_tree, sbind, sget. rewrite H3, H1. change (zlen (@nil VerifyProblem)) with 0.
  now rewrite (proj2 (Z.leb_gt _ _)) by lia.
Qed.

Lemma dholds_verify_index fuel name : dholds (verify_index options fuel tb name)
  (fun _ => exists ix, table_index tb name = Ok ix /\ index_checked ix).
Proof.
  unfold verify_index. apply dholds_known. intros ix Hix. pose proof (Htrees _ (index_tree_of _ _ _ Hix)) as Hin.
  eapply dholds_bind; [apply dholds_walk, holds_index | apply dtame_walk, (tame_walk_tree tb Htrees); congruence || discriminate | intros _; now apply (dtame_scan_index) |].
  intros u H s Hs Hw Hc Hc'. destruct (fst _); eauto.
Qed.

Lemma dholds_verify_indexes fuel ds : dholds (verify_indexes options fuel tb ds)
  (fun ended => ended = false /\ Forall (fun i => exists ix, table_index tb (id_name i) = Ok ix /\ index_checked ix) ds).
Proof.
  induction ds as [|d ds IH]; cbn [verify_indexes]; [apply dholds_ret; split; [reflexivity | constructor]|].
  eapply dholds_bind; [apply dholds_verify_index | now apply dtame_verify_index | intros _ |].
  { apply dtame_bind; [apply dtame_end_of_tree|]. intros [|]; [apply dtame_ret | now apply dtame_verify_indexes]. }
  intros u Hd. eapply dholds_bind; [apply dholds_end_of_tree | apply dtame_end_of_tree | |].
  { intros [|]; [apply dtame_ret | now apply dtame_verify_indexes]. }
  intros ? <- s Hs Hw Hc Hc'. specialize (IH s Hs Hw Hc Hc'). destruct (fst _); [|exact Logic.I]. destruct IH as [-> IH]. auto.
Qed.
End OneTableHolds.

End Within.

#[local] Hint Resolve dtame_ret dtame_fail dtame_get dtame_walk tame_full tame_truncate tame_attempt tame_in_store tame_lift : tame.
#[local] Hint Extern 1 (tame _ _ (failed _ _ _)) => (apply tame_failed; exact _) : tame.
#[local] Hint Extern 1 (tame _ _ (problem _ _)) => (apply tame_problem; exact _) : tame.
#[local] Hint Extern 1 (tame _ _ file_pages) => (apply tame_file_pages; exact _) : tame.
#[local] Hint Extern 1 (spares _ (cs_reserve _)) => (apply spares_reserve; exact _) : tame.
#[local] Hint Extern 1 (tame _ _ (on_report count_entry)) => apply tame_count; auto : tame.

Ltac dtame_run :=
  repeat first
    [ progress auto with tame
    | apply dtame_bind; [|intros ?]
    | lazymatch goal with |- dtame _ (match ?x with _ => _ end) => destruct x end ].

(** ** A table, its records and its indexes *)

Abbreviation tidy m := (dtame anywhere m).
Abbreviation shows m Q := (dholds anywhere m Q).

Lemma dtame_overflow_pages d : tidy (overflow_pages d).
Proof.
  unfold overflow_pages. destruct (td_secondaries d); [auto with tame|]. do 2 (apply dtame_bind; [auto with tame|intros ?]).
  intros s Hs. simpl. split_and!; auto. now intros _ b.
Qed.

Lemma record_values_plain d p : record_values d <> ReferenceValues p.
Proof. unfold record_values. now destruct (td_secondaries d). Qed.

Lemma dtame_verify_table fuel d : tidy (verify_table options fuel db d).
Proof.
  unfold verify_table. apply dtame_known. intros tb Htb. pose proof (fun t => table_tree _ tb t Htb) as Htrees.
  apply dtame_bind; [apply dtame_overflow_pages|]. intros _.
  apply dtame_bind; [apply dtame_walk, (tame_walk_tree anywhere tb Htrees); [intros p Hp; now apply record_values_plain in Hp | easy]|]. intros _.
  apply dtame_bind; [apply dtame_end_of_tree|]. intros [|]; [apply dtame_ret | now apply dtame_verify_indexes].
Qed.

Lemma dtame_verify_tables fuel ds : tidy (verify_tables options fuel db ds).
Proof.
  induction ds as [|d ds IH]; cbn [verify_tables]; [apply dtame_ret|]. apply dtame_bind; [apply dtame_verify_table|].
  intros [|]; [apply dtame_ret | exact IH].
Qed.


(** What the table of a descriptor is when it has passed: its handle and the
    handles of its indexes are there; the tree of its records is as the queries
    assume it; and every index leads to those records. *)
Definition table_sound (d : TableDescriptor) : Prop :=
  exists tb, db_table db (td_name d) = Ok tb /\
    Forall (fun i => exists ix, table_index tb (id_name i) = Ok ix) (td_secondaries d) /\
    forall (HP : LawfulEncoding (tree_encoding (ti_primary tb))) (HCP : CheckableEncoding (tree_encoding (ti_primary tb))),
    exists leaves, record_leaves tb leaves /\
      forall (HG : DigestGuards (tree_encoding (ti_primary tb))) i ix,
        i ∈ td_secondaries d -> table_index tb (id_name i) = Ok ix -> index_sound (on_own_page leaves) leaves ix.

(** One step of a run of the driver that ends well. *)
Lemma clean_dstep {A B} (m : DM A) (f : A -> DM B) s r s' :
  tidy m -> (forall a, tidy (f a)) -> I (rp_store s) -> clean s' -> sbind m f s = (Ok r, s') ->
  exists a s1, m s = (Ok a, s1) /\ I (rp_store s1) /\ clean s1 /\ f a s1 = (Ok r, s').
Proof.
  intros Hm Hf Hs Hc' Hrun. unfold sbind in Hrun. destruct (Hm s Hs) as (Hs1 & _ & _). destruct (m s) as [[a|e] s1]; [|discriminate].
  destruct (Hf a s1 Hs1) as (_ & Hc1 & _). rewrite Hrun in Hc1. exists a, s1. auto.
Qed.

(** The walk over the records sets the bits of their pages only. *)
Lemma records_recorded tb values s s' :
  ti_primary tb ∈ trees -> (forall p, values <> ReferenceValues p) -> I (rp_store s) -> clean s -> clean s' ->
  verify_tree options (ti_primary tb) values s = (Ok tt, s') ->
  forall (HP : LawfulEncoding (tree_encoding (ti_primary tb))) (HCP : CheckableEncoding (tree_encoding (ti_primary tb))),
  exists leaves, record_leaves tb leaves /\
    ((forall b, overflow_contains b (rp_overflow s) = false) -> within (on_own_page leaves) s').
Proof.
  intros Hin Hv Hs Hc Hc' Hrun HP HCP.
  assert (LookupKeeps I values) as HK by (intros p key Hp; now apply Hv in Hp).
  assert (FindsIn I anywhere values []) as HF by (intros p key Hp; now apply Hv in Hp).
  assert ((forall b, overflow_contains b (rp_overflow s) = false) -> forall own, within own s) as Hw
    by (intros Hempty own b _ Hb; now rewrite Hempty in Hb).
  pose proof (verify_tree_records options Hmax I (ti_primary tb) values Hfile Hcount s s' Hs Hc Hc' Hrun) as H. unfold record_leaves.
  destruct (tree_root (ti_primary tb)) as [root|]; [|exists []; split; [reflexivity | intros He; exact (H _ (Hw He _))]].
  destruct H as (h & leaves & Hwf & Hset & Hval & Hbits). exists leaves. split; [|intros He; exact (Hbits _ (Hw He _) (fun _ H => H))].
  exists h. split; [exact Hwf|]. split; [exact Hset|]. eapply Forall_impl; [exact Hval|]. intros l Hl j e Hj He. exact (proj1 (Hl j e Hj He)).
Qed.

Lemma index_sound_mono (may may' : PageOrdinal -> Prop) leaves ix :
  (forall b, may b -> may' b) -> index_sound may leaves ix -> index_sound may' leaves ix.
Proof.
  intros Hsub Hix HL HC. specialize (Hix HL HC). destruct (tree_root (ix_tree ix)) as [root|]; [|exact Logic.I].
  destruct Hix as (h & keys & Hwf & Hset & Hp). exists h, keys. split; [exact Hwf|]. split; [exact Hset|].
  eapply Forall_impl; [exact Hp|]. intros l. exact (points_mono may may' leaves l Hsub).
Qed.

Lemma known_step {A B} (r : Result A) (f : A -> DM B) s b s' :
  sbind (walk (lift r)) f s = (Ok b, s') -> exists a, r = Ok a /\ f a s = (Ok b, s').
Proof. destruct r as [a|e]; [intros H; exists a; split; [reflexivity | exact H] | discriminate]. Qed.

Lemma walk_run {A} (m : SM (Reporter Store) Error A) s a s' : walk m s = (Ok a, s') -> m s = (Ok a, s').
Proof. unfold walk. destruct (m s) as [[b|e] s1]; [intros [= -> ->]; reflexivity | discriminate]. Qed.

(** A table with an index starts with no bit set. *)
Lemma overflow_pages_reset d s u s' :
  overflow_pages d s = (Ok u, s') -> td_secondaries d = [] \/ forall b, overflow_contains b (rp_overflow s') = false.
Proof.
  unfold overflow_pages. destruct (td_secondaries d); [now left|]. intros H. right. intros b. unfold sbind in H.
  destruct (walk file_pages s) as [[pages|e] s1]; [|discriminate]. destruct (walk (in_store _) s1) as [[k|e] s2]; [|discriminate].
  injection H as _ <-. apply overflow_contains_empty.
Qed.

Lemma table_verified fuel d s ended s' :
  I (rp_store s) -> clean s' -> verify_table options fuel db d s = (Ok ended, s') -> ended = false /\ table_sound d.
Proof.
  intros Hs Hc' Hrun. unfold verify_table in Hrun. apply known_step in Hrun as (tb & Htb & Hrun).
  pose proof (fun t => table_tree _ tb t Htb) as Htrees.
  assert (forall b : bool, tidy (if b then sret true else verify_indexes options fuel tb (td_secondaries d))) as Htail
    by (intros [|]; [apply dtame_ret | now apply dtame_verify_indexes]).
  assert (tidy (walk (verify_tree options (ti_primary tb) (record_values d)))) as Hvt.
  { apply dtame_walk, (tame_walk_tree anywhere tb Htrees); [|exact _]. intros p Hp. now apply record_values_plain in Hp. }
  apply clean_dstep in Hrun as (u & s1 & Hreset & Hs1 & Hc1 & Hrun); [|apply dtame_overflow_pages | intros ?; dtame_run; apply dtame_end_of_tree | assumption..].
  apply clean_dstep in Hrun as ([] & s2 & Hwalk%walk_run & Hs2 & Hc2 & Hrun); [|exact Hvt | intros ?; dtame_run; apply dtame_end_of_tree | assumption..].
  apply clean_dstep in Hrun as (cut & s3 & Hend & Hs3 & Hc3 & Hrun); [|apply dtame_end_of_tree | exact Htail | assumption..].
  set (set_bits b := 0 <= b /\ overflow_contains b (rp_overflow s2) = true).
  assert (within set_bits s3) as Hw3.
  { destruct (dtame_end_of_tree set_bits s2 Hs2) as (_ & _ & H). rewrite Hend in H. apply H. now split. }
  pose proof (dholds_end_of_tree anywhere s2 Hs2 (fun _ _ _ => Logic.I) Hc2) as Hcut. rewrite Hend in Hcut. specialize (Hcut Hc3). cbn in Hcut. subst cut.
  pose proof (dholds_verify_indexes set_bits tb Htrees fuel (td_secondaries d) s3 Hs3 Hw3 Hc3) as Hix. rewrite Hrun in Hix.
  destruct (Hix Hc') as [-> Hall]. split; [reflexivity|]. exists tb. split; [exact Htb|]. split.
  { eapply Forall_impl; [exact Hall|]. intros i (ix & Hix' & _). eauto. }
  intros HP HCP. destruct (records_recorded tb (record_values d) s1 s2 (primary_in tb Htrees) (record_values_plain d) Hs1 Hc1 Hc2 Hwalk HP HCP)
    as (leaves & Hrec & Hbits). exists leaves. split; [exact Hrec|]. intros HG i ix Hi Hlook.
  rewrite Forall_forall in Hall. destruct (Hall i Hi) as (ix' & Hlook' & Hchecked). rewrite Hlook in Hlook'. injection Hlook' as <-.
  apply (index_sound_mono set_bits); [|exact (Hchecked HP HCP HG leaves Hrec)]. intros b [Hb Hset].
  destruct (overflow_pages_reset d s u s1 Hreset) as [Hnil|Hempty]; [rewrite Hnil in Hi; now inversion Hi | exact (Hbits Hempty b Hb Hset)].
Qed.

Lemma dholds_verify_table fuel d : shows (verify_table options fuel db d) (fun ended => ended = false /\ table_sound d).
Proof.
  intros s Hs _ Hc Hc'. destruct (verify_table options fuel db d s) as [[ended|e] s'] eqn:Hrun; [|exact Logic.I].
  exact (table_verified fuel d s ended s' Hs Hc' Hrun).
Qed.

Lemma dholds_verify_tables fuel ds : shows (verify_tables options fuel db ds) (fun _ => Forall table_sound ds).
Proof.
  induction ds as [|d ds IH]; cbn [verify_tables]; [apply dholds_ret; constructor|].
  eapply dholds_bind; [apply dholds_verify_table | apply dtame_verify_table | intros [|]; [apply dtame_ret | apply dtame_verify_tables]|].
  intros ? [-> Hd] s Hs Hw Hc Hc'. specialize (IH s Hs Hw Hc Hc'). destruct (fst _); auto.
Qed.

(** ** The sweep over the pages *)

Lemma spares_page_inv o : spares I (ts_page o).
Proof. apply spares_page. exact _. Qed.
#[local] Hint Resolve spares_page_inv : tame.
#[local] Hint Extern 1 (tame _ _ (on_report count_page)) => apply tame_count; auto : tame.

Lemma tame_sweep n : forall o, tame I anywhere (sweep options n o).
Proof.
  induction n as [|n IH]; intros o; cbn [sweep]; [intros s Hs; simpl; auto|]. apply tame_bind; [apply tame_full|]. intros [|].
  - unfold stopped. intros s Hs. simpl. auto.
  - apply tame_bind; [auto with tame|]. intros r. apply tame_bind; [destruct r; auto with tame | auto].
Qed.

Lemma holds_sweep n : forall o, holds I anywhere (sweep options n o)
  (fun cut => cut = false /\ forall k, o <= k < o + Z.of_nat n -> exists bytes, file k = Some bytes).
Proof.
  induction n as [|n IH]; intros o; cbn [sweep]; [apply holds_ret; split; [reflexivity | lia]|].
  assert (forall r : Result PagePin, tame I anywhere (let! _ := match r with Ok _ => on_report count_page | Err e => failed options (Some o) e end in
    sweep options n (o + 1))) as Ht.
  { intros r. apply tame_bind; [destruct r; auto with tame | intros ?; apply tame_sweep]. }
  apply holds_unless_full; [exact Hmax | unfold stopped; intros s Hs; simpl; auto | apply tame_bind; [auto with tame | exact Ht] |].
  eapply holds_bind; [apply holds_page; exact _ | auto with tame | exact Ht |]. intros r Hr.
  destruct r as [pin|e]; [|apply holds_after_failed; first [exact Hmax | exact _ | intros ?; apply tame_sweep]].
  eapply holds_bind; [apply holds_any | auto with tame | intros ?; apply tame_sweep|].
  intros u _. eapply holds_weaken; [apply IH|]. intros cut [-> H]. split; [reflexivity|]. intros k Hk.
  destruct (decide (k = o)) as [->|]; [|apply H; lia]. destruct (Hr pin eq_refl) as (_ & Hf & _). eauto.
Qed.

Lemma dtame_verify_pages : tidy (verify_pages options).
Proof. unfold verify_pages. apply dtame_bind; [auto with tame|]. intros pages. apply dtame_bind; [apply dtame_walk, tame_sweep|]. intros cut. dtame_run. Qed.

Lemma dholds_verify_pages : shows (verify_pages options)
  (fun ended => ended = false /\ forall o, 0 <= o < page_count -> exists bytes, file o = Some bytes).
Proof.
  unfold verify_pages. eapply dholds_bind; [apply dholds_walk, holds_file_pages; exact _ | auto with tame | |].
  { intros pages. apply dtame_bind; [apply dtame_walk, tame_sweep|]. intros cut. dtame_run. }
  intros ? <-. eapply dholds_bind; [apply dholds_walk, holds_sweep | apply dtame_walk, tame_sweep | intros cut; dtame_run |].
  intros cut [-> H] s _ _ (_ & _ & Hf) _. unfold sbind, sget. rewrite Hf. simpl. split; [reflexivity|]. intros o Ho. apply H. lia.
Qed.

(** ** The verdict *)

(** A pass that comes back has not been stopped. *)
Definition unstopped {A} (x : result Cache.Stop A * Reporter Store) : Prop :=
  match fst x with Ok _ => rp_failure (snd x) = None | Err _ => True end.

Lemma unstopped_bind {A B} (m : DM A) (f : A -> DM B) s : (forall a s', unstopped (f a s')) -> unstopped (sbind m f s).
Proof. intros Hf. unfold sbind. destruct (m s) as [[a|e] s']; [apply Hf | exact Logic.I]. Qed.

Lemma unstopped_end_of_tree (f : bool -> DM bool) s :
  (forall b s', rp_failure s' = None -> unstopped (f b s')) -> unstopped (sbind (end_of_tree options) f s).
Proof.
  intros Hf. unfold end_of_tree, sbind, sget. destruct (rp_failure s) as [e|] eqn:Hfail; [exact Logic.I|].
  destruct (_ <=? _); cbn; now apply Hf.
Qed.

Lemma unstopped_verify_indexes fuel tb ds : forall s, rp_failure s = None -> unstopped (verify_indexes options fuel tb ds s).
Proof.
  induction ds as [|d ds IH]; cbn [verify_indexes]; intros s Hs; [exact Hs|]. apply unstopped_bind. intros _ s1.
  apply unstopped_end_of_tree. intros [|] s2 H2; [exact H2 | now apply IH].
Qed.

Lemma unstopped_verify_table fuel d s : unstopped (verify_table options fuel db d s).
Proof.
  unfold verify_table. apply unstopped_bind. intros tb s1. apply unstopped_bind. intros u s2. apply unstopped_bind. intros u' s3.
  apply unstopped_end_of_tree. intros [|] s4 H4; [exact H4 | now apply unstopped_verify_indexes].
Qed.

Lemma unstopped_verify_tables fuel ds : forall s, rp_failure s = None -> unstopped (verify_tables options fuel db ds s).
Proof.
  induction ds as [|d ds IH]; cbn [verify_tables]; intros s Hs; [exact Hs|]. unfold sbind. pose proof (unstopped_verify_table fuel d s) as H.
  destruct (verify_table options fuel db d s) as [[[|]|e] s1]; [exact H | apply IH; exact H | exact Logic.I].
Qed.

Lemma unstopped_verify_pages s : unstopped (verify_pages options s).
Proof.
  unfold verify_pages. apply unstopped_bind. intros pages s1. apply unstopped_bind. intros cut s2. unfold sbind, sget.
  destruct (rp_failure s2) as [e|] eqn:Hf; [exact Logic.I|]. now destruct cut.
Qed.

Lemma unstopped_verify_passes fuel s : rp_failure s = None -> unstopped (verify_passes options fuel db s).
Proof.
  intros Hs. unfold verify_passes, sbind. destruct (vo_check_pages options).
  - pose proof (unstopped_verify_pages s) as H. destruct (verify_pages options s) as [[[|]|e] s1]; [exact H | | exact Logic.I].
    destruct (vo_check_trees options); [now apply unstopped_verify_tables | exact H].
  - cbn. destruct (vo_check_trees options); [now apply unstopped_verify_tables | exact Hs].
Qed.

Lemma dholds_verify_passes fuel : shows (verify_passes options fuel db) (fun _ =>
  (vo_check_pages options = true -> forall o, 0 <= o < page_count -> exists bytes, file o = Some bytes) /\
  (vo_check_trees options = true -> Forall table_sound (cat_tables (db_catalog db)))).
Proof.
  unfold verify_passes.
  assert (forall b : bool, tidy (if b then sret true else
    if vo_check_trees options then verify_tables options fuel db (cat_tables (db_catalog db)) else sret false)) as Htail.
  { intros [|]; [apply dtame_ret|]. destruct (vo_check_trees options); [apply dtame_verify_tables | apply dtame_ret]. }
  apply (dholds_bind _ _ _ (fun ended => ended = false /\
    (vo_check_pages options = true -> forall o, 0 <= o < page_count -> exists bytes, file o = Some bytes))); [| |exact Htail|].
  - destruct (vo_check_pages options); [|now apply dholds_ret]. intros s Hs Hw Hc Hc'. pose proof (dholds_verify_pages s Hs Hw Hc Hc') as H.
    destruct (fst _); [|exact Logic.I]. destruct H as [-> H]. auto.
  - destruct (vo_check_pages options); [apply dtame_verify_pages | apply dtame_ret].
  - intros ? [-> Hpages]. destruct (vo_check_trees options); [|now apply dholds_ret]. intros s Hs Hw Hc Hc'.
    pose proof (dholds_verify_tables fuel (cat_tables (db_catalog db)) s Hs Hw Hc Hc') as H. destruct (fst _); auto.
Qed.

Lemma dtame_verify_passes fuel : tidy (verify_passes options fuel db).
Proof.
  unfold verify_passes. apply dtame_bind; [destruct (vo_check_pages options); [apply dtame_verify_pages | apply dtame_ret]|].
  intros [|]; [apply dtame_ret|]. destruct (vo_check_trees options); [apply dtame_verify_tables | apply dtame_ret].
Qed.

Lemma db_verify_keeps fuel : keeps I (db_verify options fuel db).
Proof.
  intros st Hinv. unfold db_verify. destruct (_ && _); [exact Hinv|]. pose proof (keeps_try_reserve trees Hids 0 st Hinv) as Hinv'.
  destruct (cs_try_reserve 0 st) as [[charge|e] st1]; [|exact Hinv'].
  pose proof (dtame_verify_passes fuel (mkReporter VerifyReport_default charge None [] st1) Hinv') as [H _].
  now destruct (verify_passes options fuel db _) as [r s1].
Qed.

Lemma verified_database fuel st report st' :
  trees_inv trees st -> db_verify options fuel db st = (Ok report, st') -> is_ok (cd_value report) = true ->
  (vo_check_pages options = true -> forall o, 0 <= o < page_count -> exists bytes, file o = Some bytes) /\
  (vo_check_trees options = true -> Forall table_sound (cat_tables (db_catalog db))).
Proof.
  intros Hinv Hrun Hok. unfold db_verify in Hrun. destruct (_ && _); [discriminate|].
  pose proof (keeps_try_reserve trees Hids 0 st Hinv) as Hinv'.
  destruct (cs_try_reserve 0 st) as [[charge|e] st1]; [|discriminate]. cbn [snd] in Hinv'.
  set (s0 := mkReporter VerifyReport_default charge None [] st1) in Hrun.
  pose proof (unstopped_verify_passes fuel s0 eq_refl) as Hun. pose proof (dholds_verify_passes fuel s0 Hinv' (fun _ _ _ => Logic.I)) as H.
  destruct (verify_passes options fuel db s0) as [[u|e] s1]; [|discriminate]. injection Hrun as <- <-. cbn in Hok, Hun, H. apply H; [now split|].
  apply passed_clean. split; [exact Hok | exact Hun].
Qed.

End Facts.

(** * Over the page store *)

Section OverFile.
Context (cf : Config) (Hfits : config_fits cf).

Lemma file_page_in_file o bytes : file_page cf o = Some bytes -> 0 <= o < cf_page_count cf.
Proof.
  unfold file_page, page_content, content. destruct (Z.ltb_spec o 0) as [|Ho]; [discriminate|]. unfold page_offset.
  destruct (Z.leb_spec (cf_page_count cf) o) as [|Hlt]; [discriminate | lia].
Qed.

(** A page the store hands out has been validated. *)
Lemma file_page_valid o bytes v : file_page cf o = Some bytes -> PageView_parse bytes = Ok v -> PageView_validate v = Ok tt.
Proof.
  unfold file_page, page_content. destruct (o <? 0); [discriminate|]. destruct (content _ _ _ _ _ _ o) as [b|] eqn:Hc; [|discriminate].
  intros [= ->] Hp. unfold content in Hc. inv_ok. unfold check_page_bytes in *.
  repeat match goal with H : map_err _ (rbind (PageView_parse bytes) _) = Ok _ |- _ => rewrite Hp in H; cbn [rbind] in H end.
  destruct (PageView_validate v) as [[]|e]; [reflexivity | discriminate].
Qed.

Lemma verified_readable (t : Tree) `{HL : !LawfulEncoding (tree_encoding t)} h root leaves :
  well_formed (file := file_page cf) (page_count := cf_page_count cf) (max_depth := limit_tree_depth (cf_limits cf)) t h root leaves ->
  Forall (leads (file := file_page cf)) leaves -> readable (file := file_page cf) leaves.
Proof.
  intros Hwf Hl l Hin. rewrite Forall_forall in Hl. specialize (Hl l Hin).
  pose proof (proj2 (subtree_leaves t h root leaves (wf_subtree _ _ _ _ Hwf))) as Hok. rewrite Forall_forall in Hok.
  destruct (Hok l Hin) as [[(bytes & Hf & Hp) _] _]. split; [exact (file_page_valid _ _ _ Hf Hp)|].
  intros j e b Hj He Hb. destruct (Hl j e Hj He b Hb) as (bs & v & H). eauto.
Qed.
End OverFile.

Section OverDatabase.
Context (alloc : StdAlloc) (lay : Layout) (zstd : option PageFilter) (vec_capacity : Z -> Z) (data : list byte) (o : OpenOptions).
Context (Hok : options_ok lay zstd o) (Hdata : zlen data < 2 ^ 63).

(** What the pass needs holds in a database just opened. *)
Lemma opened_ready next db s next' (Hop : opened alloc lay zstd vec_capacity data o next db s next') d :
  1 <= next -> d ∈ cat_tables (db_catalog db) ->
  let trees := db_trees (db_tables db) in
  Forall (fun t => 1 <= tree_id t) trees /\ NoDup (map tree_id trees) /\ cf_page_count (db_config db) <= u64_max /\
  forall Hfits, trees_inv (SL := Open_laws (db_config db) Hfits) trees (mkOpen s).
Proof.
  intros Hnext Hd trees. destruct Hop as [_ _ _ Hfits _ Htable _ (_ & Hnd & Hids) Hinv _ _]. destruct (Htable d Hd) as (tb & Htb & _).
  split_and!; [eapply Forall_impl; [exact Hids | cbn; lia] | exact Hnd | |].
  - destruct Hfits. unfold DIRECTORY_SLOT_LEN, u64_max in *. lia.
  - intros Hf. pose proof (table_tree db (td_name d) tb (ti_primary tb) Htb (list_elem_of_here _ _)) as Hin.
    split; [apply (Hinv Hf _ Hin) | exact (Hinv Hf)].
Qed.

(** C5: verifying a file that has been opened is enough to trust it.  Whatever
    bytes the file holds, when it opens and the walk over its trees reports
    nothing, every table of the catalog that is not empty is a tree of settled
    leaves with ascending keys, and in the state the pass leaves behind its handle
    answers [get] for any key with the bytes stored under exactly that key, or
    with nothing when no entry has it; the only errors are I/O errors, refused
    reservations and bytes that are no key. *)
Theorem verified_file_answers size reads next env db s next' options fuel report s' d :
  size = None \/ size = Some (zlen data) -> 1 <= next ->
  open_source alloc lay zstd vec_capacity data o size reads next env = Ok (db, s, next') ->
  0 < vo_max_problems options -> vo_check_trees options = true ->
  db_verify options fuel db (mkOpen (cf := db_config db) s) = (Ok report, s') -> is_ok (cd_value report) = true ->
  d ∈ cat_tables (db_catalog db) ->
  exists tb, db_table db (td_name d) = Ok tb /\
    forall (HL : LawfulEncoding (tree_encoding (ti_primary tb))) (HC : CheckableEncoding (tree_encoding (ti_primary tb))) root,
    id_root (td_primary d) = Some root ->
    exists h leaves, well_formed (file := file_page (db_config db)) (page_count := cf_page_count (db_config db))
        (max_depth := limit_tree_depth (cf_limits (db_config db))) (ti_primary tb) h root leaves /\ settled leaves /\
      forall key, match fst (table_get tb key s') with
      | Ok r => answer_of (file := file_page (db_config db)) leaves key r
      | Err e => transient e \/ (e = Error_invalid /\ validate_key (tree_encoding (ti_primary tb)) key <> Ok tt)
      end.
Proof.
  intros Hsize Hnext Hopen Hmax Htrees Hrun Hrep Hd.
  pose proof (open_source_opened _ _ _ _ _ _ Hok Hdata _ _ _ _ _ _ _ Hsize Hnext Hopen) as Hop.
  destruct (opened_ready _ _ _ _ Hop d Hnext Hd) as (Hpos & Hnd & Hcount & Htinv). destruct Hop as [_ _ _ Hfits _ Htable _ _ _ _ _].
  specialize (Htinv Hfits). destruct (Htable d Hd) as (tb & Htb & _ & _ & Htroot & _).
  pose proof (table_tree db (td_name d) tb (ti_primary tb) Htb (list_elem_of_here _ _)) as Hin.
  pose proof (verified_database (SL := Open_laws (db_config db) Hfits) (CL := Open_cursor_laws _ Hfits) (file_page_in_file _) Hcount options Hmax db Hpos Hnd
    fuel _ _ _ Htinv Hrun Hrep) as [_ Hsound].
  pose proof (db_verify_keeps (SL := Open_laws (db_config db) Hfits) (CL := Open_cursor_laws _ Hfits) options db Hpos Hnd fuel _ Htinv) as Hinv'.
  rewrite Hrun in Hinv'. cbn [snd] in Hinv'.
  pose proof (proj1 (Forall_forall _ _) (Hsound Htrees) d Hd) as (tb' & Htb' & _ & Hprim). rewrite Htb in Htb'. injection Htb' as <-.
  exists tb. split; [exact Htb|]. intros HL HC root Hroot. destruct (Hprim HL HC) as (leaves & Hrec & _). unfold record_leaves in Hrec. rewrite Htroot, Hroot in Hrec.
  destruct Hrec as (h & Hwf & Hset & Hleads). exists h, leaves. split; [exact Hwf|]. split; [exact Hset|]. intros key.
  pose proof (verified_readable _ _ h root leaves Hwf Hleads) as Hread.
  destruct (table_get_spec (SL := Open_laws (db_config db) Hfits) tb (tree_has_id _ Hpos _ Hin) h root leaves Hwf Hread key _ (proj2 Hinv' _ Hin)) as [_ H].
  destruct (fst _) as [r|e]; [exact H|]. destruct H as [He|He]; [left; exact (scan_error_transient _ Hfits e He) | now right].
Qed.
End OverDatabase.

(** ** The file of the opened example, verified *)

Definition verify_opened (db : Database) (s : Store) : result Cache.Stop (Charged VerifyReport) * OpenStore (db_config db) :=
  db_verify VerifyOptions_default 8 db (mkOpen (cf := db_config db) s).

Example example_verifies :
  match open_example with
  | Ok (db, s, _) =>
      match fst (verify_opened db s) with
      | Ok report => is_ok (cd_value report) = true /\ vr_pages_checked (cd_value report) = 1 /\
          vr_trees_checked (cd_value report) = 1 /\ vr_entries_checked (cd_value report) = 1
      | Err _ => False
      end
  | Err _ => False
  end.
Proof. vm_compute. auto. Qed.

Lemma example_handle db s n : open_example = Ok (db, s, n) ->
  cat_tables (db_catalog db) = [place_table 26 open_table] /\ db_table db (td_name open_table) = Ok open_handle /\
  exists report s', verify_opened db s = (Ok report, s') /\ is_ok (cd_value report) = true.
Proof.
  intros H. pose proof open_example_db as Hdb. pose proof example_verifies as Hv. rewrite H in Hdb, Hv. clear H. destruct Hdb as (_ & Hcat & Htab).
  split; [exact Hcat|]. split; [unfold db_table, by_name; now rewrite Htab|].
  destruct (verify_opened db s) as [[report|e] s']; [|contradiction]. exists report, s'. split; [reflexivity | exact (proj1 Hv)].
Qed.

Lemma verified_file_answers_witness :
  exists db s n report s' h leaves, open_example = Ok (db, s, n) /\ verify_opened db s = (Ok report, s') /\
    well_formed (file := file_page (db_config db)) (page_count := cf_page_count (db_config db))
      (max_depth := limit_tree_depth (cf_limits (db_config db))) demo_tree h 0 leaves /\
    match fst (table_get open_handle [Byte.x62] s') with
    | Ok r => answer_of (file := file_page (db_config db)) leaves [Byte.x62] r
    | Err e => transient e \/ (e = Error_invalid /\ validate_key AsciiEncoding [Byte.x62] <> Ok tt)
    end.
Proof.
  pose proof (verified_file_answers doubling open_layout None (fun n => n) open_file open_options open_options_ok ltac:(vm_compute; reflexivity)
    (Some (zlen open_file)) open_reads 1 []) as H. fold open_example in H.
  pose proof open_example_db as Hopen.
  destruct open_example as [[[db s] n]|] eqn:Ho; [|contradiction Hopen]. clear Hopen.
  destruct (example_handle db s n Ho) as (Hcat & Htb & report & s' & Hrun & Hok).
  destruct (H db s n VerifyOptions_default 8%nat report s' (place_table 26 open_table)) as (tb & Htb' & Hget);
    [right; reflexivity | reflexivity || lia | reflexivity | reflexivity | reflexivity | exact Hrun | exact Hok | rewrite Hcat; left|].
  cbn [td_name place_table] in Htb'. change (td_name _) with (td_name open_table) in Htb'. rewrite Htb in Htb'. injection Htb' as <-.
  destruct (Hget Ascii_lawful Ascii_checkable 0 eq_refl) as (h & leaves & Hwf & _ & Hans).
  exists db, s, n, report, s', h, leaves. split; [reflexivity|]. split; [exact Hrun|]. split; [exact Hwf|]. exact (Hans [Byte.x62]).
Defined.

(** ** A file with an index, verified

    Three rows with an index on their values, one of which is too long for its
    leaf: its index entry refers to the page of the value. *)

#[local] Instance exact_alloc : VecAlloc := {| vec_extend := Z.max; vec_shrink := fun _ n => n |}.



(** The runs are looked into last. *)
#[local] Strategy 100 [append_all build_into open_source].


